(* ===== verification/_CoqProject ===== *)
-Q . S2P
Prelude.v
Bitcoin.v
Coin.v
CoinSelection.v
Recipient.v
Transaction.v
TxBuilder.v
Persist.v
HeaderBackend.v
HeaderValidator.v
HeaderStore.v
HeaderWorker.v
Fanout.v
Merkle.v
Notification.v
TxStore.v
Derivator.v
AddressStore.v
Claims.v
CoinStore.v
Wallet.v
Reconcile.v
History.v
Listener.v
ElectrumClient.v
Validation.v
ElectrumListener.v
Connection.v
Bytes.v
U2f.v
LedgerMerkle.v
Ledger.v
SpCoinStore.v
SpTxStore.v
SpState.v
SpScan.v
SpSweep.v
SpCurve.v
SpCommon.v
SpSending.v
SpReceiving.v
SpPayment.v
HotSigner.v
SpAccount.v
SpWallet.v
SpControl.v
