(* ===== verification/Prelude.v ===== *)
(** * A verification of the bwk wallet kit

    bwk is a Rust workspace for Bitcoin wallets. A wallet is watched over an
    Electrum connection: a listener turns the lines of a server into messages, a header
    worker keeps a validated chain of headers, a scan loop learns the histories of the
    wallet's scripts, a coin store generates the coins from the stored transactions, a
    reconciler proves the reported heights against the chain, a transaction builder
    spends the coins, and hot signers or hardware wallets sign. A silent-payment account
    scans the blocks of an oracle instead. The files below model these parts, bottom up,
    and prove what makes each correct.

    ** Files

    - [Prelude]: [outcome] (a Rust call returns or panics), [result], checked and
      wrapping machine arithmetic under the [Build] class (debug and release builds),
      [BTreeMap] as an ordered view of [gmap] ([bt_items], [bt_keys], [bt_values]),
      folds and sums.
    - [Bitcoin]: the data of the bitcoin crate, and its operations as the class
      [TxLib] with documented laws [TxLaws]; [Sample] is a concrete instance.
    - [Coin] (coin/src/lib.rs), [CoinSelection] (tx/src/coin_selection.rs),
      [Recipient] (tx/src/recipient.rs, psbt_sp.rs), [Transaction]
      (tx/src/transaction.rs), [TxBuilder] (tx/src/tx_builder.rs): from coins and
      recipients to a PSBT. The traits [CoinSource], [CoinSelector] and
      [RecipientProvider] are classes; [Transaction] is proved against them and
      [TxBuilder] instantiates them.
    - [Persist] (persist/src/lib.rs, backend/mod.rs, backend/noop.rs): the byte-level
      [PersistenceBackend], the typed [Store] with the laws [StoreLaws] and
      [StoreTotal], and [RamStore], which is proved to satisfy them. Every store
      above is proved against [Store] only. [HeaderBackend]
      (persist/src/backend/headers.rs): the binary header file.
    - [HeaderValidator] (electrum/src/header_validator.rs, checkpoint.rs),
      [HeaderStore] and [HeaderWorker] (electrum/src/header_store.rs): consensus
      checks, the stored chain with its reorganisations and reload, the thread that
      syncs it. [Fanout] (fanout.rs) and [Merkle] (the merkle part of
      header_store.rs): who is told, and whose proof request an answer resolves.
    - [Notification] (notification.rs, tx_listener.rs), [TxStore] (tx_store.rs,
      label_store.rs), [Derivator] (descriptor/src/derivator.rs), [AddressStore]
      (address_store.rs, profile.rs), [Claims] and [CoinStore] (coin_store.rs,
      coin_state.rs): the wallet's stores. [Wallet] states their invariant over
      every operation another thread may run on them.
    - [Reconcile] (reconcile.rs): composes [CoinStore], [HeaderStore] and [Merkle].
      [History] (history.rs, scanner.rs): payments and the balance. [Listener]
      (listener.rs, messages of client/mod.rs): the scan loop on top of the stores.
    - [ElectrumClient] (electrum/src/electrum, raw_client, client/mod.rs): requests,
      responses, the lines of a socket, the calls that wait for an answer. [Validation]
      (validation.rs): what a wallet asks a server before it signs, over the class
      [ChainClient] that the client implements. [ElectrumListener] (client/listener.rs,
      tx_listener.rs, header_listener.rs): the two threads at the client's end of a
      connection, instances of one loop over the class [Handler]; the scan loop and the
      header worker above are what they talk to. [Connection] (config.rs,
      header_follower.rs, scanner.rs, bwk/src/account.rs): which endpoint the scanner and
      the header store of an account are on.
    - [Bytes] and [U2f] (hwi/src/bitbox/api/u2fframing.rs, communication.rs): byte
      buffers, and the frames a BitBox speaks in. [LedgerMerkle] and [Ledger]
      (hwi/src/ledger/bitcoin_client: merkle.rs, interpreter.rs, apdu.rs, command.rs,
      client.rs): the client of a Ledger, which answers what the device asks about
      lists and maps it only holds commitments of.
    - [SpCoinStore], [SpTxStore] (sp/src/account/coin_store.rs, tx_store.rs),
      [SpState] (sp/src/scan/state.rs), [SpScan] and [SpSweep] (sp/src/scan/mod.rs):
      the stores of a silent-payment account, how far its scan got, the pass that
      receives coins with its reorganisations, and the pass that looks for their
      spends, over [Store], [HeaderStore] and an arbitrary block oracle.
    - [SpCurve], [SpCommon] (sp/src/core/utils), [SpSending] (core/sending.rs) and
      [SpReceiving] (core/receiving.rs): the curve as a parameter, what the two sides
      of a silent payment derive, the sender's output keys, the receiver's labels, scan
      and input keys. [SpPayment] (account/recipient.rs, receiver/mod.rs): the key
      material of an account, its output providers (instances of [RecipientProvider])
      and the secret provider the engine of [Transaction] calls. [SpAccount]
      (account/mod.rs): what an account finds in a transaction and how its spends are
      recorded, composed of all of these and the stores.
    - [HotSigner] (sign/src/hot_signer.rs, signing_manager.rs, keys/src/derivator.rs): the
      signing of each kind of input and the manager that keeps the signers in a store.
      [SpWallet] (account/mod.rs, account/unified.rs, tx/src/template.rs): the account and
      its sub-accounts as a wallet, from a request to a signed PSBT, on top of
      [TxBuilder], [SpAccount] and [HotSigner]. [SpControl] (scan/mod.rs): the threads
      that run the passes of [SpScan] and [SpSweep], and the handle an account keeps.

    In each file the component is a Module with the source's names: a Record for a
    struct, an inductive type for an enum, one definition per function, and a nested
    Module [Witness] with concrete states. Functions that lock a shared store take
    and return it; a function that may panic returns an [outcome].

    ** What the theorems show

    - Spending. A generated PSBT spends coins of the source, pays each recipient,
      leaves the fee it says and creates no dust change ([TxBuilder.generate_sound],
      [Transaction.process_transaction_conserves]); the engine is total under stated
      bounds; the selector's choice covers the target and follows its preference.
    - The chain. [validate_append] accepts exactly the headers that meet the
      declarative rules; every mutator keeps the chain valid, a branch replaces the
      active one only with more work, a reload accepts exactly what replays; the
      worker keeps all that against any server and any interleaving of stops and
      restarts, and a superseded worker does nothing.
    - Signing. Every input the PSBT describes as the signer's gets a signature
      ([HotSigner.own_inputs_signed]); a signer adds signatures only for keys of its
      master and changes nothing else ([HotSigner.signs_only_its_own]); the manager finds
      its signers again in the store. A request of a silent-payment account becomes the
      transaction it describes ([SpWallet.request_prepared]), and an account signs only
      with keys that open the outputs spent ([SpWallet.account_signs]).
    - The connection. However the socket cuts the bytes, the lines a caller reads are
      those the server sent ([ElectrumClient.lines_reassembled]); against a server that
      answers, every call returns what was asked ([ElectrumClient.calls_answered]), and
      the report on a PSBT is what the chain says ([Validation.validation_exact]). A
      listener hands each answer to the request it belongs to, whatever the server sends
      ([ElectrumListener.answers_not_mixed_up]), and serves a batch of histories whole
      ([ElectrumListener.history_batch_served]). A connection goes without the checks of a
      certificate only where the configuration says so ([Connection.danger_only_where_chosen]).
    - Persistence. A flush followed by a reopen gives the store back; the header file
      round trips; a batch does what its pieces do.
    - The wallet. Any sequence of handlers from any persisted tips returns and keeps
      the address window, the transaction store and the claims well formed
      ([Wallet.wallet_handlers_total]); the coins are exactly the owned outputs, with
      the status their transactions give them; the totals are those of the coins;
      the balance of the payment list is the value of the unspent coins.
    - Proofs. A transaction is shown as verified only if a merkle branch was checked
      against the header of its block in a valid chain
      ([Reconcile.verified_is_proved]; [Merkle.verify_merkle_branch_sound] says what a branch
      that checks proves), and an honest proof of a reported height gets
      there ([Reconcile.reported_gets_verified]); a proof request is answered once.
    - The scan loop. It never panics, ends only after saying so, keeps every address
      below an announced tip subscribed, and asks for the histories that changed.
    - Hardware wallets. What is written in frames is read back; the leaves of a tree
      have proofs that check; a device gets the value of any key of a map from its
      commitment alone ([Ledger.device_reads_map]), whatever it does the client's
      answers fit one message, and the request loop returns.
    - Silent payments. A receive pass returns with exactly the coins of the blocks it
      was given, in whatever order they arrived and wherever it was stopped
      ([SpScan.receive_pass_complete]); what a roll back leaves of what the reorged blocks
      recorded is exactly known ([SpScan.roll_back_undoes]); the spend pass over its
      window of fetches does what a sweep block by block does
      ([SpSweep.spend_pass_complete]); the scan state survives a reload; the scan thread
      reports how each scan ended, and comes back when the messages of its passes and its
      scanner are in order ([SpControl.scan_thread_reports]). A payment the
      engine finalized is found by the account it pays, with the key that spends it
      ([SpAccount.payment_received]: the sender's sum of secrets, the receiver's sum of
      points and the labels meet), and whatever a transaction holds, nothing is taken
      for ours that we cannot spend ([SpAccount.owned_outputs_spend]); each input counts
      with the key of its script or is one BIP352 leaves out; recording a spend changes
      the stores as the transaction says ([SpAccount.spend_recorded]).
    - Behaviour that differs from what the code means to do is stated as it is:
      [process_fees_underflow], [process_transaction_max_dust_panics],
      [prepend_unchecked_median], [stale_proof_race], [gone_tx_stays],
      [scan_from_genesis_fails], [early_coin_survives_reorg], [stale_failure_hangs],
      [stopped_resweep_is_lost], [off_curve_output_stops_scan],
      [annex_blocks_broadcast], [stray_line_desyncs], [stray_line_blinds_validation],
      [unreadable_line_ends_listener], [no_endpoint_keeps_connections],
      [dead_worker_unnoticed], [borrower_moves_store], [start_splits_endpoints].

    ** Bounds and fuel

    The worker's loops run on fuel taken from the entries of its response channel:
    each round consumes one, so [length inbox + 1] rounds are enough, and running out
    is a result of its own that the theorems exclude. The loops of the reconciler and
    the scan loop are folds over their turns. A spend sweep moves its cursor up at every
    turn, so one turn per height of its range is enough; waiting for a filter reads one
    message per fetch under way. The scan of a transaction goes on while it finds
    outputs, so two turns more than there are payments are enough
    ([SpReceiving.scan_loop]; its two u32 counters stay below the number of outputs).
    A call of the Electrum client takes at least a byte of the socket per read, so its
    fuel is more than the bytes unread, and its lines are read as UTF-8 with replacement
    ([ElectrumClient.from_utf8_lossy]); a listener is a fold over its turns. An ECDSA
    signature is ground until its DER form has 70 bytes ([HotSigner.grind]): every digest is assumed
    to have one within the fuel.
    Derivation indexes are [u32]: an address
    operation moves a tip by at most the recovery gap of 10000, so a sequence of [n]
    needs [n * (10000 + look_ahead + 2)] indexes of room ([AddressStore.budget],
    [Wallet.room]), and the derivator must derive all indexes below the bound
    ([Derives]). Heights and amounts are [N]; where a sum or difference may leave its
    width the operation is the checked or wrapping one of the prelude. An output index
    is read as [u32] without truncation: no transaction has that many outputs.

    ** Time and threads

    The clock is an argument and only advances at receives. A channel is what was
    sent on it, with an oracle or a count for when its other end is gone. A call that
    holds a lock is atomic. Other threads act on the header worker while it receives;
    on the reconciler between any two acquisitions of a lock for a proof, but not between
    the check that the chain is validated and the read of the header, nor inside the pass
    of a tick; on the scan
    loop between turns, not between the lock acquisitions inside one. A scan thread of a
    silent-payment account and a listener take the turns they are given: the answers, the
    stop flag, the messages of each. Whether an endpoint can be reached is an argument of
    each attempt to connect.

    ** Parameters

    Code of other crates is a parameter with its documented behaviour as laws, and
    each law class has a concrete instance: [TxLib] (transactions, scripts,
    descriptors, PSBTs), [HeaderLib] (hashes, targets, network parameters),
    [DescriptorLib] (the keys of a descriptor), [TipCodec] (serde of the tip rows),
    the text of a transaction id in [History], the hash and the variable-length
    integers of [LedgerMerkle] and [Ledger], the elliptic curve and the oracle of a scan
    ([SpLib], [SpendLib]) and the JSON of its state ([StateCodec]). A device is a tree of
    its answers. For silent payments: [Curve] is what the secp256k1 crate offers (keys,
    points, scalars, tagged hashes) and [CurveLaws] its algebra, points being multiples
    of a generator of prime order with even and odd halves; the toy curve of [SpCurve]
    is an instance on which every witness computes. [BiMapLib] is the bimap crate,
    [ScriptLib] the script templates and hash160, [KeyLib] and [KeyLaws] the keys
    miniscript and BIP32 give, [PaymentLib] the parsers of addresses, [SameKeys] says
    that the keys of [TxLib] are those of [Curve]. A signer has the BIP32 derivation, the
    digests and the signatures of the crates ([SignerLib] and [SignerLaws], and [SignLib]
    and [SignLaws] for taproot). Of a connection, [Socket] and [ByteStream] are the reads and writes of
    a stream, [WireLib] with [WireLaws] and [ClientLib] the JSON of the messages and the
    encoding of a transaction, [Server] and [BatchServer] a server that answers: a
    theorem that needs one has it among its hypotheses, and so says it.

    ** Not modelled

    Connecting, TLS and timeouts of a socket and the text of JSON, the peer-to-peer client,
    threads being started and joined, logging, file-system failures, the JSON and SQLite
    backends, the HTTP calls to a block oracle, the opening and configuration of accounts
    and scanners, the native kernel that batches the derivation of scripts ([SpLib] says
    what it finds), the wallet policies and PSBT maps of the hardware clients and the
    service that finds the devices, the traffic analyser. These are calls to the operating
    system or to other crates, or forward to what is modelled. Test-only code is left out
    throughout.

    ** Left to do

    How the stores of a scanner are opened (the tip recovered from the statuses), the
    wallet policies of the hardware clients, the server side of a sync. *)
From stdpp Require Import base gmap list sorting strings.
From Stdlib Require Import Lia.

Declare Scope rust_scope.
Delimit Scope rust_scope with rust.
#[global] Open Scope N_scope.

(** ** Panics, results and their notations *)

(** What a Rust call does: it returns a value, or it panics ([expect],
    [unreachable!], an out-of-range index, a checked overflow). *)
Inductive outcome (A : Type) : Type :=
  | Ret (a : A)
  | Panic.
Arguments Ret {A} a.
Arguments Panic {A}.

(** [Result<A, E>]. *)
Inductive result (A E : Type) : Type :=
  | Ok (a : A)
  | Err (e : E).
Arguments Ok {A E} a.
Arguments Err {A E} e.

Definition obind {A B} (c : outcome A) (k : A → outcome B) : outcome B :=
  match c with Ret a => k a | Panic => Panic end.

Definition rbind {A B E} (c : result A E) (k : A → result B E) : result B E :=
  match c with Ok a => k a | Err e => Err e end.

(** A call that may panic and returns a [Result]; the [?] operator. *)
Definition qbind {A B E} (c : outcome (result A E)) (k : A → outcome (result B E)) :
    outcome (result B E) :=
  match c with Ret (Ok a) => k a | Ret (Err e) => Ret (Err e) | Panic => Panic end.

Notation "'let!' x := c 'in' k" := (obind c (λ x, k))
  (at level 10, x pattern, c at level 100, k at level 200) : rust_scope.
Notation "'let?' x := c 'in' k" := (qbind c (λ x, k))
  (at level 10, x pattern, c at level 100, k at level 200) : rust_scope.
Notation "'try!' x := c 'in' k" := (rbind c (λ x, k))
  (at level 10, x pattern, c at level 100, k at level 200) : rust_scope.
#[global] Open Scope rust_scope.

(** Code that updates a state and returns a [Result]: the updates made before an
    early return stay. *)
Definition eff (S E A : Type) : Type := S → S * result A E.
Definition eret {S E A} (a : A) : eff S E A := λ s, (s, Ok a).
Definition ethrow {S E A} (e : E) : eff S E A := λ s, (s, Err e).
Definition elift {S E A} (r : result A E) : eff S E A := λ s, (s, r).
Definition eget {S E} : eff S E S := λ s, (s, Ok s).
Definition ebind {S E A B} (c : eff S E A) (k : A → eff S E B) : eff S E B := λ s,
  match c s with
  | (s, Ok a) => k a s
  | (s, Err e) => (s, Err e)
  end.
Notation "'do!' x := c 'in' k" := (ebind c (λ x, k))
  (at level 10, x pattern, c at level 100, k at level 200) : rust_scope.

(** A loop over a list whose body may return early. *)
Fixpoint efor {S E A} (l : list A) (f : A → eff S E unit) : eff S E unit :=
  match l with
  | [] => eret tt
  | a :: l => do! _ := f a in efor l f
  end.

(** [map_err] for the conversions the [?] operator inserts. *)
Definition emap_err {S E F A} (f : E → F) (c : eff S E A) : eff S F A := λ s,
  match c s with
  | (s, Ok a) => (s, Ok a)
  | (s, Err e) => (s, Err (f e))
  end.
Definition rmap_err {A E F} (f : E → F) (r : result A E) : result A F :=
  match r with Ok a => Ok a | Err e => Err (f e) end.

(** [Option::expect] / [Option::unwrap]. *)
Definition expect {A} (o : option A) : outcome A :=
  match o with Some a => Ret a | None => Panic end.

(** [Option::ok_or]. *)
Definition ok_or {A E} (o : option A) (e : E) : result A E :=
  match o with Some a => Ok a | None => Err e end.

(** [Result::ok]. *)
Definition ok {A E} (r : result A E) : option A :=
  match r with Ok a => Some a | Err _ => None end.

(** Mapping and folding a call that may panic over a list, left to right. *)
Fixpoint omapM {A B} (f : A → outcome B) (l : list A) : outcome (list B) :=
  match l with
  | [] => Ret []
  | a :: l => let! b := f a in let! bs := omapM f l in Ret (b :: bs)
  end.

Fixpoint ofold {A S} (f : S → A → outcome S) (s : S) (l : list A) : outcome S :=
  match l with
  | [] => Ret s
  | a :: l => let! s := f s a in ofold f s l
  end.

(** ** Machine integers *)

(** An unsigned [w]-bit integer is an [N] below [2 ^ w]. Arithmetic that leaves
    the range panics when the build has overflow checks (the debug profile) and
    wraps when it has not (the release profile): both are covered, the build
    being a parameter. *)
Class Build := overflow_checks : bool.

Section arith.
Context `{Build}.

Definition overflow {A} (wrapped : A) : outcome A :=
  if overflow_checks then Panic else Ret wrapped.

Definition add_w (w a b : N) : outcome N :=
  if a + b <? 2 ^ w then Ret (a + b) else overflow ((a + b) mod 2 ^ w).
Definition sub_w (w a b : N) : outcome N :=
  if b <=? a then Ret (a - b) else overflow ((a + 2 ^ w - b) mod 2 ^ w).
Definition mul_w (w a b : N) : outcome N :=
  if a * b <? 2 ^ w then Ret (a * b) else overflow ((a * b) mod 2 ^ w).

Definition add64 := add_w 64.
Definition sub64 := sub_w 64.
Definition mul64 := mul_w 64.
Definition add32 := add_w 32.
Definition sub32 := sub_w 32.

(** [Iterator::sum] over [u64]. *)
Definition sum64 (l : list N) : outcome N := ofold add64 0 l.
End arith.

Definition u64_max : N := 2 ^ 64 - 1.
Definition u32_max : N := 2 ^ 32 - 1.

(** [saturating_add] / [saturating_mul]; [saturating_sub] is [N.sub]. *)
Definition sat_add (max a b : N) : N := N.min (a + b) max.
Definition sat_mul (max a b : N) : N := N.min (a * b) max.

Definition sumN (l : list N) : N := foldr N.add 0 l.

Section arith_lemmas.
Context `{Build}.

Lemma add_w_ok w a b : a + b < 2 ^ w → add_w w a b = Ret (a + b).
Proof. intros Hlt. unfold add_w. by rewrite (proj2 (N.ltb_lt _ _) Hlt). Qed.
Lemma sub_w_ok w a b : b ≤ a → sub_w w a b = Ret (a - b).
Proof. intros Hle. unfold sub_w. by rewrite (proj2 (N.leb_le _ _) Hle). Qed.
Lemma mul_w_ok w a b : a * b < 2 ^ w → mul_w w a b = Ret (a * b).
Proof. intros Hlt. unfold mul_w. by rewrite (proj2 (N.ltb_lt _ _) Hlt). Qed.

Lemma sumN_cons x l : sumN (x :: l) = x + sumN l.
Proof. done. Qed.

Lemma sumN_app l1 l2 : sumN (l1 ++ l2) = sumN l1 + sumN l2.
Proof. induction l1 as [|x l1 IH]; simpl; [done|]. rewrite IH. lia. Qed.

Lemma sumN_perm l1 l2 : l1 ≡ₚ l2 → sumN l1 = sumN l2.
Proof. induction 1; simpl; lia. Qed.

Lemma ofold_add64_ok s l :
  s + sumN l < 2 ^ 64 → ofold add64 s l = Ret (s + sumN l).
Proof.
  revert s; induction l as [|x l IH]; intros s Hs; simpl in *.
  - by rewrite N.add_0_r.
  - unfold add64 at 1. rewrite add_w_ok by lia. simpl.
    rewrite IH by lia. f_equal. lia.
Qed.

Lemma sum64_ok l : sumN l < 2 ^ 64 → sum64 l = Ret (sumN l).
Proof. intros Hl. unfold sum64. by rewrite ofold_add64_ok. Qed.
End arith_lemmas.

(** *** Inverting a call that returned *)

Lemma obind_Ret {A B} (c : outcome A) (k : A → outcome B) b :
  obind c k = Ret b ↔ ∃ a, c = Ret a ∧ k a = Ret b.
Proof. destruct c; simpl; naive_solver. Qed.

Lemma qbind_Ok {A B E} (c : outcome (result A E)) (k : A → outcome (result B E)) b :
  qbind c k = Ret (Ok b) ↔ ∃ a, c = Ret (Ok a) ∧ k a = Ret (Ok b).
Proof. destruct c as [[]|]; simpl; naive_solver. Qed.

Lemma rbind_Ok {A B E} (c : result A E) (k : A → result B E) b :
  rbind c k = Ok b ↔ ∃ a, c = Ok a ∧ k a = Ok b.
Proof. destruct c; simpl; naive_solver. Qed.

Lemma expect_Ret {A} (o : option A) a : expect o = Ret a ↔ o = Some a.
Proof. destruct o; simpl; naive_solver. Qed.

(** The cases of a stateful call: it failed where its first part did, or its
    first part succeeded. *)
Lemma ebind_inv {S E A B} (c : eff S E A) (k : A → eff S E B) s s' r :
  ebind c k s = (s', r) →
  (∃ e, c s = (s', Err e) ∧ r = Err e) ∨ (∃ s1 a, c s = (s1, Ok a) ∧ k a s1 = (s', r)).
Proof. unfold ebind. destruct (c s) as [s1 [a|e]]; naive_solver. Qed.

Lemma ebind_Ok {S E A B} (c : eff S E A) (k : A → eff S E B) s s' b :
  ebind c k s = (s', Ok b) ↔ ∃ s1 a, c s = (s1, Ok a) ∧ k a s1 = (s', Ok b).
Proof. unfold ebind. destruct (c s) as [s1 [a|e]]; naive_solver. Qed.

(** An invariant kept by every iteration is kept by the loop, however it ends. *)
Lemma efor_invariant {S E A} (P : S → Prop) (l : list A) (f : A → eff S E unit) s s' r :
  (∀ a s s' r, a ∈ l → P s → f a s = (s', r) → P s') →
  P s → efor l f s = (s', r) → P s'.
Proof.
  revert s; induction l as [|a l IH]; intros s Hf Hs; simpl.
  - unfold eret. by intros [= <- <-].
  - intros [(e & Ha & ->)|(s1 & [] & Ha & Hl)]%ebind_inv.
    + eapply Hf; [|done..]. set_solver.
    + eapply (IH s1); [|by eapply Hf; [|done..]; set_solver|done].
      intros a' ????. apply Hf. set_solver.
Qed.

(** Peel the binds off a hypothesis that a computation returned. *)
Ltac inv_ret :=
  repeat match goal with
  | H : obind _ _ = Ret _ |- _ =>
      let x := fresh "x" in let Hx := fresh "Hx" in
      apply obind_Ret in H as (x & Hx & H)
  | H : qbind _ _ = Ret (Ok _) |- _ =>
      let x := fresh "x" in let Hx := fresh "Hx" in
      apply qbind_Ok in H as (x & Hx & H)
  | H : rbind _ _ = Ok _ |- _ =>
      let x := fresh "x" in let Hx := fresh "Hx" in
      apply rbind_Ok in H as (x & Hx & H)
  | H : expect _ = Ret _ |- _ => apply expect_Ret in H
  | H : Ret _ = Ret _ |- _ => injection H as H
  | H : Ok _ = Ok _ |- _ => injection H as H
  end; simplify_eq.

Lemma omapM_Ret {A B} (f : A → outcome B) l bs :
  omapM f l = Ret bs ↔ Forall2 (λ a b, f a = Ret b) l bs.
Proof.
  revert bs; induction l as [|a l IH]; intros bs; simpl.
  - split; [intros [= <-]; constructor|]. by inversion 1.
  - rewrite obind_Ret. setoid_rewrite obind_Ret. split.
    + intros (b & Hb & bs' & Hbs & [= <-]). constructor; [done|]. by apply IH.
    + inversion 1; subst. eexists. split; [done|]. eexists. by rewrite IH.
Qed.

Section checked.
Context `{Build} (Hchecked : overflow_checks = true).

Lemma add_w_inv w a b c : add_w w a b = Ret c → c = a + b ∧ a + b < 2 ^ w.
Proof.
  unfold add_w, overflow. rewrite Hchecked. destruct (N.ltb_spec (a + b) (2 ^ w)); naive_solver.
Qed.
Lemma sub_w_inv w a b c : sub_w w a b = Ret c → c = a - b ∧ b ≤ a.
Proof.
  unfold sub_w, overflow. rewrite Hchecked. destruct (N.leb_spec b a); naive_solver.
Qed.
Lemma mul_w_inv w a b c : mul_w w a b = Ret c → c = a * b ∧ a * b < 2 ^ w.
Proof.
  unfold mul_w, overflow. rewrite Hchecked. destruct (N.ltb_spec (a * b) (2 ^ w)); naive_solver.
Qed.
Lemma ofold_add64_inv s l c : ofold add64 s l = Ret c → c = s + sumN l.
Proof.
  revert s; induction l as [|x l IH]; intros s Hs; simpl in *.
  - simplify_eq. lia.
  - apply obind_Ret in Hs as (s' & [-> _]%add_w_inv & Hs). apply IH in Hs. lia.
Qed.
Lemma sum64_inv l c : sum64 l = Ret c → c = sumN l.
Proof. intros Hc%ofold_add64_inv. lia. Qed.
End checked.

(** *** Release builds against checked builds

    [refines c d]: whenever the checked computation [c] returns, the release
    computation [d] returns the same value. *)
Definition refines {A} (c d : outcome A) : Prop := ∀ a, c = Ret a → d = Ret a.

#[export] Instance refines_refl {A} : Reflexive (@refines A).
Proof. by intros c a. Qed.

Lemma refines_bind {A B} (c d : outcome A) (k k' : A → outcome B) :
  refines c d → (∀ a, refines (k a) (k' a)) → refines (obind c k) (obind d k').
Proof.
  intros Hc Hk b (a & Ha & Hb)%obind_Ret. rewrite (Hc _ Ha). by apply Hk.
Qed.

Lemma refines_qbind {A B E} (c d : outcome (result A E)) (k k' : A → outcome (result B E)) :
  refines c d → (∀ a, refines (k a) (k' a)) → refines (qbind c k) (qbind d k').
Proof.
  intros Hc Hk b. destruct c as [r|] eqn:Hcr; simpl; [|done].
  rewrite (Hc r eq_refl). destruct r; simpl; [apply Hk|done].
Qed.

Lemma refines_ofold {A S} (f g : S → A → outcome S) s l :
  (∀ s a, refines (f s a) (g s a)) → refines (ofold f s l) (ofold g s l).
Proof.
  intros Hfg. revert s; induction l as [|a l IH]; intros s; simpl; [done|].
  by apply refines_bind.
Qed.

Lemma add_w_refines w a b : refines (@add_w true w a b) (@add_w false w a b).
Proof. intros c Hc. unfold add_w in *. by destruct (a + b <? 2 ^ w). Qed.
Lemma sub_w_refines w a b : refines (@sub_w true w a b) (@sub_w false w a b).
Proof. intros c Hc. unfold sub_w in *. by destruct (b <=? a). Qed.
Lemma mul_w_refines w a b : refines (@mul_w true w a b) (@mul_w false w a b).
Proof. intros c Hc. unfold mul_w in *. by destruct (a * b <? 2 ^ w). Qed.

Create HintDb refines.
#[export] Hint Resolve add_w_refines sub_w_refines mul_w_refines : refines.
#[export] Hint Extern 0 (refines ?c ?c) => reflexivity : refines.

(** Close a [refines] goal by following the two computations in step. *)
Ltac solve_refines :=
  repeat first
    [ reflexivity
    | solve [auto with refines nocore]
    | apply refines_bind; [|intros ?]
    | apply refines_qbind; [|intros ?]
    | apply refines_ofold; intros ? ?
    | case_match ].

(** ** Lists *)

Lemma sublist_elem {A} (x : A) (l k : list A) : l `sublist_of` k → x ∈ l → x ∈ k.
Proof. induction 1; set_solver. Qed.

Lemma list_omap_cons {A B} (f : A → option B) (x : A) (l : list A) :
  omap f (x :: l) = match f x with Some y => y :: omap f l | None => omap f l end.
Proof. done. Qed.

Lemma omap_fmap_comp {A B C} (f : B → option C) (g : A → B) (l : list A) :
  omap f (g <$> l) = omap (λ x, f (g x)) l.
Proof. induction l as [|x l IH]; [done|]. csimpl. by rewrite IH. Qed.

Lemma sublist_Forall {A} (P : A → Prop) (l k : list A) :
  l `sublist_of` k → Forall P k → Forall P l.
Proof. induction 1; rewrite ?Forall_cons; naive_solver. Qed.

Lemma filter_sublist {A} (f : A → bool) (l : list A) : List.filter f l `sublist_of` l.
Proof. induction l as [|x l IH]; simpl; [done|]. destruct (f x); by constructor. Qed.

#[export] Instance filter_perm {A} (f : A → bool) : Proper ((≡ₚ) ==> (≡ₚ)) (List.filter f).
Proof.
  induction 1 as [|x l l' _ IH|x y l|l l' l'' _ IH1 _ IH2]; simpl.
  - done.
  - destruct (f x); [by apply perm_skip|done].
  - destruct (f x), (f y); [apply perm_swap|done..].
  - by etrans.
Qed.

Lemma sumN_sublist {A} (g : A → N) (l k : list A) :
  l `sublist_of` k → sumN (g <$> l) ≤ sumN (g <$> k).
Proof. induction 1; csimpl; lia. Qed.

Lemma NoDup_sublist {A} (l k : list A) : l `sublist_of` k → NoDup k → NoDup l.
Proof.
  induction 1 as [|x l k Hs IH|x l k Hs IH]; [done|..]; rewrite ?NoDup_cons; [|naive_solver].
  intros [Hx Hk]. split; [|auto]. intros Hin. apply Hx. by eapply sublist_elem.
Qed.

Lemma sublist_fmap {A B} (f : A → B) (l k : list A) :
  l `sublist_of` k → f <$> l `sublist_of` f <$> k.
Proof. induction 1; csimpl; by constructor. Qed.

(** ** Stable sorting, [slice::sort_by] *)

Section sort_by.
Context {A : Type} (leb : A → A → bool).

Fixpoint insert_by (x : A) (l : list A) : list A :=
  match l with
  | [] => [x]
  | y :: l' => if leb x y then x :: l else y :: insert_by x l'
  end.

Definition sort_by (l : list A) : list A := foldr insert_by [] l.

Lemma insert_by_perm x l : insert_by x l ≡ₚ x :: l.
Proof.
  induction l as [|y l IH]; simpl; [done|].
  destruct (leb x y); [done|]. rewrite IH. constructor.
Qed.

Lemma sort_by_perm l : sort_by l ≡ₚ l.
Proof. induction l as [|x l IH]; simpl; [done|]. by rewrite insert_by_perm, IH. Qed.

Lemma sort_by_nil l : sort_by l = [] ↔ l = [].
Proof.
  split; intros Hl; [|by subst].
  apply Permutation_nil_r. by rewrite <-(sort_by_perm l), Hl.
Qed.

Context (leb_total : ∀ x y, leb x y = true ∨ leb y x = true).
Context (leb_trans : ∀ x y z, leb x y = true → leb y z = true → leb x z = true).

Lemma insert_by_sorted x l :
  StronglySorted (λ x y, leb x y = true) l →
  StronglySorted (λ x y, leb x y = true) (insert_by x l).
Proof.
  induction 1 as [|y l Hl IH Hy]; simpl; [repeat constructor|].
  destruct (leb x y) eqn:Hxy.
  - constructor; [by constructor|]. constructor; [done|].
    eapply Forall_impl; [exact Hy|]. eauto.
  - constructor; [done|]. rewrite insert_by_perm. constructor; [|done].
    destruct (leb_total x y); congruence.
Qed.

Lemma sort_by_sorted l : StronglySorted (λ x y, leb x y = true) (sort_by l).
Proof.
  induction l as [|x l IH]; simpl; [constructor|]. by apply insert_by_sorted.
Qed.

Lemma sort_by_head_min l x l' y :
  sort_by l = x :: l' → y ∈ l → leb x y = true.
Proof.
  intros Hs Hy. pose proof (sort_by_sorted l) as Hsort.
  rewrite <-(sort_by_perm l), Hs in Hy. rewrite Hs in Hsort.
  apply StronglySorted_inv in Hsort as [_ Hall].
  apply elem_of_cons in Hy as [->|Hy].
  - by destruct (leb_total x x).
  - rewrite Forall_forall in Hall. by apply Hall.
Qed.
End sort_by.

(** ** Ordered maps, [BTreeMap] *)

(** A [BTreeMap] is a finite map whose iteration is in key order: stdpp's [gmap]
    for its contents, [bt_items] for its iteration. *)
Class KeyOrd (K : Type) := key_leb : K → K → bool.
Class KeyOrdLaws (K : Type) `{KeyOrd K} := {
  key_leb_total : ∀ x y : K, key_leb x y = true ∨ key_leb y x = true;
  key_leb_trans : ∀ x y z : K, key_leb x y = true → key_leb y z = true → key_leb x z = true;
  key_leb_antisym : ∀ x y : K, key_leb x y = true → key_leb y x = true → x = y
}.

#[export] Instance N_KeyOrd : KeyOrd N := N.leb.
#[export] Instance N_KeyOrdLaws : KeyOrdLaws N.
Proof.
  split; unfold key_leb, N_KeyOrd; intros *; rewrite ?N.leb_le; lia.
Qed.

Section btree.
Context {K V : Type} `{Countable K} `{KeyOrd K}.

Definition bt_leb (a b : K * V) : bool := key_leb a.1 b.1.
Definition bt_items (m : gmap K V) : list (K * V) := sort_by bt_leb (map_to_list m).
Definition bt_keys (m : gmap K V) : list K := (bt_items m).*1.
Definition bt_values (m : gmap K V) : list V := (bt_items m).*2.
(** [keys().next()] and [keys().next_back()]. *)
Definition bt_first_key (m : gmap K V) : option K := head (bt_keys m).
Definition bt_last_key (m : gmap K V) : option K := last (bt_keys m).
(** [range] between two (inclusive / exclusive) bounds, as a key test. *)
Definition bt_range (inside : K → bool) (m : gmap K V) : list (K * V) :=
  List.filter (λ kv, inside kv.1) (bt_items m).
(** [entry(k).or_insert(v)]: a key that is there keeps its value. *)
Definition insert_new (k : K) (v : V) (m : gmap K V) : gmap K V :=
  match m !! k with Some _ => m | None => <[k := v]> m end.

Lemma lookup_insert_new k v (m : gmap K V) j :
  insert_new k v m !! j =
    match m !! j with Some w => Some w | None => if decide (j = k) then Some v else None end.
Proof.
  unfold insert_new. destruct (m !! k) as [w|] eqn:Hk.
  - destruct (m !! j) eqn:Hj; [done|]. rewrite decide_False; [done|congruence].
  - destruct (decide (j = k)) as [->|Hne].
    + by rewrite lookup_insert_eq, Hk.
    + rewrite lookup_insert_ne by done. by destruct (m !! j).
Qed.

Lemma bt_items_perm m : bt_items m ≡ₚ map_to_list m.
Proof. apply sort_by_perm. Qed.

Lemma elem_of_bt_items m k v : (k, v) ∈ bt_items m ↔ m !! k = Some v.
Proof. rewrite bt_items_perm. apply elem_of_map_to_list. Qed.

Lemma elem_of_bt_keys m k : k ∈ bt_keys m ↔ is_Some (m !! k).
Proof.
  unfold bt_keys. rewrite list_elem_of_fmap. split.
  - intros ([k' v] & -> & Hkv). apply elem_of_bt_items in Hkv. eauto.
  - intros [v Hv]. exists (k, v). by rewrite elem_of_bt_items.
Qed.

Lemma elem_of_bt_values m v : v ∈ bt_values m ↔ ∃ k, m !! k = Some v.
Proof.
  unfold bt_values. rewrite list_elem_of_fmap. split.
  - intros ([k v'] & -> & Hkv). apply elem_of_bt_items in Hkv. eauto.
  - intros [k Hk]. exists (k, v). by rewrite elem_of_bt_items.
Qed.

Lemma elem_of_bt_range inside m k v :
  (k, v) ∈ bt_range inside m ↔ inside k = true ∧ m !! k = Some v.
Proof.
  unfold bt_range. rewrite list_elem_of_In, filter_In, <-list_elem_of_In,
    elem_of_bt_items. simpl. tauto.
Qed.

Lemma bt_range_nil inside m :
  bt_range inside m = [] ↔ ∀ k, inside k = true → m !! k = None.
Proof.
  split.
  - intros Hnil k Hk. destruct (m !! k) as [v|] eqn:Hv; [|done].
    assert ((k, v) ∈ bt_range inside m) as Hin by (by apply elem_of_bt_range).
    rewrite Hnil in Hin. set_solver.
  - intros Hnone. destruct (bt_range inside m) as [|[k v] l] eqn:Hr; [done|].
    assert ((k, v) ∈ bt_range inside m) as [Hk Hv]%elem_of_bt_range by (rewrite Hr; set_solver).
    rewrite Hnone in Hv; done.
Qed.

Lemma bt_items_nil m : bt_items m = [] ↔ m = ∅.
Proof. unfold bt_items. rewrite sort_by_nil. apply map_to_list_empty_iff. Qed.

Lemma length_bt_items m : length (bt_items m) = size m.
Proof. rewrite bt_items_perm. by rewrite <-length_map_to_list. Qed.

Lemma NoDup_bt_keys m : NoDup (bt_keys m).
Proof. unfold bt_keys. rewrite bt_items_perm. apply NoDup_fst_map_to_list. Qed.

Lemma NoDup_bt_range inside m : NoDup (bt_range inside m).*1.
Proof.
  unfold bt_range. apply (NoDup_sublist _ (bt_keys m)); [|apply NoDup_bt_keys].
  unfold bt_keys. apply sublist_fmap, filter_sublist.
Qed.

Context `{!KeyOrdLaws K}.

Lemma bt_items_sorted m : StronglySorted (λ x y, bt_leb x y = true) (bt_items m).
Proof.
  apply sort_by_sorted; unfold bt_leb; intros.
  - apply key_leb_total.
  - eapply key_leb_trans; eauto.
Qed.

Lemma bt_keys_sorted m : StronglySorted (λ x y, key_leb x y = true) (bt_keys m).
Proof.
  unfold bt_keys. induction (bt_items_sorted m) as [|[k v] l Hl IH Hkv]; simpl; [constructor|].
  constructor; [done|]. apply Forall_fmap. done.
Qed.

Lemma StronglySorted_filter {A} (R : relation A) (f : A → bool) (l : list A) :
  StronglySorted R l → StronglySorted R (List.filter f l).
Proof.
  induction 1 as [|x l Hl IH Hx]; simpl; [constructor|].
  destruct (f x); [|done]. constructor; [done|].
  rewrite Forall_forall in Hx |- *. intros y Hy%list_elem_of_In%filter_In.
  apply Hx, list_elem_of_In. tauto.
Qed.

(** The first entry of a range is the least key in it. *)
Lemma bt_range_head inside m k v :
  head (bt_range inside m) = Some (k, v) →
  inside k = true ∧ m !! k = Some v ∧
  ∀ k', inside k' = true → is_Some (m !! k') → key_leb k k' = true.
Proof.
  intros Hh. assert (Hin : (k, v) ∈ bt_range inside m).
  { destruct (bt_range inside m); simplify_eq/=. set_solver. }
  apply elem_of_bt_range in Hin as [Hk Hm]. split_and!; [done..|].
  intros k' Hk' [v' Hv']. assert (Hin' : (k', v') ∈ bt_range inside m)
    by (by apply elem_of_bt_range).
  pose proof (StronglySorted_filter _ (λ kv, inside kv.1) _ (bt_items_sorted m)) as Hs.
  fold (bt_range inside m) in Hs. destruct (bt_range inside m) as [|kv l]; simplify_eq/=.
  apply StronglySorted_inv in Hs as [_ Hall].
  apply elem_of_cons in Hin' as [[= -> ->]|Hin'].
  - by destruct (key_leb_total k k).
  - rewrite Forall_forall in Hall. by apply (Hall _ Hin').
Qed.

Lemma bt_first_key_min m k k' :
  bt_first_key m = Some k → is_Some (m !! k') → key_leb k k' = true.
Proof.
  unfold bt_first_key. intros Hk Hk'. apply elem_of_bt_keys in Hk'.
  pose proof (bt_keys_sorted m) as Hs.
  destruct (bt_keys m) as [|k0 l]; simplify_eq/=.
  apply StronglySorted_inv in Hs as [_ Hall]. apply elem_of_cons in Hk' as [->|Hin].
  - by destruct (key_leb_total k k).
  - rewrite Forall_forall in Hall. by apply Hall.
Qed.

Lemma bt_last_key_max m k k' :
  bt_last_key m = Some k → is_Some (m !! k') → key_leb k' k = true.
Proof.
  unfold bt_last_key. intros Hk Hk'. apply elem_of_bt_keys in Hk'.
  pose proof (bt_keys_sorted m) as Hs. apply last_Some in Hk as [l Hl]. rewrite Hl in Hs, Hk'.
  apply elem_of_app in Hk' as [Hin|Hin%list_elem_of_singleton].
  - eapply (StronglySorted_app_1_elem_of _ _ _ _ _ Hs); set_solver.
  - subst. by destruct (key_leb_total k k).
Qed.

Lemma bt_first_key_elem m k : bt_first_key m = Some k → is_Some (m !! k).
Proof.
  unfold bt_first_key. intros Hk. apply elem_of_bt_keys.
  destruct (bt_keys m); simplify_eq/=. set_solver.
Qed.

Lemma bt_last_key_elem m k : bt_last_key m = Some k → is_Some (m !! k).
Proof.
  unfold bt_last_key. intros Hk. apply elem_of_bt_keys.
  apply last_Some in Hk as [l ->]. set_solver.
Qed.

Lemma bt_first_key_None m : bt_first_key m = None ↔ m = ∅.
Proof.
  unfold bt_first_key, bt_keys. rewrite <-bt_items_nil. by destruct (bt_items m).
Qed.

Lemma bt_last_key_None m : bt_last_key m = None ↔ m = ∅.
Proof.
  unfold bt_last_key, bt_keys. rewrite last_None, <-bt_items_nil. by destruct (bt_items m).
Qed.
End btree.

(** ** Folds *)

Lemma ofold_ret {A S} (f : S → A → outcome S) (g : S → A → S) (l : list A) s :
  (∀ s a, a ∈ l → f s a = Ret (g s a)) → ofold f s l = Ret (foldl g s l).
Proof.
  revert s; induction l as [|a l IH]; intros s Hf; simpl; [done|].
  rewrite Hf by set_solver. simpl. apply IH. set_solver.
Qed.
Lemma foldl_flat_map {A B S} (g : S → B → S) (h : A → list B) (l : list A) s :
  foldl (λ s a, foldl g s (h a)) s l = foldl g s (flat_map h l).
Proof. revert s; induction l as [|a l IH]; intros s; simpl; [done|]. by rewrite foldl_app, IH. Qed.
Lemma foldl_omap {A B S} (g : S → B → S) (f : A → option B) (l : list A) s :
  foldl (λ s a, match f a with Some b => g s b | None => s end) s l = foldl g s (omap f l).
Proof.
  revert s; induction l as [|a l IH]; intros s; simpl; [done|].
  destruct (f a); simpl; apply IH.
Qed.
Lemma foldl_fmap {A B S} (g : S → B → S) (f : A → B) (l : list A) s :
  foldl g s (f <$> l) = foldl (λ s a, g s (f a)) s l.
Proof. revert s; induction l as [|a l IH]; intros s; simpl; [done|apply IH]. Qed.
Lemma foldl_ext_elem {A S} (f g : S → A → S) (l : list A) s :
  (∀ s a, a ∈ l → f s a = g s a) → foldl f s l = foldl g s l.
Proof.
  revert s; induction l as [|a l IH]; intros s Hf; simpl; [done|].
  rewrite Hf by set_solver. apply IH. set_solver.
Qed.
Lemma foldl_invariant {A S} (P : S → Prop) (f : S → A → S) (l : list A) s :
  (∀ s a, a ∈ l → P s → P (f s a)) → P s → P (foldl f s l).
Proof.
  revert s; induction l as [|a l IH]; intros s Hf Hs; simpl; [done|].
  apply IH; [|by apply Hf; [set_solver|]]. intros ? ? ?. apply Hf. set_solver.
Qed.
Lemma elem_of_flat_map {A B} (f : A → list B) (l : list A) (y : B) :
  y ∈ flat_map f l ↔ ∃ x, y ∈ f x ∧ x ∈ l.
Proof.
  induction l as [|a l IH]; simpl; [set_solver|]. rewrite elem_of_app, IH.
  setoid_rewrite elem_of_cons. naive_solver.
Qed.

(** Insertions of pairs that agree on their key, in any order. *)
Lemma foldl_insert_functional {K V} `{Countable K} (l : list (K * V)) (m : gmap K V) k v :
  (∀ k v v', (k, v) ∈ l → (k, v') ∈ l → v = v') →
  foldl (λ m kv, <[kv.1 := kv.2]> m) m l !! k = Some v ↔
  (k, v) ∈ l ∨ (m !! k = Some v ∧ k ∉ l.*1).
Proof.
  revert m; induction l as [|[k0 v0] l IH]; intros m Hfun; simpl; [set_solver|].
  rewrite IH by set_solver. destruct (decide (k = k0)) as [->|Hne].
  - rewrite lookup_insert_eq. split.
    + intros [?|[[= <-] _]]; left; set_solver.
    + intros [[[= ->]|Hin]%elem_of_cons|[_ []]]; [|by left|set_solver].
      destruct (decide (k0 ∈ l.*1)) as [Hk|Hk]; [|by right]. left.
      apply list_elem_of_fmap in Hk as ([k1 v1] & Heq & Hin). simpl in Heq. subst k1.
      by rewrite (Hfun k0 v0 v1) by set_solver.
  - rewrite lookup_insert_ne by done. set_solver.
Qed.

(** Lexicographic order on byte strings and pairs, the derived [Ord]. *)
Fixpoint list_leb {K} `{KeyOrd K} (l1 l2 : list K) : bool :=
  match l1, l2 with
  | [], _ => true
  | _ :: _, [] => false
  | x :: l1, y :: l2 =>
      if key_leb x y then if key_leb y x then list_leb l1 l2 else true else false
  end.
#[export] Instance string_KeyOrd : KeyOrd string := String.leb.
#[export] Instance string_KeyOrdLaws : KeyOrdLaws string.
Proof.
  split; unfold key_leb, string_KeyOrd; [apply String.leb_total| |apply String.leb_antisym].
  unfold String.leb. induction x as [|a x IH]; intros [|b y] [|c z]; simpl; try done.
  unfold Ascii.compare. destruct (N.compare_spec (Ascii.N_of_ascii a) (Ascii.N_of_ascii b)) as [Hab|Hab|Hab];
    destruct (N.compare_spec (Ascii.N_of_ascii b) (Ascii.N_of_ascii c)) as [Hbc|Hbc|Hbc];
    destruct (N.compare_spec (Ascii.N_of_ascii a) (Ascii.N_of_ascii c)) as [Hac|Hac|Hac];
    try done; try (exfalso; lia). apply IH.
Qed.
#[export] Instance list_KeyOrd {K} `{KeyOrd K} : KeyOrd (list K) := list_leb.

#[export] Instance list_KeyOrdLaws {K} `{KeyOrdLaws K} : KeyOrdLaws (list K).
Proof.
  split; unfold key_leb at 1 2, list_KeyOrd.
  - induction x as [|x l1 IH]; intros [|y l2]; simpl; auto.
    destruct (key_leb x y) eqn:Hxy, (key_leb y x) eqn:Hyx; auto.
    destruct (key_leb_total x y); congruence.
  - unfold key_leb at 1. induction x as [|x l1 IH]; intros [|y l2] [|z l3]; simpl; try done.
    destruct (key_leb x y) eqn:Hxy; [|done]. destruct (key_leb y z) eqn:Hyz; [|done].
    rewrite (key_leb_trans _ _ _ Hxy Hyz).
    destruct (key_leb z x) eqn:Hzx; [|done].
    rewrite (key_leb_trans _ _ _ Hyz Hzx), (key_leb_trans _ _ _ Hzx Hxy). eauto.
  - induction x as [|x l1 IH]; intros [|y l2]; simpl; try done.
    destruct (key_leb x y) eqn:Hxy; [|done]. destruct (key_leb y x) eqn:Hyx; [|done].
    intros ??. f_equal; [by apply key_leb_antisym|by apply IH].
Qed.

#[export] Instance prod_KeyOrd {A B} `{KeyOrd A, KeyOrd B} : KeyOrd (A * B) := λ p q,
  if key_leb p.1 q.1 then if key_leb q.1 p.1 then key_leb p.2 q.2 else true else false.

#[export] Instance prod_KeyOrdLaws {A B} `{KeyOrdLaws A, KeyOrdLaws B} : KeyOrdLaws (A * B).
Proof.
  split; unfold key_leb, prod_KeyOrd.
  - intros [a b] [a' b']; simpl.
    destruct (key_leb a a') eqn:Haa, (key_leb a' a) eqn:Haa'; auto using key_leb_total.
    destruct (key_leb_total a a'); congruence.
  - intros [a b] [a' b'] [a'' b'']; simpl.
    destruct (key_leb a a') eqn:H1'; [|done]. destruct (key_leb a' a'') eqn:H2'; [|done].
    rewrite (key_leb_trans _ _ _ H1' H2').
    destruct (key_leb a'' a) eqn:H3'; [|done].
    rewrite (key_leb_trans _ _ _ H2' H3'), (key_leb_trans _ _ _ H3' H1').
    eauto using key_leb_trans.
  - intros [a b] [a' b']; simpl.
    destruct (key_leb a a') eqn:H1'; [|done]. destruct (key_leb a' a) eqn:H2'; [|done].
    intros ??. f_equal; by apply key_leb_antisym.
Qed.

(** ** Contiguous ranges of heights *)

Fixpoint nseq (a : N) (n : nat) : list N :=
  match n with O => [] | S n => a :: nseq (a + 1) n end.

Lemma elem_of_nseq a n x : x ∈ nseq a n ↔ a ≤ x < a + N.of_nat n.
Proof.
  revert a; induction n as [|n IH]; intros a; cbn [nseq].
  - rewrite elem_of_nil. lia.
  - rewrite elem_of_cons, IH. lia.
Qed.

Lemma length_nseq a n : length (nseq a n) = n.
Proof. revert a; induction n as [|n IH]; intros a; simpl; [done|by rewrite IH]. Qed.

(** A sorted list without repetition spans at least its length ... *)
Lemma sorted_span (ks : list N) a b :
  StronglySorted (λ x y, key_leb x y = true) ks → NoDup ks →
  head ks = Some a → last ks = Some b → a + N.of_nat (length ks) ≤ b + 1.
Proof.
  intros Hs. revert a; induction Hs as [|x ks Hs IH Hx]; intros a Hnd Ha Hb; simplify_eq/=.
  destruct ks as [|y ks]; [simplify_eq/=; lia|].
  apply NoDup_cons in Hnd as [Hni Hnd]. specialize (IH y Hnd eq_refl Hb).
  apply Forall_cons in Hx as [Hxy _]. unfold key_leb, N_KeyOrd in Hxy. apply N.leb_le in Hxy.
  assert (a ≠ y) by set_solver. simpl in *. lia.
Qed.

(** ... and is an interval when it spans exactly its length. *)
Lemma sorted_contiguous (ks : list N) a b :
  StronglySorted (λ x y, key_leb x y = true) ks → NoDup ks →
  head ks = Some a → last ks = Some b → b + 1 = a + N.of_nat (length ks) →
  ks = nseq a (length ks).
Proof.
  intros Hs. revert a; induction Hs as [|x ks Hs IH Hx]; intros a Hnd Ha Hb Hlen; simplify_eq/=.
  destruct ks as [|y ks]; [done|].
  apply NoDup_cons in Hnd as [Hni Hnd]. pose proof (sorted_span _ y b Hs Hnd eq_refl Hb) as Hspan.
  apply Forall_cons in Hx as [Hxy _]. unfold key_leb, N_KeyOrd in Hxy. apply N.leb_le in Hxy.
  assert (a ≠ y) by set_solver. simpl in Hspan, Hlen.
  assert (y = a + 1) as -> by lia. f_equal. apply IH; [done|done|done|simpl; lia].
Qed.

(** A map whose keys span exactly its size holds an interval of heights. *)
Lemma bt_keys_contiguous {V} (m : gmap N V) a b :
  bt_first_key m = Some a → bt_last_key m = Some b → b - a + 1 = N.of_nat (size m) →
  bt_keys m = nseq a (size m) ∧ a ≤ b.
Proof.
  intros Ha Hb Hlen. pose proof (bt_keys_sorted m) as Hs. pose proof (NoDup_bt_keys m) as Hnd.
  assert (Hl : length (bt_keys m) = size m)
    by (unfold bt_keys; by rewrite length_fmap, length_bt_items).
  pose proof (sorted_span _ _ _ Hs Hnd Ha Hb) as Hspan. rewrite Hl in Hspan.
  split; [|lia]. rewrite <-Hl. apply (sorted_contiguous _ a b); [done..|]. lia.
Qed.

(** A loop over the items of a map that only touches the key it is at. *)
Lemma foldl_items_omap {K V : Type} `{Countable K} `{KeyOrd K}
    (step : gmap K V → K * V → gmap K V) (u : V → option V) (m : gmap K V) :
  (∀ m' k v, m' !! k = Some v → step m' (k, v) = partial_alter (λ _, u v) k m') →
  foldl step m (bt_items m) = omap u m.
Proof.
  intros Hstep.
  assert (Hgen : ∀ l m', NoDup l.*1 → (∀ k v, (k, v) ∈ l → m' !! k = Some v) →
    ∀ j, foldl step m' l !! j = if decide (j ∈ l.*1) then m' !! j ≫= u else m' !! j).
  { induction l as [|[k v] l IH]; intros m' Hnd Hl j; cbn [foldl].
    - rewrite decide_False; [done|]. apply not_elem_of_nil.
    - apply NoDup_cons in Hnd as [Hk Hnd]. simpl in Hk. rewrite fmap_cons. cbn [fst].
      assert (Hkv : m' !! k = Some v) by (apply Hl; left).
      rewrite Hstep by done. rewrite IH; [|done|].
      + destruct (decide (j = k)) as [->|Hne].
        * rewrite lookup_partial_alter_eq. rewrite decide_False by done.
          rewrite decide_True by left. by rewrite Hkv.
        * rewrite lookup_partial_alter_ne by done.
          destruct (decide (j ∈ l.*1)); [by rewrite decide_True by (by right)|].
          rewrite decide_False; [done|]. rewrite elem_of_cons. naive_solver.
      + intros k' v' Hin. rewrite lookup_partial_alter_ne; [apply Hl; by right|].
        intros ->. apply Hk. apply list_elem_of_fmap. by exists (k', v'). }
  apply map_eq. intros j. rewrite Hgen; [|apply NoDup_bt_keys|].
  - rewrite lookup_omap. case_decide as Hj; [done|].
    destruct (m !! j) as [v|] eqn:Hm; [|done]. exfalso. apply Hj. apply list_elem_of_fmap.
    exists (j, v). split; [done|]. by apply elem_of_bt_items.
  - intros k v. apply elem_of_bt_items.
Qed.

Lemma list_to_map_bt_items {K V : Type} `{Countable K} `{KeyOrd K} (m : gmap K V) :
  list_to_map (bt_items m) = m.
Proof.
  apply map_eq. intros k. apply option_eq. intros v. rewrite <-elem_of_list_to_map.
  - apply elem_of_bt_items.
  - apply NoDup_bt_keys.
Qed.

(** ** Little-endian integers *)

(** [u32::to_le_bytes] and [u32::from_le_bytes]. *)
Definition u32_to_le_bytes (x : N) : list N :=
  [x mod 256; x / 2 ^ 8 mod 256; x / 2 ^ 16 mod 256; x / 2 ^ 24 mod 256].
Definition u32_from_le_bytes (b : list N) : N :=
  match b with
  | [b0; b1; b2; b3] => b0 + b1 * 2 ^ 8 + b2 * 2 ^ 16 + b3 * 2 ^ 24
  | _ => 0
  end.

Lemma u32_le_roundtrip x : x < 2 ^ 32 → u32_from_le_bytes (u32_to_le_bytes x) = x.
Proof.
  intros Hx. unfold u32_to_le_bytes, u32_from_le_bytes.
  change (2 ^ 8) with 256. change (2 ^ 16) with (256 * 256). change (2 ^ 24) with (256 * 256 * 256).
  rewrite <-!N.Div0.div_div. rewrite (N.mod_small (x / 256 / 256 / 256)).
  - pose proof (N.div_mod x 256 ltac:(lia)). pose proof (N.div_mod (x / 256) 256 ltac:(lia)).
    pose proof (N.div_mod (x / 256 / 256) 256 ltac:(lia)). lia.
  - rewrite !N.Div0.div_div. apply N.Div0.div_lt_upper_bound. lia.
Qed.
