(* ===== verification/Bitcoin.v ===== *)
(** * The rust-bitcoin and miniscript interface

    Data of the [bitcoin] crate the wallet kit passes around, and its
    operations as parameters. The crate's own code is not part of the
    repository: each operation the kit calls is a field of a type class
    ([TxLib] for scripts, descriptors and PSBTs), and what the
    proofs need of it is a separate class of documented laws ([TxLaws]).
    [Sample] instantiates the parameters so that the laws are seen to hold
    together. *)
From stdpp Require Import base gmap list strings.
From S2P Require Import Prelude.

(** [ScriptBuf]: the script bytes. *)
Abbreviation script := (list N).
(** 32-byte hashes, as their integer value. *)
Abbreviation Txid := N (only parsing).
Abbreviation BlockHash := N (only parsing).

Inductive Network := Bitcoin | Testnet | Testnet4 | Signet | Regtest.
#[export] Instance Network_eqdec : EqDecision Network.
Proof. solve_decision. Defined.

Record OutPoint := mkOutPoint { op_txid : Txid; op_vout : N }.
#[export] Instance OutPoint_eqdec : EqDecision OutPoint.
Proof. solve_decision. Defined.
#[export] Instance OutPoint_countable : Countable OutPoint.
Proof.
  refine (inj_countable' (λ o, (op_txid o, op_vout o)) (λ p, mkOutPoint p.1 p.2) _).
  by intros [].
Defined.
#[export] Instance OutPoint_KeyOrd : KeyOrd OutPoint := λ o o',
  key_leb (op_txid o, op_vout o) (op_txid o', op_vout o').
#[export] Instance OutPoint_KeyOrdLaws : KeyOrdLaws OutPoint.
Proof.
  split; unfold key_leb, OutPoint_KeyOrd.
  - intros. apply key_leb_total.
  - intros *. apply key_leb_trans.
  - intros [] [] H1 H2. simpl in *.
    assert ((op_txid0, op_vout0) = (op_txid1, op_vout1)) by (by apply key_leb_antisym).
    congruence.
Qed.

Record TxOut := mkTxOut { txout_value : N; script_pubkey : script }.
#[export] Instance TxOut_eqdec : EqDecision TxOut.
Proof. solve_decision. Defined.

Record TxIn := mkTxIn {
  previous_output : OutPoint;
  script_sig : script;
  sequence : N;
  witness : list (list N)
}.
#[export] Instance TxIn_eqdec : EqDecision TxIn.
Proof. solve_decision. Defined.

Record Transaction := mkTransaction {
  version : N;
  lock_time : N;
  input : list TxIn;
  output : list TxOut
}.
#[export] Instance Transaction_eqdec : EqDecision Transaction.
Proof. solve_decision. Defined.

(** [Amount::MAX_MONEY]: 21 million bitcoin, in satoshis. *)
Definition MAX_MONEY : N := 2100000000000000.

Class TxLib := {
  (** Opaque types of the two crates. *)
  Descriptor : Type;            (* Descriptor<DescriptorPublicKey> *)
  DefiniteDescriptor : Type;    (* Descriptor<DefiniteDescriptorKey> *)
  Address : Type;
  SecretKey : Type;
  PublicKey : Type;
  PsbtInputRest : Type;         (* the psbt::Input fields the kit never names *)
  PsbtOutputRest : Type;
  Descriptor_eqdec :: EqDecision Descriptor;
  Address_eqdec :: EqDecision Address;
  psbt_input_rest_default : PsbtInputRest;
  psbt_output_rest_default : PsbtOutputRest;

  to_vbytes_ceil : N → N;                 (* Weight::to_vbytes_ceil *)
  txout_weight : TxOut → N;               (* TxOut::weight, in WU *)
  tx_weight : Transaction → N;            (* Transaction::weight, in WU *)
  compute_txid : Transaction → Txid;
  is_p2wpkh : script → bool;
  is_p2tr : script → bool;
  dummy_p2tr : script;                    (* new_p2tr_tweaked of the fixed key *)
  address_script : Address → script;      (* assume_checked().script_pubkey() *)
  into_single_descriptors : Descriptor → option (list Descriptor);
  at_derivation_index : Descriptor → N → option DefiniteDescriptor;
  definite_address : DefiniteDescriptor → Network → option Address;
  any_mainnet_xpub : Descriptor → bool;   (* for_any_key(XPub => is_mainnet) *)
  max_weight_to_satisfy : Descriptor → option N;
  serialize_pubkey : PublicKey → list N;
  (* PsbtExt::update_{input,output}_with_descriptor on one map *)
  update_input_with_descriptor :
    Transaction → TxOut → PsbtInputRest → DefiniteDescriptor → option PsbtInputRest;
  update_output_with_descriptor :
    Transaction → PsbtOutputRest → DefiniteDescriptor → option PsbtOutputRest
}.

(** [psbt::Input], [psbt::Output] and [Psbt]: the fields the kit reads or
    writes, the others kept opaque. *)
Record PsbtInput `{TxLib} := mkPsbtInput {
  witness_utxo : option TxOut;
  pi_rest : PsbtInputRest
}.
Record PsbtOutput `{TxLib} := mkPsbtOutput {
  (* the unknown map: (type_value, key) to value *)
  po_unknown : gmap (N * list N) (list N);
  po_rest : PsbtOutputRest
}.
Record Psbt `{TxLib} := mkPsbt {
  unsigned_tx : Transaction;
  psbt_version : N;
  psbt_inputs : list PsbtInput;
  psbt_outputs : list PsbtOutput
}.
Definition psbt_output_default `{TxLib} : PsbtOutput :=
  mkPsbtOutput _ ∅ psbt_output_rest_default.

(** Documented behaviour of the crate. *)
Class TxLaws `{TxLib} := {
  (** [to_vbytes_ceil] converts to vB rounding up. *)
  to_vbytes_ceil_spec wu : to_vbytes_ceil wu = (wu + 3) / 4
}.

(** The parameters instantiated: descriptors are numbers, a descriptor splits
    in two, an address is its script. *)
Module Sample.
#[export] Instance sample_lib : TxLib := {|
  Descriptor := N;
  DefiniteDescriptor := N * N;
  Address := list N;
  SecretKey := N;
  PublicKey := N;
  PsbtInputRest := N;
  PsbtOutputRest := N;
  psbt_input_rest_default := 0;
  psbt_output_rest_default := 0;
  to_vbytes_ceil := λ wu, (wu + 3) / 4;
  txout_weight := λ o, 4 * (9 + N.of_nat (length (script_pubkey o)));
  tx_weight := λ tx, 42 + 164 * N.of_nat (length (input tx))
                     + sumN ((λ o, 4 * (9 + N.of_nat (length (script_pubkey o)))) <$> output tx);
  compute_txid := λ tx, lock_time tx;
  is_p2wpkh := λ s, bool_decide (length s = 22%nat);
  is_p2tr := λ s, bool_decide (length s = 34%nat);
  dummy_p2tr := replicate 34 2;
  address_script := λ a, a;
  into_single_descriptors := λ d, Some [2 * d; 2 * d + 1];
  at_derivation_index := λ d i, Some (d, i);
  definite_address := λ d _, Some [d.1; d.2];
  any_mainnet_xpub := λ _, false;
  max_weight_to_satisfy := λ _, Some 108;
  serialize_pubkey := λ k, replicate 33 k;
  update_input_with_descriptor := λ _ _ r _, Some (r + 1);
  update_output_with_descriptor := λ _ r _, Some (r + 1)
|}.
#[export] Instance sample_laws : TxLaws.
Proof. done. Qed.
#[export] Instance sample_build : Build := true.
End Sample.
