(* ===== verification/Coin.v ===== *)
(** * Coin domain types (coin/src/lib.rs)

    Keychains, coin statuses, spend information and the conversions of a coin
    into a transaction input and a PSBT input. *)
From stdpp Require Import base gmap list strings.
From S2P Require Import Prelude Bitcoin.

Module Coin.

Inductive Error := Derivation | EKeyChain | MultiDescriptor | Update.

Definition TAPROOT_KEYSPEND_SATISFACTION_WU : N := 66.

Inductive KeyChain := Receive | Change | Custom (c : N).
#[export] Instance KeyChain_eqdec : EqDecision KeyChain.
Proof. solve_decision. Defined.

(** [impl From<KeyChain> for u32]. *)
Definition keychain_to_u32 (value : KeyChain) : N :=
  match value with
  | Receive => 0
  | Change => 0
  | Custom c => c
  end.

(** [impl From<u32> for KeyChain]. *)
Definition keychain_from_u32 (value : N) : KeyChain :=
  match value with
  | 0 => Receive
  | 1 => Change
  | c => Custom c
  end.

(** Reading a [u32] and writing it back gives it again, except for 1, the change
    keychain, which is written as 0, the receive one. *)
Lemma keychain_u32_roundtrip n : keychain_to_u32 (keychain_from_u32 n) = n ↔ n ≠ 1.
Proof. destruct n as [|[]]; simpl; naive_solver. Qed.

Inductive CoinStatus := Unconfirmed | ConfirmedUnverified | Confirmed | BeingSpend | Spent.
#[export] Instance CoinStatus_eqdec : EqDecision CoinStatus.
Proof. solve_decision. Defined.

Inductive CoinSourceKind := SilentPayment | Segwit | Taproot | Other.

Section coin.
Context `{TxLib}.

Inductive CoinSpendInfo :=
  | Bip32 (coin_path : KeyChain * N) (descriptor : Descriptor)
  | Sp (derivation : list N) (tweak : list N).
#[global] Instance CoinSpendInfo_eqdec : EqDecision CoinSpendInfo.
Proof. solve_decision. Defined.

Record Coin := mkCoin {
  txout : TxOut;
  outpoint : OutPoint;
  height : option N;
  coin_sequence : N;
  status : CoinStatus;
  label : option string;
  satisfaction_size : N;
  spend_info : CoinSpendInfo
}.
#[global] Instance Coin_eqdec : EqDecision Coin.
Proof. solve_decision. Defined.

(** [c.txout.value.to_sat()]. *)
Definition value (c : Coin) : N := txout_value (txout c).
Definition spk (c : Coin) : script := script_pubkey (txout c).

(** [impl From<Coin> for TxIn]. *)
Definition coin_to_txin (c : Coin) : TxIn :=
  mkTxIn (outpoint c) [] (coin_sequence c) [].

Definition is_bip32 (c : Coin) : bool :=
  match spend_info c with Bip32 _ _ => true | Sp _ _ => false end.
Definition is_sp (c : Coin) : bool :=
  match spend_info c with Sp _ _ => true | Bip32 _ _ => false end.

Definition source (c : Coin) : CoinSourceKind :=
  match spend_info c with
  | Sp _ _ => SilentPayment
  | Bip32 _ _ =>
      if is_p2wpkh (script_pubkey (txout c)) then Segwit
      else if is_p2tr (script_pubkey (txout c)) then Taproot
      else Other
  end.

(** The definite descriptor of a keychain at an index, out of a two-path
    descriptor. *)
Definition derive_descriptor (descriptor : Descriptor) (keychain : KeyChain) (index : N) :
    result DefiniteDescriptor Error :=
  match into_single_descriptors descriptor with
  | None => Err MultiDescriptor
  | Some [] => Err MultiDescriptor
  | Some [_] => Err MultiDescriptor
  | Some (recv :: change :: _) =>
      match keychain with
      | Receive => ok_or (at_derivation_index recv index) Derivation
      | Change => ok_or (at_derivation_index change index) Derivation
      | Custom _ => Err EKeyChain
      end
  end.

Definition spk_to_psbt_input (c : Coin) (coin_path : KeyChain * N) (descriptor : Descriptor) :
    result PsbtInput Error :=
  let inp := mkPsbtInput _ (Some (txout c)) psbt_input_rest_default in
  let '(kc, index) := coin_path in
  try! descr := derive_descriptor descriptor kc index in
  let dummy_tx := mkTransaction 2 0 [coin_to_txin c] [] in
  match update_input_with_descriptor dummy_tx (txout c) (pi_rest inp) descr with
  | Some rest => Ok (mkPsbtInput _ (witness_utxo inp) rest)
  | None => Err Update
  end.

Definition sp_to_psbt_input (c : Coin) : result PsbtInput Error :=
  Ok (mkPsbtInput _ (Some (txout c)) psbt_input_rest_default).

Definition to_psbt_input (c : Coin) : result PsbtInput Error :=
  match spend_info c with
  | Bip32 coin_path descriptor => spk_to_psbt_input c coin_path descriptor
  | Sp _ _ => sp_to_psbt_input c
  end.

Definition max_input_satisfaction_size (descriptor : Descriptor) : outcome N :=
  let! ds := expect (into_single_descriptors descriptor) in
  let! d := expect (head ds) in
  expect (max_weight_to_satisfy d).

(** Every PSBT input built from a coin carries the coin's own output. *)
Lemma to_psbt_input_utxo c i :
  to_psbt_input c = Ok i → witness_utxo i = Some (txout c).
Proof.
  unfold to_psbt_input, spk_to_psbt_input, sp_to_psbt_input.
  destruct (spend_info c) as [[kc ix] d|]; [|naive_solver].
  destruct (derive_descriptor d kc ix); simpl; [|done].
  destruct (update_input_with_descriptor _ _ _ _); naive_solver.
Qed.
End coin.
End Coin.
