(* ===== verification/CoinSelection.v ===== *)
(** * Coin selection (tx/src/coin_selection.rs)

    The exhaustive selector: the value a set of inputs leaves after paying its
    own fees ([Selection]), the table of all subsets ([all_coins_combinations])
    and the order in which [select] looks through it. *)
From stdpp Require Import base gmap list strings.
From S2P Require Import Prelude Bitcoin Coin.

Module CoinSelection.
Import Coin.

(** [trait CoinCandidate]. *)
Class CoinCandidate (T : Type) := {
  cand_outpoint : T → OutPoint;
  cand_value_sat : T → N;
  cand_satisfaction_weight : T → N
}.
#[export] Instance Coin_candidate `{TxLib} : CoinCandidate Coin := {|
  cand_outpoint := outpoint;
  cand_value_sat := value;
  cand_satisfaction_weight := satisfaction_size
|}.

Record Selection := mkSelection {
  spendable_amount : N;
  sel_fees : N;
  outpoints : list OutPoint
}.

Definition PER_INPUT_FIXED_WU : N := 164.

Section selection.
Context `{TxLib} `{Build} {T : Type} `{CoinCandidate T}.

(** [fees]: what adding [coin] as an input costs at [feerate] (msats/vB). *)
Definition fees (coin : T) (feerate : N) : outcome N :=
  let! input_wu := add64 PER_INPUT_FIXED_WU (cand_satisfaction_weight coin) in
  let! m := mul64 (to_vbytes_ceil input_wu) feerate in
  Ret (m / 1000).

(** [Selection::new]: the loop body and the loop. *)
Definition selection_step (feerate : N) (acc : N * N * list OutPoint) (c : T) :
    outcome (N * N * list OutPoint) :=
  let '(spendable, total_fees, ops) := acc in
  let! input_wu := add64 PER_INPUT_FIXED_WU (cand_satisfaction_weight c) in
  let! m := mul64 (to_vbytes_ceil input_wu) feerate in
  let fee := m / 1000 in
  let! total_fees := add64 total_fees fee in
  let! net := sub64 (cand_value_sat c) fee in
  let! spendable := add64 spendable net in
  Ret (spendable, total_fees, ops ++ [cand_outpoint c]).

Definition selection_new (coins : list T) (feerate : N) : outcome Selection :=
  let! (spendable, total_fees, ops) := ofold (selection_step feerate) (0, 0, []) coins in
  Ret (mkSelection spendable total_fees ops).

(** [discard_dust]: keep a coin when twice its fee is below its value. *)
Fixpoint discard_dust (coins : list T) (feerate : N) : outcome (list T) :=
  match coins with
  | [] => Ret []
  | c :: coins =>
      let! fee := fees c feerate in
      let! fee2 := mul64 fee 2 in
      let! rest := discard_dust coins feerate in
      Ret (if fee2 <? cand_value_sat c then c :: rest else rest)
  end.

(** The coins at the bits set in [mask]. *)
Definition masked (coins : list T) (mask : nat) : list T :=
  omap (λ i, if Nat.testbit mask i then coins !! i else None) (seq 0 (length coins)).

Definition all_coins_combinations (coins : list T) (feerate : N) :
    outcome (option (gmap N Selection)) :=
  let! coins := discard_dust coins feerate in
  let n := length coins in
  if (n =? 0)%nat || (20 <? n)%nat then Ret None
  else
    let! selections := ofold (λ selections mask,
      let! sel := selection_new (masked coins mask) feerate in
      Ret (<[spendable_amount sel := sel]> selections)) ∅ (seq 1 (2 ^ n - 1)) in
    Ret (Some selections).

(** The comparator of the three [sort_by] calls: input count, then
    [a.1.fees.cmp(&a.1.fees)]. *)
Definition selection_cmp (a b : N * Selection) : comparison :=
  match Nat.compare (length (outpoints a.2)) (length (outpoints b.2)) with
  | Eq => N.compare (sel_fees a.2) (sel_fees a.2)
  | c => c
  end.
Definition selection_leb (a b : N * Selection) : bool :=
  match selection_cmp a b with Gt => false | _ => true end.

(** [BTreeMap::range(lo..hi)] panics on a decreasing range. *)
Definition range_between (lo hi : N) (m : gmap N Selection) : outcome (list (N * Selection)) :=
  if hi <? lo then Panic else Ret (bt_range (λ k, (lo <=? k) && (k <? hi)) m).
Definition range_from (lo : N) (m : gmap N Selection) : list (N * Selection) :=
  bt_range (λ k, lo <=? k) m.

(** The first selection of a range, sorted by [selection_cmp]. *)
Definition best_of (l : list (N * Selection)) : option Selection :=
  snd <$> head (sort_by selection_leb l).

(** [rand::random_range(0..len)], by call site. *)
Context (random_range : nat → nat → nat).

(** The "equal amounts" candidates: one pass of the loop over [2..6]. *)
Definition cj_step (selections : gmap N Selection) (tmin tmax : N)
    (cj_like : list (N * Selection)) (i : nat) : outcome (list (N * Selection)) :=
  let! lo := mul64 tmin (N.of_nat i) in
  let! hi := mul64 tmax (N.of_nat i) in
  let! candidates := range_between lo hi selections in
  if (length candidates =? 0)%nat then Ret cj_like
  else
    let! c := expect (candidates !! random_range i (length candidates)) in
    Ret (cj_like ++ [c]).

Definition cj_select (selections : gmap N Selection) (target feerate min_change : N) :
    outcome (option Selection) :=
  if (min_change <? target) && (feerate <? 10000) then
    let! m90 := mul64 target 90 in
    let! m110 := mul64 target 110 in
    let! cj_like := ofold (cj_step selections (m90 / 100) (m110 / 100)) [] (seq 2 4) in
    if (length cj_like =? 0)%nat then Ret None
    else
      let! c := expect (cj_like !! random_range 0 (length cj_like)) in
      Ret (Some c.2)
  else Ret None.

(** [select]: drop-the-change, then [min_change..max_change], then above
    [max_change], then anything covering [target]. *)
Definition select (coins : list T) (target feerate min_change max_change dust : N) :
    outcome (option Selection * option Selection) :=
  let! comb := all_coins_combinations coins feerate in
  match comb with
  | None => Ret (None, None)
  | Some selections =>
      let! hi := add64 target dust in
      let! exact := range_between target hi selections in
      let selection := snd <$> head exact in
      let! cj_selection := cj_select selections target feerate min_change in
      let! selection :=
        match selection with
        | Some s => Ret (Some s)
        | None =>
            let! lo := add64 target min_change in
            let! hi := add64 target max_change in
            let! change_range := range_between lo hi selections in
            Ret (best_of change_range)
        end in
      let! selection :=
        match selection with
        | Some s => Ret (Some s)
        | None =>
            let! lo := add64 target max_change in
            Ret (best_of (range_from lo selections))
        end in
      let selection :=
        match selection with
        | Some s => Some s
        | None => best_of (range_from target selections)
        end in
      Ret (selection, cj_selection)
  end.
End selection.

(** [struct DefaultCoinSelector]. *)
Record DefaultCoinSelector := mkDefaultCoinSelector {
  min_change : N;
  max_change : N;
  dust : N
}.
Definition default_coin_selector : DefaultCoinSelector :=
  mkDefaultCoinSelector 50000 5000000 500.

(** [trait CoinSelector]. *)
Class CoinSelector `{TxLib} (S : Type) :=
  select_coins : S → list Coin → N → N → outcome (list Coin).

Section default_selector.
Context `{TxLib} `{Build} (random_range : nat → nat → nat).

(** The coins of a selection, removed one by one from the candidates' map. *)
Fixpoint take_coins (coins : gmap OutPoint Coin) (ops : list OutPoint) : outcome (list Coin) :=
  match ops with
  | [] => Ret []
  | op :: ops =>
      let! c := expect (coins !! op) in
      let! rest := take_coins (delete op coins) ops in
      Ret (c :: rest)
  end.

Definition default_select_coins (self : DefaultCoinSelector) (candidates : list Coin)
    (target feerate : N) : outcome (list Coin) :=
  if (length candidates =? 0)%nat then Ret []
  else
    let! (selection, _) := select random_range candidates target feerate
      (min_change self) (max_change self) (dust self) in
    match selection with
    | Some sel =>
        let coins := foldl (λ m c, <[outpoint c := c]> m) ∅ candidates in
        take_coins coins (outpoints sel)
    | None => Ret []
    end.

#[export] Instance default_selector : CoinSelector DefaultCoinSelector := default_select_coins.
End default_selector.

(** ** Proofs *)

Section proofs.
Context `{TxLib} `{Build} {T : Type} `{CoinCandidate T} (feerate : N).

(** The fee of one input, without the width checks. *)
Definition fee_of (c : T) : N :=
  to_vbytes_ceil (PER_INPUT_FIXED_WU + cand_satisfaction_weight c) * feerate / 1000.
(** What the input leaves after its own fee. *)
Definition net_of (c : T) : N := cand_value_sat c - fee_of c.
Definition usable (c : T) : bool := 2 * fee_of c <? cand_value_sat c.

(** The input's weight and fee computations fit 64 bits. *)
Definition fee_fits (c : T) : Prop :=
  PER_INPUT_FIXED_WU + cand_satisfaction_weight c < 2 ^ 64 ∧
  to_vbytes_ceil (PER_INPUT_FIXED_WU + cand_satisfaction_weight c) * feerate < 2 ^ 64.

(** The whole candidate set stays within 64 bits. *)
Definition set_fits (coins : list T) : Prop :=
  Forall fee_fits coins ∧ sumN (cand_value_sat <$> coins) < 2 ^ 64.

Definition selection_of (coins : list T) : Selection :=
  mkSelection (sumN (net_of <$> coins)) (sumN (fee_of <$> coins)) (cand_outpoint <$> coins).

Lemma fees_ok c : fee_fits c → fees c feerate = Ret (fee_of c).
Proof.
  intros [Hw Hm]. unfold fees, add64, mul64. rewrite add_w_ok by done. simpl.
  by rewrite mul_w_ok.
Qed.

Lemma fee_of_small c : fee_fits c → 2 * fee_of c < 2 ^ 64.
Proof.
  intros [_ Hm]. unfold fee_of.
  pose proof (N.Div0.mul_div_le
    (to_vbytes_ceil (PER_INPUT_FIXED_WU + cand_satisfaction_weight c) * feerate) 1000). lia.
Qed.

Lemma discard_dust_ok coins :
  Forall fee_fits coins → discard_dust coins feerate = Ret (List.filter usable coins).
Proof.
  induction 1 as [|c coins Hc Hcs IH]; simpl; [done|].
  rewrite fees_ok by done. simpl. unfold mul64. pose proof (fee_of_small c Hc).
  rewrite mul_w_ok by lia. simpl. rewrite IH. simpl. unfold usable.
  by rewrite (N.mul_comm (fee_of c) 2).
Qed.

Lemma usable_net c : usable c = true → net_of c + fee_of c = cand_value_sat c.
Proof. unfold usable, net_of. rewrite N.ltb_lt. lia. Qed.

Lemma usable_net_pos c : usable c = true → 0 < net_of c.
Proof. unfold usable, net_of. rewrite N.ltb_lt. lia. Qed.

Lemma selection_fold_ok coins s f ops :
  Forall fee_fits coins → Forall (λ c, usable c = true) coins →
  s + f + sumN (cand_value_sat <$> coins) < 2 ^ 64 →
  ofold (selection_step feerate) (s, f, ops) coins =
    Ret (s + sumN (net_of <$> coins), f + sumN (fee_of <$> coins),
         ops ++ (cand_outpoint <$> coins)).
Proof.
  intros Hfit. revert s f ops.
  induction Hfit as [|c coins [Hw Hm] Hcs IH]; intros s f ops Hus Hb; simpl in *.
  - by rewrite !N.add_0_r, app_nil_r.
  - apply Forall_cons in Hus as [Hu Hus]. pose proof (usable_net c Hu) as Hnet.
    assert (Hb' : s + f + (net_of c + fee_of c) + sumN (cand_value_sat <$> coins) < 2 ^ 64)
      by (unfold fmap in *; lia).
    fold (fee_of c). unfold add64, mul64, sub64.
    rewrite add_w_ok by done. simpl. rewrite mul_w_ok by done. simpl. fold (fee_of c).
    rewrite add_w_ok by lia. simpl. rewrite sub_w_ok by lia. simpl. fold (net_of c).
    rewrite add_w_ok by lia. simpl.
    rewrite IH by (done || lia). rewrite !N.add_assoc, <-app_assoc. done.
Qed.

Lemma selection_new_ok coins :
  set_fits coins → Forall (λ c, usable c = true) coins →
  selection_new coins feerate = Ret (selection_of coins).
Proof.
  intros [Hfit Hsum] Hus. unfold selection_new.
  rewrite selection_fold_ok; [done..|]. unfold fmap in *. lia.
Qed.

(** *** Masks enumerate the sublists *)

Lemma masked_cons (c : T) (coins : list T) (mask : nat) :
  masked (c :: coins) mask =
    (if Nat.testbit mask 0 then [c] else []) ++ masked coins (Nat.div2 mask).
Proof.
  unfold masked. cbn [length seq]. rewrite <-seq_shift.
  change (map S (seq 0 (length coins))) with (S <$> seq 0 (length coins)).
  rewrite list_omap_cons, omap_fmap_comp. cbn [lookup list_lookup].
  by destruct (Nat.testbit mask 0).
Qed.

Lemma masked_sublist (coins : list T) (mask : nat) : masked coins mask `sublist_of` coins.
Proof.
  revert mask; induction coins as [|c coins IH]; intros mask; [constructor|].
  rewrite masked_cons. destruct (Nat.testbit mask 0); simpl; by constructor.
Qed.

Lemma testbit_2b (m : nat) (b : bool) :
  Nat.testbit (2 * m + Nat.b2n b) 0 = b ∧ Nat.div2 (2 * m + Nat.b2n b) = m.
Proof.
  rewrite Nat.add_comm. split.
  - apply Nat.add_b2n_double_bit0.
  - rewrite Nat.div2_div. apply Nat.add_b2n_double_div2.
Qed.

Lemma sublist_masked (coins sub : list T) :
  sub `sublist_of` coins →
  ∃ mask, (mask < 2 ^ length coins)%nat ∧ masked coins mask = sub ∧ (sub ≠ [] → (0 < mask)%nat).
Proof.
  induction 1 as [|c sub coins Hs (m & Hm & Hmask & Hpos)|c sub coins Hs (m & Hm & Hmask & Hpos)].
  - exists 0%nat. simpl. repeat split; [lia|done].
  - exists (2 * m + Nat.b2n true)%nat. rewrite masked_cons.
    destruct (testbit_2b m true) as [-> ->]. rewrite Hmask. simpl.
    repeat split; [lia|lia].
  - exists (2 * m + Nat.b2n false)%nat. rewrite masked_cons.
    destruct (testbit_2b m false) as [-> ->]. rewrite Hmask. simpl.
    repeat split; [lia|]. intros Hne. specialize (Hpos Hne). lia.
Qed.

Lemma masked_zero (coins : list T) : masked coins 0 = [].
Proof. induction coins as [|c coins IH]; [done|]. by rewrite masked_cons. Qed.

Lemma masked_nonempty (coins : list T) (mask : nat) :
  (mask < 2 ^ length coins)%nat → (0 < mask)%nat → masked coins mask ≠ [].
Proof.
  revert mask; induction coins as [|c coins IH]; intros mask Hlt Hpos; simpl in *; [lia|].
  rewrite masked_cons. destruct (Nat.testbit mask 0) eqn:Hb; [done|]. simpl.
  apply IH.
  - rewrite Nat.div2_div.
    apply Nat.Div0.div_lt_upper_bound; lia.
  - destruct mask as [|[|mask]]; [lia|done|]. apply Nat.lt_0_succ.
Qed.


(** *** The table of combinations *)

Section table.
Context (coins : list T) (Hfits : set_fits coins).

Let usables := List.filter usable coins.

Lemma set_fits_sublist sub : sub `sublist_of` coins → set_fits sub.
Proof.
  intros Hsub. destruct Hfits as [Hall Hsum]. split; [by eapply sublist_Forall|].
  eapply N.le_lt_trans; [by apply sumN_sublist|done].
Qed.

Lemma usables_usable : Forall (λ c, usable c = true) usables.
Proof. apply Forall_forall. intros c Hc%list_elem_of_In%filter_In. tauto. Qed.

Lemma selection_new_sub sub :
  sub `sublist_of` usables → selection_new sub feerate = Ret (selection_of sub).
Proof.
  intros Hsub. apply selection_new_ok.
  - apply set_fits_sublist. etrans; [done|]. apply filter_sublist.
  - eapply sublist_Forall; [done|]. apply usables_usable.
Qed.

(** What the table holds after a list of masks. *)
Lemma table_fold_ok (masks : list nat) (m0 : gmap N Selection) :
  ∃ m, ofold (λ selections mask,
      let! sel := selection_new (masked usables mask) feerate in
      Ret (<[spendable_amount sel := sel]> selections)) m0 masks = Ret m ∧
    (∀ k sel, m !! k = Some sel →
      m0 !! k = Some sel ∨
      ∃ mask, mask ∈ masks ∧ sel = selection_of (masked usables mask) ∧
              spendable_amount sel = k) ∧
    (∀ k, is_Some (m0 !! k) → is_Some (m !! k)) ∧
    (∀ mask, mask ∈ masks →
      is_Some (m !! spendable_amount (selection_of (masked usables mask)))).
Proof.
  revert m0; induction masks as [|mask masks IH]; intros m0; cbn [ofold].
  - exists m0. split_and!; [done|naive_solver|done|set_solver].
  - rewrite selection_new_sub by apply masked_sublist. cbn [obind].
    set (sel0 := selection_of (masked usables mask)).
    destruct (IH (<[spendable_amount sel0:=sel0]> m0)) as (m & -> & Hin & Hkeep & Hall).
    exists m. split_and!; [done|..].
    + intros k sel Hk. apply Hin in Hk as [Hk|(mk & ? & ? & ?)].
      * rewrite lookup_insert in Hk. case_decide; [|by left].
        simplify_eq. right. exists mask. set_solver.
      * right. exists mk. set_solver.
    + intros k Hk. apply Hkeep. rewrite lookup_insert. case_decide; [by eexists|done].
    + intros mk [->|Hmk]%elem_of_cons; [|by apply Hall].
      apply Hkeep. rewrite lookup_insert_eq. by eexists.
Qed.

(** The table of a non-empty set of at most 20 usable coins: exactly the
    selections of the non-empty sublists. *)
Lemma all_coins_combinations_ok :
  usables ≠ [] → (length usables ≤ 20)%nat →
  ∃ m, all_coins_combinations coins feerate = Ret (Some m) ∧
    (∀ k sel, m !! k = Some sel →
      ∃ sub, sub `sublist_of` usables ∧ sub ≠ [] ∧ sel = selection_of sub ∧
             spendable_amount sel = k) ∧
    (∀ sub, sub `sublist_of` usables → sub ≠ [] →
      is_Some (m !! spendable_amount (selection_of sub))).
Proof.
  intros Hne Hlen. unfold all_coins_combinations.
  rewrite discard_dust_ok by apply Hfits. cbn [obind]. fold usables.
  destruct (Nat.eqb_spec (length usables) 0) as [?%length_zero_iff_nil|]; [done|].
  destruct (Nat.ltb_spec 20 (length usables)); [lia|]. cbn [orb].
  destruct (table_fold_ok (seq 1 (2 ^ length usables - 1)) ∅) as (m & -> & Hin & _ & Hall).
  exists m. split_and!; [done|..].
  - intros k sel [Hk|(mask & Hmask & Hsel & Hk)]%Hin; [by rewrite lookup_empty in Hk|].
    apply elem_of_seq in Hmask. exists (masked usables mask). split_and!; [|..|done|done].
    + apply masked_sublist.
    + apply masked_nonempty; lia.
  - intros sub Hsub Hsne. destruct (sublist_masked _ _ Hsub) as (mask & Hlt & <- & Hpos).
    apply Hall. apply elem_of_seq. specialize (Hpos Hsne). lia.
Qed.

Lemma all_coins_combinations_none :
  usables = [] ∨ (20 < length usables)%nat →
  all_coins_combinations coins feerate = Ret None.
Proof.
  intros Hn. unfold all_coins_combinations.
  rewrite discard_dust_ok by apply Hfits. cbn [obind]. fold usables.
  destruct Hn as [->|Hn]; [done|].
  destruct (Nat.ltb_spec 20 (length usables)); [|lia]. by rewrite orb_true_r.
Qed.
End table.
End proofs.

(** *** The choice made by [select] *)

Section select_proofs.
Context `{TxLib} `{Build} {T : Type} `{CoinCandidate T} (feerate : N).

Lemma selection_leb_len a b :
  selection_leb a b = (length (outpoints a.2) <=? length (outpoints b.2))%nat.
Proof.
  unfold selection_leb, selection_cmp. rewrite N.compare_refl.
  destruct (Nat.compare_spec (length (outpoints a.2)) (length (outpoints b.2)));
    symmetry; [apply Nat.leb_le; lia..|apply Nat.leb_gt; lia].
Qed.

Lemma best_of_None l : best_of l = None ↔ l = [].
Proof.
  unfold best_of. rewrite <-(sort_by_nil selection_leb). by destruct (sort_by _ _).
Qed.

(** [best_of] picks an entry of the range with the fewest inputs. *)
Lemma best_of_Some l s :
  best_of l = Some s →
  ∃ k, (k, s) ∈ l ∧
    ∀ k' s', (k', s') ∈ l → (length (outpoints s) ≤ length (outpoints s'))%nat.
Proof.
  unfold best_of. destruct (sort_by selection_leb l) as [|[k s0] l'] eqn:Hs; simpl; [done|].
  intros [= ->]. exists k. split.
  - rewrite <-(sort_by_perm selection_leb l), Hs. set_solver.
  - intros k' s' Hin. pose proof (sort_by_head_min selection_leb
      ltac:(intros; rewrite !selection_leb_len, !Nat.leb_le; lia)
      ltac:(intros *; rewrite !selection_leb_len, !Nat.leb_le; lia) _ _ _ _ Hs Hin) as Hle.
    rewrite selection_leb_len, Nat.leb_le in Hle. done.
Qed.

(** The amounts [select] computes from the target stay within 64 bits. *)
Definition target_fits (target min_change max_change dust : N) : Prop :=
  min_change ≤ max_change ∧ 660 * (target + max_change + dust) < 2 ^ 64.

Context (random_range : nat → nat → nat).
Context (random_range_lt : ∀ i n, (0 < n)%nat → (random_range i n < n)%nat).

Lemma range_between_ok lo hi m :
  lo ≤ hi → range_between lo hi m = Ret (bt_range (λ k, (lo <=? k) && (k <? hi)) m).
Proof. intros Hle. unfold range_between. by destruct (N.ltb_spec hi lo); [lia|]. Qed.

Lemma lookup_random {A} i (l : list A) :
  l ≠ [] → ∃ x, expect (l !! random_range i (length l)) = Ret x.
Proof.
  intros Hl. destruct (lookup_lt_is_Some_2 l (random_range i (length l))) as [x ->]; [|by exists x].
  apply random_range_lt. destruct l; simpl; [done|lia].
Qed.

Lemma cj_select_total selections target min_change max_change dust :
  target_fits target min_change max_change dust →
  ∃ cj, cj_select random_range selections target feerate min_change = Ret cj.
Proof.
  intros [Hmm Hfit]. unfold cj_select. destruct (_ && _); [|by eexists].
  unfold mul64. rewrite !mul_w_ok by lia. cbn [obind].
  set (tmin := target * 90 / 100). set (tmax := target * 110 / 100).
  assert (Htm : tmin ≤ tmax ∧ tmax ≤ 2 * target).
  { unfold tmin, tmax. split; [apply N.Div0.div_le_mono; lia|].
    apply N.Div0.div_le_upper_bound. lia. }
  assert (Hstep : ∀ l i, (i ≤ 5)%nat → ∃ l', cj_step random_range selections tmin tmax l i = Ret l').
  { intros l i Hi. unfold cj_step, mul64. rewrite !mul_w_ok by nia. cbn [obind].
    rewrite range_between_ok by nia. cbn [obind].
    destruct (Nat.eqb_spec (length (bt_range (λ k, (tmin * N.of_nat i <=? k) && (k <? tmax * N.of_nat i)) selections)) 0)
      as [|Hl]; [by eexists|].
    match goal with |- context [expect (?l !! _)] =>
      destruct (lookup_random i l) as [x ->]; [|by eexists] end.
    intros Hnil. by rewrite Hnil in Hl. }
  assert (Hfold : ∃ l, ofold (cj_step random_range selections tmin tmax) [] (seq 2 4) = Ret l).
  { cbn [seq ofold]. do 4 (edestruct Hstep as [? ->]; [lia|]; cbn [obind]). by eexists. }
  destruct Hfold as [l ->]. cbn [obind].
  destruct (Nat.eqb_spec (length l) 0) as [|Hl]; [by eexists|].
  destruct (lookup_random 0%nat l) as [x ->]; [by intros ->|]. by eexists.
Qed.

(** The specification of the choice, from the table of amounts: the bands of
    amounts are tried in order, the first non-empty one decides. The first
    band takes the least amount, the others the fewest inputs. *)
Definition in_band (lo hi k : N) : Prop := lo ≤ k ∧ k < hi.
Definition band_empty (m : gmap N Selection) (P : N → Prop) : Prop :=
  ∀ k, P k → m !! k = None.
Definition fewest_inputs (m : gmap N Selection) (P : N → Prop) (s : Selection) : Prop :=
  ∃ k, P k ∧ m !! k = Some s ∧
    ∀ k' s', P k' → m !! k' = Some s' → (length (outpoints s) ≤ length (outpoints s'))%nat.

Inductive picks (m : gmap N Selection) (target min_change max_change dust : N) :
    option Selection → Prop :=
  | picks_exact k s :
      in_band target (target + dust) k → m !! k = Some s →
      (∀ k', in_band target (target + dust) k' → is_Some (m !! k') → k ≤ k') →
      picks m target min_change max_change dust (Some s)
  | picks_change s :
      band_empty m (in_band target (target + dust)) →
      fewest_inputs m (in_band (target + min_change) (target + max_change)) s →
      picks m target min_change max_change dust (Some s)
  | picks_above s :
      band_empty m (in_band target (target + dust)) →
      band_empty m (in_band (target + min_change) (target + max_change)) →
      fewest_inputs m (λ k, target + max_change ≤ k) s →
      picks m target min_change max_change dust (Some s)
  | picks_any s :
      band_empty m (in_band target (target + dust)) →
      band_empty m (in_band (target + min_change) (target + max_change)) →
      band_empty m (λ k, target + max_change ≤ k) →
      fewest_inputs m (λ k, target ≤ k) s →
      picks m target min_change max_change dust (Some s)
  | picks_none :
      band_empty m (λ k, target ≤ k) →
      picks m target min_change max_change dust None.

Lemma in_band_spec lo hi k : ((lo <=? k) && (k <? hi)) = true ↔ in_band lo hi k.
Proof. unfold in_band. rewrite andb_true_iff, N.leb_le, N.ltb_lt. done. Qed.

Lemma best_of_range inside m (P : N → Prop) r :
  (∀ k, inside k = true ↔ P k) → best_of (bt_range inside m) = r →
  match r with Some s => fewest_inputs m P s | None => band_empty m P end.
Proof.
  intros HP <-. destruct (best_of (bt_range inside m)) as [s|] eqn:Hb.
  - apply best_of_Some in Hb as (k & [Hk Hm]%elem_of_bt_range & Hmin). exists k.
    split_and!; [by apply HP|done|]. intros k' s' Hk' Hm'. eapply Hmin.
    apply elem_of_bt_range. split; [by apply HP|done].
  - apply best_of_None in Hb. rewrite bt_range_nil in Hb. intros k Hk. by apply Hb, HP.
Qed.

Lemma head_range_exact lo hi m :
  match head (bt_range (λ k, (lo <=? k) && (k <? hi)) m) with
  | Some (k, s) => in_band lo hi k ∧ m !! k = Some s ∧
      ∀ k', in_band lo hi k' → is_Some (m !! k') → k ≤ k'
  | None => band_empty m (in_band lo hi)
  end.
Proof.
  destruct (head _) as [[k s]|] eqn:Hh.
  - apply bt_range_head in Hh as (Hk & Hm & Hmin). rewrite in_band_spec in Hk.
    split_and!; [done..|]. intros k' Hk' Hs. apply N.leb_le.
    apply Hmin; [by apply in_band_spec|done].
  - intros k Hk. assert (bt_range (λ k, (lo <=? k) && (k <? hi)) m = []) as Hnil
      by (by destruct (bt_range _ _)).
    rewrite bt_range_nil in Hnil. by apply Hnil, in_band_spec.
Qed.

(** [select] on a table implements [picks]; it returns, whatever the build. *)
Lemma select_picks coins target min_change max_change dust m :
  target_fits target min_change max_change dust →
  all_coins_combinations coins feerate = Ret (Some m) →
  ∃ r cj, select random_range coins target feerate min_change max_change dust = Ret (r, cj) ∧
    picks m target min_change max_change dust r.
Proof.
  intros Hfit Hm. pose proof Hfit as [Hmm Hb]. unfold select. rewrite Hm. cbn [obind].
  destruct (cj_select_total m target min_change max_change dust Hfit) as [cj Hcj].
  unfold add64. rewrite !add_w_ok by lia. cbn [obind].
  rewrite !range_between_ok by lia. cbn [obind]. rewrite Hcj. cbn [obind].
  pose proof (head_range_exact target (target + dust) m) as Hex.
  destruct (head (bt_range _ m)) as [[k s]|]; cbn [fmap option_fmap option_map snd obind].
  { eexists _, _. split; [done|]. destruct Hex as (?&?&?). by eapply picks_exact. }
  pose proof (best_of_range _ m _ _ (in_band_spec (target + min_change) (target + max_change))
    eq_refl) as Hch.
  destruct (best_of (bt_range (λ k, (target + min_change <=? k) && (k <? target + max_change)) m))
    as [s|]; cbn [obind].
  { eexists _, _. split; [done|]. by apply picks_change. }
  pose proof (best_of_range _ m _ _ (λ k, N.leb_le (target + max_change) k) eq_refl) as Hab.
  unfold range_from. destruct (best_of (bt_range (λ k, target + max_change <=? k) m)) as [s|]; cbn [obind].
  { eexists _, _. split; [done|]. by apply picks_above. }
  pose proof (best_of_range _ m _ _ (λ k, N.leb_le target k) eq_refl) as Hany.
  eexists _, _. split; [done|].
  destruct (best_of (bt_range (λ k, target <=? k) m)) as [s|]; [by apply picks_any|by apply picks_none].
Qed.

(** A pick is an entry of the table that covers the target, and nothing is
    picked only when no entry covers it. *)
Lemma picks_covers m target min_change max_change dust r :
  picks m target min_change max_change dust r →
  match r with
  | Some s => ∃ k, m !! k = Some s ∧ target ≤ k
  | None => ∀ k, target ≤ k → m !! k = None
  end.
Proof.
  destruct 1 as [k s [??]|s ? (k & [??] & ? & _)|s ?? (k & ? & ? & _)|s ??? (k & ? & ? & _)|];
    [exists k; split; [done|lia]..|done].
Qed.
End select_proofs.

(** ** Properties *)

Section properties.
Context `{TxLib} `{Build} (random_range : nat → nat → nat).

Lemma candidates_map_lookup (candidates : list Coin) (m : gmap OutPoint Coin) c :
  NoDup (outpoint <$> candidates) → c ∈ candidates →
  foldl (λ m c, <[outpoint c := c]> m) m candidates !! outpoint c = Some c.
Proof.
  revert m; induction candidates as [|c' cs IH]; intros m Hnd Hc; [set_solver|].
  csimpl in *. apply NoDup_cons in Hnd as [Hni Hnd].
  apply elem_of_cons in Hc as [->|Hc]; [|by apply IH].
  assert (Hkeep : ∀ m : gmap OutPoint Coin, m !! outpoint c' = Some c' →
    foldl (λ m c, <[outpoint c := c]> m) m cs !! outpoint c' = Some c').
  { clear -Hni. induction cs as [|c cs IH]; intros m Hm; [done|].
    csimpl in *. apply not_elem_of_cons in Hni as [Hne Hni]. apply IH; [done|].
    by rewrite lookup_insert_ne. }
  apply Hkeep. apply lookup_insert_eq.
Qed.

Lemma take_coins_ok (m : gmap OutPoint Coin) (sub : list Coin) :
  NoDup (outpoint <$> sub) → (∀ c, c ∈ sub → m !! outpoint c = Some c) →
  take_coins m (outpoint <$> sub) = Ret sub.
Proof.
  revert m; induction sub as [|c sub IH]; intros m Hnd Hm; [done|]. csimpl.
  csimpl in Hnd. apply NoDup_cons in Hnd as [Hni Hnd].
  rewrite (Hm c) by set_solver. cbn [expect obind]. rewrite IH; [done|done|].
  intros c' Hc'. rewrite lookup_delete_ne; [apply Hm; set_solver|].
  intros Heq. apply Hni. rewrite Heq. by apply list_elem_of_fmap_2.
Qed.

(** C27. The default selector returns, in debug and in release builds: either
    distinct coins taken from the candidates whose values, each less the fee
    of its own input, add up to at least the target, or no coin at all, which
    happens only when more than 20 coins are worth spending or no set of them
    reaches the target. *)
Theorem default_select_coins_covers (self : DefaultCoinSelector) (candidates : list Coin)
    (target feerate : N)
    (Hrandom : ∀ i n, (0 < n)%nat → (random_range i n < n)%nat)
    (Hdistinct : NoDup (outpoint <$> candidates))
    (Hfits : set_fits feerate candidates)
    (Htarget : target_fits target (min_change self) (max_change self) (dust self)) :
  ∃ selected, default_select_coins random_range self candidates target feerate = Ret selected ∧
    selected `sublist_of` candidates ∧
    (selected ≠ [] → target ≤ sumN (net_of feerate <$> selected)) ∧
    (selected = [] →
      (20 < length (List.filter (usable feerate) candidates))%nat ∨
      ∀ sub, sub `sublist_of` List.filter (usable feerate) candidates → sub ≠ [] →
        sumN (net_of feerate <$> sub) < target).
Proof.
  unfold default_select_coins.
  destruct (Nat.eqb_spec (length candidates) 0) as [->%length_zero_iff_nil|Hlen].
  { exists []. split_and!; [done..|]. intros _. right. intros sub ->%sublist_nil_r. done. }
  set (us := List.filter (usable feerate) candidates).
  destruct (decide (us = [] ∨ (20 < length us)%nat)) as [Hnone|Hsome].
  { unfold select. rewrite all_coins_combinations_none by done. cbn [obind].
    exists []. split_and!; [done|apply sublist_nil_l|done|]. intros _.
    destruct Hnone as [Hnil|?]; [right|by left].
    fold us. rewrite Hnil. intros sub ->%sublist_nil_r. done. }
  assert (us ≠ [] ∧ ¬ (20 < length us)%nat) as [Hne Hle] by tauto.
  destruct (all_coins_combinations_ok feerate candidates Hfits Hne ltac:(fold us; lia))
    as (m & Hm & Hsound & Hcomplete).
  destruct (select_picks feerate random_range Hrandom candidates target _ _ _ m Htarget Hm)
    as (r & cj & -> & Hp). cbn [obind]. apply picks_covers in Hp. destruct r as [s|].
  - destruct Hp as (k & Hk & Hcov). destruct (Hsound _ _ Hk) as (sub & Hsub & Hsne & -> & Hkey).
    exists sub. assert (Hsc : sub `sublist_of` candidates)
      by (etrans; [done|apply filter_sublist]).
    cbn [outpoints selection_of]. split_and!; [|done| |done].
    + apply take_coins_ok.
      * eapply NoDup_sublist; [by apply sublist_fmap|done].
      * intros c Hc. apply candidates_map_lookup; [done|by eapply sublist_elem].
    + intros _. cbn [spendable_amount selection_of] in Hkey. by rewrite Hkey.
  - exists []. split_and!; [done|apply sublist_nil_l|done|]. intros _. right.
    intros sub Hsub Hsne. apply N.nle_gt. intros Hcov.
    destruct (Hcomplete sub Hsub Hsne) as [s Hs]. cbn in Hs. by rewrite Hp in Hs.
Qed.

(** The order of preference of [select]: over the table that holds exactly
    the non-empty sets of usable coins keyed by what they leave after fees, it
    first takes the least amount within [dust] of the target, then the fewest
    inputs whose change is in [min_change..max_change], then the fewest inputs
    above that, then the fewest inputs of all that cover the target. *)
Theorem select_preference (coins : list Coin) (target feerate min_change max_change dust : N)
    (Hrandom : ∀ i n, (0 < n)%nat → (random_range i n < n)%nat)
    (Hfits : set_fits feerate coins)
    (Hsome : List.filter (usable feerate) coins ≠ [])
    (Hmax : (length (List.filter (usable feerate) coins) ≤ 20)%nat)
    (Htarget : target_fits target min_change max_change dust) :
  ∃ m r cj,
    select random_range coins target feerate min_change max_change dust = Ret (r, cj) ∧
    (∀ k sel, m !! k = Some sel →
      ∃ sub, sub `sublist_of` List.filter (usable feerate) coins ∧ sub ≠ [] ∧
        sel = selection_of feerate sub ∧ spendable_amount sel = k) ∧
    (∀ sub, sub `sublist_of` List.filter (usable feerate) coins → sub ≠ [] →
      is_Some (m !! sumN (net_of feerate <$> sub))) ∧
    picks m target min_change max_change dust r.
Proof.
  destruct (all_coins_combinations_ok feerate coins Hfits Hsome Hmax) as (m & Hm & Hs & Hc).
  destruct (select_picks feerate random_range Hrandom coins _ _ _ _ m Htarget Hm)
    as (r & cj & ? & ?).
  by exists m, r, cj.
Qed.
End properties.

(** *** Witnesses *)
Module Witness.
Import Sample.

Definition coin_at (txid value : N) : Coin :=
  mkCoin (mkTxOut value [0; 20]) (mkOutPoint txid 0) None 0 Confirmed None 108
    (Bip32 (Receive, 0) (0 : Descriptor)).
Definition coins : list Coin := [coin_at 1 100000; coin_at 2 200000; coin_at 3 700].
Definition rng : nat → nat → nat := λ _ _, 0%nat.

Lemma rng_lt i n : (0 < n)%nat → (rng i n < n)%nat.
Proof. done. Qed.

Lemma coins_fit : set_fits 1000 coins.
Proof. split; [repeat constructor|]; vm_compute; reflexivity. Qed.

Lemma default_select_coins_covers_witness :
  ∃ selected, default_select_coins rng default_coin_selector coins 150000 1000 = Ret selected ∧
    selected `sublist_of` coins ∧
    (selected ≠ [] → 150000 ≤ sumN (net_of 1000 <$> selected)) ∧
    (selected = [] →
      (20 < length (List.filter (usable 1000) coins))%nat ∨
      ∀ sub, sub `sublist_of` List.filter (usable 1000) coins → sub ≠ [] →
        sumN (net_of 1000 <$> sub) < 150000).
Proof.
  apply (default_select_coins_covers rng default_coin_selector coins 150000 1000 rng_lt).
  - apply (bool_decide_unpack _). by vm_compute.
  - apply coins_fit.
  - split; vm_compute; [discriminate|reflexivity].
Defined.

Lemma select_preference_witness :
  ∃ m r cj,
    select rng coins 150000 1000 50000 5000000 500 = Ret (r, cj) ∧
    (∀ k sel, m !! k = Some sel →
      ∃ sub, sub `sublist_of` List.filter (usable 1000) coins ∧ sub ≠ [] ∧
        sel = selection_of 1000 sub ∧ spendable_amount sel = k) ∧
    (∀ sub, sub `sublist_of` List.filter (usable 1000) coins → sub ≠ [] →
      is_Some (m !! sumN (net_of 1000 <$> sub))) ∧
    picks m 150000 50000 5000000 500 r.
Proof.
  apply (select_preference rng coins 150000 1000 50000 5000000 500 rng_lt).
  - apply coins_fit.
  - vm_compute. discriminate.
  - vm_compute. lia.
  - split; vm_compute; [discriminate|reflexivity].
Defined.

(** The selector run on the sample coins: one coin and its change. *)
Example select_coins_run :
  default_select_coins rng default_coin_selector coins 140000 1000 = Ret [coin_at 2 200000].
Proof. vm_compute. reflexivity. Qed.

(** The comparator never looks at the other selection's fees ... *)
Lemma selection_cmp_ignores_fees a b :
  length (outpoints a.2) = length (outpoints b.2) → selection_cmp a b = Eq.
Proof. intros Hl. unfold selection_cmp. by rewrite Hl, Nat.compare_refl, N.compare_refl. Qed.

(** ... so with two single-input choices in the same band, the one paying the
    higher fee can win. *)
Definition cheap : Coin := coin_at 1 300000.
Definition costly : Coin :=
  mkCoin (mkTxOut 299000 [0; 20]) (mkOutPoint 2 0) None 0 Confirmed None 1000
    (Bip32 (Receive, 0) (0 : Descriptor)).
Example select_not_min_fee :
  fees cheap 1000 = Ret 68 ∧ fees costly 1000 = Ret 291 ∧
  default_select_coins rng default_coin_selector [cheap; costly] 200000 1000 = Ret [costly].
Proof. vm_compute. done. Qed.
End Witness.
End CoinSelection.
