(* ===== verification/Recipient.v ===== *)
(** * Recipients (tx/src/recipient.rs, tx/src/psbt_sp.rs, tx/src/error.rs)

    The [RecipientProvider] trait as a type class with the laws its clients rely
    on, and its two implementations in the [tx] crate: a plain [Recipient] and
    the change output of a descriptor wallet, which takes a fresh index each time
    its script is created. *)
From stdpp Require Import base gmap list strings.
From S2P Require Import Prelude Bitcoin Coin.

Module Recipient.
Import Coin.

(** [enum Amount] (transaction.rs). *)
Inductive Amount := Value (v : N) | Max (v : option N) | Anchor.

(** [crate::error::Error]. *)
Inductive Error :=
  | Satisfaction | NoFundingTx | NoDescriptor | WrongVout | EUpdate
  | ECoin (e : Coin.Error) | NoSpProvider | SpPartialSecret | CoinNotFound
  | ChangeAlreadyAdded.

Definition PSBT_OUT_SP_V0_INFO : N := 9.
Definition PSBT_OUT_SP_V0_LABEL : N := 10.
Definition SP_V0_INFO_VERSION : N := 0.

Section recipients.
Context `{TxLib} `{Build}.

(** [psbt_sp::set_sp_v0_output]. *)
Definition set_sp_v0_output (output : PsbtOutput) (scan_key spend_key : PublicKey)
    (label : option N) : PsbtOutput :=
  let info := [SP_V0_INFO_VERSION] ++ serialize_pubkey scan_key ++ serialize_pubkey spend_key in
  let unknown := <[(PSBT_OUT_SP_V0_INFO, []) := info]> (po_unknown output) in
  let unknown :=
    match label with
    | Some l => <[(PSBT_OUT_SP_V0_LABEL, []) := u32_to_le_bytes l]> unknown
    | None => unknown
    end in
  mkPsbtOutput _ unknown (po_rest output).

(** [struct FinalizationContext]. *)
Record FinalizationContext := mkCtx {
  ctx_inputs : list Coin;
  partial_secret : option SecretKey;
  ctx_network : Network
}.

Inductive PsbtOutputInfo :=
  | InfoBip32 (origin : KeyChain * N) (descriptor : Descriptor)
  | InfoSilentPayment (scan_pubkey spend_pubkey : PublicKey) (label : option N)
  | InfoNone.

(** [trait RecipientProvider]; [clone_box] is the value itself. *)
Class RecipientProvider (R : Type) := {
  output_weight : R → outcome N;
  create_script : R → FinalizationContext → outcome (R * script);
  psbt_output_info : R → outcome PsbtOutputInfo;
  is_silent_payment : R → bool;
  is_change : R → bool;
  amount : R → Amount;
  set_amount : R → Amount → R;
  set_precomputed_script : R → script → R;
  to_psbt_output : R → result PsbtOutput Error;
  rp_network : R → Network
}.

(** What the transaction engine relies on. *)
Class RecipientLaws (R : Type) `{RecipientProvider R} := {
  amount_set_amount (r : R) a : amount (set_amount r a) = a;
  is_change_set_amount (r : R) a : is_change (set_amount r a) = is_change r;
  weight_set_amount (r : R) a : output_weight (set_amount r a) = output_weight r;
  create_script_keeps (r r' : R) ctx s :
    create_script r ctx = Ret (r', s) → amount r' = amount r ∧ is_change r' = is_change r
}.

(** [trait ChangeTip]. *)
Class ChangeTip (T : Type) := next_index : T → outcome (T * N).

(** [struct LocalTipUpdater(u32)]. *)
#[export] Instance LocalTipUpdater_tip : ChangeTip N := λ tip,
  let! tip := add32 tip 1 in Ret (tip, tip).

Record Recipient := mkRecipient {
  address : Address;
  r_amount : Amount;
  r_label : option string;
  origin : option (KeyChain * N);
  descriptor : option Descriptor
}.

(** [impl From<&Recipient> for TxOut]. *)
Definition recipient_txout (recip : Recipient) : TxOut :=
  let value :=
    match r_amount recip with
    | Value v => v
    | Max (Some v) => v
    | Max None => MAX_MONEY
    | Anchor => 0
    end in
  mkTxOut value (address_script (address recip)).

Definition recipient_to_psbt_output (self : Recipient) : result PsbtOutput Error :=
  match descriptor self, origin self with
  | Some descr, Some (kc, index) =>
      match derive_descriptor descr kc index with
      | Err e => Err (ECoin e)
      | Ok descr =>
          let dummy_tx := mkTransaction 2 0 [] [recipient_txout self] in
          match update_output_with_descriptor dummy_tx psbt_output_rest_default descr with
          | Some rest => Ok (mkPsbtOutput _ ∅ rest)
          | None => Err EUpdate
          end
      end
  | _, _ => Ok psbt_output_default
  end.

Definition recipient_network (self : Recipient) : Network :=
  match descriptor self with
  | Some d =>
      let is_mainnet :=
        match into_single_descriptors d with
        | Some (d0 :: _) => any_mainnet_xpub d0
        | _ => false
        end in
      if is_mainnet then Bitcoin else Signet
  | None => Signet
  end.

(** [impl RecipientProvider for Recipient]. *)
#[export] Instance Recipient_provider : RecipientProvider Recipient := {|
  output_weight := λ self,
    Ret (txout_weight (mkTxOut MAX_MONEY (address_script (address self))));
  create_script := λ self _, Ret (self, address_script (address self));
  psbt_output_info := λ self,
    match origin self, descriptor self with
    | Some o, Some d => Ret (InfoBip32 o d)
    | _, _ => Ret InfoNone
    end;
  is_silent_payment := λ _, false;
  is_change := λ self,
    match origin self with Some (Change, _) => true | _ => false end;
  amount := r_amount;
  set_amount := λ self a,
    mkRecipient (address self) a (r_label self) (origin self) (descriptor self);
  set_precomputed_script := λ self _, self;
  to_psbt_output := recipient_to_psbt_output;
  rp_network := recipient_network
|}.

(** [struct ChangeRecipientProvider<T>]. *)
Record ChangeRecipientProvider (T : Type) := mkChangeProvider {
  tip_updater : T;
  c_descriptor : Descriptor;
  c_network : Network;
  c_amount : Amount;
  current_index : option N
}.
#[global] Arguments mkChangeProvider {T}.
#[global] Arguments tip_updater {T}.
#[global] Arguments c_descriptor {T}.
#[global] Arguments c_network {T}.
#[global] Arguments c_amount {T}.
#[global] Arguments current_index {T}.

Definition change_provider_new (d : Descriptor) (network : Network) :
    ChangeRecipientProvider N :=
  mkChangeProvider 0 d network (Value 0) None.
Definition change_provider_tip (self : ChangeRecipientProvider N) (tip : N) :
    ChangeRecipientProvider N :=
  mkChangeProvider tip (c_descriptor self) (c_network self) (c_amount self) (current_index self).

(** The change script of [d] at [index]: a chain of [expect]s. *)
Definition change_script (d : Descriptor) (network : Network) (index : N) : outcome script :=
  let! ds := expect (into_single_descriptors d) in
  let! change := expect (ds !! 1%nat) in
  let! definite := expect (at_derivation_index change index) in
  let! addr := expect (definite_address definite network) in
  Ret (address_script addr).

#[export] Instance ChangeRecipientProvider_provider {T} `{ChangeTip T} :
    RecipientProvider (ChangeRecipientProvider T) := {|
  output_weight := λ self,
    let! s := change_script (c_descriptor self) (c_network self) 0 in
    Ret (txout_weight (mkTxOut MAX_MONEY s));
  create_script := λ self _,
    let! (tip, index) := next_index (tip_updater self) in
    let self := mkChangeProvider tip (c_descriptor self) (c_network self) (c_amount self)
                  (Some index) in
    let! s := change_script (c_descriptor self) (c_network self) index in
    Ret (self, s);
  psbt_output_info := λ self,
    let! index := expect (current_index self) in
    Ret (InfoBip32 (Change, index) (c_descriptor self));
  is_silent_payment := λ _, false;
  is_change := λ _, true;
  amount := c_amount;
  set_amount := λ self a,
    mkChangeProvider (tip_updater self) (c_descriptor self) (c_network self) a
      (current_index self);
  set_precomputed_script := λ self _, self;
  to_psbt_output := λ _, Ok psbt_output_default;
  rp_network := c_network
|}.

(** [Box<dyn RecipientProvider>]: one of two implementations. *)
#[export] Instance dyn_provider {A B} `{RecipientProvider A, RecipientProvider B} :
    RecipientProvider (A + B) := {|
  output_weight := λ r, match r with inl a => output_weight a | inr b => output_weight b end;
  create_script := λ r ctx,
    match r with
    | inl a => let! (a, s) := create_script a ctx in Ret (inl a, s)
    | inr b => let! (b, s) := create_script b ctx in Ret (inr b, s)
    end;
  psbt_output_info := λ r,
    match r with inl a => psbt_output_info a | inr b => psbt_output_info b end;
  is_silent_payment := λ r,
    match r with inl a => is_silent_payment a | inr b => is_silent_payment b end;
  is_change := λ r, match r with inl a => is_change a | inr b => is_change b end;
  amount := λ r, match r with inl a => amount a | inr b => amount b end;
  set_amount := λ r x,
    match r with inl a => inl (set_amount a x) | inr b => inr (set_amount b x) end;
  set_precomputed_script := λ r s,
    match r with
    | inl a => inl (set_precomputed_script a s)
    | inr b => inr (set_precomputed_script b s)
    end;
  to_psbt_output := λ r,
    match r with inl a => to_psbt_output a | inr b => to_psbt_output b end;
  rp_network := λ r, match r with inl a => rp_network a | inr b => rp_network b end
|}.

(** ** The implementations satisfy the laws *)

#[export] Instance Recipient_laws : RecipientLaws Recipient.
Proof. split; naive_solver. Qed.

#[export] Instance ChangeRecipientProvider_laws {T} `{ChangeTip T} :
  RecipientLaws (ChangeRecipientProvider T).
Proof.
  split; [done..|]. intros r r' ctx s. simpl.
  destruct (next_index _) as [[tip ix]|]; simpl; [|done].
  destruct (change_script _ _ _); simpl; naive_solver.
Qed.

#[export] Instance dyn_laws {A B} `{RecipientLaws A, RecipientLaws B} : RecipientLaws (A + B).
Proof.
  split.
  - intros [] ?; simpl; apply amount_set_amount.
  - intros [] ?; simpl; apply is_change_set_amount.
  - intros [] ?; simpl; apply weight_set_amount.
  - intros [a|b] r' ctx s; simpl.
    + destruct (create_script a ctx) as [[a' s']|] eqn:Ha; simpl; [|done].
      intros [= <- <-]. by apply (create_script_keeps a a' ctx s').
    + destruct (create_script b ctx) as [[b' s']|] eqn:Hb; simpl; [|done].
      intros [= <- <-]. by apply (create_script_keeps b b' ctx s').
Qed.
End recipients.
End Recipient.
