(* ===== verification/Transaction.v ===== *)
(** * Transaction building (tx/src/transaction.rs)

    The template, the fee computation ([process_fees]), the transaction engine
    ([process_transaction]), the last checks and the PSBT ([finalize]). The
    engine is written against the [RecipientProvider], [CoinSelector] and
    [CoinSource] interfaces, as the source is. *)
From stdpp Require Import base gmap list strings.
From S2P Require Import Prelude Bitcoin Coin CoinSelection Recipient.

Module Transaction.
Import Coin CoinSelection Recipient.

Inductive Error :=
  | ESatisfaction | FeesNull | NoInputs | NoOutputs | SingleMax | AddressNetwork
  | AddInput | NotEnoughForFee | Derivator | EDescriptor | Input | Output
  | ECoinSelection | CoinSelectionFee | CoinSelectionRequiresFeerate | ENoSpProvider
  | ESpPartialSecret | EChangeAlreadyAdded | PayToAnchor | NotChange
  | MissingChange (excess : N)
  | DisproportionateFees (fee paid_outputs max_percent max_amount : N).

Inductive Warning :=
  | ChangeUnderDust (lost : N)
  | MaxUnderDust (lost : N)
  | ChangeCreateDust (lost : N)
  | MaxCreateDust (lost : N)
  | WDisproportionateFees (fee paid_outputs : N).

Definition to_warning (e : Error) : option Warning :=
  match e with
  | DisproportionateFees fee paid _ _ => Some (WDisproportionateFees fee paid)
  | _ => None
  end.

Inductive Fees := Sats (f : N) | MilliSatsVb (f : N).

Definition fees_is_null (f : Fees) : bool :=
  match f with Sats f => f =? 0 | MilliSatsVb f => f =? 0 end.

(** [crate::DUST_AMOUNT]. *)
Definition DUST_AMOUNT : N := 5000.

Inductive Drain := DrainChange | DrainMax | DrainNone.

Record FeeResult := mkFeeResult {
  fr_fees : option N;
  fr_max : option N;
  fr_change : option N;
  fr_warnings : list Warning;
  fr_error : option Error
}.

(** [trait CoinSource]. *)
Class CoinSource `{TxLib} (S : Type) := spendable_coins : S → list Coin.

Section transaction.
Context `{TxLib} `{Build}.

(** [estimated_weight_raw]. *)
Definition estimated_weight_raw (input_satisfaction_weights output_weights : list N) :
    outcome N :=
  let! weight := add64 40 2 in
  let! weight := ofold (λ w input_sat,
    let! x := add64 164 input_sat in add64 w x) weight input_satisfaction_weights in
  let! weight := ofold add64 weight output_weights in
  let! weight :=
    if (253 <=? length input_satisfaction_weights)%nat then add64 weight 8 else Ret weight in
  if (253 <=? length output_weights)%nat then add64 weight 8 else Ret weight.

(** The fee of a weight at a rate in msats/vB. *)
Definition fee_at (weight rate : N) : outcome N :=
  let! m := mul64 (to_vbytes_ceil weight) rate in Ret (m / 1000).

Definition fee_error (e : Error) : FeeResult := mkFeeResult None None None [] (Some e).

(** [process_fees]. *)
Definition process_fees (fees : Fees) (weight_wo_change weight_with_change : N)
    (sum_inputs sum_outputs : N) (drain : Drain) (dust_threshold : N) : outcome FeeResult :=
  if sum_inputs <? sum_outputs then Ret (fee_error AddInput)
  else
    let! fee_allowance := sub64 sum_inputs sum_outputs in
    let! (fee_wo_change, fee_with_change) :=
      match fees with
      | Sats fee => Ret (fee, fee)
      | MilliSatsVb fee =>
          let! wo := fee_at weight_wo_change fee in
          let! wi := fee_at weight_with_change fee in
          Ret (wo, wi)
      end in
    if fee_allowance <? fee_wo_change then Ret (fee_error NotEnoughForFee)
    else
      let! left_wo := sub64 fee_allowance fee_wo_change in
      if left_wo <? dust_threshold then
        let warnings :=
          match drain with
          | DrainChange => [ChangeUnderDust left_wo]
          | DrainMax => [MaxUnderDust left_wo]
          | DrainNone => []
          end in
        Ret (mkFeeResult (Some fee_allowance) None None warnings None)
      else
        let! left_with := sub64 fee_allowance fee_with_change in
        if left_with <? dust_threshold then
          let warnings :=
            match drain with
            | DrainChange => [ChangeCreateDust left_wo]
            | DrainMax => [MaxCreateDust left_wo]
            | DrainNone => []
            end in
          Ret (mkFeeResult (Some fee_allowance) None None warnings None)
        else
          match drain with
          | DrainNone => Ret (mkFeeResult (Some fee_wo_change) None None [] None)
          | DrainChange =>
              Ret (mkFeeResult (Some fee_with_change) None (Some left_with) [] None)
          | DrainMax =>
              Ret (mkFeeResult (Some fee_wo_change) (Some left_wo) None [] None)
          end.

Context {R : Type} `{!RecipientProvider R}.

(** [struct TxTemplate]. *)
Record TxTemplate := mkTemplate {
  inputs : list Coin;
  outputs : list R;
  tmpl_fees : Fees;
  dust_threshold : N
}.
Definition set_inputs (t : TxTemplate) (i : list Coin) : TxTemplate :=
  mkTemplate i (outputs t) (tmpl_fees t) (dust_threshold t).
Definition set_outputs (t : TxTemplate) (o : list R) : TxTemplate :=
  mkTemplate (inputs t) o (tmpl_fees t) (dust_threshold t).

(** [tx_estimated_weight]. *)
Definition tx_estimated_weight (t : TxTemplate) : outcome N :=
  let input_weights := satisfaction_size <$> inputs t in
  let! output_weights := omapM output_weight (outputs t) in
  estimated_weight_raw input_weights output_weights.

(** [TxTemplate::tx]: the transaction for weight estimation; creating a change
    script updates its recipient. *)
Definition template_tx (t : TxTemplate) : outcome (TxTemplate * Transaction) :=
  let! made := omapM (λ r,
    let value :=
      match amount r with
      | Value v => v
      | Max (Some v) => v
      | Max None => MAX_MONEY
      | Anchor => 0
      end in
    let! (r, s) :=
      if is_silent_payment r then Ret (r, dummy_p2tr)
      else create_script r (mkCtx [] None Bitcoin) in
    Ret (r, mkTxOut value s)) (outputs t) in
  Ret (mkTemplate (inputs t) made.*1 (tmpl_fees t) (dust_threshold t),
       mkTransaction 2 0 (coin_to_txin <$> inputs t) made.*2).

Definition output_amount (r : R) : N :=
  match amount r with
  | Value v => v
  | Max (Some v) => v
  | Max None | Anchor => 0
  end.

Definition output_bitcoin_amount (r : R) : N :=
  match amount r with
  | Value v => v
  | Max (Some v) => v
  | Max None => MAX_MONEY
  | Anchor => 0
  end.

Definition sum_output_amounts (outs : list R) : outcome N := sum64 (output_amount <$> outs).

Definition check_disproportionate_fee (ins : list Coin) (outs : list R)
    (max_fee_percent max_fee_amount : N) : outcome (result unit Error) :=
  let! sum_inputs := sum64 (value <$> ins) in
  let! sum_outputs := sum_output_amounts outs in
  let fee := sum_inputs - sum_outputs in
  let! paid_outputs := sum64 (output_amount <$> List.filter (λ r, negb (is_change r)) outs) in
  if paid_outputs =? 0 then Ret (Ok tt)
  else
    let! p := mul64 paid_outputs max_fee_percent in
    let pct_threshold := p / 100 in
    if (pct_threshold <? fee) && (max_fee_amount <? fee) then
      Ret (Err (DisproportionateFees fee paid_outputs max_fee_percent max_fee_amount))
    else Ret (Ok tt).

Definition check_missing_change (ins : list Coin) (outs : list R) (fees : Fees)
    (dust_threshold : N) : outcome (result unit Error) :=
  if existsb is_change outs then Ret (Ok tt)
  else
    let! sum_inputs := sum64 (value <$> ins) in
    let! sum_outputs := sum_output_amounts outs in
    let fee := sum_inputs - sum_outputs in
    if fee <=? dust_threshold then Ret (Ok tt)
    else
      let! estimated_fee :=
        match fees with
        | Sats f => Ret f
        | MilliSatsVb rate =>
            let! weight := tx_estimated_weight (mkTemplate ins outs fees dust_threshold) in
            fee_at weight rate
        end in
      let excess := fee - estimated_fee in
      if dust_threshold <? excess then Ret (Err (MissingChange excess)) else Ret (Ok tt).

Definition prepare_outputs (t : TxTemplate) (change : option R) : result (list R) Error :=
  match change with
  | Some change_output =>
      if negb (is_change change_output) then Err NotChange
      else if existsb is_change (outputs t) then Err EChangeAlreadyAdded
      else Ok (outputs t ++ [change_output])
  | None => Ok (outputs t)
  end.

(** The shuffles of [rand], applied to the inputs and to the outputs. *)
Context (shuffle_coins : list Coin → list Coin) (shuffle_outputs : list R → list R).

Definition shuffle_maybe (t : TxTemplate) (shuffle : bool) (outs : list R) :
    list Coin * list R :=
  (if shuffle then shuffle_coins (inputs t) else inputs t,
   if shuffle then shuffle_outputs outs else outs).

(** [trait SpPartialSecretProvider]. *)
Record SpProvider := mkSpProvider {
  compute_partial_secret : list Coin → outcome (result SecretKey Recipient.Error);
  derive_sp_scripts : list R → SecretKey → outcome (list R)
}.

Definition compute_sp_partial_secret (ins : list Coin) (outs : list R) (p : SpProvider) :
    outcome (result (option SecretKey) Error) :=
  if negb (existsb is_silent_payment outs) then Ret (Ok None)
  else
    let! secret := compute_partial_secret p ins in
    match secret with
    | Ok secret => Ret (Ok (Some secret))
    | Err _ => Ret (Err ESpPartialSecret)
    end.

(** The PSBT input maps, stopping at the first coin that has none. *)
Fixpoint psbt_input_maps (ins : list Coin) : result (list PsbtInput) Error :=
  match ins with
  | [] => Ok []
  | i :: ins =>
      match to_psbt_input i with
      | Err _ => Err Input
      | Ok m => try! ms := psbt_input_maps ins in Ok (m :: ms)
      end
  end.

Fixpoint psbt_output_maps (outs : list R) : outcome (result (list PsbtOutput) Error) :=
  match outs with
  | [] => Ret (Ok [])
  | o :: outs =>
      match to_psbt_output o with
      | Err _ => Ret (Err Output)
      | Ok m =>
          let! info := psbt_output_info o in
          let m :=
            match info with
            | InfoSilentPayment scan spend label => set_sp_v0_output m scan spend label
            | _ => m
            end in
          let? ms := psbt_output_maps outs in Ret (Ok (m :: ms))
      end
  end.

Definition build_psbt (ins : list Coin) (outs : list R) (ctx : FinalizationContext) :
    outcome (result Psbt Error) :=
  let! made := omapM (λ r,
    let value := output_bitcoin_amount r in
    let! (r, s) := create_script r ctx in
    Ret (r, mkTxOut value s)) outs in
  let outs := made.*1 in
  let tx_outputs := made.*2 in
  let tx_inputs := coin_to_txin <$> ins in
  let unsigned_tx := mkTransaction 2 0 tx_inputs tx_outputs in
  match psbt_input_maps ins with
  | Err e => Ret (Err e)
  | Ok pins => let? pouts := psbt_output_maps outs in Ret (Ok (mkPsbt _ unsigned_tx 0 pins pouts))
  end.

Definition finalize (t : TxTemplate) (change : option R) (shuffle : bool)
    (sp_provider : option SpProvider) (network : Network)
    (max_fee_percent max_fee_amount : N) (skip_checks : bool) : outcome (result Psbt Error) :=
  let? outs := Ret (prepare_outputs t change) in
  let '(ins, outs) := shuffle_maybe t shuffle outs in
  let? _ :=
    if skip_checks then Ret (Ok tt)
    else
      let? _ := check_missing_change ins outs (tmpl_fees t) (dust_threshold t) in
      check_disproportionate_fee ins outs max_fee_percent max_fee_amount in
  let? secret :=
    match sp_provider with
    | Some p => compute_sp_partial_secret ins outs p
    | None => Ret (Ok None)
    end in
  let! outs :=
    match sp_provider, secret with
    | Some p, Some k => derive_sp_scripts p outs k
    | _, _ => Ret outs
    end in
  build_psbt ins outs (mkCtx ins secret network).

(** [struct TransactionResult]. *)
Record TransactionResult := mkTxResult {
  tx_template : TxTemplate;
  change : option N;
  res_fees : option N;
  warnings : list Warning;
  error : option Error
}.
Definition from_template (t : TxTemplate) : TransactionResult :=
  mkTxResult t None None [] None.
Definition with_error (r : TransactionResult) (e : Error) : TransactionResult :=
  mkTxResult (tx_template r) (change r) (res_fees r) (warnings r) (Some e).

(** The loop over the outputs: their total, and the drained one. *)
Fixpoint scan_outputs (pos : nat) (total : N) (maxed : option nat) (outs : list R) :
    outcome (result (N * option nat) Error) :=
  match outs with
  | [] => Ret (Ok (total, maxed))
  | o :: outs =>
      match amount o with
      | Value sat => let! total := add64 total sat in scan_outputs (S pos) total maxed outs
      | Max _ =>
          match maxed with
          | Some _ => Ret (Err SingleMax)
          | None => scan_outputs (S pos) total (Some pos) outs
          end
      | Anchor => scan_outputs (S pos) total maxed outs
      end
  end.

Context {Sel Src : Type} `{!CoinSelector Sel} `{!CoinSource Src}.

Definition select_inputs (t : TxTemplate) (outputs_total : N) (maxed_output : option nat)
    (coin_selection : option (Sel * Src)) : outcome (result (list Coin) Error) :=
  match coin_selection with
  | None => Ret (Err NoInputs)
  | Some (selector, source) =>
      let? selected :=
        match maxed_output with
        | Some _ => Ret (Ok (spendable_coins source))
        | None =>
            match tmpl_fees t with
            | Sats _ => Ret (Err CoinSelectionRequiresFeerate)
            | MilliSatsVb rate =>
                let! base_weight := tx_estimated_weight t in
                let! base_fee := fee_at base_weight rate in
                let! target := add64 outputs_total base_fee in
                let! sel := select_coins selector (spendable_coins source) target rate in
                Ret (Ok sel)
            end
        end in
      if (length selected =? 0)%nat then Ret (Err ECoinSelection) else Ret (Ok selected)
  end.

(** The last part of [process_transaction], once the inputs are known. *)
Definition process_with_inputs (t : TxTemplate) (change_recipient : option R)
    (outputs_total : N) (maxed_output : option nat) (result : TransactionResult) :
    outcome TransactionResult :=
  let! inputs_total := ofold add64 0 (value <$> inputs t) in
  let! weight_wo := tx_estimated_weight t in
  let! weight_with :=
    match change_recipient with
    | Some r => let! w := output_weight r in add64 weight_wo w
    | None => Ret weight_wo
    end in
  let drain := match maxed_output with Some _ => DrainMax | None => DrainChange end in
  let! fr := process_fees (tmpl_fees t) weight_wo weight_with inputs_total outputs_total drain
               (dust_threshold t) in
  let result := mkTxResult (tx_template result) (change result) (res_fees result)
                  (warnings result ++ fr_warnings fr) (error result) in
  match fr_error fr with
  | Some e => Ret (with_error result e)
  | None =>
      let result := mkTxResult (tx_template result) (change result) (fr_fees fr)
                      (warnings result) (error result) in
      let! chk := check_disproportionate_fee (inputs t) (outputs t) 10 2000000 in
      let result :=
        match chk with
        | Err e =>
            match to_warning e with
            | Some w => mkTxResult (tx_template result) (change result) (res_fees result)
                          (warnings result ++ [w]) (error result)
            | None => result
            end
        | Ok _ => result
        end in
      match maxed_output, fr_max fr, fr_change fr with
      | Some pos, Some value, None =>
          let! r := expect (outputs (tx_template result) !! pos) in
          let outs := <[pos := set_amount r (Max (Some value))]> (outputs (tx_template result)) in
          Ret (mkTxResult (set_outputs (tx_template result) outs) (change result)
                 (res_fees result) (warnings result) (error result))
      | None, None, Some c =>
          Ret (mkTxResult (tx_template result) (Some c) (res_fees result) (warnings result)
                 (error result))
      | None, None, None => Ret result
      | _, _, _ => Panic
      end
  end.

(** [process_transaction]. *)
Definition process_transaction (t : TxTemplate) (change_recipient : option R)
    (coin_selection : option (Sel * Src)) : outcome TransactionResult :=
  let result := from_template t in
  if fees_is_null (tmpl_fees t) then Ret (with_error result FeesNull)
  else
    let! scanned := scan_outputs 0 0 None (outputs t) in
    match scanned with
    | Err e => Ret (with_error result e)
    | Ok (outputs_total, maxed_output) =>
        if (length (inputs t) =? 0)%nat then
          let! selected := select_inputs t outputs_total maxed_output coin_selection in
          match selected with
          | Err e => Ret (with_error result e)
          | Ok sel =>
              process_with_inputs (set_inputs t sel) change_recipient outputs_total
                maxed_output (from_template (set_inputs t sel))
          end
        else process_with_inputs t change_recipient outputs_total maxed_output result
    end.
End transaction.

(** ** Proofs *)

Section fee_proofs.
Context `{TxLib} `{Build}.

(** The fee of a weight, without the width checks. *)
Definition fee_of_weight (fees : Fees) (weight : N) : N :=
  match fees with Sats f => f | MilliSatsVb rate => to_vbytes_ceil weight * rate / 1000 end.
Definition fee_fits_weight (fees : Fees) (weight : N) : Prop :=
  match fees with Sats _ => True | MilliSatsVb rate => to_vbytes_ceil weight * rate < 2 ^ 64 end.

Lemma fee_at_ok weight rate :
  to_vbytes_ceil weight * rate < 2 ^ 64 →
  fee_at weight rate = Ret (to_vbytes_ceil weight * rate / 1000).
Proof. intros Hw. unfold fee_at, mul64. by rewrite mul_w_ok. Qed.

Lemma fee_pair_ok fees wo wi :
  fee_fits_weight fees wo → fee_fits_weight fees wi →
  match fees with
  | Sats fee => Ret (fee, fee)
  | MilliSatsVb fee =>
      let! wo := fee_at wo fee in let! wi := fee_at wi fee in Ret (wo, wi)
  end = Ret (fee_of_weight fees wo, fee_of_weight fees wi).
Proof. destruct fees; simpl; [done|]. intros Hwo Hwi. by rewrite !fee_at_ok. Qed.

(** The two fees of a checked build that returned. *)
Lemma fee_pair_inv (Hchecked : overflow_checks = true) fees wo wi p :
  match fees with
  | Sats fee => Ret (fee, fee)
  | MilliSatsVb fee =>
      let! wo := fee_at wo fee in let! wi := fee_at wi fee in Ret (wo, wi)
  end = Ret p → p = (fee_of_weight fees wo, fee_of_weight fees wi).
Proof.
  destruct fees as [f|rate]; simpl; [naive_solver|]. unfold fee_at, mul64. intros Hp.
  inv_ret. repeat match goal with
    Hm : mul_w _ _ _ = Ret _ |- _ => apply (mul_w_inv Hchecked) in Hm as [-> _] end. done.
Qed.

(** What a fee result accounts for: the outputs, the fee and the drained
    value make up the inputs. *)
Definition fee_accounts (fees : Fees) (wo wi si so : N) (drain : Drain) (dust : N)
    (r : FeeResult) : Prop :=
  match fr_error r with
  | Some AddInput => si < so
  | Some NotEnoughForFee => so ≤ si ∧ si - so < fee_of_weight fees wo
  | Some _ => False
  | None => so + fee_of_weight fees wo ≤ si ∧ ∃ f, fr_fees r = Some f ∧
      match drain with
      | DrainChange => fr_max r = None ∧ so + f + default 0 (fr_change r) = si ∧
          match fr_change r with
          | Some c => dust ≤ c ∧ f = fee_of_weight fees wi
          | None => fee_of_weight fees wo ≤ f
          end
      | DrainMax => fr_change r = None ∧ so + f + default 0 (fr_max r) = si ∧
          match fr_max r with
          | Some m => dust ≤ m ∧ f = fee_of_weight fees wo
          | None => fee_of_weight fees wo ≤ f
          end
      | DrainNone => fr_max r = None ∧ fr_change r = None ∧
          fee_of_weight fees wo ≤ f ∧ so + f ≤ si
      end
  end.

(** [process_fees] accounts for everything as soon as the fee with change is
    within the allowance wherever the code subtracts it. *)
Lemma process_fees_run fees wo wi si so drain dust :
  match fees with
  | Sats fee => Ret (fee, fee)
  | MilliSatsVb fee =>
      let! wo := fee_at wo fee in let! wi := fee_at wi fee in Ret (wo, wi)
  end = Ret (fee_of_weight fees wo, fee_of_weight fees wi) →
  (so ≤ si → fee_of_weight fees wo + dust ≤ si - so → fee_of_weight fees wi ≤ si - so) →
  ∃ r, process_fees fees wo wi si so drain dust = Ret r ∧
    fee_accounts fees wo wi si so drain dust r.
Proof.
  intros Hpair Hsub. unfold process_fees, fee_accounts, sub64.
  destruct (N.ltb_spec si so) as [Hlt|Hle]; [by eexists|].
  rewrite sub_w_ok by done. cbn [obind]. rewrite Hpair. cbn [obind].
  destruct (N.ltb_spec (si - so) (fee_of_weight fees wo)) as [Hf|Hf]; [by eexists|].
  rewrite sub_w_ok by done. cbn [obind].
  destruct (N.ltb_spec (si - so - fee_of_weight fees wo) dust) as [Hd|Hd].
  { eexists; split; [done|]. simpl. split; [lia|]. exists (si - so). split; [done|].
    destruct drain; simpl; split_and!; try done; lia. }
  rewrite sub_w_ok by (apply Hsub; lia). cbn [obind]. specialize (Hsub Hle ltac:(lia)).
  destruct (N.ltb_spec (si - so - fee_of_weight fees wi) dust) as [Hd'|Hd'].
  { eexists; split; [done|]. simpl. split; [lia|]. exists (si - so). split; [done|].
    destruct drain; simpl; split_and!; try done; lia. }
  destruct drain; (eexists; split; [done|]; simpl; split; [lia|]; eexists; split; [done|]);
    split_and!; try done; lia.
Qed.

Lemma process_fees_checked (Hchecked : overflow_checks = true) fees wo wi si so drain dust r :
  process_fees fees wo wi si so drain dust = Ret r →
  fee_accounts fees wo wi si so drain dust r.
Proof.
  intros Hr. destruct (N.lt_ge_cases si so) as [Hlt|Hle].
  { unfold process_fees in Hr. rewrite (proj2 (N.ltb_lt _ _) Hlt) in Hr. inv_ret. done. }
  assert (Hpair : match fees with
    | Sats fee => Ret (fee, fee)
    | MilliSatsVb fee =>
        let! wo := fee_at wo fee in let! wi := fee_at wi fee in Ret (wo, wi)
    end = Ret (fee_of_weight fees wo, fee_of_weight fees wi)).
  { revert Hr. unfold process_fees. destruct (N.ltb_spec si so); [lia|].
    intros (? & _ & Hr)%obind_Ret. apply obind_Ret in Hr as (p & Hp & _).
    by pose proof (fee_pair_inv Hchecked _ _ _ _ Hp) as ->. }
  destruct (process_fees_run fees wo wi si so drain dust Hpair) as (r' & Hr' & Hacc).
  { intros _ Hd. revert Hr. unfold process_fees, sub64.
    destruct (N.ltb_spec si so); [lia|]. rewrite sub_w_ok by done. cbn [obind].
    rewrite Hpair. cbn [obind]. destruct (N.ltb_spec (si - so) (fee_of_weight fees wo)); [lia|].
    rewrite sub_w_ok by done. cbn [obind].
    destruct (N.ltb_spec (si - so - fee_of_weight fees wo) dust); [lia|].
    intros (? & [_ Hi]%(sub_w_inv Hchecked) & _)%obind_Ret. done. }
  rewrite Hr' in Hr. by simplify_eq.
Qed.
End fee_proofs.

Section engine_proofs.
Context `{TxLib} `{Build} {R : Type} `{!RecipientProvider R} `{!RecipientLaws R}.
Context {Sel Src : Type} `{!CoinSelector Sel} `{!CoinSource Src}.

(** What an output asks for before the drained one is resolved. *)
Definition fixed_amount (r : R) : N := match amount r with Value v => v | _ => 0 end.
Definition is_max (r : R) : bool := match amount r with Max _ => true | _ => false end.

Lemma output_amount_fixed r : is_max r = false → output_amount r = fixed_amount r.
Proof. unfold is_max, output_amount, fixed_amount. by destruct (amount r). Qed.

(** The position found by the scan: the only [Max] output. *)
Definition only_max (outs : list R) (mx : option nat) : Prop :=
  match mx with
  | None => Forall (λ r, is_max r = false) outs
  | Some p => ∃ l r k, outs = l ++ r :: k ∧ length l = p ∧ is_max r = true ∧
      Forall (λ r, is_max r = false) l ∧ Forall (λ r, is_max r = false) k
  end.

Lemma scan_outputs_seen pos total p outs t mx :
  scan_outputs pos total (Some p) outs = Ret (Ok (t, mx)) →
  mx = Some p ∧ Forall (λ r, is_max r = false) outs.
Proof.
  revert pos total; induction outs as [|o outs IH]; intros pos total; simpl; [naive_solver|].
  unfold is_max. destruct (amount o) eqn:Ho; [|done|].
  - intros (t' & _ & Hs)%obind_Ret. apply IH in Hs as [-> ?]. split; [done|].
    constructor; [by rewrite Ho|done].
  - intros Hs. apply IH in Hs as [-> ?]. split; [done|]. constructor; [by rewrite Ho|done].
Qed.

Lemma scan_outputs_max pos total outs t mx :
  scan_outputs pos total None outs = Ret (Ok (t, mx)) →
  only_max outs ((λ p, p - pos)%nat <$> mx) ∧ (∀ p, mx = Some p → (pos ≤ p)%nat).
Proof.
  revert pos total; induction outs as [|o outs IH]; intros pos total; simpl.
  { intros [= <- <-]. simpl. split; [constructor|done]. }
  destruct (amount o) as [v|v|] eqn:Ho.
  - intros (t' & _ & [Hm Hle]%IH)%obind_Ret. split; [|intros p Hp; specialize (Hle p Hp); lia].
    destruct mx as [p|]; simpl in *.
    + destruct Hm as (l & r & k & -> & Hl & Hr & Hfl & Hfk). specialize (Hle p eq_refl).
      exists (o :: l), r, k. split_and!; [done|simpl; lia|done| |done].
      constructor; [by unfold is_max; rewrite Ho|done].
    + constructor; [by unfold is_max; rewrite Ho|done].
  - intros [-> Hf]%scan_outputs_seen. simpl. split; [|naive_solver lia].
    exists [], o, outs. split_and!; [done|simpl; lia|by unfold is_max; rewrite Ho|constructor|done].
  - intros [Hm Hle]%IH. split; [|intros p Hp; specialize (Hle p Hp); lia].
    destruct mx as [p|]; simpl in *.
    + destruct Hm as (l & r & k & -> & Hl & Hr & Hfl & Hfk). specialize (Hle p eq_refl).
      exists (o :: l), r, k. split_and!; [done|simpl; lia|done| |done].
      constructor; [by unfold is_max; rewrite Ho|done].
    + constructor; [by unfold is_max; rewrite Ho|done].
Qed.

Lemma scan_outputs_total (Hchecked : overflow_checks = true) pos total mx0 outs t mx :
  scan_outputs pos total mx0 outs = Ret (Ok (t, mx)) →
  t = total + sumN (fixed_amount <$> outs).
Proof.
  revert pos total mx0; induction outs as [|o outs IH]; intros pos total mx0; cbn [scan_outputs].
  { intros [= <- _]. csimpl. lia. }
  rewrite fmap_cons, sumN_cons. unfold fixed_amount at 1. destruct (amount o) as [v|v|].
  - intros (t' & [-> _]%(add_w_inv Hchecked) & Hs%IH)%obind_Ret. lia.
  - destruct mx0; [done|]. intros Hs%IH. lia.
  - intros Hs%IH. lia.
Qed.

Lemma scan_outputs_ok pos total outs :
  Forall (λ r, is_max r = false) outs → total + sumN (fixed_amount <$> outs) < 2 ^ 64 →
  scan_outputs pos total None outs = Ret (Ok (total + sumN (fixed_amount <$> outs), None)).
Proof.
  revert pos total; induction outs as [|o outs IH]; intros pos total Hf Hb; cbn [scan_outputs].
  { csimpl. by rewrite N.add_0_r. }
  apply Forall_cons in Hf as [Ho Hf]. unfold is_max in Ho. revert Hb.
  rewrite fmap_cons, sumN_cons. unfold fixed_amount at 1 3.
  destruct (amount o) as [v|v|]; [|done|]; intros Hb.
  - unfold add64. rewrite add_w_ok by lia. cbn [obind]. rewrite IH by (done || lia).
    by rewrite N.add_assoc.
  - rewrite IH by (done || lia). by rewrite N.add_0_l.
Qed.

Lemma fixed_sum outs :
  Forall (λ r, is_max r = false) outs →
  sumN (output_amount <$> outs) = sumN (fixed_amount <$> outs).
Proof.
  induction 1 as [|r outs Hr Hf IH]; csimpl; [done|]. by rewrite IH, output_amount_fixed.
Qed.

(** Resolving the drained output adds its value to what the scan summed. *)
Lemma resolve_max_sum outs p r v :
  only_max outs (Some p) → outs !! p = Some r →
  sumN (output_amount <$> <[p := set_amount r (Max (Some v))]> outs) =
    sumN (fixed_amount <$> outs) + v.
Proof.
  intros (l & r' & k & -> & <- & Hmax & Hfl & Hfk) Hr.
  rewrite list_lookup_middle in Hr by done. simplify_eq.
  rewrite insert_app_r_alt, Nat.sub_diag by lia. simpl.
  rewrite !fmap_app, !sumN_app. csimpl. rewrite !fixed_sum by done.
  unfold output_amount at 1. rewrite amount_set_amount.
  revert Hmax. unfold is_max, fixed_amount at 4. destruct (amount r); [done| |done]. lia.
Qed.

(** Every satoshi of the inputs is an output, the fee or the change. *)
Definition conserves (r : TransactionResult (R:=R)) : Prop :=
  ∃ f, res_fees r = Some f ∧
    sumN (value <$> inputs (tx_template r)) =
      sumN (output_amount <$> outputs (tx_template r)) + f + default 0 (change r) ∧
    (∀ c, change r = Some c → dust_threshold (tx_template r) ≤ c) ∧
    Forall (λ o, amount o ≠ Max None) (outputs (tx_template r)).

Lemma not_max_resolved outs :
  Forall (λ r, is_max r = false) outs → Forall (λ o, amount o ≠ Max None) outs.
Proof.
  intros Hf. eapply Forall_impl; [exact Hf|]. unfold is_max. intros r.
  by destruct (amount r).
Qed.

Lemma resolve_max_resolved outs p r v :
  only_max outs (Some p) →
  Forall (λ o, amount o ≠ Max None) (<[p := set_amount r (Max (Some v))]> outs).
Proof.
  intros (l & r' & k & -> & <- & Hmax & Hfl & Hfk).
  rewrite insert_app_r_alt, Nat.sub_diag by lia. simpl.
  apply Forall_app. split; [by apply not_max_resolved|].
  constructor; [by rewrite amount_set_amount|by apply not_max_resolved].
Qed.

Lemma process_with_inputs_conserves (Hchecked : overflow_checks = true) t cr mx r :
  process_with_inputs t cr (sumN (fixed_amount <$> outputs t)) mx (from_template t) = Ret r →
  only_max (outputs t) mx → error r = None → conserves r.
Proof.
  intros Hr Hmx He. unfold process_with_inputs in Hr.
  apply obind_Ret in Hr as (si & Hsi%(ofold_add64_inv Hchecked) & Hr).
  apply obind_Ret in Hr as (wo & _ & Hr). apply obind_Ret in Hr as (wi & _ & Hr).
  apply obind_Ret in Hr as (fr & Hfr%(process_fees_checked Hchecked) & Hr).
  unfold fee_accounts in Hfr. destruct (fr_error fr) as [e|].
  { by inv_ret. }
  destruct Hfr as (_ & f & Hf & Hacc). apply obind_Ret in Hr as (chk & _ & Hr).
  rewrite Hf in Hr. simpl in Hsi. unfold conserves.
  destruct mx as [p|]; simpl in Hacc.
  - destruct Hacc as (Hch & Hsum & Hdust). rewrite Hch in Hr.
    destruct (fr_max fr) as [v|] eqn:Hmax; [|done].
    apply obind_Ret in Hr as (o & Ho%expect_Ret & Hr). inv_ret.
    destruct chk as [[]|e]; [|destruct (to_warning e)]; simpl in *; exists f;
      rewrite resolve_max_sum by done;
      (split_and!; [done|lia|done|by apply resolve_max_resolved]).
  - destruct Hacc as (Hmax & Hsum & Hdust). rewrite Hmax in Hr. simpl in Hmx.
    pose proof (fixed_sum _ Hmx). pose proof (not_max_resolved _ Hmx).
    destruct (fr_change fr) as [c|] eqn:Hch; inv_ret;
      (destruct chk as [[]|e]; [|destruct (to_warning e)]); simpl in *; exists f;
      (split_and!; [done|lia|naive_solver|done]).
Qed.

(** The engine keeps the inputs it is given, and the outputs unless one is
    drained. *)
Lemma process_with_inputs_keeps t cr total mx r :
  process_with_inputs (R:=R) t cr total mx (from_template t) = Ret r →
  inputs (tx_template r) = inputs t ∧ dust_threshold (tx_template r) = dust_threshold t ∧
  (mx = None → outputs (tx_template r) = outputs t).
Proof.
  unfold process_with_inputs. intros Hr. apply obind_Ret in Hr as (si & _ & Hr).
  apply obind_Ret in Hr as (wo & _ & Hr). apply obind_Ret in Hr as (wi & _ & Hr).
  apply obind_Ret in Hr as (fr & _ & Hr). destruct (fr_error fr); [by inv_ret|].
  apply obind_Ret in Hr as (chk & _ & Hr).
  destruct mx, (fr_max fr), (fr_change fr); simpl in Hr; inv_ret;
    (destruct chk as [|e]; [|destruct (to_warning e)]); done.
Qed.

Lemma process_transaction_keeps t cr (cs : option (Sel * Src)) r :
  process_transaction (R:=R) t cr cs = Ret r →
  dust_threshold (tx_template r) = dust_threshold t ∧
  (inputs t ≠ [] → inputs (tx_template r) = inputs t) ∧
  (Forall (λ r, is_max r = false) (outputs t) → outputs (tx_template r) = outputs t).
Proof.
  unfold process_transaction. destruct (fees_is_null _); [intros; by inv_ret|].
  intros (sc & Hsc & Hr)%obind_Ret. destruct sc as [[total mx]|e]; [|by inv_ret].
  assert (Hmx : Forall (λ r, is_max r = false) (outputs t) → mx = None).
  { intros Hf. apply scan_outputs_max in Hsc as [Hm Hle]. destruct mx as [p|]; [|done].
    destruct Hm as (l & o & k & Ho & _ & Hmax & _). rewrite Ho, Forall_app, Forall_cons in Hf.
    destruct Hf as (_ & Hof & _). congruence. }
  destruct (inputs t) as [|i ins] eqn:Hi; simpl in Hr.
  - apply obind_Ret in Hr as ([sel|e] & _ & Hr); [|by inv_ret].
    apply process_with_inputs_keeps in Hr as (_ & Hd & Ho). split_and!; [done|done|auto].
  - apply process_with_inputs_keeps in Hr as (Hin & Hd & Ho). rewrite <-Hi.
    split_and!; [done|done|auto].
Qed.

Lemma process_transaction_conserved (t : TxTemplate (R:=R)) (change_recipient : option R)
    (coin_selection : option (Sel * Src)) (r : TransactionResult)
    (Hchecked : overflow_checks = true)
    (Hr : process_transaction t change_recipient coin_selection = Ret r)
    (Hok : error r = None) :
  conserves r.
Proof.
  unfold process_transaction in Hr. destruct (fees_is_null _); [by inv_ret|].
  apply obind_Ret in Hr as (sc & Hsc & Hr). destruct sc as [[total mx]|e]; [|by inv_ret].
  pose proof (scan_outputs_total Hchecked _ _ _ _ _ _ Hsc) as ->. rewrite N.add_0_l in Hr.
  apply scan_outputs_max in Hsc as [Hmx _].
  assert (Hid : (λ p : nat, p - 0)%nat <$> mx = mx)
    by (destruct mx; simpl; [by rewrite Nat.sub_0_r|done]).
  rewrite Hid in Hmx. destruct (length (inputs t) =? 0)%nat.
  - apply obind_Ret in Hr as (sel & _ & Hr). destruct sel as [sel|e]; [|by inv_ret].
    by apply (process_with_inputs_conserves Hchecked (set_inputs t sel) _ _ _ Hr).
  - by apply (process_with_inputs_conserves Hchecked t _ _ _ Hr).
Qed.

(** C11. In a build with overflow checks, whenever the transaction engine
    reports no error, the values of the inputs are exactly the values of the
    outputs (the drained output included), the fee and the change, a change
    output is never below the dust threshold, and no output is left to drain. *)
Theorem process_transaction_conserves (t : TxTemplate (R:=R)) (change_recipient : option R)
    (coin_selection : option (Sel * Src)) (r : TransactionResult)
    (Hchecked : overflow_checks = true)
    (Hr : process_transaction t change_recipient coin_selection = Ret r)
    (Hok : error r = None) :
  conserves r.
Proof. by eapply process_transaction_conserved. Qed.
End engine_proofs.

(** *** Release builds *)

Section release_proofs.
Context `{TxLib} {R : Type} `{!RecipientProvider R}.
Context {Sel Src : Type} `{!CoinSelector Sel} `{!CoinSource Src}.

Lemma estimated_weight_raw_refines a b :
  refines (estimated_weight_raw (H0:=true) a b) (estimated_weight_raw (H0:=false) a b).
Proof. unfold estimated_weight_raw, add64. solve_refines. Qed.
Lemma fee_at_refines w r : refines (fee_at (H0:=true) w r) (fee_at (H0:=false) w r).
Proof. unfold fee_at, mul64. solve_refines. Qed.
Lemma sum64_refines l : refines (@sum64 true l) (@sum64 false l).
Proof. unfold sum64, add64. solve_refines. Qed.
#[local] Hint Resolve estimated_weight_raw_refines fee_at_refines sum64_refines : refines.

Lemma process_fees_refines f wo wi si so d u :
  refines (process_fees (H0:=true) f wo wi si so d u) (process_fees (H0:=false) f wo wi si so d u).
Proof. unfold process_fees, sub64. solve_refines. Qed.
Lemma tx_estimated_weight_refines (t : TxTemplate (R:=R)) :
  refines (tx_estimated_weight (H0:=true) t) (tx_estimated_weight (H0:=false) t).
Proof. unfold tx_estimated_weight. solve_refines. Qed.
Lemma check_disproportionate_fee_refines i (o : list R) p a :
  refines (check_disproportionate_fee (H0:=true) i o p a)
          (check_disproportionate_fee (H0:=false) i o p a).
Proof. unfold check_disproportionate_fee, sum_output_amounts, mul64. solve_refines. Qed.
Lemma scan_outputs_refines pos total m (o : list R) :
  refines (scan_outputs (H0:=true) pos total m o) (scan_outputs (H0:=false) pos total m o).
Proof.
  revert pos total m; induction o as [|r o IH]; intros pos total m; simpl; [done|].
  unfold add64. solve_refines; apply IH.
Qed.
#[local] Hint Resolve process_fees_refines tx_estimated_weight_refines
  check_disproportionate_fee_refines scan_outputs_refines : refines.

Lemma select_inputs_refines t total m (cs : option (Sel * Src)) :
  refines (select_inputs (R:=R) (H0:=true) t total m cs) (select_inputs (H0:=false) t total m cs).
Proof. unfold select_inputs, add64. solve_refines. Qed.
Lemma process_with_inputs_refines t (c : option R) total m r :
  refines (process_with_inputs (H0:=true) t c total m r)
          (process_with_inputs (H0:=false) t c total m r).
Proof. unfold process_with_inputs, add64. solve_refines. Qed.
#[local] Hint Resolve select_inputs_refines process_with_inputs_refines : refines.

(** A release build, whose arithmetic wraps, computes the same transaction
    as a build with overflow checks whenever the checked build does not panic;
    so what is shown of a checked run that returned holds of the release run. *)
Theorem process_transaction_release (t : TxTemplate (R:=R)) (c : option R)
    (cs : option (Sel * Src)) :
  refines (process_transaction (H0:=true) t c cs) (process_transaction (H0:=false) t c cs).
Proof. unfold process_transaction. solve_refines. Qed.
End release_proofs.

(** *** The engine always answers *)

Section total_proofs.
Context `{TxLib} `{Build} {R : Type} `{!RecipientProvider R} `{!RecipientLaws R}.
Context {Sel Src : Type} `{!CoinSelector Sel} `{!CoinSource Src}.

(** The estimated weight, without the width checks. *)
Definition weight_of (ins : list Coin) (ws : list N) : N :=
  42 + sumN ((λ c, 164 + satisfaction_size c) <$> ins) + sumN ws
  + (if (253 <=? length ins)%nat then 8 else 0) + (if (253 <=? length ws)%nat then 8 else 0).

Lemma ofold_input_weights w (ins : list Coin) :
  w + sumN ((λ c, 164 + satisfaction_size c) <$> ins) < 2 ^ 64 →
  ofold (λ w input_sat, let! x := add64 164 input_sat in add64 w x) w
    (satisfaction_size <$> ins) = Ret (w + sumN ((λ c, 164 + satisfaction_size c) <$> ins)).
Proof.
  revert w; induction ins as [|c ins IH]; intros w Hw; csimpl; [by rewrite N.add_0_r|].
  csimpl in Hw. unfold add64 at 1 2. rewrite (add_w_ok _ 164) by lia. cbn [obind].
  rewrite add_w_ok by lia. cbn [obind]. rewrite IH by lia. f_equal. lia.
Qed.

Lemma estimated_weight_raw_ok (ins : list Coin) ws :
  weight_of ins ws < 2 ^ 64 →
  estimated_weight_raw (satisfaction_size <$> ins) ws = Ret (weight_of ins ws).
Proof.
  unfold weight_of, estimated_weight_raw. intros Hw. unfold add64 at 1.
  rewrite add_w_ok by lia. cbn [obind].
  rewrite ofold_input_weights by lia. cbn [obind]. rewrite ofold_add64_ok by lia. cbn [obind].
  rewrite length_fmap.
  destruct (253 <=? length ins)%nat, (253 <=? length ws)%nat; cbn [obind]; unfold add64;
    rewrite ?add_w_ok by lia; cbn [obind]; rewrite ?add_w_ok by lia; f_equal; lia.
Qed.

Lemma tx_estimated_weight_ok (t : TxTemplate (R:=R)) ws :
  omapM output_weight (outputs t) = Ret ws → weight_of (inputs t) ws < 2 ^ 64 →
  tx_estimated_weight t = Ret (weight_of (inputs t) ws).
Proof.
  intros Hws Hb. unfold tx_estimated_weight. rewrite Hws. cbn [obind].
  by apply estimated_weight_raw_ok.
Qed.

Lemma check_disproportionate_fee_ok ins (outs : list R) pct amt :
  sumN (value <$> ins) < 2 ^ 64 → sumN (output_amount <$> outs) < 2 ^ 64 →
  sumN (output_amount <$> outs) * pct < 2 ^ 64 →
  ∃ res, check_disproportionate_fee ins outs pct amt = Ret res.
Proof.
  intros Hi Ho Hp. unfold check_disproportionate_fee, sum_output_amounts.
  pose proof (sumN_sublist output_amount _ _ (filter_sublist (λ r, negb (is_change r)) outs)).
  rewrite !sum64_ok by lia. cbn [obind]. destruct (_ =? 0); [by eexists|].
  unfold mul64. rewrite mul_w_ok by nia. cbn [obind]. case_match; by eexists.
Qed.

(** The bounds within which nothing wraps, for a given list of output weights
    and a change output of weight [wc]. *)
Record engine_bounds (t : TxTemplate (R:=R)) (c : R) (ws : list N) (wc : N) : Prop := {
  eb_inputs : sumN (value <$> inputs t) < 2 ^ 64;
  eb_outputs : sumN (output_amount <$> outputs t) * 10 < 2 ^ 64;
  eb_out_weights : omapM output_weight (outputs t) = Ret ws;
  eb_change_weight : output_weight c = Ret wc;
  eb_weight : weight_of (inputs t) ws + wc < 2 ^ 64;
  eb_fee_wo : fee_fits_weight (tmpl_fees t) (weight_of (inputs t) ws);
  eb_fee_with : fee_fits_weight (tmpl_fees t) (weight_of (inputs t) ws + wc);
  (* the change output costs no more than the dust threshold *)
  eb_change_cost : fee_of_weight (tmpl_fees t) (weight_of (inputs t) ws + wc) ≤
    fee_of_weight (tmpl_fees t) (weight_of (inputs t) ws) + dust_threshold t
}.

Lemma process_with_inputs_total (t : TxTemplate (R:=R)) (c : R) ws wc :
  engine_bounds t c ws wc → Forall (λ r, is_max r = false) (outputs t) →
  ∃ r, process_with_inputs t (Some c) (sumN (fixed_amount <$> outputs t)) None (from_template t)
         = Ret r ∧
    match error r with
    | None => sumN (output_amount <$> outputs t) +
        fee_of_weight (tmpl_fees t) (weight_of (inputs t) ws) ≤ sumN (value <$> inputs t)
    | Some AddInput => sumN (value <$> inputs t) < sumN (output_amount <$> outputs t)
    | Some NotEnoughForFee =>
        sumN (output_amount <$> outputs t) ≤ sumN (value <$> inputs t) ∧
        sumN (value <$> inputs t) - sumN (output_amount <$> outputs t)
          < fee_of_weight (tmpl_fees t) (weight_of (inputs t) ws)
    | Some _ => False
    end.
Proof.
  intros [Hi Ho Hws Hwc Hw Hfwo Hfwi Hcost] Hfix. rewrite <-(fixed_sum _ Hfix).
  unfold process_with_inputs. rewrite ofold_add64_ok by lia. cbn [obind].
  rewrite (tx_estimated_weight_ok _ _ Hws) by lia. cbn [obind]. rewrite Hwc. cbn [obind].
  unfold add64 at 1. rewrite add_w_ok by lia. cbn [obind]. rewrite N.add_0_l.
  destruct (process_fees_run (tmpl_fees t) (weight_of (inputs t) ws)
    (weight_of (inputs t) ws + wc) (sumN (value <$> inputs t))
    (sumN (output_amount <$> outputs t)) DrainChange (dust_threshold t)) as (fr & -> & Hacc).
  { by apply fee_pair_ok. }
  { intros; lia. }
  cbn [obind]. unfold fee_accounts in Hacc. destruct (fr_error fr) as [e|].
  { eexists; split; [done|]. simpl. by destruct e. }
  destruct Hacc as (Hle & f & _ & Hmax & _).
  destruct (check_disproportionate_fee_ok (inputs t) (outputs t) 10 2000000) as [chk ->]; [lia..|].
  cbn [obind]. rewrite Hmax. destruct (fr_change fr); (eexists; split; [done|]);
    (destruct chk as [|e]; [|destruct (to_warning e)]); done.
Qed.

End total_proofs.

Section total_engine.
Context `{TxLib} {R : Type} `{!RecipientProvider R} `{!RecipientLaws R}.
Context {Sel Src : Type} `{!CoinSelector Sel} `{!CoinSource Src}.

(** [process_with_inputs_conserves] in every build, for runs within bounds. *)
Lemma process_with_inputs_sound (b : Build) (t : TxTemplate (R:=R)) c ws wc r :
  engine_bounds t c ws wc → Forall (λ r, is_max r = false) (outputs t) →
  process_with_inputs t (Some c) (sumN (fixed_amount <$> outputs t)) None (from_template t)
    = Ret r →
  error r = None → conserves r.
Proof.
  intros Hb Hfix Hr He.
  destruct (process_with_inputs_total (H0:=true) t c ws wc Hb Hfix) as (r' & Hr' & _).
  assert (r' = r) as ->.
  { destruct b; [|apply process_with_inputs_refines in Hr']; congruence. }
  by eapply (process_with_inputs_conserves (H0:=true) eq_refl _ _ None _ Hr').
Qed.

(** Given its inputs, and amounts, weights and fees that fit in 64 bits with
    a change output that costs at most the dust threshold, the engine returns
    in every build: it reports [AddInput] exactly when the outputs exceed the
    inputs, [NotEnoughForFee] exactly when the fee does, and otherwise a result
    in which inputs are outputs plus fee plus change. *)
Theorem process_transaction_total (b : Build) (t : TxTemplate (R:=R)) (c : R) ws wc
    (cs : option (Sel * Src))
    (Hb : engine_bounds t c ws wc)
    (Hfix : Forall (λ r, is_max r = false) (outputs t))
    (Hins : inputs t ≠ [])
    (Hfee : fees_is_null (tmpl_fees t) = false) :
  let si := sumN (value <$> inputs t) in
  let so := sumN (output_amount <$> outputs t) in
  let f := fee_of_weight (tmpl_fees t) (weight_of (inputs t) ws) in
  ∃ r, process_transaction t (Some c) cs = Ret r ∧
    (si < so ∧ error r = Some AddInput ∨
     so ≤ si < so + f ∧ error r = Some NotEnoughForFee ∨
     so + f ≤ si ∧ error r = None ∧ conserves r).
Proof.
  pose proof (fixed_sum _ Hfix) as Hsum. pose proof (eb_outputs _ _ _ _ Hb).
  destruct (process_with_inputs_total (H0:=b) t c ws wc Hb Hfix) as (r & Hr & He).
  exists r. split.
  { unfold process_transaction. rewrite Hfee, scan_outputs_ok by (done || lia).
    cbn [obind]. rewrite N.add_0_l.
    destruct (inputs t) eqn:Ht; [done|]. simpl. exact Hr. }
  destruct (error r) as [[]|] eqn:Herr; try done.
  - left. done.
  - right; left. split; [|done]. lia.
  - right; right. destruct (process_with_inputs_sound b _ _ _ _ _ Hb Hfix Hr Herr) as (g & Hg & Hc).
    split; [done|]. split; [done|]. by exists g.
Qed.
End total_engine.

(** *** The PSBT *)

Section finalize_proofs.
Context `{TxLib} `{Build} {R : Type} `{!RecipientProvider R} `{!RecipientLaws R}.
Context (shuffle_coins : list Coin → list Coin) (shuffle_outputs : list R → list R).
(** [SliceRandom::shuffle] permutes; a silent payment provider derives scripts
    and leaves amounts alone. *)
Context (Hshuffle_coins : ∀ l, shuffle_coins l ≡ₚ l).
Context (Hshuffle_outputs : ∀ l, shuffle_outputs l ≡ₚ l).

Definition sp_keeps_amounts (p : SpProvider (R:=R)) : Prop :=
  ∀ outs k outs', derive_sp_scripts p outs k = Ret outs' → amount <$> outs' = amount <$> outs.

Lemma prepare_outputs_Ok t change outs :
  prepare_outputs (R:=R) t change = Ok outs →
  outs = outputs t ++ option_list change ∧
  (∀ c, change = Some c → is_change c = true ∧ existsb is_change (outputs t) = false).
Proof.
  unfold prepare_outputs. destruct change as [c|]; simpl; [|intros [= ->]; by rewrite app_nil_r].
  destruct (is_change c) eqn:Hc; simpl; [|done]. destruct (existsb _ _); [done|].
  intros [= <-]. naive_solver.
Qed.

Lemma psbt_input_maps_Ok ins ms :
  psbt_input_maps ins = Ok ms → Forall2 (λ c i, witness_utxo i = Some (txout c)) ins ms.
Proof.
  revert ms; induction ins as [|c ins IH]; intros ms; simpl; [intros [= <-]; constructor|].
  destruct (to_psbt_input c) as [m|] eqn:Hm; [|done]. intros (ms' & Hms & [= <-])%rbind_Ok.
  constructor; [by apply to_psbt_input_utxo|by apply IH].
Qed.

Lemma psbt_output_maps_length (outs : list R) ms :
  psbt_output_maps outs = Ret (Ok ms) → length ms = length outs.
Proof.
  revert ms; induction outs as [|o outs IH]; intros ms; simpl; [by intros [= <-]|].
  destruct (to_psbt_output o); [|done]. intros (info & _ & (ms' & Hms & [= <-])%qbind_Ok)%obind_Ret.
  simpl. by rewrite (IH ms').
Qed.

(** What a PSBT over these inputs and output amounts is. *)
Definition psbt_for (ins : list Coin) (amounts : list N) (p : Psbt) : Prop :=
  version (unsigned_tx p) = 2 ∧ lock_time (unsigned_tx p) = 0 ∧
  input (unsigned_tx p) = coin_to_txin <$> ins ∧
  Forall2 (λ c i, witness_utxo i = Some (txout c)) ins (psbt_inputs p) ∧
  txout_value <$> output (unsigned_tx p) = amounts ∧
  length (psbt_outputs p) = length amounts.

Lemma build_psbt_Ok ins (outs : list R) ctx p :
  build_psbt ins outs ctx = Ret (Ok p) →
  psbt_for ins (output_bitcoin_amount <$> outs) p.
Proof.
  unfold build_psbt. intros (made & Hmade%omapM_Ret & Hp)%obind_Ret.
  destruct (psbt_input_maps ins) as [pins|] eqn:Hpi; [|done].
  apply qbind_Ok in Hp as (pouts & Hpo%psbt_output_maps_length & [= <-]).
  assert (txout_value <$> made.*2 = output_bitcoin_amount <$> outs ∧
               length made = length outs) as [Hv Hlen].
  { clear -Hmade. induction Hmade as [|o m outs made Hm Hmade [IH IHl]]; [done|].
    apply obind_Ret in Hm as ([r s] & _ & [= <-]). csimpl. by rewrite IH, IHl. }
  unfold psbt_for. simpl. split_and!; try done.
  - by apply psbt_input_maps_Ok.
  - by rewrite Hpo, !length_fmap.
Qed.

(** The fee the last check allows. *)
Definition fee_proportionate (ins : list Coin) (outs : list R) (pct amt : N) : Prop :=
  let fee := sumN (value <$> ins) - sumN (output_amount <$> outs) in
  let paid := sumN (output_amount <$> List.filter (λ r, negb (is_change r)) outs) in
  paid = 0 ∨ fee ≤ paid * pct / 100 ∨ fee ≤ amt.

Lemma check_disproportionate_fee_sound (Hchecked : overflow_checks = true) ins (outs : list R) pct amt :
  check_disproportionate_fee ins outs pct amt = Ret (Ok tt) → fee_proportionate ins outs pct amt.
Proof.
  unfold check_disproportionate_fee, sum_output_amounts, fee_proportionate.
  intros (si & ->%(sum64_inv Hchecked) & Hr)%obind_Ret.
  apply obind_Ret in Hr as (so & ->%(sum64_inv Hchecked) & Hr).
  apply obind_Ret in Hr as (paid & ->%(sum64_inv Hchecked) & Hr).
  destruct (N.eqb_spec (sumN (output_amount <$> List.filter (λ r, negb (is_change r)) outs)) 0);
    [by left|right].
  apply obind_Ret in Hr as (m & [-> _]%(mul_w_inv Hchecked) & Hr).
  destruct (N.ltb_spec (sumN (output_amount <$> List.filter (λ r, negb (is_change r)) outs)
    * pct / 100) (sumN (value <$> ins) - sumN (output_amount <$> outs))); [|by left].
  destruct (N.ltb_spec amt (sumN (value <$> ins) - sumN (output_amount <$> outs))); [done|by right].
Qed.

Lemma shuffle_maybe_perm t sh outs ins' outs' :
  shuffle_maybe shuffle_coins shuffle_outputs t sh outs = (ins', outs') →
  ins' ≡ₚ inputs t ∧ outs' ≡ₚ outs.
Proof. unfold shuffle_maybe. destruct sh; intros [= <- <-]; auto. Qed.

(** A finalized PSBT spends exactly the template's inputs, pays exactly its
    outputs and the change, and its fee passed the proportionality check. *)
Lemma finalize_Ok (Hchecked : overflow_checks = true) (t : TxTemplate (R:=R)) change shuffle sp
    net pct amt p :
  (∀ q, sp = Some q → sp_keeps_amounts q) →
  finalize shuffle_coins shuffle_outputs t change shuffle sp net pct amt false = Ret (Ok p) →
  ∃ ins outs, ins ≡ₚ inputs t ∧ outs ≡ₚ outputs t ++ option_list change ∧
    psbt_for ins (output_bitcoin_amount <$> outs) p ∧ fee_proportionate ins outs pct amt ∧
    (∀ c, change = Some c → is_change c = true ∧ existsb is_change (outputs t) = false).
Proof.
  intros Hsp. unfold finalize. intros Hf. apply qbind_Ok in Hf as (outs & Hprep & Hf). injection Hprep as Hprep.
  apply prepare_outputs_Ok in Hprep as [-> Hchange].
  destruct (shuffle_maybe _ _ _ _ _) as [ins' outs'] eqn:Hsh.
  apply shuffle_maybe_perm in Hsh as [Hpi Hpo].
  apply qbind_Ok in Hf as ([] & (_ & _ & Hchk)%qbind_Ok & Hf).
  apply (check_disproportionate_fee_sound Hchecked) in Hchk.
  apply qbind_Ok in Hf as (secret & _ & Hf). apply obind_Ret in Hf as (outs'' & Hd & Hf).
  apply build_psbt_Ok in Hf. exists ins', outs'. split_and!; try done.
  assert (Hsame : amount <$> outs'' = amount <$> outs').
  { destruct sp as [q|]; [|by injection Hd as ->]. destruct secret as [k|]; [|by injection Hd as ->].
    by apply (Hsp q eq_refl outs' k). }
  assert (Hamt : output_bitcoin_amount <$> outs'' = output_bitcoin_amount <$> outs').
  { revert Hsame. clear. revert outs''.
    induction outs' as [|o outs IH]; intros [|o' l]; [done..|]. csimpl. intros [= Ho Hl].
    unfold output_bitcoin_amount at 1 3. by rewrite Ho, IH. }
  by rewrite <-Hamt.
Qed.
End finalize_proofs.

(** *** Two panics of the engine *)

Section panics.
Context `{TxLib}.

(** [process_fees] once the leftover pays the fee without change and the dust
    threshold. *)
Lemma process_fees_left (b : Build) fees wo wi si so dust :
  fee_fits_weight fees wo → fee_fits_weight fees wi → so ≤ si →
  fee_of_weight fees wo + dust ≤ si - so →
  process_fees fees wo wi si so DrainChange dust =
    let! left_with := sub64 (si - so) (fee_of_weight fees wi) in
    if left_with <? dust then
      Ret (mkFeeResult (Some (si - so)) None None
             [ChangeCreateDust (si - so - fee_of_weight fees wo)] None)
    else Ret (mkFeeResult (Some (fee_of_weight fees wi)) None (Some left_with) [] None).
Proof.
  intros Hwo Hwi Hle Hd. unfold process_fees. destruct (N.ltb_spec si so); [lia|].
  unfold sub64. rewrite sub_w_ok by lia. cbn [obind]. rewrite fee_pair_ok by done. cbn [obind].
  destruct (N.ltb_spec (si - so) (fee_of_weight fees wo)); [lia|].
  rewrite (sub_w_ok _ _ (fee_of_weight fees wo)) by lia. cbn [obind].
  by destruct (N.ltb_spec (si - so - fee_of_weight fees wo) dust); [lia|].
Qed.

(** The same, for any drain, up to the subtraction of the fee with change. *)
Lemma process_fees_subtracts (b : Build) fees wo wi si so dr dust :
  fee_fits_weight fees wo → fee_fits_weight fees wi → so ≤ si →
  fee_of_weight fees wo + dust ≤ si - so →
  ∃ k : N → FeeResult, process_fees fees wo wi si so dr dust =
    let! left_with := sub64 (si - so) (fee_of_weight fees wi) in Ret (k left_with).
Proof.
  intros Hwo Hwi Hle Hd. unfold process_fees. destruct (N.ltb_spec si so); [lia|].
  unfold sub64. rewrite sub_w_ok by lia. cbn [obind]. rewrite fee_pair_ok by done. cbn [obind].
  destruct (N.ltb_spec (si - so) (fee_of_weight fees wo)); [lia|].
  rewrite (sub_w_ok _ _ (fee_of_weight fees wo)) by lia. cbn [obind].
  destruct (N.ltb_spec (si - so - fee_of_weight fees wo) dust); [lia|].
  exists (λ left_with, if left_with <? dust then
    mkFeeResult (Some (si - so)) None None
      (match dr with
       | DrainChange => [ChangeCreateDust (si - so - fee_of_weight fees wo)]
       | DrainMax => [MaxCreateDust (si - so - fee_of_weight fees wo)]
       | DrainNone => [] end) None
    else match dr with
       | DrainNone => mkFeeResult (Some (fee_of_weight fees wo)) None None [] None
       | DrainChange => mkFeeResult (Some (fee_of_weight fees wi)) None (Some left_with) [] None
       | DrainMax => mkFeeResult (Some (fee_of_weight fees wo)) (Some (si - so - fee_of_weight fees wo)) None [] None
       end).
  destruct (sub_w _ (si - so) _); [|done]. cbn [obind]. destruct (_ <? dust); [done|by destruct dr].
Qed.

Lemma process_fees_returns (b : Build) fees wo wi si so dr dust :
  fee_fits_weight fees wo → fee_fits_weight fees wi → so ≤ si → si - so < fee_of_weight fees wo + dust →
  ∃ r, process_fees fees wo wi si so dr dust = Ret r.
Proof.
  intros Hwo Hwi Hle Hd. unfold process_fees. destruct (N.ltb_spec si so); [lia|].
  unfold sub64. rewrite sub_w_ok by lia. cbn [obind]. rewrite fee_pair_ok by done. cbn [obind].
  destruct (N.ltb_spec (si - so) (fee_of_weight fees wo)); [eauto|].
  rewrite (sub_w_ok _ _ (fee_of_weight fees wo)) by lia. cbn [obind].
  destruct (N.ltb_spec (si - so - fee_of_weight fees wo) dust); [eauto|lia].
Qed.

(** C38. When [process_fees] underflows. With a fee rate, whatever is drained, a checked
    build panics exactly when the inputs cover the outputs, what is left pays the fee
    without change and the dust threshold, but not the fee with change: the change output
    is dearer than all that is left. A release build then wraps, and reports a change of
    more satoshis than there are, close to 2^64. *)
Theorem process_fees_underflow (rate wo wi si so dust : N) (dr : Drain)
    (Hwo : to_vbytes_ceil wo * rate < 2 ^ 64) (Hwi : to_vbytes_ceil wi * rate < 2 ^ 64) :
  let fee_wo := to_vbytes_ceil wo * rate / 1000 in
  let fee_with := to_vbytes_ceil wi * rate / 1000 in
  (process_fees (H0:=true) (MilliSatsVb rate) wo wi si so dr dust = Panic ↔
     so ≤ si ∧ fee_wo + dust ≤ si - so ∧ si - so < fee_with) ∧
  (so ≤ si → fee_wo + dust ≤ si - so → si - so < fee_with → si < 2 ^ 63 → fee_with < 2 ^ 62 → dust < 2 ^ 62 →
   ∃ r c, process_fees (H0:=false) (MilliSatsVb rate) wo wi si so DrainChange dust = Ret r ∧
     fr_error r = None ∧ fr_change r = Some c ∧ 2 ^ 63 < c ∧ si < c).
Proof.
  intros fee_wo fee_with.
  assert (fee_of_weight (MilliSatsVb rate) wo = fee_wo ∧ fee_of_weight (MilliSatsVb rate) wi = fee_with) as [Ewo Ewi] by done.
  split.
  - destruct (N.le_gt_cases so si) as [Hle|Hgt]; [destruct (N.le_gt_cases (fee_wo + dust) (si - so)) as [Hd|Hd]|].
    + destruct (process_fees_subtracts true (MilliSatsVb rate) wo wi si so dr dust) as [k ->]; [done..|].
      rewrite Ewi. clearbody fee_with. unfold sub64, sub_w, overflow, overflow_checks.
      destruct (N.leb_spec fee_with (si - so)); cbn [obind]; split; try done; lia.
    + split; [|lia]. by destruct (process_fees_returns true (MilliSatsVb rate) wo wi si so dr dust) as [r ->].
    + split; [|lia]. unfold process_fees. by destruct (N.ltb_spec si so); [|lia].
  - intros Hle Hd Hdear Hsi Hfee Hdust. rewrite process_fees_left by done. rewrite Ewo, Ewi. clearbody fee_with fee_wo.
    unfold sub64, sub_w, overflow, overflow_checks. destruct (N.leb_spec fee_with (si - so)); [lia|].
    cbn [obind]. rewrite N.mod_small by lia.
    destruct (N.ltb_spec (si - so + 2 ^ 64 - fee_with) dust); [lia|].
    eexists _, _. split_and!; [done..| |]; simpl; lia.
Qed.

Context {R : Type} `{!RecipientProvider R} {Sel Src : Type} `{!CoinSelector Sel} `{!CoinSource Src}.

Lemma process_fees_max_dust (b : Build) fees wo wi si so dust :
  fee_fits_weight fees wo → fee_fits_weight fees wi → so + fee_of_weight fees wo ≤ si →
  si - so - fee_of_weight fees wo < dust →
  process_fees fees wo wi si so DrainMax dust =
    Ret (mkFeeResult (Some (si - so)) None None [MaxUnderDust (si - so - fee_of_weight fees wo)]
           None).
Proof.
  intros Hwo Hwi Hle Hd. unfold process_fees, sub64.
  destruct (N.ltb_spec si so); [lia|]. rewrite sub_w_ok by lia. cbn [obind].
  rewrite fee_pair_ok by done. cbn [obind].
  destruct (N.ltb_spec (si - so) (fee_of_weight fees wo)); [lia|].
  rewrite sub_w_ok by lia. cbn [obind].
  by destruct (N.ltb_spec (si - so - fee_of_weight fees wo) dust); [|lia].
Qed.

(** A transaction that drains its inputs to one output panics, in every
    build, when what is left after the fee is below the dust threshold: the fee
    computation answers with a warning and no drained value, a case the engine
    takes for unreachable. *)
Theorem process_transaction_max_dust_panics (b : Build) (t : TxTemplate (R:=R)) (c : R) ws wc
    (cs : option (Sel * Src)) (r : R) (a : option N)
    (Hb : engine_bounds t c ws wc)
    (Hone : outputs t = [r]) (Hmax : amount r = Max a)
    (Hins : inputs t ≠ []) (Hfee : fees_is_null (tmpl_fees t) = false)
    (Henough : fee_of_weight (tmpl_fees t) (weight_of (inputs t) ws) ≤ sumN (value <$> inputs t))
    (Hdust : sumN (value <$> inputs t) - fee_of_weight (tmpl_fees t) (weight_of (inputs t) ws)
             < dust_threshold t) :
  process_transaction t (Some c) cs = Panic.
Proof.
  destruct Hb as [Hi Ho Hws Hwc Hw Hfwo Hfwi Hcost]. unfold process_transaction. rewrite Hfee, Hone.
  simpl. rewrite Hmax. cbn [obind]. destruct (length (inputs t) =? 0)%nat eqn:Hlen.
  { apply Nat.eqb_eq, length_zero_iff_nil in Hlen. done. }
  unfold process_with_inputs. rewrite ofold_add64_ok by lia. cbn [obind].
  rewrite (tx_estimated_weight_ok _ _ Hws) by lia. cbn [obind]. rewrite Hwc. cbn [obind].
  unfold add64 at 1. rewrite add_w_ok by lia. cbn [obind]. rewrite N.add_0_l.
  rewrite process_fees_max_dust by (done || (rewrite ?N.sub_0_r; lia)). cbn -[check_disproportionate_fee].
  destruct (check_disproportionate_fee_ok (inputs t) (outputs t) 10 2000000) as [chk ->]; [lia..|].
  done.
Qed.
End panics.

(** *** Witnesses *)
Module Witness.
Import Sample CoinSelection.Witness.

Definition src : Type := list Coin.
#[export] Instance src_source : CoinSource src := λ s, s.
#[local] Instance sel : CoinSelector DefaultCoinSelector := default_selector rng.

Definition to (a : Amount) : Recipient :=
  mkRecipient (replicate 22 0 : Address) a None None None.
Definition change_out : Recipient :=
  mkRecipient (replicate 22 1 : Address) (Value 0) None (Some (Change, 0)) None.
Definition tmpl (ins : list Coin) (outs : list Recipient) (rate dust : N) :
    TxTemplate (R:=Recipient) :=
  mkTemplate ins outs (MilliSatsVb rate) dust.
Definition no_sel : option (DefaultCoinSelector * src) := None.

Definition paying := tmpl [coin_at 1 100000] [to (Value 40000)] 1000 5000.

Lemma process_transaction_conserves_witness :
  ∃ r, process_transaction paying (Some change_out) no_sel = Ret r ∧ change r = Some 59859 ∧
    conserves r.
Proof.
  eexists. split; [vm_compute; reflexivity|]. split; [reflexivity|].
  apply (process_transaction_conserves paying (Some change_out) no_sel); vm_compute; reflexivity.
Defined.

Lemma paying_bounds : engine_bounds paying change_out [124] 124.
Proof. split; vm_compute; done. Qed.

Lemma process_transaction_total_witness :
  ∃ r, process_transaction paying (Some change_out) no_sel = Ret r ∧ error r = None ∧ conserves r.
Proof.
  destruct (process_transaction_total sample_build paying change_out [124] 124 no_sel)
    as (r & Hr & [[Hc _]|[[[_ Hc] _]|(_ & He & Hcons)]]).
  - exact paying_bounds.
  - repeat constructor.
  - discriminate.
  - reflexivity.
  - vm_compute in Hc. discriminate.
  - vm_compute in Hc. discriminate.
  - by exists r.
Defined.

(** 100 sat/vB, no dust threshold: the change output costs more than is left. *)
Lemma process_fees_underflow_witness :
  process_fees (H0:=true) (MilliSatsVb 100000) 438 562 20000 8000 DrainChange 500 = Panic ∧
  ∃ r c, process_fees (H0:=false) (MilliSatsVb 100000) 438 562 20000 8000 DrainChange 500 = Ret r ∧
    fr_error r = None ∧ fr_change r = Some c ∧ 2 ^ 63 < c ∧ 20000 < c.
Proof.
  split.
  - apply (process_fees_underflow 100000 438 562 20000 8000 500 DrainChange); [done|done|].
    split; [done|]. split; vm_compute; [discriminate|reflexivity].
  - apply (process_fees_underflow 100000 438 562 20000 8000 500 DrainChange);
      vm_compute; discriminate || reflexivity.
Defined.

Definition draining := tmpl [coin_at 1 3000] [to (Max None)] 1000 5000.

Lemma process_transaction_max_dust_panics_witness :
  process_transaction draining (Some change_out) no_sel = Panic.
Proof.
  apply (process_transaction_max_dust_panics sample_build draining change_out [124] 124 no_sel
    (to (Max None)) None); first (split; vm_compute; done); vm_compute; done.
Defined.
End Witness.
End Transaction.
