(* ===== verification/TxBuilder.v ===== *)
(** * The transaction builder (tx/src/tx_builder.rs)

    The builder's state and methods on top of the engine of [Transaction], and
    the end-to-end properties of the PSBTs it generates: what they spend, what
    they pay, the fee they leave. The methods compiled only for tests are not
    modelled. *)
From stdpp Require Import base gmap list strings.
From S2P Require Import Prelude Bitcoin Coin CoinSelection Recipient Transaction.

Module TxBuilder.
Import Coin CoinSelection Recipient Transaction.

(** [Box<dyn CoinSelector>]: the default selector or another one. *)
#[export] Instance dyn_selector `{TxLib} {A B} `{!CoinSelector A, !CoinSelector B} :
    CoinSelector (A + B) := λ s coins target feerate,
  match s with
  | inl a => select_coins a coins target feerate
  | inr b => select_coins b coins target feerate
  end.

Section builder.
Context `{TxLib} `{Build} (random_range : nat → nat → nat).
(** The providers other than a plain [Recipient] (change, silent payments), the
    selectors other than the default one, the coin sources. *)
Context {P : Type} `{!RecipientProvider P} {S : Type} `{!CoinSelector S}.
Context {Src : Type} `{!CoinSource Src}.
#[local] Existing Instance default_selector.

Abbreviation provider := (Recipient + P)%type.
Abbreviation selector := (DefaultCoinSelector + S)%type.
#[local] Instance builder_selector : CoinSelector selector :=
  @dyn_selector _ _ _ (default_selector random_range) _.

Record TxBuilder := mkBuilder {
  change_provider : provider;
  template : TxTemplate (R:=provider);
  coin_source : option Src;
  sp_provider : option (SpProvider (R:=provider));
  coin_selector : selector;
  max_fee_percent : N;
  max_fee_amount : N
}.

Definition with_template (b : TxBuilder) (t : TxTemplate) : TxBuilder :=
  mkBuilder (change_provider b) t (coin_source b) (sp_provider b) (coin_selector b)
    (max_fee_percent b) (max_fee_amount b).

Definition builder_new (change_provider : provider) : TxBuilder :=
  mkBuilder change_provider (mkTemplate [] [] (MilliSatsVb 1000) DUST_AMOUNT)
    None None (inl default_coin_selector) 10 2000000.

Definition network (b : TxBuilder) : Network := rp_network (change_provider b).
Definition set_coin_source (b : TxBuilder) (s : Src) : TxBuilder :=
  mkBuilder (change_provider b) (template b) (Some s) (sp_provider b) (coin_selector b)
    (max_fee_percent b) (max_fee_amount b).
Definition set_sp_provider (b : TxBuilder) (p : SpProvider) : TxBuilder :=
  mkBuilder (change_provider b) (template b) (coin_source b) (Some p) (coin_selector b)
    (max_fee_percent b) (max_fee_amount b).
Definition set_coin_selector (b : TxBuilder) (s : selector) : TxBuilder :=
  mkBuilder (change_provider b) (template b) (coin_source b) (sp_provider b) s
    (max_fee_percent b) (max_fee_amount b).
Definition set_max_fee_percent (b : TxBuilder) (pct : N) : TxBuilder :=
  mkBuilder (change_provider b) (template b) (coin_source b) (sp_provider b) (coin_selector b)
    pct (max_fee_amount b).
Definition set_max_fee_amount (b : TxBuilder) (sats : N) : TxBuilder :=
  mkBuilder (change_provider b) (template b) (coin_source b) (sp_provider b) (coin_selector b)
    (max_fee_percent b) sats.
Definition set_dust_threshold (b : TxBuilder) (sats : N) : TxBuilder :=
  with_template b (mkTemplate (inputs (template b)) (outputs (template b))
                     (tmpl_fees (template b)) sats).
Definition set_fees (b : TxBuilder) (f : Fees) : TxBuilder :=
  with_template b (mkTemplate (inputs (template b)) (outputs (template b)) f
                     (Transaction.dust_threshold (template b))).
Definition fee (b : TxBuilder) (fee : N) : TxBuilder := set_fees b (Sats fee).
Definition feerate (b : TxBuilder) (feerate : N) : TxBuilder :=
  set_fees b (MilliSatsVb feerate).
Definition feerate_sat_vb (b : TxBuilder) (sat_vb : N) : TxBuilder :=
  feerate b (sat_mul u64_max sat_vb 1000).
Definition replace_inputs (b : TxBuilder) (i : list Coin) : TxBuilder :=
  with_template b (set_inputs (template b) i).
Definition replace_outputs (b : TxBuilder) (o : list provider) : TxBuilder :=
  with_template b (set_outputs (template b) o).

Definition add_input (b : TxBuilder) (coin : Coin) : TxBuilder :=
  if bool_decide (coin ∈ inputs (template b)) then b
  else replace_inputs b (inputs (template b) ++ [coin]).

Definition drain_inputs (b : TxBuilder) : TxBuilder :=
  match coin_source b with
  | Some source => foldl add_input b (spendable_coins source)
  | None => b
  end.

Definition add_output (b : TxBuilder) (r : provider) : TxBuilder :=
  replace_outputs b (outputs (template b) ++ [r]).

Definition new_template (b : TxBuilder) : TxBuilder :=
  with_template b (mkTemplate [] [] (MilliSatsVb 1000) (Transaction.dust_threshold (template b))).

Definition send_to_with_label (b : TxBuilder) (a : Address) (amount : N) (label : option string) :
    TxBuilder :=
  add_output b (inl (mkRecipient a (Value amount) label None None)).
Definition send_to (b : TxBuilder) (a : Address) (amount : N) : TxBuilder :=
  add_output b (inl (mkRecipient a (Value amount) None None None)).

Definition selection (b : TxBuilder) : option (selector * Src) :=
  (λ src, (coin_selector b, src)) <$> coin_source b.

Definition simulate (b : TxBuilder) : outcome TransactionResult :=
  process_transaction (template b) (Some (change_provider b)) (selection b).

Context (shuffle_coins : list Coin → list Coin) (shuffle_outputs : list provider → list provider).

Definition generate (b : TxBuilder) : outcome (result Psbt Transaction.Error) :=
  let! res := process_transaction (template b) (Some (change_provider b)) (selection b) in
  match error res with
  | Some e => Ret (Err e)
  | None =>
      let change_recip :=
        match change res with
        | Some change_value => Some (set_amount (change_provider b) (Value change_value))
        | None => None
        end in
      finalize shuffle_coins shuffle_outputs (tx_template res) change_recip true (sp_provider b)
        (rp_network (change_provider b)) (max_fee_percent b) (max_fee_amount b) false
  end.

Definition builder_select_coins (b : TxBuilder) (target feerate : N) : outcome (list Coin) :=
  match coin_source b with
  | Some source => select_coins (coin_selector b) (spendable_coins source) target feerate
  | None => Ret []
  end.

Definition auto_select_coins (b : TxBuilder) (target feerate : N) :
    outcome (TxBuilder * list Coin) :=
  let! coins := builder_select_coins b target feerate in
  Ret (foldl add_input b coins, coins).

Definition coin_by_outpoint (b : TxBuilder) (o : OutPoint) : option Coin :=
  match coin_source b with
  | None => None
  | Some s => List.find (λ c, bool_decide (outpoint c = o)) (spendable_coins s)
  end.

(** [_pay_with_label]; the builder is updated on every path. *)
Definition pay_inner (b : TxBuilder) (a : Amount) (addr : Address) (feerate : N)
    (label : option string) : outcome (TxBuilder * result Psbt Transaction.Error) :=
  let b := add_output b (inl (mkRecipient addr a label None None)) in
  let! base_weight := tx_estimated_weight (template b) in
  let! base_fee := fee_at base_weight feerate in
  let! coins :=
    if negb (length (inputs (template b)) =? 0)%nat then Ret (Ok (inputs (template b)))
    else
      match a with
      | Value v =>
          let! target := add64 v base_fee in
          let! sel := builder_select_coins b target feerate in Ret (Ok sel)
      | Max _ =>
          match coin_source b with
          | Some source => Ret (Ok (spendable_coins source))
          | None => Ret (Ok [])
          end
      | Anchor => Ret (Err PayToAnchor)
      end in
  match coins with
  | Err e => Ret (b, Err e)
  | Ok coins =>
      if (length coins =? 0)%nat then Ret (b, Err ECoinSelection)
      else
        let b := foldl add_input b coins in
        let! res := simulate b in
        let! psbt := generate b in
        match psbt with
        | Err e => Ret (b, Err e)
        | Ok psbt =>
            let! min_fee := fee_at (tx_weight (unsigned_tx psbt)) feerate in
            match res_fees res with
            | Some fees =>
                if fees <? min_fee then Ret (b, Err CoinSelectionFee) else Ret (b, Ok psbt)
            | None => Ret (b, Err CoinSelectionFee)
            end
        end
  end.

Definition pay_with_label (b : TxBuilder) (a : N) (addr : Address) (feerate : N)
    (label : option string) : outcome (TxBuilder * result Psbt Transaction.Error) :=
  pay_inner (new_template b) (Value a) addr feerate label.
Definition pay (b : TxBuilder) (a : N) (addr : Address) (feerate : N) :=
  pay_with_label b a addr feerate None.
Definition sweep_with_label (b : TxBuilder) (addr : Address) (feerate : N)
    (label : option string) :=
  pay_inner b (Max None) addr feerate label.
Definition sweep (b : TxBuilder) (addr : Address) (feerate : N) :=
  pay_inner b (Max None) addr feerate None.
End builder.

(** ** Proofs *)

Section input_proofs.
Context `{TxLib} {P : Type} `{!RecipientProvider P} {S : Type} `{!CoinSelector S}.
Context {Src : Type} `{!CoinSource Src}.
Implicit Types b : TxBuilder (P:=P) (S:=S) (Src:=Src).

Lemma foldl_add_input_outputs b cs : outputs (template (foldl add_input b cs)) = outputs (template b).
Proof.
  revert b; induction cs as [|c cs IH]; intros b; simpl; [done|]. rewrite IH.
  unfold add_input. by case_bool_decide.
Qed.
Lemma foldl_add_input_sp b cs : sp_provider (foldl add_input b cs) = sp_provider b.
Proof.
  revert b; induction cs as [|c cs IH]; intros b; simpl; [done|]. rewrite IH.
  unfold add_input. by case_bool_decide.
Qed.
Lemma add_input_elem b c c' :
  c' ∈ inputs (template (add_input b c)) ↔ c' ∈ inputs (template b) ∨ c' = c.
Proof. unfold add_input. case_bool_decide; simpl; set_solver. Qed.
Lemma foldl_add_input_elem b cs c :
  c ∈ inputs (template (foldl add_input b cs)) ↔ c ∈ inputs (template b) ∨ c ∈ cs.
Proof.
  revert b; induction cs as [|c' cs IH]; intros b; simpl; [set_solver|].
  rewrite IH, add_input_elem. set_solver.
Qed.
Lemma foldl_add_input_NoDup b cs :
  NoDup (inputs (template b)) → NoDup (inputs (template (foldl add_input b cs))).
Proof.
  revert b; induction cs as [|c cs IH]; intros b Hb; simpl; [done|]. apply IH.
  unfold add_input. case_bool_decide; simpl; [done|]. apply NoDup_app.
  split_and!; [done|set_solver|apply NoDup_singleton].
Qed.

(** [drain_inputs] adds every spendable coin of the source, nothing else,
    and never twice the same one. *)
Theorem drain_inputs_spec b src
    (Hnd : NoDup (inputs (template b))) (Hsrc : coin_source b = Some src) :
  NoDup (inputs (template (drain_inputs b))) ∧
  ∀ c, c ∈ inputs (template (drain_inputs b)) ↔
    c ∈ inputs (template b) ∨ c ∈ spendable_coins src.
Proof.
  unfold drain_inputs. rewrite Hsrc. split; [by apply foldl_add_input_NoDup|].
  intros c. apply foldl_add_input_elem.
Qed.
End input_proofs.

Section builder_proofs.
Context `{TxLib} `{Build} (random_range : nat → nat → nat).
Context {P : Type} `{!RecipientProvider P} `{!RecipientLaws P} {S : Type} `{!CoinSelector S}.
Context {Src : Type} `{!CoinSource Src}.
Context (shuffle_coins : list Coin → list Coin).
Context (shuffle_outputs : list (Recipient + P) → list (Recipient + P)).
Context (Hshuffle_coins : ∀ l, shuffle_coins l ≡ₚ l).
Context (Hshuffle_outputs : ∀ l, shuffle_outputs l ≡ₚ l).

Implicit Types b : TxBuilder (P:=P) (S:=S) (Src:=Src).

Lemma resolved_amounts (outs : list (Recipient + P)) :
  Forall (λ o, amount o ≠ Max None) outs →
  output_bitcoin_amount <$> outs = output_amount <$> outs.
Proof.
  induction 1 as [|o outs Ho Hf IH]; [done|]. csimpl. rewrite IH. f_equal.
  unfold output_bitcoin_amount, output_amount. by destruct (amount o) as [|[]|].
Qed.

Lemma output_amount_set (r : Recipient + P) v : output_amount (set_amount r (Value v)) = v.
Proof. unfold output_amount. by rewrite amount_set_amount. Qed.

(** What a generated PSBT is: it spends the coins the engine settled on, pays
    the outputs of the result and the change, and leaves the result's fee. *)
Definition generated b (r : TransactionResult) (p : Psbt) (f : N) : Prop :=
  ∃ ins outs, ins ≡ₚ inputs (tx_template r) ∧
    outs ≡ₚ outputs (tx_template r) ++
      option_list ((λ c, set_amount (change_provider b) (Value c)) <$> change r) ∧
    psbt_for ins (output_amount <$> outs) p ∧
    sumN (value <$> ins) = sumN (output_amount <$> outs) + f ∧
    (∀ c, change r = Some c → dust_threshold (template b) ≤ c) ∧
    (let paid := sumN (output_amount <$> List.filter (λ o, negb (is_change o)) outs) in
     paid = 0 ∨ f ≤ paid * max_fee_percent b / 100 ∨ f ≤ max_fee_amount b).

Lemma generate_Ok (Hchecked : overflow_checks = true) b p :
  (∀ q, sp_provider b = Some q → sp_keeps_amounts q) →
  generate random_range shuffle_coins shuffle_outputs b = Ret (Ok p) →
  ∃ r f, simulate random_range b = Ret r ∧ error r = None ∧ res_fees r = Some f ∧
    generated b r p f.
Proof.
  intros Hsp. unfold generate, simulate. intros (r & Hr & Hp)%obind_Ret. rewrite Hr.
  destruct (error r) eqn:He; [done|]. exists r.
  destruct (process_transaction_conserved _ _ _ _ Hchecked Hr He) as (f & Hf & Hsum & Hdust & Hres).
  destruct (process_transaction_keeps _ _ _ _ Hr) as (Hd & _ & _). rewrite Hd in Hdust.
  exists f. split_and!; [done..|].
  apply (finalize_Ok _ _ Hshuffle_coins Hshuffle_outputs Hchecked) in Hp
    as (ins & outs & Hins & Houts & Hpsbt & Hprop & _); [|done].
  set (ch := match change r with Some v => _ | None => _ end) in *.
  assert (Hch : ch = (λ c, set_amount (change_provider b) (Value c)) <$> change r)
    by (subst ch; by destruct (change r)).
  assert (Hamt : sumN (output_amount <$> outs) =
    sumN (output_amount <$> outputs (tx_template r)) + default 0 (change r)).
  { rewrite (sumN_perm _ _ (fmap_Permutation output_amount _ _ Houts)), fmap_app, sumN_app, Hch.
    destruct (change r) as [c|]; [|csimpl; lia].
    change (option_list _) with [set_amount (change_provider b) (Value c)].
    rewrite fmap_cons, sumN_cons, output_amount_set. csimpl. lia. }
  assert (Hv : sumN (value <$> ins) = sumN (output_amount <$> outs) + f).
  { rewrite (sumN_perm _ _ (fmap_Permutation value _ _ Hins)), Hsum, Hamt. lia. }
  exists ins, outs. split_and!; [done|by rewrite Houts, Hch| |done|done|].
  - rewrite <-resolved_amounts; [done|]. rewrite Houts, Forall_app. split; [done|]. rewrite Hch.
    destruct (change r) as [c|]; [|done].
    change (option_list _) with [set_amount (change_provider b) (Value c)].
    repeat constructor. by rewrite amount_set_amount.
  - unfold fee_proportionate in Hprop. rewrite Hv in Hprop.
    replace (sumN (output_amount <$> outs) + f - sumN (output_amount <$> outs)) with f in Hprop
      by lia. done.
Qed.

(** C1. In a checked build a generated PSBT is balanced: it is version 2 with
    each input carrying the spent coin, it spends the coins of the simulated
    transaction and pays its outputs and its change (never dust), the values of
    the coins are the values of the outputs plus the simulated fee, and that
    fee exceeds at most one of the two configured ceilings. *)
Theorem generate_sound b (p : Psbt)
    (Hchecked : overflow_checks = true)
    (Hsp : ∀ q, sp_provider b = Some q → sp_keeps_amounts q)
    (Hp : generate random_range shuffle_coins shuffle_outputs b = Ret (Ok p)) :
  ∃ r f, simulate random_range b = Ret r ∧ error r = None ∧ res_fees r = Some f ∧
    generated b r p f.
Proof. by apply generate_Ok. Qed.

(** A payment that succeeds in a checked build pays the asked amount to one
    of its outputs, and the fee it leaves, what the spent coins hold beyond the
    outputs, is at least the asked rate for the transaction's size. *)
Theorem pay_sound b b' a addr feerate label (p : Psbt)
    (Hchecked : overflow_checks = true)
    (Hsp : ∀ q, sp_provider b = Some q → sp_keeps_amounts q)
    (Hp : pay_with_label random_range shuffle_coins shuffle_outputs b a addr feerate label
          = Ret (b', Ok p)) :
  ∃ ins f, input (unsigned_tx p) = coin_to_txin <$> ins ∧
    sumN (value <$> ins) = sumN (txout_value <$> output (unsigned_tx p)) + f ∧
    to_vbytes_ceil (tx_weight (unsigned_tx p)) * feerate / 1000 ≤ f ∧
    a ∈ (txout_value <$> output (unsigned_tx p)).
Proof.
  unfold pay_with_label, pay_inner in Hp. set (b1 := add_output _ _) in Hp.
  apply obind_Ret in Hp as (bw & _ & Hp). apply obind_Ret in Hp as (bf & _ & Hp).
  apply obind_Ret in Hp as ([coins|e] & _ & Hp); [|done]. destruct (length coins =? 0)%nat; [done|].
  set (b2 := foldl add_input b1 coins) in Hp.
  apply obind_Ret in Hp as (res & Hres & Hp). apply obind_Ret in Hp as ([psbt|e] & Hgen & Hp); [|done].
  apply obind_Ret in Hp as (mf & Hmf & Hp). unfold fee_at in Hmf.
  apply obind_Ret in Hmf as (m & [-> _]%(mul_w_inv Hchecked) & [= <-]).
  apply (generate_Ok Hchecked) in Hgen as (r & f & Hsim & He & Hf & Hg);
    [|unfold b2; by rewrite foldl_add_input_sp].
  rewrite Hres in Hsim. injection Hsim as ->. rewrite Hf in Hp.
  destruct (N.ltb_spec f (to_vbytes_ceil (tx_weight (unsigned_tx psbt)) * feerate / 1000)); [done|].
  injection Hp as <- <-.
  destruct Hg as (ins & outs & Hins & Houts & (_ & _ & Hin & _ & Hamt & _) & Hsum & _).
  exists ins, f. split_and!; [done|by rewrite Hamt|done|]. rewrite Hamt.
  apply process_transaction_keeps in Hres as (_ & _ & Hkeep). revert Hkeep. unfold b2.
  rewrite foldl_add_input_outputs. intros Hkeep. rewrite Houts, fmap_app, Hkeep.
  - rewrite elem_of_app. left. unfold b1. simpl. set_solver.
  - repeat constructor.
Qed.
End builder_proofs.

(** *** Witnesses *)
Module Witness.
Import Sample CoinSelection.Witness Transaction.Witness.

Abbreviation prov := (ChangeRecipientProvider N).
Abbreviation out := (Recipient + prov)%type.
Definition change0 : out := inr (change_provider_new (7 : Descriptor) Signet).
(** A shuffle: the list reversed. *)
Definition shuf {A} (l : list A) : list A := rev l.
Lemma shuf_perm {A} (l : list A) : shuf l ≡ₚ l.
Proof. symmetry. apply Permutation_rev. Qed.

Definition addr0 : Address := (replicate 22 0 : list N).
Definition base : TxBuilder (P:=prov) (S:=DefaultCoinSelector) (Src:=src) :=
  set_coin_source (builder_new change0) [coin_at 1 100000; coin_at 2 200000].
Definition sending := send_to base addr0 120000.
#[local] Instance sel : CoinSelector DefaultCoinSelector := default_selector rng.

Lemma generate_sound_witness :
  ∃ p, generate rng shuf shuf sending = Ret (Ok p) ∧
    ∃ r f, simulate rng sending = Ret r ∧ error r = None ∧ res_fees r = Some f ∧
      generated sending r p f.
Proof.
  eexists. split; [vm_compute; reflexivity|].
  apply (generate_sound rng shuf shuf shuf_perm shuf_perm sending); [done|done|].
  vm_compute. reflexivity.
Defined.

Lemma drain_inputs_spec_witness :
  NoDup (inputs (template (drain_inputs sending))) ∧
  ∀ c, c ∈ inputs (template (drain_inputs sending)) ↔
    c ∈ inputs (template sending) ∨
    c ∈ spendable_coins ([coin_at 1 100000; coin_at 2 200000] : src).
Proof.
  apply (drain_inputs_spec sending ([coin_at 1 100000; coin_at 2 200000] : src));
    [constructor|reflexivity].
Defined.

Lemma pay_sound_witness :
  ∃ b' p, pay_with_label rng shuf shuf base 120000 addr0 1000 None
            = Ret (b', Ok p) ∧
    ∃ ins f, input (unsigned_tx p) = coin_to_txin <$> ins ∧
      sumN (value <$> ins) = sumN (txout_value <$> output (unsigned_tx p)) + f ∧
      to_vbytes_ceil (tx_weight (unsigned_tx p)) * 1000 / 1000 ≤ f ∧
      120000 ∈ (txout_value <$> output (unsigned_tx p)).
Proof.
  eexists _, _. split; [vm_compute; reflexivity|].
  eapply (pay_sound rng shuf shuf shuf_perm shuf_perm base _ 120000
    addr0 1000 None); [done|done|].
  vm_compute. reflexivity.
Defined.

(** A leftover between the dust threshold and the dust threshold plus the cost
    of the change output: the simulation reports a transaction without change
    and only a warning, and generating that very transaction is refused. *)
Definition windowed := send_to (replace_inputs base [coin_at 1 100000]) addr0
  (100000 - 110 - 5005).
Example generate_refuses_simulated :
  (∃ r, simulate rng windowed = Ret r ∧ error r = None ∧ change r = None ∧
     warnings r = [ChangeCreateDust 5005]) ∧
  generate rng shuf shuf windowed = Ret (Err (MissingChange 5005)).
Proof. split; [eexists; split; [vm_compute; reflexivity|done]|vm_compute; reflexivity]. Qed.
End Witness.
End TxBuilder.
