(* ===== verification/Persist.v ===== *)
(** * Persistence (persist/src/lib.rs, backend/mod.rs, backend/noop.rs, storage)

    The two interfaces of the [persist] crate and the code between them: the
    byte-level [PersistenceBackend] (with its default [flush_batch]), the typed
    [Store] the wallet's stores are written against, and [RamStore], the cached
    write-back store. [StoreLaws] is what a client of a [Store] may rely on,
    [BackendLaws] what a store may rely on; [RamStore] gets the first from its own
    code and its durability theorem from the second. *)
From stdpp Require Import base gmap list strings.
From S2P Require Import Prelude.

Module Persist.

Abbreviation bytes := (list N).

(** [enum PersistError]; the messages are not kept. *)
Inductive PersistError :=
  | Io | Serde | Sqlite | SqliteDisabled
  | UnknownStore (found : string)
  | DbVersionTooNew (found max_supported : N)
  | AlreadyOpen.

Definition ACCOUNT_STORE_KEY : string := "account".
Definition TRANSACTIONS_STORE_KEY : string := "transactions.v2".
Definition LABELS_STORE_KEY : string := "labels".
Definition STATUSES_STORE_KEY : string := "statuses".
Definition COINS_STORE_KEY : string := "coins".
Definition TXS_STORE_KEY : string := "txs".
Definition BLOCK_HASHES_STORE_KEY : string := "block_hashes".
Definition SIGNERS_STORE_KEY : string := "signers".
Definition HEADERS_STORE_KEY : string := "headers".

Definition KNOWN_STORES : list string :=
  [ACCOUNT_STORE_KEY; TRANSACTIONS_STORE_KEY; LABELS_STORE_KEY; STATUSES_STORE_KEY;
   COINS_STORE_KEY; TXS_STORE_KEY; BLOCK_HASHES_STORE_KEY; SIGNERS_STORE_KEY; HEADERS_STORE_KEY].

Definition validate_store_name (store : string) : result unit PersistError :=
  if bool_decide (store ∈ KNOWN_STORES) then Ok tt else Err (UnknownStore store).

(** [trait PersistenceBackend], the medium being the state. *)
Class PersistenceBackend (B : Type) := {
  get_row : B → string → string → result (option bytes) PersistError;
  get_rows : B → string → result (list (string * bytes)) PersistError;
  put_row : string → string → bytes → eff B PersistError unit;
  delete_row : string → string → eff B PersistError unit;
  flush_batch : string → list (string * bytes) → list string → eff B PersistError unit
}.

(** The default [flush_batch]: the removals, then the insertions. *)
Definition flush_batch_default {B}
    (put_row : string → string → bytes → eff B PersistError unit)
    (delete_row : string → string → eff B PersistError unit)
    (store : string) (inserts : list (string * bytes)) (removed : list string) :
    eff B PersistError unit :=
  do! _ := elift (validate_store_name store) in
  do! _ := efor removed (λ key, delete_row store key) in
  efor inserts (λ row, put_row store row.1 row.2).

(** [NoopBackend]. *)
#[export] Instance NoopBackend : PersistenceBackend unit := {|
  get_row := λ _ _ _, Ok None;
  get_rows := λ _ _, Ok [];
  put_row := λ _ _ _, eret tt;
  delete_row := λ _ _, eret tt;
  flush_batch := λ _ _ _, eret tt
|}.

(** The rows after a batch: [removed] is applied before [inserts]. *)
Definition apply_batch (inserts : list (string * bytes)) (removed : list string)
    (m : gmap string bytes) : gmap string bytes :=
  foldl (λ m row, <[row.1 := row.2]> m) (foldl (λ m k, delete k m) m removed) inserts.

(** What a durable backend promises: its rows are a map, and a batch that
    succeeds is applied to it. *)
Class BackendLaws (B : Type) `{PersistenceBackend B} := {
  rows : B → string → gmap string bytes;
  get_rows_spec b store l :
    get_rows b store = Ok l → NoDup l.*1 ∧ list_to_map l = rows b store;
  flush_batch_spec b b' store inserts removed :
    flush_batch store inserts removed b = (b', Ok tt) →
    rows b' store = apply_batch inserts removed (rows b store)
}.

(** [trait Store]. *)
Class Store (S K V : Type) := {
  st_get : S → K → result (option V) PersistError;
  st_len : S → result nat PersistError;
  st_iter : S → result (list (K * V)) PersistError;
  st_insert : K → V → eff S PersistError (option V);
  st_remove : K → eff S PersistError (option V);
  st_modify : K → (V → V) → eff S PersistError bool;
  st_flush : eff S PersistError unit
}.
#[global] Hint Mode Store ! - - : typeclass_instances.

Section store_defaults.
Context {S K V : Type} `{Store S K V}.

Definition st_contains_key (s : S) (k : K) : result bool PersistError :=
  try! v := st_get s k in Ok (match v with Some _ => true | None => false end).
Definition st_is_empty (s : S) : result bool PersistError :=
  try! n := st_len s in Ok (n =? 0)%nat.
Definition st_keys (s : S) : result (list K) PersistError :=
  try! l := st_iter s in Ok l.*1.
Definition st_values (s : S) : result (list V) PersistError :=
  try! l := st_iter s in Ok l.*2.
End store_defaults.

(** What a client of a [Store] relies on: the store holds a map, reads that
    succeed read it, and writes that succeed update it; a flush, successful or
    not, does not change what is read. *)
Class StoreLaws (S K V : Type) `{Store S K V} `{Countable K} `{KeyOrd K} := {
  st_view : S → gmap K V;
  st_get_spec s k v : st_get s k = Ok v → v = st_view s !! k;
  st_iter_spec s l : st_iter s = Ok l → l = bt_items (st_view s);
  st_insert_spec s s' k v r : st_insert k v s = (s', r) →
    st_view s' = match r with Ok _ => <[k := v]> (st_view s) | Err _ => st_view s end;
  st_remove_spec s s' k r : st_remove k s = (s', r) →
    st_view s' = match r with Ok _ => delete k (st_view s) | Err _ => st_view s end;
  st_modify_spec s s' k f r : st_modify k f s = (s', r) →
    st_view s' = match r with Ok _ => alter f k (st_view s) | Err _ => st_view s end;
  st_flush_spec s s' r : st_flush s = (s', r) → st_view s' = st_view s
}.

(** What a loop of a store does to the map it holds. *)
Lemma st_view_foldl {S K V A : Type} `{StoreLaws S K V} (f : S → A → S)
    (g : gmap K V → A → gmap K V) (l : list A) s :
  (∀ s a, st_view (f s a) = g (st_view s) a) →
  st_view (foldl f s l) = foldl g (st_view s) l.
Proof.
  intros Hf. revert s; induction l as [|a l IH]; intros s; [done|]. cbn [foldl]. by rewrite IH, Hf.
Qed.

(** A store whose reads and cached writes never fail, as a store kept in memory;
    a flush still may. *)
Class StoreTotal (S K V : Type) `{Store S K V} := {
  st_get_total (s : S) (k : K) : ∃ v, st_get s k = Ok v;
  st_iter_total (s : S) : ∃ l, st_iter s = Ok l;
  st_insert_total (s : S) (k : K) (v : V) : ∃ s' o, st_insert k v s = (s', Ok o);
  st_remove_total (s : S) (k : K) : ∃ s' o, st_remove k s = (s', Ok o);
  st_modify_total (s : S) (k : K) (f : V → V) : ∃ s' o, st_modify k f s = (s', Ok o)
}.

Section ram_store.
Context {B K V : Type} `{PersistenceBackend B} `{Countable K} `{KeyOrd K}.

(** [struct RamStore]. *)
Record RamStore := mkRamStore {
  cache : gmap K V;
  dirty : gset K;
  removed : gset K;
  backend : B;
  store_key : string;
  encode_k : K → string;
  encode_v : V → result bytes PersistError
}.

Fixpoint decode_rows (decode_k : string → result K PersistError)
    (decode_v : bytes → result V PersistError) (acc : gmap K V)
    (l : list (string * bytes)) : result (gmap K V) PersistError :=
  match l with
  | [] => Ok acc
  | (key, bytes) :: l =>
      try! k := decode_k key in
      try! v := decode_v bytes in
      decode_rows decode_k decode_v (<[k := v]> acc) l
  end.

Definition ram_open (b : B) (store_key : string) (encode_k : K → string)
    (decode_k : string → result K PersistError) (encode_v : V → result bytes PersistError)
    (decode_v : bytes → result V PersistError) : result RamStore PersistError :=
  try! rows := get_rows b store_key in
  try! cache := decode_rows decode_k decode_v ∅ rows in
  Ok (mkRamStore cache ∅ ∅ b store_key encode_k encode_v).

Definition ram_empty (b : B) (store_key : string) (encode_k : K → string)
    (encode_v : V → result bytes PersistError) : RamStore :=
  mkRamStore ∅ ∅ ∅ b store_key encode_k encode_v.

Definition set_ram (s : RamStore) (c : gmap K V) (d r : gset K) : RamStore :=
  mkRamStore c d r (backend s) (store_key s) (encode_k s) (encode_v s).

Definition get_ref (s : RamStore) (k : K) : option V := cache s !! k.

(** [get_mut_ref]: the borrowed value is updated by [f]. *)
Definition get_mut_ref (s : RamStore) (k : K) (f : V → V) : RamStore * bool :=
  match cache s !! k with
  | None => (s, false)
  | Some v =>
      (set_ram s (<[k := f v]> (cache s)) ({[k]} ∪ dirty s) (removed s ∖ {[k]}), true)
  end.

Definition iter_ref (s : RamStore) : list (K * V) := bt_items (cache s).
Definition values_ref (s : RamStore) : list V := bt_values (cache s).
Definition keys_ref (s : RamStore) : list K := bt_keys (cache s).
Definition contains (s : RamStore) (k : K) : bool := bool_decide (is_Some (cache s !! k)).
Definition len_ram (s : RamStore) : nat := size (cache s).

Definition ram_insert (k : K) (v : V) : eff RamStore PersistError (option V) := λ s,
  (set_ram s (<[k := v]> (cache s)) ({[k]} ∪ dirty s) (removed s ∖ {[k]}),
   Ok (cache s !! k)).

Definition ram_remove (k : K) : eff RamStore PersistError (option V) := λ s,
  let d := dirty s ∖ {[k]} in
  match cache s !! k with
  | Some v => (set_ram s (delete k (cache s)) d ({[k]} ∪ removed s), Ok (Some v))
  | None => (set_ram s (delete k (cache s)) d (removed s), Ok None)
  end.

Definition ram_modify (k : K) (f : V → V) : eff RamStore PersistError bool := λ s,
  match cache s !! k with
  | Some v =>
      (set_ram s (<[k := f v]> (cache s)) ({[k]} ∪ dirty s) (removed s ∖ {[k]}), Ok true)
  | None => (s, Ok false)
  end.

(** The encoded rows of the dirty keys that are still cached. *)
Fixpoint encode_rows (s : RamStore) (ks : list K) :
    result (list (string * bytes)) PersistError :=
  match ks with
  | [] => Ok []
  | k :: ks =>
      match cache s !! k with
      | None => encode_rows s ks
      | Some v =>
          try! b := encode_v s v in
          try! l := encode_rows s ks in
          Ok ((encode_k s k, b) :: l)
      end
  end.

Definition ram_flush : eff RamStore PersistError unit := λ s,
  if bool_decide (dirty s = ∅) && bool_decide (removed s = ∅) then (s, Ok tt)
  else
    match encode_rows s (elements (dirty s)) with
    | Err e => (s, Err e)
    | Ok inserts =>
        let gone := encode_k s <$> elements (removed s) in
        match flush_batch (store_key s) inserts gone (backend s) with
        | (b, Ok _) =>
            (mkRamStore (cache s) ∅ ∅ b (store_key s) (encode_k s) (encode_v s), Ok tt)
        | (b, Err e) =>
            (mkRamStore (cache s) (dirty s) (removed s) b (store_key s) (encode_k s) (encode_v s),
             Err e)
        end
    end.

#[export] Instance RamStore_store : Store RamStore K V := {|
  st_get := λ s k, Ok (cache s !! k);
  st_len := λ s, Ok (size (cache s));
  st_iter := λ s, Ok (bt_items (cache s));
  st_insert := ram_insert;
  st_remove := ram_remove;
  st_modify := ram_modify;
  st_flush := ram_flush
|}.

#[export] Instance RamStore_laws : StoreLaws RamStore K V.
Proof.
  refine {| st_view := cache |}; simpl.
  - naive_solver.
  - naive_solver.
  - unfold ram_insert. intros * [= <- <-]. done.
  - unfold ram_remove. intros *. destruct (cache s !! k) eqn:Hk; intros [= <- <-]; done.
  - unfold ram_modify. intros *. destruct (cache s !! k) as [v|] eqn:Hk; intros [= <- <-]; simpl.
    + apply map_eq. intros j. destruct (decide (j = k)) as [->|Hne].
      * by rewrite lookup_insert_eq, lookup_alter_eq, Hk.
      * by rewrite lookup_insert_ne, lookup_alter_ne.
    + apply map_eq. intros j. destruct (decide (j = k)) as [->|Hne].
      * by rewrite lookup_alter_eq, Hk.
      * by rewrite lookup_alter_ne.
  - unfold ram_flush. intros *. destruct (_ && _); [by intros [= <- <-]|].
    destruct (encode_rows _ _); [|by intros [= <- <-]].
    destruct (flush_batch _ _ _ _) as [b [[]|e]]; by intros [= <- <-].
Defined.

#[export] Instance RamStore_total : StoreTotal RamStore K V.
Proof.
  split; simpl; [by eauto..| |]; intros s k; unfold ram_remove, ram_modify;
    destruct (cache s !! k); eauto.
Qed.
End ram_store.
#[global] Arguments RamStore B K V {_ _}.

(** ** Durability *)

Section batch.

Lemma foldl_delete_lookup (l : list string) (m : gmap string bytes) key :
  foldl (λ m k, delete k m) m l !! key = if bool_decide (key ∈ l) then None else m !! key.
Proof.
  revert m; induction l as [|k l IH]; intros m; simpl; [done|]. rewrite IH.
  destruct (decide (key = k)) as [->|Hne].
  - rewrite lookup_delete_eq. rewrite (bool_decide_eq_true_2 (k ∈ k :: l)) by set_solver.
    by destruct (bool_decide _).
  - rewrite lookup_delete_ne by done. do 2 case_bool_decide; set_solver.
Qed.

Lemma foldl_insert_lookup (l : list (string * bytes)) (m : gmap string bytes) key :
  NoDup l.*1 →
  foldl (λ m row, <[row.1 := row.2]> m) m l !! key =
    match (list_to_map l : gmap string bytes) !! key with Some b => Some b | None => m !! key end.
Proof.
  revert m; induction l as [|[k b] l IH]; intros m Hnd; simpl; [by rewrite lookup_empty|].
  apply NoDup_cons in Hnd as [Hk Hnd]. rewrite IH by done.
  destruct (decide (key = k)) as [->|Hne].
  - rewrite lookup_insert_eq. rewrite (not_elem_of_list_to_map_1 l k) by done.
    by rewrite lookup_insert_eq.
  - by rewrite !lookup_insert_ne by done.
Qed.

Lemma apply_batch_lookup inserts gone m key :
  NoDup inserts.*1 →
  apply_batch inserts gone m !! key =
    match (list_to_map inserts : gmap string bytes) !! key with
    | Some b => Some b
    | None => if bool_decide (key ∈ gone) then None else m !! key
    end.
Proof. intros Hnd. unfold apply_batch. by rewrite foldl_insert_lookup, foldl_delete_lookup. Qed.
End batch.

Section durability.
Context {B K V : Type} `{PersistenceBackend B} `{!BackendLaws B} `{Countable K} `{KeyOrd K}.
(** Keys are encoded injectively, and decoding undoes encoding. *)
Context (enc_k : K → string) (dec_k : string → result K PersistError).
Context (enc_v : V → result bytes PersistError) (dec_v : bytes → result V PersistError).
Context (Hdec_k : ∀ k, dec_k (enc_k k) = Ok k).
Context (Hdec_v : ∀ v b, enc_v v = Ok b → dec_v b = Ok v).
Implicit Types s : RamStore B K V.

(** The row a cached value is stored as. *)
Definition row_of s (k : K) : option bytes :=
  match cache s !! k with Some v => ok (enc_v v) | None => None end.

(** The medium agrees with the cache on every key that is neither dirty nor
    removed. *)
Record coherent s : Prop := {
  co_enc_k : encode_k s = enc_k;
  co_enc_v : encode_v s = enc_v;
  co_dirty : ∀ k, k ∈ dirty s → is_Some (cache s !! k);
  co_removed : ∀ k, k ∈ removed s → cache s !! k = None;
  co_clean : ∀ k, k ∉ dirty s → k ∉ removed s →
    rows (backend s) (store_key s) !! enc_k k = row_of s k ∧
    (∀ v, cache s !! k = Some v → is_Some (row_of s k));
  co_keys : ∀ key, is_Some (rows (backend s) (store_key s) !! key) → ∃ k, key = enc_k k
}.

Lemma enc_k_inj : Inj (=) (=) enc_k.
Proof. intros k k' Hk. assert (Ok (E:=PersistError) k = Ok k') by congruence. congruence. Qed.

Lemma coherent_put s k v :
  coherent s →
  coherent (set_ram s (<[k := v]> (cache s)) ({[k]} ∪ dirty s) (removed s ∖ {[k]})).
Proof.
  intros [He Hv Hd Hr Hc Hk]. split; simpl; try done.
  - intros k'. destruct (decide (k = k')) as [<-|]; [by rewrite lookup_insert_eq; eauto|].
    rewrite lookup_insert_ne by done. set_solver.
  - intros k' Hin. rewrite lookup_insert_ne by set_solver. set_solver.
  - intros k' H1' H2'. unfold row_of. simpl. rewrite lookup_insert_ne by set_solver.
    apply Hc; set_solver.
Qed.

Lemma coherent_remove s s' k r : coherent s → ram_remove k s = (s', r) → coherent s'.
Proof.
  intros [He Hv Hd Hr Hc Hk]. unfold ram_remove. destruct (cache s !! k) as [v|] eqn:Hck.
  - intros [= <- _]. split; simpl; try done.
    + intros k' Hin. rewrite lookup_delete_ne by set_solver. apply Hd. set_solver.
    + intros k' Hin. destruct (decide (k = k')) as [<-|]; [by rewrite lookup_delete_eq|].
      rewrite lookup_delete_ne by done. set_solver.
    + intros k' H1' H2'. unfold row_of. simpl. rewrite lookup_delete_ne by set_solver.
      apply Hc; set_solver.
  - intros [= <- _]. rewrite delete_id by done. split; simpl; try done.
    + set_solver.
    + intros k' H1' H2'. apply Hc; [|done]. intros Hin. destruct (Hd _ Hin). set_solver.
Qed.

Lemma coherent_modify s s' k f r : coherent s → ram_modify k f s = (s', r) → coherent s'.
Proof.
  unfold ram_modify. destruct (cache s !! k); intros Hs [= <- _]; [by apply coherent_put|done].
Qed.

Lemma encode_rows_spec s ks l :
  encode_k s = enc_k → encode_v s = enc_v → encode_rows s ks = Ok l → NoDup ks →
  NoDup l.*1 ∧ ∀ k, (list_to_map l : gmap string bytes) !! enc_k k =
    if bool_decide (k ∈ ks) then row_of s k else None.
Proof.
  intros Hek Hev. revert l; induction ks as [|k ks IH]; intros l; simpl.
  { intros [= <-] _. split; [constructor|]. done. }
  intros Hl [Hk Hnd]%NoDup_cons. unfold row_of.
  destruct (cache s !! k) as [v|] eqn:Hck.
  - apply rbind_Ok in Hl as (b & Hb & (l' & Hl' & [= <-])%rbind_Ok).
    destruct (IH _ Hl' Hnd) as [Hnd' Hlook]. rewrite Hek. rewrite Hev in Hb. split.
    + simpl. constructor; [|done]. intros (row & Hrow & Hin)%list_elem_of_fmap.
      assert (is_Some ((list_to_map l' : gmap string bytes) !! enc_k k)) as [x Hx].
      { exists row.2. apply elem_of_list_to_map_1; [done|]. rewrite Hrow. by destruct row. }
      rewrite Hlook in Hx. rewrite bool_decide_eq_false_2 in Hx; done.
    + intros k'. destruct (decide (k = k')) as [<-|Hne].
      * simpl. rewrite lookup_insert_eq, bool_decide_eq_true_2 by set_solver.
        by rewrite Hck, Hb.
      * simpl. rewrite lookup_insert_ne by (intros Hx; apply Hne; by apply enc_k_inj).
        rewrite Hlook. do 2 case_bool_decide; set_solver.
  - destruct (IH _ Hl Hnd) as [Hnd' Hlook]. split; [done|]. intros k'. rewrite Hlook.
    destruct (decide (k = k')) as [<-|Hne].
    + rewrite bool_decide_eq_false_2 by done. rewrite bool_decide_eq_true_2 by set_solver.
      by rewrite Hck.
    + do 2 case_bool_decide; set_solver.
Qed.

Lemma encode_rows_some s ks l k v :
  encode_v s = enc_v → encode_rows s ks = Ok l → k ∈ ks → cache s !! k = Some v →
  is_Some (row_of s k).
Proof.
  intros Hev. revert l; induction ks as [|k' ks IH]; intros l; simpl; [set_solver|].
  intros Hl Hin Hk. apply elem_of_cons in Hin as [<-|Hin].
  - rewrite Hk in Hl. apply rbind_Ok in Hl as (b & Hb & _). unfold row_of.
    rewrite Hk, <-Hev, Hb. simpl. eauto.
  - destruct (cache s !! k'); [|by eauto].
    apply rbind_Ok in Hl as (b & _ & (l' & Hl' & _)%rbind_Ok). eauto.
Qed.

(** What a written batch leaves on the medium: exactly the cache. *)
Lemma written_rows s ins b k :
  coherent s → encode_rows s (elements (dirty s)) = Ok ins →
  flush_batch (store_key s) ins (encode_k s <$> elements (removed s)) (backend s) = (b, Ok tt) →
  rows b (store_key s) !! enc_k k = row_of s k ∧
  (∀ v, cache s !! k = Some v → is_Some (row_of s k)).
Proof.
  intros [He Hv Hd Hr Hc Hk] Hins Hf%flush_batch_spec.
  destruct (encode_rows_spec _ _ _ He Hv Hins ltac:(apply NoDup_elements)) as [Hnd Hlook].
  rewrite Hf, apply_batch_lookup, Hlook, He by done. case_bool_decide as Hin.
  { pose proof Hin as Hin'. apply elem_of_elements in Hin'. destruct (Hd _ Hin') as [v Hv'].
    destruct (encode_rows_some _ _ _ _ _ Hv Hins Hin Hv') as [x Hx]. rewrite Hx. eauto. }
  rewrite elem_of_elements in Hin. case_bool_decide as Hg.
  - apply list_elem_of_fmap in Hg as (k' & ->%enc_k_inj & Hg%elem_of_elements%Hr).
    unfold row_of. rewrite Hg. split; [done|naive_solver].
  - apply Hc; [done|]. intros Hr'. apply Hg, list_elem_of_fmap. exists k.
    by rewrite elem_of_elements.
Qed.

Lemma written_keys s ins b key :
  coherent s → encode_rows s (elements (dirty s)) = Ok ins →
  flush_batch (store_key s) ins (encode_k s <$> elements (removed s)) (backend s) = (b, Ok tt) →
  is_Some (rows b (store_key s) !! key) → ∃ k, key = enc_k k.
Proof.
  intros [He Hv Hd Hr Hc Hk] Hins Hf%flush_batch_spec.
  destruct (encode_rows_spec _ _ _ He Hv Hins ltac:(apply NoDup_elements)) as [Hnd Hlook].
  rewrite Hf, apply_batch_lookup by done.
  destruct (list_to_map ins !! key) as [x|] eqn:Hx.
  - intros _. apply elem_of_list_to_map_2 in Hx. clear -Hins Hx He. revert ins Hins Hx.
    induction (elements (dirty s)) as [|k ks IH]; intros ins; simpl; [intros [= <-]; set_solver|].
    destruct (cache s !! k); [|apply IH].
    intros (b & _ & (l & Hl & [= <-])%rbind_Ok)%rbind_Ok [[= -> _]|Hin]%elem_of_cons.
    + exists k. by rewrite He.
    + by eapply IH.
  - case_bool_decide; [by intros [? ?]|apply Hk].
Qed.

(** After a successful flush the medium holds exactly the cache. *)
Lemma coherent_flush s s' :
  coherent s → ram_flush s = (s', Ok tt) →
  coherent s' ∧ dirty s' = ∅ ∧ removed s' = ∅ ∧ cache s' = cache s ∧ store_key s' = store_key s.
Proof.
  intros Hs. unfold ram_flush. destruct (_ && _) eqn:Hempty.
  { apply andb_true_iff in Hempty as [Hd%bool_decide_eq_true Hr%bool_decide_eq_true].
    intros [= <-]. done. }
  destruct (encode_rows s (elements (dirty s))) as [ins|] eqn:Hins; [|done].
  destruct (flush_batch _ _ _ _) as [b [[]|e]] eqn:Hf; [|done]. intros [= <-]. split; [|done].
  destruct (Hs) as [He Hv _ _ _ _]. split; simpl; [done|done|set_solver|set_solver| |].
  - intros k _ _. exact (written_rows s ins b k Hs Hins Hf).
  - intros key. by eapply written_keys.
Qed.

Lemma decode_rows_spec l acc :
  (∀ key b, (key, b) ∈ l → ∃ k v, key = enc_k k ∧ enc_v v = Ok b) → NoDup l.*1 →
  ∃ m, decode_rows dec_k dec_v acc l = Ok m ∧
    ∀ k, m !! k = match (list_to_map l : gmap string bytes) !! enc_k k with
                  | Some b => ok (dec_v b)
                  | None => acc !! k
                  end.
Proof.
  revert acc; induction l as [|[key b] l IH]; intros acc Hl Hnd; simpl.
  { eexists. split; [done|]. intros k. by rewrite lookup_empty. }
  apply NoDup_cons in Hnd as [Hni Hnd].
  destruct (Hl key b ltac:(set_solver)) as (k & v & -> & Hv). rewrite Hdec_k, (Hdec_v _ _ Hv). simpl.
  destruct (IH (<[k := v]> acc) ltac:(set_solver) Hnd) as (m & -> & Hm). exists m.
  split; [done|]. intros k'. rewrite Hm. destruct (decide (k = k')) as [<-|Hne].
  - rewrite (not_elem_of_list_to_map_1 l) by done. by rewrite !lookup_insert_eq, (Hdec_v _ _ Hv).
  - rewrite !lookup_insert_ne by (done || intros Hx; apply Hne; by apply enc_k_inj). done.
Qed.

(** Reading the medium of a coherent store with nothing pending gives its cache
    back. *)
Lemma coherent_open s l :
  coherent s → dirty s = ∅ → removed s = ∅ → get_rows (backend s) (store_key s) = Ok l →
  ram_open (backend s) (store_key s) enc_k dec_k enc_v dec_v = Ok s.
Proof.
  intros [He Hv Hd Hr Hc Hk] Hde Hre Hl. unfold ram_open. rewrite Hl. simpl.
  apply get_rows_spec in Hl as [Hnd Hmap].
  assert (Hrow : ∀ k, list_to_map l !! enc_k k = row_of s k)
    by (intros k; rewrite Hmap; apply Hc; set_solver).
  destruct (decode_rows_spec l ∅) as (m & -> & Hm); [|done|].
  { intros key b Hin%(elem_of_list_to_map_1 (M:=gmap string) _ _ _ Hnd).
    destruct (Hk key) as [k ->]; [rewrite <-Hmap; eauto|]. rewrite Hrow in Hin.
    revert Hin. unfold row_of. destruct (cache s !! k) as [v|]; [|done].
    destruct (enc_v v) as [b'|] eqn:Hb'; [|done]. intros [= <-]. eauto. }
  simpl. assert (m = cache s) as ->.
  { apply map_eq. intros k. rewrite Hm, Hrow, lookup_empty.
    destruct (Hc k ltac:(set_solver) ltac:(set_solver)) as [_ Hs]. unfold row_of in *.
    destruct (cache s !! k) as [v|]; [|done]. destruct (Hs v eq_refl) as [b Hb].
    rewrite Hb. destruct (enc_v v) as [b'|] eqn:Hb'; [|done]. injection Hb as ->.
    by rewrite (Hdec_v _ _ Hb'). }
  rewrite <-He, <-Hv, <-Hde at 1. rewrite <-Hre at 1. by destruct s.
Qed.

(** The mutations of a store, and a flush that succeeds. *)
Inductive ram_step : RamStore B K V → RamStore B K V → Prop :=
  | step_insert s s' k v r : ram_insert k v s = (s', r) → ram_step s s'
  | step_remove s s' k r : ram_remove k s = (s', r) → ram_step s s'
  | step_modify s s' k f r : ram_modify k f s = (s', r) → ram_step s s'
  | step_get_mut s s' k f r : get_mut_ref s k f = (s', r) → ram_step s s'
  | step_flush s s' : ram_flush s = (s', Ok tt) → ram_step s s'.

Lemma coherent_step s s' : ram_step s s' → coherent s → coherent s'.
Proof.
  destruct 1 as [s s' k v r Hs|s s' k r Hs|s s' k f r Hs|s s' k f r Hs|s s' Hs]; intros Hc.
  - unfold ram_insert in Hs. injection Hs as <- _. by apply coherent_put.
  - by eapply coherent_remove.
  - by eapply coherent_modify.
  - revert Hs. unfold get_mut_ref. destruct (cache s !! k); intros [= <- _];
      [by apply coherent_put|done].
  - by apply coherent_flush in Hs as [? _].
Qed.

Lemma coherent_steps s s' : rtc ram_step s s' → coherent s → coherent s'.
Proof. induction 1; eauto using coherent_step. Qed.

Lemma coherent_empty b key : rows b key = ∅ → coherent (ram_empty b key enc_k enc_v).
Proof.
  intros Hempty. split; simpl; [done|done|..].
  - intros k Hk. set_solver.
  - intros k Hk. set_solver.
  - intros k _ _. unfold row_of. simpl. by rewrite Hempty, !lookup_empty.
  - intros k. rewrite Hempty, lookup_empty. by intros [? ?].
Qed.

(** C25. Durability of the cached store: open it on an empty medium, apply any
    mutations, then flush; if the flush succeeds, opening the medium again gives
    exactly the store that was flushed. *)
Theorem ram_store_durable (b : B) (key : string) s s' l
    (Hempty : rows b key = ∅)
    (Hsteps : rtc ram_step (ram_empty b key enc_k enc_v) s)
    (Hflush : ram_flush s = (s', Ok tt))
    (Hrows : get_rows (backend s') (store_key s') = Ok l) :
  ram_open (backend s') (store_key s') enc_k dec_k enc_v dec_v = Ok s' ∧ cache s' = cache s.
Proof.
  assert (Hs : coherent s) by (eapply coherent_steps; [done|by apply coherent_empty]).
  destruct (coherent_flush _ _ Hs Hflush) as (Hs' & Hd & Hr & Hcache & _).
  split; [|done]. by eapply coherent_open.
Qed.
End durability.

(** *** Witnesses *)
Module Witness.

(** A medium in memory: per store, its rows; the batch is the default one. *)
Definition mem : Type := gmap string (gmap string bytes).
Definition mem_rows (b : mem) (store : string) : gmap string bytes := default ∅ (b !! store).
Definition mem_put (store key : string) (v : bytes) : eff mem PersistError unit := λ b,
  (<[store := <[key := v]> (mem_rows b store)]> b, Ok tt).
Definition mem_delete (store key : string) : eff mem PersistError unit := λ b,
  (<[store := delete key (mem_rows b store)]> b, Ok tt).
#[export] Instance mem_backend : PersistenceBackend mem := {|
  get_row := λ b store key, Ok (mem_rows b store !! key);
  get_rows := λ b store, Ok (map_to_list (mem_rows b store));
  put_row := mem_put;
  delete_row := mem_delete;
  flush_batch := flush_batch_default mem_put mem_delete
|}.

Lemma mem_rows_insert (b : mem) store m : mem_rows (<[store := m]> b) store = m.
Proof. unfold mem_rows, mem. by rewrite lookup_insert_eq. Qed.

Lemma mem_deletes store ks b b' r :
  efor ks (λ key, mem_delete store key) b = (b', r) →
  mem_rows b' store = foldl (λ m k, delete k m) (mem_rows b store) ks.
Proof.
  revert b; induction ks as [|k ks IH]; intros b; simpl; [unfold eret; by intros [= <- _]|].
  unfold ebind. simpl. intros Hb%IH. by rewrite Hb, mem_rows_insert.
Qed.
Lemma mem_puts store (l : list (string * bytes)) b b' r :
  efor l (λ row, mem_put store row.1 row.2) b = (b', r) →
  mem_rows b' store = foldl (λ m row, <[row.1 := row.2]> m) (mem_rows b store) l.
Proof.
  revert b; induction l as [|k l IH]; intros b; simpl; [unfold eret; by intros [= <- _]|].
  unfold ebind. simpl. intros Hb%IH. by rewrite Hb, mem_rows_insert.
Qed.

#[export] Instance mem_laws : BackendLaws mem.
Proof.
  refine {| rows := mem_rows |}; simpl.
  - intros b store l [= <-]. split; [apply NoDup_fst_map_to_list|apply list_to_map_to_list].
  - intros b b' store ins gone. unfold flush_batch_default.
    intros (b1 & [] & H1 & (b2 & [] & H2 & H3)%ebind_Ok)%ebind_Ok.
    unfold elift in H1. injection H1 as <- _. apply mem_puts in H3. apply mem_deletes in H2.
    unfold apply_batch. by rewrite H3, H2.
Defined.

(** Two booleans as keys, numbers as values. *)
Definition ek (k : bool) : string := if k then "t" else "f".
Definition dk (s : string) : result bool PersistError :=
  if bool_decide (s = "t") then Ok true else if bool_decide (s = "f") then Ok false else Err Serde.
Definition ev (v : N) : result bytes PersistError := Ok [v].
Definition dv (b : bytes) : result N PersistError :=
  match b with [v] => Ok v | _ => Err Serde end.
#[export] Instance bool_KeyOrd : KeyOrd bool := λ a b, implb a b.

Definition s0 : RamStore mem bool N := ram_empty (∅ : mem) COINS_STORE_KEY ek ev.
Definition s1 : RamStore mem bool N := (ram_insert true 5 s0).1.
Definition s2 : RamStore mem bool N := (ram_insert false 7 s1).1.
Definition s3 : RamStore mem bool N := (ram_remove true s2).1.
Definition s4 : RamStore mem bool N := (ram_flush s3).1.

Lemma ram_store_durable_witness :
  ram_open (backend s4) (store_key s4) ek dk ev dv = Ok s4 ∧ cache s4 = cache s3.
Proof.
  apply (ram_store_durable ek dk ev dv) with (b := ∅) (key := COINS_STORE_KEY)
    (l := [("f", [7])]).
  - by intros [].
  - intros v b [= <-]. done.
  - reflexivity.
  - eapply rtc_l; [by eapply (step_insert _ s1)|].
    eapply rtc_l; [by eapply (step_insert _ s2)|].
    eapply rtc_l; [by apply (step_remove _ s3 true (Ok (Some 5)))|]. apply rtc_refl.
  - vm_compute. reflexivity.
  - vm_compute. reflexivity.
Defined.
End Witness.
End Persist.
