(* ===== verification/HeaderBackend.v ===== *)
(** * The binary header cache (persist/src/backend/headers.rs)

    A file of fixed-size records behind a magic number and the height of the
    first record. The file is its bytes; failures of the file system itself are
    not modelled. The properties: what is written is read back, the positional
    write of one record has the effect of rewriting the whole map, and a batch
    removes then inserts. *)
From stdpp Require Import base gmap list strings pretty.
From S2P Require Import Prelude Persist.

Module HeaderBackend.
Import Persist.

Definition CACHE_MAGIC : bytes := [66; 87; 75; 72]. (* "BWKH" *)
Definition CACHE_PREFIX_LEN : nat := 8.

(** [str::parse::<u32>]: an optional [+], then at least one digit, within range. *)
Definition digit_of (c : Ascii.ascii) : option N :=
  let n := Ascii.N_of_ascii c in
  if (48 <=? n) && (n <=? 57) then Some (n - 48) else None.

Fixpoint parse_digits (acc : N) (s : string) : option N :=
  match s with
  | EmptyString => Some acc
  | String c s =>
      match digit_of c with
      | None => None
      | Some d =>
          let acc := acc * 10 + d in
          if acc <? 2 ^ 32 then parse_digits acc s else None
      end
  end.

Definition parse_u32 (s : string) : option N :=
  let s :=
    match s with
    | String c s' => if Ascii.eqb c (Ascii.ascii_of_N 43) then s' else s
    | EmptyString => s
    end in
  match s with EmptyString => None | _ => parse_digits 0 s end.

(** [slice::chunks_exact] of a list whose length is a multiple of [n]. *)
Fixpoint chunks_exact (fuel n : nat) (l : bytes) : list bytes :=
  match fuel with
  | O => []
  | S fuel => match l with [] => [] | _ => take n l :: chunks_exact fuel n (drop n l) end
  end.

(** [struct HeaderBackend]; [file] is [None] when there is no file. *)
Record HeaderBackend := mkBackend {
  file : option bytes;
  record_size : nat
}.
Definition set_file (b : HeaderBackend) (f : option bytes) : HeaderBackend :=
  mkBackend f (record_size b).

Definition parse_key (key : string) : result N PersistError := ok_or (parse_u32 key) Io.

Section backend.
Context `{Build}.

Fixpoint insert_records (min_stored : N) (i : nat) (chunks : list bytes) (out : gmap N bytes) :
    outcome (gmap N bytes) :=
  match chunks with
  | [] => Ret out
  | chunk :: chunks =>
      let! h := add32 min_stored (N.of_nat i mod 2 ^ 32) in
      insert_records min_stored (S i) chunks (<[h := chunk]> out)
  end.

(** An unrecognized or truncated file is removed and reads as empty. *)
Definition load_map (b : HeaderBackend) : outcome (HeaderBackend * gmap N bytes) :=
  match file b with
  | None => Ret (b, ∅)
  | Some bytes =>
      if (length bytes <? CACHE_PREFIX_LEN)%nat || negb (bool_decide (take 4 bytes = CACHE_MAGIC))
      then Ret (set_file b None, ∅)
      else
        let min_stored := u32_from_le_bytes (take 4 (drop 4 bytes)) in
        let body := drop CACHE_PREFIX_LEN bytes in
        if negb (length body mod record_size b =? 0)%nat then Ret (set_file b None, ∅)
        else
          let! out :=
            insert_records min_stored 0 (chunks_exact (length body) (record_size b) body) ∅ in
          Ret (b, out)
  end.

Definition write_map (b : HeaderBackend) (rows : gmap N bytes) :
    HeaderBackend * result unit PersistError :=
  let min_stored := default 0 (bt_first_key rows) in
  let contiguous :=
    match bt_last_key rows with
    | Some max_stored => max_stored - min_stored + 1 =? N.of_nat (size rows)
    | None => true
    end in
  if negb contiguous then (b, Err Io)
  else if negb (forallb (λ raw, length raw =? record_size b)%nat (bt_values rows))
  then (b, Err Io)
  else
    (set_file b (Some (CACHE_MAGIC ++ u32_to_le_bytes min_stored ++ concat (bt_values rows))),
     Ok tt).

(** Overwrite from an offset within the file, then cut or extend it. *)
Definition write_at (f : bytes) (offset : nat) (data : bytes) : bytes :=
  take offset f ++ data ++ drop (offset + length data) f.
Definition set_len (f : bytes) (n : nat) : bytes :=
  take n f ++ replicate (n - length f) 0.

Definition put_row_positional (b : HeaderBackend) (key : string) (data : bytes) :
    outcome (HeaderBackend * result unit PersistError) :=
  if negb (length data =? record_size b)%nat then Ret (b, Err Io)
  else
    match parse_key key with
    | Err e => Ret (b, Err e)
    | Ok height =>
        let! (b, rows) := load_map b in
        match bt_first_key rows with
        | None => Ret (write_map b {[height := data]})
        | Some min_stored =>
            let max_stored := default min_stored (bt_last_key rows) in
            if (height <? min_stored) || (sat_add u32_max max_stored 1 <? height) then
              Ret (write_map b (<[height := data]> rows))
            else
              match file b with
              | None => Ret (b, Err Io)
              | Some f =>
                  let offset :=
                    (CACHE_PREFIX_LEN + N.to_nat (height - min_stored) * record_size b)%nat in
                  let f := write_at f offset data in
                  let new_len :=
                    (CACHE_PREFIX_LEN + N.to_nat (height - min_stored + 1) * record_size b)%nat in
                  let f := if height =? sat_add u32_max max_stored 1 then set_len f new_len else f in
                  Ret (set_file b (Some f), Ok tt)
              end
        end
    end.

Definition hb_get_row (b : HeaderBackend) (store key : string) :
    outcome (HeaderBackend * result (option bytes) PersistError) :=
  match validate_store_name store with
  | Err e => Ret (b, Err e)
  | Ok _ =>
      match parse_key key with
      | Err e => Ret (b, Err e)
      | Ok height => let! (b, rows) := load_map b in Ret (b, Ok (rows !! height))
      end
  end.

Definition hb_get_rows (b : HeaderBackend) (store : string) :
    outcome (HeaderBackend * result (list (string * bytes)) PersistError) :=
  match validate_store_name store with
  | Err e => Ret (b, Err e)
  | Ok _ =>
      let! (b, rows) := load_map b in
      Ret (b, Ok ((λ hr, (pretty hr.1, hr.2)) <$> bt_items rows))
  end.

Definition hb_put_row (b : HeaderBackend) (store key : string) (data : bytes) :
    outcome (HeaderBackend * result unit PersistError) :=
  match validate_store_name store with
  | Err e => Ret (b, Err e)
  | Ok _ => put_row_positional b key data
  end.

Definition hb_delete_row (b : HeaderBackend) (store key : string) :
    outcome (HeaderBackend * result unit PersistError) :=
  match validate_store_name store with
  | Err e => Ret (b, Err e)
  | Ok _ =>
      match parse_key key with
      | Err e => Ret (b, Err e)
      | Ok height =>
          let! (b, rows) := load_map b in Ret (write_map b (delete height rows))
      end
  end.

(** The loops of [flush_batch] over the removed keys and the inserted rows. *)
Fixpoint remove_rows (removed : list string) (rows : gmap N bytes) :
    result (gmap N bytes) PersistError :=
  match removed with
  | [] => Ok rows
  | key :: removed => try! h := parse_key key in remove_rows removed (delete h rows)
  end.
Fixpoint insert_rows (size : nat) (inserts : list (string * bytes)) (rows : gmap N bytes) :
    result (gmap N bytes) PersistError :=
  match inserts with
  | [] => Ok rows
  | (key, data) :: inserts =>
      if negb (length data =? size)%nat then Err Io
      else try! h := parse_key key in insert_rows size inserts (<[h := data]> rows)
  end.

Definition hb_flush_batch (b : HeaderBackend) (store : string) (inserts : list (string * bytes))
    (removed : list string) : outcome (HeaderBackend * result unit PersistError) :=
  match validate_store_name store with
  | Err e => Ret (b, Err e)
  | Ok _ =>
      match removed, inserts with
      | [], [(key, data)] => put_row_positional b key data
      | _, _ =>
          let! (b, rows) := load_map b in
          match remove_rows removed rows with
          | Err e => Ret (b, Err e)
          | Ok rows =>
              match insert_rows (record_size b) inserts rows with
              | Err e => Ret (b, Err e)
              | Ok rows => Ret (write_map b rows)
              end
          end
      end
  end.
End backend.

(** ** Proofs *)

(** *** Height keys *)

Lemma pretty_digit d :
  d < 10 → digit_of (pretty_N_char d) = Some d ∧
    Ascii.eqb (pretty_N_char d) (Ascii.ascii_of_N 43) = false.
Proof.
  intros Hd. assert (d ∈ [0; 1; 2; 3; 4; 5; 6; 7; 8; 9]) as Hin.
  { rewrite !elem_of_cons. lia. }
  repeat (apply elem_of_cons in Hin as [->|Hin]; [done|]). set_solver.
Qed.

Lemma parse_digits_pretty x s :
  x < 2 ^ 32 → x ≠ 0 → parse_digits 0 (pretty_N_go x s) = parse_digits x s.
Proof.
  revert s. induction (N.lt_wf_0 x) as [x _ IH]; intros s Hx Hnz.
  rewrite pretty_N_go_step by lia.
  destruct (pretty_digit (x mod 10)) as [Hdigit _]; [apply N.mod_lt; lia|].
  pose proof (N.div_mod x 10 ltac:(lia)).
  assert (Hnext : parse_digits (x / 10) (String (pretty_N_char (x mod 10)) s) = parse_digits x s).
  { simpl. rewrite Hdigit. replace (x / 10 * 10 + x mod 10) with x by lia.
    by rewrite (proj2 (N.ltb_lt _ _) Hx). }
  destruct (decide (x / 10 = 0)) as [Hz|Hz].
  - rewrite Hz, pretty_N_go_0. by rewrite <-Hz.
  - rewrite IH; [done|apply N.div_lt; lia| |done].
    apply N.le_lt_trans with x; [apply N.Div0.div_le_upper_bound; lia|done].
Qed.

Lemma pretty_N_go_digits x s :
  ∃ c t, x ≠ 0 → pretty_N_go x s = String c t ∧ Ascii.eqb c (Ascii.ascii_of_N 43) = false.
Proof.
  revert s. induction (N.lt_wf_0 x) as [x _ IH]; intros s.
  destruct (decide (x = 0)) as [->|Hnz]; [by eexists (Ascii.ascii_of_N 0), s|].
  rewrite pretty_N_go_step by lia. destruct (decide (x / 10 = 0)) as [Hz|Hz].
  - rewrite Hz, pretty_N_go_0. eexists _, _. intros _. split; [done|].
    apply pretty_digit, N.mod_lt. lia.
  - destruct (IH (x / 10) ltac:(apply N.div_lt; lia) (String (pretty_N_char (x mod 10)) s))
      as (c & t & Hct). exists c, t. intros _. by apply Hct.
Qed.

Lemma parse_key_pretty h : h < 2 ^ 32 → parse_key (pretty h) = Ok h.
Proof.
  intros Hh. unfold parse_key, parse_u32. destruct (decide (h = 0)) as [->|Hnz]; [done|].
  change (pretty h) with (if decide (h = 0) then "0"%string else pretty_N_go h "").
  rewrite decide_False by done.
  destruct (pretty_N_go_digits h "") as (c & t & Hct). destruct (Hct Hnz) as [Hgo Hplus].
  assert (Hp : parse_digits 0 (String c t) = Some h) by (rewrite <-Hgo; by apply parse_digits_pretty).
  rewrite Hgo. cbn -[parse_digits Ascii.eqb Ascii.ascii_of_N]. rewrite Hplus. by rewrite Hp.
Qed.

(** *** Records *)

Lemma chunks_exact_concat n l fuel :
  (0 < n)%nat → Forall (λ c : bytes, length c = n) l → (length (concat l) ≤ fuel)%nat →
  chunks_exact fuel n (concat l) = l.
Proof.
  intros Hn Hl. revert fuel; induction Hl as [|c l Hc Hl IH]; intros fuel Hf; simpl in *.
  { by destruct fuel. }
  rewrite length_app in Hf. destruct fuel as [|fuel]; [lia|]. simpl.
  destruct (c ++ concat l) as [|x t] eqn:Hx.
  { apply (f_equal length) in Hx. rewrite length_app in Hx. simpl in Hx. lia. }
  rewrite <-Hx. rewrite take_app_length', drop_app_length' by done. f_equal. apply IH. lia.
Qed.

Lemma length_concat_records n (l : list bytes) :
  Forall (λ c : bytes, length c = n) l → length (concat l) = (length l * n)%nat.
Proof. induction 1 as [|c l Hc Hl IH]; simpl; [done|]. rewrite length_app, IH. lia. Qed.

Section proofs.
Context `{Build}.

(** A file of the given height and records. *)
Definition image (min_stored : N) (l : list bytes) : bytes :=
  CACHE_MAGIC ++ u32_to_le_bytes min_stored ++ concat l.

Lemma insert_records_ok a i l m :
  a + N.of_nat i + N.of_nat (length l) ≤ 2 ^ 32 →
  insert_records a i l m =
    Ret (list_to_map (rev (zip (nseq (a + N.of_nat i) (length l)) l)) ∪ m).
Proof.
  revert i m; induction l as [|c l IH]; intros i m Hb; cbn [insert_records length nseq] in *.
  { simpl. by rewrite map_empty_union. }
  destruct (N.lt_ge_cases (a + N.of_nat i) (2 ^ 32)) as [Hlt|]; [|lia].
  rewrite N.mod_small by lia. unfold add32. rewrite add_w_ok by done. cbn [obind].
  rewrite IH by lia. f_equal. cbn [zip zip_with rev].
  rewrite list_to_map_app. replace (a + N.of_nat (S i)) with (a + N.of_nat i + 1) by lia.
  rewrite <-map_union_assoc. f_equal.
  by rewrite list_to_map_cons, list_to_map_nil, insert_empty, insert_union_singleton_l.
Qed.

Lemma load_image n a l :
  (0 < n)%nat → Forall (λ c, length c = n) l → a + N.of_nat (length l) ≤ 2 ^ 32 → a < 2 ^ 32 →
  load_map (mkBackend (Some (image a l)) n) =
    Ret (mkBackend (Some (image a l)) n, list_to_map (rev (zip (nseq a (length l)) l))).
Proof.
  intros Hn Hl Hb Ha. unfold load_map. cbn [file record_size].
  assert (Htake : take 4 (image a l) = CACHE_MAGIC) by done.
  assert (Hlen : (8 <= length (image a l))%nat) by (unfold image; simpl; lia).
  unfold CACHE_PREFIX_LEN. rewrite (proj2 (Nat.ltb_ge _ _) Hlen), Htake. simpl orb.
  change (take 4 (drop 4 (image a l))) with (u32_to_le_bytes a). rewrite u32_le_roundtrip by done.
  change (drop 8 (image a l)) with (concat l).
  rewrite (length_concat_records _ _ Hl), Nat.Div0.mod_mul. simpl negb. cbn iota.
  rewrite chunks_exact_concat by (done || by rewrite (length_concat_records _ _ Hl)).
  rewrite insert_records_ok by (simpl; lia). cbn [obind]. rewrite N.add_0_r.
  by rewrite map_union_empty.
Qed.

(** The rows of a map in key order, laid on consecutive heights, are the map. *)
Lemma contiguous_rows (m : gmap N bytes) a :
  bt_keys m = nseq a (size m) →
  list_to_map (rev (zip (nseq a (length (bt_values m))) (bt_values m))) = m.
Proof.
  intros Hk. assert (Hl : length (bt_values m) = size m)
    by (unfold bt_values; by rewrite length_fmap, length_bt_items).
  rewrite Hl, <-Hk. unfold bt_keys, bt_values. rewrite zip_fst_snd.
  transitivity (list_to_map (map_to_list m) : gmap N bytes); [|apply list_to_map_to_list].
  apply list_to_map_proper.
  - rewrite <-Permutation_rev. apply NoDup_bt_keys.
  - rewrite <-Permutation_rev. apply bt_items_perm.
Qed.

Lemma write_map_Ok b m b' :
  write_map b m = (b', Ok tt) →
  b' = set_file b (Some (image (default 0 (bt_first_key m)) (bt_values m))) ∧
  bt_keys m = nseq (default 0 (bt_first_key m)) (size m) ∧
  Forall (λ c, length c = record_size b) (bt_values m).
Proof.
  unfold write_map. intros Hw.
  destruct (negb _) eqn:Hc in Hw; [done|]. apply negb_false_iff in Hc.
  destruct (negb _) eqn:Hf in Hw; [done|]. apply negb_false_iff in Hf.
  injection Hw as <-. split_and!; [done| |].
  - destruct (bt_last_key m) as [b0|] eqn:Hb.
    + apply N.eqb_eq in Hc. destruct (bt_first_key m) as [a|] eqn:Ha; simpl in *.
      * by destruct (bt_keys_contiguous m a b0 Ha Hb Hc).
      * apply bt_first_key_None in Ha as ->. done.
    + apply bt_last_key_None in Hb as ->. done.
  - rewrite Forall_forall. intros c Hin. rewrite forallb_forall in Hf.
    apply Nat.eqb_eq, Hf. by apply list_elem_of_In.
Qed.

Definition heights_fit (m : gmap N bytes) : Prop := ∀ h, is_Some (m !! h) → h < 2 ^ 32.

Lemma contiguous_fits m a :
  heights_fit m → bt_keys m = nseq a (size m) → a < 2 ^ 32 → a + N.of_nat (size m) ≤ 2 ^ 32.
Proof.
  intros Hfit Hk Ha. destruct (size m) as [|n] eqn:Hn; [lia|].
  assert (Hin : a + N.of_nat n ∈ bt_keys m) by (rewrite Hk; apply elem_of_nseq; lia).
  apply elem_of_bt_keys, Hfit in Hin. lia.
Qed.

(** Records laid on consecutive heights. *)
Definition rows_at (a : N) (l : list bytes) : gmap N bytes :=
  list_to_map (zip (nseq a (length l)) l).

Lemma rows_at_cons a c l : rows_at a (c :: l) = <[a := c]> (rows_at (a + 1) l).
Proof. done. Qed.

Lemma rows_at_lookup a l k :
  rows_at a l !! k = if a <=? k then l !! N.to_nat (k - a) else None.
Proof.
  revert a; induction l as [|c l IH]; intros a.
  - unfold rows_at. simpl. rewrite lookup_empty. by destruct (a <=? k).
  - rewrite rows_at_cons. destruct (decide (a = k)) as [<-|Hne].
    + by rewrite lookup_insert_eq, N.leb_refl, N.sub_diag.
    + rewrite lookup_insert_ne, IH by done. destruct (N.leb_spec a k), (N.leb_spec (a + 1) k); try lia.
      * replace (N.to_nat (k - a)) with (S (N.to_nat (k - (a + 1)))) by lia. done.
      * done.
Qed.

Lemma rows_at_rev a l : list_to_map (rev (zip (nseq a (length l)) l)) = rows_at a l.
Proof.
  symmetry. apply list_to_map_proper; [|apply Permutation_rev].
  rewrite fst_zip by (rewrite length_nseq; lia). clear. generalize (length l). intros n.
  revert a; induction n as [|n IH]; intros a; simpl; constructor; [|done].
  rewrite elem_of_nseq. lia.
Qed.

(** A cache file that holds the map [m]. *)
Definition stored (b : HeaderBackend) (m : gmap N bytes) : Prop :=
  (0 < record_size b)%nat ∧
  (file b = None ∧ m = ∅ ∨
   ∃ a l, file b = Some (image a l) ∧ m = rows_at a l ∧ a < 2 ^ 32 ∧
     a + N.of_nat (length l) ≤ 2 ^ 32 ∧ Forall (λ c, length c = record_size b) l).

Lemma stored_load b m : stored b m → load_map b = Ret (b, m).
Proof.
  intros [Hn [[Hf ->]|(a & l & Hf & -> & Ha & Hb & Hl)]].
  - unfold load_map. by rewrite Hf.
  - destruct b as [f n]. simpl in *. subst f. by rewrite load_image, rows_at_rev.
Qed.

Lemma write_map_stored b m b' :
  (0 < record_size b)%nat → heights_fit m → write_map b m = (b', Ok tt) → stored b' m.
Proof.
  intros Hn Hfit (-> & Hk & Hl)%write_map_Ok. set (a := default 0 _) in *.
  assert (Ha : a < 2 ^ 32).
  { unfold a. destruct (bt_first_key m) as [a'|] eqn:Ha'; simpl; [|lia].
    by apply Hfit, bt_first_key_elem. }
  assert (Hlen : length (bt_values m) = size m)
    by (unfold bt_values; by rewrite length_fmap, length_bt_items).
  split; [done|]. right. exists a, (bt_values m). simpl. split_and!; [done| |done| |done].
  - by rewrite <-rows_at_rev, contiguous_rows.
  - rewrite Hlen. by apply contiguous_fits.
Qed.

Lemma rows_at_bounds a l :
  l ≠ [] → bt_first_key (rows_at a l) = Some a ∧
    bt_last_key (rows_at a l) = Some (a + N.of_nat (length l) - 1).
Proof.
  intros Hl. assert (Hpos : (0 < length l)%nat) by (destruct l; simpl; [done|lia]).
  assert (Hsome : ∀ k, is_Some (rows_at a l !! k) ↔ a ≤ k < a + N.of_nat (length l)).
  { intros k. rewrite rows_at_lookup. destruct (N.leb_spec a k).
    - rewrite lookup_lt_is_Some. lia.
    - split; [by intros [? ?]|lia]. }
  split.
  - destruct (bt_first_key (rows_at a l)) as [k|] eqn:Hk.
    + pose proof (bt_first_key_min _ _ a Hk (proj2 (Hsome a) ltac:(lia))) as Hle.
      apply bt_first_key_elem, Hsome in Hk. unfold key_leb, N_KeyOrd in Hle.
      apply N.leb_le in Hle. f_equal. lia.
    + apply bt_first_key_None in Hk. destruct (proj2 (Hsome a) ltac:(lia)) as [x Hx].
      rewrite Hk in Hx. done.
  - set (z := a + N.of_nat (length l) - 1).
    destruct (bt_last_key (rows_at a l)) as [k|] eqn:Hk.
    + pose proof (bt_last_key_max _ _ z Hk (proj2 (Hsome z) ltac:(unfold z; lia))) as Hle.
      apply bt_last_key_elem, Hsome in Hk. unfold key_leb, N_KeyOrd in Hle.
      apply N.leb_le in Hle. f_equal. unfold z in *. lia.
    + apply bt_last_key_None in Hk. destruct (proj2 (Hsome z) ltac:(unfold z; lia)) as [x Hx].
      rewrite Hk in Hx. done.
Qed.

(** The positional write, on the records: one of them replaced, or one more. *)
Definition put_record (l : list bytes) (i : nat) (data : bytes) : list bytes :=
  take i l ++ data :: drop (S i) l.

Lemma write_at_image n a l i data :
  Forall (λ c, length c = n) l → length data = n → (i ≤ length l)%nat →
  write_at (image a l) (CACHE_PREFIX_LEN + i * n) data = image a (put_record l i data).
Proof.
  intros Hl Hd Hi. unfold write_at, image, put_record, CACHE_PREFIX_LEN.
  rewrite !app_assoc. set (p := CACHE_MAGIC ++ u32_to_le_bytes a).
  assert (Hp : length p = 8%nat) by done.
  rewrite <-Hp, <-Nat.add_assoc, take_app_add, drop_app_add, <-!app_assoc. f_equal.
  assert (Htake : take (i * n) (concat l) = concat (take i l)).
  { rewrite <-(take_drop i l) at 1. rewrite concat_app. apply take_app_length'.
    rewrite (length_concat_records n) by (by apply Forall_take). rewrite length_take, Nat.min_l by lia. lia. }
  rewrite Htake, concat_app. f_equal. simpl. f_equal.
  rewrite Hd. destruct (decide (i = length l)) as [->|Hne].
  - rewrite drop_ge by (rewrite (length_concat_records n) by done; lia).
    by rewrite drop_ge by lia.
  - rewrite <-(take_drop (S i) l) at 1. rewrite concat_app. apply drop_app_length'.
    rewrite (length_concat_records n) by (by apply Forall_take). rewrite length_take, Nat.min_l by lia. lia.
Qed.

Lemma length_put_record l i data :
  (i ≤ length l)%nat → length (put_record l i data) = Nat.max (length l) (S i).
Proof. intros Hi. unfold put_record. rewrite length_app. simpl. rewrite length_take, length_drop. lia. Qed.

Lemma put_record_rows a l h data :
  a ≤ h ≤ a + N.of_nat (length l) →
  rows_at a (put_record l (N.to_nat (h - a)) data) = <[h := data]> (rows_at a l).
Proof.
  intros Hh. apply map_eq. intros k. rewrite rows_at_lookup.
  set (i := N.to_nat (h - a)). assert (Hi : (i ≤ length l)%nat) by lia.
  destruct (decide (h = k)) as [<-|Hne].
  - rewrite lookup_insert_eq. destruct (N.leb_spec a h); [|lia]. fold i. unfold put_record.
    rewrite lookup_app_r; rewrite length_take, Nat.min_l by lia; [|lia].
    by rewrite Nat.sub_diag.
  - rewrite lookup_insert_ne, rows_at_lookup by done. destruct (N.leb_spec a k); [|done].
    unfold put_record. set (j := N.to_nat (k - a)). assert (i ≠ j) by lia.
    destruct (decide (j < i)%nat) as [Hlt|Hge].
    + rewrite lookup_app_l by (rewrite length_take; lia). by rewrite lookup_take_lt.
    + rewrite lookup_app_r; rewrite length_take, Nat.min_l by lia; [|lia].
      replace (j - i)%nat with (S (j - i - 1)) by lia. simpl.
      rewrite lookup_drop. f_equal. lia.
Qed.

Lemma stored_fit b m : stored b m → heights_fit m.
Proof.
  intros [_ [[_ ->]|(a & l & _ & -> & Ha & Hb & _)]] h [x Hx]; [by rewrite lookup_empty in Hx|].
  rewrite rows_at_lookup in Hx. destruct (N.leb_spec a h); [|done].
  apply lookup_lt_Some in Hx. lia.
Qed.

Lemma heights_fit_insert m h data : heights_fit m → h < 2 ^ 32 → heights_fit (<[h := data]> m).
Proof.
  intros Hm Hh k. destruct (decide (h = k)) as [<-|]; [done|]. rewrite lookup_insert_ne by done.
  apply Hm.
Qed.

Lemma set_len_exact (f : bytes) n : length f = n → set_len f n = f.
Proof.
  intros Hn. unfold set_len. rewrite take_ge by lia. rewrite Hn, Nat.sub_diag. apply app_nil_r.
Qed.

Lemma length_image n a l :
  Forall (λ c, length c = n) l → length (image a l) = (CACHE_PREFIX_LEN + length l * n)%nat.
Proof.
  intros Hl. unfold image. rewrite !length_app, (length_concat_records n) by done. done.
Qed.

(** The write in place, on a file of records. *)
Lemma stored_put n a l h data :
  Forall (λ c, length c = n) l → length data = n → (0 < n)%nat →
  a ≤ h ≤ a + N.of_nat (length l) → h < 2 ^ 32 → a + N.of_nat (length l) ≤ 2 ^ 32 →
  stored (mkBackend (Some (image a (put_record l (N.to_nat (h - a)) data))) n)
    (<[h := data]> (rows_at a l)).
Proof.
  intros Hl Hd Hn Hh Hh32 Hfit. split; [exact Hn|]. right.
  exists a, (put_record l (N.to_nat (h - a)) data). cbn [file record_size].
  split; [reflexivity|]. split; [symmetry; by apply put_record_rows|]. split; [lia|]. split.
  - rewrite length_put_record by lia. lia.
  - unfold put_record. apply Forall_app. split; [by apply Forall_take|].
    constructor; [done|by apply Forall_drop].
Qed.

Lemma set_len_put n a l h data :
  Forall (λ c, length c = n) l → length data = n → (0 < length l)%nat →
  a ≤ h ≤ a + N.of_nat (length l) → h < 2 ^ 32 → a + N.of_nat (length l) ≤ 2 ^ 32 →
  h = sat_add u32_max (a + N.of_nat (length l) - 1) 1 →
  set_len (image a (put_record l (N.to_nat (h - a)) data))
    (CACHE_PREFIX_LEN + N.to_nat (h - a + 1) * n) = image a (put_record l (N.to_nat (h - a)) data).
Proof.
  intros Hl Hd Hpos Hh Hh32 Hfit. unfold sat_add, u32_max. intros He.
  apply set_len_exact. rewrite (length_image n).
  - rewrite length_put_record by lia. f_equal. f_equal. lia.
  - unfold put_record. apply Forall_app. split; [by apply Forall_take|].
    constructor; [done|by apply Forall_drop].
Qed.

(** The heights the positional write handles. *)
Lemma in_place_range a h (n : nat) :
  (0 < n)%nat → a ≤ h → (sat_add u32_max (a + N.of_nat n - 1) 1 <? h) = false →
  a ≤ h ≤ a + N.of_nat n.
Proof. unfold sat_add, u32_max. intros Hn Ha Hhi%N.ltb_ge. lia. Qed.

Definition put_in_place (n : nat) (a : N) (l : list bytes) (h : N) (data : bytes) : bytes :=
  let f := write_at (image a l) (CACHE_PREFIX_LEN + N.to_nat (h - a) * n) data in
  if h =? sat_add u32_max (a + N.of_nat (length l) - 1) 1
  then set_len f (CACHE_PREFIX_LEN + N.to_nat (h - a + 1) * n) else f.

Lemma put_in_place_stored n a l h data :
  Forall (λ c, length c = n) l → length data = n → (0 < n)%nat → (0 < length l)%nat →
  a ≤ h ≤ a + N.of_nat (length l) → h < 2 ^ 32 → a + N.of_nat (length l) ≤ 2 ^ 32 →
  stored (mkBackend (Some (put_in_place n a l h data)) n) (<[h := data]> (rows_at a l)).
Proof.
  intros Hl Hd Hn Hpos Hh Hh32 Hfit. unfold put_in_place.
  rewrite write_at_image by (done || (clear -Hh; lia)).
  destruct (N.eqb_spec h (sat_add u32_max (a + N.of_nat (length l) - 1) 1)) as [He|_].
  - rewrite set_len_put; [by apply stored_put|done..].
  - by apply stored_put.
Qed.

Lemma put_row_positional_stored b m h data b' :
  stored b m → h < 2 ^ 32 → put_row_positional b (pretty h) data = Ret (b', Ok tt) →
  stored b' (<[h := data]> m).
Proof.
  intros Hs Hh. pose proof (stored_fit _ _ Hs) as Hfit.
  pose proof (stored_load _ _ Hs) as Hload. pose proof Hs as [Hn Hfile].
  unfold put_row_positional. destruct (Nat.eqb_spec (length data) (record_size b)) as [Hd|]; [|done].
  cbn [negb]. rewrite parse_key_pretty, Hload by done. cbn [obind].
  destruct (bt_first_key m) as [a0|] eqn:Hfirst.
  - destruct Hfile as [[_ ->]|(a & l & Hf & -> & Ha & Hb & Hl)]; [done|].
    assert (Hne : l ≠ []) by (intros ->; done).
    assert (Hpos : (0 < length l)%nat) by (clear -Hne; destruct l; simpl; [done|lia]).
    destruct (rows_at_bounds a l Hne) as [Hfk Hlk]. rewrite Hfk in Hfirst. injection Hfirst as <-.
    rewrite Hlk. unfold default, from_option, id. destruct (_ || _) eqn:Hrange.
    { intros [= Hw]. eapply write_map_stored; [done| |done]. by apply heights_fit_insert. }
    apply orb_false_iff in Hrange as [Hlo%N.ltb_ge Hhi]. rewrite Hf. intros Hret.
    apply in_place_range in Hhi; [|done..].
    assert (b' = mkBackend (Some (put_in_place (record_size b) a l h data)) (record_size b)) as ->
      by (unfold put_in_place, set_file in *; congruence).
    by apply put_in_place_stored.
  - apply bt_first_key_None in Hfirst as ->. intros [= Hw].
    eapply write_map_stored; [done| |exact Hw]. by apply heights_fit_insert.
Qed.

Lemma remove_rows_Ok hs m :
  Forall (λ h, h < 2 ^ 32) hs →
  remove_rows (pretty <$> hs) m = Ok (foldl (λ m h, delete h m) m hs).
Proof.
  intros Hh. revert m; induction Hh as [|h hs Hh Hhs IH]; intros m; [done|]. csimpl.
  rewrite parse_key_pretty by done. apply IH.
Qed.

Lemma insert_rows_Ok n rows m m' :
  Forall (λ row : N * bytes, row.1 < 2 ^ 32) rows →
  insert_rows n (prod_map pretty id <$> rows) m = Ok m' →
  m' = foldl (λ m row, <[row.1 := row.2]> m) m rows ∧
  Forall (λ row : N * bytes, length row.2 = n) rows.
Proof.
  intros Hr. revert m; induction Hr as [|[h d] rows Hh Hr IH]; intros m; csimpl.
  { intros [= <-]. done. }
  destruct (Nat.eqb_spec (length d) n) as [Hd|]; simpl; [|done].
  rewrite parse_key_pretty by done. simpl. intros [-> Hall]%IH. split; [done|]. by constructor.
Qed.

(** What the header cache writes it reads back: after a map of heights was
    written, loading the file gives that map. *)
Theorem write_map_load (b b' : HeaderBackend) (m : gmap N bytes)
    (Hsize : (0 < record_size b)%nat) (Hfit : heights_fit m)
    (Hw : write_map b m = (b', Ok tt)) :
  load_map b' = Ret (b', m).
Proof. by eapply stored_load, write_map_stored. Qed.

(** A batch on the header cache has the effect of removing its keys and then
    putting its rows, whether it rewrites the file or, for one row, writes in
    place: a file that held a map holds, after a batch that succeeds, that map
    updated, and loads as it. *)
Theorem flush_batch_stored (b b' : HeaderBackend) (m : gmap N bytes) (store : string)
    (rows : list (N * bytes)) (gone : list N)
    (Hs : stored b m)
    (Hrows : Forall (λ row : N * bytes, row.1 < 2 ^ 32) rows) (Hgone : Forall (λ h, h < 2 ^ 32) gone)
    (Hf : hb_flush_batch b store (prod_map pretty id <$> rows) (pretty <$> gone)
          = Ret (b', Ok tt)) :
  let m' := foldl (λ m row, <[row.1 := row.2]> m) (foldl (λ m h, delete h m) m gone) rows in
  stored b' m' ∧ load_map b' = Ret (b', m').
Proof.
  intros m'. assert (Hst : stored b' m'); [|split; [done|by apply stored_load]].
  revert Hf. unfold hb_flush_batch. destruct (validate_store_name store); [|done].
  assert (Hgen : (let! (b, rows0) := load_map b in
    match remove_rows (pretty <$> gone) rows0 with
    | Err e => Ret (b, Err e)
    | Ok rows0 =>
        match insert_rows (record_size b) (prod_map pretty id <$> rows) rows0 with
        | Err e => Ret (b, Err e)
        | Ok rows0 => Ret (write_map b rows0)
        end
    end) = Ret (b', Ok tt) → stored b' m').
  { rewrite (stored_load _ _ Hs). cbn [obind]. rewrite remove_rows_Ok by done.
    destruct (insert_rows _ _ _) as [r|] eqn:Hi; [|done]. intros [= Hw].
    apply insert_rows_Ok in Hi as [-> _]; [|done]. fold m' in Hw.
    eapply write_map_stored; [apply Hs| |exact Hw]. unfold m'.
    assert (Hfit : heights_fit (foldl (λ m h, delete h m) m gone)).
    { pose proof (stored_fit _ _ Hs) as Hfit. clear -Hfit. revert m Hfit.
      induction gone as [|h gone IH]; intros m Hfit; [done|]. simpl. apply IH.
      intros k Hk. apply Hfit. by apply lookup_delete_is_Some in Hk as [_ ?]. }
    clear -Hfit Hrows. revert Hfit. generalize (foldl (λ m h, delete h m) m gone).
    induction Hrows as [|[h d] rows Hh Hr IH]; intros m0 Hm0; [done|]. simpl. apply IH.
    by apply heights_fit_insert. }
  destruct gone as [|g gone]; [|exact Hgen].
  destruct rows as [|[h d] [|]]; [exact Hgen| |exact Hgen].
  simpl. apply Forall_cons in Hrows as [Hh _]. by apply put_row_positional_stored.
Qed.
End proofs.

(** *** Witnesses *)
Module Witness.
#[export] Instance checked : Build := true.

Definition fresh : HeaderBackend := mkBackend None 2.
Definition rows2 : gmap N bytes := {[ 4 := [1; 2]; 5 := [3; 4] ]}.
Definition written : HeaderBackend := (write_map fresh rows2).1.

Lemma rows2_fit : heights_fit rows2.
Proof.
  intros h [x Hx]. unfold rows2 in Hx.
  apply lookup_insert_Some in Hx as [[<- _]|[_ Hx]]; [done|].
  by apply lookup_singleton_Some in Hx as [<- _].
Qed.

Lemma write_map_load_witness :
  write_map fresh rows2 = (written, Ok tt) ∧ load_map written = Ret (written, rows2).
Proof.
  split; [vm_compute; reflexivity|].
  apply (write_map_load fresh written rows2); [simpl; lia|apply rows2_fit|].
  vm_compute. reflexivity.
Defined.

(** One more record, written in place. *)
Lemma flush_batch_stored_witness :
  ∃ b', hb_flush_batch written HEADERS_STORE_KEY (prod_map pretty id <$> [(6, [5; 6])]) []
          = Ret (b', Ok tt) ∧
    load_map b' = Ret (b', <[6 := [5; 6]]> rows2).
Proof.
  eexists. split; [vm_compute; reflexivity|].
  apply (flush_batch_stored written _ rows2 HEADERS_STORE_KEY [(6, [5; 6])] []).
  - apply (write_map_stored fresh); [simpl; lia|apply rows2_fit|vm_compute; reflexivity].
  - by repeat constructor.
  - constructor.
  - vm_compute. reflexivity.
Defined.
End Witness.
End HeaderBackend.
