(* ===== verification/HeaderValidator.v ===== *)
(** * The header validator (electrum/src/header_validator.rs, checkpoint.rs)

    The consensus checks a header must pass to extend a chain, and the checkpoint
    the consumer may supply. Hashing, target arithmetic and the network
    parameters belong to the [bitcoin] crate: fields of [HeaderLib]. The main
    property is that [validate_append] accepts exactly the headers that satisfy
    the declarative rules [valid_header]. *)
From stdpp Require Import base gmap list sorting strings.
From S2P Require Import Prelude Bitcoin.

Module HeaderValidator.

(** [block::Header]. *)
Record Header := mkHeader {
  h_version : N;
  prev_blockhash : BlockHash;
  merkle_root : N;
  time : N;
  bits : N;
  nonce : N
}.
#[export] Instance Header_eqdec : EqDecision Header.
Proof. solve_decision. Defined.

(** The fields of [Params] the validator reads. *)
Record Params := mkParams {
  max_attainable_target : N;
  pow_target_timespan : N;
  pow_target_spacing : N;
  no_pow_retargeting : bool
}.

(** A serialized header: its 80 bytes. *)
Abbreviation raw_header := (list N).

Class HeaderLib := {
  block_hash : Header → BlockHash;
  target_of_bits : N → N;                        (* Header::target *)
  work_of_bits : N → N;                          (* Header::work *)
  validate_pow : Header → N → bool;              (* Header::validate_pow is Ok *)
  from_next_work_required : N → N → Params → N;  (* CompactTarget::from_next_work_required *)
  params : Network → Params;                     (* Params::new *)
  genesis_hash : Network → BlockHash;            (* genesis_block(..).block_hash() *)
  deserialize : raw_header → option Header;      (* consensus::deserialize *)
  sha256d_pair : N → N → N                       (* sha256d of two 32-byte nodes *)
}.

(** Documented behaviour of the crate. *)
Class HeaderLaws `{HeaderLib} := {
  (** [validate_pow] checks that the header's target is the required one and that
      the block hash meets it. *)
  validate_pow_spec h t :
    validate_pow h t = true ↔ target_of_bits (bits h) = t ∧ block_hash h ≤ t;
  (** Every network retargets on the same, positive, interval. *)
  interval_pos n : 0 < pow_target_timespan (params n) / pow_target_spacing (params n);
  interval_same n n' :
    pow_target_timespan (params n) / pow_target_spacing (params n) =
    pow_target_timespan (params n') / pow_target_spacing (params n')
}.

Definition MAX_FUTURE_BLOCK_TIME : N := 7200.
Definition MTP_WINDOW : nat := 11.

Inductive Error :=
  | Pow | PrevHashMismatch | BadRetarget | BitsMismatch | MtpViolation
  | TimestampTooFarInFuture | GenesisMismatch | MissingAncestor | MalformedHeader.

Section validator.
Context `{HeaderLib}.

Definition expected_genesis (network : Network) : option BlockHash :=
  match network with
  | Bitcoin | Signet | Testnet | Testnet4 => Some (genesis_hash network)
  | Regtest => None
  end.

Definition check_pow (params : Params) (incoming : Header) : result unit Error :=
  let target := N.min (target_of_bits (bits incoming)) (max_attainable_target params) in
  if validate_pow incoming target then Ok tt else Err Pow.

Definition check_linkage (prev incoming : Header) : result unit Error :=
  if prev_blockhash incoming =? block_hash prev then Ok tt else Err PrevHashMismatch.

Definition check_genesis (network : Network) (incoming : Header) : result unit Error :=
  match expected_genesis network with
  | Some g => if negb (block_hash incoming =? g) then Err GenesisMismatch else Ok tt
  | None => Ok tt
  end.

Definition check_future_cap (incoming : Header) (now_secs : N) : result unit Error :=
  if sat_add u64_max now_secs MAX_FUTURE_BLOCK_TIME <? time incoming
  then Err TimestampTooFarInFuture else Ok tt.

Definition retarget_interval (params : Params) : N :=
  pow_target_timespan params / pow_target_spacing params.

(** The index below is in range: the guard before it says so. *)
Definition check_retarget (params : Params) (ancestors : list Header) (incoming_height : N)
    (prev incoming : Header) : result unit Error :=
  if no_pow_retargeting params then Ok tt
  else
    let interval := retarget_interval params in
    if incoming_height mod interval =? 0 then
      if (length ancestors <? N.to_nat interval)%nat then Err MissingAncestor
      else
        match ancestors !! (length ancestors - N.to_nat interval)%nat with
        | None => Err MissingAncestor
        | Some period_start =>
            (* (prev.time as i64 - period_start.time as i64).max(0) *)
            let actual_timespan := time prev - time period_start in
            let expected := from_next_work_required (bits prev) actual_timespan params in
            if negb (bits incoming =? expected) then Err BadRetarget else Ok tt
        end
    else if negb (bits incoming =? bits prev) then Err BitsMismatch else Ok tt.

(** [median_time], of a non-empty list. *)
Definition median_time (times : list N) : N :=
  default 0 (sort_by N.leb times !! (length times / 2)%nat).

Definition check_mtp (network : Network) (ancestors : list Header) (incoming : Header) :
    result unit Error :=
  match network with
  | Regtest => Ok tt
  | _ =>
      if (length ancestors =? 0)%nat then Ok tt
      else
        let window := Nat.min (length ancestors) MTP_WINDOW in
        let ts := time <$> drop (length ancestors - window) ancestors in
        let median := median_time ts in
        if time incoming <=? median then Err MtpViolation else Ok tt
  end.

Definition validate_append (network : Network) (ancestors : list Header) (incoming_height : N)
    (incoming : Header) (now_secs : N) : result unit Error :=
  try! _ := check_future_cap incoming now_secs in
  let params := params network in
  if incoming_height =? 0 then
    try! _ := check_genesis network incoming in check_pow params incoming
  else
    try! prev := ok_or (last ancestors) MissingAncestor in
    try! _ := check_pow params incoming in
    try! _ := check_linkage prev incoming in
    try! _ :=
      match network with
      | Testnet | Testnet4 => Ok tt
      | _ => check_retarget params ancestors incoming_height prev incoming
      end in
    check_mtp network ancestors incoming.

(** [struct Checkpoint] and [Checkpoint::new]. *)
Record Checkpoint := mkCheckpoint { cp_height : N; cp_hash : BlockHash }.
Inductive CheckpointError := NotRetargetBoundary (height interval : N).
Definition checkpoint_new (height : N) (hash : BlockHash) : result Checkpoint CheckpointError :=
  let interval := retarget_interval (params Bitcoin) in
  if negb (height mod interval =? 0) then Err (NotRetargetBoundary height interval)
  else Ok (mkCheckpoint height hash).
End validator.

(** ** The declarative rules *)

Section spec.
Context `{HeaderLib}.

(** Proof of work: the header's own target is attainable on the network, and its
    hash meets it. *)
Definition pow_ok (network : Network) (h : Header) : Prop :=
  target_of_bits (bits h) ≤ max_attainable_target (params network) ∧
  block_hash h ≤ target_of_bits (bits h).

(** Later than the median: more than half of the last (at most 11) times are
    strictly before. *)
Definition after_median (ancestors : list Header) (h : Header) : Prop :=
  let window := drop (length ancestors - MTP_WINDOW) ancestors in
  (length window / 2 < length (List.filter (λ a, time a <? time h)%N window))%nat.

Definition retarget_ok (network : Network) (ancestors : list Header) (height : N)
    (prev h : Header) : Prop :=
  let p := params network in
  let interval := retarget_interval p in
  no_pow_retargeting p = true ∨
  (height mod interval ≠ 0 ∧ bits h = bits prev) ∨
  (height mod interval = 0 ∧ ∃ older start newer,
     ancestors = older ++ start :: newer ∧ N.of_nat (length newer) + 1 = interval ∧
     bits h = from_next_work_required (bits prev) (time prev - time start) p).

Definition valid_header (network : Network) (ancestors : list Header) (height : N) (h : Header)
    (now : N) : Prop :=
  time h ≤ sat_add u64_max now MAX_FUTURE_BLOCK_TIME ∧ pow_ok network h ∧
  (height = 0 ∧ (∀ g, expected_genesis network = Some g → block_hash h = g) ∨
   height ≠ 0 ∧ ∃ prev, last ancestors = Some prev ∧ prev_blockhash h = block_hash prev ∧
     (network ≠ Testnet → network ≠ Testnet4 → retarget_ok network ancestors height prev h) ∧
     (network ≠ Regtest → after_median ancestors h)).
End spec.

(** ** Proofs *)

Section proofs.
Context `{HeaderLib} `{!HeaderLaws}.

Lemma check_pow_Ok network h : check_pow (params network) h = Ok tt ↔ pow_ok network h.
Proof.
  unfold check_pow, pow_ok. set (t := target_of_bits (bits h)). set (m := max_attainable_target _).
  destruct (validate_pow h (N.min t m)) eqn:Hv.
  - apply validate_pow_spec in Hv as [Ht Hh]. fold t in Ht, Hh. split; [lia|done].
  - split; [done|]. intros [Hm Hh]. assert (validate_pow h (N.min t m) = true); [|congruence].
    apply validate_pow_spec. fold t. lia.
Qed.

Lemma check_genesis_Ok network h :
  check_genesis network h = Ok tt ↔ ∀ g, expected_genesis network = Some g → block_hash h = g.
Proof.
  unfold check_genesis. destruct (expected_genesis network) as [g|]; [|naive_solver].
  destruct (N.eqb_spec (block_hash h) g); naive_solver.
Qed.

Lemma check_retarget_Ok network ancestors height prev h :
  check_retarget (params network) ancestors height prev h = Ok tt ↔
  retarget_ok network ancestors height prev h.
Proof.
  unfold check_retarget, retarget_ok. set (p := params network).
  assert (Hpos : 0 < retarget_interval p) by apply interval_pos.
  destruct (no_pow_retargeting p); [naive_solver|].
  destruct (N.eqb_spec (height mod retarget_interval p) 0) as [Hb|Hb].
  - destruct (Nat.ltb_spec (length ancestors) (N.to_nat (retarget_interval p))) as [Hlt|Hge].
    { split; [done|]. intros [?|[[? ?]|(_ & older & s & newer & -> & Hlen & _)]]; [done..|].
      rewrite length_app in Hlt. simpl in Hlt. lia. }
    set (k := (length ancestors - N.to_nat (retarget_interval p))%nat).
    destruct (ancestors !! k) as [s|] eqn:Hs.
    + pose proof (take_drop_middle _ _ _ Hs) as Hsplit.
      assert (Hlen : N.of_nat (length (drop (S k) ancestors)) + 1 = retarget_interval p)
        by (rewrite length_drop; unfold k; lia).
      destruct (N.eqb_spec (bits h) (from_next_work_required (bits prev) (time prev - time s) p))
        as [He|He]; simpl.
      * split; [|done]. intros _. right. right. split; [done|].
        by exists (take k ancestors), s, (drop (S k) ancestors).
      * split; [done|]. intros [?|[[? ?]|(_ & older & s' & newer & Ha & Hlen' & Hbits)]]; [done..|].
        exfalso. apply He. rewrite Hbits. repeat f_equal.
        assert (ancestors !! k = Some s'); [|congruence].
        rewrite Ha. apply list_lookup_middle. unfold k. rewrite Ha, length_app. simpl. lia.
    + apply lookup_ge_None in Hs. unfold k in Hs. lia.
  - destruct (N.eqb_spec (bits h) (bits prev)); naive_solver.
Qed.

Lemma sorted_count_lt (l : list N) x k :
  StronglySorted (λ a b, N.leb a b = true) l → (k < length l)%nat →
  (default 0 (l !! k) < x ↔ (k < length (List.filter (λ y, y <? x)%N l))%nat).
Proof.
  intros Hs. revert k. induction Hs as [|y l Hs IH Hy]; intros k Hk; [simpl in Hk; lia|].
  cbn [List.filter]. destruct (N.ltb_spec y x) as [Hlt|Hge].
  - destruct k as [|k]; cbn [lookup list_lookup length default from_option id].
    + split; [lia|done].
    + rewrite IH by (simpl in Hk; lia). lia.
  - assert (Hnil : List.filter (λ y, y <? x)%N l = []).
    { clear -Hy Hge. induction Hy as [|z l Hz Hy IH]; [done|]. simpl. apply N.leb_le in Hz.
      destruct (N.ltb_spec z x); [lia|done]. }
    rewrite Hnil. simpl length. split; [|lia]. intros Hlt. exfalso.
    destruct k as [|k]; cbn [lookup list_lookup] in Hlt; [simpl in Hlt; lia|].
    destruct (l !! k) as [z|] eqn:Hz; simpl in Hlt.
    + rewrite Forall_forall in Hy. specialize (Hy z (list_elem_of_lookup_2 _ _ _ Hz)).
      apply N.leb_le in Hy. lia.
    + apply lookup_ge_None in Hz. simpl in Hk. lia.
Qed.

Lemma median_time_lt (ts : list N) x :
  ts ≠ [] →
  (median_time ts < x ↔ (length ts / 2 < length (List.filter (λ y, y <? x)%N ts))%nat).
Proof.
  intros Hne. unfold median_time.
  assert (Hlen : length (sort_by N.leb ts) = length ts) by (by rewrite sort_by_perm).
  assert (0 < length ts)%nat by (destruct ts; simpl; [done|lia]).
  rewrite sorted_count_lt.
  - assert (Hf : ∀ l l' : list N, l ≡ₚ l' →
      length (List.filter (λ y, y <? x)%N l) = length (List.filter (λ y, y <? x)%N l')).
    { clear. induction 1; simpl; repeat case_match; simpl; lia. }
    by rewrite (Hf _ _ (sort_by_perm N.leb ts)).
  - apply sort_by_sorted; intros *; rewrite !N.leb_le; lia.
  - rewrite Hlen. apply Nat.div_lt; lia.
Qed.

Lemma check_mtp_Ok network ancestors h :
  ancestors ≠ [] →
  (check_mtp network ancestors h = Ok tt ↔ (network ≠ Regtest → after_median ancestors h)).
Proof.
  intros Hne. assert (Hlen : (0 < length ancestors)%nat) by (destruct ancestors; simpl; [done|lia]).
  unfold after_median. set (w := drop (length ancestors - MTP_WINDOW) ancestors).
  assert (Hw : drop (length ancestors - Nat.min (length ancestors) MTP_WINDOW) ancestors = w)
    by (unfold w; f_equal; lia).
  assert (Hwne : time <$> w ≠ []).
  { intros Hnil%fmap_nil_inv. apply (f_equal length) in Hnil. unfold w in Hnil.
    rewrite length_drop in Hnil. unfold MTP_WINDOW in Hnil. simpl in Hnil. lia. }
  assert (Hcount : length (List.filter (λ y, y <? time h)%N (time <$> w)) =
                   length (List.filter (λ a, time a <? time h)%N w)).
  { clear. induction w as [|a w IH]; [done|]. csimpl. destruct (time a <? time h)%N; simpl; auto. }
  assert (Hcase : (if time h <=? median_time (time <$> w) then Err MtpViolation else Ok tt) = Ok tt ↔
    (length w / 2 < length (List.filter (λ a, time a <? time h)%N w))%nat).
  { rewrite <-Hcount, <-(length_fmap time w), <-median_time_lt by done.
    destruct (N.leb_spec (time h) (median_time (time <$> w))); split; try done; lia. }
  unfold check_mtp. rewrite (proj2 (Nat.eqb_neq (length ancestors) 0)) by lia. rewrite Hw.
  destruct network; try (rewrite Hcase; naive_solver). naive_solver.
Qed.

Lemma validate_append_Ok network ancestors height h now :
  validate_append network ancestors height h now = Ok tt ↔
  valid_header network ancestors height h now.
Proof.
  unfold validate_append, valid_header, check_future_cap.
  destruct (N.ltb_spec (sat_add u64_max now MAX_FUTURE_BLOCK_TIME) (time h)) as [Hf|Hf]; cbn [rbind].
  { split; [done|]. intros [Hle _]. lia. }
  destruct (N.eqb_spec height 0) as [->|Hh].
  - rewrite rbind_Ok. setoid_rewrite check_pow_Ok. split.
    + intros ([] & Hg & Hp). rewrite check_genesis_Ok in Hg. split_and!; [done|done|]. by left.
    + intros (_ & Hp & [[_ Hg]|[? _]]); [|done]. exists tt. by rewrite check_genesis_Ok.
  - destruct (last ancestors) as [prev|] eqn:Hlast; cbn [ok_or rbind].
    2:{ split; [done|]. intros (_ & _ & [[? _]|(_ & prev & ? & _)]); done. }
    assert (Hne : ancestors ≠ []) by (intros ->; done).
    assert (Hret : match network with Testnet | Testnet4 => Ok tt
        | _ => check_retarget (params network) ancestors height prev h end = Ok tt ↔
      (network ≠ Testnet → network ≠ Testnet4 → retarget_ok network ancestors height prev h)).
    { destruct network; try (rewrite check_retarget_Ok; naive_solver); naive_solver. }
    rewrite !rbind_Ok. setoid_rewrite rbind_Ok. setoid_rewrite rbind_Ok.
    setoid_rewrite check_mtp_Ok; [|done]. split.
    + intros ([] & Hp%check_pow_Ok & [] & Hl & [] & Hr & Hm). rewrite Hret in Hr.
      split_and!; [done|done|]. right. split; [done|]. exists prev. split_and!; try done.
      revert Hl. unfold check_linkage. by destruct (N.eqb_spec (prev_blockhash h) (block_hash prev)).
    + intros (_ & Hp & [[? _]|(_ & prev' & [= <-] & Hl & Hr & Hm)]); [done|].
      exists tt. rewrite check_pow_Ok. split; [done|]. exists tt. split.
      { unfold check_linkage. by rewrite Hl, N.eqb_refl. }
      exists tt. by rewrite Hret.
Qed.

(** C21. The validator accepts exactly the headers that follow the rules: not
    more than two hours ahead of the clock, proof of work within the network's
    limit, the pinned hash at height 0, and above it a parent, the parent's hash,
    the retarget rule (except on the two test networks) and a time after the
    median of the last eleven (except on regtest). *)
Theorem validate_append_iff (network : Network) (ancestors : list Header) (height : N)
    (h : Header) (now : N) :
  validate_append network ancestors height h now = Ok tt ↔
  valid_header network ancestors height h now.
Proof. apply validate_append_Ok. Qed.

(** A header accepted once is accepted at any later time. *)
Lemma validate_append_later network ancestors height h now now' :
  now ≤ now' → validate_append network ancestors height h now = Ok tt →
  validate_append network ancestors height h now' = Ok tt.
Proof.
  intros Hle. rewrite !validate_append_Ok. intros (Ht & Hrest). split; [|done].
  unfold sat_add in *. lia.
Qed.
End proofs.

(** The parameters instantiated: a header is six numbers, its hash is its nonce,
    its target its bits, and a retarget period is four blocks. *)
Module Sample.
#[export] Instance sample_headers : HeaderLib := {|
  block_hash := nonce;
  target_of_bits := λ b, b;
  work_of_bits := λ b, 1000000 / (b + 1);
  validate_pow := λ h t, (bits h =? t) && (nonce h <=? t);
  from_next_work_required := λ b span p,
    N.min (b * N.max 1 (span / 4)) (max_attainable_target p);
  params := λ n, mkParams 100000 4 1 (bool_decide (n = Regtest));
  genesis_hash := λ _, 7;
  deserialize := λ raw,
    match raw with [v; p; m; t; b; n] => Some (mkHeader v p m t b n) | _ => None end;
  sha256d_pair := λ a b, (31 * a + 17 * b + 5) mod 2 ^ 256
|}.

#[export] Instance sample_header_laws : HeaderLaws.
Proof.
  split; [|done..]. intros h t. simpl. rewrite andb_true_iff, N.eqb_eq, N.leb_le. naive_solver.
Qed.

Definition hdr (prev time nonce : N) : Header := mkHeader 1 prev 0 time 1000 nonce.
Definition raw (prev time nonce : N) : raw_header := [1; prev; 0; time; 1000; nonce].
End Sample.

Module Witness.
Import Sample.
Lemma validate_append_iff_witness :
  validate_append Bitcoin [hdr 0 100 7] 1 (hdr 7 101 8) 1000 = Ok tt ↔
  valid_header Bitcoin [hdr 0 100 7] 1 (hdr 7 101 8) 1000.
Proof. apply validate_append_iff. Defined.
Example validate_append_run :
  validate_append Bitcoin [hdr 0 100 7] 1 (hdr 7 101 8) 1000 = Ok tt ∧
  validate_append Bitcoin [hdr 0 100 7] 1 (hdr 7 100 8) 1000 = Err MtpViolation ∧
  validate_append Bitcoin [hdr 0 100 7] 1 (hdr 6 101 8) 1000 = Err PrevHashMismatch.
Proof. done. Qed.
End Witness.
End HeaderValidator.
