(* ===== verification/HeaderStore.v ===== *)
(** * The validated header chain (electrum/src/header_store.rs)

    The store's mutators, all under the writer token: [append], [append_batch],
    [replace_branch], [prepend], [wipe]; the checkpoint rule; the reload checks
    [sanity_check] and [replay_validate]; candidate branches and the decision to
    switch to one; merkle branches. Written against the [Store] interface. The
    clock is a parameter of each call. Events sent to listeners are a log. The
    server connection, the worker loop and its threads are not modelled here. *)
From stdpp Require Import base gmap list sorting strings pretty.
From S2P Require Import Prelude Bitcoin Persist HeaderBackend HeaderValidator.

Module HeaderStore.
Import Persist HeaderValidator.

(** ** Codecs of the rows *)

Definition HEADER_SIZE : nat := 80.
Definition encode_height (k : N) : string := pretty k.
Definition decode_height (s : string) : result N PersistError :=
  ok_or (HeaderBackend.parse_u32 s) Io.
Definition encode_header (v : raw_header) : result bytes PersistError := Ok v.
Definition decode_header (b : bytes) : result raw_header PersistError :=
  if (length b =? HEADER_SIZE)%nat then Ok b else Err Io.

Section load.
Context {B : Type} `{PersistenceBackend B}.

(** [load]: a chain that cannot be decoded is dropped. *)
Definition load (backend : B) : RamStore B N raw_header :=
  match ram_open backend HEADERS_STORE_KEY encode_height decode_height encode_header
          decode_header with
  | Ok store => store
  | Err _ => ram_empty backend HEADERS_STORE_KEY encode_height encode_header
  end.
End load.

Inductive InvalidCause :=
  | CValidator (e : HeaderValidator.Error)
  | CStoreRead (e : PersistError)
  | CSanity
  | CCheckpoint.

Inductive HeaderValidationState :=
  | Unchecked | Validating | Valid | Invalid (c : InvalidCause).

Inductive HeaderProgressPhase := Replay | InitialSync.

Inductive HeaderProgressEvent :=
  | Started (phase : HeaderProgressPhase) (start e : N)
  | Progress (phase : HeaderProgressPhase) (current e : N)
  | Completed (phase : HeaderProgressPhase)
  | Failed (phase : HeaderProgressPhase).

Inductive MutateError :=
  | Validate (e : HeaderValidator.Error)
  | EPersist (e : PersistError)
  | BadAnchor
  | ECheckpoint
  | Unlinked.

(** What the store's listeners see. *)
Inductive Event :=
  | ChainTick                        (* notify_listeners *)
  | CheckpointRefused                (* notifications: checkpoint_refused *)
  | ValidationFailed (c : InvalidCause)
  | ProgressEvent (e : HeaderProgressEvent).

(** [fold] over the siblings: the running node and position. *)
Definition verify_merkle_branch `{HeaderLib} (txid : Txid) (branch : list N) (pos : N)
    (expected_root : N) : bool :=
  if (length branch <? 32)%nat && (2 ^ N.of_nat (length branch) <=? pos) then false
  else
    let '(node, _) :=
      foldl (λ '(node, idx) sibling,
        (if N.land idx 1 =? 0 then sha256d_pair node sibling else sha256d_pair sibling node,
         N.shiftr idx 1)) (txid, pos) branch in
    node =? expected_root.

Section chain.
Context `{HeaderLib} (network : Network).

(** [retarget_interval(network)], also [backfill_chunk]. *)
Definition chain_interval : N := HeaderValidator.retarget_interval (params network).

(** The loop of [collect_ancestors]; [k] steps at most [h] times. *)
Fixpoint collect_loop (get : N → option raw_header) (fuel : nat) (k lo : N)
    (out : list Header) : list Header :=
  match fuel with
  | O => out
  | S fuel =>
      match get k ≫= deserialize with
      | None => out
      | Some hdr =>
          let out := out ++ [hdr] in
          if k =? lo then out else collect_loop get fuel (k - 1) lo out
      end
  end.

Definition collect_ancestors (h max : N) (get : N → option raw_header) : list Header :=
  if h =? 0 then []
  else
    let lo := h - max in
    rev (collect_loop get (N.to_nat h) (h - 1) lo []).

Definition decode_ancestors (headers : gmap N raw_header) (incoming_height max : N) :
    list Header :=
  collect_ancestors incoming_height max (λ k, headers !! k).

Definition holds_checkpoint (checkpoint : option Checkpoint) (h : N) (raw : raw_header) : bool :=
  match checkpoint with
  | None => true
  | Some c =>
      negb (h =? cp_height c) ||
      match deserialize raw with Some hdr => block_hash hdr =? cp_hash c | None => false end
  end.

(** Where a chain without a checkpoint starts. *)
Definition snap (h : N) : N := h - h mod chain_interval.
Definition backfill_floor (tip_h : N) : N := snap tip_h - chain_interval.

(** The last two tests of [sanity_check]. *)
Definition genesis_row_ok (headers : gmap N raw_header) : bool :=
  match expected_genesis network with
  | Some genesis =>
      match headers !! 0 with
      | Some raw =>
          match deserialize raw with
          | Some hdr => block_hash hdr =? genesis
          | None => false
          end
      | None => true
      end
  | None => true
  end.
Definition contradicts (checkpoint : option Checkpoint) (headers : gmap N raw_header) : bool :=
  match checkpoint with
  | Some c =>
      match headers !! cp_height c with
      | Some raw => negb (holds_checkpoint checkpoint (cp_height c) raw)
      | None => false
      end
  | None => false
  end.

Definition sanity_check (checkpoint : option Checkpoint) (headers : gmap N raw_header) :
    result unit InvalidCause :=
  match bt_first_key headers, bt_last_key headers with
  | Some min, Some max =>
      if negb (max - min + 1 =? N.of_nat (size headers)) then Err CSanity
      else if negb (min =? 0) && negb (min mod chain_interval =? 0) then Err CSanity
      else if negb (genesis_row_ok headers) then Err CSanity
      else if contradicts checkpoint headers then Err CCheckpoint
      else Ok tt
  | _, _ => Ok tt
  end.

(** Push a header on the rolling window of the last [chain_interval] ones. *)
Definition push_window (ancestors : list Header) (header : Header) : list Header :=
  let ancestors := ancestors ++ [header] in
  if chain_interval <? N.of_nat (length ancestors) then tail ancestors else ancestors.

Fixpoint replay_loop (now_secs min : N) (ancestors : list Header)
    (rows : list (N * raw_header)) : result unit HeaderValidator.Error :=
  match rows with
  | [] => Ok tt
  | (h, raw) :: rows =>
      try! header := ok_or (deserialize raw) MalformedHeader in
      try! _ :=
        if h =? 0 then validate_append network [] h header now_secs
        else if min <? h then validate_append network ancestors h header now_secs
        else check_pow (params network) header in
      replay_loop now_secs min (push_window ancestors header) rows
  end.

Definition replay_validate (now_secs : N) (headers : gmap N raw_header) :
    result unit HeaderValidator.Error :=
  match bt_first_key headers with
  | None => Ok tt
  | Some min => replay_loop now_secs min [] (bt_items headers)
  end.

(** [struct HeaderBranch]. *)
Record HeaderBranch := mkBranch {
  branch_headers : gmap N raw_header;
  chainwork : N
}.

(** The loop of [HeaderBranch::validate] over the heights of the branch. *)
Fixpoint branch_loop (now_secs : N) (buffer combined : gmap N raw_header)
    (branch : HeaderBranch) (heights : list N) : result HeaderBranch HeaderValidator.Error :=
  match heights with
  | [] => Ok branch
  | h :: heights =>
      try! raw := ok_or (buffer !! h) MissingAncestor in
      try! header := ok_or (deserialize raw) MalformedHeader in
      let ancestors := decode_ancestors combined h chain_interval in
      try! _ := validate_append network ancestors h header now_secs in
      branch_loop now_secs buffer (<[h := raw]> combined)
        (mkBranch (<[h := raw]> (branch_headers branch))
           (chainwork branch + work_of_bits (bits header))) heights
  end.

Definition branch_validate (now_secs : N) (active : gmap N raw_header) (fork_h incoming_h : N)
    (buffer : gmap N raw_header) : result HeaderBranch HeaderValidator.Error :=
  let combined := filter (λ kv, kv.1 ≤ fork_h) active in
  let first := sat_add u32_max fork_h 1 in
  branch_loop now_secs buffer combined (mkBranch ∅ 0)
    (nseq first (N.to_nat (incoming_h + 1 - first))).

(** The work of stored rows, failing on one that cannot be read. *)
Fixpoint rows_work (acc : N) (rows : list (N * raw_header)) : result N HeaderValidator.Error :=
  match rows with
  | [] => Ok acc
  | (_, raw) :: rows =>
      try! header := ok_or (deserialize raw) MalformedHeader in
      rows_work (acc + work_of_bits (bits header)) rows
  end.

Definition has_more_work_than_active (branch : HeaderBranch) (active : gmap N raw_header)
    (fork_h : N) : result bool HeaderValidator.Error :=
  let first := sat_add u32_max fork_h 1 in
  try! active_work := rows_work 0 (bt_range (λ h, first <=? h) active) in
  Ok (active_work <? chainwork branch).
End chain.

Section header_store.
Context `{HeaderLib} {S : Type} `{!Store S N raw_header}.

(** [struct HeaderStore] with its [Inner]: the state the mutators touch. *)
Record HeaderStore := mkHeaderStore {
  hs_network : Network;
  store : S;
  validation_state : HeaderValidationState;
  writer_token : N;
  stopped : bool;
  checkpoint : option Checkpoint;
  extend_down : option N;
  latest_progress : option HeaderProgressEvent;
  events : list Event
}.

Definition set_store (s : HeaderStore) (st : S) : HeaderStore :=
  mkHeaderStore (hs_network s) st (validation_state s) (writer_token s) (stopped s)
    (checkpoint s) (extend_down s) (latest_progress s) (events s).
Definition set_validation_state (v : HeaderValidationState) (s : HeaderStore) : HeaderStore :=
  mkHeaderStore (hs_network s) (store s) v (writer_token s) (stopped s)
    (checkpoint s) (extend_down s) (latest_progress s) (events s).
Definition set_extend_down (w : option N) (s : HeaderStore) : HeaderStore :=
  mkHeaderStore (hs_network s) (store s) (validation_state s) (writer_token s) (stopped s)
    (checkpoint s) w (latest_progress s) (events s).
Definition notify (e : Event) (s : HeaderStore) : HeaderStore :=
  mkHeaderStore (hs_network s) (store s) (validation_state s) (writer_token s) (stopped s)
    (checkpoint s) (extend_down s) (latest_progress s) (events s ++ [e]).
Definition notify_listeners : HeaderStore → HeaderStore := notify ChainTick.
Definition publish_progress (e : HeaderProgressEvent) (s : HeaderStore) : HeaderStore :=
  mkHeaderStore (hs_network s) (store s) (validation_state s) (writer_token s) (stopped s)
    (checkpoint s) (extend_down s) (Some e) (events s ++ [ProgressEvent e]).

Abbreviation mut := (eff HeaderStore MutateError).

(** A call on the inner store, its errors converted. *)
Definition on_store {A} (c : eff S PersistError A) : mut A := λ s,
  let '(st, r) := c (store s) in (set_store s st, rmap_err EPersist r).
Definition modify_self (f : HeaderStore → HeaderStore) : mut unit := λ s, (f s, Ok tt).
Definition read_keys : mut (list N) := λ s, (s, rmap_err EPersist (st_keys (store s))).

(** [inner.store.get(&k).ok().flatten()]. *)
Definition peek (s : HeaderStore) (k : N) : option raw_header :=
  match st_get (store s) k with Ok v => v | Err _ => None end.

Definition with_writer {A} (token : N) (f : mut A) (s : HeaderStore) :
    HeaderStore * option (result A MutateError) :=
  if negb (writer_token s =? token) then (s, None)
  else let '(s, r) := f s in (s, Some r).

(** The end every mutator shares: a tick on success, and a superseded writer's
    skipped mutation is not an error. *)
Definition mutate (token : N) (f : mut unit) : mut unit := λ s,
  match with_writer token f s with
  | (s, Some (Ok _)) => (notify_listeners s, Ok tt)
  | (s, Some (Err e)) => (s, Err e)
  | (s, None) => (s, Ok tt)
  end.

Definition clear_inner : mut unit :=
  do! keys := read_keys in
  do! _ := efor keys (λ key, do! _ := on_store (st_remove key) in eret tt) in
  on_store st_flush.

Definition hold_checkpoint (h : N) (raw : raw_header) : mut unit := λ s,
  if holds_checkpoint (checkpoint s) h raw then (s, Ok tt)
  else
    (do! _ := clear_inner in
     do! _ := modify_self (set_validation_state (Invalid CCheckpoint)) in
     do! _ := modify_self notify_listeners in
     do! _ := modify_self (notify CheckpointRefused) in
     ethrow ECheckpoint) s.

Definition insert_row (h : N) (raw : raw_header) : mut unit :=
  do! _ := on_store (st_insert h raw) in eret tt.

Definition append_body (now_secs h : N) (raw : raw_header) (incoming : Header) : mut unit :=
  do! s := eget in
  let ancestors := collect_ancestors h (chain_interval (hs_network s)) (peek s) in
  do! _ := elift (rmap_err Validate
    (validate_append (hs_network s) ancestors h incoming now_secs)) in
  do! _ := hold_checkpoint h raw in
  do! keys := read_keys in
  let was_empty := (length keys =? 0)%nat in
  do! _ := insert_row h raw in
  do! _ := on_store st_flush in
  modify_self (λ s,
    match validation_state s with
    | Validating => s
    | Invalid _ => if was_empty then set_validation_state Valid s else s
    | _ => set_validation_state Valid s
    end).

Definition append (now_secs token h : N) (raw : raw_header) : mut unit :=
  match deserialize raw with
  | None => ethrow (Validate MalformedHeader)
  | Some incoming => mutate token (append_body now_secs h raw incoming)
  end.

Fixpoint append_loop (now_secs : N) (was_empty first : bool) (h : N) (ancestors : list Header)
    (raws : list raw_header) : mut unit :=
  match raws with
  | [] => eret tt
  | raw :: raws =>
      match deserialize raw with
      | None => ethrow (Validate MalformedHeader)
      | Some header =>
          do! s := eget in
          let network := hs_network s in
          do! _ :=
            if was_empty && first && (0 <? h) then
              if negb (h mod chain_interval network =? 0) then ethrow BadAnchor
              else elift (rmap_err Validate (check_pow (params network) header))
            else elift (rmap_err Validate (validate_append network ancestors h header now_secs)) in
          do! _ := hold_checkpoint h raw in
          do! _ := insert_row h raw in
          append_loop now_secs was_empty false (h + 1) (push_window network ancestors header) raws
      end
  end.

Definition append_batch_body (now_secs start : N) (raws : list raw_header) : mut unit :=
  do! keys := read_keys in
  let was_empty := (length keys =? 0)%nat in
  do! s := eget in
  let ancestors :=
    if was_empty then []
    else collect_ancestors start (chain_interval (hs_network s)) (peek s) in
  do! _ := append_loop now_secs was_empty true start ancestors raws in
  do! _ := on_store st_flush in
  modify_self (set_validation_state Valid).

Definition append_batch (now_secs token start : N) (raws : list raw_header) : mut unit :=
  match raws with
  | [] => eret tt
  | _ => mutate token (append_batch_body now_secs start raws)
  end.

(** The insertion of checked rows [replace_branch] and [prepend] share. *)
Definition insert_checked (rows : list (N * raw_header)) : mut unit :=
  efor rows (λ row, do! _ := hold_checkpoint row.1 row.2 in insert_row row.1 row.2).

Definition replace_branch_body (fork_h : N) (branch : gmap N raw_header) : mut unit :=
  do! keys := read_keys in
  do! _ := efor (List.filter (λ k, fork_h <? k) keys)
             (λ key, do! _ := on_store (st_remove key) in eret tt) in
  do! _ := insert_checked (bt_items branch) in
  do! _ := on_store st_flush in
  modify_self (set_validation_state Valid).

Definition replace_branch (token fork_h : N) (branch : gmap N raw_header) : mut unit :=
  mutate token (replace_branch_body fork_h branch).

Definition prepend_body (now_secs low : N) (raws : list raw_header) : mut unit :=
  let floor := low + N.of_nat (length raws) in
  do! s := eget in
  do! floor_row := elift (rmap_err EPersist (st_get (store s) floor)) in
  do! floor_raw := elift (ok_or floor_row Unlinked) in
  let range := <[floor := floor_raw]>
    (list_to_map (zip (nseq low (length raws)) raws) : gmap N raw_header) in
  do! _ := elift (rmap_err Validate (replay_validate (hs_network s) now_secs range)) in
  do! _ := insert_checked (bt_range (λ h, h <? floor) range) in
  on_store st_flush.

Definition prepend (now_secs token low : N) (raws : list raw_header) : mut unit :=
  mutate token (prepend_body now_secs low raws).

Definition wipe (token : N) (s : HeaderStore) : HeaderStore := (with_writer token clear_inner s).1.

Definition clear_store : mut unit := clear_inner.

(** ** Reads *)

Definition min_height (s : HeaderStore) : option N := ok (st_keys (store s)) ≫= head.
Definition tip (s : HeaderStore) : option N := ok (st_keys (store s)) ≫= last.
Definition header (s : HeaderStore) (h : N) : option Header := peek s h ≫= deserialize.
Definition store_block_hash (s : HeaderStore) (h : N) : option BlockHash :=
  block_hash <$> header s h.
Definition store_merkle_root (s : HeaderStore) (h : N) : option N :=
  HeaderValidator.merkle_root <$> header s h.
Definition tip_hash (s : HeaderStore) : option BlockHash := tip s ≫= store_block_hash s.
Definition tip_with_hash (s : HeaderStore) : option (N * BlockHash) :=
  t ← tip s; hdr ← header s t; Some (t, block_hash hdr).
Definition merkle_root_and_hash (s : HeaderStore) (h : N) : option (N * BlockHash) :=
  hdr ← header s h; Some (HeaderValidator.merkle_root hdr, block_hash hdr).
Definition is_validated (s : HeaderStore) : bool :=
  match validation_state s with Valid => true | _ => false end.
Definition validation_failed_reason (s : HeaderStore) : option InvalidCause :=
  match validation_state s with Invalid c => Some c | _ => None end.

(** [request_extend_down]; [Wake] is sent to the worker when the request is new. *)
Definition request_extend_down (height : N) (s : HeaderStore) : HeaderStore * bool :=
  match min_height s with
  | None => (s, false)
  | Some floor =>
      if floor <=? height then (s, false)
      else
        match extend_down s with
        | Some lowest =>
            if lowest <=? height then (s, false) else (set_extend_down (Some height) s, true)
        | None => (set_extend_down (Some height) s, true)
        end
  end.

(** ** Reload *)

Definition raw_map (s : HeaderStore) : result (gmap N raw_header) PersistError :=
  try! l := st_iter (store s) in Ok (list_to_map l).

Definition finish_replay_validation_success (s : HeaderStore) : HeaderStore :=
  let was_validating := match validation_state s with Validating => true | _ => false end in
  let s := set_validation_state Valid s in
  if was_validating then notify_listeners (publish_progress (Completed Replay) s) else s.

(** The replay thread, run when the state is [Validating]; its progress events
    are not logged. *)
Definition finish_replay (now_secs : N) (snapshot : gmap N raw_header) (s : HeaderStore) :
    HeaderStore :=
  match replay_validate (hs_network s) now_secs snapshot with
  | Ok _ => finish_replay_validation_success s
  | Err e =>
      let '(s, _) := clear_store s in
      notify_listeners (publish_progress (Failed Replay)
        (set_validation_state (Invalid (CValidator e)) s))
  end.

(** [start_replay_validation]: the state, and the snapshot handed to the replay
    thread when one is spawned. *)
Definition start_replay_validation (s : HeaderStore) :
    HeaderStore * option (gmap N raw_header) :=
  match raw_map s with
  | Err e => (set_validation_state (Invalid (CStoreRead e)) s, None)
  | Ok snapshot =>
      match bt_first_key snapshot, bt_last_key snapshot with
      | Some start, Some e =>
          match sanity_check (hs_network s) (checkpoint s) snapshot with
          | Err cause =>
              let '(s, _) := clear_store s in
              (notify_listeners (publish_progress (Failed Replay)
                 (set_validation_state (Invalid cause) s)), None)
          | Ok _ =>
              (publish_progress (Started Replay start e) (set_validation_state Validating s),
               Some snapshot)
          end
      | _, _ => (set_validation_state Valid s, None)
      end
  end.

(** [with_checkpoint], which every constructor ends in. *)
Definition with_checkpoint (network : Network) (st : S) (checkpoint : option Checkpoint) :
    HeaderStore * option (gmap N raw_header) :=
  start_replay_validation
    (mkHeaderStore network st Unchecked 0 false checkpoint None None []).

(** ** Switching to a branch

    The end of [resolve_reorg]: what it does once the headers of the candidate
    branch above [fork_h] have been fetched into [buffer]. *)
Definition switch_branch (now_secs token fork_h incoming_h : N) (buffer : gmap N raw_header)
    (s : HeaderStore) : HeaderStore :=
  match raw_map s with
  | Err _ => s
  | Ok active =>
      match branch_validate (hs_network s) now_secs active fork_h incoming_h buffer with
      | Err _ => s
      | Ok branch =>
          match has_more_work_than_active branch active fork_h with
          | Ok true => (replace_branch token fork_h (branch_headers branch) s).1
          | _ => s
          end
      end
  end.
End header_store.

(** ** Proofs *)

(** *** The ancestor window *)

Section window.
Context `{HeaderLib} `{!HeaderLaws} (network : Network).
Abbreviation I := (chain_interval network).

Lemma I_pos : 0 < I.
Proof. apply interval_pos. Qed.

(** The contiguous run of headers below [h], newest first, at most [n] of them. *)
Fixpoint down (get : N → option Header) (n : nat) (h : N) : list Header :=
  match n with
  | O => []
  | S n =>
      if h =? 0 then []
      else match get (h - 1) with Some hdr => hdr :: down get n (h - 1) | None => [] end
  end.

Definition window (m : gmap N raw_header) (h : N) : list Header :=
  rev (down (λ k, m !! k ≫= deserialize) (N.to_nat I) h).

Lemma list_snoc_cases {A} (l : list A) : l = [] ∨ ∃ l' x, l = l' ++ [x].
Proof. destruct l using rev_ind; [by left|right; eauto]. Qed.

Lemma collect_loop_down get fuel k lo out :
  lo ≤ k → (N.to_nat (k - lo) < fuel)%nat →
  collect_loop get fuel k lo out =
    out ++ down (λ k, get k ≫= deserialize) (S (N.to_nat (k - lo))) (k + 1).
Proof.
  revert k out. induction fuel as [|fuel IH]; intros k out Hlo Hf; [lia|].
  cbn [collect_loop]. cbn [down]. rewrite (proj2 (N.eqb_neq (k + 1) 0)) by lia.
  replace (k + 1 - 1) with k by lia.
  destruct (get k ≫= deserialize) as [hdr|]; [|by rewrite app_nil_r].
  destruct (N.eqb_spec k lo) as [->|Hne].
  - by rewrite N.sub_diag.
  - rewrite IH by lia. rewrite <-app_assoc. cbn [app]. f_equal. f_equal.
    replace (k - 1 + 1) with k by lia.
    by replace (N.to_nat (k - lo)) with (S (N.to_nat (k - 1 - lo))) by lia.
Qed.

Lemma down_stop get n h : (N.to_nat h ≤ n)%nat → down get n h = down get (N.to_nat h) h.
Proof.
  revert h; induction n as [|n IH]; intros h Hn; [by replace (N.to_nat h) with 0%nat by lia|].
  destruct (N.to_nat h) as [|k] eqn:Hk.
  - replace h with 0 by lia. done.
  - cbn [down]. destruct (h =? 0); [done|]. destruct (get (h - 1)); [|done].
    rewrite IH by lia. by replace (N.to_nat (h - 1)) with k by lia.
Qed.

(** [collect_ancestors] is the window. *)
Lemma collect_ancestors_down h get :
  collect_ancestors h I get = rev (down (λ k, get k ≫= deserialize) (N.to_nat I) h).
Proof.
  pose proof I_pos as HI. unfold collect_ancestors. destruct (N.eqb_spec h 0) as [->|Hh].
  { destruct (N.to_nat I) eqn:Hn; [lia|]. done. }
  rewrite collect_loop_down by lia. cbn [app]. replace (h - 1 + 1) with h by lia. f_equal.
  destruct (N.le_gt_cases h I) as [Hle|Hgt].
  - rewrite (down_stop _ (N.to_nat I)) by lia.
    by replace (S (N.to_nat (h - 1 - (h - I)))) with (N.to_nat h) by lia.
  - by replace (S (N.to_nat (h - 1 - (h - I)))) with (N.to_nat I) by lia.
Qed.

Lemma decode_ancestors_window m h : decode_ancestors m h I = window m h.
Proof. apply collect_ancestors_down. Qed.

Lemma down_agree get get' n h :
  (∀ k, k < h → get k = get' k) → down get n h = down get' n h.
Proof.
  revert h; induction n as [|n IH]; intros h Hg; [done|]. cbn [down].
  destruct (N.eqb_spec h 0); [done|]. rewrite Hg by lia.
  destruct (get' (h - 1)); [|done]. f_equal. apply IH. intros k Hk. apply Hg. lia.
Qed.

Lemma window_agree m m' h : (∀ k, k < h → m !! k = m' !! k) → window m h = window m' h.
Proof. intros Hm. unfold window. f_equal. apply down_agree. intros k Hk. by rewrite Hm. Qed.

Lemma down_take get n h : down get n h = take n (down get (S n) h).
Proof.
  revert h; induction n as [|n IH]; intros h; [done|]. cbn [down].
  destruct (h =? 0); [done|]. destruct (get (h - 1)); [|done]. cbn [take]. f_equal. apply IH.
Qed.
Lemma down_length get n h : (length (down get n h) ≤ n)%nat.
Proof.
  revert h; induction n as [|n IH]; intros h; cbn [down]; [done|].
  destruct (h =? 0); [simpl; lia|]. destruct (get (h - 1)); simpl; [|lia].
  specialize (IH (h - 1)). lia.
Qed.

(** The rolling window of the batch loops is the window read from the store. *)
Lemma push_window_spec m h raw hdr :
  deserialize raw = Some hdr → m !! h = Some raw →
  push_window network (window m h) hdr = window m (h + 1).
Proof.
  intros Hd Hm. pose proof I_pos as HI. unfold push_window, window.
  set (get k := m !! k ≫= deserialize). destruct (N.to_nat I) as [|n] eqn:Hn; [lia|].
  assert (Hnext : down get (S n) (h + 1) = hdr :: down get n h).
  { cbn [down]. rewrite (proj2 (N.eqb_neq (h + 1) 0)) by lia. replace (h + 1 - 1) with h by lia.
    unfold get at 1. by rewrite Hm; simpl; rewrite Hd. }
  rewrite Hnext, length_app, length_rev. cbn [length rev]. rewrite (down_take get n h).
  pose proof (down_length get (S n) h) as Hlen. set (d := down get (S n) h) in *.
  destruct (N.ltb_spec I (N.of_nat (length d + 1))) as [Hlt|Hge].
  - assert (Hld : length d = S n) by lia. destruct (list_snoc_cases d) as [->|(d' & x & Hd')].
    { simpl in Hld. lia. }
    assert (Hd'len : length d' = n) by (rewrite Hd', length_app in Hld; simpl in Hld; lia).
    rewrite Hd', rev_app_distr. simpl. by rewrite take_app_length' by done.
  - rewrite take_ge by lia. done.
Qed.

(** *** Valid chains *)

Context (relaxed : bool) (cp : option Checkpoint).

(** The rows at or above a height. *)
Definition above (f : N) (m : gmap N raw_header) : gmap N raw_header := filter (λ kv, f ≤ kv.1) m.

(** A header validated against the window below it. In a relaxed chain it may have
    been validated against the rows back to a retarget boundary only, the floor
    the chain had at the time. *)
Definition row_valid (now : N) (m : gmap N raw_header) (lo h : N) (hdr : Header) : Prop :=
  validate_append network (window m h) h hdr now = Ok tt ∨
  relaxed = true ∧ ∃ f, lo < f < h ∧ f mod I = 0 ∧
    validate_append network (window (above f m) h) h hdr now = Ok tt.

(** The row at [h] of a chain that starts at [lo]: the block of the checkpoint if
    it is at its height, and a valid header; the anchor of a sparse chain is
    trusted on its proof of work. *)
Definition row_ok (now : N) (m : gmap N raw_header) (lo h : N) (raw : raw_header) : Prop :=
  holds_checkpoint cp h raw = true ∧ ∃ hdr, deserialize raw = Some hdr ∧
    if (h =? lo) && (0 <? h) then check_pow (params network) hdr = Ok tt
    else row_valid now m lo h hdr.

Record chain_at (now : N) (m : gmap N raw_header) (lo : N) : Prop := {
  ca_lo : is_Some (m !! lo);
  ca_boundary : lo mod I = 0;
  ca_above h : is_Some (m !! h) → lo ≤ h;
  ca_below h k : is_Some (m !! h) → lo ≤ k ≤ h → is_Some (m !! k);
  ca_rows h raw : m !! h = Some raw → row_ok now m lo h raw
}.

(** A valid chain as of [now]: empty, or from an anchor on a retarget boundary
    without gaps. *)
Definition chain_ok (now : N) (m : gmap N raw_header) : Prop := m = ∅ ∨ ∃ lo, chain_at now m lo.

Lemma row_ok_later now now' m lo h raw : now ≤ now' → row_ok now m lo h raw → row_ok now' m lo h raw.
Proof.
  intros Hle (Hc & hdr & Hd & Hv). split; [done|]. exists hdr. split; [done|].
  destruct (_ && _); [done|].
  destruct Hv as [Hv|(? & f & ? & ? & Hv)]; [left|right; split; [done|]; exists f; do 2 (split; [done|])];
    by eapply validate_append_later.
Qed.

Lemma chain_ok_later now now' m : now ≤ now' → chain_ok now m → chain_ok now' m.
Proof.
  intros Hle [->|[lo [H1 H2 H3 H4 H5]]]; [by left|right]. exists lo. split; try done.
  intros h raw Hr. by eapply row_ok_later, H5.
Qed.

Lemma row_ok_agree now m m' lo h raw :
  (∀ k, k < h → m !! k = m' !! k) → row_ok now m lo h raw → row_ok now m' lo h raw.
Proof.
  intros Hm (Hc & hdr & Hd & Hv). split; [done|]. exists hdr. split; [done|].
  destruct (_ && _); [done|]. unfold row_valid in *. rewrite <-(window_agree m m') by done.
  destruct Hv as [Hv|(? & f & ? & ? & Hv)]; [by left|right]. split; [done|]. exists f.
  do 2 (split; [done|]). rewrite <-(window_agree (above f m)); [done|].
  intros k Hk. unfold above. rewrite !map_lookup_filter. by rewrite Hm.
Qed.

(** One more row on top. *)
Lemma chain_extend now m lo h raw :
  chain_at now m lo → 0 < h → is_Some (m !! (h - 1)) → (∀ k, is_Some (m !! k) → k < h) →
  row_ok now m lo h raw → chain_at now (<[h := raw]> m) lo.
Proof.
  intros [H1 H2 H3 H4 H5] Hpos Hprev Htop Hrow.
  assert (Hlo : lo < h) by (apply Htop; done).
  assert (Hagree : ∀ h', h' ≤ h → ∀ k, k < h' → m !! k = <[h := raw]> m !! k)
    by (intros h' Hh' k Hk; rewrite lookup_insert_ne; [done|lia]).
  split.
  - rewrite lookup_insert_is_Some'. by right.
  - done.
  - intros k [<-|Hk]%lookup_insert_is_Some'; [lia|by apply H3].
  - intros k j Hk Hj. apply lookup_insert_is_Some'.
    destruct (decide (h = j)) as [|Hne]; [by left|right].
    apply lookup_insert_is_Some' in Hk as [<-|Hk]; [|by apply (H4 k)].
    apply (H4 (h - 1)); [done|lia].
  - intros k r Hr. destruct (decide (h = k)) as [<-|Hne].
    + rewrite lookup_insert_eq in Hr. injection Hr as <-.
      eapply row_ok_agree; [|exact Hrow]. by apply Hagree.
    + rewrite lookup_insert_ne in Hr by done. eapply row_ok_agree; [|by apply H5].
      apply Hagree. specialize (Htop k ltac:(eauto)). lia.
Qed.

(** The first row. *)
Lemma chain_start now h raw :
  h mod I = 0 → row_ok now ∅ h h raw → chain_at now {[h := raw]} h.
Proof.
  intros Hb Hrow. split; [by rewrite lookup_singleton_eq; eauto|done|..].
  - intros k [x [<- _]%lookup_singleton_Some]. done.
  - intros k j [x [<- _]%lookup_singleton_Some] Hj. replace j with h by lia.
    by rewrite lookup_singleton_eq; eauto.
  - intros k r [<- <-]%lookup_singleton_Some. eapply row_ok_agree; [|exact Hrow].
    intros k Hk. rewrite lookup_empty, lookup_singleton_ne; [done|lia].
Qed.

(** Dropping the rows above a height of the chain. *)
Definition truncate (f : N) (m : gmap N raw_header) : gmap N raw_header :=
  filter (λ kv, kv.1 ≤ f) m.

Lemma truncate_lookup f m k : truncate f m !! k = if k <=? f then m !! k else None.
Proof.
  unfold truncate. destruct (N.leb_spec k f) as [Hle|Hgt].
  - destruct (m !! k) as [r|] eqn:Hr.
    + by apply map_lookup_filter_Some.
    + apply map_lookup_filter_None. by left.
  - apply map_lookup_filter_None. right. intros r _ Hc. simpl in Hc. lia.
Qed.

Lemma truncate_is_Some f m k : is_Some (truncate f m !! k) ↔ is_Some (m !! k) ∧ k ≤ f.
Proof. rewrite truncate_lookup. destruct (N.leb_spec k f); split; naive_solver lia. Qed.

Lemma chain_truncate now m lo f :
  chain_at now m lo → lo ≤ f → chain_at now (truncate f m) lo.
Proof.
  intros [H1 H2 H3 H4 H5] Hf. split.
  - by apply truncate_is_Some.
  - done.
  - intros h [Hh _]%truncate_is_Some. by apply H3.
  - intros h k [Hh Hhf]%truncate_is_Some Hk. apply truncate_is_Some. split; [by eapply H4|lia].
  - intros h r Hr. rewrite truncate_lookup in Hr. destruct (N.leb_spec h f); [|done].
    eapply row_ok_agree; [|by apply H5]. intros k Hk. rewrite truncate_lookup.
    by destruct (N.leb_spec k f); [|lia].
Qed.
End window.

(** *** Candidate branches *)

Section branches.
Context `{HeaderLib} `{!HeaderLaws} (network : Network) (rx : bool).

Lemma chain_at_cp cp now m lo :
  chain_at network rx None now m lo →
  (∀ h raw, m !! h = Some raw → holds_checkpoint cp h raw = true) → chain_at network rx cp now m lo.
Proof.
  intros [H1 H2 H3 H4 H5] Hcp. split; try done. intros h raw Hr.
  destruct (H5 _ _ Hr) as [_ Hrest]. split; [by apply Hcp|done].
Qed.

Lemma chain_at_no_cp cp now m lo : chain_at network rx cp now m lo → chain_at network rx None now m lo.
Proof.
  intros [H1 H2 H3 H4 H5]. split; try done. intros h raw Hr.
  destruct (H5 _ _ Hr) as [_ Hrest]. split; [done|done].
Qed.

(** The work of a set of rows. *)
Definition raw_work (raw : raw_header) : N :=
  match deserialize raw with Some hdr => work_of_bits (bits hdr) | None => 0 end.
Definition map_work (m : gmap N raw_header) : N :=
  sumN ((λ kv, raw_work kv.2) <$> map_to_list m).

Lemma map_work_insert m h raw :
  m !! h = None → map_work (<[h := raw]> m) = raw_work raw + map_work m.
Proof.
  intros Hm. unfold map_work.
  rewrite (sumN_perm _ _ (fmap_Permutation _ _ _ (map_to_list_insert m h raw Hm))). done.
Qed.

Lemma rows_work_Ok acc l w :
  rows_work acc l = Ok w → w = acc + sumN ((λ kv : N * raw_header, raw_work kv.2) <$> l).
Proof.
  revert acc; induction l as [|[h raw] l IH]; intros acc; cbn [rows_work]; [intros [= <-]; csimpl; lia|].
  destruct (deserialize raw) as [hdr|] eqn:Hd; [|done]. cbn [ok_or rbind]. intros Hw%IH.
  assert (raw_work raw = work_of_bits (bits hdr)) by (unfold raw_work; by rewrite Hd).
  rewrite fmap_cons, sumN_cons. cbn [snd]. lia.
Qed.

Lemma bt_range_work f m :
  sumN ((λ kv : N * raw_header, raw_work kv.2) <$> bt_range f m) =
    map_work (filter (λ kv, f kv.1 = true) m).
Proof.
  unfold map_work. apply sumN_perm, fmap_Permutation. apply NoDup_Permutation.
  - unfold bt_range. apply (NoDup_sublist _ (bt_items m)); [apply filter_sublist|].
    rewrite bt_items_perm. apply NoDup_map_to_list.
  - apply NoDup_map_to_list.
  - intros [k r]. rewrite elem_of_bt_range, elem_of_map_to_list, map_lookup_filter_Some. simpl. tauto.
Qed.

Lemma branch_loop_Ok now buffer lo n h combined b b' :
  chain_at network rx None now combined lo → 0 < h → is_Some (combined !! (h - 1)) →
  (∀ k, is_Some (combined !! k) → k < h) → (∀ k, is_Some (branch_headers b !! k) → k < h) →
  branch_loop network now buffer combined b (nseq h n) = Ok b' →
  ∃ rows, branch_headers b' = rows ∪ branch_headers b ∧ chain_at network rx None now (rows ∪ combined) lo ∧
    (∀ k, is_Some (rows !! k) ↔ h ≤ k < h + N.of_nat n) ∧ chainwork b' = chainwork b + map_work rows.
Proof.
  revert h combined b. induction n as [|n IH]; intros h combined b Hc Hpos Hprev Htop Hb; cbn [nseq branch_loop].
  { intros [= <-]. exists ∅. rewrite !map_empty_union. split_and!; try done.
    - intros k. rewrite lookup_empty. split; [by intros [? ?]|lia].
    - unfold map_work. rewrite map_to_list_empty. simpl. lia. }
  intros (raw & Hraw & (hdr & Hd & ([] & Hv & Hrest)%rbind_Ok)%rbind_Ok)%rbind_Ok.
  destruct (buffer !! h) as [raw'|]; simpl in Hraw; [|done]. injection Hraw as ->.
  destruct (deserialize raw) as [hdr'|] eqn:Hdes; simpl in Hd; [|done]. injection Hd as ->.
  rewrite decode_ancestors_window in Hv.
  assert (Hlo : lo < h) by (apply Htop, Hc).
  apply IH in Hrest as (rows & Hh & Hch & Hdom & Hw).
  - exists (<[h := raw]> rows). simpl in Hh, Hw.
    assert (Hfresh : rows !! h = None).
    { destruct (rows !! h) eqn:Hr; [|done]. assert (is_Some (rows !! h)) as Hs by eauto.
      apply Hdom in Hs. lia. }
    rewrite <-!insert_union_l, !insert_union_r in * by done. split_and!; [done|done| |].
    + intros k. rewrite lookup_insert_is_Some', Hdom. lia.
    + rewrite Hw, map_work_insert by done. unfold raw_work. rewrite Hdes. lia.
  - apply chain_extend; try done. split; [done|]. exists hdr. split; [done|].
    rewrite (proj2 (N.eqb_neq h lo)) by lia. by left.
  - lia.
  - replace (h + 1 - 1) with h by lia. rewrite lookup_insert_eq. eauto.
  - intros k [<-|Hk]%lookup_insert_is_Some'; [lia|]. specialize (Htop k Hk). lia.
  - simpl. intros k [<-|Hk]%lookup_insert_is_Some'; [lia|]. specialize (Hb k Hk). lia.
Qed.

(** A branch that validates above a stored height makes a valid chain with the
    rows up to it, and its work is the work of its rows. *)
Lemma branch_validate_Ok now cp active lo fork_h incoming_h buffer b :
  chain_at network rx cp now active lo → is_Some (active !! fork_h) → fork_h < u32_max →
  branch_validate network now active fork_h incoming_h buffer = Ok b →
  chain_at network rx None now (branch_headers b ∪ truncate fork_h active) lo ∧
  (∀ k, is_Some (branch_headers b !! k) → fork_h < k) ∧ chainwork b = map_work (branch_headers b).
Proof.
  intros Hc Hf Hlt. unfold branch_validate.
  replace (sat_add u32_max fork_h 1) with (fork_h + 1) by (unfold sat_add, u32_max in *; lia).
  intros Hb. apply (branch_loop_Ok _ _ lo) in Hb as (rows & Hh & Hch & Hdom & Hw).
  - simpl in *. rewrite map_union_empty in Hh. subst rows. split_and!; [done| |by rewrite Hw].
    intros k Hk%Hdom. lia.
  - apply chain_truncate; [by eapply chain_at_no_cp|by apply Hc].
  - lia.
  - replace (fork_h + 1 - 1) with fork_h by lia. apply truncate_is_Some. done.
  - intros k [_ Hk]%truncate_is_Some. lia.
  - simpl. intros k. rewrite lookup_empty. by intros [? ?].
Qed.
End branches.

(** *** Reloading a chain *)

Section reload.
Context `{HeaderLib} `{!HeaderLaws} (network : Network).
Implicit Types m : gmap N raw_header.

Lemma window_floor m lo :
  (lo = 0 ∨ m !! (lo - 1) = None) → window network m lo = [].
Proof.
  intros Hlo. unfold window. destruct (N.to_nat _); [done|]. cbn [down].
  destruct (N.eqb_spec lo 0); [done|]. destruct Hlo as [|Hl]; [done|]. by rewrite Hl.
Qed.

Lemma replay_loop_iff m now lo l h :
  l.*1 = nseq h (length l) → (∀ k r, (k, r) ∈ l → m !! k = Some r) → lo ≤ h →
  replay_loop network now lo (window network m h) l = Ok tt ↔
  ∀ k r, (k, r) ∈ l → row_ok network false None now m lo k r.
Proof.
  revert h. induction l as [|[k r] l IH]; intros h Hk Hm Hlo; cbn [replay_loop].
  { split; [set_solver|done]. }
  csimpl in Hk. injection Hk as -> Hk.
  pose proof (Hm h r ltac:(set_solver)) as Hr.
  transitivity (row_ok network false None now m lo h r ∧ ∀ k r, (k, r) ∈ l → row_ok network false None now m lo k r);
    [|set_solver].
  unfold row_ok at 1. destruct (deserialize r) as [hdr|] eqn:Hd; cbn [ok_or rbind]; [|naive_solver].
  assert (Hcheck : (if h =? 0 then validate_append network [] h hdr now
      else if lo <? h then validate_append network (window network m h) h hdr now
      else check_pow (params network) hdr) =
    if (h =? lo) && (0 <? h) then check_pow (params network) hdr
    else validate_append network (window network m h) h hdr now).
  { destruct (N.eqb_spec h 0) as [->|Hz].
    - rewrite andb_false_r. by rewrite (window_floor m 0) by auto.
    - rewrite (proj2 (N.ltb_lt 0 h)) by lia. rewrite andb_true_r.
      destruct (N.ltb_spec lo h), (N.eqb_spec h lo); try lia; done. }
  rewrite <-(IH (h + 1)); [|done|set_solver|lia].
  rewrite <-(push_window_spec network m h r hdr Hd Hr), Hcheck, rbind_Ok.
  split.
  - intros ([] & Hv & Hrest). split; [|done]. split; [done|]. exists hdr. split; [done|].
    destruct (_ && _); [done|by left].
  - intros ([_ (hdr' & [= <-] & Hv)] & Hrest). exists tt. destruct (_ && _); [done|].
    by destruct Hv as [Hv|[? _]].
Qed.

(** The keys of a map without gaps. *)
Lemma interval_keys m lo :
  is_Some (m !! lo) → (∀ h, is_Some (m !! h) → lo ≤ h) →
  (∀ h k, is_Some (m !! h) → lo ≤ k ≤ h → is_Some (m !! k)) →
  bt_first_key m = Some lo ∧ bt_keys m = nseq lo (size m) ∧
  ∃ hi, bt_last_key m = Some hi ∧ hi - lo + 1 = N.of_nat (size m).
Proof.
  intros H1 H3 H4.
  assert (Hfirst : bt_first_key m = Some lo).
  { destruct (bt_first_key m) as [a|] eqn:Ha.
    - pose proof (bt_first_key_min m a lo Ha H1) as Hle. apply N.leb_le in Hle.
      apply bt_first_key_elem, H3 in Ha. f_equal. lia.
    - apply bt_first_key_None in Ha as ->. by destruct H1. }
  destruct (bt_last_key m) as [hi|] eqn:Hlast.
  2:{ apply bt_last_key_None in Hlast as ->. by destruct H1. }
  assert (Hkeys : bt_keys m ≡ₚ nseq lo (N.to_nat (hi - lo + 1))).
  { apply NoDup_Permutation; [apply NoDup_bt_keys| |].
    - clear. generalize (N.to_nat (hi - lo + 1)). intros n. revert lo.
      induction n as [|n IH]; intros lo; simpl; constructor; [rewrite elem_of_nseq; lia|done].
    - intros k. rewrite elem_of_bt_keys, elem_of_nseq.
      pose proof (bt_last_key_elem m hi Hlast) as Hhi. pose proof (H3 hi Hhi). split.
      + intros Hk. pose proof (bt_last_key_max m hi k Hlast Hk) as Hle. apply N.leb_le in Hle.
        specialize (H3 k Hk). lia.
      + intros Hk. apply (H4 hi); [done|lia]. }
  assert (Hsize : hi - lo + 1 = N.of_nat (size m)).
  { apply Permutation_length in Hkeys. rewrite length_nseq in Hkeys.
    unfold bt_keys in Hkeys. rewrite length_fmap, length_bt_items in Hkeys. lia. }
  split; [done|]. split; [by apply (bt_keys_contiguous m lo hi)|]. eauto.
Qed.

(** The keys of a chain are an interval. *)
Lemma chain_keys cp now m lo :
  chain_at network false cp now m lo →
  bt_first_key m = Some lo ∧ bt_keys m = nseq lo (size m) ∧
  ∃ hi, bt_last_key m = Some hi ∧ hi - lo + 1 = N.of_nat (size m).
Proof. intros [H1 _ H3 H4 _]. by apply interval_keys. Qed.

Lemma interval_lookup m lo : bt_keys m = nseq lo (size m) → ∀ h, is_Some (m !! h) ↔ lo ≤ h < lo + N.of_nat (size m).
Proof. intros Hk h. by rewrite <-elem_of_bt_keys, Hk, elem_of_nseq. Qed.

(** Replaying an interval of rows checks each against its window. *)
Lemma replay_validate_iff m now lo :
  bt_first_key m = Some lo → bt_keys m = nseq lo (size m) →
  replay_validate network now m = Ok tt ↔
  ∀ h r, m !! h = Some r → row_ok network false None now m lo h r.
Proof.
  intros Hf Hk. unfold replay_validate. rewrite Hf.
  assert (Hfloor : lo = 0 ∨ m !! (lo - 1) = None).
  { destruct (decide (lo = 0)) as [|Hne]; [by left|right].
    destruct (m !! (lo - 1)) eqn:Hm; [|done]. assert (is_Some (m !! (lo - 1))) as Hs by eauto.
    apply (interval_lookup m lo Hk) in Hs. lia. }
  rewrite <-(window_floor m lo Hfloor). rewrite (replay_loop_iff m now lo (bt_items m) lo).
  - setoid_rewrite elem_of_bt_items. done.
  - by rewrite length_bt_items.
  - intros k r. by rewrite elem_of_bt_items.
  - done.
Qed.

Lemma holds_checkpoint_other cp h raw :
  (∀ c, cp = Some c → cp_height c ≠ h) → holds_checkpoint cp h raw = true.
Proof.
  unfold holds_checkpoint. destruct cp as [c|]; [|done]. intros Hc. specialize (Hc c eq_refl).
  by rewrite (proj2 (N.eqb_neq h (cp_height c))) by done.
Qed.

Lemma genesis_row_ok_iff m :
  genesis_row_ok network m = true ↔
  (∀ g raw, expected_genesis network = Some g → m !! 0 = Some raw →
     ∃ hdr, deserialize raw = Some hdr ∧ block_hash hdr = g).
Proof.
  unfold genesis_row_ok. destruct (expected_genesis network) as [g|]; [|naive_solver].
  destruct (m !! 0) as [raw|]; [|naive_solver]. destruct (deserialize raw) as [hdr|] eqn:Hd.
  - rewrite N.eqb_eq. naive_solver.
  - split; [done|]. intros Hg. destruct (Hg g raw eq_refl eq_refl) as (? & ? & _). congruence.
Qed.

Lemma contradicts_iff cp m :
  contradicts cp m = false ↔ (∀ h raw, m !! h = Some raw → holds_checkpoint cp h raw = true).
Proof.
  unfold contradicts. destruct cp as [c|]; [|done]. split.
  - intros Hc h raw Hh. destruct (decide (cp_height c = h)) as [<-|Hn].
    + rewrite Hh in Hc. by apply negb_false_iff.
    + apply holds_checkpoint_other. by intros ? [= <-].
  - intros Hc. destruct (m !! cp_height c) as [raw|] eqn:Hm; [|done].
    apply negb_false_iff. by apply Hc.
Qed.

(** What the sanity check asks of a chain with rows. *)
Lemma sanity_check_iff cp m :
  m ≠ ∅ →
  sanity_check network cp m = Ok tt ↔
  ∃ lo, bt_first_key m = Some lo ∧ bt_keys m = nseq lo (size m) ∧
    lo mod (chain_interval network) = 0 ∧
    (∀ g raw, expected_genesis network = Some g → m !! 0 = Some raw →
       ∃ hdr, deserialize raw = Some hdr ∧ block_hash hdr = g) ∧
    (∀ h raw, m !! h = Some raw → holds_checkpoint cp h raw = true).
Proof.
  intros Hne. unfold sanity_check.
  destruct (bt_first_key m) as [lo|] eqn:Hf; [|by apply bt_first_key_None in Hf].
  destruct (bt_last_key m) as [hi|] eqn:Hl; [|by apply bt_last_key_None in Hl].
  assert (Hspan : hi - lo + 1 = N.of_nat (size m) ↔ bt_keys m = nseq lo (size m)).
  { split; [by intros ?; apply (bt_keys_contiguous m lo hi)|]. intros Hk.
    pose proof (proj1 (interval_lookup m lo Hk hi) (bt_last_key_elem m hi Hl)) as Hhi.
    assert (Htop : is_Some (m !! (lo + N.of_nat (size m) - 1)))
      by (apply (interval_lookup m lo Hk); lia).
    pose proof (bt_last_key_max m hi _ Hl Htop) as Hle. apply N.leb_le in Hle. lia. }
  destruct (N.eqb_spec (hi - lo + 1) (N.of_nat (size m))) as [Hs|Hs]; cbn [negb].
  2:{ split; [done|]. intros (lo' & [= <-] & Hk & _). by apply Hspan in Hk. }
  apply Hspan in Hs.
  assert (Hmod : negb (lo =? 0) && negb (lo mod chain_interval network =? 0) = false ↔
    lo mod chain_interval network = 0).
  { destruct (N.eqb_spec lo 0) as [->|]; simpl.
    - split; [intros _; by apply N.Div0.mod_0_l|done].
    - destruct (N.eqb_spec (lo mod chain_interval network) 0); naive_solver. }
  destruct (negb (lo =? 0) && _) eqn:Hb; [split; [done|naive_solver]|].
  pose proof (proj1 Hmod eq_refl) as Hbound. clear Hmod Hb.
  pose proof (genesis_row_ok_iff m) as Hgen. pose proof (contradicts_iff cp m) as Hcp.
  destruct (genesis_row_ok network m); cbn [negb]; [|split; [done|naive_solver]].
  destruct (contradicts cp m); [split; [done|naive_solver]|].
  split; [|done]. intros _. exists lo. naive_solver.
Qed.

(** The reload checks accept exactly the valid chains. *)
Lemma reload_iff cp now m :
  m ≠ ∅ →
  sanity_check network cp m = Ok tt ∧ replay_validate network now m = Ok tt ↔
  chain_ok network false cp now m.
Proof.
  intros Hne. rewrite sanity_check_iff by done. split.
  - intros [(lo & Hf & Hk & Hb & _ & Hcp) Hr]. right. exists lo.
    rewrite (replay_validate_iff m now lo Hf Hk) in Hr. apply chain_at_cp; [|done].
    pose proof (interval_lookup m lo Hk) as Hint. split; [|done|..|done].
    + by apply bt_first_key_elem.
    + intros h Hh%Hint. lia.
    + intros h k Hh%Hint Hkk. apply Hint. lia.
  - intros [?|[lo Hc]]; [done|]. destruct (chain_keys _ _ _ _ Hc) as (Hf & Hk & _).
    pose proof (chain_at_no_cp _ _ _ _ _ _ Hc) as Hnc. split.
    + exists lo. split_and!; [done|done|apply Hc| |].
      * intros g raw Hg Hraw. destruct (ca_rows _ _ _ _ _ _ Hc 0 raw Hraw) as (_ & hdr & Hd & Hv).
        exists hdr. split; [done|]. rewrite andb_false_r in Hv.
        destruct Hv as [Hv|[? _]]; [|done]. apply validate_append_Ok in Hv as (_ & _ & [[_ Hgen]|[? _]]); [by apply Hgen|done].
      * intros h raw Hh. by apply (ca_rows _ _ _ _ _ _ Hc) in Hh as [? _].
    + apply (replay_validate_iff m now lo Hf Hk). apply Hnc.
Qed.
End reload.

(** *** The mutators *)

Section mutators.
Context `{HeaderLib} `{!HeaderLaws} {S : Type} `{!Store S N raw_header}.
Context `{!StoreLaws S N raw_header} `{!StoreTotal S N raw_header}.
Implicit Types s : HeaderStore (S:=S).

(** The chain a store holds. *)
Definition chain s : gmap N raw_header := st_view (store s).

(** What no mutator changes. *)
Definition same_meta s s' : Prop :=
  hs_network s' = hs_network s ∧ checkpoint s' = checkpoint s ∧ writer_token s' = writer_token s ∧
  stopped s' = stopped s ∧ extend_down s' = extend_down s.

#[local] Instance same_meta_refl : Reflexive same_meta.
Proof. intros s. unfold same_meta. by split_and!. Qed.
#[local] Instance same_meta_trans : Transitive same_meta.
Proof. unfold same_meta. intros s s' s'' (?&?&?&?&?) (?&?&?&?&?). split_and!; congruence. Qed.

#[local] Hint Extern 0 (same_meta _ _) => (unfold same_meta; simpl; split_and!; reflexivity) : core.

Lemma peek_chain s k : peek s k = chain s !! k.
Proof.
  unfold peek. destruct (st_get_total (store s) k) as [v Hv]. rewrite Hv. by apply st_get_spec.
Qed.

Lemma read_keys_spec s : read_keys s = (s, Ok (bt_keys (chain s))).
Proof.
  unfold read_keys, st_keys. destruct (st_iter_total (store s)) as [l Hl]. rewrite Hl. simpl.
  by rewrite (st_iter_spec _ _ Hl).
Qed.

Lemma insert_row_spec s h raw :
  ∃ s', insert_row h raw s = (s', Ok tt) ∧ chain s' = <[h := raw]> (chain s) ∧ same_meta s s' ∧
    validation_state s' = validation_state s.
Proof.
  destruct (st_insert_total (store s) h raw) as (st & o & Hi).
  exists (set_store s st). unfold insert_row, ebind, on_store. rewrite Hi. simpl.
  split_and!; [done| |done|done]. unfold chain. simpl. by rewrite (st_insert_spec _ _ _ _ _ Hi).
Qed.

Lemma remove_row_spec s k :
  ∃ s' o, on_store (st_remove k) s = (s', Ok o) ∧ chain s' = delete k (chain s) ∧ same_meta s s'.
Proof.
  destruct (st_remove_total (store s) k) as (st & o & Hi).
  exists (set_store s st), o. unfold on_store. rewrite Hi. simpl.
  split_and!; [done| |done]. unfold chain. simpl. by rewrite (st_remove_spec _ _ _ _ Hi).
Qed.

Lemma flush_spec s s' r :
  on_store st_flush s = (s', r) → chain s' = chain s ∧ same_meta s s'.
Proof.
  unfold on_store. destruct (st_flush (store s)) as [st res] eqn:Hf. intros [= <- _].
  split; [|done]. unfold chain. simpl. by apply (st_flush_spec _ _ _ Hf).
Qed.

(** Removing a list of rows. *)
Lemma remove_rows_spec ks s :
  ∃ s', efor ks (λ key, do! _ := on_store (st_remove key) in eret tt) s = (s', Ok tt) ∧
    same_meta s s' ∧ ∀ k, chain s' !! k = if bool_decide (k ∈ ks) then None else chain s !! k.
Proof.
  revert s; induction ks as [|k ks IH]; intros s; simpl.
  { exists s. by split_and!. }
  destruct (remove_row_spec s k) as (s1 & o & Hr & Hc & Hm).
  destruct (IH s1) as (s' & Hs' & Hm' & Hc'). exists s'.
  unfold ebind at 1 2. rewrite Hr. simpl. rewrite Hs'. split_and!; [done|by etrans|].
  intros j. rewrite Hc', Hc. destruct (decide (j = k)) as [->|Hne].
  - rewrite lookup_delete_eq, (bool_decide_eq_true_2 (k ∈ k :: ks)) by set_solver.
    by destruct (bool_decide _).
  - rewrite lookup_delete_ne by done. do 2 case_bool_decide; set_solver.
Qed.

Lemma clear_inner_spec s s' r :
  clear_inner s = (s', r) → chain s' = ∅ ∧ same_meta s s'.
Proof.
  unfold clear_inner. unfold ebind at 1. rewrite read_keys_spec. unfold ebind.
  destruct (remove_rows_spec (bt_keys (chain s)) s) as (s1 & Hs1 & Hm & Hc).
  unfold ebind in Hs1. rewrite Hs1. intros (Hf & Hm')%flush_spec. split; [|by etrans].
  rewrite Hf. apply map_eq. intros k. rewrite Hc, lookup_empty. case_bool_decide as Hin; [done|].
  destruct (chain s !! k) eqn:Hk; [|done]. exfalso. apply Hin, elem_of_bt_keys. eauto.
Qed.

Lemma hold_checkpoint_spec h raw s s' r :
  hold_checkpoint h raw s = (s', r) →
  (r = Ok tt ∧ s' = s ∧ holds_checkpoint (checkpoint s) h raw = true) ∨
  ((∃ e, r = Err e) ∧ chain s' = ∅ ∧ same_meta s s').
Proof.
  unfold hold_checkpoint. destruct (holds_checkpoint _ _ _) eqn:Hh; [intros [= <- <-]; by left|].
  intros Hr. right. apply ebind_inv in Hr as [(e & Hc & ->)|(s1 & [] & Hc & Hr)].
  - apply clear_inner_spec in Hc as [??]. eauto.
  - apply clear_inner_spec in Hc as [Hc Hm]. unfold ebind, modify_self, ethrow in Hr.
    injection Hr as <- <-. eauto.
Qed.

(** The chain of the store is valid as of [now]. *)
Definition good (rx : bool) (now : N) s : Prop :=
  chain_ok (hs_network s) rx (checkpoint s) now (chain s).

Section relaxed.
Context (rx : bool).

Lemma good_empty now s : chain s = ∅ → good rx now s.
Proof. intros Hc. left. done. Qed.

Lemma good_meta now s s' : same_meta s s' → chain s' = chain s → good rx now s → good rx now s'.
Proof. intros (Hn & Hc & _) Hch. unfold good. by rewrite Hn, Hc, Hch. Qed.

Lemma mutate_good now token f s s' r :
  (∀ s s' r, good rx now s → f s = (s', r) → good rx now s') →
  good rx now s → mutate token f s = (s', r) → good rx now s'.
Proof.
  intros Hf Hs. unfold mutate, with_writer. destruct (negb _); [by intros [= <- _]|].
  destruct (f s) as [s1 [[]|e]] eqn:Hfs; intros [= <- _]; [|by eapply Hf].
  eapply good_meta; [| |by eapply Hf]; done.
Qed.

(** The height a header may be appended at: right above the tip, or anywhere on an
    empty chain. *)
Definition next_height s (h : N) : Prop :=
  chain s = ∅ ∨ (0 < h ∧ is_Some (chain s !! (h - 1)) ∧ ∀ k, is_Some (chain s !! k) → k < h).

Lemma append_row_good now s s' h raw hdr :
  good rx now s → next_height s h → deserialize raw = Some hdr →
  validate_append (hs_network s) (window (hs_network s) (chain s) h) h hdr now = Ok tt →
  holds_checkpoint (checkpoint s) h raw = true →
  chain s' = <[h := raw]> (chain s) → same_meta s s' → good rx now s'.
Proof.
  intros Hs Hnext Hd Hv Hcp Hc (Hn & Hk & _). unfold good. rewrite Hn, Hk, Hc.
  destruct Hnext as [Hempty|(Hpos & Hprev & Htop)].
  - rewrite Hempty in *. right. exists h.
    assert (h = 0) as ->.
    { destruct (decide (h = 0)) as [|Hne]; [done|].
      apply validate_append_Ok in Hv as (_ & _ & [[? _]|(_ & prev & Hlast & _)]); [done|].
      exfalso. revert Hlast. unfold window.
      replace (down _ _ h) with ([] : list Header); [done|].
      pose proof (I_pos (hs_network s)). destruct (N.to_nat _) as [|n] eqn:Hi; [done|].
      cbn [down]. rewrite (proj2 (N.eqb_neq h 0) Hne). by rewrite lookup_empty. }
    rewrite insert_empty. apply chain_start; [by apply N.Div0.mod_0_l|].
    split; [done|]. exists hdr. split; [done|]. by left.
  - destruct Hs as [He|[lo Hlo]]; [rewrite He in Hprev; by destruct Hprev|].
    right. exists lo. apply chain_extend; try done. split; [done|]. exists hdr. split; [done|].
    pose proof (Htop lo (ca_lo _ _ _ _ _ _ Hlo)). rewrite (proj2 (N.eqb_neq h lo)) by lia. by left.
Qed.

Lemma append_body_good now h raw hdr s s' r :
  good rx now s → next_height s h → deserialize raw = Some hdr →
  append_body now h raw hdr s = (s', r) → good rx now s'.
Proof.
  intros Hs Hnext Hd. unfold append_body. unfold ebind at 1, eget.
  rewrite (collect_ancestors_down (hs_network s)).
  rewrite (down_agree _ (λ k, chain s !! k ≫= deserialize)) by (intros; by rewrite peek_chain).
  fold (window (hs_network s) (chain s) h).
  intros [(e & Hv & ->)|(s1 & [] & Hv & Hr)]%ebind_inv.
  { unfold elift in Hv. by injection Hv as <- _. }
  unfold elift in Hv. injection Hv as <- Hv.
  destruct (validate_append _ _ _ _ _) as [[]|] eqn:Hval in Hv; [clear Hv|done].
  apply ebind_inv in Hr as [(e & Hh & ->)|(s1 & [] & Hh & Hr)];
    apply hold_checkpoint_spec in Hh as [(? & -> & Hcp)|([? ?] & Hc & Hm)]; try done.
  { by apply good_empty. }
  unfold ebind at 1 in Hr. rewrite read_keys_spec in Hr. unfold ebind at 1 in Hr.
  destruct (insert_row_spec s h raw) as (s2 & Hi & Hc2 & Hm2 & _). rewrite Hi in Hr.
  assert (Hg2 : good rx now s2) by (by eapply append_row_good).
  apply ebind_inv in Hr as [(e & Hf & ->)|(s3 & [] & Hf & Hr)]; apply flush_spec in Hf as [Hc3 Hm3].
  { by eapply good_meta. }
  unfold modify_self in Hr. injection Hr as <- _.
  eapply good_meta; [| |eapply good_meta; [exact Hm3|exact Hc3|exact Hg2]];
    destruct (validation_state s3); try done; by case_match.
Qed.

Lemma append_good now token h raw s s' r :
  good rx now s → next_height s h → append now token h raw s = (s', r) → good rx now s'.
Proof.
  intros Hs Hnext. unfold append. destruct (deserialize raw) as [hdr|] eqn:Hd; [|by intros [= <- _]].
  unfold mutate, with_writer. destruct (negb _); [by intros [= <- _]|].
  destruct (append_body now h raw hdr s) as [s1 res] eqn:Hb.
  pose proof (append_body_good _ _ _ _ _ _ _ Hs Hnext Hd Hb) as Hg.
  destruct res as [[]|e]; intros [= <- _]; [|done]. by eapply good_meta.
Qed.

Lemma window_empty network h : window network ∅ h = [].
Proof.
  unfold window. destruct (N.to_nat _); [done|]. cbn [down]. destruct (h =? 0); [done|].
  by rewrite lookup_empty.
Qed.

Lemma next_height_insert s s' h raw :
  next_height s h → chain s' = <[h := raw]> (chain s) → next_height s' (h + 1).
Proof.
  intros Hnext Hc. right. rewrite Hc. split_and!; [lia| |].
  - replace (h + 1 - 1) with h by lia. rewrite lookup_insert_eq. eauto.
  - intros k [<-|Hk]%lookup_insert_is_Some'; [lia|].
    destruct Hnext as [He|(_ & _ & Htop)]; [rewrite He, lookup_empty in Hk; by destruct Hk|].
    specialize (Htop k Hk). lia.
Qed.

(** The check of one header of a batch. *)
Lemma batch_row_ok now was_empty first h hdr raw s s' r :
  good rx now s → next_height s h → deserialize raw = Some hdr →
  (was_empty && first = true → chain s = ∅) →
  (was_empty && first = false → chain s ≠ ∅) →
  (if was_empty && first && (0 <? h) then
     if negb (h mod chain_interval (hs_network s) =? 0) then ethrow BadAnchor
     else elift (rmap_err Validate (check_pow (params (hs_network s)) hdr))
   else elift (rmap_err Validate
     (validate_append (hs_network s) (window (hs_network s) (chain s) h) h hdr now))) s = (s', r) →
  s' = s ∧ (r = Ok tt → holds_checkpoint (checkpoint s) h raw = true →
    ∀ s2, chain s2 = <[h := raw]> (chain s) → same_meta s s2 → good rx now s2).
Proof.
  intros Hs Hnext Hd He Hne. unfold elift, ethrow. destruct (was_empty && first) eqn:Hf.
  - specialize (He eq_refl). destruct (N.ltb_spec 0 h) as [Hpos|Hz].
    + simpl. destruct (N.eqb_spec (h mod chain_interval (hs_network s)) 0) as [Hb|]; simpl;
        [|by intros [= <- <-]].
      intros [= <- <-]. split; [done|]. intros Hp Hcp s2 Hc (Hn & Hk & _).
      destruct (check_pow _ _) as [[]|] eqn:Hpow in Hp; [|done].
      right. exists h. rewrite Hn, Hk, Hc, He, insert_empty. apply chain_start; [done|].
      split; [done|]. exists hdr. split; [done|]. rewrite N.eqb_refl.
      by rewrite (proj2 (N.ltb_lt 0 h) Hpos).
    + simpl. intros [= <- <-]. split; [done|]. intros Hv Hcp s2 Hc Hm.
      destruct (validate_append _ _ _ _ _) as [[]|] eqn:Hval in Hv; [|done].
      by eapply append_row_good.
  - simpl. intros [= <- <-]. split; [done|]. intros Hv Hcp s2 Hc Hm.
    destruct (validate_append _ _ _ _ _) as [[]|] eqn:Hval in Hv; [|done].
    by eapply append_row_good.
Qed.

Lemma append_loop_good now was_empty first h ancestors raws s s' r :
  good rx now s → next_height s h → ancestors = window (hs_network s) (chain s) h →
  (was_empty && first = true → chain s = ∅) →
  (was_empty && first = false → chain s ≠ ∅) →
  append_loop now was_empty first h ancestors raws s = (s', r) → good rx now s'.
Proof.
  revert first h ancestors s. induction raws as [|raw raws IH];
    intros first h ancestors s Hs Hnext -> He Hne; simpl.
  { unfold eret. by intros [= <- _]. }
  destruct (deserialize raw) as [hdr|] eqn:Hd; [|unfold ethrow; by intros [= <- _]].
  unfold ebind at 1, eget. intros [(e & Hv & ->)|(s1 & [] & Hv & Hr)]%ebind_inv.
  { by destruct (batch_row_ok _ _ _ _ _ _ _ _ _ Hs Hnext Hd He Hne Hv) as [-> _]. }
  destruct (batch_row_ok _ _ _ _ _ _ _ _ _ Hs Hnext Hd He Hne Hv) as [-> Hok].
  apply ebind_inv in Hr as [(e & Hh & ->)|(s1 & [] & Hh & Hr)];
    apply hold_checkpoint_spec in Hh as [(? & -> & Hcp)|([? ?] & Hc & Hm)]; try done.
  { by apply good_empty. }
  destruct (insert_row_spec s h raw) as (s2 & Hi & Hc2 & Hm2 & _).
  unfold ebind at 1 in Hr. rewrite Hi in Hr. eapply (IH _ _ _ s2); [..|exact Hr].
  - by eapply Hok.
  - by eapply next_height_insert.
  - destruct Hm2 as [-> _]. rewrite Hc2.
    rewrite <-(push_window_spec _ _ h raw hdr Hd) by apply lookup_insert_eq. f_equal.
    apply window_agree. intros k Hk. rewrite lookup_insert_ne; [done|lia].
  - rewrite andb_false_r. done.
  - intros _. rewrite Hc2. apply insert_non_empty.
Qed.

Lemma append_batch_good now token start raws s s' r :
  good rx now s → next_height s start → append_batch now token start raws s = (s', r) → good rx now s'.
Proof.
  intros Hs Hnext. unfold append_batch. destruct raws as [|raw raws]; [by intros [= <- _]|].
  unfold mutate, with_writer. destruct (negb _); [by intros [= <- _]|].
  destruct (append_batch_body now start (raw :: raws) s) as [s1 res] eqn:Hb.
  assert (Hg : good rx now s1).
  { revert Hb. unfold append_batch_body. unfold ebind at 1. rewrite read_keys_spec.
    unfold ebind at 1, eget. set (we := (length (bt_keys (chain s)) =? 0)%nat).
    assert (Hwe : if we then chain s = ∅ else chain s ≠ ∅).
    { unfold we, bt_keys. rewrite length_fmap. destruct (Nat.eqb_spec (length (bt_items (chain s))) 0)
        as [Hz|Hz]; [by apply bt_items_nil, length_zero_iff_nil|].
      intros Hc. rewrite Hc in Hz. done. }
    assert (Hanc : (if we then [] else
        collect_ancestors start (chain_interval (hs_network s)) (peek s)) =
      window (hs_network s) (chain s) start).
    { destruct we; [by rewrite Hwe, window_empty|]. rewrite (collect_ancestors_down (hs_network s)).
      unfold window. f_equal. apply down_agree. intros k _. by rewrite peek_chain. }
    rewrite Hanc. intros [(e & Hl & ->)|(s2 & [] & Hl & Hr)]%ebind_inv;
      (eapply append_loop_good in Hl; [|done|done|done|destruct we; naive_solver..]); [done|].
    apply ebind_inv in Hr as [(e & Hf & ->)|(s3 & [] & Hf & Hr)]; apply flush_spec in Hf as [Hc3 Hm3].
    { by eapply good_meta. }
    unfold modify_self in Hr. injection Hr as <- _.
    eapply good_meta; [| |eapply good_meta; [exact Hm3|exact Hc3|exact Hl]]; done. }
  destruct res as [[]|e]; intros [= <- _]; [|done]. by eapply good_meta.
Qed.

Lemma insert_checked_spec rows s s' r :
  insert_checked rows s = (s', r) → same_meta s s' ∧
  ((r = Ok tt ∧ chain s' = foldl (λ m row, <[row.1 := row.2]> m) (chain s) rows ∧
    Forall (λ row, holds_checkpoint (checkpoint s) row.1 row.2 = true) rows) ∨
   ((∃ e, r = Err e) ∧ chain s' = ∅)).
Proof.
  unfold insert_checked. revert s; induction rows as [|[h raw] rows IH]; intros s; simpl.
  { unfold eret. intros [= <- <-]. split; [done|]. left. by split_and!. }
  intros [(e & Hh & ->)|(s1 & [] & Hh & Hr)]%ebind_inv.
  - apply ebind_inv in Hh as [(e' & Hh & _)|(s1 & [] & Hh & Hi)];
      apply hold_checkpoint_spec in Hh as [(? & -> & Hcp)|([? ?] & Hc & Hm)]; try done.
    + split; [done|]. right. eauto.
    + destruct (insert_row_spec s h raw) as (s2 & Hi' & _). congruence.
  - apply ebind_Ok in Hh as (s0 & [] & Hh & Hi).
    apply hold_checkpoint_spec in Hh as [(_ & -> & Hcp)|([? ?] & _)]; [|done].
    destruct (insert_row_spec s h raw) as (s2 & Hi' & Hc2 & Hm2 & _).
    rewrite Hi' in Hi. injection Hi as <-.
    destruct (IH _ Hr) as [Hm Hcase]. destruct (Hm2) as (_ & Hcpe & _). split; [by etrans|].
    destruct Hcase as [(-> & Hc & Hall)|?]; [left|by right]. rewrite Hc, Hc2.
    split_and!; [done|done|]. constructor; [done|]. by rewrite <-Hcpe.
Qed.

Lemma foldl_insert_union (l : list (N * raw_header)) (m : gmap N raw_header) :
  NoDup l.*1 → foldl (λ m row, <[row.1 := row.2]> m) m l = list_to_map l ∪ m.
Proof.
  revert m; induction l as [|[k r] l IH]; intros m Hnd; simpl; [by rewrite map_empty_union|].
  apply NoDup_cons in Hnd as [Hk Hnd]. rewrite IH by done.
  rewrite <-insert_union_l. symmetry. apply insert_union_r. by apply not_elem_of_list_to_map_1.
Qed.

Lemma bt_items_union (rows m : gmap N raw_header) :
  foldl (λ m row, <[row.1 := row.2]> m) m (bt_items rows) = rows ∪ m.
Proof.
  rewrite foldl_insert_union by apply NoDup_bt_keys. f_equal.
  transitivity (list_to_map (map_to_list rows) : gmap N raw_header); [|apply list_to_map_to_list].
  apply list_to_map_proper; [apply NoDup_bt_keys|apply bt_items_perm].
Qed.

(** What [replace_branch] leaves: nothing done by a superseded writer, an empty
    chain if the branch contradicts the checkpoint, else the branch on top of the
    rows up to the fork. *)
Lemma replace_branch_spec token fork_h branch s s' r :
  replace_branch token fork_h branch s = (s', r) → same_meta s s' ∧
  (chain s' = chain s ∧ writer_token s ≠ token ∨ chain s' = ∅ ∨
   chain s' = branch ∪ truncate fork_h (chain s) ∧
   ∀ h raw, branch !! h = Some raw → holds_checkpoint (checkpoint s) h raw = true).
Proof.
  unfold replace_branch, mutate, with_writer.
  destruct (N.eqb_spec (writer_token s) token) as [Ht|Ht]; simpl; [|intros [= <- _]; by eauto].
  destruct (replace_branch_body fork_h branch s) as [s1 res] eqn:Hb. intros Hr.
  assert (Hend : same_meta s1 s' ∧ chain s' = chain s1)
    by (destruct res as [[]|e]; injection Hr as <- _; done).
  destruct Hend as [Hm' Hc']. rewrite Hc'. clear Hr Hc' r.
  cut (same_meta s s1 ∧ (chain s1 = ∅ ∨ chain s1 = branch ∪ truncate fork_h (chain s) ∧
    ∀ h raw, branch !! h = Some raw → holds_checkpoint (checkpoint s) h raw = true)).
  { intros [Hm ?]. split; [by etrans|by right]. }
  revert Hb. unfold replace_branch_body. unfold ebind at 1. rewrite read_keys_spec.
  destruct (remove_rows_spec (List.filter (λ k, fork_h <? k) (bt_keys (chain s))) s)
    as (s2 & Hs2 & Hm2 & Hc2).
  intros [(e & Hx & ->)|(s2' & [] & Hx & Hr)]%ebind_inv; rewrite Hs2 in Hx; [done|].
  injection Hx as <-.
  assert (Htrunc : chain s2 = truncate fork_h (chain s)).
  { apply map_eq. intros k. rewrite Hc2, truncate_lookup. case_bool_decide as Hin.
    - apply list_elem_of_In, filter_In in Hin as [_ Hk%N.ltb_lt].
      by rewrite (proj2 (N.leb_gt k fork_h) Hk).
    - destruct (N.leb_spec k fork_h) as [|Hk]; [done|].
      destruct (chain s !! k) eqn:Hsk; [|done]. exfalso. apply Hin.
      apply list_elem_of_In, filter_In. rewrite <-list_elem_of_In, elem_of_bt_keys.
      split; [eauto|by apply N.ltb_lt]. }
  assert (Hcpe : checkpoint s2 = checkpoint s) by apply Hm2.
  apply ebind_inv in Hr as [(e & Hi & ->)|(s3 & [] & Hi & Hr)];
    apply insert_checked_spec in Hi as [Hm3 [(He & Hc3 & Hall)|([? ?] & Hc3)]]; try done.
  { split; [by etrans|by left]. }
  rewrite bt_items_union, Htrunc in Hc3.
  assert (Hdone : same_meta s3 s1 ∧ chain s1 = chain s3).
  { apply ebind_inv in Hr as [(e & Hf & ->)|(s4 & [] & Hf & Hr)]; apply flush_spec in Hf as [? ?];
      [done|]. unfold modify_self in Hr. injection Hr as <- _. split; [etrans; [done|]; done|done]. }
  destruct Hdone as [Hm4 Hc4]. split; [etrans; [exact Hm2|by etrans]|]. right. rewrite Hc4.
  split; [done|]. intros h raw Hh. rewrite <-Hcpe. rewrite Forall_forall in Hall.
  apply (Hall (h, raw)). by apply elem_of_bt_items.
Qed.

Lemma raw_map_spec s : raw_map s = Ok (chain s).
Proof.
  unfold raw_map. destruct (st_iter_total (store s)) as [l Hl]. rewrite Hl. simpl.
  rewrite (st_iter_spec _ _ Hl). f_equal.
  transitivity (list_to_map (map_to_list (chain s)) : gmap N raw_header); [|apply list_to_map_to_list].
  apply list_to_map_proper; [apply NoDup_bt_keys|apply bt_items_perm].
Qed.

Lemma switch_branch_spec now token fork_h incoming_h buffer s :
  let s' := switch_branch now token fork_h incoming_h buffer s in
  good rx now s → is_Some (chain s !! fork_h) → fork_h < u32_max →
  good rx now s' ∧
  (chain s' = chain s ∨ chain s' = ∅ ∨
   (∀ k, k ≤ fork_h → chain s' !! k = chain s !! k) ∧
   map_work (filter (λ kv, (fork_h + 1 <=? kv.1) = true) (chain s)) <
   map_work (filter (λ kv, (fork_h + 1 <=? kv.1) = true) (chain s'))).
Proof.
  intros s' Hs Hf Hlt. unfold s', switch_branch. rewrite raw_map_spec.
  destruct (branch_validate _ _ _ _ _ _) as [b|] eqn:Hb; [|by auto].
  destruct (has_more_work_than_active b (chain s) fork_h) as [[]|] eqn:Hw; [|by auto..].
  destruct (replace_branch token fork_h (branch_headers b) s) as [s1 r] eqn:Hr. simpl.
  destruct Hs as [He|[lo Hlo]]; [rewrite He in Hf; by destruct Hf|].
  destruct (branch_validate_Ok _ _ _ _ _ _ _ _ _ _ Hlo Hf Hlt Hb) as (Hc & Habove & Hwork).
  apply replace_branch_spec in Hr as [Hm Hcase]. destruct (Hm) as (Hn & Hk & _).
  destruct Hcase as [[Hch _]|[Hch|[Hch Hcp]]].
  { split; [|by auto]. eapply good_meta; [done|done|]. right. eauto. }
  { split; [by apply good_empty|by auto]. }
  split.
  - right. exists lo. rewrite Hn, Hk, Hch. apply chain_at_cp; [done|].
    intros h raw [Hh|[_ Hh]]%lookup_union_Some_raw; [by eapply Hcp|].
    rewrite truncate_lookup in Hh. destruct (h <=? fork_h); [|done].
    by apply (ca_rows _ _ _ _ _ _ Hlo) in Hh as [? _].
  - right. right. rewrite Hch. split.
    + intros k Hkf. rewrite lookup_union_r.
      * rewrite truncate_lookup. by rewrite (proj2 (N.leb_le k fork_h) Hkf).
      * destruct (branch_headers b !! k) eqn:Hbk; [|done].
        specialize (Habove k ltac:(eauto)). lia.
    + revert Hw. unfold has_more_work_than_active.
      replace (sat_add u32_max fork_h 1) with (fork_h + 1) by (unfold sat_add, u32_max in *; lia).
      intros (w & Hw%rows_work_Ok & [= Hgt%N.ltb_lt])%rbind_Ok.
      rewrite (bt_range_work (λ h, fork_h + 1 <=? h)) in Hw.
      replace (filter (λ kv, (fork_h + 1 <=? kv.1) = true)
        (branch_headers b ∪ truncate fork_h (chain s))) with (branch_headers b); [lia|].
      apply map_eq. intros k. symmetry. destruct (N.leb_spec (fork_h + 1) k) as [Hle|Hgt'].
      * destruct (branch_headers b !! k) as [r'|] eqn:Hbk.
        -- apply map_lookup_filter_Some. split; [by apply lookup_union_Some_l|].
           simpl. by apply N.leb_le.
        -- apply map_lookup_filter_None. left. rewrite lookup_union_r by done.
           rewrite truncate_lookup. by rewrite (proj2 (N.leb_gt k fork_h)) by lia.
      * transitivity (@None raw_header).
        -- apply map_lookup_filter_None. right. simpl. intros x _ Hx%N.leb_le. lia.
        -- destruct (branch_headers b !! k) eqn:Hbk; [|done].
           specialize (Habove k ltac:(eauto)). lia.
Qed.

End relaxed.

(** *** Extending downwards *)

(** The window over a longer chain: the old one, after older headers if it was
    not full. *)
Lemma down_extend get get' n h :
  (∀ k hdr, get k = Some hdr → get' k = Some hdr) →
  ∃ rest, down get' n h = down get n h ++ rest ∧ (rest = [] ∨ (length (down get n h) < n)%nat).
Proof.
  intros Hg. revert h; induction n as [|n IH]; intros h; cbn [down]; [by exists []; auto|].
  destruct (h =? 0); [by exists []; auto|]. destruct (get (h - 1)) as [hdr|] eqn:Hh.
  - rewrite (Hg _ _ Hh). destruct (IH (h - 1)) as (rest & -> & Hr). exists rest. split; [done|].
    destruct Hr as [->|Hr]; [by left|right; simpl; lia].
  - eexists. split; [done|]. right. simpl. lia.
Qed.

Lemma down_length_eq get n h lo :
  (∀ k, lo ≤ k < h → is_Some (get k)) → (∀ k, k < lo → get k = None) → lo ≤ h →
  length (down get n h) = Nat.min n (N.to_nat (h - lo)).
Proof.
  revert h; induction n as [|n IH]; intros h Hk Hlo Hle; cbn [down]; [done|].
  destruct (N.eqb_spec h 0) as [->|Hh]; [done|].
  destruct (decide (h = lo)) as [->|Hne].
  - rewrite Hlo by lia. by rewrite N.sub_diag.
  - destruct (Hk (h - 1)) as [hdr ->]; [lia|]. cbn [length].
    rewrite IH; [lia|intros k ?; apply Hk; lia|done|lia].
Qed.

(** Below a row of a valid chain from [lo], in a longer chain that agrees with it. *)
Lemma window_below network now m m' lo h :
  chain_at network false None now m lo → is_Some (m !! h) → lo < h →
  (∀ k, lo ≤ k → m' !! k = m !! k) →
  ∃ rest, window network m' h = rest ++ window network m h ∧ window network m h ≠ [] ∧
    (rest = [] ∨ N.of_nat (length (window network m h)) = h - lo ∧ h - lo < chain_interval network).
Proof.
  intros Hm Hh Hlt Hagree. unfold window. set (n := N.to_nat (chain_interval network)).
  assert (Hlen : length (down (λ k, m !! k ≫= deserialize) n h) = Nat.min n (N.to_nat (h - lo))).
  { apply down_length_eq; [| |lia].
    - intros k Hk. destruct (ca_below _ _ _ _ _ _ Hm h k Hh) as [r Hr]; [lia|].
      destruct (ca_rows _ _ _ _ _ _ Hm k r Hr) as (_ & hdr & Hd & _). rewrite Hr. simpl. eauto.
    - intros k Hk. destruct (m !! k) eqn:Hmk; [|done].
      pose proof (ca_above _ _ _ _ _ _ Hm k ltac:(eauto)). lia. }
  destruct (down_extend (λ k, m !! k ≫= deserialize) (λ k, m' !! k ≫= deserialize) n h)
    as (rest & -> & Hrest).
  { intros k hdr Hk. destruct (m !! k) as [r|] eqn:Hmk; [|done].
    by rewrite Hagree, Hmk by (apply (ca_above _ _ _ _ _ _ Hm); eauto). }
  pose proof (I_pos network). exists (rev rest). rewrite rev_app_distr, length_rev, Hlen.
  split_and!; [done| |].
  - intros Hnil. apply (f_equal length) in Hnil. rewrite length_rev, Hlen in Hnil. simpl in Hnil. lia.
  - destruct Hrest as [->|Hr]; [by left|right]. rewrite Hlen in Hr. lia.
Qed.

(** More history changes the verdict on a header only through the median: the
    retarget rule reads a full period. *)
Lemma validate_append_more network rest ancestors h hdr now :
  ancestors ≠ [] →
  (h mod chain_interval network = 0 → rest = []) →
  check_mtp network (rest ++ ancestors) hdr = Ok tt →
  validate_append network ancestors h hdr now = Ok tt →
  validate_append network (rest ++ ancestors) h hdr now = Ok tt.
Proof.
  intros Hne Hfull Hmtp. unfold validate_append.
  destruct (check_future_cap hdr now); cbn [rbind]; [|done].
  destruct (h =? 0); [done|]. rewrite last_app.
  destruct (last ancestors) as [prev|] eqn:Hl; [|by apply last_None in Hl]. cbn [ok_or rbind].
  destruct (check_pow _ _); cbn [rbind]; [|done]. destruct (check_linkage _ _); cbn [rbind]; [|done].
  assert (Hret : check_retarget (params network) (rest ++ ancestors) h prev hdr =
    check_retarget (params network) ancestors h prev hdr).
  { unfold check_retarget, chain_interval in *.
    destruct (N.eqb_spec (h mod HeaderValidator.retarget_interval (params network)) 0) as [Hb|];
      [by rewrite (Hfull Hb)|done]. }
  rewrite Hret, Hmtp. set (c := match network with Testnet | Testnet4 => Ok tt | _ => _ end).
  by destruct c.
Qed.

Lemma check_mtp_long network rest ancestors hdr :
  (MTP_WINDOW ≤ length ancestors)%nat →
  check_mtp network (rest ++ ancestors) hdr = check_mtp network ancestors hdr.
Proof.
  intros Hlen. unfold MTP_WINDOW in Hlen. unfold check_mtp. destruct network; try done.
  all: rewrite length_app, !Nat.min_r by (unfold MTP_WINDOW; lia);
    rewrite drop_app_ge by (unfold MTP_WINDOW; lia);
    replace (length rest + length ancestors - MTP_WINDOW - length rest)%nat
      with (length ancestors - MTP_WINDOW)%nat by (unfold MTP_WINDOW; lia);
    by rewrite !(proj2 (Nat.eqb_neq _ 0)) by lia.
Qed.

(** The rows of a valid chain stay valid over a longer one, if the first of them
    are after the median of the longer window. *)
Lemma row_ok_below network now m m' low lo h raw :
  chain_at network false None now m lo → m !! h = Some raw → low ≤ lo < h →
  (∀ k, lo ≤ k → m' !! k = m !! k) →
  (∀ hdr, deserialize raw = Some hdr → h < lo + N.of_nat MTP_WINDOW →
     check_mtp network (window network m' h) hdr = Ok tt) →
  row_ok network false None now m' low h raw.
Proof.
  intros Hm Hh [Hle Hlt] Hagree Hmtp. destruct (ca_rows _ _ _ _ _ _ Hm h raw Hh) as (_ & hdr & Hd & Hv).
  split; [done|]. exists hdr. split; [done|]. specialize (Hmtp hdr Hd).
  rewrite (proj2 (N.eqb_neq h low)) by lia. rewrite (proj2 (N.eqb_neq h lo)) in Hv by lia.
  cbn [andb] in *. destruct Hv as [Hv|[? _]]; [left|done].
  destruct (window_below _ _ _ m' _ h Hm ltac:(eauto) Hlt Hagree) as (rest & Hw & Hne & Hrest).
  rewrite Hw in *. apply validate_append_more; [done| | |done].
  - intros Hb. destruct Hrest as [->|[_ Hlt']]; [done|]. exfalso.
    pose proof (ca_boundary _ _ _ _ _ _ Hm) as Hlb.
    apply N.Lcm0.mod_divide in Hb as [a ->]. apply N.Lcm0.mod_divide in Hlb as [b ->].
    assert (Hab : b + 1 ≤ a) by (destruct (N.le_gt_cases (b + 1) a); [done|]; exfalso;
      assert (a ≤ b) as Hc%(N.mul_le_mono_r _ _ (chain_interval network)) by lia; lia).
    apply (N.mul_le_mono_r _ _ (chain_interval network)) in Hab. lia.
  - destruct (N.lt_ge_cases h (lo + N.of_nat MTP_WINDOW)) as [Hl|Hge]; [by apply Hmtp|].
    assert (Hold : check_mtp network (window network m h) hdr = Ok tt).
    { apply validate_append_Ok in Hv as (_ & _ & [[? _]|(_ & prev & Hl & _ & _ & Hmed)]); [lia|].
      by apply check_mtp_Ok. }
    destruct Hrest as [->|[Hlen _]]; [done|]. rewrite check_mtp_long; [done|lia].
Qed.

(** In a relaxed chain they stay valid without that condition. *)
Lemma row_ok_relaxed network now m m' low lo h raw :
  chain_at network true None now m lo → m !! h = Some raw → low < lo < h →
  (∀ k, lo ≤ k → m' !! k = m !! k) → row_ok network true None now m' low h raw.
Proof.
  intros Hm Hh [Hle Hlt] Hagree. destruct (ca_rows _ _ _ _ _ _ Hm h raw Hh) as (_ & hdr & Hd & Hv).
  split; [done|]. exists hdr. split; [done|].
  rewrite (proj2 (N.eqb_neq h low)) by lia. rewrite (proj2 (N.eqb_neq h lo)) in Hv by lia.
  cbn [andb] in *. right. split; [done|].
  assert (Habove : ∀ f, lo ≤ f → above f m' = above f m).
  { intros f Hf. apply map_eq. intros k. unfold above. rewrite !map_lookup_filter.
    destruct (decide (f ≤ k)) as [Hk|Hk]; [by rewrite Hagree by lia|].
    destruct (m' !! k), (m !! k); simpl; try rewrite option_guard_False by done; done. }
  destruct Hv as [Hv|(_ & f & Hf & Hb & Hv)].
  - exists lo. split; [done|]. split; [by apply (ca_boundary _ _ _ _ _ _ Hm)|].
    rewrite Habove by done. unfold above. rewrite map_filter_id; [done|].
    intros k r Hk. by apply (ca_above _ _ _ _ _ _ Hm); eauto.
  - exists f. split; [lia|]. split; [done|]. by rewrite Habove by lia.
Qed.

(** A valid range that ends in the floor of a valid chain, put below it. *)
Lemma chain_glue network rx now (range m : gmap N raw_header) low floor :
  chain_at network rx None now m floor →
  chain_at network rx None now range low → low ≤ floor →
  range !! floor = m !! floor → (∀ k, is_Some (range !! k) → k ≤ floor) →
  (∀ h raw, (∀ k, floor ≤ k → (range ∪ m) !! k = m !! k) → m !! h = Some raw → floor < h →
     row_ok network rx None now (range ∪ m) low h raw) →
  chain_at network rx None now (range ∪ m) low.
Proof.
  intros Hm Hr Hle Hfl Htop Habove.
  assert (Hlow : ∀ k, k ≤ floor → (range ∪ m) !! k = range !! k).
  { intros k Hk. destruct (range !! k) eqn:Hrk; [by apply lookup_union_Some_l|].
    rewrite lookup_union_r by done. destruct (decide (k = floor)) as [->|]; [congruence|].
    destruct (m !! k) eqn:Hmk; [|done]. pose proof (ca_above _ _ _ _ _ _ Hm k ltac:(eauto)). lia. }
  assert (Hhigh : ∀ k, floor ≤ k → (range ∪ m) !! k = m !! k).
  { intros k Hk. destruct (decide (k = floor)) as [->|]; [rewrite Hlow, Hfl; [done|lia]|].
    rewrite lookup_union_r; [done|]. destruct (range !! k) eqn:Hrk; [|done].
    specialize (Htop k ltac:(eauto)). lia. }
  assert (Hfloor : is_Some (range !! floor)) by (rewrite Hfl; apply Hm).
  split.
  - rewrite Hlow by done. apply Hr.
  - apply Hr.
  - intros h Hh. destruct (N.le_gt_cases h floor) as [Hhf|Hhf]; [|lia].
    rewrite Hlow in Hh by done. by apply Hr.
  - intros h k Hh Hk. destruct (N.le_gt_cases k floor) as [Hkf|Hkf].
    + rewrite Hlow by done. apply (ca_below _ _ _ _ _ _ Hr floor); [done|lia].
    + rewrite Hhigh in * by lia. apply (ca_below _ _ _ _ _ _ Hm h); [done|lia].
  - intros h raw Hh. destruct (N.le_gt_cases h floor) as [Hhf|Hhf].
    + rewrite Hlow in Hh by done. eapply row_ok_agree; [|by apply (ca_rows _ _ _ _ _ _ Hr)].
      intros k Hk. symmetry. apply Hlow. lia.
    + rewrite Hhigh in Hh by lia. by apply Habove.
Qed.

(** The rows [prepend] is given, and the range it replays. *)
Definition rows_at (low : N) (raws : list raw_header) : gmap N raw_header :=
  list_to_map (zip (nseq low (length raws)) raws).

Lemma rows_at_is_Some low raws k :
  is_Some (rows_at low raws !! k) ↔ low ≤ k < low + N.of_nat (length raws).
Proof.
  unfold rows_at. rewrite <-elem_of_dom, dom_list_to_map, elem_of_list_to_set.
  rewrite fst_zip by (by rewrite length_nseq). apply elem_of_nseq.
Qed.

Lemma replay_validate_chain network now m lo :
  is_Some (m !! lo) → (∀ h, is_Some (m !! h) → lo ≤ h) →
  (∀ h k, is_Some (m !! h) → lo ≤ k ≤ h → is_Some (m !! k)) →
  lo mod chain_interval network = 0 →
  replay_validate network now m = Ok tt → chain_at network false None now m lo.
Proof.
  intros H1 H3 H4 H2 Hr. destruct (interval_keys m lo H1 H3 H4) as (Hf & Hk & _).
  rewrite (replay_validate_iff network m now lo Hf Hk) in Hr. by split.
Qed.

Lemma chain_at_strict network rx cp now m lo :
  chain_at network false cp now m lo → chain_at network rx cp now m lo.
Proof.
  intros [H1 H2 H3 H4 H5]. split; try done. intros h raw Hr.
  destruct (H5 h raw Hr) as (Hc & hdr & Hd & Hv). split; [done|]. exists hdr. split; [done|].
  destruct (_ && _); [done|]. by destruct Hv as [Hv|[? _]]; [left|].
Qed.

(** What [prepend] leaves: nothing done, an empty chain if the rows contradict the
    checkpoint, or the rows below the chain, replayed up to its floor. *)
Lemma prepend_spec now token low raws s s' r :
  let floor := low + N.of_nat (length raws) in
  prepend now token low raws s = (s', r) → same_meta s s' ∧
  (chain s' = chain s ∨ chain s' = ∅ ∨
   ∃ floor_raw, chain s !! floor = Some floor_raw ∧
     chain s' = rows_at low raws ∪ chain s ∧
     replay_validate (hs_network s) now (<[floor := floor_raw]> (rows_at low raws)) = Ok tt ∧
     ∀ h raw, rows_at low raws !! h = Some raw → holds_checkpoint (checkpoint s) h raw = true).
Proof.
  intros floor. unfold prepend, mutate, with_writer.
  destruct (negb _); [intros [= <- _]; by auto|].
  destruct (prepend_body now low raws s) as [s1 res] eqn:Hb. intros Hr.
  assert (Hend : same_meta s1 s' ∧ chain s' = chain s1)
    by (destruct res as [[]|e]; injection Hr as <- _; done).
  destruct Hend as [Hm' ->]. clear Hr r.
  revert Hb. unfold prepend_body. fold floor. unfold ebind at 1, eget.
  destruct (st_get_total (store s) floor) as [v Hv]. rewrite Hv.
  pose proof (st_get_spec _ _ _ Hv) as Hget.
  intros [(e & Hx & ->)|(s2 & x & Hx & Hr)]%ebind_inv; unfold elift in Hx; [done|].
  injection Hx as <- <-.
  apply ebind_inv in Hr as [(e & Hx & ->)|(s2 & raw & Hx & Hr)]; unfold elift in Hx;
    injection Hx as <- Hx; [by auto|].
  destruct v as [raw'|]; simpl in Hx; [|done]. injection Hx as ->.
  fold (rows_at low raws) in Hr.
  apply ebind_inv in Hr as [(e & Hx & ->)|(s2 & [] & Hx & Hr)]; unfold elift in Hx;
    injection Hx as <- Hx; [by auto|].
  destruct (replay_validate _ _ _) as [[]|] eqn:Hrep in Hx; [clear Hx|done].
  set (l := bt_range _ _) in Hr.
  assert (Hl : list_to_map l = rows_at low raws).
  { apply map_eq. intros k. apply option_eq. intros r.
    rewrite <-elem_of_list_to_map.
    - unfold l. rewrite elem_of_bt_range. rewrite N.ltb_lt. split.
      + intros [Hlt Hk]. by rewrite lookup_insert_ne in Hk by lia.
      + intros Hk. assert (is_Some (rows_at low raws !! k)) as Hs by eauto.
        apply rows_at_is_Some in Hs. rewrite lookup_insert_ne by lia. split; [lia|done].
    - apply NoDup_bt_range. }
  apply ebind_inv in Hr as [(e & Hi & ->)|(s3 & [] & Hi & Hr)];
    apply insert_checked_spec in Hi as [Hm3 [(He & Hc3 & Hall)|([? ?] & Hc3)]]; try done.
  { split; [by etrans|by auto]. }
  rewrite foldl_insert_union, Hl in Hc3 by apply NoDup_bt_range. apply flush_spec in Hr as [Hc4 Hm4].
  split; [etrans; [exact Hm3|by etrans]|]. right. right. exists raw.
  rewrite Hc4. split_and!; [done|done|done|].
  intros h r' Hh. rewrite Forall_forall in Hall. apply (Hall (h, r')).
  rewrite <-Hl in Hh. by apply elem_of_list_to_map_2 in Hh.
Qed.

(** [prepend] keeps the chain valid if its old rows are valid over the new ones. *)
Lemma prepend_chain rx now token low raws s s' r :
  chain_at (hs_network s) rx (checkpoint s) now (chain s) (low + N.of_nat (length raws)) →
  low mod chain_interval (hs_network s) = 0 →
  (∀ m' h raw, (∀ k, low + N.of_nat (length raws) ≤ k → m' !! k = chain s !! k) →
     m' = rows_at low raws ∪ chain s → chain s !! h = Some raw → low + N.of_nat (length raws) < h →
     row_ok (hs_network s) rx None now m' low h raw) →
  prepend now token low raws s = (s', r) → good rx now s'.
Proof.
  intros Hc Hb Habove Hp. set (floor := low + N.of_nat (length raws)) in *.
  apply prepend_spec in Hp as [Hm Hcase]. fold floor in Hcase. destruct (Hm) as (Hn & Hk & _).
  destruct Hcase as [Hch|[Hch|(fr & Hfr & Hch & Hrep & Hcp)]].
  { eapply good_meta; [done|done|]. right. eauto. }
  { by apply good_empty. }
  set (range := <[floor := fr]> (rows_at low raws)) in *.
  assert (Hdom : ∀ k, is_Some (range !! k) ↔ low ≤ k ≤ floor)
    by (intros k; unfold range; rewrite lookup_insert_is_Some', rows_at_is_Some; lia).
  assert (Hu : rows_at low raws ∪ chain s = range ∪ chain s).
  { unfold range. rewrite <-insert_union_l. symmetry. apply insert_id.
    rewrite lookup_union_r; [done|]. destruct (rows_at low raws !! floor) eqn:Hx; [|done].
    assert (is_Some (rows_at low raws !! floor)) as Hs by eauto. apply rows_at_is_Some in Hs. lia. }
  right. exists low. rewrite Hn, Hk, Hch. apply chain_at_cp.
  - rewrite Hu in *. apply (chain_glue _ _ _ _ _ low floor); [by eapply chain_at_no_cp| |lia| | |].
    + apply chain_at_strict, replay_validate_chain; [..|done|done].
      * apply Hdom. lia.
      * intros h Hh%Hdom. lia.
      * intros h k Hh%Hdom ?. apply Hdom. lia.
    + unfold range. by rewrite lookup_insert_eq.
    + intros k Hk'%Hdom. lia.
    + intros h raw Hag Hh Hlt. by apply Habove.
  - intros h raw [Hh|[_ Hh]]%lookup_union_Some_raw; [by eapply Hcp|].
    by apply (ca_rows _ _ _ _ _ _ Hc) in Hh as [? _].
Qed.

(** The old rows right above the floor have to be after the median of the longer
    windows; in a relaxed chain nothing more is needed. *)
Lemma prepend_good now token low raws s s' r :
  chain_at (hs_network s) false (checkpoint s) now (chain s) (low + N.of_nat (length raws)) →
  low mod chain_interval (hs_network s) = 0 →
  (∀ h raw hdr, chain s !! h = Some raw → deserialize raw = Some hdr →
     low + N.of_nat (length raws) < h < low + N.of_nat (length raws) + N.of_nat MTP_WINDOW →
     check_mtp (hs_network s) (window (hs_network s) (rows_at low raws ∪ chain s) h) hdr = Ok tt) →
  prepend now token low raws s = (s', r) → good false now s'.
Proof.
  intros Hc Hb Hmtp. apply prepend_chain; [done|done|]. intros m' h raw Hag Hm' Hh Hlt.
  eapply row_ok_below; [by eapply chain_at_no_cp|done|lia|done|].
  intros hdr Hd Hwin. rewrite Hm'. by eapply Hmtp.
Qed.

Lemma prepend_relaxed now token low raws s s' r :
  chain_at (hs_network s) true (checkpoint s) now (chain s) (low + N.of_nat (length raws)) →
  low mod chain_interval (hs_network s) = 0 →
  prepend now token low raws s = (s', r) → good true now s'.
Proof.
  intros Hc Hb. apply prepend_chain; [done|done|]. intros m' h raw Hag Hm' Hh Hlt.
  apply chain_at_no_cp in Hc. destruct raws as [|raw0 raws].
  - assert (m' = chain s) as -> by (rewrite Hm'; apply map_empty_union).
    rewrite N.add_0_r in Hc. by apply (ca_rows _ _ _ _ _ _ Hc).
  - eapply row_ok_relaxed; [done|done| |done]. cbn [length] in *. lia.
Qed.

(** *** What the mutators leave alone *)

Definition mut_meta {A} (c : eff HeaderStore MutateError A) : Prop :=
  ∀ s s' r, c s = (s', r) → same_meta s s'.

Lemma meta_bind {A B} (c : eff HeaderStore MutateError A) (k : A → eff HeaderStore MutateError B) :
  mut_meta c → (∀ a, mut_meta (k a)) → mut_meta (ebind c k).
Proof.
  intros Hc Hk s s' r [(e & Hs & _)|(s1 & a & Hs & Hr)]%ebind_inv; [by eapply Hc|].
  etrans; [by eapply Hc|by eapply Hk].
Qed.
Lemma meta_pure {A} (f : HeaderStore → result A MutateError) : mut_meta (λ s, (s, f s)).
Proof. intros s s' r [= <- _]. done. Qed.
Lemma meta_insert h raw : mut_meta (insert_row h raw).
Proof.
  intros s s' r Hr. destruct (insert_row_spec s h raw) as (s1 & Hi & _ & Hm & _). congruence.
Qed.
Lemma meta_flush : mut_meta (on_store st_flush).
Proof. intros s s' r Hf. by apply flush_spec in Hf as [_ ?]. Qed.
Lemma meta_hold h raw : mut_meta (hold_checkpoint h raw).
Proof. intros s s' r [(_ & -> & _)|(_ & _ & ?)]%hold_checkpoint_spec; done. Qed.
Lemma meta_modify f : (∀ s, same_meta s (f s)) → mut_meta (modify_self f).
Proof. intros Hf s s' r [= <- _]. done. Qed.

Create HintDb meta.
#[local] Hint Resolve meta_bind meta_pure meta_insert meta_flush meta_hold : meta.
#[local] Hint Extern 1 (mut_meta (ethrow _)) => apply meta_pure : meta.
#[local] Hint Extern 1 (mut_meta (eret _)) => apply meta_pure : meta.
#[local] Hint Extern 1 (mut_meta (elift _)) => apply meta_pure : meta.
#[local] Hint Extern 1 (mut_meta eget) => apply (meta_pure (λ s, Ok s)) : meta.
#[local] Hint Extern 1 (mut_meta read_keys) =>
  apply (meta_pure (λ s, rmap_err EPersist (st_keys (store s)))) : meta.

Lemma mutate_meta token f : mut_meta f → mut_meta (mutate token f).
Proof.
  intros Hf s s' r. unfold mutate, with_writer. destruct (negb _); [by intros [= <- _]|].
  destruct (f s) as [s1 [[]|e]] eqn:Hfs; intros [= <- _]; [|by eapply Hf].
  etrans; [by eapply Hf|done].
Qed.

Lemma append_meta now token h raw : mut_meta (append now token h raw).
Proof.
  unfold append. destruct (deserialize raw); [|auto with meta]. apply mutate_meta.
  unfold append_body. repeat (apply meta_bind; [auto with meta|intros]).
  apply meta_modify. intros s. destruct (validation_state s); try done. by case_match.
Qed.

Lemma append_loop_meta now we first h anc raws : mut_meta (append_loop now we first h anc raws).
Proof.
  revert first h anc; induction raws as [|raw raws IH]; intros first h anc; simpl; [auto with meta|].
  destruct (deserialize raw); [|auto with meta].
  apply meta_bind; [auto with meta|]. intros s.
  apply meta_bind; [repeat case_match; auto with meta|]. intros _.
  repeat (apply meta_bind; [auto with meta|intros]). apply IH.
Qed.
Lemma append_batch_meta now token start raws : mut_meta (append_batch now token start raws).
Proof.
  unfold append_batch. destruct raws; [apply meta_pure|]. apply mutate_meta.
  unfold append_batch_body. repeat (apply meta_bind; [auto using append_loop_meta with meta|intros]).
  by apply meta_modify.
Qed.

(** The mutations of a superseded writer do nothing. *)
Lemma mutate_superseded token f s : writer_token s ≠ token → mutate token f s = (s, Ok tt).
Proof. intros Ht. unfold mutate, with_writer. by rewrite (proj2 (N.eqb_neq _ _) Ht). Qed.

Lemma append_superseded now token h raw s :
  writer_token s ≠ token → (append now token h raw s).1 = s.
Proof.
  intros Ht. unfold append. destruct (deserialize raw); [|done]. by rewrite mutate_superseded.
Qed.
Lemma append_batch_superseded now token start raws s :
  writer_token s ≠ token → (append_batch now token start raws s).1 = s.
Proof.
  intros Ht. unfold append_batch. destruct raws; [done|]. by rewrite mutate_superseded.
Qed.
Lemma switch_branch_superseded now token fork_h incoming_h buffer s :
  writer_token s ≠ token → switch_branch now token fork_h incoming_h buffer s = s.
Proof.
  intros Ht. unfold switch_branch. repeat case_match; try done.
  unfold replace_branch. by rewrite mutate_superseded.
Qed.
Lemma wipe_spec token s :
  same_meta s (wipe token s) ∧
  (writer_token s ≠ token ∧ wipe token s = s ∨ chain (wipe token s) = ∅).
Proof.
  unfold wipe, with_writer. destruct (N.eqb_spec (writer_token s) token); simpl; [|by auto].
  destruct (clear_inner s) as [s1 r] eqn:Hc. apply clear_inner_spec in Hc as [??]. simpl. auto.
Qed.

(** *** Reading the chain *)

Lemma st_keys_chain s : st_keys (store s) = Ok (bt_keys (chain s)).
Proof.
  unfold st_keys. destruct (st_iter_total (store s)) as [l Hl]. rewrite Hl. simpl.
  by rewrite (st_iter_spec _ _ Hl).
Qed.
Lemma min_height_chain s : min_height s = bt_first_key (chain s).
Proof. unfold min_height. by rewrite st_keys_chain. Qed.
Lemma tip_chain s : tip s = bt_last_key (chain s).
Proof. unfold tip. by rewrite st_keys_chain. Qed.
Lemma header_chain s h : header s h = chain s !! h ≫= deserialize.
Proof. unfold header. by rewrite peek_chain. Qed.

Lemma min_height_None s : min_height s = None ↔ chain s = ∅.
Proof. rewrite min_height_chain. apply bt_first_key_None. Qed.
Lemma tip_None s : tip s = None ↔ chain s = ∅.
Proof. rewrite tip_chain. apply bt_last_key_None. Qed.
Lemma tip_next s t : tip s = Some t → next_height s (t + 1).
Proof.
  rewrite tip_chain. intros Ht. right. split_and!; [lia| |].
  - replace (t + 1 - 1) with t by lia. by apply bt_last_key_elem.
  - intros k Hk. pose proof (bt_last_key_max _ _ _ Ht Hk) as Hle. apply N.leb_le in Hle. lia.
Qed.

(** The rows of a valid chain can be read. *)
Lemma good_tip rx now s :
  good rx now s → tip_with_hash s = None → chain s = ∅.
Proof.
  intros [?|[lo Hlo]]; [done|]. unfold tip_with_hash. destruct (tip s) as [t|] eqn:Ht; simpl.
  - rewrite header_chain. rewrite tip_chain in Ht. apply bt_last_key_elem in Ht as [raw Hraw].
    destruct (ca_rows _ _ _ _ _ _ Hlo t raw Hraw) as (_ & hdr & Hd & _). rewrite Hraw. simpl.
    by rewrite Hd.
  - by rewrite <-tip_None.
Qed.
Lemma good_floor rx now s lo :
  good rx now s → min_height s = Some lo →
  chain_at (hs_network s) rx (checkpoint s) now (chain s) lo.
Proof.
  intros [He|[lo' Hlo]] Hm.
  - apply min_height_None in He. congruence.
  - assert (lo' = lo) as ->; [|done]. rewrite min_height_chain in Hm.
    pose proof (bt_first_key_min _ _ lo' Hm (ca_lo _ _ _ _ _ _ Hlo)) as Hle. apply N.leb_le in Hle.
    pose proof (ca_above _ _ _ _ _ _ Hlo lo (bt_first_key_elem _ _ Hm)). lia.
Qed.

(** Switching keeps the chain valid for any incoming height in range. *)
Lemma switch_branch_good rx now token fork_h incoming_h buffer s :
  good rx now s → is_Some (chain s !! fork_h) → incoming_h < u32_max →
  good rx now (switch_branch now token fork_h incoming_h buffer s).
Proof.
  intros Hs Hf Hlt. destruct (N.lt_ge_cases fork_h u32_max) as [Hfl|Hfl];
    [by apply switch_branch_spec|].
  unfold switch_branch. rewrite raw_map_spec. unfold branch_validate.
  replace (sat_add u32_max fork_h 1) with u32_max by (unfold sat_add, u32_max in *; lia).
  replace (incoming_h + 1 - u32_max) with 0 by (unfold u32_max in *; lia). cbn [N.to_nat nseq branch_loop].
  unfold has_more_work_than_active. destruct (rows_work _ _); [|done]. simpl.
  rewrite (proj2 (N.ltb_ge _ 0)) by lia. done.
Qed.
Lemma switch_branch_meta now token fork_h incoming_h buffer s :
  same_meta s (switch_branch now token fork_h incoming_h buffer s).
Proof.
  unfold switch_branch. repeat case_match; try done.
  destruct (replace_branch token fork_h _ s) as [s1 r] eqn:Hr.
  by apply replace_branch_spec in Hr as [? _].
Qed.

(** After a batch the next height is above it. *)
Lemma append_loop_next now we first h anc raws s s' :
  next_height s h → append_loop now we first h anc raws s = (s', Ok tt) →
  next_height s' (h + N.of_nat (length raws)).
Proof.
  revert first h anc s. induction raws as [|raw raws IH]; intros first h anc s Hn;
    cbn [append_loop length].
  { intros [= <-]. by rewrite N.add_0_r. }
  destruct (deserialize raw); [|done]. unfold ebind at 1, eget.
  intros (s1 & [] & Hv & (s2 & [] & Hh & (s3 & [] & Hi & Hr)%ebind_Ok)%ebind_Ok)%ebind_Ok.
  assert (s1 = s) as -> by (revert Hv; unfold elift, ethrow; repeat case_match; naive_solver).
  apply hold_checkpoint_spec in Hh as [(_ & -> & _)|([? ?] & _)]; [|done].
  destruct (insert_row_spec s h raw) as (s4 & Hi' & Hc & _). rewrite Hi' in Hi. injection Hi as ->.
  apply IH in Hr; [|by eapply next_height_insert].
  by replace (h + N.of_nat (Datatypes.S (length raws))) with (h + 1 + N.of_nat (length raws)) by lia.
Qed.
Lemma append_batch_next now token start raws s s' :
  next_height s start → raws ≠ [] → writer_token s = token →
  append_batch now token start raws s = (s', Ok tt) →
  next_height s' (start + N.of_nat (length raws)).
Proof.
  intros Hn Hne Ht. unfold append_batch. destruct raws as [|raw raws]; [done|].
  unfold mutate, with_writer. rewrite Ht, N.eqb_refl. cbn [negb].
  destruct (append_batch_body now start (raw :: raws) s) as [s1 [[]|e]] eqn:Hb; [|done].
  intros [= <-]. revert Hb. unfold append_batch_body. unfold ebind at 1. rewrite read_keys_spec.
  unfold ebind at 1, eget. intros (s2 & [] & Hl & (s3 & [] & Hf & Hr)%ebind_Ok)%ebind_Ok.
  apply append_loop_next in Hl; [|done]. apply flush_spec in Hf as [Hc _].
  unfold modify_self in Hr. injection Hr as <-.
  revert Hl. unfold next_height, chain in *. simpl store in *. by rewrite Hc.
Qed.
End mutators.

(** ** Properties *)

Section properties.
Context `{HeaderLib} `{!HeaderLaws} {S : Type} `{!Store S N raw_header}.
Context `{!StoreLaws S N raw_header} `{!StoreTotal S N raw_header}.

(** C20. The reload checks accept a stored chain exactly if it is valid: without
    gaps from a retarget boundary, the checkpoint's block at its height, the
    anchor with proof of work and every other header valid after the window of
    headers below it. *)
Theorem reload_accepts_valid (network : Network) (cp : option Checkpoint) (now : N)
    (m : gmap N raw_header) :
  m ≠ ∅ →
  sanity_check network cp m = Ok tt ∧ replay_validate network now m = Ok tt ↔
  chain_ok network false cp now m.
Proof. apply reload_iff. Qed.

(** Appending one header, or a batch, above the tip of a valid chain leaves a
    valid chain, whatever the outcome of the call. *)
Theorem append_keeps_valid (now token h : N) (raws : list raw_header) (s s1 s2 : HeaderStore (S:=S))
    (raw : raw_header) (r1 r2 : result unit MutateError) :
  good false now s → next_height s h →
  append now token h raw s = (s1, r1) → append_batch now token h raws s = (s2, r2) →
  good false now s1 ∧ good false now s2.
Proof. intros. split; [by eapply append_good|by eapply append_batch_good]. Qed.

(** C13. A switch to another branch leaves a valid chain that is the old one, or
    empty (the branch contradicts the checkpoint), or the old one up to the fork
    with strictly more work above it. *)
Theorem switch_branch_more_work (now token fork_h incoming_h : N) (buffer : gmap N raw_header)
    (s : HeaderStore (S:=S)) :
  let s' := switch_branch now token fork_h incoming_h buffer s in
  good false now s → is_Some (chain s !! fork_h) → fork_h < u32_max →
  good false now s' ∧
  (chain s' = chain s ∨ chain s' = ∅ ∨
   (∀ k, k ≤ fork_h → chain s' !! k = chain s !! k) ∧
   map_work (filter (λ kv, (fork_h + 1 <=? kv.1) = true) (chain s)) <
   map_work (filter (λ kv, (fork_h + 1 <=? kv.1) = true) (chain s'))).
Proof. apply switch_branch_spec. Qed.

(** Rows put below the floor leave a valid chain if the headers right above the
    floor are after the median of the longer windows; the code does not check
    this. *)
Theorem prepend_keeps_valid (now token low : N) (raws : list raw_header)
    (s s' : HeaderStore (S:=S)) (r : result unit MutateError) :
  chain_at (hs_network s) false (checkpoint s) now (chain s) (low + N.of_nat (length raws)) →
  low mod chain_interval (hs_network s) = 0 →
  (∀ h raw hdr, chain s !! h = Some raw → deserialize raw = Some hdr →
     low + N.of_nat (length raws) < h < low + N.of_nat (length raws) + N.of_nat MTP_WINDOW →
     check_mtp (hs_network s) (window (hs_network s) (rows_at low raws ∪ chain s) h) hdr = Ok tt) →
  prepend now token low raws s = (s', r) → good false now s'.
Proof. apply prepend_good. Qed.
End properties.

(** ** Witnesses *)
Module Witness.
Import Sample.

Definition ram : RamStore unit N raw_header :=
  ram_empty tt HEADERS_STORE_KEY encode_height encode_header.
Definition empty (network : Network) : HeaderStore :=
  mkHeaderStore network ram Valid 0 false None None None [].

(** Four headers from genesis, and a longer branch from height 1. *)
Definition four : list raw_header := [raw 0 100 7; raw 7 101 8; raw 8 102 9; raw 9 103 10].
Definition s4 : HeaderStore := (append_batch 1000 0 0 four (empty Bitcoin)).1.
Definition better : gmap N raw_header :=
  {[ 2 := raw 8 105 20; 3 := raw 20 106 21; 4 := raw 21 107 22 ]}.

Lemma s4_good : good false 1000 s4.
Proof. apply reload_iff; [by vm_compute|]. split; vm_compute; reflexivity. Qed.

Lemma reload_accepts_valid_witness :
  chain_ok Bitcoin false None 1000 (list_to_map (zip (nseq 0 4) four)).
Proof.
  apply reload_accepts_valid; [by vm_compute|]. split; vm_compute; reflexivity.
Defined.

Lemma append_keeps_valid_witness :
  good false 1000 (append 1000 0 4 (raw 10 104 11) s4).1 ∧
  good false 1000 (append_batch 1000 0 4 [raw 10 104 11; raw 11 105 12] s4).1.
Proof.
  apply (append_keeps_valid 1000 0 4 [raw 10 104 11; raw 11 105 12] s4 _ _ (raw 10 104 11) (Ok tt) (Ok tt)).
  - apply s4_good.
  - right. split; [done|]. split; [by vm_compute; eauto|]. intros k Hk.
    apply elem_of_dom in Hk. assert (Hd : dom (chain s4) = list_to_set (nseq 0 4)) by (vm_compute; reflexivity).
    rewrite Hd in Hk. apply elem_of_list_to_set, elem_of_nseq in Hk. lia.
  - vm_compute. reflexivity.
  - vm_compute. reflexivity.
Defined.

(** Height 4 is on the better branch only: it is taken, and has more work. *)
Lemma switch_branch_more_work_witness :
  let s' := switch_branch 1000 0 1 4 better s4 in
  good false 1000 s' ∧
  (chain s' = chain s4 ∨ chain s' = ∅ ∨
   (∀ k, k ≤ 1 → chain s' !! k = chain s4 !! k) ∧
   map_work (filter (λ kv, (1 + 1 <=? kv.1) = true) (chain s4)) <
   map_work (filter (λ kv, (1 + 1 <=? kv.1) = true) (chain s'))).
Proof.
  apply switch_branch_more_work; [apply s4_good|by vm_compute; eauto|done].
Defined.
Example switch_branch_taken :
  chain (switch_branch 1000 0 1 4 better s4) !! 4 = Some (raw 21 107 22) ∧
  chain (switch_branch 1000 0 1 3 better s4) = chain s4.
Proof. split; vm_compute; reflexivity. Qed.

(** A sparse chain from height 4, extended down to 0. *)
Definition s48 : HeaderStore := (append_batch 1000 0 4 [raw 10 104 11; raw 11 105 12] (empty Bitcoin)).1.
Lemma s48_good : chain_at Bitcoin false None 1000 (chain s48) 4.
Proof.
  assert (Hg : good false 1000 s48)
    by (apply reload_iff; [by vm_compute|split; vm_compute; reflexivity]).
  apply (good_floor false 1000 s48 4 Hg). vm_compute. reflexivity.
Qed.
Lemma prepend_keeps_valid_witness : good false 1000 (prepend 1000 0 0 four s48).1.
Proof.
  eapply (prepend_keeps_valid 1000 0 0 four s48 _ (Ok tt)).
  - apply s48_good.
  - reflexivity.
  - intros h r hdr Hh Hd [Hlt _]. simpl in Hlt.
    assert (Hc : chain s48 = {[ 4 := raw 10 104 11; 5 := raw 11 105 12 ]}) by (vm_compute; reflexivity).
    assert (h = 5) as ->.
    { rewrite Hc in Hh. apply lookup_insert_Some in Hh as [[<- _]|[_ Hh]]; [lia|].
      by apply lookup_singleton_Some in Hh as [<- _]. }
    vm_compute in Hh. injection Hh as <-. simpl in Hd. injection Hd as <-. vm_compute. reflexivity.
  - vm_compute. reflexivity.
Defined.

(** A sparse chain whose header 7 has the time of header 6, and four headers below
    the last of which is far in the future of the others. *)
Definition sparse : list raw_header :=
  [raw 10 103 11; raw 11 104 12; raw 12 105 13; raw 13 105 14].
Definition skewed : list raw_header :=
  [raw 0 100 7; raw 7 101 8; raw 8 102 9; raw 9 500 10].
Definition s_sparse : HeaderStore := (append_batch 1000 0 4 sparse (empty Testnet)).1.

(** The condition of [prepend_keeps_valid] is needed: here a chain that passes
    the reload checks is extended down, the call succeeds and the chain stays
    marked valid, but header 7 is no longer after the median of its window and
    the reload checks refuse the chain, which the next start wipes. *)
Theorem prepend_unchecked_median :
  let s' := (prepend 1000 0 0 skewed s_sparse).1 in
  good false 1000 s_sparse ∧ (prepend 1000 0 0 skewed s_sparse).2 = Ok tt ∧
  validation_state s' = Valid ∧ sanity_check Testnet None (chain s') = Ok tt ∧
  replay_validate Testnet 1000 (chain s') = Err MtpViolation.
Proof.
  split; [apply reload_iff; [by vm_compute|split; vm_compute; reflexivity]|].
  split_and!; vm_compute; reflexivity.
Qed.
End Witness.
End HeaderStore.
