(* ===== verification/HeaderWorker.v ===== *)
(** * The header worker (electrum/src/header_store.rs, from [push_deferred] on)

    The thread that keeps the stored chain in step with a server: initial sync,
    the steady-state loop, reorganisations and the extension below the floor.
    The response channel is the list of what the worker will receive; a receive
    takes its next entry, a timeout is an entry without a message, and the end of
    the list is a closed channel. Each entry says how much time passed and what
    other threads did to the store meanwhile ([stop], [restart],
    [request_extend_down]). The request channel accepts a given number of sends
    before its other end is dropped. Every loop that is not structural runs on
    fuel given by the entries left, and [OutOfFuel] is a result of its own. *)
From stdpp Require Import base gmap list sorting strings.
From S2P Require Import Prelude Bitcoin Persist HeaderValidator HeaderStore.

Module HeaderWorker.
Import Persist HeaderValidator HeaderStore.

Inductive HeaderRequest := Subscribe | GetHeaders (start count : N) | Wake | StopRequest.

(** [HeaderError]: the two errors tagged with a request, and the others. *)
Inductive HeaderError :=
  | EGetHeaders (start : N)
  | EGetHeadersDecode (start : N)
  | EOther.

Inductive HeaderResponse :=
  | Tip (height : N) (raw : raw_header)
  | HeaderAt (height : N) (raw : raw_header)
  | Batch (start : N) (raws : list raw_header)
  | Stopped
  | Woken
  | Error (e : HeaderError).

(** What other threads do to the store while the worker waits. *)
Inductive Act :=
  | ActStop
  | ActRestart
  | ActExtend (height : N).

Record Recv := mkRecv { elapsed : N; acts : list Act; msg : option HeaderResponse }.

Inductive Stuck := OutOfFuel.

Definition REORG_WALK_CHUNK : N := 20.
Definition MAX_DEFERRED : nat := 4096.

Definition push_deferred (deferred : list (N * raw_header)) (item : N * raw_header) :
    list (N * raw_header) :=
  if (MAX_DEFERRED <=? length deferred)%nat then deferred else deferred ++ [item].

Inductive RequestHeadersOutcome :=
  | OBatch (raws : list raw_header)
  | OFailed
  | OTimeout
  | OCancelled.

Section worker.
Context `{HeaderLib} {S : Type} `{!Store S N raw_header}.

Abbreviation hstore := (HeaderStore (S:=S)).

Record World := mkWorld {
  hs : hstore;
  clock : N;
  inbox : list Recv;
  deferred : list (N * raw_header);
  requests : list HeaderRequest;
  sends_left : nat;
  replay : option (gmap N raw_header)   (* the snapshot of a running replay thread *)
}.

Definition set_hs (s : hstore) (w : World) : World :=
  mkWorld s (clock w) (inbox w) (deferred w) (requests w) (sends_left w) (replay w).
Definition set_inbox (i : list Recv) (w : World) : World :=
  mkWorld (hs w) (clock w) i (deferred w) (requests w) (sends_left w) (replay w).
Definition set_clock (c : N) (w : World) : World :=
  mkWorld (hs w) c (inbox w) (deferred w) (requests w) (sends_left w) (replay w).
Definition set_deferred (d : list (N * raw_header)) (w : World) : World :=
  mkWorld (hs w) (clock w) (inbox w) d (requests w) (sends_left w) (replay w).

Abbreviation wm := (eff World Stuck).

(** [stop] and the part of [restart] that touches the store. *)
Definition act (a : Act) (s : hstore) : hstore :=
  match a with
  | ActStop =>
      mkHeaderStore (hs_network s) (store s) (validation_state s) (writer_token s) true
        (checkpoint s) (HeaderStore.extend_down s) (latest_progress s) (events s)
  | ActRestart =>
      mkHeaderStore (hs_network s) (store s) (validation_state s) (writer_token s + 1) false
        (checkpoint s) (HeaderStore.extend_down s) (latest_progress s) (events s)
  | ActExtend height => (request_extend_down height s).1
  end.

(** Take the next entry of the channel. *)
Definition take_recv (i : Recv) (rest : list Recv) (w : World) : World :=
  set_inbox rest (set_clock (clock w + elapsed i) (set_hs (foldl (flip act) (hs w) (acts i)) w)).

Definition put {A} (f : hstore → hstore * A) : wm A := λ w,
  let '(s, a) := f (hs w) in (set_hs s w, Ok a).
Definition run (f : hstore → hstore) : wm unit := λ w, (set_hs (f (hs w)) w, Ok tt).

Definition is_stale (token : N) (s : hstore) : bool :=
  stopped s || negb (writer_token s =? token).

(** [req_tx.send(..)]. *)
Definition send (r : HeaderRequest) : wm bool := λ w,
  match sends_left w with
  | O => (w, Ok false)
  | Datatypes.S n =>
      (mkWorld (hs w) (clock w) (inbox w) (deferred w) (requests w ++ [r]) n (replay w), Ok true)
  end.

Fixpoint receive_loop (start : N) (entries : list Recv) (w : World) :
    World * RequestHeadersOutcome :=
  match entries with
  | [] => (set_inbox [] w, OCancelled)
  | i :: entries =>
      let w := take_recv i entries w in
      match msg i with
      | None => (w, OTimeout)
      | Some (Batch s raws) =>
          if s =? start then (w, OBatch raws) else receive_loop start entries w
      | Some (Tip height raw) | Some (HeaderAt height raw) =>
          receive_loop start entries (set_deferred (push_deferred (deferred w) (height, raw)) w)
      | Some (Error (EGetHeaders s)) =>
          if s =? start then (w, OFailed) else receive_loop start entries w
      | Some (Error (EGetHeadersDecode s)) =>
          if s =? start then (w, OFailed) else receive_loop start entries w
      | Some (Error EOther) => receive_loop start entries w
      | Some Stopped => (w, OCancelled)
      | Some Woken => receive_loop start entries w
      end
  end.
Definition receive_headers (start : N) : wm RequestHeadersOutcome := λ w,
  let '(w, o) := receive_loop start (inbox w) w in (w, Ok o).

Definition request_headers (start count : N) : wm (option (list raw_header)) :=
  do! sent := send (GetHeaders start count) in
  if negb sent then eret None
  else
    do! o := receive_headers start in
    eret match o with OBatch raws => Some raws | _ => None end.

Fixpoint request_initial_loop (fuel : nat) (token start count : N) (do_send : bool) :
    wm (option (list raw_header)) :=
  match fuel with
  | O => ethrow OutOfFuel
  | Datatypes.S fuel =>
      do! w := eget in
      if is_stale token (hs w) then eret None
      else
        do! sent := if do_send then send (GetHeaders start count) else eret true in
        if negb sent then eret None
        else
          do! outcome := receive_headers start in
          do! w := eget in
          if is_stale token (hs w) then eret None
          else
            match outcome with
            | OBatch [] => request_initial_loop fuel token start count true
            | OBatch raws => eret (Some raws)
            | OFailed => request_initial_loop fuel token start count true
            | OTimeout => request_initial_loop fuel token start count false
            | OCancelled => eret None
            end
  end.
Definition request_initial_headers (token start count : N) : wm (option (list raw_header)) :=
  do! w := eget in
  request_initial_loop (Datatypes.S (length (inbox w))) token start count true.

(** The mutators, at the time of the clock. *)
Definition w_append (token h : N) (raw : raw_header) : wm (result unit MutateError) := λ w,
  put (append (clock w) token h raw) w.
Definition w_append_batch (token start : N) (raws : list raw_header) :
    wm (result unit MutateError) := λ w,
  put (append_batch (clock w) token start raws) w.
Definition w_prepend (token low : N) (raws : list raw_header) :
    wm (result unit MutateError) := λ w,
  put (prepend (clock w) token low raws) w.
Definition progress (e : HeaderProgressEvent) : wm unit := run (publish_progress e).

Definition fetch_and_verify_genesis (token : N) (expected : BlockHash) : wm (option raw_header) :=
  do! r := request_initial_headers token 0 1 in
  match r with
  | Some (raw :: _) =>
      match deserialize raw with
      | Some hdr =>
          if block_hash hdr =? expected then eret (Some raw)
          else do! _ := run (wipe token) in eret None
      | None => do! _ := run (wipe token) in eret None
      end
  | _ => eret None
  end.

Fixpoint extend_down_loop (fuel : nat) (low floor : N) (raws : list raw_header) :
    wm (option (list raw_header)) :=
  match fuel with
  | O => ethrow OutOfFuel
  | Datatypes.S fuel =>
      let start := low + N.of_nat (length raws) in
      if floor <=? start then eret (Some raws)
      else
        do! w := eget in
        let count := N.min (floor - start) (chain_interval (hs_network (hs w))) in
        do! r := request_headers start count in
        match r with
        | Some batch =>
            if N.of_nat (length batch) =? count
            then extend_down_loop fuel low floor (raws ++ batch)
            else eret None
        | None => eret None
        end
  end.

Definition extend_down (token height : N) : wm unit :=
  do! w := eget in
  match min_height (hs w) with
  | Some floor =>
      if negb (height <? floor) then eret tt
      else
        let low := snap (hs_network (hs w)) height in
        do! _ := progress (Started InitialSync low (floor - 1)) in
        do! w := eget in
        do! raws := extend_down_loop (Datatypes.S (length (inbox w))) low floor [] in
        match raws with
        | None => progress (Failed InitialSync)
        | Some raws =>
            do! r := w_prepend token low raws in
            match r with
            | Ok _ => progress (Completed InitialSync)
            | Err e =>
                do! _ := progress (Failed InitialSync) in
                match e with
                | Validate e => run (notify (ValidationFailed (CValidator e)))
                | _ => eret tt
                end
            end
        end
  | None => eret tt
  end.

Fixpoint sync_loop (fuel : nat) (token tip_h progress_end start : N) : wm bool :=
  match fuel with
  | O => ethrow OutOfFuel
  | Datatypes.S fuel =>
      if tip_h <=? start then eret true
      else
        do! w := eget in
        let count := N.min (tip_h - start) (chain_interval (hs_network (hs w))) in
        do! r := request_initial_headers token start count in
        match r with
        | None => do! _ := progress (Failed InitialSync) in eret false
        | Some raws =>
            do! res := w_append_batch token start raws in
            match res with
            | Err _ => do! _ := progress (Failed InitialSync) in eret false
            | Ok _ =>
                let start := start + N.of_nat (length raws) in
                do! _ := progress (Progress InitialSync (start - 1) progress_end) in
                sync_loop fuel token tip_h progress_end start
            end
        end
  end.

(** The genesis handling of [initial_sync]; [false] ends it. *)
Definition sync_genesis (token low : N) : wm bool :=
  do! w := eget in
  match expected_genesis (hs_network (hs w)) with
  | None => eret true
  | Some expected =>
      if (low =? 0) && bool_decide (header (hs w) 0 = None) then
        do! g := fetch_and_verify_genesis token expected in
        match g with
        | None => eret false
        | Some raw =>
            do! r := w_append token 0 raw in
            match r with
            | Ok _ => eret true
            | Err _ => do! _ := run (wipe token) in eret false
            end
        end
      else if (0 <? low) && bool_decide (tip (hs w) = None) then
        do! g := fetch_and_verify_genesis token expected in
        eret match g with Some _ => true | None => false end
      else eret true
  end.

Definition initial_sync (token tip_h : N) : wm bool :=
  do! w := eget in
  let low :=
    match checkpoint (hs w) with
    | Some c => cp_height c
    | None => backfill_floor (hs_network (hs w)) tip_h
    end in
  do! _ :=
    match min_height (hs w) with
    | Some min => if (low <? min) && (min <=? tip_h) then extend_down token low else eret tt
    | None => eret tt
    end in
  do! w := eget in
  do! _ :=
    match min_height (hs w) with
    | Some min => if low <? min then run (wipe token) else eret tt
    | None => eret tt
    end in
  do! go := sync_genesis token low in
  if negb go then eret false
  else
    do! w := eget in
    let start := match tip (hs w) with Some t => sat_add u32_max t 1 | None => low end in
    let progress_end := tip_h - 1 in
    let progress_started := start <? tip_h in
    do! _ :=
      if progress_started then progress (Started InitialSync start progress_end) else eret tt in
    do! w := eget in
    do! ok := sync_loop (Datatypes.S (length (inbox w))) token tip_h progress_end start in
    if negb ok then eret false
    else
      do! _ := if progress_started then progress (Completed InitialSync) else eret tt in
      eret true.

(** The scan of one chunk, top down: the buffer, and the outcome. *)
Inductive Scan := ScanFork (fork_h : N) | ScanNone | ScanBad.
Fixpoint scan_chunk (s : hstore) (rows : list (N * raw_header))
    (buffer : gmap N raw_header) : gmap N raw_header * Scan :=
  match rows with
  | [] => (buffer, ScanNone)
  | (wh, raw) :: rows =>
      let buffer := <[wh := raw]> buffer in
      match deserialize raw with
      | None => (buffer, ScanBad)
      | Some hdr =>
          if bool_decide (store_block_hash s wh = Some (block_hash hdr))
          then (buffer, ScanFork wh)
          else scan_chunk s rows buffer
      end
  end.

(** [find_fork_point]; [apply_one] is the recursive call of the re-anchoring. *)
Fixpoint find_fork_loop (apply_one : N → raw_header → wm unit) (fuel : nat)
    (token incoming_h : N) (incoming_raw : raw_header) (min_stored walk_h : N)
    (buffer : gmap N raw_header) : wm (option (N * gmap N raw_header)) :=
  match fuel with
  | O => ethrow OutOfFuel
  | Datatypes.S fuel =>
      let chunk_start := N.max (walk_h - (REORG_WALK_CHUNK - 1)) min_stored in
      let count := walk_h - chunk_start + 1 in
      do! r := request_headers chunk_start count in
      match r with
      | Some ((_ :: _) as raws) =>
          do! w := eget in
          match scan_chunk (hs w) (rev (zip (nseq chunk_start (length raws)) raws)) buffer with
          | (_, ScanBad) => eret None
          | (buffer, ScanFork fork_h) => eret (Some (fork_h, buffer))
          | (buffer, ScanNone) =>
              if chunk_start <=? min_stored then
                do! _ := run (wipe token) in
                do! ok := initial_sync token incoming_h in
                do! _ := if ok : bool then apply_one incoming_h incoming_raw else eret tt in
                eret None
              else
                find_fork_loop apply_one fuel token incoming_h incoming_raw min_stored
                  (chunk_start - 1) buffer
          end
      | _ => eret None
      end
  end.

Fixpoint fetch_branch_loop (fuel : nat) (incoming_h h : N) (buffer : gmap N raw_header) :
    wm (option (gmap N raw_header)) :=
  match fuel with
  | O => ethrow OutOfFuel
  | Datatypes.S fuel =>
      if incoming_h <? h then eret (Some buffer)
      else
        match buffer !! h with
        | Some _ => fetch_branch_loop fuel incoming_h (h + 1) buffer
        | None =>
            do! w := eget in
            let count := N.min (incoming_h - h + 1) (chain_interval (hs_network (hs w))) in
            do! r := request_headers h count in
            match r with
            | Some ((_ :: _) as raws) =>
                fetch_branch_loop fuel incoming_h (h + N.of_nat (length raws))
                  (foldl (λ b row, <[row.1 := row.2]> b) buffer (zip (nseq h (length raws)) raws))
            | _ => eret None
            end
        end
  end.
Definition fetch_branch (fork_h incoming_h : N) (buffer : gmap N raw_header) :
    wm (option (gmap N raw_header)) :=
  fetch_branch_loop (Datatypes.S (N.to_nat (incoming_h - fork_h))) incoming_h (fork_h + 1) buffer.

Definition resolve_reorg (apply_one : N → raw_header → wm unit) (token incoming_h : N)
    (incoming_raw : raw_header) : wm unit :=
  do! w := eget in
  match min_height (hs w) with
  | None =>
      if negb (incoming_h =? 0) && bool_decide (expected_genesis (hs_network (hs w)) ≠ None)
      then eret tt
      else do! _ := w_append token incoming_h incoming_raw in eret tt
  | Some min_stored =>
      if incoming_h =? 0 then eret tt
      else if incoming_h <=? min_stored then eret tt
      else
        do! f := find_fork_loop apply_one (Datatypes.S (length (inbox w))) token incoming_h
          incoming_raw min_stored (incoming_h - 1) {[incoming_h := incoming_raw]} in
        match f with
        | None => eret tt
        | Some (fork_h, buffer) =>
            do! b := fetch_branch fork_h incoming_h buffer in
            match b with
            | None => eret tt
            | Some buffer => λ w,
                run (switch_branch (clock w) token fork_h incoming_h buffer) w
            end
        end
  end.

Fixpoint apply_one (fuel : nat) (token h : N) (raw : raw_header) : wm unit :=
  match fuel with
  | O => ethrow OutOfFuel
  | Datatypes.S fuel =>
      match deserialize raw with
      | None => eret tt
      | Some header =>
          do! w := eget in
          let contiguous :=
            match tip_with_hash (hs w) with
            | Some (t, tip_hash) => (h =? t + 1) && (prev_blockhash header =? tip_hash)
            | None => true
            end in
          if contiguous then
            do! r := w_append token h raw in
            match r with
            | Ok _ | Err ECheckpoint => eret tt
            | Err _ => resolve_reorg (apply_one fuel token) token h raw
            end
          else
            match check_pow (params (hs_network (hs w))) header with
            | Err _ => eret tt
            | Ok _ => resolve_reorg (apply_one fuel token) token h raw
            end
      end
  end.

(** A call of [apply_one], with fuel for every entry left. *)
Definition apply (token h : N) (raw : raw_header) : wm unit := λ w,
  apply_one (Datatypes.S (length (inbox w))) token h raw w.

(** [wait_for_replay]: a store still validating waits for its replay thread. *)
Definition wait_for_replay (token : N) : wm bool := λ w,
  if is_stale token (hs w) then (w, Ok false)
  else
    match validation_state (hs w) with
    | Validating =>
        match replay w with
        | Some snapshot =>
            (mkWorld (finish_replay (clock w) snapshot (hs w)) (clock w) (inbox w) (deferred w)
               (requests w) (sends_left w) None, Ok true)
        | None => (w, Err OutOfFuel)
        end
    | _ => (w, Ok true)
    end.

(** The wait for the server's tip. *)
Fixpoint wait_tip (token : N) (entries : list Recv) (w : World) :
    World * option (N * raw_header) :=
  match entries with
  | [] => (set_inbox [] w, None)
  | i :: entries =>
      let w := take_recv i entries w in
      match msg i with
      | None => wait_tip token entries w
      | Some m =>
          if is_stale token (hs w) then (w, None)
          else
            match m with
            | Tip height raw => (w, Some (height, raw))
            | Stopped => (w, None)
            | _ => wait_tip token entries w
            end
      end
  end.

(** The steady-state loop. *)
Fixpoint main_loop (fuel : nat) (token : N) : wm unit :=
  match fuel with
  | O => ethrow OutOfFuel
  | Datatypes.S fuel =>
      do! w := eget in
      match deferred w with
      | (h, raw) :: rest =>
          do! _ := λ w, (set_deferred rest w, Ok tt) in
          if is_stale token (hs w) then eret tt
          else
            do! _ := apply token h raw in
            main_loop fuel token
      | [] =>
          match HeaderStore.extend_down (hs w) with
          | Some height =>
              do! _ := run (set_extend_down None) in
              do! _ := extend_down token height in
              main_loop fuel token
          | None =>
              match inbox w with
              | [] => eret tt
              | i :: entries =>
                  do! _ := λ w, (take_recv i entries w, Ok tt) in
                  do! w := eget in
                  if is_stale token (hs w) then eret tt
                  else
                    match msg i with
                    | None => main_loop fuel token
                    | Some (Tip height raw) | Some (HeaderAt height raw) =>
                        do! _ := apply token height raw in
                        main_loop fuel token
                    | Some (Batch start raws) =>
                        do! _ := efor (zip (nseq start (length raws)) raws)
                                   (λ row, apply token row.1 row.2) in
                        main_loop fuel token
                    | Some Stopped => eret tt
                    | Some Woken => main_loop fuel token
                    | Some (Error _) => main_loop fuel token
                    end
              end
          end
      end
  end.

(** Fuel for the steady-state loop: an entry can park one notification and ask
    for one extension. *)
Definition loop_fuel (w : World) : nat := 3 * length (inbox w) + length (deferred w) + 2.

Definition run_worker (token : N) : wm unit :=
  do! ready := wait_for_replay token in
  if negb ready then eret tt
  else
    do! sent := send Subscribe in
    if negb sent then eret tt
    else
      do! t := (λ w, let '(w, t) := wait_tip token (inbox w) w in (w, Ok t)) in
      match t with
      | None => eret tt
      | Some (tip_h, tip_raw) =>
          do! w := eget in
          if is_stale token (hs w) then eret tt
          else
            do! ok := initial_sync token tip_h in
            if negb ok then eret tt
            else
              do! w := eget in
              do! _ :=
                if match tip (hs w) with Some t => t <? tip_h | None => true end
                then apply token tip_h tip_raw else eret tt in
              do! w := eget in
              main_loop (loop_fuel w) token
      end.
End worker.

(** ** Proofs *)

Section proofs.
Context `{HeaderLib} `{!HeaderLaws} {S : Type} `{!Store S N raw_header}.
Context `{!StoreLaws S N raw_header} `{!StoreTotal S N raw_header}.
Context (token : N).
Implicit Types w : World (S:=S).

(** The heights a server sends fit in 32 bits, the last one excluded. *)
Definition entry_ok (i : Recv) : Prop :=
  match msg i with
  | Some (Tip h _) | Some (HeaderAt h _) => h < u32_max
  | Some (Batch start raws) => start + N.of_nat (length raws) ≤ u32_max
  | _ => True
  end.

(** The worker's invariant: the chain is valid, as of the clock. *)
Record wf w : Prop := {
  wf_good : good true (clock w) (hs w);
  wf_inbox : Forall entry_ok (inbox w);
  wf_deferred : Forall (λ d, d.1 < u32_max) (deferred w);
  wf_token : token ≤ writer_token (hs w)
}.

Definition wanted w : nat := match HeaderStore.extend_down (hs w) with Some _ => 1 | None => 0 end.
Definition mu w : nat := 3 * length (inbox w) + length (deferred w) + wanted w.

(** How the worker moves: it only takes entries, and once superseded it no longer
    changes the chain. *)
Record moves w w' : Prop := {
  mv_inbox : (length (inbox w') ≤ length (inbox w))%nat;
  mv_mu : (mu w' ≤ mu w)%nat;
  mv_token : writer_token (hs w) ≤ writer_token (hs w');
  mv_chain : token < writer_token (hs w) → chain (hs w') = chain (hs w);
  mv_net : hs_network (hs w') = hs_network (hs w)
}.

#[local] Instance moves_refl : Reflexive moves.
Proof. intros w. split; try done; lia. Qed.
#[local] Instance moves_trans : Transitive moves.
Proof.
  intros w1 w2 w3 [? ? ? Hc ?] [? ? ? Hc' ?]. split; try lia; [|congruence].
  intros Ht. rewrite Hc' by lia. by apply Hc.
Qed.

(** A run from [w] that ends, keeps the invariant and moves. *)
Definition total {A} w (res : World * result A Stuck) (Q : A → World → Prop) : Prop :=
  ∃ w' a, res = (w', Ok a) ∧ wf w' ∧ moves w w' ∧ Q a w'.

Lemma total_ret {A} w w1 (a : A) (Q : A → World → Prop) :
  wf w1 → moves w w1 → Q a w1 → total w (eret a w1) Q.
Proof. intros ???. exists w1, a. done. Qed.

Lemma total_bind {A B} w w1 (c : eff World Stuck A) (k : A → eff World Stuck B) Q1 (Q : B → World → Prop) :
  moves w w1 → total w1 (c w1) Q1 →
  (∀ a w2, wf w2 → moves w w2 → moves w1 w2 → Q1 a w2 → total w (k a w2) Q) →
  total w (ebind c k w1) Q.
Proof.
  intros Hm (w2 & a & Hc & Hwf & Hm2 & HQ) Hk. unfold ebind. rewrite Hc.
  apply Hk; [done|by etrans|done|done].
Qed.

Lemma total_get {B} w w1 (k : World → eff World Stuck B) (Q : B → World → Prop) :
  total w (k w1 w1) Q → total w (ebind eget k w1) Q.
Proof. done. Qed.

Lemma total_from {A} w w1 (res : World * result A Stuck) (Q Q' : A → World → Prop) :
  moves w w1 → total w1 res Q → (∀ a w', Q a w' → Q' a w') → total w res Q'.
Proof. intros Hm (w' & a & -> & ? & ? & ?) HQ. exists w', a. split_and!; try done; [by etrans|auto]. Qed.

(** *** Waiting *)

(** Other threads leave the chain alone. *)
Lemma act_spec a (s : HeaderStore (S:=S)) :
  chain (act a s) = chain s ∧ hs_network (act a s) = hs_network s ∧
  checkpoint (act a s) = checkpoint s ∧ writer_token s ≤ writer_token (act a s).
Proof.
  destruct a as [| |height]; simpl; split_and!; try done; try lia.
  all: unfold request_extend_down; repeat case_match; done || (simpl; lia).
Qed.
Lemma acts_spec l (s : HeaderStore (S:=S)) :
  let s' := foldl (flip act) s l in
  chain s' = chain s ∧ hs_network s' = hs_network s ∧
  checkpoint s' = checkpoint s ∧ writer_token s ≤ writer_token s'.
Proof.
  revert s; induction l as [|a l IH]; intros s; simpl; [by split_and!|].
  destruct (act_spec a s) as (H1 & H2 & H3 & H4), (IH (flip act s a)) as (H5 & H6 & H7 & H8).
  unfold flip in *. rewrite H5, H6, H7. split_and!; try done. lia.
Qed.

(** Receiving leaves the chain alone too. *)
Definition quiet w w' : Prop :=
  wf w' ∧ moves w w' ∧ chain (hs w') = chain (hs w) ∧ checkpoint (hs w') = checkpoint (hs w) ∧
  clock w ≤ clock w'.

Lemma take_recv_spec i entries w :
  wf w → inbox w = i :: entries →
  quiet w (take_recv i entries w) ∧ inbox (take_recv i entries w) = entries ∧
  deferred (take_recv i entries w) = deferred w ∧ entry_ok i ∧
  (mu (take_recv i entries w) + 2 ≤ mu w)%nat.
Proof.
  intros [Hg Hi Hd Ht] Hin. rewrite Hin in Hi. apply Forall_cons in Hi as [Hi Hrest].
  destruct (acts_spec (acts i) (hs w)) as (H1 & H2 & H3 & H4).
  assert (Hmu : (mu (take_recv i entries w) + 2 ≤ mu w)%nat).
  { unfold mu, wanted. rewrite Hin. simpl. repeat case_match; lia. }
  split_and!; try done. split_and!; simpl; try done; try lia.
  - split; simpl; try done; [|lia]. unfold good in *. rewrite H1, H2, H3.
    eapply chain_ok_later; [|exact Hg]. lia.
  - split; simpl; try done; try lia. rewrite Hin. simpl. lia.
Qed.

#[local] Instance quiet_trans : Transitive quiet.
Proof.
  intros w1 w2 w3 (? & Hm & Hc & Hk & ?) (? & Hm' & Hc' & Hk' & ?).
  split_and!; [done|by etrans|congruence|congruence|lia].
Qed.
Lemma quiet_refl w : wf w → quiet w w.
Proof. intros ?. by split_and!. Qed.

Lemma push_deferred_cases d x : push_deferred d x = d ∨ push_deferred d x = d ++ [x].
Proof. unfold push_deferred. case_match; auto. Qed.

Lemma park_spec h raw w :
  wf w → h < u32_max →
  let w' := set_deferred (push_deferred (deferred w) (h, raw)) w in
  wf w' ∧ (mu w' ≤ mu w + 1)%nat ∧ hs w' = hs w ∧ inbox w' = inbox w ∧ clock w' = clock w.
Proof.
  intros [Hg Hi Hd Ht] Hh w'.
  destruct (push_deferred_cases (deferred w) (h, raw)) as [Hp|Hp]; unfold w'; rewrite Hp;
    split_and!; try done; try (split; try done; simpl; apply Forall_app; by repeat constructor).
  all: unfold mu, wanted; simpl; rewrite ?length_app; simpl; lia.
Qed.

Lemma receive_loop_spec start entries w w' o :
  wf w → inbox w = entries → receive_loop start entries w = (w', o) →
  quiet w w' ∧ (entries = [] ∧ o = OCancelled ∨
    (length (inbox w') < length entries)%nat ∧ (mu w' < mu w)%nat).
Proof.
  revert w. induction entries as [|i entries IH]; intros w Hwf Hin; cbn [receive_loop].
  { intros [= <- <-]. replace (set_inbox [] w) with w by (destruct w; simpl in *; by subst).
    split; [by apply quiet_refl|by left]. }
  destruct (take_recv_spec i entries w Hwf Hin) as (Hq & Hin1 & Hd1 & Hok & Hmu).
  set (w1 := take_recv i entries w) in *.
  assert (Hdone : quiet w w1 ∧ (i :: entries = [] ∧ o = OCancelled ∨
    (length (inbox w1) < length (i :: entries))%nat ∧ (mu w1 < mu w)%nat)).
  { split; [done|]. right. rewrite Hin1. simpl. lia. }
  assert (Hstep : ∀ w2, wf w2 → (mu w2 ≤ mu w1 + 1)%nat → hs w2 = hs w1 → inbox w2 = inbox w1 →
    clock w2 = clock w1 → receive_loop start entries w2 = (w', o) →
    quiet w w' ∧ (i :: entries = [] ∧ o = OCancelled ∨
      (length (inbox w') < length (i :: entries))%nat ∧ (mu w' < mu w)%nat)).
  { intros w2 Hwf2 Hmu2 Hhs Hib Hck Hr.
    assert (Hq2 : quiet w w2).
    { destruct Hq as (? & Hm & Hc & Hk & Hcl). unfold quiet. rewrite Hhs, Hck.
      split_and!; [done| |done..]. destruct Hm. split; rewrite ?Hhs, ?Hib; try done. lia. }
    destruct (IH w2 Hwf2 ltac:(congruence) Hr) as [Hq' [[-> ->]|[Hl Hm]]].
    - split; [by etrans|]. right. destruct Hq' as (_ & [Hl Hm _ _ _] & _).
      rewrite Hib, Hin1 in Hl. simpl in *. lia.
    - split; [by etrans|]. right. simpl. lia. }
  assert (Hsame : receive_loop start entries w1 = (w', o) → _) by (apply Hstep; [apply Hq|lia|done..]).
  destruct (msg i) as [[h raw|h raw|s raws| | |[s|s|]]|] eqn:Hmsg; unfold entry_ok in Hok; rewrite Hmsg in Hok.
  1,2: destruct (park_spec h raw w1) as (? & ? & ? & ? & ?); [apply Hq|done|]; by apply Hstep.
  all: try case_match; try done; by intros [= <- <-].
Qed.

Lemma total_quiet {A} w (res : World * result A Stuck) (Q : A → World → Prop) w' a :
  res = (w', Ok a) → quiet w w' → Q a w' → total w res Q.
Proof. intros -> (? & ? & _) ?. exists w', a. done. Qed.

Lemma send_spec r w :
  wf w → ∃ w' b, send r w = (w', Ok b) ∧ quiet w w' ∧ hs w' = hs w ∧ inbox w' = inbox w ∧ mu w' = mu w.
Proof.
  intros Hwf. pose proof Hwf as [? ? ? ?]. unfold send. destruct (sends_left w) as [|n].
  - exists w, false. split; [done|]. split; [by apply quiet_refl|done].
  - eexists _, true. split; [done|]. split; [|done].
    split_and!; try done; by split.
Qed.

(** A request that is answered took an entry. *)
Lemma request_headers_spec start count w :
  wf w → ∃ w' o, request_headers start count w = (w', Ok o) ∧ quiet w w' ∧
    (o = None ∨ (length (inbox w') < length (inbox w))%nat ∧ (mu w' < mu w)%nat).
Proof.
  intros Hwf. unfold request_headers. destruct (send_spec (GetHeaders start count) w Hwf)
    as (w1 & b & Hs & Hq & Hhs & Hin & Hmu). unfold ebind at 1. rewrite Hs.
  destruct b; cbn [negb]; [|eexists _, None; split_and!; [done|done|by left]].
  unfold ebind, receive_headers. destruct (receive_loop start (inbox w1) w1) as [w2 o] eqn:Hr.
  apply receive_loop_spec in Hr as [Hq2 Hcase]; [|apply Hq|done].
  eexists w2, _. split; [done|]. split; [by etrans|].
  destruct Hcase as [[_ ->]|[Hl Hm]]; [by left|right]. rewrite Hin in Hl. lia.
Qed.

(** The retried request ends; when it is answered, the worker is not stale and the
    batch not empty. *)
Lemma request_initial_loop_spec fuel start count b w :
  wf w → (length (inbox w) < fuel)%nat →
  ∃ w' o, request_initial_loop fuel token start count b w = (w', Ok o) ∧ quiet w w' ∧
    (o = None ∨ is_stale token (hs w') = false ∧ o ≠ Some [] ∧
      (length (inbox w') < length (inbox w))%nat).
Proof.
  revert b w. induction fuel as [|fuel IH]; intros b w Hwf Hf; [lia|].
  cbn [request_initial_loop]. unfold ebind at 1, eget.
  destruct (is_stale token (hs w)); [exists w, None; split_and!; [done|by apply quiet_refl|by left]|].
  assert (∃ w1 sent, (if b then send (GetHeaders start count) else eret true) w = (w1, Ok sent) ∧
    quiet w w1 ∧ inbox w1 = inbox w) as (w1 & sent & Hs & Hq & Hin).
  { destruct b.
    - destruct (send_spec (GetHeaders start count) w Hwf) as (w1 & sent & ? & ? & _ & ? & _). eauto.
    - exists w, true. split_and!; [done|by apply quiet_refl|done]. }
  unfold ebind at 1. rewrite Hs. destruct sent; cbn [negb]; [|exists w1, None; by auto].
  unfold ebind at 1, receive_headers. destruct (receive_loop start (inbox w1) w1) as [w2 o] eqn:Hr.
  apply receive_loop_spec in Hr as [Hq2 Hcase]; [|apply Hq|done].
  assert (Hq3 : quiet w w2) by (by etrans). unfold ebind, eget.
  destruct (is_stale token (hs w2)) eqn:Hst; [exists w2, None; by auto|].
  assert (Hend : o = OCancelled ∨ (length (inbox w2) < length (inbox w))%nat)
    by (rewrite <-Hin; naive_solver).
  destruct Hend as [->|Hlt]; [exists w2, None; by auto|].
  assert (Hagain : ∀ b', ∃ w' o', request_initial_loop fuel token start count b' w2 = (w', Ok o') ∧
    quiet w w' ∧ (o' = None ∨ is_stale token (hs w') = false ∧ o' ≠ Some [] ∧
      (length (inbox w') < length (inbox w))%nat)).
  { intros b'. destruct (IH b' w2) as (w' & o' & Hr & Hq' & Hc); [apply Hq2|lia|].
    exists w', o'. split_and!; [done|by etrans|]. destruct Hc as [?|(? & ? & ?)]; [by left|right].
    split_and!; [done|done|lia]. }
  destruct o as [[|raw raws]| | |]; try apply Hagain; [|exists w2, None; by auto].
  exists w2, (Some (raw :: raws)). split_and!; [done|done|]. right. by split_and!.
Qed.
Lemma request_initial_headers_spec start count w :
  wf w → ∃ w' o, request_initial_headers token start count w = (w', Ok o) ∧ quiet w w' ∧
    (o = None ∨ is_stale token (hs w') = false ∧ o ≠ Some [] ∧
      (length (inbox w') < length (inbox w))%nat).
Proof. intros Hwf. unfold request_initial_headers, ebind, eget. apply request_initial_loop_spec; [done|lia]. Qed.

(** *** The store's operations *)

Lemma set_hs_spec w s' :
  wf w → good true (clock w) s' → same_meta (hs w) s' →
  (writer_token (hs w) ≠ token → chain s' = chain (hs w)) →
  wf (set_hs s' w) ∧ moves w (set_hs s' w) ∧ mu (set_hs s' w) = mu w.
Proof.
  intros [Hg Hi Hd Htk] Hg' (Hn & Hc & Ht & Hs & He) Hch.
  assert (Hmu : mu (set_hs s' w) = mu w) by (unfold mu, wanted; simpl; by rewrite He).
  split_and!; [split; simpl; try done; lia| |done]. split; simpl; try done; [lia|lia|]. intros Hlt. apply Hch. lia.
Qed.

(** What every call on the store leaves of the rest of the world. *)
Definition same_rest w w' : Prop :=
  inbox w' = inbox w ∧ mu w' = mu w ∧ clock w' = clock w ∧ same_meta (hs w) (hs w').

Lemma run_total f w (Q : unit → World → Prop) :
  wf w → good true (clock w) (f (hs w)) → same_meta (hs w) (f (hs w)) →
  (writer_token (hs w) ≠ token → chain (f (hs w)) = chain (hs w)) →
  (same_rest w (set_hs (f (hs w)) w) → Q tt (set_hs (f (hs w)) w)) → total w (run f w) Q.
Proof.
  intros Hwf Hg Hm Hc HQ. destruct (set_hs_spec w (f (hs w)) Hwf Hg Hm Hc) as (? & ? & ?).
  exists (set_hs (f (hs w)) w), tt. split_and!; try done. apply HQ. done.
Qed.

(** Publishing an event. *)
Lemma tick_total (f : HeaderStore (S:=S) → HeaderStore) w :
  wf w → (∀ s, same_meta s (f s) ∧ chain (f s) = chain s) →
  total w (run f w) (λ _ w', same_rest w w' ∧ chain (hs w') = chain (hs w)).
Proof.
  intros Hwf Hf. destruct (Hf (hs w)) as [Hm Hc].
  apply run_total; [done| |done|done|done]. eapply good_meta; [done|done|apply Hwf].
Qed.
Lemma progress_total e w :
  wf w → total w (progress e w) (λ _ w', same_rest w w' ∧ chain (hs w') = chain (hs w)).
Proof. intros Hwf. by apply tick_total. Qed.

Lemma wipe_total w : wf w → total w (run (wipe token) w) (λ _ w', same_rest w w').
Proof.
  intros Hwf. destruct (wipe_spec token (hs w)) as [Hm Hc].
  apply run_total; [done| |done| |done].
  - destruct Hc as [[_ ->]|He]; [apply Hwf|by apply good_empty].
  - intros Ht. destruct Hc as [[_ ->]|He]; [done|].
    unfold wipe, with_writer in *. by rewrite (proj2 (N.eqb_neq _ _) Ht) in *.
Qed.

Lemma put_total {A} (f : HeaderStore (S:=S) → HeaderStore * A) w s' a (Q : A → World → Prop) :
  wf w → f (hs w) = (s', a) → good true (clock w) s' → same_meta (hs w) s' →
  (writer_token (hs w) ≠ token → chain s' = chain (hs w)) →
  (same_rest w (set_hs s' w) → Q a (set_hs s' w)) → total w (put f w) Q.
Proof.
  intros Hwf Hf Hg Hm Hc HQ. destruct (set_hs_spec w s' Hwf Hg Hm Hc) as (? & ? & ?).
  exists (set_hs s' w), a. split_and!; try done; [by unfold put; rewrite Hf|]. apply HQ. done.
Qed.

Lemma append_total h raw w :
  wf w → next_height (hs w) h → total w (w_append token h raw w) (λ _ w', same_rest w w').
Proof.
  intros Hwf Hn. unfold w_append. destruct (append (clock w) token h raw (hs w)) as [s' r] eqn:Ha.
  apply (put_total _ _ _ _ _ Hwf Ha).
  - eapply append_good; [apply Hwf|done|exact Ha].
  - by eapply append_meta.
  - intros Ht. pose proof (append_superseded (clock w) token h raw (hs w) Ht) as He.
    rewrite Ha in He. simpl in He. by rewrite He.
  - done.
Qed.

Lemma append_batch_total start raws w :
  wf w → next_height (hs w) start → writer_token (hs w) = token → raws ≠ [] →
  total w (w_append_batch token start raws w) (λ r w', same_rest w w' ∧
    (r = Ok tt → next_height (hs w') (start + N.of_nat (length raws)))).
Proof.
  intros Hwf Hn Ht Hne. unfold w_append_batch.
  destruct (append_batch (clock w) token start raws (hs w)) as [s' r] eqn:Ha.
  apply (put_total _ _ _ _ _ Hwf Ha).
  - eapply append_batch_good; [apply Hwf|done|exact Ha].
  - by eapply append_batch_meta.
  - done.
  - intros Hs. split; [done|]. intros ->. simpl. by eapply append_batch_next.
Qed.

Lemma prepend_total low raws w :
  wf w → min_height (hs w) = Some (low + N.of_nat (length raws)) →
  low mod chain_interval (hs_network (hs w)) = 0 →
  total w (w_prepend token low raws w) (λ _ w', same_rest w w').
Proof.
  intros Hwf Hm Hb. unfold w_prepend.
  destruct (prepend (clock w) token low raws (hs w)) as [s' r] eqn:Ha.
  apply (put_total _ _ _ _ _ Hwf Ha).
  - eapply prepend_relaxed; [|exact Hb|exact Ha]. eapply good_floor; [apply Hwf|done].
  - by apply prepend_spec in Ha as [? _].
  - intros Ht. unfold prepend in Ha. rewrite mutate_superseded in Ha by done. by injection Ha as <-.
  - done.
Qed.

Lemma switch_total fork_h incoming_h buffer w :
  wf w → is_Some (chain (hs w) !! fork_h) → incoming_h < u32_max →
  total w (run (switch_branch (clock w) token fork_h incoming_h buffer) w) (λ _ _, True).
Proof.
  intros Hwf Hf Hlt. apply run_total; [done| | | |done].
  - apply switch_branch_good; [apply Hwf|done|done].
  - apply switch_branch_meta.
  - intros Ht. by rewrite switch_branch_superseded.
Qed.

(** *** Initial sync *)

Lemma not_stale w : is_stale token (hs w) = false → writer_token (hs w) = token.
Proof.
  unfold is_stale. intros [_ Hs]%orb_false_iff. by apply negb_false_iff, N.eqb_eq in Hs.
Qed.

Lemma genesis_total expected w :
  wf w → total w (fetch_and_verify_genesis token expected w) (λ o w',
    o = None ∨ chain (hs w') = chain (hs w) ∧ writer_token (hs w') = token).
Proof.
  intros Hwf. unfold fetch_and_verify_genesis.
  destruct (request_initial_headers_spec 0 1 w Hwf) as (w1 & o & Hr & Hq & Ho).
  eapply total_bind; [done|by eapply (total_quiet _ _ (λ o' w', o' = o ∧ w' = w1))|].
  intros ? ? Hwf1 Hm _ [-> ->]. destruct Hq as (_ & _ & Hc & _).
  set (Q := λ (o : option raw_header) w', o = None ∨ chain (hs w') = chain (hs w) ∧ _).
  assert (Hnone : total w (eret None w1) Q) by (apply total_ret; unfold Q; auto).
  assert (Hwipe : total w ((do! _ := run (wipe token) in eret None) w1) Q).
  { eapply total_bind; [done|by apply wipe_total|]. intros [] w2 ? ? _ _.
    apply total_ret; unfold Q; auto. }
  destruct o as [[|raw raws]|]; [done| |done].
  destruct Ho as [?|(Hst & _)]; [done|]. apply not_stale in Hst.
  destruct (deserialize raw) as [hdr|]; [|done]. case_match; [|done].
  apply total_ret; unfold Q; auto.
Qed.

Lemma extend_down_loop_total fuel low floor raws w :
  wf w → (length (inbox w) < fuel)%nat → low + N.of_nat (length raws) ≤ floor →
  ∃ w' o, extend_down_loop fuel low floor raws w = (w', Ok o) ∧ quiet w w' ∧
    (∀ raws', o = Some raws' → low + N.of_nat (length raws') = floor).
Proof.
  revert raws w. induction fuel as [|fuel IH]; intros raws w Hwf Hf Hle; [lia|].
  cbn [extend_down_loop]. destruct (N.leb_spec floor (low + N.of_nat (length raws))) as [Hge|Hlt].
  { exists w, (Some raws). split_and!; [done|by apply quiet_refl|]. intros ? [= <-]. lia. }
  unfold ebind at 1, eget.
  set (count := N.min _ _). set (start := low + N.of_nat (length raws)) in *.
  destruct (request_headers_spec start count w Hwf) as (w1 & o & Hr & Hq & Ho).
  unfold ebind. rewrite Hr. destruct o as [batch|]; [|exists w1, None; naive_solver].
  destruct Ho as [?|[Hl _]]; [done|].
  destruct (N.eqb_spec (N.of_nat (length batch)) count) as [Hb|]; [|exists w1, None; naive_solver].
  destruct (IH (raws ++ batch) w1) as (w' & o & Hr' & Hq' & Ho).
  - apply Hq.
  - lia.
  - rewrite length_app. unfold count, start in *. lia.
  - exists w', o. split_and!; [done|by etrans|done].
Qed.

Lemma snap_boundary network h : snap network h mod chain_interval network = 0.
Proof.
  pose proof (I_pos network). unfold snap. apply N.Lcm0.mod_divide.
  exists (h / chain_interval network). rewrite (N.Div0.div_mod h (chain_interval network)) at 1.
  by rewrite N.add_sub, N.mul_comm.
Qed.
Lemma snap_le network h : snap network h ≤ h.
Proof. apply N.le_sub_l. Qed.

Lemma extend_down_total height w :
  wf w → total w (extend_down token height w) (λ _ _, True).
Proof.
  intros Hwf. unfold extend_down. apply total_get.
  destruct (min_height (hs w)) as [floor|] eqn:Hm; [|by apply total_ret].
  destruct (N.ltb_spec height floor) as [Hlt|]; cbn [negb]; [|by apply total_ret].
  set (low := snap _ height). pose proof (snap_le (hs_network (hs w)) height) as Hsn.
  eapply total_bind; [done|by apply progress_total|]. intros [] w1 Hwf1 Hm1 _ [Hs1 Hc1].
  apply total_get. destruct (extend_down_loop_total (Datatypes.S (length (inbox w1))) low floor [] w1)
    as (w2 & o & Hr & Hq & Ho); [done|lia|simpl; unfold low; lia|].
  eapply total_bind; [done|by eapply (total_quiet _ _ (λ o' w', o' = o ∧ w' = w2))|].
  intros ? ? Hwf2 Hm2 _ [-> ->].
  assert (Hprog : ∀ w3 e, wf w3 → moves w w3 → total w (progress e w3) (λ _ _, True))
    by (intros; eapply total_from; [done|by apply progress_total|done]).
  destruct o as [raws|]; [|by apply Hprog]. destruct Hq as (_ & Hq & Hc2 & _).
  eapply total_bind; [done|apply prepend_total; [done|..]|].
  - by rewrite (Ho raws eq_refl), min_height_chain, Hc2, Hc1, <-min_height_chain.
  - rewrite (mv_net _ _ Hm2). apply snap_boundary.
  - intros r w3 Hwf3 Hm3 _ _. destruct r as [[]|e]; [by apply Hprog|].
    eapply total_bind; [done|by apply progress_total|]. intros [] w4 Hwf4 Hm4 _ _.
    destruct e; try by apply total_ret.
    eapply total_from; [done|by apply tick_total|done].
Qed.

Lemma sync_loop_total fuel tip_h progress_end start w :
  wf w → (length (inbox w) < fuel)%nat → (start < tip_h → next_height (hs w) start) →
  total w (sync_loop fuel token tip_h progress_end start w) (λ _ _, True).
Proof.
  revert start w. induction fuel as [|fuel IH]; intros start w Hwf Hf Hn; [lia|].
  cbn [sync_loop]. destruct (N.leb_spec tip_h start) as [Hge|Hlt]; [by apply total_ret|].
  specialize (Hn Hlt). apply total_get.
  set (count := N.min _ _). destruct (request_initial_headers_spec start count w Hwf)
    as (w1 & o & Hr & Hq & Ho).
  eapply total_bind; [done|by eapply (total_quiet _ _ (λ o' w', o' = o ∧ w' = w1))|].
  intros ? ? Hwf1 Hm1 _ [-> ->].
  assert (Hfail : ∀ w3, wf w3 → moves w w3 →
    total w ((do! _ := progress (Failed InitialSync) in eret false) w3) (λ _ _, True)).
  { intros. eapply total_bind; [done|by apply progress_total|]. intros. by apply total_ret. }
  destruct o as [raws|]; [|by apply Hfail].
  destruct Ho as [?|(Hst & Hne & Hl)]; [done|]. destruct Hq as (_ & _ & Hc1 & _).
  eapply total_bind; [done|apply append_batch_total; [done| | |by intros ->]|].
  - revert Hn. unfold next_height. by rewrite Hc1.
  - by apply not_stale.
  - intros r w2 Hwf2 Hm2 _ [Hs2 Hn2]. destruct r as [[]|e]; [|by apply Hfail].
    specialize (Hn2 eq_refl). destruct Hs2 as (Hin2 & _).
    eapply total_bind; [done|by apply progress_total|]. intros [] w3 Hwf3 Hm3 _ [Hs3 Hc3].
    destruct Hs3 as (Hin3 & _).
    eapply total_from; [done|apply IH|done]; [done|rewrite Hin3, Hin2; lia|].
    intros _. revert Hn2. unfold next_height. by rewrite Hc3.
Qed.

(** The genesis is appended to an empty chain. *)
Lemma sync_genesis_total low w :
  wf w → (writer_token (hs w) = token → ∀ m, min_height (hs w) = Some m → m ≤ low) →
  total w (sync_genesis token low w) (λ _ _, True).
Proof.
  intros Hwf Hmin. unfold sync_genesis. apply total_get.
  destruct (expected_genesis _) as [expected|]; [|by apply total_ret].
  destruct ((low =? 0) && _) eqn:Hlow.
  - eapply total_bind; [done|by apply genesis_total|]. intros g w1 Hwf1 Hm1 _ Hc1.
    destruct g as [raw|]; [|by apply total_ret]. destruct Hc1 as [?|[Hc1 Ht]]; [done|].
    apply andb_true_iff in Hlow as [->%N.eqb_eq Hh%bool_decide_eq_true].
    assert (He : chain (hs w) = ∅).
    { apply min_height_None. destruct (min_height (hs w)) as [m|] eqn:Hm; [|done]. exfalso.
      pose proof (wf_token _ Hwf). pose proof (mv_token _ _ Hm1).
      specialize (Hmin ltac:(lia) m eq_refl). assert (m = 0) as -> by lia.
      pose proof (good_floor _ _ _ _ (wf_good _ Hwf) Hm) as Hca.
      rewrite header_chain in Hh. destruct (ca_lo _ _ _ _ _ _ Hca) as [r Hr].
      destruct (ca_rows _ _ _ _ _ _ Hca 0 r Hr) as (_ & hdr & Hd & _).
      by rewrite Hr in Hh; simpl in Hh; rewrite Hd in Hh. }
    eapply total_bind; [done|apply append_total; [done|left; by rewrite Hc1]|].
    intros r w2 Hwf2 Hm2 _ _. destruct r as [[]|e]; [by apply total_ret|].
    eapply total_bind; [done|by apply wipe_total|]. intros. by apply total_ret.
  - destruct ((0 <? low) && _); [|by apply total_ret].
    eapply total_bind; [done|by apply genesis_total|]. intros g w1 Hwf1 Hm1 _ Hc1. by apply total_ret.
Qed.

Lemma initial_sync_total tip_h w :
  wf w → tip_h < u32_max → total w (initial_sync token tip_h w) (λ _ _, True).
Proof.
  intros Hwf Htip. unfold initial_sync. apply total_get.
  set (low := match checkpoint (hs w) with Some c => _ | None => _ end).
  eapply (total_bind _ _ _ _ (λ _ _, True)); [done|..].
  { destruct (min_height (hs w)) as [m|]; [|by apply total_ret].
    destruct (_ && _); [by apply extend_down_total|by apply total_ret]. }
  intros [] w1 Hwf1 Hm1 _ _. apply total_get.
  eapply (total_bind _ _ _ _ (λ _ w2, writer_token (hs w2) = token →
    ∀ m, min_height (hs w2) = Some m → m ≤ low)); [done|..].
  { destruct (min_height (hs w1)) as [m|] eqn:Hm1'.
    - destruct (N.ltb_spec low m) as [Hlt|Hle].
      + destruct (wipe_spec token (hs w1)) as [Hmeta Hw].
        apply run_total; [done| |done| |].
        * destruct Hw as [[_ ->]|He]; [apply Hwf1|by apply good_empty].
        * intros Hne. destruct Hw as [[_ ->]|He]; [done|].
          unfold wipe, with_writer in *. by rewrite (proj2 (N.eqb_neq _ _) Hne) in *.
        * intros _ Ht m' Hm'. simpl in *. destruct Hw as [[Hne Hw]|He].
          -- rewrite Hw in Ht. done.
          -- apply min_height_None in He. congruence.
      + apply total_ret; [done|done|]. intros _ m' Hm'. naive_solver.
    - apply total_ret; [done|done|]. intros _ m' Hm'. congruence. }
  intros [] w2 Hwf2 Hm2 _ Hmin.
  eapply total_bind; [done|by apply sync_genesis_total|]. intros go w3 Hwf3 Hm3 _ _.
  destruct go; cbn [negb]; [|by apply total_ret]. apply total_get.
  set (start := match tip (hs w3) with Some t => _ | None => _ end).
  assert (Hnext : start < tip_h → next_height (hs w3) start).
  { unfold start. destruct (tip (hs w3)) as [t|] eqn:Ht.
    - intros Hlt. unfold sat_add in *. replace (N.min (t + 1) u32_max) with (t + 1) by lia.
      by apply tip_next.
    - intros _. left. by apply tip_None. }
  eapply (total_bind _ _ _ _ (λ _ w4, next_height (hs w3) start → next_height (hs w4) start)); [done|..].
  { destruct (start <? tip_h); [|by apply total_ret].
    eapply total_from; [done|by apply progress_total|]. intros [] w' [_ Hc]. unfold next_height.
    by rewrite Hc. }
  intros [] w4 Hwf4 Hm4 _ Hn4. apply total_get.
  eapply total_bind; [done|apply sync_loop_total; [done|lia|auto]|]. intros ok w5 Hwf5 Hm5 _ _.
  destruct ok; cbn [negb]; [|by apply total_ret].
  eapply (total_bind _ _ _ _ (λ _ _, True)); [done|..].
  { destruct (start <? tip_h); [|by apply total_ret].
    eapply total_from; [done|by apply progress_total|done]. }
  intros. by apply total_ret.
Qed.

(** *** Reorganisations *)

Lemma scan_chunk_fork s rows buffer buffer' fork_h :
  scan_chunk s rows buffer = (buffer', ScanFork fork_h) → is_Some (chain s !! fork_h).
Proof.
  revert buffer; induction rows as [|[wh raw] rows IH]; intros buffer; cbn [scan_chunk]; [done|].
  destruct (deserialize raw) as [hdr|]; [|done]. case_bool_decide as Hh; [|by apply IH].
  intros [= <- <-]. unfold store_block_hash in Hh. rewrite header_chain in Hh.
  destruct (chain s !! wh); [eauto|done].
Qed.

Lemma fetch_branch_loop_spec fuel incoming_h h buffer w :
  wf w → (N.to_nat (incoming_h + 1 - h) < fuel)%nat →
  ∃ w' o, fetch_branch_loop fuel incoming_h h buffer w = (w', Ok o) ∧ quiet w w'.
Proof.
  revert h buffer w. induction fuel as [|fuel IH]; intros h buffer w Hwf Hf; [lia|].
  cbn [fetch_branch_loop]. destruct (N.ltb_spec incoming_h h) as [|Hle].
  { exists w, (Some buffer). split; [done|by apply quiet_refl]. }
  destruct (buffer !! h); [apply IH; [done|lia]|]. unfold ebind at 1, eget.
  set (count := N.min _ _). destruct (request_headers_spec h count w Hwf) as (w1 & o & Hr & Hq & _).
  unfold ebind. rewrite Hr. destruct o as [[|raw raws]|]; [by exists w1, None| |by exists w1, None].
  destruct (IH (h + N.of_nat (length (raw :: raws)))
    (foldl (λ b row, <[row.1 := row.2]> b) buffer (zip (nseq h (length (raw :: raws))) (raw :: raws))) w1)
    as (w' & o & Hr' & Hq'); [apply Hq|cbn [length]; lia|].
  exists w', o. split; [exact Hr'|by etrans].
Qed.
Lemma fetch_branch_spec fork_h incoming_h buffer w :
  wf w → ∃ w' o, fetch_branch fork_h incoming_h buffer w = (w', Ok o) ∧ quiet w w'.
Proof. intros Hwf. apply fetch_branch_loop_spec; [done|lia]. Qed.

Section reorg.
Context (apply_one : N → raw_header → eff (World (S:=S)) Stuck unit) (bound : nat).
Context (apply_one_total : ∀ h raw w, wf w → (length (inbox w) < bound)%nat → h < u32_max →
  total w (apply_one h raw w) (λ _ _, True)).

Lemma find_fork_total fuel incoming_h incoming_raw min_stored walk_h buffer w :
  wf w → (length (inbox w) < fuel)%nat → (length (inbox w) ≤ bound)%nat → incoming_h < u32_max →
  total w (find_fork_loop apply_one fuel token incoming_h incoming_raw min_stored walk_h buffer w)
    (λ o w', ∀ fork_h b, o = Some (fork_h, b) → is_Some (chain (hs w') !! fork_h)).
Proof.
  revert walk_h buffer w. induction fuel as [|fuel IH]; intros walk_h buffer w Hwf Hf Hb Hh; [lia|].
  cbn [find_fork_loop]. set (chunk_start := N.max _ _). set (count := walk_h - chunk_start + 1).
  destruct (request_headers_spec chunk_start count w Hwf) as (w1 & o & Hr & Hq & Ho).
  eapply total_bind; [done|by eapply (total_quiet _ _ (λ o' w', o' = o ∧ w' = w1))|].
  intros ? ? Hwf1 Hm1 _ [-> ->].
  destruct o as [[|raw raws]|]; [by apply total_ret| |by apply total_ret].
  destruct Ho as [?|[Hl _]]; [done|]. apply total_get.
  destruct (scan_chunk _ _ buffer) as [buffer' [fork_h| |]] eqn:Hsc; [| |by apply total_ret].
  - apply total_ret; [done|done|]. intros ? ? [= <- <-]. by eapply scan_chunk_fork.
  - destruct (chunk_start <=? min_stored).
    + eapply total_bind; [done|by apply wipe_total|]. intros [] w2 Hwf2 Hm2 _ (Hin2 & _).
      eapply total_bind; [done|by apply initial_sync_total|]. intros ok w3 Hwf3 Hm3 Hm23 _.
      eapply (total_bind _ _ _ _ (λ _ _, True)); [done|..].
      { destruct ok; [|by apply total_ret]. apply apply_one_total; [done| |done].
        pose proof (mv_inbox _ _ Hm23) as Hl3. rewrite Hin2 in Hl3. lia. }
      intros [] w4 Hwf4 Hm4 _ _. by apply total_ret.
    + eapply total_from; [done|apply IH|done]; [done|lia|lia|done].
Qed.

Lemma resolve_reorg_total incoming_h incoming_raw w :
  wf w → (length (inbox w) ≤ bound)%nat → incoming_h < u32_max →
  total w (resolve_reorg apply_one token incoming_h incoming_raw w) (λ _ _, True).
Proof.
  intros Hwf Hb Hh. unfold resolve_reorg. apply total_get.
  destruct (min_height (hs w)) as [min_stored|] eqn:Hm.
  2:{ destruct (_ && _); [by apply total_ret|].
      eapply total_bind; [done|apply append_total; [done|left; by apply min_height_None]|].
      intros. by apply total_ret. }
  destruct (incoming_h =? 0); [by apply total_ret|].
  destruct (incoming_h <=? min_stored); [by apply total_ret|].
  eapply total_bind; [done|apply find_fork_total; [done|lia|done|done]|].
  intros f w1 Hwf1 Hm1 _ Hf. destruct f as [[fork_h buffer]|]; [|by apply total_ret].
  specialize (Hf fork_h buffer eq_refl).
  destruct (fetch_branch_spec fork_h incoming_h buffer w1 Hwf1) as (w2 & o & Hr & Hq).
  eapply total_bind; [done|by eapply (total_quiet _ _ (λ o' w', o' = o ∧ w' = w2))|].
  intros ? ? Hwf2 Hm2 _ [-> ->]. destruct Hq as (_ & _ & Hc & _).
  destruct o as [b|]; [|by apply total_ret].
  eapply total_from; [done|apply switch_total; [done|by rewrite Hc|done]|done].
Qed.
End reorg.

Lemma apply_one_total fuel h raw w :
  wf w → (length (inbox w) < fuel)%nat → h < u32_max →
  total w (apply_one fuel token h raw w) (λ _ _, True).
Proof.
  revert h raw w. induction fuel as [|fuel IH]; intros h raw w Hwf Hf Hh; [lia|].
  cbn [apply_one]. destruct (deserialize raw) as [hdr|]; [|by apply total_ret]. apply total_get.
  assert (Hreorg : ∀ w1, wf w1 → moves w w1 →
    total w (resolve_reorg (apply_one fuel token) token h raw w1) (λ _ _, True)).
  { intros w1 Hwf1 Hm1. eapply total_from; [done| |done]. eapply resolve_reorg_total; [|done| |done].
    - intros h' raw' w' ? Hl ?. apply IH; [done|exact Hl|done].
    - pose proof (mv_inbox _ _ Hm1). lia. }
  set (contiguous := match tip_with_hash (hs w) with Some _ => _ | None => _ end).
  destruct contiguous eqn:Hc.
  - eapply total_bind; [done|apply append_total; [done|]|].
    + unfold contiguous in Hc. destruct (tip_with_hash (hs w)) as [[t hash]|] eqn:Ht.
      * apply andb_true_iff in Hc as [->%N.eqb_eq _]. apply tip_next. unfold tip_with_hash in Ht.
        destruct (tip (hs w)) as [t'|]; [|done]. simpl in Ht. destruct (header (hs w) t'); [|done].
        simpl in Ht. congruence.
      * left. eapply good_tip; [apply Hwf|done].
    + intros r w1 Hwf1 Hm1 _ _. destruct r as [[]|[]]; try (by apply total_ret); by apply Hreorg.
  - destruct (check_pow _ _); [by apply Hreorg|by apply total_ret].
Qed.
Lemma apply_total h raw w :
  wf w → h < u32_max → total w (apply token h raw w) (λ _ _, True).
Proof. intros. unfold apply. apply apply_one_total; [done|lia|done]. Qed.

(** *** The loop *)

Lemma apply_all_total rows w :
  wf w → Forall (λ r : N * raw_header, r.1 < u32_max) rows →
  total w (efor rows (λ row, apply token row.1 row.2) w) (λ _ _, True).
Proof.
  revert w. induction rows as [|[h raw] rows IH]; intros w Hwf Hr; cbn [efor]; [by apply total_ret|].
  apply Forall_cons in Hr as [Hh Hr].
  eapply total_bind; [done|by apply apply_total|]. intros [] w1 Hwf1 Hm1 _ _.
  eapply total_from; [done|by apply IH|done].
Qed.

Lemma main_loop_total fuel w :
  wf w → (mu w < fuel)%nat → total w (main_loop fuel token w) (λ _ _, True).
Proof.
  revert w. induction fuel as [|fuel IH]; intros w Hwf Hf; [lia|].
  cbn [main_loop]. apply total_get.
  assert (Hagain : ∀ w1, wf w1 → moves w w1 → (mu w1 < mu w)%nat →
    total w (main_loop fuel token w1) (λ _ _, True)).
  { intros w1 ???. eapply total_from; [done|apply IH|done]; [done|lia]. }
  destruct (deferred w) as [|[h raw] rest] eqn:Hd.
  - destruct (HeaderStore.extend_down (hs w)) as [height|] eqn:He.
    + assert (Hset : wf (set_hs (set_extend_down None (hs w)) w) ∧
        moves w (set_hs (set_extend_down None (hs w)) w) ∧
        (mu (set_hs (set_extend_down None (hs w)) w) < mu w)%nat).
      { destruct Hwf. unfold mu, wanted. simpl. rewrite He. split_and!; [by split| |lia].
        split; simpl; try done; try lia. unfold mu, wanted. simpl. rewrite He. lia. }
      destruct Hset as (Hwf1 & Hm1 & Hmu1).
      unfold ebind at 1, run.
      eapply total_bind; [done|by apply extend_down_total|]. intros [] w2 Hwf2 Hm2 Hm12 _.
      apply Hagain; [done|done|]. pose proof (mv_mu _ _ Hm12). lia.
    + destruct (inbox w) as [|i entries] eqn:Hin; [by apply total_ret|].
      destruct (take_recv_spec i entries w Hwf Hin) as ((Hwf1 & Hm1 & _) & _ & _ & Hok & Hmu).
      unfold ebind at 1. apply total_get. set (w1 := take_recv i entries w) in *.
      destruct (is_stale token (hs w1)); [by apply total_ret|].
      assert (Hone : ∀ h raw, h < u32_max → total w
        ((do! _ := apply token h raw in main_loop fuel token) w1) (λ _ _, True)).
      { intros h raw Hh. eapply total_bind; [done|by apply apply_total|].
        intros [] w2 Hwf2 Hm2 Hm12 _. apply Hagain; [done|done|]. pose proof (mv_mu _ _ Hm12). lia. }
      unfold entry_ok in Hok.
      destruct (msg i) as [[h raw|h raw|start raws| | |e]|]; auto;
        try (apply Hagain; [done|done|lia]); [|by apply total_ret].
      eapply total_bind; [done|apply apply_all_total; [done|]|].
      * apply Forall_forall. intros [h raw] Hin'. apply elem_of_zip_l, elem_of_nseq in Hin'. simpl. lia.
      * intros [] w2 Hwf2 Hm2 Hm12 _. apply Hagain; [done|done|]. pose proof (mv_mu _ _ Hm12). lia.
  - set (w1 := set_deferred rest w).
    assert (Hpop : wf w1 ∧ moves w w1 ∧ (mu w1 < mu w)%nat ∧ h < u32_max).
    { destruct Hwf as [? ? Hds ?]. rewrite Hd in Hds. apply Forall_cons in Hds as [? ?].
      unfold mu, wanted. simpl. rewrite Hd. simpl. split_and!; [by split| |lia|done].
      split; simpl; try done; try lia. unfold mu, wanted. simpl. rewrite Hd. simpl. lia. }
    destruct Hpop as (Hwf1 & Hm1 & Hmu1 & Hh). unfold ebind at 1. fold w1.
    destruct (is_stale token (hs w)); [by apply total_ret|].
    eapply total_bind; [done|by apply apply_total|]. intros [] w2 Hwf2 Hm2 Hm12 _.
    apply Hagain; [done|done|]. pose proof (mv_mu _ _ Hm12). lia.
Qed.

Lemma wait_tip_spec entries w w' o :
  wf w → inbox w = entries → wait_tip token entries w = (w', o) →
  wf w' ∧ moves w w' ∧ (∀ h raw, o = Some (h, raw) → h < u32_max).
Proof.
  revert w. induction entries as [|i entries IH]; intros w Hwf Hin; cbn [wait_tip].
  { intros [= <- <-]. replace (set_inbox [] w) with w by (destruct w; simpl in *; by subst). done. }
  destruct (take_recv_spec i entries w Hwf Hin) as ((Hwf1 & Hm1 & _) & Hin1 & _ & Hok & Hmu).
  set (w1 := take_recv i entries w) in *.
  assert (Hagain : wait_tip token entries w1 = (w', o) →
    wf w' ∧ moves w w' ∧ ∀ h raw, o = Some (h, raw) → h < u32_max).
  { intros Hr. destruct (IH w1 Hwf1 Hin1 Hr) as (? & ? & Ho). split_and!; [done|by etrans|exact Ho]. }
  unfold entry_ok in Hok. destruct (msg i) as [m|]; [|done].
  destruct (is_stale token (hs w1)); [by intros [= <- <-]|].
  destruct m; try done; intros [= <- <-]; split_and!; try done. by intros ? ? [= <- <-].
Qed.

(** The rest of the worker, from the subscription on. *)
Lemma run_worker_ready w0 w :
  wf w → wait_for_replay token w0 = (w, Ok true) → total w (run_worker token w0) (λ _ _, True).
Proof.
  intros Hwf Hready. unfold run_worker. unfold ebind at 1. rewrite Hready. cbn [negb].
  destruct (send_spec Subscribe w Hwf) as (w1 & sent & Hs & Hq & _).
  eapply total_bind; [done|by eapply (total_quiet _ _ (λ b w', b = sent ∧ w' = w1))|].
  intros ? ? Hwf1 Hm1 _ [-> ->]. destruct sent; cbn [negb]; [|by apply total_ret].
  destruct (wait_tip token (inbox w1) w1) as [w2 o] eqn:Ht.
  unfold ebind at 1. rewrite Ht.
  apply wait_tip_spec in Ht as (Hwf2 & Hm12 & Ho); [|done|done].
  assert (Hm2 : moves w w2) by (by etrans).
  destruct o as [[tip_h tip_raw]|]; [|by apply total_ret].
  specialize (Ho _ _ eq_refl). apply total_get.
  destruct (is_stale token (hs w2)); [by apply total_ret|].
  eapply total_bind; [done|by apply initial_sync_total|]. intros ok w3 Hwf3 Hm3 _ _.
  destruct ok; cbn [negb]; [|by apply total_ret]. apply total_get.
  eapply (total_bind _ _ _ _ (λ _ _, True)); [done|..].
  { case_match; [by apply apply_total|by apply total_ret]. }
  intros [] w4 Hwf4 Hm4 _ _. apply total_get. eapply total_from; [done|apply main_loop_total|done]; [done|].
  unfold mu, loop_fuel, wanted. case_match; lia.
Qed.
End proofs.

Section loaded.
Context `{HeaderLib} `{!HeaderLaws} {S : Type} `{!Store S N raw_header}.
Context `{!StoreLaws S N raw_header} `{!StoreTotal S N raw_header}.

(** A store just opened: its chain is empty, or its replay thread will check it. *)
Lemma with_checkpoint_spec network (st : S) cp s snapshot :
  with_checkpoint network st cp = (s, snapshot) →
  hs_network s = network ∧ checkpoint s = cp ∧ writer_token s = 0 ∧ stopped s = false ∧
  match snapshot with
  | None => chain s = ∅ ∧ validation_state s ≠ Validating
  | Some m => m = chain s ∧ m ≠ ∅ ∧ validation_state s = Validating ∧
              sanity_check network cp m = Ok tt
  end.
Proof.
  unfold with_checkpoint, start_replay_validation. set (s0 := mkHeaderStore _ _ _ _ _ _ _ _ _).
  rewrite raw_map_spec. destruct (bt_first_key (chain s0)) as [a|] eqn:Ha.
  2:{ intros [= <- <-]. apply bt_first_key_None in Ha. by split_and!. }
  destruct (bt_last_key (chain s0)) as [b|] eqn:Hb.
  2:{ intros [= <- <-]. apply bt_last_key_None in Hb. by split_and!. }
  assert (Hne : chain s0 ≠ ∅) by (intros He; apply bt_first_key_None in He; congruence).
  simpl hs_network. simpl checkpoint.
  destruct (sanity_check network cp (chain s0)) as [[]|cause] eqn:Hsan.
  - intros [= <- <-]. by split_and!.
  - destruct (clear_store s0) as [s1 r] eqn:Hc. apply clear_inner_spec in Hc as [Hc (H1 & H2 & H3 & H4 & _)].
    intros [= <- <-]. simpl. by split_and!.
Qed.

Lemma finish_replay_good now m (s : HeaderStore (S:=S)) :
  m = chain s → m ≠ ∅ → sanity_check (hs_network s) (checkpoint s) m = Ok tt →
  good false now (finish_replay now m s) ∧ same_meta s (finish_replay now m s) ∧
  validation_state (finish_replay now m s) ≠ Validating.
Proof.
  intros -> Hne Hs. unfold finish_replay.
  destruct (replay_validate (hs_network s) now (chain s)) as [[]|e] eqn:Hr.
  - assert (Hg : good false now s) by (apply reload_iff; done).
    unfold finish_replay_validation_success. case_match;
      (split_and!; [by eapply good_meta; [..|exact Hg]|done|done]).
  - destruct (clear_store s) as [s1 r] eqn:Hc. apply clear_inner_spec in Hc as [Hc Hm].
    split_and!; [by apply good_empty|done|done].
Qed.

Lemma good_relax now (s : HeaderStore (S:=S)) : good false now s → good true now s.
Proof. intros [?|[lo Hlo]]; [by left|right]. exists lo. by apply chain_at_strict. Qed.

(** The worker of a store just opened. *)
Lemma run_worker_spec network (st : S) cp (w : World (S:=S)) :
  with_checkpoint network st cp = (hs w, replay w) → Forall entry_ok (inbox w) → deferred w = [] →
  ∃ w', run_worker 0 w = (w', Ok tt) ∧ good true (clock w') (hs w').
Proof.
  intros Hl Hin Hd. apply with_checkpoint_spec in Hl as (Hn & Hc & Ht & Hst & Hsnap).
  assert (Hstale : is_stale 0 (hs w) = false) by (unfold is_stale; by rewrite Hst, Ht).
  assert (Hgo : ∀ w1, wf 0 w1 → wait_for_replay 0 w = (w1, Ok true) →
    ∃ w', run_worker 0 w = (w', Ok tt) ∧ good true (clock w') (hs w')).
  { intros w1 Hwf1 Hr. destruct (run_worker_ready 0 w w1 Hwf1 Hr) as (w' & [] & Hw & Hwf' & _).
    exists w'. split; [done|apply Hwf']. }
  destruct (replay w) as [m|] eqn:Hrp.
  - destruct Hsnap as (Hm & Hne & Hv & Hsan). rewrite <-Hn, <-Hc in Hsan.
    destruct (finish_replay_good (clock w) m (hs w) Hm Hne Hsan) as (Hg & (? & ? & Ht' & _) & _).
    eapply Hgo; [|unfold wait_for_replay; by rewrite Hstale, Hv, Hrp].
    split; [by apply good_relax|done|by simpl; rewrite Hd|simpl; lia].
  - destruct Hsnap as (Hm & Hv). apply (Hgo w).
    + split; [by apply good_empty|done|by rewrite Hd|lia].
    + unfold wait_for_replay. rewrite Hstale. by destruct (validation_state (hs w)).
Qed.
End loaded.

(** ** Properties *)

Section properties.
Context `{HeaderLib} `{!HeaderLaws} {S : Type} `{!Store S N raw_header}.
Context `{!StoreLaws S N raw_header} `{!StoreTotal S N raw_header}.

(** C4. Whatever a store holds when it is opened and whatever the server sends,
    with heights below the last 32-bit one, the worker never runs out of fuel: it
    ends when its channel closes or it is told to, and it leaves a chain without
    gaps from a retarget boundary in which the checkpoint's block stands at its
    height and every header but the anchor was validated against the headers
    below it, back to the window's length or to a floor the chain had. *)
Theorem worker_keeps_chain_valid (network : Network) (st : S) (cp : option Checkpoint)
    (w : World (S:=S)) :
  with_checkpoint network st cp = (hs w, replay w) → Forall entry_ok (inbox w) → deferred w = [] →
  ∃ w', run_worker 0 w = (w', Ok tt) ∧ good true (clock w') (hs w').
Proof. apply run_worker_spec. Qed.

(** Once [restart] has moved the writer token past a worker's, that worker ends
    without changing the chain, whatever it still receives. *)
Theorem superseded_worker_idle (token : N) (w : World (S:=S)) :
  wf token w → token < writer_token (hs w) →
  ∃ w', main_loop (loop_fuel w) token w = (w', Ok tt) ∧ chain (hs w') = chain (hs w).
Proof.
  intros Hwf Ht. destruct (main_loop_total token (loop_fuel w) w Hwf) as (w' & [] & Hr & _ & Hm & _).
  - unfold mu, loop_fuel, wanted. case_match; lia.
  - exists w'. split; [done|]. by apply Hm.
Qed.
End properties.

(** ** Witnesses *)
Module Witness.
Import Sample.

Definition at_once (m : HeaderResponse) : Recv := mkRecv 1 [] (Some m).

(** A server with eight headers: it answers the genesis request, the two batches of
    the initial sync, then announces a block and a competing branch. *)
Definition served : list Recv := [
  at_once (Tip 6 (raw 12 106 13));
  at_once (Batch 0 [raw 0 100 7]);
  mkRecv 60 [] None;
  at_once (Batch 1 [raw 7 101 8; raw 8 102 9; raw 9 103 10; raw 10 104 11]);
  at_once (Batch 5 [raw 11 105 12]);
  at_once (HeaderAt 7 (raw 13 107 14));
  at_once (HeaderAt 8 (raw 31 109 32));
  at_once (Batch 0 [raw 0 100 7; raw 7 101 8; raw 8 102 9; raw 9 103 10; raw 10 104 11;
    raw 11 105 12; raw 12 106 13; raw 13 108 31]) ].

Definition opened := with_checkpoint Bitcoin HeaderStore.Witness.ram None.
Definition w0 : World := mkWorld opened.1 1000 served [] [] 10 opened.2.

Lemma worker_keeps_chain_valid_witness :
  ∃ w', run_worker 0 w0 = (w', Ok tt) ∧ good true (clock w') (hs w').
Proof.
  apply (worker_keeps_chain_valid Bitcoin HeaderStore.Witness.ram None w0).
  - reflexivity.
  - repeat constructor; vm_compute; done.
  - reflexivity.
Defined.

(** The chain it ends with: the competing branch from height 7 has more work. *)
Example worker_run :
  let w' := (run_worker 0 w0).1 in
  tip (hs w') = Some 8 ∧ store_block_hash (hs w') 7 = Some 31 ∧
  store_block_hash (hs w') 8 = Some 32 ∧ is_validated (hs w') = true.
Proof. vm_compute. split_and!; reflexivity. Qed.

Definition w1 : World := set_hs (act ActRestart (hs w0)) w0.
Lemma superseded_worker_idle_witness :
  ∃ w', main_loop (loop_fuel w1) 0 w1 = (w', Ok tt) ∧ chain (hs w') = chain (hs w1).
Proof.
  apply superseded_worker_idle.
  - split; [by left|repeat constructor; vm_compute; done|done|by vm_compute].
  - by vm_compute.
Defined.
End Witness.
End HeaderWorker.
