(* ===== verification/Fanout.v ===== *)
(** * Fanning events out to listeners (electrum/src/fanout.rs)

    Channels are shared: the registry holds the sending ends and the listeners
    the receiving ones, so they live in a heap. A channel is its queue, and
    whether its receiver is still there; a send to one that is gone fails, and
    that is what prunes a listener. *)
From stdpp Require Import base gmap list.
From S2P Require Import Prelude.

Module Fanout.

Section fanout.
Context {T : Type}.

Record Chan := mkChan { queue : list T; receiver : bool }.

(** The heap of channels, the counter [NEXT_LISTENER_ID] and the registry. *)
Record Fanout := mkFanout {
  chans : gmap N Chan;
  next_chan : N;
  next_id : N;
  listeners : list (N * N)
}.

Definition set_listeners (f : Fanout) (l : list (N * N)) : Fanout :=
  mkFanout (chans f) (next_chan f) (next_id f) l.
Definition set_chans (f : Fanout) (m : gmap N Chan) : Fanout :=
  mkFanout m (next_chan f) (next_id f) (listeners f).

(** [mpsc::channel] and [Sender::send]. *)
Definition channel (f : Fanout) : Fanout * N :=
  (mkFanout (<[next_chan f := mkChan [] true]> (chans f)) (next_chan f + 1) (next_id f)
     (listeners f), next_chan f).
Definition send (tx : N) (event : T) (m : gmap N Chan) : gmap N Chan * bool :=
  match m !! tx with
  | Some c =>
      if receiver c then (<[tx := mkChan (queue c ++ [event]) true]> m, true) else (m, false)
  | None => (m, false)
  end.

(** [ListenerId::next]. *)
Definition listener_id_next (f : Fanout) : Fanout * N :=
  (mkFanout (chans f) (next_chan f) (next_id f + 1) (listeners f), next_id f).

Definition register_as (id : N) (f : Fanout) : Fanout * N :=
  let '(f, c) := channel f in
  (set_listeners f (List.filter (λ l, negb (l.1 =? id)) (listeners f) ++ [(id, c)]), c).

Definition register (f : Fanout) : Fanout * N :=
  let '(f, id) := listener_id_next f in register_as id f.

Definition register_sender (sender : N) (f : Fanout) : Fanout :=
  let '(f, id) := listener_id_next f in set_listeners f (listeners f ++ [(id, sender)]).

(** [retain] with the send as its test. *)
Fixpoint retain_sent (event : T) (m : gmap N Chan) (l : list (N * N)) :
    gmap N Chan * list (N * N) :=
  match l with
  | [] => (m, [])
  | (id, tx) :: l =>
      let '(m, sent) := send tx event m in
      let '(m, l) := retain_sent event m l in
      (m, if sent : bool then (id, tx) :: l else l)
  end.
Definition notify (event : T) (f : Fanout) : Fanout :=
  let '(m, l) := retain_sent event (chans f) (listeners f) in
  mkFanout m (next_chan f) (next_id f) l.

Definition notify_one (id : N) (event : T) (f : Fanout) : Fanout :=
  match list_find (λ l, l.1 = id) (listeners f) with
  | None => f
  | Some (pos, (_, tx)) =>
      let '(m, sent) := send tx event (chans f) in
      let f := set_chans f m in
      if sent : bool then f else set_listeners f (delete pos (listeners f))
  end.
End fanout.
Arguments Chan : clear implicits.
Arguments Fanout : clear implicits.

(** ** Proofs *)

Section proofs.
Context {T : Type}.
Implicit Types f : Fanout T.

(** What the listener [id] has received, and whether it is listening. *)
Definition received f (c : N) : list T := match chans f !! c with Some ch => queue ch | None => [] end.
Definition listening f (id c : N) : Prop :=
  (id, c) ∈ listeners f ∧ ∃ q, chans f !! c = Some (mkChan q true).

(** The registry: one entry per id, and none shares a channel. *)
Record wf f : Prop := {
  wf_ids : NoDup (listeners f).*1;
  wf_chans : NoDup (listeners f).*2;
  wf_fresh c : is_Some (chans f !! c) → c < next_chan f;
  wf_held id c : (id, c) ∈ listeners f → is_Some (chans f !! c)
}.

Lemma send_received tx event (m : gmap N (Chan T)) m' b :
  send tx event m = (m', b) →
  (b = true ∧ ∃ q, m !! tx = Some (mkChan q true) ∧ m' = <[tx := mkChan (q ++ [event]) true]> m) ∨
  (b = false ∧ m' = m ∧ ¬ ∃ q, m !! tx = Some (mkChan q true)).
Proof.
  unfold send. destruct (m !! tx) as [[q []]|]; intros [= <- <-].
  - left. split; [done|]. eauto.
  - right. split_and!; [done|done|]. by intros [? [=]].
  - right. split_and!; [done|done|]. by intros [? [=]].
Qed.

Lemma find_listener f id c :
  NoDup (listeners f).*1 → (id, c) ∈ listeners f →
  ∃ pos, list_find (λ l : N * N, l.1 = id) (listeners f) = Some (pos, (id, c)).
Proof.
  intros Hnd [i Hi]%list_elem_of_lookup.
  destruct (list_find_elem_of (λ l : N * N, l.1 = id) (listeners f) (id, c)) as [[pos [id' c']] Hf];
    [by eapply list_elem_of_lookup_2|done|].
  apply list_find_Some in Hf as Hf'. destruct Hf' as (Hp & Hid & _). simpl in Hid. subst id'.
  assert (pos = i).
  { eapply (NoDup_lookup (listeners f).*1); [done|..]; rewrite list_lookup_fmap.
    - by rewrite Hp.
    - by rewrite Hi. }
  subst. rewrite Hi in Hp. injection Hp as <-. eauto.
Qed.

(** A message to a listener is appended to its queue, and changes nothing else. *)
Lemma notify_one_listening f id c event :
  wf f → listening f id c →
  received (notify_one id event f) c = received f c ++ [event] ∧
  listeners (notify_one id event f) = listeners f ∧
  (∀ c', c' ≠ c → chans (notify_one id event f) !! c' = chans f !! c') ∧
  listening (notify_one id event f) id c.
Proof.
  intros Hwf [Hin [q Hq]]. destruct (find_listener f id c (wf_ids _ Hwf) Hin) as [pos Hf].
  unfold notify_one. rewrite Hf. unfold send. rewrite Hq. simpl.
  unfold received, listening. simpl. rewrite Hq, lookup_insert_eq. simpl.
  split_and!; try done; [|by eauto]. intros c' Hne. by rewrite lookup_insert_ne.
Qed.

(** What every notification leaves: the listeners that are still there were there,
    and have received at least what they had. *)
Record grows f f' : Prop := {
  gr_wf : wf f';
  gr_listening id c : listening f' id c → listening f id c;
  gr_received id c : listening f' id c → received f c `prefix_of` received f' c
}.

Lemma grows_refl f : wf f → grows f f.
Proof. intros ?. by split. Qed.
Lemma grows_trans f1 f2 f3 : grows f1 f2 → grows f2 f3 → grows f1 f3.
Proof.
  intros [? Hl Hr] [? Hl' Hr']. split; [done|by eauto|]. intros id c Hc. etrans; [eapply Hr, Hl'; exact Hc|].
  by eapply Hr'.
Qed.

Lemma wf_sublist f l m :
  wf f → l `sublist_of` listeners f → (∀ c, is_Some (m !! c) ↔ is_Some (chans f !! c)) →
  wf (mkFanout m (next_chan f) (next_id f) l).
Proof.
  intros [H1 H2 H3 H4] Hl Hm. split; simpl.
  - eapply NoDup_sublist; [by apply sublist_fmap|done].
  - eapply NoDup_sublist; [by apply sublist_fmap|done].
  - intros c Hc%Hm. by apply H3.
  - intros id c Hin. apply Hm, (H4 id). eapply elem_of_sublist; done.
Qed.

Lemma notify_one_grows f id event :
  wf f → grows f (notify_one id event f) ∧
    ∀ c, listening (notify_one id event f) id c → event ∈ received (notify_one id event f) c.
Proof.
  intros Hwf. unfold notify_one.
  destruct (list_find _ (listeners f)) as [[pos [id' tx]]|] eqn:Hf.
  2:{ split; [by apply grows_refl|]. intros c [Hin _].
      destruct (find_listener f id c (wf_ids _ Hwf) Hin) as [pos Hp]. congruence. }
  apply list_find_Some in Hf as (Hpos & Hid & _). simpl in Hid. subst id'.
  destruct (send tx event (chans f)) as [m sent] eqn:Hs.
  apply send_received in Hs as [(-> & q & Hq & ->)|(-> & -> & Hdead)].
  - split.
    + split.
      * apply (wf_sublist f); [done|done|]. intros c. rewrite lookup_insert_is_Some'.
        split; [|by auto]. intros [<-|?]; [by rewrite Hq; eauto|done].
      * intros id' c [Hin [q' Hq']]. split; [done|]. simpl in Hq'.
        destruct (decide (tx = c)) as [<-|Hne]; [by eauto|]. rewrite lookup_insert_ne in Hq' by done. eauto.
      * intros id' c _. unfold received. simpl. destruct (decide (tx = c)) as [<-|Hne].
        -- rewrite lookup_insert_eq, Hq. simpl. by apply prefix_app_r.
        -- by rewrite lookup_insert_ne.
    + intros c [Hin _]. simpl in Hin.
      assert (c = tx) as ->.
      { apply list_elem_of_lookup in Hin as [i Hi].
        assert (i = pos); [|congruence].
        eapply (NoDup_lookup (listeners f).*1); [by apply wf_ids|..]; rewrite list_lookup_fmap.
        - by rewrite Hi.
        - by rewrite Hpos. }
      unfold received. simpl. rewrite lookup_insert_eq. simpl. set_solver.
  - split.
    + split.
      * apply (wf_sublist f); [done|apply sublist_delete|done].
      * intros id' c [Hin Hq]. split; [|done]. simpl in Hin.
        eapply elem_of_sublist; [done|apply sublist_delete].
      * done.
    + intros c [Hin Hq]. exfalso. simpl in Hin, Hq.
      assert (Hin' : (id, c) ∈ listeners f) by (eapply elem_of_sublist; [done|apply sublist_delete]).
      apply list_elem_of_lookup in Hin' as [i Hi].
      assert (i = pos) as ->.
      { eapply (NoDup_lookup (listeners f).*1); [by apply wf_ids|..]; rewrite list_lookup_fmap.
        - by rewrite Hi.
        - by rewrite Hpos. }
      rewrite Hpos in Hi. injection Hi as <-. done.
Qed.

(** Sending to every listener in turn. *)
Lemma retain_sent_spec event l : ∀ (m m' : gmap N (Chan T)) l',
  NoDup l.*2 → retain_sent event m l = (m', l') →
  l' `sublist_of` l ∧ (∀ c, is_Some (m' !! c) ↔ is_Some (m !! c)) ∧
  (∀ c, c ∉ l.*2 → m' !! c = m !! c) ∧
  (∀ id c, (id, c) ∈ l' → ∃ q, m !! c = Some (mkChan q true) ∧ m' !! c = Some (mkChan (q ++ [event]) true)).
Proof.
  induction l as [|[id tx] l IH]; intros m m' l' Hnd; cbn [retain_sent].
  { intros [= <- <-]. split_and!; try done. set_solver. }
  csimpl in Hnd. apply NoDup_cons in Hnd as [Htx Hnd].
  destruct (send tx event m) as [m1 sent] eqn:Hs.
  destruct (retain_sent event m1 l) as [m2 l2] eqn:Hr. intros [= <- <-].
  destruct (IH _ _ _ Hnd Hr) as (Hsub & Hdom & Hother & Hgot).
  assert (Hl2 : ∀ id' c, (id', c) ∈ l2 → c ≠ tx).
  { intros id' c Hin ->. apply Htx. apply list_elem_of_fmap. exists (id', tx).
    split; [done|]. by eapply elem_of_sublist. }
  apply send_received in Hs as [(-> & q & Hq & ->)|(-> & -> & _)].
  - split_and!.
    + by constructor.
    + intros c. rewrite Hdom, lookup_insert_is_Some'. split; [|by auto].
      intros [<-|?]; [by rewrite Hq; eauto|done].
    + intros c Hc. csimpl in Hc. apply not_elem_of_cons in Hc as [Hne Hc].
      rewrite Hother by done. by rewrite lookup_insert_ne by congruence.
    + intros id' c [[= -> ->]|Hin]%elem_of_cons.
      * exists q. split; [done|]. rewrite Hother by done. by rewrite lookup_insert_eq.
      * destruct (Hgot id' c Hin) as (q' & Hm & Hm'). exists q'. split; [|done].
        rewrite lookup_insert_ne in Hm; [done|]. intros ->. by eapply Hl2.
  - split_and!; [by constructor|done| |done]. intros c Hc. apply Hother. set_solver.
Qed.

Lemma notify_grows f event :
  wf f → grows f (notify event f) ∧
    ∀ id c, listening (notify event f) id c → event ∈ received (notify event f) c.
Proof.
  intros Hwf. unfold notify.
  destruct (retain_sent event (chans f) (listeners f)) as [m l] eqn:Hr.
  apply retain_sent_spec in Hr as (Hsub & Hdom & _ & Hgot); [|by apply wf_chans].
  split; [split|].
  - by apply (wf_sublist f).
  - intros id c [Hin _]. simpl in Hin. destruct (Hgot id c Hin) as (q & Hq & _).
    split; [by eapply elem_of_sublist|eauto].
  - intros id c [Hin _]. simpl in Hin. destruct (Hgot id c Hin) as (q & Hq & Hq').
    unfold received. simpl. rewrite Hq, Hq'. simpl. by apply prefix_app_r.
  - intros id c [Hin _]. simpl in Hin. destruct (Hgot id c Hin) as (q & Hq & Hq').
    unfold received. simpl. rewrite Hq'. simpl. set_solver.
Qed.

(** Registering keeps the registry well formed, and the new listener hears of
    nothing yet. *)
Lemma register_as_spec id f f' c :
  wf f → register_as id f = (f', c) →
  wf f' ∧ listening f' id c ∧ received f' c = [] ∧
  ∀ id' c', id' ≠ id → listening f id' c' → listening f' id' c' ∧ received f' c' = received f c'.
Proof.
  intros [H1 H2 H3 H4]. unfold register_as, channel, set_listeners. simpl. intros [= <- <-].
  set (old := List.filter (λ l : N * N, negb (l.1 =? id)) (listeners f)).
  assert (Hsub : old `sublist_of` listeners f) by apply filter_sublist.
  assert (Hold : ∀ id' c', (id', c') ∈ old ↔ (id', c') ∈ listeners f ∧ id' ≠ id).
  { intros id' c'. unfold old. rewrite !list_elem_of_In, filter_In. simpl.
    rewrite negb_true_iff, N.eqb_neq. done. }
  assert (Hfresh : chans f !! next_chan f = None).
  { destruct (chans f !! next_chan f) eqn:Hc; [|done]. specialize (H3 (next_chan f) ltac:(eauto)). lia. }
  split_and!; [split; simpl|..].
  - rewrite fmap_app. csimpl. apply NoDup_app. split_and!.
    + eapply NoDup_sublist; [by apply sublist_fmap|done].
    + intros i Hi ->%list_elem_of_singleton. apply list_elem_of_fmap in Hi as ([i' c'] & -> & Hin).
      by apply Hold in Hin as [_ ?].
    + apply NoDup_singleton.
  - rewrite fmap_app. csimpl. apply NoDup_app. split_and!.
    + eapply NoDup_sublist; [by apply sublist_fmap|done].
    + intros i Hi ->%list_elem_of_singleton. apply list_elem_of_fmap in Hi as ([i' c'] & Hc & Hin).
      simpl in Hc. subst c'. apply Hold in Hin as [Hin _]. apply H4 in Hin. rewrite Hfresh in Hin.
      by destruct Hin.
    + apply NoDup_singleton.
  - intros c' [<-|Hc]%lookup_insert_is_Some'; [lia|]. specialize (H3 c' Hc). lia.
  - intros i c' [Hin|Hin]%elem_of_app; apply lookup_insert_is_Some'.
    + right. apply Hold in Hin as [Hin _]. by eapply H4.
    + apply list_elem_of_singleton in Hin as [= -> ->]. by left.
  - split; simpl; [set_solver|]. rewrite lookup_insert_eq. eauto.
  - unfold received. simpl. by rewrite lookup_insert_eq.
  - intros id' c' Hne [Hin [q Hq]].
    assert (next_chan f ≠ c') by (intros <-; congruence).
    unfold listening, received. simpl. rewrite lookup_insert_ne by done. split; [|done].
    split; [|by eauto]. apply elem_of_app. left. by apply Hold.
Qed.
End proofs.
End Fanout.
