(* ===== verification/Merkle.v ===== *)
(** * Merkle proofs (electrum/src/header_store.rs)

    [verify_merkle_branch] against the merkle tree of a block, and the router that
    brings the answer of a proof request back to whoever asked ([MerkleRouter],
    [fetch_merkle], [forward_merkle_proofs], [merkle_client_ended], [stop]). *)
From stdpp Require Import base gmap list.
From S2P Require Import Prelude Bitcoin Fanout HeaderValidator HeaderStore.

Module Merkle.
Import HeaderValidator HeaderStore Fanout.

(** ** The tree of a block *)

Section tree.
Context `{HeaderLib}.

(** One level: the nodes hashed in pairs, an odd last one with itself. *)
Fixpoint pair_up (l : list N) : list N :=
  match l with
  | a :: b :: l => sha256d_pair a b :: pair_up l
  | [a] => [sha256d_pair a a]
  | [] => []
  end.

(** The pairs that are hashed on that level. *)
Fixpoint level_pairs (l : list N) : list (N * N) :=
  match l with
  | a :: b :: l => (a, b) :: level_pairs l
  | [a] => [(a, a)]
  | [] => []
  end.

(** A tree of [n] levels above its leaves, and every pair it hashes. *)
Fixpoint levels (n : nat) (l : list N) : list N :=
  match n with O => l | S n => levels n (pair_up l) end.
Fixpoint tree_pairs (n : nat) (l : list N) : list (N * N) :=
  match n with O => [] | S n => level_pairs l ++ tree_pairs n (pair_up l) end.

(** The proof a server gives for the leaf at [pos]: its sibling on each level. *)
Definition sibling (l : list N) (pos : nat) : N :=
  let other := if Nat.even pos then S pos else Nat.pred pos in
  default (default 0 (l !! pos)) (l !! other).
Fixpoint merkle_branch (n : nat) (l : list N) (pos : nat) : list N :=
  match n with
  | O => []
  | S n => sibling l pos :: merkle_branch n (pair_up l) (pos / 2)
  end.

(** The fold of [verify_merkle_branch], and the pairs it hashes. *)
Definition fold_branch (branch : list N) (np : N * N) : N * N :=
  foldl (λ '(node, idx) sibling,
    (if N.land idx 1 =? 0 then sha256d_pair node sibling else sha256d_pair sibling node,
     N.shiftr idx 1)) np branch.
Fixpoint branch_pairs (branch : list N) (node idx : N) : list (N * N) :=
  match branch with
  | [] => []
  | s :: branch =>
      let p := if N.land idx 1 =? 0 then (node, s) else (s, node) in
      p :: branch_pairs branch (sha256d_pair p.1 p.2) (N.shiftr idx 1)
  end.

Lemma verify_merkle_branch_fold txid branch pos root :
  pos < 2 ^ 32 →
  verify_merkle_branch txid branch pos root = true ↔
  pos < 2 ^ N.of_nat (length branch) ∧ (fold_branch branch (txid, pos)).1 = root.
Proof.
  intros Hpos. unfold verify_merkle_branch. fold (fold_branch branch (txid, pos)).
  destruct (fold_branch branch (txid, pos)) as [node idx]. simpl.
  destruct (Nat.ltb_spec (length branch) 32) as [Hl|Hl]; simpl.
  - destruct (N.leb_spec (2 ^ N.of_nat (length branch)) pos).
    + split; [done|]. lia.
    + rewrite N.eqb_eq. tauto.
  - rewrite N.eqb_eq. split; [|tauto]. intros ->. split; [|done].
    eapply N.lt_le_trans; [exact Hpos|]. apply N.pow_le_mono_r; lia.
Qed.

Lemma even_land pos : (N.land pos 1 =? 0) = N.even pos.
Proof.
  change 1 with (N.ones 1). rewrite N.land_ones. change (2 ^ 1) with 2.
  destruct (N.even pos) eqn:He.
  - apply N.even_spec in He as [k ->]. rewrite N.mul_comm, N.Div0.mod_mul. done.
  - apply N.eqb_neq. rewrite <-N.negb_odd in He. apply negb_false_iff, N.odd_spec in He as [k ->].
    rewrite N.mul_comm, N.add_comm, N.Div0.mod_add. done.
Qed.

Lemma list_ind2 {A} (P : list A → Prop) :
  P [] → (∀ a, P [a]) → (∀ a b l, P l → P (a :: b :: l)) → ∀ l, P l.
Proof.
  intros H0 H1 H2. fix IH 1. intros [|a [|b l]]; [done|apply H1|apply H2, IH].
Qed.

Lemma level_lookup l j :
  level_pairs l !! j = (λ a, (a, default a (l !! S (2 * j)))) <$> l !! (2 * j)%nat.
Proof.
  revert j; induction l as [|a|a b l IH] using list_ind2; intros j; [done|by destruct j|].
  destruct j as [|j]; [done|]. replace (2 * S j)%nat with (S (S (2 * j))) by lia. apply IH.
Qed.
Lemma pair_up_pairs l : pair_up l = (λ p, sha256d_pair p.1 p.2) <$> level_pairs l.
Proof. induction l as [|a|a b l IH] using list_ind2; [done|done|]. csimpl. by rewrite IH. Qed.
Lemma pair_up_length l : (length l ≤ 2 * length (pair_up l))%nat.
Proof. induction l as [|a|a b l IH] using list_ind2; simpl in *; lia. Qed.
Lemma levels_length n l root : levels n l = [root] → (length l ≤ 2 ^ n)%nat.
Proof.
  revert l; induction n as [|n IH]; intros l; cbn [levels Nat.pow]; [by intros ->|].
  intros Hl%IH. pose proof (pair_up_length l). lia.
Qed.

Lemma half p : p = if Nat.even p then (2 * (p / 2))%nat else S (2 * (p / 2)).
Proof.
  pose proof (Nat.div_mod_eq p 2) as Hd. pose proof (Nat.mod_upper_bound p 2).
  destruct (Nat.even p) eqn:He.
  - apply Nat.even_spec in He as [k ->]. rewrite Nat.mul_comm, Nat.div_mul by lia. lia.
  - rewrite <-Nat.negb_odd in He. apply negb_false_iff, Nat.odd_spec in He as [k ->].
    replace ((2 * k + 1) / 2)%nat with k; [lia|].
    apply (Nat.div_unique _ 2 k 1); lia.
Qed.
Lemma shift_half p : N.shiftr (N.of_nat p) 1 = N.of_nat (p / 2).
Proof. rewrite N.shiftr_div_pow2. change (2 ^ 1) with (N.of_nat 2). by rewrite Nat2N.inj_div. Qed.
Lemma land_even p : (N.land (N.of_nat p) 1 =? 0) = Nat.even p.
Proof.
  rewrite even_land. destruct (Nat.even p) eqn:He.
  - apply Nat.even_spec in He as [k ->]. apply N.even_spec. exists (N.of_nat k). lia.
  - rewrite <-Nat.negb_odd in He. apply negb_false_iff, Nat.odd_spec in He as [k ->].
    rewrite <-N.negb_odd. apply negb_false_iff, N.odd_spec. exists (N.of_nat k). lia.
Qed.

Lemma fold_branch_cons s branch node p :
  fold_branch (s :: branch) (node, N.of_nat p) =
  fold_branch branch
    (if Nat.even p then sha256d_pair node s else sha256d_pair s node, N.of_nat (p / 2)).
Proof. unfold fold_branch at 1. cbn [foldl]. by rewrite land_even, shift_half. Qed.
Lemma branch_pairs_cons s branch node p :
  branch_pairs (s :: branch) node (N.of_nat p) =
  let q := if Nat.even p then (node, s) else (s, node) in
  q :: branch_pairs branch (sha256d_pair q.1 q.2) (N.of_nat (p / 2)).
Proof. cbn [branch_pairs]. by rewrite land_even, shift_half. Qed.

(** The proof of a leaf folds to the root. *)
Lemma merkle_branch_complete n l p x root :
  levels n l = [root] → l !! p = Some x →
  (fold_branch (merkle_branch n l p) (x, N.of_nat p)).1 = root.
Proof.
  revert l p x. induction n as [|n IH]; intros l p x Hroot Hx; cbn [levels merkle_branch] in *.
  { rewrite Hroot in Hx. by apply list_lookup_singleton_Some in Hx as [-> <-]. }
  rewrite fold_branch_cons. apply IH; [done|].
  rewrite pair_up_pairs, list_lookup_fmap, level_lookup. unfold sibling.
  pose proof (half p) as Hp. destruct (Nat.even p).
  - rewrite <-Hp, Hx. done.
  - assert (Hprev : is_Some (l !! (2 * (p / 2))%nat)).
    { apply lookup_lt_is_Some. apply lookup_lt_Some in Hx. lia. }
    destruct Hprev as [a Ha]. replace (Nat.pred p) with (2 * (p / 2))%nat by lia.
    rewrite Ha, <-Hp, Hx. done.
Qed.

(** A proof that folds to the root names a leaf, the one at its position if there
    is one, unless it hashes a pair that collides with one of the tree's. *)
Lemma merkle_branch_sound branch l p x root :
  levels (length branch) l = [root] → (fold_branch branch (x, N.of_nat p)).1 = root →
  (∀ a b, a ∈ tree_pairs (length branch) l → b ∈ branch_pairs branch x (N.of_nat p) →
     sha256d_pair a.1 a.2 = sha256d_pair b.1 b.2 → a = b) →
  (p < 2 ^ length branch)%nat →
  ∃ j, l !! j = Some x ∧ ((p < length l)%nat → j = p).
Proof.
  revert l p x. induction branch as [|s branch IH]; intros l p x Hroot Hfold Hcol Hp.
  { simpl in *. subst. exists 0%nat. split; [done|]. lia. }
  rewrite fold_branch_cons in Hfold. rewrite branch_pairs_cons in Hcol.
  cbn [length levels tree_pairs Nat.pow] in *. pose proof (half p) as Hhalf.
  set (q := if Nat.even p then (x, s) else (s, x)) in *.
  assert (Hnode : (if Nat.even p then sha256d_pair x s else sha256d_pair s x) =
    sha256d_pair q.1 q.2) by (unfold q; by destruct (Nat.even p)).
  rewrite Hnode in Hfold.
  destruct (IH _ _ _ Hroot Hfold) as (j & Hj & Hpos).
  - intros a b Ha Hb. apply Hcol; set_solver.
  - destruct (Nat.even p); lia.
  - rewrite pair_up_pairs, list_lookup_fmap in Hj.
    destruct (level_pairs l !! j) as [a|] eqn:Ha; [|done]. simpl in Hj. injection Hj as Hj.
    assert (a = q) as ->.
    { apply Hcol; [|set_solver|done]. apply elem_of_app. left. by eapply list_elem_of_lookup_2. }
    rewrite level_lookup in Ha. destruct (l !! (2 * j)%nat) as [y|] eqn:Hy; [|done].
    apply (inj Some) in Ha.
    assert (Hhalf_lt : (p < length l)%nat → j = (p / 2)%nat).
    { intros Hlt. apply Hpos. pose proof (pair_up_length l).
      assert (2 * (p / 2) < 2 * length (pair_up l))%nat; [|lia]. destruct (Nat.even p); lia. }
    unfold q in Ha. destruct (Nat.even p).
    + apply pair_eq in Ha as [-> _]. exists (2 * j)%nat. split; [done|]. intros Hlt%Hhalf_lt. lia.
    + apply pair_eq in Ha as [-> Ha]. destruct (l !! S (2 * j)) as [z|] eqn:Hz; cbn [default from_option id] in Ha; subst.
      * exists (S (2 * j)). split; [exact Hz|]. intros Hlt%Hhalf_lt. lia.
      * exists (2 * j)%nat. split; [done|]. intros Hlt. exfalso.
        pose proof (Hhalf_lt Hlt) as ->. apply lookup_ge_None in Hz. lia.
Qed.
End tree.

(** ** The router *)

Record MerkleProof := mkProof { mp_txid : Txid; mp_height : N; mp_branch : list N; mp_pos : N }.

Inductive MerkleOutcome :=
  | Proof_ (p : MerkleProof)
  | Failed_ (txid : Txid) (height : N).

Abbreviation Claim := (N * N)%type.
Definition claim (o : MerkleOutcome) : Claim :=
  match o with
  | Proof_ p => (mp_txid p, mp_height p)
  | Failed_ txid height => (txid, height)
  end.

Record MerkleRouter := mkRouter {
  fan : Fanout MerkleOutcome;
  pending : gmap Claim (gset N)
}.

Definition record (txid : Txid) (height requester : N) (r : MerkleRouter) : MerkleRouter :=
  mkRouter (fan r)
    (<[(txid, height) := {[requester]} ∪ default ∅ (pending r !! (txid, height))]> (pending r)).

Definition notify_ids (ids : list N) (o : MerkleOutcome) (f : Fanout MerkleOutcome) :
    Fanout MerkleOutcome :=
  foldl (λ f id, notify_one id o f) f ids.

Definition deliver (o : MerkleOutcome) (r : MerkleRouter) : MerkleRouter :=
  let requesters := pending r !! claim o in
  let pending := delete (claim o) (pending r) in
  match requesters with
  | Some ids => mkRouter (notify_ids (elements ids) o (fan r)) pending
  | None => mkRouter (notify o (fan r)) pending
  end.

Definition fail_pending (r : MerkleRouter) : MerkleRouter :=
  mkRouter
    (foldl (λ f e, notify_ids (elements e.2) (Failed_ e.1.1 e.1.2) f) (fan r)
       (map_to_list (pending r))) ∅.

(** The merkle side of the store: the router, the request sender if a client is
    installed (and whether its other end is there), what was sent and how often
    the end of fetching was reported. *)
Record MerkleSide := mkSide {
  router : MerkleRouter;
  merkle_req : option bool;
  sent_requests : list Claim;
  ms_token : N;
  fetch_stopped : nat
}.

Definition set_router (f : MerkleRouter → MerkleRouter) (s : MerkleSide) : MerkleSide :=
  mkSide (f (router s)) (merkle_req s) (sent_requests s) (ms_token s) (fetch_stopped s).

Definition fetch_merkle (requester : N) (txid : Txid) (height : N) (s : MerkleSide) : MerkleSide :=
  let s := set_router (record txid height requester) s in
  match merkle_req s with
  | Some true =>
      mkSide (router s) (merkle_req s) (sent_requests s ++ [(txid, height)]) (ms_token s)
        (fetch_stopped s)
  | _ => set_router (deliver (Failed_ txid height)) s
  end.

Definition merkle_client_ended (token : N) (s : MerkleSide) : MerkleSide :=
  if negb (ms_token s =? token) then s
  else
    let s := set_router fail_pending s in
    match merkle_req s with
    | None => s
    | Some _ => mkSide (router s) None (sent_requests s) (ms_token s) (S (fetch_stopped s))
    end.

(** The merkle part of [stop]. *)
Definition stop (s : MerkleSide) : MerkleSide :=
  let s := set_router fail_pending s in
  mkSide (router s) None (sent_requests s) (ms_token s) (fetch_stopped s).

(** The answers of the merkle client the forwarder looks at. *)
Inductive CoinResponse :=
  | TxMerkle (p : MerkleProof)
  | RStopped
  | MerkleFetchError (txid : Txid) (height : N)
  | MerkleDecodeError (txid : Txid) (height : N)
  | OtherError
  | Unexpected.

Fixpoint forward_merkle_proofs (resp_rx : list CoinResponse) (token : N) (s : MerkleSide) :
    MerkleSide :=
  match resp_rx with
  | [] => merkle_client_ended token s
  | TxMerkle p :: rest => forward_merkle_proofs rest token (set_router (deliver (Proof_ p)) s)
  | RStopped :: _ => merkle_client_ended token s
  | (MerkleFetchError txid height | MerkleDecodeError txid height) :: rest =>
      forward_merkle_proofs rest token (set_router (deliver (Failed_ txid height)) s)
  | (OtherError | Unexpected) :: rest => forward_merkle_proofs rest token s
  end.

(** ** No requester is left waiting *)

Definition waiting (r : MerkleRouter) (id : N) (c : Claim) : Prop :=
  ∃ ids, pending r !! c = Some ids ∧ id ∈ ids.
Definition answered (r : MerkleRouter) (ch : N) (c : Claim) : Prop :=
  ∃ o, o ∈ received (fan r) ch ∧ claim o = c.

(** Every asker of [asked] that is listening waits or was answered. *)
Definition no_one_lost (asked : list (N * Claim)) (r : MerkleRouter) : Prop :=
  ∀ id c ch, (id, c) ∈ asked → listening (fan r) id ch → waiting r id c ∨ answered r ch c.

Lemma notify_ids_grows ids o f :
  Fanout.wf f → grows f (notify_ids ids o f) ∧
    ∀ id ch, id ∈ ids → listening (notify_ids ids o f) id ch → o ∈ received (notify_ids ids o f) ch.
Proof.
  unfold notify_ids. revert f; induction ids as [|i ids IH]; intros f Hf; simpl.
  { split; [by apply grows_refl|]. set_solver. }
  destruct (notify_one_grows f i o Hf) as [Hg Hgot].
  destruct (IH (notify_one i o f) (gr_wf _ _ Hg)) as [Hg' Hgot'].
  split; [by eapply grows_trans|]. intros id ch [->|Hin]%elem_of_cons Hl; [|by eapply Hgot'].
  eapply elem_of_prefix; [|eapply gr_received; [exact Hg'|exact Hl]].
  apply Hgot. by eapply gr_listening.
Qed.

Lemma deliver_spec o r asked :
  Fanout.wf (fan r) → no_one_lost asked r →
  Fanout.wf (fan (deliver o r)) ∧ no_one_lost asked (deliver o r).
Proof.
  intros Hf Hinv. unfold deliver.
  assert (Hcase : ∀ f, grows (fan r) f →
    (∀ id ch, waiting r id (claim o) → listening f id ch → o ∈ received f ch) →
    Fanout.wf f ∧ no_one_lost asked (mkRouter f (delete (claim o) (pending r)))).
  { intros f Hg Hgot. split; [apply Hg|]. intros id c ch Hin Hl. simpl in Hl.
    destruct (Hinv id c ch Hin (gr_listening _ _ Hg _ _ Hl)) as [Hw|(o' & Ho & Hc)].
    - destruct (decide (claim o = c)) as [<-|Hne].
      + right. exists o. split; [by eapply Hgot|done].
      + left. destruct Hw as (ids & Hids & Hi). exists ids. split; [|done].
        simpl. by rewrite lookup_delete_ne.
    - right. exists o'. split; [|done]. eapply elem_of_prefix; [exact Ho|]. by eapply gr_received. }
  destruct (pending r !! claim o) as [ids|] eqn:Hp; apply Hcase.
  - by apply notify_ids_grows.
  - intros id ch (ids' & Hids & Hi) Hl. simplify_eq. eapply notify_ids_grows; [done| |exact Hl]. set_solver.
  - by apply notify_grows.
  - intros id ch (ids' & Hids & Hi) Hl. congruence.
Qed.

Lemma fail_pending_spec r asked :
  Fanout.wf (fan r) → no_one_lost asked r →
  Fanout.wf (fan (fail_pending r)) ∧
  ∀ id c ch, (id, c) ∈ asked → listening (fan (fail_pending r)) id ch → answered (fail_pending r) ch c.
Proof.
  intros Hf Hinv. unfold fail_pending.
  assert (Hfold : ∀ l f, Fanout.wf f →
    let f' := foldl (λ f e, notify_ids (elements e.2) (Failed_ e.1.1 e.1.2) f) f l in
    grows f f' ∧ ∀ id ch (c : Claim) (ids : gset N), (c, ids) ∈ l → id ∈ ids → listening f' id ch →
      Failed_ c.1 c.2 ∈ received f' ch).
  { induction l as [|[c ids] l IH]; intros f Hf'; simpl; [split; [by apply grows_refl|set_solver]|].
    destruct (notify_ids_grows (elements ids) (Failed_ c.1 c.2) f Hf') as [Hg Hgot].
    destruct (IH _ (gr_wf _ _ Hg)) as [Hg' Hgot'].
    split; [by eapply grows_trans|]. intros id ch c' ids' [[= -> ->]|Hin]%elem_of_cons Hi Hl.
    - eapply elem_of_prefix; [|eapply gr_received; [exact Hg'|exact Hl]].
      apply (Hgot id); [by apply elem_of_elements|]. by eapply gr_listening.
    - by eapply Hgot'. }
  destruct (Hfold (map_to_list (pending r)) (fan r) Hf) as [Hg Hgot].
  split; [apply Hg|]. intros id c ch Hin Hl.
  destruct (Hinv id c ch Hin (gr_listening _ _ Hg _ _ Hl)) as [(ids & Hids & Hi)|(o & Ho & Hc)].
  - exists (Failed_ c.1 c.2). split; [|by destruct c].
    by eapply (Hgot id ch c ids); [apply elem_of_map_to_list|..].
  - exists o. split; [|done]. eapply elem_of_prefix; [exact Ho|]. by eapply gr_received.
Qed.

Lemma fetch_merkle_spec id txid height s asked :
  Fanout.wf (fan (router s)) → no_one_lost asked (router s) →
  Fanout.wf (fan (router (fetch_merkle id txid height s))) ∧
  no_one_lost ((id, (txid, height)) :: asked) (router (fetch_merkle id txid height s)).
Proof.
  intros Hf Hinv. set (r := record txid height id (router s)).
  assert (Hrec : no_one_lost ((id, (txid, height)) :: asked) r).
  { intros i c ch Hin Hl. destruct (decide (c = (txid, height))) as [->|Hne].
    - apply elem_of_cons in Hin as [[= ->]|Hin].
      + left. eexists. split; [apply lookup_insert_eq|]. set_solver.
      + destruct (Hinv i _ ch Hin Hl) as [(ids & Hids & Hi)|Ha]; [left|by right].
        eexists. split; [apply lookup_insert_eq|]. rewrite Hids. set_solver.
    - apply elem_of_cons in Hin as [[= -> ->]|Hin]; [done|].
      destruct (Hinv i c ch Hin Hl) as [(ids & Hids & Hi)|Ha]; [left|by right].
      exists ids. split; [|done]. simpl. by rewrite lookup_insert_ne. }
  unfold fetch_merkle. simpl. destruct (merkle_req s) as [[]|]; simpl; fold r; [done|..];
    by apply deliver_spec.
Qed.

(** The life of the merkle side: listeners registering, fetches, answers of the
    client, a client installed or ending, a stop. [asked] is what was asked. *)
Inductive step : MerkleSide * list (N * Claim) → MerkleSide * list (N * Claim) → Prop :=
  | step_register s asked id f ch :
      (∀ c, (id, c) ∉ asked) → register_as id (fan (router s)) = (f, ch) →
      step (s, asked) (set_router (λ r, mkRouter f (pending r)) s, asked)
  | step_fetch s asked id txid height :
      step (s, asked) (fetch_merkle id txid height s, (id, (txid, height)) :: asked)
  | step_answers s asked resp_rx token :
      step (s, asked) (forward_merkle_proofs resp_rx token s, asked)
  | step_client s asked req token :
      step (s, asked) (mkSide (router s) req (sent_requests s) token (fetch_stopped s), asked)
  | step_stop s asked : step (s, asked) (stop s, asked).

Lemma ended_spec token s asked :
  Fanout.wf (fan (router s)) → no_one_lost asked (router s) →
  Fanout.wf (fan (router (merkle_client_ended token s))) ∧
  no_one_lost asked (router (merkle_client_ended token s)).
Proof.
  intros Hf Hinv. unfold merkle_client_ended. destruct (negb _); [done|].
  destruct (fail_pending_spec _ _ Hf Hinv) as [Hf' Ha].
  simpl. destruct (merkle_req s); simpl; (split; [done|]; intros id c ch Hin Hl; right; by eapply Ha).
Qed.

Lemma step_inv c c' :
  step c c' → Fanout.wf (fan (router c.1)) → no_one_lost c.2 (router c.1) →
  Fanout.wf (fan (router c'.1)) ∧ no_one_lost c'.2 (router c'.1).
Proof.
  intros Hs Hf Hinv. destruct Hs as [s asked id f ch Hnew Hreg|s asked id txid height|s asked resp token| |s asked];
    simpl in *.
  - destruct (register_as_spec _ _ _ _ Hf Hreg) as (Hf' & _ & _ & Hold). split; [done|].
    intros i c ch' Hin Hl. simpl in *.
    assert (Hne : i ≠ id) by (intros ->; by eapply Hnew).
    assert (Hl' : listening (fan (router s)) i ch').
    { destruct Hl as [Hin' [q Hq]]. revert Hreg. unfold register_as, channel, set_listeners. simpl.
      intros [= <- <-]. simpl in *. apply elem_of_app in Hin' as [Hin'|Hin'].
      - apply list_elem_of_In, filter_In in Hin' as [Hin' _]. apply list_elem_of_In in Hin'.
        split; [done|]. destruct (wf_held _ Hf _ _ Hin') as [ch0 Hch0].
        pose proof (wf_fresh _ Hf _ ltac:(eauto)). rewrite lookup_insert_ne in Hq by lia. eauto.
      - apply list_elem_of_singleton in Hin' as [= -> ->]. done. }
    destruct (Hinv i c ch' Hin Hl') as [Hw|(o & Ho & Hc)]; [by left|right].
    exists o. split; [|done]. simpl. destruct (Hold i ch' Hne Hl') as [_ Hr]. by rewrite Hr.
  - by apply fetch_merkle_spec.
  - revert s Hf Hinv. induction resp as [|[] resp IH]; intros s Hf Hinv; simpl; try by apply ended_spec.
    all: apply IH; simpl; try done; by eapply deliver_spec.
  - done.
  - destruct (fail_pending_spec _ _ Hf Hinv) as [Hf' Ha]. split; [done|].
    intros id c ch Hin Hl. right. by eapply Ha.
Qed.

Definition side0 : MerkleSide :=
  mkSide (mkRouter (mkFanout ∅ 0 0 []) ∅) None [] 0 0.

Lemma steps_inv c c' :
  rtc step c c' → Fanout.wf (fan (router c.1)) → no_one_lost c.2 (router c.1) →
  Fanout.wf (fan (router c'.1)) ∧ no_one_lost c'.2 (router c'.1).
Proof.
  induction 1 as [|c1 c2 c3 Hs _ IH]; [done|]. intros Hf Hinv.
  destruct (step_inv _ _ Hs Hf Hinv). by apply IH.
Qed.

Lemma reachable_inv s asked :
  rtc step (side0, []) (s, asked) →
  Fanout.wf (fan (router s)) ∧ no_one_lost asked (router s).
Proof.
  intros Hr. apply (steps_inv _ _ Hr); simpl; [|by intros ? ? ? ?%not_elem_of_nil].
  split; simpl; [constructor|constructor|by intros ? [? ?]|by intros ? ? ?%not_elem_of_nil].
Qed.

(** ** Properties *)

Lemma levels_add `{HeaderLib} m n l : levels (m + n) l = levels n (levels m l).
Proof. revert l; induction m as [|m IH]; intros l; [done|]. cbn [levels Nat.add]. apply IH. Qed.
Lemma tree_pairs_under `{HeaderLib} m n l : tree_pairs n (levels m l) ⊆ tree_pairs (m + n) l.
Proof.
  revert l; induction m as [|m IH]; intros l; [done|]. cbn [levels tree_pairs Nat.add]. etrans; [apply IH|]. set_solver.
Qed.
Lemma fold_branch_app `{HeaderLib} b1 b2 np : fold_branch (b1 ++ b2) np = fold_branch b2 (fold_branch b1 np).
Proof. apply foldl_app. Qed.
Lemma fold_branch_position `{HeaderLib} branch node p :
  (fold_branch branch (node, N.of_nat p)).2 = N.of_nat (p / 2 ^ length branch).
Proof.
  revert node p; induction branch as [|s branch IH]; intros node p.
  { unfold fold_branch. cbn [foldl length snd]. by rewrite Nat.pow_0_r, Nat.div_1_r. }
  rewrite fold_branch_cons, IH. cbn [length]. by rewrite Nat.Div0.div_div, Nat.pow_succ_r'.
Qed.
Lemma branch_pairs_app `{HeaderLib} b1 b2 node p :
  branch_pairs b2 (fold_branch b1 (node, N.of_nat p)).1 (fold_branch b1 (node, N.of_nat p)).2 ⊆
  branch_pairs (b1 ++ b2) node (N.of_nat p).
Proof.
  revert node p; induction b1 as [|s b1 IH]; intros node p; [done|]. cbn [app].
  rewrite fold_branch_cons, branch_pairs_cons. cbv zeta.
  assert (∀ q : N * N, q = (if Nat.even p then (node, s) else (s, node)) →
    (if Nat.even p then sha256d_pair node s else sha256d_pair s node) = sha256d_pair q.1 q.2) as Hq
    by (intros q ->; by destruct (Nat.even p)).
  rewrite (Hq _ eq_refl). etrans; [apply IH|]. set_solver.
Qed.

(** C31. What a branch that verifies proves, unless it hashes a pair that collides with a
    pair hashed in the block's tree. A branch as long as the tree is deep names a
    transaction of the block, the one at the given position if the block has that many.
    The code does not know the depth of the tree: a shorter branch names the node of the
    tree as many levels under the root as it is long, at the given position, and of a
    longer one its first steps hash to a transaction of the block. *)
Theorem verify_merkle_branch_sound `{HeaderLib} (depth : nat) (txids branch : list N) (txid pos root : N) :
  levels depth txids = [root] → pos < 2 ^ 32 →
  (∀ a b, a ∈ tree_pairs depth txids → b ∈ branch_pairs branch txid pos →
     sha256d_pair a.1 a.2 = sha256d_pair b.1 b.2 → a = b) →
  verify_merkle_branch txid branch pos root = true →
  (length branch = depth → txid ∈ txids ∧ (pos < N.of_nat (length txids) → txids !! N.to_nat pos = Some txid)) ∧
  ((length branch ≤ depth)%nat → let nodes := levels (depth - length branch) txids in
     txid ∈ nodes ∧ (pos < N.of_nat (length nodes) → nodes !! N.to_nat pos = Some txid)) ∧
  ((depth < length branch)%nat → (fold_branch (take (length branch - depth) branch) (txid, pos)).1 ∈ txids).
Proof.
  intros Hroot Hpos Hcol [Hlt Hfold]%verify_merkle_branch_fold; [|done].
  rewrite <-(N2Nat.id pos) in Hfold, Hcol.
  assert (N.to_nat pos < 2 ^ length branch)%nat as Hp.
  { change 2 with (N.of_nat 2) in Hlt. rewrite <-Nat2N.inj_pow in Hlt. lia. }
  assert ((length branch ≤ depth)%nat → let nodes := levels (depth - length branch) txids in
     txid ∈ nodes ∧ (pos < N.of_nat (length nodes) → nodes !! N.to_nat pos = Some txid)) as Hunder.
  { intros Hle nodes. replace depth with (depth - length branch + length branch)%nat in Hroot, Hcol by lia.
    rewrite levels_add in Hroot. fold nodes in Hroot.
    destruct (merkle_branch_sound branch nodes (N.to_nat pos) txid root Hroot Hfold) as (j & Hj & Hpj); [|done|].
    - intros a b Ha. apply Hcol. by apply (tree_pairs_under (depth - length branch)).
    - split; [by eapply list_elem_of_lookup_2|]. intros Hl. by rewrite <-Hpj by lia. }
  split; [|split; [done|]].
  - intros Hd. destruct Hunder as [Hin Hat]; [lia|]. rewrite Hd, Nat.sub_diag in Hin, Hat. done.
  - intros Hlong. set (over := (length branch - depth)%nat).
    rewrite <-(take_drop over branch), fold_branch_app in Hfold. pose proof (fold_branch_position (take over branch) txid (N.to_nat pos)) as Hi.
    pose proof (branch_pairs_app (take over branch) (drop over branch) txid (N.to_nat pos)) as Hsub. rewrite (take_drop over branch) in Hsub.
    rewrite (N2Nat.id pos) in *.
    destruct (fold_branch (take over branch) (txid, pos)) as [node i]. cbn [fst snd] in *. subst i.
    assert (length (drop over branch) = depth) as Hdepth by (rewrite length_drop; lia).
    destruct (merkle_branch_sound (drop over branch) txids (N.to_nat pos / 2 ^ length (take over branch)) node root) as (j & Hj & _).
    + by rewrite Hdepth.
    + done.
    + rewrite Hdepth. intros a b Ha Hb. apply Hcol; [done|]. by apply Hsub.
    + rewrite Hdepth. apply Nat.Div0.div_lt_upper_bound. rewrite length_take_le by lia. rewrite <-Nat.pow_add_r.
      by replace (over + depth)%nat with (length branch) by lia.
    + by eapply list_elem_of_lookup_2.
Qed.

(** The branch of siblings of a transaction of a block verifies at its position
    against the root of the block's tree. *)
Theorem verify_merkle_branch_complete `{HeaderLib} (n : nat) (txids : list N) (p : nat) (txid root : N) :
  levels n txids = [root] → txids !! p = Some txid → N.of_nat p < 2 ^ 32 →
  verify_merkle_branch txid (merkle_branch n txids p) (N.of_nat p) root = true.
Proof.
  intros Hroot Hx Hp. apply verify_merkle_branch_fold; [done|].
  split; [|by apply merkle_branch_complete].
  assert (Hlen : ∀ n l q, length (merkle_branch n l q) = n).
  { clear. induction n as [|n IH]; intros l q; simpl; [done|]. by rewrite IH. }
  rewrite Hlen. apply levels_length in Hroot. apply lookup_lt_Some in Hx.
  change 2 with (N.of_nat 2). rewrite <-Nat2N.inj_pow. lia.
Qed.

(** No fetch leaves its requester waiting: through any sequence of
    registrations, fetches, answers, clients that come and end and stops, a
    requester that is still listening is recorded as waiting or has received an
    outcome for each fetch it asked for, and after a stop it has received one. *)
Theorem merkle_fetch_resolves (s : MerkleSide) (asked : list (N * Claim)) (id ch : N) (c : Claim) :
  rtc step (side0, []) (s, asked) → (id, c) ∈ asked →
  (listening (fan (router s)) id ch → waiting (router s) id c ∨ answered (router s) ch c) ∧
  (listening (fan (router (stop s))) id ch → answered (router (stop s)) ch c).
Proof.
  intros [Hf Hinv]%reachable_inv Hin. split; [by apply Hinv|].
  intros Hl. destruct (fail_pending_spec _ _ Hf Hinv) as [_ Ha]. by eapply Ha.
Qed.

(** ** Witnesses *)
Module Witness.
Import Sample.

Definition three : list N := [11; 22; 33].
Definition root3 : N := sha256d_pair (sha256d_pair 11 22) (sha256d_pair 33 33).

Lemma verify_merkle_branch_sound_witness :
  ((2 = 2)%nat → 22 ∈ three ∧ (1 < N.of_nat (length three) → three !! N.to_nat 1 = Some 22)) ∧
  sha256d_pair 33 33 ∈ levels 1 three.
Proof.
  split.
  - refine (proj1 (verify_merkle_branch_sound 2 three [11; sha256d_pair 33 33] 22 1 root3 _ _ _ _)).
    + vm_compute. reflexivity.
    + done.
    + intros a b Ha Hb. vm_compute in Ha, Hb.
      repeat (apply elem_of_cons in Ha as [->|Ha]); [..|by apply not_elem_of_nil in Ha];
      repeat (apply elem_of_cons in Hb as [->|Hb]); try (by apply not_elem_of_nil in Hb);
      vm_compute; intros [=]; done.
    + vm_compute. reflexivity.
  - refine (proj1 (proj1 (proj2 (verify_merkle_branch_sound 2 three [sha256d_pair 11 22] (sha256d_pair 33 33) 1 root3 _ _ _ _)) _)).
    + vm_compute. reflexivity.
    + done.
    + intros a b Ha Hb. vm_compute in Ha, Hb.
      repeat (apply elem_of_cons in Ha as [->|Ha]); [..|by apply not_elem_of_nil in Ha];
      repeat (apply elem_of_cons in Hb as [->|Hb]); try (by apply not_elem_of_nil in Hb);
      vm_compute; intros [=]; done.
    + vm_compute. reflexivity.
    + cbn. lia.
Defined.

Lemma verify_merkle_branch_complete_witness :
  verify_merkle_branch 33 (merkle_branch 2 three 2) (N.of_nat 2) root3 = true.
Proof.
  apply verify_merkle_branch_complete; [vm_compute; reflexivity|reflexivity|done].
Defined.

Definition s1 : MerkleSide := set_router (λ r, mkRouter (register_as 5 (fan (router side0))).1 (pending r)) side0.
Definition s2 : MerkleSide := mkSide (router s1) (Some true) [] 0 0.
Definition s3 : MerkleSide := fetch_merkle 5 22 700 s2.
Definition s4 : MerkleSide := forward_merkle_proofs [TxMerkle (mkProof 22 700 [11] 1)] 1 s3.

Lemma merkle_fetch_resolves_witness :
  (listening (fan (router s4)) 5 0 → waiting (router s4) 5 (22, 700) ∨ answered (router s4) 0 (22, 700)) ∧
  (listening (fan (router (stop s4))) 5 0 → answered (router (stop s4)) 0 (22, 700)).
Proof.
  apply (merkle_fetch_resolves s4 [(5, (22, 700))] 5 0 (22, 700)).
  - eapply rtc_l; [by apply (step_register side0 [] 5 (register_as 5 (fan (router side0))).1 0);
      [intros c ?%not_elem_of_nil|reflexivity]|].
    eapply rtc_l; [by apply (step_client s1 [] (Some true) 0)|].
    eapply rtc_l; [by apply (step_fetch s2 [] 5 22 700)|].
    eapply rtc_l; [by apply (step_answers s3 _ [TxMerkle (mkProof 22 700 [11] 1)] 1)|]. apply rtc_refl.
  - set_solver.
Defined.
Example merkle_answer_received : received (fan (router s4)) 0 = [Proof_ (mkProof 22 700 [11] 1)].
Proof. reflexivity. Qed.
End Witness.
End Merkle.
