(* ===== verification/Notification.v ===== *)
(** * Notifications (electrum/src/notification.rs)

    What the scanner, the stores and the reconciler report to the consumer. A
    channel is the list of what was sent on it; messages carried as text are not
    kept. *)
From stdpp Require Import base strings.
From S2P Require Import Prelude Bitcoin Persist HeaderBackend HeaderValidator HeaderStore.

Module Notification.

(** [tx_listener::Error]. *)
Inductive ListenerError := EClient | ECoin | AddressStoreDisconnected | StatusesUnavailable.

Inductive TxListenerNotif := Started | Connected | Error (e : ListenerError) | Stopped | Disconnected.

Inductive SubAccountKind := Segwit | Taproot | Other.

Inductive CoinOrigin := Sp | SubAccount (index : nat) (kind : SubAccountKind).

Inductive SpNotification :=
  | StartingScan
  | ScanStarted (start e : N)
  | FailStartScanning
  | FailScan
  | StoppingScan
  | ScanStopped (last_scanned last_spend : option N)
  | ScanReceiveProgress (current e : N)
  | ScanSpendProgress (current e : N)
  | ScanCompleted
  | NewOutput (o : OutPoint)
  | OutputSpent (o : OutPoint)
  | Broadcasted (txid : Txid)
  | FailBroadcast
  | WaitingForBlocks (tip_height : N)
  | NewBlocksDetected (from_height to_height : N)
  | Reorg (fork_height : N)
  | SubAccountCoinReceived (origin : CoinOrigin) (outpoint : OutPoint) (amount : N) (height : option N)
  | SubAccountCoinSpent (origin : CoinOrigin) (outpoint : OutPoint).

Inductive ValidationFailure :=
  | MerkleProof (txid : Txid) (height : N)
  | HeaderStoreFailure (cause : HeaderStore.InvalidCause).

Inductive Notification :=
  | Electrum (n : TxListenerNotif)
  | AddressTipChanged
  | CoinUpdate
  | CoinReceived (account : string) (outpoint : OutPoint) (amount : N) (height : option N)
  | CoinSpent (account : string) (outpoint : OutPoint)
  | PaymentHistoryUpdated
  | InvalidElectrumConfig
  | InvalidLookAhead
  | HeaderStoreRestart
  | HeaderStoreUpdated
  | HeaderProgress (e : HeaderStore.HeaderProgressEvent)
  | MerkleFetchStopped
  | ValidationFailed (f : ValidationFailure)
  | SpEvent (n : SpNotification).
End Notification.
