(* ===== verification/TxStore.v ===== *)
(** * The transaction and label stores (electrum/src/tx_store.rs, label_store.rs)

    Both wrap a typed [Store] and drop its errors, as the code does after logging
    them. [Update] is of coin_store.rs; it is here because the transaction store
    takes it. *)
From stdpp Require Import base gmap list strings.
From S2P Require Import Prelude Bitcoin Persist.

Module TxStore.
Import Persist.

Inductive Inclusion :=
  | Unconfirmed
  | ConfirmedUnverified (height : N) (block_hash : BlockHash)
  | Verified (height : N) (block_hash : BlockHash)
  | VerifyFailed (height : N) (block_hash : BlockHash).
#[export] Instance Inclusion_eqdec : EqDecision Inclusion.
Proof. solve_decision. Defined.

Definition inclusion_height (i : Inclusion) : option N :=
  match i with
  | Unconfirmed | VerifyFailed _ _ => None
  | ConfirmedUnverified height _ | Verified height _ => Some height
  end.
Definition inclusion_block_hash (i : Inclusion) : option BlockHash :=
  match i with
  | Unconfirmed | VerifyFailed _ _ => None
  | ConfirmedUnverified _ block_hash | Verified _ block_hash => Some block_hash
  end.

Record InputMetadata := mkInputMetadata { im_value : option N; im_owned : bool }.
#[export] Instance InputMetadata_eqdec : EqDecision InputMetadata.
Proof. solve_decision. Defined.
Record OutputMetadata := mkOutputMetadata { om_owned : bool }.
#[export] Instance OutputMetadata_eqdec : EqDecision OutputMetadata.
Proof. solve_decision. Defined.

Record TxEntry := mkTxEntry {
  tx : Transaction;
  inclusion : Inclusion;
  inputs : gmap nat InputMetadata;
  outputs : gmap nat OutputMetadata;
  fees : N;
  weight : N;
  timestamp : option N
}.

Definition set_inclusion (i : Inclusion) (e : TxEntry) : TxEntry :=
  mkTxEntry (tx e) i (inputs e) (outputs e) (fees e) (weight e)
    (match i with Unconfirmed => None | _ => timestamp e end).
Definition set_timestamp (t : N) (e : TxEntry) : TxEntry :=
  mkTxEntry (tx e) (inclusion e) (inputs e) (outputs e) (fees e) (weight e) (Some t).
Definition set_metadata (i : gmap nat InputMetadata) (o : gmap nat OutputMetadata) (e : TxEntry) :
    TxEntry :=
  mkTxEntry (tx e) (inclusion e) i o (fees e) (weight e) (timestamp e).
Definition set_fees (f : N) (e : TxEntry) : TxEntry :=
  mkTxEntry (tx e) (inclusion e) (inputs e) (outputs e) f (weight e) (timestamp e).
Definition entry_is_complete (e : TxEntry) : bool :=
  (length (input (tx e)) =? size (inputs e))%nat && (length (output (tx e)) =? size (outputs e))%nat.
Definition entry_block_hash (e : TxEntry) : option BlockHash := inclusion_block_hash (inclusion e).
Definition entry_height (e : TxEntry) : option N := inclusion_height (inclusion e).

(** [struct Update]: the transactions of a script, those not received yet missing. *)
Record Update := mkUpdate { upd_spk : script; upd_txs : list (Txid * option Transaction) }.
Definition is_complete (u : Update) : bool :=
  forallb (λ t, bool_decide (is_Some t.2)) (upd_txs u).
Definition missing (u : Update) : list Txid :=
  omap (λ t, match t.2 with None => Some t.1 | Some _ => None end) (upd_txs u).

(** [TxEntry::unconfirmed]. *)
Definition unconfirmed `{TxLib} (tx : Transaction) : TxEntry :=
  mkTxEntry tx Unconfirmed ∅ ∅ 0 (tx_weight tx) None.

(** [TxStore::new] and [with_backend], over the codecs of keys and entries. *)
Definition new (encode_txid : Txid → string) (encode_entry : TxEntry → result bytes PersistError) :
    RamStore unit Txid TxEntry :=
  ram_empty tt TRANSACTIONS_STORE_KEY encode_txid encode_entry.
Definition with_backend {B} `{PersistenceBackend B} (backend : B) (store_key : string)
    (encode_txid : Txid → string) (decode_txid : string → result Txid PersistError)
    (encode_entry : TxEntry → result bytes PersistError)
    (decode_entry : bytes → result TxEntry PersistError) :
    result (RamStore B Txid TxEntry) PersistError :=
  ram_open backend store_key encode_txid decode_txid encode_entry decode_entry.

Section tx_store.
Context `{TxLib} {S : Type} `{!Store S Txid TxEntry}.

Definition entry_txid (e : TxEntry) : Txid := compute_txid (tx e).

Definition transactions (s : S) : list TxEntry := default [] (ok (st_values s)).
Definition get (s : S) (txid : Txid) : option TxEntry := mjoin (ok (st_get s txid)).
Definition len (s : S) : nat := default 0%nat (ok (st_len s)).
Definition iter (s : S) : list (Txid * TxEntry) := default [] (ok (st_iter s)).
Definition inner_get (s : S) (txid : Txid) : option Transaction := tx <$> get s txid.

(** One transaction of an update. *)
Definition insert_tx (s : S) (t : Txid * option Transaction) : S :=
  match st_contains_key s t.1 with
  | Ok true | Err _ => s
  | Ok false =>
      match t.2 with
      | None => s
      | Some tx => (st_insert t.1 (unconfirmed tx) s).1
      end
  end.
Definition insert_updates (updates : list Update) (s : S) : S :=
  foldl (λ s u, if is_complete u then foldl insert_tx s (upd_txs u) else s) s updates.

Definition update (e : TxEntry) (s : S) : S := (st_insert (entry_txid e) e s).1.
Definition remove (txid : Txid) (s : S) : S := (st_remove txid s).1.
Definition update_inclusion (txid : Txid) (i : Inclusion) (s : S) : S :=
  (st_modify txid (set_inclusion i) s).1.
Definition update_timestamp (txid : Txid) (t : N) (s : S) : S :=
  (st_modify txid (set_timestamp t) s).1.
Definition persist (s : S) : S := (st_flush s).1.
End tx_store.

(** ** Labels *)

Inductive LabelKey `{TxLib} :=
  | LOutPoint (o : OutPoint)
  | LTransaction (t : Txid)
  | LAddress (a : Address).

Section label_store.
Context `{TxLib} {L : Type} `{!Store L LabelKey string}.

Definition label_get (l : L) (k : LabelKey) : option string := mjoin (ok (st_get l k)).
Definition label_edit (k : LabelKey) (value : option string) (l : L) : L :=
  match value with
  | Some v => (st_insert k v l).1
  | None => (st_remove k l).1
  end.
Definition label_remove (k : LabelKey) (l : L) : L := (st_remove k l).1.
Definition label_address (l : L) (a : Address) : option string := label_get l (LAddress a).
Definition label_outpoint (l : L) (o : OutPoint) : option string := label_get l (LOutPoint o).
Definition label_transaction (l : L) (t : Txid) : option string := label_get l (LTransaction t).
Definition label_persist (l : L) : L := (st_flush l).1.
End label_store.

(** ** Lemmas: the stores as maps *)

Section lemmas.
Context `{TxLib} {S : Type} `{!Store S Txid TxEntry}.
Context `{!StoreLaws S Txid TxEntry} `{!StoreTotal S Txid TxEntry}.
Implicit Types s : S.

Definition txs s : gmap Txid TxEntry := st_view s.

Lemma get_txs s txid : get s txid = txs s !! txid.
Proof.
  unfold get. destruct (st_get_total s txid) as [v Hv]. rewrite Hv. simpl. by apply st_get_spec.
Qed.
Lemma iter_txs s : iter s = bt_items (txs s).
Proof.
  unfold iter. destruct (st_iter_total s) as [l Hl]. rewrite Hl. simpl. by apply st_iter_spec.
Qed.
Lemma transactions_txs s : transactions s = bt_values (txs s).
Proof.
  unfold transactions, st_values. destruct (st_iter_total s) as [l Hl]. rewrite Hl. simpl.
  by rewrite (st_iter_spec _ _ Hl).
Qed.
Lemma update_txs e s : txs (update e s) = <[entry_txid e := e]> (txs s).
Proof.
  unfold update. destruct (st_insert_total s (entry_txid e) e) as (s' & o & Hi). rewrite Hi.
  apply (st_insert_spec _ _ _ _ _ Hi).
Qed.
Lemma remove_txs txid s : txs (remove txid s) = delete txid (txs s).
Proof.
  unfold remove. destruct (st_remove_total s txid) as (s' & o & Hi). rewrite Hi.
  apply (st_remove_spec _ _ _ _ Hi).
Qed.
Lemma update_inclusion_txs txid i s :
  txs (update_inclusion txid i s) = alter (set_inclusion i) txid (txs s).
Proof.
  unfold update_inclusion. destruct (st_modify_total s txid (set_inclusion i)) as (s' & o & Hi).
  rewrite Hi. apply (st_modify_spec _ _ _ _ _ Hi).
Qed.
Lemma update_timestamp_txs txid t s :
  txs (update_timestamp txid t s) = alter (set_timestamp t) txid (txs s).
Proof.
  unfold update_timestamp. destruct (st_modify_total s txid (set_timestamp t)) as (s' & o & Hi).
  rewrite Hi. apply (st_modify_spec _ _ _ _ _ Hi).
Qed.
Lemma persist_txs s : txs (persist s) = txs s.
Proof.
  unfold persist. destruct (st_flush s) as [s' r] eqn:Hf. apply (st_flush_spec _ _ _ Hf).
Qed.

(** An update never touches a transaction that is there. *)
Lemma insert_tx_txs s t :
  txs (insert_tx s t) =
    match t.2 with Some tx => insert_new t.1 (unconfirmed tx) (txs s) | None => txs s end.
Proof.
  unfold insert_tx, insert_new, st_contains_key.
  destruct (st_get_total s t.1) as [v Hv]. rewrite Hv. simpl. rewrite (st_get_spec _ _ _ Hv).
  fold (txs s). destruct (txs s !! t.1) as [e|]; simpl; [by destruct t.2|].
  destruct t.2 as [tx|]; [|done].
  destruct (st_insert_total s t.1 (unconfirmed tx)) as (s' & o & Hi). rewrite Hi.
  apply (st_insert_spec _ _ _ _ _ Hi).
Qed.
End lemmas.
End TxStore.
