(* ===== verification/Derivator.v ===== *)
(** * Address derivation (descriptor/src/derivator.rs)

    [SpkDerivator] checks a two-path descriptor once and derives receive and
    change addresses from it. How a descriptor lists its keys is a parameter; what
    a valid descriptor derives is the subject of [Derives], which the address
    store is verified against. *)
From stdpp Require Import base list.
From S2P Require Import Prelude Bitcoin Coin.

Module Derivator.

Inductive Error := NotMultiXpub | WrongNetwork | MultiPathCount | MultiPath | EWildcard.

Inductive NetworkKind := Main | Test.
#[export] Instance NetworkKind_eqdec : EqDecision NetworkKind.
Proof. solve_decision. Defined.
Inductive Wildcard := WNone | Unhardened | Hardened.
#[export] Instance Wildcard_eqdec : EqDecision Wildcard.
Proof. solve_decision. Defined.

(** [DescriptorPublicKey], with what the derivator reads of a multipath key. *)
Record MultiXKey := mkMultiXKey {
  xkey_network : NetworkKind;
  derivation_paths : list (list N);
  wildcard : Wildcard
}.
Inductive DescriptorPublicKey := Single | XPub | MultiXPub (key : MultiXKey).

Class DescriptorLib `{TxLib} := {
  descriptor_keys : Descriptor → list DescriptorPublicKey;   (* for_each_key *)
  network_kind : Network → NetworkKind                       (* NetworkKind::from *)
}.

Section derivator.
Context `{DescriptorLib}.

Record SpkDerivator := mkSpkDerivator {
  descriptor : Descriptor;
  recv : Descriptor;
  change : Descriptor;
  network : Network
}.

Definition is_multi (k : DescriptorPublicKey) : bool :=
  match k with MultiXPub _ => true | _ => false end.
Definition on_multi (f : MultiXKey → bool) (k : DescriptorPublicKey) : bool :=
  match k with MultiXPub key => f key | _ => false end.
Definition wrong_network (network : Network) (key : MultiXKey) : bool :=
  negb (bool_decide (xkey_network key = network_kind network)).
Definition wrong_multipath (key : MultiXKey) : bool :=
  existsb (λ v, negb (length v =? 1)%nat || existsb (λ child, 0x80000000 <=? child) v)
    (derivation_paths key).
Definition wrong_wildcard (key : MultiXKey) : bool :=
  existsb (λ _, negb (bool_decide (wildcard key = Unhardened))) (derivation_paths key).

Definition new (d : Descriptor) (network : Network) : outcome (result SpkDerivator Error) :=
  let keys := descriptor_keys d in
  if negb (forallb is_multi keys) then Ret (Err NotMultiXpub)
  else if existsb (on_multi (wrong_network network)) keys then Ret (Err WrongNetwork)
  else if existsb (on_multi wrong_multipath) keys then Ret (Err MultiPath)
  else if existsb (on_multi wrong_wildcard) keys then Ret (Err EWildcard)
  else
    let! single_descriptors := expect (into_single_descriptors d) in
    match single_descriptors with
    | [recv; change] => Ret (Ok (mkSpkDerivator d recv change network))
    | _ => Ret (Err MultiPathCount)
    end.

Definition receive_at (d : SpkDerivator) (index : N) : outcome Address :=
  let! definite := expect (at_derivation_index (recv d) index) in
  expect (definite_address definite (network d)).
Definition change_at (d : SpkDerivator) (index : N) : outcome Address :=
  let! definite := expect (at_derivation_index (change d) index) in
  expect (definite_address definite (network d)).
Definition receive_spk_at (d : SpkDerivator) (index : N) : outcome script :=
  let! a := receive_at d index in Ret (address_script a).
Definition change_spk_at (d : SpkDerivator) (index : N) : outcome script :=
  let! a := change_at d index in Ret (address_script a).
End derivator.
#[global] Arguments SpkDerivator {_}.

(** The address of a keychain at an index. *)
Definition address_at `{DescriptorLib} (d : SpkDerivator) (kc : Coin.KeyChain) (index : N) :
    outcome Address :=
  match kc with
  | Coin.Receive => receive_at d index
  | Coin.Change => change_at d index
  | Coin.Custom _ => Panic
  end.

(** What the clients of a derivator rely on: below [bound] both keychains derive. *)
Class Derives `{DescriptorLib} (d : SpkDerivator) (bound : N) := {
  receive_derives i : i < bound → ∃ a, receive_at d i = Ret a;
  change_derives i : i < bound → ∃ a, change_at d i = Ret a
}.

Section proofs.
Context `{DescriptorLib}.

(** The addresses a derivator watches are those a coin is later spent with:
    for a derivator built from a descriptor, deriving the receive (change) address
    at an index succeeds exactly when the coin's own descriptor derivation for
    that keychain and index does, and gives the address of that definite
    descriptor. *)
Theorem derivator_matches_coin d net der kc index a
    (Hnew : new d net = Ret (Ok der)) (Hkc : kc = Coin.Receive ∨ kc = Coin.Change) :
  address_at der kc index = Ret a ↔
  ∃ definite, Coin.derive_descriptor d kc index = Ok definite ∧
    definite_address definite net = Some a.
Proof.
  revert Hnew. unfold new. repeat (destruct (_ : bool); [done|]). simpl.
  intros (ds & Hds%expect_Ret & Hnew)%obind_Ret.
  destruct ds as [|r [|c [|? ?]]]; try done. injection Hnew as <-.
  unfold Coin.derive_descriptor. rewrite Hds.
  assert (Hgen : ∀ x : Descriptor,
    (let! definite := expect (at_derivation_index x index) in
       expect (definite_address definite net)) = Ret a ↔
    ∃ definite, ok_or (at_derivation_index x index) Coin.Derivation = Ok definite ∧
      definite_address definite net = Some a).
  { intros x. destruct (at_derivation_index x index) as [definite|]; simpl; [|naive_solver].
    rewrite expect_Ret. naive_solver. }
  destruct Hkc as [-> | ->]; apply Hgen.
Qed.
End proofs.

(** ** The parameters instantiated *)
Module Witness.
Import Sample.
#[export] Instance sample_descriptors : DescriptorLib := {|
  descriptor_keys := λ _, [MultiXPub (mkMultiXKey Test [[0]; [1]] Unhardened)];
  network_kind := λ n, match n with Bitcoin => Main | _ => Test end
|}.
Definition der : SpkDerivator := mkSpkDerivator 3 6 7 Regtest.
#[export] Instance der_derives bound : Derives der bound.
Proof. split; intros i _; by eexists. Qed.

Lemma derivator_matches_coin_witness :
  address_at der Coin.Change 5 = Ret [7; 5] ↔
  ∃ definite, Coin.derive_descriptor (3 : @Descriptor sample_lib) Coin.Change 5 = Ok definite ∧
    definite_address definite Regtest = Some [7; 5].
Proof.
  exact (derivator_matches_coin (3 : @Descriptor sample_lib) Regtest der Coin.Change 5
    ([7; 5] : @Address sample_lib) eq_refl (or_intror eq_refl)).
Defined.
End Witness.
End Derivator.
