(* ===== verification/AddressStore.v ===== *)
(** * The address store (electrum/src/address_store.rs, and [Tip] of profile.rs)

    Every address up to the watch tips (the last generated index of each keychain,
    plus the look-ahead, plus one) is derived and kept by script; a coin at an
    address moves the tip, a coin at a script that is not stored is searched for in
    a bounded window past the tip. [u32] arithmetic is checked or wrapping as the
    build says; the theorems give the room that is needed for neither to matter. *)
From stdpp Require Import base gmap list strings.
From Stdlib Require Import Lia.
From S2P Require Import Prelude Bitcoin Coin Persist HeaderStore Notification Derivator.

(** ** The tip rows of the account store *)
Module Tip.
Import Persist.

(** [serde_json::to_vec] and [from_slice] at [u32]. *)
Class TipCodec := {
  encode_u32 : N → option bytes;
  decode_u32 : bytes → option N
}.
Class TipCodecLaws `{TipCodec} := {
  u32_json_roundtrip v : v < 2 ^ 32 → ∃ b, encode_u32 v = Some b ∧ decode_u32 b = Some v
}.

Definition TIP_RECEIVE_ROW : string := "receive_index".
Definition TIP_CHANGE_ROW : string := "change_index".

Record Tip := mkTip { receive : N; change : N }.

Section tip.
Context `{TipCodec} {A : Type} `{!Store A string bytes}.

Definition persist (receive change : N) (store : A) : A :=
  match encode_u32 receive, encode_u32 change with
  | Some recv, Some chg =>
      match st_insert TIP_RECEIVE_ROW recv store with
      | (store, Err _) => store
      | (store, Ok _) => (st_insert TIP_CHANGE_ROW chg store).1
      end
  | _, _ => store
  end.

Definition read_row (store : A) (row : string) : N :=
  match st_get store row with
  | Ok (Some b) => default 0 (decode_u32 b)
  | _ => 0
  end.
Definition from_account_store (store : A) : Tip :=
  mkTip (read_row store TIP_RECEIVE_ROW) (read_row store TIP_CHANGE_ROW).
End tip.

Section proofs.
Context `{TipCodecLaws} {A : Type} `{!Store A string bytes}.
Context `{!StoreLaws A string bytes} `{!StoreTotal A string bytes}.

Lemma read_row_view (st : A) row :
  read_row st row = match st_view st !! row with Some b => default 0 (decode_u32 b) | None => 0 end.
Proof.
  unfold read_row. destruct (st_get_total st row) as [v Hv]. rewrite Hv.
  by rewrite (st_get_spec _ _ _ Hv).
Qed.

(** The tips that were persisted are read back, flushed or not. *)
Lemma persist_read (st st' : A) r recv chg :
  recv < 2 ^ 32 → chg < 2 ^ 32 → st_flush (persist recv chg st) = (st', r) →
  from_account_store st' = mkTip recv chg.
Proof.
  intros Hr Hc Hf%st_flush_spec.
  destruct (u32_json_roundtrip _ Hr) as (br & Hbr & Hdr).
  destruct (u32_json_roundtrip _ Hc) as (bc & Hbc & Hdc).
  unfold from_account_store. rewrite !read_row_view, Hf. unfold persist. rewrite Hbr, Hbc.
  destruct (st_insert_total st TIP_RECEIVE_ROW br) as (st1 & o1 & H1). rewrite H1.
  destruct (st_insert_total st1 TIP_CHANGE_ROW bc) as (st2 & o2 & H2). rewrite H2. simpl.
  apply st_insert_spec in H1, H2. rewrite H2, H1.
  rewrite lookup_insert_eq, lookup_insert_ne, lookup_insert_eq by done. simpl.
  by rewrite Hdr, Hdc.
Qed.
End proofs.
End Tip.

Module AddressStore.
Import Persist Derivator.

#[local] Existing Instance Coin.KeyChain_eqdec.

Inductive AddressStatus := NotUsed | Used | Reused | Unknown.
#[export] Instance AddressStatus_eqdec : EqDecision AddressStatus.
Proof. solve_decision. Defined.

Record AddressTip := mkAddressTip { tip_recv : N; tip_change : N }.

(** [KeyChain]'s derived order. *)
Definition keychain_key (kc : Coin.KeyChain) : N * N :=
  match kc with Coin.Receive => (0, 0) | Coin.Change => (1, 0) | Coin.Custom c => (2, c) end.

Definition RECOVER_GAP : N := 10000.

Section address_store.
Context `{Build} `{DescriptorLib} `{Tip.TipCodec} {A : Type} `{!Store A string bytes}.

Record AddressEntry := mkAddressEntry {
  status : AddressStatus;
  address : Address;
  account : Coin.KeyChain;
  index : N;
  funding_txids : gset Txid;
  spending_txids : gset Txid
}.

Definition entry_script (e : AddressEntry) : script := address_script (address e).
Definition set_status (st : AddressStatus) (e : AddressEntry) : AddressEntry :=
  mkAddressEntry st (address e) (account e) (index e) (funding_txids e) (spending_txids e).
Definition set_funding_txids (t : gset Txid) (e : AddressEntry) : AddressEntry :=
  mkAddressEntry (status e) (address e) (account e) (index e) t (spending_txids e).
Definition set_spending_txids (t : gset Txid) (e : AddressEntry) : AddressEntry :=
  mkAddressEntry (status e) (address e) (account e) (index e) (funding_txids e) t.
Definition account_u32 (e : AddressEntry) : N :=
  match account e with Coin.Receive => 0 | Coin.Change => 1 | Coin.Custom c => c end.

(** [notification] is the channel shared with the coin store, [tx_listener] the
    one to the scan loop: both are what was sent. *)
Record AddressStore := mkAddressStore {
  store : gmap script AddressEntry;
  recv_generated_tip : N;
  change_generated_tip : N;
  derivator : SpkDerivator;
  notification : list Notification.Notification;
  tx_listener : option (list AddressTip);
  look_ahead : N;
  account_store : A
}.

Definition set_store (m : gmap script AddressEntry) (s : AddressStore) : AddressStore :=
  mkAddressStore m (recv_generated_tip s) (change_generated_tip s) (derivator s) (notification s)
    (tx_listener s) (look_ahead s) (account_store s).
Definition set_recv_tip (t : N) (s : AddressStore) : AddressStore :=
  mkAddressStore (store s) t (change_generated_tip s) (derivator s) (notification s)
    (tx_listener s) (look_ahead s) (account_store s).
Definition set_change_tip (t : N) (s : AddressStore) : AddressStore :=
  mkAddressStore (store s) (recv_generated_tip s) t (derivator s) (notification s)
    (tx_listener s) (look_ahead s) (account_store s).
Definition set_tx_listener (l : option (list AddressTip)) (s : AddressStore) : AddressStore :=
  mkAddressStore (store s) (recv_generated_tip s) (change_generated_tip s) (derivator s)
    (notification s) l (look_ahead s) (account_store s).
Definition set_account_store (a : A) (s : AddressStore) : AddressStore :=
  mkAddressStore (store s) (recv_generated_tip s) (change_generated_tip s) (derivator s)
    (notification s) (tx_listener s) (look_ahead s) a.
Definition send (n : Notification.Notification) (s : AddressStore) : AddressStore :=
  mkAddressStore (store s) (recv_generated_tip s) (change_generated_tip s) (derivator s)
    (notification s ++ [n]) (tx_listener s) (look_ahead s) (account_store s).

Definition change_watch_tip (s : AddressStore) : outcome N :=
  let! t := add32 (change_generated_tip s) (look_ahead s) in add32 t 1.
Definition recv_watch_tip (s : AddressStore) : outcome N :=
  let! t := add32 (recv_generated_tip s) (look_ahead s) in add32 t 1.
Definition recv_tip (s : AddressStore) : N := recv_generated_tip s.

Definition update_watch_tip (s : AddressStore) : outcome AddressStore :=
  let! s :=
    match tx_listener s with
    | None => Ret s
    | Some sent =>
        let! recv := recv_watch_tip s in
        let! change := change_watch_tip s in
        Ret (set_tx_listener (Some (sent ++ [mkAddressTip recv change])) s)
    end in
  let a := Tip.persist (recv_generated_tip s) (change_generated_tip s) (account_store s) in
  Ret (set_account_store (st_flush a).1 s).

Definition notify (s : AddressStore) : outcome AddressStore :=
  update_watch_tip (send Notification.AddressTipChanged s).

(** One keychain of [populate_maybe]: the indexes [0..n]. *)
Definition populate (d : SpkDerivator) (kc : Coin.KeyChain) (n : N)
    (m : gmap script AddressEntry) : outcome (gmap script AddressEntry) :=
  ofold (λ m i,
    let! addr := address_at d kc i in
    Ret (insert_new (address_script addr) (mkAddressEntry NotUsed addr kc i ∅ ∅) m))
    m (nseq 0 (N.to_nat n)).

Definition populate_maybe (s : AddressStore) : outcome AddressStore :=
  let! recv := recv_watch_tip s in
  let! recv := add32 recv 1 in
  let! m := populate (derivator s) Coin.Receive recv (store s) in
  let! change := change_watch_tip s in
  let! change := add32 change 1 in
  let! m := populate (derivator s) Coin.Change change m in
  Ret (set_store m s).

Definition update_recv (i : N) (s : AddressStore) : outcome AddressStore :=
  let s := if recv_generated_tip s <? i then set_recv_tip i s else s in
  let! s := populate_maybe s in notify s.
Definition update_change (i : N) (s : AddressStore) : outcome AddressStore :=
  let s := if change_generated_tip s <? i then set_change_tip i s else s in
  let! s := populate_maybe s in notify s.

Definition with_account_store (d : SpkDerivator) (recv_tip change_tip look_ahead : N)
    (account_store : A) : outcome AddressStore :=
  let! s := populate_maybe (mkAddressStore ∅ recv_tip change_tip d [] None look_ahead account_store) in
  update_watch_tip s.

(** The first index of a range whose address has the script. *)
Fixpoint find_index (derive : N → outcome Address) (spk : script) (l : list N) :
    outcome (option N) :=
  match l with
  | [] => Ret None
  | i :: l =>
      let! a := derive i in
      if bool_decide (address_script a = spk) then Ret (Some i) else find_index derive spk l
  end.

(** The indexes [start..=end] searched past a watch tip. *)
Definition gap (watch_tip : N) : list N :=
  let start := sat_add u32_max watch_tip 1 in
  let stop := sat_add u32_max start RECOVER_GAP in
  nseq start (N.to_nat (stop + 1 - start)).

Definition locate_spk (s : AddressStore) (spk : script) :
    outcome (option (Coin.KeyChain * N)) :=
  let! recv := recv_watch_tip s in
  let! found := find_index (receive_at (derivator s)) spk (gap recv) in
  match found with
  | Some i => Ret (Some (Coin.Receive, i))
  | None =>
      let! change := change_watch_tip s in
      let! found := find_index (change_at (derivator s)) spk (gap change) in
      Ret (match found with Some i => Some (Coin.Change, i) | None => None end)
  end.

Definition update_tip (kc : Coin.KeyChain) (i : N) (s : AddressStore) : outcome AddressStore :=
  match kc with
  | Coin.Receive => update_recv i s
  | Coin.Change => update_change i s
  | Coin.Custom _ => Panic
  end.

Definition recv_coin_at (spk : script) (s : AddressStore) : outcome AddressStore :=
  match store s !! spk with
  | Some e => update_tip (account e) (index e) s
  | None =>
      let! found := locate_spk s spk in
      match found with
      | Some (kc, i) => update_tip kc i s
      | None => Ret s
      end
  end.

Definition new_recv_addr (s : AddressStore) : outcome (AddressStore * Address) :=
  let! t := add32 (recv_generated_tip s) 1 in
  let! s := update_recv t (set_recv_tip t s) in
  let! a := receive_at (derivator s) (recv_generated_tip s) in
  Ret (s, a).

Definition next_change_index (s : AddressStore) : outcome (AddressStore * N) :=
  let! t := add32 (change_generated_tip s) 1 in
  let! s := update_change t (set_change_tip t s) in
  Ret (s, t).

Definition new_change_addr (s : AddressStore) : outcome (AddressStore * Address) :=
  let! r := next_change_index s in
  let! a := change_at (derivator r.1) r.2 in
  Ret (r.1, a).

Definition init (s : AddressStore) : outcome AddressStore :=
  let! s := populate_maybe s in
  notify (set_tx_listener (Some []) s).

Definition get_entry (s : AddressStore) (spk : script) : option AddressEntry := store s !! spk.
(** [get_entry_mut]: the borrowed entry is updated by [f]. *)
Definition get_entry_mut (spk : script) (f : AddressEntry → AddressEntry) (s : AddressStore) :
    AddressStore := set_store (alter f spk (store s)) s.
Definition contains_spk (s : AddressStore) (spk : script) : bool :=
  bool_decide (is_Some (store s !! spk)).
Definition entries (s : AddressStore) : list AddressEntry := bt_values (store s).

Definition by_account (a b : AddressEntry) : bool :=
  key_leb (keychain_key (account a), index a) (keychain_key (account b), index b).
Definition get_unused (s : AddressStore) : list AddressEntry :=
  sort_by by_account
    (List.filter (λ e, bool_decide (status e = NotUsed) && bool_decide (account e = Coin.Receive))
       (bt_values (store s))).
Definition get (s : AddressStore) (kc : Coin.KeyChain) : list AddressEntry :=
  sort_by by_account (List.filter (λ e, bool_decide (account e = kc)) (bt_values (store s))).

Definition by_index (a b : AddressEntry) : bool := index a <=? index b.
Definition get_generated_addresses (s : AddressStore) : list AddressEntry * list AddressEntry :=
  let recv := List.filter (λ e, bool_decide (account e = Coin.Receive) &&
                                (index e <=? recv_generated_tip s)) (bt_values (store s)) in
  let change := List.filter (λ e, bool_decide (account e = Coin.Change) &&
                                  (index e <=? change_generated_tip s)) (bt_values (store s)) in
  (sort_by by_index recv, sort_by by_index change).
End address_store.

(** ** Proofs *)

Section proofs.
Context `{Build} `{DescriptorLib} `{Tip.TipCodecLaws} {A : Type} `{!Store A string bytes}.
Context `{!StoreLaws A string bytes} `{!StoreTotal A string bytes}.
(** A derivator that derives below [bound]. *)
Context (d : SpkDerivator) (bound : N) `{!Derives d bound} (Hbound : bound < 2 ^ 32).
Implicit Types s : AddressStore (A:=A).
Implicit Types m : gmap script AddressEntry.

Definition keychain (kc : Coin.KeyChain) : Prop := kc = Coin.Receive ∨ kc = Coin.Change.
Definition generated (kc : Coin.KeyChain) s : N :=
  match kc with Coin.Change => change_generated_tip s | _ => recv_generated_tip s end.
(** The watch tip of a keychain, as an unbounded sum. *)
Definition watch (kc : Coin.KeyChain) s : N := generated kc s + look_ahead s + 1.
(** The watch tips can be derived. *)
Definition fits s : Prop := ∀ kc, keychain kc → watch kc s < bound.

Definition entry_ok s (spk : script) (e : AddressEntry) : Prop :=
  keychain (account e) ∧ index e ≤ watch (account e) s ∧
  address_at d (account e) (index e) = Ret (address e) ∧ address_script (address e) = spk.

(** What the store holds: the derivator's addresses up to the watch tips, and
    nothing else. *)
Record addresses_ok s : Prop := {
  ao_derivator : derivator s = d;
  ao_covered kc i a : keychain kc → i ≤ watch kc s → address_at d kc i = Ret a →
    is_Some (store s !! address_script a);
  ao_sound spk e : store s !! spk = Some e → entry_ok s spk e
}.

(** What it has told the account store and the scan loop. *)
Definition announced s : Prop :=
  Tip.from_account_store (account_store s) =
    Tip.mkTip (recv_generated_tip s) (change_generated_tip s) ∧
  ∀ sent, tx_listener s = Some sent →
    last sent = Some (mkAddressTip (watch Coin.Receive s) (watch Coin.Change s)).

Lemma address_at_derives kc i : keychain kc → i < bound → ∃ a, address_at d kc i = Ret a.
Proof. intros [-> | ->] ?; [by apply receive_derives|by apply change_derives]. Qed.

Lemma recv_watch_tip_ok s : fits s → recv_watch_tip s = Ret (watch Coin.Receive s).
Proof.
  intros Hf. specialize (Hf Coin.Receive ltac:(by left)). revert Hf. unfold watch. simpl. intros Hf.
  unfold recv_watch_tip, add32. rewrite add_w_ok by lia. simpl. by rewrite add_w_ok by lia.
Qed.
Lemma change_watch_tip_ok s : fits s → change_watch_tip s = Ret (watch Coin.Change s).
Proof.
  intros Hf. specialize (Hf Coin.Change ltac:(by right)). revert Hf. unfold watch. simpl. intros Hf.
  unfold change_watch_tip, add32. rewrite add_w_ok by lia. simpl. by rewrite add_w_ok by lia.
Qed.

(** A keychain's addresses added to a map: what was there stays, the range is
    there, and what is new is of the range. *)
Lemma populate_spec kc n m :
  keychain kc → n ≤ bound →
  ∃ m', populate d kc n m = Ret m' ∧
    (∀ spk e, m !! spk = Some e → m' !! spk = Some e) ∧
    (∀ i a, i < n → address_at d kc i = Ret a → is_Some (m' !! address_script a)) ∧
    (∀ spk e, m' !! spk = Some e → m !! spk = Some e ∨
       ∃ i a, i < n ∧ address_at d kc i = Ret a ∧ address_script a = spk ∧
         e = mkAddressEntry NotUsed a kc i ∅ ∅).
Proof.
  intros Hkc Hn. unfold populate.
  assert (Hl : ∀ i, i ∈ nseq 0 (N.to_nat n) → i < n) by (intros i Hi%elem_of_nseq; lia).
  assert (Hr : ∀ i, i < n → i ∈ nseq 0 (N.to_nat n)) by (intros i Hi; apply elem_of_nseq; lia).
  setoid_rewrite <-(λ i, conj (Hl i) (Hr i) : _ ↔ _).
  revert m Hl. clear Hr. induction (nseq 0 (N.to_nat n)) as [|i l IH]; intros m Hl; simpl.
  { eexists. split_and!; [done|done|set_solver|by left]. }
  destruct (address_at_derives kc i Hkc) as [a Ha]; [specialize (Hl i ltac:(set_solver)); lia|].
  rewrite Ha. simpl.
  destruct (IH (insert_new (address_script a) (mkAddressEntry NotUsed a kc i ∅ ∅) m))
    as (m' & Hm' & Hold & Hin & Hnew); [set_solver|].
  exists m'. split_and!; [done|..].
  - intros spk e He. apply Hold. by rewrite lookup_insert_new, He.
  - intros j b [->|Hj]%elem_of_cons Hb; [|by eapply Hin].
    rewrite Ha in Hb. injection Hb as <-.
    destruct (insert_new (address_script a) (mkAddressEntry NotUsed a kc i ∅ ∅) m !!
                address_script a) as [e|] eqn:He; [by rewrite (Hold _ _ He); eauto|].
    rewrite lookup_insert_new in He. destruct (m !! address_script a); [done|].
    by rewrite decide_True in He.
  - intros spk e [He|(j & b & Hj & Hb & Hs & ->)]%Hnew; [|right; exists j, b; set_solver].
    rewrite lookup_insert_new in He. destruct (m !! spk) as [e'|]; [by left; simplify_eq|].
    destruct (decide (spk = address_script a)) as [->|]; [|done]. right. exists i, a.
    injection He as <-. set_solver.
Qed.

(** The parts of the state the watch tips depend on. *)
Definition same_tips s s' : Prop :=
  derivator s' = derivator s ∧ look_ahead s' = look_ahead s ∧
  ∀ kc, generated kc s' = generated kc s.
Definition sound s : Prop := ∀ spk e, store s !! spk = Some e → entry_ok s spk e.
Definition keeps s s' : Prop := ∀ spk e, store s !! spk = Some e → store s' !! spk = Some e.

Lemma same_tips_watch s s' kc : same_tips s s' → watch kc s' = watch kc s.
Proof. intros (_ & Hl & Hg). unfold watch. by rewrite Hl, Hg. Qed.
Lemma same_tips_fits s s' : same_tips s s' → fits s → fits s'.
Proof. intros Hs Hf kc Hkc. rewrite (same_tips_watch s) by done. by apply Hf. Qed.
Lemma entry_ok_mono s s' spk e :
  (∀ kc, keychain kc → watch kc s ≤ watch kc s') → entry_ok s spk e → entry_ok s' spk e.
Proof. intros Hw (Hkc & Hi & Ha & Hs). split_and!; try done. specialize (Hw _ Hkc). lia. Qed.

Lemma populate_maybe_spec s :
  derivator s = d → sound s → fits s →
  ∃ m, populate_maybe s = Ret (set_store m s) ∧ addresses_ok (set_store m s) ∧
    keeps s (set_store m s).
Proof.
  intros Hd Hsound Hf. unfold populate_maybe. rewrite recv_watch_tip_ok by done. simpl.
  pose proof (Hf Coin.Receive ltac:(by left)) as Hr. pose proof (Hf Coin.Change ltac:(by right)) as Hc.
  unfold add32. rewrite add_w_ok by lia. simpl. rewrite Hd.
  destruct (populate_spec Coin.Receive (watch Coin.Receive s + 1) (store s))
    as (m1 & -> & Hold1 & Hin1 & Hnew1); [by left|lia|]. simpl.
  rewrite change_watch_tip_ok by done. simpl. rewrite add_w_ok by lia. simpl.
  destruct (populate_spec Coin.Change (watch Coin.Change s + 1) m1)
    as (m2 & -> & Hold2 & Hin2 & Hnew2); [by right|lia|]. simpl.
  exists m2. split_and!; [done| |intros spk e He; simpl; by apply Hold2, Hold1].
  assert (Hw : ∀ kc, watch kc (set_store m2 s) = watch kc s) by done.
  split; [done|..].
  - intros kc i a Hkc. rewrite Hw. intros Hi Ha. simpl. destruct Hkc as [-> | ->].
    + destruct (Hin1 i a ltac:(lia) Ha) as [e He]. rewrite (Hold2 _ _ He). eauto.
    + apply (Hin2 i); [lia|done].
  - simpl. intros spk e He. unfold entry_ok. rewrite Hw.
    destruct (Hnew2 _ _ He) as [[He'|(i & a & Hi & Ha & Hs & ->)]%Hnew1|(i & a & Hi & Ha & Hs & ->)];
      simpl.
    + by apply Hsound.
    + split_and!; [by left|lia|done|done].
    + split_and!; [by right|lia|done|done].
Qed.

Lemma update_watch_tip_spec s :
  fits s → ∃ s', update_watch_tip s = Ret s' ∧ same_tips s s' ∧ store s' = store s ∧
    announced s' ∧ notification s' = notification s ∧
    (is_Some (tx_listener s') ↔ is_Some (tx_listener s)).
Proof.
  intros Hf. unfold update_watch_tip.
  pose proof (Hf Coin.Receive ltac:(by left)) as Hr. pose proof (Hf Coin.Change ltac:(by right)) as Hc.
  unfold watch in Hr, Hc. simpl in Hr, Hc.
  assert (∃ s1, match tx_listener s with
    | None => Ret s
    | Some sent =>
        let! recv := recv_watch_tip s in
        let! change := change_watch_tip s in
        Ret (set_tx_listener (Some (sent ++ [mkAddressTip recv change])) s)
    end = Ret s1 ∧ same_tips s s1 ∧ store s1 = store s ∧ notification s1 = notification s ∧
    (∀ sent, tx_listener s1 = Some sent →
      last sent = Some (mkAddressTip (watch Coin.Receive s) (watch Coin.Change s))) ∧
    (is_Some (tx_listener s1) ↔ is_Some (tx_listener s))) as (s1 & -> & Hs1 & Hst & Hn & Hlast & Hl).
  { destruct (tx_listener s) as [sent|] eqn:Hsent.
    - rewrite recv_watch_tip_ok, change_watch_tip_ok by done. simpl. eexists.
      split_and!; [done|done|done|done| |simpl; naive_solver].
      simpl. intros ? [= <-]. by rewrite last_snoc.
    - exists s. rewrite Hsent. split_and!; [done..|by intros []|done]. }
  simpl. eexists. split_and!; [done|exact Hs1|done| |done|exact Hl].
  destruct Hs1 as (_ & Hla & Hg). pose proof (Hg Coin.Receive) as Hgr.
  pose proof (Hg Coin.Change) as Hgc. simpl in Hgr, Hgc. unfold announced. simpl. split.
  - destruct (st_flush _) as [a r] eqn:Hflush. eapply Tip.persist_read; [| |exact Hflush]; lia.
  - intros sent Hsent%Hlast. rewrite Hsent. unfold watch. simpl. by rewrite Hla, Hgr, Hgc.
Qed.

(** The common end of every operation that moves a tip. *)
Definition settled s s' : Prop :=
  addresses_ok s' ∧ announced s' ∧ same_tips s s' ∧ keeps s s' ∧
  (is_Some (tx_listener s') ↔ is_Some (tx_listener s)).
Lemma refresh_spec s :
  derivator s = d → sound s → fits s →
  ∃ s', (let! s := populate_maybe s in notify s) = Ret s' ∧ settled s s'.
Proof.
  intros Hd Hs Hf. destruct (populate_maybe_spec s Hd Hs Hf) as (m & -> & Hok & Hkeep). simpl.
  unfold notify.
  destruct (update_watch_tip_spec (send Notification.AddressTipChanged (set_store m s)))
    as (s' & -> & Hsame & Hst & Hann & _ & Hl); [done|].
  exists s'. split; [done|]. split_and!; [|done|done| |exact Hl].
  - destruct Hok as [Hd' Hc' Hs']. destruct (Hsame) as (Hder & _ & _).
    assert (Hw : ∀ kc, watch kc s' = watch kc (set_store m s)) by (intros; by apply same_tips_watch).
    split; [by rewrite Hder| |].
    + intros kc i a. rewrite Hw, Hst. apply Hc'.
    + intros spk e. rewrite Hst. unfold entry_ok. rewrite Hw. apply Hs'.
  - intros spk e. rewrite Hst. apply Hkeep.
Qed.

Lemma update_tip_spec kc i s :
  keychain kc → derivator s = d → sound s → fits s → i + look_ahead s + 1 < bound →
  ∃ s', update_tip kc i s = Ret s' ∧ addresses_ok s' ∧ announced s' ∧
    look_ahead s' = look_ahead s ∧ keeps s s' ∧
    generated kc s' = N.max (generated kc s) i ∧
    (∀ kc', keychain kc' → kc' ≠ kc → generated kc' s' = generated kc' s).
Proof.
  intros Hkc Hd Hs Hf Hi.
  assert (∃ s1, update_tip kc i s = (let! s := populate_maybe s1 in notify s) ∧
    store s1 = store s ∧ derivator s1 = derivator s ∧ look_ahead s1 = look_ahead s ∧
    generated kc s1 = N.max (generated kc s) i ∧
    (∀ kc', keychain kc' → kc' ≠ kc → generated kc' s1 = generated kc' s))
    as (s1 & -> & Hst & Hder & Hla & Hg & Hg').
  { destruct Hkc as [-> | ->]; simpl.
    - unfold update_recv. eexists. split; [done|]. destruct (N.ltb_spec (recv_generated_tip s) i);
        simpl; split_and!; try done; try lia; by intros kc' [-> | ->].
    - unfold update_change. eexists. split; [done|]. destruct (N.ltb_spec (change_generated_tip s) i);
        simpl; split_and!; try done; try lia; by intros kc' [-> | ->]. }
  assert (Hw : ∀ kc', keychain kc' → watch kc' s ≤ watch kc' s1 ∧ watch kc' s1 < bound).
  { intros kc' Hkc'. specialize (Hf _ Hkc'). revert Hf. unfold watch. rewrite Hla.
    destruct (decide (kc' = kc)) as [->|Hne]; [rewrite Hg; lia|rewrite Hg' by done; lia]. }
  destruct (refresh_spec s1) as (s' & Hs' & Hok & Hann & (_ & Hla' & Hgs) & Hkeep & _).
  - congruence.
  - intros spk e. rewrite Hst. intros He%Hs. eapply entry_ok_mono; [|done]. apply Hw.
  - intros kc' Hkc'. by apply Hw.
  - exists s'. split_and!; try done.
    + congruence.
    + intros spk e He. apply Hkeep. congruence.
    + by rewrite Hgs.
    + intros kc' ? ?. rewrite Hgs. by apply Hg'.
Qed.

Lemma find_index_spec derive spk l :
  (∀ i, i ∈ l → ∃ a, derive i = Ret a) →
  ∃ r, find_index derive spk l = Ret r ∧
    match r with
    | Some i => i ∈ l ∧ ∃ a, derive i = Ret a ∧ address_script a = spk
    | None => ∀ i a, i ∈ l → derive i = Ret a → address_script a ≠ spk
    end.
Proof.
  induction l as [|i l IH]; intros Hl; simpl; [exists None; set_solver|].
  destruct (Hl i ltac:(set_solver)) as [a Ha]. rewrite Ha. simpl. case_bool_decide as Hs.
  - exists (Some i). split; [done|]. split; [set_solver|eauto].
  - destruct IH as (r & -> & Hr); [set_solver|]. exists r. split; [done|]. destruct r as [j|].
    + destruct Hr as [Hj Ha']. split; [set_solver|done].
    + intros j b [->|Hj]%elem_of_cons Hb; [congruence|by eapply Hr].
Qed.

Lemma elem_of_gap w i :
  w + RECOVER_GAP + 1 < bound → i ∈ gap w ↔ w < i ≤ w + 1 + RECOVER_GAP.
Proof.
  intros Hw. unfold gap, sat_add, u32_max.
  rewrite (N.min_l (w + 1)), (N.min_l (w + 1 + RECOVER_GAP)) by lia. rewrite elem_of_nseq.
  unfold RECOVER_GAP in *. lia.
Qed.

(** Room for [n] operations: each moves a watch tip by at most the recovery gap,
    the look-ahead and two. *)
Definition budget (n : N) s : Prop :=
  ∀ kc, keychain kc → watch kc s + n * (RECOVER_GAP + look_ahead s + 2) < bound.

Lemma budget_fits n s : budget n s → fits s.
Proof. intros Hb kc Hkc. specialize (Hb _ Hkc). lia. Qed.

Lemma locate_spk_spec s spk n :
  derivator s = d → budget (n + 1) s →
  ∃ r, locate_spk s spk = Ret r ∧
    match r with
    | Some (kc, i) => keychain kc ∧ watch kc s < i ≤ watch kc s + 1 + RECOVER_GAP ∧
        ∃ a, address_at d kc i = Ret a ∧ address_script a = spk
    | None => ∀ kc i a, keychain kc → watch kc s < i ≤ watch kc s + 1 + RECOVER_GAP →
        address_at d kc i = Ret a → address_script a ≠ spk
    end.
Proof.
  intros Hd Hb. pose proof (budget_fits _ _ Hb) as Hf. unfold locate_spk.
  assert (Hroom : ∀ kc, keychain kc → watch kc s + RECOVER_GAP + 1 < bound).
  { intros kc Hkc. specialize (Hb _ Hkc). lia. }
  pose proof (Hroom Coin.Receive ltac:(by left)) as Hr.
  pose proof (Hroom Coin.Change ltac:(by right)) as Hc.
  rewrite recv_watch_tip_ok by done. simpl. rewrite Hd.
  destruct (find_index_spec (receive_at d) spk (gap (watch Coin.Receive s))) as (r & -> & Hr1).
  { intros i Hi%elem_of_gap; [|done]. apply receive_derives. lia. }
  simpl. destruct r as [i|].
  { destruct Hr1 as [Hi%elem_of_gap Ha]; [|done]. eexists. split; [done|].
    split_and!; [by left|lia|lia|done]. }
  rewrite change_watch_tip_ok by done. simpl.
  destruct (find_index_spec (change_at d) spk (gap (watch Coin.Change s))) as (r & -> & Hr2).
  { intros i Hi%elem_of_gap; [|done]. apply change_derives. lia. }
  simpl. eexists. split; [done|]. destruct r as [i|].
  - destruct Hr2 as [Hi%elem_of_gap Ha]; [|done]. split_and!; [by right|lia|lia|done].
  - intros kc i a [-> | ->] Hi Ha; [eapply Hr1|eapply Hr2]; try done; by apply elem_of_gap.
Qed.

(** ** The operations, one after the other *)

Inductive Op :=
  | RecvCoin (spk : script)
  | NewRecv
  | NewChange
  | Init
  | SetHistory (spk : script) (st : AddressStatus) (funding spending : gset Txid).

(** [SetHistory] is what [CoinStore::generate] does through [get_entry_mut]. *)
Definition run_op (op : Op) s : outcome AddressStore :=
  match op with
  | RecvCoin spk => recv_coin_at spk s
  | NewRecv => let! r := new_recv_addr s in Ret r.1
  | NewChange => let! r := new_change_addr s in Ret r.1
  | Init => init s
  | SetHistory spk st f g =>
      Ret (get_entry_mut spk (λ e, set_spending_txids g (set_funding_txids f (set_status st e))) s)
  end.

Definition ok_state s : Prop := addresses_ok s ∧ announced s.

(** What an operation may do to the watch window. *)
Definition step_ok (n : N) s s' : Prop :=
  ok_state s' ∧ budget n s' ∧ (∀ kc, keychain kc → generated kc s ≤ generated kc s') ∧
  ∀ spk, is_Some (store s !! spk) → is_Some (store s' !! spk).

Lemma keeps_stored s s' spk : keeps s s' → is_Some (store s !! spk) → is_Some (store s' !! spk).
Proof. intros Hk [e He]. rewrite (Hk _ _ He). eauto. Qed.

(** A tip moved to an index of the recovery window spends one unit of room. *)
Lemma move_budget kc i n s s' :
  keychain kc → budget (n + 1) s → i ≤ watch kc s + 1 + RECOVER_GAP →
  look_ahead s' = look_ahead s → generated kc s' = N.max (generated kc s) i →
  (∀ kc', keychain kc' → kc' ≠ kc → generated kc' s' = generated kc' s) → budget n s'.
Proof.
  intros Hkc Hb Hi Hla Hg Hg' kc' Hkc'. specialize (Hb _ Hkc'). revert Hb Hi. unfold watch.
  rewrite Hla. destruct (decide (kc' = kc)) as [->|Hne]; [rewrite Hg; lia|].
  rewrite Hg' by done. lia.
Qed.

Lemma update_tip_step kc i n s :
  keychain kc → addresses_ok s → budget (n + 1) s → i ≤ watch kc s + 1 + RECOVER_GAP →
  ∃ s', update_tip kc i s = Ret s' ∧ step_ok n s s' ∧ look_ahead s' = look_ahead s ∧
    generated kc s' = N.max (generated kc s) i.
Proof.
  intros Hkc [Hd Hc Hs] Hb Hi.
  destruct (update_tip_spec kc i s) as (s' & Hu & Hok & Hann & Hla & Hkeep & Hg & Hg');
    [done|done|done|by eapply budget_fits|specialize (Hb _ Hkc); lia|].
  exists s'. split_and!; [done| |done|done]. split_and!; [done|by eapply move_budget| |].
  - intros kc' Hkc'. destruct (decide (kc' = kc)) as [->|]; [lia|by rewrite Hg'].
  - intros spk. by apply keeps_stored.
Qed.

Lemma recv_coin_at_step spk n s :
  ok_state s → budget (n + 1) s → ∃ s', recv_coin_at spk s = Ret s' ∧ step_ok n s s'.
Proof.
  intros [Hok Hann] Hb. unfold recv_coin_at. destruct (store s !! spk) as [e|] eqn:He.
  - destruct (ao_sound _ Hok _ _ He) as (Hkc & Hi & _ & _).
    destruct (update_tip_step (account e) (index e) n s) as (s' & -> & Hs' & _); [done..|lia|eauto].
  - destruct (locate_spk_spec s spk n (ao_derivator _ Hok) Hb) as (r & -> & Hr). simpl.
    destruct r as [[kc i]|].
    + destruct Hr as (Hkc & Hi & _).
      destruct (update_tip_step kc i n s) as (s' & -> & Hs' & _); [done..|lia|eauto].
    + exists s. split; [done|]. split_and!; [done| |done|done].
      intros kc Hkc. specialize (Hb _ Hkc). lia.
Qed.

(** Generating the next address of a keychain: [t] is the incremented tip. *)
Lemma next_tip_step kc s1 n s :
  keychain kc → addresses_ok s → budget (n + 1) s → store s1 = store s →
  derivator s1 = derivator s → look_ahead s1 = look_ahead s →
  generated kc s1 = generated kc s + 1 →
  (∀ kc', keychain kc' → kc' ≠ kc → generated kc' s1 = generated kc' s) →
  ∃ s', update_tip kc (generated kc s + 1) s1 = Ret s' ∧ step_ok n s s' ∧
    derivator s' = d ∧ generated kc s' = generated kc s + 1.
Proof.
  intros Hkc [Hd Hc Hs] Hb Hst Hder Hla Hg Hg'.
  assert (Hw : ∀ kc', keychain kc' → watch kc' s ≤ watch kc' s1 ≤ watch kc' s + 1).
  { intros kc' Hkc'. unfold watch. rewrite Hla.
    destruct (decide (kc' = kc)) as [->|Hne]; [rewrite Hg; lia|rewrite Hg' by done; lia]. }
  destruct (update_tip_spec kc (generated kc s + 1) s1)
    as (s' & Hu & Hok & Hann & Hla' & Hkeep & Hg2 & Hg2').
  - done.
  - congruence.
  - intros spk e. rewrite Hst. intros He%Hs. eapply entry_ok_mono; [|done]. apply Hw.
  - intros kc' Hkc'. specialize (Hb _ Hkc'). specialize (Hw _ Hkc'). lia.
  - specialize (Hb _ Hkc). unfold watch in Hb. rewrite Hla. lia.
  - exists s'. rewrite Hg2, Hg. split_and!; [done| |by destruct Hok|lia]. split_and!; [done|..].
    + eapply (move_budget kc (generated kc s + 1) n s); try done.
      * unfold watch. lia.
      * congruence.
      * rewrite Hg2, Hg. lia.
      * intros kc' Hkc' Hne. rewrite Hg2' by done. by apply Hg'.
    + intros kc' Hkc'. destruct (decide (kc' = kc)) as [->|]; [lia|].
      rewrite Hg2', Hg' by done. lia.
    + intros spk. rewrite <-Hst. by apply keeps_stored.
Qed.

Lemma new_recv_addr_spec n s :
  ok_state s → budget (n + 1) s →
  ∃ s' a, new_recv_addr s = Ret (s', a) ∧ step_ok n s s' ∧
    recv_generated_tip s' = recv_generated_tip s + 1 ∧
    receive_at d (recv_generated_tip s + 1) = Ret a.
Proof.
  intros [Hok _] Hb. pose proof (Hb Coin.Receive ltac:(by left)) as Hr. unfold watch in Hr. simpl in Hr.
  unfold new_recv_addr, add32. rewrite add_w_ok by lia. simpl.
  destruct (next_tip_step Coin.Receive (set_recv_tip (recv_generated_tip s + 1) s) n s)
    as (s' & Hu & Hs' & Hd & Hg); try done; [by left|by intros kc [-> | ->]|].
  simpl in Hu, Hg. rewrite Hu. simpl. rewrite Hd, Hg.
  destruct (receive_derives (d:=d) (recv_generated_tip s + 1)) as [a Ha]; [lia|]. rewrite Ha. simpl.
  eauto 10.
Qed.

Lemma next_change_index_spec n s :
  ok_state s → budget (n + 1) s →
  ∃ s', next_change_index s = Ret (s', change_generated_tip s + 1) ∧ step_ok n s s' ∧
    derivator s' = d ∧ change_generated_tip s' = change_generated_tip s + 1.
Proof.
  intros [Hok _] Hb. pose proof (Hb Coin.Change ltac:(by right)) as Hr. unfold watch in Hr. simpl in Hr.
  unfold next_change_index, add32. rewrite add_w_ok by lia. simpl.
  destruct (next_tip_step Coin.Change (set_change_tip (change_generated_tip s + 1) s) n s)
    as (s' & Hu & Hs' & Hd & Hg); try done; [by right|by intros kc [-> | ->]|].
  simpl in Hu, Hg. rewrite Hu. simpl. eauto 10.
Qed.

Lemma new_change_addr_spec n s :
  ok_state s → budget (n + 1) s →
  ∃ s' a, new_change_addr s = Ret (s', a) ∧ step_ok n s s' ∧
    change_generated_tip s' = change_generated_tip s + 1 ∧
    change_at d (change_generated_tip s + 1) = Ret a.
Proof.
  intros Hok Hb. pose proof (Hb Coin.Change ltac:(by right)) as Hr. unfold watch in Hr. simpl in Hr.
  destruct (next_change_index_spec n s Hok Hb) as (s' & Hn & Hs' & Hd & Hg).
  unfold new_change_addr. rewrite Hn. simpl. rewrite Hd.
  destruct (change_derives (d:=d) (change_generated_tip s + 1)) as [a Ha]; [lia|]. rewrite Ha. simpl.
  eauto 10.
Qed.

Lemma init_step n s : ok_state s → budget (n + 1) s → ∃ s', init s = Ret s' ∧ step_ok n s s'.
Proof.
  intros [[Hd Hc Hs] _] Hb. unfold init.
  destruct (populate_maybe_spec s Hd Hs (budget_fits _ _ Hb)) as (m & -> & Hok & Hkeep). simpl.
  unfold notify.
  destruct (update_watch_tip_spec (send Notification.AddressTipChanged
    (set_tx_listener (Some []) (set_store m s)))) as (s' & -> & Hsame & Hst & Hann & _ & _);
    [exact (budget_fits _ _ Hb)|].
  exists s'. split; [done|]. destruct Hok as [Hd' Hc' Hs'].
  assert (Hw : ∀ kc, watch kc s' = watch kc s) by (intros; by apply same_tips_watch).
  destruct Hsame as (Hder & Hla & Hg). split_and!; [split; [split|done]| | |].
  - by rewrite Hder.
  - intros kc i a. rewrite Hw, Hst. apply Hc'.
  - intros spk e. rewrite Hst. unfold entry_ok. rewrite Hw. apply Hs'.
  - intros kc Hkc. rewrite Hw, Hla. specialize (Hb _ Hkc). simpl. lia.
  - intros kc Hkc. rewrite Hg. simpl. apply N.le_refl.
  - intros spk. rewrite Hst. by apply (keeps_stored s (set_store m s)).
Qed.

(** Only what an entry is not looked up by may change. *)
Lemma set_history_step spk f n s :
  (∀ e, address (f e) = address e ∧ account (f e) = account e ∧ index (f e) = index e) →
  ok_state s → budget (n + 1) s → step_ok n s (get_entry_mut spk f s).
Proof.
  intros Hf [[Hd Hc Hs] Hann] Hb.
  assert (Hsome : ∀ k, is_Some (store (get_entry_mut spk f s) !! k) ↔ is_Some (store s !! k)).
  { intros k. simpl. rewrite lookup_alter_is_Some. done. }
  split_and!; [split; [split|done]| |intros; apply N.le_refl|by intros k; rewrite Hsome].
  - done.
  - intros kc i a Hkc Hi Ha. rewrite Hsome. by eapply Hc.
  - simpl. intros k e. destruct (decide (k = spk)) as [->|Hne].
    + rewrite lookup_alter_eq. destruct (store s !! spk) as [e'|] eqn:He; [|done].
      intros [= <-]. specialize (Hs _ _ He). destruct (Hf e') as (Ha & Hac & Hix).
      unfold entry_ok in *. by rewrite Ha, Hac, Hix.
    + rewrite lookup_alter_ne by done. apply Hs.
  - intros kc Hkc. specialize (Hb _ Hkc). change (watch kc (get_entry_mut spk f s)) with (watch kc s).
    simpl. lia.
Qed.

Lemma run_op_step op n s :
  ok_state s → budget (n + 1) s → ∃ s', run_op op s = Ret s' ∧ step_ok n s s'.
Proof.
  intros Hok Hb. destruct op as [spk| | | |spk st f g]; simpl.
  - by apply recv_coin_at_step.
  - destruct (new_recv_addr_spec n s Hok Hb) as (s' & a & -> & Hs' & _). simpl. eauto.
  - destruct (new_change_addr_spec n s Hok Hb) as (s' & a & -> & Hs' & _). simpl. eauto.
  - by apply init_step.
  - eexists. split; [done|]. by apply set_history_step.
Qed.

Lemma run_ops_steps ops s n :
  ok_state s → budget (N.of_nat (length ops) + n) s →
  ∃ s', ofold (λ s op, run_op op s) s ops = Ret s' ∧ step_ok n s s'.
Proof.
  revert s; induction ops as [|op ops IH]; intros s Hok Hb; cbn [length ofold] in *.
  { exists s. split; [done|]. split_and!; [done|exact Hb|intros; apply N.le_refl|done]. }
  destruct (run_op_step op (N.of_nat (length ops) + n) s Hok) as (s1 & -> & Hok1 & Hb1 & Hm1 & Hk1).
  { intros kc Hkc. specialize (Hb kc Hkc). lia. }
  simpl. destruct (IH s1 Hok1 Hb1) as (s' & -> & Hok' & Hb' & Hm' & Hk'). exists s'.
  split; [done|]. split_and!; [done|done| |by auto].
  intros kc Hkc. specialize (Hm1 _ Hkc). specialize (Hm' _ Hkc). lia.
Qed.

Lemma with_account_store_spec r c look a :
  r + look + 1 < bound → c + look + 1 < bound →
  ∃ s, with_account_store d r c look a = Ret s ∧ ok_state s ∧ look_ahead s = look ∧
    recv_generated_tip s = r ∧ change_generated_tip s = c.
Proof.
  intros Hr Hc. unfold with_account_store.
  assert (Hf : fits (mkAddressStore ∅ r c d [] None look a)) by (by intros kc [-> | ->]).
  destruct (populate_maybe_spec (mkAddressStore ∅ r c d [] None look a)) as (m & -> & Hok & _);
    [done|by intros ? ?|done|]. simpl.
  destruct (update_watch_tip_spec (set_store m (mkAddressStore ∅ r c d [] None look a)))
    as (s & -> & Hsame & Hst & Hann & _ & _); [done|].
  assert (Hw : ∀ kc, watch kc s = watch kc (set_store m (mkAddressStore ∅ r c d [] None look a)))
    by (intros; by apply same_tips_watch).
  destruct Hsame as (Hder & Hla & Hg). exists s. split; [done|]. destruct Hok as [Hd' Hc' Hs'].
  split_and!; [split; [split|done]|done|apply (Hg Coin.Receive)|apply (Hg Coin.Change)].
  - by rewrite Hder.
  - intros kc i x. rewrite Hw, Hst. apply Hc'.
  - intros spk e. rewrite Hst. unfold entry_ok. rewrite Hw. apply Hs'.
Qed.

(** C14. The watch window is kept whole: open the address store at any persisted
    tips and apply any sequence of operations, coins at arbitrary (even foreign)
    scripts included. With [n] operations and room for each to move the tip by
    the recovery gap below the derivation bound, none panics in either build, and
    in the end every address of both keychains up to its watch tip is stored, every
    stored entry is the address its keychain and index derive, the tips never went
    back, the account store holds them, and the scan loop was last told the watch
    tips. *)
Theorem address_ops_keep_window (r c look : N) (a : A) (ops : list Op)
    (Hr : r + look + 1 + N.of_nat (length ops) * (RECOVER_GAP + look + 2) < bound)
    (Hc : c + look + 1 + N.of_nat (length ops) * (RECOVER_GAP + look + 2) < bound) :
  ∃ s0 s, with_account_store d r c look a = Ret s0 ∧
    ofold (λ s op, run_op op s) s0 ops = Ret s ∧ addresses_ok s ∧ announced s ∧
    r ≤ recv_generated_tip s ∧ c ≤ change_generated_tip s ∧
    ∀ spk, is_Some (store s0 !! spk) → is_Some (store s !! spk).
Proof.
  destruct (with_account_store_spec r c look a) as (s0 & Hs0 & Hok0 & Hl & Hr0 & Hc0); [lia..|].
  destruct (run_ops_steps ops s0 0 Hok0) as (s & Hs & [Hok Hann] & _ & Hm & Hk).
  { intros kc [-> | ->]; unfold watch; simpl; rewrite Hl, ?Hr0, ?Hc0; lia. }
  exists s0, s. pose proof (Hm Coin.Receive ltac:(by left)). pose proof (Hm Coin.Change ltac:(by right)).
  simpl in *. rewrite Hr0, Hc0 in *. done.
Qed.

(** A coin moves the gap: when no two of the derivator's addresses share a
    script, a coin reported at the address of keychain [kc] and index [i], anywhere
    up to the recovery gap past the watch tip, leaves the tip at least at [i], and
    every address of the keychain up to the look-ahead past [i] watched. *)
Theorem recv_coin_moves_gap (kc : Coin.KeyChain) (i : N) (a : Address) s
    (Hinj : ∀ kc i kc' i' a a', keychain kc → keychain kc' → i < bound → i' < bound →
       address_at d kc i = Ret a → address_at d kc' i' = Ret a' →
       address_script a = address_script a' → kc = kc' ∧ i = i')
    (Hkc : keychain kc) (Hok : addresses_ok s) (Hann : announced s) (Hroom : budget 1 s)
    (Hi : i ≤ watch kc s + 1 + RECOVER_GAP) (Ha : address_at d kc i = Ret a) :
  ∃ s', recv_coin_at (address_script a) s = Ret s' ∧
    generated kc s' = N.max (generated kc s) i ∧ look_ahead s' = look_ahead s ∧
    (∀ j b, j ≤ i + look_ahead s + 1 → address_at d kc j = Ret b →
       is_Some (store s' !! address_script b)).
Proof.
  assert (Hib : i < bound) by (specialize (Hroom _ Hkc); lia).
  assert (∃ s', recv_coin_at (address_script a) s = Ret s' ∧ update_tip kc i s = Ret s')
    as (s' & Hs' & Hu).
  { destruct (update_tip_step kc i 0 s Hkc Hok Hroom Hi) as (s' & Hu & _). exists s'. split; [|done].
    unfold recv_coin_at. destruct (store s !! address_script a) as [e|] eqn:He.
    - destruct (ao_sound _ Hok _ _ He) as (Hkc' & Hi' & Ha' & Hs).
      specialize (budget_fits _ _ Hroom _ Hkc') as Hfit.
      destruct (Hinj kc i (account e) (index e) a (address e)) as [<- <-]; try done. lia.
    - destruct (locate_spk_spec s (address_script a) 0 (ao_derivator _ Hok) Hroom) as (o & -> & Ho).
      simpl. destruct o as [[kc' i']|].
      + destruct Ho as (Hkc' & Hi' & a' & Ha' & Hs).
        destruct (Hinj kc i kc' i' a a') as [<- <-]; try done.
        specialize (Hroom _ Hkc'). lia.
      + destruct (N.le_gt_cases i (watch kc s)) as [Hle|Hgt].
        * destruct (ao_covered _ Hok kc i a Hkc Hle Ha) as [? ?]. congruence.
        * by destruct (Ho kc i a Hkc ltac:(lia) Ha). }
  destruct (update_tip_step kc i 0 s Hkc Hok Hroom Hi) as (s2 & Hu2 & [[Hok2 _] _] & Hla & Hg).
  assert (s2 = s') as -> by congruence. exists s'. split_and!; [done..|].
  intros j b Hj Hb. eapply (ao_covered _ Hok2); [done| |done]. unfold watch. rewrite Hg, Hla. lia.
Qed.
End proofs.

(** ** Witnesses *)
Module Witness.
Import Sample Derivator.Witness.

#[export] Instance sample_codec : Tip.TipCodec := {|
  Tip.encode_u32 := λ v, Some [v];
  Tip.decode_u32 := λ b, match b with [v] => Some v | _ => None end
|}.
#[export] Instance sample_codec_laws : Tip.TipCodecLaws.
Proof. split. intros v _. by exists [v]. Qed.

Definition acct : RamStore unit string bytes := ram_empty tt ACCOUNT_STORE_KEY id Ok.
Definition ops : list Op := [Init; RecvCoin [6; 2]; RecvCoin [9; 9]; NewRecv; NewChange].

Lemma address_ops_keep_window_witness :
  ∃ s0 s, with_account_store der 0 0 2 acct = Ret s0 ∧
    ofold (λ s op, run_op op s) s0 ops = Ret s ∧
    addresses_ok der s ∧ announced s ∧
    0 ≤ recv_generated_tip s ∧ 0 ≤ change_generated_tip s ∧
    ∀ spk, is_Some (store s0 !! spk) → is_Some (store s !! spk).
Proof. apply (address_ops_keep_window der 100000); reflexivity. Defined.

Definition s0 : AddressStore :=
  match with_account_store der 0 0 2 acct with
  | Ret s => s
  | Panic => mkAddressStore ∅ 0 0 der [] None 2 acct
  end.
Lemma s0_ok : addresses_ok der s0 ∧ announced s0.
Proof.
  destruct (with_account_store_spec der 100000 eq_refl 0 0 2 acct) as (s & Hs & Hok & _); [done..|].
  unfold s0. by rewrite Hs.
Qed.

Lemma recv_coin_moves_gap_witness :
  ∃ s', recv_coin_at [6; 50] s0 = Ret s' ∧
    generated Coin.Receive s' = N.max (generated Coin.Receive s0) 50 ∧
    look_ahead s' = look_ahead s0 ∧
    (∀ j (b : @Address sample_lib), j ≤ 50 + look_ahead s0 + 1 →
       address_at der Coin.Receive j = Ret b → is_Some (store s' !! address_script b)).
Proof.
  apply (recv_coin_moves_gap der 100000 eq_refl Coin.Receive 50 [6; 50] s0).
  - intros kc i kc' i' a a' [-> | ->] [-> | ->] _ _; simpl; intros [= <-] [= <-] [=]; done.
  - by left.
  - apply s0_ok.
  - apply s0_ok.
  - intros kc [-> | ->]; vm_compute; reflexivity.
  - vm_compute. discriminate.
  - reflexivity.
Defined.
End Witness.
End AddressStore.
