(* ===== verification/Claims.v ===== *)
(** * Pending claims (electrum/src/coin_store.rs)

    The queue of confirmations the server reported and no header has confirmed
    yet, by height. A transaction has at most one claim, at its latest reported
    height: a stale one would promote it in the wrong block. *)
From stdpp Require Import base gmap list.
From S2P Require Import Prelude Bitcoin.

Module Claims.

Record ClaimAt := mkClaimAt { claim_txid : Txid; claim_height : N }.
#[export] Instance ClaimAt_eqdec : EqDecision ClaimAt.
Proof. solve_decision. Defined.
#[export] Instance ClaimAt_countable : Countable ClaimAt.
Proof.
  refine (inj_countable' (λ c, (claim_txid c, claim_height c)) (λ p, mkClaimAt p.1 p.2) _).
  by intros [].
Defined.

Abbreviation claims := (gmap N (gset Txid)).

Definition insert_pending_claim (claim : ClaimAt) (m : claims) : claims :=
  <[claim_height claim := {[claim_txid claim]} ∪ default ∅ (m !! claim_height claim)]> m.

(** [retain] with the edited set, dropped when empty. *)
Definition retain_sets (edit : N → gset Txid → gset Txid) (m : claims) : claims :=
  map_imap (λ h set, let set := edit h set in if decide (set = ∅) then None else Some set) m.

Definition prune_pending_claim (keep : ClaimAt) : claims → claims :=
  retain_sets (λ h set, if h =? claim_height keep then set else set ∖ {[claim_txid keep]}).
Definition drop_all_pending_claims (txid : Txid) : claims → claims :=
  retain_sets (λ _ set, set ∖ {[txid]}).

Definition remove_pending_claim (claim : ClaimAt) (m : claims) : claims :=
  match m !! claim_height claim with
  | None => m
  | Some set =>
      let set := set ∖ {[claim_txid claim]} in
      if decide (set = ∅) then delete (claim_height claim) m else <[claim_height claim := set]> m
  end.

Definition pending_claim_height (m : claims) (txid : Txid) : option N :=
  head (omap (λ kv, if bool_decide (txid ∈ kv.2) then Some kv.1 else None) (bt_items m)).
Definition pending_claim_heights (m : claims) : list N := bt_keys m.

(** ** Proofs *)

(** The claim of [txid] at [h] is queued. *)
Definition claimed (m : claims) (txid : Txid) (h : N) : Prop := ∃ set, m !! h = Some set ∧ txid ∈ set.

Record claims_ok (m : claims) : Prop := {
  co_one txid h h' : claimed m txid h → claimed m txid h' → h = h';
  co_nonempty h : m !! h ≠ Some ∅
}.

Lemma claimed_insert c m txid h :
  claimed (insert_pending_claim c m) txid h ↔
  claimed m txid h ∨ (txid = claim_txid c ∧ h = claim_height c).
Proof.
  unfold claimed, insert_pending_claim. destruct (decide (h = claim_height c)) as [->|Hne].
  - rewrite lookup_insert_eq. split.
    + intros (set & [= <-] & Hin). destruct (m !! claim_height c); simpl in Hin; set_solver.
    + intros [(set & Hs & Hin)|[-> _]]; eexists; (split; [done|]); [rewrite Hs; simpl|]; set_solver.
  - rewrite lookup_insert_ne by done. naive_solver.
Qed.

Lemma lookup_retain edit m h :
  retain_sets edit m !! h =
    match m !! h with
    | Some set => if decide (edit h set = ∅) then None else Some (edit h set)
    | None => None
    end.
Proof. unfold retain_sets. rewrite map_lookup_imap. by destruct (m !! h). Qed.

Lemma claimed_retain edit m txid h :
  claimed (retain_sets edit m) txid h ↔ ∃ set, m !! h = Some set ∧ txid ∈ edit h set.
Proof.
  unfold claimed. rewrite lookup_retain. destruct (m !! h) as [set|]; [|naive_solver].
  destruct (decide (edit h set = ∅)) as [He|He]; [|naive_solver].
  split; [naive_solver|]. intros (set' & [= <-] & Hin). set_solver.
Qed.

Lemma claimed_prune keep m txid h :
  claimed (prune_pending_claim keep m) txid h ↔
  claimed m txid h ∧ (txid = claim_txid keep → h = claim_height keep).
Proof.
  unfold prune_pending_claim. rewrite claimed_retain. unfold claimed.
  destruct (N.eqb_spec h (claim_height keep)) as [->|Hne]; [naive_solver|]. set_solver.
Qed.

Lemma claimed_drop_all t m txid h :
  claimed (drop_all_pending_claims t m) txid h ↔ claimed m txid h ∧ txid ≠ t.
Proof. unfold drop_all_pending_claims. rewrite claimed_retain. unfold claimed. set_solver. Qed.

Lemma claimed_remove c m txid h :
  claimed (remove_pending_claim c m) txid h ↔
  claimed m txid h ∧ (txid, h) ≠ (claim_txid c, claim_height c).
Proof.
  unfold claimed, remove_pending_claim. destruct (m !! claim_height c) as [set|] eqn:Hs.
  - destruct (decide (h = claim_height c)) as [->|Hne].
    + rewrite Hs. destruct (decide _) as [He|He];
        [rewrite lookup_delete_eq|rewrite lookup_insert_eq].
      * split; [naive_solver|]. intros [(? & [= <-] & Hin) Hne].
        assert (txid = claim_txid c) by set_solver. congruence.
      * split.
        -- intros (? & [= <-] & Hin). split; [set_solver|]. intros [= ->]. set_solver.
        -- intros [(? & [= <-] & Hin) Hne]. eexists. split; [done|].
           apply elem_of_difference. split; [done|]. intros ->%elem_of_singleton. done.
    + destruct (decide _); [rewrite lookup_delete_ne by done|rewrite lookup_insert_ne by done];
        naive_solver.
  - split; [|naive_solver]. intros (set & Hl & Hin). split; [eauto|]. intros [= -> ->]. congruence.
Qed.

Lemma retain_nonempty edit m h : retain_sets edit m !! h ≠ Some ∅.
Proof.
  rewrite lookup_retain. destruct (m !! h); [|done]. destruct (decide _); [done|congruence].
Qed.

(** Claims are only dropped. *)
Lemma claims_ok_sub m m' :
  claims_ok m → (∀ txid h, claimed m' txid h → claimed m txid h) → (∀ h, m' !! h ≠ Some ∅) →
  claims_ok m'.
Proof. intros [H1 H2] Hsub Hne. split; [naive_solver|done]. Qed.

Lemma claims_ok_empty : claims_ok ∅.
Proof. split; [intros * (? & ? & ?); set_solver|done]. Qed.
Lemma claims_ok_prune keep m : claims_ok m → claims_ok (prune_pending_claim keep m).
Proof.
  intros Hm. eapply claims_ok_sub; [done| |apply retain_nonempty]. intros *. rewrite claimed_prune. tauto.
Qed.
Lemma claims_ok_drop_all txid m : claims_ok m → claims_ok (drop_all_pending_claims txid m).
Proof.
  intros Hm. eapply claims_ok_sub; [done| |apply retain_nonempty]. intros *. rewrite claimed_drop_all. tauto.
Qed.
Lemma claims_ok_remove c m : claims_ok m → claims_ok (remove_pending_claim c m).
Proof.
  intros Hm. eapply claims_ok_sub; [done| |].
  - intros *. rewrite claimed_remove. tauto.
  - intros h. unfold remove_pending_claim. destruct (m !! claim_height c) as [set|]; [|apply Hm].
    destruct (decide _) as [He|He].
    + destruct (decide (h = claim_height c)) as [->|]; [by rewrite lookup_delete_eq|].
      rewrite lookup_delete_ne by done. apply Hm.
    + destruct (decide (h = claim_height c)) as [->|].
      * rewrite lookup_insert_eq. congruence.
      * rewrite lookup_insert_ne by done. apply Hm.
Qed.
(** A claim queued after its transaction was pruned from the other heights. *)
Lemma claims_ok_requeue c m :
  claims_ok m → claims_ok (insert_pending_claim c (prune_pending_claim c m)).
Proof.
  intros Hm. split.
  - intros txid h h'. rewrite !claimed_insert, !claimed_prune.
    intros [[Hc1 Hp1]|[-> ->]] [[Hc2 Hp2]|[? ->]]; [by eapply Hm| | |done].
    + by apply Hp1.
    + symmetry. by apply Hp2.
  - intros h. unfold insert_pending_claim. destruct (decide (h = claim_height c)) as [->|].
    + rewrite lookup_insert_eq. intros [=]. set_solver.
    + rewrite lookup_insert_ne by done. apply retain_nonempty.
Qed.

Create HintDb claims.
#[export] Hint Resolve claims_ok_empty claims_ok_prune claims_ok_drop_all claims_ok_remove
  claims_ok_requeue : claims.

Lemma pending_claim_height_None m txid :
  pending_claim_height m txid = None ↔ ∀ h, ¬ claimed m txid h.
Proof.
  unfold pending_claim_height. rewrite head_None. split.
  - intros Hn h (set & Hs & Hin). apply elem_of_bt_items in Hs.
    assert (h ∈ omap (λ kv : N * gset Txid, if bool_decide (txid ∈ kv.2) then Some kv.1 else None)
              (bt_items m)) as Hx.
    { apply list_elem_of_omap. exists (h, set). simpl. by rewrite bool_decide_eq_true_2. }
    rewrite Hn in Hx. set_solver.
  - intros Hn. apply elem_of_nil_inv. intros h ([h' set] & Hs & Hh)%list_elem_of_omap. simpl in Hh.
    case_bool_decide as Hin; [|done]. injection Hh as <-. apply elem_of_bt_items in Hs.
    eapply Hn. by exists set.
Qed.
End Claims.
