(* ===== verification/CoinStore.v ===== *)
(** * The coin store (electrum/src/coin_store.rs, coin_state.rs)

    The wallet's view of its coins, generated from the transaction store and the
    address store, and the handlers that fold what the server reports into them.
    The notification channel is the one of the address store. A transaction's
    output index is read as [u32] without truncation: no transaction has that many
    outputs. *)
From stdpp Require Import base gmap list strings.
From Stdlib Require Import Lia.
From S2P Require Import Prelude Bitcoin Coin Persist HeaderBackend HeaderValidator HeaderStore.
From S2P Require Import Notification TxStore Derivator AddressStore Claims.

Module CoinStore.
Import Persist TxStore Derivator Claims.
#[local] Existing Instance Coin.CoinStatus_eqdec.

(** [impl From<&Inclusion> for CoinStatus], and the status without a header
    scanner. *)
Definition status_from (i : Inclusion) : Coin.CoinStatus :=
  match i with
  | Unconfirmed | VerifyFailed _ _ => Coin.Unconfirmed
  | ConfirmedUnverified _ _ => Coin.ConfirmedUnverified
  | Verified _ _ => Coin.Confirmed
  end.
Definition coin_status (i : Inclusion) (header_scanner : bool) : Coin.CoinStatus :=
  match i with
  | ConfirmedUnverified _ _ => if header_scanner then status_from i else Coin.Confirmed
  | _ => status_from i
  end.

Inductive PaymentStatus := PUnconfirmed | PConfirmedUnverified | PVerified | PVerifyFailed.
#[export] Instance PaymentStatus_eqdec : EqDecision PaymentStatus.
Proof. solve_decision. Defined.
Definition payment_status_merge (a b : PaymentStatus) : PaymentStatus :=
  match a, b with
  | PVerifyFailed, _ | _, PVerifyFailed => PVerifyFailed
  | PConfirmedUnverified, _ | _, PConfirmedUnverified => PConfirmedUnverified
  | PVerified, _ | _, PVerified => PVerified
  | PUnconfirmed, PUnconfirmed => PUnconfirmed
  end.
Definition payment_status_from (i : Inclusion) : PaymentStatus :=
  match i with
  | Unconfirmed => PUnconfirmed
  | ConfirmedUnverified _ _ => PConfirmedUnverified
  | Verified _ _ => PVerified
  | VerifyFailed _ _ => PVerifyFailed
  end.

(** ** Script histories *)

Abbreviation history := (gmap Txid (option N)).

(** [collect] into a [BTreeMap]: the last of two equal keys wins. *)
Definition collect_history (l : list (Txid * option N)) : history :=
  foldl (λ m kv, <[kv.1 := kv.2]> m) ∅ l.

Record HistoryDiff := mkDiff { added : history; changed : history; removed : history }.

(** [SpkHistory]: the successive histories of a script. *)
Definition spk_history_new : list history := [∅].
Definition spk_history_insert (new : list (Txid * option N)) (h : list history) :
    outcome (list history * HistoryDiff) :=
  let new := collect_history new in
  let! previous := expect (last h) in
  if decide (previous = ∅) then
    if decide (new = ∅) then Ret (h, mkDiff ∅ ∅ ∅) else Ret (h ++ [new], mkDiff new ∅ ∅)
  else
    Ret (h ++ [new],
      mkDiff (filter (λ kv, previous !! kv.1 = None) new)
             (filter (λ kv, is_Some (previous !! kv.1) ∧ previous !! kv.1 ≠ Some kv.2) new)
             (filter (λ kv, new !! kv.1 = None) previous)).

Definition update_from_diff (spk : script) (diff : HistoryDiff) : Update :=
  mkUpdate spk ((λ txid, (txid, None)) <$> bt_keys (added diff)).

Section coin_store.
Context `{Build} `{DescriptorLib} `{Tip.TipCodec}.
Context {A : Type} `{!Store A string bytes}.
Context {S : Type} `{!Store S Txid TxEntry}.
Context {L : Type} `{!Store L LabelKey string}.

Record CoinEntry := mkCoinEntry { coin : Coin.Coin; ce_address : Address }.
Definition ce_spk (e : CoinEntry) : script := address_script (ce_address e).
Definition ce_height (e : CoinEntry) : option N := Coin.height (coin e).
Definition ce_txin (e : CoinEntry) : TxIn := mkTxIn (Coin.outpoint (coin e)) [] 0 [].
Definition ce_deriv (e : CoinEntry) : option (Coin.KeyChain * N) :=
  match Coin.spend_info (coin e) with Coin.Bip32 coin_path _ => Some coin_path | _ => None end.
Definition is_spent (e : CoinEntry) : bool :=
  match Coin.status (coin e) with Coin.Spent | Coin.BeingSpend => true | _ => false end.
Definition set_coin_status (st : Coin.CoinStatus) (e : CoinEntry) : CoinEntry :=
  let c := coin e in
  mkCoinEntry (Coin.mkCoin (Coin.txout c) (Coin.outpoint c) (Coin.height c) (Coin.coin_sequence c)
    st (Coin.label c) (Coin.satisfaction_size c) (Coin.spend_info c)) (ce_address e).
Definition set_coin_label (l : option string) (e : CoinEntry) : CoinEntry :=
  let c := coin e in
  mkCoinEntry (Coin.mkCoin (Coin.txout c) (Coin.outpoint c) (Coin.height c) (Coin.coin_sequence c)
    (Coin.status c) l (Coin.satisfaction_size c) (Coin.spend_info c)) (ce_address e).

Record CoinStore := mkCoinStore {
  store : gmap OutPoint CoinEntry;
  label_store : L;
  spk_to_outpoint : gmap script (gset OutPoint);
  address_store : AddressStore.AddressStore (A:=A);
  tx_store : S;
  spk_history : gmap script (list history);
  updates : list Update;
  derivator : SpkDerivator;
  account : string;
  generated : bool;
  origin : option Notification.CoinOrigin;
  pending_claims : claims;
  merkle_in_flight : gset ClaimAt;
  header_scanner : bool
}.

Definition set_store (m : gmap OutPoint CoinEntry) (o : gmap script (gset OutPoint))
    (s : CoinStore) : CoinStore :=
  mkCoinStore m (label_store s) o (address_store s) (tx_store s) (spk_history s) (updates s)
    (derivator s) (account s) (generated s) (origin s) (pending_claims s) (merkle_in_flight s)
    (header_scanner s).
Definition set_address_store (a : AddressStore.AddressStore) (s : CoinStore) : CoinStore :=
  mkCoinStore (store s) (label_store s) (spk_to_outpoint s) a (tx_store s) (spk_history s)
    (updates s) (derivator s) (account s) (generated s) (origin s) (pending_claims s)
    (merkle_in_flight s) (header_scanner s).
Definition set_tx_store (t : S) (s : CoinStore) : CoinStore :=
  mkCoinStore (store s) (label_store s) (spk_to_outpoint s) (address_store s) t (spk_history s)
    (updates s) (derivator s) (account s) (generated s) (origin s) (pending_claims s)
    (merkle_in_flight s) (header_scanner s).
Definition set_spk_history (h : gmap script (list history)) (s : CoinStore) : CoinStore :=
  mkCoinStore (store s) (label_store s) (spk_to_outpoint s) (address_store s) (tx_store s) h
    (updates s) (derivator s) (account s) (generated s) (origin s) (pending_claims s)
    (merkle_in_flight s) (header_scanner s).
Definition set_updates (u : list Update) (s : CoinStore) : CoinStore :=
  mkCoinStore (store s) (label_store s) (spk_to_outpoint s) (address_store s) (tx_store s)
    (spk_history s) u (derivator s) (account s) (generated s) (origin s) (pending_claims s)
    (merkle_in_flight s) (header_scanner s).
Definition set_generated (s : CoinStore) : CoinStore :=
  mkCoinStore (store s) (label_store s) (spk_to_outpoint s) (address_store s) (tx_store s)
    (spk_history s) (updates s) (derivator s) (account s) true (origin s) (pending_claims s)
    (merkle_in_flight s) (header_scanner s).
Definition set_origin (o : Notification.CoinOrigin) (s : CoinStore) : CoinStore :=
  mkCoinStore (store s) (label_store s) (spk_to_outpoint s) (address_store s) (tx_store s)
    (spk_history s) (updates s) (derivator s) (account s) (generated s) (Some o) (pending_claims s)
    (merkle_in_flight s) (header_scanner s).
Definition set_claims (m : claims) (f : gset ClaimAt) (s : CoinStore) : CoinStore :=
  mkCoinStore (store s) (label_store s) (spk_to_outpoint s) (address_store s) (tx_store s)
    (spk_history s) (updates s) (derivator s) (account s) (generated s) (origin s) m f
    (header_scanner s).
Definition send (n : Notification.Notification) (s : CoinStore) : CoinStore :=
  set_address_store (AddressStore.send n (address_store s)) s.

(** [CoinStore::new]. *)
Definition new (network : Network) (descriptor : Descriptor) (account : string)
    (recv_tip change_tip look_ahead : N) (tx_store : S) (label_store : L) (account_store : A)
    (header_scanner : bool) : outcome CoinStore :=
  let! r := Derivator.new descriptor network in
  match r with
  | Err _ => Panic
  | Ok d =>
      let! a := AddressStore.with_account_store d recv_tip change_tip look_ahead account_store in
      Ret (mkCoinStore ∅ label_store ∅ a tx_store ∅ [] d account false None ∅ ∅ header_scanner)
  end.

(** ** Generation *)

Definition enumerate {X} (l : list X) : list (nat * X) := imap pair l.

(** One output of one transaction: a coin when its script is one of the wallet's. *)
Definition receive_output (s : CoinStore) (satisfaction : N) (entry : TxEntry)
    (coins : gmap OutPoint CoinEntry) (o : nat * TxOut) : outcome (gmap OutPoint CoinEntry) :=
  let '(vout, txout) := o in
  match AddressStore.get_entry (address_store s) (script_pubkey txout) with
  | None => Ret coins
  | Some addr =>
      let outpoint := mkOutPoint (entry_txid entry) (N.of_nat vout) in
      let! a := address_at (derivator s) (AddressStore.account addr) (AddressStore.index addr) in
      if decide (address_script a = script_pubkey txout) then
        let coin :=
          Coin.mkCoin txout outpoint (entry_height entry) 0
            (coin_status (inclusion entry) (header_scanner s))
            (label_outpoint (label_store s) outpoint) satisfaction
            (Coin.Bip32 (AddressStore.account addr, AddressStore.index addr)
               (descriptor (derivator s))) in
        Ret (<[outpoint := mkCoinEntry coin (AddressStore.address addr)]> coins)
      else Panic
  end.
Definition received_coins (s : CoinStore) (satisfaction : N) : outcome (gmap OutPoint CoinEntry) :=
  ofold (λ coins kv, ofold (receive_output s satisfaction kv.2) coins (enumerate (output (tx kv.2))))
    ∅ (iter (tx_store s)).

(** [entry(k).or_default().insert(x)]. *)
Definition add_to {X} `{Countable X} (k : script) (x : X) (m : gmap script (gset X)) :
    gmap script (gset X) := <[k := {[x]} ∪ default ∅ (m !! k)]> m.

(** One input: the coin it spends is spent, by that transaction. *)
Definition spend_input (txid : Txid)
    (acc : gmap OutPoint CoinEntry * gmap script (gset Txid)) (inp : TxIn) :
    gmap OutPoint CoinEntry * gmap script (gset Txid) :=
  match acc.1 !! previous_output inp with
  | None => acc
  | Some ce =>
      (<[previous_output inp := set_coin_status Coin.Spent ce]> acc.1, add_to (ce_spk ce) txid acc.2)
  end.
Definition spend_coins (s : CoinStore) (coins : gmap OutPoint CoinEntry) :
    gmap OutPoint CoinEntry * gmap script (gset Txid) :=
  foldl (λ acc kv, foldl (spend_input kv.1) acc (input (tx kv.2))) (coins, ∅) (iter (tx_store s)).

Definition outpoints_by_spk (coins : gmap OutPoint CoinEntry) : gmap script (gset OutPoint) :=
  foldl (λ m kv, add_to (ce_spk kv.2) kv.1 m) ∅ (bt_items coins).
Definition funding_by_spk (coins : gmap OutPoint CoinEntry) : gmap script (gset Txid) :=
  foldl (λ m kv, add_to (ce_spk kv.2) (op_txid kv.1) m) ∅ (bt_items coins).
Definition label_coins (s : CoinStore) (coins : gmap OutPoint CoinEntry) : gmap OutPoint CoinEntry :=
  map_imap (λ op ce, Some (set_coin_label (label_get (label_store s) (LOutPoint op)) ce)) coins.

(** The status and the transactions of the address of each script that has coins. *)
Definition status_of_count (n : nat) : AddressStore.AddressStatus :=
  match n with
  | 0 => AddressStore.NotUsed
  | 1 => AddressStore.Used
  | _ => AddressStore.Reused
  end%nat.
Definition update_statuses (by_spk : gmap script (gset OutPoint))
    (funding spending : gmap script (gset Txid)) (a : AddressStore.AddressStore (A:=A)) :
    AddressStore.AddressStore :=
  foldl (λ a kv,
    AddressStore.get_entry_mut kv.1 (λ e,
      AddressStore.set_spending_txids (default ∅ (spending !! kv.1))
        (AddressStore.set_funding_txids (default ∅ (funding !! kv.1))
           (AddressStore.set_status (status_of_count (size kv.2)) e))) a)
    a (bt_items by_spk).

(** [populate_tx_metadata]. *)
Definition all_txouts (l : list TxEntry) : gmap OutPoint TxOut :=
  foldl (λ m e, foldl (λ m o, <[mkOutPoint (entry_txid e) (N.of_nat o.1) := o.2]> m) m
    (enumerate (output (tx e)))) ∅ l.
Definition output_metadata (a : AddressStore.AddressStore (A:=A)) (t : Transaction) :
    gmap nat OutputMetadata :=
  list_to_map ((λ o, (o.1, mkOutputMetadata (AddressStore.contains_spk a (script_pubkey o.2)))) <$>
    enumerate (output t)).
Definition input_metadata (a : AddressStore.AddressStore (A:=A)) (txouts : gmap OutPoint TxOut)
    (t : Transaction) : gmap nat InputMetadata :=
  list_to_map ((λ i,
    (i.1, match txouts !! previous_output i.2 with
          | None => mkInputMetadata None false
          | Some txout =>
              let owned := AddressStore.contains_spk a (script_pubkey txout) in
              mkInputMetadata (if owned then Some (txout_value txout) else None) owned
          end)) <$> enumerate (input t)).
Definition populate_entry (a : AddressStore.AddressStore (A:=A)) (txouts : gmap OutPoint TxOut)
    (t : S) (e : TxEntry) : S :=
  let o := output_metadata a (tx e) in
  let i := input_metadata a txouts (tx e) in
  if decide (outputs e = o ∧ inputs e = i) then t else update (set_metadata i o e) t.
Definition populate_tx_metadata (s : CoinStore) : CoinStore :=
  let l := transactions (tx_store s) in
  set_tx_store (foldl (populate_entry (address_store s) (all_txouts l)) (tx_store s) l) s.

(** The per-coin notifications. *)
Definition coin_received (s : CoinStore) (outpoint : OutPoint) (e : CoinEntry) :
    Notification.Notification :=
  let amount := txout_value (Coin.txout (coin e)) in
  match origin s with
  | Some o => Notification.SpEvent
                (Notification.SubAccountCoinReceived o outpoint amount (ce_height e))
  | None => Notification.CoinReceived (account s) outpoint amount (ce_height e)
  end.
Definition coin_spent (s : CoinStore) (outpoint : OutPoint) : Notification.Notification :=
  match origin s with
  | Some o => Notification.SpEvent (Notification.SubAccountCoinSpent o outpoint)
  | None => Notification.CoinSpent (account s) outpoint
  end.
Definition coin_events (s : CoinStore) (previous : gmap OutPoint CoinEntry) :
    list Notification.Notification :=
  flat_map (λ kv,
    (match previous !! kv.1 with None => [coin_received s kv.1 kv.2] | Some _ => [] end) ++
    (if is_spent kv.2 && negb (match previous !! kv.1 with Some b => is_spent b | None => false end)
     then [coin_spent s kv.1] else [])) (bt_items (store s)) ++
  flat_map (λ kv,
    if bool_decide (store s !! kv.1 = None) && negb (is_spent kv.2)
    then [coin_spent s kv.1] else []) (bt_items previous).

Definition generate (s : CoinStore) : outcome CoinStore :=
  let! satisfaction := Coin.max_input_satisfaction_size (descriptor (derivator s)) in
  let! coins := received_coins s satisfaction in
  let '(coins, spending) := spend_coins s coins in
  let by_spk := outpoints_by_spk coins in
  let funding := funding_by_spk coins in
  let coins := label_coins s coins in
  let previous := store s in
  let s := set_store coins by_spk s in
  let s := set_address_store (update_statuses by_spk funding spending (address_store s)) s in
  let s := populate_tx_metadata s in
  let s := set_tx_store (persist (tx_store s)) s in
  let events := if generated s then coin_events s previous else [] in
  let s := set_generated s in
  Ret (foldl (λ s n, send n s) s (events ++ [Notification.CoinUpdate])).

(** ** Handlers *)

Definition recv_watch_tip (s : CoinStore) : outcome N := AddressStore.recv_watch_tip (address_store s).
Definition change_watch_tip (s : CoinStore) : outcome N := AddressStore.change_watch_tip (address_store s).
Definition recv_tip (s : CoinStore) : N := AddressStore.recv_tip (address_store s).
Definition address_info (s : CoinStore) (spk : script) : option AddressStore.AddressEntry :=
  AddressStore.get_entry (address_store s) spk.

Definition init (s : CoinStore) : outcome CoinStore :=
  let! a := AddressStore.init (address_store s) in Ret (set_address_store a s).
Definition recv_coin_at (spk : script) (s : CoinStore) : outcome CoinStore :=
  let! a := AddressStore.recv_coin_at spk (address_store s) in Ret (set_address_store a s).
Definition new_recv_addr (s : CoinStore) : outcome (CoinStore * Address) :=
  let! r := AddressStore.new_recv_addr (address_store s) in
  let! s := generate (set_address_store r.1 s) in
  Ret (s, r.2).
Definition new_change_addr (s : CoinStore) : outcome (CoinStore * Address) :=
  let! r := AddressStore.new_change_addr (address_store s) in
  let! s := generate (set_address_store r.1 s) in
  Ret (s, r.2).
(** [ChangeTipUpdater::next_index]. *)
Definition next_index (s : CoinStore) : outcome (CoinStore * N) :=
  let! r := AddressStore.next_change_index (address_store s) in
  let! s := generate (set_address_store r.1 s) in
  Ret (s, r.2).

(** The confirmed entries with no timestamp whose block time is known. *)
Definition stamp_confirmation_times (block_time : N → option N) (s : CoinStore) : CoinStore :=
  let stamp := omap (λ kv,
    match timestamp kv.2 with
    | Some _ => None
    | None => h ← entry_height kv.2; time ← block_time h; Some (kv.1, time)
    end) (iter (tx_store s)) in
  match stamp with
  | [] => s
  | _ =>
      let t := foldl (λ t kv, update_timestamp kv.1 kv.2 t) (tx_store s) stamp in
      set_tx_store (persist t) s
  end.

(** [merkle_in_flight.retain(|claim| claim.txid != txid)]. *)
Definition retain_in_flight (f : gset ClaimAt) (txid : Txid) : gset ClaimAt :=
  filter (λ c, claim_txid c ≠ txid) f.

Definition update_spk_history (spk : script) (hist : list (Txid * option N)) (s : CoinStore) :
    outcome (CoinStore * (bool * Update)) :=
  let! r := spk_history_insert hist (default spk_history_new (spk_history s !! spk)) in
  let '(h, diff) := r in
  let s := set_spk_history (<[spk := h]> (spk_history s)) s in
  let gone := bt_keys (removed diff) in
  let moved := bt_keys (changed diff) in
  let t := foldl (λ t txid, remove txid t) (tx_store s) gone in
  let t := foldl (λ t txid, update_inclusion txid Unconfirmed t) t moved in
  let claims := foldl (λ m txid, drop_all_pending_claims txid m) (pending_claims s) moved in
  let flight := foldl retain_in_flight (merkle_in_flight s) (gone ++ moved) in
  Ret (set_claims claims flight (set_tx_store t s),
       (negb (bool_decide (changed diff = ∅)), update_from_diff spk diff)).

(** The heights the server reported, those that fit [u32]. *)
Definition reported_claims (hist : list (Txid * option N)) : list ClaimAt :=
  omap (λ th,
    match th.2 with
    | Some h => if h <? 2 ^ 32 then Some (mkClaimAt th.1 h) else None
    | None => None
    end) hist.

Record HistoryOutcome := mkHistoryOutcome {
  height_updated : bool;
  missing_txs : list Txid;
  reported : list ClaimAt
}.

(** The transactions that are already in the store. *)
Definition prefill (t : S) (u : Update) : Update :=
  mkUpdate (upd_spk u) ((λ x, match inner_get t x.1 with Some tx => (x.1, Some tx) | None => x end)
    <$> upd_txs u).
(** Complete updates go to the store, the others are kept. *)
Definition apply_complete (t : S) (us : list Update) : S * list Update :=
  foldl (λ acc u, if is_complete u then (insert_updates [u] acc.1, acc.2) else (acc.1, acc.2 ++ [u]))
    (t, []) us.

Definition fold_history (hist : list (script * list (Txid * option N))) (s : CoinStore) :
    outcome (CoinStore * list (bool * Update)) :=
  ofold (λ acc kv,
    let! s := recv_coin_at kv.1 acc.1 in
    let! r := update_spk_history kv.1 kv.2 s in
    Ret (r.1, acc.2 ++ [r.2])) (s, []) hist.

Definition handle_history_response (hist : gmap script (list (Txid * option N))) (s : CoinStore) :
    outcome (CoinStore * HistoryOutcome) :=
  let! recv := recv_watch_tip s in
  let! change := change_watch_tip s in
  let! r := fold_history (bt_items hist) s in
  let '(s, us) := r in
  let filled := prefill (tx_store s) <$> us.*2 in
  let missing := flat_map missing filled in
  let '(t, rest) := apply_complete (tx_store s) filled in
  let s := set_updates (updates s ++ rest) (set_tx_store t s) in
  let! recv' := recv_watch_tip s in
  let! change' := change_watch_tip s in
  let! s := if (recv' =? recv) && (change' =? change) then Ret s else generate s in
  Ret (s, mkHistoryOutcome (existsb fst us) missing
            (flat_map (λ kv, reported_claims kv.2) (bt_items hist))).

(** A received transaction fills the places that wait for it. *)
Definition fill_update (new_tx : Transaction) (u : Update) : Update :=
  mkUpdate (upd_spk u) ((λ x,
    if bool_decide (x.1 = compute_txid new_tx) && bool_decide (x.2 = None)
    then (x.1, Some new_tx) else x) <$> upd_txs u).
Definition handle_txs_response (txs : list Transaction) (s : CoinStore) : outcome CoinStore :=
  let us := foldl (λ us tx, fill_update tx <$> us) (updates s) txs in
  let '(t, rest) := apply_complete (tx_store s) us in
  generate (set_updates rest (set_tx_store t s)).

Definition record_unconfirmed_tx (tx : Transaction) (s : CoinStore) : outcome CoinStore :=
  let owns_input := existsb (λ i, bool_decide (is_Some (store s !! previous_output i))) (input tx) in
  let owns_output :=
    existsb (λ o, AddressStore.contains_spk (address_store s) (script_pubkey o)) (output tx) in
  if negb owns_input && negb owns_output then Ret s
  else
    generate (match get (tx_store s) (compute_txid tx) with
              | None => set_tx_store (update (unconfirmed tx) (tx_store s)) s
              | Some _ => s
              end).

(** ** Views *)

Definition get_by_status (s : CoinStore) (st : Coin.CoinStatus) : list CoinEntry :=
  List.filter (λ e, bool_decide (Coin.status (coin e) = st)) (bt_values (store s)).

Record CoinState := mkCoinState {
  state_coins : gmap OutPoint Coin.Coin;
  confirmed_coins : nat;
  confirmed_balance : N;
  unconfirmed_coins : nat;
  unconfirmed_balance : N
}.
Definition is_spendable (e : CoinEntry) : bool :=
  match Coin.status (coin e) with Coin.Spent => false | _ => true end.
Definition count_coin (st : CoinState) (e : CoinEntry) : outcome CoinState :=
  let v := txout_value (Coin.txout (coin e)) in
  match Coin.status (coin e) with
  | Coin.Unconfirmed =>
      let! b := add64 (unconfirmed_balance st) v in
      Ret (mkCoinState (state_coins st) (confirmed_coins st) (confirmed_balance st)
             (Datatypes.S (unconfirmed_coins st)) b)
  | Coin.Confirmed | Coin.ConfirmedUnverified =>
      let! b := add64 (confirmed_balance st) v in
      Ret (mkCoinState (state_coins st) (Datatypes.S (confirmed_coins st)) b (unconfirmed_coins st)
             (unconfirmed_balance st))
  | Coin.BeingSpend | Coin.Spent => Ret st
  end.
Definition spendable_coins (s : CoinStore) : outcome CoinState :=
  let l := sort_by (λ a b, key_leb (Coin.outpoint (coin a)) (Coin.outpoint (coin b)))
             (List.filter is_spendable (bt_values (store s))) in
  let! st := ofold count_coin (mkCoinState ∅ 0 0 0 0) l in
  Ret (mkCoinState (foldl (λ m e, <[Coin.outpoint (coin e) := coin e]> m) ∅ l)
         (confirmed_coins st) (confirmed_balance st) (unconfirmed_coins st) (unconfirmed_balance st)).

Definition tx_history (s : CoinStore) : list TxEntry := transactions (tx_store s).
Definition payment_status (s : CoinStore) (e : TxEntry) : PaymentStatus :=
  let status :=
    match pending_claim_height (pending_claims s) (entry_txid e) with
    | Some _ => PConfirmedUnverified
    | None => payment_status_from (inclusion e)
    end in
  match status with
  | PConfirmedUnverified => if header_scanner s then status else PVerified
  | _ => status
  end.
Definition spks_with_unconfirmed_txs (s : CoinStore) : list script :=
  let unconfirmed : gset Txid := list_to_set
    (omap (λ kv, match inclusion kv.2 with Unconfirmed => Some kv.1 | _ => None end)
       (iter (tx_store s))) in
  if decide (unconfirmed = ∅) then []
  else
    sort_by key_leb (elements (list_to_set (omap (λ kv,
      if bool_decide (op_txid kv.1 ∈ unconfirmed) then Some (ce_spk kv.2) else None)
      (bt_items (store s))) : gset script)).

(** ** Claims *)

Definition clear_merkle_in_flight (claim : ClaimAt) (s : CoinStore) : CoinStore :=
  set_claims (pending_claims s) (merkle_in_flight s ∖ {[claim]}) s.

Definition update_in_flight (s : CoinStore) (txid : Txid) : bool :=
  existsb (λ u, existsb (λ x, x.1 =? txid) (upd_txs u)) (updates s).

Definition snapshot_inclusions (s : CoinStore) : list (Txid * Inclusion) :=
  (λ kv, (kv.1, inclusion kv.2)) <$> iter (tx_store s).

Definition confirmed_unverified_claims (s : CoinStore) : list ClaimAt :=
  omap (λ ti, match ti.2 with
              | ConfirmedUnverified height _ => Some (mkClaimAt ti.1 height)
              | _ => None
              end) (snapshot_inclusions s).

(** One reported claim. *)
Definition record_claim (s : CoinStore) (claim : ClaimAt) : CoinStore :=
  let m := prune_pending_claim claim (pending_claims s) in
  let m :=
    match inclusion <$> get (tx_store s) (claim_txid claim) with
    | Some Unconfirmed | None => insert_pending_claim claim m
    | Some _ => m
    end in
  set_claims m (merkle_in_flight s) s.
Definition record_reported_heights (l : list ClaimAt) (s : CoinStore) : CoinStore * bool :=
  let s' := foldl record_claim s l in
  (s', negb (bool_decide (pending_claims s = pending_claims s'))).

(** [to_fetch] and [changed] accumulate beside the store. *)
Record ChainUpdate := mkChainUpdate { cu_store : CoinStore; to_fetch : list ClaimAt; cu_changed : bool }.

(** [promote_claim] with the caller's bookkeeping: the entry at [claim] is
    stamped with [hash] and its proof asked for. *)
Definition promote_claim (claim : ClaimAt) (hash : BlockHash) (s : CoinStore) : CoinStore :=
  set_claims (pending_claims s) ({[claim]} ∪ merkle_in_flight s)
    (set_tx_store (update_inclusion (claim_txid claim)
       (ConfirmedUnverified (claim_height claim) hash) (tx_store s)) s).

Section with_headers.
Context `{HeaderValidator.HeaderLib} {SH : Type} `{!Store SH N HeaderValidator.raw_header}.

Definition reverify_entry (hs : HeaderStore.HeaderStore (S:=SH)) (u : ChainUpdate)
    (ti : Txid * Inclusion) : ChainUpdate :=
  let s := cu_store u in
  match ti.2 with
  | ConfirmedUnverified height block_hash =>
      let claim := mkClaimAt ti.1 height in
      match HeaderStore.store_block_hash hs height with
      | None => u
      | Some current =>
          if current =? block_hash then
            if bool_decide (claim ∈ merkle_in_flight s) then u
            else mkChainUpdate (set_claims (pending_claims s) ({[claim]} ∪ merkle_in_flight s) s)
                   (to_fetch u ++ [claim]) (cu_changed u)
          else if bool_decide (claim ∈ merkle_in_flight s) then u
          else mkChainUpdate (promote_claim claim current s) (to_fetch u ++ [claim]) true
      end
  | Verified height block_hash | VerifyFailed height block_hash =>
      match HeaderStore.store_block_hash hs height with
      | Some current =>
          if current =? block_hash then u
          else
            let claim := mkClaimAt ti.1 height in
            mkChainUpdate (promote_claim claim current s) (to_fetch u ++ [claim]) true
      | None => u
      end
  | Unconfirmed => u
  end.
Definition reverify_remined_entries (hs : HeaderStore.HeaderStore (S:=SH)) (s : CoinStore) : ChainUpdate :=
  foldl (reverify_entry hs) (mkChainUpdate s [] false) (snapshot_inclusions s).

(** One queued claim, and whether it leaves the queue. *)
Definition resolve_claim (hs : HeaderStore.HeaderStore (S:=SH)) (acc : ChainUpdate * list ClaimAt)
    (claim : ClaimAt) : ChainUpdate * list ClaimAt :=
  let '(u, to_remove) := acc in
  let s := cu_store u in
  let h := claim_height claim in
  let hash := HeaderStore.store_block_hash hs h in
  let header_ready :=
    match HeaderStore.tip hs with Some t => h <=? t | None => false end && bool_decide (is_Some hash) in
  match inclusion <$> get (tx_store s) (claim_txid claim) with
  | None => if update_in_flight s (claim_txid claim) then acc else (u, to_remove ++ [claim])
  | Some Unconfirmed =>
      if header_ready then
        match hash with
        | Some hash =>
            (mkChainUpdate (promote_claim claim hash s) (to_fetch u ++ [claim]) true,
             to_remove ++ [claim])
        | None => (u, to_remove ++ [claim])
        end
      else acc
  | Some (ConfirmedUnverified _ _) | Some (Verified _ _) | Some (VerifyFailed _ _) =>
      (u, to_remove ++ [claim])
  end.
Definition queued_claims (m : claims) : list ClaimAt :=
  flat_map (λ kv, (λ txid, mkClaimAt txid kv.1) <$> sort_by key_leb (elements kv.2)) (bt_items m).
Definition resolve_pending_claims (hs : HeaderStore.HeaderStore (S:=SH)) (s : CoinStore) : ChainUpdate :=
  let '(u, to_remove) :=
    foldl (resolve_claim hs) (mkChainUpdate s [] false, []) (queued_claims (pending_claims s)) in
  let s := cu_store u in
  mkChainUpdate
    (set_claims (foldl (λ m c, remove_pending_claim c m) (pending_claims s) to_remove)
       (merkle_in_flight s) s)
    (to_fetch u) (cu_changed u).

Definition confirm_claim (height : N) (header : HeaderValidator.Header) (acc : CoinStore * bool)
    (txid : Txid) : CoinStore * bool :=
  let '(s, ch) := acc in
  let drop s := set_claims (remove_pending_claim (mkClaimAt txid height) (pending_claims s))
                  (merkle_in_flight s) s in
  match inclusion <$> get (tx_store s) txid with
  | None => if update_in_flight s txid then acc else (drop s, ch)
  | Some Unconfirmed =>
      let t := update_inclusion txid (ConfirmedUnverified height (HeaderValidator.block_hash header)) (tx_store s) in
      let t := update_timestamp txid (HeaderValidator.time header) t in
      (drop (set_tx_store t s), true)
  | Some _ => (drop s, ch)
  end.
Definition confirm_pending_claims (reported_height : N) (header : HeaderValidator.Header)
    (s : CoinStore) : CoinStore * bool :=
  match pending_claims s !! reported_height with
  | None => (s, false)
  | Some txids =>
      foldl (confirm_claim reported_height header) (s, false) (sort_by key_leb (elements txids))
  end.
End with_headers.
End coin_store.

(** ** Generation, exactly *)

Section generation.
Context `{Build} `{DescriptorLib} `{Tip.TipCodec}.
Context {A : Type} `{!Store A string bytes}.
Context {S : Type} `{!Store S Txid TxEntry} `{!StoreLaws S Txid TxEntry} `{!StoreTotal S Txid TxEntry}.
Context {L : Type} `{!Store L LabelKey string}.
Implicit Types s : CoinStore (A:=A) (S:=S) (L:=L).
Implicit Types T : gmap Txid TxEntry.

(** Every transaction is stored under its own id. *)
Definition keyed T : Prop := ∀ txid e, T !! txid = Some e → entry_txid e = txid.

(** The outpoints a transaction of the store spends. *)
Definition spends T : list (Txid * OutPoint) :=
  flat_map (λ kv, (λ i, (kv.1, previous_output i)) <$> input (tx kv.2)) (bt_items T).
Definition spent T (op : OutPoint) : bool := bool_decide (op ∈ (spends T).*2).

Lemma elem_of_spends T txid op :
  (txid, op) ∈ spends T ↔ ∃ e, T !! txid = Some e ∧ op ∈ previous_output <$> input (tx e).
Proof.
  unfold spends. rewrite elem_of_flat_map. split.
  - intros ([txid' e] & (i & [= -> ->] & Hi)%list_elem_of_fmap & He%elem_of_bt_items).
    exists e. split; [done|]. apply list_elem_of_fmap. eauto.
  - intros (e & He & (i & -> & Hi)%list_elem_of_fmap). exists (txid, e).
    rewrite elem_of_bt_items. split; [|done]. apply list_elem_of_fmap. eauto.
Qed.

Lemma elem_of_enumerate {X} (l : list X) i x : (i, x) ∈ enumerate l ↔ l !! i = Some x.
Proof.
  unfold enumerate. rewrite elem_of_lookup_imap. split.
  - by intros (j & y & [= -> ->] & Hj).
  - intros Hi. by exists i, x.
Qed.

(** The coin an output is, before it is known to be spent. *)
Definition coin_at s (satisfaction : N) (e : TxEntry) (o : nat * TxOut) :
    option (OutPoint * CoinEntry) :=
  a ← AddressStore.get_entry (address_store s) (script_pubkey o.2);
  let op := mkOutPoint (entry_txid e) (N.of_nat o.1) in
  Some (op, mkCoinEntry
    (Coin.mkCoin o.2 op (entry_height e) 0 (coin_status (inclusion e) (header_scanner s))
       (label_outpoint (label_store s) op) satisfaction
       (Coin.Bip32 (AddressStore.account a, AddressStore.index a) (descriptor (derivator s))))
    (AddressStore.address a)).

(** The address store's entries are those of the coin store's derivator. *)
Definition addressed s : Prop := AddressStore.addresses_ok (derivator s) (address_store s).

Lemma receive_output_ret s sat e coins o :
  addressed s →
  receive_output s sat e coins o =
    Ret (match coin_at s sat e o with Some c => <[c.1 := c.2]> coins | None => coins end).
Proof.
  intros Hs. destruct o as [vout o]. unfold receive_output, coin_at. simpl.
  destruct (AddressStore.get_entry _ _) as [a|] eqn:Ha; simpl; [|done].
  destruct (AddressStore.ao_sound _ _ Hs _ _ Ha) as (_ & _ & Hder & Hscript).
  rewrite Hder. simpl. by rewrite decide_True.
Qed.

Definition all_coins s (sat : N) : list (OutPoint * CoinEntry) :=
  flat_map (λ kv, omap (coin_at s sat kv.2) (enumerate (output (tx kv.2)))) (iter (tx_store s)).

Lemma received_coins_ret s sat :
  addressed s →
  received_coins s sat = Ret (foldl (λ m kv, <[kv.1 := kv.2]> m) ∅ (all_coins s sat)).
Proof.
  intros Hs. unfold received_coins, all_coins. rewrite <-foldl_flat_map. apply ofold_ret.
  intros coins kv _. rewrite <-foldl_omap. apply ofold_ret. intros. by apply receive_output_ret.
Qed.

(** What a coin of the wallet is: an output of a stored transaction paying one of
    its addresses. *)
Definition is_output s (op : OutPoint) (e : TxEntry) (o : TxOut) (a : AddressStore.AddressEntry) : Prop :=
  txs (tx_store s) !! op_txid op = Some e ∧
  output (tx e) !! N.to_nat (op_vout op) = Some o ∧
  AddressStore.store (address_store s) !! script_pubkey o = Some a.

Lemma elem_of_all_coins s sat op ce :
  keyed (txs (tx_store s)) →
  (op, ce) ∈ all_coins s sat ↔
  ∃ e o a, is_output s op e o a ∧
    coin_at s sat e (N.to_nat (op_vout op), o) = Some (op, ce).
Proof.
  intros Hk. unfold all_coins. rewrite elem_of_flat_map, iter_txs. split.
  - intros ([txid e] & ([i o] & Ho%elem_of_enumerate & Hc)%list_elem_of_omap & He%elem_of_bt_items).
    simpl in *. unfold coin_at in Hc |- *. simpl in Hc.
    destruct (AddressStore.get_entry _ _) as [a|] eqn:Ha; [|done]. simpl in Hc.
    injection Hc as <- <-. simpl. exists e, o, a. unfold is_output. simpl.
    rewrite (Hk _ _ He), Nat2N.id, Ha. done.
  - intros (e & o & a & (He & Ho & Ha) & Hc). exists (op_txid op, e).
    rewrite elem_of_bt_items. split; [|done]. apply list_elem_of_omap.
    exists (N.to_nat (op_vout op), o). by rewrite elem_of_enumerate.
Qed.

Lemma received_coins_spec s sat :
  addressed s → keyed (txs (tx_store s)) →
  ∃ m, received_coins s sat = Ret m ∧
    ∀ op ce, m !! op = Some ce ↔
      ∃ e o a, is_output s op e o a ∧ coin_at s sat e (N.to_nat (op_vout op), o) = Some (op, ce).
Proof.
  intros Hs Hk. rewrite received_coins_ret by done. eexists. split; [done|]. intros op ce.
  rewrite foldl_insert_functional, lookup_empty, elem_of_all_coins; [naive_solver|done|].
  intros op' c c'. rewrite !elem_of_all_coins by done.
  intros (e & o & a & (He & Ho & Ha) & Hc) (e' & o' & a' & (He' & Ho' & Ha') & Hc').
  simplify_eq. congruence.
Qed.

(** Sets collected per script. *)
Lemma collect_sets {X} `{Countable X} (l : list (script * X)) (m : gmap script (gset X)) k x :
  x ∈ default ∅ (foldl (λ m kx, add_to kx.1 kx.2 m) m l !! k) ↔
  (k, x) ∈ l ∨ x ∈ default ∅ (m !! k).
Proof.
  revert m; induction l as [|[k0 x0] l IH]; intros m; cbn [foldl fst snd]; [set_solver|].
  rewrite IH. unfold add_to. destruct (decide (k = k0)) as [->|Hne].
  - rewrite lookup_insert_eq. simpl. set_solver.
  - rewrite lookup_insert_ne by done. set_solver.
Qed.
Lemma collect_sets_dom {X} `{Countable X} (l : list (script * X)) (m : gmap script (gset X)) k :
  is_Some (foldl (λ m kx, add_to kx.1 kx.2 m) m l !! k) ↔ k ∈ l.*1 ∨ is_Some (m !! k).
Proof.
  revert m; induction l as [|[k0 x0] l IH]; intros m; cbn [foldl fst snd]; [set_solver|].
  rewrite IH. unfold add_to. destruct (decide (k = k0)) as [->|Hne].
  - rewrite lookup_insert_eq. set_solver.
  - rewrite lookup_insert_ne by done. set_solver.
Qed.

Lemma ce_spk_status st e : ce_spk (set_coin_status st e) = ce_spk e.
Proof. done. Qed.

(** The inputs, one by one. *)
Definition spend_one (acc : gmap OutPoint CoinEntry * gmap script (gset Txid)) (x : Txid * OutPoint) :
    gmap OutPoint CoinEntry * gmap script (gset Txid) :=
  match acc.1 !! x.2 with
  | None => acc
  | Some ce => (<[x.2 := set_coin_status Coin.Spent ce]> acc.1, add_to (ce_spk ce) x.1 acc.2)
  end.
Lemma spend_coins_fold s coins :
  spend_coins s coins = foldl spend_one (coins, ∅) (spends (txs (tx_store s))).
Proof.
  unfold spend_coins, spends. rewrite <-foldl_flat_map, iter_txs. apply foldl_ext_elem.
  intros acc kv _. rewrite foldl_fmap. done.
Qed.

Lemma spend_fold_coins l coins sp op :
  (foldl spend_one (coins, sp) l).1 !! op =
    if bool_decide (op ∈ l.*2) then set_coin_status Coin.Spent <$> coins !! op else coins !! op.
Proof.
  revert coins sp; induction l as [|[t o] l IH]; intros coins sp; [done|]. cbn [foldl].
  unfold spend_one at 2. simpl. destruct (coins !! o) as [ce|] eqn:Ho.
  - rewrite IH. destruct (decide (op = o)) as [->|Hne].
    + rewrite lookup_insert_eq, Ho. do 2 case_bool_decide; done || set_solver.
    + rewrite lookup_insert_ne by done. do 2 case_bool_decide; set_solver.
  - rewrite IH. destruct (decide (op = o)) as [->|Hne].
    + rewrite Ho. by do 2 case_bool_decide.
    + do 2 case_bool_decide; set_solver.
Qed.

Lemma spend_fold_spending l coins sp spk txid :
  txid ∈ default ∅ ((foldl spend_one (coins, sp) l).2 !! spk) ↔
  txid ∈ default ∅ (sp !! spk) ∨
  ∃ op ce, (txid, op) ∈ l ∧ coins !! op = Some ce ∧ ce_spk ce = spk.
Proof.
  revert coins sp; induction l as [|[t o] l IH]; intros coins sp; cbn [foldl]; [set_solver|].
  unfold spend_one at 2. simpl. destruct (coins !! o) as [ce|] eqn:Ho.
  - rewrite IH. pose proof (collect_sets [(ce_spk ce, t)] sp spk txid) as Hadd.
    cbn [foldl fst snd] in Hadd. rewrite Hadd, list_elem_of_singleton.
    assert (Hl : ∀ op, (∃ c, <[o := set_coin_status Coin.Spent ce]> coins !! op = Some c ∧
      ce_spk c = spk) ↔ (∃ c, coins !! op = Some c ∧ ce_spk c = spk)).
    { intros op. destruct (decide (op = o)) as [->|Hne];
        [rewrite lookup_insert_eq, Ho|by rewrite lookup_insert_ne].
      split; intros (c & [= <-] & Hc); eauto. }
    setoid_rewrite elem_of_cons. split.
    + intros [[[= -> ->]|?]|(op & c & Hin & Hc)]; [right; exists o, ce; naive_solver|by left|].
      right. destruct (proj1 (Hl op)) as (c' & ?); [eauto|]. exists op, c'. naive_solver.
    + intros [?|(op & c & [[= -> ->]|Hin] & Hc)]; [by left; right| |].
      * left. left. destruct Hc as [Hc <-]. congruence.
      * right. destruct (proj2 (Hl op)) as (c' & ?); [eauto|]. exists op, c'. naive_solver.
  - rewrite IH. setoid_rewrite elem_of_cons. split; [naive_solver|].
    intros [?|(op & c & [[= -> ->]|Hin] & Hc & Hs)]; [by left|congruence|].
    right. exists op, c. done.
Qed.

Lemma outpoints_fold coins :
  outpoints_by_spk coins =
    foldl (λ m kx, add_to kx.1 kx.2 m) ∅ ((λ kv, (ce_spk kv.2, kv.1)) <$> bt_items coins).
Proof. by rewrite foldl_fmap. Qed.
Lemma funding_fold coins :
  funding_by_spk coins =
    foldl (λ m kx, add_to kx.1 kx.2 m) ∅ ((λ kv, (ce_spk kv.2, op_txid kv.1)) <$> bt_items coins).
Proof. by rewrite foldl_fmap. Qed.

Lemma elem_of_outpoints coins spk op :
  op ∈ default ∅ (outpoints_by_spk coins !! spk) ↔ ∃ ce, coins !! op = Some ce ∧ ce_spk ce = spk.
Proof.
  rewrite outpoints_fold, collect_sets, list_elem_of_fmap, lookup_empty. split.
  - intros [([o c] & [= -> ->] & Hin%elem_of_bt_items)|Hin]; [eauto|set_solver].
  - intros (c & Hc & <-). left. exists (op, c). by rewrite elem_of_bt_items.
Qed.
Lemma outpoints_dom coins spk :
  is_Some (outpoints_by_spk coins !! spk) ↔ ∃ op ce, coins !! op = Some ce ∧ ce_spk ce = spk.
Proof.
  rewrite outpoints_fold, collect_sets_dom, lookup_empty. split.
  - intros [([k x] & -> & ([o c] & [= -> ->] & Hin%elem_of_bt_items)%list_elem_of_fmap)%list_elem_of_fmap
           |[? ?]]; [eauto|done].
  - intros (op & c & Hc & <-). left. apply list_elem_of_fmap. exists (ce_spk c, op). split; [done|].
    apply list_elem_of_fmap. exists (op, c). by rewrite elem_of_bt_items.
Qed.
Lemma elem_of_funding coins spk txid :
  txid ∈ default ∅ (funding_by_spk coins !! spk) ↔
  ∃ op ce, coins !! op = Some ce ∧ ce_spk ce = spk ∧ op_txid op = txid.
Proof.
  rewrite funding_fold, collect_sets, list_elem_of_fmap, lookup_empty. split.
  - intros [([o c] & [= -> ->] & Hin%elem_of_bt_items)|Hin]; [eauto 10|set_solver].
  - intros (op & c & Hc & <- & <-). left. exists (op, c). by rewrite elem_of_bt_items.
Qed.

(** An entry is rewritten when its script has coins. *)
Lemma update_statuses_lookup by_spk funding spending (a : AddressStore.AddressStore (A:=A)) spk :
  AddressStore.store (update_statuses by_spk funding spending a) !! spk =
    match by_spk !! spk with
    | None => AddressStore.store a !! spk
    | Some ops => (λ e,
        AddressStore.set_spending_txids (default ∅ (spending !! spk))
          (AddressStore.set_funding_txids (default ∅ (funding !! spk))
             (AddressStore.set_status (status_of_count (size ops)) e))) <$> AddressStore.store a !! spk
    end.
Proof.
  unfold update_statuses.
  assert (Hgen : ∀ l, NoDup l.*1 →
    AddressStore.store (foldl (λ a (kv : script * gset OutPoint),
      AddressStore.get_entry_mut kv.1 (λ e,
        AddressStore.set_spending_txids (default ∅ (spending !! kv.1))
        (AddressStore.set_funding_txids (default ∅ (funding !! kv.1))
           (AddressStore.set_status (status_of_count (size kv.2)) e))) a) a l) !! spk =
    match (list_to_map l : gmap script (gset OutPoint)) !! spk with
    | None => AddressStore.store a !! spk
    | Some ops => (λ e,
        AddressStore.set_spending_txids (default ∅ (spending !! spk))
          (AddressStore.set_funding_txids (default ∅ (funding !! spk))
             (AddressStore.set_status (status_of_count (size ops)) e))) <$> AddressStore.store a !! spk
    end).
  { intros l. revert a. induction l as [|[k ops] l IH]; intros a; [done|].
    cbn [foldl fmap list_fmap fst snd list_to_map foldr uncurry]. intros [Hk Hnd]%NoDup_cons.
    rewrite IH by done. simpl. destruct (decide (spk = k)) as [->|Hne].
    - rewrite lookup_insert_eq, (not_elem_of_list_to_map_1 l) by done. by rewrite lookup_alter_eq.
    - by rewrite lookup_insert_ne, !lookup_alter_ne by done. }
  rewrite Hgen by apply NoDup_bt_keys.
  assert ((list_to_map (bt_items by_spk) : gmap _ _) = by_spk) as ->; [|done].
  rewrite <-(list_to_map_to_list by_spk) at 2. apply list_to_map_proper; [apply NoDup_bt_keys|].
  apply bt_items_perm.
Qed.

(** The outputs of the stored transactions. *)
Lemma all_txouts_lookup T op :
  keyed T →
  all_txouts (bt_values T) !! op =
    (e ← T !! op_txid op; output (tx e) !! N.to_nat (op_vout op)).
Proof.
  intros Hk. apply option_eq. intros o. unfold all_txouts.
  rewrite (foldl_ext_elem _ (λ m e, foldl (λ m kv, <[kv.1 := kv.2]> m) m
    ((λ o, (mkOutPoint (entry_txid e) (N.of_nat o.1), o.2)) <$> enumerate (output (tx e))))).
  2:{ intros m e _. by rewrite foldl_fmap. }
  rewrite foldl_flat_map.
  assert (Hin : ∀ op o, (op, o) ∈ flat_map (λ e,
      (λ o, (mkOutPoint (entry_txid e) (N.of_nat o.1), o.2)) <$> enumerate (output (tx e))) (bt_values T)
    ↔ (e ← T !! op_txid op; output (tx e) !! N.to_nat (op_vout op)) = Some o).
  { clear op o. intros op o. rewrite elem_of_flat_map, bind_Some. split.
    - intros (e & ([i x] & [= -> ->] & Hi%elem_of_enumerate)%list_elem_of_fmap & [txid He]%elem_of_bt_values).
      exists e. simpl. by rewrite (Hk _ _ He), Nat2N.id.
    - intros (e & He & Ho). exists e. split.
      + apply list_elem_of_fmap. exists (N.to_nat (op_vout op), o). rewrite elem_of_enumerate.
        split; [|done]. simpl. rewrite (Hk _ _ He), N2Nat.id. by destruct op.
      + apply elem_of_bt_values. eauto. }
  rewrite foldl_insert_functional, Hin, lookup_empty; [naive_solver|].
  intros op' v v'. rewrite !Hin. congruence.
Qed.

(** An entry with its metadata. *)
Definition with_metadata (a : AddressStore.AddressStore (A:=A)) (txouts : gmap OutPoint TxOut)
    (e : TxEntry) : TxEntry :=
  set_metadata (input_metadata a txouts (tx e)) (output_metadata a (tx e)) e.

Lemma populate_entry_txs a txouts (t : S) e :
  txs t !! entry_txid e = Some e →
  txs (populate_entry a txouts t e) = <[entry_txid e := with_metadata a txouts e]> (txs t).
Proof.
  intros He. unfold populate_entry, with_metadata. destruct (decide _) as [[Ho Hi]|Hne].
  - rewrite <-Ho, <-Hi. rewrite insert_id; [done|]. rewrite He. by destruct e.
  - by rewrite update_txs.
Qed.

Lemma populate_fold a txouts l (t : S) :
  NoDup (entry_txid <$> l) → (∀ e, e ∈ l → txs t !! entry_txid e = Some e) →
  (∀ e, e ∈ l → txs (foldl (populate_entry a txouts) t l) !! entry_txid e =
     Some (with_metadata a txouts e)) ∧
  (∀ txid, txid ∉ entry_txid <$> l → txs (foldl (populate_entry a txouts) t l) !! txid = txs t !! txid).
Proof.
  revert t; induction l as [|e l IH]; intros t; [set_solver|].
  cbn [fmap list_fmap foldl]. intros [Hni Hnd]%NoDup_cons Hl.
  pose proof (populate_entry_txs a txouts t e (Hl e ltac:(set_solver))) as Hp.
  destruct (IH (populate_entry a txouts t e) Hnd) as [Hin Hout].
  { intros e' He'. rewrite Hp, lookup_insert_ne; [by apply Hl; set_solver|].
    intros Heq. apply Hni. rewrite Heq. by apply list_elem_of_fmap_2. }
  split.
  - intros e' [->|He']%elem_of_cons; [|by apply Hin]. rewrite Hout by done.
    by rewrite Hp, lookup_insert_eq.
  - intros txid Hn. rewrite Hout by set_solver. rewrite Hp, lookup_insert_ne by set_solver. done.
Qed.

Lemma populate_tx_metadata_txs s :
  keyed (txs (tx_store s)) →
  txs (tx_store (populate_tx_metadata s)) =
    with_metadata (address_store s) (all_txouts (bt_values (txs (tx_store s)))) <$> txs (tx_store s).
Proof.
  intros Hk. unfold populate_tx_metadata. simpl. rewrite transactions_txs.
  set (T := txs (tx_store s)). set (l := bt_values T).
  assert (Hids : entry_txid <$> l = bt_keys T).
  { unfold l, bt_values, bt_keys. rewrite <-list_fmap_compose. apply list_fmap_ext.
    intros i [txid e] Hi. simpl. apply Hk, elem_of_bt_items. by eapply list_elem_of_lookup_2. }
  destruct (populate_fold (address_store s) (all_txouts l) l (tx_store s)) as [Hin Hout].
  { rewrite Hids. apply NoDup_bt_keys. }
  { intros e [txid He]%elem_of_bt_values. rewrite (Hk _ _ He). done. }
  apply map_eq. intros txid. rewrite lookup_fmap. destruct (T !! txid) as [e|] eqn:He.
  - rewrite <-(Hk _ _ He) at 1. rewrite Hin; [done|]. apply elem_of_bt_values. eauto.
  - rewrite Hout; [exact He|]. rewrite Hids, elem_of_bt_keys, He. by intros [? ?].
Qed.

(** ** What [generate] leaves *)

(** The coin of an output, with its final status. *)
Definition owned_coin s (sat : N) (op : OutPoint) (e : TxEntry) (o : TxOut)
    (a : AddressStore.AddressEntry) : CoinEntry :=
  mkCoinEntry
    (Coin.mkCoin o op (entry_height e) 0
       (if spent (txs (tx_store s)) op then Coin.Spent
        else coin_status (inclusion e) (header_scanner s))
       (label_outpoint (label_store s) op) sat
       (Coin.Bip32 (AddressStore.account a, AddressStore.index a) (descriptor (derivator s))))
    (AddressStore.address a).

(** The parts no generation touches. *)
Definition frame s s' : Prop :=
  label_store s' = label_store s ∧ spk_history s' = spk_history s ∧ updates s' = updates s ∧
  derivator s' = derivator s ∧ account s' = account s ∧ origin s' = origin s ∧
  pending_claims s' = pending_claims s ∧ merkle_in_flight s' = merkle_in_flight s ∧
  header_scanner s' = header_scanner s.

Lemma send_fold s l :
  foldl (λ s n, send n s) s l =
    set_address_store (foldl (λ a n, AddressStore.send n a) (address_store s) l) s.
Proof.
  revert s; induction l as [|n l IH]; intros s; simpl; [by destruct s|]. by rewrite IH.
Qed.
Lemma send_fold_addresses (a : AddressStore.AddressStore (A:=A)) l :
  foldl (λ a n, AddressStore.send n a) a l =
    AddressStore.mkAddressStore (AddressStore.store a) (AddressStore.recv_generated_tip a)
      (AddressStore.change_generated_tip a) (AddressStore.derivator a)
      (AddressStore.notification a ++ l) (AddressStore.tx_listener a) (AddressStore.look_ahead a)
      (AddressStore.account_store a).
Proof.
  revert a; induction l as [|n l IH]; intros a; simpl; [rewrite app_nil_r; by destruct a|].
  rewrite IH. simpl. by rewrite <-app_assoc.
Qed.

(** The outpoints of the coins at a script. *)
Definition coins_at s (spk : script) : gset OutPoint :=
  dom (filter (λ kv, ce_spk kv.2 = spk) (store s)).

(** The address entry [e'] of a script tells the coins of [s'] at it: their number
    as a status, the transactions that fund it and those that spend from it. *)
Definition history_exact T s' (spk : script) (e' : AddressStore.AddressEntry) : Prop :=
  AddressStore.status e' = status_of_count (size (coins_at s' spk)) ∧
  (∀ txid, txid ∈ AddressStore.funding_txids e' ↔ ∃ op, op ∈ coins_at s' spk ∧ op_txid op = txid) ∧
  (∀ txid, txid ∈ AddressStore.spending_txids e' ↔ ∃ op, op ∈ coins_at s' spk ∧ (txid, op) ∈ spends T).

(** What becomes of the address entries. *)
Definition addresses_updated T s s' : Prop :=
  (∀ spk, is_Some (AddressStore.store (address_store s') !! spk) ↔
     is_Some (AddressStore.store (address_store s) !! spk)) ∧
  ∀ spk e', AddressStore.store (address_store s') !! spk = Some e' →
    ∃ e, AddressStore.store (address_store s) !! spk = Some e ∧
      AddressStore.address e' = AddressStore.address e ∧
      AddressStore.account e' = AddressStore.account e ∧
      AddressStore.index e' = AddressStore.index e ∧
      (if decide (coins_at s' spk = ∅) then e' = e else history_exact T s' spk e').

Definition same_tips s s' : Prop :=
  AddressStore.derivator (address_store s') = AddressStore.derivator (address_store s) ∧
  AddressStore.recv_generated_tip (address_store s') =
    AddressStore.recv_generated_tip (address_store s) ∧
  AddressStore.change_generated_tip (address_store s') =
    AddressStore.change_generated_tip (address_store s) ∧
  AddressStore.look_ahead (address_store s') = AddressStore.look_ahead (address_store s) ∧
  AddressStore.tx_listener (address_store s') = AddressStore.tx_listener (address_store s) ∧
  AddressStore.account_store (address_store s') = AddressStore.account_store (address_store s).

Record generated_from (sat : N) s s' : Prop := {
  gf_coins op ce : store s' !! op = Some ce ↔
    ∃ e o a, is_output s op e o a ∧ ce = owned_coin s sat op e o a;
  gf_addresses : addresses_updated (txs (tx_store s)) s s';
  gf_tips : same_tips s s';
  gf_txs : txs (tx_store s') =
    with_metadata (address_store s') (all_txouts (bt_values (txs (tx_store s)))) <$> txs (tx_store s);
  gf_frame : frame s s';
  gf_notified : AddressStore.notification (address_store s') =
    AddressStore.notification (address_store s) ++
    (if generated s then coin_events s' (store s) else []) ++ [Notification.CoinUpdate];
  gf_generated : generated s' = true
}.

Lemma elem_of_coins_at s spk op :
  op ∈ coins_at s spk ↔ ∃ ce, store s !! op = Some ce ∧ ce_spk ce = spk.
Proof.
  unfold coins_at. rewrite elem_of_dom. unfold is_Some. setoid_rewrite map_lookup_filter_Some. done.
Qed.

Lemma statuses_tips by_spk funding spending (a : AddressStore.AddressStore (A:=A)) :
  update_statuses by_spk funding spending a =
    AddressStore.set_store (AddressStore.store (update_statuses by_spk funding spending a)) a.
Proof.
  unfold update_statuses. apply (foldl_invariant (λ a', a' = AddressStore.set_store
    (AddressStore.store a') a)); [|by destruct a].
  intros a' kv _ Ha'. rewrite Ha'. done.
Qed.

(** The statuses written from a coin map, read against that map. *)
Lemma update_statuses_spec T s s' coins spending :
  (∀ op, ce_spk <$> store s' !! op = ce_spk <$> coins !! op) →
  (∀ spk txid, txid ∈ default ∅ (spending !! spk) ↔
     ∃ op ce, (txid, op) ∈ spends T ∧ coins !! op = Some ce ∧ ce_spk ce = spk) →
  AddressStore.store (address_store s') = AddressStore.store
    (update_statuses (outpoints_by_spk coins) (funding_by_spk coins) spending (address_store s)) →
  addresses_updated T s s'.
Proof.
  intros Hspk Hsp Hst.
  assert (Hat : ∀ spk op, op ∈ coins_at s' spk ↔ ∃ ce, coins !! op = Some ce ∧ ce_spk ce = spk).
  { intros spk op. rewrite elem_of_coins_at. specialize (Hspk op).
    destruct (store s' !! op), (coins !! op); simpl in Hspk; simplify_eq; naive_solver. }
  unfold addresses_updated. setoid_rewrite Hst. setoid_rewrite update_statuses_lookup. split.
  { intros spk. destruct (outpoints_by_spk coins !! spk); [|done]. by rewrite fmap_is_Some. }
  intros spk e'. destruct (outpoints_by_spk coins !! spk) as [ops|] eqn:Hops.
  - intros (e & He & ->)%fmap_Some. exists e. split_and!; [done..|].
    assert (Hsome : is_Some (outpoints_by_spk coins !! spk)) by (rewrite Hops; eauto).
    assert (ops = coins_at s' spk) as ->.
    { apply set_eq. intros op. rewrite Hat, <-elem_of_outpoints, Hops. reflexivity. }
    rewrite decide_False.
    2:{ apply outpoints_dom in Hsome as (op & ce & Hop). intros Hemp.
        assert (op ∈ coins_at s' spk) by (rewrite Hat; eauto). set_solver. }
    split_and!; [done| |]; intros txid; simpl.
    + rewrite elem_of_funding. setoid_rewrite Hat. naive_solver.
    + rewrite Hsp. setoid_rewrite Hat. naive_solver.
  - intros He. exists e'. split_and!; [done..|]. rewrite decide_True; [done|].
    apply set_eq. intros op. rewrite Hat, <-elem_of_outpoints, Hops. reflexivity.
Qed.

Lemma contains_spk_updated T s s' spk :
  addresses_updated T s s' →
  AddressStore.contains_spk (address_store s') spk = AddressStore.contains_spk (address_store s) spk.
Proof. intros [Hd _]. apply bool_decide_ext, Hd. Qed.

(** A received coin, once marked and labelled. *)
Lemma owned_coin_spec s sat (m : gmap OutPoint CoinEntry) op ce :
  keyed (txs (tx_store s)) →
  (∀ op ce, m !! op = Some ce ↔
     ∃ e o a, is_output s op e o a ∧ coin_at s sat e (N.to_nat (op_vout op), o) = Some (op, ce)) →
  set_coin_label (label_get (label_store s) (LOutPoint op)) <$>
    (if spent (txs (tx_store s)) op then set_coin_status Coin.Spent <$> m !! op else m !! op) = Some ce ↔
  ∃ e o a, is_output s op e o a ∧ ce = owned_coin s sat op e o a.
Proof.
  intros Hk Hm. unfold owned_coin. set (T := txs (tx_store s)). split.
  - intros (c & Hc & ->)%fmap_Some.
    assert (∃ c0, m !! op = Some c0 ∧
      c = if spent T op then set_coin_status Coin.Spent c0 else c0) as (c0 & Hc0 & ->).
    { destruct (spent T op); [|eauto]. by apply fmap_Some in Hc as (c0 & ? & ->); eauto. }
    apply Hm in Hc0 as (e & o & a & Hout & Hat). exists e, o, a. split; [done|].
    unfold coin_at in Hat. destruct Hout as (He & Ho & Haddr).
    unfold AddressStore.get_entry in Hat. simpl in Hat. rewrite Haddr in Hat. simpl in Hat.
    injection Hat as Hop <-. rewrite Hop. by destruct (spent T op).
  - intros (e & o & a & Hout & ->). apply fmap_Some.
    assert (∃ c0, coin_at s sat e (N.to_nat (op_vout op), o) = Some (op, c0)) as [c0 Hat].
    { unfold coin_at, AddressStore.get_entry. simpl. destruct Hout as (He & Ho & ->). simpl.
      eexists. do 2 f_equal. rewrite (Hk _ _ He), N2Nat.id. by destruct op. }
    assert (Hc0 : m !! op = Some c0) by (apply Hm; eauto 10).
    unfold coin_at, AddressStore.get_entry in Hat. destruct Hout as (He & Ho & Haddr).
    simpl in Hat. rewrite Haddr in Hat. simpl in Hat. injection Hat as Hop <-. rewrite Hop in Hc0.
    rewrite Hc0. destruct (spent T op); simpl; eauto.
Qed.

(** The spending transactions per script, read against the marked coins. *)
Lemma spending_spec T (m coins : gmap OutPoint CoinEntry) spending spk txid :
  foldl spend_one (m, ∅) (spends T) = (coins, spending) →
  (∀ op, ce_spk <$> coins !! op = ce_spk <$> m !! op) →
  txid ∈ default ∅ (spending !! spk) ↔
  ∃ op ce, (txid, op) ∈ spends T ∧ coins !! op = Some ce ∧ ce_spk ce = spk.
Proof.
  intros Hfold Hspk. pose proof (spend_fold_spending (spends T) m ∅ spk txid) as Hsp.
  rewrite Hfold, lookup_empty in Hsp. simpl in Hsp. rewrite Hsp.
  assert (Hc : ∀ op, (∃ ce, m !! op = Some ce ∧ ce_spk ce = spk) ↔
    (∃ ce, coins !! op = Some ce ∧ ce_spk ce = spk)).
  { intros op. specialize (Hspk op).
    destruct (coins !! op), (m !! op); simpl in Hspk; simplify_eq; naive_solver. }
  split.
  - intros [?|(op & ce & Hin & Hce)]; [set_solver|].
    destruct (proj1 (Hc op)) as (ce' & ?); [eauto|]. eauto.
  - intros (op & ce & Hin & Hce). right. destruct (proj2 (Hc op)) as (ce' & ?); [eauto|]. eauto.
Qed.

Lemma generate_spec s sat :
  addressed s → keyed (txs (tx_store s)) →
  Coin.max_input_satisfaction_size (descriptor (derivator s)) = Ret sat →
  ∃ s', generate s = Ret s' ∧ generated_from sat s s'.
Proof.
  intros Ha Hk Hsat. unfold generate. rewrite Hsat. simpl.
  destruct (received_coins_spec s sat Ha Hk) as (m & -> & Hm). simpl.
  rewrite spend_coins_fold. set (T := txs (tx_store s)).
  destruct (foldl spend_one (m, ∅) (spends T)) as [coins spending] eqn:Hfold. simpl.
  assert (Hcoins : ∀ op, coins !! op =
    if spent T op then set_coin_status Coin.Spent <$> m !! op else m !! op).
  { intros op. pose proof (spend_fold_coins (spends T) m ∅ op) as Hf. by rewrite Hfold in Hf. }
  eexists. split; [done|]. rewrite send_fold, send_fold_addresses. simpl.
  set (s' := set_address_store _ _).
  assert (Hstore : ∀ op, store s' !! op =
    set_coin_label (label_get (label_store s) (LOutPoint op)) <$> coins !! op).
  { intros op. unfold s', label_coins. simpl. rewrite map_lookup_imap.
    by destruct (coins !! op). }
  assert (Hm_spk : ∀ op, ce_spk <$> coins !! op = ce_spk <$> m !! op).
  { intros op. rewrite Hcoins. destruct (spent T op), (m !! op); done. }
  assert (Hupd : addresses_updated T s s').
  { apply (update_statuses_spec T s s' coins spending); [| |done].
    - intros op. rewrite Hstore. by destruct (coins !! op).
    - intros spk txid. by eapply spending_spec. }
  split.
  - intros op ce. rewrite Hstore, Hcoins. by apply owned_coin_spec.
  - exact Hupd.
  - unfold same_tips, s'. simpl. rewrite statuses_tips. done.
  - unfold s' at 1. simpl. rewrite persist_txs.
    pose proof (populate_tx_metadata_txs (set_address_store (update_statuses (outpoints_by_spk coins)
      (funding_by_spk coins) spending (address_store s))
      (set_store (label_coins s coins) (outpoints_by_spk coins) s)) Hk) as Hp.
    simpl in Hp. rewrite Hp. done.
  - done.
  - unfold s'. simpl. rewrite statuses_tips. simpl. done.
  - done.
Qed.

(** ** Properties *)

Lemma list_to_map_enumerate {X Y} (f : nat * X → Y) (l : list X) i x :
  l !! i = Some x →
  (list_to_map ((λ o, (o.1, f o)) <$> enumerate l) : gmap nat Y) !! i = Some (f (i, x)).
Proof.
  intros Hi. apply elem_of_list_to_map_1.
  - rewrite <-list_fmap_compose. unfold enumerate, compose. simpl. rewrite fmap_imap.
    unfold compose. simpl. clear. generalize 0%nat.
    assert (Hge : ∀ (l : list X) k, NoDup (imap (λ i _, k + i)%nat l) ∧
      ∀ j, j ∈ imap (λ i (_ : X), k + i)%nat l → (k ≤ j)%nat); [|intros _; apply (Hge l 0%nat)].
    clear. induction l as [|x l IH]; intros k; simpl; [split; [constructor|set_solver]|].
    destruct (IH (Datatypes.S k)) as [Hnd Hle]. unfold compose.
    rewrite (imap_ext _ (λ i _, Datatypes.S k + i)%nat) by (intros; lia).
    split.
    + constructor; [|done]. intros Hin%Hle. lia.
    + intros j [->|Hj%Hle]%elem_of_cons; lia.
  - apply list_elem_of_fmap. exists (i, x). by rewrite elem_of_enumerate.
Qed.

(** An outpoint that pays the wallet, and what it pays. *)
Definition pays_wallet s (op : OutPoint) (v : N) : Prop :=
  ∃ e o a, is_output s op e o a ∧ txout_value o = v.

Lemma input_metadata_spec s (a : AddressStore.AddressStore (A:=A)) t i inp :
  keyed (txs (tx_store s)) →
  (∀ spk, is_Some (AddressStore.store a !! spk) ↔ is_Some (AddressStore.store (address_store s) !! spk)) →
  input t !! i = Some inp →
  ∃ m, input_metadata a (all_txouts (bt_values (txs (tx_store s)))) t !! i = Some m ∧
    (im_owned m = true ↔ ∃ v, pays_wallet s (previous_output inp) v) ∧
    (∀ v, im_value m = Some v ↔ pays_wallet s (previous_output inp) v).
Proof.
  intros Hk Ha Hi. unfold input_metadata.
  eexists. split; [by apply (list_to_map_enumerate (λ i : nat * TxIn, _) (input t) i inp)|].
  simpl. rewrite all_txouts_lookup by done. unfold pays_wallet, is_output.
  destruct (txs (tx_store s) !! op_txid (previous_output inp)) as [e|]; simpl; [|naive_solver].
  destruct (output (tx e) !! _) as [o|] eqn:Ho; simpl; [|naive_solver].
  unfold AddressStore.contains_spk. case_bool_decide as Hown; rewrite Ha in Hown; simpl.
  - destruct Hown as [ae Hae]. split; [split; [|done]|].
    + intros _. by exists (txout_value o), e, o, ae.
    + intros v. split; [intros [= <-]; by exists e, o, ae|]. naive_solver.
  - assert (Hno : AddressStore.store (address_store s) !! script_pubkey o = None) by (by apply eq_None_not_Some).
    split; [split; [done|]|]; naive_solver.
Qed.

Lemma output_metadata_spec (a : AddressStore.AddressStore (A:=A)) t i o :
  output t !! i = Some o →
  output_metadata a t !! i = Some (mkOutputMetadata (AddressStore.contains_spk a (script_pubkey o))).
Proof.
  apply (list_to_map_enumerate (λ o : nat * TxOut,
    mkOutputMetadata (AddressStore.contains_spk a (script_pubkey o.2)))).
Qed.

(** C9. Regeneration is exact: on a store whose transactions are under their id and
    whose addresses are the derivator's, it never panics, and the coins it leaves
    are precisely the outputs of stored transactions that pay a stored address,
    each with the amount, height, label, derivation path and descriptor it is spent
    with, marked spent exactly when some stored transaction spends it, and with the
    confirmation status of its transaction otherwise. *)
Theorem generate_coins_exact s (sat : N)
    (Ha : addressed s) (Hk : keyed (txs (tx_store s)))
    (Hsat : Coin.max_input_satisfaction_size (descriptor (derivator s)) = Ret sat) :
  ∃ s', generate s = Ret s' ∧ ∀ op ce, store s' !! op = Some ce ↔
    ∃ e o a, is_output s op e o a ∧ ce = owned_coin s sat op e o a.
Proof.
  destruct (generate_spec s sat Ha Hk Hsat) as (s' & Hg & Hf). exists s'. split; [done|].
  apply (gf_coins _ _ _ Hf).
Qed.

(** Regeneration annotates what is stored and changes nothing else of it: no
    transaction appears or disappears, each keeps its body, inclusion and
    timestamp, an input is owned (and its value known) exactly when it spends an
    output of a stored transaction to a wallet script, an output exactly when it
    pays one; and the entry of each address that has coins tells their number, the
    transactions that fund it and those that spend from it. *)
Theorem generate_annotates s (sat : N)
    (Ha : addressed s) (Hk : keyed (txs (tx_store s)))
    (Hsat : Coin.max_input_satisfaction_size (descriptor (derivator s)) = Ret sat) :
  ∃ s', generate s = Ret s' ∧ addresses_updated (txs (tx_store s)) s s' ∧
    (∀ txid, is_Some (txs (tx_store s') !! txid) ↔ is_Some (txs (tx_store s) !! txid)) ∧
    ∀ txid e e', txs (tx_store s) !! txid = Some e → txs (tx_store s') !! txid = Some e' →
      tx e' = tx e ∧ inclusion e' = inclusion e ∧ timestamp e' = timestamp e ∧
      (∀ i inp, input (tx e) !! i = Some inp → ∃ m, inputs e' !! i = Some m ∧
        (im_owned m = true ↔ ∃ v, pays_wallet s (previous_output inp) v) ∧
        (∀ v, im_value m = Some v ↔ pays_wallet s (previous_output inp) v)) ∧
      (∀ i o, output (tx e) !! i = Some o → ∃ m, outputs e' !! i = Some m ∧
        (om_owned m = true ↔ is_Some (AddressStore.store (address_store s) !! script_pubkey o))).
Proof.
  destruct (generate_spec s sat Ha Hk Hsat) as (s' & Hg & Hf). exists s'. split; [done|].
  destruct (gf_addresses _ _ _ Hf) as [Hdom Hent]. split; [done|].
  rewrite (gf_txs _ _ _ Hf). split; [intros txid; by rewrite lookup_fmap, fmap_is_Some|].
  intros txid e e' He. rewrite lookup_fmap, He. intros [= <-]. split_and!; [done..| |].
  - intros i inp Hi. by apply input_metadata_spec.
  - intros i o Ho. eexists. split; [by apply output_metadata_spec|]. simpl.
    unfold AddressStore.contains_spk. by rewrite bool_decide_eq_true, Hdom.
Qed.

(** *** The balance *)

(** Which statuses each total counts. *)
Definition counts_confirmed (st : Coin.CoinStatus) : bool :=
  match st with Coin.Confirmed | Coin.ConfirmedUnverified => true | _ => false end.
Definition counts_unconfirmed (st : Coin.CoinStatus) : bool :=
  match st with Coin.Unconfirmed => true | _ => false end.
Definition values (p : Coin.CoinStatus → bool) (l : list CoinEntry) : N :=
  sumN ((λ e, txout_value (Coin.txout (coin e))) <$> List.filter (λ e, p (Coin.status (coin e))) l).

Lemma values_cons p e l :
  values p (e :: l) =
    (if p (Coin.status (coin e)) then txout_value (Coin.txout (coin e)) else 0) + values p l.
Proof. unfold values. cbn [List.filter]. by destruct (p (Coin.status (coin e))). Qed.

Lemma values_perm p l l' : l ≡ₚ l' → values p l = values p l'.
Proof. intros Hp. unfold values. apply sumN_perm. f_equiv. by rewrite Hp. Qed.

Lemma values_spendable p l :
  p Coin.Spent = false → values p (List.filter is_spendable l) = values p l.
Proof.
  intros Hs. induction l as [|e l IH]; [done|]. cbn [List.filter]. rewrite values_cons.
  destruct (is_spendable e) eqn:He; [by rewrite values_cons, IH|].
  rewrite IH. revert He. unfold is_spendable. destruct (Coin.status (coin e)); try done. by rewrite Hs.
Qed.

Lemma count_coins l st :
  confirmed_balance st + values counts_confirmed l < 2 ^ 64 →
  unconfirmed_balance st + values counts_unconfirmed l < 2 ^ 64 →
  ∃ st', ofold count_coin st l = Ret st' ∧
    confirmed_balance st' = confirmed_balance st + values counts_confirmed l ∧
    unconfirmed_balance st' = unconfirmed_balance st + values counts_unconfirmed l.
Proof.
  revert st; induction l as [|e l IH]; intros st Hc Hu.
  { exists st. unfold values. simpl. split_and!; [done|lia..]. }
  rewrite !values_cons in *. cbn [ofold]. unfold count_coin at 1.
  destruct (Coin.status (coin e)) eqn:Hst; simpl in *;
    try (unfold add64; rewrite add_w_ok by lia; simpl);
    match goal with |- context [ofold count_coin ?st l] => destruct (IH st) as (st' & -> & ? & ?) end;
    simpl in *; try lia; exists st'; split_and!; try done; lia.
Qed.

Definition spendable_list s : list CoinEntry :=
  sort_by (λ a b : CoinEntry, key_leb (Coin.outpoint (coin a)) (Coin.outpoint (coin b)))
    (List.filter is_spendable (bt_values (store s))).
Lemma spendable_totals s :
  values counts_confirmed (bt_values (store s)) < 2 ^ 64 →
  values counts_unconfirmed (bt_values (store s)) < 2 ^ 64 →
  ∃ st, spendable_coins s = Ret st ∧
    state_coins st = foldl (λ m e, <[Coin.outpoint (coin e) := coin e]> m) ∅ (spendable_list s) ∧
    confirmed_balance st = values counts_confirmed (bt_values (store s)) ∧
    unconfirmed_balance st = values counts_unconfirmed (bt_values (store s)).
Proof.
  intros Hc Hu. unfold spendable_coins. fold (spendable_list s).
  assert (Hval : ∀ p, p Coin.Spent = false → values p (spendable_list s) = values p (bt_values (store s))).
  { intros p Hp. rewrite <-(values_spendable p (bt_values (store s))) by done.
    apply values_perm, sort_by_perm. }
  rewrite <-Hval in Hc, Hu by done.
  destruct (count_coins _ (mkCoinState ∅ 0 0 0 0) Hc Hu) as (st & -> & Hcb & Hub). simpl.
  eexists. split; [done|]. simpl in *. rewrite Hcb, Hub, !Hval by done. split_and!; [done|lia..].
Qed.

(** The spendable view is exact: when every coin is filed under its own outpoint
    and the totals fit 64 bits, it never overflows; its coins are those that are
    not spent, its confirmed balance is the sum of the confirmed ones (proof
    pending or not) and its unconfirmed balance the sum of the unconfirmed ones. *)
Theorem spendable_coins_exact s
    (Hop : ∀ op ce, store s !! op = Some ce → Coin.outpoint (coin ce) = op)
    (Hc : values counts_confirmed (bt_values (store s)) < 2 ^ 64)
    (Hu : values counts_unconfirmed (bt_values (store s)) < 2 ^ 64) :
  ∃ st, spendable_coins s = Ret st ∧
    (∀ op c, state_coins st !! op = Some c ↔
       ∃ ce, store s !! op = Some ce ∧ coin ce = c ∧ Coin.status c ≠ Coin.Spent) ∧
    confirmed_balance st = values counts_confirmed (bt_values (store s)) ∧
    unconfirmed_balance st = values counts_unconfirmed (bt_values (store s)).
Proof.
  destruct (spendable_totals s Hc Hu) as (st & Hst & Hcoins & Hcb & Hub). exists st.
  split; [done|]. split; [|done]. intros op c. rewrite Hcoins. set (l := spendable_list s).
  assert (Hl : l ≡ₚ List.filter is_spendable (bt_values (store s))) by apply sort_by_perm.
  rewrite <-(foldl_fmap (λ m kv, <[kv.1 := kv.2]> m)
    (λ e : CoinEntry, (Coin.outpoint (coin e), coin e)) l ∅).
  assert (Hin : ∀ op c, (op, c) ∈ ((λ e, (Coin.outpoint (coin e), coin e)) <$> l) ↔
    ∃ ce, store s !! op = Some ce ∧ coin ce = c ∧ Coin.status c ≠ Coin.Spent).
  { clear op c. intros op c. rewrite list_elem_of_fmap. setoid_rewrite Hl. split.
    - intros (e & [= -> ->] & He). apply list_elem_of_In, filter_In in He as [He Hs].
      apply list_elem_of_In, elem_of_bt_values in He as [op He]. rewrite (Hop _ _ He).
      exists e. split_and!; [done|done|]. revert Hs. unfold is_spendable. by destruct (Coin.status (coin e)).
    - intros (e & He & <- & Hs). exists e. rewrite (Hop _ _ He). split; [done|].
      apply list_elem_of_In, filter_In. split; [apply list_elem_of_In, elem_of_bt_values; eauto|].
      unfold is_spendable. by destruct (Coin.status (coin e)). }
  rewrite foldl_insert_functional, Hin, lookup_empty; [naive_solver|].
  intros op' c1 c2. rewrite !Hin. naive_solver.
Qed.
End generation.


Module Witness.
Import Sample Derivator.Witness AddressStore.Witness.

(** A label store that keeps nothing. *)
#[export] Instance no_labels : Store unit LabelKey string := {|
  st_get := λ _ _, Ok None;
  st_len := λ _, Ok 0%nat;
  st_iter := λ _, Ok [];
  st_insert := λ _ _ s, (s, Ok None);
  st_remove := λ _ s, (s, Ok None);
  st_modify := λ _ _ s, (s, Ok false);
  st_flush := λ s, (s, Ok tt)
|}.
Definition no_txs : RamStore unit Txid TxEntry := TxStore.new (λ _, EmptyString) (λ _, Ok []).

(** A payment of 1000 to the first address, and a spend of it that leaves change. *)
Definition pay_in : Transaction :=
  mkTransaction 2 0 [mkTxIn (mkOutPoint 99 0) [] 0 []] [mkTxOut 1000 [6; 0]; mkTxOut 500 [9; 9]].
Definition pay_out : Transaction :=
  mkTransaction 2 1 [mkTxIn (mkOutPoint 0 0) [] 0 []] [mkTxOut 300 [7; 1]; mkTxOut 600 [9; 9]].

(** The wallet that knows both, the first mined at height 2. *)
Definition both_txs : RamStore unit Txid TxEntry :=
  update (unconfirmed pay_out)
    (update (set_inclusion (ConfirmedUnverified 2 9) (unconfirmed pay_in)) no_txs).
Definition sample : CoinStore :=
  mkCoinStore ∅ tt ∅ s0 both_txs ∅ [] der "w" false None ∅ ∅ true.
Definition filled : CoinStore := match generate sample with Ret s => s | Panic => sample end.

Lemma sample_addressed : addressed sample.
Proof. apply s0_ok. Qed.
Lemma sample_keyed : keyed (txs (tx_store sample)).
Proof.
  intros txid e He. assert (Hl : (txid, e) ∈ map_to_list (txs (tx_store sample)))
    by by apply elem_of_map_to_list.
  vm_compute in Hl. repeat (apply elem_of_cons in Hl as [[= -> ->]|Hl]; [reflexivity|]).
  by apply elem_of_nil in Hl.
Qed.

Lemma generate_coins_exact_witness :
  ∃ s', generate sample = Ret s' ∧ ∀ op ce, store s' !! op = Some ce ↔
    ∃ e o a, is_output sample op e o a ∧ ce = owned_coin sample 108 op e o a.
Proof.
  apply (generate_coins_exact sample 108); [apply sample_addressed|apply sample_keyed|reflexivity].
Defined.

Lemma generate_annotates_witness :
  ∃ s', generate sample = Ret s' ∧ addresses_updated (txs (tx_store sample)) sample s' ∧
    (∀ txid, is_Some (txs (tx_store s') !! txid) ↔ is_Some (txs (tx_store sample) !! txid)) ∧
    ∀ txid e e', txs (tx_store sample) !! txid = Some e → txs (tx_store s') !! txid = Some e' →
      tx e' = tx e ∧ inclusion e' = inclusion e ∧ timestamp e' = timestamp e ∧
      (∀ i inp, input (tx e) !! i = Some inp → ∃ m, inputs e' !! i = Some m ∧
        (im_owned m = true ↔ ∃ v, pays_wallet sample (previous_output inp) v) ∧
        (∀ v, im_value m = Some v ↔ pays_wallet sample (previous_output inp) v)) ∧
      (∀ i o, output (tx e) !! i = Some o → ∃ m, outputs e' !! i = Some m ∧
        (om_owned m = true ↔
         is_Some (AddressStore.store (address_store sample) !! script_pubkey o))).
Proof.
  apply (generate_annotates sample 108); [apply sample_addressed|apply sample_keyed|reflexivity].
Defined.

(** The payment is spent, the change is there. *)
Example filled_coins :
  (λ e, (op_txid (Coin.outpoint (coin e)), Coin.status (coin e))) <$> bt_values (store filled) =
    [(0, Coin.Spent); (1, Coin.Unconfirmed)].
Proof. vm_compute. reflexivity. Qed.

Lemma spendable_coins_exact_witness :
  ∃ st, spendable_coins filled = Ret st ∧
    (∀ op c, state_coins st !! op = Some c ↔
       ∃ ce, store filled !! op = Some ce ∧ coin ce = c ∧ Coin.status c ≠ Coin.Spent) ∧
    confirmed_balance st = values counts_confirmed (bt_values (store filled)) ∧
    unconfirmed_balance st = values counts_unconfirmed (bt_values (store filled)).
Proof.
  apply spendable_coins_exact; [|vm_compute; reflexivity..].
  intros op ce Hce. assert (Hl : (op, ce) ∈ map_to_list (store filled))
    by by apply elem_of_map_to_list.
  vm_compute in Hl. repeat (apply elem_of_cons in Hl as [[= -> ->]|Hl]; [reflexivity|]).
  by apply elem_of_nil in Hl.
Defined.
End Witness.
End CoinStore.
