(* ===== verification/Wallet.v ===== *)
(** * The wallet invariant

    Every handler of the coin store keeps the wallet well formed and never
    panics, given room for the addresses it may have to derive: the address window
    is whole, transactions are stored under their id, no transaction is shown as
    verified unless it is proved, and a transaction has at most one pending claim.
    What counts as proved is a parameter here; the reconciler fixes it. *)
From stdpp Require Import base gmap list strings.
From Stdlib Require Import Lia.
From S2P Require Import Prelude Bitcoin Coin Persist HeaderBackend HeaderValidator HeaderStore.
From S2P Require Import Notification TxStore Derivator AddressStore Claims CoinStore.

Module Wallet.
Import Persist TxStore Derivator Claims CoinStore.

(** ** The wallet invariant *)

Section wallet.
Context `{Build} `{DescriptorLib} `{Tip.TipCodecLaws}.
Context {A : Type} `{!Store A string bytes} `{!StoreLaws A string bytes} `{!StoreTotal A string bytes}.
Context {S : Type} `{!Store S Txid TxEntry} `{!StoreLaws S Txid TxEntry} `{!StoreTotal S Txid TxEntry}.
Context {L : Type} `{!Store L LabelKey string}.
Context (d : SpkDerivator) (bound : N) `{!Derives d bound} (Hbound : bound < 2 ^ 32).
Context (sat : N) (Hsat : Coin.max_input_satisfaction_size (descriptor d) = Ret sat).
(** What a transaction must have to be shown as verified in a block. *)
Context (proved : Txid → N → BlockHash → Prop).
Implicit Types s : CoinStore (A:=A) (S:=S) (L:=L).
Implicit Types T : gmap Txid TxEntry.

Definition incl_ok (txid : Txid) (i : Inclusion) : Prop :=
  ∀ h bh, i = Verified h bh → proved txid h bh.

(** Transactions are stored under their id, and verified ones are proved. *)
Definition txs_ok T : Prop :=
  ∀ txid e, T !! txid = Some e → entry_txid e = txid ∧ incl_ok txid (inclusion e).

Lemma txs_ok_keyed T : txs_ok T → keyed T.
Proof. intros HT txid e He. apply (HT _ _ He). Qed.
Lemma txs_ok_alter T txid f :
  (∀ e, tx (f e) = tx e ∧ (incl_ok txid (inclusion e) → incl_ok txid (inclusion (f e)))) →
  txs_ok T → txs_ok (alter f txid T).
Proof.
  intros Hf HT txid' e. destruct (decide (txid' = txid)) as [->|Hne].
  - rewrite lookup_alter_eq. intros (e0 & He0 & ->)%fmap_Some. destruct (HT _ _ He0) as [Hid Hi].
    destruct (Hf e0) as [Htx Hinc]. unfold entry_txid in *. rewrite Htx. auto.
  - rewrite lookup_alter_ne by done. apply HT.
Qed.
Lemma txs_ok_inclusion T txid i :
  incl_ok txid i → txs_ok T → txs_ok (alter (set_inclusion i) txid T).
Proof. intros Hi. apply txs_ok_alter. done. Qed.
Lemma txs_ok_timestamp T txid t : txs_ok T → txs_ok (alter (set_timestamp t) txid T).
Proof. apply txs_ok_alter. done. Qed.
Lemma txs_ok_delete T txid : txs_ok T → txs_ok (delete txid T).
Proof. intros HT t e [_ He]%lookup_delete_Some. by apply HT. Qed.
Lemma txs_ok_new T txid t : compute_txid t = txid → txs_ok T → txs_ok (insert_new txid (unconfirmed t) T).
Proof.
  intros Hid HT txid' e. rewrite lookup_insert_new. destruct (T !! txid') eqn:He.
  - intros [= <-]. by apply HT.
  - destruct (decide (txid' = txid)) as [->|]; [|done]. intros [= <-].
    split; [done|by intros ? ? [=]].
Qed.
Lemma txs_ok_insert T t : txs_ok T → txs_ok (<[compute_txid t := unconfirmed t]> T).
Proof.
  intros HT txid e [[<- <-]|[_ He]]%lookup_insert_Some; [done|by apply HT].
Qed.
Lemma txs_ok_metadata (a : AddressStore.AddressStore (A:=A)) o T :
  txs_ok T → txs_ok (with_metadata a o <$> T).
Proof.
  intros HT txid e. rewrite lookup_fmap. intros (e0 & He0 & ->)%fmap_Some. exact (HT _ _ He0).
Qed.
Lemma incl_ok_unverified txid i : (∀ h bh, i ≠ Verified h bh) → incl_ok txid i.
Proof. intros Hi h bh ->. by destruct (Hi h bh). Qed.
Hint Resolve txs_ok_inclusion txs_ok_timestamp txs_ok_delete txs_ok_new txs_ok_insert : claims.

(** The transactions an update carries are those it names. *)
Definition update_ok (u : Update) : Prop := ∀ x t, (x, Some t) ∈ upd_txs u → compute_txid t = x.

Record wallet_ok s : Prop := {
  wo_derivator : derivator s = d;
  wo_addresses : AddressStore.ok_state d (address_store s);
  wo_txs : txs_ok (txs (tx_store s));
  wo_updates : Forall update_ok (updates s);
  wo_history spk h : spk_history s !! spk = Some h → h ≠ [];
  wo_claims : claims_ok (pending_claims s)
}.

(** Room left for address operations. *)
Definition room (n : N) s : Prop := AddressStore.budget bound n (address_store s).

(** A handler returned, from a good state to a good state. *)
Definition safe (n : N) (o : outcome (CoinStore (A:=A) (S:=S) (L:=L))) : Prop :=
  ∃ s', o = Ret s' ∧ wallet_ok s' ∧ room n s'.

Lemma wallet_ok_addressed s : wallet_ok s → addressed s.
Proof. intros Hs. unfold addressed. rewrite (wo_derivator _ Hs). apply Hs. Qed.

(** Replacing a part of the state. *)
Lemma wallet_ok_address_store a s :
  AddressStore.ok_state d a → wallet_ok s → wallet_ok (set_address_store a s).
Proof. intros Ha [Hd _ Ht Hu Hh Hc]. by split. Qed.
Lemma wallet_ok_tx_store t s : txs_ok (txs t) → wallet_ok s → wallet_ok (set_tx_store t s).
Proof. intros Ha [Hd Hadd _ Hu Hh Hc]. by split. Qed.
Lemma wallet_ok_updates u s : Forall update_ok u → wallet_ok s → wallet_ok (set_updates u s).
Proof. intros Ha [Hd Hadd Ht _ Hh Hc]. by split. Qed.
Lemma wallet_ok_claims m f s : claims_ok m → wallet_ok s → wallet_ok (set_claims m f s).
Proof. intros Ha [Hd Hadd Ht Hu Hh _]. by split. Qed.
Lemma wallet_ok_history m s :
  (∀ spk h, m !! spk = Some h → h ≠ []) → wallet_ok s → wallet_ok (set_spk_history m s).
Proof. intros Ha [Hd Hadd Ht Hu _ Hc]. by split. Qed.
Hint Resolve wallet_ok_address_store wallet_ok_tx_store wallet_ok_updates wallet_ok_claims
  wallet_ok_history : claims.

(** Entries keep what they are looked up by, so the watch window is kept. *)
Lemma generated_addresses_ok s s' :
  generated_from sat s s' → AddressStore.ok_state d (address_store s) →
  AddressStore.ok_state d (address_store s').
Proof.
  intros [_ [Hdom Hent] (Hder & Hr & Hc & Hla & Hl & Hac) _ _ _ _] [[Hd Hcov Hsound] [Hp Ha]].
  assert (Hw : ∀ kc, AddressStore.watch kc (address_store s') = AddressStore.watch kc (address_store s)).
  { intros kc. unfold AddressStore.watch, AddressStore.generated. rewrite Hla, Hr, Hc. done. }
  split; [split|split].
  - congruence.
  - intros kc i a. rewrite Hw, Hdom. apply Hcov.
  - intros spk e' (e & He & H1' & H2' & H3' & _)%Hent. specialize (Hsound _ _ He).
    unfold AddressStore.entry_ok in *. by rewrite H1', H2', H3', Hw.
  - by rewrite Hac, Hr, Hc.
  - rewrite !Hw, Hl. apply Ha.
Qed.

Lemma generate_ok s :
  wallet_ok s →
  ∃ s', generate s = Ret s' ∧ wallet_ok s' ∧ generated_from sat s s' ∧ ∀ n, room n s → room n s'.
Proof.
  intros Hs.
  destruct (generate_spec s sat) as (s' & Hg & Hfrom);
    [by apply wallet_ok_addressed|by apply txs_ok_keyed, Hs|by rewrite (wo_derivator _ Hs)|].
  exists s'. split; [done|]. split_and!; [|done|].
  - destruct (Hfrom) as [_ _ _ Htxs (Hl & Hh & Hu & Hd & _ & _ & Hc & _ & _) _ _].
    destruct (Hs) as [Hd0 Ha0 Ht0 Hu0 Hh0 Hc0]. split; [congruence| |..].
    + by eapply generated_addresses_ok.
    + rewrite Htxs. by apply txs_ok_metadata.
    + by rewrite Hu.
    + rewrite Hh. done.
    + by rewrite Hc.
  - destruct Hfrom as [_ _ (_ & Hr & Hc & Hla & _ & _) _ _ _ _]. unfold room, AddressStore.budget in *.
    intros n Hroom kc Hkc. specialize (Hroom _ Hkc). revert Hroom.
    unfold AddressStore.watch, AddressStore.generated. by rewrite Hla, Hr, Hc.
Qed.
Lemma generate_is_safe n s : wallet_ok s → room n s → safe n (generate s).
Proof. intros Hs Hr. destruct (generate_ok s Hs) as (s' & -> & ? & _ & ?). exists s'. auto. Qed.

(** *** Histories *)

Lemma spk_history_insert_spec hist h :
  h ≠ [] → ∃ h' diff, spk_history_insert hist h = Ret (h', diff) ∧ h' ≠ [].
Proof.
  intros Hh. unfold spk_history_insert.
  destruct (last h) as [p|] eqn:Hl; [|by apply last_None in Hl].
  simpl. destruct (decide (p = ∅)).
  - destruct (decide _); (do 2 eexists; split; [done|]); [done|by destruct h].
  - do 2 eexists. split; [done|]. by destruct h.
Qed.

Lemma txs_ok_fold {X} (f : S → X → S) l (t : S) :
  (∀ t x, txs_ok (txs t) → txs_ok (txs (f t x))) → txs_ok (txs t) → txs_ok (txs (foldl f t l)).
Proof. intros Hf. apply (foldl_invariant (λ t, txs_ok (txs t))). auto. Qed.

Lemma update_spk_history_safe spk hist s :
  wallet_ok s →
  ∃ s' b u, update_spk_history spk hist s = Ret (s', (b, u)) ∧ wallet_ok s' ∧
    address_store s' = address_store s ∧ update_ok u.
Proof.
  intros Hs. unfold update_spk_history.
  assert (Hne : default spk_history_new (spk_history s !! spk) ≠ []).
  { destruct (spk_history s !! spk) as [h|] eqn:Hh; [|done]. by eapply (wo_history _ Hs). }
  destruct (spk_history_insert_spec hist _ Hne) as (h' & diff & -> & Hne'). simpl.
  do 3 eexists. split; [done|]. split_and!; [|done|].
  - apply wallet_ok_claims; [|apply wallet_ok_tx_store; [|apply wallet_ok_history; [|done]]].
    + apply (foldl_invariant claims_ok); [|apply Hs]. auto with claims.
    + simpl. apply txs_ok_fold; [|apply txs_ok_fold; [|apply Hs]].
      * intros t x Ht. rewrite update_inclusion_txs. apply txs_ok_inclusion; [|done].
        by apply incl_ok_unverified.
      * intros t x Ht. rewrite remove_txs. by apply txs_ok_delete.
    + intros spk' h [[<- <-]|[_ Hl]]%lookup_insert_Some; [done|]. by eapply (wo_history _ Hs).
  - intros x t Hin. unfold update_from_diff in Hin. simpl in Hin.
    apply list_elem_of_fmap in Hin as (? & [=] & _).
Qed.

Lemma recv_coin_at_safe n spk s :
  wallet_ok s → room (n + 1) s → safe n (recv_coin_at spk s).
Proof.
  intros Hs Hr. unfold recv_coin_at.
  destruct (AddressStore.recv_coin_at_step d bound Hbound spk n (address_store s))
    as (a & -> & Ha & Hb & _); [apply Hs|done|].
  eexists. split; [done|]. auto with claims.
Qed.

Lemma fold_history_safe n hist s us0 :
  wallet_ok s → room (N.of_nat (length hist) + n) s → Forall (λ r, update_ok r.2) us0 →
  ∃ s' us, ofold (λ acc kv,
    let! s := recv_coin_at kv.1 acc.1 in
    let! r := update_spk_history kv.1 kv.2 s in
    Ret (r.1, acc.2 ++ [r.2])) (s, us0) hist = Ret (s', us) ∧
    wallet_ok s' ∧ room n s' ∧ Forall (λ r : bool * Update, update_ok r.2) us.
Proof.
  revert s us0; induction hist as [|[spk h] hist IH]; intros s us0 Hs Hr Hus; [by exists s, us0|].
  cbn [ofold length fst snd] in *.
  destruct (recv_coin_at_safe (N.of_nat (length hist) + n) spk s) as (s1 & -> & Hs1 & Hr1);
    [done|by replace (N.of_nat (length hist) + n + 1) with
            (N.of_nat (Datatypes.S (length hist)) + n) by lia|].
  simpl. destruct (update_spk_history_safe spk h s1 Hs1) as (s2 & b & u & -> & Hs2 & Ha & Hu).
  simpl. apply IH; [done| |].
  - unfold room in *. by rewrite Ha.
  - by apply Forall_app_2; [|constructor].
Qed.

(** *** Updates *)

Lemma insert_updates_ok us (t : S) :
  Forall update_ok us → txs_ok (txs t) → txs_ok (txs (insert_updates us t)).
Proof.
  intros Hus. unfold insert_updates. apply (foldl_invariant (λ t, txs_ok (txs t))).
  intros t' u Hu Ht. destruct (is_complete u); [|done].
  apply (foldl_invariant (λ t, txs_ok (txs t))); [|done].
  intros t2 [x o] Hin Ht2. rewrite insert_tx_txs. simpl. destruct o as [y|]; [|done].
  apply txs_ok_new; [|done]. rewrite Forall_forall in Hus. by eapply Hus.
Qed.

Lemma apply_complete_ok us (t : S) :
  Forall update_ok us → txs_ok (txs t) →
  txs_ok (txs (apply_complete t us).1) ∧ Forall update_ok (apply_complete t us).2.
Proof.
  intros Hus Ht. unfold apply_complete.
  apply (foldl_invariant (λ acc, txs_ok (txs acc.1) ∧ Forall update_ok acc.2)); [|by split].
  intros [t' r] u Hu [Ht' Hr]. assert (Huo : update_ok u) by (rewrite Forall_forall in Hus; auto).
  destruct (is_complete u); cbn [fst snd] in *.
  - split; [|done]. by apply insert_updates_ok; [constructor|].
  - split; [done|]. by apply Forall_app_2; [|constructor].
Qed.

Lemma prefill_ok (t : S) u : txs_ok (txs t) → update_ok u → update_ok (prefill t u).
Proof.
  intros Ht Hu x tx' ([y o] & Heq & Hin)%list_elem_of_fmap. simpl in Heq.
  unfold inner_get in Heq. rewrite get_txs in Heq.
  destruct (txs t !! y) as [e|] eqn:He; simpl in Heq; simplify_eq; [|by eapply Hu].
  apply (Ht _ _ He).
Qed.
Lemma fill_update_ok new_tx u : update_ok u → update_ok (fill_update new_tx u).
Proof.
  intros Hu x tx' ([y o] & Heq & Hin)%list_elem_of_fmap. simpl in Heq.
  destruct (_ && _) eqn:Hb; simplify_eq; [|by eapply Hu].
  by apply andb_true_iff in Hb as [->%bool_decide_eq_true _].
Qed.

Lemma handle_history_response_safe n hist s :
  wallet_ok s → room (N.of_nat (size hist) + n) s →
  ∃ s' o, handle_history_response hist s = Ret (s', o) ∧ wallet_ok s' ∧ room n s'.
Proof.
  intros Hs Hr. unfold handle_history_response, recv_watch_tip, change_watch_tip.
  assert (Hfit : ∀ m s, room m s → AddressStore.fits bound (address_store s))
    by (intros m s0 Hm; by eapply AddressStore.budget_fits).
  rewrite (AddressStore.recv_watch_tip_ok bound), (AddressStore.change_watch_tip_ok bound) by eauto.
  simpl. unfold fold_history.
  destruct (fold_history_safe n (bt_items hist) s []) as (s1 & us & -> & Hs1 & Hr1 & Hus);
    [done|by rewrite length_bt_items|constructor|].
  simpl. set (filled := prefill (tx_store s1) <$> us.*2).
  assert (Hfill : Forall update_ok filled).
  { apply Forall_fmap, Forall_fmap. eapply Forall_impl; [exact Hus|]. intros r. simpl.
    apply prefill_ok, Hs1. }
  destruct (apply_complete_ok filled (tx_store s1) Hfill (wo_txs _ Hs1)) as [Ht Hrest].
  destruct (apply_complete (tx_store s1) filled) as [t rest]. simpl in *.
  set (s2 := set_updates (updates s1 ++ rest) (set_tx_store t s1)).
  assert (Hs2 : wallet_ok s2).
  { apply wallet_ok_updates; [|by apply wallet_ok_tx_store].
    apply Forall_app_2; [apply Hs1|done]. }
  rewrite (AddressStore.recv_watch_tip_ok bound), (AddressStore.change_watch_tip_ok bound);
    [|done|exact (Hfit n s1 Hr1)|done|exact (Hfit n s1 Hr1)].
  simpl. destruct (_ && _); simpl; [by eauto|].
  destruct (generate_is_safe n s2 Hs2 Hr1) as (s3 & -> & Hs3 & Hr3). simpl. eauto.
Qed.

Lemma handle_txs_response_safe n l s :
  wallet_ok s → room n s → safe n (handle_txs_response l s).
Proof.
  intros Hs Hr. unfold handle_txs_response.
  assert (Hus : Forall update_ok (foldl (λ us tx, fill_update tx <$> us) (updates s) l)).
  { apply (foldl_invariant (Forall update_ok)); [|apply Hs]. intros us tx' _ Hus.
    apply Forall_fmap. eapply Forall_impl; [exact Hus|]. intros u. apply fill_update_ok. }
  destruct (apply_complete_ok _ (tx_store s) Hus (wo_txs _ Hs)) as [Ht Hrest].
  destruct (apply_complete _ _) as [t rest]. simpl in *.
  apply generate_is_safe; [|done]. apply wallet_ok_updates; [done|]. by apply wallet_ok_tx_store.
Qed.

Lemma record_unconfirmed_tx_safe n t s :
  wallet_ok s → room n s → safe n (record_unconfirmed_tx t s).
Proof.
  intros Hs Hr. unfold record_unconfirmed_tx. destruct (_ && _); [by exists s|].
  destruct (get (tx_store s) (compute_txid t)); apply generate_is_safe; try done.
  apply wallet_ok_tx_store; [|done]. rewrite update_txs. apply txs_ok_insert, Hs.
Qed.

(** *** New addresses *)

Lemma address_then_generate n a s :
  wallet_ok s → AddressStore.ok_state d a → AddressStore.budget bound n a →
  safe n (generate (set_address_store a s)).
Proof. intros Hs Ha Hb. apply generate_is_safe; [by apply wallet_ok_address_store|done]. Qed.

Lemma new_recv_addr_safe n s :
  wallet_ok s → room (n + 1) s →
  ∃ s' a, new_recv_addr s = Ret (s', a) ∧ wallet_ok s' ∧ room n s' ∧
    receive_at d (AddressStore.recv_generated_tip (address_store s) + 1) = Ret a.
Proof.
  intros Hs Hr. unfold new_recv_addr.
  destruct (AddressStore.new_recv_addr_spec d bound Hbound n (address_store s) (wo_addresses _ Hs) Hr)
    as (a & x & -> & (Ha & Hb & _) & _ & Hx). simpl.
  destruct (address_then_generate n a s Hs Ha Hb) as (s' & -> & ? & ?). simpl. eauto 10.
Qed.
Lemma new_change_addr_safe n s :
  wallet_ok s → room (n + 1) s →
  ∃ s' a, new_change_addr s = Ret (s', a) ∧ wallet_ok s' ∧ room n s' ∧
    change_at d (AddressStore.change_generated_tip (address_store s) + 1) = Ret a.
Proof.
  intros Hs Hr. unfold new_change_addr.
  destruct (AddressStore.new_change_addr_spec d bound Hbound n (address_store s) (wo_addresses _ Hs) Hr)
    as (a & x & -> & (Ha & Hb & _) & _ & Hx). simpl.
  destruct (address_then_generate n a s Hs Ha Hb) as (s' & -> & ? & ?). simpl. eauto 10.
Qed.
Lemma next_index_safe n s :
  wallet_ok s → room (n + 1) s →
  ∃ s', next_index s = Ret (s', AddressStore.change_generated_tip (address_store s) + 1) ∧
    wallet_ok s' ∧ room n s'.
Proof.
  intros Hs Hr. unfold next_index.
  destruct (AddressStore.next_change_index_spec d bound Hbound n (address_store s) (wo_addresses _ Hs) Hr)
    as (a & -> & (Ha & Hb & _) & _ & Hx). simpl.
  destruct (address_then_generate n a s Hs Ha Hb) as (s' & -> & ? & ?). simpl. eauto 10.
Qed.
Lemma init_safe n s : wallet_ok s → room (n + 1) s → safe n (init s).
Proof.
  intros Hs Hr. unfold init.
  destruct (AddressStore.init_step d bound Hbound n (address_store s) (wo_addresses _ Hs) Hr)
    as (a & -> & (Ha & Hb & _)). simpl. eexists. split; [done|]. auto with claims.
Qed.

(** *** Claims and inclusions *)

(** A pass over the claims and the transactions, that leaves the addresses. *)
Definition keeps_wallet s s' : Prop := wallet_ok s' ∧ address_store s' = address_store s.
Lemma keeps_wallet_room n s s' : keeps_wallet s s' → room n s → room n s'.
Proof. intros [_ Ha]. unfold room. by rewrite Ha. Qed.

Lemma set_claims_keeps m f s s' :
  claims_ok m → keeps_wallet s s' → keeps_wallet s (set_claims m f s').
Proof. intros Hm [Hs Ha]. split; [by apply wallet_ok_claims|done]. Qed.
Lemma set_tx_store_keeps t s s' :
  txs_ok (txs t) → keeps_wallet s s' → keeps_wallet s (set_tx_store t s').
Proof. intros Hm [Hs Ha]. split; [by apply wallet_ok_tx_store|done]. Qed.
Hint Resolve set_claims_keeps set_tx_store_keeps : claims.

Lemma stamp_keeps f s : wallet_ok s → keeps_wallet s (stamp_confirmation_times f s).
Proof.
  intros Hs. unfold stamp_confirmation_times. destruct (omap _ _) as [|x l]; [done|].
  apply set_tx_store_keeps; [|done]. rewrite persist_txs. apply txs_ok_fold; [|apply Hs].
  intros t kv Ht. rewrite update_timestamp_txs. by apply txs_ok_timestamp.
Qed.

Lemma clear_in_flight_keeps c s : wallet_ok s → keeps_wallet s (clear_merkle_in_flight c s).
Proof. intros Hs. apply set_claims_keeps; [apply Hs|done]. Qed.

Lemma record_reported_keeps l s : wallet_ok s → keeps_wallet s (record_reported_heights l s).1.
Proof.
  intros Hs. simpl. apply (foldl_invariant (keeps_wallet s)); [|done].
  intros s' c _ Hs'. unfold record_claim. apply set_claims_keeps; [|done].
  pose proof (wo_claims _ (proj1 Hs')) as Hc.
  destruct (inclusion <$> get (tx_store s') (claim_txid c)) as [[]|]; auto with claims.
Qed.

Lemma promote_keeps c h s s' : keeps_wallet s s' → keeps_wallet s (promote_claim c h s').
Proof.
  intros Hs. pose proof (proj1 Hs) as Hok. unfold promote_claim. apply set_claims_keeps; [apply Hok|].
  apply set_tx_store_keeps; [|done]. rewrite update_inclusion_txs.
  apply txs_ok_inclusion; [by apply incl_ok_unverified|apply Hok].
Qed.
Hint Resolve promote_keeps : claims.

Section headers.
Context `{HeaderValidator.HeaderLib} {SH : Type} `{!Store SH N HeaderValidator.raw_header}.
Implicit Types hs : HeaderStore.HeaderStore (S:=SH).

Lemma reverify_keeps hs s : wallet_ok s → keeps_wallet s (cu_store (reverify_remined_entries hs s)).
Proof.
  intros Hs. unfold reverify_remined_entries.
  apply (foldl_invariant (λ u, keeps_wallet s (cu_store u))); [|done].
  intros u [txid i] _ Hu. pose proof (wo_claims _ (proj1 Hu)) as Hc.
  unfold reverify_entry. cbn [fst snd]. destruct i as [|h bh|h bh|h bh]; [done|..];
    (destruct (HeaderStore.store_block_hash hs h) as [cur|]; [|done]);
    (destruct (cur =? bh); [try done|]); try case_bool_decide; simpl; auto with claims.
Qed.

Lemma resolve_keeps hs s : wallet_ok s → keeps_wallet s (cu_store (resolve_pending_claims hs s)).
Proof.
  intros Hs. unfold resolve_pending_claims.
  assert (Hfold : keeps_wallet s (cu_store (foldl (resolve_claim hs) (mkChainUpdate s [] false, [])
    (queued_claims (pending_claims s))).1)).
  { apply (foldl_invariant (λ acc, keeps_wallet s (cu_store acc.1))); [|done].
    intros [u rm] c _ Hu. unfold resolve_claim.
    destruct (inclusion <$> get _ _) as [[]|]; simpl; [|done..|by destruct (update_in_flight _ _)].
    destruct (_ && _); [|done]. destruct (HeaderStore.store_block_hash _ _); simpl; auto with claims. }
  destruct (foldl _ _ _) as [u rm]. simpl in *. apply set_claims_keeps; [|done].
  apply (foldl_invariant claims_ok); [|apply Hfold]. auto with claims.
Qed.

Lemma confirm_keeps h hdr s : wallet_ok s → keeps_wallet s (confirm_pending_claims h hdr s).1.
Proof.
  intros Hs. unfold confirm_pending_claims. destruct (pending_claims s !! h) as [l|]; [|done].
  apply (foldl_invariant (λ acc, keeps_wallet s acc.1)); [|done].
  intros [s' ch] txid _ Hs'. pose proof (proj1 Hs') as Hok. unfold confirm_claim.
  pose proof (claims_ok_remove (mkClaimAt txid h) _ (wo_claims _ Hok)) as Hc. cbn [fst] in *.
  destruct (inclusion <$> get _ _) as [[]|]; cbn [fst]; [|by auto with claims..|].
  - apply set_claims_keeps; [done|]. apply set_tx_store_keeps; [|done].
    rewrite update_timestamp_txs, update_inclusion_txs. apply txs_ok_timestamp, txs_ok_inclusion;
      [by apply incl_ok_unverified|apply Hok].
  - destruct (update_in_flight _ _); cbn [fst]; auto with claims.
Qed.
End headers.

(** ** Any sequence of handlers *)

(** The calls the scan loop, the transaction builder and the consumer make. *)
Inductive WalletOp :=
  | OpInit
  | OpHistory (hist : gmap script (list (Txid * option N)))
  | OpReported (l : list ClaimAt)
  | OpTxs (l : list Transaction)
  | OpBroadcast (t : Transaction)
  | OpNewRecv
  | OpNewChange
  | OpNextIndex
  | OpConfirm (confirmations : list (N * HeaderValidator.Header))
  | OpStamp (block_time : N → option N).

Section ops.
Context `{HeaderValidator.HeaderLib}.

Definition run_wallet_op (op : WalletOp) s : outcome CoinStore :=
  match op with
  | OpInit => init s
  | OpHistory hist => let! r := handle_history_response hist s in Ret r.1
  | OpReported l => Ret (record_reported_heights l s).1
  | OpTxs l => handle_txs_response l s
  | OpBroadcast t => record_unconfirmed_tx t s
  | OpNewRecv => let! r := new_recv_addr s in Ret r.1
  | OpNewChange => let! r := new_change_addr s in Ret r.1
  | OpNextIndex => let! r := next_index s in Ret r.1
  | OpConfirm l => Ret (foldl (λ s x, (confirm_pending_claims x.1 x.2 s).1) s l)
  | OpStamp f => Ret (stamp_confirmation_times f s)
  end.

(** How many times it may move a tip. *)
Definition op_cost (op : WalletOp) : N :=
  match op with
  | OpHistory hist => N.of_nat (size hist)
  | OpInit | OpNewRecv | OpNewChange | OpNextIndex => 1
  | _ => 0
  end.

Lemma keeps_safe n s s' : keeps_wallet s s' → room n s → safe n (Ret s').
Proof. intros Hk Hr. exists s'. split_and!; [done|apply Hk|by eapply keeps_wallet_room]. Qed.

Lemma wallet_op_safe op n s :
  wallet_ok s → room (op_cost op + n) s → safe n (run_wallet_op op s).
Proof.
  intros Hs Hr. destruct op as [|hist|l|l|t| | | |l|f]; cbn [run_wallet_op op_cost] in *;
    rewrite ?(N.add_comm 1 n) in Hr; rewrite ?N.add_0_l in Hr.
  - by apply init_safe.
  - destruct (handle_history_response_safe n hist s Hs Hr) as (s' & o & -> & ? & ?). by exists s'.
  - eapply keeps_safe; [|done]. by apply record_reported_keeps.
  - by apply handle_txs_response_safe.
  - by apply record_unconfirmed_tx_safe.
  - destruct (new_recv_addr_safe n s Hs Hr) as (s' & a & -> & ? & ? & _). by exists s'.
  - destruct (new_change_addr_safe n s Hs Hr) as (s' & a & -> & ? & ? & _). by exists s'.
  - destruct (next_index_safe n s Hs Hr) as (s' & -> & ? & ?). by exists s'.
  - eapply keeps_safe; [|done]. apply (foldl_invariant (keeps_wallet s)); [|done].
    intros s' x _ [Hs' Ha']. destruct (confirm_keeps x.1 x.2 s' Hs') as [? ?]. split; [done|congruence].
  - eapply keeps_safe; [|done]. by apply stamp_keeps.
Qed.

Definition total_cost (ops : list WalletOp) : N := sumN (op_cost <$> ops).

Lemma wallet_ops_safe ops n s :
  wallet_ok s → room (total_cost ops + n) s →
  safe n (ofold (λ s op, run_wallet_op op s) s ops).
Proof.
  revert s; induction ops as [|op ops IH]; intros s Hs Hr; [by exists s|].
  cbn [ofold]. unfold total_cost in Hr. rewrite fmap_cons, sumN_cons, <-N.add_assoc in Hr.
  destruct (wallet_op_safe op _ s Hs Hr) as (s' & -> & Hs' & Hr'). by apply IH.
Qed.
End ops.

Lemma new_safe net desc name r c look t lbl acct hsc n :
  Derivator.new desc net = Ret (Ok d) → txs_ok (txs t) →
  r + look + 1 + n * (AddressStore.RECOVER_GAP + look + 2) < bound →
  c + look + 1 + n * (AddressStore.RECOVER_GAP + look + 2) < bound →
  ∃ s, new net desc name r c look t lbl acct hsc = Ret s ∧ wallet_ok s ∧ room n s ∧
    tx_store s = t.
Proof.
  intros Hd Ht Hr Hc. unfold new. rewrite Hd. simpl.
  destruct (AddressStore.with_account_store_spec d bound Hbound r c look acct)
    as (a & -> & Ha & Hl & Hr' & Hc'); [lia..|].
  simpl. eexists. split; [done|]. split_and!; [|..|done].
  - split; try done. apply claims_ok_empty.
  - intros kc [-> | ->]; unfold AddressStore.watch; simpl; rewrite Hl, ?Hr', ?Hc'; lia.
Qed.
End wallet.

Section total.
Context `{Build} `{DescriptorLib} `{Tip.TipCodecLaws}.
Context {A : Type} `{!Store A string bytes} `{!StoreLaws A string bytes} `{!StoreTotal A string bytes}.
Context {S : Type} `{!Store S Txid TxEntry} `{!StoreLaws S Txid TxEntry} `{!StoreTotal S Txid TxEntry}.
Context {L : Type} `{!Store L LabelKey string}.
(** ** From a fresh wallet *)

(** C12. The wallet's handlers never panic: open the coin store over any stored
    transactions and persisted tips, then let the scan loop, the broadcaster, the
    header side and the consumer call any handlers in any order, with whatever
    histories, transactions and headers the server sends. As long as the derivator
    still has addresses to give (each call may move a tip by the recovery gap), every
    call returns, regenerations included, and leaves the watch window whole, every
    transaction under its own id, at most one pending claim per transaction, and no
    script with an empty list of histories. *)
Theorem wallet_handlers_total `{HeaderValidator.HeaderLib} (d : SpkDerivator) (bound sat : N)
    `{!Derives d bound} net desc name r c look (t : S) (lbl : L) (acct : A) hsc (ops : list WalletOp)
    (Hbound : bound < 2 ^ 32)
    (Hsat : Coin.max_input_satisfaction_size (descriptor d) = Ret sat)
    (Hd : Derivator.new desc net = Ret (Ok d)) (Ht : keyed (txs t))
    (Hr : r + look + 1 + total_cost ops * (AddressStore.RECOVER_GAP + look + 2) < bound)
    (Hc : c + look + 1 + total_cost ops * (AddressStore.RECOVER_GAP + look + 2) < bound) :
  ∃ s0 s, new net desc name r c look t lbl acct hsc = Ret s0 ∧
    ofold (λ s op, run_wallet_op op s) s0 ops = Ret s ∧
    AddressStore.addresses_ok d (address_store s) ∧ keyed (txs (tx_store s)) ∧
    claims_ok (pending_claims s) ∧ Forall update_ok (updates s) ∧
    ∀ spk h, spk_history s !! spk = Some h → h ≠ [].
Proof.
  destruct (new_safe d bound Hbound (λ _ _ _, True) net desc name r c look t lbl acct hsc
    (total_cost ops)) as (s0 & Hnew & Hs0 & Hroom & _); [done| |done..|].
  { intros txid e He. split; [by apply Ht|done]. }
  destruct (wallet_ops_safe d bound Hbound sat Hsat (λ _ _ _, True) ops 0 s0 Hs0)
    as (s & Hs & Hok & _); [by rewrite N.add_0_r|].
  exists s0, s. split_and!; try done; try apply Hok. by eapply txs_ok_keyed, Hok.
Qed.
End total.

Module Witness.
Import Sample HeaderValidator.Sample Derivator.Witness AddressStore.Witness CoinStore.Witness.

Definition ops : list WalletOp :=
  [OpInit; OpHistory {[ [6; 0] := [(0, Some 2)] ]}; OpReported [mkClaimAt 0 2]; OpTxs [pay_in];
   OpBroadcast pay_out; OpHistory {[ [6; 0] := [(0, Some 2); (1, None)]; [7; 1] := [(1, None)] ]};
   OpConfirm [(2, hdr 8 102 9)]; OpStamp (λ _, Some 102); OpNewRecv; OpNewChange; OpNextIndex].

Lemma wallet_handlers_total_witness :
  ∃ s0 s, new Regtest 3 "w" 0 0 2 no_txs tt acct true = Ret s0 ∧
    ofold (λ s op, run_wallet_op op s) s0 ops = Ret s ∧
    AddressStore.addresses_ok der (address_store s) ∧ keyed (txs (tx_store s)) ∧
    claims_ok (pending_claims s) ∧ Forall update_ok (updates s) ∧
    ∀ spk h, spk_history s !! spk = Some h → h ≠ [].
Proof.
  apply (wallet_handlers_total der 1000000 108); try (vm_compute; reflexivity).
  intros txid e. vm_compute. done.
Defined.

(** A fresh wallet, and the one that received a payment reported at height 2. *)
Abbreviation SampleStore :=
  (CoinStore (A:=RamStore unit string bytes) (S:=RamStore unit Txid TxEntry) (L:=unit)).
Definition run (ops : list WalletOp) (s : SampleStore) : SampleStore :=
  match ofold (λ s op, run_wallet_op op s) s ops with Ret s => s | Panic => s end.
Definition fresh : SampleStore :=
  match new Regtest 3 "w" 0 0 2 no_txs tt acct true with Ret s => s | Panic => sample end.
Definition received_ops : list WalletOp :=
  [OpInit; OpHistory {[ [6; 0] := [(0, Some 2)] ]}; OpReported [mkClaimAt 0 2]; OpTxs [pay_in]].
Definition received : SampleStore := run received_ops fresh.

Lemma received_ok proved : wallet_ok der proved received.
Proof.
  destruct (new_safe der 1000000 eq_refl proved Regtest 3 "w" 0 0 2 no_txs tt acct true
      (total_cost received_ops))
    as (s & Hs & Hok & Hr & _); [reflexivity| |vm_compute; reflexivity..|].
  { intros txid e. by vm_compute. }
  assert (s = fresh) as -> by (unfold fresh; by rewrite Hs).
  destruct (wallet_ops_safe der 1000000 eq_refl 108 eq_refl proved received_ops 0 fresh Hok)
    as (s & Hrun & Hok' & _); [by rewrite N.add_0_r|].
  unfold received, run. by rewrite Hrun.
Qed.
End Witness.
End Wallet.
