(* ===== verification/Reconcile.v ===== *)
(** * The reconciler (electrum/src/reconcile.rs)

    The pass between what a server reported and the validated chain: pending
    claims are promoted when their header is there, their merkle proofs asked for,
    and a transaction becomes verified when its proof checks against the header.
    A proof is handled under several acquisitions of the locks of the two stores, and
    [step] lets the other threads act between any two of them: after its fetch is
    freed, after the header is read, after the entry is, and before a claim is tried
    again. Two things are one step that the code does in more: the check that the
    chain is validated with the read of the header that follows it, and
    [on_chain_update], whose readiness check, pass under the coin store's lock and
    requests to the header store follow one another. *)
From stdpp Require Import base gmap list strings.
From S2P Require Import Prelude Bitcoin Coin Persist HeaderBackend HeaderValidator HeaderStore.
From S2P Require Import Fanout Merkle Notification TxStore Derivator AddressStore Claims CoinStore Wallet.

Module Reconcile.
Import Persist TxStore Derivator Claims.
Import HeaderValidator(HeaderLib, raw_header).

Section reconcile.
Context `{Build} `{DescriptorLib} `{Tip.TipCodec}.
Context {A : Type} `{!Store A string bytes}.
Context {S : Type} `{!Store S Txid TxEntry}.
Context {L : Type} `{!Store L LabelKey string}.
Context `{HeaderLib} {SH : Type} `{!Store SH N raw_header}.

(** The stores a pass works on, the merkle side of the header store, and the
    notifications it sent. *)
Record Recon := mkRecon {
  coins : CoinStore.CoinStore (A:=A) (S:=S) (L:=L);
  headers : HeaderStore.HeaderStore (S:=SH);
  merkle : Merkle.MerkleSide;
  sent : list Notification.Notification
}.
Definition set_coins (c : CoinStore.CoinStore) (r : Recon) : Recon :=
  mkRecon c (headers r) (merkle r) (sent r).
Definition set_headers (h : HeaderStore.HeaderStore) (r : Recon) : Recon :=
  mkRecon (coins r) h (merkle r) (sent r).
Definition set_merkle (m : Merkle.MerkleSide) (r : Recon) : Recon :=
  mkRecon (coins r) (headers r) m (sent r).
Definition notify (n : Notification.Notification) (r : Recon) : Recon :=
  mkRecon (coins r) (headers r) (merkle r) (sent r ++ [n]).

Definition header_store_ready (r : Recon) : Recon * bool :=
  if HeaderStore.is_validated (headers r) then (r, true)
  else
    match HeaderStore.validation_failed_reason (headers r) with
    | Some reason =>
        (notify (Notification.ValidationFailed (Notification.HeaderStoreFailure reason)) r, false)
    | None => (r, false)
    end.

Definition persist_and_generate (r : Recon) : outcome Recon :=
  let c := CoinStore.set_tx_store (persist (CoinStore.tx_store (coins r))) (coins r) in
  let! c := CoinStore.generate c in
  Ret (set_coins c r).

Definition commit_chain_update (changed : bool) (r : Recon) : outcome Recon :=
  if changed then
    let! r := persist_and_generate r in
    Ret (notify Notification.HeaderStoreUpdated r)
  else Ret r.

Definition queue_merkle_fetches (merkle_id : N) (to_fetch : list ClaimAt) (r : Recon) : Recon :=
  set_merkle (foldl (λ m c, Merkle.fetch_merkle merkle_id (claim_txid c) (claim_height c) m)
                (merkle r) to_fetch) r.

Definition requeue_confirmed_unverified (merkle_id : N) (r : Recon) : Recon :=
  queue_merkle_fetches merkle_id (CoinStore.confirmed_unverified_claims (coins r)) r.

Definition stamp_confirmation_times (r : Recon) : Recon :=
  set_coins (CoinStore.stamp_confirmation_times
    (λ h, HeaderValidator.time <$> HeaderStore.header (headers r) h) (coins r)) r.

Definition on_chain_update (merkle_id : N) (r : Recon) : outcome Recon :=
  let '(r, ready) := header_store_ready r in
  if negb ready then Ret r
  else
    let reverify := CoinStore.reverify_remined_entries (headers r) (coins r) in
    let promote := CoinStore.resolve_pending_claims (headers r) (CoinStore.cu_store reverify) in
    let changed := CoinStore.cu_changed reverify || CoinStore.cu_changed promote in
    let to_fetch := CoinStore.to_fetch reverify ++ CoinStore.to_fetch promote in
    let store := CoinStore.cu_store promote in
    let lowest_claim := head (pending_claim_heights (CoinStore.pending_claims store)) in
    let! r := commit_chain_update changed (set_coins store r) in
    let r :=
      match lowest_claim with
      | Some height => set_headers (HeaderStore.request_extend_down height (headers r)).1 r
      | None => r
      end in
    Ret (queue_merkle_fetches merkle_id to_fetch r).

Definition retry_reorged_merkle_claim (merkle_id : N) (claim : ClaimAt) (r : Recon) : outcome Recon :=
  let stored_hash :=
    match inclusion <$> get (CoinStore.tx_store (coins r)) (claim_txid claim) with
    | Some (ConfirmedUnverified height block_hash) =>
        if height =? claim_height claim then Some block_hash else None
    | _ => None
    end in
  match stored_hash, HeaderStore.store_block_hash (headers r) (claim_height claim) with
  | Some hash, Some current =>
      if current =? hash then Ret r else on_chain_update merkle_id r
  | _, _ => Ret r
  end.

Record MerkleTarget := mkTarget {
  mt_txid : Txid;
  mt_height : N;
  mt_block_hash : BlockHash;
  expected_root : N
}.

(** [resolve_tx_merkle_target]: the header, and then the entry, under its lock. *)
Definition resolve_entry (txid : Txid) (height root : N) (block_hash : BlockHash) (r : Recon) : option MerkleTarget :=
  match inclusion <$> get (CoinStore.tx_store (coins r)) txid with
  | Some (ConfirmedUnverified entry_height entry_hash) =>
      if negb (entry_height =? height) then None
      else if negb (entry_hash =? block_hash) then None
      else Some (mkTarget txid height block_hash root)
  | _ => None
  end.
Definition resolve_tx_merkle_target (txid : Txid) (height : N) (r : Recon) : option MerkleTarget :=
  match HeaderStore.merkle_root_and_hash (headers r) height with
  | None => None
  | Some (root, block_hash) => resolve_entry txid height root block_hash r
  end.

Definition set_inclusion_of (txid : Txid) (i : Inclusion) (r : Recon) : Recon :=
  set_coins (CoinStore.set_tx_store
    (update_inclusion txid i (CoinStore.tx_store (coins r))) (coins r)) r.

Definition apply_tx_merkle (target : MerkleTarget) (branch : list N) (pos : N) (r : Recon) :
    outcome Recon :=
  let '(mkTarget txid height block_hash root) := target in
  if HeaderStore.verify_merkle_branch txid branch pos root then
    commit_chain_update true (set_inclusion_of txid (Verified height block_hash) r)
  else
    let! r := persist_and_generate (set_inclusion_of txid (VerifyFailed height block_hash) r) in
    Ret (notify (Notification.ValidationFailed (Notification.MerkleProof txid height)) r).

Definition clear_in_flight (claim : ClaimAt) (r : Recon) : Recon :=
  set_coins (CoinStore.clear_merkle_in_flight claim (coins r)) r.

Definition handle_tx_merkle (merkle_id : N) (proof : Merkle.MerkleProof) (r : Recon) : outcome Recon :=
  let claim := mkClaimAt (Merkle.mp_txid proof) (Merkle.mp_height proof) in
  let r := clear_in_flight claim r in
  let '(r, ready) := header_store_ready r in
  if negb ready then Ret r
  else
    match resolve_tx_merkle_target (Merkle.mp_txid proof) (Merkle.mp_height proof) r with
    | None => retry_reorged_merkle_claim merkle_id claim r
    | Some target => apply_tx_merkle target (Merkle.mp_branch proof) (Merkle.mp_pos proof) r
    end.

Definition handle_merkle_outcome (merkle_id : N) (o : Merkle.MerkleOutcome) (r : Recon) :
    outcome Recon :=
  match o with
  | Merkle.Proof_ proof => handle_tx_merkle merkle_id proof r
  | Merkle.Failed_ txid height =>
      let claim := mkClaimAt txid height in
      retry_reorged_merkle_claim merkle_id claim (clear_in_flight claim r)
  end.

(** One turn of the loop: the ticks and the outcomes that were waiting. *)
Record Turn := mkTurn {
  stop : bool;
  chain_ticks : list unit;
  scan_ticks : list unit;
  outcomes : list Merkle.MerkleOutcome
}.
Definition drain_ticks (rx : list unit) : bool := match rx with [] => false | _ => true end.

Definition turn (merkle_id : N) (t : Turn) (r : Recon) : outcome Recon :=
  let ticked := drain_ticks (chain_ticks t) || drain_ticks (scan_ticks t) in
  let! r := if ticked then on_chain_update merkle_id r else Ret r in
  let! r := ofold (λ r o, handle_merkle_outcome merkle_id o r) r (outcomes t) in
  let received := ticked || match outcomes t with [] => false | _ => true end in
  Ret (if received then stamp_confirmation_times r else r).

(** The loop over the turns it takes, ending when it is asked to stop. *)
Fixpoint reconcile_loop (merkle_id : N) (turns : list Turn) (r : Recon) : outcome Recon :=
  match turns with
  | [] => Ret r
  | t :: turns =>
      if stop t then Ret r
      else let! r := turn merkle_id t r in reconcile_loop merkle_id turns r
  end.
Definition reconcile (merkle_id : N) (turns : list Turn) (r : Recon) : outcome Recon :=
  reconcile_loop merkle_id turns
    (stamp_confirmation_times (requeue_confirmed_unverified merkle_id r)).
End reconcile.

(** ** No transaction is verified without a proof *)

Section soundness.
Context `{Build} `{DescriptorLib} `{Tip.TipCodecLaws}.
Context {A : Type} `{!Store A string bytes} `{!StoreLaws A string bytes} `{!StoreTotal A string bytes}.
Context {S : Type} `{!Store S Txid TxEntry} `{!StoreLaws S Txid TxEntry} `{!StoreTotal S Txid TxEntry}.
Context {L : Type} `{!Store L LabelKey string}.
Context `{HeaderLib} {SH : Type} `{!Store SH N raw_header}.
Context (d : SpkDerivator) (bound : N) `{!Derives d bound} (Hbound : bound < 2 ^ 32).
Context (sat : N) (Hsat : Coin.max_input_satisfaction_size (descriptor d) = Ret sat).
(** The header stores that occur: a chain that is asked to extend down is still one. *)
Context (Chain : HeaderStore.HeaderStore (S:=SH) → Prop).
Context (Hchain : ∀ hs h, Chain hs → Chain (HeaderStore.request_extend_down h hs).1).
Implicit Types r : Recon (A:=A) (S:=S) (L:=L) (SH:=SH).

(** A validated chain held, at height [h], a header of hash [bh] against whose
    root a branch for [txid] checks. *)
Definition proved (txid : Txid) (h : N) (bh : BlockHash) : Prop :=
  ∃ hs hdr branch pos, Chain hs ∧ HeaderStore.is_validated hs = true ∧
    HeaderStore.header hs h = Some hdr ∧ HeaderValidator.block_hash hdr = bh ∧
    HeaderStore.verify_merkle_branch txid branch pos (HeaderValidator.merkle_root hdr) = true.

Abbreviation wallet_ok := (Wallet.wallet_ok d proved).

Definition target_ok (t : MerkleTarget) : Prop :=
  ∃ hs hdr, Chain hs ∧ HeaderStore.is_validated hs = true ∧
    HeaderStore.header hs (mt_height t) = Some hdr ∧
    HeaderValidator.block_hash hdr = mt_block_hash t ∧
    HeaderValidator.merkle_root hdr = expected_root t.

Definition recon_ok r : Prop := wallet_ok (coins r) ∧ Chain (headers r).
Definition same_room r r' : Prop := ∀ n, Wallet.room bound n (coins r) → Wallet.room bound n (coins r').
(** A part of a pass returned, from a good state to a good state. *)
Definition passes r (o : outcome Recon) : Prop := ∃ r', o = Ret r' ∧ recon_ok r' ∧ same_room r r'.

Lemma passes_self r : recon_ok r → passes r (Ret r).
Proof. intros Hr. exists r. split_and!; [done|done|]. by intros n. Qed.
Lemma passes_after r r1 o : same_room r r1 → passes r1 o → passes r o.
Proof.
  intros Hs (r' & -> & Hr' & Hr''). exists r'. split_and!; [done|done|]. intros n ?. by apply Hr'', Hs.
Qed.

Lemma persist_generate_passes r :
  wallet_ok (coins r) → Chain (headers r) → passes r (persist_and_generate r).
Proof.
  intros Hc Hh. unfold persist_and_generate.
  destruct (Wallet.generate_ok d bound sat Hsat proved
    (CoinStore.set_tx_store (persist (CoinStore.tx_store (coins r))) (coins r))) as (c & -> & Hc' & _ & Hr).
  { apply Wallet.wallet_ok_tx_store; [|done]. rewrite persist_txs. apply Hc. }
  simpl. eexists. split; [done|]. by split.
Qed.
Lemma commit_passes b r : recon_ok r → passes r (commit_chain_update b r).
Proof.
  intros Hr. destruct (Hr) as [Hc Hh]. unfold commit_chain_update.
  destruct b; [|by apply passes_self].
  destruct (persist_generate_passes r Hc Hh) as (r' & -> & Hr' & Hroom). simpl. eexists. done.
Qed.

Lemma header_store_ready_keeps r :
  coins (header_store_ready r).1 = coins r ∧ headers (header_store_ready r).1 = headers r ∧
  merkle (header_store_ready r).1 = merkle r ∧
  (header_store_ready r).2 = HeaderStore.is_validated (headers r).
Proof.
  unfold header_store_ready. destruct (HeaderStore.is_validated (headers r)) eqn:Hv; [done|].
  by destruct (HeaderStore.validation_failed_reason (headers r)).
Qed.

Lemma keeps_wallet_passes r c :
  Chain (headers r) → Wallet.keeps_wallet d proved (coins r) c → recon_ok (set_coins c r) ∧
  same_room r (set_coins c r).
Proof. intros Hh [Hc Ha]. split; [by split|]. intros n. unfold Wallet.room. simpl. by rewrite Ha. Qed.

Lemma on_chain_update_passes id r : recon_ok r → passes r (on_chain_update id r).
Proof.
  intros [Hc Hh]. unfold on_chain_update. pose proof (header_store_ready_keeps r) as (Hec & Heh & _ & _).
  destruct (header_store_ready r) as [r1 ready]. simpl in Hec, Heh.
  assert (Hsr : same_room r r1) by (intros n; by rewrite Hec).
  destruct ready; simpl; [|exists r1; split_and!; [done|unfold recon_ok; by rewrite Hec, Heh|done]].
  rewrite Hec, Heh.
  pose proof (Wallet.reverify_keeps d proved (headers r) _ Hc) as [Hk1 Ha1].
  pose proof (Wallet.resolve_keeps d proved (headers r) _ Hk1) as [Hk2 Ha2].
  set (store := CoinStore.cu_store (CoinStore.resolve_pending_claims _ _)) in *.
  destruct (commit_passes (CoinStore.cu_changed (CoinStore.reverify_remined_entries (headers r) (coins r))
      || CoinStore.cu_changed (CoinStore.resolve_pending_claims (headers r)
           (CoinStore.cu_store (CoinStore.reverify_remined_entries (headers r) (coins r)))))
    (set_coins store r1)) as (r2 & -> & [Hc2 Hh2] & Hr2); [split; simpl; [done|by rewrite Heh]|].
  simpl. eexists. split; [done|]. split.
  - destruct (head _); split; simpl; auto.
  - assert (Hstep : same_room r (set_coins store r1)).
    { intros n. unfold Wallet.room. simpl. by rewrite Ha2, Ha1. }
    intros n Hn. destruct (head _); simpl; by apply Hr2, Hstep.
Qed.

Lemma retry_passes id c r : recon_ok r → passes r (retry_reorged_merkle_claim id c r).
Proof.
  intros Hr. unfold retry_reorged_merkle_claim.
  assert (Hself : passes r (Ret r)) by (by apply passes_self).
  destruct (match _ with Some _ => _ | None => None end) as [h|]; [|done].
  destruct (HeaderStore.store_block_hash _ _) as [cur|]; [|done].
  destruct (cur =? h); [done|]. by apply on_chain_update_passes.
Qed.

(** A validated chain held a header of that root and hash. *)
Definition located (h root : N) (bh : BlockHash) : Prop :=
  ∃ hs hdr, Chain hs ∧ HeaderStore.is_validated hs = true ∧ HeaderStore.header hs h = Some hdr ∧
    HeaderValidator.block_hash hdr = bh ∧ HeaderValidator.merkle_root hdr = root.
Lemma locate_ok hs h root bh :
  Chain hs → HeaderStore.is_validated hs = true → HeaderStore.merkle_root_and_hash hs h = Some (root, bh) → located h root bh.
Proof.
  intros Hh Hv. unfold HeaderStore.merkle_root_and_hash. destruct (HeaderStore.header hs h) as [hdr|] eqn:Hhdr; [|done].
  intros [= <- <-]. by exists hs, hdr.
Qed.
Lemma resolve_entry_ok txid h root bh r t : located h root bh → resolve_entry txid h root bh r = Some t → target_ok t.
Proof.
  intros Hl. unfold resolve_entry. destruct (inclusion <$> get _ txid) as [[]|]; try done.
  destruct (negb _); [done|]. destruct (negb _); [done|]. by intros [= <-].
Qed.
Lemma resolve_target_ok txid h r t :
  Chain (headers r) → HeaderStore.is_validated (headers r) = true →
  resolve_tx_merkle_target txid h r = Some t → target_ok t.
Proof.
  intros Hh Hv. unfold resolve_tx_merkle_target.
  destruct (HeaderStore.merkle_root_and_hash (headers r) h) as [[root bh]|] eqn:E; [|done].
  apply resolve_entry_ok. by apply (locate_ok (headers r)).
Qed.

Lemma set_inclusion_ok txid i r :
  recon_ok r → Wallet.incl_ok proved txid i → recon_ok (set_inclusion_of txid i r).
Proof.
  intros [Hc Hh] Hi. split; [|done]. apply Wallet.wallet_ok_tx_store; [|done].
  rewrite update_inclusion_txs. apply Wallet.txs_ok_inclusion; [done|apply Hc].
Qed.

Lemma apply_passes t branch pos r :
  recon_ok r → target_ok t → passes r (apply_tx_merkle t branch pos r).
Proof.
  intros Hr (hs & hdr & Hchs & Hv & Hhdr & Hbh & Hroot). destruct t as [txid h bh root]. simpl in *.
  destruct (HeaderStore.verify_merkle_branch txid branch pos root) eqn:Hver.
  - apply (commit_passes true (set_inclusion_of txid (Verified h bh) r)).
    apply set_inclusion_ok; [done|]. intros h' bh' [= <- <-]. subst root.
    by exists hs, hdr, branch, pos.
  - destruct (persist_generate_passes (set_inclusion_of txid (VerifyFailed h bh) r))
      as (r' & -> & Hr' & Hroom); [| |by eexists].
    + apply set_inclusion_ok; [done|]. by intros ? ? [=].
    + apply Hr.
Qed.

Lemma clear_in_flight_ok c r : recon_ok r → recon_ok (clear_in_flight c r) ∧ same_room r (clear_in_flight c r).
Proof.
  intros [Hc Hh]. apply keeps_wallet_passes; [done|]. by apply Wallet.clear_in_flight_keeps.
Qed.

Lemma handle_tx_merkle_passes id p r : recon_ok r → passes r (handle_tx_merkle id p r).
Proof.
  intros Hr. unfold handle_tx_merkle.
  destruct (clear_in_flight_ok (mkClaimAt (Merkle.mp_txid p) (Merkle.mp_height p)) r Hr) as [Hr1 Hroom1].
  set (r1 := clear_in_flight _ r) in *.
  pose proof (header_store_ready_keeps r1) as (Hec & Heh & _ & Hready).
  destruct (header_store_ready r1) as [r2 ready]. simpl in Hec, Heh, Hready.
  assert (Hr2 : recon_ok r2) by (unfold recon_ok; by rewrite Hec, Heh).
  assert (Hroom2 : same_room r r2) by (intros n; rewrite Hec; apply Hroom1).
  apply (passes_after r r2); [done|]. destruct ready; simpl; [|by apply passes_self].
  destruct (resolve_tx_merkle_target _ _ r2) as [t|] eqn:Ht.
  - apply apply_passes; [done|].
    eapply resolve_target_ok; [apply Hr2|by rewrite Heh|done].
  - by apply retry_passes.
Qed.

Lemma handle_merkle_outcome_passes id o r : recon_ok r → passes r (handle_merkle_outcome id o r).
Proof.
  intros Hr. destruct o as [p|txid h]; simpl; [by apply handle_tx_merkle_passes|].
  destruct (clear_in_flight_ok (mkClaimAt txid h) r Hr) as [Hr1 Hroom1].
  eapply passes_after; [done|]. by apply retry_passes.
Qed.

Lemma stamp_ok r : recon_ok r → recon_ok (stamp_confirmation_times r) ∧ same_room r (stamp_confirmation_times r).
Proof. intros [Hc Hh]. apply keeps_wallet_passes; [done|]. by apply Wallet.stamp_keeps. Qed.

(** *** The thread, and what the others do meanwhile *)

Definition claim_of (proof : Merkle.MerkleProof) : ClaimAt := mkClaimAt (Merkle.mp_txid proof) (Merkle.mp_height proof).
(** Where the thread is, and what it holds there. *)
Inductive Point :=
  | Idle
  | Freed (proof : Merkle.MerkleProof)                                  (* its fetch is no more in flight *)
  | Located (proof : Merkle.MerkleProof) (root : N) (block_hash : BlockHash)
  | Resolved (target : MerkleTarget) (branch : list N) (pos : N)
  | Retrying (claim : ClaimAt).
Definition Conf : Type := Recon (A:=A) (S:=S) (L:=L) (SH:=SH) * Point.

Inductive step (id : N) : Conf → Conf → Prop :=
  (* the other threads, at any point *)
  | step_wallet r p op c : Wallet.room bound (Wallet.op_cost op) (coins r) →
      Wallet.run_wallet_op op (coins r) = Ret c → step id (r, p) (set_coins c r, p)
  | step_headers r p hs : Chain hs → step id (r, p) (set_headers hs r, p)
  | step_merkle r p m : step id (r, p) (set_merkle m r, p)
  (* the reconciler's *)
  | step_tick r r' : on_chain_update id r = Ret r' → step id (r, Idle) (r', Idle)
  | step_stamp r : step id (r, Idle) (stamp_confirmation_times r, Idle)
  | step_requeue r : step id (r, Idle) (requeue_confirmed_unverified id r, Idle)
  | step_failed r txid h : step id (r, Idle) (clear_in_flight (mkClaimAt txid h) r, Retrying (mkClaimAt txid h))
  | step_clear r proof : step id (r, Idle) (clear_in_flight (claim_of proof) r, Freed proof)
  | step_unready r proof : HeaderStore.is_validated (headers r) = false →
      step id (r, Freed proof) ((header_store_ready r).1, Idle)
  | step_locate r proof root bh : HeaderStore.is_validated (headers r) = true →
      HeaderStore.merkle_root_and_hash (headers r) (Merkle.mp_height proof) = Some (root, bh) →
      step id (r, Freed proof) (r, Located proof root bh)
  | step_lost r proof : HeaderStore.merkle_root_and_hash (headers r) (Merkle.mp_height proof) = None →
      step id (r, Freed proof) (r, Retrying (claim_of proof))
  | step_resolve r proof root bh t :
      resolve_entry (Merkle.mp_txid proof) (Merkle.mp_height proof) root bh r = Some t →
      step id (r, Located proof root bh) (r, Resolved t (Merkle.mp_branch proof) (Merkle.mp_pos proof))
  | step_refuse r proof root bh :
      resolve_entry (Merkle.mp_txid proof) (Merkle.mp_height proof) root bh r = None →
      step id (r, Located proof root bh) (r, Retrying (claim_of proof))
  | step_retry r r' claim : retry_reorged_merkle_claim id claim r = Ret r' → step id (r, Retrying claim) (r', Idle)
  | step_apply r r' t branch pos :
      apply_tx_merkle t branch pos r = Ret r' → step id (r, Resolved t branch pos) (r', Idle).

Definition point_ok (p : Point) : Prop :=
  match p with
  | Located proof root bh => located (Merkle.mp_height proof) root bh
  | Resolved t _ _ => target_ok t
  | Idle | Freed _ | Retrying _ => True
  end.
Definition conf_ok (c : Conf) : Prop := recon_ok c.1 ∧ point_ok c.2.

(** Without interference the steps are the whole handler. *)
Lemma handler_is_steps id o r r' :
  handle_merkle_outcome id o r = Ret r' → rtc (step id) (r, Idle) (r', Idle).
Proof.
  destruct o as [proof|txid h]; cbn [handle_merkle_outcome].
  - unfold handle_tx_merkle. fold (claim_of proof). intros Hr. eapply rtc_l; [apply (step_clear id r proof)|].
    revert Hr. set (r1 := clear_in_flight (claim_of proof) r). pose proof (step_unready id r1 proof) as Hun.
    unfold header_store_ready in *. destruct (HeaderStore.is_validated (headers r1)) eqn:Hv; cbn.
    + unfold resolve_tx_merkle_target.
      destruct (HeaderStore.merkle_root_and_hash (headers r1) (Merkle.mp_height proof)) as [[root bh]|] eqn:Hm.
      * intros Hr. eapply rtc_l; [by apply (step_locate id r1 proof root bh)|].
        destruct (resolve_entry _ _ root bh r1) as [t|] eqn:Ht.
        -- eapply rtc_l; [by apply step_resolve|]. by apply rtc_once, step_apply.
        -- eapply rtc_l; [by apply step_refuse|]. by apply rtc_once, step_retry.
      * intros Hr. eapply rtc_l; [by apply step_lost|]. by apply rtc_once, step_retry.
    + specialize (Hun eq_refl). destruct (HeaderStore.validation_failed_reason _); intros [= <-]; by apply rtc_once.
  - intros Hr. eapply rtc_l; [apply step_failed|]. by apply rtc_once, step_retry.
Qed.

Lemma step_ok id c c' : step id c c' → conf_ok c → conf_ok c'.
Proof.
  destruct 1 as [r p op c Hroom Hop|r p hs Hhs|r p m|r r' Ht|r|r|r txid h|r proof|r proof Hv|r proof root bh Hv Hm|r proof Hm
                |r proof root bh t Ht|r proof root bh Ht|r r' claim Hp|r r' t branch pos Ha]; intros [Hr Hpt]; simpl in *.
  - split; [|done]. destruct Hr as [Hc Hh]. split; [|done]. simpl.
    destruct (Wallet.wallet_op_safe d bound Hbound sat Hsat proved op 0 (coins r))
      as (c' & Hop' & Hc' & _); [done|by rewrite N.add_0_r|]. congruence.
  - split; [|done]. destruct Hr. by split.
  - split; [|done]. destruct Hr. by split.
  - split; [|done]. destruct (on_chain_update_passes id r Hr) as (r'' & Ht' & ? & _). simpl. congruence.
  - split; [|done]. by apply stamp_ok.
  - split; [|done]. destruct Hr. by split.
  - split; [|done]. by apply clear_in_flight_ok.
  - split; [|done]. by apply clear_in_flight_ok.
  - split; [|done]. destruct (header_store_ready_keeps r) as (Hc & Hh & _). unfold recon_ok. cbn [fst]. by rewrite Hc, Hh.
  - split; [done|]. by apply (locate_ok (headers r)); [apply Hr|..].
  - by split.
  - split; [done|]. by eapply resolve_entry_ok.
  - by split.
  - split; [|done]. destruct (retry_passes id claim r Hr) as (r'' & Hf' & ? & _). simpl in *. congruence.
  - split; [|done]. destruct (apply_passes t branch pos r Hr Hpt) as (r'' & Hf' & ? & _). simpl in *. congruence.
Qed.
Lemma steps_ok id c c' : rtc (step id) c c' → conf_ok c → conf_ok c'.
Proof. induction 1; eauto using step_ok. Qed.

(** C3. No transaction is shown as verified without a proof. Start from any wallet
    whose verified entries are proved (a fresh one has none), let the reconciler
    act, with the server's answers arbitrary, and let the scan loop, the consumer
    and the header worker act between any two of its steps, between the reading of
    a header, the reading of the entry and the application of the proof too: an
    entry that is verified at a height in a block always has a merkle branch that
    was checked against the root of a header of that hash, which a validated chain
    held at that height. *)
Theorem verified_is_proved (id : N) r0 r p txid e h bh
    (Hr0 : wallet_ok (coins r0)) (Hh0 : Chain (headers r0))
    (Hsteps : rtc (step id) (r0, Idle) (r, p))
    (He : txs (CoinStore.tx_store (coins r)) !! txid = Some e)
    (Hi : inclusion e = Verified h bh) :
  proved txid h bh.
Proof.
  destruct (steps_ok id (r0, Idle) (r, p) Hsteps) as [[Hr _] _]; [by split|].
  destruct (Wallet.wo_txs _ _ _ Hr _ _ He) as [_ Hok]. by apply Hok.
Qed.

(** C26. The reconciler thread never dies on what it receives: over any turns, with
    arbitrary ticks and arbitrary proofs, every pass returns, and the wallet is
    well formed after it. *)
Theorem reconcile_total (id : N) (turns : list Turn) r
    (Hr : wallet_ok (coins r)) (Hh : Chain (headers r)) :
  ∃ r', reconcile id turns r = Ret r' ∧ wallet_ok (coins r') ∧ Chain (headers r').
Proof.
  assert (Hloop : ∀ turns r, recon_ok r → ∃ r', reconcile_loop id turns r = Ret r' ∧ recon_ok r').
  { clear turns r Hr Hh. induction turns as [|t turns IH]; intros r Hr; simpl; [by exists r|].
    destruct (stop t); [by exists r|].
    assert (∃ r1, turn id t r = Ret r1 ∧ recon_ok r1) as (r1 & -> & Hr1); [|by apply IH].
    unfold turn. assert (∃ r1, (if drain_ticks (chain_ticks t) || drain_ticks (scan_ticks t)
      then on_chain_update id r else Ret r) = Ret r1 ∧ recon_ok r1) as (r1 & -> & Hr1).
    { destruct (_ || _); [|by exists r]. destruct (on_chain_update_passes id r Hr) as (r1 & -> & ? & _).
      by exists r1. }
    simpl. assert (∃ r2, ofold (λ r o, handle_merkle_outcome id o r) r1 (outcomes t) = Ret r2 ∧
      recon_ok r2) as (r2 & -> & Hr2).
    { revert r1 Hr1. induction (outcomes t) as [|o l IHl]; intros r1 Hr1; simpl; [by exists r1|].
      destruct (handle_merkle_outcome_passes id o r1 Hr1) as (r2 & -> & Hr2 & _). by apply IHl. }
    simpl. eexists. split; [done|]. destruct (_ || _); [by apply stamp_ok|done]. }
  apply Hloop. apply stamp_ok. by split.
Qed.
End soundness.

(** ** A reported confirmation gets verified *)

Section liveness.
Context `{Build} `{DescriptorLib} `{Tip.TipCodecLaws}.
Context {A : Type} `{!Store A string bytes} `{!StoreLaws A string bytes} `{!StoreTotal A string bytes}.
Context {S : Type} `{!Store S Txid TxEntry} `{!StoreLaws S Txid TxEntry} `{!StoreTotal S Txid TxEntry}.
Context {L : Type} `{!Store L LabelKey string}.
Context `{HeaderLib} {SH : Type} `{!Store SH N raw_header}.
Context (d : SpkDerivator) (bound : N) `{!Derives d bound} (Hbound : bound < 2 ^ 32).
Context (sat : N) (Hsat : Coin.max_input_satisfaction_size (descriptor d) = Ret sat).
Implicit Types r : Recon (A:=A) (S:=S) (L:=L) (SH:=SH).
Implicit Types s : CoinStore.CoinStore (A:=A) (S:=S) (L:=L).
Implicit Types hs : HeaderStore.HeaderStore (S:=SH).

(** The inclusion of a transaction. *)
Definition incl s (txid : Txid) : option Inclusion := inclusion <$> txs (CoinStore.tx_store s) !! txid.

Lemma get_incl s txid : inclusion <$> get (CoinStore.tx_store s) txid = incl s txid.
Proof. unfold incl. by rewrite get_txs. Qed.

Lemma incl_update s txid i t :
  incl (CoinStore.set_tx_store (update_inclusion txid i (CoinStore.tx_store s)) s) t =
    if decide (t = txid) then (λ _, i) <$> incl s t else incl s t.
Proof.
  unfold incl. simpl. rewrite update_inclusion_txs. destruct (decide (t = txid)) as [->|Hne].
  - rewrite lookup_alter_eq. by destruct (txs _ !! txid).
  - by rewrite lookup_alter_ne.
Qed.
Lemma incl_promote c h s t :
  incl (CoinStore.promote_claim c h s) t =
    if decide (t = claim_txid c) then (λ _, ConfirmedUnverified (claim_height c) h) <$> incl s t
    else incl s t.
Proof.
  rewrite <-incl_update. done.
Qed.

Lemma incl_generated s s' t : CoinStore.generated_from sat s s' → incl s' t = incl s t.
Proof.
  intros Hg. unfold incl. rewrite (CoinStore.gf_txs _ _ _ Hg), lookup_fmap. by destruct (txs _ !! t).
Qed.

(** The re-verification of the others leaves an unconfirmed entry, and the queue. *)
Lemma reverify_unconfirmed hs s txid :
  incl s txid = Some Unconfirmed →
  incl (CoinStore.cu_store (CoinStore.reverify_remined_entries hs s)) txid = Some Unconfirmed ∧
  CoinStore.pending_claims (CoinStore.cu_store (CoinStore.reverify_remined_entries hs s)) =
    CoinStore.pending_claims s ∧
  CoinStore.updates (CoinStore.cu_store (CoinStore.reverify_remined_entries hs s)) = CoinStore.updates s.
Proof.
  intros Hu. unfold CoinStore.reverify_remined_entries.
  apply (foldl_invariant (λ u, incl (CoinStore.cu_store u) txid = Some Unconfirmed ∧
    CoinStore.pending_claims (CoinStore.cu_store u) = CoinStore.pending_claims s ∧
    CoinStore.updates (CoinStore.cu_store u) = CoinStore.updates s)); [|done].
  intros u [t i] Hin Hinv.
  assert (Hne : i ≠ Unconfirmed → txid ≠ t).
  { intros Hi ->. apply Hi. unfold CoinStore.snapshot_inclusions in Hin.
    apply list_elem_of_fmap in Hin as ([t' e] & [= -> ->] & He). rewrite iter_txs in He.
    apply elem_of_bt_items in He. unfold incl in Hu. rewrite He in Hu. by injection Hu. }
  unfold CoinStore.reverify_entry. cbn [fst snd]. destruct i as [|h bh|h bh|h bh]; [done|..];
    specialize (Hne ltac:(done));
    (destruct (HeaderStore.store_block_hash hs h) as [cur|]; [|done]);
    (destruct (cur =? bh); [try done|]); try case_bool_decide; try done; simpl;
    rewrite ?incl_promote, ?decide_False by done; done.
Qed.

(** A queued claim whose header is there is promoted, whatever else is queued. *)
Lemma resolve_fold hs l u rm c hash :
  HeaderStore.store_block_hash hs (claim_height c) = Some hash →
  (∃ t, HeaderStore.tip hs = Some t ∧ claim_height c ≤ t) →
  (∀ c', c' ∈ l → claim_txid c' = claim_txid c → c' = c) →
  incl (CoinStore.cu_store u) (claim_txid c) = Some (ConfirmedUnverified (claim_height c) hash) ∧
    c ∈ CoinStore.to_fetch u ∧ CoinStore.cu_changed u = true ∨
  incl (CoinStore.cu_store u) (claim_txid c) = Some Unconfirmed ∧ c ∈ l →
  let u' := (foldl (CoinStore.resolve_claim hs) (u, rm) l).1 in
  incl (CoinStore.cu_store u') (claim_txid c) = Some (ConfirmedUnverified (claim_height c) hash) ∧
  c ∈ CoinStore.to_fetch u' ∧ CoinStore.cu_changed u' = true.
Proof.
  intros Hhash (tip & Htip & Hle). revert u rm.
  induction l as [|c' l IH]; intros u rm Hone Hcase; cbn [foldl].
  { destruct Hcase as [?|[_ []%not_elem_of_nil]]. done. }
  destruct (CoinStore.resolve_claim hs (u, rm) c') as [u1 rm1] eqn:Hstep. apply IH; [set_solver|].
  revert Hstep. unfold CoinStore.resolve_claim. rewrite get_incl.
  destruct (decide (c' = c)) as [->|Hne].
  - rewrite Hhash, Htip. destruct Hcase as [(Hi & Hf & Hch)|[Hi _]]; rewrite Hi.
    + intros [= <- <-]. by left.
    + rewrite (proj2 (N.leb_le _ _) Hle), bool_decide_eq_true_2 by done. simpl.
      intros [= <- <-]. left. simpl. rewrite incl_promote, decide_True, Hi by done.
      split_and!; [done|set_solver|done].
  - assert (Ht : claim_txid c ≠ claim_txid c').
    { intros Heq. apply Hne, Hone; [set_solver|done]. }
    assert (Hin : c ∈ c' :: l → c ∈ l) by set_solver.
    destruct (incl _ (claim_txid c')) as [[]|]; [| | | |destruct (CoinStore.update_in_flight _ _)];
      try (intros [= <- <-]; naive_solver).
    destruct (_ && _); [|intros [= <- <-]; naive_solver].
    destruct (HeaderStore.store_block_hash hs (claim_height c')); intros [= <- <-]; [|naive_solver].
    simpl. rewrite incl_promote, decide_False by done. set_solver.
Qed.

Lemma elem_of_queued m c : c ∈ CoinStore.queued_claims m ↔ claimed m (claim_txid c) (claim_height c).
Proof.
  unfold CoinStore.queued_claims, claimed. rewrite elem_of_flat_map. split.
  - intros ([h set] & (t & -> & Ht)%list_elem_of_fmap & Hm%elem_of_bt_items). exists set.
    split; [done|]. rewrite (sort_by_perm key_leb), elem_of_elements in Ht. done.
  - intros (set & Hm & Hin). exists (claim_height c, set). rewrite elem_of_bt_items. split; [|done].
    apply list_elem_of_fmap. exists (claim_txid c). split; [by destruct c|].
    rewrite (sort_by_perm key_leb). by apply elem_of_elements.
Qed.

Lemma resolve_promotes hs s c hash :
  HeaderStore.store_block_hash hs (claim_height c) = Some hash →
  (∃ t, HeaderStore.tip hs = Some t ∧ claim_height c ≤ t) →
  claims_ok (CoinStore.pending_claims s) →
  claimed (CoinStore.pending_claims s) (claim_txid c) (claim_height c) →
  incl s (claim_txid c) = Some Unconfirmed →
  let u := CoinStore.resolve_pending_claims hs s in
  incl (CoinStore.cu_store u) (claim_txid c) = Some (ConfirmedUnverified (claim_height c) hash) ∧
  c ∈ CoinStore.to_fetch u ∧ CoinStore.cu_changed u = true.
Proof.
  intros Hhash Htip Hok Hc Hi. unfold CoinStore.resolve_pending_claims.
  pose proof (resolve_fold hs (CoinStore.queued_claims (CoinStore.pending_claims s))
    (CoinStore.mkChainUpdate s [] false) [] c hash Hhash Htip) as Hf.
  destruct (foldl _ _ _) as [u rm]. simpl in *. apply Hf.
  - intros c' Hc' Ht. rewrite elem_of_queued, Ht in Hc'. destruct c, c'. simpl in *. subst. f_equal.
    by eapply (co_one _ Hok).
  - right. split; [done|]. by apply elem_of_queued.
Qed.

Lemma extend_down_keeps hs h :
  HeaderStore.store (HeaderStore.request_extend_down h hs).1 = HeaderStore.store hs ∧
  HeaderStore.validation_state (HeaderStore.request_extend_down h hs).1 = HeaderStore.validation_state hs.
Proof.
  unfold HeaderStore.request_extend_down. destruct (HeaderStore.min_height hs); [|done].
  destruct (_ <=? _); [done|]. destruct (HeaderStore.extend_down hs); [|done]. by destruct (_ <=? _).
Qed.

Lemma fetch_sent id l m c :
  Merkle.merkle_req m = Some true → c ∈ l →
  (claim_txid c, claim_height c) ∈ Merkle.sent_requests
    (foldl (λ m c, Merkle.fetch_merkle id (claim_txid c) (claim_height c) m) m l).
Proof.
  intros Hup Hc.
  assert (Hmono : ∀ l m x, Merkle.merkle_req m = Some true → x ∈ Merkle.sent_requests m →
    x ∈ Merkle.sent_requests
      (foldl (λ m c, Merkle.fetch_merkle id (claim_txid c) (claim_height c) m) m l)).
  { clear. induction l as [|c l IH]; intros m x Hup Hx; simpl; [done|].
    apply IH; unfold Merkle.fetch_merkle; simpl; rewrite Hup; simpl; [done|set_solver]. }
  revert m Hup. induction l as [|c' l IH]; intros m Hup; [set_solver|]. simpl.
  assert (Hup' : Merkle.merkle_req (Merkle.fetch_merkle id (claim_txid c') (claim_height c') m) = Some true)
    by (unfold Merkle.fetch_merkle; simpl; by rewrite Hup).
  apply elem_of_cons in Hc as [->|Hc]; [|by apply IH].
  apply Hmono; [done|]. unfold Merkle.fetch_merkle. simpl. rewrite Hup. simpl. set_solver.
Qed.

Abbreviation wallet_ok := (Wallet.wallet_ok d (λ _ _ _, True)).

Lemma persist_generate_incl r :
  wallet_ok (coins r) →
  ∃ r', persist_and_generate r = Ret r' ∧ wallet_ok (coins r') ∧ headers r' = headers r ∧
    merkle r' = merkle r ∧ (∀ t, incl (coins r') t = incl (coins r) t) ∧
    CoinStore.generated_from sat
      (CoinStore.set_tx_store (persist (CoinStore.tx_store (coins r))) (coins r)) (coins r').
Proof.
  intros Hc. unfold persist_and_generate.
  destruct (Wallet.generate_ok d bound sat Hsat (λ _ _ _, True)
    (CoinStore.set_tx_store (persist (CoinStore.tx_store (coins r))) (coins r))) as (c & -> & Hc' & Hg & _).
  { apply Wallet.wallet_ok_tx_store; [|done]. rewrite persist_txs. apply Hc. }
  simpl. eexists. split; [done|]. split_and!; try done. intros t. simpl.
  rewrite (incl_generated _ _ _ Hg). unfold incl. simpl. by rewrite persist_txs.
Qed.

(** A chain tick promotes the claim and asks for its proof. *)
Lemma tick_promotes id r c hdr :
  wallet_ok (coins r) → HeaderStore.is_validated (headers r) = true →
  HeaderStore.header (headers r) (claim_height c) = Some hdr →
  (∃ t, HeaderStore.tip (headers r) = Some t ∧ claim_height c ≤ t) →
  claimed (CoinStore.pending_claims (coins r)) (claim_txid c) (claim_height c) →
  incl (coins r) (claim_txid c) = Some Unconfirmed →
  ∃ r', on_chain_update id r = Ret r' ∧ wallet_ok (coins r') ∧
    incl (coins r') (claim_txid c) =
      Some (ConfirmedUnverified (claim_height c) (HeaderValidator.block_hash hdr)) ∧
    HeaderStore.is_validated (headers r') = true ∧
    HeaderStore.header (headers r') (claim_height c) = Some hdr ∧
    (Merkle.merkle_req (merkle r) = Some true →
     (claim_txid c, claim_height c) ∈ Merkle.sent_requests (merkle r')).
Proof.
  intros Hc Hv Hhdr Htip Hclaim Hi. unfold on_chain_update, header_store_ready. rewrite Hv. simpl.
  destruct (reverify_unconfirmed (headers r) (coins r) (claim_txid c) Hi) as (Hi1 & Hp1 & _).
  pose proof (Wallet.reverify_keeps d (λ _ _ _, True) (headers r) _ Hc) as [Hk1 _].
  set (s1 := CoinStore.cu_store (CoinStore.reverify_remined_entries (headers r) (coins r))) in *.
  destruct (resolve_promotes (headers r) s1 c (HeaderValidator.block_hash hdr)) as (Hi2 & Hf2 & Hch2);
    [unfold HeaderStore.store_block_hash; by rewrite Hhdr|done|apply Hk1|by rewrite Hp1|done|].
  pose proof (Wallet.resolve_keeps d (λ _ _ _, True) (headers r) _ Hk1) as [Hk2 _].
  set (u2 := CoinStore.resolve_pending_claims (headers r) s1) in *.
  rewrite Hch2, orb_true_r. unfold commit_chain_update.
  destruct (persist_generate_incl (set_coins (CoinStore.cu_store u2) r))
    as (r' & -> & Hok & Hh & Hm & Hincl & _); [done|].
  simpl. eexists. split; [done|]. unfold queue_merkle_fetches. cbn [coins headers merkle set_merkle].
  assert (Hhs : ∀ o, let r1 := match o with
      | Some height => set_headers (HeaderStore.request_extend_down height (headers r')).1
                         (notify Notification.HeaderStoreUpdated r')
      | None => notify Notification.HeaderStoreUpdated r' end in
    coins r1 = coins r' ∧ merkle r1 = merkle r ∧ HeaderStore.is_validated (headers r1) = true ∧
    HeaderStore.header (headers r1) (claim_height c) = Some hdr).
  { simpl in Hh, Hm. intros [h|]; simpl; rewrite Hh, ?Hm; [|done].
    destruct (extend_down_keeps (headers r) h) as [Hst Hvs]. split_and!; [done|done|..].
    - unfold HeaderStore.is_validated in *. by rewrite Hvs.
    - unfold HeaderStore.header, HeaderStore.peek in *. by rewrite Hst. }
  destruct (Hhs (head (pending_claim_heights (CoinStore.pending_claims (CoinStore.cu_store u2)))))
    as (Ec & Em & Ev & Eh). rewrite Ec, Em. split_and!; try done.
  - by rewrite Hincl.
  - intros Hup. apply fetch_sent; [done|]. apply elem_of_app. by right.
Qed.

(** A good proof verifies a promoted entry. *)
Lemma proof_verifies id r c hdr branch pos :
  wallet_ok (coins r) → HeaderStore.is_validated (headers r) = true →
  HeaderStore.header (headers r) (claim_height c) = Some hdr →
  incl (coins r) (claim_txid c) =
    Some (ConfirmedUnverified (claim_height c) (HeaderValidator.block_hash hdr)) →
  HeaderStore.verify_merkle_branch (claim_txid c) branch pos (HeaderValidator.merkle_root hdr) = true →
  ∃ r', handle_merkle_outcome id
      (Merkle.Proof_ (Merkle.mkProof (claim_txid c) (claim_height c) branch pos)) r = Ret r' ∧
    incl (coins r') (claim_txid c) = Some (Verified (claim_height c) (HeaderValidator.block_hash hdr)) ∧
    ∀ op ce, CoinStore.store (coins r') !! op = Some ce → op_txid op = claim_txid c →
      Coin.status (CoinStore.coin ce) = Coin.Confirmed ∨ Coin.status (CoinStore.coin ce) = Coin.Spent.
Proof.
  intros Hc Hv Hhdr Hi Hver. simpl. unfold handle_tx_merkle, header_store_ready. simpl.
  rewrite Hv. simpl. unfold resolve_tx_merkle_target, HeaderStore.merkle_root_and_hash.
  cbn [headers clear_in_flight set_coins coins]. rewrite Hhdr. simpl. unfold resolve_entry. cbn [set_coins coins].
  rewrite get_incl. unfold incl in Hi |- *. simpl. rewrite Hi, !N.eqb_refl. simpl. rewrite Hver.
  set (r1 := set_inclusion_of _ _ _).
  assert (Hi1 : incl (coins r1) (claim_txid c) =
    Some (Verified (claim_height c) (HeaderValidator.block_hash hdr))).
  { unfold r1, set_inclusion_of. cbn [coins set_coins]. rewrite incl_update, decide_True by done.
    unfold incl. simpl. by rewrite Hi. }
  destruct (persist_generate_incl r1) as (r' & Hr' & _ & _ & _ & Hincl & Hg).
  { apply Wallet.wallet_ok_tx_store; [|by apply Wallet.clear_in_flight_keeps].
    rewrite update_inclusion_txs. apply Wallet.txs_ok_inclusion; [done|apply Hc]. }
  rewrite Hr'. simpl. eexists. split; [done|]. simpl. fold (incl (coins r') (claim_txid c)).
  split; [by rewrite Hincl|]. intros op ce Hce Hop.
  clearbody r1. apply (CoinStore.gf_coins _ _ _ Hg) in Hce as (e & o & a & (He & _ & _) & ->). simpl.
  destruct (CoinStore.spent _ _); [by right|left].
  unfold incl in Hi1. simpl in He. rewrite persist_txs, Hop in He. rewrite He in Hi1.
  injection Hi1 as ->. done.
Qed.

(** C16. A reported confirmation gets verified: with a validated chain that holds
    the header of the claimed block, one chain tick promotes the queued claim
    whatever else is queued, and asks for the proof when a merkle client is up; an
    honest answer (any branch that checks against that header's root) then makes
    the transaction verified in that block, and its coins confirmed unless spent. *)
Theorem reported_gets_verified (id : N) r (c : ClaimAt) (hdr : HeaderValidator.Header)
    (branch : list N) (pos : N)
    (Hc : wallet_ok (coins r)) (Hv : HeaderStore.is_validated (headers r) = true)
    (Hhdr : HeaderStore.header (headers r) (claim_height c) = Some hdr)
    (Htip : ∃ t, HeaderStore.tip (headers r) = Some t ∧ claim_height c ≤ t)
    (Hclaim : claimed (CoinStore.pending_claims (coins r)) (claim_txid c) (claim_height c))
    (Hi : incl (coins r) (claim_txid c) = Some Unconfirmed)
    (Hver : HeaderStore.verify_merkle_branch (claim_txid c) branch pos
              (HeaderValidator.merkle_root hdr) = true) :
  ∃ r1 r2, on_chain_update id r = Ret r1 ∧
    (Merkle.merkle_req (merkle r) = Some true →
     (claim_txid c, claim_height c) ∈ Merkle.sent_requests (merkle r1)) ∧
    handle_merkle_outcome id
      (Merkle.Proof_ (Merkle.mkProof (claim_txid c) (claim_height c) branch pos)) r1 = Ret r2 ∧
    incl (coins r2) (claim_txid c) = Some (Verified (claim_height c) (HeaderValidator.block_hash hdr)) ∧
    ∀ op ce, CoinStore.store (coins r2) !! op = Some ce → op_txid op = claim_txid c →
      Coin.status (CoinStore.coin ce) = Coin.Confirmed ∨ Coin.status (CoinStore.coin ce) = Coin.Spent.
Proof.
  destruct (tick_promotes id r c hdr) as (r1 & Ht1 & Hc1 & Hi1 & Hv1 & Hh1 & Hask); try done.
  destruct (proof_verifies id r1 c hdr branch pos) as (r2 & ? & ? & ?); try done. eauto 10.
Qed.
End liveness.

Module Witness.
Import Sample HeaderValidator.Sample Derivator.Witness AddressStore.Witness.
Import CoinStore.Witness Wallet.Witness.

(** A validated chain of four headers, and a merkle client that is up. *)
Definition side : Merkle.MerkleSide :=
  Merkle.mkSide (Merkle.router Merkle.side0) (Some true) [] 0 0.
Abbreviation SampleRecon := (Recon (A:=RamStore unit string bytes) (S:=RamStore unit Txid TxEntry)
  (L:=unit) (SH:=RamStore unit N raw_header)).
Definition r0 : SampleRecon := mkRecon received HeaderStore.Witness.s4 side [].
Definition run (f : SampleRecon → outcome SampleRecon) (r : SampleRecon) : SampleRecon :=
  match f r with Ret r => r | Panic => r end.
Definition proof0 : Merkle.MerkleProof := Merkle.mkProof 0 2 [] 0.
Definition ticked : SampleRecon := run (on_chain_update 1) r0.
Definition cleared : SampleRecon := clear_in_flight (mkClaimAt 0 2) ticked.
Definition target0 : MerkleTarget := mkTarget 0 2 9 0.
Definition applied : SampleRecon := run (apply_tx_merkle target0 [] 0) cleared.

(** The chain is one that passes the reload checks. *)
Definition chain_good (hs : HeaderStore.HeaderStore (S:=RamStore unit N raw_header)) : Prop :=
  HeaderStore.good false 1000 hs.
Lemma chain_good_extend hs h : chain_good hs → chain_good (HeaderStore.request_extend_down h hs).1.
Proof.
  intros Hg. unfold HeaderStore.request_extend_down. destruct (HeaderStore.min_height hs); [|done].
  destruct (_ <=? _); [done|]. destruct (HeaderStore.extend_down hs); [|done]. by destruct (_ <=? _).
Qed.

Example ticked_asks : Merkle.sent_requests (merkle ticked) = [(0, 2)].
Proof. vm_compute. reflexivity. Qed.

(** The proof is freed, located and resolved. *)
Lemma proof_resolved : rtc (step 1000000 chain_good 1) (ticked, Idle) (cleared, Resolved target0 [] 0).
Proof.
  eapply rtc_l; [exact (step_clear 1000000 chain_good 1 ticked proof0)|].
  eapply rtc_l; [apply (step_locate 1000000 chain_good 1 cleared proof0 0 9); vm_compute; reflexivity|].
  apply rtc_once, (step_resolve 1000000 chain_good 1 cleared proof0 0 9 target0). vm_compute. reflexivity.
Qed.

Lemma verified_is_proved_witness : proved chain_good 0 2 9.
Proof.
  eapply (verified_is_proved der 1000000 eq_refl 108 eq_refl chain_good chain_good_extend 1 r0 applied
    Idle 0).
  - apply received_ok.
  - apply HeaderStore.Witness.s4_good.
  - eapply rtc_l; [apply (step_tick 1000000 chain_good 1 r0 ticked); vm_compute; reflexivity|].
    etrans; [exact proof_resolved|].
    eapply rtc_l; [apply (step_apply 1000000 chain_good 1 cleared applied target0 [] 0); vm_compute; reflexivity|].
    apply rtc_refl.
  - vm_compute. reflexivity.
  - reflexivity.
Defined.

Lemma reconcile_total_witness :
  ∃ r', reconcile 1 [mkTurn false [tt] [] []; mkTurn false [] [] [Merkle.Proof_ proof0]] r0 = Ret r' ∧
    Wallet.wallet_ok der (proved chain_good) (coins r') ∧ chain_good (headers r').
Proof.
  apply (reconcile_total der 1000000 108 eq_refl chain_good chain_good_extend).
  - apply received_ok.
  - apply HeaderStore.Witness.s4_good.
Defined.

Lemma reported_gets_verified_witness :
  ∃ r1 r2, on_chain_update 1 r0 = Ret r1 ∧
    (Merkle.merkle_req (merkle r0) = Some true → (0, 2) ∈ Merkle.sent_requests (merkle r1)) ∧
    handle_merkle_outcome 1 (Merkle.Proof_ proof0) r1 = Ret r2 ∧
    incl (coins r2) 0 = Some (Verified 2 9) ∧
    ∀ op ce, CoinStore.store (coins r2) !! op = Some ce → op_txid op = 0 →
      Coin.status (CoinStore.coin ce) = Coin.Confirmed ∨ Coin.status (CoinStore.coin ce) = Coin.Spent.
Proof.
  refine (reported_gets_verified der 1000000 eq_refl 108 eq_refl 1 r0 (mkClaimAt 0 2)
    (HeaderValidator.Sample.hdr 8 102 9) [] 0 (received_ok _) eq_refl _ _ _ _ eq_refl);
    try (vm_compute; reflexivity).
  - exists 3. split; [vm_compute; reflexivity|done].
  - exists {[0]}. split; [vm_compute; reflexivity|set_solver].
Defined.

(** Between the resolution of a proof and its application, the scan loop learns that the transaction is
    now at height 3. *)
Definition demote : Wallet.WalletOp := Wallet.OpHistory {[ [6; 0] := [(0, Some 3)] ]}.
Definition demoted : SampleRecon := set_coins (Wallet.Witness.run [demote] (coins cleared)) cleared.
Definition moved : SampleRecon :=
  set_coins (Wallet.Witness.run [Wallet.OpReported [mkClaimAt 0 3]] (coins demoted)) demoted.
Definition raced : SampleRecon := run (apply_tx_merkle target0 [] 0) moved.
Lemma race_steps : rtc (step 1000000 chain_good 1) (r0, Idle) (raced, Idle).
Proof.
  eapply rtc_l; [apply (step_tick 1000000 chain_good 1 r0 ticked); vm_compute; reflexivity|].
  etrans; [exact proof_resolved|].
  eapply rtc_l; [apply (step_wallet 1000000 chain_good 1 cleared (Resolved target0 [] 0) demote)|].
  { intros kc [-> | ->]; vm_compute; reflexivity. }
  { instantiate (1 := coins demoted). vm_compute. reflexivity. }
  eapply rtc_l; [apply (step_wallet 1000000 chain_good 1 demoted (Resolved target0 [] 0)
    (Wallet.OpReported [mkClaimAt 0 3]))|].
  { intros kc [-> | ->]; vm_compute; reflexivity. }
  { instantiate (1 := coins moved). vm_compute. reflexivity. }
  eapply rtc_l; [apply (step_apply 1000000 chain_good 1 moved raced target0 [] 0)|apply rtc_refl].
  vm_compute. reflexivity.
Qed.

(** A proof that is applied late undoes a demotion. The reconciler checks a
    proof's claim under one lock and applies it under another: here, in between, the
    scan loop learns that the transaction moved to height 3, resets it and queues
    the claim at 3; the old proof then makes it verified at height 2 all the same,
    the next chain tick drops the claim at 3 as verified elsewhere, and asks for no
    proof of it: the wallet shows the old block until the next history change. *)
Theorem stale_proof_race :
  rtc (step 1000000 chain_good 1) (r0, Idle) (raced, Idle) ∧
  incl (coins moved) 0 = Some Unconfirmed ∧
  pending_claim_height (CoinStore.pending_claims (coins moved)) 0 = Some 3 ∧
  incl (coins raced) 0 = Some (Verified 2 9) ∧
  ∃ r, on_chain_update 1 raced = Ret r ∧ incl (coins r) 0 = Some (Verified 2 9) ∧
    CoinStore.pending_claims (coins r) = ∅ ∧ (0, 3) ∉ Merkle.sent_requests (merkle r).
Proof.
  split_and!; [apply race_steps|vm_compute; reflexivity..|].
  - exists (run (on_chain_update 1) raced). split_and!; vm_compute; [reflexivity..|].
    intros Hin. repeat (apply elem_of_cons in Hin as [[=]|Hin]). by apply elem_of_nil in Hin.
Qed.
End Witness.
End Reconcile.
