(* ===== verification/History.v ===== *)
(** * The payment history and the balance (electrum/src/history.rs, scanner.rs)

    What each account owns of each transaction, summed over accounts and netted
    into payments; and the balance the scanner reports, the signed total of its
    payments. The balance theorem ties it to the coins: it is the value of the
    unspent ones. How a transaction id is printed is a parameter. *)
From stdpp Require Import base gmap list strings sorting pretty.
From Stdlib Require Import Lia ZArith.
From S2P Require Import Prelude Bitcoin Coin Persist HeaderBackend HeaderValidator HeaderStore.
From S2P Require Import Notification TxStore Derivator AddressStore Claims CoinStore.

Module History.
Import Persist TxStore Derivator Claims CoinStore.

#[export] Instance nat_KeyOrd : KeyOrd nat := Nat.leb.

Inductive PaymentType := Receive | Send | ToSelf.
#[export] Instance PaymentType_eqdec : EqDecision PaymentType.
Proof. solve_decision. Defined.

Record Payment := mkPayment {
  p_txid : string;
  payment_type : PaymentType;
  p_status : PaymentStatus;
  amount : N;
  p_label : string;
  p_height : option N;
  p_timestamp : option N
}.

Record TxContribution := mkContribution {
  owned_in : N;
  owned_out : N;
  owned_vouts : gset N;
  c_height : option N;
  c_status : PaymentStatus;
  c_timestamp : option N;
  c_label : option string;
  c_tx : option Transaction
}.
Definition contribution_default : TxContribution :=
  mkContribution 0 0 ∅ None PUnconfirmed None None None.

(** The first of two options that is there. *)
Definition or_else {X} (a b : option X) : option X := match a with Some _ => a | None => b end.

(** ** Aggregation *)

Definition merge (f c : TxContribution) : TxContribution :=
  mkContribution
    (sat_add u64_max (owned_in f) (owned_in c))
    (sat_add u64_max (owned_out f) (owned_out c))
    (owned_vouts f ∪ owned_vouts c)
    (or_else (c_height f) (c_height c))
    (payment_status_merge (c_status f) (c_status c))
    (or_else (c_timestamp f) (c_timestamp c))
    (or_else (c_label f) (c_label c))
    (or_else (c_tx f) (c_tx c)).

Definition add_contribution (m : gmap Txid TxContribution) (kv : Txid * TxContribution) :
    gmap Txid TxContribution :=
  <[kv.1 := merge (default contribution_default (m !! kv.1)) kv.2]> m.
Definition by_txid (accounts : list (gmap Txid TxContribution)) : gmap Txid TxContribution :=
  foldl (λ m account, foldl add_contribution m (bt_items account)) ∅ accounts.

(** Direction and amount. *)
Definition net (f : TxContribution) : PaymentType * N :=
  if owned_in f =? 0 then (Receive, owned_out f)
  else if owned_in f <? owned_out f then (Receive, owned_out f - owned_in f)
  else
    let outflow := owned_in f - owned_out f in
    match length ∘ output <$> c_tx f with
    | Some n => if (size (owned_vouts f) =? n)%nat then (ToSelf, outflow) else (Send, outflow)
    | None => (Send, outflow)
    end.

(** [Ordering] of two payments, as at most. *)
Definition payment_leb (a b : Payment) : bool :=
  match p_height a, p_height b with
  | None, None => key_leb (p_txid a) (p_txid b)
  | None, Some _ => true
  | Some _, None => false
  | Some ha, Some hb => (hb <? ha) || ((hb =? ha) && key_leb (p_txid a) (p_txid b))
  end.

Section aggregate.
Context (show_txid : Txid → string).

Definition payment_of (kv : Txid * TxContribution) : option Payment :=
  let '(txid, f) := kv in
  if (owned_in f =? 0) && (owned_out f =? 0) then None
  else
    let '(t, a) := net f in
    Some (mkPayment (show_txid txid) t (c_status f) a (default EmptyString (c_label f))
            (c_height f) (c_timestamp f)).

Definition aggregate_payments (accounts : list (gmap Txid TxContribution)) : list Payment :=
  sort_by payment_leb (omap payment_of (bt_items (by_txid accounts))).
End aggregate.

(** ** What the scanner's account contributes *)

Section scanner.
Context `{Build} `{DescriptorLib} `{Tip.TipCodec}.
Context {A : Type} `{!Store A string bytes}.
Context {S : Type} `{!Store S Txid TxEntry}.
Context {L : Type} `{!Store L LabelKey string}.
Context (show_txid : Txid → string).
Implicit Types s : CoinStore (A:=A) (S:=S) (L:=L).

(** The owned outputs with their values, in order. *)
Definition owned_outputs (e : TxEntry) : list (N * N) :=
  omap (λ kv : nat * OutputMetadata,
    if om_owned kv.2 then (λ o, (N.of_nat kv.1, txout_value o)) <$> output (tx e) !! kv.1 else None)
    (bt_items (outputs e)).
Definition owned_inputs (e : TxEntry) : list N :=
  (λ m, default 0 (im_value m)) <$> List.filter im_owned (bt_values (inputs e)).

Definition contribution s (e : TxEntry) : outcome TxContribution :=
  let txid := entry_txid e in
  let! owned_in := sum64 (owned_inputs e) in
  let! owned_out := sum64 (owned_outputs e).*2 in
  let vouts : gset N := list_to_set (owned_outputs e).*1 in
  let label :=
    or_else (label_transaction (label_store s) txid)
      (head (omap (λ vout, label_outpoint (label_store s) (mkOutPoint txid vout))
        (sort_by key_leb (elements vouts)))) in
  Ret (mkContribution owned_in owned_out vouts
         (or_else (pending_claim_height (pending_claims s) txid) (entry_height e))
         (payment_status s e) (timestamp e) label (Some (tx e))).

Definition tx_contributions s : outcome (gmap Txid TxContribution) :=
  ofold (λ m e, let! c := contribution s e in Ret (<[entry_txid e := c]> m)) ∅ (tx_history s).

Definition payment_history s : outcome (list Payment) :=
  let! m := tx_contributions s in Ret (aggregate_payments show_txid [m]).

(** The signed total; an [i128] holds the sum of any 2^63 amounts. *)
Definition signed (p : Payment) : Z :=
  match payment_type p with
  | Receive => Z.of_N (amount p)
  | Send | ToSelf => (- Z.of_N (amount p))%Z
  end.
Definition running_total (l : list Payment) : Z := foldl (λ a p, (a + signed p)%Z) 0%Z l.
Definition balance s : outcome (N * list Payment) :=
  let! payments := payment_history s in
  let total := running_total payments in
  Ret ((if (total <? 0)%Z then 0 else Z.to_N total mod 2 ^ 64), payments).
End scanner.
(** ** Proofs *)

Section lemmas.

Definition sumZ (l : list Z) : Z := foldr Z.add 0%Z l.
Lemma sumZ_cons x l : sumZ (x :: l) = (x + sumZ l)%Z.
Proof. done. Qed.
Lemma sumZ_perm l l' : l ≡ₚ l' → sumZ l = sumZ l'.
Proof. induction 1; simpl; lia. Qed.
Lemma sumZ_sub {X} (f g : X → N) l :
  sumZ ((λ x, Z.of_N (f x) - Z.of_N (g x))%Z <$> l) =
    (Z.of_N (sumN (f <$> l)) - Z.of_N (sumN (g <$> l)))%Z.
Proof. induction l as [|x l IH]; csimpl; lia. Qed.

Lemma sumN_flat_map {X} (f : X → list N) l : sumN (flat_map f l) = sumN ((λ x, sumN (f x)) <$> l).
Proof. induction l as [|x l IH]; [done|]. csimpl. by rewrite sumN_app, IH. Qed.
Lemma sumN_fmap_ext {X} (f g : X → N) l : (∀ x, x ∈ l → f x = g x) → sumN (f <$> l) = sumN (g <$> l).
Proof.
  intros Hfg. f_equal. apply list_fmap_ext. intros i x Hx. apply Hfg. by eapply list_elem_of_lookup_2.
Qed.
Lemma sumN_le {X} (f : X → N) l x : x ∈ l → f x ≤ sumN (f <$> l).
Proof. induction 1; csimpl; lia. Qed.
Lemma sumN_filter {X} (p : X → bool) (f : X → N) l :
  sumN (f <$> List.filter p l) = sumN ((λ x, if p x then f x else 0) <$> l).
Proof. induction l as [|x l IH]; [done|]. simpl. destruct (p x); csimpl; by rewrite IH. Qed.

(** The items of a map built from an enumerated list. *)
Lemma enumerate_keys {X} (l : list X) : (enumerate l).*1 = seq 0 (length l).
Proof.
  apply list_eq. intros i. unfold enumerate. rewrite list_lookup_fmap, list_lookup_imap.
  destruct (l !! i) as [x|] eqn:Hi; simpl.
  - symmetry. apply lookup_seq. split; [done|]. by apply lookup_lt_Some in Hi.
  - symmetry. apply lookup_seq_ge. by apply lookup_ge_None in Hi.
Qed.
Lemma enumerate_items {X Y} (g : X → Y) (l : list X) :
  bt_items (list_to_map ((λ i, (i.1, g i.2)) <$> enumerate l) : gmap nat Y) ≡ₚ
    (λ i, (i.1, g i.2)) <$> enumerate l.
Proof.
  rewrite bt_items_perm. apply map_to_list_to_map. rewrite <-list_fmap_compose.
  replace (fst ∘ _ <$> enumerate l) with (enumerate l).*1 by (by apply list_fmap_ext).
  rewrite enumerate_keys. apply NoDup_seq.
Qed.
Lemma enumerate_values {X} (l : list X) : (enumerate l).*2 = l.
Proof.
  apply list_eq. intros i. unfold enumerate. rewrite list_lookup_fmap, list_lookup_imap.
  by destruct (l !! i).
Qed.

(** The values looked up along a list of keys without repetition. *)
Lemma sum_lookups {K V} `{Countable K} (f : V → N) (m : gmap K V) (l : list K) :
  NoDup (List.filter (λ k, bool_decide (is_Some (m !! k))) l) →
  sumN ((λ k, from_option f 0 (m !! k)) <$> l) =
    sumN ((λ kv, if bool_decide (kv.1 ∈ l) then f kv.2 else 0) <$> map_to_list m).
Proof.
  intros Hnd. rewrite <-(sumN_filter (λ kv, bool_decide (kv.1 ∈ l)) (λ kv : K * V, f kv.2)).
  trans (sumN ((λ kv : K * V, f kv.2) <$> omap (λ k, (k,.) <$> m !! k) l)).
  - clear Hnd. induction l as [|k l IH]; [done|]. csimpl. rewrite IH. by destruct (m !! k).
  - apply sumN_perm, fmap_Permutation, NoDup_Permutation.
    + apply (NoDup_fmap_1 fst). replace (omap _ l).*1 with
        (List.filter (λ k, bool_decide (is_Some (m !! k))) l); [done|].
      clear Hnd. induction l as [|k l IH]; [done|]. csimpl. rewrite IH. by destruct (m !! k).
    + eapply NoDup_sublist; [apply filter_sublist|apply NoDup_map_to_list].
    + intros [k v]. rewrite list_elem_of_omap, list_elem_of_In, filter_In, <-list_elem_of_In.
      rewrite elem_of_map_to_list, bool_decide_eq_true. simpl. split.
      * intros (k' & Hk' & Hv). destruct (m !! k') eqn:Hm; simplify_eq/=. done.
      * intros [Hm Hk]. exists k. by rewrite Hm.
Qed.
End lemmas.

(** *** Aggregation *)

Section aggregation.
Context (show_txid : Txid → string) `{!Inj (=) (=) show_txid}.
Implicit Types accounts : list (gmap Txid TxContribution).

Lemma payment_leb_total a b : payment_leb a b = true ∨ payment_leb b a = true.
Proof.
  unfold payment_leb. pose proof (key_leb_total (p_txid a) (p_txid b)).
  destruct (p_height a) as [ha|], (p_height b) as [hb|]; auto.
  destruct (N.ltb_spec hb ha), (N.ltb_spec ha hb); auto.
  replace (hb =? ha) with true by (symmetry; apply N.eqb_eq; lia).
  replace (ha =? hb) with true by (symmetry; apply N.eqb_eq; lia). done.
Qed.
Lemma payment_leb_trans a b c :
  payment_leb a b = true → payment_leb b c = true → payment_leb a c = true.
Proof.
  unfold payment_leb. pose proof (key_leb_trans (p_txid a) (p_txid b) (p_txid c)).
  destruct (p_height a) as [ha|], (p_height b) as [hb|], (p_height c) as [hc|]; try done; auto.
  rewrite !orb_true_iff, !andb_true_iff, !N.ltb_lt, !N.eqb_eq. intros [?|[? ?]] [?|[? ?]]; try (left; lia).
  right. split; [lia|auto].
Qed.

(** What the accounts say of one transaction. *)
Definition said accounts (txid : Txid) : list TxContribution := omap (.!! txid) accounts.

Lemma add_fold (l : list (Txid * TxContribution)) m k :
  NoDup l.*1 →
  foldl add_contribution m l !! k =
    match (list_to_map l : gmap Txid TxContribution) !! k with
    | Some c => Some (merge (default contribution_default (m !! k)) c)
    | None => m !! k
    end.
Proof.
  revert m; induction l as [|[k' c] l IH]; intros m Hnd; simpl; [by rewrite lookup_empty|].
  apply NoDup_cons in Hnd as [Hk Hnd]. rewrite IH by done. unfold add_contribution. simpl.
  destruct (decide (k = k')) as [->|Hne].
  - rewrite not_elem_of_list_to_map_1 by done. by rewrite !lookup_insert_eq.
  - by rewrite !lookup_insert_ne by done.
Qed.
Lemma bt_items_to_map {V} (m : gmap Txid V) : (list_to_map (bt_items m) : gmap Txid V) = m.
Proof.
  trans (list_to_map (map_to_list m) : gmap Txid V); [|apply list_to_map_to_list].
  apply list_to_map_proper; [apply NoDup_bt_keys|apply bt_items_perm].
Qed.
Lemma by_txid_fold accounts m k :
  foldl (λ m account, foldl add_contribution m (bt_items account)) m accounts !! k =
    match said accounts k with
    | [] => m !! k
    | l => Some (foldl merge (default contribution_default (m !! k)) l)
    end.
Proof.
  revert m; induction accounts as [|a accounts IH]; intros m; [done|]. simpl.
  rewrite IH, add_fold, bt_items_to_map by apply NoDup_bt_keys. unfold said. simpl.
  destruct (a !! k) as [c|]; [|done]. simpl. by destruct (omap _ accounts).
Qed.
Lemma by_txid_lookup accounts k :
  by_txid accounts !! k =
    match said accounts k with [] => None | l => Some (foldl merge contribution_default l) end.
Proof. unfold by_txid. by rewrite by_txid_fold, lookup_empty. Qed.

(** The totals, saturated. *)
Definition total (f : TxContribution → N) accounts (txid : Txid) : N :=
  N.min (sumN (f <$> said accounts txid)) u64_max.

Lemma sat_fold cap a l : a ≤ cap → foldl (sat_add cap) a l = N.min (a + sumN l) cap.
Proof.
  revert a; induction l as [|x l IH]; intros a Ha; simpl; [lia|].
  unfold sat_add at 2. rewrite IH by lia. lia.
Qed.
Lemma merge_fold c l :
  owned_in (foldl merge c l) = foldl (sat_add u64_max) (owned_in c) (owned_in <$> l) ∧
  owned_out (foldl merge c l) = foldl (sat_add u64_max) (owned_out c) (owned_out <$> l).
Proof. revert c; induction l as [|x l IH]; intros c; [done|]. csimpl. apply IH. Qed.
Lemma by_txid_totals accounts k f :
  by_txid accounts !! k = Some f →
  owned_in f = total owned_in accounts k ∧ owned_out f = total owned_out accounts k.
Proof.
  rewrite by_txid_lookup. unfold total. destruct (said accounts k) as [|x l]; [done|]. intros [= <-].
  change (foldl merge (merge contribution_default x) l) with (foldl merge contribution_default (x :: l)).
  destruct (merge_fold contribution_default (x :: l)) as [-> ->]. by rewrite !sat_fold.
Qed.
Lemma by_txid_none accounts k :
  by_txid accounts !! k = None → total owned_in accounts k = 0 ∧ total owned_out accounts k = 0.
Proof. rewrite by_txid_lookup. unfold total. by destruct (said accounts k). Qed.

Lemma net_signed f t a :
  net f = (t, a) →
  signed (mkPayment EmptyString t PUnconfirmed a EmptyString None None) =
    (Z.of_N (owned_out f) - Z.of_N (owned_in f))%Z ∧
  (t = Receive ↔ owned_in f = 0 ∨ owned_in f < owned_out f).
Proof.
  unfold net, signed. destruct (N.eqb_spec (owned_in f) 0) as [->|Hi].
  - intros [= <- <-]. simpl. split; [lia|naive_solver].
  - destruct (N.ltb_spec (owned_in f) (owned_out f)).
    + intros [= <- <-]. simpl. split; [lia|naive_solver].
    + intros Hn. assert (Ht : t ≠ Receive ∧ a = owned_in f - owned_out f).
      { revert Hn. destruct (length ∘ output <$> c_tx f); [case_match|]; intros [= <- <-]; done. }
      destruct Ht as [Ht ->]. destruct t; simpl; [done|split; [lia|split; [done|lia]]..].
Qed.
Lemma payment_of_spec txid f :
  match payment_of show_txid (txid, f) with
  | Some p => p_txid p = show_txid txid ∧ p_status p = c_status f ∧
      signed p = (Z.of_N (owned_out f) - Z.of_N (owned_in f))%Z ∧
      (payment_type p = Receive ↔ owned_in f = 0 ∨ owned_in f < owned_out f) ∧
      (0 < owned_in f ∨ 0 < owned_out f)
  | None => owned_in f = 0 ∧ owned_out f = 0
  end.
Proof.
  unfold payment_of. destruct (N.eqb_spec (owned_in f) 0), (N.eqb_spec (owned_out f) 0); simpl; [done|..];
    (destruct (net f) as [t a] eqn:Hn; destruct (net_signed f t a Hn) as [Hs Ht]; simpl;
     split_and!; [done|done|exact Hs|exact Ht|lia]).
Qed.

Lemma elem_of_payments accounts p :
  p ∈ aggregate_payments show_txid accounts ↔
  ∃ txid f, by_txid accounts !! txid = Some f ∧ payment_of show_txid (txid, f) = Some p.
Proof.
  unfold aggregate_payments. rewrite (sort_by_perm payment_leb), list_elem_of_omap. split.
  - intros ([txid f] & Hf%elem_of_bt_items & Hp). eauto.
  - intros (txid & f & Hf & Hp). exists (txid, f). by rewrite elem_of_bt_items.
Qed.
Lemma payments_txids accounts :
  (p_txid <$> aggregate_payments show_txid accounts) ≡ₚ
    omap (λ kv, p_txid <$> payment_of show_txid kv) (bt_items (by_txid accounts)).
Proof.
  unfold aggregate_payments. rewrite (sort_by_perm payment_leb).
  induction (bt_items (by_txid accounts)) as [|kv l IH]; [done|]. csimpl.
  destruct (payment_of show_txid kv); csimpl; [by constructor|done].
Qed.
Lemma payments_NoDup accounts : NoDup (p_txid <$> aggregate_payments show_txid accounts).
Proof.
  rewrite payments_txids. pose proof (NoDup_bt_keys (by_txid accounts)) as Hnd. unfold bt_keys in Hnd.
  induction (bt_items (by_txid accounts)) as [|[txid f] l IH]; [constructor|].
  apply NoDup_cons in Hnd as [Hk Hnd]. rewrite list_omap_cons.
  pose proof (payment_of_spec txid f) as Hp.
  destruct (payment_of show_txid (txid, f)) as [p|]; simpl; [|by apply IH].
  constructor; [|by apply IH]. destruct Hp as [-> _].
  intros ([txid' f'] & Hin & Heq)%list_elem_of_omap. pose proof (payment_of_spec txid' f') as Hp'.
  destruct (payment_of show_txid (txid', f')) as [p'|]; simpl in Heq; [|done].
  destruct Hp' as [Hp' _]. injection Heq as Heq. rewrite Hp' in Heq. apply (inj show_txid) in Heq as ->.
  apply Hk, list_elem_of_fmap. by exists (txid, f').
Qed.

(** The payment history nets exactly: for any accounts, in any order, the list is
    sorted (unconfirmed first, then by falling height, then by id), has one payment
    for each transaction in which some account owns value and none for the others,
    and the signed amount of each is the total of the owned outputs less that of
    the owned inputs over all accounts (totals saturate at 64 bits), received
    exactly when nothing is spent or more comes back than is spent. *)
Theorem aggregate_nets accounts :
  let ps := aggregate_payments show_txid accounts in
  StronglySorted (λ a b, payment_leb a b = true) ps ∧ NoDup (p_txid <$> ps) ∧
  (∀ txid, show_txid txid ∈ p_txid <$> ps ↔
     0 < total owned_in accounts txid ∨ 0 < total owned_out accounts txid) ∧
  (∀ txid p, p ∈ ps → p_txid p = show_txid txid →
     signed p =
       (Z.of_N (total owned_out accounts txid) - Z.of_N (total owned_in accounts txid))%Z ∧
     (payment_type p = Receive ↔ total owned_in accounts txid = 0 ∨
        total owned_in accounts txid < total owned_out accounts txid)) ∧
  (∀ accounts', accounts ≡ₚ accounts' → ∀ txid,
     total owned_in accounts' txid = total owned_in accounts txid ∧
     total owned_out accounts' txid = total owned_out accounts txid).
Proof.
  intros ps. split_and!.
  - apply sort_by_sorted; [apply payment_leb_total|apply payment_leb_trans].
  - apply payments_NoDup.
  - intros txid. rewrite list_elem_of_fmap. split.
    + intros (p & Hid & (txid' & f & Hf & Hp)%elem_of_payments). pose proof (payment_of_spec txid' f) as Hs.
      rewrite Hp in Hs. destruct Hs as (Hid' & _ & _ & _ & Hpos). rewrite Hid' in Hid.
      apply (inj show_txid) in Hid as ->. by destruct (by_txid_totals _ _ _ Hf) as [<- <-].
    + intros Hpos. destruct (by_txid accounts !! txid) as [f|] eqn:Hf.
      * destruct (by_txid_totals _ _ _ Hf) as [Hi Ho]. pose proof (payment_of_spec txid f) as Hs.
        destruct (payment_of show_txid (txid, f)) as [p|] eqn:Hp; [|lia].
        exists p. split; [by symmetry; apply Hs|]. apply elem_of_payments. eauto.
      * destruct (by_txid_none _ _ Hf). lia.
  - intros txid p (txid' & f & Hf & Hp)%elem_of_payments Hid. pose proof (payment_of_spec txid' f) as Hs.
    rewrite Hp in Hs. destruct Hs as (Hid' & _ & Hsig & Hrecv & _). rewrite Hid' in Hid.
    apply (inj show_txid) in Hid as ->. by destruct (by_txid_totals _ _ _ Hf) as [<- <-].
  - intros accounts' Hp txid. unfold total, said. split; (f_equal; apply sumN_perm; by rewrite Hp).
Qed.
End aggregation.

(** *** The balance is the value of the unspent coins *)

Section balances.
Context `{Build} `{DescriptorLib} `{Tip.TipCodec}.
Context {A : Type} `{!Store A string bytes}.
Context {S : Type} `{!Store S Txid TxEntry} `{!StoreLaws S Txid TxEntry} `{!StoreTotal S Txid TxEntry}.
Context {L : Type} `{!Store L LabelKey string}.
Context (sat : N) (s0 s : CoinStore (A:=A) (S:=S) (L:=L)).
Context (Hgen : generated_from sat s0 s) (Hkey : keyed (txs (tx_store s0))).

Definition ce_value (ce : CoinEntry) : N := txout_value (Coin.txout (coin ce)).
(** What spending an outpoint takes from the wallet. *)
Definition coin_value (op : OutPoint) : N := from_option ce_value 0 (store s !! op).

Lemma pays_coin op v : pays_wallet s0 op v ↔ ∃ ce, store s !! op = Some ce ∧ ce_value ce = v.
Proof.
  unfold pays_wallet. setoid_rewrite (gf_coins _ _ _ Hgen). split.
  - intros (e & o & a & Ho & <-). eexists. split; [eauto 10|done].
  - intros (ce & (e & o & a & Ho & ->) & <-). by exists e, o, a.
Qed.

(** The entries after generation. *)
Lemma generated_entry txid e' :
  txs (tx_store s) !! txid = Some e' →
  ∃ e, txs (tx_store s0) !! txid = Some e ∧ tx e' = tx e ∧ entry_txid e' = txid ∧
    inputs e' = input_metadata (address_store s) (all_txouts (bt_values (txs (tx_store s0)))) (tx e) ∧
    outputs e' = output_metadata (address_store s) (tx e).
Proof.
  rewrite (gf_txs _ _ _ Hgen). intros (e & <- & He)%lookup_fmap_Some.
  exists e. split_and!; try done. exact (Hkey _ _ He).
Qed.

Lemma owned_inputs_sum txid e :
  txs (tx_store s) !! txid = Some e →
  sumN (owned_inputs e) = sumN (coin_value ∘ previous_output <$> input (tx e)).
Proof.
  intros (e0 & He0 & Htx & _ & Hin & _)%generated_entry. unfold owned_inputs, bt_values.
  rewrite Hin, Htx, sumN_filter. unfold input_metadata.
  set (g := λ inp : TxIn, match all_txouts (bt_values (txs (tx_store s0))) !! previous_output inp with
    | None => mkInputMetadata None false
    | Some txout =>
        let owned := AddressStore.contains_spk (address_store s) (script_pubkey txout) in
        mkInputMetadata (if owned then Some (txout_value txout) else None) owned end).
  assert (Hitems : (bt_items (list_to_map ((λ i, (i.1, g i.2)) <$> enumerate (input (tx e0)))
      : gmap nat InputMetadata)).*2 ≡ₚ g <$> input (tx e0)).
  { rewrite enumerate_items, <-list_fmap_compose.
    change (g ∘ snd <$> enumerate (input (tx e0)) ≡ₚ g <$> input (tx e0)).
    by rewrite list_fmap_compose, enumerate_values. }
  erewrite sumN_perm; [|apply fmap_Permutation, Hitems].
  rewrite <-list_fmap_compose. apply sumN_fmap_ext. intros inp (i & Hi)%list_elem_of_lookup.
  destruct (input_metadata_spec s0 (address_store s) (tx e0) i inp Hkey) as (m & Hm & Hown & Hval);
    [intros spk; apply (gf_addresses _ _ _ Hgen)|done|].
  pose proof (list_to_map_enumerate (λ i : nat * TxIn, g i.2) _ i inp Hi) as Hg.
  assert (m = g inp) as -> by (apply (inj Some); rewrite <-Hm; exact Hg). clear Hm Hg.
  unfold compose, coin_value. setoid_rewrite pays_coin in Hown. setoid_rewrite pays_coin in Hval.
  destruct (store s !! previous_output inp) as [ce|] eqn:Hce; simpl.
  - rewrite (proj2 Hown) by eauto. by rewrite (proj2 (Hval (ce_value ce))) by eauto.
  - destruct (im_owned (g inp)); [|done]. destruct (proj1 Hown eq_refl) as (v & ce & [=] & _).
Qed.

Lemma elem_of_owned_outputs txid e i v :
  txs (tx_store s) !! txid = Some e →
  (i, v) ∈ owned_outputs e ↔
  ∃ ce, store s !! mkOutPoint txid i = Some ce ∧ ce_value ce = v.
Proof.
  intros (e0 & He0 & Htx & _ & _ & Hout)%generated_entry. unfold owned_outputs.
  rewrite <-pays_coin, list_elem_of_omap. unfold pays_wallet, is_output. simpl.
  assert (Haddr : ∀ spk, AddressStore.contains_spk (address_store s) spk = true ↔
    is_Some (AddressStore.store (address_store s0) !! spk)).
  { intros spk. unfold AddressStore.contains_spk. rewrite bool_decide_eq_true.
    apply (gf_addresses _ _ _ Hgen). }
  split.
  - intros ([k m] & Hm%elem_of_bt_items & Hv). simpl in Hv. rewrite Htx in Hv.
    destruct (om_owned m) eqn:Ho; [|done].
    destruct (output (tx e0) !! k) as [o|] eqn:Hk; [|done]. simpl in Hv. injection Hv as <- <-.
    rewrite Hout, (output_metadata_spec _ _ _ o Hk) in Hm. injection Hm as <-. simpl in Ho.
    apply Haddr in Ho as [a Ha]. exists e0, o, a. by rewrite Nat2N.id.
  - intros (e1 & o & a & (He1 & Ho & Ha) & <-). rewrite He0 in He1. injection He1 as <-.
    exists (N.to_nat i, mkOutputMetadata true). rewrite elem_of_bt_items, Hout.
    rewrite (output_metadata_spec _ _ _ o Ho), (proj2 (Haddr _)) by eauto. split; [done|].
    simpl. by rewrite Htx, Ho, N2Nat.id.
Qed.
Lemma owned_outputs_NoDup e : NoDup (owned_outputs e).*1.
Proof.
  unfold owned_outputs. pose proof (NoDup_bt_keys (outputs e)) as Hnd. unfold bt_keys in Hnd.
  induction (bt_items (outputs e)) as [|[k m] l IH]; [constructor|].
  apply NoDup_cons in Hnd as [Hk Hnd]. rewrite list_omap_cons. simpl.
  destruct (om_owned m); [|by apply IH]. destruct (output (tx e) !! k); simpl; [|by apply IH].
  constructor; [|by apply IH].
  intros ([i v] & Hi & ([k' m'] & Hin & Hv)%list_elem_of_omap)%list_elem_of_fmap. simpl in *.
  destruct (om_owned m'); [|done]. destruct (output (tx e) !! k'); [|done]. injection Hv as <- <-.
  apply Nat2N.inj in Hi as ->. apply Hk, list_elem_of_fmap. by exists (k', m').
Qed.

(** Every coin, transaction by transaction. *)
Lemma all_owned_outputs :
  (bt_items (txs (tx_store s)) ≫= λ kv, (λ o, (mkOutPoint kv.1 o.1, o.2)) <$> owned_outputs kv.2) ≡ₚ
  (λ kv, (kv.1, ce_value kv.2)) <$> map_to_list (store s).
Proof.
  apply NoDup_Permutation.
  - apply NoDup_bind.
    + intros [k1 e1] [k2 e2] y He1%elem_of_bt_items He2%elem_of_bt_items
        (o1 & -> & Ho1)%list_elem_of_fmap (o2 & Heq & Ho2)%list_elem_of_fmap. simpl in *. congruence.
    + intros [k e] _. simpl. apply (NoDup_fmap_1 (λ x, op_vout x.1)). rewrite <-list_fmap_compose.
      apply owned_outputs_NoDup.
    + apply (NoDup_fmap_1 fst), NoDup_bt_keys.
  - apply (NoDup_fmap_1 fst). rewrite <-list_fmap_compose. apply NoDup_fst_map_to_list.
  - intros [op v]. rewrite list_elem_of_bind, list_elem_of_fmap. split.
    + intros ([k e] & ([i w] & [= -> ->] & Hw)%list_elem_of_fmap & He%elem_of_bt_items). simpl in *.
      apply (elem_of_owned_outputs _ _ _ _ He) in Hw as (ce & Hce & <-).
      exists (mkOutPoint k i, ce). by rewrite elem_of_map_to_list.
    + intros ([op' ce] & [= -> ->] & Hce%elem_of_map_to_list). simpl.
      pose proof Hce as (e0 & o & a & (He0 & _) & _)%(gf_coins _ _ _ Hgen).
      destruct (txs (tx_store s) !! op_txid op') as [e|] eqn:He;
        [|by rewrite (gf_txs _ _ _ Hgen), lookup_fmap, He0 in He].
      exists (op_txid op', e). split; [|by apply elem_of_bt_items].
      apply list_elem_of_fmap. exists (op_vout op', ce_value ce). split; [by destruct op'|].
      apply (elem_of_owned_outputs _ _ _ _ He). exists ce. by destruct op'.
Qed.

Lemma owned_out_total :
  sumN ((λ kv, sumN (owned_outputs kv.2).*2) <$> bt_items (txs (tx_store s))) =
    sumN ((λ kv, ce_value kv.2) <$> map_to_list (store s)).
Proof.
  trans (sumN ((λ kv : OutPoint * CoinEntry, (kv.1, ce_value kv.2)) <$> map_to_list (store s)).*2);
    [|by rewrite <-list_fmap_compose].
  rewrite <-(sumN_perm _ _ (fmap_Permutation snd _ _ all_owned_outputs)).
  induction (bt_items (txs (tx_store s))) as [|kv l IH]; [done|]. csimpl.
  rewrite fmap_app, sumN_app, IH. f_equal. by rewrite <-list_fmap_compose.
Qed.

(** No coin of the wallet is spent twice. *)
Definition single_spends : Prop :=
  NoDup (List.filter (λ op, bool_decide (is_Some (store s !! op))) (spends (txs (tx_store s))).*2).

Lemma spends_kept op : op ∈ (spends (txs (tx_store s))).*2 ↔ op ∈ (spends (txs (tx_store s0))).*2.
Proof.
  rewrite !list_elem_of_fmap. split.
  - intros ([txid op'] & -> & (e & He & Hop)%elem_of_spends).
    apply generated_entry in He as (e0 & He0 & Htx & _). exists (txid, op'). split; [done|].
    apply elem_of_spends. exists e0. by rewrite <-Htx.
  - intros ([txid op'] & -> & (e & He & Hop)%elem_of_spends). exists (txid, op'). split; [done|].
    apply elem_of_spends. rewrite (gf_txs _ _ _ Hgen), lookup_fmap, He. by eexists.
Qed.
Lemma status_spent op ce :
  store s !! op = Some ce →
  Coin.status (coin ce) = Coin.Spent ↔ op ∈ (spends (txs (tx_store s))).*2.
Proof.
  intros (e & o & a & _ & ->)%(gf_coins _ _ _ Hgen). simpl. rewrite spends_kept. unfold spent.
  case_bool_decide; split; try done. by destruct (inclusion e), (header_scanner s0).
Qed.

Definition is_unspent (st : Coin.CoinStatus) : bool := match st with Coin.Spent => false | _ => true end.
Lemma owned_in_total :
  single_spends →
  sumN ((λ kv, sumN (owned_inputs kv.2)) <$> bt_items (txs (tx_store s))) =
    sumN ((λ kv, if is_unspent (Coin.status (coin kv.2)) then 0 else ce_value kv.2)
      <$> map_to_list (store s)).
Proof.
  intros Hss. trans (sumN (coin_value <$> (spends (txs (tx_store s))).*2)).
  - unfold spends. assert (Hl : ∀ kv, kv ∈ bt_items (txs (tx_store s)) →
      sumN (owned_inputs kv.2) = sumN (coin_value ∘ previous_output <$> input (tx kv.2))).
    { intros [k e] He%elem_of_bt_items. by apply (owned_inputs_sum k). }
    rewrite (sumN_fmap_ext _ _ _ Hl). clear Hl.
    induction (bt_items (txs (tx_store s))) as [|kv l IH]; [done|]. csimpl.
    rewrite !fmap_app, sumN_app, IH. f_equal. by rewrite <-!list_fmap_compose.
  - unfold coin_value. rewrite (sum_lookups ce_value (store s)) by done.
    apply sumN_fmap_ext. intros [op ce] Hce%elem_of_map_to_list. simpl.
    pose proof (status_spent op ce Hce) as Hst.
    case_bool_decide as Hop; [by rewrite (proj2 Hst Hop)|].
    destruct (Coin.status (coin ce)); try done. by destruct (Hop (proj1 Hst eq_refl)).
Qed.

Lemma values_items p :
  values p (bt_values (store s)) =
    sumN ((λ kv, if p (Coin.status (coin kv.2)) then ce_value kv.2 else 0) <$> map_to_list (store s)).
Proof.
  unfold values. rewrite sumN_filter. unfold bt_values. rewrite <-list_fmap_compose.
  apply sumN_perm, fmap_Permutation, bt_items_perm.
Qed.
Lemma values_split :
  values (λ _, true) (bt_values (store s)) =
    values is_unspent (bt_values (store s)) +
    sumN ((λ kv, if is_unspent (Coin.status (coin kv.2)) then 0 else ce_value kv.2)
      <$> map_to_list (store s)).
Proof.
  rewrite !values_items. induction (map_to_list (store s)) as [|[op ce] l IH]; [done|]. csimpl.
  rewrite IH. destruct (Coin.status (coin ce)); simpl; lia.
Qed.

(** *** The scanner's account *)

Definition contribution_of (e : TxEntry) : TxContribution :=
  mkContribution (sumN (owned_inputs e)) (sumN (owned_outputs e).*2)
    (list_to_set (owned_outputs e).*1)
    (or_else (pending_claim_height (pending_claims s) (entry_txid e)) (entry_height e))
    (payment_status s e) (timestamp e)
    (or_else (label_transaction (label_store s) (entry_txid e))
      (head (omap (λ vout, label_outpoint (label_store s) (mkOutPoint (entry_txid e) vout))
        (sort_by key_leb (elements (list_to_set (owned_outputs e).*1 : gset N))))))
    (Some (tx e)).

Context (Hss : single_spends) (Hcap : values (λ _, true) (bt_values (store s)) < 2 ^ 64).

Lemma owned_bounds txid e :
  txs (tx_store s) !! txid = Some e →
  sumN (owned_inputs e) < 2 ^ 64 ∧ sumN (owned_outputs e).*2 < 2 ^ 64.
Proof.
  intros He%elem_of_bt_items. split.
  - pose proof (sumN_le (λ kv, sumN (owned_inputs kv.2)) _ _ He) as Hle. simpl in Hle.
    rewrite owned_in_total in Hle by done. rewrite values_split in Hcap. lia.
  - pose proof (sumN_le (λ kv, sumN (owned_outputs kv.2).*2) _ _ He) as Hle. simpl in Hle.
    rewrite owned_out_total in Hle. rewrite values_items in Hcap. lia.
Qed.

Lemma tx_contributions_ret : tx_contributions s = Ret (contribution_of <$> txs (tx_store s)).
Proof.
  unfold tx_contributions, tx_history. rewrite transactions_txs.
  rewrite (ofold_ret _ (λ m e, <[entry_txid e := contribution_of e]> m)).
  - f_equal. apply map_eq. intros txid. apply option_eq. intros c.
    pose proof (foldl_fmap (λ (m : gmap Txid TxContribution) kv, <[kv.1 := kv.2]> m)
      (λ e, (entry_txid e, contribution_of e)) (bt_values (txs (tx_store s))) ∅) as Hf.
    simpl in Hf. rewrite <-Hf. clear Hf.
    assert (Hin : ∀ txid c, (txid, c) ∈ (λ e, (entry_txid e, contribution_of e)) <$> bt_values (txs (tx_store s))
      ↔ contribution_of <$> txs (tx_store s) !! txid = Some c).
    { clear txid c. intros txid c. rewrite list_elem_of_fmap, fmap_Some. setoid_rewrite elem_of_bt_values. split.
      - intros (e & [= -> ->] & [k He]). exists e. split; [|done].
        by destruct (generated_entry _ _ He) as (_ & _ & _ & -> & _).
      - intros (e & He & ->). exists e. split; [|eauto].
        by destruct (generated_entry _ _ He) as (_ & _ & _ & -> & _). }
    rewrite foldl_insert_functional, Hin, lookup_fmap, lookup_empty; [naive_solver|].
    intros k v v'. rewrite !Hin. congruence.
  - intros m e [k He]%elem_of_bt_values. destruct (owned_bounds _ _ He) as [Hi Ho].
    unfold contribution. rewrite sum64_ok by done. simpl. by rewrite sum64_ok.
Qed.

Lemma by_txid_one (m : gmap Txid TxContribution) : by_txid [m] = merge contribution_default <$> m.
Proof.
  apply map_eq. intros txid. rewrite by_txid_lookup, lookup_fmap. unfold said. simpl.
  by destruct (m !! txid).
Qed.
Lemma merge_default c :
  owned_in c < 2 ^ 64 → owned_out c < 2 ^ 64 →
  owned_in (merge contribution_default c) = owned_in c ∧
  owned_out (merge contribution_default c) = owned_out c.
Proof. intros Hi Ho. unfold merge, sat_add, u64_max. simpl owned_in. simpl owned_out. lia. Qed.

Lemma running_total_sum l : running_total l = sumZ (signed <$> l).
Proof.
  unfold running_total. assert (Hacc : ∀ a, foldl (λ a p, (a + signed p)%Z) a l = (a + sumZ (signed <$> l))%Z).
  { induction l as [|p l IH]; intros a; csimpl; [lia|]. rewrite IH. lia. }
  by rewrite Hacc.
Qed.

Lemma payments_total (show : Txid → string) accounts :
  running_total (aggregate_payments show accounts) =
    sumZ ((λ kv, Z.of_N (owned_out kv.2) - Z.of_N (owned_in kv.2))%Z <$> bt_items (by_txid accounts)).
Proof.
  rewrite running_total_sum. unfold aggregate_payments.
  rewrite (sumZ_perm _ _ (fmap_Permutation signed _ _ (sort_by_perm payment_leb _))).
  induction (bt_items (by_txid accounts)) as [|[txid f] l IH]; [done|].
  rewrite list_omap_cons, fmap_cons, sumZ_cons, <-IH. pose proof (payment_of_spec show txid f) as Hp.
  destruct (payment_of show (txid, f)) as [p|].
  - rewrite fmap_cons, sumZ_cons. destruct Hp as (_ & _ & -> & _). done.
  - destruct Hp as [Hi Ho]. cbn [snd]. rewrite Hi, Ho. lia.
Qed.

Lemma account_total (show : Txid → string) :
  running_total (aggregate_payments show [contribution_of <$> txs (tx_store s)]) =
    Z.of_N (values is_unspent (bt_values (store s))).
Proof.
  rewrite payments_total, by_txid_one.
  erewrite sumZ_perm; [|apply fmap_Permutation, bt_items_perm].
  rewrite !map_to_list_fmap, <-!list_fmap_compose.
  trans (sumZ ((λ kv, Z.of_N (sumN (owned_outputs kv.2).*2) - Z.of_N (sumN (owned_inputs kv.2)))%Z
    <$> bt_items (txs (tx_store s)))).
  - rewrite (sumZ_perm _ _ (fmap_Permutation _ _ _ (bt_items_perm (txs (tx_store s))))).
    f_equal. apply list_fmap_ext. intros i [txid e] Hi.
    apply list_elem_of_lookup_2, elem_of_map_to_list in Hi.
    destruct (owned_bounds _ _ Hi) as [Hin Hout].
    destruct (merge_default (contribution_of e) Hin Hout) as [Hmi Hmo].
    change (Z.of_N (owned_out (merge contribution_default (contribution_of e))) -
        Z.of_N (owned_in (merge contribution_default (contribution_of e))) =
      Z.of_N (owned_out (contribution_of e)) - Z.of_N (owned_in (contribution_of e)))%Z.
    by rewrite Hmi, Hmo.
  - rewrite (sumZ_sub (λ kv, sumN (owned_outputs kv.2).*2) (λ kv, sumN (owned_inputs kv.2))).
    rewrite owned_out_total, owned_in_total by done.
    pose proof values_split as Hv. rewrite (values_items (λ _, true)) in Hv. simpl in Hv. lia.
Qed.
End balances.

Section properties.
Context `{Build} `{DescriptorLib} `{Tip.TipCodec}.
Context {A : Type} `{!Store A string bytes}.
Context {S : Type} `{!Store S Txid TxEntry} `{!StoreLaws S Txid TxEntry} `{!StoreTotal S Txid TxEntry}.
Context {L : Type} `{!Store L LabelKey string}.

(** C37. The reported balance is the money: regenerate any well formed wallet in
    which no coin is spent by two inputs and whose coins are worth less than 2^64;
    then the balance the scanner reports, the signed total of its payments, does not
    overflow and is exactly the value of the coins that are not spent, which is
    also what the two balances of the spendable view add up to. *)
Theorem balance_is_unspent (show : Txid → string) (sat : N) (s0 s : CoinStore (A:=A) (S:=S) (L:=L))
    (Ha : addressed s0) (Hk : keyed (txs (tx_store s0)))
    (Hsat : Coin.max_input_satisfaction_size (descriptor (derivator s0)) = Ret sat)
    (Hs : generate s0 = Ret s) (Hss : single_spends s)
    (Hcap : values (λ _, true) (bt_values (store s)) < 2 ^ 64) :
  ∃ ps st, balance show s = Ret (values is_unspent (bt_values (store s)), ps) ∧
    spendable_coins s = Ret st ∧
    confirmed_balance st + unconfirmed_balance st = values is_unspent (bt_values (store s)).
Proof.
  destruct (generate_spec s0 sat Ha Hk Hsat) as (s' & Hg & Hgen).
  rewrite Hs in Hg. injection Hg as <-. pose proof (values_split s) as Hsplit.
  assert (Hparts : values counts_confirmed (bt_values (store s)) + values counts_unconfirmed (bt_values (store s))
    = values is_unspent (bt_values (store s))).
  { rewrite !values_items. assert (Hno : Forall (λ kv : OutPoint * CoinEntry,
      Coin.status (coin kv.2) ≠ Coin.BeingSpend) (map_to_list (store s))).
    { apply Forall_forall. intros [op ce] (e & o & a & _ & ->)%elem_of_map_to_list%(gf_coins _ _ _ Hgen).
      simpl. destruct (spent _ _); [done|]. by destruct (inclusion e), (header_scanner s0). }
    clear -Hno. induction Hno as [|kv l Hkv _ IH]; [done|]. csimpl.
    destruct (Coin.status (coin kv.2)); try done; simpl; lia. }
  destruct (spendable_totals s) as (st & Hst & _ & Hc & Hu); [lia..|].
  exists (aggregate_payments show [contribution_of s <$> txs (tx_store s)]), st.
  split_and!; [|done|lia]. unfold balance, payment_history.
  rewrite (tx_contributions_ret sat s0 s) by done. simpl.
  rewrite (account_total sat s0 s) by done.
  destruct (Z.ltb_spec (Z.of_N (values is_unspent (bt_values (store s)))) 0) as [?|_]; [lia|].
  rewrite N2Z.id, N.mod_small by lia. done.
Qed.
End properties.

Module Witness.
Import Sample Derivator.Witness AddressStore.Witness CoinStore.Witness.

(** Two accounts that share a payment: one spends 1000, the other takes 300 back. *)
Definition spender : gmap Txid TxContribution :=
  {[ 1 := mkContribution 1000 0 ∅ (Some 7) PVerified None None (Some pay_out) ]}.
Definition taker : gmap Txid TxContribution :=
  {[ 1 := mkContribution 0 300 {[0]} None PUnconfirmed None None None;
     2 := mkContribution 0 50 {[1]} None PUnconfirmed None None None ]}.
Definition pretty_txid (t : Txid) : string := pretty t.
#[export] Instance pretty_txid_inj : Inj (=) (=) pretty_txid := pretty_N_inj.

Lemma aggregate_nets_witness :
  let ps := aggregate_payments pretty_txid [spender; taker] in
  StronglySorted (λ a b, payment_leb a b = true) ps ∧ NoDup (p_txid <$> ps) ∧
  (∀ txid, pretty_txid txid ∈ p_txid <$> ps ↔
     0 < total owned_in [spender; taker] txid ∨ 0 < total owned_out [spender; taker] txid) ∧
  (∀ txid p, p ∈ ps → p_txid p = pretty_txid txid →
     signed p = (Z.of_N (total owned_out [spender; taker] txid) -
                 Z.of_N (total owned_in [spender; taker] txid))%Z ∧
     (payment_type p = Receive ↔ total owned_in [spender; taker] txid = 0 ∨
        total owned_in [spender; taker] txid < total owned_out [spender; taker] txid)) ∧
  (∀ accounts', [spender; taker] ≡ₚ accounts' → ∀ txid,
     total owned_in accounts' txid = total owned_in [spender; taker] txid ∧
     total owned_out accounts' txid = total owned_out [spender; taker] txid).
Proof. apply aggregate_nets. apply pretty_txid_inj. Defined.
Example aggregate_two :
  (λ p, (payment_type p, amount p, p_height p)) <$> aggregate_payments pretty_txid [spender; taker] =
    [(Receive, 50, None); (Send, 700, Some 7)].
Proof. vm_compute. reflexivity. Qed.

Lemma balance_is_unspent_witness :
  ∃ ps st, balance pretty_txid filled = Ret (300, ps) ∧ spendable_coins filled = Ret st ∧
    confirmed_balance st + unconfirmed_balance st = 300.
Proof.
  apply (balance_is_unspent pretty_txid 108 sample filled);
    [apply sample_addressed|apply sample_keyed|reflexivity|vm_compute; reflexivity| |vm_compute; reflexivity].
  unfold single_spends.
  assert (Hl : List.filter (λ op, bool_decide (is_Some (store filled !! op)))
    (spends (txs (tx_store filled))).*2 = [mkOutPoint 0 0]) by (vm_compute; reflexivity).
  rewrite Hl. apply NoDup_singleton.
Defined.
End Witness.
End History.
