(* ===== verification/Listener.v ===== *)
(** * The scan loop (electrum/src/listener.rs)

    One connection's thread: it subscribes to the watched scripts, asks for the
    histories of those whose status changed, folds histories and transactions into
    the coin store, and queues the reported heights as claims. A channel is what
    was sent on it and, for each attempt, whether its other end was there. A turn of
    the loop is what it finds on its two receivers and what the other threads did to
    the coin store just before it. *)
From stdpp Require Import base gmap list strings.
From Stdlib Require Import Lia.
From S2P Require Import Prelude Bitcoin Coin Persist HeaderBackend HeaderValidator HeaderStore.
From S2P Require Import Notification TxStore Derivator AddressStore Claims CoinStore Wallet.

Module Listener.
Import Persist TxStore Derivator Claims.
Import HeaderValidator(HeaderLib).

Definition STATUS_KEYCHAIN_RECEIVE : N := 0.
Definition STATUS_KEYCHAIN_CHANGE : N := 1.

(** ** The messages (electrum/src/client/mod.rs) *)

Inductive CoinRequest :=
  | Subscribe (spks : list script)
  | GetHistory (spks : list script)
  | GetTxs (txids : list Txid)
  | GetTxMerkle (txid : Txid) (height : N)
  | GetHeaders (heights : list N)
  | StopClient.

Inductive CoinError :=
  | Send | TxDecode | MerkleDecode (txid : Txid) (height : N) | MerkleFetch (txid : Txid) (height : N)
  | HeaderDecode (height : N) | HeaderFetch (height : N) | Server | Transport.

Inductive CoinResponse :=
  | Status (m : gmap script (option string))
  | History (m : gmap script (list (Txid * option N)))
  | Txs (l : list Transaction)
  | TxMerkle (txid : Txid) (height : N) (branch : list N) (pos : N)
  | Headers (m : gmap N HeaderValidator.Header)
  | Stopped
  | Error (e : CoinError).

(** ** Channels *)

Record Chan (M : Type) := mkChan { sent : list M; tries : nat; up : nat → bool }.
#[global] Arguments mkChan {M} _ _ _.
#[global] Arguments sent {M} _.
#[global] Arguments tries {M} _.
#[global] Arguments up {M} _.
Definition chan_send {M} (m : M) (c : Chan M) : Chan M * bool :=
  let ok := up c (tries c) in
  (mkChan (if ok then sent c ++ [m] else sent c) (Datatypes.S (tries c)) (up c), ok).

(** [try_recv]. *)
Inductive TryRecv (M : Type) := Got (m : M) | Empty | Disconnected.
#[global] Arguments Got {M} _.
#[global] Arguments Empty {M}.
#[global] Arguments Disconnected {M}.

Section listener.
Context `{Build} `{DescriptorLib} `{Tip.TipCodec}.
Context {A : Type} `{!Store A string bytes}.
Context {S : Type} `{!Store S Txid TxEntry}.
Context {L : Type} `{!Store L LabelKey string}.
Context {St : Type} `{!Store St script (option string * N * N)}.
Context `{HeaderLib}.

(** What the thread works on. [server_headers] is there only without a header
    scanner; [woken] counts the wake-ups of the reconcilers. *)
Record Listener := mkListener {
  coin_store : CoinStore.CoinStore (A:=A) (S:=S) (L:=L);
  statuses : St;
  request : Chan CoinRequest;
  notification : Chan Notification.Notification;
  server_headers : option (gmap N (option HeaderValidator.Header));
  woken : nat
}.
Definition set_coin_store (c : CoinStore.CoinStore) (l : Listener) : Listener :=
  mkListener c (statuses l) (request l) (notification l) (server_headers l) (woken l).
Definition set_statuses (s : St) (l : Listener) : Listener :=
  mkListener (coin_store l) s (request l) (notification l) (server_headers l) (woken l).
Definition set_headers (h : option (gmap N (option HeaderValidator.Header))) (l : Listener) : Listener :=
  mkListener (coin_store l) (statuses l) (request l) (notification l) h (woken l).
Definition wake (l : Listener) : Listener :=
  mkListener (coin_store l) (statuses l) (request l) (notification l) (server_headers l)
    (Datatypes.S (woken l)).
Definition send_request (r : CoinRequest) (l : Listener) : Listener * bool :=
  let '(c, ok) := chan_send r (request l) in
  (mkListener (coin_store l) (statuses l) c (notification l) (server_headers l) (woken l), ok).
Definition notify (n : Notification.Notification) (l : Listener) : Listener * bool :=
  let '(c, ok) := chan_send n (notification l) in
  (mkListener (coin_store l) (statuses l) (request l) c (server_headers l) (woken l), ok).

(** [ControlFlow]: the listener, and whether it breaks. *)
Abbreviation flow := (outcome (Listener * bool)).
Definition continue (l : Listener) : flow := Ret (l, false).
Definition break (l : Listener) : flow := Ret (l, true).
(** The next step, unless the thread is to end. *)
Definition and_then (c : flow) (k : Listener → flow) : flow :=
  let! r := c in if r.2 then break r.1 else k r.1.

(** [send_notif!] *)
Definition send_notif (n : Notification.TxListenerNotif) (l : Listener) : flow :=
  let '(l, ok) := notify (Notification.Electrum n) l in
  if ok then continue l else break (send_request StopClient l).1.
(** [send_electrum!] *)
Definition send_electrum (r : CoinRequest) (l : Listener) : flow :=
  let '(l, ok) := send_request r l in
  if ok then continue l
  else and_then (send_notif Notification.Disconnected l) break.
(** Notify the end, ask the client to stop, end. *)
Definition leave (n : Notification.TxListenerNotif) (l : Listener) : flow :=
  and_then (send_notif n l) (λ l, break (send_request StopClient l).1).

Definition signal_disconnected (l : Listener) : flow :=
  let '(l, ok) := notify (Notification.Electrum Notification.Disconnected) l in
  break (if ok then l else (send_request StopClient l).1).

(** A request that ends the thread when it cannot be sent. *)
Definition try_request (r : CoinRequest) (l : Listener) : flow :=
  let '(l, ok) := send_request r l in if ok then continue l else signal_disconnected l.

(** The same, when there is something to ask. *)
Definition ask {X} (r : list X → CoinRequest) (q : list X) (l : Listener) : flow :=
  match q with [] => continue l | _ => try_request (r q) l end.

Definition flush_statuses (l : Listener) : Listener := set_statuses (st_flush (statuses l)).1 l.

Definition status_keychain (kc : Coin.KeyChain) : N :=
  match kc with Coin.Change => STATUS_KEYCHAIN_CHANGE | _ => STATUS_KEYCHAIN_RECEIVE end.
Definition registered (st : St) (spk : script) : bool := default false (ok (st_contains_key st spk)).

(** One index of a keychain: registered, and pushed to what is to be subscribed. *)
Definition register_index (d : SpkDerivator) (kc : Coin.KeyChain) (acc : St * list script) (i : N) :
    outcome (St * list script) :=
  let! a := address_at d kc i in
  let spk := address_script a in
  if registered acc.1 spk then Ret acc
  else
    match st_insert spk (None, status_keychain kc, i) acc.1 with
    | (st, Ok _) => Ret (st, acc.2 ++ [spk])
    | (st, Err _) => Ret (st, acc.2)
    end.
Definition register_keychain (d : SpkDerivator) (kc : Coin.KeyChain) (tip : N) (acc : St * list script) :
    outcome (St * list script) :=
  let! a := address_at d kc (tip - 1) in
  if registered acc.1 (address_script a) then Ret acc
  else ofold (register_index d kc) acc (nseq 0 (N.to_nat tip)).

Definition handle_address_tip (d : SpkDerivator) (tip : AddressStore.AddressTip) (l : Listener) : flow :=
  let! acc := register_keychain d Coin.Receive (AddressStore.tip_recv tip) (statuses l, []) in
  let! acc := register_keychain d Coin.Change (AddressStore.tip_change tip) acc in
  let l := set_statuses acc.1 l in
  match acc.2 with
  | [] => continue l
  | sub => try_request (Subscribe sub) (flush_statuses l)
  end.

(** One status: the listener, the scripts whose history is to be asked for, and
    whether the statuses changed. *)
Definition no_history (spk : script) : gmap script (list (Txid * option N)) := {[ spk := [] ]}.
Definition fold_status (acc : Listener * list script * bool) (kv : script * option string) :
    outcome (Listener * list script * bool) :=
  let '(l, history, dirty) := acc in
  let '(spk, status) := kv in
  match st_get (statuses l) spk with
  | Ok (Some (s, _, _)) =>
      if decide (s = status) then Ret acc
      else
        let! lh :=
          match status with
          | Some _ => Ret (l, history ++ [spk])
          | None =>
              let! r := CoinStore.handle_history_response (no_history spk) (coin_store l) in
              let! c := CoinStore.generate r.1 in
              Ret (set_coin_store c l, history)
          end in
        let '(l, history) := lh in
        match st_modify spk (λ v, (status, v.1.2, v.2)) (statuses l) with
        | (st, Ok b) => Ret (set_statuses st l, history, dirty || b)
        | (st, Err _) => Ret (set_statuses st l, history, dirty)
        end
  | Ok None =>
      match status with
      | Some _ => Ret (l, history ++ [spk], dirty)
      | None =>
          let! r := CoinStore.handle_history_response (no_history spk) (coin_store l) in
          Ret (set_coin_store r.1 l, history, dirty)
      end
  | Err _ => Ret acc
  end.

Definition handle_status_response (elct_status : gmap script (option string)) (l : Listener) : flow :=
  let! acc := ofold fold_status (l, [], false) (bt_items elct_status) in
  let '(l, history, dirty) := acc in
  and_then
    (ask GetHistory history l)
    (λ l, continue (if dirty then flush_statuses l else l)).

Definition persist_and_generate (c : CoinStore.CoinStore (A:=A) (S:=S) (L:=L)) :
    outcome CoinStore.CoinStore :=
  CoinStore.generate (CoinStore.set_tx_store (persist (CoinStore.tx_store c)) c).

Definition handle_history_response_msg (map : gmap script (list (Txid * option N))) (l : Listener) : flow :=
  let! r := CoinStore.handle_history_response map (coin_store l) in
  let '(c, out) := r in
  let l := set_coin_store c l in
  and_then
    (ask GetTxs (CoinStore.missing_txs out) l)
    (λ l,
       let '(c, pending_changed) :=
         CoinStore.record_reported_heights (CoinStore.reported out) (coin_store l) in
       let! c := if CoinStore.height_updated out then persist_and_generate c else Ret c in
       let l := set_coin_store c l in
       continue (if pending_changed || CoinStore.height_updated out
                 then (notify Notification.PaymentHistoryUpdated l).1 else l)).

(** One height that claims wait on: the headers, the heights to ask for, the store
    and whether a claim was confirmed. *)
Definition confirm_height
    (acc : gmap N (option HeaderValidator.Header) * list N * CoinStore.CoinStore (A:=A) (S:=S) (L:=L) * bool)
    (h : N) :=
  let '(hs, missing, c, changed) := acc in
  match hs !! h with
  | Some (Some header) =>
      let '(c, b) := CoinStore.confirm_pending_claims h header c in (hs, missing, c, changed || b)
  | Some None => acc
  | None => (<[h := None]> hs, missing ++ [h], c, changed)
  end.
Definition confirm_reported (hs : gmap N (option HeaderValidator.Header)) (l : Listener) : flow :=
  let '(hs, missing, c, changed) :=
    foldl confirm_height (hs, [], coin_store l, false)
      (pending_claim_heights (CoinStore.pending_claims (coin_store l))) in
  let! c := if changed then persist_and_generate c else Ret c in
  let l := set_headers (Some hs) (set_coin_store c l) in
  let l := if changed then (notify Notification.PaymentHistoryUpdated l).1 else l in
  ask GetHeaders missing l.
(** Only without a header scanner. *)
Definition confirm_on_server (l : Listener) : flow :=
  match server_headers l with Some hs => confirm_reported hs l | None => continue l end.

Definition refresh_unconfirmed_history (l : Listener) : Listener :=
  match CoinStore.spks_with_unconfirmed_txs (coin_store l) with
  | [] => l
  | spks => (send_request (GetHistory spks) l).1
  end.

(** The height of a header that could not be had. *)
Definition failed_header (e : CoinError) : option N :=
  match e with HeaderFetch height | HeaderDecode height => Some height | _ => None end.

Definition handle_response (rsp : CoinResponse) (l : Listener) : flow :=
  match rsp with
  | Status m => and_then (handle_status_response m l) (λ l, continue (wake l))
  | History m =>
      and_then (handle_history_response_msg m l) (λ l,
        and_then (confirm_on_server l) (λ l, continue (wake l)))
  | Txs txs =>
      let! c := CoinStore.handle_txs_response txs (coin_store l) in
      and_then (confirm_on_server (set_coin_store c l)) (λ l, continue (wake l))
  | Headers landed =>
      match server_headers l with
      | None => continue l
      | Some hs => and_then (confirm_reported ((Some <$> landed) ∪ hs) l) (λ l, continue (wake l))
      end
  | TxMerkle _ _ _ _ => continue l
  | Stopped => leave Notification.Disconnected l
  | Error e =>
      let l :=
        match server_headers l, failed_header e with
        | Some hs, Some h => set_headers (Some (delete h hs)) l
        | _, _ => l
        end in
      send_notif (Notification.Error Notification.ECoin) l
  end.

(** ** The loop *)

Record Turn := mkTurn {
  others : list Wallet.WalletOp;
  stop_request : bool;
  address_tip : TryRecv AddressStore.AddressTip;
  response : TryRecv CoinResponse
}.

Definition turn (d : SpkDerivator) (t : Turn) (l : Listener) : flow :=
  let! c := ofold (λ c op, Wallet.run_wallet_op op c) (coin_store l) (others t) in
  let l := set_coin_store c l in
  if stop_request t then leave Notification.Stopped l
  else
    and_then
      (match address_tip t with
       | Got tip => handle_address_tip d tip l
       | Empty => continue l
       | Disconnected => send_notif (Notification.Error Notification.AddressStoreDisconnected) l
       end)
      (λ l,
         match response t with
         | Got rsp => handle_response rsp l
         | Empty => continue l
         | Disconnected => leave Notification.Disconnected l
         end).

Fixpoint listen_loop (d : SpkDerivator) (turns : list Turn) (l : Listener) : flow :=
  match turns with
  | [] => continue l
  | t :: turns => and_then (turn d t l) (listen_loop d turns)
  end.

(** The thread over its turns: it broke, or is still running after them. *)
Definition listen_txs (d : SpkDerivator) (turns : list Turn) (l : Listener) : flow :=
  and_then (send_notif Notification.Started l) (λ l,
    let initial_keys := default [] (ok (st_keys (statuses l))) in
    and_then
      (match initial_keys with [] => continue l | _ => send_electrum (Subscribe initial_keys) l end)
      (λ l, listen_loop d turns (refresh_unconfirmed_history l))).
End listener.

#[global] Arguments send_request : simpl never.
#[global] Arguments notify : simpl never.
#[global] Arguments try_request : simpl never.
#[global] Arguments persist_and_generate : simpl never.

(** ** Proofs *)

Section proofs.
Context `{Build} `{DescriptorLib} `{Tip.TipCodecLaws}.
Context {A : Type} `{!Store A string bytes} `{!StoreLaws A string bytes} `{!StoreTotal A string bytes}.
Context {S : Type} `{!Store S Txid TxEntry} `{!StoreLaws S Txid TxEntry} `{!StoreTotal S Txid TxEntry}.
Context {L : Type} `{!Store L LabelKey string}.
Context {St : Type} `{!Store St script (option string * N * N)}
  `{!StoreLaws St script (option string * N * N)} `{!StoreTotal St script (option string * N * N)}.
Context `{HeaderLib}.
Context (d : SpkDerivator) (bound : N) `{!Derives d bound} (Hbound : 0 < bound < 2 ^ 32).
Context (sat : N) (Hsat : Coin.max_input_satisfaction_size (descriptor d) = Ret sat).
(** No two addresses of the derivator share a script. *)
Context (Hdistinct : ∀ kc i kc' i' a a', AddressStore.keychain kc → AddressStore.keychain kc' →
  i < bound → i' < bound → address_at d kc i = Ret a → address_at d kc' i' = Ret a' →
  address_script a = address_script a' → kc = kc' ∧ i = i').
Implicit Types l : Listener (A:=A) (S:=S) (L:=L) (St:=St).
Implicit Types st : St.

Definition view st : gmap script (option string * N * N) := st_view st.

Lemma registered_true st spk : registered st spk = true ↔ is_Some (view st !! spk).
Proof.
  unfold registered, st_contains_key. destruct (st_get_total st spk) as [v Hv]. rewrite Hv. simpl.
  rewrite (st_get_spec _ _ _ Hv). unfold view. destruct (st_view st !! spk); simpl; split; eauto.
  - done.
  - by intros [? ?].
Qed.

(** The indexes of a keychain below [n] are registered. *)
Definition covered st (kc : Coin.KeyChain) (n : N) : Prop :=
  ∀ i a, i < n → address_at d kc i = Ret a → is_Some (view st !! address_script a).
(** Entries are the derivator's addresses, registered from the first one on. *)
Definition statuses_ok st : Prop :=
  ∀ spk s k i, view st !! spk = Some (s, k, i) → ∃ kc a,
    AddressStore.keychain kc ∧ k = status_keychain kc ∧ i < bound ∧ address_at d kc i = Ret a ∧
    address_script a = spk ∧ covered st kc i.

(** A store that has at least the entries of another. *)
Definition extends st st' : Prop := ∀ spk, is_Some (view st !! spk) → is_Some (view st' !! spk).
#[local] Instance extends_preorder : PreOrder extends.
Proof. split; [by intros st spk|intros a b c Hab Hbc spk Hs; by apply Hbc, Hab]. Qed.
Lemma covered_extends st st' kc n : extends st st' → covered st kc n → covered st' kc n.
Proof. intros He Hc i a Hi Ha. by eapply He, Hc. Qed.

(** *** Registration *)

(** What registering did: nothing is lost, and what is new is to be subscribed. *)
Record registers (acc acc' : St * list script) : Prop := {
  rg_ok : statuses_ok acc'.1;
  rg_extends : extends acc.1 acc'.1;
  rg_new spk : is_Some (view acc'.1 !! spk) → is_Some (view acc.1 !! spk) ∨ spk ∈ acc'.2;
  rg_sub spk : spk ∈ acc.2 → spk ∈ acc'.2
}.
Lemma registers_refl acc : statuses_ok acc.1 → registers acc acc.
Proof. split; auto. reflexivity. Qed.
Lemma registers_trans a b c : registers a b → registers b c → registers a c.
Proof.
  intros [H1a H1b H1c H1d] [H2a H2b H2c H2d]. split; [done|by etrans| |auto].
  intros spk [Hs|Hs]%H2c; [|auto]. destruct (H1c _ Hs); auto.
Qed.

Lemma register_index_spec kc i acc :
  AddressStore.keychain kc → i < bound → statuses_ok acc.1 → covered acc.1 kc i →
  ∃ acc', register_index d kc acc i = Ret acc' ∧ registers acc acc' ∧ covered acc'.1 kc (i + 1).
Proof.
  intros Hkc Hi Hok Hcov. unfold register_index.
  destruct (AddressStore.address_at_derives d bound kc i Hkc Hi) as [a Ha]. rewrite Ha. simpl.
  assert (Hnext : ∀ st, extends acc.1 st → is_Some (view st !! address_script a) → covered st kc (i + 1)).
  { intros st He Hs j b Hj Hb. destruct (decide (j = i)) as [->|Hne]; [congruence|].
    eapply He, Hcov; [|exact Hb]. lia. }
  destruct (registered acc.1 (address_script a)) eqn:Hreg.
  - apply registered_true in Hreg. exists acc. split_and!; [done|by apply registers_refl|].
    by apply Hnext.
  - destruct (st_insert_total acc.1 (address_script a) (None, status_keychain kc, i)) as (st & o & Hins).
    rewrite Hins. assert (Hv : view st = <[address_script a := (None, status_keychain kc, i)]> (view acc.1))
      by apply (st_insert_spec _ _ _ _ _ Hins).
    assert (He : extends acc.1 st).
    { intros spk Hs. rewrite Hv. apply lookup_insert_is_Some'. auto. }
    eexists. split; [done|]. split;
      [|cbn [fst]; apply Hnext; [done|by rewrite Hv, lookup_insert_eq]].
    split; cbn [fst snd]; [|done| |set_solver].
    + intros spk s k j. rewrite Hv. intros [[<- [= <- <- <-]]|[_ Hl]]%lookup_insert_Some.
      * exists kc, a. split_and!; try done. by eapply covered_extends.
      * destruct (Hok _ _ _ _ Hl) as (kc' & a' & ? & ? & ? & ? & ? & Hc). exists kc', a'.
        split_and!; try done. by eapply covered_extends.
    + intros spk. rewrite Hv. intros [<-|[_ ?]]%lookup_insert_is_Some; [right|by left]. set_solver.
Qed.

Lemma register_loop_spec kc n i acc :
  AddressStore.keychain kc → i + N.of_nat n ≤ bound → statuses_ok acc.1 → covered acc.1 kc i →
  ∃ acc', ofold (register_index d kc) acc (nseq i n) = Ret acc' ∧ registers acc acc' ∧
    covered acc'.1 kc (i + N.of_nat n).
Proof.
  revert i acc; induction n as [|n IH]; intros i acc Hkc Hi Hok Hcov; simpl.
  { exists acc. rewrite N.add_0_r. split_and!; [done|by apply registers_refl|done]. }
  destruct (register_index_spec kc i acc) as (acc1 & -> & Hr1 & Hc1); [done|lia|done..|]. simpl.
  destruct (IH (i + 1) acc1) as (acc2 & Hl & Hr2 & Hc2); [done|lia|apply Hr1|done|].
  exists acc2.
  split; [exact Hl|]. split; [exact (registers_trans _ _ _ Hr1 Hr2)|].
  by replace (i + N.of_nat (Datatypes.S n)) with (i + 1 + N.of_nat n) by lia.
Qed.

Lemma register_keychain_spec kc tip acc :
  AddressStore.keychain kc → tip ≤ bound → statuses_ok acc.1 →
  ∃ acc', register_keychain d kc tip acc = Ret acc' ∧ registers acc acc' ∧ covered acc'.1 kc tip.
Proof.
  intros Hkc Htip Hok. unfold register_keychain.
  assert (Hlast : tip - 1 < bound) by lia.
  destruct (AddressStore.address_at_derives d bound kc (tip - 1) Hkc Hlast) as [a Ha]. rewrite Ha. simpl.
  destruct (registered acc.1 (address_script a)) eqn:Hreg.
  - exists acc. split_and!; [done|by apply registers_refl|].
    apply registered_true in Hreg as Hs. pose proof Hs as [[[s k] j] Hj].
    destruct (Hok _ _ _ _ Hj) as (kc' & a' & Hkc' & _ & Hjb & Ha' & Heq & Hc).
    destruct (Hdistinct kc (tip - 1) kc' j a a') as [<- <-]; try done.
    intros i b Hi Hb. destruct (decide (i = tip - 1)) as [->|Hne]; [congruence|].
    eapply Hc; [|exact Hb]. lia.
  - destruct (register_loop_spec kc (N.to_nat tip) 0 acc) as (acc' & -> & Hr & Hc);
      [done|lia|done|intros i b Hi; lia|].
    exists acc'. split_and!; [done|done|]. by rewrite N.add_0_l, N2Nat.id in Hc.
Qed.

(** *** Flows *)

Abbreviation Lst := (Listener (A:=A) (S:=S) (L:=L) (St:=St)).
Abbreviation flow := (outcome (Lst * bool)).
Abbreviation wallet_ok := (Wallet.wallet_ok d (λ _ _ _, True)).

(** Every registered script was subscribed to on this connection. *)
Definition subscribed l : Prop :=
  ∀ spk, is_Some (view (statuses l) !! spk) → ∃ spks, Subscribe spks ∈ sent (request l) ∧ spk ∈ spks.

(** A listener that is running, with room for [n] more moves of a tip, and the tips
    [K] it was told. *)
Record running (n : N) (K : list (Coin.KeyChain * N)) l : Prop := {
  ru_wallet : wallet_ok (coin_store l);
  ru_room : Wallet.room bound n (coin_store l);
  ru_statuses : statuses_ok (statuses l);
  ru_subscribed : subscribed l;
  ru_tips kc t : (kc, t) ∈ K → covered (statuses l) kc t
}.

(** A listener that ended has said so, or could not. *)
Definition told l : Prop :=
  (∃ n, last (sent (notification l)) = Some (Notification.Electrum n) ∧
     (n = Notification.Stopped ∨ n = Notification.Disconnected)) ∨
  (∃ k, tries (notification l) = Datatypes.S k ∧ up (notification l) k = false).
Record ended l : Prop := {
  en_wallet : wallet_ok (coin_store l);
  en_statuses : statuses_ok (statuses l);
  en_told : told l
}.

(** A flow returns; the thread runs on as [P] says, or has ended. *)
Definition flows (P : Lst → Prop) (c : flow) : Prop :=
  ∃ l b, c = Ret (l, b) ∧ if b then ended l else P l.

Lemma flows_continue (P : Lst → Prop) l : P l → flows P (continue l).
Proof. intros Hl. by exists l, false. Qed.
Lemma flows_break (P : Lst → Prop) l : ended l → flows P (break l).
Proof. intros Hl. by exists l, true. Qed.
Lemma flows_then (P Q : Lst → Prop) c k :
  flows P c → (∀ l, P l → flows Q (k l)) → flows Q (and_then c k).
Proof.
  intros (l & b & -> & Hl) Hk. unfold and_then. simpl. destruct b; [by apply flows_break|by apply Hk].
Qed.
Lemma flows_mono (P Q : Lst → Prop) c : (∀ l, P l → Q l) → flows P c → flows Q c.
Proof. intros HPQ (l & b & -> & Hl). exists l, b. split; [done|]. destruct b; auto. Qed.

(** What the parts of a listener determine. *)
Definition same_stores l l' : Prop :=
  coin_store l' = coin_store l ∧ statuses l' = statuses l ∧
  (∀ r, r ∈ sent (request l) → r ∈ sent (request l')).
Lemma running_same n K l l' : same_stores l l' → running n K l → running n K l'.
Proof.
  intros (Hc & Hs & Hr) [Hw Hroom Hst Hsub Ht]. split; rewrite ?Hc, ?Hs; try done.
  intros spk. unfold subscribed in Hsub. rewrite Hs. intros Hspk. destruct (Hsub _ Hspk) as (x & ? & ?). eauto.
Qed.
Definition stores_ok l : Prop := wallet_ok (coin_store l) ∧ statuses_ok (statuses l).
Lemma running_stores n K l : running n K l → stores_ok l.
Proof. by intros []. Qed.
Lemma stores_same l l' : same_stores l l' → stores_ok l → stores_ok l'.
Proof. intros (Hc & Hs & _). unfold stores_ok. by rewrite Hc, Hs. Qed.
Lemma ended_stores l : stores_ok l → told l → ended l.
Proof. intros [] Ht. by split. Qed.

Lemma send_request_same r l : same_stores l (send_request r l).1.
Proof.
  unfold send_request, chan_send. simpl. split_and!; [done|done|]. intros x Hx. simpl.
  destruct (up _ _); set_solver.
Qed.
Lemma send_request_sent r l : (send_request r l).2 = true → r ∈ sent (request (send_request r l).1).
Proof. unfold send_request, chan_send. simpl. intros ->. set_solver. Qed.
Lemma send_request_told r l : told l → told (send_request r l).1.
Proof. done. Qed.
Lemma notify_same n l : same_stores l (notify n l).1.
Proof. unfold notify, chan_send. simpl. by split_and!. Qed.
Lemma notify_told n l :
  n = Notification.Stopped ∨ n = Notification.Disconnected ∨ (notify (Notification.Electrum n) l).2 = false →
  told (notify (Notification.Electrum n) l).1.
Proof.
  unfold told, notify, chan_send. simpl. destruct (up _ _) eqn:Hup; [|by right; eauto].
  intros Hn. left. exists n. rewrite last_snoc. split; [done|]. naive_solver.
Qed.

Lemma send_notif_flows n K m l :
  running n K l → flows (running n K) (send_notif m l).
Proof.
  intros Hl. unfold send_notif. pose proof (notify_same (Notification.Electrum m) l) as Hs.
  pose proof (notify_told m l) as Ht.
  destruct (notify (Notification.Electrum m) l) as [l' ok]. simpl in *.
  assert (Hl' : running n K l') by (by eapply running_same).
  destruct ok; [by apply flows_continue|]. apply flows_break.
  apply ended_stores; [|apply send_request_told; auto].
  eapply stores_same; [apply send_request_same|by eapply running_stores].
Qed.
Lemma leave_flows (P : Lst → Prop) m l :
  m = Notification.Stopped ∨ m = Notification.Disconnected → stores_ok l → flows P (leave m l).
Proof.
  intros Hm Hl. unfold leave, send_notif. pose proof (notify_same (Notification.Electrum m) l) as Hs.
  pose proof (notify_told m l) as Ht.
  destruct (notify (Notification.Electrum m) l) as [l' ok]. simpl in *.
  assert (He : ended (send_request StopClient l').1).
  { apply ended_stores; [|apply send_request_told; naive_solver].
    eapply stores_same; [apply send_request_same|by eapply stores_same]. }
  destruct ok; by apply flows_break.
Qed.
(** What [send_electrum] does when the client is gone. *)
Lemma disconnect_flows (P : Lst → Prop) l :
  stores_ok l → flows P (and_then (send_notif Notification.Disconnected l) break).
Proof.
  intros Hl. unfold send_notif.
  pose proof (notify_same (Notification.Electrum Notification.Disconnected) l) as Hs.
  pose proof (notify_told Notification.Disconnected l) as Ht.
  destruct (notify _ l) as [l' ok]. cbn [fst snd] in *.
  assert (He : ended l') by (apply ended_stores; [by eapply stores_same|auto]).
  destruct ok; [by apply flows_break|]. apply flows_break.
  apply ended_stores; [|apply send_request_told, He].
  eapply stores_same; [apply send_request_same|]. by eapply stores_same.
Qed.
Lemma signal_disconnected_flows (P : Lst → Prop) l :
  stores_ok l → flows P (signal_disconnected l).
Proof.
  intros Hl. unfold signal_disconnected.
  pose proof (notify_same (Notification.Electrum Notification.Disconnected) l) as Hs.
  pose proof (notify_told Notification.Disconnected l) as Ht.
  destruct (notify _ l) as [l' ok]. simpl in *. apply flows_break.
  assert (Hl' : stores_ok l') by (by eapply stores_same).
  apply ended_stores.
  - destruct ok; [done|]. eapply stores_same; [apply send_request_same|done].
  - destruct ok; [|apply send_request_told]; auto.
Qed.
Lemma request_flows (P : Lst → Prop) r l :
  stores_ok l → (∀ l', same_stores l l' → r ∈ sent (request l') → P l') →
  flows P (try_request r l).
Proof.
  intros Hl HP. unfold try_request. pose proof (send_request_same r l) as Hs. pose proof (send_request_sent r l) as Hr.
  destruct (send_request r l) as [l' ok]. simpl in *.
  destruct ok; [apply flows_continue; auto|].
  by eapply signal_disconnected_flows, stores_same.
Qed.

Lemma flush_view st : view (st_flush st).1 = view st.
Proof. destruct (st_flush st) as [st' r] eqn:Hf. apply (st_flush_spec _ _ _ Hf). Qed.
Lemma statuses_ok_view st st' : view st' = view st → statuses_ok st → statuses_ok st'.
Proof.
  intros Hv Hok spk s k i. rewrite Hv. intros (kc & a & ? & ? & ? & ? & ? & Hc)%Hok.
  exists kc, a. split_and!; try done. intros j b. rewrite Hv. apply Hc.
Qed.

(** Replacing the coin store, and the statuses. *)
Lemma running_coins n n' K c l :
  running n K l → wallet_ok c → Wallet.room bound n' c → running n' K (set_coin_store c l).
Proof. intros [] Hc Hr. by split. Qed.
Lemma running_statuses n K st l :
  statuses_ok st → (∀ spk, is_Some (view st !! spk) ↔ is_Some (view (statuses l) !! spk)) →
  running n K l → running n K (set_statuses st l).
Proof.
  intros Hst Hv [Hw Hroom _ Hsub Ht]. split; try done.
  - intros spk Hs%Hv. by apply Hsub.
  - intros kc t Hin. eapply covered_extends; [|by apply Ht]. intros spk. simpl. by rewrite Hv.
Qed.
Lemma running_flush n K l : running n K l → running n K (flush_statuses l).
Proof.
  intros Hl. apply running_statuses; [|intros spk; by rewrite flush_view|done].
  eapply statuses_ok_view; [apply flush_view|apply Hl].
Qed.

Lemma address_tip_flows n K tip l :
  running n K l → AddressStore.tip_recv tip ≤ bound → AddressStore.tip_change tip ≤ bound →
  flows (running n ((Coin.Receive, AddressStore.tip_recv tip) ::
    (Coin.Change, AddressStore.tip_change tip) :: K)) (handle_address_tip d tip l).
Proof.
  intros Hl Hr Hc. unfold handle_address_tip.
  destruct (register_keychain_spec Coin.Receive (AddressStore.tip_recv tip) (statuses l, []))
    as (acc1 & -> & Hr1 & Hc1); [by left|done|apply Hl|]. simpl.
  destruct (register_keychain_spec Coin.Change (AddressStore.tip_change tip) acc1)
    as (acc2 & -> & Hr2 & Hc2); [by right|done|apply Hr1|]. simpl.
  pose proof (registers_trans _ _ _ Hr1 Hr2) as [Hok Hext Hnew _]. cbn [fst snd] in *.
  set (K' := _ :: _ :: K).
  assert (Htips : ∀ kc t, (kc, t) ∈ K' → covered acc2.1 kc t).
  { intros kc t [[= -> ->]|[[= -> ->]|Hin]%elem_of_cons]%elem_of_cons; [|done|].
    - eapply covered_extends; [apply Hr2|done].
    - eapply covered_extends; [exact Hext|by apply Hl]. }
  destruct acc2 as [st sub]. cbn [fst snd] in *. destruct sub as [|x sub].
  - apply flows_continue. destruct Hl as [Hw Hroom _ Hsub _]. split; try done.
    intros spk [Hs|[]%not_elem_of_nil]%Hnew. by apply Hsub.
  - set (l1 := flush_statuses (set_statuses st l)).
    assert (Hsent : ∀ l', same_stores l1 l' → Subscribe (x :: sub) ∈ sent (request l') →
      running n K' l').
    { intros l' (Hcs & Hst & Hreq) Hin. destruct Hl as [Hw Hroom _ Hsub _].
      assert (Hv : view (statuses l') = view st) by (rewrite Hst; apply flush_view).
      split; rewrite ?Hcs; try done.
      - by apply (statuses_ok_view st).
      - intros spk. rewrite Hv. intros [Hs|Hs]%Hnew; [|eauto].
        destruct (Hsub _ Hs) as (y & Hy & ?). exists y. split; [by apply Hreq|done].
      - intros kc t Hk. eapply covered_extends; [|by apply Htips]. intros spk. by rewrite Hv. }
    refine (request_flows _ (Subscribe (x :: sub)) l1 _ Hsent). split; [apply Hl|].
    eapply statuses_ok_view; [apply flush_view|done].
Qed.

(** *** The handlers *)

Implicit Types c : CoinStore.CoinStore (A:=A) (S:=S) (L:=L).

Lemma history_safe n hist c :
  wallet_ok c → Wallet.room bound (N.of_nat (size hist) + n) c →
  ∃ c' o, CoinStore.handle_history_response hist c = Ret (c', o) ∧ wallet_ok c' ∧ Wallet.room bound n c'.
Proof. apply (Wallet.handle_history_response_safe d bound (proj2 Hbound) sat Hsat). Qed.
Lemma generate_safe n c :
  wallet_ok c → Wallet.room bound n c →
  ∃ c', CoinStore.generate c = Ret c' ∧ wallet_ok c' ∧ Wallet.room bound n c'.
Proof. apply (Wallet.generate_is_safe d bound sat Hsat). Qed.
Lemma persist_generate_safe n c :
  wallet_ok c → Wallet.room bound n c →
  ∃ c', persist_and_generate c = Ret c' ∧ wallet_ok c' ∧ Wallet.room bound n c'.
Proof.
  intros Hc Hr. apply generate_safe; [|done]. apply Wallet.wallet_ok_tx_store; [|done].
  rewrite persist_txs. apply Hc.
Qed.
Lemma room_less n m c : m ≤ n → Wallet.room bound n c → Wallet.room bound m c.
Proof.
  intros Hle Hr kc Hkc. eapply N.le_lt_trans; [|exact (Hr kc Hkc)].
  apply N.add_le_mono_l, N.mul_le_mono_r. done.
Qed.
Lemma running_less n m K l : m ≤ n → running n K l → running m K l.
Proof. intros Hle [Hw Hr Hs Hsub Ht]. split; try done. by eapply room_less. Qed.

(** Clearing a script whose history is gone. *)
Lemma no_history_safe n K l spk :
  running (1 + n) K l →
  ∃ c o, CoinStore.handle_history_response (no_history spk) (coin_store l) = Ret (c, o) ∧
    running n K (set_coin_store c l).
Proof.
  intros Hl. destruct (history_safe n (no_history spk) (coin_store l)) as (c & o & Hc & Hw & Hr);
    [apply Hl| |].
  - unfold no_history. rewrite map_size_singleton. apply Hl.
  - exists c, o. split; [done|]. by eapply running_coins.
Qed.

Lemma st_modify_view st spk f :
  ∃ st' b, st_modify spk f st = (st', Ok b) ∧ view st' = alter f spk (view st).
Proof.
  destruct (st_modify_total st spk f) as (st' & b & Hm). exists st', b. split; [done|].
  apply (st_modify_spec _ _ _ _ _ Hm).
Qed.
Lemma running_modify n K l st spk status :
  view st = alter (λ v : option string * N * N, (status, v.1.2, v.2)) spk (view (statuses l)) →
  running n K l → running n K (set_statuses st l).
Proof.
  intros Hv Hl. assert (Hdom : ∀ x, is_Some (view st !! x) ↔ is_Some (view (statuses l) !! x)).
  { intros x. rewrite Hv. apply lookup_alter_is_Some. }
  apply running_statuses; [|done|done]. intros x s k i. rewrite Hv. intros Hx.
  assert (∃ s', view (statuses l) !! x = Some (s', k, i)) as [s' Hx'].
  { destruct (decide (x = spk)) as [->|Hne].
    - rewrite lookup_alter_eq in Hx. destruct (view (statuses l) !! spk) as [[[s' k'] i']|]; [|done].
      simpl in Hx. injection Hx as <- <- <-. eauto.
    - rewrite lookup_alter_ne in Hx by done. eauto. }
  destruct (ru_statuses _ _ _ Hl _ _ _ _ Hx') as (kc & a & ? & ? & ? & ? & ? & Hc).
  exists kc, a. split_and!; try done. intros j b Hj Hb. apply Hdom. by eapply Hc.
Qed.

Lemma fold_status_ok n K l history dirty kv :
  running (1 + n) K l →
  ∃ l' history' dirty', fold_status (l, history, dirty) kv = Ret (l', history', dirty') ∧ running n K l'.
Proof.
  intros Hl. destruct kv as [spk status]. unfold fold_status.
  assert (Hless : running n K l) by (eapply running_less; [|done]; lia).
  destruct (st_get_total (statuses l) spk) as [v Hv]. rewrite Hv.
  destruct v as [[[s k] i]|].
  - destruct (decide (s = status)); [by exists l, history, dirty|].
    assert (∃ l1 history1, (match status with
        | Some _ => Ret (l, history ++ [spk])
        | None =>
            let! r := CoinStore.handle_history_response (no_history spk) (coin_store l) in
            let! c := CoinStore.generate r.1 in Ret (set_coin_store c l, history)
        end) = Ret (l1, history1) ∧ running n K l1) as (l1 & history1 & -> & Hl1).
    { destruct status as [x|]; [by exists l, (history ++ [spk])|].
      destruct (no_history_safe n K l spk Hl) as (c & o & -> & Hc). simpl.
      destruct (generate_safe n c) as (c' & -> & Hw & Hr); [apply Hc|apply Hc|].
      simpl. do 2 eexists. split; [done|]. by eapply running_coins. }
    simpl. destruct (st_modify_view (statuses l1) spk (λ v, (status, v.1.2, v.2))) as (st & b & -> & Hst).
    do 3 eexists. split; [done|]. by eapply running_modify.
  - destruct status as [x|]; [by exists l, (history ++ [spk]), dirty|].
    destruct (no_history_safe n K l spk Hl) as (c & o & -> & Hc). simpl. eauto 10.
Qed.
Lemma fold_statuses_ok n K m l history dirty :
  running (N.of_nat (length m) + n) K l →
  ∃ l' history' dirty', ofold fold_status (l, history, dirty) m = Ret (l', history', dirty') ∧
    running n K l'.
Proof.
  revert l history dirty; induction m as [|kv m IH]; intros l history dirty Hl; [by exists l, history, dirty|].
  cbn [ofold length] in *.
  destruct (fold_status_ok (N.of_nat (length m) + n) K l history dirty kv) as (l1 & h1 & d1 & -> & Hl1).
  { by replace (1 + (N.of_nat (length m) + n)) with (N.of_nat (Datatypes.S (length m)) + n) by lia. }
  by apply IH.
Qed.

(** A request, if there is something to ask. *)
Lemma ask_flows {X} n K (r : list X → CoinRequest) (q : list X) l :
  running n K l → flows (running n K) (ask r q l).
Proof.
  intros Hl. destruct q as [|x q]; [by apply flows_continue|].
  apply request_flows; [by eapply running_stores|]. intros l' Hs _. by eapply running_same.
Qed.

Lemma status_flows n K m l :
  running (N.of_nat (size m) + n) K l → flows (running n K) (handle_status_response m l).
Proof.
  intros Hl. unfold handle_status_response.
  destruct (fold_statuses_ok n K (bt_items m) l [] false) as (l1 & history & dirty & -> & Hl1);
    [by rewrite length_bt_items|].
  simpl. eapply flows_then; [by apply ask_flows|].
  intros l2 Hl2. apply flows_continue. destruct dirty; [by apply running_flush|done].
Qed.

Lemma history_flows n K m l :
  running (N.of_nat (size m) + n) K l → flows (running n K) (handle_history_response_msg m l).
Proof.
  intros Hl. unfold handle_history_response_msg.
  destruct (history_safe n m (coin_store l)) as (c & o & -> & Hw & Hr); [apply Hl|apply Hl|]. cbn [obind].
  assert (Hl1 : running n K (set_coin_store c l)) by by eapply running_coins.
  eapply flows_then; [by apply ask_flows|].
  intros l2 Hl2. pose proof (Wallet.record_reported_keeps d (λ _ _ _, True) (CoinStore.reported o)
    (coin_store l2) (ru_wallet _ _ _ Hl2)) as Hk.
  pose proof (Wallet.keeps_wallet_room d bound _ n _ _ Hk (ru_room _ _ _ Hl2)) as Hr2.
  destruct (CoinStore.record_reported_heights _ _) as [c2 changed]. cbn [fst] in *.
  assert (∃ c3, (if CoinStore.height_updated o then persist_and_generate c2 else Ret c2) = Ret c3 ∧
    wallet_ok c3 ∧ Wallet.room bound n c3) as (c3 & -> & Hw3 & Hr3).
  { destruct (CoinStore.height_updated o); [apply persist_generate_safe; [apply Hk|done]|].
    exists c2. split_and!; [done|apply Hk|done]. }
  cbn [obind]. apply flows_continue.
  assert (Hl3 : running n K (set_coin_store c3 l2)) by by eapply running_coins.
  destruct (_ || _); [|done]. eapply running_same; [apply notify_same|done].
Qed.

Lemma confirm_fold n hs missing c changed (heights : list N) :
  wallet_ok c → Wallet.room bound n c →
  ∃ hs' missing' c' changed', foldl confirm_height (hs, missing, c, changed) heights =
    (hs', missing', c', changed') ∧ wallet_ok c' ∧ Wallet.room bound n c'.
Proof.
  revert hs missing c changed; induction heights as [|h heights IH]; intros hs missing c changed Hc Hr;
    cbn [foldl]; [eauto 10|].
  unfold confirm_height at 2. destruct (hs !! h) as [[hdr|]|]; [|by apply IH..].
  pose proof (Wallet.confirm_keeps d (λ _ _ _, True) h hdr c Hc) as Hk.
  pose proof (Wallet.keeps_wallet_room d bound _ n _ _ Hk Hr) as Hr'.
  destruct (CoinStore.confirm_pending_claims h hdr c) as [c' b]. apply IH; [apply Hk|done].
Qed.
Lemma confirm_flows n K hs l : running n K l → flows (running n K) (confirm_reported hs l).
Proof.
  intros Hl. unfold confirm_reported.
  destruct (confirm_fold n hs [] (coin_store l) false
    (pending_claim_heights (CoinStore.pending_claims (coin_store l))))
    as (hs' & missing & c & changed & -> & Hc & Hr); [apply Hl|apply Hl|].
  assert (∃ c3, (if changed then persist_and_generate c else Ret c) = Ret c3 ∧
    wallet_ok c3 ∧ Wallet.room bound n c3) as (c3 & -> & Hw3 & Hr3).
  { destruct changed; [by apply persist_generate_safe|by exists c]. }
  cbn [obind]. apply ask_flows.
  assert (Hl3 : running n K (set_headers (Some hs') (set_coin_store c3 l))).
  { eapply running_same; [|by eapply (running_coins n n K c3)]. done. }
  destruct changed; [|done]. eapply running_same; [apply notify_same|done].
Qed.
Lemma confirm_on_server_flows n K l : running n K l → flows (running n K) (confirm_on_server l).
Proof.
  intros Hl. unfold confirm_on_server.
  destruct (server_headers l) as [hs|]; [exact (confirm_flows n K hs l Hl)|by apply flows_continue].
Qed.
Lemma wake_flows n K l : running n K l → flows (running n K) (continue (wake l)).
Proof. intros Hl. apply flows_continue. by refine (running_same n K l (wake l) _ Hl). Qed.

(** *** The loop *)

(** How many times a turn may move a tip. *)
Definition response_cost (rsp : TryRecv CoinResponse) : N :=
  match rsp with
  | Got (Status m) => N.of_nat (size m)
  | Got (History m) => N.of_nat (size m)
  | _ => 0
  end.
Definition turn_cost (t : Turn) : N := Wallet.total_cost (others t) + response_cost (response t).
(** The tips it brings. *)
Definition turn_tips (t : Turn) : list (Coin.KeyChain * N) :=
  match address_tip t with
  | Got tip => [(Coin.Receive, AddressStore.tip_recv tip); (Coin.Change, AddressStore.tip_change tip)]
  | _ => []
  end.
Definition tips_ok (t : Turn) : Prop := ∀ kc n, (kc, n) ∈ turn_tips t → n ≤ bound.

Lemma response_flows n K rsp l :
  running (response_cost (Got rsp) + n) K l → flows (running n K) (handle_response rsp l).
Proof.
  intros Hl. assert (Hless : running n K l) by (eapply running_less; [|done]; lia).
  destruct rsp as [m|m|txs|txid h br pos|landed| |e]; cbn [handle_response].
  - eapply flows_then; [by apply status_flows|]. apply wake_flows.
  - eapply flows_then; [by apply history_flows|]. intros l1 Hl1.
    eapply flows_then; [by apply confirm_on_server_flows|]. apply wake_flows.
  - destruct (Wallet.handle_txs_response_safe d bound sat Hsat (λ _ _ _, True) n txs (coin_store l))
      as (c & -> & Hw & Hr); [apply Hless|apply Hless|]. cbn [obind].
    eapply flows_then; [apply confirm_on_server_flows; by eapply running_coins|]. apply wake_flows.
  - by apply flows_continue.
  - destruct (server_headers l) as [hs|]; [|by apply flows_continue].
    eapply flows_then; [by apply confirm_flows|]. apply wake_flows.
  - apply leave_flows; [by right|by eapply running_stores].
  - apply send_notif_flows.
    destruct (server_headers l) as [hs|]; [|done]. destruct (failed_header e); [|done].
    by refine (running_same n K l _ _ Hless).
Qed.

Lemma turn_flows n K t l :
  running (turn_cost t + n) K l → tips_ok t → flows (running n (turn_tips t ++ K)) (turn d t l).
Proof.
  intros Hl Htips. unfold turn, turn_cost in *. rewrite <-N.add_assoc in Hl.
  destruct (Wallet.wallet_ops_safe d bound (proj2 Hbound) sat Hsat (λ _ _ _, True) (others t)
    (response_cost (response t) + n) (coin_store l)) as (c & -> & Hc & Hr); [apply Hl|apply Hl|].
  cbn [obind]. set (l1 := set_coin_store c l).
  assert (Hl1 : running (response_cost (response t) + n) K l1) by by eapply running_coins.
  destruct (stop_request t); [apply leave_flows; [by left|by eapply running_stores]|].
  eapply (flows_then (running (response_cost (response t) + n) (turn_tips t ++ K))).
  - unfold turn_tips, tips_ok, turn_tips in *. destruct (address_tip t) as [tip| |].
    + apply address_tip_flows; [done|eapply Htips; by left|eapply Htips; right; by left].
    + by apply flows_continue.
    + by apply send_notif_flows.
  - intros l2 Hl2. destruct (response t) as [rsp| |]; [by apply response_flows| |].
    + apply flows_continue. eapply running_less; [|done]. lia.
    + apply leave_flows; [by right|by eapply running_stores].
Qed.

Lemma loop_flows n K turns l :
  running (sumN (turn_cost <$> turns) + n) K l → Forall tips_ok turns →
  flows (λ l', running n (flat_map turn_tips (rev turns) ++ K) l') (listen_loop d turns l).
Proof.
  revert K l; induction turns as [|t turns IH]; intros K l Hl Ht; [by apply flows_continue|].
  apply Forall_cons in Ht as [Ht Hts]. rewrite fmap_cons, sumN_cons, <-N.add_assoc in Hl.
  cbn [listen_loop]. eapply flows_then; [by apply turn_flows|]. intros l1 Hl1.
  eapply flows_mono; [|by apply IH]. intros l2. cbn [rev].
  rewrite flat_map_app. cbn [flat_map]. by rewrite app_nil_r, <-app_assoc.
Qed.

(** The thread as it starts: its channels may be down from the start. *)
Lemma refresh_running n K l : running n K l → running n K (refresh_unconfirmed_history l).
Proof.
  intros Hl. unfold refresh_unconfirmed_history. destruct (CoinStore.spks_with_unconfirmed_txs _); [done|].
  eapply running_same; [apply send_request_same|done].
Qed.

Lemma keys_view st : default [] (ok (st_keys st)) = bt_keys (view st).
Proof.
  unfold st_keys. destruct (st_iter_total st) as [x Hx]. rewrite Hx. simpl.
  by rewrite (st_iter_spec _ _ Hx).
Qed.

Lemma listen_flows n turns l :
  wallet_ok (coin_store l) → Wallet.room bound (sumN (turn_cost <$> turns) + n) (coin_store l) →
  statuses_ok (statuses l) → Forall tips_ok turns →
  flows (running n (flat_map turn_tips (rev turns))) (listen_txs d turns l).
Proof.
  intros Hw Hr Hs Ht. unfold listen_txs.
  set (N0 := sumN (turn_cost <$> turns) + n) in *.
  eapply (flows_then (λ l1, stores_ok l1 ∧ coin_store l1 = coin_store l ∧ statuses l1 = statuses l)).
  { unfold send_notif. pose proof (notify_same (Notification.Electrum Notification.Started) l) as Hsame.
    pose proof (notify_told Notification.Started l) as Htold.
    destruct (notify _ l) as [l1 ok]. cbn [fst snd] in *. destruct Hsame as (Hc1 & Hs1 & _).
    assert (Hok1 : stores_ok l1) by (unfold stores_ok; by rewrite Hc1, Hs1).
    destruct ok; [by apply flows_continue|]. apply flows_break, ended_stores; [|apply send_request_told; auto].
    eapply stores_same; [apply send_request_same|done]. }
  intros l1 (Hok1 & Hc1 & Hs1). rewrite Hs1, keys_view.
  eapply (flows_then (running N0 [])).
  { assert (Hrun : ∀ l2, same_stores l1 l2 → (∀ spk, is_Some (view (statuses l) !! spk) →
        ∃ spks, Subscribe spks ∈ sent (request l2) ∧ spk ∈ spks) → running N0 [] l2).
    { intros l2 (Hc2 & Hs2 & _) Hsub. split; rewrite ?Hc2, ?Hs2, ?Hc1, ?Hs1; try done.
      - intros spk. rewrite Hs2, Hs1. apply Hsub.
      - intros kc t []%not_elem_of_nil. }
    destruct (bt_keys (view (statuses l))) as [|k ks] eqn:Hk.
    - apply flows_continue, Hrun; [done|]. intros spk Hspk%elem_of_bt_keys.
      rewrite Hk in Hspk. by apply elem_of_nil in Hspk.
    - unfold send_electrum. pose proof (send_request_same (Subscribe (k :: ks)) l1) as Hsame.
      pose proof (send_request_sent (Subscribe (k :: ks)) l1) as Hsent.
      destruct (send_request _ l1) as [l2 ok]. cbn [fst snd] in *. destruct ok.
      + apply flows_continue, Hrun; [done|]. intros spk Hspk%elem_of_bt_keys. rewrite Hk in Hspk. eauto.
      + apply disconnect_flows. by eapply stores_same. }
  intros l2 Hl2. rewrite <-(app_nil_r (flat_map _ _)). by apply loop_flows, Ht; apply refresh_running.
Qed.

(** C35. For any turns, whatever the other threads did in between: the thread's
    handlers never panic, what it shares with the other threads stays consistent, and
    a thread that ended has said so on its notification channel, unless nobody
    listens there any more. While it runs, every script registered in the statuses,
    and every address below a tip it was told, is subscribed to on this connection. *)
Theorem listener_watches turns l :
  wallet_ok (coin_store l) → Wallet.room bound (sumN (turn_cost <$> turns)) (coin_store l) →
  statuses_ok (statuses l) → Forall tips_ok turns →
  ∃ l' broke, listen_txs d turns l = Ret (l', broke) ∧
    wallet_ok (coin_store l') ∧ statuses_ok (statuses l') ∧
    if broke then told l'
    else subscribed l' ∧
      ∀ t kc tip i a, t ∈ turns → (kc, tip) ∈ turn_tips t → i < tip → address_at d kc i = Ret a →
        ∃ spks, Subscribe spks ∈ sent (request l') ∧ address_script a ∈ spks.
Proof.
  intros Hw Hr Hs Ht.
  destruct (listen_flows 0 turns l) as (l' & b & -> & Hl'); [done|by rewrite N.add_0_r|done|done|].
  exists l', b. split; [done|]. destruct b; [by destruct Hl'|].
  split_and!; try apply Hl'. intros t kc tip i a Hin Htip Hi Ha.
  apply (ru_subscribed _ _ _ Hl'). eapply (ru_tips _ _ _ Hl'); [|exact Hi|exact Ha].
  apply list_elem_of_In, in_flat_map. exists t.
  split; [by apply in_rev; rewrite rev_involutive; apply list_elem_of_In|by apply list_elem_of_In].
Qed.

(** *** What a status asks for *)

(** The script has a history the thread has not seen. *)
Definition unseen st (kv : script * option string) : bool :=
  match kv.2, view st !! kv.1 with
  | None, _ => false
  | Some _, None => true
  | status, Some v => negb (bool_decide (v.1.1 = status))
  end.
(** The entries as the server has them now. *)
Definition reports st st' (m : gmap script (option string)) : Prop :=
  ∀ spk, view st' !! spk = (λ v, (default v.1.1 (m !! spk), v.1.2, v.2)) <$> view st !! spk.

Lemma fold_status_asks n K l history dirty spk status :
  running (1 + n) K l →
  ∃ l' dirty', fold_status (l, history, dirty) (spk, status) =
      Ret (l', history ++ (if unseen (statuses l) (spk, status) then [spk] else []), dirty') ∧
    running n K l' ∧ request l' = request l ∧ reports (statuses l) (statuses l') {[ spk := status ]}.
Proof.
  intros Hl. unfold fold_status, unseen. cbn [fst snd].
  assert (Hless : running n K l) by (eapply running_less; [|done]; lia).
  destruct (st_get_total (statuses l) spk) as [v Hv]. rewrite Hv.
  assert (Hv' : v = view (statuses l) !! spk) by exact (st_get_spec _ _ _ Hv).
  destruct v as [[[s k] i]|]; rewrite <-Hv'.
  - destruct (decide (s = status)) as [->|Hne].
    + exists l, dirty.
      assert (reports (statuses l) (statuses l) {[ spk := status ]}).
      { intros x. destruct (decide (x = spk)) as [->|Hx].
        - by rewrite <-Hv', lookup_singleton_eq.
        - rewrite lookup_singleton_ne by done. by destruct (view (statuses l) !! x) as [[[]]|]. }
      destruct status; cbn [fst]; rewrite ?bool_decide_true by done; by rewrite app_nil_r.
    + assert (∃ l1, (match status with
        | Some _ => Ret (l, history ++ [spk])
        | None =>
            let! r := CoinStore.handle_history_response (no_history spk) (coin_store l) in
            let! c := CoinStore.generate r.1 in Ret (set_coin_store c l, history)
        end) = Ret (l1, history ++ (match status with Some _ => [spk] | None => [] end)) ∧ running n K l1 ∧
          request l1 = request l ∧ statuses l1 = statuses l) as (l1 & -> & Hl1 & Hq1 & Hs1).
      { destruct status as [x|]; [by exists l|].
        destruct (no_history_safe n K l spk Hl) as (c & o & -> & Hc). cbn [obind fst].
        destruct (generate_safe n c) as (c' & -> & Hw & Hr); [apply Hc|apply Hc|].
        cbn [obind]. rewrite app_nil_r. eexists. split; [done|]. split; [by eapply running_coins|done]. }
      cbn [obind]. destruct (st_modify_view (statuses l1) spk (λ v, (status, v.1.2, v.2))) as (st & b & -> & Hst).
      exists (set_statuses st l1), (dirty || b). split_and!.
      * destruct status; cbn [fst]; rewrite ?bool_decide_false by done; reflexivity.
      * by eapply running_modify.
      * exact Hq1.
      * intros x. cbn [statuses set_statuses]. rewrite Hst, Hs1.
        destruct (decide (x = spk)) as [->|Hx].
        -- by rewrite lookup_alter_eq, lookup_singleton_eq.
        -- rewrite lookup_alter_ne, lookup_singleton_ne by done.
           by destruct (view (statuses l) !! x) as [[[]]|].
  - assert (Hrep : reports (statuses l) (statuses l) {[ spk := status ]}).
    { intros x. destruct (decide (x = spk)) as [->|Hx]; [by rewrite <-Hv'|].
      rewrite lookup_singleton_ne by done. by destruct (view (statuses l) !! x) as [[[]]|]. }
    destruct status as [x|]; [by exists l, dirty|].
    destruct (no_history_safe n K l spk Hl) as (c & o & -> & Hc). cbn [obind fst].
    rewrite app_nil_r. by exists (set_coin_store c l), dirty.
Qed.

Lemma reports_trans st1 st2 st3 spk status m :
  m !! spk = None → reports st1 st2 {[ spk := status ]} → reports st2 st3 m →
  reports st1 st3 (<[spk := status]> m).
Proof.
  intros Hm H12 H23 x. rewrite H23, H12. destruct (view st1 !! x) as [v|]; [|done]. cbn.
  destruct (decide (x = spk)) as [->|Hx].
  - by rewrite Hm, lookup_insert_eq, lookup_singleton_eq.
  - by rewrite lookup_insert_ne, lookup_singleton_ne by done.
Qed.
Lemma unseen_later st st' spk status kv :
  kv.1 ≠ spk → reports st st' {[ spk := status ]} → unseen st' kv = unseen st kv.
Proof.
  intros Hne Hrep. unfold unseen. rewrite (Hrep kv.1), lookup_singleton_ne by done.
  by destruct (kv.2), (view st !! kv.1) as [[[]]|].
Qed.

Lemma fold_statuses_ask n K items l history dirty :
  NoDup items.*1 → running (N.of_nat (length items) + n) K l →
  ∃ l' dirty', ofold fold_status (l, history, dirty) items =
      Ret (l', history ++ (List.filter (unseen (statuses l)) items).*1, dirty') ∧
    running n K l' ∧ request l' = request l ∧
    reports (statuses l) (statuses l') (list_to_map items).
Proof.
  revert l history dirty; induction items as [|[spk status] items IH]; intros l history dirty Hnd Hl.
  - exists l, dirty. split_and!; [by simpl; rewrite app_nil_r|done|done|]. intros x. cbn [list_to_map foldr].
    rewrite lookup_empty. by destruct (view (statuses l) !! x) as [[[]]|].
  - apply NoDup_cons in Hnd as [Hnot Hnd]. cbn [ofold length] in *.
    destruct (fold_status_asks (N.of_nat (length items) + n) K l history dirty spk status)
      as (l1 & d1 & -> & Hl1 & Hq1 & Hr1).
    { by replace (1 + (N.of_nat (length items) + n)) with (N.of_nat (Datatypes.S (length items)) + n) by lia. }
    cbn [obind]. destruct (IH l1 (history ++ (if unseen (statuses l) (spk, status) then [spk] else [])) d1)
      as (l2 & d2 & -> & Hl2 & Hq2 & Hr2); [done..|].
    exists l2, d2. split_and!; [|done|congruence|].
    + do 3 f_equal. cbn [List.filter].
      replace (List.filter (unseen (statuses l1)) items) with (List.filter (unseen (statuses l)) items).
      * destruct (unseen (statuses l) (spk, status)); cbn; by rewrite <-?app_assoc, ?app_nil_r.
      * apply filter_ext_in. intros [x sx] Hx%list_elem_of_In. symmetry. eapply unseen_later; [|exact Hr1].
        intros Heq. simpl in Heq. subst x. apply Hnot. by apply (list_elem_of_fmap_2 fst _ (spk, sx)).
    + cbn [list_to_map foldr]. eapply reports_trans; [|exact Hr1|exact Hr2].
      by apply not_elem_of_list_to_map.
Qed.

(** A status response, on a connection that is up: the statuses become the
    server's, for the registered scripts, each keeping its keychain and index; and
    one request goes out, for the histories of exactly the scripts whose status is
    not the one on record, in the order of the map, or none if there is no such
    script. So a script whose status is the recorded one is not asked for again, and a
    script the server has no history of never is. *)
Theorem status_asks_history m l :
  wallet_ok (coin_store l) → Wallet.room bound (N.of_nat (size m)) (coin_store l) →
  statuses_ok (statuses l) → subscribed l → up (request l) (tries (request l)) = true →
  ∃ l', handle_status_response m l = Ret (l', false) ∧
    wallet_ok (coin_store l') ∧ reports (statuses l) (statuses l') m ∧
    sent (request l') = sent (request l) ++
      match (List.filter (unseen (statuses l)) (bt_items m)).*1 with
      | [] => []
      | spks => [GetHistory spks]
      end.
Proof.
  intros Hw Hr Hs Hsub Hup. unfold handle_status_response.
  destruct (fold_statuses_ask 0 [] (bt_items m) l [] false)
    as (l1 & dirty & -> & Hl1 & Hq1 & Hr1); [apply NoDup_bt_keys| |].
  { rewrite length_bt_items, N.add_0_r. split; try done. by intros kc t ?%elem_of_nil. }
  rewrite (list_to_map_proper _ _ (NoDup_bt_keys m) (bt_items_perm m)), list_to_map_to_list in Hr1.
  rewrite app_nil_l. cbn [obind]. rewrite <-Hq1 in *.
  set (spks := (List.filter _ _).*1).
  assert (Hask : ∃ l2, ask GetHistory spks l1 = Ret (l2, false) ∧ coin_store l2 = coin_store l1 ∧
    statuses l2 = statuses l1 ∧
    sent (request l2) = sent (request l1) ++ match spks with [] => [] | _ => [GetHistory spks] end).
  { destruct spks as [|x q]; [exists l1; by rewrite app_nil_r|].
    unfold ask, try_request, send_request, chan_send. rewrite Hup. by eexists. }
  destruct Hask as (l2 & -> & Hc2 & Hs2 & Hq2). unfold and_then. cbn [obind snd fst].
  eexists. split; [done|]. destruct dirty; cbn; rewrite ?Hc2, ?Hs2; (split_and!; [apply Hl1| |by destruct spks]).
  - intros x. rewrite flush_view. apply Hr1.
  - exact Hr1.
Qed.
End proofs.

Module Witness.
Import Sample HeaderValidator.Sample Derivator.Witness AddressStore.Witness.
Import CoinStore.Witness Wallet.Witness.

Abbreviation SampleStatuses := (RamStore unit script (option string * N * N)).
Abbreviation SampleListener := (Listener (A:=RamStore unit string bytes)
  (S:=RamStore unit Txid TxEntry) (L:=unit) (St:=SampleStatuses)).
Definition no_statuses : SampleStatuses := ram_empty tt "statuses" (λ _, EmptyString) (λ _, Ok []).
Definition listener (c : SampleStore) (st : SampleStatuses) : SampleListener :=
  mkListener c st (mkChan [] 0 (λ _, true)) (mkChan [] 0 (λ _, true)) (Some ∅) 0.

Lemma room_of n (c : SampleStore) :
  AddressStore.budget 1000000 n (CoinStore.address_store c) → Wallet.room 1000000 n c.
Proof. done. Qed.
Lemma distinct : ∀ kc i kc' i' a a', AddressStore.keychain kc → AddressStore.keychain kc' →
  i < 1000000 → i' < 1000000 → address_at der kc i = Ret a → address_at der kc' i' = Ret a' →
  address_script a = address_script a' → kc = kc' ∧ i = i'.
Proof. intros kc i kc' i' a a' [-> | ->] [-> | ->] _ _; simpl; intros [= <-] [= <-] [=]; done. Qed.

(** A thread on an empty status store is told two tips, learns of a history, and is
    asked to stop. *)
Definition told_tips : list Turn :=
  [mkTurn [] false (Got (AddressStore.mkAddressTip 2 1)) Empty;
   mkTurn [] false Empty (Got (Status {[ [6; 0] := Some "a" ]}));
   mkTurn [] false Empty (Got (History {[ [6; 0] := [(0, Some 2)] ]}))].
Lemma listener_watches_witness :
  ∃ l' broke, listen_txs der told_tips (listener received no_statuses) = Ret (l', broke) ∧
    Wallet.wallet_ok der (λ _ _ _, True) (coin_store l') ∧ statuses_ok der 1000000 (statuses l') ∧
    if broke then told l'
    else subscribed l' ∧
      ∀ t kc tip i a, t ∈ told_tips → (kc, tip) ∈ turn_tips t → i < tip → address_at der kc i = Ret a →
        ∃ spks, Subscribe spks ∈ sent (request l') ∧ address_script a ∈ spks.
Proof.
  apply (listener_watches der 1000000 (conj eq_refl eq_refl) 108 eq_refl distinct).
  - apply received_ok.
  - apply room_of. intros kc [-> | ->]; vm_compute; reflexivity.
  - intros spk s k i Hv. change ((∅ : gmap script (option string * N * N)) !! spk = Some (s, k, i)) in Hv.
    by rewrite lookup_empty in Hv.
  - unfold told_tips. repeat constructor; intros kc n Hin; vm_compute in Hin.
    + apply elem_of_cons in Hin as [[= -> ->]|Hin]; [done|].
      apply elem_of_cons in Hin as [[= -> ->]|[]%elem_of_nil]; done.
    + by apply elem_of_nil in Hin.
    + by apply elem_of_nil in Hin.
Defined.
Example told_tips_sends :
  match listen_txs der told_tips (listener received no_statuses) with
  | Ret (l, broke) => broke = false ∧ sent (request l) =
      [GetHistory [[6; 0]]; Subscribe [[6; 0]; [6; 1]; [7; 0]]; GetHistory [[6; 0]]; GetHeaders [2]]
  | Panic => False
  end.
Proof. vm_compute. done. Qed.

(** One address is registered, with a status that has changed since. *)
Definition one_status : SampleStatuses := (st_insert [6; 0] (Some "old", 0, 0) no_statuses).1.
Definition new_status : gmap script (option string) := {[ [6; 0] := Some "new"; [7; 5] := None ]}.
Definition subscribed_listener : SampleListener :=
  mkListener received one_status (mkChan [Subscribe [[6; 0]]] 1 (λ _, true))
    (mkChan [] 0 (λ _, true)) None 0.
Lemma one_status_entry spk v : view one_status !! spk = Some v → spk = [6; 0] ∧ v = (Some "old", 0, 0).
Proof.
  intros Hv. change (({[ [6; 0] := (Some "old", 0, 0) ]} : gmap script _) !! spk = Some v) in Hv.
  by apply lookup_singleton_Some in Hv as [<- <-].
Qed.
Lemma status_asks_history_witness :
  ∃ l', handle_status_response new_status subscribed_listener = Ret (l', false) ∧
    Wallet.wallet_ok der (λ _ _ _, True) (coin_store l') ∧
    reports (statuses subscribed_listener) (statuses l') new_status ∧
    sent (request l') = sent (request subscribed_listener) ++
      match (List.filter (unseen (statuses subscribed_listener)) (bt_items new_status)).*1 with
      | [] => []
      | spks => [GetHistory spks]
      end.
Proof.
  apply (status_asks_history der 1000000 (conj eq_refl eq_refl) 108 eq_refl).
  - apply received_ok.
  - apply room_of. intros kc [-> | ->]; vm_compute; reflexivity.
  - intros spk s k i [-> [= -> -> ->]]%one_status_entry. exists Coin.Receive, [6; 0].
    split_and!; [by left|done|done|done|done|]. intros j a Hj. lia.
  - intros spk [v [-> _]%one_status_entry]. exists [[6; 0]]. split; apply list_elem_of_singleton; done.
  - reflexivity.
Defined.

(** The first payment was received and spent; then the spend disappears from the
    history of the script it spent from. *)
Definition spent_ops : list Wallet.WalletOp :=
  [Wallet.OpHistory {[ [6; 0] := [(0, Some 2); (1, None)] ]}; Wallet.OpTxs [pay_out]].
Definition spent : SampleStore := run spent_ops received.

(** A history that only drops transactions, with the status of the script still
    set, removes them from the transaction store but does not rebuild the coins:
    the change of a transaction that is gone stays spendable, the coin it spent
    stays spent, and no update is announced, until something else rebuilds. *)
Theorem gone_tx_stays :
  txs (CoinStore.tx_store spent) !! 1 ≠ None ∧
  match handle_history_response_msg {[ [6; 0] := [(0, Some 2)] ]} (listener spent no_statuses) with
  | Ret (l', broke) =>
      broke = false ∧ bool_decide (is_Some (txs (CoinStore.tx_store (coin_store l')) !! 1)) = false ∧
      (λ e, (op_txid (Coin.outpoint (CoinStore.coin e)), Coin.status (CoinStore.coin e))) <$>
        bt_values (CoinStore.store (coin_store l')) = [(0, Coin.Spent); (1, Coin.Unconfirmed)] ∧
      sent (notification l') = []
  | Panic => False
  end.
Proof. split; [by vm_compute|]. vm_compute. by split_and!. Qed.
End Witness.
End Listener.
