(* ===== verification/ElectrumClient.v ===== *)
(** * The Electrum client (electrum/src/raw_client, electrum/src/electrum, electrum/src/client/mod.rs)

    Bytes of a socket to lines, lines to responses, and the calls of a client that sends
    one request and waits for its answer. The socket, JSON and the encoding of a
    transaction are parameters; what a server that answers every request does to the
    socket is the subject of [Server]. *)
From Stdlib Require Import Lia.
From stdpp Require Import base countable strings gmap list.
From S2P Require Import Prelude Bitcoin.

Module ElectrumClient.

(** Code that updates a state, may panic, and may not return within its fuel. *)
Definition act (S E A : Type) : Type := S → option (outcome (S * result A E)).
Definition aret {S E A} (a : A) : act S E A := λ s, Some (Ret (s, Ok a)).
Definition ares {S E A} (r : result A E) : act S E A := λ s, Some (Ret (s, r)).
Definition aget {S E A} (f : S → A) : act S E A := λ s, Some (Ret (s, Ok (f s))).
Definition aput {S E} (f : S → S) : act S E unit := λ s, Some (Ret (f s, Ok tt)).
Definition abind {S E A B} (c : act S E A) (k : A → act S E B) : act S E B := λ s,
  match c s with
  | Some (Ret (s, Ok a)) => k a s
  | Some (Ret (s, Err e)) => Some (Ret (s, Err e))
  | Some Panic => Some Panic
  | None => None
  end.
#[local] Notation "'let*' x := c 'in' k" := (abind c (λ x, k)) (at level 10, x pattern, c at level 100, k at level 200).

(** ** Requests and responses *)

Inductive Method :=
  | Banner | BlockHeader | BlockHeaders | TransactionBroadcast | Donation | EstimateFee | Features
  | HeadersSubscribe | FeeHistogram | ListPeers | Ping | RelayFee | ScriptHashGetBalance | ScriptHashGetHistory
  | ScriptHashListUnspent | ScriptHashSubscribe | ScriptHashUnsubscribe | TransactionGet | TransactionGetMerkle
  | TransactionFromPosition | Version.
#[export] Instance Method_eqdec : EqDecision Method.
Proof. solve_decision. Defined.

Inductive VersionKind := Single (v : string) | MinMax (min max : string).
Inductive TxGetArgs := ATxid (txid : Txid) | TxidVerbose (txid : Txid) (verbose : bool).

(** What serde reads in a line; transactions as the bitcoin crate encodes them. *)
Record ErrorResult := mkErrorResult { code : N; message : string }.
Record HistoryResult := mkHistory { hr_height : Z; hr_txid : Txid; hr_fee : option N }.
Record UtxoResult := mkUtxo { ur_height : N; ur_txid : Txid; ur_vout : N; ur_value : N }.
Record Header := mkHeader { hd_height : N; raw_header : string }.
Inductive HeaderNotification := SingleHeader (id : N) (header : Header) | HeaderBatch (headers : list Header).
Record GetMerkleResult := mkGetMerkle { merkle : list string; gm_height : N; tx_pos : N }.
Inductive TxGetResult := Raw (hex : string) | Verbose.

(** [enum Response]: the id first, where there is one; features, fees and peers without
    their contents. *)
Inductive Response (SH : Type) :=
  | HeaderNotif (n : HeaderNotification)
  | BatchHeaderNotif (headers : list Header)
  | SHNotification (sh : SH) (status : option string)
  | RPing (id : N)
  | RBanner (id : N) (banner : string)
  | RHeader (id : N) (raw : string)
  | RHeaders (id : N) (count : N) (raw : string) (max : N)
  | RVersion (id : N) (software : string) (v : VersionKind)
  | TxGet (id : N) (result : TxGetResult)
  | SHSubscribe (id : N) (status : option string)
  | SHUnsubscribe (id : N) (done : bool)
  | SHGetBalance (id : N) (confirmed unconfirmed : Z)
  | SHGetHistory (id : N) (history : list HistoryResult)
  | SHGetMempool (id : N) (mempool : list HistoryResult)
  | SHListUnspent (id : N) (unspent : list UtxoResult)
  | RError (id : N) (e : ErrorResult)
  | RFeatures (id : N)
  | TxBroadcast (id : N) (txid : Txid)
  | RDonation (id : N) (address : option string)
  | REstimateFee (id : N)
  | RFeeHistogram (id : N) (histogram : list (N * N))
  | RRelayFee (id : N)
  | TxGetMerkle (id : N) (result : GetMerkleResult)
  | TxFromposition (id : N) (txid : Txid)
  | RListPeers (id : N).
Arguments HeaderNotif {_}. Arguments BatchHeaderNotif {_}. Arguments SHNotification {_}. Arguments RPing {_}.
Arguments RBanner {_}. Arguments RHeader {_}. Arguments RHeaders {_}. Arguments RVersion {_}. Arguments TxGet {_}.
Arguments SHSubscribe {_}. Arguments SHUnsubscribe {_}. Arguments SHGetBalance {_}. Arguments SHGetHistory {_}.
Arguments SHGetMempool {_}. Arguments SHListUnspent {_}. Arguments RError {_}. Arguments RFeatures {_}.
Arguments TxBroadcast {_}. Arguments RDonation {_}. Arguments REstimateFee {_}. Arguments RFeeHistogram {_}.
Arguments RRelayFee {_}. Arguments TxGetMerkle {_}. Arguments TxFromposition {_}. Arguments RListPeers {_}.

Class WireLib := {
  ScriptHash : Type;
  ScriptHash_eqdec :: EqDecision ScriptHash;
  ScriptHash_countable :: Countable ScriptHash;
  script_hash : script → ScriptHash;                       (* the SHA-256 of the script *)
  json_array : list N → option (list (list N));            (* Vec<Value>, each written again *)
  json_error : list N → option (N * ErrorResult);
  json_header_notif : list N → option (Method * list Header);
  json_sh_notif : list N → option (Method * (ScriptHash * option string));
  json_id : list N → option N;                             (* RawResponse *)
  json_ping : list N → option N;
  json_banner : list N → option (N * string);
  json_headers_subscribe : list N → option HeaderNotification;
  json_header : list N → option (N * string);
  json_headers : list N → option (N * (N * string * N));
  json_version : list N → option (N * (string * VersionKind));
  json_tx_get : list N → option (N * TxGetResult);
  json_sh_subscribe : list N → option (N * option string);
  json_sh_unsubscribe : list N → option (N * bool);
  json_sh_get_balance : list N → option (N * (Z * Z));
  json_sh_get_history : list N → option (N * list HistoryResult);
  json_sh_list_unspent : list N → option (N * list UtxoResult);
  json_features : list N → option N;
  json_donation : list N → option (N * option string);
  json_estimate_fee : list N → option N;
  json_fee_histogram : list N → option (N * list (N * N));
  json_relay_fee : list N → option N;
  json_tx_get_merkle : list N → option (N * GetMerkleResult);
  json_tx_from_position : list N → option (N * Txid);
  json_tx_broadcast : list N → option (N * Txid);
  tx_serialize_hex : Transaction → string;
  tx_of_hex : string → option (option Transaction)         (* from_hex, then consensus_decode *)
}.

Section data.
Context `{WireLib}.

Inductive Params :=
  | PNone
  | PBlockHeader (height : N)
  | PBlockHeaders (start count : N)
  | PTransactionBroadcast (tx : string)
  | PEstimateFee (target : N)
  | PScriptHashGetBalance (sh : ScriptHash)
  | PScriptHashGetHistory (sh : ScriptHash)
  | PScriptHashGetMempool (sh : ScriptHash)
  | PScriptHashListUnspent (sh : ScriptHash)
  | PScriptHashSubscribe (sh : ScriptHash)
  | PScriptHashUnsubscribe (sh : ScriptHash)
  | PTransactionGet (args : TxGetArgs)
  | PTransactionGetMerkle (txid : Txid) (height : N)
  | PTransactionFromPosition (height tx_pos : N) (merkle : bool)
  | PVersion (client : string) (kind : VersionKind).
Record Request := mkRequest { req_id : N; method : Method; params : Params }.
Definition new_request (method : Method) (params : Params) : Request := mkRequest 0 method params.
Definition with_id (id : N) (r : Request) : Request := mkRequest id (method r) (params r).

Definition ping : Request := new_request Ping PNone.
Definition version (client version : string) : Request := new_request Version (PVersion client (Single version)).
Definition version_range (client min max : string) : Request := new_request Version (PVersion client (MinMax min max)).
Definition banner : Request := new_request Banner PNone.
Definition donation : Request := new_request Donation PNone.
Definition features : Request := new_request Features PNone.
Definition subscribe_peers : Request := new_request ListPeers PNone.
Definition header (height : N) : Request := new_request BlockHeader (PBlockHeader height).
Definition headers (start count : N) : Request := new_request BlockHeaders (PBlockHeaders start count).
Definition estimate_fee (block_target : N) : Request := new_request EstimateFee (PEstimateFee block_target).
Definition subscribe_headers : Request := new_request HeadersSubscribe PNone.
Definition relay_fee : Request := new_request RelayFee PNone.
Definition sh_get_balance (s : script) : Request := new_request ScriptHashGetBalance (PScriptHashGetBalance (script_hash s)).
Definition sh_get_history (s : script) : Request := new_request ScriptHashGetHistory (PScriptHashGetHistory (script_hash s)).
Definition sh_list_unspent (s : script) : Request := new_request ScriptHashListUnspent (PScriptHashListUnspent (script_hash s)).
Definition subscribe_sh (s : script) : Request := new_request ScriptHashSubscribe (PScriptHashSubscribe (script_hash s)).
Definition unsubscribe_sh (s : script) : Request := new_request ScriptHashUnsubscribe (PScriptHashUnsubscribe (script_hash s)).
Definition tx_broadcast (tx : string) : Request := new_request TransactionBroadcast (PTransactionBroadcast tx).
Definition tx_get (txid : Txid) : Request := new_request TransactionGet (PTransactionGet (ATxid txid)).
Definition tx_get_verbose (txid : Txid) : Request := new_request TransactionGet (PTransactionGet (TxidVerbose txid true)).
Definition tx_get_merkle (txid : Txid) (height : N) : Request := new_request TransactionGetMerkle (PTransactionGetMerkle txid height).
Definition tx_from_pos (height tx_pos : N) (merkle : bool) : Request :=
  new_request TransactionFromPosition (PTransactionFromPosition height tx_pos merkle).
Definition get_fee_histogram : Request := new_request FeeHistogram PNone.

Definition response_id (r : Response ScriptHash) : option N :=
  match r with
  | RPing id | RBanner id _ | RHeader id _ | RHeaders id _ _ _ | RVersion id _ _ | TxGet id _ | SHSubscribe id _
  | SHUnsubscribe id _ | SHGetBalance id _ _ | SHGetHistory id _ | SHGetMempool id _ | SHListUnspent id _ | RError id _
  | RFeatures id | TxBroadcast id _ | RDonation id _ | REstimateFee id | RFeeHistogram id _ | RRelayFee id
  | TxGetMerkle id _ | TxFromposition id _ | RListPeers id => Some id
  | HeaderNotif _ | BatchHeaderNotif _ | SHNotification _ _ => None
  end.

(** [electrum::Error], the causes dropped. *)
Inductive WireError :=
  | InvalidParam | MethodNotFound | ResponseParsing | RawResponseParsing | ResponseId (id : N) | BatchParsing | WrongMethod.

Abbreviation Index := (gmap N Request).
Abbreviation Parsed := (result (Response ScriptHash) WireError).
Definition parsed {A} (f : A → Response ScriptHash) (o : option A) : Parsed :=
  match o with Some a => Ok (f a) | None => Err ResponseParsing end.
(** The answer to a request, by its method. *)
Definition parse_answer (m : Method) (raw : list N) : outcome Parsed :=
  match m with
  | Ping => Ret (parsed RPing (json_ping raw))
  | Banner => Ret (parsed (λ '(id, b), RBanner id b) (json_banner raw))
  | HeadersSubscribe => Ret (parsed HeaderNotif (json_headers_subscribe raw))
  | BlockHeader => Ret (parsed (λ '(id, h), RHeader id h) (json_header raw))
  | BlockHeaders => Ret (parsed (λ '(id, (count, h, max)), RHeaders id count h max) (json_headers raw))
  | Version => Ret (parsed (λ '(id, (s, v)), RVersion id s v) (json_version raw))
  | TransactionGet => Ret (parsed (λ '(id, r), TxGet id r) (json_tx_get raw))
  | ScriptHashSubscribe => Ret (parsed (λ '(id, s), SHSubscribe id s) (json_sh_subscribe raw))
  | ScriptHashUnsubscribe => Ret (parsed (λ '(id, b), SHUnsubscribe id b) (json_sh_unsubscribe raw))
  | ScriptHashGetBalance => Ret (parsed (λ '(id, (c, u)), SHGetBalance id c u) (json_sh_get_balance raw))
  | ScriptHashGetHistory => Ret (parsed (λ '(id, h), SHGetHistory id h) (json_sh_get_history raw))
  | ScriptHashListUnspent => Ret (parsed (λ '(id, u), SHListUnspent id u) (json_sh_list_unspent raw))
  | Features => Ret (parsed RFeatures (json_features raw))
  | Donation => Ret (parsed (λ '(id, a), RDonation id a) (json_donation raw))
  | EstimateFee => Ret (parsed REstimateFee (json_estimate_fee raw))
  | FeeHistogram => Ret (parsed (λ '(id, h), RFeeHistogram id h) (json_fee_histogram raw))
  | RelayFee => Ret (parsed RRelayFee (json_relay_fee raw))
  | TransactionGetMerkle => Ret (parsed (λ '(id, r), TxGetMerkle id r) (json_tx_get_merkle raw))
  | TransactionFromPosition => Ret (parsed (λ '(id, t), TxFromposition id t) (json_tx_from_position raw))
  | TransactionBroadcast => Ret (parsed (λ '(id, t), TxBroadcast id t) (json_tx_broadcast raw))
  | ListPeers => Panic
  end.
(** Errors and notifications are told by their shape, answers by the request of their
    id. *)
Definition try_parse (raw : list N) (index : Index) : outcome Parsed :=
  match json_error raw with
  | Some (id, e) => Ret (Ok (RError id e))
  | None =>
      match json_header_notif raw with
      | Some (_, hs) => Ret (Ok (BatchHeaderNotif hs))
      | None =>
          match json_sh_notif raw with
          | Some (_, (sh, status)) => Ret (Ok (SHNotification sh status))
          | None =>
              match json_id raw with
              | None => Ret (Err RawResponseParsing)
              | Some id =>
                  match index !! id with
                  | None => Ret (Err (ResponseId id))
                  | Some request => parse_answer (method request) raw
                  end
              end
          end
      end
  end.
Fixpoint parse_batch (l : list (list N)) (index : Index) : outcome (result (list (Response ScriptHash)) WireError) :=
  match l with
  | [] => Ret (Ok [])
  | raw :: l => let? r := try_parse raw index in let? rs := parse_batch l index in Ret (Ok (r :: rs))
  end.
Definition parse_str_response (raw : list N) (index : Index) : outcome (result (list (Response ScriptHash)) WireError) :=
  match json_array raw with
  | Some l => parse_batch l index
  | None => let? r := try_parse raw index in Ret (Ok [r])
  end.
End data.

(** ** Lines of a socket *)

(** What a read gives; [None] when it blocks for ever. *)
Inductive read_result := RData (bytes : list N) | RDisconnected | RWouldBlock | RFailed.
Class Socket (W : Type) := {
  sk_read : nat → W → option (W * read_result);          (* Read::read into a buffer of that size *)
  sk_write : list N → W → W * bool;
  sk_nonblocking : bool → W → W * bool
}.

(** [raw_client::Error], the causes dropped. *)
Inductive RawError :=
  | TcpStream | SocketAddr | Tls | TlsHandshake | Io | EElectrum (e : WireError) | Mutex | AlreadyConnected
  | NotConnected | Disconnected | NotConfigured | ShutDown | SetNonBlocking | SetBlocking | SerializeRequest | Batch.

Section lines.
Context {W : Type} `{Socket W} (buffer_size : nat).

(** [struct TcpState]: the socket, and what was read past the last line. *)
Record TcpState := mkTcp { stream : W; buf : list N }.
Abbreviation io A := (act TcpState RawError A).

Definition newline : N := 10.

(** [String::from_utf8_lossy]: U+FFFD for what is not UTF-8, once for each longest start of
    a character, or for a byte that starts none. *)
Definition REPLACEMENT : list N := [239; 191; 189].
Definition continues (b : N) : bool := (128 <=? b) && (b <=? 191).
(** How many bytes a character has, by its first. *)
Definition utf8_char_width (b : N) : N :=
  if b <? 128 then 1
  else if (194 <=? b) && (b <=? 223) then 2
  else if (224 <=? b) && (b <=? 239) then 3
  else if (240 <=? b) && (b <=? 244) then 4 else 0.
(** The second byte, after a first one of three or four: no overlong form, no surrogate,
    nothing above U+10FFFF. *)
Definition second_of (b b1 : N) : bool :=
  continues b1 &&
  (if b =? 224 then 160 <=? b1 else if b =? 237 then b1 <=? 159
   else if b =? 240 then 144 <=? b1 else if b =? 244 then b1 <=? 143 else true).
Fixpoint from_utf8_lossy (l : list N) : list N :=
  match l with
  | [] => []
  | b :: l1 =>
      match utf8_char_width b with
      | 1 => b :: from_utf8_lossy l1
      | 2 =>
          match l1 with
          | b1 :: l2 => if continues b1 then b :: b1 :: from_utf8_lossy l2 else REPLACEMENT ++ from_utf8_lossy l1
          | [] => REPLACEMENT
          end
      | 3 =>
          match l1 with
          | b1 :: l2 =>
              if second_of b b1 then
                match l2 with
                | b2 :: l3 => if continues b2 then b :: b1 :: b2 :: from_utf8_lossy l3 else REPLACEMENT ++ from_utf8_lossy l2
                | [] => REPLACEMENT
                end
              else REPLACEMENT ++ from_utf8_lossy l1
          | [] => REPLACEMENT
          end
      | 4 =>
          match l1 with
          | b1 :: l2 =>
              if second_of b b1 then
                match l2 with
                | b2 :: l3 =>
                    if continues b2 then
                      match l3 with
                      | b3 :: l4 =>
                          if continues b3 then b :: b1 :: b2 :: b3 :: from_utf8_lossy l4 else REPLACEMENT ++ from_utf8_lossy l3
                      | [] => REPLACEMENT
                      end
                    else REPLACEMENT ++ from_utf8_lossy l2
                | [] => REPLACEMENT
                end
              else REPLACEMENT ++ from_utf8_lossy l1
          | [] => REPLACEMENT
          end
      | _ => REPLACEMENT ++ from_utf8_lossy l1
      end
  end.

(** [buf] up to its first newline, and after it. *)
Fixpoint split_line (buf : list N) : option (list N * list N) :=
  match buf with
  | [] => None
  | b :: rest =>
      if b =? newline then Some ([b], rest)
      else match split_line rest with Some (line, rest) => Some (b :: line, rest) | None => None end
  end.
Definition take_line (buf : list N) : option (list N * list N) :=
  match split_line buf with Some (line, rest) => Some (from_utf8_lossy line, rest) | None => None end.

Definition set_nonblocking (b : bool) : io unit := λ s,
  let '(w, done) := sk_nonblocking b (stream s) in
  Some (Ret (mkTcp w (buf s), if done then Ok tt else Err (if b then SetNonBlocking else SetBlocking))).
Definition read : io read_result := λ s,
  match sk_read buffer_size (stream s) with
  | Some (w, r) => Some (Ret (mkTcp w (buf s), Ok r))
  | None => None
  end.
Definition set_buf (b : list N) : io unit := aput (λ s, mkTcp (stream s) b).

(** The loop of [read_line]. *)
Fixpoint read_until (fuel : nat) : io (list N) :=
  match fuel with
  | O => λ _, None
  | S fuel =>
      let* b := aget buf in
      match take_line b with
      | Some (line, rest) => let* _ := set_buf rest in aret line
      | None =>
          let* r := read in
          match r with
          | RData bytes => let* _ := set_buf (b ++ bytes) in read_until fuel
          | RDisconnected =>
              if bool_decide (b = []) then ares (Err Disconnected)
              else let* _ := set_buf [] in aret (from_utf8_lossy b)
          | RWouldBlock | RFailed => ares (Err TcpStream)
          end
      end
  end.
Definition read_line (fuel : nat) : io (list N) :=
  let* _ := set_nonblocking false in read_until fuel.

(** The loop of [try_read_line]: what comes at once. *)
Fixpoint poll_until (fuel : nat) : io (result (option (list N)) RawError) :=
  match fuel with
  | O => λ _, None
  | S fuel =>
      let* r := read in
      match r with
      | RDisconnected => aret (Err Disconnected)
      | RWouldBlock => aret (Ok None)
      | RFailed => aret (Err TcpStream)
      | RData bytes =>
          let* b := aget buf in
          match take_line (b ++ bytes) with
          | Some (line, rest) => let* _ := set_buf rest in aret (Ok (Some line))
          | None => let* _ := set_buf (b ++ bytes) in poll_until fuel
          end
      end
  end.
Definition try_read_line (fuel : nat) : io (option (list N)) :=
  let* b := aget buf in
  match take_line b with
  | Some (line, rest) => let* _ := set_buf rest in aret (Some line)
  | None =>
      let* _ := set_nonblocking true in
      let* result := poll_until fuel in
      let* _ := set_nonblocking false in
      ares result
  end.

(** [TcpClient::send]: the request and the end of the line. *)
Definition write_all (bytes : list N) : io unit := λ s,
  let '(w, done) := sk_write bytes (stream s) in
  Some (Ret (mkTcp w (buf s), if done then Ok tt else Err TcpStream)).
Definition send (request : list N) : io unit :=
  let* _ := write_all request in write_all [newline].
End lines.
Arguments TcpState : clear implicits.

(** ** The client *)

(** [client::Error], the causes dropped. *)
Inductive Error :=
  | Transport (e : RawError) | Decode | TxParsing | WrongResponse | WrongOutPoint | TxDoesNotExists | Rejected (message : string).

(** What serde writes of a request, and the clock, in milliseconds, of a wait. *)
Class ClientLib `{WireLib} (W : Type) := {
  json_of : Request → option (list N);
  json_of_batch : list Request → option (list N);
  clock : W → N
}.

Section client.
Context `{WireLib} {W : Type} `{Socket W} `{!ClientLib W} (buffer_size : nat).

(** [struct Client], over a connected socket; [usize] is 64 bits. *)
Record Client := mkClient { inner : TcpState W; index : gmap N Request; last_id : N }.
Abbreviation call A := (act Client Error A).

(** A call of the raw client. *)
Definition on_inner {A} (c : act (TcpState W) RawError A) : call A := λ s,
  match c (inner s) with
  | Some (Ret (t, Ok a)) => Some (Ret (mkClient t (index s) (last_id s), Ok a))
  | Some (Ret (t, Err e)) => Some (Ret (mkClient t (index s) (last_id s), Err (Transport e)))
  | Some Panic => Some Panic
  | None => None
  end.
Definition try_send (r : Request) : call unit :=
  match json_of r with
  | Some s => on_inner (send s)
  | None => ares (Err (Transport SerializeRequest))
  end.
Definition try_send_batch (l : list Request) : call unit :=
  match json_of_batch l with
  | Some s => on_inner (send s)
  | None => ares (Err (Transport Batch))
  end.
(** [raw_client::Client::recv]: one line, parsed. *)
Definition recv (fuel : nat) : call (list (Response ScriptHash)) :=
  let* raw := on_inner (read_line buffer_size fuel) in
  let* index := aget index in
  match parse_str_response raw index with
  | Ret (Ok rs) => aret rs
  | Ret (Err e) => ares (Err (Transport (EElectrum e)))
  | Panic => λ _, Some Panic
  end.
Definition remember (r : Request) : call unit :=
  aput (λ s, mkClient (inner s) (<[req_id r := r]> (index s)) (last_id s)).
Definition forget (id : N) : call unit := aput (λ s, mkClient (inner s) (delete id (index s)) (last_id s)).
(** [result] after [c], whose error is returned in its place. *)
Definition recv_or_forget (fuel : nat) (id : N) : call (list (Response ScriptHash)) := λ s,
  match recv fuel s with
  | Some (Ret (s, Err e)) => (let* _ := forget id in ares (Err e)) s
  | r => r
  end.

Definition next_id : call N := λ s,
  let id := (last_id s + 1) mod 2 ^ 64 in Some (Ret (mkClient (inner s) (index s) id, Ok id)).
Definition register (r : Request) : call N :=
  let* id := next_id in let* _ := remember (with_id id r) in aret id.

(** The first response that is an answer decides. *)
Fixpoint first_of {A} (f : Response ScriptHash → option A) (l : list (Response ScriptHash)) : option A :=
  match l with
  | [] => None
  | r :: l => match f r with Some a => Some a | None => first_of f l end
  end.
Definition conclude {A} (id : N) (o : option (result A Error)) : call A :=
  let* _ := forget id in ares (match o with Some r => r | None => Err WrongResponse end).

Definition tx_answer (id : N) (r : Response ScriptHash) : option (result Transaction Error) :=
  match r with
  | TxGet id' (Raw res) =>
      if id =? id' then
        Some (match tx_of_hex res with Some (Some tx) => Ok tx | _ => Err TxParsing end)
      else None
  | RError id' _ => if id =? id' then Some (Err TxDoesNotExists) else None
  | _ => None
  end.
Definition get_tx (fuel : nat) (txid : Txid) : call Transaction :=
  let* id := next_id in
  let request := with_id id (tx_get txid) in
  let* _ := try_send request in
  let* _ := remember request in
  let* resp := recv_or_forget fuel id in
  conclude id (first_of (tx_answer id) resp).

Definition history_answer (id : N) (r : Response ScriptHash) : option (result (list Txid) Error) :=
  match r with
  | SHGetHistory id' history => if id =? id' then Some (Ok (hr_txid <$> history)) else None
  | _ => None
  end.
Definition get_coins_tx_at (fuel : nat) (s : script) : call (list Txid) :=
  let* id := next_id in
  let request := with_id id (sh_get_history s) in
  let* _ := try_send request in
  let* _ := remember request in
  let* resp := recv_or_forget fuel id in
  conclude id (first_of (history_answer id) resp).

Definition paid_to (s : script) (txid : Txid) (outs : list TxOut) : list (TxOut * OutPoint) :=
  omap (λ '(i, o), if bool_decide (script_pubkey o = s) then Some (o, mkOutPoint txid (N.of_nat i mod 2 ^ 32)) else None)
    (imap pair outs).
Fixpoint get_coins_of (fuel : nat) (s : script) (txs : list Txid) (acc : list (TxOut * OutPoint) * gmap Txid Transaction) :
    call (list (TxOut * OutPoint) * gmap Txid Transaction) :=
  match txs with
  | [] => aret acc
  | txid :: txs =>
      let* tx := get_tx fuel txid in
      get_coins_of fuel s txs (acc.1 ++ paid_to s txid (output tx), <[txid := tx]> acc.2)
  end.
Definition get_coins_at (fuel : nat) (s : script) : call (list (TxOut * OutPoint) * gmap Txid Transaction) :=
  let* txs := get_coins_tx_at fuel s in get_coins_of fuel s txs ([], ∅).

(** A broadcast is sent with the id every request is made with. *)
Definition sent_answer (id : N) (r : Response ScriptHash) : option (result unit Error) :=
  match r with TxBroadcast id' _ => if id =? id' then Some (Ok tt) else None | _ => None end.
Definition broadcast (fuel : nat) (tx : Transaction) : call unit :=
  let request := tx_broadcast (tx_serialize_hex tx) in
  let* _ := try_send request in
  let id := req_id request in
  let* _ := remember request in
  let* resp := recv_or_forget fuel id in
  conclude id (first_of (sent_answer id) resp).

Context `{TxLib}.
Definition broadcast_answer (tx : Transaction) (id : N) (r : Response ScriptHash) : option (result Txid Error) :=
  match r with
  | TxBroadcast id' _ => if id' =? id then Some (Ok (compute_txid tx)) else None
  | RError id' e => if id' =? id then Some (Err (Rejected (message e))) else None
  | _ => None
  end.
(** The loop of [broadcast_tx]: [fuel] bounds the turns, [lines] the reads of a line. *)
Fixpoint await_broadcast (fuel lines : nat) (tx : Transaction) (id deadline : N) : call Txid :=
  match fuel with
  | O => λ _, None
  | S fuel => λ s,
      match recv lines s with
      | Some (Ret (s, Ok resp)) =>
          match first_of (broadcast_answer tx id) resp with
          | Some r => conclude id (Some r) s
          | None =>
              if deadline <=? clock (stream (inner s)) then conclude id None s
              else await_broadcast fuel lines tx id deadline s
          end
      | Some (Ret (s, Err e)) =>
          if clock (stream (inner s)) <? deadline then await_broadcast fuel lines tx id deadline s
          else conclude id (Some (Err e)) s
      | Some Panic => Some Panic
      | None => None
      end
  end.
Definition broadcast_tx (fuel lines : nat) (tx : Transaction) : call Txid :=
  let request := tx_broadcast (tx_serialize_hex tx) in
  let id := req_id request in
  let* _ := try_send request in
  let* _ := remember request in
  let* now := aget (λ s, clock (stream (inner s))) in
  await_broadcast fuel lines tx id (now + 10000).

(** A batch is sent again while the socket fails, three times at most; the consumer is
    told of the last error, [open] says whether it still listens. *)
Definition SEND_MAX_RETRIES : nat := 3.
Fixpoint send_retrying (retries : nat) (open : bool) (batch : list Request) : act Client Error (bool * option Error) := λ s,
  match try_send_batch batch s with
  | Some (Ret (s, Ok _)) => Some (Ret (s, Ok (true, None)))
  | Some (Ret (s, Err e)) =>
      match retries with
      | O => Some (Ret (s, Ok (open, Some e)))
      | S retries => send_retrying retries open batch s
      end
  | Some Panic => Some Panic
  | None => None
  end.
Definition send_with_retry (open : bool) (batch : list Request) := send_retrying SEND_MAX_RETRIES open batch.
End client.
#[global] Arguments Client _ _ : clear implicits.

(** ** A stream of bytes, whatever the reads cut it into *)

(** What the peer sent, or will send, comes once and in order. A read that waits gives a
    piece of it, as long or short as it likes; one that does not may give nothing. *)
Class ByteStream {W : Type} `{Socket W} (buffer_size : nat) := {
  unread : W → list N;
  waits : W → bool;
  sk_nonblocking_law b w : ∃ w', sk_nonblocking b w = (w', true) ∧ unread w' = unread w ∧ waits w' = negb b;
  sk_read_law w : unread w ≠ [] →
    (∃ w' chunk, sk_read buffer_size w = Some (w', RData chunk) ∧ chunk ≠ [] ∧ unread w = chunk ++ unread w' ∧ waits w' = waits w) ∨
    (waits w = false ∧ ∃ w', sk_read buffer_size w = Some (w', RWouldBlock) ∧ unread w' = unread w ∧ waits w' = waits w);
  sk_idle_law w : unread w = [] → waits w = false →
    ∃ w', sk_read buffer_size w = Some (w', RWouldBlock) ∧ unread w' = [] ∧ waits w' = false
}.

Section reading.
Context {W : Type} `{ByteStream W buffer_size}.
Implicit Types (s : TcpState W) (line : list N).

(** What has still to be read: the rest of the last read, then the stream. *)
Definition pending s : list N := buf s ++ unread (stream s).

Lemma split_line_found line rest : newline ∉ line → split_line (line ++ newline :: rest) = Some (line ++ [newline], rest).
Proof.
  induction line as [|b line IH]; intros Hn; [done|]. simpl. rewrite not_elem_of_cons in Hn.
  destruct (N.eqb_spec b newline); [naive_solver|]. by rewrite IH by apply Hn.
Qed.

Lemma split_line_sound b line rest : split_line b = Some (line, rest) → b = line ++ rest ∧ ∃ l, line = l ++ [newline] ∧ newline ∉ l.
Proof.
  revert line rest. induction b as [|x b IH]; intros line rest; [done|]. simpl.
  destruct (N.eqb_spec x newline) as [->|Hx].
  - intros [= <- <-]. split; [done|]. exists []. split; [done|apply not_elem_of_nil].
  - destruct (split_line b) as [[l r]|] eqn:E; [|done]. intros [= <- <-].
    destruct (IH _ _ eq_refl) as [-> (l' & -> & Hl)]. split; [done|]. exists (x :: l'). split; [done|].
    by rewrite not_elem_of_cons.
Qed.

Lemma split_line_none b : split_line b = None → newline ∉ b.
Proof.
  induction b as [|x b IH]; intros E; [apply not_elem_of_nil|]. simpl in E. destruct (N.eqb_spec x newline); [done|].
  destruct (split_line b) as [[]|]; [done|]. rewrite not_elem_of_cons. naive_solver.
Qed.

(** What a client makes of a line. *)
Definition text_of (line : list N) : list N := from_utf8_lossy (line ++ [newline]).

(** ASCII is its own text. *)
Lemma from_utf8_lossy_ascii l : Forall (λ b, b < 128) l → from_utf8_lossy l = l.
Proof.
  induction 1 as [|b l Hb _ IH]; [done|]. cbn [from_utf8_lossy]. unfold utf8_char_width.
  destruct (N.ltb_spec b 128); [|lia]. by rewrite IH.
Qed.
Lemma text_of_ascii line : Forall (λ b, b < 128) line → text_of line = line ++ [newline].
Proof. intros Hl. apply from_utf8_lossy_ascii, Forall_app. split; [done|]. by repeat constructor. Qed.

Lemma take_line_none b : take_line b = None → newline ∉ b.
Proof. unfold take_line. intros E. apply split_line_none. by destruct (split_line b) as [[]|]. Qed.

(** The first line of [b ++ u] is that of [b] when [b] holds one. *)
Lemma take_line_first b u line rest l r :
  b ++ u = line ++ newline :: rest → newline ∉ line → take_line b = Some (l, r) → l = text_of line ∧ r ++ u = rest.
Proof.
  unfold take_line. intros E Hn Ht. destruct (split_line b) as [[l0 r0]|] eqn:Hs; [|done]. injection Ht as <- <-.
  destruct (split_line_sound _ _ _ Hs) as [-> (l' & -> & Hl')].
  pose proof (split_line_found l' (r0 ++ u) Hl') as T1. pose proof (split_line_found line rest Hn) as T2.
  rewrite <-E, <-!app_assoc in T2. simpl in T2. rewrite T1 in T2. injection T2 as T2 T3. split; [by unfold text_of; rewrite T2|done].
Qed.

Lemma take_line_unread b u line rest : b ++ u = line ++ newline :: rest → take_line b = None → u ≠ [].
Proof.
  intros E Ht ->. rewrite app_nil_r in E. apply take_line_none in Ht. apply Ht. rewrite E.
  apply elem_of_app. right. apply list_elem_of_here.
Qed.

Lemma read_until_line fuel s line rest :
  pending s = line ++ newline :: rest → newline ∉ line → waits (stream s) = true → (length (unread (stream s)) < fuel)%nat →
  ∃ s', read_until buffer_size fuel s = Some (Ret (s', Ok (text_of line))) ∧ pending s' = rest ∧ waits (stream s') = true.
Proof.
  revert s. induction fuel as [|fuel IH]; intros [w b] Hp Hn Hw Hf; [lia|]. simpl in Hw, Hf.
  cbn [read_until]. unfold abind, aget, aret. cbn [buf stream]. unfold pending in Hp. cbn in Hp.
  destruct (take_line b) as [[l r]|] eqn:Ht.
  - destruct (take_line_first _ _ _ _ _ _ Hp Hn Ht) as [-> Hr]. eexists. split; [reflexivity|]. by split.
  - pose proof (take_line_unread _ _ _ _ Hp Ht) as Hu.
    destruct (sk_read_law w Hu) as [(w' & chunk & Er & Hc & Eu & Ew)|[? _]]; [|congruence].
    unfold read. cbn [stream buf]. rewrite Er. cbn.
    apply IH; cbn; [|done|congruence|].
    + unfold pending. cbn. by rewrite <-app_assoc, <-Eu.
    + rewrite Eu, length_app in Hf. destruct chunk; [done|]. cbn in Hf. lia.
Qed.

Lemma read_line_line fuel s line rest :
  pending s = line ++ newline :: rest → newline ∉ line → (length (unread (stream s)) < fuel)%nat →
  ∃ s', read_line buffer_size fuel s = Some (Ret (s', Ok (text_of line))) ∧ pending s' = rest ∧ waits (stream s') = true.
Proof.
  intros Hp Hn Hf. unfold read_line, abind, set_nonblocking.
  destruct (sk_nonblocking_law false (stream s)) as (w & E & Eu & Ew). rewrite E.
  apply read_until_line; cbn; [|done..|congruence]. unfold pending in *. cbn. congruence.
Qed.

Lemma poll_until_line fuel s line rest :
  pending s = line ++ newline :: rest → newline ∉ line → take_line (buf s) = None → (length (unread (stream s)) < fuel)%nat →
  ∃ s' r, poll_until buffer_size fuel s = Some (Ret (s', Ok (Ok r))) ∧
    (r = Some (text_of line) ∧ pending s' = rest ∨ r = None ∧ pending s' = pending s).
Proof.
  revert s. induction fuel as [|fuel IH]; intros [w b] Hp Hn Ht Hf; [lia|]. cbn in Ht, Hf.
  unfold pending in *. cbn in Hp |- *. unfold abind, aret. cbn.
  pose proof (take_line_unread _ _ _ _ Hp Ht) as Hu.
  destruct (sk_read_law w Hu) as [(w' & chunk & Er & Hc & Eu & Ew)|(_ & w' & Er & Eu & Ew)];
    unfold read; cbn [stream buf]; rewrite Er; cbn.
  - destruct (take_line (b ++ chunk)) as [[l r]|] eqn:Ht'.
    + rewrite Eu, app_assoc in Hp. destruct (take_line_first _ _ _ _ _ _ Hp Hn Ht') as [-> Hr]. eauto 10.
    + rewrite Eu, app_assoc in Hp. rewrite Eu, length_app in Hf.
      destruct (IH (mkTcp w' (b ++ chunk))) as (s' & r & E & Hr); cbn; [done..| |].
      { destruct chunk; [done|]. cbn in Hf. lia. }
      exists s', r. split; [exact E|]. cbn in Hr. by rewrite Eu, app_assoc.
  - rewrite <-Eu. eauto 10.
Qed.

Lemma try_read_line_line fuel s line rest :
  pending s = line ++ newline :: rest → newline ∉ line → (length (unread (stream s)) < fuel)%nat →
  ∃ s' r, try_read_line buffer_size fuel s = Some (Ret (s', Ok r)) ∧
    (r = Some (text_of line) ∧ pending s' = rest ∨ r = None ∧ pending s' = pending s).
Proof.
  intros Hp Hn Hf. unfold try_read_line, abind, aget, aret, ares.
  destruct (take_line (buf s)) as [[l r]|] eqn:Ht.
  - destruct (take_line_first _ _ _ _ _ _ Hp Hn Ht) as [-> Hr]. cbn. eexists _, _. split; [reflexivity|]. auto.
  - unfold set_nonblocking. destruct (sk_nonblocking_law true (stream s)) as (w & E & Eu & _). rewrite E. cbn [stream buf].
    destruct (poll_until_line fuel (mkTcp w (buf s)) line rest) as (s1 & r & -> & Hr); cbn [stream buf]; unfold pending in *;
      cbn [stream buf] in *; [congruence|done|done|congruence|].
    destruct (sk_nonblocking_law false (stream s1)) as (w2 & -> & Eu2 & _).
    eexists _, r. split; [reflexivity|]. cbn. rewrite Eu2. rewrite Eu in Hr. exact Hr.
Qed.

Lemma try_read_line_idle fuel s : (0 < fuel)%nat → pending s = [] →
  ∃ s', try_read_line buffer_size fuel s = Some (Ret (s', Ok None)) ∧ pending s' = [].
Proof.
  intros Hf Hp. unfold pending in *. apply app_eq_nil in Hp as [Hb Hu]. unfold try_read_line, abind, aget, aret, ares.
  rewrite Hb. cbn [take_line split_line]. unfold set_nonblocking. destruct (sk_nonblocking_law true (stream s)) as (w & E & Eu & Ew). rewrite E.
  destruct fuel as [|fuel]; [lia|]. cbn [poll_until]. unfold abind, aret, read. cbn [stream buf].
  destruct (sk_idle_law w) as (w1 & -> & Eu1 & _); [congruence|done|]. cbn [stream buf].
  destruct (sk_nonblocking_law false w1) as (w2 & -> & Eu2 & _). eexists. split; [reflexivity|]. cbn. by rewrite Hb, Eu2, Eu1.
Qed.

(** A thread that reads: waiting for a line ([true]) or taking one that is there. *)
Fixpoint read_lines (fuel : nat) (waiting : list bool) : act (TcpState W) RawError (list (list N)) :=
  match waiting with
  | [] => aret []
  | true :: waiting =>
      let* line := read_line buffer_size fuel in let* lines := read_lines fuel waiting in aret (line :: lines)
  | false :: waiting =>
      let* got := try_read_line buffer_size fuel in let* lines := read_lines fuel waiting in aret (option_list got ++ lines)
  end.

Definition of_lines (lines : list (list N)) : list N := concat ((λ line, line ++ [newline]) <$> lines).

(** C33. Whatever pieces the socket delivers, and however waiting reads and polls take turns,
    a client gets the lines of the stream: complete, once each and in order. Every
    waiting read gets one, and what was not returned is still there to be read. *)
Theorem lines_reassembled fuel s waiting lines rest :
  pending s = of_lines lines ++ rest →
  Forall (λ line, newline ∉ line) lines →
  (length waiting ≤ length lines)%nat →
  (length (pending s) < fuel)%nat →
  ∃ s' k, read_lines fuel waiting s = Some (Ret (s', Ok (text_of <$> take k lines))) ∧
    pending s' = of_lines (drop k lines) ++ rest ∧
    (length (filter (λ b, b = true) waiting) ≤ k ≤ length waiting)%nat.
Proof.
  revert s lines. induction waiting as [|b waiting IH]; intros s lines Hp Hl Hle Hf.
  { exists s, O. rewrite take_0, drop_0. cbn. auto. }
  destruct lines as [|line lines]; [cbn in Hle; lia|]. inversion Hl as [|? ? Hn Hl']; subst.
  assert (pending s = line ++ newline :: (of_lines lines ++ rest)) as Hp1.
  { rewrite Hp. unfold of_lines. cbn. by rewrite <-!app_assoc. }
  assert (length (unread (stream s)) < fuel)%nat as Hu by (unfold pending in Hf; rewrite length_app in Hf; lia).
  assert (length (of_lines lines ++ rest) < fuel)%nat as Hf'.
  { rewrite Hp1, length_app in Hf. cbn in Hf. lia. }
  cbn in Hle.
  assert (∀ s1, pending s1 = of_lines lines ++ rest → ∃ s' k,
    read_lines fuel waiting s1 = Some (Ret (s', Ok (text_of <$> take k lines))) ∧
    pending s' = of_lines (drop k lines) ++ rest ∧ (length (filter (λ b, b = true) waiting) ≤ k ≤ length waiting)%nat) as Hgo.
  { intros s1 E1. apply IH; [done..|lia|by rewrite E1]. }
  destruct b; cbn [read_lines]; unfold abind, aret.
  - destruct (read_line_line fuel s line _ Hp1 Hn Hu) as (s1 & -> & E1 & _).
    destruct (Hgo s1 E1) as (s' & k & -> & E' & Hk). exists s', (S k). split; [done|]. split; [done|].
      rewrite ?filter_cons_True, ?filter_cons_False by done. cbn. lia.
  - destruct (try_read_line_line fuel s line _ Hp1 Hn Hu) as (s1 & r & -> & [[-> E1]|[-> E1]]).
    + destruct (Hgo s1 E1) as (s' & k & -> & E' & Hk). exists s', (S k). split; [done|]. split; [done|].
      rewrite ?filter_cons_True, ?filter_cons_False by done. cbn. lia.
    + destruct (IH s1 (line :: lines)) as (s' & k & -> & E' & Hk); [congruence|done|cbn; lia|by rewrite E1|].
      exists s', k. split; [done|]. split; [done|].
      rewrite ?filter_cons_True, ?filter_cons_False by done. cbn. lia.
Qed.
End reading.

(** ** A server that answers each request with one line *)

(** A line that is no error and no notification, and answers request [id]. *)
Definition plain `{WireLib} (raw : list N) (id : N) : Prop :=
  json_array raw = None ∧ json_error raw = None ∧ json_header_notif raw = None ∧ json_sh_notif raw = None ∧ json_id raw = Some id.

(** Its transactions and histories, and the line it answers a request with. *)
Class Server {W : Type} `{WireLib} `{ByteStream W buffer_size} `{!ClientLib W} := {
  chain : Txid → option Transaction;
  history : script → list HistoryResult;
  answer : Request → list N;
  answer_is_line r : newline ∉ answer r;
  sk_write_law r j w : json_of r = Some j →
    ∃ w1 w2, sk_write j w = (w1, true) ∧ sk_write [newline] w1 = (w2, true) ∧ unread w2 = unread w ++ answer r ++ [newline];
  answer_tx_law id txid :
    let r := with_id id (tx_get txid) in
    let raw := text_of (answer r) in
    is_Some (json_of r) ∧
    match chain txid with
    | Some tx => plain raw id ∧ ∃ hex, json_tx_get raw = Some (id, Raw hex) ∧ tx_of_hex hex = Some (Some tx)
    | None => json_array raw = None ∧ ∃ e, json_error raw = Some (id, e)
    end;
  answer_history_law id s :
    let r := with_id id (sh_get_history s) in
    let raw := text_of (answer r) in
    is_Some (json_of r) ∧ plain raw id ∧ json_sh_get_history raw = Some (id, history s)
}.

Section calls.
Context {W : Type} `{Server W buffer_size}.
Abbreviation client := (Client _ W).
Implicit Types (s : client).

Definition unanswered s : list N := pending (inner s).
Definition upcoming s : N := (last_id s + 1) mod 2 ^ 64.
Lemma upcoming_usize s : upcoming s < 2 ^ 64.
Proof. by apply N.mod_lt. Qed.

(** [get_tx] and [get_coins_tx_at] are one exchange with two readings of the answer. *)
Definition exchange {A} (fuel : nat) (r : Request) (f : N → Response ScriptHash → option (result A Error)) : act client Error A :=
  let* id := next_id in
  let request := with_id id r in
  let* _ := try_send request in
  let* _ := remember request in
  let* resp := recv_or_forget buffer_size fuel id in
  conclude id (first_of (f id) resp).

(** What the exchange makes of a line. *)
Definition reading {A} (f : Response ScriptHash → option (result A Error)) (o : outcome (result (list (Response ScriptHash)) WireError)) :
    option (result A Error) :=
  match o with
  | Ret (Ok rs) => Some (default (Err WrongResponse) (first_of f rs))
  | Ret (Err e) => Some (Err (Transport (EElectrum e)))
  | Panic => None
  end.

Lemma try_send_answered s r : is_Some (json_of r) →
  ∃ t, try_send r s = Some (Ret (mkClient t (index s) (last_id s), Ok tt)) ∧ pending t = unanswered s ++ answer r ++ [newline].
Proof.
  intros [j Hj]. destruct (sk_write_law r j (stream (inner s)) Hj) as (w1 & w2 & E1 & E2 & Eu).
  exists (mkTcp w2 (buf (inner s))). unfold try_send. rewrite Hj. unfold on_inner, send, write_all, abind. rewrite E1. cbn [stream buf].
  rewrite E2. split; [done|]. unfold unanswered, pending. cbn [stream buf]. by rewrite Eu, app_assoc.
Qed.

Lemma recv_line fuel s line rest : unanswered s = line ++ newline :: rest → newline ∉ line → (length (unanswered s) < fuel)%nat →
  ∃ t, pending t = rest ∧ recv buffer_size fuel s =
    match parse_str_response (text_of line) (index s) with
    | Ret (Ok rs) => Some (Ret (mkClient t (index s) (last_id s), Ok rs))
    | Ret (Err e) => Some (Ret (mkClient t (index s) (last_id s), Err (Transport (EElectrum e))))
    | Panic => Some Panic
    end.
Proof.
  intros Hp Hn Hf. unfold unanswered in *.
  destruct (read_line_line fuel (inner s) line rest) as (t & E & Ht & _); [done..| |].
  { unfold pending in Hf. rewrite length_app in Hf. lia. }
  exists t. split; [done|]. unfold recv, abind, on_inner, aget, aret, ares. rewrite E. cbn [index].
  by destruct parse_str_response as [[rs|e]|].
Qed.

Lemma exchange_line {A} fuel (r : Request) (f : N → Response ScriptHash → option (result A Error)) s line rest res :
  let id := upcoming s in
  let req := with_id id r in
  is_Some (json_of req) →
  unanswered s ++ answer req ++ [newline] = line ++ newline :: rest → newline ∉ line →
  (length (unanswered s ++ answer req ++ [newline]) < fuel)%nat →
  reading (f id) (parse_str_response (text_of line) (<[id := req]> (index s))) = Some res →
  ∃ s', exchange fuel r f s = Some (Ret (s', res)) ∧ unanswered s' = rest ∧ index s' = delete id (index s) ∧ last_id s' = id.
Proof.
  intros id req Hj Hp Hn Hf Hr.
  destruct (try_send_answered (mkClient (inner s) (index s) id) req Hj) as (t & Et & Ep). cbn [index last_id] in Et.
  change (unanswered (mkClient (inner s) (index s) id)) with (unanswered s) in Ep.
  destruct (recv_line fuel (mkClient t (<[id := req]> (index s)) id) line rest) as (t' & Ht' & Er).
  { unfold unanswered. cbn. congruence. } { done. } { unfold unanswered at 1. cbn [inner]. by rewrite Ep. }
  cbn [index last_id] in Er.
  unfold exchange, abind, next_id. fold (upcoming s). fold id. fold req. rewrite Et. cbn [index inner last_id].
  unfold remember, aput. cbn [index inner last_id]. change (req_id req) with id. unfold recv_or_forget. rewrite Er. unfold reading in Hr.
  destruct parse_str_response as [[rs|e]|]; [| |done]; simplify_eq.
  - unfold conclude, forget, aput, abind, ares. cbn.
    destruct (first_of (f id) rs) as [x|]; cbn; (eexists; split; [reflexivity|]); cbn;
      (split; [done|]); (split; [|done]); apply delete_insert_eq.
  - unfold abind, forget, aput, ares. cbn. eexists; (split; [reflexivity|]); cbn.
    split; [done|]. split; [apply delete_insert_eq|done].
Qed.

(** An answer read at once, and read after its request was forgotten. *)
Lemma parse_plain raw id idx : plain raw id →
  parse_str_response raw idx =
    match idx !! id with
    | Some request => let? r := parse_answer (method request) raw in Ret (Ok [r])
    | None => Ret (Err (ResponseId id))
    end.
Proof.
  intros (E1 & E2 & E3 & E4 & E5). unfold parse_str_response, try_parse. rewrite E1, E2, E3, E4, E5. by destruct (idx !! id).
Qed.

Lemma parse_error raw id e idx : json_array raw = None → json_error raw = Some (id, e) → parse_str_response raw idx = Ret (Ok [RError id e]).
Proof. intros E1 E2. unfold parse_str_response, try_parse. by rewrite E1, E2. Qed.

Definition tx_reply (txid : Txid) : result Transaction Error :=
  match chain txid with Some tx => Ok tx | None => Err TxDoesNotExists end.
Definition history_reply (spk : script) : result (list Txid) Error := Ok (hr_txid <$> history spk).

Lemma reading_tx id txid idx :
  let r := with_id id (tx_get txid) in
  reading (tx_answer id) (parse_str_response (text_of (answer r)) (<[id := r]> idx)) = Some (tx_reply txid).
Proof.
  intros r. destruct (answer_tx_law id txid) as [_ Hl]. fold r in Hl. unfold tx_reply. destruct (chain txid) as [tx|].
  - destruct Hl as (Hpl & hex & E1 & E2). rewrite (parse_plain _ _ _ Hpl), lookup_insert_eq. cbn. rewrite E1. cbn.
    by rewrite N.eqb_refl, E2.
  - destruct Hl as (E1 & e & E2). rewrite (parse_error _ _ _ _ E1 E2). cbn. by rewrite N.eqb_refl.
Qed.

Lemma reading_history id spk idx :
  let r := with_id id (sh_get_history spk) in
  reading (history_answer id) (parse_str_response (text_of (answer r)) (<[id := r]> idx)) = Some (history_reply spk).
Proof.
  intros r. destruct (answer_history_law id spk) as (_ & Hpl & E). fold r in Hpl, E.
  rewrite (parse_plain _ _ _ Hpl), lookup_insert_eq. cbn. rewrite E. cbn. by rewrite N.eqb_refl.
Qed.

(** The calls a caller makes one after the other, and what it should hear. *)
Inductive Query := QTx (txid : Txid) | QHistory (spk : script).
Inductive Reply := ReplyTx (r : result Transaction Error) | ReplyHistory (r : result (list Txid) Error).
Definition request_of (q : Query) : Request := match q with QTx txid => tx_get txid | QHistory spk => sh_get_history spk end.
Definition reply_of (q : Query) : Reply := match q with QTx txid => ReplyTx (tx_reply txid) | QHistory spk => ReplyHistory (history_reply spk) end.
Definition failed (r : Reply) : bool :=
  match r with ReplyTx (Err _) | ReplyHistory (Err _) => true | _ => false end.
Definition replied {A} (f : result A Error → Reply) (o : option (outcome (client * result A Error))) : option (outcome (client * Reply)) :=
  match o with Some (Ret (s, r)) => Some (Ret (s, f r)) | Some Panic => Some Panic | None => None end.
Definition run_query (fuel : nat) (q : Query) (s : client) : option (outcome (client * Reply)) :=
  match q with
  | QTx txid => replied ReplyTx (get_tx buffer_size fuel txid s)
  | QHistory spk => replied ReplyHistory (get_coins_tx_at buffer_size fuel spk s)
  end.
Fixpoint run_queries (fuel : nat) (qs : list Query) (s : client) : option (outcome (client * list Reply)) :=
  match qs with
  | [] => Some (Ret (s, []))
  | q :: qs =>
      match run_query fuel q s with
      | Some (Ret (s, r)) =>
          match run_queries fuel qs s with
          | Some (Ret (s, rs)) => Some (Ret (s, r :: rs))
          | Some Panic => Some Panic
          | None => None
          end
      | Some Panic => Some Panic
      | None => None
      end
  end.

(** The fuel is more than the bytes of an answer. *)
Definition enough (fuel : nat) (q : Query) : Prop := ∀ id, id < 2 ^ 64 → (length (answer (with_id id (request_of q))) + 1 < fuel)%nat.

Lemma get_tx_answered fuel txid s : unanswered s = [] → enough fuel (QTx txid) →
  ∃ s', get_tx buffer_size fuel txid s = Some (Ret (s', tx_reply txid)) ∧ unanswered s' = [].
Proof.
  intros Hs Hf.
  destruct (exchange_line fuel (tx_get txid) tx_answer s (answer (with_id (upcoming s) (tx_get txid))) [] (tx_reply txid))
    as (s' & E & Hu & _).
  - apply answer_tx_law.
  - by rewrite Hs.
  - apply answer_is_line.
  - rewrite Hs, app_nil_l, length_app. apply (Hf (upcoming s)), upcoming_usize.
  - apply reading_tx.
  - by exists s'.
Qed.

Lemma get_coins_tx_at_answered fuel spk s : unanswered s = [] → enough fuel (QHistory spk) →
  ∃ s', get_coins_tx_at buffer_size fuel spk s = Some (Ret (s', history_reply spk)) ∧ unanswered s' = [].
Proof.
  intros Hs Hf.
  destruct (exchange_line fuel (sh_get_history spk) history_answer s (answer (with_id (upcoming s) (sh_get_history spk))) []
              (history_reply spk)) as (s' & E & Hu & _).
  - apply answer_history_law.
  - by rewrite Hs.
  - apply answer_is_line.
  - rewrite Hs, app_nil_l, length_app. apply (Hf (upcoming s)), upcoming_usize.
  - apply reading_history.
  - by exists s'.
Qed.

(** C32. On a connection with nothing left unread, any sequence of calls is answered with
    what the server has, each call with its own answer and the transactions the server
    does not know with the error that says so, whatever pieces the bytes arrive in; and
    nothing is left unread after it. *)
Theorem calls_answered fuel qs s : unanswered s = [] → Forall (enough fuel) qs →
  ∃ s', run_queries fuel qs s = Some (Ret (s', reply_of <$> qs)) ∧ unanswered s' = [].
Proof.
  intros Hs Hq. revert s Hs. induction Hq as [|q qs Hf _ IH]; intros s Hs; [by exists s|].
  assert (∃ s', run_query fuel q s = Some (Ret (s', reply_of q)) ∧ unanswered s' = []) as (s1 & E & Hs1).
  { destruct q as [txid|spk]; unfold run_query.
    - destruct (get_tx_answered fuel txid s Hs Hf) as (s1 & -> & ?). by exists s1.
    - destruct (get_coins_tx_at_answered fuel spk s Hs Hf) as (s1 & -> & ?). by exists s1. }
  destruct (IH s1 Hs1) as (s2 & E2 & Hs2). exists s2. cbn. by rewrite E, E2.
Qed.

(** *** One line too many *)

(** A line is foreign to the next request when reading it gives no answer to it. *)
Definition foreign (raw : list N) (idx : gmap N Request) (id : N) : Prop :=
  match parse_str_response raw idx with
  | Ret (Ok rs) => Forall (λ r, response_id r ≠ Some id) rs
  | Ret (Err _) => True
  | Panic => False
  end.
Definition lags s : Prop := ∃ line, unanswered s = line ++ [newline] ∧ newline ∉ line ∧
  ∀ r, foreign (text_of line) (<[upcoming s := with_id (upcoming s) r]> (index s)) (upcoming s).

Lemma foreign_empty_line idx id :
  json_array [newline] = None → json_error [newline] = None → json_header_notif [newline] = None →
  json_sh_notif [newline] = None → json_id [newline] = None → foreign [newline] idx id.
Proof. intros E1 E2 E3 E4 E5. unfold foreign, parse_str_response, try_parse. by rewrite E1, E2, E3, E4, E5. Qed.

Lemma upcoming_fresh (n : N) : n mod 2 ^ 64 ≠ (n mod 2 ^ 64 + 1) mod 2 ^ 64.
Proof.
  intros E. pose proof (N.div_mod' (n mod 2 ^ 64 + 1) (2 ^ 64)). pose proof (N.mod_lt n (2 ^ 64)).
  change (2 ^ 64) with 18446744073709551616 in *. lia.
Qed.

(** The answer to a forgotten request is foreign to any later one. *)
Lemma foreign_late (q : Query) id id' idx r :
  id ≠ id' → foreign (text_of (answer (with_id id (request_of q)))) (<[id' := r]> (delete id idx)) id'.
Proof.
  intros Hne. unfold foreign.
  assert (∀ raw, plain raw id → match parse_str_response raw (<[id' := r]> (delete id idx)) with
    | Ret (Ok rs) => Forall (λ r, response_id r ≠ Some id') rs | Ret (Err _) => True | Panic => False end) as Hp.
  { intros raw Hraw. rewrite (parse_plain _ _ _ Hraw), lookup_insert_ne by done. by rewrite lookup_delete_eq. }
  destruct q as [txid|spk]; cbn [request_of].
  - destruct (answer_tx_law id txid) as [_ Hl]. destruct (chain txid).
    + destruct Hl as [Hl _]. by apply Hp.
    + destruct Hl as (E1 & e & E2). rewrite (parse_error _ _ _ _ E1 E2).
      repeat constructor. cbn. congruence.
  - destruct (answer_history_law id spk) as (_ & Hl & _). by apply Hp.
Qed.

Lemma first_of_foreign {A} (f : N → Response ScriptHash → option A) id rs :
  (∀ r, response_id r ≠ Some id → f id r = None) → Forall (λ r, response_id r ≠ Some id) rs → first_of (f id) rs = None.
Proof. intros Hf. induction 1 as [|r rs Hr _ IH]; [done|]. cbn. by rewrite (Hf r Hr). Qed.

Lemma tx_answer_foreign id r : response_id r ≠ Some id → tx_answer id r = None.
Proof.
  intros Hr. destruct r as [| | | | | | | |id' [hex|]| | | | | | |id' e| | | | | | | | |]; try done; cbn in *;
    destruct (N.eqb_spec id id'); congruence.
Qed.

Lemma history_answer_foreign id r : response_id r ≠ Some id → history_answer id r = None.
Proof. intros Hr. destruct r; try done; cbn in *. destruct (N.eqb_spec id id0); congruence. Qed.

Lemma exchange_lags {A} fuel q (f : N → Response ScriptHash → option (result A Error)) s :
  lags s → (length (unanswered s) < fuel)%nat → enough (fuel - length (unanswered s)) q →
  is_Some (json_of (with_id (upcoming s) (request_of q))) →
  (∀ id r, response_id r ≠ Some id → f id r = None) →
  ∃ s' e, exchange fuel (request_of q) f s = Some (Ret (s', Err e)) ∧ lags s' ∧
    unanswered s' = answer (with_id (upcoming s) (request_of q)) ++ [newline].
Proof.
  intros (line & Hs & Hn & Hfor) Hlen Hf Hj Hans. specialize (Hfor (request_of q)).
  set (req := with_id (upcoming s) (request_of q)) in *.
  assert (∃ e, reading (f (upcoming s)) (parse_str_response (text_of line) (<[upcoming s := req]> (index s))) = Some (Err e)) as [e He].
  { unfold foreign in Hfor. destruct parse_str_response as [[rs|e]|]; [| |done]; cbn; [|by eexists].
    rewrite (first_of_foreign f _ _ (Hans _) Hfor). by eexists. }
  destruct (exchange_line fuel (request_of q) f s line (answer req ++ [newline]) (Err e)) as (s' & E & Hu & Hi & Hl).
  - done.
  - rewrite Hs. by rewrite <-app_assoc.
  - done.
  - fold req. rewrite !length_app. specialize (Hf (upcoming s) (upcoming_usize s)). fold req in Hf. cbn. lia.
  - done.
  - exists s', e. split; [done|]. split; [|done]. exists (answer req). split; [done|]. split; [apply answer_is_line|].
    intros r. rewrite Hi. apply foreign_late. unfold upcoming at 2. rewrite Hl. unfold upcoming.
    apply upcoming_fresh.
Qed.

Definition small (n : nat) (q : Query) : Prop := ∀ id, id < 2 ^ 64 → (length (answer (with_id id (request_of q))) + 1 ≤ n)%nat.

Lemma get_tx_lags fuel n txid s : lags s → (length (unanswered s) ≤ n)%nat → small n (QTx txid) → (2 * n < fuel)%nat →
  ∃ s' e, get_tx buffer_size fuel txid s = Some (Ret (s', Err e)) ∧ lags s' ∧ (length (unanswered s') ≤ n)%nat.
Proof.
  intros Hs Hlen Hq Hf.
  destruct (exchange_lags fuel (QTx txid) tx_answer s Hs) as (s' & e & E & Hs' & Hu); [lia|..].
  - intros id Hid. specialize (Hq id Hid). lia.
  - apply answer_tx_law.
  - intros. by apply tx_answer_foreign.
  - exists s', e. split; [done|]. split; [done|]. rewrite Hu, length_app. apply Hq, upcoming_usize.
Qed.

Lemma get_coins_tx_at_lags fuel n spk s : lags s → (length (unanswered s) ≤ n)%nat → small n (QHistory spk) → (2 * n < fuel)%nat →
  ∃ s' e, get_coins_tx_at buffer_size fuel spk s = Some (Ret (s', Err e)) ∧ lags s' ∧ (length (unanswered s') ≤ n)%nat.
Proof.
  intros Hs Hlen Hq Hf.
  destruct (exchange_lags fuel (QHistory spk) history_answer s Hs) as (s' & e & E & Hs' & Hu); [lia|..].
  - intros id Hid. specialize (Hq id Hid). lia.
  - apply answer_history_law.
  - intros. by apply history_answer_foreign.
  - exists s', e. split; [done|]. split; [done|]. rewrite Hu, length_app. apply Hq, upcoming_usize.
Qed.

(** One line too many, such as the empty line [broadcast_tx] expects of electrs, and the
    client is one answer behind for good: each call reads the line before its own, fails and
    forgets its id, so that its answer is the wrong line of the next call. Every call
    after it fails, whatever it asks and however well the server answers. *)
Theorem stray_line_desyncs fuel n qs s :
  lags s → (length (unanswered s) ≤ n)%nat → Forall (small n) qs → (2 * n < fuel)%nat →
  ∃ s' rs, run_queries fuel qs s = Some (Ret (s', rs)) ∧ length rs = length qs ∧ Forall (λ r, failed r = true) rs ∧ lags s'.
Proof.
  intros Hs Hlen Hq Hf. revert s Hs Hlen. induction Hq as [|q qs Hn _ IH]; intros s Hs Hlen; [by exists s, []|].
  assert (∃ s' r, run_query fuel q s = Some (Ret (s', r)) ∧ failed r = true ∧ lags s' ∧ (length (unanswered s') ≤ n)%nat)
    as (s1 & r & E & Hr & Hs1 & Hl1).
  { destruct q as [txid|spk]; unfold run_query.
    - destruct (get_tx_lags fuel n txid s) as (s1 & e & -> & ? & ?); [done..|]. by exists s1, (ReplyTx (Err e)).
    - destruct (get_coins_tx_at_lags fuel n spk s) as (s1 & e & -> & ? & ?); [done..|]. by exists s1, (ReplyHistory (Err e)). }
  destruct (IH s1 Hs1 Hl1) as (s2 & rs & E2 & Hl2 & Hrs & Hs2). exists s2, (r :: rs). cbn. rewrite E, E2. cbn.
  split; [done|]. split; [by f_equal|]. split; [by constructor|done].
Qed.

(** *** A broadcast *)

Context `{TxLib}.

(** What the server says of the transaction it is sent. *)
Definition broadcast_request (tx : Transaction) : Request := tx_broadcast (tx_serialize_hex tx).
Definition verdict_in (tx : Transaction) (raw : list N) (r : result Txid Error) : Prop :=
  plain raw 0 ∧ (∃ txid, json_tx_broadcast raw = Some (0, txid)) ∧ r = Ok (compute_txid tx) ∨
  json_array raw = None ∧ ∃ e, json_error raw = Some (0, e) ∧ r = Err (Rejected (message e)).

Lemma broadcast_answer_foreign tx id r : response_id r ≠ Some id → broadcast_answer tx id r = None.
Proof.
  intros Hr. destruct r; try done; cbn in *; match goal with |- context [?a =? ?b] => destruct (N.eqb_spec a b) end; congruence.
Qed.

Lemma verdict_read tx raw r idx : verdict_in tx raw r →
  ∃ resp, parse_str_response raw (<[0 := broadcast_request tx]> idx) = Ret (Ok [resp]) ∧ broadcast_answer tx 0 resp = Some r.
Proof.
  intros [(Hpl & [txid E] & ->)|(E1 & e & E2 & ->)].
  - exists (TxBroadcast 0 txid). rewrite (parse_plain _ _ _ Hpl), lookup_insert_eq. cbn. by rewrite E.
  - exists (RError 0 e). by rewrite (parse_error _ _ _ _ E1 E2).
Qed.

Lemma await_broadcast_waits fuel lines tx deadline strays raw r idx s :
  index s = <[0 := broadcast_request tx]> idx →
  unanswered s = of_lines strays ++ raw ++ [newline] →
  Forall (λ line, newline ∉ line ∧ foreign (text_of line) (index s) 0) strays →
  newline ∉ raw → verdict_in tx (text_of raw) r →
  (length strays < fuel)%nat → (length (unanswered s) < lines)%nat →
  ∃ s' res, await_broadcast buffer_size fuel lines tx 0 deadline s = Some (Ret (s', res)) ∧
    index s' = delete 0 idx ∧ (res = r ∧ unanswered s' = [] ∨ deadline ≤ clock (stream (inner s'))).
Proof.
  revert fuel s. induction strays as [|line strays IH]; intros fuel s Hi Hp Hfor Hraw Hv Hf Hl; (destruct fuel as [|fuel]; [cbn in Hf; lia|]);
    cbn [await_broadcast].
  - destruct (recv_line lines s raw []) as (t & Ht & ->); [by rewrite Hp|done..|].
    destruct (verdict_read tx _ r idx Hv) as (resp & Er & Ea). rewrite Hi, Er. cbn [first_of]. rewrite Ea.
    eexists _, r. unfold conclude, forget, aput, abind, ares. cbn. split; [reflexivity|].
    cbn. split; [apply delete_insert_eq|]. by left.
  - inversion Hfor as [|? ? [Hn Hl1] Hfor']; subst.
    destruct (recv_line lines s line (of_lines strays ++ raw ++ [newline])) as (t & Ht & ->); [|done..|].
    { rewrite Hp. unfold of_lines. cbn. by rewrite <-!app_assoc. }
    set (s1 := mkClient t (index s) (last_id s)).
    assert (∃ s' res, await_broadcast buffer_size fuel lines tx 0 deadline s1 = Some (Ret (s', res)) ∧
      index s' = delete 0 idx ∧ (res = r ∧ unanswered s' = [] ∨ deadline ≤ clock (stream (inner s')))) as Hgo.
    { apply IH; [done|by unfold unanswered|done..|cbn in Hf; lia|].
      unfold unanswered in *. cbn [s1 inner]. rewrite Ht. rewrite Hp in Hl. unfold of_lines in *. cbn in Hl.
      rewrite <-!app_assoc, length_app in Hl. cbn in Hl. lia. }
    unfold foreign in Hl1. destruct parse_str_response as [[rs|e]|]; [| |done]; fold s1.
    + rewrite (first_of_foreign (broadcast_answer tx) 0 rs); [|intros; by apply broadcast_answer_foreign|done].
      destruct (N.leb_spec deadline (clock (stream (inner s1)))) as [Hd|Hd]; [|exact Hgo].
      eexists _, _. unfold conclude, forget, aput, abind, ares. split; [reflexivity|]. cbn.
      split; [by rewrite Hi, delete_insert_eq|]. by right.
    + destruct (N.ltb_spec (clock (stream (inner s1))) deadline) as [Hd|Hd]; [exact Hgo|].
      eexists _, _. unfold conclude, forget, aput, abind, ares. split; [reflexivity|]. cbn.
      split; [by rewrite Hi, delete_insert_eq|]. by right.
Qed.

(** [broadcast_tx] returns the server's verdict on its transaction, accepted or rejected
    with the message, whatever lines of other matters are read before it, and leaves
    nothing unread; or its ten seconds are over. *)
Theorem broadcast_waits_for_verdict fuel lines tx strays r s :
  let req := broadcast_request tx in
  is_Some (json_of req) → verdict_in tx (text_of (answer req)) r →
  unanswered s = of_lines strays →
  Forall (λ line, newline ∉ line ∧ foreign (text_of line) (<[0 := req]> (index s)) 0) strays →
  (length strays < fuel)%nat → (length (unanswered s ++ answer req ++ [newline]) < lines)%nat →
  ∃ sent s' res, try_send req s = Some (Ret (sent, Ok tt)) ∧
    broadcast_tx buffer_size fuel lines tx s = Some (Ret (s', res)) ∧ index s' = delete 0 (index s) ∧
    (res = r ∧ unanswered s' = [] ∨ clock (stream (inner sent)) + 10000 ≤ clock (stream (inner s'))).
Proof.
  intros req Hj Hv Hs Hfor Hf Hl. destruct (try_send_answered s req Hj) as (t & Et & Ep).
  destruct (await_broadcast_waits fuel lines tx (clock (stream t) + 10000) strays (answer req) r (index s)
    (mkClient t (<[0 := req]> (index s)) (last_id s))) as (s' & res & E & Hi & Hr); unfold unanswered; cbn [index inner].
  - done.
  - by rewrite Ep, Hs.
  - done.
  - apply answer_is_line.
  - done.
  - done.
  - by rewrite Ep.
  - exists (mkClient t (index s) (last_id s)), s', res. split; [exact Et|]. split; [|done].
    unfold broadcast_tx. fold (broadcast_request tx). fold req. unfold abind at 1. rewrite Et. exact E.
Qed.

(** The coins of a script, when the server has all the transactions it lists. *)
Lemma get_coins_at_answered fuel spk (txs : list Transaction) s :
  unanswered s = [] → enough fuel (QHistory spk) → Forall (λ h, enough fuel (QTx (hr_txid h))) (history spk) →
  Forall2 (λ h tx, chain (hr_txid h) = Some tx) (history spk) txs →
  let got := zip (hr_txid <$> history spk) txs in
  ∃ s', get_coins_at buffer_size fuel spk s =
      Some (Ret (s', Ok (concat ((λ p, paid_to spk p.1 (output p.2)) <$> got), foldl (λ m p, <[p.1 := p.2]> m) ∅ got))) ∧
    unanswered s' = [].
Proof.
  intros Hs Hh Hf Hc. unfold get_coins_at, abind.
  destruct (get_coins_tx_at_answered fuel spk s Hs Hh) as (s1 & -> & Hs1). cbn [history_reply].
  change (concat _) with ([] ++ concat ((λ p, paid_to spk p.1 (output p.2)) <$> zip (hr_txid <$> history spk) txs)).
  generalize (∅ : gmap Txid Transaction) as m. generalize ([] : list (TxOut * OutPoint)) as acc. clear Hs Hh. revert s1 Hs1.
  induction Hc as [|h tx hs txs Hh Hc IH]; intros s1 Hs1 acc m; cbn [fmap list_fmap zip zip_with concat foldl get_coins_of].
  { rewrite app_nil_r. by exists s1. }
  inversion Hf as [|? ? Hh' Hf']; subst. unfold abind at 1.
  destruct (get_tx_answered fuel (hr_txid h) s1 Hs1 Hh') as (s2 & -> & Hs2). unfold tx_reply. rewrite Hh. cbn [fst snd].
  destruct (IH Hf' s2 Hs2 (acc ++ paid_to spk (hr_txid h) (output tx)) (<[hr_txid h := tx]> m)) as (s3 & E & Hs3).
  exists s3. by rewrite E, <-app_assoc.
Qed.
End calls.

(** A server that knows two transactions and one history, and answers in a text of its own.
    Its socket gives three bytes at a time. *)
Module Witness.
#[local] Existing Instance Bitcoin.Sample.sample_lib.

Definition funding : Transaction := mkTransaction 2 0 [] [mkTxOut 5000 [1]; mkTxOut 700 [2]].
Definition spending : Transaction := mkTransaction 2 0 [mkTxIn (mkOutPoint 1 0) [] 0 []] [mkTxOut 4000 [3]].
Definition known (txid : Txid) : option Transaction :=
  if txid =? 1 then Some funding else if txid =? 2 then Some spending else None.
Definition histories (spk : script) : list HistoryResult :=
  if bool_decide (spk = [1]) then [mkHistory 10 1 None; mkHistory 11 2 None]
  else if bool_decide (spk = [2]) then [mkHistory 10 1 None]
  else if bool_decide (spk = [3]) then [mkHistory 11 2 None] else [].

Definition refused : ErrorResult := mkErrorResult 2 "unknown".
Definition hex_of (n : N) : string := if n =? 1 then "funding" else "spending".
Definition histories_of (n : N) : list HistoryResult :=
  if n =? 1 then histories [1] else if n =? 2 then histories [2] else if n =? 3 then histories [3] else [].
(** A number in zeros and ones, the last digit first. *)
Fixpoint digits (p : positive) : list N :=
  match p with
  | xH => [49]
  | xO p => 48 :: digits p
  | xI p => 49 :: digits p
  end.
Definition id_text (n : N) : list N := match n with N0 => [] | Npos p => digits p end.
Fixpoint id_in (l : list N) : N :=
  match l with
  | d :: l => if d =? 48 then N.double (id_in l) else if d =? 49 then N.succ_double (id_in l) else 0
  | [] => 0
  end.
(** A line is the kind of its answer, what it says and its id. *)
Definition of_kind {A} (k : N) (f : N → N → A) (raw : list N) : option A :=
  match raw with
  | kind :: said :: id => if kind =? k then Some (f (id_in id) (said - 11)) else None
  | _ => None
  end.

#[export] Instance wire : WireLib := {|
  ScriptHash := list N;
  script_hash := λ s, s;
  json_array := λ _, None;
  json_error := of_kind 12 (λ id _, (id, refused));
  json_header_notif := λ _, None;
  json_sh_notif := λ _, None;
  json_id := λ raw, match raw with _ :: _ :: id => Some (id_in id) | _ => None end;
  json_ping := λ _, None;
  json_banner := λ _, None;
  json_headers_subscribe := λ _, None;
  json_header := λ _, None;
  json_headers := λ _, None;
  json_version := λ _, None;
  json_tx_get := of_kind 13 (λ id n, (id, Raw (hex_of n)));
  json_sh_subscribe := λ _, None;
  json_sh_unsubscribe := λ _, None;
  json_sh_get_balance := λ _, None;
  json_sh_get_history := of_kind 14 (λ id n, (id, histories_of n));
  json_sh_list_unspent := λ _, None;
  json_features := λ _, None;
  json_donation := λ _, None;
  json_estimate_fee := λ _, None;
  json_fee_histogram := λ _, None;
  json_relay_fee := λ _, None;
  json_tx_get_merkle := λ _, None;
  json_tx_from_position := λ _, None;
  json_tx_broadcast := of_kind 15 (λ id n, (id, n));
  tx_serialize_hex := λ tx, if bool_decide (tx = funding) then "funding" else "spending";
  tx_of_hex := λ hex, if bool_decide (hex = "funding"%string) then Some (Some funding)
                      else if bool_decide (hex = "spending"%string) then Some (Some spending) else None
|}.

(** The server reads a request when its line ends. *)
Record world := mkWorld { to_read : list N; written : list N; blocking : bool; time : N }.
Definition script_number (spk : script) : N := match spk with [n] => if n <=? 3 then n else 0 | _ => 0 end.
Definition json (r : Request) : option (list N) :=
  match params r with
  | PTransactionGet (ATxid txid) => Some [1; req_id r; txid]
  | PScriptHashGetHistory sh => Some [2; req_id r; script_number sh]
  | PTransactionBroadcast _ => Some [3; req_id r; 0]
  | _ => None
  end.
(** A batch of history requests, answered from the last to the first, a line each. *)
Definition json_in_batch (r : Request) : option (list N) :=
  match params r with PScriptHashGetHistory sh => Some [req_id r; script_number sh] | _ => None end.
Definition json_batch (l : list Request) : option (list N) := (λ js, 4 :: concat js) <$> mapM json_in_batch l.
Fixpoint histories_asked (l : list N) : list (list N) :=
  match l with
  | id :: n :: l => (14 :: n + 11 :: id_text id) :: histories_asked l
  | _ => []
  end.
Definition respond (request : list N) : list N :=
  match request with
  | [k; id; n] =>
      if k =? 1 then if (n =? 1) || (n =? 2) then 13 :: n + 11 :: id_text id else 12 :: 11 :: id_text id
      else if k =? 2 then 14 :: n + 11 :: id_text id else 15 :: 20 :: id_text id
  | _ => []
  end.
Definition replies (request : list N) : list (list N) :=
  match request with
  | 4 :: l => reverse (histories_asked l)
  | _ => [respond request]
  end.

#[export] Instance socket : Socket world := {|
  sk_read _ w :=
    match take 3 (to_read w) with
    | [] => if blocking w then None else Some (mkWorld [] (written w) (blocking w) (time w + 1), RWouldBlock)
    | chunk => Some (mkWorld (drop 3 (to_read w)) (written w) (blocking w) (time w + 1), RData chunk)
    end;
  sk_write bytes w :=
    if bool_decide (bytes = [newline])
    then (mkWorld (to_read w ++ of_lines (replies (written w))) [] (blocking w) (time w), true)
    else (mkWorld (to_read w) bytes (blocking w) (time w), true);
  sk_nonblocking b w := (mkWorld (to_read w) (written w) (negb b) (time w), true)
|}.
#[export, refine] Instance stream_bytes : ByteStream (W:=world) 4096 := {|
  unread := to_read;
  waits := blocking
|}.
Proof.
  - intros b w. by eexists.
  - intros w Hw. left. unfold sk_read, socket. destruct (to_read w) as [|x l] eqn:E; [done|]. cbn [take].
    eexists _, _. split; [reflexivity|]. split; [done|]. cbn [to_read blocking].
    split; [|done]. rewrite <-(take_drop 3 (x :: l)) at 1. done.
  - intros w Hu Hw. unfold sk_read, socket. rewrite Hu, Hw. cbn. by eexists.
Defined.
#[export] Instance client_lib : ClientLib world := {| json_of := json; json_of_batch := json_batch; clock := time |}.

(** Bytes of a text of one line. *)
Definition is_text (l : list N) : Prop := Forall (λ b, 10 < b < 128) l.
Lemma text_line l : is_text l → newline ∉ l.
Proof. intros Hl Hn. eapply Forall_forall in Hl; [|exact Hn]. unfold newline in Hl. lia. Qed.
Lemma text_lossy l : is_text l → text_of l = l ++ [newline].
Proof. intros Hl. apply text_of_ascii. eapply Forall_impl; [exact Hl|]. cbn. lia. Qed.
Lemma id_in_text n : id_in (id_text n ++ [newline]) = n.
Proof. destruct n as [|p]; [done|]. cbn [id_text]. induction p as [p IH|p IH|]; cbn; [by rewrite IH..|done]. Qed.
Lemma id_is_text n : is_text (id_text n).
Proof. destruct n as [|p]; [constructor|]. unfold is_text. induction p as [p IH|p IH|]; constructor; (lia || done). Qed.
Lemma id_length n : n < 2 ^ 64 → (length (id_text n) ≤ 64)%nat.
Proof.
  assert (∀ k p, N.pos p < 2 ^ N.of_nat k → (length (digits p) ≤ k)%nat) as Hgo.
  { intros k. induction k as [|k IH]; intros p Hp; [cbn in Hp; lia|].
    rewrite Nat2N.inj_succ, N.pow_succ_r' in Hp. destruct p as [p|p|]; cbn; [|..|lia]; apply le_n_S, IH; lia. }
  intros Hn. destruct n as [|p]; [cbn; lia|]. by apply (Hgo 64%nat).
Qed.
Lemma json_three r j : json r = Some j → ∃ k id n, j = [k; id; n].
Proof. unfold json. intros Hj. repeat case_match; simplify_eq; eauto. Qed.
Lemma respond_is_text r j : json r = Some j → is_text (respond j).
Proof.
  unfold json. intros Hj. assert (∀ id n, is_text (respond [1; id; n])) as H1.
  { intros id n. cbn. destruct (N.eqb_spec n 1) as [->|]; [|destruct (N.eqb_spec n 2) as [->|]]; cbn;
      (repeat (apply Forall_cons_2; [lia|])); apply id_is_text. }
  assert (∀ id spk, is_text (respond [2; id; script_number spk])) as H2.
  { intros id spk. cbn. assert (script_number spk ≤ 3).
    { unfold script_number. destruct spk as [|n []]; [lia| |lia]. destruct (N.leb_spec n 3); lia. }
    (repeat (apply Forall_cons_2; [lia|])); apply id_is_text. }
  assert (∀ id n, is_text (respond [3; id; n])) as H3.
  { intros id n. cbn. (repeat (apply Forall_cons_2; [lia|])); apply id_is_text. }
  repeat case_match; simplify_eq; first [apply H1|apply H2|apply H3].
Qed.

Lemma histories_of_script spk : histories_of (script_number spk) = histories spk.
Proof.
  unfold script_number, histories. destruct spk as [|n []]; [done| |by rewrite !bool_decide_eq_false_2].
  destruct (N.leb_spec n 3) as [Hn|Hn].
  - assert (n = 0 ∨ n = 1 ∨ n = 2 ∨ n = 3) as Hc by lia. by destruct Hc as [->|[->|[->| ->]]].
  - rewrite !bool_decide_eq_false_2; [done|intros ?; simplify_eq; lia..].
Qed.

Definition reply_line (r : Request) : list N := match json r with Some j => respond j | None => [] end.
Lemma reply_is_text r : is_text (reply_line r).
Proof. unfold reply_line. destruct (json r) as [j|] eqn:Hj; [by apply (respond_is_text r)|constructor]. Qed.
#[export, refine] Instance server : Server (W:=world) (buffer_size:=4096) := {|
  chain := known;
  history := histories;
  answer := reply_line
|}.
Proof.
  - intros r. apply text_line, reply_is_text.
  - intros r j w Hj. unfold json_of, client_lib in Hj. unfold reply_line. rewrite Hj. unfold sk_write, socket.
    rewrite bool_decide_eq_false_2; [|by intros ->; unfold json in Hj; repeat case_match].
    eexists _, _. split; [reflexivity|]. rewrite bool_decide_eq_true_2 by done. split; [reflexivity|]. cbn.
    assert (replies j = [respond j]) as -> by (unfold json in Hj; repeat case_match; by simplify_eq).
    unfold of_lines. cbn. by rewrite app_nil_r.
  - intros id txid r raw. unfold raw. rewrite text_lossy by apply reply_is_text. clear raw. split; [by eexists|]. unfold known, reply_line. cbn.
    destruct (N.eqb_spec txid 1) as [->|H1]; [|destruct (N.eqb_spec txid 2) as [->|H2]]; cbn.
    + unfold plain. cbn. rewrite id_in_text. split; [done|]. by exists "funding"%string.
    + unfold plain. cbn. rewrite id_in_text. split; [done|]. by exists "spending"%string.
    + rewrite id_in_text. split; [done|]. by eexists.
  - intros id spk r raw. unfold raw. rewrite text_lossy by apply reply_is_text. clear raw. split; [by eexists|]. unfold reply_line, plain. cbn.
    by rewrite id_in_text, !N.add_sub, histories_of_script.
Defined.

Definition connected : Client _ world := mkClient (mkTcp (mkWorld [] [] true 0) []) ∅ 0.
Definition with_line (l : list N) : Client _ world := mkClient (mkTcp (mkWorld (l ++ [newline]) [] true 0) []) ∅ 0.
Definition questions : list Query := [QTx 1; QHistory [1]; QTx 7; QHistory [9]].

Lemma small_here q : small 68 q.
Proof.
  intros id Hid. assert (length (id_text id) ≤ 64)%nat by by apply id_length.
  unfold answer, server, reply_line. destruct q as [txid|spk]; cbn; [case_match|]; cbn; lia.
Qed.
Lemma enough_here q : enough 70 q.
Proof. intros id Hid. pose proof (small_here q id Hid). lia. Qed.

Lemma calls_answered_witness :
  run_queries (buffer_size:=4096) 70 questions connected =
    Some (Ret (mkClient (mkTcp (mkWorld [] [] true 8) []) ∅ 4,
      [ReplyTx (Ok funding); ReplyHistory (Ok [1; 2]); ReplyTx (Err TxDoesNotExists); ReplyHistory (Ok [])])) ∧
  ∃ s', run_queries (buffer_size:=4096) 70 questions connected = Some (Ret (s', reply_of <$> questions)) ∧ unanswered s' = [].
Proof.
  split; [vm_compute; reflexivity|]. apply (calls_answered 70 questions connected).
  - reflexivity.
  - apply Forall_true. apply enough_here.
Defined.

Lemma lags_here : lags (with_line []).
Proof. exists []. split; [reflexivity|]. split; [apply not_elem_of_nil|]. intros r. by apply foreign_empty_line. Qed.

Lemma stray_line_desyncs_witness : ∃ s' rs,
  run_queries (buffer_size:=4096) 140 questions (with_line []) = Some (Ret (s', rs)) ∧ length rs = length questions ∧
  Forall (λ r, failed r = true) rs ∧ lags s'.
Proof.
  apply (stray_line_desyncs 140 68 questions (with_line [])).
  - apply lags_here.
  - cbn. lia.
  - apply Forall_true. apply small_here.
  - lia.
Defined.

Definition stream_lines : list (list N) := [[65; 66]; []; [67]].
Lemma lines_reassembled_witness : ∃ s' k,
  read_lines (buffer_size:=4096) 9 [true; false; true] (mkTcp (mkWorld ([66; 10; 10; 67] ++ [10; 68]) [] true 0) [65]) =
    Some (Ret (s', Ok (text_of <$> take k stream_lines))) ∧
  pending s' = of_lines (drop k stream_lines) ++ [68] ∧ (2 ≤ k ≤ 3)%nat.
Proof.
  apply (lines_reassembled 9 (mkTcp (mkWorld ([66; 10; 10; 67] ++ [10; 68]) [] true 0) [65]) [true; false; true] stream_lines [68]).
  - reflexivity.
  - repeat constructor; apply (bool_decide_eq_true_1 _); reflexivity.
  - cbn. lia.
  - cbn. lia.
Defined.

Lemma broadcast_waits_for_verdict_witness : ∃ sent s' res,
  try_send (broadcast_request spending) (with_line []) = Some (Ret (sent, Ok tt)) ∧
  broadcast_tx 4096 2 10 spending (with_line []) = Some (Ret (s', res)) ∧ index s' = delete 0 ∅ ∧
  (res = Ok (compute_txid spending) ∧ unanswered s' = [] ∨ clock (stream (inner sent)) + 10000 ≤ clock (stream (inner s'))).
Proof.
  apply (broadcast_waits_for_verdict 2 10 spending [[]] (Ok (compute_txid spending)) (with_line [])).
  - by eexists.
  - left. split; [vm_compute; done|]. split; [by eexists|done].
  - reflexivity.
  - constructor; [|constructor]. split; [apply not_elem_of_nil|]. by apply foreign_empty_line.
  - cbn. lia.
  - cbn. lia.
Defined.
End Witness.
End ElectrumClient.
