(* ===== verification/Validation.v ===== *)
(** * The check of a PSBT before it is signed (electrum/src/validation.rs)

    [Client::validate_psbt] asks a server which outputs have been used before and which
    inputs are spent already. The calls it makes are the class [ChainClient]: the laws of
    an honest chain ([HonestClient]) and of a client that answers nothing ([LostClient])
    are both discharged by [ElectrumClient]. *)
From Stdlib Require Import Lia.
From stdpp Require Import base countable strings gmap list.
From S2P Require Import Prelude Bitcoin ElectrumClient.

Module Validation.
Import ElectrumClient.
#[local] Notation "'let*' x := c 'in' k" := (abind c (λ x, k)) (at level 10, x pattern, c at level 100, k at level 200).

(** The two calls of a [Client] the check makes. *)
Class ChainClient (C : Type) := {
  call_tx : Txid → act C Error Transaction;                (* Client::get_tx *)
  call_history : script → act C Error (list Txid)          (* Client::get_coins_tx_at *)
}.

Record ReusedOutput := mkReused { ro_index : nat; ro_script_pubkey : script }.
Record SpentInput := mkSpent { si_index : nat; outpoint : OutPoint; spending_txid : Txid }.

(** The warnings, as what they say. *)
Inductive Resolve := MissingVout | FetchPrev (txid : Txid) (e : Error) | PrevMissingVout (txid : Txid).
Inductive Warning :=
  | WOutput (idx : nat) (e : Error)
  | WResolve (idx : nat) (why : Resolve)
  | WInput (idx : nat) (e : Error)
  | WInputTx (idx : nat) (txid : Txid) (e : Error).

Record PsbtValidationReport := mkReport {
  reused_outputs : list ReusedOutput;
  spent_inputs : list SpentInput;
  warnings : list Warning
}.
Definition report_default : PsbtValidationReport := mkReport [] [] [].
Definition push_reused (r : PsbtValidationReport) (o : ReusedOutput) := mkReport (reused_outputs r ++ [o]) (spent_inputs r) (warnings r).
Definition push_spent (r : PsbtValidationReport) (i : SpentInput) := mkReport (reused_outputs r) (spent_inputs r ++ [i]) (warnings r).
Definition push_warning (r : PsbtValidationReport) (w : Warning) := mkReport (reused_outputs r) (spent_inputs r) (warnings r ++ [w]).
Definition is_clean (r : PsbtValidationReport) : bool :=
  match reused_outputs r, spent_inputs r with [], [] => true | _, _ => false end.

Section validation.
Context `{TxLib} {C : Type} `{ChainClient C}.
(** [Script::is_op_return], and a field of [psbt::Input] the rest of the kit never names. *)
Context (is_op_return : script → bool) (non_witness_utxo : PsbtInput → option Transaction).

(** A call whose error is looked at. *)
Definition attempt {A} (c : act C Error A) : act C Empty_set (result A Error) := λ s,
  match c s with
  | Some (Ret (s, r)) => Some (Ret (s, Ok r))
  | Some Panic => Some Panic
  | None => None
  end.

Abbreviation Cache := (gmap Txid Transaction).
Definition fetch_or_cache_tx (cache : Cache) (txid : Txid) : act C Empty_set (Cache * result Transaction Error) :=
  match cache !! txid with
  | Some tx => aret (cache, Ok tx)
  | None =>
      let* r := attempt (call_tx txid) in
      aret (match r with Ok tx => (<[txid := tx]> cache, Ok tx) | Err e => (cache, Err e) end)
  end.

Definition script_at (outs : list TxOut) (vout : N) : option script := script_pubkey <$> outs !! N.to_nat vout.
Definition resolve_input_spk (cache : Cache) (psbt : Psbt) (idx : nat) (o : OutPoint) :
    act C Empty_set (Cache * result script Resolve) :=
  match psbt_inputs psbt !! idx with
  | None => λ _, Some Panic
  | Some psbt_input =>
      match witness_utxo psbt_input with
      | Some u => aret (cache, Ok (script_pubkey u))
      | None =>
          match non_witness_utxo psbt_input with
          | Some tx => aret (cache, ok_or (script_at (output tx) (op_vout o)) MissingVout)
          | None =>
              let* (cache, r) := fetch_or_cache_tx cache (op_txid o) in
              aret (cache, match r with
                           | Ok tx => ok_or (script_at (output tx) (op_vout o)) (PrevMissingVout (op_txid o))
                           | Err e => Err (FetchPrev (op_txid o) e)
                           end)
          end
      end
  end.

Fixpoint check_outputs (idx : nat) (outs : list TxOut) (r : PsbtValidationReport) : act C Empty_set PsbtValidationReport :=
  match outs with
  | [] => aret r
  | o :: outs =>
      if is_op_return (script_pubkey o) then check_outputs (S idx) outs r
      else
        let* a := attempt (call_history (script_pubkey o)) in
        check_outputs (S idx) outs
          (match a with
           | Ok [] => r
           | Ok _ => push_reused r (mkReused idx (script_pubkey o))
           | Err e => push_warning r (WOutput idx e)
           end)
  end.

Definition spends (tx : Transaction) (o : OutPoint) : bool := existsb (λ i, bool_decide (previous_output i = o)) (input tx).
(** The transactions of an input's history, until one that spends it. *)
Fixpoint check_spent (idx : nat) (o : OutPoint) (txids : list Txid) (cache : Cache) (r : PsbtValidationReport) :
    act C Empty_set (Cache * PsbtValidationReport) :=
  match txids with
  | [] => aret (cache, r)
  | txid :: txids =>
      if txid =? op_txid o then check_spent idx o txids cache r
      else
        let* (cache, a) := fetch_or_cache_tx cache txid in
        match a with
        | Err e => check_spent idx o txids cache (push_warning r (WInputTx idx txid e))
        | Ok tx => if spends tx o then aret (cache, push_spent r (mkSpent idx o txid)) else check_spent idx o txids cache r
        end
  end.

Fixpoint check_inputs (psbt : Psbt) (idx : nat) (ins : list TxIn) (cache : Cache) (r : PsbtValidationReport) :
    act C Empty_set PsbtValidationReport :=
  match ins with
  | [] => aret r
  | i :: ins =>
      let o := previous_output i in
      let* (cache, a) := resolve_input_spk cache psbt idx o in
      match a with
      | Err why => check_inputs psbt (S idx) ins cache (push_warning r (WResolve idx why))
      | Ok spk =>
          let* h := attempt (call_history spk) in
          match h with
          | Err e => check_inputs psbt (S idx) ins cache (push_warning r (WInput idx e))
          | Ok txids =>
              let* (cache, r) := check_spent idx o txids cache r in
              check_inputs psbt (S idx) ins cache r
          end
      end
  end.

Definition validate_psbt (psbt : Psbt) : act C Empty_set PsbtValidationReport :=
  let* r := check_outputs 0 (output (unsigned_tx psbt)) report_default in
  check_inputs psbt 0 (input (unsigned_tx psbt)) ∅ r.
End validation.

(** ** An honest server *)

(** The transactions a server knows and the history of a script: those that pay it or spend
    an output that does. No transaction spends its own output. *)
Class Ledger := {
  on_chain : Txid → option Transaction;
  touching : script → list Txid;
  prevout_script (o : OutPoint) : option script := tx ← on_chain (op_txid o); script_at (output tx) (op_vout o);
  touches (spk : script) (tx : Transaction) : Prop :=
    (∃ o, o ∈ output tx ∧ script_pubkey o = spk) ∨ (∃ i, i ∈ input tx ∧ prevout_script (previous_output i) = Some spk);
  touching_law spk txid : txid ∈ touching spk ↔ ∃ tx, on_chain txid = Some tx ∧ touches spk tx;
  own_output_law txid tx i : on_chain txid = Some tx → i ∈ input tx → op_txid (previous_output i) ≠ txid
}.
Definition tx_reply_of `{Ledger} (txid : Txid) : result Transaction Error := ok_or (on_chain txid) TxDoesNotExists.
Class HonestClient (C : Type) `{ChainClient C, Ledger} := {
  synced : C → Prop;
  call_tx_law c txid : synced c → ∃ c', call_tx txid c = Some (Ret (c', tx_reply_of txid)) ∧ synced c';
  call_history_law c spk : synced c → ∃ c', call_history spk c = Some (Ret (c', Ok (touching spk))) ∧ synced c'
}.

Section honest.
Context `{TxLib} {C : Type} `{HonestClient C}.
Context (is_op_return : script → bool) (non_witness_utxo : PsbtInput → option Transaction).
Implicit Types (c : C) (r : PsbtValidationReport).

Definition cache_ok (cache : gmap Txid Transaction) : Prop := ∀ txid tx, cache !! txid = Some tx → on_chain txid = Some tx.

Lemma fetch_honest c cache txid : synced c → cache_ok cache →
  ∃ c' cache', fetch_or_cache_tx cache txid c = Some (Ret (c', Ok (cache', tx_reply_of txid))) ∧ synced c' ∧ cache_ok cache'.
Proof.
  intros Hc Hk. unfold fetch_or_cache_tx. destruct (cache !! txid) as [tx|] eqn:E.
  { exists c, cache. unfold tx_reply_of. by rewrite (Hk _ _ E). }
  unfold abind, attempt, aret. destruct (call_tx_law c txid Hc) as (c' & -> & Hc'). unfold tx_reply_of.
  destruct (on_chain txid) as [tx|] eqn:Et; cbn; eexists c', _; (split; [reflexivity|]); (split; [done|]); [|done].
  intros k t [[-> ->]|[_ Hkt]]%lookup_insert_Some; [done|by apply Hk].
Qed.

Fixpoint reused_from (idx : nat) (outs : list TxOut) : list ReusedOutput :=
  match outs with
  | [] => []
  | o :: outs =>
      (if is_op_return (script_pubkey o) || bool_decide (touching (script_pubkey o) = []) then [] else [mkReused idx (script_pubkey o)])
        ++ reused_from (S idx) outs
  end.

Lemma check_outputs_honest idx outs r c : synced c →
  ∃ c', check_outputs is_op_return idx outs r c =
      Some (Ret (c', Ok (mkReport (reused_outputs r ++ reused_from idx outs) (spent_inputs r) (warnings r)))) ∧ synced c'.
Proof.
  revert idx r c. induction outs as [|o outs IH]; intros idx r c Hc; cbn [check_outputs reused_from].
  { exists c. rewrite app_nil_r. by destruct r. }
  destruct (is_op_return (script_pubkey o)); [by apply IH|]. unfold abind at 1, attempt. cbn [orb].
  destruct (call_history_law c (script_pubkey o) Hc) as (c1 & -> & Hc1).
  destruct (touching (script_pubkey o)) as [|h hs].
  - rewrite bool_decide_eq_true_2 by done. by apply IH.
  - rewrite bool_decide_eq_false_2 by done.
    destruct (IH (S idx) (push_reused r (mkReused idx (script_pubkey o))) c1 Hc1) as (c2 & -> & Hc2).
    exists c2. cbn. by rewrite <-app_assoc.
Qed.

Lemma elem_of_reused idx outs j spk :
  mkReused j spk ∈ reused_from idx outs ↔
  ∃ k o, outs !! k = Some o ∧ j = (idx + k)%nat ∧ script_pubkey o = spk ∧ is_op_return spk = false ∧ touching spk ≠ [].
Proof.
  revert idx. induction outs as [|o outs IH]; intros idx; cbn [reused_from].
  { split; [by intros ?%elem_of_nil|]. by intros (k & o & ? & _). }
  rewrite elem_of_app, IH. split.
  - intros [Ho|(k & o' & Hk & -> & Hr)]; [|exists (S k), o'; split; [done|]; split; [lia|done]].
    destruct (is_op_return (script_pubkey o)) eqn:Ei; [by apply elem_of_nil in Ho|]. cbn in Ho.
    case_bool_decide; [by apply elem_of_nil in Ho|]. apply list_elem_of_singleton in Ho as [= -> ->].
    exists O, o. split; [done|]. split; [lia|done].
  - intros ([|k] & o' & Hk & -> & <- & Hr & Ht).
    + injection Hk as ->. left. rewrite Hr. cbn. rewrite bool_decide_eq_false_2 by done.
      apply list_elem_of_singleton. f_equal. lia.
    + right. exists k, o'. split; [done|]. split; [lia|done].
Qed.

(** The first transaction of a history that spends an outpoint. *)
Fixpoint first_spender (o : OutPoint) (txids : list Txid) : option Txid :=
  match txids with
  | [] => None
  | txid :: txids =>
      if bool_decide (txid ≠ op_txid o) && from_option (λ tx, spends tx o) false (on_chain txid) then Some txid
      else first_spender o txids
  end.

Lemma spends_spec tx o : spends tx o = true ↔ ∃ i, i ∈ input tx ∧ previous_output i = o.
Proof.
  unfold spends. rewrite existsb_exists. split; intros (i & Hi & E).
  - exists i. split; [by apply list_elem_of_In|by apply bool_decide_eq_true_1 in E].
  - exists i. split; [by apply list_elem_of_In|by rewrite bool_decide_eq_true_2].
Qed.

Lemma first_spender_sound o txids txid :
  first_spender o txids = Some txid → ∃ tx, txid ∈ txids ∧ on_chain txid = Some tx ∧ spends tx o = true.
Proof.
  induction txids as [|t txids IH]; [done|]. cbn. destruct (bool_decide _ && _) eqn:E.
  - intros [= ->]. apply andb_prop in E as [_ E]. destruct (on_chain txid) as [tx|]; [|done]. exists tx. split; [by left|done].
  - intros (tx & Hin & Htx)%IH. exists tx. split; [by right|done].
Qed.

Lemma first_spender_complete o txids txid tx :
  txid ∈ txids → on_chain txid = Some tx → spends tx o = true → is_Some (first_spender o txids).
Proof.
  intros Hin Ht Hs. induction txids as [|t txids IH]; [by apply elem_of_nil in Hin|]. cbn.
  destruct (bool_decide _ && _) eqn:E; [by eexists|]. apply elem_of_cons in Hin as [<-|Hin]; [|by apply IH].
  rewrite Ht in E. cbn in E. rewrite Hs, andb_true_r in E. apply bool_decide_eq_false_1 in E.
  exfalso. apply E. intros ->. apply spends_spec in Hs as (i & Hi & <-). by apply (own_output_law _ _ i Ht).
Qed.

Lemma check_spent_honest idx o txids cache r c :
  synced c → cache_ok cache → Forall (λ txid, is_Some (on_chain txid)) txids →
  ∃ c' cache', check_spent idx o txids cache r c =
      Some (Ret (c', Ok (cache', mkReport (reused_outputs r)
        (spent_inputs r ++ option_list (mkSpent idx o <$> first_spender o txids)) (warnings r)))) ∧
    synced c' ∧ cache_ok cache'.
Proof.
  intros Hc Hk Ht. revert cache c Hc Hk. induction Ht as [|txid txids [tx Hx] _ IH]; intros cache c Hc Hk; cbn [check_spent first_spender].
  { exists c, cache. cbn. rewrite app_nil_r. by destruct r. }
  destruct (N.eqb_spec txid (op_txid o)) as [->|Hne].
  { rewrite bool_decide_eq_false_2 by (intros Hn; by apply Hn). by apply IH. }
  rewrite bool_decide_eq_true_2 by done. rewrite Hx. cbn [andb from_option]. unfold abind at 1.
  destruct (fetch_honest c cache txid Hc Hk) as (c1 & cache1 & -> & Hc1 & Hk1). unfold tx_reply_of. rewrite Hx. cbn [ok_or].
  destruct (spends tx o); [|by apply IH]. by exists c1, cache1.
Qed.

(** The script an input is said to spend: what the PSBT says of it or, when it says
    nothing, the output on the chain. *)
Definition resolved (pi : PsbtInput) (o : OutPoint) : result script Resolve :=
  match witness_utxo pi, non_witness_utxo pi with
  | Some u, _ => Ok (script_pubkey u)
  | None, Some tx => ok_or (script_at (output tx) (op_vout o)) MissingVout
  | None, None =>
      match on_chain (op_txid o) with
      | Some tx => ok_or (script_at (output tx) (op_vout o)) (PrevMissingVout (op_txid o))
      | None => Err (FetchPrev (op_txid o) TxDoesNotExists)
      end
  end.
(** It is the script of the output the input spends. *)
Definition described (pi : PsbtInput) (o : OutPoint) : Prop :=
  ∃ spk, resolved pi o = Ok spk ∧ prevout_script o = Some spk.
(** The PSBT's input [idx] spends [o] and is described by [pi]. *)
Definition input_at (psbt : Psbt) (idx : nat) (o : OutPoint) (pi : PsbtInput) : Prop :=
  (∃ i, input (unsigned_tx psbt) !! idx = Some i ∧ previous_output i = o) ∧ psbt_inputs psbt !! idx = Some pi.

Lemma resolve_honest psbt cache idx o pi c : synced c → cache_ok cache → psbt_inputs psbt !! idx = Some pi →
  ∃ c' cache', resolve_input_spk non_witness_utxo cache psbt idx o c = Some (Ret (c', Ok (cache', resolved pi o))) ∧
    synced c' ∧ cache_ok cache'.
Proof.
  intros Hc Hk Hp. unfold resolve_input_spk, resolved. rewrite Hp.
  destruct (witness_utxo pi) as [u|]; [by exists c, cache|].
  destruct (non_witness_utxo pi) as [tx|]; [by exists c, cache|].
  unfold abind. destruct (fetch_honest c cache (op_txid o) Hc Hk) as (c1 & cache1 & -> & Hc1 & Hk1).
  exists c1, cache1. unfold tx_reply_of. by destruct (on_chain _).
Qed.

(** What is pushed for one input. *)
Definition spent_at (idx : nat) (o : OutPoint) (pi : PsbtInput) : list SpentInput :=
  match resolved pi o with
  | Ok spk => option_list (mkSpent idx o <$> first_spender o (touching spk))
  | Err _ => []
  end.
Definition warned_at (idx : nat) (o : OutPoint) (pi : PsbtInput) : list Warning :=
  match resolved pi o with Ok _ => [] | Err why => [WResolve idx why] end.
Fixpoint for_each {A} (f : nat → OutPoint → PsbtInput → list A) (idx : nat) (l : list (OutPoint * PsbtInput)) : list A :=
  match l with
  | [] => []
  | (o, pi) :: l => f idx o pi ++ for_each f (S idx) l
  end.
Lemma elem_of_for_each {A} (f : nat → OutPoint → PsbtInput → list A) idx l x :
  x ∈ for_each f idx l ↔ ∃ k o pi, l !! k = Some (o, pi) ∧ x ∈ f (idx + k)%nat o pi.
Proof.
  revert idx. induction l as [|[o pi] l IH]; intros idx; cbn [for_each].
  { split; [by intros ?%elem_of_nil|]. by intros (k & o & pi & ? & _). }
  rewrite elem_of_app, IH. split.
  - intros [Hx|(k & o' & pi' & Hk & Hx)]; [exists O, o, pi; by rewrite Nat.add_0_r|].
    exists (S k), o', pi'. by rewrite Nat.add_succ_r.
  - intros ([|k] & o' & pi' & Hk & Hx); [injection Hk as <- <-; left; by rewrite Nat.add_0_r in Hx|].
    right. exists k, o', pi'. by rewrite Nat.add_succ_r in Hx.
Qed.

Lemma check_inputs_honest psbt idx ins pis cache r c :
  synced c → cache_ok cache → (∀ k, (k < length ins)%nat → psbt_inputs psbt !! (idx + k)%nat = pis !! k) → length pis = length ins →
  let l := zip (previous_output <$> ins) pis in
  ∃ c', check_inputs non_witness_utxo psbt idx ins cache r c =
      Some (Ret (c', Ok (mkReport (reused_outputs r) (spent_inputs r ++ for_each spent_at idx l) (warnings r ++ for_each warned_at idx l)))) ∧
    synced c'.
Proof.
  revert idx pis cache r c. induction ins as [|i ins IH]; intros idx pis cache r c Hc Hk Hp Hl; cbn [check_inputs].
  { exists c. cbn. rewrite !app_nil_r. by destruct r. }
  destruct pis as [|pi pis]; [done|]. injection Hl as Hl.
  assert (psbt_inputs psbt !! idx = Some pi) as Hpi by (rewrite <-(Nat.add_0_r idx); apply Hp; cbn; lia).
  assert (∀ k, (k < length ins)%nat → psbt_inputs psbt !! (S idx + k)%nat = pis !! k) as Hp'.
  { intros k Hk'. rewrite Nat.add_succ_l, <-Nat.add_succ_r. apply (Hp (S k)). cbn. lia. }
  destruct (resolve_honest psbt cache idx (previous_output i) pi c Hc Hk Hpi) as (c1 & cache1 & E1 & Hc1 & Hk1).
  cbn [fmap list_fmap zip zip_with for_each]. unfold spent_at at 1, warned_at at 1. unfold abind at 1. rewrite E1.
  destruct (resolved pi (previous_output i)) as [spk|why].
  - unfold abind at 1, attempt. destruct (call_history_law c1 spk Hc1) as (c2 & -> & Hc2). unfold abind at 1.
    destruct (check_spent_honest idx (previous_output i) (touching spk) cache1 r c2 Hc2 Hk1) as (c3 & cache3 & -> & Hc3 & Hk3).
    { apply Forall_forall. intros txid (tx & Ht & _)%touching_law. by exists tx. }
    destruct (IH (S idx) pis cache3 (mkReport (reused_outputs r)
      (spent_inputs r ++ option_list (mkSpent idx (previous_output i) <$> first_spender (previous_output i) (touching spk))) (warnings r))
      c3 Hc3 Hk3 Hp' Hl) as (c4 & E4 & Hc4).
    exists c4. split; [|done]. rewrite E4. cbn [reused_outputs spent_inputs warnings app]. by rewrite <-app_assoc.
  - destruct (IH (S idx) pis cache1 (push_warning r (WResolve idx why)) c1 Hc1 Hk1 Hp' Hl) as (c2 & E2 & Hc2).
    exists c2. split; [|done]. rewrite E2. cbn [push_warning reused_outputs spent_inputs warnings app]. by rewrite <-app_assoc.
Qed.

(** The inputs of a PSBT with the outpoints they spend. *)
Definition inputs_of (psbt : Psbt) : list (OutPoint * PsbtInput) :=
  zip (previous_output <$> input (unsigned_tx psbt)) (take (length (input (unsigned_tx psbt))) (psbt_inputs psbt)).
Lemma inputs_of_lookup psbt idx o pi : inputs_of psbt !! idx = Some (o, pi) ↔ input_at psbt idx o pi.
Proof.
  unfold inputs_of, input_at. rewrite lookup_zip_Some, list_lookup_fmap, fmap_Some. split.
  - intros ((i & Hi & ->) & Hp). rewrite lookup_take_Some in Hp. split; [by exists i|apply Hp].
  - intros ((i & Hi & <-) & Hp). split; [by exists i|]. rewrite lookup_take_Some. split; [done|]. by apply lookup_lt_Some in Hi.
Qed.

Lemma validate_honest psbt c : synced c → (length (input (unsigned_tx psbt)) ≤ length (psbt_inputs psbt))%nat →
  ∃ c', validate_psbt is_op_return non_witness_utxo psbt c =
    Some (Ret (c', Ok (mkReport (reused_from 0 (output (unsigned_tx psbt)))
      (for_each spent_at 0 (inputs_of psbt)) (for_each warned_at 0 (inputs_of psbt))))) ∧ synced c'.
Proof.
  intros Hc Hl. destruct (check_outputs_honest 0 (output (unsigned_tx psbt)) report_default c Hc) as (c1 & E1 & Hc1).
  destruct (check_inputs_honest psbt 0 (input (unsigned_tx psbt)) (take (length (input (unsigned_tx psbt))) (psbt_inputs psbt)) ∅
    (mkReport (reused_from 0 (output (unsigned_tx psbt))) [] []) c1 Hc1) as (c2 & E2 & Hc2).
  - by intros ?? ?%lookup_empty_Some.
  - intros k Hk. by rewrite lookup_take_lt.
  - rewrite length_take. lia.
  - exists c2. split; [|done]. unfold validate_psbt, abind. rewrite E1. exact E2.
Qed.

Lemma elem_of_spent psbt idx o txid :
  mkSpent idx o txid ∈ for_each spent_at 0 (inputs_of psbt) ↔
  ∃ pi spk, input_at psbt idx o pi ∧ resolved pi o = Ok spk ∧ first_spender o (touching spk) = Some txid.
Proof.
  rewrite elem_of_for_each. unfold spent_at. split.
  - intros (k & o' & pi & Hk%inputs_of_lookup & Hx). destruct (resolved pi o') as [spk|] eqn:E; [|by apply elem_of_nil in Hx].
    destruct (first_spender o' (touching spk)) as [t|] eqn:Ef; cbn in Hx; [|by apply elem_of_nil in Hx].
    apply list_elem_of_singleton in Hx as [= -> -> ->]. by exists pi, spk.
  - intros (pi & spk & Hi%inputs_of_lookup & E & Hf). exists idx, o, pi. split; [done|]. rewrite E, Hf. by left.
Qed.
Lemma elem_of_warned psbt w :
  w ∈ for_each warned_at 0 (inputs_of psbt) ↔ ∃ idx o pi why, input_at psbt idx o pi ∧ resolved pi o = Err why ∧ w = WResolve idx why.
Proof.
  rewrite elem_of_for_each. unfold warned_at. split.
  - intros (k & o & pi & Hk%inputs_of_lookup & Hx). destruct (resolved pi o) as [spk|why] eqn:E; [by apply elem_of_nil in Hx|].
    apply list_elem_of_singleton in Hx as ->. by exists k, o, pi, why.
  - intros (idx & o & pi & why & Hi%inputs_of_lookup & E & ->). exists idx, o, pi. split; [done|]. rewrite E. by left.
Qed.

(** C19. Asked of an honest server, with a description of each input in the PSBT, the check
    returns and its report is exact. It names the outputs whose script some transaction of
    the chain pays or spends, those that carry data only (OP_RETURN) aside, which are not
    asked about. It warns of the inputs whose script neither the PSBT nor the chain gives,
    and of nothing else. It names an input when, and only when, a transaction of the chain
    that pays or spends the script the input is said to spend spends its outpoint, and with
    one that does: so an input that is truly described is named whenever it is spent. *)
Theorem validation_exact psbt c :
  synced c → (length (input (unsigned_tx psbt)) ≤ length (psbt_inputs psbt))%nat →
  ∃ c' r, validate_psbt is_op_return non_witness_utxo psbt c = Some (Ret (c', Ok r)) ∧ synced c' ∧
    (∀ idx spk, mkReused idx spk ∈ reused_outputs r ↔
      ∃ o, output (unsigned_tx psbt) !! idx = Some o ∧ script_pubkey o = spk ∧ is_op_return spk = false ∧
        ∃ txid tx, on_chain txid = Some tx ∧ touches spk tx) ∧
    (∀ w, w ∈ warnings r ↔ ∃ idx o pi why, input_at psbt idx o pi ∧ resolved pi o = Err why ∧ w = WResolve idx why) ∧
    (∀ idx o txid, mkSpent idx o txid ∈ spent_inputs r →
      ∃ pi tx, input_at psbt idx o pi ∧ on_chain txid = Some tx ∧ spends tx o = true) ∧
    (∀ idx o, (∃ txid, mkSpent idx o txid ∈ spent_inputs r) ↔
      ∃ pi spk txid tx, input_at psbt idx o pi ∧ resolved pi o = Ok spk ∧
        on_chain txid = Some tx ∧ touches spk tx ∧ spends tx o = true) ∧
    (∀ idx o pi txid tx, input_at psbt idx o pi → described pi o → on_chain txid = Some tx → spends tx o = true →
      ∃ txid', mkSpent idx o txid' ∈ spent_inputs r).
Proof.
  intros Hc Hl. destruct (validate_honest psbt c Hc Hl) as (c' & E & Hc').
  assert (∀ idx o pi spk txid tx, input_at psbt idx o pi → resolved pi o = Ok spk → on_chain txid = Some tx → touches spk tx →
    spends tx o = true → ∃ txid', mkSpent idx o txid' ∈ for_each spent_at 0 (inputs_of psbt)) as Hnamed.
  { intros idx o pi spk txid tx Hi Hr Ht Htx Hs.
    destruct (first_spender_complete o (touching spk) txid tx) as [txid' Hf]; [apply touching_law; eauto|done..|].
    exists txid'. apply elem_of_spent. eauto. }
  eexists c', _. split; [exact E|]. split; [done|]. cbn [reused_outputs spent_inputs warnings]. split; [|split; [apply elem_of_warned|split; [|split]]].
  - intros idx spk. rewrite elem_of_reused. split.
    + intros (k & o & Hk & -> & Hs & Hr & Ht). exists o. do 3 (split; [done|]).
      destruct (touching spk) as [|txid l] eqn:El; [done|]. exists txid. apply touching_law. rewrite El. by left.
    + intros (o & Hk & Hs & Hr & txid & Hx). apply touching_law in Hx. exists idx, o. repeat split; try done.
      intros Hn. rewrite Hn in Hx. by apply elem_of_nil in Hx.
  - intros idx o txid (pi & spk & Hi & _ & Hf)%elem_of_spent. destruct (first_spender_sound _ _ _ Hf) as (tx & _ & Ht & Hs). eauto.
  - intros idx o. split; [|intros (pi & spk & txid & tx & Hi & Hr & Ht & Htx & Hs); eauto].
    intros (txid & (pi & spk & Hi & Hr & Hf)%elem_of_spent). destruct (first_spender_sound _ _ _ Hf) as (tx & Hin & Ht & Hs).
    apply touching_law in Hin as (tx' & Ht' & Htx). exists pi, spk, txid, tx. by simplify_eq.
  - intros idx o pi txid tx Hi (spk & Hr & Hp) Ht Hs. eapply Hnamed; [done..| |done]. right.
    apply spends_spec in Hs as (i & Hi' & E'). exists i. by rewrite E'.
Qed.
End honest.

(** ** A client that answers nothing *)

Class LostClient (C : Type) `{ChainClient C} := {
  lost : C → Prop;
  lost_tx_law c txid : lost c → ∃ c' e, call_tx txid c = Some (Ret (c', Err e)) ∧ lost c';
  lost_history_law c spk : lost c → ∃ c' e, call_history spk c = Some (Ret (c', Err e)) ∧ lost c'
}.

Section lost.
Context `{TxLib} {C : Type} `{LostClient C}.
Context (is_op_return : script → bool) (non_witness_utxo : PsbtInput → option Transaction).

Definition asked (outs : list TxOut) : list TxOut := filter (λ o, is_op_return (script_pubkey o) = false) outs.

Lemma check_outputs_lost idx outs r c : lost c →
  ∃ c' ws, check_outputs is_op_return idx outs r c = Some (Ret (c', Ok (mkReport (reused_outputs r) (spent_inputs r) (warnings r ++ ws)))) ∧
    length ws = length (asked outs) ∧ lost c'.
Proof.
  revert idx r c. induction outs as [|o outs IH]; intros idx r c Hc; cbn [check_outputs].
  { exists c, []. rewrite app_nil_r. by destruct r. }
  unfold asked. destruct (is_op_return (script_pubkey o)) eqn:Eo.
  { rewrite filter_cons_False by (rewrite Eo; done). by apply IH. }
  rewrite filter_cons_True by done. unfold abind at 1, attempt.
  destruct (lost_history_law c (script_pubkey o) Hc) as (c1 & e & -> & Hc1).
  destruct (IH (S idx) (push_warning r (WOutput idx e)) c1 Hc1) as (c2 & ws & -> & Hl & Hc2).
  exists c2, (WOutput idx e :: ws). cbn. rewrite <-app_assoc. split; [done|]. split; [by f_equal|done].
Qed.

Lemma resolve_lost psbt idx o c : lost c → (idx < length (psbt_inputs psbt))%nat →
  ∃ c' a, resolve_input_spk non_witness_utxo ∅ psbt idx o c = Some (Ret (c', Ok (∅, a))) ∧ lost c'.
Proof.
  intros Hc [pi Hp]%lookup_lt_is_Some. unfold resolve_input_spk. rewrite Hp.
  destruct (witness_utxo pi) as [u|]; [by exists c, (Ok (script_pubkey u))|].
  destruct (non_witness_utxo pi) as [tx|]; [by eexists c, _|]. unfold abind at 1, fetch_or_cache_tx. rewrite lookup_empty.
  unfold abind, attempt. destruct (lost_tx_law c (op_txid o) Hc) as (c1 & e & -> & Hc1). by eexists c1, _.
Qed.

Lemma check_inputs_lost psbt idx ins r c : lost c → (idx + length ins ≤ length (psbt_inputs psbt))%nat →
  ∃ c' ws, check_inputs non_witness_utxo psbt idx ins ∅ r c =
      Some (Ret (c', Ok (mkReport (reused_outputs r) (spent_inputs r) (warnings r ++ ws)))) ∧ length ws = length ins ∧ lost c'.
Proof.
  revert idx r c. induction ins as [|i ins IH]; intros idx r c Hc Hl; cbn [check_inputs].
  { exists c, []. rewrite app_nil_r. by destruct r. }
  cbn in Hl. destruct (resolve_lost psbt idx (previous_output i) c Hc) as (c1 & a & E & Hc1); [lia|]. unfold abind at 1. rewrite E.
  assert (∀ w c, lost c → ∃ c' ws, check_inputs non_witness_utxo psbt (S idx) ins ∅ (push_warning r w) c =
      Some (Ret (c', Ok (mkReport (reused_outputs r) (spent_inputs r) (warnings r ++ ws)))) ∧ length ws = S (length ins) ∧ lost c') as Hgo.
  { intros w c0 Hc0. destruct (IH (S idx) (push_warning r w) c0 Hc0) as (c2 & ws & -> & Hw & Hc2); [lia|].
    exists c2, (w :: ws). cbn. rewrite <-app_assoc. split; [done|]. split; [by f_equal|done]. }
  destruct a as [spk|why]; [|by apply Hgo]. unfold abind at 1, attempt.
  destruct (lost_history_law c1 spk Hc1) as (c2 & e & -> & Hc2). by apply Hgo.
Qed.

Lemma validation_lost psbt c : lost c → (length (input (unsigned_tx psbt)) ≤ length (psbt_inputs psbt))%nat →
  ∃ c' r, validate_psbt is_op_return non_witness_utxo psbt c = Some (Ret (c', Ok r)) ∧ is_clean r = true ∧
    length (warnings r) = (length (asked (output (unsigned_tx psbt))) + length (input (unsigned_tx psbt)))%nat ∧ lost c'.
Proof.
  intros Hc Hl. destruct (check_outputs_lost 0 (output (unsigned_tx psbt)) report_default c Hc) as (c1 & ws & E1 & Hw & Hc1).
  destruct (check_inputs_lost psbt 0 (input (unsigned_tx psbt)) (mkReport [] [] ws) c1 Hc1 Hl) as (c2 & ws' & E2 & Hw' & Hc2).
  eexists c2, _. unfold validate_psbt, abind. rewrite E1. split; [exact E2|]. split; [done|]. split; [|done].
  cbn. rewrite length_app. by f_equal.
Qed.
End lost.

(** ** The Electrum client makes the calls *)

Section electrum.
Context {W : Type} `{Server W buffer_size} (fuel : nat).
#[export] Instance electrum_calls : ChainClient (Client _ W) := {|
  call_tx := get_tx buffer_size fuel;
  call_history := get_coins_tx_at buffer_size fuel
|}.

(** In step, over a server of the ledger. *)
Class ServesLedger `{Ledger} := {
  serves_chain txid : on_chain txid = chain txid;
  serves_history spk : touching spk = hr_txid <$> history spk;
  fuel_enough q : enough fuel q
}.
#[export, refine] Instance electrum_honest `{Ledger, !ServesLedger} : HonestClient (Client _ W) := {| synced s := unanswered s = [] |}.
Proof.
  - intros c txid Hc. destruct (get_tx_answered fuel txid c Hc (fuel_enough _)) as (c' & E & Hc'). exists c'. split; [|done].
    unfold tx_reply_of. rewrite serves_chain. exact E.
  - intros c spk Hc. destruct (get_coins_tx_at_answered fuel spk c Hc (fuel_enough _)) as (c' & E & Hc'). exists c'. split; [|done].
    rewrite serves_history. exact E.
Defined.

(** One line behind. *)
#[export, refine] Instance electrum_lost (n : nat) (Hn : ∀ q, small n q) (Hf : (2 * n < fuel)%nat) : LostClient (Client _ W) :=
  {| lost s := lags s ∧ (length (unanswered s) ≤ n)%nat |}.
Proof.
  - intros c txid [Hc Hl]. destruct (get_tx_lags fuel n txid c Hc Hl (Hn _) Hf) as (c' & e & E & Hc' & Hl'). by exists c', e.
  - intros c spk [Hc Hl]. destruct (get_coins_tx_at_lags fuel n spk c Hc Hl (Hn _) Hf) as (c' & e & E & Hc' & Hl'). by exists c', e.
Defined.

Context `{TxLib} (is_op_return : script → bool) (non_witness_utxo : PsbtInput → option Transaction).

(** C39. After one line too many the check sees nothing: whatever the PSBT, and whatever was
    paid or spent, its report is clean, with a warning for each input and each output asked
    about, and the client stays one line behind. *)
Theorem stray_line_blinds_validation n psbt s :
  lags s → (length (unanswered s) ≤ n)%nat → (∀ q, small n q) → (2 * n < fuel)%nat →
  (length (input (unsigned_tx psbt)) ≤ length (psbt_inputs psbt))%nat →
  ∃ s' r, validate_psbt is_op_return non_witness_utxo psbt s = Some (Ret (s', Ok r)) ∧ is_clean r = true ∧
    length (warnings r) = (length (asked is_op_return (output (unsigned_tx psbt))) + length (input (unsigned_tx psbt)))%nat ∧ lags s'.
Proof.
  intros Hs Hl Hn Hf Hi. destruct (@validation_lost _ _ _ (electrum_lost n Hn Hf) is_op_return non_witness_utxo psbt s (conj Hs Hl) Hi)
    as (s' & r & E & Hr & Hw & Hs' & _). by exists s', r.
Qed.
End electrum.

(** The server of [ElectrumClient.Witness]: transaction 2 spends the first output of
    transaction 1. *)
Module Witness.
Import ElectrumClient.Witness.
#[local] Existing Instance Bitcoin.Sample.sample_lib.

#[export, refine] Instance ledger : Ledger := {|
  on_chain := known;
  touching spk := hr_txid <$> histories spk
|}.
Proof.
  - intros spk txid. unfold histories. split.
    + repeat case_bool_decide; subst; cbn; rewrite ?elem_of_cons, ?elem_of_nil.
      * intros [->|[->|[]]]; (eexists; split; [reflexivity|]); [left|right]; cbn.
        -- eexists. split; [by left|done].
        -- eexists. split; [by left|done].
      * intros [->|[]]. eexists. split; [reflexivity|]. left. eexists. split; [by right; left|done].
      * intros [->|[]]. eexists. split; [reflexivity|]. left. eexists. split; [by left|done].
      * done.
    + intros (tx & Ht & Htx). unfold known in Ht.
      destruct (N.eqb_spec txid 1) as [->|H1]; [|destruct (N.eqb_spec txid 2) as [->|H2]; [|done]]; simplify_eq; cbn in Htx;
        destruct Htx as [(o & Ho & <-)|(i & Hi & Hs)].
      * rewrite !elem_of_cons in Ho. destruct Ho as [->|[->|[]%elem_of_nil]]; by left.
      * by apply elem_of_nil in Hi.
      * apply list_elem_of_singleton in Ho as ->. by left.
      * apply list_elem_of_singleton in Hi as ->. injection Hs as <-. by right; left.
  - intros txid tx i Ht Hi. unfold known in Ht.
    destruct (N.eqb_spec txid 1) as [->|H1]; [|destruct (N.eqb_spec txid 2) as [->|H2]; [|done]]; simplify_eq; cbn in Hi.
    + by apply elem_of_nil in Hi.
    + by apply list_elem_of_singleton in Hi as ->.
Defined.
Lemma plenty_here q : enough 140 q.
Proof. intros id Hid. pose proof (enough_here q id Hid). lia. Qed.
#[export, refine] Instance serves_here : ServesLedger (W:=world) (buffer_size:=4096) 140 := {| fuel_enough := plenty_here |}.
Proof. all: reflexivity. Defined.

#[export] Instance calls : ChainClient (Client _ world) := electrum_calls (buffer_size:=4096) 140.
#[export] Instance honest_calls : HonestClient (Client _ world) := electrum_honest (buffer_size:=4096) 140.

Definition op_return (spk : script) : bool := match spk with 106 :: _ => true | _ => false end.
Definition no_previous (i : PsbtInput) : option Transaction := None.
(** It spends the output transaction 2 spent, the other one, and one of a transaction no one
    knows; it pays a used script, a fresh one, and no one. *)
Definition late : Psbt :=
  mkPsbt _ (mkTransaction 2 0 [mkTxIn (mkOutPoint 1 0) [] 0 []; mkTxIn (mkOutPoint 1 1) [] 0 []; mkTxIn (mkOutPoint 7 0) [] 0 []]
             [mkTxOut 100 [2]; mkTxOut 200 [9]; mkTxOut 0 [106; 3]]) 0
    [mkPsbtInput _ (Some (mkTxOut 5000 [1])) 0; mkPsbtInput _ None 0; mkPsbtInput _ None 0] [].
Definition honest_report : PsbtValidationReport := mkReport [mkReused 0 [2]] [mkSpent 0 (mkOutPoint 1 0) 2]
  [WResolve 2 (FetchPrev 7 TxDoesNotExists)].

Lemma validation_exact_witness :
  match validate_psbt (C:=Client _ world) op_return no_previous late connected with
  | Some (Ret (_, Ok r)) => r = honest_report
  | _ => False
  end ∧
  ∃ c' r, validate_psbt (C:=Client _ world) op_return no_previous late connected = Some (Ret (c', Ok r)) ∧ synced c' ∧
    (∀ idx o, (∃ txid, mkSpent idx o txid ∈ spent_inputs r) ↔
      ∃ pi spk txid tx, input_at late idx o pi ∧ resolved no_previous pi o = Ok spk ∧
        on_chain txid = Some tx ∧ touches spk tx ∧ spends tx o = true) ∧
    ∃ txid, mkSpent 0 (mkOutPoint 1 0) txid ∈ spent_inputs r.
Proof.
  split; [vm_compute; reflexivity|].
  destruct (validation_exact op_return no_previous late connected) as (c' & r & E & Hc & _ & _ & _ & Hs & Hd).
  - reflexivity.
  - cbn. lia.
  - exists c', r. split; [exact E|]. split; [exact Hc|]. split; [exact Hs|].
    apply (Hd 0%nat (mkOutPoint 1 0) (@mkPsbtInput Bitcoin.Sample.sample_lib (Some (mkTxOut 5000 [1])) 0) 2 spending).
    + split; [|reflexivity]. exists (mkTxIn (mkOutPoint 1 0) [] 0 []). split; reflexivity.
    + exists [1]. split; reflexivity.
    + reflexivity.
    + reflexivity.
Defined.

Lemma stray_line_blinds_validation_witness : ∃ s' r,
  validate_psbt (C:=Client _ world) op_return no_previous late (with_line []) = Some (Ret (s', Ok r)) ∧ is_clean r = true ∧
  length (warnings r) = 5%nat ∧ lags s'.
Proof.
  apply (stray_line_blinds_validation 140 op_return no_previous 68 late (with_line [])).
  - apply lags_here.
  - cbn. lia.
  - apply small_here.
  - lia.
  - cbn. lia.
Defined.
End Witness.
End Validation.
