(* ===== verification/ElectrumListener.v ===== *)
(** * The two listeners of an Electrum connection (electrum/src/client: listener.rs, tx_listener.rs, header_listener.rs)

    The thread at the client's end of a connection: it takes the requests of the wallet's
    scan loop or of the header worker off a channel, sends them one batch at a time, and
    turns the lines it reads into their messages. The loop is shared; what a listener does
    with a request and with responses is the class [Handler], with an instance for each.
    A turn of the loop is what it meets: the time, what came on the channel, whether its
    other ends are there. *)
From Stdlib Require Import Lia.
From stdpp Require Import base countable strings gmap list.
From S2P Require Import Prelude Bitcoin HeaderBackend HeaderValidator HeaderStore HeaderWorker Listener ElectrumClient.

Module ElectrumListener.
Import ElectrumClient.
Import HeaderValidator(HeaderLib, deserialize).
#[local] Notation "'let*' x := c 'in' k" := (abind c (λ x, k)) (at level 10, x pattern, c at level 100, k at level 200).

(** Milliseconds. *)
Definition PING_INTERVAL : N := 60000.
Definition STALL_RESEND_AFTER : N := 2000.
Definition MERKLE_HASH_BYTES : nat := 32.
Definition HEADER_SIZE : nat := 80.

(** Hex, and the decoding of a transaction, of the crates. *)
Class HexLib := {
  from_hex : string → option (list N);
  tx_deserialize : list N → option Transaction
}.

Section loop.
Context `{WireLib} {W : Type} `{Socket W} `{!ClientLib W} (buffer_size fuel : nat).

(** What a handler works on; [told] is what was sent to the consumer. *)
Record Env (S Rs : Type) := mkEnv { client : Client _ W; state : S; told : list Rs }.
Arguments mkEnv {_ _} _ _ _. Arguments client {_ _} _. Arguments state {_ _} _. Arguments told {_ _} _.

Inductive Dispatch := Sent (batch : list Request) | Empty | Terminate.

(** [Sender::send]; [open] says whether the consumer still listens. *)
Definition tell {S Rs} (open : bool) (m : Rs) : act (Env S Rs) Empty_set bool := λ e,
  Some (Ret (if open then mkEnv (client e) (state e) (told e ++ [m]) else e, Ok open)).
(** Messages, until one is not taken. *)
Fixpoint tell_all {S Rs} (open : bool) (l : list Rs) : act (Env S Rs) Empty_set bool :=
  match l with
  | [] => aret true
  | m :: l => let* sent := tell open m in if sent : bool then tell_all open l else aret false
  end.
Definition with_client {S Rs A} (c : act (Client _ W) Error A) : act (Env S Rs) Empty_set (result A Error) := λ e,
  match c (client e) with
  | Some (Ret (c, r)) => Some (Ret (mkEnv c (state e) (told e), Ok r))
  | Some Panic => Some Panic
  | None => None
  end.
Definition set_state {S Rs} (f : S → S) : act (Env S Rs) Empty_set unit := aput (λ e, mkEnv (client e) (f (state e)) (told e)).

(** [Client::register]: the request with its id. *)
Definition register_request {S Rs} (r : Request) : act (Env S Rs) Empty_set Request :=
  let* id := with_client (register r) in
  aret (with_id (match id with Ok id => id | Err _ => 0 end) r).
(** [Client::send_with_retry]. *)
Definition send_batch_with_retry {S Rs} (open : bool) (batch : list Request) (make_err : Error → Rs) : act (Env S Rs) Empty_set bool :=
  let* sent := with_client (send_with_retry open batch) in
  match sent with
  | Ok (alive, Some e) => tell open (make_err e)
  | Ok (alive, None) => aret alive
  | Err _ => aret open
  end.

(** [raw_client::Client::try_recv]. *)
Definition try_recv : act (Client _ W) Error (option (list (Response ScriptHash))) :=
  let* raw := on_inner (try_read_line buffer_size fuel) in
  match raw with
  | None => aret None
  | Some raw =>
      let* index := aget index in
      match parse_str_response raw index with
      | Ret (Ok rs) => aret (Some rs)
      | Ret (Err e) => ares (Err (Transport (EElectrum e)))
      | Panic => λ _, Some Panic
      end
  end.

(** The closures [run_listener] is called with. *)
Class Handler (Rq Rs S : Type) := {
  dispatch : bool → Rq → act (Env S Rs) Empty_set Dispatch;
  handle : bool → list (Response ScriptHash) → act (Env S Rs) Empty_set bool;   (* false: terminate *)
  transport_err : Error → Rs
}.

(** The locals of the loop. *)
Record Thread (Rq Rs S : Type) := mkThread {
  env : Env S Rs;
  last_request : option (list Request);
  last_sent : N;
  inbox : list Rq;
  last_ping : N
}.
Arguments mkThread {_ _ _} _ _ _ _ _. Arguments env {_ _ _} _. Arguments last_request {_ _ _} _. Arguments last_sent {_ _ _} _.
Arguments inbox {_ _ _} _. Arguments last_ping {_ _ _} _.

Record Turn (Rq : Type) := mkTurn { now : N; arrivals : list Rq; gone : bool; open : bool }.
Arguments mkTurn {_} _ _ _ _. Arguments now {_} _. Arguments arrivals {_} _. Arguments gone {_} _. Arguments open {_} _.

Section run.
Context {Rq Rs S : Type} `{!Handler Rq Rs S}.
Abbreviation thread := (Thread Rq Rs S).
(** The thread, and whether it returned. *)
Abbreviation flow := (option (outcome (thread * bool))).
Definition continue (th : thread) : flow := Some (Ret (th, false)).
Definition ends (th : thread) : flow := Some (Ret (th, true)).
Definition and_then (c : flow) (k : thread → flow) : flow :=
  match c with Some (Ret (th, false)) => k th | c => c end.
Definition with_env (e : Env S Rs) (th : thread) : thread := mkThread e (last_request th) (last_sent th) (inbox th) (last_ping th).
(** A step of the handler or of the client. *)
Definition do_env {A} (c : act (Env S Rs) Empty_set A) (k : A → thread → flow) (th : thread) : flow :=
  match c (env th) with
  | Some (Ret (e, Ok a)) => k a (with_env e th)
  | Some (Ret (e, Err x)) => match x with end
  | Some Panic => Some Panic
  | None => None
  end.

Definition ping_maybe (t : Turn Rq) (th : thread) : flow :=
  if PING_INTERVAL <=? now t - last_ping th then
    do_env (register_request ping) (λ ping,
      do_env (with_client (try_send_batch [ping])) (λ r th,
        match r with
        | Err e => do_env (tell (open t) (transport_err e)) (λ _, ends) th
        | Ok _ => continue (mkThread (env th) (last_request th) (last_sent th) (inbox th) (now t))
        end)) th
  else continue th.

Definition resend_maybe (t : Turn Rq) (th : thread) : flow :=
  match last_request th with
  | Some reqs =>
      if STALL_RESEND_AFTER <? now t - last_sent th then
        do_env (with_client (try_send_batch reqs)) (λ _ th,
          continue (mkThread (env th) (last_request th) (now t) (inbox th) (last_ping th))) th
      else continue th
  | None => continue th
  end.

Definition drain (t : Turn Rq) (th : thread) : flow :=
  let th := mkThread (env th) (last_request th) (last_sent th) (inbox th ++ arrivals t) (last_ping th) in
  if gone t then ends th else continue th.

Definition next_request (t : Turn Rq) (th : thread) : flow :=
  match last_request th, inbox th with
  | None, rq :: inbox =>
      do_env (dispatch (open t) rq) (λ d th,
        match d with
        | Sent batch => continue (mkThread (env th) (Some batch) (now t) inbox (last_ping th))
        | Empty => continue (mkThread (env th) None (last_sent th) inbox (last_ping th))
        | Terminate => ends (mkThread (env th) None (last_sent th) inbox (last_ping th))
        end) th
  | _, _ => continue th
  end.

Definition answered (responses : list (Response ScriptHash)) : list N := omap response_id responses.
(** The answered requests leave the pending batch. *)
Definition settle (t : Turn Rq) (responses : list (Response ScriptHash)) (th : thread) : thread :=
  match last_request th with
  | Some reqs =>
      let left := filter (λ rq, req_id rq ∉ answered responses) reqs in
      match left with
      | [] => mkThread (env th) None (last_sent th) (inbox th) (last_ping th)
      | _ =>
          mkThread (env th) (Some left) (if (length left =? length reqs)%nat then last_sent th else now t) (inbox th) (last_ping th)
      end
  | None => th
  end.
Definition receive (t : Turn Rq) (th : thread) : flow :=
  do_env (with_client try_recv) (λ r th,
    match r with
    | Ok (Some responses) => do_env (handle (open t) responses) (λ go, if go : bool then continue else ends) (settle t responses th)
    | Ok None => continue th
    | Err e => do_env (tell (open t) (transport_err e)) (λ _, ends) th
    end) th.

(** Until the read, and the whole turn. *)
Definition before_read (t : Turn Rq) (th : thread) : flow :=
  and_then (and_then (and_then (ping_maybe t th) (resend_maybe t)) (drain t)) (next_request t).
Definition turn (t : Turn Rq) (th : thread) : flow := and_then (before_read t th) (receive t).
Fixpoint run_listener (turns : list (Turn Rq)) (th : thread) : flow :=
  match turns with
  | [] => continue th
  | t :: turns => and_then (turn t th) (run_listener turns)
  end.
Definition started (c : Client _ W) (s : S) (now : N) : thread := mkThread (mkEnv c s []) None now [] now.
End run.
End loop.
#[global] Arguments mkEnv {_ _ _ _} _ _ _.
#[global] Arguments client {_ _ _ _} _.
#[global] Arguments state {_ _ _ _} _.
#[global] Arguments told {_ _ _ _} _.
#[global] Arguments mkThread {_ _ _ _ _} _ _ _ _ _.
#[global] Arguments env {_ _ _ _ _} _.
#[global] Arguments last_request {_ _ _ _ _} _.
#[global] Arguments last_sent {_ _ _ _ _} _.
#[global] Arguments inbox {_ _ _ _ _} _.
#[global] Arguments last_ping {_ _ _ _ _} _.
#[global] Arguments mkTurn {_} _ _ _ _.
#[global] Arguments now {_} _.
#[global] Arguments arrivals {_} _.
#[global] Arguments gone {_} _.
#[global] Arguments open {_} _.

(** ** The transaction listener (tx_listener.rs) *)

Section txs.
Context `{WireLib} `{HeaderLib} `{HexLib} {W : Type} `{Socket W} `{!ClientLib W}.

Record TxState := mkTxState {
  req_id_spk : gmap N script;
  req_id_tx_merkle : gmap N (Txid * N);
  req_id_header : gmap N N;
  watched_spks_sh : gmap N ScriptHash;
  sh_spk : gmap ScriptHash script
}.
Record TxBatch := mkTxBatch {
  statuses : gmap script (option string);
  txs : list Transaction;
  histories : gmap script (list (Txid * option N));
  batch_headers : gmap N HeaderValidator.Header;
  trailing : list Listener.CoinResponse
}.
Definition tx_state_default : TxState := mkTxState ∅ ∅ ∅ ∅ ∅.
Definition tx_batch_default : TxBatch := mkTxBatch ∅ [] ∅ ∅ [].
Definition add_status (spk : script) (status : option string) (b : TxBatch) : TxBatch :=
  mkTxBatch (<[spk := status]> (statuses b)) (txs b) (histories b) (batch_headers b) (trailing b).
Definition add_tx (tx : Transaction) (b : TxBatch) : TxBatch :=
  mkTxBatch (statuses b) (txs b ++ [tx]) (histories b) (batch_headers b) (trailing b).
Definition add_history (spk : script) (h : list (Txid * option N)) (b : TxBatch) : TxBatch :=
  mkTxBatch (statuses b) (txs b) (<[spk := h]> (histories b)) (batch_headers b) (trailing b).
Definition add_header (height : N) (h : HeaderValidator.Header) (b : TxBatch) : TxBatch :=
  mkTxBatch (statuses b) (txs b) (histories b) (<[height := h]> (batch_headers b)) (trailing b).
Definition add_trailing (m : Listener.CoinResponse) (b : TxBatch) : TxBatch :=
  mkTxBatch (statuses b) (txs b) (histories b) (batch_headers b) (trailing b ++ [m]).
Definition forget_spk (id : N) (s : TxState) : TxState :=
  mkTxState (delete id (req_id_spk s)) (req_id_tx_merkle s) (req_id_header s) (watched_spks_sh s) (sh_spk s).
Definition forget_merkle (id : N) (s : TxState) : TxState :=
  mkTxState (req_id_spk s) (delete id (req_id_tx_merkle s)) (req_id_header s) (watched_spks_sh s) (sh_spk s).
Definition forget_header (id : N) (s : TxState) : TxState :=
  mkTxState (req_id_spk s) (req_id_tx_merkle s) (delete id (req_id_header s)) (watched_spks_sh s) (sh_spk s).

(** [deserialize_hex] of a transaction and of a header. *)
Definition tx_from_hex (hex : string) : option Transaction := from_hex hex ≫= tx_deserialize.
Definition header_from_hex (hex : string) : option HeaderValidator.Header := from_hex hex ≫= deserialize.

(** A hash of the branch: its hex in display order, as the number the 32 bytes are. *)
Definition merkle_node (hex : string) : option N :=
  bytes ← from_hex hex; if (length bytes =? MERKLE_HASH_BYTES)%nat then Some (foldl (λ acc b, 256 * acc + b) 0 bytes) else None.
Definition decode_tx_merkle_branch (l : list string) : option (list N) := mapM merkle_node l.

(** Heights below one are those of transactions in the mempool. *)
Definition history_entry (h : HistoryResult) : Txid * option N :=
  (hr_txid h, if (hr_height h <? 1)%Z then None else Some (Z.to_N (hr_height h))).

Definition handle_tx_response (sb : TxState * TxBatch) (r : Response ScriptHash) : TxState * TxBatch :=
  let '(s, b) := sb in
  match r with
  | SHSubscribe id status =>
      match watched_spks_sh s !! id with
      | None => (s, b)
      | Some sh => match sh_spk s !! sh with None => (s, b) | Some spk => (s, add_status spk status b) end
      end
  | SHNotification sh status => match sh_spk s !! sh with None => (s, b) | Some spk => (s, add_status spk status b) end
  | SHGetHistory id history =>
      match req_id_spk s !! id with
      | None => (s, b)
      | Some spk => (forget_spk id s, add_history spk (history_entry <$> history) b)
      end
  | TxGet _ (Raw raw_tx) =>
      (s, match tx_from_hex raw_tx with Some tx => add_tx tx b | None => add_trailing (Listener.Error Listener.TxDecode) b end)
  | TxGetMerkle id result =>
      match req_id_tx_merkle s !! id with
      | None => (s, b)
      | Some (txid, height) =>
          (forget_merkle id s, add_trailing
             match decode_tx_merkle_branch (merkle result) with
             | Some branch => Listener.TxMerkle txid height branch (tx_pos result mod 2 ^ 32)
             | None => Listener.Error (Listener.MerkleDecode txid height)
             end b)
      end
  | RHeader id raw =>
      match req_id_header s !! id with
      | None => (s, b)
      | Some height =>
          (forget_header id s,
           match header_from_hex raw with
           | Some header => add_header height header b
           | None => add_trailing (Listener.Error (Listener.HeaderDecode height)) b
           end)
      end
  | RError id _ =>
      match req_id_tx_merkle s !! id with
      | Some (txid, height) => (forget_merkle id s, add_trailing (Listener.Error (Listener.MerkleFetch txid height)) b)
      | None =>
          match req_id_header s !! id with
          | Some height => (forget_header id s, add_trailing (Listener.Error (Listener.HeaderFetch height)) b)
          | None => (s, add_trailing (Listener.Error Listener.Server) b)
          end
      end
  | _ => (s, b)
  end.

Definition drain_batch (b : TxBatch) : list Listener.CoinResponse :=
  (if bool_decide (histories b = ∅) then [] else [Listener.History (histories b)]) ++
  (if bool_decide (statuses b = ∅) then [] else [Listener.Status (statuses b)]) ++
  (match txs b with [] => [] | l => [Listener.Txs l] end) ++
  (if bool_decide (batch_headers b = ∅) then [] else [Listener.Headers (batch_headers b)]) ++
  trailing b.

Abbreviation step A := (act (Env (W:=W) TxState Listener.CoinResponse) Empty_set A).

Definition send_batch (open : bool) (batch : list Request) : step Dispatch :=
  match batch with
  | [] => aret Empty
  | _ =>
      let* sent := send_batch_with_retry open batch (λ _, Listener.Error Listener.Send) in
      aret (if sent : bool then Sent batch else Terminate)
  end.

(** The requests of a message: each is registered, and what its answer is about noted under
    its id. *)
Fixpoint register_each {X} (req : X → Request) (note : N → X → TxState → TxState) (l : list X) : step (list Request) :=
  match l with
  | [] => aret []
  | x :: l =>
      let* r := register_request (req x) in
      let* _ := set_state (note (req_id r) x) in
      let* rs := register_each req note l in
      aret (r :: rs)
  end.
Definition note_watch (id : N) (spk : script) (s : TxState) : TxState :=
  let sh := script_hash spk in
  mkTxState (req_id_spk s) (req_id_tx_merkle s) (req_id_header s) (<[id := sh]> (watched_spks_sh s)) (<[sh := spk]> (sh_spk s)).
Definition note_history (id : N) (spk : script) (s : TxState) : TxState :=
  mkTxState (<[id := spk]> (req_id_spk s)) (req_id_tx_merkle s) (req_id_header s) (watched_spks_sh s) (sh_spk s).
Definition note_merkle (id : N) (p : Txid * N) (s : TxState) : TxState :=
  mkTxState (req_id_spk s) (<[id := p]> (req_id_tx_merkle s)) (req_id_header s) (watched_spks_sh s) (sh_spk s).
Definition note_header (id : N) (height : N) (s : TxState) : TxState :=
  mkTxState (req_id_spk s) (req_id_tx_merkle s) (<[id := height]> (req_id_header s)) (watched_spks_sh s) (sh_spk s).

Definition dispatch_tx (open : bool) (rq : Listener.CoinRequest) : step Dispatch :=
  match rq with
  | Listener.Subscribe spks => let* batch := register_each subscribe_sh note_watch spks in send_batch open batch
  | Listener.GetHistory spks => let* batch := register_each sh_get_history note_history spks in send_batch open batch
  | Listener.GetTxs txids => let* batch := register_each tx_get (λ _ _ s, s) txids in send_batch open batch
  | Listener.GetTxMerkle txid height =>
      let* batch := register_each (λ p, tx_get_merkle p.1 p.2) note_merkle [(txid, height)] in send_batch open batch
  | Listener.GetHeaders heights => let* batch := register_each header note_header heights in send_batch open batch
  | Listener.StopClient => let* _ := tell open Listener.Stopped in aret Terminate
  end.

Definition handle_tx_responses (open : bool) (responses : list (Response ScriptHash)) : step bool :=
  let* s := aget state in
  let '(s, b) := foldl handle_tx_response (s, tx_batch_default) responses in
  let* _ := set_state (λ _, s) in
  tell_all open (drain_batch b).

#[export] Instance tx_handler : Handler (W:=W) Listener.CoinRequest Listener.CoinResponse TxState := {|
  dispatch := dispatch_tx;
  handle := handle_tx_responses;
  transport_err _ := Listener.Error Listener.Transport
|}.
Definition listen_txs (buffer_size fuel : nat) (turns : list (Turn Listener.CoinRequest)) (c : Client _ W) (now : N) :=
  run_listener buffer_size fuel turns (started c tx_state_default now).
End txs.

(** ** The header listener (header_listener.rs) *)

Section headers.
Context `{WireLib} `{HexLib} {W : Type} `{Socket W} `{!ClientLib W}.

Record HeaderState := mkHeaderState { subscribe_id : option N; get_headers_starts : gmap N N }.
Definition header_state_default : HeaderState := mkHeaderState None ∅.

Definition decode_header_hex (hex : string) : option HeaderValidator.raw_header :=
  bytes ← from_hex hex; if (length bytes =? HEADER_SIZE)%nat then Some bytes else None.
(** [chunks_exact]. *)
Fixpoint chunks (n : nat) (size : nat) (bytes : list N) : list HeaderValidator.raw_header :=
  match n with
  | O => []
  | S n => take size bytes :: chunks n size (drop size bytes)
  end.
Definition chunk_raw_headers (hex : string) : option (list HeaderValidator.raw_header) :=
  bytes ← from_hex hex;
  if (length bytes mod HEADER_SIZE =? 0)%nat then Some (chunks (length bytes / HEADER_SIZE) HEADER_SIZE bytes) else None.

(** A notified batch, until a header that does not decode. *)
Fixpoint notified (headers : list Header) : list HeaderWorker.HeaderResponse :=
  match headers with
  | [] => []
  | h :: headers =>
      match decode_header_hex (raw_header h) with
      | Some raw => HeaderWorker.HeaderAt (hd_height h mod 2 ^ 32) raw :: notified headers
      | None => [HeaderWorker.Error HeaderWorker.EOther]
      end
  end.
Definition handle_header_response (s : HeaderState) (r : Response ScriptHash) : HeaderState * list HeaderWorker.HeaderResponse :=
  match r with
  | HeaderNotif (SingleHeader id h) =>
      (s, [match decode_header_hex (raw_header h) with
           | Some raw =>
               let height := hd_height h mod 2 ^ 32 in
               if bool_decide (subscribe_id s = Some id) then HeaderWorker.Tip height raw else HeaderWorker.HeaderAt height raw
           | None => HeaderWorker.Error HeaderWorker.EOther
           end])
  | HeaderNotif (HeaderBatch headers) | BatchHeaderNotif headers => (s, notified headers)
  | RHeaders id _ raw_headers _ =>
      match get_headers_starts s !! id with
      | None => (s, [])
      | Some start =>
          (mkHeaderState (subscribe_id s) (delete id (get_headers_starts s)),
           [match chunk_raw_headers raw_headers with
            | Some raws => HeaderWorker.Batch start raws
            | None => HeaderWorker.Error (HeaderWorker.EGetHeadersDecode start)
            end])
      end
  | RError id _ =>
      match get_headers_starts s !! id with
      | Some start =>
          (mkHeaderState (subscribe_id s) (delete id (get_headers_starts s)), [HeaderWorker.Error (HeaderWorker.EGetHeaders start)])
      | None => (s, [HeaderWorker.Error HeaderWorker.EOther])
      end
  | _ => (s, [])
  end.

Abbreviation step A := (act (Env (W:=W) HeaderState HeaderWorker.HeaderResponse) Empty_set A).

Definition dispatch_header (open : bool) (rq : HeaderWorker.HeaderRequest) : step Dispatch :=
  match rq with
  | HeaderWorker.Subscribe =>
      let* s := aget state in
      if bool_decide (is_Some (subscribe_id s)) then aret Empty
      else
        let* req := register_request subscribe_headers in
        let* _ := set_state (λ s, mkHeaderState (Some (req_id req)) (get_headers_starts s)) in
        let* sent := send_batch_with_retry open [req] (λ _, HeaderWorker.Error HeaderWorker.EOther) in
        aret (if sent : bool then Empty else Terminate)
  | HeaderWorker.GetHeaders start count =>
      let* req := register_request (headers start count) in
      let* _ := set_state (λ s, mkHeaderState (subscribe_id s) (<[req_id req := start]> (get_headers_starts s))) in
      let* sent := send_batch_with_retry open [req] (λ _, HeaderWorker.Error HeaderWorker.EOther) in
      aret (if sent : bool then Sent [req] else Terminate)
  | HeaderWorker.Wake =>
      let* sent := tell open HeaderWorker.Woken in aret (if sent : bool then Empty else Terminate)
  | HeaderWorker.StopRequest =>
      let* _ := tell open HeaderWorker.Stopped in aret Terminate
  end.

Fixpoint handle_header_responses (open : bool) (responses : list (Response ScriptHash)) : step bool :=
  match responses with
  | [] => aret true
  | r :: responses =>
      let* s := aget state in
      let '(s, out) := handle_header_response s r in
      let* _ := set_state (λ _, s) in
      let* go := tell_all open out in
      if go : bool then handle_header_responses open responses else aret false
  end.

#[export] Instance header_handler : Handler (W:=W) HeaderWorker.HeaderRequest HeaderWorker.HeaderResponse HeaderState := {|
  dispatch := dispatch_header;
  handle := handle_header_responses;
  transport_err _ := HeaderWorker.Error HeaderWorker.EOther
|}.
Definition listen_headers (buffer_size fuel : nat) (turns : list (Turn HeaderWorker.HeaderRequest)) (c : Client _ W) (now : N) :=
  run_listener buffer_size fuel turns (started c header_state_default now).
End headers.

(** ** What holds of any listener *)

Section rule.
Context `{WireLib} {W : Type} `{Socket W} `{!ClientLib W} {buffer_size fuel : nat}.
Context {Rq Rs S : Type} `{!Handler (W:=W) Rq Rs S}.
Abbreviation environment := (Env (W:=W) S Rs).
Abbreviation thread := (Thread (W:=W) Rq Rs S).

(** A response, with the request its id was given to when it was read. *)
Abbreviation Heard := (option Request * Response ScriptHash)%type.
Definition hear (idx : gmap N Request) (r : Response ScriptHash) : Heard := (id ← response_id r; idx !! id, r).

(** What the handler is given in a turn, and in a run. *)
Definition heard_now (t : Turn Rq) (th : thread) : list Heard :=
  match before_read t th with
  | Some (Ret (th, false)) =>
      match try_recv buffer_size fuel (client (env th)) with
      | Some (Ret (c, Ok (Some rs))) => hear (index c) <$> rs
      | _ => []
      end
  | _ => []
  end.
Fixpoint heard (turns : list (Turn Rq)) (th : thread) : list Heard :=
  match turns with
  | [] => []
  | t :: turns =>
      heard_now t th ++ match turn buffer_size fuel t th with Some (Ret (th, false)) => heard turns th | _ => [] end
  end.

(** What a read line can give under an index. *)
Definition readable (idx : gmap N Request) (rs : list (Response ScriptHash)) : Prop :=
  ∃ raw, parse_str_response raw idx = Ret (Ok rs).

(** A property of what was heard and of the handler's state, kept by each of its steps. *)
Class Keeps (I : list Heard → environment → Prop) := {
  keeps_io log c c' s m : I log (mkEnv c s m) → index c' = index c → I log (mkEnv c' s m);
  keeps_ping log e e' r : I log e → register_request ping e = Some (Ret (e', r)) → I log e';
  keeps_transport log c s m x : I log (mkEnv c s m) → I log (mkEnv c s (m ++ [transport_err x]));
  keeps_dispatch log open rq e e' r : I log e → dispatch open rq e = Some (Ret (e', r)) → I log e';
  keeps_handle log open rs e e' r :
    I log e → readable (index (client e)) rs → handle open rs e = Some (Ret (e', r)) →
    I (log ++ (hear (index (client e)) <$> rs)) e'
}.

Lemma with_client_inv {A} (c : act (Client _ W) Error A) (e e' : environment) r :
  with_client c e = Some (Ret (e', r)) → ∃ c' x, c (client e) = Some (Ret (c', x)) ∧ r = Ok x ∧ e' = mkEnv c' (state e) (told e).
Proof. unfold with_client. destruct (c (client e)) as [[[c' x]|]|]; intros [= <- <-]. by eexists _, _. Qed.

Lemma try_send_batch_index l (c c' : Client _ W) r : try_send_batch l c = Some (Ret (c', r)) → index c' = index c ∧ last_id c' = last_id c.
Proof.
  unfold try_send_batch, on_inner. destruct (json_of_batch l) as [j|]; [|by intros [= <- <-]].
  destruct (send j (inner c)) as [[[t [?|?]]|]|]; by intros [= <- <-].
Qed.

Lemma send_retrying_index n open l (c c' : Client _ W) r :
  send_retrying n open l c = Some (Ret (c', r)) → index c' = index c ∧ last_id c' = last_id c.
Proof.
  revert c. induction n as [|n IH]; intros c; cbn [send_retrying];
    destruct (try_send_batch l c) as [[[c1 [?|?]]|]|] eqn:E; intros Hr; simplify_eq; destruct (try_send_batch_index _ _ _ _ E) as [Ei El];
    try done.
  destruct (IH _ Hr) as [-> ->]. by rewrite Ei.
Qed.

Lemma try_recv_inv (c c' : Client _ W) r : try_recv buffer_size fuel c = Some (Ret (c', r)) →
  index c' = index c ∧ last_id c' = last_id c ∧ ∀ rs, r = Ok (Some rs) → readable (index c') rs.
Proof.
  unfold try_recv, abind, on_inner, aget, aret, ares.
  destruct (try_read_line buffer_size fuel (inner c)) as [[[t [[raw|]|]]|]|]; intros Hr; simplify_eq; try done.
  cbn [index] in Hr. destruct (parse_str_response raw (index c)) as [[rs|]|] eqn:E; simplify_eq; try done.
  split; [done|]. split; [done|]. intros rs' [= <-]. by exists raw.
Qed.

Definition fresh_id (e : environment) : N := (last_id (client e) + 1) mod 2 ^ 64.
Lemma register_request_spec r (e : environment) :
  let id := fresh_id e in
  register_request r e =
    Some (Ret (mkEnv (mkClient (inner (client e)) (<[id := with_id id r]> (index (client e))) id) (state e) (told e), Ok (with_id id r))).
Proof. reflexivity. Qed.

(** A batch sent changes the client's socket, and tells the consumer when it fails. *)
Lemma send_batch_with_retry_spec open batch err (e e' : environment) r :
  send_batch_with_retry open batch err e = Some (Ret (e', r)) →
  index (client e') = index (client e) ∧ last_id (client e') = last_id (client e) ∧ state e' = state e ∧
  (told e' = told e ∨ ∃ x, told e' = told e ++ [err x]).
Proof.
  unfold send_batch_with_retry, abind. intros Hr.
  destruct (with_client (send_with_retry open batch) e) as [[[e1 [x|[]]]|]|] eqn:E; try done.
  apply with_client_inv in E as (c & y & E & Ey & ->). injection Ey as ->. unfold send_with_retry in E.
  destruct (send_retrying_index _ _ _ _ _ _ E) as [Ei El].
  destruct y as [[alive [x|]]|x]; unfold tell, aret in Hr; injection Hr as <- <-; [destruct open|..]; cbn; eauto 10.
Qed.

Lemma tell_all_spec {X} open (l : list X) (e e' : Env (W:=W) S X) r :
  tell_all open l e = Some (Ret (e', r)) → client e' = client e ∧ state e' = state e ∧ ∃ k, told e' = told e ++ take k l.
Proof.
  revert e. induction l as [|m l IH]; intros e; cbn; [intros [= <- <-]; split_and!; [done..|]; exists O; by rewrite app_nil_r|].
  unfold abind, tell, aret. destruct open.
  - intros Hr. destruct (IH _ Hr) as (Ec & Es & k & Ek). cbn in Ec, Es, Ek. split_and!; [done..|]. exists (Datatypes.S k).
    by rewrite Ek, <-app_assoc.
  - intros [= <- <-]. split_and!; [done..|]. exists O. by rewrite app_nil_r.
Qed.

Context (I : list Heard → environment → Prop) `{!Keeps I}.

Lemma do_env_inv {A} (c : act environment Empty_set A) (k : A → thread → option (outcome (thread * bool))) th res :
  do_env c k th = Some (Ret res) →
  ∃ e a, c (env th) = Some (Ret (e, Ok a)) ∧ k a (with_env e th) = Some (Ret res).
Proof. unfold do_env. destruct (c (env th)) as [[[e [a|[]]]|]|]; intros Hr; simplify_eq. by eexists _, _. Qed.

Lemma and_then_inv c (k : thread → option (outcome (thread * bool))) res :
  and_then c k = Some (Ret res) →
  (∃ th, c = Some (Ret (th, false)) ∧ k th = Some (Ret res)) ∨ (res.2 = true ∧ c = Some (Ret res)).
Proof. unfold and_then. destruct c as [[[th []]|]|]; intros Hr; simplify_eq; [by right|left; eauto]. Qed.

Lemma keeps_client log (e : environment) c : I log e → index c = index (client e) → I log (mkEnv c (state e) (told e)).
Proof. destruct e as [c0 s m]. apply keeps_io. Qed.

Lemma keeps_fail log open x (e e' : environment) r :
  I log e → tell open (transport_err x) e = Some (Ret (e', r)) → I log e'.
Proof. unfold tell. intros Hi [= <- <-]. destruct e, open; [by apply keeps_transport|done]. Qed.

Lemma ping_keeps log t (th th' : thread) b : I log (env th) → ping_maybe t th = Some (Ret (th', b)) → I log (env th').
Proof.
  intros Hi. unfold ping_maybe. destruct (_ <=? _); [|by intros [= <- <-]].
  intros (e1 & r1 & E1 & (e2 & r2 & E2 & Hr)%do_env_inv)%do_env_inv. apply (keeps_ping _ _ _ _ Hi) in E1.
  cbn [env with_env] in E2. apply with_client_inv in E2 as (c & x & Es & ? & ->). simplify_eq.
  destruct (try_send_batch_index _ _ _ _ Es) as [Ei _]. pose proof (keeps_client _ _ _ E1 Ei) as Hi2.
  destruct x as [u|x]; [by injection Hr as <- <-|].
  apply do_env_inv in Hr as (e3 & r3 & E3 & Hr). injection Hr as <- <-. by apply (keeps_fail _ _ _ _ _ _ Hi2) in E3.
Qed.

Definition keeping (P : thread → Prop) (o : option (outcome (thread * bool))) : Prop :=
  ∀ th b, o = Some (Ret (th, b)) → P th.
Lemma and_then_keeps (P : thread → Prop) c k :
  keeping P c → (∀ th, P th → keeping P (k th)) → keeping P (and_then c k).
Proof. intros Hc Hk th b [(th1 & E & Hr)|[_ E]]%and_then_inv; [|by apply (Hc th b)]. by apply (Hk th1 (Hc _ _ E) th b). Qed.

Lemma resend_keeps log t th : I log (env th) → keeping (λ th, I log (env th)) (resend_maybe t th).
Proof.
  intros Hi th' b. unfold resend_maybe. destruct (last_request th) as [reqs|]; [|by intros [= <- <-]].
  destruct (_ <? _); [|by intros [= <- <-]]. intros (e & r & E & Hr)%do_env_inv. injection Hr as <- <-.
  apply with_client_inv in E as (c & x & Es & _ & ->). destruct (try_send_batch_index _ _ _ _ Es) as [Ei _]. by apply keeps_client.
Qed.

Lemma next_request_keeps log t th : I log (env th) → keeping (λ th, I log (env th)) (next_request t th).
Proof.
  intros Hi th' b. unfold next_request. destruct (last_request th); [by intros [= <- <-]|].
  destruct (inbox th) as [|rq l]; [by intros [= <- <-]|]. intros (e & d & E & Hr)%do_env_inv.
  apply (keeps_dispatch _ _ _ _ _ _ Hi) in E. by destruct d; injection Hr as <- <-.
Qed.

Lemma before_read_keeps log t th : I log (env th) → keeping (λ th, I log (env th)) (before_read t th).
Proof.
  intros Hi. unfold before_read. repeat apply and_then_keeps.
  - intros th' b. by apply ping_keeps.
  - intros. by apply resend_keeps.
  - intros th1 Hi1 th' b. unfold drain. destruct (gone t); by intros [= <- <-].
  - intros. by apply next_request_keeps.
Qed.

Lemma turn_keeps log t th : I log (env th) → keeping (λ th', I (log ++ heard_now t th) (env th')) (turn buffer_size fuel t th).
Proof.
  intros Hi th' b Hr. pose proof (before_read_keeps log t th Hi) as Hb. unfold turn in Hr. unfold heard_now.
  apply and_then_inv in Hr as [(th1 & E & Hr)|[Eb E]]; rewrite E.
  2: { cbn in Eb. subst b. rewrite app_nil_r. by apply (Hb _ _ E). }
  specialize (Hb _ _ E). unfold receive in Hr. apply do_env_inv in Hr as (e & r & Ec & Hr).
  apply with_client_inv in Ec as (c & x & Ec & ? & ->). simplify_eq. rewrite Ec.
  destruct (try_recv_inv _ _ _ Ec) as (Ei & _ & Hrs). pose proof (keeps_client _ _ _ Hb Ei) as Hi1.
  destruct x as [[rs|]|x].
  - apply do_env_inv in Hr as (e2 & go & Eh & Hr).
    set (th2 := settle t rs (with_env (mkEnv c (state (env th1)) (told (env th1))) th1)) in *.
    assert (env th2 = mkEnv c (state (env th1)) (told (env th1))) as E2.
    { unfold th2, settle. cbn [last_request with_env]. destruct (last_request th1); [|done]. by destruct filter. }
    rewrite E2 in Eh. pose proof (keeps_handle _ _ _ _ _ _ Hi1 (Hrs _ eq_refl) Eh) as Hh.
    destruct go; injection Hr as <- <-; exact Hh.
  - injection Hr as <- <-. by rewrite app_nil_r.
  - rewrite app_nil_r. apply do_env_inv in Hr as (e2 & u & Et & Hr). injection Hr as <- <-. by apply (keeps_fail _ _ _ _ _ _ Hi1) in Et.
Qed.

Lemma run_keeps log turns th : I log (env th) →
  keeping (λ th', I (log ++ heard turns th) (env th')) (run_listener buffer_size fuel turns th).
Proof.
  revert log th. induction turns as [|t turns IH]; intros log th Hi th' b Hr; cbn [run_listener heard] in *.
  { injection Hr as <- <-. by rewrite app_nil_r. }
  pose proof (turn_keeps log t th Hi) as Ht.
  apply and_then_inv in Hr as [(th1 & E & Hr)|[Eb E]]; rewrite E.
  - rewrite app_assoc. by apply (IH _ _ (Ht _ _ E) th' b).
  - cbn in Eb. subst b. rewrite app_nil_r. by apply (Ht _ _ E).
Qed.
End rule.
#[global] Arguments heard {_ _ _ _} _ _ {_ _ _ _} _ _.
#[global] Arguments heard_now {_ _ _ _} _ _ {_ _ _ _} _ _.

(** ** What is asked and what answers it *)

(** The readings of a line agree on its id. *)
Class WireLaws `{WireLib} := {
  tx_get_id raw id r : json_tx_get raw = Some (id, r) → json_id raw = Some id;
  sh_subscribe_id raw id r : json_sh_subscribe raw = Some (id, r) → json_id raw = Some id;
  sh_get_history_id raw id r : json_sh_get_history raw = Some (id, r) → json_id raw = Some id;
  tx_get_merkle_id raw id r : json_tx_get_merkle raw = Some (id, r) → json_id raw = Some id;
  header_id raw id r : json_header raw = Some (id, r) → json_id raw = Some id;
  headers_id raw id r : json_headers raw = Some (id, r) → json_id raw = Some id
}.

Section answers.
Context `{WireLib, !WireLaws}.

(** The request a response can only be an answer to. *)
Definition answer_of (r : Response ScriptHash) : option (N * Method) :=
  match r with
  | TxGet id _ => Some (id, TransactionGet)
  | SHSubscribe id _ => Some (id, ScriptHashSubscribe)
  | SHGetHistory id _ => Some (id, ScriptHashGetHistory)
  | TxGetMerkle id _ => Some (id, TransactionGetMerkle)
  | RHeader id _ => Some (id, BlockHeader)
  | RHeaders id _ _ _ => Some (id, BlockHeaders)
  | _ => None
  end.
Definition answers (idx : gmap N Request) (r : Response ScriptHash) : Prop :=
  ∀ id m, answer_of r = Some (id, m) → ∃ req, idx !! id = Some req ∧ method req = m.

Lemma parse_answer_method raw id req (r : Response ScriptHash) :
  json_id raw = Some id → parse_answer (method req) raw = Ret (Ok r) → ∀ id' m, answer_of r = Some (id', m) → id' = id ∧ method req = m.
Proof.
  intros Hid Hp id' m Ha. unfold parse_answer, parsed in Hp.
  destruct (method req) eqn:Em; repeat case_match; simplify_eq/=; try done; (split; [|done]);
    match goal with E : ?f raw = Some _ |- _ =>
      first [apply tx_get_id in E | apply sh_subscribe_id in E | apply sh_get_history_id in E
            | apply tx_get_merkle_id in E | apply header_id in E | apply headers_id in E] end; congruence.
Qed.

Lemma try_parse_answers raw idx r : try_parse raw idx = Ret (Ok r) → answers idx r.
Proof.
  unfold try_parse. intros Hp id m Ha. destruct (json_error raw) as [[]|]; [by simplify_eq|].
  destruct (json_header_notif raw) as [[]|]; [by simplify_eq|]. destruct (json_sh_notif raw) as [[? []]|]; [by simplify_eq|].
  destruct (json_id raw) as [i|] eqn:Ei; [|done]. destruct (idx !! i) as [req|] eqn:Er; [|done].
  destruct (parse_answer_method _ _ _ _ Ei Hp _ _ Ha) as [-> Hm]. by exists req.
Qed.

Lemma parse_batch_answers l idx rs : parse_batch l idx = Ret (Ok rs) → Forall (answers idx) rs.
Proof.
  revert rs. induction l as [|raw l IH]; intros rs; cbn; [by intros [= <-]|]. unfold qbind.
  destruct (try_parse raw idx) as [[r|]|] eqn:E; try done. destruct (parse_batch l idx) as [[rs'|]|]; try done.
  intros [= <-]. constructor; [by apply (try_parse_answers raw)|by apply IH].
Qed.

Lemma readable_answers idx rs : readable idx rs → Forall (answers idx) rs.
Proof.
  intros [raw Hr]. unfold parse_str_response in Hr. destruct (json_array raw) as [l|]; [by apply (parse_batch_answers l)|].
  unfold qbind in Hr. destruct (try_parse raw idx) as [[r|]|] eqn:E; try done. injection Hr as <-.
  constructor; [by apply (try_parse_answers raw)|constructor].
Qed.

(** A table of what the requests of one method are about. *)
Definition table_ok {X} (idx : gmap N Request) (m : Method) (p : X → Params) (tbl : gmap N X) : Prop :=
  ∀ id x, tbl !! id = Some x → ∀ req, idx !! id = Some req → method req = m → params req = p x.

Lemma table_insert {X} idx m (p : X → Params) tbl id x r :
  table_ok idx m p tbl → params r = p x → table_ok (<[id := r]> idx) m p (<[id := x]> tbl).
Proof.
  intros Ht Hp i y [[-> ->]|[Hne Hy]]%lookup_insert_Some req Hr Hm.
  - rewrite lookup_insert_eq in Hr. by simplify_eq.
  - rewrite lookup_insert_ne in Hr by done. by apply (Ht i y).
Qed.

Lemma table_other {X} idx m (p : X → Params) tbl id r : table_ok idx m p tbl → method r ≠ m → table_ok (<[id := r]> idx) m p tbl.
Proof.
  intros Ht Hne i y Hy req [[-> ->]|[_ Hr]]%lookup_insert_Some Hm; [done|by apply (Ht i y)].
Qed.

Lemma table_delete {X} idx m (p : X → Params) tbl id : table_ok idx m p tbl → table_ok idx m p (delete id tbl).
Proof. intros Ht i y [_ Hy]%lookup_delete_Some. by apply Ht. Qed.

Lemma table_empty {X} idx m (p : X → Params) : table_ok idx m p ∅.
Proof. by intros ?? ?%lookup_empty_Some. Qed.
End answers.

(** ** The transaction listener does not mix up its answers *)

Section tx_answers.
Context `{WireLib, !WireLaws} `{HeaderLib} `{HexLib} {W : Type} `{Socket W} `{!ClientLib W}.
Abbreviation heard_list := (list (option Request * Response ScriptHash)).
Abbreviation environment := (Env (W:=W) TxState Listener.CoinResponse).

(** A message says what was heard in answer to the request for the very thing it names. *)
Definition status_heard (log : heard_list) (spk : script) (status : option string) : Prop :=
  (∃ id, (Some (with_id id (subscribe_sh spk)), SHSubscribe id status) ∈ log) ∨
  (∃ o, (o, SHNotification (script_hash spk) status) ∈ log).
Definition history_heard (log : heard_list) (spk : script) (h : list (Txid * option N)) : Prop :=
  ∃ id hist, (Some (with_id id (sh_get_history spk)), SHGetHistory id hist) ∈ log ∧ h = history_entry <$> hist.
Definition tx_heard (log : heard_list) (tx : Transaction) : Prop :=
  ∃ id r hex, (Some r, TxGet id (Raw hex)) ∈ log ∧ method r = TransactionGet ∧ tx_from_hex hex = Some tx.
Definition header_heard (log : heard_list) (height : N) (h : HeaderValidator.Header) : Prop :=
  ∃ id raw, (Some (with_id id (header height)), RHeader id raw) ∈ log ∧ header_from_hex raw = Some h.
Definition proof_heard (log : heard_list) (txid : Txid) (height : N) (res : GetMerkleResult) : Prop :=
  ∃ id, (Some (with_id id (tx_get_merkle txid height)), TxGetMerkle id res) ∈ log.
Definition justified (log : heard_list) (m : Listener.CoinResponse) : Prop :=
  match m with
  | Listener.History m => ∀ spk h, m !! spk = Some h → history_heard log spk h
  | Listener.Status m => ∀ spk status, m !! spk = Some status → status_heard log spk status
  | Listener.Txs l => Forall (tx_heard log) l
  | Listener.Headers m => ∀ height h, m !! height = Some h → header_heard log height h
  | Listener.TxMerkle txid height branch pos =>
      ∃ res, proof_heard log txid height res ∧ decode_tx_merkle_branch (merkle res) = Some branch ∧ pos = tx_pos res mod 2 ^ 32
  | Listener.Error (Listener.MerkleDecode txid height) =>
      ∃ res, proof_heard log txid height res ∧ decode_tx_merkle_branch (merkle res) = None
  | Listener.Error (Listener.HeaderDecode height) =>
      ∃ id raw, (Some (with_id id (header height)), RHeader id raw) ∈ log ∧ header_from_hex raw = None
  | _ => True
  end.

(** The tables of a state say what the requests in the index are about. *)
Record tx_tables (idx : gmap N Request) (s : TxState) : Prop := {
  index_ids id r : idx !! id = Some r → req_id r = id;
  spk_table : table_ok idx ScriptHashGetHistory (λ spk, PScriptHashGetHistory (script_hash spk)) (req_id_spk s);
  merkle_table : table_ok idx TransactionGetMerkle (λ p, PTransactionGetMerkle p.1 p.2) (req_id_tx_merkle s);
  header_table : table_ok idx BlockHeader PBlockHeader (req_id_header s);
  watch_table : table_ok idx ScriptHashSubscribe PScriptHashSubscribe (watched_spks_sh s);
  hash_table sh spk : sh_spk s !! sh = Some spk → script_hash spk = sh
}.
Record batch_ok (log : heard_list) (b : TxBatch) : Prop := {
  statuses_ok spk status : statuses b !! spk = Some status → status_heard log spk status;
  txs_ok : Forall (tx_heard log) (txs b);
  histories_ok spk h : histories b !! spk = Some h → history_heard log spk h;
  batch_headers_ok height h : batch_headers b !! height = Some h → header_heard log height h;
  trailing_ok : Forall (justified log) (trailing b)
}.

Lemma batch_ok_default log : batch_ok log tx_batch_default.
Proof. split; try done. Qed.

Lemma request_is id (r q : Request) :
  req_id r = id → method r = method q → params r = params q → r = with_id id q.
Proof. destruct r, q. cbn. by intros -> -> ->. Qed.

Lemma add_trailing_ok log m b : justified log m → batch_ok log b → batch_ok log (add_trailing m b).
Proof. intros Hm [Hs Ht Hh Hhd Htr]. split; try done. apply Forall_app. auto. Qed.

Lemma table_request {X} idx m (p : X → Params) tbl id x (q : Request) :
  (∀ id r, idx !! id = Some r → req_id r = id) → table_ok idx m p tbl → tbl !! id = Some x →
  (∃ req, idx !! id = Some req ∧ method req = m) → method q = m → params q = p x → idx !! id = Some (with_id id q).
Proof.
  intros Hids Ht Hx (req & Hr & Hm) Hqm Hqp. rewrite Hr. f_equal. apply request_is; [by apply Hids|congruence|].
  rewrite Hqp. by apply (Ht id x).
Qed.

Lemma forget_tables idx s id : tx_tables idx s →
  tx_tables idx (forget_spk id s) ∧ tx_tables idx (forget_merkle id s) ∧ tx_tables idx (forget_header id s).
Proof. intros [Hids Hspk Hmk Hhd Hw Hsh]. split_and!; split; cbn; try done; by apply table_delete. Qed.

(** What an answer is heard as, when a table knows its id. *)
Lemma heard_as {X} (log : heard_list) idx m (p : X → Params) tbl id x (q : Request) r :
  (∀ id r, idx !! id = Some r → req_id r = id) → table_ok idx m p tbl → tbl !! id = Some x →
  answers idx r → hear idx r ∈ log → answer_of r = Some (id, m) → response_id r = Some id →
  method q = m → params q = p x → (Some (with_id id q), r) ∈ log.
Proof.
  intros Hids Ht Hx Ha Hl Hr Hi Hqm Hqp. unfold hear in Hl. rewrite Hi in Hl. cbn in Hl.
  by rewrite (table_request _ _ _ _ _ _ q Hids Ht Hx (Ha _ _ Hr) Hqm Hqp) in Hl.
Qed.

Lemma insert_ok {K X} `{Countable K} (P : K → X → Prop) (m : gmap K X) k x :
  P k x → (∀ k x, m !! k = Some x → P k x) → ∀ k' x', <[k := x]> m !! k' = Some x' → P k' x'.
Proof. intros Hp Hm k' x' [[-> ->]|[_ Hk]]%lookup_insert_Some; [done|by apply Hm]. Qed.

Lemma handle_tx_response_ok log idx s b r :
  tx_tables idx s → batch_ok log b → answers idx r → hear idx r ∈ log →
  tx_tables idx (handle_tx_response (s, b) r).1 ∧ batch_ok log (handle_tx_response (s, b) r).2.
Proof.
  intros Hs Hb Ha Hl. pose proof Hs as [Hids Hspk Hmk Hhd Hw Hsh]. pose proof Hb as [Bs Bt Bh Bd Btr].
  destruct r as [| |sh status| | |id raw| | |id [hex|]|id status| | |id hist| | |id e| | | | | | |id res| |]; cbn [handle_tx_response]; try done.
  - destruct (sh_spk s !! sh) as [spk|] eqn:E; [|done]. split; [done|]. split; try done. apply insert_ok; [|done].
    right. exists None. by rewrite (Hsh _ _ E).
  - destruct (req_id_header s !! id) as [height|] eqn:E; [|done].
    pose proof (heard_as log idx _ _ _ id height (header height) _ Hids Hhd E Ha Hl eq_refl eq_refl eq_refl eq_refl) as Hlog.
    split; [by apply forget_tables|]. cbn. destruct (header_from_hex raw) as [h|] eqn:Eh.
    + split; try done. apply insert_ok; [by exists id, raw|done].
    + apply add_trailing_ok; [by exists id, raw|done].
  - cbn. split; [done|]. destruct (tx_from_hex hex) as [tx|] eqn:Et; [|by apply add_trailing_ok].
    split; try done. cbn. apply Forall_app. split; [done|]. apply Forall_singleton.
    destruct (Ha id TransactionGet eq_refl) as (req & Hr & Hm). unfold hear in Hl. cbn in Hl. rewrite Hr in Hl. by exists id, req, hex.
  - destruct (watched_spks_sh s !! id) as [sh|] eqn:E; [|done]. destruct (sh_spk s !! sh) as [spk|] eqn:E2; [|done].
    split; [done|]. split; try done. apply insert_ok; [|done]. left. exists id.
    apply (heard_as log idx _ _ _ id sh (subscribe_sh spk) _ Hids Hw E Ha Hl eq_refl eq_refl eq_refl). cbn. by rewrite (Hsh _ _ E2).
  - destruct (req_id_spk s !! id) as [spk|] eqn:E; [|done]. split; [by apply forget_tables|]. split; try done.
    apply insert_ok; [|done]. exists id, hist. split; [|done].
    by apply (heard_as log idx _ _ _ id spk (sh_get_history spk) _ Hids Hspk E Ha Hl).
  - destruct (req_id_tx_merkle s !! id) as [[txid height]|]; [split; [by apply forget_tables|by apply add_trailing_ok]|].
    destruct (req_id_header s !! id) as [height|]; [split; [by apply forget_tables|by apply add_trailing_ok]|].
    split; [done|by apply add_trailing_ok].
  - destruct (req_id_tx_merkle s !! id) as [[txid height]|] eqn:E; [|done]. split; [by apply forget_tables|].
    pose proof (heard_as log idx _ _ _ id (txid, height) (tx_get_merkle txid height) _ Hids Hmk E Ha Hl eq_refl eq_refl eq_refl eq_refl) as Hlog.
    cbn. destruct (decode_tx_merkle_branch (merkle res)) as [branch|] eqn:Ed; apply add_trailing_ok; try done; exists res;
      (split; [by exists id|done]).
Qed.

Lemma handle_tx_fold_ok log idx rs s b :
  tx_tables idx s → batch_ok log b → Forall (answers idx) rs → Forall (λ r, hear idx r ∈ log) rs →
  tx_tables idx (foldl handle_tx_response (s, b) rs).1 ∧ batch_ok log (foldl handle_tx_response (s, b) rs).2.
Proof.
  intros Hs Hb Ha Hl. revert s b Hs Hb Hl. induction Ha as [|r rs Hr _ IH]; intros s b Hs Hb Hl; [done|]. cbn [foldl].
  inversion Hl as [|? ? Hl1 Hl2]; subst. destruct (handle_tx_response_ok log idx s b r Hs Hb Hr Hl1) as [Hs1 Hb1].
  destruct (handle_tx_response (s, b) r) as [s1 b1]. by apply IH.
Qed.

Lemma drain_batch_ok log b : batch_ok log b → Forall (justified log) (drain_batch b).
Proof.
  intros [Bs Bt Bh Bd Btr]. unfold drain_batch. repeat apply Forall_app_2; [..|done].
  - case_bool_decide; [done|]. by apply Forall_singleton.
  - case_bool_decide; [done|]. by apply Forall_singleton.
  - destruct (txs b) eqn:E; [done|]. apply Forall_singleton. cbn. congruence.
  - case_bool_decide; [done|]. by apply Forall_singleton.
Qed.

Lemma justified_mono log log' m : log ⊆ log' → justified log m → justified log' m.
Proof.
  intros Hsub Hm. destruct m as [m|m|l|txid height branch pos|m| |e]; cbn in *; try done.
  - intros spk st Hk. destruct (Hm _ _ Hk) as [(id & ?)|(o & ?)]; [left; exists id|right; exists o]; by apply Hsub.
  - intros spk h Hk. destruct (Hm _ _ Hk) as (id & hist & ? & ->). exists id, hist. split; [by apply Hsub|done].
  - eapply Forall_impl; [exact Hm|]. intros tx (id & r & hex & ? & ? & ?). exists id, r, hex. split; [by apply Hsub|done].
  - destruct Hm as (res & (id & ?) & ? & ->). exists res. split; [exists id; by apply Hsub|done].
  - intros height h Hk. destruct (Hm _ _ Hk) as (id & raw & ? & ?). exists id, raw. split; [by apply Hsub|done].
  - destruct e; try done; [destruct Hm as (res & (id & ?) & ?)|destruct Hm as (id & raw & ? & ?)].
    + exists res. split; [exists id; by apply Hsub|done].
    + exists id, raw. split; [by apply Hsub|done].
Qed.

(** The invariant: the tables, and what the consumer was told. *)
Definition tx_sound (log : heard_list) (e : environment) : Prop :=
  tx_tables (index (client e)) (state e) ∧ Forall (justified log) (told e).

Lemma tx_sound_told log (e e' : environment) m :
  tx_sound log e → index (client e') = index (client e) → state e' = state e → told e' = told e ∨ told e' = told e ++ [m] →
  justified log m → tx_sound log e'.
Proof.
  intros [Ht Hm] Ei Es Et Hj. split; [by rewrite Ei, Es|]. destruct Et as [-> | ->]; [done|].
  apply Forall_app. split; [done|by apply Forall_singleton].
Qed.

Lemma register_each_sound {X} log (req : X → Request) note l (e e' : environment) r :
  (∀ idx s id x, tx_tables idx s → tx_tables (<[id := with_id id (req x)]> idx) (note id x s)) →
  tx_sound log e → register_each req note l e = Some (Ret (e', r)) → tx_sound log e'.
Proof.
  intros Hn. revert e e' r. induction l as [|x l IH]; intros e e' r He; cbn [register_each]; [by intros [= <- <-]|].
  unfold abind at 1. rewrite register_request_spec. unfold abind at 1, set_state, aput. cbn [client state told req_id with_id].
  unfold abind, aret. intros Hr.
  match type of Hr with context [register_each req note l ?e1] => set (e2 := e1) in * end.
  assert (tx_sound log e2) as He2 by (destruct He as [Ht Hm]; split; [by apply Hn|done]).
  destruct (register_each req note l e2) as [[[e3 [rs|[]]]|]|] eqn:E; try done. injection Hr as <- <-. by apply (IH _ _ _ He2 E).
Qed.

Lemma send_batch_sound log open batch (e e' : environment) r :
  tx_sound log e → send_batch open batch e = Some (Ret (e', r)) → tx_sound log e'.
Proof.
  intros He. unfold send_batch. destruct batch as [|q batch]; [by intros [= <- <-]|]. unfold abind, aret. intros Hr.
  destruct (send_batch_with_retry _ _ _ _) as [[[e1 [x|[]]]|]|] eqn:E; try done. injection Hr as <- <-.
  apply send_batch_with_retry_spec in E as (Ei & _ & Es & Et).
  apply (tx_sound_told log e e1 (Listener.Error Listener.Send)); [done..| |done]. destruct Et as [?|[? ?]]; auto.
Qed.

Lemma insert_ids (idx : gmap N Request) id q :
  (∀ id r, idx !! id = Some r → req_id r = id) → ∀ i r, <[id := with_id id q]> idx !! i = Some r → req_id r = i.
Proof. intros Hids i r [[<- <-]|[_ Hr]]%lookup_insert_Some; [done|by apply Hids]. Qed.

(** A request of one method leaves the tables of the others as they are. *)
Ltac tables := intros idx s id x [Hids Hspk Hmk Hhd Hw Hsh]; split; cbn;
  [by apply insert_ids | first [by apply table_insert | by apply table_other].. | try done].

#[export] Instance tx_keeps : Keeps tx_sound.
Proof.
  split.
  - intros log c c' s m [Ht Hm] Ei. split; [|done]. cbn in *. by rewrite Ei.
  - intros log e e' r [Ht Hm]. rewrite register_request_spec. intros [= <- <-]. split; [|done].
    assert (∀ idx s id (x : unit), tx_tables idx s → tx_tables (<[id := with_id id ping]> idx) s) as Hping by tables.
    by apply (Hping _ _ _ tt).
  - intros log c s m x [Ht Hm]. split; [done|]. apply Forall_app. split; [done|by apply Forall_singleton].
  - intros log open rq e e' r He. cbn [dispatch tx_handler]. unfold dispatch_tx.
    assert (∀ X (req : X → Request) note l,
      (∀ idx s id x, tx_tables idx s → tx_tables (<[id := with_id id (req x)]> idx) (note id x s)) →
      (let* batch := register_each req note l in send_batch open batch) e = Some (Ret (e', r)) → tx_sound log e') as Hgo.
    { intros X req note l Hn Hr. unfold abind in Hr. destruct (register_each req note l e) as [[[e1 [b|[]]]|]|] eqn:E; try done.
      apply (register_each_sound _ _ _ _ _ _ _ Hn He) in E. by apply (send_batch_sound _ _ _ _ _ _ E) in Hr. }
    destruct rq as [spks|spks|txids|txid height|heights|]; [apply Hgo; tables.. |].
    + intros sh spk [[<- <-]|[_ Hk]]%lookup_insert_Some; [done|by apply Hsh].
    + unfold abind, tell, aret. intros [= <- <-]. destruct open; [|done].
      by apply (tx_sound_told log e _ Listener.Stopped); [| | |right|].
  - intros log open rs e e' r He Hrs. cbn [handle tx_handler]. unfold handle_tx_responses, abind at 1, aget.
    set (log' := log ++ (hear (index (client e)) <$> rs)). destruct He as [Ht Hm].
    destruct (handle_tx_fold_ok log' (index (client e)) rs (state e) tx_batch_default Ht (batch_ok_default _)) as [Ht' Hb'].
    { by apply readable_answers. }
    { apply Forall_forall. intros x Hx. apply elem_of_app. right. by apply list_elem_of_fmap_2. }
    destruct (foldl handle_tx_response (state e, tx_batch_default) rs) as [s' b']. cbn [fst snd] in *.
    unfold abind, set_state, aput. intros Hr. apply tell_all_spec in Hr as (Ec & Es & k & Ek). cbn in Ec, Es, Ek.
    split; [by rewrite Ec, Es|]. rewrite Ek. apply Forall_app. split.
    + eapply Forall_impl; [exact Hm|]. intros m. apply justified_mono. intros x Hx. apply elem_of_app. by left.
    + apply Forall_take. by apply drain_batch_ok.
Qed.

(** C17. Whatever the server sends, in whatever order, late, twice or unasked, each entry of each
    message the listener passes on is the content of a response read under the id of the
    request this client made for that very script, transaction proof or height; only the
    content is taken on the server's word. A script's status may also come from a
    notification of its hash. *)
Theorem answers_not_mixed_up buffer_size fuel turns c now th b :
  index c = ∅ → listen_txs buffer_size fuel turns c now = Some (Ret (th, b)) →
  Forall (justified (heard buffer_size fuel turns (started c tx_state_default now))) (told (env th)).
Proof.
  intros Hc Hr. eapply (run_keeps tx_sound []); [|exact Hr]. split; [|done]. cbn. rewrite Hc.
  split; cbn; [by intros ?? ?%lookup_empty_Some|apply table_empty..|by intros ?? ?%lookup_empty_Some].
Qed.
End tx_answers.

(** ** The header listener does not either *)

Section header_answers.
Context `{WireLib, !WireLaws} `{HexLib} {W : Type} `{Socket W} `{!ClientLib W}.
Abbreviation heard_list := (list (option Request * Response ScriptHash)).
Abbreviation environment := (Env (W:=W) HeaderState HeaderWorker.HeaderResponse).

(** A header the server gave, under the height it gave. *)
Definition tip_heard (log : heard_list) (height : N) (raw : HeaderValidator.raw_header) : Prop :=
  ∃ o r hd, (o, r) ∈ log ∧
    match r with
    | HeaderNotif (SingleHeader _ h) => h = hd
    | HeaderNotif (HeaderBatch hs) | BatchHeaderNotif hs => hd ∈ hs
    | _ => False
    end ∧ decode_header_hex (raw_header hd) = Some raw ∧ height = hd_height hd mod 2 ^ 32.
Definition headers_heard (log : heard_list) (start : N) (hex : string) : Prop :=
  ∃ id count n max, (Some (with_id id (headers start count)), RHeaders id n hex max) ∈ log.
Definition header_justified (log : heard_list) (m : HeaderWorker.HeaderResponse) : Prop :=
  match m with
  | HeaderWorker.Tip height raw | HeaderWorker.HeaderAt height raw => tip_heard log height raw
  | HeaderWorker.Batch start raws => ∃ hex, headers_heard log start hex ∧ chunk_raw_headers hex = Some raws
  | HeaderWorker.Error (HeaderWorker.EGetHeadersDecode start) => ∃ hex, headers_heard log start hex ∧ chunk_raw_headers hex = None
  | _ => True
  end.

Record header_tables (idx : gmap N Request) (s : HeaderState) : Prop := {
  header_ids id r : idx !! id = Some r → req_id r = id;
  starts_table id start : get_headers_starts s !! id = Some start →
    ∀ req, idx !! id = Some req → method req = BlockHeaders → ∃ count, params req = PBlockHeaders start count
}.

Lemma notified_ok log o r hs :
  (o, r) ∈ log → (r = HeaderNotif (HeaderBatch hs) ∨ r = BatchHeaderNotif hs) → Forall (header_justified log) (notified hs).
Proof.
  intros Hl Hr. assert (∀ l, l ⊆ hs → Forall (header_justified log) (notified l)) as Hgo; [|by apply Hgo].
  induction l as [|h l IH]; intros Hsub; cbn; [done|].
  destruct (decode_header_hex (raw_header h)) as [raw|] eqn:E; [|by apply Forall_singleton].
  constructor; [|apply IH; intros x Hx; apply Hsub; by right].
  exists o, r, h. split; [done|]. split; [|done]. assert (h ∈ hs) by (apply Hsub; by left). by destruct Hr as [-> | ->].
Qed.

Lemma handle_header_response_ok log idx s r :
  header_tables idx s → answers idx r → hear idx r ∈ log →
  header_tables idx (handle_header_response s r).1 ∧ Forall (header_justified log) (handle_header_response s r).2.
Proof.
  intros Hs Ha Hl. pose proof Hs as [Hids Htab]. unfold hear in Hl.
  assert (∀ id, header_tables idx (mkHeaderState (subscribe_id s) (delete id (get_headers_starts s)))) as Hdel.
  { intros id. split; [done|]. cbn. intros id' start [_ Hk]%lookup_delete_Some. by apply Htab. }
  destruct r as [[id h|hs]|hs| | | | |id n hex max| | | | | | | | |id e| | | | | | | | |]; cbn [handle_header_response]; try (by split).
  - split; [done|]. apply Forall_singleton. destruct (decode_header_hex (raw_header h)) as [raw|] eqn:E; [|done].
    case_bool_decide; by eexists _, _, h.
  - split; [done|]. eapply notified_ok; [exact Hl|by left].
  - split; [done|]. eapply notified_ok; [exact Hl|by right].
  - destruct (get_headers_starts s !! id) as [start|] eqn:E; [|by split]. split; [apply Hdel|]. apply Forall_singleton.
    assert (headers_heard log start hex) as Hh.
    { destruct (Ha id BlockHeaders eq_refl) as (req & Hr & Hm). destruct (Htab _ _ E _ Hr Hm) as [count Hp]. cbn in Hl. rewrite Hr in Hl.
      exists id, count, n, max. by rewrite <-(request_is id req (headers start count) (Hids _ _ Hr) Hm Hp). }
    destruct (chunk_raw_headers hex) eqn:Ec; by exists hex.
  - destruct (get_headers_starts s !! id); (split; [by try apply Hdel|by apply Forall_singleton]).
Qed.

Lemma header_justified_mono log log' m : log ⊆ log' → header_justified log m → header_justified log' m.
Proof.
  intros Hsub Hm.
  assert (∀ height raw, tip_heard log height raw → tip_heard log' height raw) as Ht.
  { intros height raw (o & r & hd & Hl & Hr). exists o, r, hd. split; [by apply Hsub|done]. }
  assert (∀ start hex, headers_heard log start hex → headers_heard log' start hex) as Hh.
  { intros start hex (id & count & n & max & Hl). exists id, count, n, max. by apply Hsub. }
  destruct m as [height raw|height raw|start raws| | |e]; cbn in *; try done; [by apply Ht..|naive_solver|].
  destruct e; try done. naive_solver.
Qed.

Definition header_sound (log : heard_list) (e : environment) : Prop :=
  header_tables (index (client e)) (state e) ∧ Forall (header_justified log) (told e).

Lemma header_tables_insert idx s id req (upd : HeaderState → HeaderState) :
  header_tables idx s → method req ≠ BlockHeaders → get_headers_starts (upd s) = get_headers_starts s →
  header_tables (<[id := with_id id req]> idx) (upd s).
Proof.
  intros [Hids Htab] Hne Hu. split; [by apply insert_ids|]. rewrite Hu.
  intros i start Hi r [[-> <-]|[_ Hr]]%lookup_insert_Some Hm; [done|by apply (Htab i start)].
Qed.

Lemma header_sound_told log (e e' : environment) m :
  header_sound log e → index (client e') = index (client e) → state e' = state e → told e' = told e ∨ told e' = told e ++ [m] →
  header_justified log m → header_sound log e'.
Proof.
  intros [Ht Hm] Ei Es Et Hj. split; [by rewrite Ei, Es|]. destruct Et as [-> | ->]; [done|].
  apply Forall_app. split; [done|by apply Forall_singleton].
Qed.

Lemma send_one_header_sound {A} log open req (d : bool → A) (e e' : environment) r :
  header_sound log e →
  (let* sent := send_batch_with_retry open [req] (λ _, HeaderWorker.Error HeaderWorker.EOther) in aret (d sent)) e = Some (Ret (e', r)) →
  header_sound log e'.
Proof.
  intros He. unfold abind, aret. intros Hr.
  destruct (send_batch_with_retry _ _ _ _) as [[[e1 [x|[]]]|]|] eqn:E; try done. injection Hr as <- <-.
  apply send_batch_with_retry_spec in E as (Ei & _ & Es & Et).
  apply (header_sound_told log e e1 (HeaderWorker.Error HeaderWorker.EOther)); [done..| |done]. destruct Et as [?|[? ?]]; auto.
Qed.

Lemma handle_headers_ok log idx open rs (e e' : environment) r :
  header_sound log e → index (client e) = idx → Forall (answers idx) rs → Forall (λ r, hear idx r ∈ log) rs →
  handle_header_responses open rs e = Some (Ret (e', r)) → header_sound log e'.
Proof.
  intros He Hi Ha. revert e He Hi. induction Ha as [|x rs Hx _ IH]; intros e He Hi Hl; cbn [handle_header_responses]; [by intros [= <- <-]|].
  inversion Hl as [|? ? Hl1 Hl2]; subst. destruct He as [Ht Hm].
  destruct (handle_header_response_ok log _ (state e) x Ht Hx Hl1) as [Ht1 Ho]. unfold abind at 1, aget.
  destruct (handle_header_response (state e) x) as [s1 out]. cbn [fst snd] in *.
  unfold abind at 1, set_state, aput. unfold abind at 1. intros Hr.
  destruct (tell_all open out _) as [[[e1 [go|[]]]|]|] eqn:E; try done. apply tell_all_spec in E as (Ec & Es & k & Ek). cbn in Ec, Es, Ek.
  assert (header_sound log e1) as He1.
  { split; [by rewrite Ec, Es|]. rewrite Ek. apply Forall_app. split; [done|by apply Forall_take]. }
  destruct go; [|by injection Hr as <- <-]. apply (IH e1 He1); [by rewrite Ec|done|done].
Qed.

#[export] Instance header_keeps : Keeps header_sound.
Proof.
  split.
  - intros log c c' s m [Ht Hm] Ei. split; [|done]. cbn in *. by rewrite Ei.
  - intros log e e' r [Ht Hm]. rewrite register_request_spec. intros [= <- <-]. split; [|done]. by apply (header_tables_insert _ _ _ _ id).
  - intros log c s m x [Ht Hm]. split; [done|]. apply Forall_app. split; [done|by apply Forall_singleton].
  - intros log open rq e e' r He. cbn [dispatch header_handler]. destruct rq as [|start count| |]; cbn [dispatch_header].
    + unfold abind at 1, aget. case_bool_decide; [by intros [= <- <-]|]. unfold abind at 1. rewrite register_request_spec.
      unfold abind at 1, set_state, aput. cbn [client state told req_id with_id]. apply (send_one_header_sound log open _ (λ sent : bool, if sent then Empty else Terminate)).
      destruct He as [Ht Hm]. split; [|done]. cbn.
      by apply (header_tables_insert _ _ _ subscribe_headers (λ s, mkHeaderState (Some (fresh_id e)) (get_headers_starts s))).
    + unfold abind at 1. rewrite register_request_spec. unfold abind at 1, set_state, aput. cbn [client state told].
      apply (send_one_header_sound log open _ (λ sent : bool, if sent then Sent _ else Terminate)).
      destruct He as [[Hids Htab] Hm]. split; [|done]. split; cbn; [by apply insert_ids|].
      intros i st [[<- <-]|[Hne Hk]]%lookup_insert_Some rq Hrq Hmth.
      * rewrite lookup_insert_eq in Hrq. injection Hrq as <-. by exists count.
      * rewrite lookup_insert_ne in Hrq by done. by apply (Htab i st).
    + unfold abind, tell, aret. intros [= <- <-]. destruct open; [|done]. by apply (header_sound_told log e _ HeaderWorker.Woken); [| | |right|].
    + unfold abind, tell, aret. intros [= <- <-]. destruct open; [|done]. by apply (header_sound_told log e _ HeaderWorker.Stopped); [| | |right|].
  - intros log open rs e e' r [Ht Hm] Hrs. cbn [handle header_handler].
    apply (handle_headers_ok _ (index (client e))); [|done|by apply readable_answers|].
    + split; [done|]. eapply Forall_impl; [exact Hm|]. intros m. apply header_justified_mono. intros x Hx. apply elem_of_app. by left.
    + apply Forall_forall. intros x Hx. apply elem_of_app. right. by apply list_elem_of_fmap_2.
Qed.

(** The same of headers: a batch carries the start it was asked from, a header its height. *)
Theorem headers_not_mixed_up buffer_size fuel turns c now th b :
  index c = ∅ → listen_headers buffer_size fuel turns c now = Some (Ret (th, b)) →
  Forall (header_justified (heard buffer_size fuel turns (started c header_state_default now))) (told (env th)).
Proof.
  intros Hc Hr. eapply (run_keeps header_sound []); [|exact Hr]. split; [|done]. cbn. rewrite Hc.
  split; cbn; by intros ?? ?%lookup_empty_Some.
Qed.
End header_answers.

(** ** A batch gets its answers *)

(** A server that answers a batch of history requests with lines, each the answers to some
    of them, in any order and grouped as it likes. *)
Definition history_request `{WireLib} (p : N * script) : Request := with_id p.1 (sh_get_history p.2).
Class BatchServer {W : Type} `{Server W buffer_size} := {
  answer_batch : list Request → list (list N);
  answer_batch_lines l : Forall (λ line, newline ∉ line) (answer_batch l);
  sk_write_batch_law l j w : json_of_batch l = Some j →
    ∃ w1 w2, sk_write j w = (w1, true) ∧ sk_write [newline] w1 = (w2, true) ∧ unread w2 = unread w ++ of_lines (answer_batch l);
  answer_histories_law (l : list (N * script)) : NoDup l.*1 →
    is_Some (json_of_batch (history_request <$> l)) ∧
    ∃ parts, concat parts ≡ₚ l ∧ ∀ idx, (∀ p, p ∈ l → idx !! p.1 = Some (history_request p)) →
      Forall2 (λ line part, parse_str_response (text_of line) idx = Ret (Ok ((λ p, SHGetHistory p.1 (history p.2)) <$> part)))
        (answer_batch (history_request <$> l)) parts
}.

Section service.
Context {W : Type} `{BatchServer W buffer_size} `{HeaderLib} `{HexLib} {fuel : nat}.
Abbreviation environment := (Env (W:=W) TxState Listener.CoinResponse).
Abbreviation thread := (Thread (W:=W) Listener.CoinRequest Listener.CoinResponse TxState).
Implicit Types (e : environment) (th : thread) (p : N * script).

(** The ids that [register] gives to a list. *)
Fixpoint number (last : N) (spks : list script) : list (N * script) :=
  match spks with
  | [] => []
  | spk :: spks => (last + 1, spk) :: number (last + 1) spks
  end.
Lemma number_above last spks p : p ∈ number last spks → last < p.1.
Proof.
  revert last. induction spks as [|spk spks IH]; intros last; cbn; [by intros ?%elem_of_nil|].
  intros [-> | Hp]%elem_of_cons; [cbn; lia|]. apply IH in Hp. lia.
Qed.
Lemma number_NoDup last spks : NoDup (number last spks).*1.
Proof.
  revert last. induction spks as [|spk spks IH]; intros last; cbn; [constructor|]. constructor; [|apply IH].
  intros (p & Hp & Hin)%list_elem_of_fmap. apply number_above in Hin. cbn in Hp. lia.
Qed.
Lemma number_scripts last spks : (number last spks).*2 = spks.
Proof. revert last. induction spks as [|spk spks IH]; intros last; cbn; [done|]. by rewrite IH. Qed.

(** Client and state know what the ids of a list are about. *)
Definition knows (l : list (N * script)) e : Prop :=
  ∀ p, p ∈ l → index (client e) !! p.1 = Some (history_request p) ∧ req_id_spk (state e) !! p.1 = Some p.2.

Lemma register_histories spks e : last_id (client e) + N.of_nat (length spks) < 2 ^ 64 →
  ∃ e', register_each sh_get_history note_history spks e =
      Some (Ret (e', Ok (history_request <$> number (last_id (client e)) spks))) ∧
    inner (client e') = inner (client e) ∧ told e' = told e ∧ knows (number (last_id (client e)) spks) e' ∧
    (∀ id, id ≤ last_id (client e) → index (client e') !! id = index (client e) !! id ∧ req_id_spk (state e') !! id = req_id_spk (state e) !! id).
Proof.
  revert e. induction spks as [|spk spks IH]; intros e Hl; cbn [register_each number fmap list_fmap].
  { exists e. split_and!; try done. by intros p ?%elem_of_nil. }
  unfold abind at 1. rewrite register_request_spec. unfold abind at 1, set_state, aput. cbn [client state told req_id with_id].
  assert (fresh_id e = last_id (client e) + 1) as Hid.
  { unfold fresh_id. rewrite N.mod_small; [done|]. cbn [length] in Hl. lia. }
  rewrite Hid. unfold abind at 1.
  match goal with |- context [register_each _ _ spks ?e1] => set (e2 := e1) end.
  destruct (IH e2) as (e3 & E & Ein & Et & Hk & Hold); [cbn [length] in Hl; cbn [e2 client last_id]; lia|].
  cbn [e2 client last_id state inner told] in *. rewrite E. exists e3. unfold aret. split_and!; [reflexivity|done..| |].
  - intros p [-> | Hp]%elem_of_cons; [|by apply Hk]. cbn [fst snd]. destruct (Hold (last_id (client e) + 1)) as [-> ->]; [lia|].
    cbn. by rewrite !lookup_insert_eq.
  - intros id Hid'. destruct (Hold id) as [-> ->]; [lia|]. cbn. by rewrite !lookup_insert_ne by lia.
Qed.

Lemma send_batch_served l e : l ≠ [] → is_Some (json_of_batch l) → unanswered (client e) = [] →
  ∃ e', send_batch true l e = Some (Ret (e', Ok (Sent l))) ∧ index (client e') = index (client e) ∧ state e' = state e ∧ told e' = told e ∧
    unanswered (client e') = of_lines (answer_batch l).
Proof.
  intros Hne [j Hj] Hu. unfold send_batch. destruct l as [|q l]; [done|]. set (batch := q :: l) in *.
  destruct (sk_write_batch_law batch j (stream (inner (client e))) Hj) as (w1 & w2 & E1 & E2 & Eu).
  unfold send_batch_with_retry, abind, with_client, send_with_retry, SEND_MAX_RETRIES. cbn [send_retrying]. unfold try_send_batch. rewrite Hj.
  unfold on_inner, send, write_all, abind. rewrite E1. cbn [stream buf]. rewrite E2. unfold aret.
  eexists. split; [reflexivity|]. cbn. split_and!; [done..|]. unfold unanswered, pending in *. cbn [inner stream buf].
  rewrite Eu, app_assoc. by rewrite Hu.
Qed.

(** What the histories of some ids make of a batch. *)
Definition entries (spk : script) : list (Txid * option N) := history_entry <$> history spk.
Definition history_answers (part : list (N * script)) : list (Response ScriptHash) := (λ p, SHGetHistory p.1 (history p.2)) <$> part.
Definition history_map (part : list (N * script)) (m : gmap script (list (Txid * option N))) : gmap script (list (Txid * option N)) :=
  foldl (λ m p, <[p.2 := entries p.2]> m) m part.

Lemma history_map_spec part m spk :
  (spk ∈ part.*2 → history_map part m !! spk = Some (entries spk)) ∧ (spk ∉ part.*2 → history_map part m !! spk = m !! spk).
Proof.
  revert m. induction part as [|p part IH]; intros m; cbn; [split; [by intros ?%elem_of_nil|done]|].
  destruct (IH (<[p.2 := entries p.2]> m)) as [Hin Hout]. rewrite elem_of_cons. split.
  - intros [-> | Hp]; [|by apply Hin]. destruct (decide (p.2 ∈ part.*2)) as [Hp|Hp]; [by apply Hin|].
    etrans; [by apply Hout|]. apply lookup_insert_eq.
  - intros Hn. etrans; [apply Hout|apply lookup_insert_ne]; intros ?; apply Hn; auto.
Qed.

Lemma handle_histories part s b :
  NoDup part.*1 → (∀ p, p ∈ part → req_id_spk s !! p.1 = Some p.2) →
  ∃ s', foldl handle_tx_response (s, b) (history_answers part) =
      (s', mkTxBatch (statuses b) (txs b) (history_map part (histories b)) (batch_headers b) (trailing b)) ∧
    ∀ id, id ∉ part.*1 → req_id_spk s' !! id = req_id_spk s !! id.
Proof.
  revert s b. induction part as [|p part IH]; intros s b Hnd Hs; cbn [history_answers fmap list_fmap foldl history_map].
  { exists s. by destruct b. }
  cbn in Hnd. apply NoDup_cons in Hnd as [Hp Hnd]. cbn [handle_tx_response]. rewrite (Hs p) by by left.
  destruct (IH (forget_spk p.1 s) (add_history p.2 (entries p.2) b) Hnd) as (s' & E & Hs').
  { intros q Hq. cbn. rewrite lookup_delete_ne; [by apply Hs; right|]. intros Eq. apply Hp. rewrite Eq. by apply list_elem_of_fmap_2. }
  exists s'. split; [exact E|]. intros id [Hid Hn]%not_elem_of_cons. rewrite Hs' by done. cbn. by rewrite lookup_delete_ne.
Qed.

(** A poll finds the first line or nothing, and loses nothing. *)
Lemma try_recv_line (c : Client _ W) line rest :
  unanswered c = line ++ newline :: rest → newline ∉ line → (length (unanswered c) < fuel)%nat →
  ∃ t, (pending t = unanswered c ∧ try_recv buffer_size fuel c = Some (Ret (mkClient t (index c) (last_id c), Ok None))) ∨
    (pending t = rest ∧ try_recv buffer_size fuel c =
      match parse_str_response (text_of line) (index c) with
      | Ret (Ok rs) => Some (Ret (mkClient t (index c) (last_id c), Ok (Some rs)))
      | Ret (Err e) => Some (Ret (mkClient t (index c) (last_id c), Err (Transport (EElectrum e))))
      | Panic => Some Panic
      end).
Proof.
  intros Hp Hn Hf. destruct (try_read_line_line fuel (inner c) line rest) as (t & r & E & Hr); [done..| |].
  { unfold unanswered, pending in Hf. rewrite length_app in Hf. lia. }
  exists t. unfold try_recv, abind, on_inner, aget, aret, ares. rewrite E. destruct Hr as [[-> Hr]|[-> Hr]].
  - right. split; [done|]. cbn [index]. by destruct parse_str_response as [[|]|].
  - left. by split.
Qed.
Lemma try_recv_idle (c : Client _ W) : unanswered c = [] → (0 < fuel)%nat →
  ∃ t, pending t = [] ∧ try_recv buffer_size fuel c = Some (Ret (mkClient t (index c) (last_id c), Ok None)).
Proof.
  intros Hp Hf. destruct (try_read_line_idle fuel (inner c) Hf Hp) as (t & E & Ht). exists t. split; [done|].
  unfold try_recv, abind, on_inner, aget, aret. by rewrite E.
Qed.

(** Nothing but the socket happens in a quiet turn. *)
Definition quiet (t0 : N) (t : Turn Listener.CoinRequest) : Prop :=
  open t = true ∧ gone t = false ∧ arrivals t = [] ∧ t0 ≤ now t ≤ t0 + STALL_RESEND_AFTER.
Definition timely (t0 : N) th : Prop := t0 + STALL_RESEND_AFTER - last_ping th < PING_INTERVAL ∧ t0 ≤ last_sent th.

Lemma quiet_before_read t0 t th : quiet t0 t → timely t0 th →
  before_read t th = next_request t th.
Proof.
  intros (_ & Hg & Ha & Hnow) [Hp Hs]. unfold before_read, ping_maybe.
  destruct (N.leb_spec PING_INTERVAL (now t - last_ping th)); [lia|]. cbn [and_then continue].
  assert (resend_maybe t th = continue th) as ->.
  { unfold resend_maybe. destruct (last_request th); [|done]. destruct (N.ltb_spec STALL_RESEND_AFTER (now t - last_sent th)); [lia|done]. }
  cbn [and_then continue]. unfold drain. rewrite Hg, Ha, app_nil_r. cbn [and_then continue]. by destruct th.
Qed.

(** A thread whose pending requests are those of [l], to be answered by [lines]. *)
Record awaiting (l : list (N * script)) (lines : list (list N)) (parts : list (list (N * script))) th : Prop := {
  aw_pending : last_request th = match l with [] => None | _ => Some (history_request <$> l) end;
  aw_inbox : inbox th = [];
  aw_nodup : NoDup l.*1;
  aw_perm : l ≡ₚ concat parts;
  aw_knows : knows l (env th);
  aw_unanswered : unanswered (client (env th)) = of_lines lines;
  aw_newlines : Forall (λ line, newline ∉ line) lines;
  aw_reads : Forall2 (λ line part, parse_str_response (text_of line) (index (client (env th))) = Ret (Ok (history_answers part))) lines parts
}.

Lemma filter_none {X} (P : X → Prop) `{!∀ x, Decision (P x)} (l : list X) : (∀ x, x ∈ l → ¬ P x) → filter P l = [].
Proof.
  induction l as [|x l IH]; intros Hl; [done|]. rewrite filter_cons_False by (apply Hl; by left). apply IH. intros y Hy. apply Hl. by right.
Qed.
Lemma filter_every {X} (P : X → Prop) `{!∀ x, Decision (P x)} (l : list X) : (∀ x, x ∈ l → P x) → filter P l = l.
Proof.
  induction l as [|x l IH]; intros Hl; [done|]. rewrite filter_cons_True by (apply Hl; by left). f_equal. apply IH. intros y Hy. apply Hl. by right.
Qed.

Lemma NoDup_filter_fst (P : N * script → Prop) `{!∀ x, Decision (P x)} (l : list (N * script)) : NoDup l.*1 → NoDup (filter P l).*1.
Proof.
  induction l as [|x l IH]; intros Hl; [done|]. cbn in Hl. apply NoDup_cons in Hl as [Hx Hl]. rewrite filter_cons. case_decide; [|by apply IH].
  cbn. constructor; [|by apply IH]. intros (y & Hy & [_ Hin]%list_elem_of_filter)%list_elem_of_fmap. apply Hx. rewrite Hy.
  by apply list_elem_of_fmap_2.
Qed.

Lemma settle_histories t l part rest th : NoDup l.*1 → l ≡ₚ part ++ rest →
  last_request th = match l with [] => None | _ => Some (history_request <$> l) end →
  ∃ l', l' ≡ₚ rest ∧ NoDup l'.*1 ∧ l' ⊆ l ∧
    last_request (settle t (history_answers part) th) = match l' with [] => None | _ => Some (history_request <$> l') end.
Proof.
  intros Hnd Hl Hp. set (keep := λ p : N * script, p.1 ∉ part.*1).
  assert (answered (history_answers part) = part.*1) as Han.
  { unfold answered, history_answers. clear. induction part as [|p part IH]; [done|]. cbn. by rewrite IH. }
  assert (filter keep l ≡ₚ rest) as Hf.
  { rewrite Hl, filter_app. rewrite Hl, fmap_app in Hnd. apply NoDup_app in Hnd as (_ & Hd & _).
    assert (filter keep part = []) as ->.
    { apply filter_none. intros p Hp' Hk. apply Hk. by apply list_elem_of_fmap_2. }
    cbn. assert (filter keep rest = rest) as ->; [|done].
    apply filter_every. intros p Hp' Hk. apply (Hd p.1 Hk). by apply list_elem_of_fmap_2. }
  exists (filter keep l). split; [done|]. split.
  { by apply NoDup_filter_fst. }
  split; [intros p [_ Hp']%list_elem_of_filter; done|].
  assert (filter (λ rq, req_id rq ∉ answered (history_answers part)) (history_request <$> l) = history_request <$> filter keep l) as Hfl.
  { rewrite Han. clear. induction l as [|p l IH]; [done|]. cbn [fmap list_fmap]. unfold keep in *.
    destruct (decide (p.1 ∉ part.*1)).
    - rewrite filter_cons_True by done. rewrite filter_cons_True by done. by rewrite IH.
    - rewrite filter_cons_False by done. rewrite filter_cons_False by done. done. }
  unfold settle. rewrite Hp. destruct l as [|p l]; [done|]. rewrite Hfl. by destruct (filter keep (p :: l)).
Qed.

(** What messages of histories say of the scripts of some requests. *)
Definition says (ms : list (gmap script (list (Txid * option N)))) (answered : list (N * script)) : Prop :=
  (∀ m spk h, m ∈ ms → m !! spk = Some h → spk ∈ answered.*2 ∧ h = entries spk) ∧
  (∀ spk, spk ∈ answered.*2 → ∃ m, m ∈ ms ∧ m !! spk = Some (entries spk)).
Lemma says_nil : says [] [].
Proof. split; [by intros ??? ?%elem_of_nil|by intros ? ?%elem_of_nil]. Qed.
Lemma says_app ms ms' l l' : says ms l → says ms' l' → says (ms ++ ms') (l ++ l').
Proof.
  intros [Ha1 Ha2] [Hb1 Hb2]. split.
  - intros m spk h [Hm|Hm]%elem_of_app Hk; rewrite fmap_app, elem_of_app; [destruct (Ha1 _ _ _ Hm Hk)|destruct (Hb1 _ _ _ Hm Hk)]; auto.
  - intros spk. rewrite fmap_app, elem_of_app. intros [Hs|Hs]; [destruct (Ha2 _ Hs) as (m & ? & ?)|destruct (Hb2 _ Hs) as (m & ? & ?)];
      exists m; rewrite elem_of_app; auto.
Qed.
Lemma says_part part : part ≠ [] → says [history_map part ∅] part ∧ history_map part ∅ ≠ ∅.
Proof.
  intros Hne. split; [split|].
  - intros m spk h ->%list_elem_of_singleton Hk. destruct (history_map_spec part ∅ spk) as [Hin Hout].
    destruct (decide (spk ∈ part.*2)) as [Hd|Hd]; [rewrite Hin in Hk by done; by simplify_eq|]. rewrite Hout, lookup_empty in Hk by done. done.
  - intros spk Hs. exists (history_map part ∅). split; [by apply list_elem_of_singleton|]. by apply history_map_spec.
  - destruct part as [|p part]; [done|]. intros E. destruct (history_map_spec (p :: part) ∅ p.2) as [Hin _].
    rewrite E, lookup_empty in Hin. by discriminate Hin; left.
Qed.

Lemma handle_history_answers part e :
  NoDup part.*1 → (∀ p, p ∈ part → req_id_spk (state e) !! p.1 = Some p.2) →
  ∃ e' ms, handle_tx_responses true (history_answers part) e = Some (Ret (e', Ok true)) ∧ client e' = client e ∧
    told e' = told e ++ (Listener.History <$> ms) ∧ says ms part ∧
    ∀ id, id ∉ part.*1 → req_id_spk (state e') !! id = req_id_spk (state e) !! id.
Proof.
  intros Hnd Hs. destruct (handle_histories part (state e) tx_batch_default Hnd Hs) as (s' & E & Hold).
  unfold handle_tx_responses, abind at 1, aget. rewrite E. unfold abind, set_state, aput. cbn [statuses txs batch_headers trailing tx_batch_default].
  destruct part as [|p part].
  { eexists _, []. split; [reflexivity|]. cbn. rewrite app_nil_r. split_and!; [done..|apply says_nil|done]. }
  destruct (says_part (p :: part)) as [Hsay Hne]; [done|]. cbn [histories] in *.
  unfold drain_batch. cbn [histories statuses txs batch_headers trailing]. rewrite bool_decide_eq_false_2 by done.
  eexists _, [history_map (p :: part) ∅]. split; [reflexivity|]. by split_and!.
Qed.

Definition progress (t0 : N) (l : list (N * script)) (lines : list (list N)) (parts : list (list (N * script))) th
    (o : option (outcome (thread * bool))) : Prop :=
  ∃ th' l' lines' taken parts' ms, o = continue th' ∧ parts = taken ++ parts' ∧ awaiting l' lines' parts' th' ∧ timely t0 th' ∧
    told (env th') = told (env th) ++ (Listener.History <$> ms) ∧ says ms (concat taken) ∧
    (length (of_lines lines') ≤ length (of_lines lines))%nat.

Lemma awaiting_client l lines parts th c :
  awaiting l lines parts th → index c = index (client (env th)) → unanswered c = of_lines lines →
  awaiting l lines parts (with_env (mkEnv c (state (env th)) (told (env th))) th).
Proof.
  intros [Hp Hi Hnd Hl Hk Hu Hn Hr] Ei Eu. split; cbn; try done; [|by rewrite Ei].
  intros p Hin. cbn. rewrite Ei. by apply Hk.
Qed.

Lemma settle_fields t rs th : env (settle t rs th) = env th ∧ inbox (settle t rs th) = inbox th ∧ last_ping (settle t rs th) = last_ping th ∧
  (last_sent (settle t rs th) = last_sent th ∨ last_sent (settle t rs th) = now t).
Proof.
  unfold settle. destruct (last_request th); [|by auto]. destruct filter; cbn; [by auto|].
  split_and!; [done..|]. case_match; auto.
Qed.

Lemma receive_awaiting t0 t l lines parts th :
  quiet t0 t → timely t0 th → awaiting l lines parts th → (length (of_lines lines) < fuel)%nat →
  progress t0 l lines parts th (receive buffer_size fuel t th).
Proof.
  intros (Ho & _ & _ & Hnow) Ht Ha Hf. pose proof Ha as [Hp Hi Hnd Hl Hk Hu Hn Hr]. unfold receive, do_env, with_client.
  inversion Hr as [|line part lines1 parts1 Hline Hr1]; subst lines parts.
  - destruct (try_recv_idle (client (env th)) Hu) as (t1 & Et & ->); [lia|]. cbn [env with_env].
    eexists _, l, [], [], [], []. split; [reflexivity|]. split_and!; [done|by apply awaiting_client|done| |apply says_nil|done].
    cbn. by rewrite app_nil_r.
  - inversion Hn as [|? ? Hn1 Hn2]; subst.
    destruct (try_recv_line (client (env th)) line (of_lines lines1)) as (t1 & [[Et ->]|[Et ->]]); [|done|by rewrite Hu| |].
    { rewrite Hu. unfold of_lines. cbn. by rewrite <-app_assoc. }
    + eexists _, l, (line :: lines1), [], (part :: parts1), []. split; [reflexivity|].
      split_and!; [done|apply awaiting_client; [done..|]|done| |apply says_nil|done]; [by rewrite <-Hu|]. cbn. by rewrite app_nil_r.
    + rewrite Hline. cbn [handle tx_handler]. set (th1 := with_env _ th). cbn [concat] in Hl.
      destruct (settle_histories t l part (concat parts1) th1 Hnd Hl Hp) as (l' & Hl' & Hnd' & Hsub & Hset).
      destruct (settle_fields t (history_answers part) th1) as (Ee & Ein & Elp & Els).
      set (th2 := settle t (history_answers part) th1) in *. rewrite Ho.
      pose proof Hnd as Hnd2. rewrite Hl, fmap_app in Hnd2. apply NoDup_app in Hnd2 as (Hnp & Hdis & _).
      destruct (handle_history_answers part (env th2)) as (e3 & ms & E3 & Ec & Eto & Hsay & Hold); [done| |].
      { intros p Hin. rewrite Ee. cbn. apply Hk. rewrite Hl. apply elem_of_app. by left. }
      unfold do_env. rewrite E3.
      eexists _, l', lines1, [part], parts1, ms. split; [reflexivity|]. split_and!; [done| | | | |].
      * split; cbn; [done|by rewrite Ein|done|done| |rewrite Ec, Ee; exact Et|done|by rewrite Ec, Ee].
        intros p Hin. rewrite Ec, Ee. cbn. rewrite Hold.
        -- rewrite Ee. cbn. apply Hk. by apply Hsub.
        -- intros Hd. apply (Hdis p.1 Hd). apply list_elem_of_fmap_2. by rewrite <-Hl'.
      * destruct Ht as [Ht1 Ht2]. split; cbn; [by rewrite Elp|]. destruct Els as [-> | ->]; [done|lia].
      * cbn. by rewrite Eto, Ee.
      * cbn. by rewrite app_nil_r.
      * unfold of_lines. cbn. rewrite length_app. lia.
Qed.

Lemma turn_awaiting t0 t l lines parts th :
  quiet t0 t → timely t0 th → awaiting l lines parts th → (length (of_lines lines) < fuel)%nat →
  progress t0 l lines parts th (turn buffer_size fuel t th).
Proof.
  intros Hq Ht Ha Hf. unfold turn. rewrite (quiet_before_read t0) by done.
  assert (next_request t th = continue th) as ->; [|by apply receive_awaiting].
  unfold next_request. rewrite (aw_inbox _ _ _ _ Ha). by destruct (last_request th).
Qed.

Lemma progress_trans t0 l lines parts th o (k : thread → option (outcome (thread * bool))) :
  progress t0 l lines parts th o →
  (∀ th' l' lines' parts', awaiting l' lines' parts' th' → timely t0 th' → (length (of_lines lines') ≤ length (of_lines lines))%nat →
    progress t0 l' lines' parts' th' (k th')) →
  progress t0 l lines parts th (and_then o k).
Proof.
  intros (th1 & l1 & lines1 & taken & parts1 & ms & -> & -> & Ha & Ht & Et & Hs & Hl) Hk.
  destruct (Hk _ _ _ _ Ha Ht Hl) as (th2 & l2 & lines2 & taken2 & parts2 & ms2 & E2 & -> & Ha2 & Ht2 & Et2 & Hs2 & Hl2).
  exists th2, l2, lines2, (taken ++ taken2), parts2, (ms ++ ms2). split; [exact E2|]. split_and!; try done.
  - by rewrite app_assoc.
  - by rewrite Et2, Et, fmap_app, app_assoc.
  - rewrite concat_app. by apply says_app.
  - lia.
Qed.

Lemma run_awaiting t0 turns l lines parts th :
  Forall (quiet t0) turns → timely t0 th → awaiting l lines parts th → (length (of_lines lines) < fuel)%nat →
  progress t0 l lines parts th (run_listener buffer_size fuel turns th).
Proof.
  intros Hq. revert l lines parts th. induction Hq as [|t turns Hq _ IH]; intros l lines parts th Ht Ha Hf; cbn [run_listener].
  - eexists th, l, lines, [], parts, []. split; [reflexivity|]. split_and!; [done..| |apply says_nil|done]. cbn. by rewrite app_nil_r.
  - apply progress_trans; [by apply turn_awaiting|]. intros th' l' lines' parts' Ha' Ht' Hl'. apply IH; [done..|lia].
Qed.

(** The first turn sends the request. *)
Lemma dispatch_awaits t0 t th spks :
  let l := number (last_id (client (env th))) spks in
  quiet t0 t → timely t0 th → last_request th = None → inbox th = [Listener.GetHistory spks] → spks ≠ [] →
  unanswered (client (env th)) = [] → last_id (client (env th)) + N.of_nat (length spks) < 2 ^ 64 →
  ∃ th' parts, before_read t th = continue th' ∧ awaiting l (answer_batch (history_request <$> l)) parts th' ∧ timely t0 th' ∧
    told (env th') = told (env th).
Proof.
  intros l Hq Ht Hlr Hin Hne Hu Hid. rewrite (quiet_before_read t0) by done. unfold next_request. rewrite Hlr, Hin. destruct Hq as (Ho & _ & _ & Hnow).
  destruct (register_histories spks (env th) Hid) as (e1 & E1 & Ein & Et & Hk & _). fold l in E1, Hk.
  pose proof (number_NoDup (last_id (client (env th))) spks) as Hnd. fold l in Hnd.
  destruct (answer_histories_law l Hnd) as (Hj & parts & Hparts & Hreads).
  destruct (send_batch_served (history_request <$> l) e1) as (e2 & E2 & Ei2 & Es2 & Et2 & Hu2); [|done| |].
  { intros El. apply fmap_nil_inv in El. apply Hne. by rewrite <-(number_scripts (last_id (client (env th))) spks); fold l; rewrite El. }
  { unfold unanswered in *. by rewrite Ein. }
  unfold do_env. cbn [dispatch tx_handler dispatch_tx]. unfold abind. rewrite E1, Ho, E2.
  eexists _, parts. split; [reflexivity|]. cbn. split_and!; [|by destruct Ht; split; cbn; [|lia]|by rewrite Et2].
  split; cbn; [|done|done|by symmetry| |exact Hu2|apply answer_batch_lines|rewrite Ei2; apply Hreads; intros p Hp; by apply Hk].
  - destruct l eqn:El; [|done]. exfalso. apply Hne. rewrite <-(number_scripts (last_id (client (env th))) spks). fold l. by rewrite El.
  - intros p Hp. rewrite Ei2, Es2. by apply Hk.
Qed.

(** C18. An idle listener that is asked for the histories of some scripts is served: as long as
    nothing else happens, it stays up, tells the consumer histories of those scripts only,
    each as the server has it, and once it has read what the server sent it has told all of
    them and is ready for the next request, however the server orders and groups the
    answers and whatever pieces their bytes arrive in. *)
Theorem history_batch_served t0 turns th spks :
  let l := number (last_id (client (env th))) spks in
  turns ≠ [] → Forall (quiet t0) turns → timely t0 th →
  last_request th = None → inbox th = [Listener.GetHistory spks] → spks ≠ [] →
  unanswered (client (env th)) = [] → last_id (client (env th)) + N.of_nat (length spks) < 2 ^ 64 →
  (length (of_lines (answer_batch (history_request <$> l))) < fuel)%nat →
  ∃ th' ms, run_listener buffer_size fuel turns th = continue th' ∧
    told (env th') = told (env th) ++ (Listener.History <$> ms) ∧
    (∀ m spk h, m ∈ ms → m !! spk = Some h → spk ∈ spks ∧ h = history_entry <$> history spk) ∧
    (unanswered (client (env th')) = [] → last_request th' = None ∧ inbox th' = [] ∧
      ∀ spk, spk ∈ spks → ∃ m, m ∈ ms ∧ m !! spk = Some (history_entry <$> history spk)).
Proof.
  intros l Hne Hq Ht Hlr Hin Hsp Hu Hid Hf. destruct Hq as [|t turns Hq Hqs]; [done|].
  destruct (dispatch_awaits t0 t th spks Hq Ht Hlr Hin Hsp Hu Hid) as (th1 & parts & E1 & Ha1 & Ht1 & Et1). fold l in Ha1.
  assert (progress t0 l (answer_batch (history_request <$> l)) parts th1 (run_listener buffer_size fuel (t :: turns) th))
    as (th2 & l2 & lines2 & taken & parts2 & ms & E2 & Ep & Ha2 & Ht2 & Et2 & [Hs1 Hs2] & _).
  { cbn [run_listener]. apply progress_trans.
    - unfold turn. rewrite E1. cbn [and_then continue]. by apply receive_awaiting.
    - intros th' l' lines' parts' Ha' Ht' Hl'. apply (run_awaiting t0); [done..|lia]. }
  assert (∀ spk, spk ∈ (concat parts).*2 ↔ spk ∈ spks) as Hall.
  { intros spk. rewrite <-(aw_perm _ _ _ _ Ha1). unfold l. by rewrite number_scripts. }
  rewrite Ep, concat_app, fmap_app in Hall.
  exists th2, ms. split; [exact E2|]. split; [by rewrite Et2, Et1|]. split.
  - intros m spk h Hm Hk. destruct (Hs1 _ _ _ Hm Hk) as [Hin2 ->]. split; [|done]. apply Hall, elem_of_app. by left.
  - intros Hn. destruct Ha2 as [Hp2 Hi2 _ Hl2 _ Hu2 _ Hr2]. rewrite Hn in Hu2.
    destruct lines2 as [|line lines2]; [|by destruct line]. inversion Hr2; subst. cbn in Hl2. apply Permutation_nil_r in Hl2 as ->.
    split; [done|]. split; [done|]. intros spk Hspk%Hall. cbn in Hspk. rewrite app_nil_r in Hspk. by apply Hs2.
Qed.

(** C40. A line that does not parse, such as the empty line a busy electrs sends, ends the
    listener with a transport error as soon as it is read: the pending batch is neither
    answered nor sent again. *)
Theorem unreadable_line_ends_listener {Rq Rs St : Type} `{!Handler (W:=W) Rq Rs St} (t : Turn Rq) (th th1 : Thread Rq Rs St) line rest err :
  before_read t th = continue th1 →
  unanswered (client (env th1)) = line ++ newline :: rest → newline ∉ line → (length (unanswered (client (env th1))) < fuel)%nat →
  parse_str_response (text_of line) (index (client (env th1))) = Ret (Err err) →
  ∃ th' : Thread Rq Rs St, last_request th' = last_request th1 ∧
    (turn buffer_size fuel t th = continue th' ∧ told (env th') = told (env th1) ∧
       unanswered (client (env th')) = unanswered (client (env th1)) ∨
     turn buffer_size fuel t th = ends th' ∧ unanswered (client (env th')) = rest ∧
       told (env th') = told (env th1) ++ (if open t then [transport_err (Transport (EElectrum err))] else [])).
Proof.
  intros Hb Hu Hn Hf He. unfold turn. rewrite Hb. cbn [and_then continue]. unfold receive, do_env, with_client.
  destruct (try_recv_line (client (env th1)) line rest Hu Hn Hf) as (t1 & [[Et ->]|[Et ->]]).
  - eexists. split; [|left; split; [reflexivity|]]; done.
  - rewrite He. unfold tell. destruct (open t); eexists; (split; [|right; split; [reflexivity|]]); cbn; rewrite ?app_nil_r; done.
Qed.
End service.

(** The server of [ElectrumClient.Witness], which answers a batch from its last request to
    its first, a line each. *)
Module Witness.
Import ElectrumClient.Witness.
#[local] Existing Instances Bitcoin.Sample.sample_lib HeaderValidator.Sample.sample_headers.

#[export] Instance hex : HexLib := {|
  from_hex s := if bool_decide (s = "funding"%string) then Some [1] else if bool_decide (s = "spending"%string) then Some [2] else None;
  tx_deserialize bytes := match bytes with [1] => Some funding | [2] => Some spending | _ => None end
|}.

Lemma of_kind_id {A} k (f : N → N → A) raw id r :
  of_kind k (λ id n, (id, f id n)) raw = Some (id, r) → json_id raw = Some id.
Proof. destruct raw as [|kind [|said i]]; try done. cbn. destruct (kind =? k); [|done]. by intros [= <- _]. Qed.
#[export] Instance wire_laws : WireLaws.
Proof.
  split; intros raw id r E; try done.
  - by apply (of_kind_id 13 (λ id n, Raw (hex_of n)) _ _ _ E).
  - by apply (of_kind_id 14 (λ id n, histories_of n) _ _ _ E).
Qed.

Lemma histories_asked_lines l :
  histories_asked (concat ((λ p, [p.1; script_number p.2]) <$> l)) = (λ p : N * script, 14 :: script_number p.2 + 11 :: id_text p.1) <$> l.
Proof. induction l as [|p l IH]; cbn; [done|]. by rewrite IH. Qed.
Lemma json_batch_histories (l : list (N * script)) :
  json_batch (history_request <$> l) = Some (4 :: concat ((λ p, [p.1; script_number p.2]) <$> l)).
Proof.
  unfold json_batch. assert (mapM json_in_batch (history_request <$> l) = Some ((λ p, [p.1; script_number p.2]) <$> l)) as ->; [|done].
  induction l as [|p l IH]; [done|]. cbn in *. by rewrite IH.
Qed.
Lemma histories_asked_lined l : Forall (λ line, newline ∉ line) (histories_asked l).
Proof.
  assert (∀ n l, (length l ≤ n)%nat → Forall (λ line, newline ∉ line) (histories_asked l)) as Hgo; [|by apply (Hgo (length l))].
  intros n. induction n as [|n IH]; intros [|id [|m k]] Hl; cbn in *; try constructor; try lia.
  - rewrite !not_elem_of_cons. unfold newline. split; [lia|]. split; [lia|]. apply text_line, id_is_text.
  - apply IH. lia.
Qed.
Lemma history_line_text p : is_text (14 :: script_number p.2 + 11 :: id_text p.1).
Proof. apply (respond_is_text (history_request p) [2; p.1; script_number p.2]). done. Qed.

#[export, refine] Instance batch_server : BatchServer (W:=world) (buffer_size:=4096) := {|
  answer_batch l := match json_batch l with Some j => replies j | None => [] end
|}.
Proof.
  - intros l. unfold json_batch. destruct (mapM json_in_batch l) as [js|]; cbn; [|done].
    apply Forall_reverse, histories_asked_lined.
  - intros l j w Hj. unfold json_of_batch, client_lib in Hj. rewrite Hj. unfold sk_write, socket.
    rewrite bool_decide_eq_false_2; [|intros ->; unfold json_batch in Hj; by destruct (mapM json_in_batch l)].
    eexists _, _. split; [reflexivity|]. rewrite bool_decide_eq_true_2 by done. by split.
  - intros l Hnd. cbn [json_of_batch client_lib]. rewrite json_batch_histories. split; [by eexists|].
    exists (reverse ((λ p, [p]) <$> l)). split.
    + rewrite reverse_Permutation. clear. induction l as [|p l IH]; [done|]. cbn. by rewrite IH.
    + intros idx Hidx. cbn [replies]. rewrite histories_asked_lines. apply Forall2_reverse. clear Hnd.
      induction l as [|p l IH]; [constructor|]. constructor; [|apply IH; intros q Hq; apply Hidx; by right].
      rewrite text_lossy by apply history_line_text. rewrite (parse_plain _ p.1).
      * rewrite (Hidx p) by by left. cbn. by rewrite N.add_sub, id_in_text, histories_of_script.
      * unfold plain. cbn. by rewrite id_in_text.
Defined.

Definition asking : list Listener.CoinRequest := [Listener.GetHistory [[1]; [9]; [2]]].
Definition idle : Thread (W:=world) Listener.CoinRequest Listener.CoinResponse TxState :=
  mkThread (mkEnv connected tx_state_default []) None 0 asking 0.
Definition calm : list (Turn Listener.CoinRequest) := (λ n, mkTurn n [] false true) <$> [5; 6; 7; 8].

Lemma history_batch_served_witness :
  match run_listener 4096 20 calm idle with
  | Some (Ret (th, b)) => (told (env th), last_request th, b) =
      ([Listener.History {[ [2] := [(1, Some 10)] ]}; Listener.History {[ [9] := [] ]};
        Listener.History {[ [1] := [(1, Some 10); (2, Some 11)] ]}], None, false)
  | _ => False
  end ∧
  ∃ th' ms, run_listener 4096 20 calm idle = continue th' ∧
    told (env th') = told (env idle) ++ (Listener.History <$> ms) ∧
    (∀ m spk h, m ∈ ms → m !! spk = Some h → spk ∈ [[1]; [9]; [2]] ∧ h = history_entry <$> history spk) ∧
    (unanswered (client (env th')) = [] → last_request th' = None ∧ inbox th' = [] ∧
      ∀ spk, spk ∈ [[1]; [9]; [2]] → ∃ m, m ∈ ms ∧ m !! spk = Some (history_entry <$> history spk)).
Proof.
  split; [vm_compute; reflexivity|]. apply (history_batch_served 0 calm idle [[1]; [9]; [2]]).
  - done.
  - repeat constructor; done.
  - split; vm_compute; reflexivity || done.
  - reflexivity.
  - reflexivity.
  - done.
  - reflexivity.
  - reflexivity.
  - vm_compute. lia.
Defined.

Definition asking_turns : list (Turn Listener.CoinRequest) := [mkTurn 5 asking false true; mkTurn 6 [] false true].
Lemma asking_returns : match listen_txs 4096 20 asking_turns connected 0 with Some (Ret _) => True | _ => False end.
Proof. vm_compute. exact I. Qed.
Lemma answers_not_mixed_up_witness :
  match listen_txs 4096 20 asking_turns connected 0 with
  | Some (Ret (th, b)) => Forall (justified (heard 4096 20 asking_turns (started connected tx_state_default 0))) (told (env th))
  | _ => False
  end.
Proof.
  pose proof asking_returns as Hr. destruct (listen_txs 4096 20 asking_turns connected 0) as [[[th b]|]|] eqn:E; [|exact Hr..].
  exact (answers_not_mixed_up 4096 20 asking_turns connected 0 th b eq_refl E).
Defined.

(** A busy server's empty line, while a batch is pending. *)
Definition pending_thread : Thread (W:=world) Listener.CoinRequest Listener.CoinResponse TxState :=
  mkThread (mkEnv (with_line []) tx_state_default []) (Some [with_id 1 (sh_get_history [1])]) 0 [] 0.
Lemma unreadable_line_ends_listener_witness :
  ∃ th' : Thread (W:=world) Listener.CoinRequest Listener.CoinResponse TxState,
    last_request th' = last_request pending_thread ∧
    (turn 4096 20 (mkTurn 5 [] false true) pending_thread = continue th' ∧ told (env th') = told (env pending_thread) ∧
       unanswered (client (env th')) = unanswered (client (env pending_thread)) ∨
     turn 4096 20 (mkTurn 5 [] false true) pending_thread = ends th' ∧ unanswered (client (env th')) = [] ∧
       told (env th') = told (env pending_thread) ++ [Listener.Error Listener.Transport]).
Proof.
  refine (unreadable_line_ends_listener (buffer_size:=4096) (fuel:=20) (mkTurn 5 [] false true) pending_thread pending_thread
    [] [] RawResponseParsing _ _ _ _ _).
  - reflexivity.
  - reflexivity.
  - apply not_elem_of_nil.
  - cbn. lia.
  - reflexivity.
Defined.
End Witness.
End ElectrumListener.
