(* ===== verification/Connection.v ===== *)
(** * What a wallet is connected to (electrum/src/config.rs, header_follower.rs, scanner.rs; bwk/src/account.rs)

    An account has a scanner and, usually, a header store, each with connections of its
    own, and one configured endpoint for both. [HeaderFollower] keeps the store on the
    endpoint, of a store the account opened or borrowed from another; the account starts,
    stops and restarts both and saves what it was asked for. Whether a server can be
    reached is an argument of each attempt; threads that end by themselves are events. *)
From stdpp Require Import base strings list.
From S2P Require Import Prelude.

Module Connection.

(** ** Endpoints (config.rs) *)

Inductive CertificateCheck := Validate | DangerAcceptInvalid.
#[export] Instance CertificateCheck_eqdec : EqDecision CertificateCheck.
Proof. solve_decision. Defined.

Record Endpoint := mkEndpoint { url : option string; port : option N; certificate_check : CertificateCheck }.
#[export] Instance Endpoint_eqdec : EqDecision Endpoint.
Proof. solve_decision. Defined.
Definition endpoint_default : Endpoint := mkEndpoint None None Validate.

Definition endpoint_set (u : option string) (p : option N) (e : Endpoint) : Endpoint :=
  mkEndpoint u p (if bool_decide ((url e, port e) = (u, p)) then certificate_check e else Validate).
Definition clear (e : Endpoint) : Endpoint := endpoint_set None None e.
Definition set_certificate_check (c : CertificateCheck) (e : Endpoint) : Endpoint := mkEndpoint (url e) (port e) c.
Definition server (e : Endpoint) : option (string * N) :=
  match url e, port e with Some u, Some p => Some (u, p) | _, _ => None end.
Definition adopt_certificate_check (other e : Endpoint) : Endpoint :=
  if bool_decide (is_Some (server e)) && bool_decide (server e = server other)
  then mkEndpoint (url e) (port e) (certificate_check other) else e.
Definition configured (e : Endpoint) : option Endpoint := if bool_decide (is_Some (server e)) then Some e else None.

(** ** The connections of a header store (header_store.rs) *)

(** A server under a certificate policy. *)
Abbreviation Peer := (string * N * CertificateCheck)%type.
Record HeaderLink := mkLink { stopped : bool; header_worker : bool; merkle_worker : bool; peer : option Peer }.
Definition link_stop (l : HeaderLink) : HeaderLink := mkLink true false false None.
(** [restart]: false when the server cannot be reached. *)
Definition link_restart (reach : Peer → bool) (p : Peer) (l : HeaderLink) : HeaderLink * bool :=
  if reach p then (mkLink false true true (Some p), true) else (mkLink false false false None, false).
Definition running (l : HeaderLink) : bool := negb (stopped l) && (header_worker l || merkle_worker l).

(** ** [HeaderFollower] *)

(** With how often the reconcilers were told to ask again, and the failures notified. *)
Record HeaderFollower := mkFollower {
  store : HeaderLink;
  owned : bool;
  target : option Endpoint;
  requeued : nat;
  failures : nat
}.
Definition borrowed (store : HeaderLink) : HeaderFollower := mkFollower store false None 0 0.
(** [open]; [None] when the endpoint given cannot be reached. *)
Definition open (reach : Peer → bool) (endpoint : option Endpoint) : option HeaderFollower :=
  match endpoint with
  | Some e =>
      match server e with
      | Some (u, p) =>
          let '(l, started) := link_restart reach (u, p, certificate_check e) (mkLink false false false None) in
          if started then Some (mkFollower l true endpoint 0 0) else None
      | None => Some (mkFollower (mkLink false false false None) true endpoint 0 0)
      end
  | None => Some (mkFollower (mkLink false false false None) true None 0 0)
  end.
Definition follower_stop (f : HeaderFollower) : HeaderFollower :=
  if owned f then mkFollower (link_stop (store f)) (owned f) None (requeued f) (failures f) else f.
Definition reconnect (reach : Peer → bool) (t : Endpoint) (f : HeaderFollower) : HeaderFollower :=
  match server t with
  | None => follower_stop f
  | Some (u, p) =>
      let '(l, restarted) := link_restart reach (u, p, certificate_check t) (store f) in
      if restarted then mkFollower l (owned f) (Some t) (S (requeued f)) (failures f)
      else mkFollower l (owned f) (target f) (requeued f) (S (failures f))
  end.
Definition follow (reach : Peer → bool) (t : option Endpoint) (f : HeaderFollower) : HeaderFollower :=
  if negb (owned f) then f
  else match t with
  | None => follower_stop f
  | Some t => if bool_decide (target f = Some t) && running (store f) then f else reconnect reach t f
  end.

(** ** The scanner's connection (scanner.rs) *)

(** The listener thread: none, one for a server, or one that ended by itself. *)
Inductive ListenerThread := Idle | Listening (p : Peer) | Finished.
Record Scanner := mkScanner { endpoint : Endpoint; stay_offline : bool; listener : ListenerThread; online : bool }.
Definition scanner_stop (s : Scanner) : Scanner := mkScanner (endpoint s) (stay_offline s) Idle false.
Definition scanner_start (s : Scanner) : Scanner :=
  let s := match listener s with Finished => scanner_stop s | _ => s end in
  match server (endpoint s) with
  | None => s
  | Some (u, p) =>
      match listener s with
      | Listening _ => s
      | _ => mkScanner (endpoint s) (stay_offline s) (Listening (u, p, certificate_check (endpoint s))) (online s)
      end
  end.
Definition scanner_restart (s : Scanner) : Scanner := scanner_start (scanner_stop s).
Definition set_stay_offline (b : bool) (s : Scanner) : Scanner := mkScanner (endpoint s) b (listener s) (online s).
Definition scanner_set_electrum (u : option string) (p : option N) (s : Scanner) : Scanner :=
  mkScanner (endpoint_set u p (endpoint s)) (stay_offline s) (listener s) (online s).

(** ** The account *)

(** [saved] is the endpoint and the intent last pushed to the config store; a config that
    cannot be saved is logged and the call goes on. *)
Record HeaderScanner := mkHeaderScanner { headers : HeaderFollower; reconciling : bool }.
Record Account := mkAccount {
  scanner : Scanner;
  header_scanner : option HeaderScanner;
  saved : option (Endpoint * bool);
  invalid_config : nat
}.
Definition header_scanner_start (reach : Peer → bool) (t : Endpoint) (h : HeaderScanner) : HeaderScanner :=
  mkHeaderScanner (follow reach (Some t) (headers h)) true.
Definition header_scanner_stop (h : HeaderScanner) : HeaderScanner := mkHeaderScanner (follower_stop (headers h)) false.
Definition header_scanner_reconnect (reach : Peer → bool) (t : Endpoint) (h : HeaderScanner) : HeaderScanner :=
  mkHeaderScanner (reconnect reach t (headers h)) (reconciling h).

Definition persist_config (a : Account) : Account :=
  mkAccount (scanner a) (header_scanner a) (Some (endpoint (scanner a), stay_offline (scanner a))) (invalid_config a).
Definition on_scanner (f : Scanner → Scanner) (a : Account) : Account :=
  mkAccount (f (scanner a)) (header_scanner a) (saved a) (invalid_config a).
Definition on_headers (f : HeaderScanner → HeaderScanner) (a : Account) : Account :=
  mkAccount (scanner a) (f <$> header_scanner a) (saved a) (invalid_config a).

Definition start_electrum (reach : Peer → bool) (a : Account) : Account :=
  match configured (endpoint (scanner a)) with
  | None => persist_config (on_scanner (set_stay_offline true) a)
  | Some t =>
      let a := on_scanner (scanner_start ∘ set_stay_offline false) a in
      persist_config (on_headers (header_scanner_start reach t) a)
  end.
Definition stop_electrum (a : Account) : Account :=
  let a := on_headers header_scanner_stop (on_scanner scanner_stop a) in
  persist_config (on_scanner (set_stay_offline true) a).
Definition restart_electrum (reach : Peer → bool) (a : Account) : Account :=
  let a := on_scanner scanner_stop a in
  let a := match configured (endpoint (scanner a)) with
           | Some t => on_headers (header_scanner_reconnect reach t) a
           | None => a
           end in
  start_electrum reach a.
(** The port as it parses. *)
Definition set_electrum (u : string) (p : option N) (a : Account) : Account :=
  match p with
  | Some p => persist_config (on_scanner (scanner_set_electrum (Some u) (Some p)) a)
  | None => mkAccount (scanner a) (header_scanner a) (saved a) (S (invalid_config a))
  end.
Definition electrum_offline (a : Account) : bool := negb (online (scanner a)).

(** ** A policy does not outlive the server it was chosen for *)

Inductive EndpointOp :=
  | OpSet (u : option string) (p : option N)
  | OpClear
  | OpCheck (c : CertificateCheck)
  | OpAdopt (other : Endpoint).
Definition run_endpoint_op (e : Endpoint) (op : EndpointOp) : Endpoint :=
  match op with
  | OpSet u p => endpoint_set u p e
  | OpClear => clear e
  | OpCheck c => set_certificate_check c e
  | OpAdopt other => adopt_certificate_check other e
  end.
Definition run_endpoint (ops : list EndpointOp) : Endpoint := foldl run_endpoint_op endpoint_default ops.
Definition named (e : Endpoint) : option string * option N := (url e, port e).

(** Skipping the checks was asked for, for this endpoint. *)
Definition chosen (ops : list EndpointOp) (e : Endpoint) : Prop :=
  ∃ before op after, ops = before ++ op :: after ∧ named (run_endpoint before) = named e ∧
    (op = OpCheck DangerAcceptInvalid ∨
     ∃ other, op = OpAdopt other ∧ certificate_check other = DangerAcceptInvalid ∧ server other = server e ∧ is_Some (server e)).

Lemma chosen_snoc ops op e : chosen ops e → chosen (ops ++ [op]) e.
Proof. intros (b & o & a & -> & Hn & Ho). exists b, o, (a ++ [op]). split; [|done]. by rewrite <-app_assoc. Qed.
Lemma chosen_named ops e e' : named e = named e' → chosen ops e → chosen ops e'.
Proof.
  intros Hn (b & o & a & -> & Hb & Ho). exists b, o, a. split; [done|]. split; [congruence|].
  assert (server e = server e') as <-; [|done]. unfold named, server in *. injection Hn as -> ->. done.
Qed.
Lemma endpoint_set_kept u p e : certificate_check (endpoint_set u p e) = DangerAcceptInvalid →
  named (endpoint_set u p e) = named e ∧ certificate_check e = DangerAcceptInvalid.
Proof. unfold endpoint_set, named. cbn. case_bool_decide as E; [|done]. injection E as -> ->. done. Qed.

(** C34. Certificates go unchecked only where that was chosen: when an endpoint, whatever was
    done to it, accepts invalid certificates, then some step asked for it, or adopted it from
    an endpoint of the same server, while the endpoint named the server it names now. *)
Theorem danger_only_where_chosen ops :
  certificate_check (run_endpoint ops) = DangerAcceptInvalid → chosen ops (run_endpoint ops).
Proof.
  unfold run_endpoint. induction ops as [|op ops IH] using rev_ind; [done|]. rewrite foldl_app. cbn [foldl].
  set (e := foldl run_endpoint_op endpoint_default ops) in *. intros Hd. destruct op as [u p| |c|other]; cbn [run_endpoint_op] in *.
  - apply endpoint_set_kept in Hd as [Hn Hd]. by apply chosen_snoc, (chosen_named _ e); [|apply IH].
  - apply endpoint_set_kept in Hd as [Hn Hd]. by apply chosen_snoc, (chosen_named _ e); [|apply IH].
  - cbn in Hd. subst c. exists ops, (OpCheck DangerAcceptInvalid), []. split; [done|]. split; [done|by left].
  - unfold adopt_certificate_check in *. destruct (bool_decide (is_Some (server e))) eqn:E1; cbn [andb] in *; [|by apply chosen_snoc, IH].
    case_bool_decide as E2; [|by apply chosen_snoc, IH]. apply bool_decide_eq_true_1 in E1.
    exists ops, (OpAdopt other), []. split; [done|]. split; [done|]. right. exists other. split; [done|]. split; [done|].
    split; [by symmetry|done].
Qed.

(** ** What starting, stopping and restarting do *)

Definition peer_of (e : Endpoint) : option Peer := (λ s, (s, certificate_check e)) <$> server e.

(** An owned store is connected to the endpoint its follower says it follows. *)
Definition follows (f : HeaderFollower) : Prop :=
  ∀ t, target f = Some t → running (store f) = true → peer (store f) = peer_of t.

(** The threads of a store end by themselves. *)
Definition header_worker_ends (f : HeaderFollower) : HeaderFollower :=
  mkFollower (mkLink (stopped (store f)) false (merkle_worker (store f)) (peer (store f))) (owned f) (target f) (requeued f) (failures f).
Definition merkle_worker_ends (f : HeaderFollower) : HeaderFollower :=
  mkFollower (mkLink (stopped (store f)) (header_worker (store f)) false (peer (store f))) (owned f) (target f) (requeued f) (failures f).

Lemma reconnect_follows reach t f : follows f → follows (reconnect reach t f).
Proof.
  intros Hf. unfold reconnect. destruct (server t) as [[u p]|] eqn:E.
  - unfold link_restart. destruct (reach _); intros t' Ht Hr; [|done]. cbn in *. injection Ht as <-. unfold peer_of. by rewrite E.
  - unfold follower_stop. destruct (owned f); [by intros t' Ht|done].
Qed.

(** Whatever the owner of a store does, and whichever thread ends, it stays on the endpoint
    its follower records. *)
Theorem owner_store_follows reach f : follows f →
  (∀ t, follows (follow reach t f)) ∧ (∀ t, follows (reconnect reach t f)) ∧ follows (follower_stop f) ∧
  follows (header_worker_ends f) ∧ follows (merkle_worker_ends f).
Proof.
  intros Hf. assert (follows (follower_stop f)) as Hs by (unfold follower_stop; destruct (owned f); [by intros t' Ht|done]).
  split; [|split; [intros t; by apply reconnect_follows|split; [done|]]].
  - intros t. unfold follow. destruct (owned f); [|done]. cbn. destruct t as [t|]; [|done].
    destruct (_ && _); [done|by apply reconnect_follows].
  - unfold follows, running in *. cbn. split; intros t Ht Hr; apply Hf; try done;
      destruct (stopped (store f)), (header_worker (store f)), (merkle_worker (store f)); done.
Qed.

(** Stopping leaves nothing of the account's own connected, and the intent saved. *)
Theorem stop_electrum_disconnects a :
  let a' := stop_electrum a in
  listener (scanner a') = Idle ∧ electrum_offline a' = true ∧ saved a' = Some (endpoint (scanner a), true) ∧
  ∀ h, header_scanner a' = Some h → reconciling h = false ∧ (owned (headers h) = true → running (store (headers h)) = false).
Proof.
  cbn. split; [done|]. split; [done|]. split; [done|]. intros h Hh. unfold on_headers in Hh. cbn in Hh.
  destruct (header_scanner a) as [h0|]; [|done]. injection Hh as <-. cbn. split; [done|]. unfold follower_stop.
  by destruct (owned (headers h0)) eqn:E; cbn; [|rewrite E].
Qed.

(** Restarting with an endpoint that answers puts the account back on it from any state:
    its listener and its header store, owned or borrowed, are connected to that server under
    that policy, with both threads of the store alive; the proofs the dropped connection
    held are asked for again, and the intent to be online is saved. *)
Theorem restart_electrum_connects reach a t p :
  configured (endpoint (scanner a)) = Some t → peer_of t = Some p → reach p = true →
  let a' := restart_electrum reach a in
  listener (scanner a') = Listening p ∧ saved a' = Some (t, false) ∧
  ∀ h h', header_scanner a = Some h → header_scanner a' = Some h' →
    reconciling h' = true ∧ store (headers h') = mkLink false true true (Some p) ∧
    owned (headers h') = owned (headers h) ∧ target (headers h') = Some t ∧ (requeued (headers h) < requeued (headers h'))%nat.
Proof.
  intros Hc Hp Hr. assert (endpoint (scanner a) = t) as Et.
  { unfold configured in Hc. case_bool_decide; [by injection Hc|done]. }
  unfold peer_of in Hp. destruct (server t) as [[u pt]|] eqn:Es; [|done]. injection Hp as <-.
  unfold restart_electrum. cbn [on_scanner scanner scanner_stop endpoint]. rewrite Hc.
  unfold start_electrum. cbn [on_headers on_scanner scanner endpoint scanner_stop]. rewrite Hc.
  unfold persist_config. cbn. unfold scanner_start. cbn. rewrite Et, Es. split; [done|]. split; [done|].
  intros h h' Hh Hh'. unfold on_scanner, on_headers in Hh'. cbn in Hh'. rewrite Hh in Hh'. cbn in Hh'. injection Hh' as <-.
  assert (reconnect reach t (headers h) = mkFollower (mkLink false true true (Some (u, pt, certificate_check t))) (owned (headers h))
    (Some t) (S (requeued (headers h))) (failures (headers h))) as E.
  { unfold reconnect, link_restart. by rewrite Es, Hr. }
  unfold header_scanner_start, header_scanner_reconnect. cbn. rewrite E. unfold follow. cbn.
  rewrite bool_decide_eq_true_2 by done. unfold running. cbn. destruct (owned (headers h)); cbn; repeat split; lia.
Qed.

(** *** Where the connections part *)

(** Starting after the endpoint moved: the store follows it, the listener keeps its server. *)
Lemma start_splits_endpoints reach a u p old :
  listener (scanner a) = Listening old → old ≠ (u, p, Validate) → reach (u, p, Validate) = true →
  named (endpoint (scanner a)) ≠ (Some u, Some p) →
  ∀ h, header_scanner a = Some h → owned (headers h) = true → target (headers h) = configured (endpoint (scanner a)) →
  let a' := start_electrum reach (set_electrum u (Some p) a) in
  listener (scanner a') = Listening old ∧ ∃ h', header_scanner a' = Some h' ∧ peer (store (headers h')) = Some (u, p, Validate).
Proof.
  intros Hl Hne Hr Hn h Hh Ho Ht. unfold set_electrum, start_electrum. cbn. unfold endpoint_set. unfold named in Hn.
  rewrite bool_decide_eq_false_2 by done. cbn. unfold configured. cbn. unfold scanner_start. cbn. rewrite Hl. cbn. split; [by rewrite Hl|].
  unfold on_headers. cbn. rewrite Hh. eexists. split; [reflexivity|]. cbn. unfold follow. rewrite Ho, Ht. cbn.
  rewrite bool_decide_eq_false_2.
  - unfold reconnect, link_restart. cbn. by rewrite Hr.
  - unfold configured. case_bool_decide; intros E; [|done]. injection E as E. by rewrite E in Hn.
Qed.

(** Without an endpoint neither call disconnects what is connected, though the account is
    recorded as one that stays offline. *)
Lemma no_endpoint_keeps_connections reach a : configured (endpoint (scanner a)) = None →
  let a1 := start_electrum reach a in
  let a2 := restart_electrum reach a in
  listener (scanner a1) = listener (scanner a) ∧ header_scanner a1 = header_scanner a ∧
  header_scanner a2 = header_scanner a ∧ saved a2 = Some (endpoint (scanner a), true).
Proof.
  intros Hc. unfold restart_electrum, start_electrum. cbn. rewrite !Hc. cbn. rewrite Hc.
  split; [done|]. by repeat split.
Qed.

(** A store whose header worker ended is left alone while its merkle client lives. *)
Lemma dead_worker_unnoticed reach t f :
  owned f = true → target f = Some t → stopped (store f) = false → merkle_worker (store f) = true →
  follow reach (Some t) (header_worker_ends f) = header_worker_ends f.
Proof.
  intros Ho Ht Hs Hm. unfold follow. cbn. rewrite Ho. cbn. rewrite bool_decide_eq_true_2 by done. unfold running. cbn.
  by rewrite Hs, Hm.
Qed.

(** A borrower that reconnects moves the store; the owner, whose record is what it was, takes
    it to be where it left it. *)
Lemma borrower_moves_store reach t t' p owner borrower :
  owned owner = true → target owner = Some t → peer_of t' = Some p → reach p = true →
  let moved := store (reconnect reach t' borrower) in
  let owner' := mkFollower moved true (target owner) (requeued owner) (failures owner) in
  follow reach (Some t) owner' = owner' ∧ peer (store owner') = Some p.
Proof.
  intros Ho Ht Hp Hr. unfold peer_of in Hp. unfold reconnect, link_restart. destruct (server t') as [[u pt]|]; [|done]. injection Hp as <-.
  rewrite Hr. unfold follow. cbn. rewrite Ht, bool_decide_eq_true_2 by done. by split.
Qed.

Module Witness.
Definition onion : list EndpointOp :=
  [OpSet (Some "clear"%string) (Some 50002); OpSet (Some "onion"%string) (Some 50002); OpCheck DangerAcceptInvalid;
   OpSet (Some "onion"%string) (Some 50002)].
Lemma danger_only_where_chosen_witness :
  certificate_check (run_endpoint onion) = DangerAcceptInvalid ∧ chosen onion (run_endpoint onion).
Proof. split; [reflexivity|]. apply (danger_only_where_chosen onion). reflexivity. Defined.

Definition here : Endpoint := mkEndpoint (Some "here"%string) (Some 50001) Validate.
(** The scanner's thread ended, the store was moved elsewhere and its worker died. *)
Definition broken : Account :=
  mkAccount (mkScanner here false Finished true)
    (Some (mkHeaderScanner (mkFollower (mkLink false false true (Some ("there"%string, 1, Validate))) false None 0 0) false)) None 0.
Lemma restart_electrum_connects_witness :
  let a' := restart_electrum (λ _, true) broken in
  listener (scanner a') = Listening ("here"%string, 50001, Validate) ∧ saved a' = Some (here, false) ∧
  ∀ h h', header_scanner broken = Some h → header_scanner a' = Some h' →
    reconciling h' = true ∧ store (headers h') = mkLink false true true (Some ("here"%string, 50001, Validate)) ∧
    owned (headers h') = owned (headers h) ∧ target (headers h') = Some here ∧ (requeued (headers h) < requeued (headers h'))%nat.
Proof. apply (restart_electrum_connects (λ _, true) broken here); reflexivity. Defined.
End Witness.
End Connection.
