(* ===== verification/Bytes.v ===== *)
(** * Byte slices

    Rust slices as lists, with lengths as [usize], and the laws of taking them
    apart. *)
From stdpp Require Import base list.
From Stdlib Require Import Lia.
From S2P Require Import Prelude.

(** [slice.len()] as a [usize]. *)
Definition len {A} (l : list A) : N := N.of_nat (length l).
(** [&l[..n]] and [&l[n..]], where they are in range. *)
Definition upto {A} (n : N) (l : list A) : list A := take (N.to_nat n) l.
Definition from {A} (n : N) (l : list A) : list A := drop (N.to_nat n) l.

(** [&l[a..b]]; [get(a..b)] is [None] where it panics. *)
Definition slice {A} (a b : N) (l : list A) : outcome (list A) :=
  if (a <=? b) && (b <=? len l) then Ret (upto (b - a) (from a l)) else Panic.

(** [slice::chunks]. *)
Fixpoint chunks_fuel {A} (fuel n : nat) (l : list A) : list (list A) :=
  match fuel, l with
  | O, _ | _, [] => []
  | S fuel, _ => take n l :: chunks_fuel fuel n (drop n l)
  end.
Definition chunks {A} (n : nat) (l : list A) : list (list A) := chunks_fuel (length l) n l.

Section slices.
Context {A : Type}.
Implicit Types l k : list A.

Lemma len_app l k : len (l ++ k) = len l + len k.
Proof. unfold len. rewrite length_app. lia. Qed.
Lemma len_upto n l : len (upto n l) = N.min n (len l).
Proof. unfold len, upto. rewrite length_take. lia. Qed.
Lemma len_from n l : len (from n l) = len l - n.
Proof. unfold len, from. rewrite length_drop. lia. Qed.
Lemma len_cons x l : len (x :: l) = 1 + len l.
Proof. unfold len. cbn [length]. lia. Qed.
Lemma len_nil : len (@nil A) = 0.
Proof. done. Qed.
Lemma len_zero l : len l = 0 → l = [].
Proof. destruct l; [done|]. unfold len. simpl. lia. Qed.
Lemma upto_from n l : upto n l ++ from n l = l.
Proof. apply take_drop. Qed.
Lemma upto_app l k n : n = len l → upto n (l ++ k) = l.
Proof. intros ->. unfold upto, len. rewrite Nat2N.id. apply take_app_length. Qed.
Lemma from_app l k n : n = len l → from n (l ++ k) = k.
Proof. intros ->. unfold from, len. rewrite Nat2N.id. apply drop_app_length. Qed.
Lemma upto_all n l : len l ≤ n → upto n l = l.
Proof. unfold len, upto. intros Hl. apply take_ge. lia. Qed.
Lemma from_all n l : len l ≤ n → from n l = [].
Proof. unfold len, from. intros Hl. apply drop_ge. lia. Qed.

Lemma slice_app l1 l2 l3 a b : a = len l1 → b = len l1 + len l2 → slice a b (l1 ++ l2 ++ l3) = Ret l2.
Proof.
  intros -> ->. unfold slice. rewrite !len_app, !(proj2 (N.leb_le _ _)) by lia. cbn [andb].
  rewrite from_app by done. rewrite upto_app; [done|]. lia.
Qed.

Lemma chunks_fuel_spec fuel n l :
  (0 < n)%nat → (length l ≤ fuel)%nat →
  concat (chunks_fuel fuel n l) = l ∧ Forall (λ c, c ≠ [] ∧ (length c ≤ n)%nat) (chunks_fuel fuel n l).
Proof.
  intros Hn. revert l; induction fuel as [|fuel IH]; intros [|x l] Hl; simpl in *; try (split; [done|constructor]);
    [lia|].
  destruct n as [|n]; [lia|]. simpl. destruct (IH (drop n l)) as [Hc Hf].
  { rewrite length_drop. lia. }
  split; [by rewrite Hc, take_drop|]. constructor; [|done]. split; [done|].
  simpl. rewrite length_take. lia.
Qed.
Lemma concat_chunks n l : (0 < n)%nat → concat (chunks n l) = l.
Proof. intros Hn. by apply chunks_fuel_spec. Qed.
Lemma chunks_not_nil n l : (0 < n)%nat → Forall (λ c, c ≠ [] ∧ (length c ≤ n)%nat) (chunks n l).
Proof. intros Hn. by apply chunks_fuel_spec. Qed.
Lemma chunks_exact n (m : nat) l : (0 < n)%nat → length l = (n * m)%nat → Forall (λ c, length c = n) (chunks n l).
Proof.
  intros Hn. unfold chunks. assert (Hgen : ∀ fuel, length l = (n * m)%nat →
    Forall (λ c, length c = n) (chunks_fuel fuel n l)); [|by apply Hgen].
  intros fuel. revert l m; induction fuel as [|fuel IH]; intros [|x l] m Hl; try constructor.
  - destruct m; [rewrite Nat.mul_0_r in Hl; done|]. rewrite length_take. lia.
  - destruct m as [|m]; [rewrite Nat.mul_0_r in Hl; done|]. apply (IH _ m). rewrite length_drop. lia.
Qed.
Lemma chunks_concat n (ls : list (list A)) :
  (0 < n)%nat → Forall (λ c, length c = n) ls → chunks n (concat ls) = ls.
Proof.
  intros Hn Hls. unfold chunks. assert (Hgen : ∀ fuel, (length (concat ls) ≤ fuel)%nat →
    chunks_fuel fuel n (concat ls) = ls); [|by apply Hgen].
  intros fuel. revert fuel; induction Hls as [|c ls Hc Hls IH]; intros fuel Hf; [by destruct fuel|].
  cbn [concat] in *. rewrite length_app in Hf. destruct c as [|x c]; [simpl in Hc; lia|].
  destruct fuel as [|fuel]; [simpl in Hf; lia|].
  transitivity (take n ((x :: c) ++ concat ls) :: chunks_fuel fuel n (drop n ((x :: c) ++ concat ls)));
    [done|]. rewrite <-Hc, take_app_length, drop_app_length, Hc. f_equal. apply IH. simpl in Hf. lia.
Qed.
Lemma len_concat e (ls : list (list A)) : Forall (λ c, len c = e) ls → len (concat ls) = e * len ls.
Proof.
  induction 1 as [|c ls Hc _ IH]; [by rewrite N.mul_0_r|]. cbn [concat]. rewrite len_app, IH, Hc.
  unfold len. cbn [length]. lia.
Qed.
End slices.
