(* ===== verification/U2f.v ===== *)
(** * U2F framing (hwi/src/bitbox/api/u2fframing.rs, communication.rs)

    A message to a BitBox is cut into 64-byte reports: an initial frame with the
    length, then continuation frames with a sequence number. Buffers are lists of
    bytes; a slice out of range panics. The big-endian reads and writes of the
    byteorder crate are parameters. *)
From stdpp Require Import base list.
From Stdlib Require Import Lia.
From S2P Require Import Prelude Bytes.

Module U2f.

Definition HEADER_INIT_LEN : N := 7.
Definition HEADER_CONT_LEN : N := 5.
Definition MAX_LEN : N := 129 * 64.

(** [io::Error], by its message. *)
Inductive IoError := HeaderTooShort | WontFit | TooManyFrames | WrongCid | WrongCmd.

(** [communication::Error], the part of it the framing gives. *)
Inductive Error := Write | Read | U2fDecode.

(** The byteorder crate, big endian. *)
Class ByteOrder := {
  write_u32 : N → list N;
  write_u16 : N → list N;
  read_u32 : list N → N;
  read_u16 : list N → N
}.
Class ByteOrderLaws `{ByteOrder} := {
  len_write_u32 v : len (write_u32 v) = 4;
  len_write_u16 v : len (write_u16 v) = 2;
  read_write_u32 v : v < 2 ^ 32 → read_u32 (write_u32 v) = v;
  read_write_u16 v : v < 2 ^ 16 → read_u16 (write_u16 v) = v;
  read_u16_bound b : read_u16 b < 2 ^ 16
}.

Record U2fHid := mkU2fHid { cid : N; cmd : N }.

Section framing.
Context `{Build} `{ByteOrder}.

Definition parse_header (buf : list N) : result (N * N * N) IoError :=
  if len buf <? HEADER_INIT_LEN then Err HeaderTooShort
  else Ok (read_u32 (upto 4 buf), default 0 (buf !! 4%nat), read_u16 (upto 2 (from 5 buf))).

(** Writing to the start of a buffer. *)
Definition splice (bs buf : list N) : list N := bs ++ from (len bs) buf.

(** A buffer after the call, and the call's result. *)
Definition encode_header_init (cid cmd length : N) (buf : list N) : list N * result N IoError :=
  if len buf <? HEADER_INIT_LEN then (buf, Err HeaderTooShort)
  else (splice (write_u32 cid ++ [cmd] ++ write_u16 length) buf, Ok 7).
Definition encode_header_cont (cid seq : N) (buf : list N) : list N * result N IoError :=
  if len buf <? HEADER_CONT_LEN then (buf, Err HeaderTooShort)
  else (splice (write_u32 cid ++ [seq]) buf, Ok 5).

Definition generate_cid : N := 4278255360.
Definition new (cmd : N) : U2fHid := mkU2fHid generate_cid cmd.
Definition default_hid : U2fHid := new 0.

(** In [u16]: the addition may overflow. *)
Definition get_encoded_len (length : N) : outcome N :=
  if length <? 57 then Ret 64
  else
    let! length := sub_w 16 length 57 in
    let! x := add_w 16 59 length in
    let! y := sub_w 16 x 1 in
    Ret (64 + 64 * (y / 59)).

(** The bytes of a frame after its header of [n] bytes: what fits of the message. The
    buffer up to there, what is left of it and of the message. *)
Definition put_payload (n : N) (message buf : list N) : outcome (list N * list N * list N) :=
  let k := N.min (64 - n) (len message) in
  if len buf <? n + k then Panic
  else Ret (upto n buf ++ upto k message, from (n + k) buf, from k message).

(** The continuation frames. A sequence number over 127 is refused, so 128 rounds are
    enough. *)
Fixpoint frames (fuel : nat) (cid seq : N) (message buf : list N) :
    outcome (list N * result unit IoError) :=
  match message, fuel with
  | [], _ => Ret (buf, Ok tt)
  | _, O => Panic
  | _, S fuel =>
      match encode_header_cont cid (seq mod 256) buf with
      | (buf, Err e) => Ret (buf, Err e)
      | (buf, Ok n) =>
          let! p := put_payload n message buf in
          let '(done, buf, message) := p in
          let seq := seq + 1 in
          if 127 <? seq then Ret (done ++ buf, Err TooManyFrames)
          else
            let! r := frames fuel cid seq message buf in
            Ret (done ++ r.1, r.2)
      end
  end.

(** [u16] of a length: the high bits are dropped. *)
Definition as_u16 (n : N) : N := n mod 2 ^ 16.

Definition encode (u : U2fHid) (message buf : list N) : outcome (list N * result N IoError) :=
  let! enc_len := get_encoded_len (as_u16 (len message)) in
  if len buf <? enc_len then Ret (buf, Err WontFit)
  else
    match encode_header_init (cid u) (cmd u) (as_u16 (len message)) buf with
    | (buf, Err e) => Ret (buf, Err e)
    | (buf, Ok n) =>
        let! p := put_payload n message buf in
        let '(done, buf, message) := p in
        let! r := frames 128 (cid u) 0 message buf in
        Ret (done ++ r.1, match r.2 with Ok _ => Ok enc_len | Err e => Err e end)
    end.

(** The payload of a frame with a header of [n] bytes: [missing] bytes of the message are left, a
    frame has room for [room]. *)
Definition take_payload (n room missing : N) (buf : list N) : outcome (list N * list N * N) :=
  let k := N.min room missing in
  if len buf <? n + k then Panic
  else Ret (upto k (from n buf), from (n + k) buf, missing - k).

Fixpoint read_frames (fuel : nat) (missing : N) (buf res : list N) : outcome (list N) :=
  if missing =? 0 then Ret res
  else
    match fuel with
    | O => Panic
    | S fuel =>
        let! p := take_payload HEADER_CONT_LEN 59 missing buf in
        let '(got, buf, missing) := p in
        read_frames fuel missing buf (res ++ got)
    end.

Definition decode (u : U2fHid) (buf : list N) : outcome (result (option (list N)) IoError) :=
  match parse_header buf with
  | Err e => Ret (Err e)
  | Ok (c, m, length) =>
      if negb (c =? cid u) then Ret (Err WrongCid)
      else if negb (m =? cmd u) then Ret (Err WrongCmd)
      else
        let! enc_len := get_encoded_len length in
        if len buf <? enc_len then Ret (Ok None)
        else
          let! p := take_payload HEADER_INIT_LEN 57 length buf in
          let '(got, buf, missing) := p in
          let! res := read_frames (N.to_nat length) missing buf got in
          Ret (Ok (Some res))
  end.

(** ** The link (communication.rs) *)

(** The reports that go out. [unwrap] panics on an error of [encode]. The device
    takes the first [up] reports. *)
Fixpoint write_reports (up : nat) (reports : list (list N)) : list (list N) * result unit Error :=
  match reports, up with
  | [], _ => ([], Ok tt)
  | _, O => ([], Err Write)
  | r :: reports, S up => let '(sent, res) := write_reports up reports in (r :: sent, res)
  end.
Definition write (u : U2fHid) (up : nat) (msg : list N) : outcome (list (list N) * result N Error) :=
  let! e := encode u msg (replicate (N.to_nat MAX_LEN) 0) in
  match e with
  | (_, Err _) => Panic
  | (buf, Ok size) =>
      let '(sent, res) := write_reports up (chunks 64 (upto size buf)) in
      Ret (sent, match res with Ok _ => Ok size | Err e => Err e end)
  end.

(** The reports that come in; [None] is a read that fails. Without a next report the
    call waits: the result is [None]. *)
Fixpoint read_loop (u : U2fHid) (readbuf : list N) (reports : list (option (list N))) :
    outcome (option (result (list N) Error * list (option (list N)))) :=
  let! d := decode u readbuf in
  match d with
  | Err _ => Ret (Some (Err U2fDecode, reports))
  | Ok (Some d) => Ret (Some (Ok d, reports))
  | Ok None =>
      match reports with
      | [] => Ret None
      | None :: reports => Ret (Some (Err Read, reports))
      | Some more :: reports => read_loop u (readbuf ++ more) reports
      end
  end.
Definition read (u : U2fHid) (reports : list (option (list N))) :
    outcome (option (result (list N) Error * list (option (list N)))) :=
  match reports with
  | [] => Ret None
  | None :: reports => Ret (Some (Err Read, reports))
  | Some first :: reports => read_loop u first reports
  end.
End framing.

#[global] Arguments encode_header_init : simpl never.
#[global] Arguments encode_header_cont : simpl never.

(** ** Proofs *)

Section proofs.
Context `{Build} `{ByteOrderLaws}.
Implicit Types u : U2fHid.

(** How many continuation frames a payload takes. *)
Definition conts (n : N) : N := (n + 58) / 59.
Lemma conts_pos n : 0 < n → 0 < conts n.
Proof. intros Hn. unfold conts. apply N.div_str_pos. lia. Qed.
Lemma conts_next n : 0 < n → conts n = 1 + conts (n - N.min 59 n).
Proof.
  intros Hn. unfold conts. destruct (N.le_gt_cases n 59) as [Hle|Hgt].
  - rewrite N.min_r, N.sub_diag by done.
    replace (n + 58) with (n - 1 + 1 * 59) by lia. rewrite N.div_add, N.div_small by lia.
    by rewrite N.div_small.
  - rewrite N.min_l by lia. replace (n + 58) with (n - 59 + 58 + 1 * 59) by lia.
    rewrite N.div_add by lia. lia.
Qed.
Lemma get_encoded_len_ok n :
  n < 65534 → get_encoded_len n = Ret (64 + 64 * conts (n - 57)).
Proof.
  intros Hn. unfold get_encoded_len. destruct (N.ltb_spec n 57) as [Hlt|Hge].
  - replace (n - 57) with 0 by lia. done.
  - rewrite sub_w_ok by lia. cbn [obind]. rewrite add_w_ok by lia. cbn [obind].
    rewrite sub_w_ok by lia. cbn [obind]. unfold conts. do 4 f_equal. lia.
Qed.

Lemma splice_app bs buf : len bs ≤ len buf → len (splice bs buf) = len buf.
Proof. intros Hl. unfold splice. rewrite len_app, len_from. lia. Qed.
Lemma from_from {A} n m (l : list A) : from n (from m l) = from (m + n) l.
Proof. unfold from. rewrite drop_drop. f_equal. lia. Qed.

(** A frame: its header, its payload, and the rest of the buffer. *)
Lemma put_frame hdr message buf :
  len hdr + N.min (64 - len hdr) (len message) ≤ len buf →
  put_payload (len hdr) message (splice hdr buf) =
    Ret (hdr ++ upto (64 - len hdr) message,
         from (len hdr + N.min (64 - len hdr) (len message)) buf, from (64 - len hdr) message).
Proof.
  intros Hl. unfold put_payload. rewrite splice_app by lia.
  destruct (N.ltb_spec (len buf) (len hdr + N.min (64 - len hdr) (len message))) as [Hlt|_]; [lia|].
  unfold splice. rewrite upto_app by done. do 2 f_equal; [f_equal; [f_equal|]|].
  - destruct (N.le_gt_cases (64 - len hdr) (len message)) as [Hle|Hgt].
    + by rewrite N.min_l.
    + by rewrite N.min_r, !upto_all by lia.
  - rewrite <-from_from, from_app by done. by rewrite from_from.
  - destruct (N.le_gt_cases (64 - len hdr) (len message)) as [Hle|Hgt].
    + by rewrite N.min_l.
    + by rewrite N.min_r, !from_all by lia.
Qed.
Lemma take_frame n room hdr got tail missing :
  len hdr = n → len got = N.min room missing →
  take_payload n room missing (hdr ++ got ++ tail) = Ret (got, tail, missing - len got).
Proof.
  intros Hn Hg. unfold take_payload. rewrite !len_app, <-Hg.
  destruct (N.ltb_spec (len hdr + (len got + len tail)) (n + len got)) as [Hlt|_]; [lia|].
  do 2 f_equal. f_equal.
  - rewrite from_app by done. by apply upto_app.
  - rewrite <-from_from, from_app by done. by apply from_app.
Qed.

Lemma len_cont_header c seq : len (write_u32 c ++ [seq]) = 5.
Proof. by rewrite len_app, len_write_u32. Qed.
Lemma len_init_header c m n : len (write_u32 c ++ [m] ++ write_u16 n) = 7.
Proof. by rewrite !len_app, len_write_u32, len_write_u16. Qed.

Lemma frames_cons fuel c seq message buf :
  message ≠ [] → 5 + N.min 59 (len message) ≤ len buf →
  frames (S fuel) c seq message buf =
    if 127 <? seq + 1
    then Ret (((write_u32 c ++ [seq mod 256]) ++ upto 59 message) ++
              from (5 + N.min 59 (len message)) buf, Err TooManyFrames)
    else
      let! r := frames fuel c (seq + 1) (from 59 message) (from (5 + N.min 59 (len message)) buf) in
      Ret (((write_u32 c ++ [seq mod 256]) ++ upto 59 message) ++ r.1, r.2).
Proof.
  intros Hm Hl. destruct message as [|x message]; [done|].
  cbn [frames]. unfold encode_header_cont, HEADER_CONT_LEN.
  destruct (N.ltb_spec (len buf) 5) as [Hlt|_]; [lia|].
  set (hdr := write_u32 c ++ [seq mod 256]).
  assert (Hh : len hdr = 5) by apply len_cont_header.
  assert (Hput := put_frame hdr (x :: message) buf). rewrite Hh in Hput.
  rewrite Hput by done. done.
Qed.

Lemma frames_spec fuel c seq message buf :
  seq + conts (len message) ≤ 127 → conts (len message) ≤ N.of_nat fuel →
  64 * conts (len message) ≤ len buf →
  ∃ body, frames fuel c seq message buf = Ret (body ++ from (len body) buf, Ok tt) ∧
    len body ≤ 64 * conts (len message) ∧
    ∀ tail res fuel', len message ≤ N.of_nat fuel' →
      read_frames fuel' (len message) (body ++ tail) res = Ret (res ++ message).
Proof.
  revert seq message buf; induction fuel as [|fuel IH]; intros seq message buf Hseq Hfuel Hbuf;
    (destruct (decide (message = [])) as [->|Hm];
      [exists []; split_and!; [done|done|]; intros tail res [|fuel'] _; simpl; by rewrite app_nil_r|]).
  { assert (0 < len message) as ?%conts_pos by (destruct message; [done|unfold len; simpl; lia]). lia. }
  assert (Hpos : 0 < len message) by (destruct message; [done|unfold len; simpl; lia]).
  pose proof (conts_next _ Hpos) as Hnext.
  assert (Hmsg : len (from 59 message) = len message - N.min 59 (len message)) by (rewrite len_from; lia).
  rewrite frames_cons; [|done|lia].
  destruct (N.ltb_spec 127 (seq + 1)) as [Hlt|_]; [lia|].
  destruct (IH (seq + 1) (from 59 message) (from (5 + N.min 59 (len message)) buf))
    as (body & -> & Hlen & Hread); rewrite ?Hmsg, ?len_from in *; [lia..|].
  set (hdr := write_u32 c ++ [seq mod 256]). assert (Hh : len hdr = 5) by apply len_cont_header.
  cbn [obind fst snd]. exists (hdr ++ upto 59 message ++ body). split_and!.
  - rewrite !len_app, Hh, len_upto, from_from, <-!app_assoc. do 6 f_equal. lia.
  - rewrite !len_app, Hh, len_upto. lia.
  - intros tail res [|fuel'] Hf; [lia|]. cbn [read_frames].
    destruct (N.eqb_spec (len message) 0) as [?|_]; [lia|].
    rewrite <-!app_assoc, (take_frame HEADER_CONT_LEN 59 hdr); [|done|by rewrite len_upto].
    cbn [obind]. rewrite len_upto, Hread by lia. by rewrite <-app_assoc, upto_from.
Qed.

Lemma frames_too_many fuel c seq message buf :
  seq < 128 → 128 ≤ seq + conts (len message) → 128 - seq ≤ N.of_nat fuel →
  64 * (128 - seq) ≤ len buf →
  ∃ b, frames fuel c seq message buf = Ret (b, Err TooManyFrames).
Proof.
  revert seq message buf; induction fuel as [|fuel IH]; intros seq message buf Hs Hc Hf Hb; [lia|].
  assert (Hm : message ≠ []) by (intros ->; revert Hc; change (conts (len [])) with 0; lia).
  assert (Hpos : 0 < len message) by (destruct message; [done|unfold len; simpl; lia]).
  pose proof (conts_next _ Hpos) as Hnext.
  assert (Hmsg : len (from 59 message) = len message - N.min 59 (len message)) by (rewrite len_from; lia).
  rewrite frames_cons; [|done|lia]. destruct (N.ltb_spec 127 (seq + 1)); [eauto|].
  destruct (IH (seq + 1) (from 59 message) (from (5 + N.min 59 (len message)) buf)) as (b & ->);
    rewrite ?Hmsg, ?len_from in *; [lia..|]. eauto.
Qed.

Lemma encode_spec u message buf :
  len message ≤ 7550 → 64 + 64 * conts (len message - 57) ≤ len buf →
  let enc := 64 + 64 * conts (len message - 57) in
  ∃ hdr body, encode u message buf = Ret ((hdr ++ body) ++ from (len (hdr ++ body)) buf, Ok enc) ∧
    hdr = write_u32 (cid u) ++ [cmd u] ++ write_u16 (len message) ∧ len (hdr ++ body) ≤ enc ∧
    ∀ tail, ∃ got, take_payload HEADER_INIT_LEN 57 (len message) ((hdr ++ body) ++ tail) =
        Ret (got.1, got.2, len message - 57) ∧
      read_frames (N.to_nat (len message)) (len message - 57) got.2 got.1 = Ret message.
Proof.
  intros Hm Hbuf enc. unfold encode, as_u16. rewrite N.mod_small by lia.
  rewrite get_encoded_len_ok by lia. cbn [obind].
  destruct (N.ltb_spec (len buf) (64 + 64 * conts (len message - 57))) as [?|_]; [lia|].
  unfold encode_header_init, HEADER_INIT_LEN. destruct (N.ltb_spec (len buf) 7) as [?|_]; [lia|].
  set (hdr := write_u32 (cid u) ++ _). assert (Hh : len hdr = 7) by apply len_init_header.
  assert (Hput := put_frame hdr message buf). rewrite Hh in Hput.
  change (64 - 7) with 57 in Hput. rewrite Hput by lia. cbn [obind].
  assert (Hmsg : len (from 57 message) = len message - 57) by apply len_from.
  destruct (frames_spec 128 (cid u) 0 (from 57 message) (from (7 + N.min 57 (len message)) buf))
    as (body & -> & Hlen & Hread); rewrite ?Hmsg, ?len_from in *.
  { unfold conts. assert ((len message - 57 + 58) / 59 ≤ 127); [|lia].
    apply N.lt_succ_r, N.Div0.div_lt_upper_bound. lia. }
  { unfold conts. assert ((len message - 57 + 58) / 59 ≤ 127); [|lia].
    apply N.lt_succ_r, N.Div0.div_lt_upper_bound. lia. }
  { lia. }
  cbn [obind fst snd]. exists hdr, (upto 57 message ++ body). split_and!.
  - do 2 f_equal. rewrite !len_app, Hh, len_upto, from_from, <-!app_assoc. do 4 f_equal. lia.
  - done.
  - rewrite !len_app, Hh, len_upto. unfold enc. lia.
  - intros tail. exists (upto 57 message, body ++ tail). rewrite <-!app_assoc.
    rewrite (take_frame HEADER_INIT_LEN 57 hdr); [|done|by rewrite len_upto]. split.
    + do 2 f_equal. rewrite len_upto. lia.
    + cbn [fst snd]. rewrite Hread by (unfold len; lia). by rewrite upto_from.
Qed.

(** What a receiver sees of the header. *)
Lemma parse_written c m n b :
  c < 2 ^ 32 → n < 2 ^ 16 →
  parse_header ((write_u32 c ++ [m] ++ write_u16 n) ++ b) = Ok (c, m, n).
Proof.
  intros Hc Hn. unfold parse_header, HEADER_INIT_LEN. rewrite len_app, len_init_header.
  destruct (N.ltb_spec (7 + len b) 7) as [?|_]; [lia|].
  rewrite <-!app_assoc. rewrite upto_app by (by rewrite len_write_u32).
  rewrite read_write_u32 by done. do 2 f_equal; [f_equal|].
  - rewrite lookup_app_r; pose proof (len_write_u32 c) as Hl; unfold len in Hl; [|lia].
    by replace (4 - length (write_u32 c))%nat with 0%nat by lia.
  - rewrite app_assoc, from_app; [|by rewrite len_app, len_write_u32].
    rewrite upto_app by (by rewrite len_write_u16). by apply read_write_u16.
Qed.

Lemma decode_written u n b :
  cid u < 2 ^ 32 → n < 65534 →
  let frame := (write_u32 (cid u) ++ [cmd u] ++ write_u16 n) ++ b in
  decode u frame =
    if len frame <? 64 + 64 * conts (n - 57) then Ret (Ok None)
    else
      let! p := take_payload HEADER_INIT_LEN 57 n frame in
      let! res := read_frames (N.to_nat n) p.2 p.1.2 p.1.1 in
      Ret (Ok (Some res)).
Proof.
  intros Hc Hn frame. unfold decode, frame at 1. rewrite parse_written by lia.
  rewrite !N.eqb_refl. cbn [negb]. rewrite get_encoded_len_ok by done. cbn [obind].
  destruct (_ <? _); [done|]. by destruct (take_payload _ _ _ _) as [[[got r] k]|].
Qed.

Lemma read_loop_reports u full msg reports rest b :
  decode u full = Ret (Ok (Some msg)) →
  (∀ p q, full = p ++ q → q ≠ [] → 64 ≤ len p → decode u p = Ret (Ok None)) →
  64 ≤ len b → b ++ concat reports = full → Forall (λ r, r ≠ []) reports →
  read_loop u b ((Some <$> reports) ++ rest) = Ret (Some (Ok msg, rest)).
Proof.
  intros Hfull Hpre. revert b; induction reports as [|r reports IH]; intros b Hb Hcat Hne; simpl in Hcat.
  - rewrite app_nil_r in Hcat. subst b. destruct rest; cbn [fmap list_fmap app read_loop]; by rewrite Hfull.
  - apply Forall_cons in Hne as [Hr Hne]. cbn [fmap list_fmap app read_loop].
    rewrite (Hpre b (r ++ concat reports)); [|done|by destruct r|done]. cbn [obind].
    apply IH; [rewrite len_app; lia|by rewrite <-app_assoc|done].
Qed.

Lemma write_reports_all up reports :
  (length reports ≤ up)%nat → write_reports up reports = (reports, Ok tt).
Proof.
  revert up; induction reports as [|r reports IH]; intros [|up] Hl; simpl in *; try done; [lia|].
  rewrite IH by lia. done.
Qed.

(** A message of at most 7550 bytes goes out as 64-byte reports, as many as the
    length says, and a device with the same channel and command that reads these
    reports one by one gets the message back, taking no report too many, whatever
    comes after them. *)
Theorem write_read u up msg :
  cid u < 2 ^ 32 → len msg ≤ 7550 → (128 ≤ up)%nat →
  ∃ reports, write u up msg = Ret (reports, Ok (64 * len reports)) ∧
    len reports = 1 + conts (len msg - 57) ∧ Forall (λ r, len r = 64) reports ∧
    ∀ rest, read u ((Some <$> reports) ++ rest) = Ret (Some (Ok msg, rest)).
Proof.
  intros Hc Hm Hup. unfold write. set (buf := replicate (N.to_nat MAX_LEN) 0).
  assert (Hk : conts (len msg - 57) ≤ 127).
  { unfold conts. apply N.lt_succ_r, N.Div0.div_lt_upper_bound. lia. }
  assert (Hbuf : len buf = 8256) by (unfold len, buf; rewrite length_replicate; done).
  destruct (encode_spec u msg buf) as (hdr & body & -> & Hhdr & Hlen & Hread); [done|lia|].
  set (enc := 64 + _) in *. cbn [obind].
  set (full := upto enc _).
  assert (∃ pad, full = (hdr ++ body) ++ pad ∧ len full = enc) as (pad & Hpad & Hflen).
  { exists (upto (enc - len (hdr ++ body)) (from (len (hdr ++ body)) buf)). split.
    - unfold full, upto at 1. rewrite take_app, take_ge by (unfold len in Hlen; lia).
      f_equal. unfold upto. f_equal. unfold len. lia.
    - unfold full. rewrite len_upto, len_app, len_from. lia. }
  assert (Hchunks : Forall (λ r, length r = 64%nat) (chunks 64 full)).
  { apply (chunks_exact 64 (N.to_nat (1 + conts (len msg - 57)))); [lia|]. unfold len in Hflen. lia. }
  assert (Hcat : concat (chunks 64 full) = full) by (apply concat_chunks; lia).
  assert (H64 : Forall (λ r, len r = 64) (chunks 64 full)).
  { eapply Forall_impl; [exact Hchunks|]. intros r Hr. unfold len. by rewrite Hr. }
  assert (Hn : 64 * len (chunks 64 full) = enc) by (by rewrite <-(len_concat 64), Hcat).
  assert (Hcnt : len (chunks 64 full) = 1 + conts (len msg - 57)) by (unfold enc in Hn; lia).
  exists (chunks 64 full). rewrite write_reports_all.
  2: { unfold len at 1 in Hcnt. lia. }
  split_and!.
  - by rewrite Hn.
  - exact Hcnt.
  - exact H64.
  - intros rest. destruct (chunks 64 full) as [|r rs] eqn:Hch; [unfold len, enc in Hn; simpl in Hn; lia|].
    apply Forall_cons in Hchunks as [Hr Hrs]. cbn [fmap list_fmap app read].
    assert (Hframe : ∀ b, decode u (hdr ++ b) = if len (hdr ++ b) <? enc then Ret (Ok None)
      else let! p := take_payload HEADER_INIT_LEN 57 (len msg) (hdr ++ b) in
           let! res := read_frames (N.to_nat (len msg)) p.2 p.1.2 p.1.1 in Ret (Ok (Some res))).
    { intros b. rewrite Hhdr. apply decode_written; lia. }
    assert (Hh : len hdr = 7) by (rewrite Hhdr; apply len_init_header).
    apply (read_loop_reports u full); [| |unfold len; lia|exact Hcat|].
    + rewrite Hpad, <-app_assoc, Hframe. rewrite Hpad, <-app_assoc in Hflen. rewrite Hflen, N.ltb_irrefl.
      destruct (Hread pad) as (got & Htake & Hres). rewrite <-app_assoc in Htake.
      rewrite Htake. cbn [obind fst snd]. by rewrite Hres.
    + intros p q Hpq Hq Hp.
      assert (∃ b, p = hdr ++ b) as [b ->].
      { exists (from 7 p). rewrite <-(upto_from 7 p) at 1. f_equal.
        rewrite <-(upto_app hdr (body ++ pad) 7) by done. rewrite app_assoc, <-Hpad, Hpq.
        unfold upto. rewrite take_app_le; [done|]. unfold len in Hp. lia. }
      rewrite Hframe. assert (len q ≠ 0) by (intros ?%len_zero; done).
      assert (len (hdr ++ b) + len q = enc) by (by rewrite <-len_app, <-Hpq).
      destruct (N.ltb_spec (len (hdr ++ b)) enc); [done|lia].
    + eapply Forall_impl; [exact Hrs|]. by intros [|??].
Qed.

(** A longer message cannot be sent: the call panics, whether or not the
    arithmetic is checked and whatever length its low 16 bits pretend. *)
Theorem write_limit u up msg : 7550 < len msg → write u up msg = Panic.
Proof.
  intros Hm. unfold write. set (buf := replicate (N.to_nat MAX_LEN) 0).
  assert (Hbuf : len buf = 8256) by (unfold len, buf; rewrite length_replicate; done).
  assert (∀ b, ∃ e, encode u msg b = Panic ∨ (len b = 8256 → ∃ b', encode u msg b = Ret (b', Err e))) as He.
  { intros b. unfold encode. destruct (get_encoded_len _) as [enc|]; [|by exists WontFit; left].
    cbn [obind]. destruct (len b <? enc); [exists WontFit; right; eauto|].
    unfold encode_header_init, HEADER_INIT_LEN.
    destruct (len b <? 7); [exists HeaderTooShort; right; eauto|].
    set (hdr := write_u32 (cid u) ++ _). assert (Hh : len hdr = 7) by apply len_init_header.
    exists TooManyFrames. right. intros Hb.
    assert (Hput := put_frame hdr msg b). rewrite Hh in Hput. change (64 - 7) with 57 in Hput.
    rewrite Hput by lia. cbn [obind].
    destruct (frames_too_many 128 (cid u) 0 (from 57 msg) (from (7 + N.min 57 (len msg)) b))
      as (b' & ->); rewrite ?len_from; [lia| |lia|lia|cbn [obind]; eauto].
    unfold conts. assert (128 ≤ (len msg - 57 + 58) / 59); [|lia].
    apply N.div_le_lower_bound; lia. }
  destruct (He buf) as (e & [-> | Hr]); [done|]. destruct (Hr Hbuf) as (b' & ->). done.
Qed.

Lemma read_frames_ret fuel missing buf res :
  missing ≤ N.of_nat fuel → 64 * conts missing ≤ len buf →
  ∃ res', read_frames fuel missing buf res = Ret res'.
Proof.
  revert missing buf res; induction fuel as [|fuel IH]; intros missing buf res Hf Hb; cbn [read_frames];
    (destruct (N.eqb_spec missing 0) as [->|Hm]; [eauto|]); [lia|].
  assert (Hpos : 0 < missing) by lia. pose proof (conts_next _ Hpos) as Hnext.
  unfold take_payload, HEADER_CONT_LEN. destruct (N.ltb_spec (len buf) (5 + N.min 59 missing)); [lia|].
  cbn [obind]. apply IH; [lia|]. rewrite len_from. lia.
Qed.

(** No bytes a device sends can make the decoder panic, or read outside the
    buffer, unless they announce a length of 65534 or 65535; 65535 does it, with
    checked arithmetic in the computation of the frame count, without it because the
    count wraps to one frame. *)
Theorem decode_bounds u :
  (∀ buf c m n, parse_header buf = Ok (c, m, n) → n < 65534 → ∃ r, decode u buf = Ret r) ∧
  (cid u < 2 ^ 32 → ∀ b, len b = 57 →
    decode u ((write_u32 (cid u) ++ [cmd u] ++ write_u16 65535) ++ b) = Panic).
Proof.
  split.
  - intros buf c m n Hp Hn. unfold decode. rewrite Hp.
    destruct (c =? cid u); [|eexists; reflexivity]. destruct (m =? cmd u); [|eexists; reflexivity].
    cbn [negb]. rewrite get_encoded_len_ok by done. cbn [obind].
    destruct (N.ltb_spec (len buf) (64 + 64 * conts (n - 57))) as [|Hl]; [eexists; reflexivity|].
    unfold take_payload at 1, HEADER_INIT_LEN.
    destruct (N.ltb_spec (len buf) (7 + N.min 57 n)); [lia|]. cbn [obind].
    replace (n - N.min 57 n) with (n - 57) by lia.
    destruct (read_frames_ret (N.to_nat n) (n - 57) (from (7 + N.min 57 n) buf)
      (upto (N.min 57 n) (from 7 buf))) as (res & ->); [lia|rewrite len_from; lia|eauto].
  - intros Hc b Hb. unfold decode. rewrite parse_written by lia. rewrite !N.eqb_refl. cbn [negb].
    assert (get_encoded_len 65535 = if overflow_checks then Panic else Ret 64) as ->
      by (unfold get_encoded_len, add_w, sub_w, overflow; by destruct overflow_checks).
    destruct overflow_checks; [done|]. cbn [obind].
    set (hdr := write_u32 (cid u) ++ _). assert (Hh : len hdr = 7) by apply len_init_header.
    assert (Hlen : len (hdr ++ b) = 64) by (rewrite len_app; lia).
    assert (Htake := take_frame HEADER_INIT_LEN 57 hdr b [] 65535 Hh). rewrite Hb, app_nil_r in Htake.
    rewrite Hlen. change (64 <? 64) with false. cbn iota. rewrite Htake by done. cbn [obind].
    replace (N.to_nat 65535) with (S (N.to_nat 65534)) by lia. done.
Qed.
End proofs.

Module Witness.
#[export] Instance big_endian : ByteOrder := {|
  write_u32 := λ v, [v / 2 ^ 24; v / 2 ^ 16 mod 256; v / 2 ^ 8 mod 256; v mod 256];
  write_u16 := λ v, [v / 2 ^ 8; v mod 256];
  read_u32 := λ b, match b with [a; b; c; d] => a * 2 ^ 24 + b * 2 ^ 16 + c * 2 ^ 8 + d | _ => 0 end;
  read_u16 := λ b, match b with [a; b] => (a * 256 + b) mod 2 ^ 16 | _ => 0 end
|}.
#[export] Instance big_endian_laws : ByteOrderLaws.
Proof.
  split; cbn -[N.pow N.div N.modulo N.mul N.add].
  - done.
  - done.
  - intros v Hv. change (2 ^ 8) with 256. change (2 ^ 16) with (256 * 256).
    change (2 ^ 24) with (256 * 256 * 256). rewrite <-!N.Div0.div_div.
    pose proof (N.div_mod v 256 ltac:(lia)). pose proof (N.div_mod (v / 256) 256 ltac:(lia)).
    pose proof (N.div_mod (v / 256 / 256) 256 ltac:(lia)). lia.
  - intros v Hv. change (2 ^ 8) with 256. pose proof (N.div_mod v 256 ltac:(lia)).
    rewrite N.mod_small by lia. lia.
  - intros b. destruct b as [|a [|b [|c l]]]; try done. apply N.mod_lt. done.
Qed.
#[export] Instance debug : Build := true.
Definition hid : U2fHid := new 193.
Definition text (n : nat) : list N := replicate n 7.

(** A message of two frames. *)
Example two_frames :
  match write hid 128 (text 60) with
  | Ret (reports, Ok size) => size = 128 ∧ len <$> reports = [64; 64] ∧
      upto 8 (concat reports) = [255; 0; 255; 0; 193; 0; 60; 7] ∧
      upto 6 (from 64 (concat reports)) = [255; 0; 255; 0; 0; 7]
  | _ => False
  end.
Proof. vm_compute. done. Qed.

Lemma write_read_witness :
  ∃ reports, write hid 128 (text 200) = Ret (reports, Ok (64 * len reports)) ∧
    len reports = 1 + conts (len (text 200) - 57) ∧ Forall (λ r, len r = 64) reports ∧
    ∀ rest, read hid ((Some <$> reports) ++ rest) = Ret (Some (Ok (text 200), rest)).
Proof. apply write_read; [reflexivity|vm_compute; discriminate|lia]. Defined.
Lemma write_limit_witness : write hid 128 (text 7551) = Panic.
Proof. apply write_limit. vm_compute. reflexivity. Defined.
Lemma decode_bounds_witness :
  (∃ r, decode hid (write_u32 (cid hid) ++ [cmd hid] ++ write_u16 100) = Ret r) ∧
  decode hid ((write_u32 (cid hid) ++ [cmd hid] ++ write_u16 65535) ++ text 57) = Panic.
Proof.
  split.
  - by apply (proj1 (decode_bounds hid) _ (cid hid) (cmd hid) 100).
  - by apply (proj2 (decode_bounds hid)).
Defined.
End Witness.
End U2f.
