(* ===== verification/LedgerMerkle.v ===== *)
(** * Merkle trees of the Ledger client (hwi/src/ledger/bitcoin_client/merkle.rs)

    The tree over a list of hashes, split at the largest power of two below the
    size, its root and the proofs of its leaves; and the check a device makes of a
    proof, from which the index and the size alone say on which side each sibling
    is. A [Vec] of 32-byte hashes has fewer than 2^58 elements, so no index
    computation leaves [usize]. *)
From stdpp Require Import base list.
From Stdlib Require Import Lia.
From S2P Require Import Prelude Bytes.

Module LedgerMerkle.

(** [sha256::Hash] of the bitcoin crate. *)
Class Sha256 := sha256 : list N → list N.
Class Sha256Laws `{Sha256} := len_sha256 b : len (sha256 b) = 32.

(** [assert!] *)
Definition assert {A} (b : bool) (k : outcome A) : outcome A := if b then k else Panic.

(** [while 2 * t <= n { t *= 2; r += 1; }]: [t] doubles at each turn. *)
Fixpoint floor_lg_loop (fuel : nat) (n t r : N) : N :=
  match fuel with
  | O => r
  | S fuel => if 2 * t <=? n then floor_lg_loop fuel n (t * 2) (r + 1) else r
  end.
Definition floor_lg (n : N) : outcome N :=
  assert (0 <? n) (Ret (floor_lg_loop (N.to_nat n) n 1 0)).

Definition pow2 (n : N) : N := N.iter n (λ p, p * 2) 1.

Definition is_power_of_2 (n : N) : outcome bool := assert (1 <=? n) (Ret (N.land n (n - 1) =? 0)).

Definition largest_power_of_2_less_than (n : N) : outcome N :=
  if n =? 2 then Ret 1
  else
    assert (1 <? n)
      (let! p := is_power_of_2 n in
       if p then Ret (n / 2) else let! r := floor_lg n in Ret (N.shiftl 1 r)).

Inductive Tree :=
  | Node (value : list N) (l r : Tree) (height : N)
  | Leaf (idx : N).

(** An index out of range panics. *)
Definition at_index {A} (l : list A) (i : N) : outcome A := expect (l !! N.to_nat i).

Definition value (leaves : list (list N)) (t : Tree) : outcome (list N) :=
  match t with Node v _ _ _ => Ret v | Leaf idx => at_index leaves idx end.
Definition height (t : Tree) : N := match t with Node _ _ _ h => h | Leaf _ => 0 end.

Section tree.
Context `{Sha256}.

(** The hash of an inner node. *)
Definition hash_node (a b : list N) : list N := sha256 (1 :: a ++ b).

(** [Tree::new]; the sizes shrink at each call, so fuel above the size is enough. *)
Fixpoint tree_new (fuel : nat) (leaves : list (list N)) (start size : N) : outcome Tree :=
  if size =? 1 then Ret (Leaf start)
  else
    match fuel with
    | O => Panic
    | S fuel =>
        let! lchild_size := largest_power_of_2_less_than size in
        let! lchild := tree_new fuel leaves start lchild_size in
        let! rchild := tree_new fuel leaves (start + lchild_size) (size - lchild_size) in
        let! lv := value leaves lchild in
        let! rv := value leaves rchild in
        Ret (Node (hash_node lv rv) lchild rchild (height lchild + 1))
    end.

Fixpoint get_proof (t : Tree) (leaves : list (list N)) (index : N) : outcome (list (list N)) :=
  match t with
  | Leaf _ => Ret []
  | Node _ l r _ =>
      let! ps :=
        if index <? pow2 (height l) then
          let! p := get_proof l leaves index in Ret (p, r)
        else
          let! p := get_proof r leaves (index - pow2 (height l)) in Ret (p, l) in
      let! v := value leaves ps.2 in
      Ret (ps.1 ++ [v])
  end.

Record MerkleTree := mkMerkleTree { root : Tree; leaves : list (list N) }.

Definition new (leaves : list (list N)) : outcome MerkleTree :=
  let! root := tree_new (S (length leaves)) leaves 0 (len leaves) in Ret (mkMerkleTree root leaves).
Definition size (t : MerkleTree) : N := len (leaves t).
Definition root_hash (t : MerkleTree) : outcome (list N) := value (leaves t) (root t).
Definition get_leaf (t : MerkleTree) (i : N) : option (list N) := leaves t !! N.to_nat i.
(** [position]: the first one. *)
Fixpoint position (v : list N) (l : list (list N)) : option N :=
  match l with
  | [] => None
  | x :: l => if decide (x = v) then Some 0 else N.succ <$> position v l
  end.
Definition get_leaf_index (t : MerkleTree) (v : list N) : option N := position v (leaves t).
Definition get_leaf_proof (t : MerkleTree) (index : N) : outcome (option (list (list N))) :=
  if len (leaves t) <=? index then Ret None
  else let! p := get_proof (root t) (leaves t) index in Ret (Some p).

(** ** What a device checks *)

(** The largest power of two below [n], for [n] above 1. *)
Definition split (n : N) : N := 2 ^ (N.log2_up n - 1).

(** The siblings from the root down to a leaf: the hash they give to the root. *)
Fixpoint check_down (n i : N) (x : list N) (siblings : list (list N)) : option (list N) :=
  match siblings with
  | [] => if n =? 1 then Some x else None
  | s :: siblings =>
      if n <=? 1 then None
      else if i <? split n then (λ h, hash_node h s) <$> check_down (split n) i x siblings
      else hash_node s <$> check_down (n - split n) (i - split n) x siblings
  end.
(** A proof lists them from the leaf up. *)
Definition check_proof (n i : N) (x : list N) (proof : list (list N)) : option (list N) :=
  check_down n i x (rev proof).

(** The root of a list, by its definition. *)
Fixpoint list_root (fuel : nat) (l : list (list N)) : list N :=
  match fuel, l with
  | O, _ | _, [] => []
  | _, [x] => x
  | S fuel, _ =>
      let k := split (len l) in
      hash_node (list_root fuel (upto k l)) (list_root fuel (from k l))
  end.
End tree.

(** ** Proofs *)

Section proofs.
Context `{Sha256}.

Lemma floor_lg_loop_spec fuel n t r :
  0 < t → t ≤ n → n < t * 2 ^ N.of_nat fuel → t = 2 ^ r → floor_lg_loop fuel n t r = N.log2 n.
Proof.
  revert t r; induction fuel as [|fuel IH]; intros t r Ht Htn Hf ->; cbn [floor_lg_loop].
  { rewrite N.mul_1_r in Hf. lia. }
  destruct (N.leb_spec (2 * 2 ^ r) n) as [Hle|Hgt].
  - apply IH; [lia|lia| |by rewrite N.add_1_r, N.pow_succ_r', N.mul_comm].
    rewrite Nat2N.inj_succ, N.pow_succ_r' in Hf. lia.
  - symmetry. apply N.log2_unique; [lia|]. rewrite N.pow_succ_r'. lia.
Qed.
Lemma floor_lg_spec n : 0 < n → floor_lg n = Ret (N.log2 n).
Proof.
  intros Hn. unfold floor_lg, assert. destruct (N.ltb_spec 0 n); [|lia]. f_equal.
  apply floor_lg_loop_spec; [lia|lia| |done]. rewrite N2Nat.id, N.mul_1_l.
  apply N.pow_gt_lin_r. lia.
Qed.
Lemma pow2_spec n : pow2 n = 2 ^ n.
Proof.
  unfold pow2. induction n as [|n IH] using N.peano_ind; [done|].
  rewrite N.iter_succ, IH, N.pow_succ_r'. lia.
Qed.

Lemma is_power_of_2_spec n :
  1 ≤ n → is_power_of_2 n = Ret (bool_decide (n = 2 ^ N.log2 n)).
Proof.
  intros Hn. unfold is_power_of_2, assert. destruct (N.leb_spec 1 n); [|lia]. f_equal.
  destruct (N.log2_spec n ltac:(lia)) as [Hlo Hhi]. set (k := N.log2 n) in *.
  rewrite N.pow_succ_r' in Hhi. case_bool_decide as He.
  - apply N.eqb_eq. rewrite He, <-N.pred_sub, <-N.ones_equiv, N.land_ones. by apply N.Div0.mod_same.
  - apply N.eqb_neq. intros Hz.
    assert (Ht : N.testbit (N.land n (n - 1)) k = true); [|by rewrite Hz, N.bits_0 in Ht].
    assert (Hbit : ∀ m, 2 ^ k ≤ m < 2 * 2 ^ k → N.testbit m k = true).
    { intros m Hm. apply N.testbit_true. replace (m / 2 ^ k) with 1; [done|].
      apply (N.div_unique _ _ _ (m - 2 ^ k)); lia. }
    rewrite N.land_spec, !Hbit by lia. done.
Qed.

Lemma split_spec n : 1 < n → 0 < split n < n ∧ n ≤ 2 * split n.
Proof.
  intros Hn. unfold split. destruct (N.log2_up_spec n Hn) as [Hlo Hhi].
  assert (0 < N.log2_up n) by (by apply N.log2_up_pos).
  rewrite <-N.pred_sub. split; [|rewrite <-N.pow_succ_r', N.succ_pred by lia; done].
  split; [|done]. apply N.neq_0_lt_0, N.pow_nonzero. done.
Qed.
Lemma largest_power_spec n : 1 < n → largest_power_of_2_less_than n = Ret (split n).
Proof.
  intros Hn. unfold largest_power_of_2_less_than. destruct (N.eqb_spec n 2) as [->|H2]; [done|].
  unfold assert. destruct (N.ltb_spec 1 n); [|lia]. rewrite is_power_of_2_spec by lia. cbn [obind].
  unfold split. case_bool_decide as He.
  - f_equal. rewrite He at 2. rewrite N.log2_up_pow2 by lia. rewrite He at 1.
    assert (0 < N.log2 n) by (apply N.log2_pos; lia).
    rewrite <-N.pred_sub. rewrite <-(N.succ_pred (N.log2 n)) at 1 by lia.
    rewrite N.pow_succ_r', N.mul_comm. by apply N.div_mul.
  - rewrite floor_lg_spec by lia. cbn [obind]. f_equal. rewrite N.shiftl_1_l. f_equal.
    symmetry. assert (N.log2_up n = N.succ (N.log2 n)); [|lia].
    apply N.log2_up_unique; [lia|]. rewrite N.pred_succ.
    destruct (N.log2_spec n ltac:(lia)). lia.
Qed.
(** The left part is a full tree. *)
Lemma split_log n : 1 < n → N.log2_up (split n) + 1 = N.log2_up n.
Proof.
  intros Hn. unfold split. assert (0 < N.log2_up n) by (by apply N.log2_up_pos).
  rewrite N.log2_up_pow2 by lia. lia.
Qed.
Lemma split_full n : 1 < n → 2 ^ N.log2_up (split n) = split n.
Proof. intros Hn. unfold split. by rewrite N.log2_up_pow2 by lia. Qed.

Lemma list_root_more fuel fuel' l :
  (length l ≤ fuel)%nat → (length l ≤ fuel')%nat → list_root fuel l = list_root fuel' l.
Proof.
  revert fuel' l; induction fuel as [|fuel IH]; intros [|fuel'] [|x [|y l]] Hf Hf'; simpl in Hf, Hf';
    try done; try lia.
  cbn [list_root]. set (l' := x :: y :: l).
  assert (Hl : len l' = N.of_nat (2 + length l)) by done.
  destruct (split_spec (len l')) as [Hs _]; [lia|].
  assert (Hk : ∀ k, 0 < k < len l' → (length (upto k l') ≤ S (length l))%nat ∧
    (length (from k l') ≤ S (length l))%nat).
  { intros k Hk. pose proof (len_upto k l'). pose proof (len_from k l'). unfold len in *. lia. }
  destruct (Hk _ Hs). f_equal; apply IH; lia.
Qed.

(** The part of the leaves a subtree is over, and its root. *)
Definition segment (ls : list (list N)) (start size : N) : list (list N) := upto size (from start ls).
Definition seg_root ls start size : list N := list_root (length ls) (segment ls start size).

Lemma segment_split ls start size k :
  k ≤ size → upto k (segment ls start size) = segment ls start k ∧
    from k (segment ls start size) = segment ls (start + k) (size - k).
Proof.
  intros Hk. unfold segment, upto, from. rewrite take_take. split; [f_equal; lia|].
  rewrite skipn_firstn_comm, drop_drop. f_equal; [|f_equal]; lia.
Qed.
Lemma len_segment ls start size : start + size ≤ len ls → len (segment ls start size) = size.
Proof. intros Hl. unfold segment. rewrite len_upto, len_from. lia. Qed.
Lemma seg_root_leaf ls start x : ls !! N.to_nat start = Some x → seg_root ls start 1 = x.
Proof.
  intros Hx. unfold seg_root, segment, upto, from.
  rewrite (drop_S _ _ _ Hx). change (N.to_nat 1) with 1%nat. rewrite firstn_cons, firstn_O.
  destruct ls; [by rewrite lookup_nil in Hx|done].
Qed.
Lemma seg_root_node ls start size :
  1 < size → start + size ≤ len ls →
  seg_root ls start size =
    hash_node (seg_root ls start (split size)) (seg_root ls (start + split size) (size - split size)).
Proof.
  intros Hs Hl. destruct (split_spec size Hs) as [Hk _]. unfold seg_root.
  pose proof (len_segment ls start size Hl) as Hlen.
  destruct (segment_split ls start size (split size) ltac:(lia)) as [H1s H2s].
  pose proof (len_segment ls start (split size) ltac:(lia)) as Hl1.
  pose proof (len_segment ls (start + split size) (size - split size) ltac:(lia)) as Hl2.
  destruct ls as [|y ls]; [rewrite len_nil in Hl; lia|]. set (all := y :: ls) in *.
  transitivity (list_root (S (length ls)) (segment all start size)); [done|].
  assert (Hm : ∀ seg, len seg < size → list_root (length ls) seg = list_root (length all) seg).
  { intros seg Hseg. apply list_root_more; unfold all, len in *; cbn [length] in *; lia. }
  destruct (segment all start size) as [|a [|b seg]] eqn:Hseg; unfold len in Hlen; cbn [length] in Hlen;
    [lia|lia|]. rewrite <-Hlen in * |-. cbn [list_root].
  replace (len (a :: b :: seg)) with size by (unfold len; cbn [length]; lia).
  rewrite Hlen in *. rewrite H1s, H2s, !Hm by lia. done.
Qed.

Lemma check_proof_node n i x p s :
  1 < n →
  check_proof n i x (p ++ [s]) =
    if i <? split n then (λ h, hash_node h s) <$> check_proof (split n) i x p
    else hash_node s <$> check_proof (n - split n) (i - split n) x p.
Proof.
  intros Hn. unfold check_proof. rewrite rev_unit. cbn [check_down].
  destruct (N.leb_spec n 1); [lia|done].
Qed.

Lemma tree_new_spec fuel ls start size :
  0 < size → size ≤ N.succ (N.of_nat fuel) → start + size ≤ len ls →
  ∃ t, tree_new fuel ls start size = Ret t ∧ height t = N.log2_up size ∧
    value ls t = Ret (seg_root ls start size) ∧
    ∀ i, i < size → ∃ p x, get_proof t ls i = Ret p ∧ len p ≤ N.log2_up size ∧
      ls !! N.to_nat (start + i) = Some x ∧ check_proof size i x p = Some (seg_root ls start size).
Proof.
  revert start size; induction fuel as [|fuel IH]; intros start size Hs Hf Hl; cbn [tree_new];
    (destruct (N.eqb_spec size 1) as [->|H1s];
      [destruct (lookup_lt_is_Some_2 ls (N.to_nat start)) as [x Hx]; [unfold len in Hl; lia|];
       exists (Leaf start); rewrite (seg_root_leaf _ _ x Hx); split_and!;
         [done|done|by unfold value, at_index; rewrite Hx|];
       intros i Hi; exists [], x; replace (start + i) with start by lia; done|]); [lia|].
  destruct (split_spec size ltac:(lia)) as [Hk Hk2]. set (k := split size) in *.
  rewrite largest_power_spec by lia. cbn [obind]. fold k.
  destruct (IH start k) as (l & -> & Hhl & Hvl & Hpl); [lia..|]. cbn [obind].
  destruct (IH (start + k) (size - k)) as (r & -> & Hhr & Hvr & Hpr); [lia..|]. cbn [obind].
  rewrite Hvl, Hvr. cbn [obind]. eexists. split; [done|].
  assert (Hlog : N.log2_up k + 1 = N.log2_up size) by (apply split_log; lia).
  assert (Hfull : pow2 (height l) = k) by (rewrite pow2_spec, Hhl; apply split_full; lia).
  assert (Hroot : hash_node (seg_root ls start k) (seg_root ls (start + k) (size - k)) =
    seg_root ls start size) by (symmetry; apply seg_root_node; lia).
  split_and!; [cbn [height]; lia|cbn [value]; by rewrite Hroot|].
  intros i Hi. cbn [get_proof]. rewrite Hfull.
  assert (Hcheck := λ p s x, check_proof_node size i x p s). fold k in Hcheck.
  destruct (N.ltb_spec i k) as [Hik|Hik].
  - destruct (Hpl i Hik) as (p & x & -> & Hlen & Hx & Hc). cbn [obind fst snd]. rewrite Hvr. cbn [obind].
    do 2 eexists. split; [done|]. split; [rewrite len_app; unfold len in *; cbn [length]; lia|].
    split; [exact Hx|]. rewrite Hcheck, Hc by lia. cbn. by rewrite Hroot.
  - destruct (Hpr (i - k)) as (p & x & -> & Hlen & Hx & Hc); [lia|]. cbn [obind fst snd].
    rewrite Hvl. cbn [obind]. do 2 eexists. split; [done|].
    assert (N.log2_up (size - k) ≤ N.log2_up k) by (apply N.log2_up_le_mono; lia).
    split; [rewrite len_app; unfold len in *; cbn [length]; lia|].
    replace (start + k + (i - k)) with (start + i) in Hx by lia.
    split; [exact Hx|]. rewrite Hcheck, Hc by lia. cbn. by rewrite Hroot.
Qed.

Lemma largest_power_0 : largest_power_of_2_less_than 0 = Panic.
Proof. done. Qed.

(** The root by its definition. *)
Definition root_of (ls : list (list N)) : list N := list_root (length ls) ls.
Lemma seg_root_all ls : seg_root ls 0 (len ls) = root_of ls.
Proof. unfold seg_root, segment. by rewrite upto_all by (rewrite len_from; lia). Qed.

Lemma new_spec ls :
  ls ≠ [] → ∃ t, new ls = Ret t ∧ leaves t = ls ∧ root_hash t = Ret (root_of ls) ∧
    ∀ i, i < len ls → ∃ p x, get_leaf_proof t i = Ret (Some p) ∧ get_leaf t i = Some x ∧
      ls !! N.to_nat i = Some x ∧
      len p ≤ N.log2_up (len ls) ∧ check_proof (len ls) i x p = Some (root_of ls).
Proof.
  intros Hne. assert (Hpos : 0 < len ls) by (destruct ls; [done|unfold len; simpl; lia]).
  unfold new. destruct (tree_new_spec (S (length ls)) ls 0 (len ls)) as (t & -> & _ & Hv & Hp);
    [done|unfold len; lia|lia|]. rewrite seg_root_all in *. cbn [obind].
  eexists. split; [done|]. split; [done|]. split; [done|]. intros i Hi.
  destruct (Hp i Hi) as (p & x & Hgp & Hlen & Hx & Hc). rewrite N.add_0_l in Hx.
  exists p, x. unfold get_leaf_proof. cbn [leaves root]. destruct (N.leb_spec (len ls) i); [lia|].
  by rewrite Hgp.
Qed.

(** The Ledger client builds a tree from any list of hashes but the empty one,
    which panics; its root is the one the definition gives, with the split a device
    makes; and the proof of every leaf checks against that root, on a device that
    knows the number of leaves and the index, and is as short as the tree is high. *)
Theorem leaf_proofs_check ls :
  (new ls = Panic ↔ ls = []) ∧
  ∀ t, new ls = Ret t → root_hash t = Ret (root_of ls) ∧
    (∀ i, len ls ≤ i → get_leaf_proof t i = Ret None) ∧
    ∀ i, i < len ls → ∃ p x, get_leaf_proof t i = Ret (Some p) ∧ ls !! N.to_nat i = Some x ∧
      len p ≤ N.log2_up (len ls) ∧ check_proof (len ls) i x p = Some (root_of ls).
Proof.
  split.
  - split; [|by intros ->]. intros Hp. destruct (decide (ls = [])) as [|Hne]; [done|].
    destruct (new_spec ls Hne) as (t & Ht & _). congruence.
  - intros t Ht. assert (Hne : ls ≠ []) by (by intros ->).
    destruct (new_spec ls Hne) as (t' & Ht' & Hl & Hroot & Hp). assert (t' = t) as -> by congruence.
    split; [done|]. split.
    + intros i Hi. unfold get_leaf_proof. rewrite Hl. by destruct (N.leb_spec (len ls) i); [|lia].
    + intros i Hi. destruct (Hp i Hi) as (p & x & ? & _ & ? & ? & ?). eauto 10.
Qed.

(** *** What a root commits to *)

(** The inputs hashed when the root is computed, and when a proof is checked. *)
Fixpoint root_inputs (fuel : nat) (l : list (list N)) : list (list N) :=
  match fuel, l with
  | O, _ | _, [] | _, [_] => []
  | S fuel, _ =>
      let k := split (len l) in
      (1 :: list_root fuel (upto k l) ++ list_root fuel (from k l)) ::
      root_inputs fuel (upto k l) ++ root_inputs fuel (from k l)
  end.
Fixpoint check_inputs (n i : N) (x : list N) (siblings : list (list N)) : list (list N) :=
  match siblings with
  | [] => []
  | s :: siblings =>
      if i <? split n then
        (1 :: default [] (check_down (split n) i x siblings) ++ s) :: check_inputs (split n) i x siblings
      else
        (1 :: s ++ default [] (check_down (n - split n) (i - split n) x siblings)) ::
        check_inputs (n - split n) (i - split n) x siblings
  end.

Context `{!Sha256Laws}.

Lemma len_list_root fuel l :
  0 < len l → len l ≤ N.of_nat fuel → Forall (λ x, len x = 32) l → len (list_root fuel l) = 32.
Proof.
  intros Hl Hf Hx. destruct fuel as [|fuel]; [lia|]. destruct l as [|x [|y l]]; [done| |].
  - by apply Forall_cons in Hx as [? _].
  - cbn [list_root]. apply len_sha256.
Qed.
Lemma len_check_down n i x sib h : len x = 32 → check_down n i x sib = Some h → len h = 32.
Proof.
  intros Hx. destruct sib as [|s sib]; cbn [check_down].
  - destruct (n =? 1); [|done]. by intros [= <-].
  - destruct (n <=? 1); [done|]. destruct (i <? split n); intros (h' & _ & ->)%fmap_Some; apply len_sha256.
Qed.

Lemma check_down_binds fuel l i x sib :
  0 < len l → len l ≤ N.of_nat fuel → i < len l → Forall (λ y, len y = 32) l → len x = 32 →
  Forall (λ y, len y = 32) sib →
  (∀ a b, a ∈ root_inputs fuel l → b ∈ check_inputs (len l) i x sib → sha256 a = sha256 b → a = b) →
  check_down (len l) i x sib = Some (list_root fuel l) → l !! N.to_nat i = Some x.
Proof.
  revert fuel l i; induction sib as [|s sib IH]; intros fuel l i Hl Hf Hi Hls Hx Hsib Hinj Hc.
  { cbn [check_down] in Hc. destruct (N.eqb_spec (len l) 1) as [H1l|]; [|done].
    destruct l as [|y [|z l]]; [done| |unfold len in H1l; simpl in H1l; lia].
    destruct fuel; [lia|]. injection Hc as ->. by replace i with 0 by lia. }
  apply Forall_cons in Hsib as [Hs Hsib]. cbn [check_down] in Hc.
  destruct (N.leb_spec (len l) 1) as [|H1l]; [done|].
  destruct (split_spec (len l) H1l) as [Hk _]. destruct fuel as [|fuel]; [lia|].
  assert (Hroot : list_root (S fuel) l = hash_node (list_root fuel (upto (split (len l)) l))
    (list_root fuel (from (split (len l)) l))).
  { destruct l as [|y [|z l]]; [done|unfold len in H1l; simpl in H1l; lia|done]. }
  assert (Hin : root_inputs (S fuel) l = (1 :: list_root fuel (upto (split (len l)) l) ++
      list_root fuel (from (split (len l)) l)) ::
      root_inputs fuel (upto (split (len l)) l) ++ root_inputs fuel (from (split (len l)) l)).
  { destruct l as [|y [|z l]]; [done|unfold len in H1l; simpl in H1l; lia|done]. }
  rewrite Hroot in Hc. rewrite Hin in Hinj. clear Hroot Hin.
  set (k := split (len l)) in *.
  pose proof (len_upto k l) as Hlu. pose proof (len_from k l) as Hlf.
  assert (Hu : Forall (λ y, len y = 32) (upto k l)) by (by apply Forall_take).
  assert (Hfr : Forall (λ y, len y = 32) (from k l)) by (by apply Forall_drop).
  assert (len (list_root fuel (upto k l)) = 32) by (apply len_list_root; [lia|lia|done]).
  assert (len (list_root fuel (from k l)) = 32) by (apply len_list_root; [lia|lia|done]).
  cbn [check_inputs] in Hinj. fold k in Hinj.
  destruct (N.ltb_spec i k) as [Hik|Hik]; apply fmap_Some in Hc as (h & Hd & Hh); rewrite Hd in Hinj;
    cbn [default] in Hinj; pose proof (len_check_down _ _ _ _ _ Hx Hd) as Hlh;
    specialize (Hinj _ _ ltac:(left) ltac:(left) Hh) as Heq.
  - injection Heq as Heq. apply app_inj_1 in Heq as [Heq _]; [|unfold len in *; lia].
    rewrite <-Heq in Hd. replace k with (len (upto k l)) in Hd at 1 by lia.
    apply (IH fuel) in Hd; [|lia|lia|lia|done..|].
    + unfold upto in Hd. by rewrite lookup_take_Some in Hd; destruct Hd.
    + replace (len (upto k l)) with k by lia. intros a b Ha Hb. apply Hinj;
        [apply elem_of_cons; right; apply elem_of_app; by left|by apply elem_of_cons; right].
  - injection Heq as Heq. apply app_inj_1 in Heq as [_ Heq]; [|unfold len in *; lia].
    rewrite <-Heq in Hd. replace (len l - k) with (len (from k l)) in Hd by lia.
    apply (IH fuel) in Hd; [|lia|lia|lia|done..|].
    + unfold from in Hd. rewrite lookup_drop in Hd. rewrite <-Hd. f_equal. lia.
    + replace (len (from k l)) with (len l - k) by lia. intros a b Ha Hb. apply Hinj;
        [apply elem_of_cons; right; apply elem_of_app; by right|by apply elem_of_cons; right].
Qed.

(** The root commits to the leaves: whatever a device is given that checks against
    the root of a list, at an index below its size, is the leaf at that index, unless
    two different inputs of SHA-256, hashed for the root or for the check, collide. *)
Theorem proof_binds ls i x p :
  i < len ls → Forall (λ y, len y = 32) ls → len x = 32 → Forall (λ y, len y = 32) p →
  (∀ a b, a ∈ root_inputs (length ls) ls → b ∈ check_inputs (len ls) i x (rev p) →
     sha256 a = sha256 b → a = b) →
  check_proof (len ls) i x p = Some (root_of ls) → ls !! N.to_nat i = Some x.
Proof.
  intros Hi Hls Hx Hp Hinj Hc. apply (check_down_binds (length ls) ls i x (rev p));
    [lia|unfold len; lia|done|done|done|by apply List.Forall_rev|done|done].
Qed.

(** Nodes, and so the proofs, are hashes. *)
Fixpoint node_len (t : Tree) : Prop :=
  match t with Leaf _ => True | Node v l r _ => len v = 32 ∧ node_len l ∧ node_len r end.
Lemma tree_new_len fuel ls start n t : tree_new fuel ls start n = Ret t → node_len t.
Proof.
  revert start n t; induction fuel as [|fuel IH]; intros start n t; cbn [tree_new];
    (destruct (n =? 1); [by intros [= <-]|]); [done|].
  intros (k & _ & (l & Hl & (r & Hr & (lv & _ & (rv & _ & [= <-])%obind_Ret)%obind_Ret)%obind_Ret)%obind_Ret)%obind_Ret.
  cbn [node_len]. split_and!; [apply len_sha256|by eapply IH|by eapply IH].
Qed.
Lemma value_len ls t v :
  Forall (λ x, len x = 32) ls → node_len t → value ls t = Ret v → len v = 32.
Proof.
  intros Hls. destruct t as [w l r h|i]; cbn [value node_len]; [by intros (? & _ & _) [= <-]|].
  intros _ Hv%expect_Ret. by eapply Forall_lookup_1 in Hls.
Qed.
Lemma get_proof_len ls t i p :
  Forall (λ x, len x = 32) ls → node_len t → get_proof t ls i = Ret p → Forall (λ x, len x = 32) p.
Proof.
  intros Hls. revert i p; induction t as [v l IHl r IHr h|j]; intros i p Ht; cbn [get_proof];
    [|by intros [= <-]].
  destruct Ht as (_ & Hl & Hr). intros (ps & Hps & (w & Hw & [= <-])%obind_Ret)%obind_Ret.
  destruct (i <? pow2 (height l)); apply obind_Ret in Hps as (q & Hq & [= <-]); cbn [fst snd] in *;
    (apply Forall_app; split; [eauto|constructor; [|done]; eapply value_len; [exact Hls| |exact Hw]; done]).
Qed.
Lemma leaf_proof_len ls t i p :
  Forall (λ x, len x = 32) ls → new ls = Ret t → get_leaf_proof t i = Ret (Some p) →
  Forall (λ x, len x = 32) p.
Proof.
  intros Hls (r & Hr & [= <-])%obind_Ret. unfold get_leaf_proof. cbn [leaves root].
  destruct (len ls <=? i); [done|]. intros (q & Hq & [= <-])%obind_Ret.
  eapply get_proof_len; [done| |done]. by eapply tree_new_len.
Qed.
End proofs.

Module Witness.
(** Thirty-two digits of a polynomial hash. *)
Definition digits (h : N) : list N := (λ k, h / 256 ^ k mod 256) <$> nseq 0 32.
#[export] Instance sample_sha : Sha256 := λ b,
  digits (foldl (λ h x, (h * 1000003 + x + 1) mod 2 ^ 256) 7 b).
#[export] Instance sample_sha_laws : Sha256Laws.
Proof. intros b. unfold sha256, sample_sha, digits, len. by rewrite length_fmap, length_nseq. Qed.

Definition five : list (list N) := (λ x, sha256 [x]) <$> [10; 20; 30; 40; 50].
Definition five_tree : MerkleTree :=
  match new five with Ret t => t | Panic => mkMerkleTree (Leaf 0) [] end.
Example five_split : split 5 = 4. Proof. reflexivity. Qed.

Lemma leaf_proofs_check_witness :
  (new (@nil (list N)) = Panic) ∧ root_hash five_tree = Ret (root_of five) ∧
  get_leaf_proof five_tree 5 = Ret None ∧
  ∃ p x, get_leaf_proof five_tree 4 = Ret (Some p) ∧ five !! N.to_nat 4 = Some x ∧
    len p ≤ N.log2_up (len five) ∧ check_proof (len five) 4 x p = Some (root_of five).
Proof.
  split; [by apply (leaf_proofs_check [])|].
  destruct (proj2 (leaf_proofs_check five) five_tree) as (Hroot & Hout & Hin); [vm_compute; reflexivity|].
  split; [done|]. split; [apply Hout; vm_compute; discriminate|apply Hin; vm_compute; reflexivity].
Defined.

Definition proof4 : list (list N) :=
  match get_leaf_proof five_tree 4 with Ret (Some p) => p | _ => [] end.
(** Different inputs of both lists hash differently. *)
Definition no_collision (l k : list (list N)) : bool :=
  forallb (λ a, forallb (λ b, implb (bool_decide (sha256 a = sha256 b)) (bool_decide (a = b))) k) l.
Lemma no_collision_spec l k :
  no_collision l k = true → ∀ a b, a ∈ l → b ∈ k → sha256 a = sha256 b → a = b.
Proof.
  intros Hc a b Ha Hb Hh. unfold no_collision in Hc.
  apply (proj1 (forallb_forall _ _)) with (x := a) in Hc; [|by apply list_elem_of_In].
  apply (proj1 (forallb_forall _ _)) with (x := b) in Hc; [|by apply list_elem_of_In].
  rewrite (bool_decide_true _ Hh) in Hc. by apply bool_decide_eq_true in Hc.
Qed.
Lemma proof_binds_witness : five !! N.to_nat 4 = Some (sha256 [50]).
Proof.
  apply (proof_binds five 4 (sha256 [50]) proof4).
  - vm_compute. reflexivity.
  - repeat constructor.
  - reflexivity.
  - change (Forall (λ y, len y = 32) proof4).
    assert (Hp : forallb (λ y, len y =? 32) proof4 = true) by (vm_compute; reflexivity).
    apply Forall_forall. intros y Hy. apply N.eqb_eq.
    by apply (proj1 (forallb_forall _ _) Hp y), list_elem_of_In.
  - apply no_collision_spec. vm_compute. reflexivity.
  - vm_compute. reflexivity.
Defined.
End Witness.
End LedgerMerkle.
