(* ===== verification/Ledger.v ===== *)
(** * The Ledger client (hwi/src/ledger/bitcoin_client/apdu.rs, command.rs,
      interpreter.rs, client.rs)

    While it executes a request, a Ledger device asks the client for data it was only
    given a hash of: preimages, merkle proofs, positions in a list. The interpreter
    answers, over a queue when an answer does not fit a message. A device is a
    program: what it answers next, depending on the command it receives. The VarInt of
    the bitcoin crate is a parameter. *)
From stdpp Require Import base list.
From Stdlib Require Import Lia.
From S2P Require Import Prelude Bytes LedgerMerkle.

Module Ledger.
Import LedgerMerkle.

(** ** Messages (apdu.rs, command.rs) *)

Inductive ClientCommandCode := Yield | GetPreimage | GetMerkleLeafProof | GetMerkleLeafIndex | GetMoreElements.
Definition code_byte (c : ClientCommandCode) : N :=
  match c with
  | Yield => 16 | GetPreimage => 64 | GetMerkleLeafProof => 65 | GetMerkleLeafIndex => 66
  | GetMoreElements => 160
  end.
Definition try_from (b : N) : option ClientCommandCode :=
  if b =? 16 then Some Yield
  else if b =? 64 then Some GetPreimage
  else if b =? 65 then Some GetMerkleLeafProof
  else if b =? 66 then Some GetMerkleLeafIndex
  else if b =? 160 then Some GetMoreElements
  else None.

Inductive StatusWord :=
  | Deny | IncorrectData | NotSupported | WrongP1P2 | WrongDataLength | InsNotSupported
  | ClaNotSupported | BadState | SignatureFail | OK | InterruptedExecution | Unknown.

Record APDUCommand := mkAPDU { cla : N; ins : N; p1 : N; p2 : N; data : list N }.
Definition as_u8 (n : N) : N := n mod 256.
Definition encode (c : APDUCommand) : list N := [cla c; ins c; p1 c; p2 c; as_u8 (len (data c))] ++ data c.
Definition continue_interrupted (d : list N) : APDUCommand := mkAPDU 248 1 0 1 d.

(** [u32::to_be_bytes] *)
Definition u32_to_be_bytes (x : N) : list N := rev (u32_to_le_bytes x).

Class VarIntLib := {
  varint : N → list N;                           (* serialize *)
  varint_partial : list N → option (N * N);      (* deserialize_partial *)
  varint_exact : list N → option N               (* deserialize *)
}.
Class VarIntLaws `{VarIntLib} := {
  len_varint v : 1 ≤ len (varint v) ≤ 9;
  partial_varint v b : v < 2 ^ 64 → varint_partial (varint v ++ b) = Some (v, len (varint v));
  exact_varint v : v < 2 ^ 64 → varint_exact (varint v) = Some v
}.

(** ** The interpreter (interpreter.rs) *)

Inductive InterpreterError :=
  | EmptyInput | UnknownCommand (b : N) | UnsupportedRequest (b : N) | InvalidIndexOrSize
  | UnknownHash | UnknownMerkleRoot | UnexpectedQueue.

Record ClientCommandInterpreter := mkInterpreter {
  yielded : list (list N);
  queue : list (list N);
  known_preimages : list (list N * list N);
  trees : list MerkleTree
}.
Definition new_interpreter : ClientCommandInterpreter := mkInterpreter [] [] [] [].
Definition set_queue (q : list (list N)) (s : ClientCommandInterpreter) : ClientCommandInterpreter :=
  mkInterpreter (yielded s) q (known_preimages s) (trees s).

Section ledger.
Context `{Sha256} `{VarIntLib}.

Definition add_known_preimage (element : list N) (s : ClientCommandInterpreter) : ClientCommandInterpreter :=
  mkInterpreter (yielded s) (queue s) (known_preimages s ++ [(sha256 element, element)]) (trees s).

(** The preimage of a list element. *)
Definition element_preimage (element : list N) : list N := 0 :: element.
Definition add_known_list (elements : list (list N)) (s : ClientCommandInterpreter) :
    outcome (ClientCommandInterpreter * list N) :=
  let s := foldl (λ s element, add_known_preimage (element_preimage element) s) s elements in
  let! tree := new ((λ element, sha256 (element_preimage element)) <$> elements) in
  let! root := root_hash tree in
  Ret (mkInterpreter (yielded s) (queue s) (known_preimages s) (trees s ++ [tree]), root).

Definition sort_mapping (mapping : list (list N * list N)) : list (list N * list N) :=
  sort_by (λ a b, key_leb a.1 b.1) mapping.
Definition add_known_mapping (mapping : list (list N * list N)) (s : ClientCommandInterpreter) :
    outcome ClientCommandInterpreter :=
  let sorted := sort_mapping mapping in
  let! s := add_known_list sorted.*1 s in
  let! s := add_known_list sorted.*2 s.1 in
  Ret s.1.

Definition get_preimage_command (q : list (list N)) (known : list (list N * list N)) (request : list N) :
    list (list N) * result (list N) InterpreterError :=
  if negb (len request =? 33) || negb (bool_decide (head request = Some 0))
  then (q, Err (UnsupportedRequest (code_byte GetPreimage)))
  else
    match find (λ hp, bool_decide (hp.1 = from 1 request)) known with
    | None => (q, Err UnknownHash)
    | Some (_, preimage) =>
        let preimage_len_out := varint (len preimage) in
        let max_payload_size := 255 - len preimage_len_out - 1 in
        let payload_size := N.min max_payload_size (len preimage) in
        (q ++ ((λ byte, [byte]) <$> from payload_size preimage),
         Ok (preimage_len_out ++ [as_u8 payload_size] ++ upto payload_size preimage))
    end.

(** [trees.iter().find(|tree| tree.root_hash() == root)] *)
Fixpoint find_tree (root : list N) (ts : list MerkleTree) : outcome (option MerkleTree) :=
  match ts with
  | [] => Ret None
  | t :: ts => let! h := root_hash t in if bool_decide (h = root) then Ret (Some t) else find_tree root ts
  end.

Definition get_merkle_leaf_proof (q : list (list N)) (ts : list MerkleTree) (request : list N) :
    outcome (list (list N) * result (list N) InterpreterError) :=
  let unsupported := UnsupportedRequest (code_byte GetMerkleLeafProof) in
  if negb (bool_decide (q = [])) then Ret (q, Err UnexpectedQueue)
  else if len request <? 34 then Ret (q, Err unsupported)
  else
    match varint_partial (from 32 request) with
    | None => Ret (q, Err unsupported)
    | Some (tree_size, read) =>
        match varint_exact (from (32 + read) request) with
        | None => Ret (q, Err unsupported)
        | Some leaf_index =>
            let! found := find_tree (upto 32 request) ts in
            match found with
            | None => Ret (q, Err UnknownHash)
            | Some tree =>
                if (tree_size <=? leaf_index) || negb (tree_size =? size tree)
                then Ret (q, Err InvalidIndexOrSize)
                else
                  let! proof := get_leaf_proof tree leaf_index in
                  match proof with
                  | None => Ret (q, Err InvalidIndexOrSize)
                  | Some proof =>
                      let! leaf := expect (get_leaf tree leaf_index) in
                      Ret (q ++ from 6 proof,
                           Ok (leaf ++ [as_u8 (len proof)] ++ [as_u8 (len (upto 6 proof))] ++
                               concat (upto 6 proof)))
                  end
            end
        end
    end.

Definition get_merkle_leaf_index (ts : list MerkleTree) (request : list N) :
    outcome (result (list N) InterpreterError) :=
  if len request <? 64 then Ret (Err (UnsupportedRequest (code_byte GetMerkleLeafIndex)))
  else
    let! found := find_tree (upto 32 request) ts in
    match found with
    | None => Ret (Err UnknownHash)
    | Some tree =>
        match get_leaf_index tree (upto 32 (from 32 request)) with
        | None => Ret (Err UnknownHash)
        | Some i => Ret (Ok (1 :: varint i))
        end
    end.

(** The elements that fit: what they hold, and how many. *)
Definition add_element (element_length : N) (acc : list N * N) (element : list N) : list N * N :=
  if len acc.1 + element_length <=? 253 then (acc.1 ++ element, acc.2 + 1) else acc.
Definition get_more_elements (q : list (list N)) : list (list N) * result (list N) InterpreterError :=
  match q with
  | [] => (q, Err UnexpectedQueue)
  | first :: _ =>
      let element_length := len first in
      if existsb (λ e, negb (len e =? element_length)) q then (q, Err UnexpectedQueue)
      else
        let '(elements, n) := foldl (add_element element_length) ([], 0) q in
        (from n q, Ok ([as_u8 n] ++ [as_u8 element_length] ++ elements))
  end.

Definition execute (command : list N) (s : ClientCommandInterpreter) :
    outcome (ClientCommandInterpreter * result (list N) InterpreterError) :=
  match command with
  | [] => Ret (s, Err EmptyInput)
  | code :: request =>
      match try_from code with
      | Some Yield =>
          Ret (mkInterpreter (yielded s ++ [request]) (queue s) (known_preimages s) (trees s), Ok [])
      | Some GetPreimage =>
          let '(q, r) := get_preimage_command (queue s) (known_preimages s) request in
          Ret (set_queue q s, r)
      | Some GetMerkleLeafProof =>
          let! qr := get_merkle_leaf_proof (queue s) (trees s) request in
          Ret (set_queue qr.1 s, qr.2)
      | Some GetMerkleLeafIndex =>
          let! r := get_merkle_leaf_index (trees s) request in Ret (s, r)
      | Some GetMoreElements =>
          let '(q, r) := get_more_elements (queue s) in Ret (set_queue q s, r)
      | None => Ret (s, Err (UnknownCommand code))
      end
  end.

Definition get_merkleized_map_commitment (mapping : list (list N * list N)) : outcome (list N) :=
  let sorted := sort_mapping mapping in
  let hashes (l : list (list N)) := (λ x, sha256 (element_preimage x)) <$> l in
  let! keys := new (hashes sorted.*1) in
  let! keys_root := root_hash keys in
  let! values := new (hashes sorted.*2) in
  let! values_root := root_hash values in
  Ret (varint (len sorted) ++ keys_root ++ values_root).

(** ** Requests (client.rs) *)

(** A device between two commands: what it answers, and what it does with the next
    command; or the transport fails. *)
Inductive Device (E : Type) :=
  | Fails (e : E)
  | Answers (sw : StatusWord) (d : list N) (next : APDUCommand → Device E).
#[global] Arguments Fails {E}.
#[global] Arguments Answers {E}.

Inductive ClientError (E : Type) :=
  | Transport (e : E) | Interpreter (e : InterpreterError) | DeviceError (sw : StatusWord) (command : N)
  | UnexpectedResult (command : N) (d : list N).
#[global] Arguments Transport {E}.
#[global] Arguments Interpreter {E}.
#[global] Arguments DeviceError {E}.
#[global] Arguments UnexpectedResult {E}.

(** The answer to a request once the device asks for nothing more. *)
Definition finish {E} (command : N) (sw : StatusWord) (d : list N) : result (list N) (ClientError E) :=
  match sw with OK => Ok d | _ => Err (DeviceError sw command) end.
Fixpoint serve {E} (command : N) (dev : Device E) (s : ClientCommandInterpreter) :
    outcome (ClientCommandInterpreter * result (list N) (ClientError E)) :=
  match dev with
  | Fails e => Ret (s, Err (Transport e))
  | Answers InterruptedExecution d next =>
      let! r := execute d s in
      match r with
      | (s, Ok response) => serve command (next (continue_interrupted response)) s
      | (s, Err e) => Ret (s, Err (Interpreter e))
      end
  | Answers sw d _ => Ret (s, finish command sw d)
  end.
Definition make_request {E} (dev : APDUCommand → Device E) (req : APDUCommand)
    (interpreter : option ClientCommandInterpreter) :
    outcome (option ClientCommandInterpreter * result (list N) (ClientError E)) :=
  match interpreter with
  | Some s => let! r := serve (ins req) (dev req) s in Ret (Some r.1, r.2)
  | None =>
      Ret (None, match dev req with
                 | Fails e => Err (Transport e)
                 | Answers sw d _ => finish (ins req) sw d
                 end)
  end.

Definition sign_message_command (message_length : N) (message_commitment_root : list N) (path : list N) :
    APDUCommand :=
  mkAPDU 225 16 0 1
    ((as_u8 (len path) :: flat_map u32_to_be_bytes path) ++ varint message_length ++
     message_commitment_root).
(** [from_compact] of the secp256k1 crate is a parameter. *)
Definition sign_message {E Sig} (from_compact : list N → option Sig) (dev : APDUCommand → Device E)
    (message path : list N) : outcome (result (N * Sig) (ClientError E)) :=
  let! sr := add_known_list (chunks 64 message) new_interpreter in
  let cmd := sign_message_command (len message) sr.2 path in
  let! r := make_request dev cmd (Some sr.1) in
  match r.2 with
  | Err e => Ret (Err e)
  | Ok d =>
      let! first := expect (head d) in
      Ret (match from_compact (from 1 d) with
           | Some sig => Ok (first, sig)
           | None => Err (UnexpectedResult (ins cmd) d)
           end)
  end.
Definition get_master_fingerprint {E} (dev : APDUCommand → Device E) :
    outcome (result (list N) (ClientError E)) :=
  let cmd := mkAPDU 225 5 0 1 [] in
  let! r := make_request dev cmd None in
  Ret (match r.2 with
       | Err e => Err e
       | Ok d => if len d <? 4 then Err (UnexpectedResult (ins cmd) d) else Ok (upto 4 d)
       end).

(** What the client lets the interpreter know before a request. *)
Inductive Known := KPreimage (e : list N) | KList (l : list (list N)) | KMapping (m : list (list N * list N)).
Definition learn (s : ClientCommandInterpreter) (k : Known) : outcome ClientCommandInterpreter :=
  match k with
  | KPreimage e => Ret (add_known_preimage e s)
  | KList l => let! r := add_known_list l s in Ret r.1
  | KMapping m => add_known_mapping m s
  end.

(** ** What a device does with the answers *)

(** [missing] bytes are still to come. *)
Fixpoint more {E} (fuel : nat) (missing : N) (acc : list N) (k : option (list N) → Device E) : Device E :=
  if missing =? 0 then k (Some acc)
  else
    match fuel with
    | O => k None
    | S fuel =>
        Answers InterruptedExecution [code_byte GetMoreElements] (λ cmd,
          match data cmd with
          | _ :: _ :: bytes => more fuel (missing - len bytes) (acc ++ bytes) k
          | _ => k None
          end)
    end.
(** The preimage of a hash, checked. *)
Definition fetch_preimage {E} (h : list N) (k : option (list N) → Device E) : Device E :=
  Answers InterruptedExecution (code_byte GetPreimage :: 0 :: h) (λ cmd,
    match varint_partial (data cmd) with
    | Some (l, read) =>
        match from read (data cmd) with
        | _ :: payload =>
            more (N.to_nat l) (l - len payload) payload (λ o,
              k (o ≫= λ p, if decide (sha256 p = h) then Some p else None))
        | [] => k None
        end
    | None => k None
    end).
(** The leaf at an index of a list, with a proof that checks against its root. *)
Definition fetch_leaf {E} (root : list N) (n i : N) (k : option (list N) → Device E) : Device E :=
  Answers InterruptedExecution (code_byte GetMerkleLeafProof :: root ++ varint n ++ varint i) (λ cmd,
    match from 32 (data cmd) with
    | total :: _ :: part =>
        more (N.to_nat total) (32 * total - len part) part (λ o,
          k (o ≫= λ bytes,
               let leaf := upto 32 (data cmd) in
               if decide (check_proof n i leaf (chunks 32 bytes) = Some root) then Some leaf else None))
    | _ => k None
    end).
Definition fetch_index {E} (root h : list N) (k : option N → Device E) : Device E :=
  Answers InterruptedExecution (code_byte GetMerkleLeafIndex :: root ++ h) (λ cmd,
    match data cmd with
    | 1 :: v => k (varint_exact v)
    | _ => k None
    end).

(** The value of a key, from the commitment of its map: the index of the key, both
    leaves at that index, and the preimage of the value's. *)
Definition lookup_value {E} (commitment key : list N) (k : option (list N) → Device E) : Device E :=
  match varint_partial commitment with
  | None => k None
  | Some (n, read) =>
      let keys_root := upto 32 (from read commitment) in
      let values_root := from (read + 32) commitment in
      let h := sha256 (element_preimage key) in
      fetch_index keys_root h (λ i,
        match i with
        | None => k None
        | Some i =>
            fetch_leaf keys_root n i (λ leaf,
              if decide (leaf = Some h) then
                fetch_leaf values_root n i (λ leaf,
                  match leaf with
                  | None => k None
                  | Some leaf =>
                      fetch_preimage leaf (λ p,
                        match p with Some (0 :: v) => k (Some v) | _ => k None end)
                  end)
              else k None)
        end)
  end.
End ledger.

#[global] Arguments as_u8 : simpl never.

(** ** Proofs *)

Section proofs.
Context `{Sha256} `{!Sha256Laws} `{VarIntLaws}.
Implicit Types s : ClientCommandInterpreter.

Lemma as_u8_small n : n < 256 → as_u8 n = n.
Proof. apply N.mod_small. Qed.

(** The interpreter's tables are what they say, and fit the machine. *)
Definition tree_ok (t : MerkleTree) : Prop :=
  new (leaves t) = Ret t ∧ Forall (λ x, len x = 32) (leaves t) ∧ size t < 2 ^ 64.
Record interp_ok s : Prop := {
  io_preimages h p : (h, p) ∈ known_preimages s → h = sha256 p;
  io_trees t : t ∈ trees s → tree_ok t
}.

Lemma tree_ok_spec t :
  tree_ok t → root_hash t = Ret (root_of (leaves t)) ∧
    ∀ i, i < size t → ∃ p x, get_leaf_proof t i = Ret (Some p) ∧ get_leaf t i = Some x ∧
      len p ≤ 64 ∧ len x = 32 ∧ check_proof (size t) i x p = Some (root_of (leaves t)).
Proof.
  intros (Hnew & H32 & Hsz). assert (Hne : leaves t ≠ []) by (intros Hn; rewrite Hn in Hnew; done).
  destruct (new_spec _ Hne) as (t' & Hn & _ & Hroot & Hp). assert (t' = t) as -> by congruence.
  split; [done|]. intros i Hi. destruct (Hp i Hi) as (p & x & ? & Hx & Hl & Hlen & ?).
  exists p, x. split_and!; try done.
  - etrans; [exact Hlen|]. rewrite <-(N.log2_up_pow2 64) by done. apply N.log2_up_le_mono. unfold size in Hsz. lia.
  - eapply Forall_lookup_1 in H32; [|exact Hl]. done.
Qed.

(** *** The queue *)

Lemma more_fold e q acc n :
  len acc ≤ 253 → Forall (λ x, len x = e) q →
  ∃ m, m ≤ len q ∧ foldl (add_element e) (acc, n) q = (acc ++ concat (upto m q), n + m) ∧
    len acc + e * m ≤ 253 ∧ (m < len q → 253 < len acc + e * m + e).
Proof.
  revert acc n; induction q as [|x q IH]; intros acc n Hacc Hq.
  { exists 0. cbn. rewrite app_nil_r, N.add_0_r, N.mul_0_r, N.add_0_r. split_and!; try done. }
  apply Forall_cons in Hq as [Hx Hq]. cbn [foldl]. unfold add_element at 2. cbn [fst snd].
  destruct (N.leb_spec (len acc + e) 253) as [Hfit|Hfit].
  - destruct (IH (acc ++ x) (n + 1)) as (m & Hm & -> & Hle & Hlt);
      [rewrite len_app; lia|done|]. rewrite len_app, Hx in *.
    exists (1 + m). unfold len in *. cbn [length]. split_and!; [lia| |lia|lia].
    unfold upto. replace (N.to_nat (1 + m)) with (S (N.to_nat m)) by lia. cbn [take concat].
    rewrite app_assoc. f_equal. lia.
  - destruct (IH acc n Hacc Hq) as (m & Hm & -> & Hle & Hlt). assert (m = 0) as ->.
    { destruct (N.eq_0_gt_0_cases m) as [|Hp]; [done|].
      assert (e * 1 ≤ e * m) by (apply N.mul_le_mono_l; lia). lia. }
    exists 0. cbn. rewrite N.mul_0_r, N.add_0_r in *. split_and!; [lia|done|lia|lia].
Qed.

Lemma get_more_spec e x q :
  Forall (λ y, len y = e) (x :: q) → e ≤ 253 →
  ∃ m, m ≤ len (x :: q) ∧ (0 < e → 0 < m) ∧ e * m ≤ 253 ∧
    get_more_elements (x :: q) =
      (from m (x :: q), Ok ([as_u8 m] ++ [as_u8 e] ++ concat (upto m (x :: q)))).
Proof.
  intros Hq He. destruct (more_fold e (x :: q) [] 0) as (m & Hm & Hf & Hle & Hlt); [done|done|].
  exists m. rewrite len_nil in *. split_and!; [done| |lia|].
  - intros Hpos. destruct (N.eq_0_gt_0_cases m) as [->|]; [|done].
    assert (0 < len (x :: q)) by (unfold len; simpl; lia). lia.
  - unfold get_more_elements. apply Forall_cons in Hq as [Hx Hq]. rewrite Hx.
    assert (existsb (λ y, negb (len y =? e)) (x :: q) = false) as ->.
    { apply not_true_is_false. intros (y & Hy%list_elem_of_In & Hne)%existsb_exists.
      assert (Hlen : len y = e).
      { apply elem_of_cons in Hy as [->|Hy]; [done|]. rewrite Forall_forall in Hq. by apply Hq. }
      by rewrite Hlen, N.eqb_refl in Hne. }
    rewrite Hf. by rewrite app_nil_l, N.add_0_l.
Qed.

Lemma find_tree_spec root ts :
  (∀ t, t ∈ ts → tree_ok t) →
  ∃ o, find_tree root ts = Ret o ∧
    match o with
    | Some t => t ∈ ts ∧ root_of (leaves t) = root
    | None => ∀ t, t ∈ ts → root_of (leaves t) ≠ root
    end.
Proof.
  induction ts as [|t ts IH]; intros Hok; [exists None; split; [done|intros t []%elem_of_nil]|].
  destruct (tree_ok_spec t (Hok _ ltac:(left))) as [Hroot _]. cbn [find_tree]. rewrite Hroot. cbn [obind].
  case_bool_decide as Hr; [exists (Some t); split; [done|split; [left|done]]|].
  destruct IH as (o & -> & Ho); [intros t' Ht'; apply Hok; by right|].
  exists o. split; [done|]. destruct o as [t'|].
  - destruct Ho. split; [by right|done].
  - intros t' [->|Ht']%elem_of_cons; [done|by apply Ho].
Qed.

(** *** Every command is answered *)

Lemma preimage_fits q known request q' d :
  get_preimage_command q known request = (q', Ok d) → len d ≤ 255.
Proof.
  unfold get_preimage_command. destruct (_ || _); [done|]. destruct (find _ known) as [[h p]|]; [|done].
  intros [= _ <-]. pose proof (len_varint (len p)). rewrite len_app, len_cons, len_upto. lia.
Qed.
Lemma more_fits q q' d : get_more_elements q = (q', Ok d) → len d ≤ 255.
Proof.
  unfold get_more_elements. destruct q as [|x q]; [done|].
  destruct (existsb _ _) eqn:He; [done|].
  assert (Hq : Forall (λ y, len y = len x) (x :: q)).
  { apply Forall_forall. intros y Hy%list_elem_of_In. apply N.eqb_eq, negb_false_iff.
    apply not_true_is_false. intros Hn. apply not_true_iff_false in He. apply He, existsb_exists. eauto. }
  destruct (more_fold (len x) (x :: q) [] 0 ltac:(done) Hq) as (m & Hm & -> & Hle & _).
  intros [= _ <-]. rewrite len_nil in Hle. rewrite ?app_nil_l, !len_cons.
  rewrite (len_concat (len x)) by (by apply Forall_take). rewrite len_upto, N.min_l by done. lia.
Qed.
Lemma index_fits ts request :
  (∀ t, t ∈ ts → tree_ok t) →
  ∃ r, get_merkle_leaf_index ts request = Ret r ∧ ∀ d, r = Ok d → len d ≤ 255.
Proof.
  intros Hok. unfold get_merkle_leaf_index. destruct (len request <? 64); [by eexists|].
  destruct (find_tree_spec (upto 32 request) ts Hok) as (o & -> & _). cbn [obind].
  destruct o as [t|]; [|by eexists]. destruct (get_leaf_index _ _) as [i|]; [|by eexists].
  eexists. split; [done|]. intros d [= <-]. pose proof (len_varint i).
  rewrite len_cons. lia.
Qed.
Lemma leaf_fits q ts request :
  (∀ t, t ∈ ts → tree_ok t) →
  ∃ qr, get_merkle_leaf_proof q ts request = Ret qr ∧ ∀ d, qr.2 = Ok d → len d ≤ 255.
Proof.
  intros Hok. unfold get_merkle_leaf_proof. destruct (negb _); [by eexists|].
  destruct (len request <? 34); [by eexists|].
  destruct (varint_partial _) as [[n read]|]; [|by eexists]. destruct (varint_exact _) as [i|]; [|by eexists].
  destruct (find_tree_spec (upto 32 request) ts Hok) as (o & -> & Ho). cbn [obind].
  destruct o as [t|]; [|by eexists]. destruct Ho as [Hin _].
  destruct (N.leb_spec n i) as [|Hi]; [by eexists|]. destruct (N.eqb_spec n (size t)) as [->|]; [|by eexists].
  destruct (proj2 (tree_ok_spec t (Hok _ Hin)) i Hi) as (p & x & Hp & Hx & _ & H32 & _).
  cbn [negb orb]. rewrite Hp. cbn [obind]. rewrite Hx. cbn [expect obind].
  eexists. split; [done|]. intros d [= <-]. rewrite len_app, !len_cons.
  assert (Hp32 : Forall (λ y, len y = 32) p) by (eapply leaf_proof_len; [apply Hok|apply Hok|]; eauto).
  rewrite (len_concat 32) by (by apply Forall_take). rewrite len_upto, H32. lia.
Qed.

(** Whatever command a device sends, the interpreter answers or refuses it without
    panicking, keeps what it knows, and an answer is at most 255 bytes: it fits one
    command, and the length byte of that command is its length. *)
Theorem execute_fits command s :
  interp_ok s →
  ∃ s' r, execute command s = Ret (s', r) ∧ interp_ok s' ∧
    known_preimages s' = known_preimages s ∧ trees s' = trees s ∧
    ∀ d, r = Ok d → encode (continue_interrupted d) = [248; 1; 0; 1; len d] ++ d.
Proof.
  intros [Hpre Htrees].
  assert (Hfit : ∀ d, len d ≤ 255 → encode (continue_interrupted d) = [248; 1; 0; 1; len d] ++ d).
  { intros d Hd. unfold encode, continue_interrupted. cbn [data cla ins p1 p2].
    by rewrite as_u8_small by lia. }
  unfold execute. destruct command as [|code request]; [by do 2 eexists|].
  destruct (try_from code) as [[]|]; [| | | | |by do 2 eexists].
  - do 2 eexists. split; [done|]. split_and!; [by split|done|done|]. intros d [= <-]. by apply Hfit.
  - destruct (get_preimage_command _ _ _) as [q r] eqn:Hq. do 2 eexists.
    split; [done|]. split_and!; [by split|done|done|]. intros d ->. by eapply Hfit, preimage_fits.
  - destruct (leaf_fits (queue s) (trees s) request Htrees) as (qr & -> & Hd). do 2 eexists.
    split; [done|]. split_and!; [by split|done|done|]. intros d Hr. by apply Hfit, Hd.
  - destruct (index_fits (trees s) request Htrees) as (r & -> & Hd). do 2 eexists.
    split; [done|]. split_and!; [by split|done|done|]. intros d Hr. by apply Hfit, Hd.
  - destruct (get_more_elements _) as [q r] eqn:Hq. do 2 eexists.
    split; [done|]. split_and!; [by split|done|done|]. intros d ->. by eapply Hfit, more_fits.
Qed.

(** *** Answers longer than a message *)

Lemma set_queue_same s : queue s = [] → set_queue [] s = s.
Proof. destruct s as [y q p t]. cbn. by intros ->. Qed.

Lemma serve_more {E} command e fuel q acc (k : option (list N) → Device E) s :
  0 < e → e ≤ 253 → Forall (λ x, len x = e) q → queue s = q → len q ≤ N.of_nat fuel →
  serve command (more fuel (len (concat q)) acc k) s =
    serve command (k (Some (acc ++ concat q))) (set_queue [] s).
Proof.
  intros He He'. revert q acc s; induction fuel as [|fuel IH]; intros q acc s Hq Hs Hf;
    (destruct q as [|x q]; [cbn; by rewrite app_nil_r, set_queue_same|]).
  { rewrite len_cons in Hf. lia. }
  destruct (get_more_spec e x q Hq He') as (m & Hm & Hpos & _ & Hmore).
  pose proof (len_concat _ _ Hq) as Hlen. rewrite len_cons in Hlen.
  cbn [more]. destruct (N.eqb_spec (len (concat (x :: q))) 0) as [Hz|_]; [nia|].
  cbn [serve]. unfold execute. cbn [code_byte try_from N.eqb Pos.eqb].
  rewrite Hs, Hmore. cbn [obind continue_interrupted data app].
  assert (Hcat : len (concat (x :: q)) - len (concat (upto m (x :: q))) = len (concat (from m (x :: q)))).
  { rewrite <-(upto_from m (x :: q)) at 1. rewrite concat_app, len_app. lia. }
  rewrite Hcat, IH.
  - by rewrite <-app_assoc, <-concat_app, upto_from.
  - by apply Forall_drop.
  - done.
  - rewrite len_from, len_cons. rewrite len_cons in Hf. specialize (Hpos He). lia.
Qed.

Lemma concat_singletons (l : list N) : concat ((λ b, [b]) <$> l) = l.
Proof. induction l as [|x l IH]; [done|]. cbn. by f_equal. Qed.

(** No two known preimages, and no two known lists, share a hash. *)
Record unambiguous s : Prop := {
  ua_preimages h p p' : (h, p) ∈ known_preimages s → (h, p') ∈ known_preimages s → p = p';
  ua_trees t t' : t ∈ trees s → t' ∈ trees s → root_of (leaves t) = root_of (leaves t') →
    leaves t = leaves t'
}.

Lemma serve_preimage {E} command h p (k : option (list N) → Device E) s :
  interp_ok s → unambiguous s → queue s = [] → (h, p) ∈ known_preimages s → len p < 2 ^ 64 →
  serve command (fetch_preimage h k) s = serve command (k (Some p)) s.
Proof.
  intros Hok Hua Hq Hin Hp. pose proof (io_preimages _ Hok _ _ Hin) as Hh.
  assert (H32 : len h = 32) by (rewrite Hh; apply len_sha256).
  unfold fetch_preimage. cbn [serve]. unfold execute. cbn [code_byte try_from N.eqb Pos.eqb].
  unfold get_preimage_command. rewrite len_cons, H32. change (1 + 32 =? 33) with true. cbn [negb orb head].
  rewrite bool_decide_true by done. cbn [negb].
  change (from 1 (0 :: h)) with h.
  destruct (find _ _) as [[h' p']|] eqn:Hf.
  2: { eapply find_none in Hf; [|by apply list_elem_of_In]. by rewrite bool_decide_true in Hf. }
  apply find_some in Hf as [Hin' Heq%bool_decide_eq_true]. cbn [fst] in Heq. subst h'.
  apply list_elem_of_In in Hin'. rewrite (ua_preimages _ Hua _ _ _ Hin' Hin).
  set (ps := N.min _ (len p)). cbn [obind continue_interrupted data].
  rewrite partial_varint, from_app by done. cbn [app].
  replace (len p - len (upto ps p)) with (len (concat ((λ b, [b]) <$> from ps p))).
  2: { rewrite concat_singletons, len_from, len_upto. unfold ps. lia. }
  rewrite (serve_more _ 1) with (q := (λ b, [b]) <$> from ps p); [|done|done| | |].
  - rewrite concat_singletons, upto_from. cbn [mbind option_bind].
    rewrite decide_True by done. f_equal.
      transitivity (set_queue [] s); [done|by apply set_queue_same].
  - apply Forall_fmap, Forall_forall. done.
  - cbn. by rewrite Hq.
  - unfold len at 1. rewrite length_fmap. fold (len (from ps p)). rewrite len_from. lia.
Qed.

Lemma position_first v l i : l !! N.to_nat i = Some v → ∃ j, position v l = Some j ∧ j ≤ i ∧ l !! N.to_nat j = Some v.
Proof.
  revert i; induction l as [|x l IH]; intros i Hi; [by rewrite lookup_nil in Hi|]. cbn [position].
  destruct (decide (x = v)) as [->|Hne]; [by exists 0; split_and!; [|lia|]|].
  destruct (N.eq_0_gt_0_cases i) as [->|Hpos]; [by injection Hi|].
  destruct (IH (N.pred i)) as (j & -> & Hj & Hl).
  { replace (N.to_nat i) with (S (N.to_nat (N.pred i))) in Hi by lia. done. }
  exists (N.succ j). split_and!; [done|lia|]. by rewrite N2Nat.inj_succ.
Qed.
Lemma find_known_tree t s :
  interp_ok s → unambiguous s → t ∈ trees s → find_tree (root_of (leaves t)) (trees s) = Ret (Some t).
Proof.
  intros Hok Hua Ht. destruct (find_tree_spec (root_of (leaves t)) (trees s)) as (o & -> & Ho);
    [by apply Hok|]. destruct o as [t'|]; [|by destruct (Ho t)].
  destruct Ho as [Hin Hroot]. pose proof (ua_trees _ Hua _ _ Hin Ht Hroot) as Hl.
  destruct (io_trees _ Hok _ Hin) as (Hn' & _). destruct (io_trees _ Hok _ Ht) as (Hn & _). congruence.
Qed.
Lemma len_root_of ls : ls ≠ [] → Forall (λ x, len x = 32) ls → len (root_of ls) = 32.
Proof.
  intros Hne H32. apply len_list_root; [|unfold len; lia|done]. destruct ls; [done|]. rewrite len_cons. lia.
Qed.
Lemma tree_root_len t : tree_ok t → len (root_of (leaves t)) = 32.
Proof. intros (Hn & H32 & _). apply len_root_of; [|done]. intros Hz. by rewrite Hz in Hn. Qed.

Lemma serve_index {E} command t h i (k : option N → Device E) s :
  interp_ok s → unambiguous s → t ∈ trees s → len h = 32 → get_leaf_index t h = Some i → i < 2 ^ 64 →
  serve command (fetch_index (root_of (leaves t)) h k) s = serve command (k (Some i)) s.
Proof.
  intros Hok Hua Ht Hh Hi Hib. pose proof (tree_root_len t (io_trees _ Hok _ Ht)) as Hr.
  unfold fetch_index. cbn [serve]. unfold execute. cbn [code_byte try_from N.eqb Pos.eqb].
  unfold get_merkle_leaf_index. rewrite len_app, Hr, Hh. change (32 + 32 <? 64) with false. cbn iota.
  rewrite upto_app, from_app by done. rewrite find_known_tree by done. cbn [obind].
  rewrite upto_all, Hi by lia. cbn [obind continue_interrupted data]. by rewrite exact_varint.
Qed.

Lemma serve_leaf {E} command t i (k : option (list N) → Device E) s :
  interp_ok s → unambiguous s → queue s = [] → t ∈ trees s → i < size t →
  ∃ x, leaves t !! N.to_nat i = Some x ∧
    serve command (fetch_leaf (root_of (leaves t)) (size t) i k) s = serve command (k (Some x)) s.
Proof.
  intros Hok Hua Hq Ht Hi. pose proof (io_trees _ Hok _ Ht) as Htok.
  pose proof (tree_root_len t Htok) as Hr. pose proof Htok as (Hnew & H32 & Hsz).
  destruct (proj2 (tree_ok_spec t Htok) i Hi) as (p & x & Hp & Hx & Hp64 & Hx32 & Hc).
  assert (Hp32 : Forall (λ y, len y = 32) p) by by eapply leaf_proof_len.
  exists x. split; [exact Hx|]. pose proof (len_varint (size t)). pose proof (len_varint i).
  unfold fetch_leaf. cbn [serve]. unfold execute. cbn [code_byte try_from N.eqb Pos.eqb].
  unfold get_merkle_leaf_proof. rewrite Hq, bool_decide_true by done. cbn [negb].
  rewrite !len_app, Hr. destruct (N.ltb_spec (32 + (len (varint (size t)) + len (varint i))) 34); [lia|].
  rewrite from_app, partial_varint by done.
  rewrite app_assoc, from_app by (rewrite len_app; lia). rewrite exact_varint by lia.
  rewrite <-app_assoc, upto_app, find_known_tree by done. cbn [obind].
  destruct (N.leb_spec (size t) i); [lia|]. rewrite N.eqb_refl. cbn [negb orb].
  rewrite Hp. cbn [obind]. rewrite Hx. cbn [expect obind fst snd continue_interrupted data app].
  rewrite from_app, upto_app by done. cbn [app]. rewrite as_u8_small by lia.
  assert (Hcat : concat (upto 6 p) ++ concat (from 6 p) = concat p) by (by rewrite <-concat_app, upto_from).
  assert (Hlen : len (concat (from 6 p)) = 32 * len p - len (concat (upto 6 p))).
  { rewrite <-(len_concat 32 p), <-Hcat, len_app by done. lia. }
  rewrite <-Hlen, (serve_more _ 32) with (q := from 6 p); [|done|done| | |].
  - rewrite Hcat. cbn [mbind option_bind]. rewrite chunks_concat; [|lia|].
    + rewrite decide_True by done. f_equal.
      transitivity (set_queue [] s); [done|by apply set_queue_same].
    + eapply Forall_impl; [exact Hp32|]. intros y Hy. unfold len in Hy. lia.
  - by apply Forall_drop.
  - done.
  - rewrite len_from. lia.
Qed.

(** *** What the interpreter knows *)

(** Sizes are [usize], and a list is not empty: the tree of an empty one panics. *)
Definition known_fits (k : Known) : Prop :=
  match k with
  | KPreimage _ => True
  | KList l => l ≠ [] ∧ len l < 2 ^ 64
  | KMapping m => m ≠ [] ∧ len m < 2 ^ 64
  end.
Definition hashes (l : list (list N)) : list (list N) := (λ x, sha256 (element_preimage x)) <$> l.
Definition preimages (l : list (list N)) : list (list N * list N) :=
  (λ x, (sha256 (element_preimage x), element_preimage x)) <$> l.

Lemma elem_of_preimages x l : x ∈ l → (sha256 (element_preimage x), element_preimage x) ∈ preimages l.
Proof. intros Hx. apply list_elem_of_fmap. eauto. Qed.

(** Learning only adds. *)
Record grows s s' : Prop := {
  gr_ok : interp_ok s → interp_ok s';
  gr_queue : queue s' = queue s;
  gr_preimages hp : hp ∈ known_preimages s → hp ∈ known_preimages s';
  gr_trees t : t ∈ trees s → t ∈ trees s'
}.
#[local] Instance grows_preorder : PreOrder grows.
Proof. split; [by split|]. intros a b c [] []. split; [auto|congruence|auto|auto]. Qed.

Lemma fold_preimages l s :
  foldl (λ s element, add_known_preimage (element_preimage element) s) s l =
    mkInterpreter (yielded s) (queue s) (known_preimages s ++ preimages l) (trees s).
Proof.
  revert s; induction l as [|x l IH]; intros s; cbn [foldl]; [rewrite app_nil_r; by destruct s|].
  rewrite IH. unfold add_known_preimage, preimages. cbn. by rewrite <-app_assoc.
Qed.
Lemma hashes_len l : Forall (λ x, len x = 32) (hashes l).
Proof. apply Forall_fmap, Forall_forall. intros x _. exact (len_sha256 _). Qed.

Lemma add_known_list_spec l s :
  l ≠ [] → len l < 2 ^ 64 →
  ∃ s' t, add_known_list l s = Ret (s', root_of (hashes l)) ∧ grows s s' ∧
    new (hashes l) = Ret t ∧ t ∈ trees s' ∧ leaves t = hashes l ∧
    ∀ hp, hp ∈ preimages l → hp ∈ known_preimages s'.
Proof.
  intros Hne Hl. unfold add_known_list. rewrite fold_preimages. fold (hashes l).
  assert (Hn : hashes l ≠ []) by (by destruct l).
  destruct (new_spec _ Hn) as (t & Hnew & Hlv & Hroot & _). rewrite Hnew. cbn [obind].
  rewrite Hroot. cbn [obind]. eexists _, t. split; [done|]. split_and!; [|done| |done|]; cbn.
  - split; cbn; [|done|intros hp Hhp; apply elem_of_app; by left|intros t' Ht'; apply elem_of_app; by left].
    intros [Hpre Htr]. split; cbn.
    + intros h p [Hin|Hin]%elem_of_app; [by apply Hpre|].
      by apply list_elem_of_fmap in Hin as (x & [= -> ->] & _).
    + intros t' [Hin| ->%list_elem_of_singleton]%elem_of_app; [by apply Htr|].
      split_and!; [by rewrite Hlv|rewrite Hlv; apply hashes_len|].
      unfold size. rewrite Hlv. unfold len, hashes. by rewrite length_fmap.
  - apply elem_of_app. right. by apply list_elem_of_singleton.
  - intros hp Hhp. apply elem_of_app. by right.
Qed.

Lemma add_known_mapping_spec m s :
  m ≠ [] → len m < 2 ^ 64 →
  ∃ s' tk tv, add_known_mapping m s = Ret s' ∧ grows s s' ∧
    tk ∈ trees s' ∧ leaves tk = hashes (sort_mapping m).*1 ∧
    tv ∈ trees s' ∧ leaves tv = hashes (sort_mapping m).*2 ∧
    (∀ hp, hp ∈ preimages (sort_mapping m).*1 → hp ∈ known_preimages s') ∧
    ∀ hp, hp ∈ preimages (sort_mapping m).*2 → hp ∈ known_preimages s'.
Proof.
  intros Hne Hl. unfold add_known_mapping.
  assert (Hlen : length (sort_mapping m) = length m) by (unfold sort_mapping; by rewrite sort_by_perm).
  assert (Hs : ∀ f : list N * list N → list N, f <$> sort_mapping m ≠ [] ∧ len (f <$> sort_mapping m) < 2 ^ 64).
  { intros f. unfold len in *. rewrite length_fmap, Hlen. split; [|done]. intros Hn%(f_equal length).
    rewrite length_fmap, Hlen in Hn. by destruct m. }
  destruct (add_known_list_spec (sort_mapping m).*1 s) as (s1 & tk & -> & Hg1 & _ & Htk & Hlk & Hpk);
    [apply Hs|apply Hs|]. cbn [obind fst].
  destruct (add_known_list_spec (sort_mapping m).*2 s1) as (s2 & tv & -> & Hg2 & _ & Htv & Hlv & Hpv);
    [apply Hs|apply Hs|]. cbn [obind fst].
  exists s2, tk, tv. split_and!; try done; [by etrans|by apply Hg2|]. intros hp Hhp. by apply Hg2, Hpk.
Qed.

Lemma learn_spec k s : known_fits k → ∃ s', learn s k = Ret s' ∧ grows s s'.
Proof.
  destruct k as [e|l|m]; cbn [learn known_fits].
  - intros _. eexists. split; [done|]. split; cbn; [|done|intros hp Hhp; apply elem_of_app; by left|done].
    intros [Hpre Htr]. split; [|done]. cbn. intros h p [Hin|Hin]%elem_of_app; [by apply Hpre|].
    by apply list_elem_of_singleton in Hin as [= -> ->].
  - intros [Hne Hl]. destruct (add_known_list_spec l s Hne Hl) as (s' & t & -> & Hg & _). by exists s'.
  - intros [Hne Hl]. destruct (add_known_mapping_spec m s Hne Hl) as (s' & tk & tv & -> & Hg & _).
    by exists s'.
Qed.
Lemma learn_all known s :
  Forall known_fits known → ∃ s', ofold learn s known = Ret s' ∧ grows s s'.
Proof.
  intros Hk. revert s; induction Hk as [|k known Hk _ IH]; intros s; [by exists s|]. cbn [ofold].
  destruct (learn_spec k s Hk) as (s1 & -> & Hg1). cbn [obind].
  destruct (IH s1) as (s2 & -> & Hg2). exists s2. split; [done|]. by etrans.
Qed.
Lemma learn_in known s k :
  Forall known_fits known → k ∈ known →
  ∃ s0 s1 s', learn s0 k = Ret s1 ∧ grows s s0 ∧ grows s1 s' ∧ ofold learn s known = Ret s'.
Proof.
  intros Hk Hin. revert s; induction Hk as [|k' known Hk' Hks IH]; intros s; [by apply elem_of_nil in Hin|].
  cbn [ofold]. destruct (learn_spec k' s Hk') as (s1 & Hs1 & Hg1). rewrite Hs1. cbn [obind].
  apply elem_of_cons in Hin as [->|Hin].
  - destruct (learn_all known s1 Hks) as (s2 & Hs2 & Hg2). exists s, s1, s2. split_and!; done.
  - destruct (IH Hin s1) as (s2 & s3 & s' & ? & ? & ? & ?). exists s2, s3, s'. split_and!; try done. by etrans.
Qed.
Lemma new_interpreter_ok : interp_ok new_interpreter.
Proof. split; [intros h p []%elem_of_nil|intros t []%elem_of_nil]. Qed.

Lemma commitment_spec m :
  m ≠ [] → get_merkleized_map_commitment m =
    Ret (varint (len m) ++ root_of (hashes (sort_mapping m).*1) ++ root_of (hashes (sort_mapping m).*2)).
Proof.
  intros Hne. assert (Hlen : length (sort_mapping m) = length m) by (unfold sort_mapping; by rewrite sort_by_perm).
  assert (Hs : ∀ f : list N * list N → list N, hashes (f <$> sort_mapping m) ≠ []).
  { intros f Hn%(f_equal length). unfold hashes in Hn. rewrite !length_fmap, Hlen in Hn. by destruct m. }
  unfold get_merkleized_map_commitment. fold (hashes (sort_mapping m).*1). fold (hashes (sort_mapping m).*2).
  destruct (new_spec _ (Hs fst)) as (tk & -> & _ & Hrk & _). cbn [obind]. rewrite Hrk. cbn [obind].
  destruct (new_spec _ (Hs snd)) as (tv & -> & _ & Hrv & _). cbn [obind]. rewrite Hrv. cbn [obind].
  unfold len. by rewrite Hlen.
Qed.

(** C36. Whatever else the client made known before a request, a device that has the
    commitment of a map the client made known gets the value of any of its keys: it
    asks for the position of the key, for the two leaves there, whose proofs check
    against the commitment, and for the preimage of the value's, in as many messages
    as it takes; unless hashes collide among what is known. *)
Theorem device_reads_map {E} known mapping key v command (k : option (list N) → Device E) :
  Forall known_fits known → KMapping mapping ∈ known → NoDup mapping.*1 → (key, v) ∈ mapping →
  len v < 2 ^ 64 - 1 →
  ∃ s c, ofold learn new_interpreter known = Ret s ∧ get_merkleized_map_commitment mapping = Ret c ∧
    interp_ok s ∧
    (unambiguous s → serve command (lookup_value c key k) s = serve command (k (Some v)) s).
Proof.
  intros Hk Hin Hnd Hkv Hv.
  assert (Hfits : known_fits (KMapping mapping)) by (rewrite Forall_forall in Hk; by apply Hk).
  destruct Hfits as [Hne Hlm].
  destruct (learn_in known new_interpreter _ Hk Hin) as (s0 & s1 & s & Hl & Hg0 & Hg1 & ->).
  destruct (add_known_mapping_spec mapping s0 Hne Hlm)
    as (s1' & tk & tv & Hl' & Hg & Htk & Hlk & Htv & Hlv & Hpk & Hpv).
  cbn [learn] in Hl. assert (s1' = s1) as -> by congruence.
  pose proof (gr_ok _ _ Hg1 (gr_ok _ _ Hg (gr_ok _ _ Hg0 new_interpreter_ok))) as Hok.
  assert (Hq : queue s = []) by (rewrite (gr_queue _ _ Hg1), (gr_queue _ _ Hg); apply Hg0).
  eexists s, _. split; [done|]. split; [by apply commitment_spec|]. split; [done|]. intros Hua.
  set (sm := sort_mapping mapping) in *.
  assert (Hperm : sm ≡ₚ mapping) by apply sort_by_perm.
  assert (Hsz : ∀ f : list N * list N → list N, len (hashes (f <$> sm)) = len mapping).
  { intros f. unfold len, hashes. by rewrite !length_fmap, Hperm. }
  apply (gr_trees _ _ Hg1) in Htk, Htv. rewrite <-Hlk, <-Hlv.
  pose proof (tree_root_len tk (io_trees _ Hok _ Htk)) as Hrk.
  pose proof (tree_root_len tv (io_trees _ Hok _ Htv)) as Hrv.
  unfold lookup_value. rewrite partial_varint, from_app, upto_app by done.
  rewrite app_assoc, from_app by (rewrite len_app; lia).
  rewrite <-Hperm in Hkv, Hnd. apply list_elem_of_lookup in Hkv as [j Hj].
  assert (Hjl : N.of_nat j < len mapping) by (apply lookup_lt_Some in Hj; unfold len; rewrite <-Hperm; lia).
  assert (Hkj : hashes sm.*1 !! N.to_nat (N.of_nat j) = Some (sha256 (element_preimage key))).
  { rewrite Nat2N.id. unfold hashes. by rewrite !list_lookup_fmap, Hj. }
  destruct (position_first _ _ _ Hkj) as (i & Hpos & Hij & Hki).
  assert (i = N.of_nat j) as ->.
  { unfold hashes in Hki. rewrite !list_lookup_fmap in Hki.
    destruct (sm !! N.to_nat i) as [[key' v']|] eqn:Hi; [|done]. cbn in Hki. injection Hki as Hhash.
    assert (Hpre : ∀ key v, (key, v) ∈ sm →
      (sha256 (element_preimage key), element_preimage key) ∈ known_preimages s).
    { intros key0 v0 Hin0. apply Hg1, Hpk, elem_of_preimages.
      apply list_elem_of_fmap. by exists (key0, v0). }
    pose proof (Hpre key v ltac:(by eapply list_elem_of_lookup_2)) as Hp1.
    pose proof (Hpre key' v' ltac:(by eapply list_elem_of_lookup_2)) as Hp2. rewrite Hhash in Hp2.
    pose proof (ua_preimages _ Hua _ _ _ Hp1 Hp2) as [= <-].
    assert (N.to_nat i = j); [|lia]. eapply NoDup_lookup; [exact Hnd| |].
    - by rewrite list_lookup_fmap, Hi.
    - by rewrite list_lookup_fmap, Hj. }
  rewrite (serve_index _ tk _ (N.of_nat j)); [|done|done|done|apply len_sha256| |lia].
  2: { unfold get_leaf_index. by rewrite Hlk. }
  assert (Hsk : size tk = len mapping) by (unfold size; rewrite Hlk; apply Hsz).
  assert (Hsv : size tv = len mapping) by (unfold size; rewrite Hlv; apply Hsz).
  rewrite <-Hsk at 1.
  edestruct (serve_leaf (E:=E) command tk (N.of_nat j)) as (x & Hx & ->); [done|done|done|done|lia|].
  rewrite Hlk, Hkj in Hx. injection Hx as <-. rewrite decide_True by done. rewrite <-Hsv.
  edestruct (serve_leaf (E:=E) command tv (N.of_nat j)) as (y & Hy & ->); [done|done|done|done|lia|].
  rewrite Hlv, Nat2N.id in Hy. unfold hashes in Hy. rewrite !list_lookup_fmap, Hj in Hy. injection Hy as <-.
  rewrite (serve_preimage _ _ (element_preimage v)); [done|done|done|done| |].
  - apply Hg1, Hpv, elem_of_preimages, list_elem_of_fmap. exists (key, v).
    split; [done|by eapply list_elem_of_lookup_2].
  - unfold element_preimage. rewrite len_cons. lia.
Qed.

(** *** Requests return *)

Lemma serve_total {E} command (dev : Device E) s :
  interp_ok s → ∃ s' r, serve command dev s = Ret (s', r).
Proof.
  revert s; induction dev as [e|sw d next IH]; intros s Hs; [by do 2 eexists|]. cbn [serve].
  destruct sw; try (by do 2 eexists).
  destruct (execute_fits d s Hs) as (s' & r & -> & Hs' & _). cbn [obind].
  destruct r as [response|e]; [by apply IH|by do 2 eexists].
Qed.

(** Signing a message ends for every device whose program ends, and returns: it
    panics exactly for the empty message, which has no tree, and when the device's
    last answer is a success without data. *)
Theorem sign_message_panics {E Sig} (from_compact : list N → option Sig) (dev : APDUCommand → Device E)
    message path :
  len message < 2 ^ 64 →
  sign_message from_compact dev message path = Panic ↔
    message = [] ∨
    ∃ s root o, add_known_list (chunks 64 message) new_interpreter = Ret (s, root) ∧
      make_request dev (sign_message_command (len message) root path) (Some s) = Ret (o, Ok []).
Proof.
  intros Hlen. unfold sign_message. destruct (decide (message = [])) as [->|Hne].
  { split; [by left|done]. }
  assert (Hcat : concat (chunks 64 message) = message) by (apply concat_chunks; lia).
  assert (Hch : chunks 64 message ≠ []) by (intros Hn; by rewrite Hn in Hcat).
  assert (len (chunks 64 message) < 2 ^ 64).
  { eapply N.le_lt_trans; [|exact Hlen]. rewrite <-Hcat at 2.
    pose proof (chunks_not_nil 64 message ltac:(lia)) as Hf.
    generalize (chunks 64 message) Hf. clear. induction 1 as [|c l [Hc _] _ IH]; [done|].
    cbn [concat]. rewrite len_cons, len_app. destruct c; [done|]. rewrite len_cons. lia. }
  destruct (add_known_list_spec (chunks 64 message) new_interpreter) as (s & t & -> & Hg & _); [done..|].
  cbn [obind fst snd]. set (root := root_of _). set (cmd := sign_message_command _ root path).
  unfold make_request.
  destruct (serve_total (ins cmd) (dev cmd) s) as (s' & r & Hserve); [by apply Hg, new_interpreter_ok|].
  rewrite Hserve. cbn [obind fst snd]. destruct r as [[|x d]|e]; cbn [head expect obind].
  - split; [|done]. intros _. right. exists s, root, (Some s'). split; [done|]. fold cmd. rewrite Hserve. done.
  - split; [done|]. intros [|(s1 & root1 & s2 & [= <- <-] & Hr)]; [done|]. fold cmd in Hr.
    rewrite Hserve in Hr. done.
  - split; [done|]. intros [|(s1 & root1 & s2 & [= <- <-] & Hr)]; [done|]. fold cmd in Hr.
    rewrite Hserve in Hr. done.
Qed.
End proofs.

Module Witness.
Import LedgerMerkle.Witness.

#[export] Instance sample_varint : VarIntLib := {|
  varint := λ v, [v];
  varint_partial := λ b, match b with v :: _ => Some (v, 1) | [] => None end;
  varint_exact := λ b, match b with [v] => Some v | _ => None end
|}.
#[export] Instance sample_varint_laws : VarIntLaws.
Proof. split; [done|done|done]. Qed.

Definition long_value : list N := (λ x, x mod 256) <$> nseq 0 600.
Definition psbt_map : list (list N * list N) := [([7; 1], [42]); ([2], long_value); ([2; 0], [9; 9])].
Definition known : list Known := [KPreimage [5; 5]; KMapping psbt_map; KList [[1]; [2]; [3]]].
Definition learned : ClientCommandInterpreter :=
  match ofold learn new_interpreter known with Ret s => s | Panic => new_interpreter end.
Definition commitment : list N :=
  match get_merkleized_map_commitment psbt_map with Ret c => c | Panic => [] end.

(** A device that looks a key up and ends with its value. *)
Definition done_with (o : option (list N)) : Device unit :=
  match o with
  | Some v => Answers OK v (λ _, Fails tt)
  | None => Answers IncorrectData [] (λ _, Fails tt)
  end.
Example looked_up : serve 4 (lookup_value commitment [2] done_with) learned = Ret (learned, Ok long_value).
Proof. vm_compute. reflexivity. Qed.

Definition unambiguousb (s : ClientCommandInterpreter) : bool :=
  forallb (λ a, forallb (λ b,
    implb (bool_decide (a.1 = b.1)) (bool_decide (a.2 = b.2))) (known_preimages s)) (known_preimages s) &&
  forallb (λ t, forallb (λ t',
    implb (bool_decide (root_of (leaves t) = root_of (leaves t'))) (bool_decide (leaves t = leaves t')))
    (trees s)) (trees s).
Lemma unambiguousb_spec s : unambiguousb s = true → unambiguous s.
Proof.
  intros [Hp Ht]%andb_true_iff. split.
  - intros h p p' Hin Hin'. apply list_elem_of_In in Hin, Hin'.
    pose proof (proj1 (forallb_forall _ _) (proj1 (forallb_forall _ _) Hp _ Hin) _ Hin') as Hb.
    cbn in Hb. rewrite bool_decide_true in Hb by done. by apply bool_decide_eq_true in Hb.
  - intros t t' Hin Hin' Hr. apply list_elem_of_In in Hin, Hin'.
    pose proof (proj1 (forallb_forall _ _) (proj1 (forallb_forall _ _) Ht _ Hin) _ Hin') as Hb.
    cbn in Hb. rewrite bool_decide_true in Hb by done. by apply bool_decide_eq_true in Hb.
Qed.
Lemma learned_unambiguous : unambiguous learned.
Proof. apply unambiguousb_spec. vm_compute. reflexivity. Qed.
Lemma known_ok : Forall known_fits known.
Proof. repeat constructor; done. Qed.

Lemma device_reads_map_witness :
  unambiguous learned ∧
  ∃ s c, ofold learn new_interpreter known = Ret s ∧ get_merkleized_map_commitment psbt_map = Ret c ∧
    interp_ok s ∧
    (unambiguous s → serve 4 (lookup_value c [2] done_with) s = serve 4 (done_with (Some long_value)) s).
Proof.
  split; [apply learned_unambiguous|].
  apply (device_reads_map known psbt_map [2] long_value 4 done_with known_ok).
  - unfold known. apply elem_of_cons. right. left.
  - apply (bool_decide_unpack _). vm_compute. exact I.
  - apply elem_of_cons. right. left.
  - vm_compute. reflexivity.
Defined.

Lemma learned_ok : interp_ok learned.
Proof.
  destruct (learn_all known new_interpreter known_ok) as (s & Hs & Hg). unfold learned. rewrite Hs.
  apply Hg, new_interpreter_ok.
Qed.
Lemma execute_fits_witness :
  ∃ s' r, execute (64 :: 0 :: sha256 (element_preimage long_value)) learned = Ret (s', r) ∧ interp_ok s' ∧
    known_preimages s' = known_preimages learned ∧ trees s' = trees learned ∧
    ∀ d, r = Ok d → encode (continue_interrupted d) = [248; 1; 0; 1; len d] ++ d.
Proof. apply execute_fits, learned_ok. Defined.

(** A device that takes the message without a question and signs. *)
Definition signer (_ : APDUCommand) : Device unit := Answers OK [31; 1; 2; 3] (λ _, Fails tt).
Definition mute (_ : APDUCommand) : Device unit := Answers OK [] (λ _, Fails tt).
Example signed : sign_message Some signer [1; 2; 3] [44] = Ret (Ok (31, [1; 2; 3])).
Proof. vm_compute. reflexivity. Qed.
Example mute_panics : sign_message Some mute [1; 2; 3] [44] = Panic.
Proof. vm_compute. reflexivity. Qed.
Lemma sign_message_panics_witness : sign_message (E:=unit) (@Some (list N)) signer [] [44] = Panic.
Proof. apply (sign_message_panics (@Some (list N)) signer [] [44]); [reflexivity|by left]. Defined.
End Witness.
End Ledger.
