(* ===== verification/SpCoinStore.v ===== *)
(** * The coin store of a silent-payment account (sp/src/account/coin_store.rs)

    The coins a scan found: a typed [Store] whose errors the code logs and drops. Coins know their spend: none, one of our
    own transactions (confirmed or not), or one a block shows. The types of the
    coins are those of sp/src/receiver/mod.rs. *)
From stdpp Require Import base gmap list sets strings.
From Stdlib Require Import Lia.
From S2P Require Import Prelude Bitcoin Coin Persist AddressStore.

(** [core::receiving::Label]: a scalar, big endian. *)
Record Label := mkLabel { label_scalar : list N }.
#[export] Instance Label_eqdec : EqDecision Label.
Proof. solve_decision. Defined.

(** [enum OutputSpendStatus]. *)
Inductive OutputSpendStatus :=
  | SpUnspent
  | SpSpent (txid : Txid) (block_hash : option BlockHash)
  | SpMined (block_hash : BlockHash).
#[export] Instance OutputSpendStatus_eqdec : EqDecision OutputSpendStatus.
Proof. solve_decision. Defined.

(** [struct OwnedOutput]. *)
Record OwnedOutput := mkOwnedOutput {
  blockheight : option N;
  tweak : list N;
  amount : N;
  oo_script : script;
  oo_label : option Label;
  spend_status : OutputSpendStatus
}.
#[export] Instance OwnedOutput_eqdec : EqDecision OwnedOutput.
Proof. solve_decision. Defined.
Definition set_spend_status (st : OutputSpendStatus) (o : OwnedOutput) : OwnedOutput :=
  mkOwnedOutput (blockheight o) (tweak o) (amount o) (oo_script o) (oo_label o) st.

Module SpCoinStore.
Import Persist.

Definition STORE_KEY : string := COINS_STORE_KEY.

(** [struct SpCoinEntry]. *)
Record SpCoinEntry := new { outpoint : OutPoint; output : OwnedOutput }.
#[export] Instance SpCoinEntry_eqdec : EqDecision SpCoinEntry.
Proof. solve_decision. Defined.

Definition height (e : SpCoinEntry) : option N := blockheight (output e).
Definition is_confirmed (e : SpCoinEntry) : bool := bool_decide (is_Some (height e)).
Definition coin_status (e : SpCoinEntry) : Coin.CoinStatus :=
  if is_confirmed e then Coin.Confirmed else Coin.Unconfirmed.
Definition amount_sat (e : SpCoinEntry) : N := amount (output e).
Definition status (e : SpCoinEntry) : OutputSpendStatus := spend_status (output e).
Definition is_spendable (e : SpCoinEntry) : bool := bool_decide (status e = SpUnspent).
Definition set_status (st : OutputSpendStatus) (e : SpCoinEntry) : SpCoinEntry :=
  new (outpoint e) (set_spend_status st (output e)).

(** [struct CoinState]. *)
Record CoinState := mkCoinState {
  cs_coins : gmap OutPoint SpCoinEntry;
  confirmed_coins : nat;
  confirmed_balance : N;
  unconfirmed_coins : nat;
  unconfirmed_balance : N
}.

(** [SpCoinStore::new] and [load_from_backend], over the codecs of outpoints and
    coins. *)
Definition new_store (encode_outpoint : OutPoint → string)
    (encode_coin : SpCoinEntry → result bytes PersistError) : RamStore unit OutPoint SpCoinEntry :=
  ram_empty tt STORE_KEY encode_outpoint encode_coin.
Definition with_backend {B} `{PersistenceBackend B} (backend : B) (store_key : string)
    (encode_outpoint : OutPoint → string) (encode_coin : SpCoinEntry → result bytes PersistError) :
    RamStore B OutPoint SpCoinEntry :=
  ram_empty backend store_key encode_outpoint encode_coin.
Definition load_from_backend {B} `{PersistenceBackend B} (backend : B) (store_key : string)
    (encode_outpoint : OutPoint → string) (decode_outpoint : string → result OutPoint PersistError)
    (encode_coin : SpCoinEntry → result bytes PersistError)
    (decode_coin : bytes → result SpCoinEntry PersistError) :
    result (RamStore B OutPoint SpCoinEntry) PersistError :=
  ram_open backend store_key encode_outpoint decode_outpoint encode_coin decode_coin.

(** [struct SpAddressEntry]. *)
Record SpAddressEntry := mkSpAddressEntry {
  sa_script : script;
  sa_status : AddressStore.AddressStatus;
  funding_txids : gset Txid;
  spending_txids_of : gset Txid
}.

(** The status a scan gives a coin it sees spent in a block. *)
Definition confirmed_status (block_hash : BlockHash) (st : OutputSpendStatus) : OutputSpendStatus :=
  match st with
  | SpSpent txid _ => SpSpent txid (Some block_hash)
  | _ => SpMined block_hash
  end.
(** The status a coin goes back to when blocks are reorged, if it changes. *)
Definition reorged_status (reorged : gset BlockHash) (st : OutputSpendStatus) :
    option OutputSpendStatus :=
  match st with
  | SpSpent txid (Some hash) => if decide (hash ∈ reorged) then Some (SpSpent txid None) else None
  | SpMined hash => if decide (hash ∈ reorged) then Some SpUnspent else None
  | _ => None
  end.

Section coin_store.
Context `{Build} {S : Type} `{!Store S OutPoint SpCoinEntry}.

Definition get (s : S) (outpoint : OutPoint) : option SpCoinEntry := mjoin (ok (st_get s outpoint)).

Definition insert (outpoint : OutPoint) (output : OwnedOutput) (s : S) : S :=
  (st_insert outpoint (new outpoint output) s).1.
Definition insert_batch (outputs : gmap OutPoint OwnedOutput) (s : S) : S :=
  foldl (λ s o, insert o.1 o.2 s) s (bt_items outputs).
Definition remove (outpoint : OutPoint) (s : S) : S * option SpCoinEntry :=
  let r := st_remove outpoint s in (r.1, mjoin (ok r.2)).

Definition mark_spent (outpoint : OutPoint) (spending_txid : Txid) (s : S) : S :=
  (st_modify outpoint (set_status (SpSpent spending_txid None)) s).1.
Definition confirm_spend (outpoint : OutPoint) (block_hash : BlockHash) (s : S) : S :=
  (st_modify outpoint (λ e, set_status (confirmed_status block_hash (status e)) e) s).1.

Definition coins (s : S) : gmap OutPoint SpCoinEntry :=
  default ∅ (list_to_map <$> ok (st_iter s)).

Definition above (fork_height : N) (e : SpCoinEntry) : bool :=
  match height e with Some h => fork_height <? h | None => false end.
Definition roll_back_coin (fork_height : N) (reorged : gset BlockHash) (s : S)
    (c : OutPoint * SpCoinEntry) : S :=
  if above fork_height c.2 then (remove c.1 s).1
  else
    match reorged_status reorged (status c.2) with
    | Some st => (st_modify c.1 (set_status st) s).1
    | None => s
    end.
Definition roll_back (fork_height : N) (reorged : gset BlockHash) (s : S) : S :=
  foldl (roll_back_coin fork_height reorged) s (bt_items (coins s)).

Definition spending_txid (e : SpCoinEntry) : option Txid :=
  match status e with SpSpent txid _ => Some txid | _ => None end.
Definition spending_txids (s : S) : gset Txid :=
  list_to_set (omap spending_txid (bt_values (coins s))).

Definition add_spendable (state : CoinState) (c : OutPoint * SpCoinEntry) : outcome CoinState :=
  if negb (is_spendable c.2) then Ret state
  else if is_confirmed c.2 then
    let! b := add64 (confirmed_balance state) (amount_sat c.2) in
    Ret (mkCoinState (<[c.1 := c.2]> (cs_coins state)) (confirmed_coins state + 1) b
           (unconfirmed_coins state) (unconfirmed_balance state))
  else
    let! b := add64 (unconfirmed_balance state) (amount_sat c.2) in
    Ret (mkCoinState (<[c.1 := c.2]> (cs_coins state)) (confirmed_coins state)
           (confirmed_balance state) (unconfirmed_coins state + 1) b).
Definition spendable_coins (s : S) : outcome CoinState :=
  let state := mkCoinState ∅ 0 0 0 0 in
  match st_iter s with
  | Ok l => ofold add_spendable state l
  | Err _ => Ret state
  end.

Definition all_outpoints (s : S) : gset OutPoint := default ∅ (list_to_set <$> ok (st_keys s)).

(** Unspent, or spent by an unconfirmed transaction of ours. *)
Definition is_watchable (e : SpCoinEntry) : bool :=
  match status e with SpUnspent | SpSpent _ None => true | _ => false end.
Definition watchable (sweep_start : N) (s : S) : list (OutPoint * N) :=
  match st_iter s with
  | Ok l =>
      (λ c, (c.1, default sweep_start (height c.2))) <$> List.filter (λ c, is_watchable c.2) l
  | Err _ => []
  end.

Definition len (s : S) : nat := default 0%nat (ok (st_len s)).
Definition is_empty (s : S) : bool := (len s =? 0)%nat.

Definition balance (s : S) : outcome N :=
  match st_values s with
  | Ok l => sum64 (amount_sat <$> List.filter is_spendable l)
  | Err _ => Ret 0
  end.

Definition persist (s : S) : S := (st_flush s).1.

(** The transactions that funded and spent a script. *)
Definition bucket (acc : gmap script (gset Txid * gset Txid)) (c : OutPoint * SpCoinEntry) :
    gmap script (gset Txid * gset Txid) :=
  let spk := oo_script (output c.2) in
  let b := default (∅, ∅) (acc !! spk) in
  <[spk := ({[op_txid c.1]} ∪ b.1,
            match spending_txid c.2 with Some txid => {[txid]} ∪ b.2 | None => b.2 end)]> acc.
Definition address_entry (b : script * (gset Txid * gset Txid)) : SpAddressEntry :=
  mkSpAddressEntry b.1
    (match size b.2.1 with
     | 0%nat => AddressStore.NotUsed
     | 1%nat => AddressStore.Used
     | _ => AddressStore.Reused
     end) b.2.1 b.2.2.
Definition addresses_with_status (s : S) : list SpAddressEntry :=
  match st_iter s with
  | Ok l => address_entry <$> bt_items (foldl bucket ∅ l)
  | Err _ => []
  end.
End coin_store.

(** ** The coins a transaction builder spends *)

Definition TR_KEYSPEND_SATISFACTION_WEIGHT : N := 66.
(** [Sequence::ENABLE_RBF_NO_LOCKTIME]. *)
Definition ENABLE_RBF_NO_LOCKTIME : N := 4294967293.

Section coin_source.
Context `{TxLib} `{Build} {S : Type} `{!Store S OutPoint SpCoinEntry}.

Definition to_coin (c : OutPoint * SpCoinEntry) : Coin.Coin :=
  Coin.mkCoin (mkTxOut (amount_sat c.2) (oo_script (output c.2))) c.1 (height c.2)
    ENABLE_RBF_NO_LOCKTIME (coin_status c.2) None TR_KEYSPEND_SATISFACTION_WEIGHT
    (Coin.Sp [] (tweak (output c.2))).
(** [SpCoinSource::spendable_coins]. *)
Definition source_coins (s : S) : outcome (list Coin.Coin) :=
  let! state := spendable_coins s in Ret (to_coin <$> bt_items (cs_coins state)).
(** [MergedCoinSource::spendable_coins], over what the other sources give. *)
Definition merged_coins (bip32_sources : list (list Coin.Coin)) (s : S) : outcome (list Coin.Coin) :=
  let! coins := source_coins s in Ret (foldl app coins bip32_sources).
End coin_source.
End SpCoinStore.

(** ** Lemmas: the store as a map *)

Module SpCoins.
Import Persist SpCoinStore.

Section lemmas.
Context `{Build} {S : Type} `{!Store S OutPoint SpCoinEntry}.
Context `{!Persist.StoreLaws S OutPoint SpCoinEntry} `{!Persist.StoreTotal S OutPoint SpCoinEntry}.
Implicit Types s : S.

Definition view s : gmap OutPoint SpCoinEntry := Persist.st_view s.

Lemma iter_view s : Persist.st_iter s = Ok (bt_items (view s)).
Proof.
  destruct (Persist.st_iter_total s) as [l Hl]. rewrite Hl. f_equal. by apply Persist.st_iter_spec.
Qed.
Lemma values_view s : Persist.st_values s = Ok (bt_values (view s)).
Proof. unfold Persist.st_values. by rewrite iter_view. Qed.
Lemma get_view s op : get s op = view s !! op.
Proof.
  unfold get. destruct (Persist.st_get_total s op) as [v Hv]. rewrite Hv. simpl.
  by apply Persist.st_get_spec.
Qed.
Lemma coins_view s : coins s = view s.
Proof. unfold coins. rewrite iter_view. cbn. apply list_to_map_bt_items. Qed.
Lemma insert_view op o s : view (insert op o s) = <[op := new op o]> (view s).
Proof.
  unfold insert. destruct (Persist.st_insert_total s op (new op o)) as (s' & r & Hi). rewrite Hi.
  apply (Persist.st_insert_spec _ _ _ _ _ Hi).
Qed.
Lemma remove_view op s : view (remove op s).1 = delete op (view s).
Proof.
  unfold remove. destruct (Persist.st_remove_total s op) as (s' & r & Hi). rewrite Hi.
  apply (Persist.st_remove_spec _ _ _ _ Hi).
Qed.
Lemma modify_view op f s : view (Persist.st_modify op f s).1 = alter f op (view s).
Proof.
  destruct (Persist.st_modify_total s op f) as (s' & r & Hi). rewrite Hi.
  apply (Persist.st_modify_spec _ _ _ _ _ Hi).
Qed.
Lemma confirm_spend_view op h s :
  view (confirm_spend op h s) =
    alter (λ e, set_status (confirmed_status h (status e)) e) op (view s).
Proof. apply modify_view. Qed.
Lemma mark_spent_view op t s :
  view (mark_spent op t s) = alter (set_status (SpSpent t None)) op (view s).
Proof. apply modify_view. Qed.
Lemma persist_view s : view (persist s) = view s.
Proof.
  unfold persist. destruct (Persist.st_flush s) as [s' r] eqn:Hf. apply (Persist.st_flush_spec _ _ _ Hf).
Qed.

(** A rollback, coin by coin. *)
Definition undo (fork_height : N) (reorged : gset BlockHash) (e : SpCoinEntry) : option SpCoinEntry :=
  if above fork_height e then None
  else Some (match reorged_status reorged (status e) with Some st => set_status st e | None => e end).

Lemma roll_back_view f R s : view (roll_back f R s) = omap (undo f R) (view s).
Proof.
  unfold roll_back. rewrite coins_view.
  match goal with |- view ?x = _ => change (view x) with (st_view x) end.
  rewrite (st_view_foldl _ (λ m c, if above f c.2 then delete c.1 m else
    match reorged_status R (status c.2) with Some st => alter (set_status st) c.1 m | None => m end)).
  - apply (foldl_items_omap _ (undo f R) (view s)). intros m k v Hkv. unfold undo. cbn [fst snd].
    destruct (above f v); [done|]. destruct (reorged_status _ _) as [st|].
    + apply map_eq. intros j. destruct (decide (j = k)) as [->|].
      * by rewrite lookup_alter_eq, lookup_partial_alter_eq, Hkv.
      * by rewrite lookup_alter_ne, lookup_partial_alter_ne.
    + apply map_eq. intros j. destruct (decide (j = k)) as [->|].
      * by rewrite lookup_partial_alter_eq.
      * by rewrite lookup_partial_alter_ne.
  - intros s0 [k v]. unfold roll_back_coin. cbn [fst snd]. destruct (above f v).
    + apply remove_view.
    + destruct (reorged_status _ _); [apply modify_view|done].
Qed.

Lemma elem_of_spending_txids s t :
  t ∈ spending_txids s ↔ ∃ op e, view s !! op = Some e ∧ spending_txid e = Some t.
Proof.
  unfold spending_txids. rewrite coins_view, elem_of_list_to_set, list_elem_of_omap. split.
  - intros (e & He & Ht). apply elem_of_bt_values in He as [op Hop]. eauto.
  - intros (op & e & Hop & Ht). exists e. split; [|done]. apply elem_of_bt_values. eauto.
Qed.

Lemma elem_of_watchable start s op h :
  (op, h) ∈ watchable start s ↔
    ∃ e, view s !! op = Some e ∧ is_watchable e = true ∧ h = default start (height e).
Proof.
  unfold watchable. rewrite iter_view, list_elem_of_fmap. split.
  - intros ([k e] & [= -> ->] & Hin). apply list_elem_of_In, filter_In in Hin as [Hin Hw].
    apply list_elem_of_In, elem_of_bt_items in Hin. eauto.
  - intros (e & He & Hw & ->). exists (op, e). split; [done|]. apply list_elem_of_In, filter_In.
    split; [|done]. by apply list_elem_of_In, elem_of_bt_items.
Qed.
Lemma watchable_NoDup start s : NoDup (watchable start s).*1.
Proof.
  unfold watchable. rewrite iter_view, <-list_fmap_compose. simpl.
  eapply NoDup_sublist; [|apply (NoDup_bt_keys (view s))].
  apply sublist_fmap, filter_sublist.
Qed.

(** *** Totals *)

Lemma add_spendable_fold l st :
  confirmed_balance st + unconfirmed_balance st
    + sumN (amount_sat <$> List.filter is_spendable l.*2) < 2 ^ 64 →
  ∃ st', ofold add_spendable st l = Ret st' ∧
  cs_coins st' = foldl (λ m c, <[c.1 := c.2]> m) (cs_coins st)
                   (List.filter (λ c, is_spendable c.2) l) ∧
  confirmed_balance st' + unconfirmed_balance st' =
    confirmed_balance st + unconfirmed_balance st
    + sumN (amount_sat <$> List.filter is_spendable l.*2) ∧
  (confirmed_coins st' + unconfirmed_coins st' =
    confirmed_coins st + unconfirmed_coins st + length (List.filter is_spendable l.*2))%nat.
Proof.
  revert st; induction l as [|[op e] l IH]; intros st Hb.
  - eexists. split; [done|]. simpl. split; [done|]. lia.
  - cbn [ofold]. unfold add_spendable at 1. cbn [snd fst]. rewrite fmap_cons in Hb |- *.
    cbn [List.filter snd] in Hb |- *.
    destruct (is_spendable e) eqn:He; cbn [negb]; [|by apply IH].
    rewrite fmap_cons, sumN_cons in Hb |- *. cbn [length foldl fst snd].
    destruct (is_confirmed e); unfold add64; rewrite add_w_ok by lia; cbn [obind];
      (match goal with |- ∃ _, ofold _ ?x _ = _ ∧ _ => destruct (IH x) as (st' & Hf & Hc & Hs & Hn);
        [simpl; lia|] end); exists st'; simpl in Hc, Hs, Hn; (split; [done|]); (split; [done|]); lia.
Qed.

Lemma foldl_insert_items (l : list (OutPoint * SpCoinEntry)) (m : gmap OutPoint SpCoinEntry) :
  NoDup l.*1 → foldl (λ m c, <[c.1 := c.2]> m) m l = list_to_map l ∪ m.
Proof.
  revert m; induction l as [|[k v] l IH]; intros m Hnd; simpl; [by rewrite (left_id_L ∅ _)|].
  apply NoDup_cons in Hnd as [Hk Hnd]. rewrite IH by done.
  rewrite <-insert_union_r; [by rewrite insert_union_l|]. by apply not_elem_of_list_to_map_1.
Qed.

(** The totals are those of the unspent coins. *)
Lemma totals_exact s :
  sumN (amount_sat <$> List.filter is_spendable (bt_values (view s))) < 2 ^ 64 →
  ∃ st, spendable_coins s = Ret st ∧
    (∀ op e, cs_coins st !! op = Some e ↔ view s !! op = Some e ∧ status e = SpUnspent) ∧
    (confirmed_coins st + unconfirmed_coins st)%nat = size (cs_coins st) ∧
    balance s = Ret (confirmed_balance st + unconfirmed_balance st).
Proof.
  intros Hb. destruct (add_spendable_fold (bt_items (view s)) (mkCoinState ∅ 0 0 0 0))
    as (st & Hf & Hc & Hs & Hn); [done|]. exists st.
  unfold spendable_coins, balance. rewrite iter_view, values_view. simpl in Hc, Hs, Hn.
  assert (Hnd : NoDup (List.filter (λ c, is_spendable c.2) (bt_items (view s))).*1).
  { eapply NoDup_sublist; [|apply (NoDup_bt_keys (view s))]. apply sublist_fmap, filter_sublist. }
  rewrite foldl_insert_items, (right_id_L ∅ _) in Hc by done.
  split; [done|]. split_and!.
  - intros op e. rewrite Hc, <-elem_of_list_to_map by done.
    rewrite list_elem_of_In, filter_In, <-list_elem_of_In, elem_of_bt_items.
    unfold is_spendable. cbn [snd]. by rewrite bool_decide_eq_true.
  - rewrite Hn, Hc. rewrite map_size_list_to_map by done.
    clear. induction (bt_items (view s)) as [|[op e] l IH]; [done|].
    rewrite fmap_cons. cbn [List.filter snd]. destruct (is_spendable e); [|done].
    cbn [length]. by rewrite IH.
  - rewrite sum64_ok by done. by rewrite Hs.
Qed.

(** *** Addresses *)

Lemma bucket_fold l acc spk :
  foldl bucket acc l !! spk =
    match List.filter (λ c, bool_decide (oo_script (output c.2) = spk)) l with
    | [] => acc !! spk
    | cs => Some (list_to_set (op_txid ∘ fst <$> cs) ∪ default ∅ (fst <$> acc !! spk),
                  list_to_set (omap (spending_txid ∘ snd) cs) ∪ default ∅ (snd <$> acc !! spk))
    end.
Proof.
  revert acc; induction l as [|[op e] l IH]; intros acc; [done|]. cbn [foldl List.filter snd].
  rewrite IH. unfold bucket. cbn [fst snd]. case_bool_decide as Hs.
  - subst spk. rewrite lookup_insert_eq.
    set (cs := List.filter _ l).
    match goal with |- match cs with [] => Some ?y | _ => _ end = _ => set (x := y) end.
    transitivity (Some (list_to_set (op_txid ∘ fst <$> cs) ∪ x.1,
                        list_to_set (omap (spending_txid ∘ snd) cs) ∪ x.2)).
    { destruct cs; [|done]. destruct x as [x1 x2]. simpl. by rewrite !(left_id_L ∅ _). }
    f_equal. subst x. cbn [fst snd]. rewrite fmap_cons, list_omap_cons.
    assert (Hd : ∀ x : option (gset Txid * gset Txid),
      default (∅, ∅) x = (default ∅ (fst <$> x), default ∅ (snd <$> x))) by (by intros [[]|]).
    rewrite Hd. cbn [fst snd]. unfold compose. cbn [fst snd].
    f_equal; [set_solver|]. destruct (spending_txid e); set_solver.
  - by rewrite lookup_insert_ne.
Qed.

(** Every script of a coin has one address entry, with the transactions that
    funded it and those of ours that spent it; one that several funded is reused. *)
Lemma addresses_exact s a :
  a ∈ addresses_with_status s →
  let cs := List.filter (λ c, bool_decide (oo_script (output c.2) = sa_script a)) (bt_items (view s)) in
  cs ≠ [] ∧
  funding_txids a = list_to_set (op_txid ∘ fst <$> cs) ∧
  spending_txids_of a = list_to_set (omap (spending_txid ∘ snd) cs) ∧
  sa_status a = (if decide (size (funding_txids a) = 1%nat) then AddressStore.Used
                 else AddressStore.Reused).
Proof.
  intros Ha cs. unfold addresses_with_status in Ha. rewrite iter_view in Ha.
  apply list_elem_of_fmap in Ha as ([spk [fund spend]] & -> & Hin).
  apply elem_of_bt_items in Hin. rewrite bucket_fold in Hin. fold cs in Hin.
  cbn [sa_script address_entry funding_txids spending_txids_of sa_status fst snd] in *. subst cs.
  set (cs := List.filter _ _) in *. rewrite lookup_empty in Hin.
  destruct cs as [|c cs'] eqn:Hcs; [done|].
  cbn [fmap option_fmap option_map default from_option] in Hin. rewrite !(right_id_L ∅ _) in Hin.
  injection Hin as <- <-. split_and!; [done..|].
  match goal with |- match size ?x with _ => _ end = _ => change x with
    (list_to_set (op_txid ∘ fst <$> c :: cs') : gset Txid) end.
  set (fund := list_to_set (op_txid ∘ fst <$> c :: cs') : gset Txid).
  assert (size fund ≠ 0%nat).
  { intros Hz. apply size_empty_inv in Hz. apply (not_elem_of_empty (C:=gset Txid) (op_txid c.1)).
    rewrite <-Hz. apply elem_of_list_to_set, list_elem_of_fmap. exists c. split; [done|left]. }
  destruct (size fund) as [|[|n]]; [done|..]; by case_decide.
Qed.
End lemmas.
End SpCoins.
