(* ===== verification/SpTxStore.v ===== *)
(** * The transaction store of a silent-payment account (sp/src/account/tx_store.rs)

    What is known of the transactions around the coins: a typed [Store] whose
    errors the code logs and drops. The time of an entry is that of the header at
    its height, asked for when the header store does not hold it yet. *)
From stdpp Require Import base gmap list sets strings.
From Stdlib Require Import Lia.
From S2P Require Import Prelude Bitcoin Transaction Persist HeaderValidator HeaderStore.

Module SpTxStore.
Import Persist.

Definition STORE_KEY : string := TXS_STORE_KEY.

(** [struct SpTxEntry]. *)
Record SpTxEntry := mkSpTxEntry {
  txid : Txid;
  tx : option Transaction;
  fee : option N;
  height : option N;
  timestamp : option N;
  label : option string;
  change : N
}.
#[export] Instance SpTxEntry_eqdec : EqDecision SpTxEntry.
Proof. solve_decision. Defined.
Definition new (txid : Txid) : SpTxEntry := mkSpTxEntry txid None None None None None 0.
Definition with_tx (txid : Txid) (tx : Transaction) : SpTxEntry :=
  mkSpTxEntry txid (Some tx) None None None None 0.
Definition is_confirmed (e : SpTxEntry) : bool := bool_decide (is_Some (height e)).
Definition set_height (h : option N) (e : SpTxEntry) : SpTxEntry :=
  mkSpTxEntry (txid e) (tx e) (fee e) h (timestamp e) (label e) (change e).
Definition set_timestamp (t : option N) (e : SpTxEntry) : SpTxEntry :=
  mkSpTxEntry (txid e) (tx e) (fee e) (height e) t (label e) (change e).
Definition set_label (l : option string) (e : SpTxEntry) : SpTxEntry :=
  mkSpTxEntry (txid e) (tx e) (fee e) (height e) (timestamp e) l (change e).

Definition new_store (encode_txid : Txid → string)
    (encode_entry : SpTxEntry → result bytes PersistError) : RamStore unit Txid SpTxEntry :=
  ram_empty tt STORE_KEY encode_txid encode_entry.
Definition with_backend {B} `{PersistenceBackend B} (backend : B) (store_key : string)
    (encode_txid : Txid → string) (encode_entry : SpTxEntry → result bytes PersistError) :
    RamStore B Txid SpTxEntry :=
  ram_empty backend store_key encode_txid encode_entry.
Definition load_from_backend {B} `{PersistenceBackend B} (backend : B) (store_key : string)
    (encode_txid : Txid → string) (decode_txid : string → result Txid PersistError)
    (encode_entry : SpTxEntry → result bytes PersistError)
    (decode_entry : bytes → result SpTxEntry PersistError) :
    result (RamStore B Txid SpTxEntry) PersistError :=
  ram_open backend store_key encode_txid decode_txid encode_entry decode_entry.

(** [header_time] and [block_time], over the header store. *)
Section times.
Context `{HeaderValidator.HeaderLib} {SH : Type} `{!Store SH N HeaderValidator.raw_header}.
Definition header_time (hs : HeaderStore.HeaderStore (S:=SH)) (height : N) : option N :=
  HeaderValidator.time <$> HeaderStore.header hs height.
Definition block_time (height : N) (hs : HeaderStore.HeaderStore (S:=SH)) :
    HeaderStore.HeaderStore (S:=SH) * option N :=
  match header_time hs height with
  | Some t => (hs, Some t)
  | None => ((HeaderStore.request_extend_down height hs).1, None)
  end.
End times.

Section tx_store.
Context {S : Type} `{!Store S Txid SpTxEntry}.

Definition get (s : S) (txid : Txid) : option SpTxEntry := mjoin (ok (st_get s txid)).
Definition insert (entry : SpTxEntry) (s : S) : S := (st_insert (txid entry) entry s).1.
Definition remove (txid : Txid) (s : S) : S * option SpTxEntry :=
  let r := st_remove txid s in (r.1, mjoin (ok r.2)).
Definition update_height (txid : Txid) (h : option N) (s : S) : S :=
  (st_modify txid (set_height h) s).1.
Definition update_timestamp (txid : Txid) (t : N) (s : S) : S :=
  (st_modify txid (set_timestamp (Some t)) s).1.
Definition update_label (txid : Txid) (l : string) (s : S) : S :=
  (st_modify txid (set_label (Some l)) s).1.
Definition transactions (s : S) : list SpTxEntry := default [] (ok (st_values s)).
Definition len (s : S) : nat := default 0%nat (ok (st_len s)).
Definition is_empty (s : S) : bool := (len s =? 0)%nat.
Definition persist (s : S) : S := (st_flush s).1.

Definition below (fork_height : N) (e : SpTxEntry) : bool :=
  match height e with Some h => h <=? fork_height | None => true end.
Definition roll_back_tx (fork_height : N) (pending : gset Txid) (s : S) (entry : SpTxEntry) : S :=
  if below fork_height entry then s
  else if bool_decide (txid entry ∉ pending) then (remove (txid entry) s).1
  else (st_modify (txid entry) (λ e, set_timestamp None (set_height None e)) s).1.
Definition roll_back (fork_height : N) (pending : gset Txid) (s : S) : S :=
  foldl (roll_back_tx fork_height pending) s (transactions s).

Section restamp.
Context `{HeaderValidator.HeaderLib} {SH : Type} `{!Store SH N HeaderValidator.raw_header}.
Definition restamp (st : S * HeaderStore.HeaderStore (S:=SH) * bool) (entry : SpTxEntry) :
    S * HeaderStore.HeaderStore (S:=SH) * bool :=
  let '(s, hs, stamped) := st in
  match timestamp entry, height entry with
  | None, Some h =>
      match block_time h hs with
      | (hs, Some time) => (update_timestamp (txid entry) time s, hs, true)
      | (hs, None) => (s, hs, stamped)
      end
  | _, _ => st
  end.
Definition restamp_missing_timestamps (hs : HeaderStore.HeaderStore (S:=SH)) (s : S) :
    S * HeaderStore.HeaderStore (S:=SH) * bool :=
  let '(s, hs, stamped) := foldl restamp (s, hs, false) (transactions s) in
  (if stamped then persist s else s, hs, stamped).
End restamp.
End tx_store.
End SpTxStore.

(** ** Lemmas: the store as a map *)

Module SpTxs.
Import Persist SpTxStore.

Section lemmas.
Context {S : Type} `{!Store S Txid SpTxEntry}.
Context `{!StoreLaws S Txid SpTxEntry} `{!StoreTotal S Txid SpTxEntry}.
Implicit Types s : S.

Definition view s : gmap Txid SpTxEntry := st_view s.
(** Entries are stored under their transaction. *)
Definition keyed (m : gmap Txid SpTxEntry) : Prop := ∀ t e, m !! t = Some e → txid e = t.

Lemma tx_get_view s t : get s t = view s !! t.
Proof.
  unfold get. destruct (st_get_total s t) as [v Hv]. rewrite Hv. simpl. by apply st_get_spec.
Qed.
Lemma transactions_view s : transactions s = bt_values (view s).
Proof.
  unfold transactions, st_values. destruct (st_iter_total s) as [l Hl]. rewrite Hl. simpl.
  by rewrite (st_iter_spec _ _ Hl).
Qed.
Lemma tx_insert_view e s : view (insert e s) = <[txid e := e]> (view s).
Proof.
  unfold insert. destruct (st_insert_total s (txid e) e) as (s' & r & Hi). rewrite Hi.
  apply (st_insert_spec _ _ _ _ _ Hi).
Qed.
Lemma tx_remove_view t s : view (remove t s).1 = delete t (view s).
Proof.
  unfold remove. destruct (st_remove_total s t) as (s' & r & Hi). rewrite Hi.
  apply (st_remove_spec _ _ _ _ Hi).
Qed.
Lemma tx_modify_view t f s : view (st_modify t f s).1 = alter f t (view s).
Proof.
  destruct (st_modify_total s t f) as (s' & r & Hi). rewrite Hi.
  apply (st_modify_spec _ _ _ _ _ Hi).
Qed.
Lemma update_height_view t h s : view (update_height t h s) = alter (set_height h) t (view s).
Proof. apply tx_modify_view. Qed.
Lemma update_timestamp_view t x s :
  view (update_timestamp t x s) = alter (set_timestamp (Some x)) t (view s).
Proof. apply tx_modify_view. Qed.
Lemma tx_persist_view s : view (persist s) = view s.
Proof.
  unfold persist. destruct (st_flush s) as [s' r] eqn:Hf. apply (st_flush_spec _ _ _ Hf).
Qed.

Lemma keyed_insert e m : keyed m → keyed (<[txid e := e]> m).
Proof. intros Hm t e'. rewrite lookup_insert_Some. intros [[<- <-]|[_ Hl]]; [done|by apply Hm]. Qed.
Lemma keyed_alter f t m : (∀ e, txid (f e) = txid e) → keyed m → keyed (alter f t m).
Proof.
  intros Hf Hm t' e. rewrite lookup_alter_Some. intros [(<- & e' & He & ->)|[_ Hl]].
  - rewrite Hf. by apply Hm.
  - by apply Hm.
Qed.

(** A rollback, entry by entry. *)
Definition undo (fork_height : N) (pending : gset Txid) (e : SpTxEntry) : option SpTxEntry :=
  if below fork_height e then Some e
  else if bool_decide (txid e ∉ pending) then None
  else Some (set_timestamp None (set_height None e)).

Lemma tx_roll_back_view f P s : keyed (view s) → view (roll_back f P s) = omap (undo f P) (view s).
Proof.
  intros Hk. unfold roll_back. rewrite transactions_view.
  match goal with |- view ?x = _ => change (view x) with (st_view x) end.
  rewrite (st_view_foldl _ (λ m e, if below f e then m
    else if bool_decide (txid e ∉ P) then delete (txid e) m
    else alter (λ e, set_timestamp None (set_height None e)) (txid e) m)).
  - unfold bt_values. rewrite foldl_fmap.
    rewrite (foldl_ext_elem _ (λ m (c : Txid * SpTxEntry), if below f c.2 then m
      else if bool_decide (txid c.2 ∉ P) then delete c.1 m
      else alter (λ e, set_timestamp None (set_height None e)) c.1 m)).
    + apply (foldl_items_omap _ (undo f P) (view s)). intros m k v Hkv. unfold undo. cbn [fst snd].
      destruct (below f v); [|case_bool_decide; [done|]]; apply map_eq; intros j;
        (destruct (decide (j = k)) as [->|];
         [by rewrite ?lookup_alter_eq, lookup_partial_alter_eq, Hkv
         |by rewrite ?lookup_alter_ne, lookup_partial_alter_ne]).
    + intros m [k v] Hin. apply elem_of_bt_items, Hk in Hin. cbn [fst snd]. by rewrite Hin.
  - intros s0 e. unfold roll_back_tx. destruct (below f e); [done|].
    case_bool_decide; [apply tx_remove_view|apply tx_modify_view].
Qed.
Lemma roll_back_keyed f P s : keyed (view s) → keyed (view (roll_back f P s)).
Proof.
  intros Hk t e. rewrite tx_roll_back_view, lookup_omap by done.
  destruct (view s !! t) as [e0|] eqn:He; [|done]. apply Hk in He as <-. cbn. unfold undo.
  destruct (below f e0); [naive_solver|]. case_bool_decide; [done|]. by intros [= <-].
Qed.
End lemmas.
End SpTxs.
