(* ===== verification/SpState.v ===== *)
(** * The scan state of a silent-payment account (sp/src/scan/state.rs)

    How far the two passes of a scan got, and the hashes of the last blocks of the
    receive pass, against which a reorganisation is seen. The scalars are rows of the
    account store, the hashes a store of their own on the same medium: the state
    keeps one medium, that of [block_hashes]. *)
From stdpp Require Import base gmap list sets strings.
From Stdlib Require Import Lia.
From S2P Require Import Prelude Bitcoin Persist.

Module SpState.
Import Persist.

Definition LAST_SCANNED_HEIGHT_ROW : string := "last_scanned_height".
Definition BIRTHDAY_HEIGHT_ROW : string := "birthday_height".
Definition LAST_SPEND_HEIGHT_ROW : string := "last_spend_height".
Definition REORG_DEPTH : N := 6.

(** serde_json on the rows of the state, and the decimal keys of the hashes. *)
Class StateCodec := {
  encode_height : N → string;
  decode_height : string → result N PersistError;
  encode_hash : BlockHash → result bytes PersistError;
  decode_hash : bytes → result BlockHash PersistError;
  encode_opt : option N → result bytes PersistError;
  decode_opt : bytes → result (option N) PersistError;
  encode_u32 : N → result bytes PersistError;
  decode_u32 : bytes → result N PersistError
}.
Class StateCodecLaws `{StateCodec} := {
  height_roundtrip h : decode_height (encode_height h) = Ok h;
  hash_roundtrip h b : encode_hash h = Ok b → decode_hash b = Ok h;
  opt_roundtrip o b : encode_opt o = Ok b → decode_opt b = Ok o;
  u32_roundtrip n b : encode_u32 n = Ok b → decode_u32 b = Ok n
}.

(** Single rows, and batches on other stores of the same medium. *)
Class RowLaws (B : Type) `{BackendLaws B} := {
  get_row_spec b store key v : get_row b store key = Ok v → v = rows b store !! key;
  flush_frame b b' store store' inserts gone :
    flush_batch store inserts gone b = (b', Ok tt) → store' ≠ store →
    rows b' store' = rows b store'
}.

Section scan_state.
Context `{Build} `{StateCodec} {B : Type} `{PersistenceBackend B}.

(** [struct ScanState]. *)
Record ScanState := mkScanState {
  last_scanned_height : option N;
  block_hashes : RamStore B N BlockHash;
  last_spend_height : option N;
  birthday_height : N
}.
Definition set_scanned (h : option N) (s : ScanState) : ScanState :=
  mkScanState h (block_hashes s) (last_spend_height s) (birthday_height s).
Definition set_hashes (r : RamStore B N BlockHash) (s : ScanState) : ScanState :=
  mkScanState (last_scanned_height s) r (last_spend_height s) (birthday_height s).
Definition set_spend (h : option N) (s : ScanState) : ScanState :=
  mkScanState (last_scanned_height s) (block_hashes s) h (birthday_height s).

Definition with_backend (birthday_height : N) (b : B) : ScanState :=
  mkScanState None (ram_empty b BLOCK_HASHES_STORE_KEY encode_height encode_hash) None birthday_height.

(** A row of the account store, if it is there. *)
Definition read_row {A} (b : B) (row : string) (decode : bytes → result A PersistError)
    (missing : A) : result A PersistError :=
  try! bytes := get_row b ACCOUNT_STORE_KEY row in
  match bytes with Some x => decode x | None => Ok missing end.
Definition load_from_backend (birthday_height : N) (b : B) : result ScanState PersistError :=
  try! last_scanned_height := read_row b LAST_SCANNED_HEIGHT_ROW decode_opt None in
  try! birthday := read_row b BIRTHDAY_HEIGHT_ROW decode_u32 birthday_height in
  try! last_spend_height := read_row b LAST_SPEND_HEIGHT_ROW decode_opt None in
  try! block_hashes :=
    ram_open b BLOCK_HASHES_STORE_KEY encode_height decode_height encode_hash decode_hash in
  Ok (mkScanState last_scanned_height block_hashes last_spend_height birthday).

(** [values_ref().next_back()]. *)
Definition last_block_hash (s : ScanState) : option BlockHash := last (values_ref (block_hashes s)).
Definition hashes (s : ScanState) : gmap N BlockHash := cache (block_hashes s).

(** Whether a frontier moves forward to a height. *)
Definition advances (frontier : option N) (height : N) : bool :=
  match frontier with Some h => h <? height | None => true end.

Definition advance_spend_frontier (height : N) (s : ScanState) : ScanState :=
  if advances (last_spend_height s) height then set_spend (Some height) s else s.

Definition drop_block_hashes (drop : N → bool) (s : ScanState) : ScanState :=
  set_hashes
    (foldl (λ r h, (ram_remove h r).1) (block_hashes s)
       (List.filter drop (keys_ref (block_hashes s)))) s.

Definition clear_progress (s : ScanState) : ScanState :=
  set_spend None (drop_block_hashes (λ _, true) (set_scanned None s)).

Definition advance_frontier (height : N) (block_hash : BlockHash) (s : ScanState) : outcome ScanState :=
  if advances (last_scanned_height s) height then
    let s := set_scanned (Some height) s in
    let s := set_hashes (ram_insert height block_hash (block_hashes s)).1 s in
    let! above := add32 height 1 in
    let floor := above - REORG_DEPTH in
    Ret (drop_block_hashes (λ h, h <? floor) s)
  else Ret s.

Definition roll_back (fork_height : N) (s : ScanState) : ScanState :=
  let s := set_scanned (Some fork_height) s in
  let s := set_spend ((λ h, N.min h fork_height) <$> last_spend_height s) s in
  drop_block_hashes (λ h, fork_height <? h) s.

Definition set_last_scanned_height (height : N) (s : ScanState) : ScanState :=
  if advances (last_scanned_height s) height then set_scanned (Some height) s else s.

(** Where a pass that got to [frontier] goes on. *)
Definition next_start (birthday : N) (frontier : option N) : outcome N :=
  match frontier with Some h => add32 h 1 | None => Ret birthday end.
Definition next_scan_start (s : ScanState) : outcome N :=
  next_start (birthday_height s) (last_scanned_height s).
Definition next_spend_start (s : ScanState) : outcome N :=
  next_start (birthday_height s) (last_spend_height s).

(** [try_persist]: the hashes, then the scalars as one batch. *)
Definition try_persist : eff ScanState PersistError unit := λ s,
  match ram_flush (block_hashes s) with
  | (r, Err e) => (set_hashes r s, Err e)
  | (r, Ok _) =>
      let s := set_hashes r s in
      match (try! scanned := encode_opt (last_scanned_height s) in
             try! birthday := encode_u32 (birthday_height s) in
             try! spend := encode_opt (last_spend_height s) in
             Ok [(LAST_SCANNED_HEIGHT_ROW, scanned); (BIRTHDAY_HEIGHT_ROW, birthday);
                 (LAST_SPEND_HEIGHT_ROW, spend)]) with
      | Err e => (s, Err e)
      | Ok batch =>
          let '(b, res) := flush_batch ACCOUNT_STORE_KEY batch [] (backend r) in
          (set_hashes (mkRamStore (cache r) (dirty r) (removed r) b (store_key r) (encode_k r)
                         (encode_v r)) s, res)
      end
  end.
Definition persist (s : ScanState) : ScanState := (try_persist s).1.
End scan_state.
#[global] Arguments ScanState B : clear implicits.

(** ** Lemmas *)

Section lemmas.
Context `{Build} `{StateCodec} {B : Type} `{PersistenceBackend B}.
Implicit Types s : ScanState B.

Lemma removes_cache ks (r : RamStore B N BlockHash) :
  cache (foldl (λ r h, (ram_remove h r).1) r ks) = filter (λ kv, kv.1 ∉ ks) (cache r).
Proof.
  revert r; induction ks as [|k ks IH]; intros r; cbn [foldl].
  - symmetry. apply map_filter_id. intros k v _ Hin. by apply elem_of_nil in Hin.
  - rewrite IH. assert (cache (ram_remove k r).1 = delete k (cache r)) as ->.
    { unfold ram_remove. by destruct (cache r !! k). }
    apply map_eq. intros j. apply option_eq. intros v.
    rewrite !map_lookup_filter_Some, lookup_delete_Some. cbn [fst].
    rewrite elem_of_cons. naive_solver.
Qed.

Lemma drop_hashes p s :
  hashes (drop_block_hashes p s) = filter (λ kv, p kv.1 = false) (hashes s).
Proof.
  unfold hashes, drop_block_hashes. cbn [set_hashes block_hashes]. rewrite removes_cache.
  apply map_filter_ext. intros k v Hk. cbn [fst].
  rewrite list_elem_of_In, filter_In, <-list_elem_of_In. unfold keys_ref.
  rewrite elem_of_bt_keys. destruct (p k); naive_solver.
Qed.

(** The kept hashes are those of the last [REORG_DEPTH] heights of the frontier. *)
Definition windowed s : Prop :=
  ∀ h, is_Some (hashes s !! h) →
    ∃ l, last_scanned_height s = Some l ∧ h ≤ l ∧ l < h + REORG_DEPTH.

Lemma with_backend_windowed birthday (b : B) : windowed (with_backend birthday b).
Proof. intros h. unfold hashes. cbn. rewrite lookup_empty. by intros []. Qed.

Lemma advance_frontier_spec h hash s s' :
  h < u32_max → advance_frontier h hash s = Ret s' →
  if advances (last_scanned_height s) h then
    last_scanned_height s' = Some h ∧
    hashes s' = filter (λ kv, h < kv.1 + REORG_DEPTH) (<[h := hash]> (hashes s)) ∧
    last_spend_height s' = last_spend_height s ∧ birthday_height s' = birthday_height s
  else s' = s.
Proof.
  intros Hh. unfold advance_frontier. destruct (advances _ _); [|by intros [= ->]].
  unfold add32. rewrite add_w_ok by (unfold u32_max in Hh; lia). cbn [obind]. intros [= <-].
  split; [done|]. split; [|done]. rewrite drop_hashes. apply map_filter_ext.
  intros k v _. cbn [fst]. rewrite N.ltb_ge. unfold REORG_DEPTH. lia.
Qed.
Lemma advance_frontier_ret h hash s :
  h < u32_max → ∃ s', advance_frontier h hash s = Ret s'.
Proof.
  intros Hh. unfold advance_frontier. destruct (advances _ _); [|by eexists].
  unfold add32. rewrite add_w_ok by (unfold u32_max in Hh; lia). by eexists.
Qed.
Lemma advance_frontier_windowed h hash s s' :
  h < u32_max → windowed s → advance_frontier h hash s = Ret s' → windowed s'.
Proof.
  intros Hh Hw Ha. apply advance_frontier_spec in Ha; [|done].
  destruct (advances (last_scanned_height s) h) eqn:Hadv; [|by subst].
  destruct Ha as (Hl & Hm & _). intros k [v Hk]. exists h. split; [done|].
  rewrite Hm, map_lookup_filter_Some, lookup_insert_Some in Hk. cbn [fst] in Hk.
  destruct Hk as [[[-> _]|[Hne Hk]] Hlt]; [lia|]. split; [|done].
  destruct (Hw k ltac:(by eexists)) as (l & Hsl & Hle & _). rewrite Hsl in Hadv. simpl in Hadv.
  apply N.ltb_lt in Hadv. lia.
Qed.

Lemma roll_back_spec f s :
  last_scanned_height (roll_back f s) = Some f ∧
  last_spend_height (roll_back f s) = (λ h, N.min h f) <$> last_spend_height s ∧
  birthday_height (roll_back f s) = birthday_height s ∧
  hashes (roll_back f s) = filter (λ kv, kv.1 ≤ f) (hashes s).
Proof.
  split_and!; [done..|]. unfold roll_back. rewrite drop_hashes. apply map_filter_ext.
  intros k v _. cbn [fst]. by rewrite N.ltb_ge.
Qed.
Lemma roll_back_windowed f s :
  is_Some (hashes s !! f) → windowed s → windowed (roll_back f s).
Proof.
  intros Hf Hw h [v Hh]. destruct (roll_back_spec f s) as (Hl & _ & _ & Hm).
  rewrite Hm, map_lookup_filter_Some in Hh. destruct Hh as [Hh Hle]. exists f. split; [done|].
  split; [done|]. destruct (Hw h ltac:(by eexists)) as (l & Hsl & _ & Hlt).
  destruct (Hw f Hf) as (l' & Hsl' & Hle' & _). simplify_eq. lia.
Qed.

(** Persisting touches neither the frontiers nor the hashes. *)
Lemma persist_state s :
  last_scanned_height (persist s) = last_scanned_height s ∧
  last_spend_height (persist s) = last_spend_height s ∧
  birthday_height (persist s) = birthday_height s ∧ hashes (persist s) = hashes s.
Proof.
  unfold persist, try_persist, hashes.
  assert (Hc : cache (ram_flush (block_hashes s)).1 = cache (block_hashes s)).
  { destruct (ram_flush (block_hashes s)) as [r x] eqn:Hf.
    apply (st_flush_spec (StoreLaws:=RamStore_laws) _ _ _ Hf). }
  destruct (ram_flush (block_hashes s)) as [r [[]|e]]; cbn [fst] in Hc; [|done].
  cbn [set_hashes last_scanned_height birthday_height last_spend_height].
  destruct (rbind _ _) as [batch|e]; [|done].
  by destruct (flush_batch _ _ _ _) as [b res].
Qed.
Lemma persist_windowed s : windowed s → windowed (persist s).
Proof.
  intros Hw h. destruct (persist_state s) as (-> & _ & _ & ->). apply Hw.
Qed.
End lemmas.

(** ** What is persisted is loaded back *)

Section durability.
Context `{Build} `{StateCodec} {Codec : StateCodecLaws} {B : Type} `{PersistenceBackend B}.
Context `{!BackendLaws B} {Rows : RowLaws B}.
Implicit Types s : ScanState B.

(** One operation on a state; a flush counts when it succeeds. *)
Inductive state_step : ScanState B → ScanState B → Prop :=
  | step_advance h hash s s' : advance_frontier h hash s = Ret s' → state_step s s'
  | step_advance_spend h s : state_step s (advance_spend_frontier h s)
  | step_roll_back f s : state_step s (roll_back f s)
  | step_clear s : state_step s (clear_progress s)
  | step_persist s s' : try_persist s = (s', Ok tt) → state_step s s'.

(** The medium of the hashes is in step with them. *)
Definition durable s : Prop :=
  coherent encode_height encode_hash (block_hashes s) ∧
  store_key (block_hashes s) = BLOCK_HASHES_STORE_KEY.

Lemma removes_durable ks (r : RamStore B N BlockHash) :
  coherent encode_height encode_hash r → store_key r = BLOCK_HASHES_STORE_KEY →
  let r' := foldl (λ r h, (ram_remove h r).1) r ks in
  coherent encode_height encode_hash r' ∧ store_key r' = BLOCK_HASHES_STORE_KEY.
Proof.
  revert r; induction ks as [|k ks IH]; intros r Hc Hk; [done|]. cbn [foldl]. apply IH.
  - destruct (ram_remove k r) as [r' x] eqn:Hr.
    by eapply (coherent_remove _ decode_height _ decode_hash height_roundtrip hash_roundtrip).
  - unfold ram_remove. by destruct (cache r !! k).
Qed.
Lemma drop_durable p s : durable s → durable (drop_block_hashes p s).
Proof. intros [Hc Hk]. by apply removes_durable. Qed.

Lemma coherent_medium (r : RamStore B N BlockHash) b :
  rows b (store_key r) = rows (backend r) (store_key r) →
  coherent encode_height encode_hash r →
  coherent encode_height encode_hash
    (mkRamStore (cache r) (dirty r) (removed r) b (store_key r) (encode_k r) (encode_v r)).
Proof.
  intros Hb [He Hv Hd Hr Hc Hk]. split; simpl; [done..| |]; rewrite Hb; [|done].
  intros k Hnd Hnr. apply (Hc k Hnd Hnr).
Qed.

Lemma try_persist_Ok s s' :
  durable s → try_persist s = (s', Ok tt) →
  durable s' ∧ dirty (block_hashes s') = ∅ ∧ removed (block_hashes s') = ∅ ∧
  last_scanned_height s' = last_scanned_height s ∧ last_spend_height s' = last_spend_height s ∧
  birthday_height s' = birthday_height s ∧ hashes s' = hashes s ∧
  ∃ scanned birthday spend,
    encode_opt (last_scanned_height s) = Ok scanned ∧ encode_u32 (birthday_height s) = Ok birthday ∧
    encode_opt (last_spend_height s) = Ok spend ∧
    let m := rows (backend (block_hashes s')) ACCOUNT_STORE_KEY in
    m !! LAST_SCANNED_HEIGHT_ROW = Some scanned ∧ m !! BIRTHDAY_HEIGHT_ROW = Some birthday ∧
    m !! LAST_SPEND_HEIGHT_ROW = Some spend.
Proof.
  intros [Hc Hk]. unfold try_persist. destruct (ram_flush _) as [r [[]|e]] eqn:Hf; [|done].
  destruct (coherent_flush _ decode_height _ decode_hash height_roundtrip hash_roundtrip _ _ Hc Hf) as (Hc' & Hd & Hr & Hca & Hsk).
  cbn [set_hashes last_scanned_height birthday_height last_spend_height].
  destruct (encode_opt (last_scanned_height s)) as [x1|] eqn:E1; [|done].
  destruct (encode_u32 (birthday_height s)) as [x2|] eqn:E2; [|done].
  destruct (encode_opt (last_spend_height s)) as [x3|] eqn:E3; [|done]. cbn [rbind].
  destruct (flush_batch _ _ _ _) as [b res] eqn:Hb. intros [= <- ->].
  cbn [set_hashes block_hashes dirty removed last_scanned_height last_spend_height
       birthday_height backend hashes cache].
  assert (Hfr : rows b (store_key r) = rows (backend r) (store_key r)).
  { eapply flush_frame; [done|]. by rewrite Hsk, Hk. }
  split_and!; [|done..|].
  { split; [by apply coherent_medium|]. cbn. by rewrite Hsk. }
  exists x1, x2, x3. split_and!; [done..| | |]; apply flush_batch_spec in Hb; rewrite Hb;
    cbn [apply_batch foldl fst snd]; by simplify_map_eq.
Qed.

Lemma durable_step s s' : state_step s s' → durable s → durable s'.
Proof.
  destruct 1 as [h hash s s' Ha|h s|f s|s|s s' Hp]; intros Hd.
  - revert Ha. unfold advance_frontier. destruct (advances _ _); [|by intros [= <-]].
    intros (x & _ & [= <-])%obind_Ret. apply drop_durable. destruct Hd as [Hc Hk].
    split; [|done]. cbn. by apply (coherent_put _ decode_height _ decode_hash height_roundtrip hash_roundtrip).
  - unfold advance_spend_frontier. by destruct (advances _ _).
  - by apply drop_durable.
  - unfold clear_progress. by apply (drop_durable _ (set_scanned None s)).
  - by apply try_persist_Ok in Hp as [? _].
Qed.

(** Whatever was done to a scan state since it was created on an empty medium,
    once it is persisted, loading from the medium gives it back: both frontiers, the
    birthday (whatever the fallback) and the hashes. *)
Theorem scan_state_durable birthday fallback b s s' l
    (Hempty : rows b BLOCK_HASHES_STORE_KEY = ∅)
    (Hsteps : rtc state_step (with_backend birthday b) s)
    (Hpersist : try_persist s = (s', Ok tt))
    (Hrow : ∀ row, ∃ v, get_row (backend (block_hashes s')) ACCOUNT_STORE_KEY row = Ok v)
    (Hrows : get_rows (backend (block_hashes s')) BLOCK_HASHES_STORE_KEY = Ok l) :
  load_from_backend fallback (backend (block_hashes s')) = Ok s' ∧
  last_scanned_height s' = last_scanned_height s ∧ last_spend_height s' = last_spend_height s ∧
  hashes s' = hashes s.
Proof.
  assert (Hd : durable s).
  { assert (Hd0 : durable (with_backend birthday b)) by (split; [by apply (coherent_empty _ decode_height _ decode_hash height_roundtrip hash_roundtrip)|done]).
    clear -Hd0 Hsteps Codec Rows. induction Hsteps as [|x y z Hxy _ IH]; [done|].
    apply IH. by eapply durable_step. }
  destruct (try_persist_Ok _ _ Hd Hpersist) as ((Hc & Hk) & Hdi & Hre & Hs1 & Hs2 & Hs3 & Hs4 &
    x1 & x2 & x3 & E1 & E2 & E3 & R1 & R2 & R3).
  split; [|done]. unfold load_from_backend, read_row.
  assert (Hget : ∀ row v, rows (backend (block_hashes s')) ACCOUNT_STORE_KEY !! row = Some v →
    get_row (backend (block_hashes s')) ACCOUNT_STORE_KEY row = Ok (Some v)).
  { intros row v Hv. destruct (Hrow row) as [o Ho]. rewrite Ho. f_equal. rewrite <-Hv.
    by apply get_row_spec. }
  rewrite (Hget _ _ R1). cbn [rbind]. rewrite (opt_roundtrip _ _ E1). cbn [rbind].
  rewrite (Hget _ _ R2). cbn [rbind]. rewrite (u32_roundtrip _ _ E2). cbn [rbind].
  rewrite (Hget _ _ R3). cbn [rbind]. rewrite (opt_roundtrip _ _ E3). cbn [rbind].
  rewrite <-Hk in Hrows |- *.
  rewrite (coherent_open _ _ _ _ height_roundtrip hash_roundtrip _ _ Hc Hdi Hre Hrows). cbn [rbind].
  f_equal. rewrite <-Hs1, <-Hs2, <-Hs3. by destruct s'.
Qed.
End durability.

(** *** Witnesses *)
Module Witness.
Import Persist.Witness.

(** Heights in unary; a hash, a number and an option as one or two bytes. *)
#[export] Instance codec : StateCodec := {|
  encode_height := λ h, Nat.iter (N.to_nat h) (String.append "1") "";
  decode_height := λ s, Ok (N.of_nat (String.length s));
  encode_hash := λ h, Ok [h];
  decode_hash := λ b, match b with [h] => Ok h | _ => Err Serde end;
  encode_opt := λ o, Ok (match o with Some h => [1; h] | None => [0] end);
  decode_opt := λ b, match b with [0] => Ok None | [1; h] => Ok (Some h) | _ => Err Serde end;
  encode_u32 := λ n, Ok [n];
  decode_u32 := λ b, match b with [n] => Ok n | _ => Err Serde end
|}.
#[export] Instance codec_laws : StateCodecLaws.
Proof.
  split; simpl.
  - intros h. f_equal. rewrite <-(N2Nat.id h) at 2. f_equal.
    induction (N.to_nat h) as [|n IH]; [done|]. exact (f_equal S IH).
  - by intros h b [= <-].
  - by intros [h|] b [= <-].
  - by intros n b [= <-].
Qed.

Lemma mem_deletes_frame store store' ks b b' r :
  store' ≠ store → efor ks (λ key, mem_delete store key) b = (b', r) →
  mem_rows b' store' = mem_rows b store'.
Proof.
  intros Hne. revert b; induction ks as [|k ks IH]; intros b; simpl; [unfold eret; by intros [= <- _]|].
  unfold ebind. simpl. intros Hb%IH. rewrite Hb. unfold mem_rows, mem in *. by rewrite lookup_insert_ne.
Qed.
Lemma mem_puts_frame store store' (l : list (string * bytes)) b b' r :
  store' ≠ store → efor l (λ row, mem_put store row.1 row.2) b = (b', r) →
  mem_rows b' store' = mem_rows b store'.
Proof.
  intros Hne. revert b; induction l as [|k l IH]; intros b; simpl; [unfold eret; by intros [= <- _]|].
  unfold ebind. simpl. intros Hb%IH. rewrite Hb. unfold mem_rows, mem in *. by rewrite lookup_insert_ne.
Qed.
#[export] Instance mem_row_laws : RowLaws mem.
Proof.
  split; simpl.
  - by intros b store key v [= <-].
  - intros b b' store store' ins gone. unfold flush_batch_default.
    intros (b1 & [] & H1 & (b2 & [] & H2 & H3)%ebind_Ok)%ebind_Ok Hne.
    unfold elift in H1. injection H1 as <- _.
    apply (mem_puts_frame _ _ _ _ _ _ Hne) in H3. apply (mem_deletes_frame _ _ _ _ _ _ Hne) in H2.
    congruence.
Qed.

Lemma mem_get_row (b : mem) store key : ∃ v, get_row b store key = Ok v.
Proof. by eexists. Qed.
#[export] Instance build : Build := true.

Definition st0 : ScanState mem := with_backend 3 (∅ : mem).
Definition adv (h hash : N) (s : ScanState mem) : ScanState mem :=
  match advance_frontier h hash s with Ret s => s | Panic => s end.
(** Eight blocks, of which six hashes are kept; the spend pass at 7; back to 9. *)
Definition st1 : ScanState mem :=
  adv 10 80 (adv 9 79 (adv 8 78 (adv 7 77 (adv 6 76 (adv 5 75 (adv 4 74 (adv 3 73 st0))))))).
Definition st2 : ScanState mem := roll_back 9 (advance_spend_frontier 7 st1).
Definition st3 : ScanState mem := persist st2.

Example window_kept :
  bt_items (hashes st1) = [(5, 75); (6, 76); (7, 77); (8, 78); (9, 79); (10, 80)] ∧
  bt_items (hashes st2) = [(5, 75); (6, 76); (7, 77); (8, 78); (9, 79)].
Proof. split; vm_compute; reflexivity. Qed.

Lemma adv_step h hash s : h < u32_max → state_step s (adv h hash s).
Proof.
  intros Hh. destruct (advance_frontier_ret h hash s Hh) as [s' Hs]. unfold adv. rewrite Hs.
  by eapply step_advance.
Qed.
Lemma steps : rtc state_step st0 st2.
Proof.
  unfold st2, st1. eapply rtc_r; [|apply step_roll_back].
  eapply rtc_r; [|apply step_advance_spend].
  do 8 (eapply rtc_r; [|by apply adv_step]). apply rtc_refl.
Qed.

Lemma scan_state_durable_witness :
  load_from_backend 1 (backend (block_hashes st3)) = Ok st3 ∧
  last_scanned_height st3 = Some 9 ∧ last_spend_height st3 = Some 7 ∧ hashes st3 = hashes st2.
Proof.
  apply (scan_state_durable 3 1 (∅ : mem) st2 st3
           (map_to_list (mem_rows (backend (block_hashes st3)) BLOCK_HASHES_STORE_KEY))).
  - reflexivity.
  - apply steps.
  - assert (Hr : (try_persist st2).2 = Ok tt) by (vm_compute; reflexivity).
    rewrite <-Hr. unfold st3, persist. apply surjective_pairing.
  - intros row. apply mem_get_row.
  - vm_compute. reflexivity.
Defined.
End Witness.
End SpState.
