(* ===== verification/SpScan.v ===== *)
(** * The receive pass of a silent-payment scan (sp/src/scan/mod.rs)

    What a scan does to the stores of an account: it rolls them back when the chain
    reorganised, records the outputs found in each block, and moves the receive
    frontier over the blocks that are done. Blocks come from a pool of workers in any
    order: the collector is a loop over what arrives. The stores are shared behind
    mutexes; a call that locks one is a state change of [ScanStores]. Heights that
    went through [Height::from_consensus] are below 500 million, so their sums do not
    overflow. *)
From stdpp Require Import base gmap list sets sorting strings.
From Stdlib Require Import Lia.
From S2P Require Import Prelude Bitcoin Persist HeaderBackend HeaderValidator HeaderStore.
From S2P Require Import Notification SpCoinStore SpTxStore SpState.

Module SpScan.
Import Persist SpState SpCoinStore.
Import HeaderValidator(HeaderLib, raw_header).

(** [receiver::error::Error]; causes kept as text are dropped. *)
Inductive Error :=
  | SeedDerivation | KeyDerivation | MissingSecretKey
  | InvalidRange (start e : N) | MissingBlockHash (height : N) | ReorgTooDeep (blocks : N)
  | UnknownAddressType | SpNetworkMismatch | SilentPayments | Secp256k1 | Bip32 | EBlockFilter
  | InvalidHeight | EAddress | Backend.

(** [Height::from_consensus] of the bitcoin crate. *)
Definition from_consensus (h : N) : result N Error :=
  if h <? 500000000 then Ok h else Err InvalidHeight.

(** [struct UtxoData]. *)
Record UtxoData := mkUtxoData {
  ud_txid : Txid; ud_vout : N; ud_value : N; scriptpubkey : script; ud_spent : bool
}.

(** [enum ScanOutcome]. *)
Inductive ScanOutcome := Completed | Interrupted (last_scanned last_spend : option N).

(** [impl From<ScanOutcome> for SpNotification]. *)
Definition outcome_notification (o : ScanOutcome) : Notification.SpNotification :=
  match o with
  | Completed => Notification.ScanCompleted
  | Interrupted a b => Notification.ScanStopped a b
  end.

(** [enum BlockOutcome]. *)
Inductive BlockOutcome :=
  | NoMatch (height : N) (hash : BlockHash)
  | Matched (height : N) (hash : BlockHash) (tweaks : list (list N)).

(** The elliptic-curve side of the receiver, and the block oracle: the candidate
    scripts and the secrets of a block's tweaks, the outputs of a transaction that
    are ours, the outputs of a block, and the match of its filter. *)
Class SpLib := {
  PubKey : Type;
  XOnly : Type;
  Scalar : Type;
  XOnly_eqdec :: EqDecision XOnly;
  XOnly_countable :: Countable XOnly;
  parse_pubkey : list N → option PubKey;
  xonly_from_slice : list N → option XOnly;
  to_be_bytes : Scalar → list N;
  spk_is_p2tr : script → bool;
  script_to_secret_map : list PubKey → result (gmap script PubKey) Error;
  scan_transaction : PubKey → list XOnly → result (list (option Label * gmap XOnly Scalar)) Error;
  candidate_spks : list (list N) → result (list script) Error;
  match_any : BlockHash → list (list N) → list N → result bool Error;
  utxos : N → result (list UtxoData) Error
}.

(** [struct BlockData]: the filter is its block's and its bytes. *)
Record BlockData := mkBlockData {
  blkheight : N; blkhash : BlockHash; tweaks : list (list N);
  filter_hash : BlockHash; filter_data : list N
}.

(** The heights [fetch_blocks] asks for; there is no block at 0. *)
Definition fetch_heights (start e : N) : list N :=
  let start := N.max start 1 in nseq start (N.to_nat (e + 1 - start)).

Section derive.
Context `{SpLib}.

Definition check_block_outputs (filter : list N) (blkhash : BlockHash) (candidate_spks : list script) :
    result bool Error :=
  let output_keys := drop 2 <$> candidate_spks in
  if negb (bool_decide (output_keys = [])) then match_any blkhash output_keys filter else Ok false.

Definition candidate_match (bd : BlockData) : result bool Error :=
  if bool_decide (tweaks bd = []) then Ok false
  else
    try! spks := candidate_spks (tweaks bd) in
    check_block_outputs (filter_data bd) (filter_hash bd) spks.

(** What a crypto worker makes of a block it got. *)
Definition worker (msg : result BlockData Error) : result BlockOutcome Error :=
  try! bd := msg in
  try! matched := candidate_match bd in
  Ok (if (matched : bool) then Matched (blkheight bd) (blkhash bd) (tweaks bd)
      else NoMatch (blkheight bd) (blkhash bd)).

(** Mapping a fallible call over a list, up to the first error. *)
Fixpoint rmap {A C} (f : A → result C Error) (l : list A) : result (list C) Error :=
  match l with
  | [] => Ok []
  | a :: l => try! b := f a in try! bs := rmap f l in Ok (b :: bs)
  end.

Definition output_key (u : UtxoData) : result XOnly Error :=
  ok_or (xonly_from_slice (drop 2 (scriptpubkey u))) Secp256k1.

(** The first label whose outputs have the key. *)
Fixpoint find_ours (x : XOnly) (ours : list (option Label * gmap XOnly Scalar)) :
    option (option Label * Scalar) :=
  match ours with
  | [] => None
  | (label, m) :: ours =>
      match m !! x with Some scalar => Some (label, scalar) | None => find_ours x ours end
  end.

Definition Found : Type := option Label * UtxoData * Scalar.
Fixpoint our_utxos (ours : list (option Label * gmap XOnly Scalar)) (us : list UtxoData) :
    result (list Found) Error :=
  match us with
  | [] => Ok []
  | u :: us =>
      if negb (spk_is_p2tr (scriptpubkey u)) || ud_spent u then our_utxos ours us
      else
        try! x := output_key u in
        try! l := our_utxos ours us in
        Ok (match find_ours x ours with Some (label, scalar) => (label, u, scalar) :: l | None => l end)
  end.

(** The outputs of one transaction. *)
Definition scan_tx (secrets : gmap script PubKey) (us : list UtxoData) : result (list Found) Error :=
  match list_find (λ u, is_Some (secrets !! scriptpubkey u)) us with
  | None => Ok []
  | Some (_, u) =>
      match secrets !! scriptpubkey u with
      | None => Ok []
      | Some secret =>
          try! keys := rmap output_key (List.filter (λ u, spk_is_p2tr (scriptpubkey u)) us) in
          try! ours := scan_transaction secret keys in
          our_utxos ours us
      end
  end.

(** The outputs of a block by transaction, in their order. *)
Definition group (m : gmap Txid (list UtxoData)) (u : UtxoData) : gmap Txid (list UtxoData) :=
  <[ud_txid u := default [] (m !! ud_txid u) ++ [u]]> m.
(** The transactions are hashed in the code; their order does not matter to
    [derive_owned]. *)
Definition scan_utxos (height : N) (secrets : gmap script PubKey) : result (list Found) Error :=
  try! us := utxos height in
  try! found := rmap (scan_tx secrets) (bt_values (foldl group ∅ us)) in
  Ok (concat found).

Definition owned_output (height : N) (f : Found) : OutPoint * OwnedOutput :=
  let '(label, u, tweak) := f in
  (mkOutPoint (ud_txid u) (ud_vout u),
   mkOwnedOutput (Some height) (to_be_bytes tweak) (ud_value u) (scriptpubkey u) label SpUnspent).
Definition derive_owned (height : N) (tweaks : list (list N)) :
    result (gmap OutPoint OwnedOutput) Error :=
  try! keys := rmap (λ t, ok_or (parse_pubkey t) Secp256k1) tweaks in
  try! secrets := script_to_secret_map keys in
  try! found := scan_utxos height secrets in
  Ok (foldl (λ m o, <[o.1 := o.2]> m) ∅ (owned_output height <$> found)).
End derive.

Section scan.
Context `{Build} `{StateCodec} {B : Type} `{PersistenceBackend B}.
Context {CS : Type} `{!Store CS OutPoint SpCoinEntry}.
Context {TS : Type} `{!Store TS Txid SpTxStore.SpTxEntry}.
Context `{HeaderLib} {SH : Type} `{!Store SH N raw_header}.

(** [struct ScanStores], and what was sent on its channel. *)
Record ScanStores := mkScanStores {
  coin_store : CS;
  tx_store : TS;
  scan_state : ScanState B;
  sent : list Notification.SpNotification;
  header_store : option (HeaderStore.HeaderStore (S:=SH))
}.
Definition set_coin_store (c : CS) (st : ScanStores) : ScanStores :=
  mkScanStores c (tx_store st) (scan_state st) (sent st) (header_store st).
Definition set_tx_store (t : TS) (st : ScanStores) : ScanStores :=
  mkScanStores (coin_store st) t (scan_state st) (sent st) (header_store st).
Definition set_scan_state (s : ScanState B) (st : ScanStores) : ScanStores :=
  mkScanStores (coin_store st) (tx_store st) s (sent st) (header_store st).
Definition set_header_store (h : option (HeaderStore.HeaderStore (S:=SH))) (st : ScanStores) : ScanStores :=
  mkScanStores (coin_store st) (tx_store st) (scan_state st) (sent st) h.
Definition notify (n : Notification.SpNotification) (st : ScanStores) : ScanStores :=
  mkScanStores (coin_store st) (tx_store st) (scan_state st) (sent st ++ [n]) (header_store st).

(** [ScanOutcome::interrupted]. *)
Definition interrupted (st : ScanStores) : ScanOutcome :=
  Interrupted (last_scanned_height (scan_state st)) (last_spend_height (scan_state st)).

Definition block_time (height : N) (st : ScanStores) : ScanStores * option N :=
  match header_store st with
  | None => (st, None)
  | Some hs => let r := SpTxStore.block_time height hs in (set_header_store (Some r.1) st, r.2)
  end.

(** *** Reorganisations *)

(** [hash_at]: the hash of the oracle's block at a height. *)
Fixpoint find_fork_from (hash_at : N → result BlockHash Error) (depth : N)
    (l : list (N * BlockHash)) : result (option N) Error :=
  match l with
  | [] => Err (ReorgTooDeep (REORG_DEPTH - 1))
  | (height, hash) :: l =>
      try! at_ := from_consensus height in
      try! chain := hash_at at_ in
      if chain =? hash then Ok (if 0 <? depth then Some height else None)
      else find_fork_from hash_at (depth + 1) l
  end.
Definition find_fork (hash_at : N → result BlockHash Error) (scanned : gmap N BlockHash) :
    result (option N) Error :=
  if decide (scanned = ∅) then Ok None else find_fork_from hash_at 0 (rev (bt_items scanned)).

Definition roll_back (fork_height : N) (reorged : gset BlockHash) (st : ScanStores) : ScanStores :=
  let c := SpCoinStore.persist (SpCoinStore.roll_back fork_height reorged (coin_store st)) in
  let pending := spending_txids c in
  let t := SpTxStore.persist (SpTxStore.roll_back fork_height pending (tx_store st)) in
  let s := SpState.persist (SpState.roll_back fork_height (scan_state st)) in
  set_scan_state s (set_tx_store t (set_coin_store c st)).

(** The start of the scan is the result. *)
Definition handle_reorg (hash_at : N → result BlockHash Error) (start : N) : eff ScanStores Error N := λ st,
  let scanned := hashes (scan_state st) in
  match find_fork hash_at scanned with
  | Err e => (st, Err e)
  | Ok None => (st, Ok start)
  | Ok (Some fork_height) =>
      let reorged := list_to_set (bt_range (λ h, fork_height + 1 <=? h) scanned).*2 in
      let st := roll_back fork_height reorged st in
      let st := notify (Notification.Reorg fork_height) st in
      match from_consensus (fork_height + 1) with
      | Err e => (st, Err e)
      | Ok above => (st, Ok (N.min start above))
      end
  end.

(** *** Recording *)

Definition save_state (st : ScanStores) : ScanStores :=
  let st := set_coin_store (SpCoinStore.persist (coin_store st)) st in
  let st := set_tx_store (SpTxStore.persist (tx_store st)) st in
  set_scan_state (SpState.persist (scan_state st)) st.

(** An output as it is stored: a coin that is there keeps its spend. *)
Definition keep_spend (existing : option SpCoinEntry) (output : OwnedOutput) : OwnedOutput :=
  match existing with
  | Some e => if decide (status e = SpUnspent) then output else set_spend_status (status e) output
  | None => output
  end.
Definition record_output (acc : ScanStores * gmap Txid N) (o : OutPoint * OwnedOutput) :
    ScanStores * gmap Txid N :=
  let '(st, by_tx) := acc in
  let by_tx :=
    match blockheight o.2 with Some h => insert_new (op_txid o.1) h by_tx | None => by_tx end in
  let output := keep_spend (SpCoinStore.get (coin_store st) o.1) o.2 in
  (notify (Notification.NewOutput o.1)
     (set_coin_store (SpCoinStore.insert o.1 output (coin_store st)) st), by_tx).

Definition resolve_time (acc : ScanStores * list (Txid * N * option N)) (t : Txid * N) :
    ScanStores * list (Txid * N * option N) :=
  let r := block_time t.2 acc.1 in (r.1, acc.2 ++ [(t, r.2)]).
Definition confirm_tx (t : Txid * N * option N) (s : TS) : TS :=
  let '(txid, height, time) := t in
  let s :=
    match SpTxStore.get s txid with
    | Some _ => SpTxStore.update_height txid (Some height) s
    | None => SpTxStore.insert (SpTxStore.set_height (Some height) (SpTxStore.new txid)) s
    end in
  match time with Some ts => SpTxStore.update_timestamp txid ts s | None => s end.

Definition record_outputs (outputs : gmap OutPoint OwnedOutput) (st : ScanStores) : ScanStores :=
  let '(st, by_tx) := foldl record_output (st, ∅) (bt_items outputs) in
  let st := set_coin_store (SpCoinStore.persist (coin_store st)) st in
  let '(st, times) := foldl resolve_time (st, []) (bt_items by_tx) in
  let t := foldl (λ s t, confirm_tx t s) (tx_store st) times in
  set_tx_store (SpTxStore.persist t) st.

Definition record_input (block_hash : BlockHash) (acc : ScanStores * list Txid) (o : OutPoint) :
    ScanStores * list Txid :=
  let '(st, confirmed) := acc in
  let confirmed :=
    match SpCoinStore.get (coin_store st) o ≫= spending_txid with
    | Some txid => confirmed ++ [txid]
    | None => confirmed
    end in
  (notify (Notification.OutputSpent o)
     (set_coin_store (confirm_spend o block_hash (coin_store st)) st), confirmed).
Definition record_inputs (block_hash : BlockHash) (height : N) (inputs : gset OutPoint)
    (st : ScanStores) : ScanStores :=
  let '(st, confirmed) := foldl (record_input block_hash) (st, []) (elements inputs) in
  let st := set_coin_store (SpCoinStore.persist (coin_store st)) st in
  if bool_decide (confirmed = []) then st
  else
    let '(st, ts) := block_time height st in
    let t := foldl (λ s txid,
      let s := SpTxStore.update_height txid (Some height) s in
      match ts with Some ts => SpTxStore.update_timestamp txid ts s | None => s end)
      (tx_store st) confirmed in
    set_tx_store (SpTxStore.persist t) st.

(** Calls that may panic and return a [Result]; what was recorded before an error
    stays. *)
Definition scan (A : Type) : Type := ScanStores → outcome (ScanStores * result A Error).
Definition sbind {A C} (c : scan A) (k : A → scan C) : scan C := λ st,
  match c st with
  | Ret (st, Ok a) => k a st
  | Ret (st, Err e) => Ret (st, Err e)
  | Panic => Panic
  end.
Definition sret {A} (a : A) : scan A := λ st, Ret (st, Ok a).

(** The frontier moves over [height..], whose hashes are known. *)
Fixpoint advance_over (hashes : list (option BlockHash)) (start_u32 : N) (heights : list N) :
    scan unit := λ st,
  match heights with
  | [] => Ret (st, Ok tt)
  | height :: heights =>
      let! i := sub32 height start_u32 in
      let! slot := expect (hashes !! N.to_nat i) in
      match slot with
      | None => Ret (st, Err (MissingBlockHash height))
      | Some hash =>
          let! s := advance_frontier height hash (scan_state st) in
          advance_over hashes start_u32 heights (set_scan_state s st)
      end
  end.
Definition persist_scan_state : scan unit := λ st,
  Ret (set_scan_state (SpState.persist (scan_state st)) st, Ok tt).
Definition record_scan_frontier (start_u32 tip : N) (hashes : list (option BlockHash)) : scan unit :=
  let from := N.max start_u32 (tip + 1 - REORG_DEPTH) in
  sbind (advance_over hashes start_u32 (nseq from (N.to_nat (tip + 1 - from))))
    (λ _, persist_scan_state).

Definition record_spend_frontier (height : N) (st : ScanStores) : ScanStores :=
  set_scan_state (SpState.persist (advance_spend_frontier height (scan_state st))) st.
Definition spend_frontier (st : ScanStores) : option N := last_spend_height (scan_state st).
Definition effective_spend_start (st : ScanStores) (start_u32 : N) : N :=
  match spend_frontier st with
  | Some f => if start_u32 <=? f then start_u32 else f + 1
  | None => start_u32
  end.
Definition record_receive_progress (current e : N) (st : ScanStores) : ScanStores :=
  notify (Notification.ScanReceiveProgress current e) st.

(** *** The collector *)

(** The local variables of [process_blocks]. *)
Record Collector := mkCollector {
  done_ : list bool;
  seen : list (option BlockHash);
  recv_tip : option N;
  last_progress : N;
  notified_any : bool
}.

(** [while next <= end_u32 && done[..]]: the tip after it; an index out of range
    panics. *)
Fixpoint advance_tip (fuel : nat) (done : list bool) (start_u32 end_u32 next : N) (tip : option N) :
    outcome (option N) :=
  match fuel with
  | O => Ret tip
  | S fuel =>
      if end_u32 <? next then Ret tip
      else
        let! d := expect (done !! N.to_nat (next - start_u32)) in
        if (d : bool) then advance_tip fuel done start_u32 end_u32 (next + 1) (Some next) else Ret tip
  end.

(** [checkpoint]: whether 60 seconds passed since the last one. *)
Definition commit_block (start_u32 end_u32 height : N) (hash : BlockHash)
    (outs : gmap OutPoint OwnedOutput) (checkpoint : bool) (c : Collector) : scan Collector := λ st,
  let! idx := sub32 height start_u32 in
  let i := N.to_nat idx in
  let! _ := expect (done_ c !! i) in
  let done := <[i := true]> (done_ c) in
  let! _ := expect (seen c !! i) in
  let hashes := <[i := Some hash]> (seen c) in
  let st := if bool_decide (outs = ∅) then st else record_outputs outs st in
  let next := match recv_tip c with Some h => h + 1 | None => start_u32 end in
  let! tip := advance_tip (S (length done)) done start_u32 end_u32 next (recv_tip c) in
  let '(st, progress, notified) :=
    match tip with
    | Some t =>
        if negb (notified_any c) || (100 <=? t - last_progress c)
        then (record_receive_progress t end_u32 st, t, true)
        else (st, last_progress c, notified_any c)
    | None => (st, last_progress c, notified_any c)
    end in
  let c := mkCollector done hashes tip progress notified in
  match checkpoint, tip with
  | true, Some t =>
      sbind (record_scan_frontier start_u32 t hashes) (λ _ st, Ret (save_state st, Ok c)) st
  | _, _ => Ret (st, Ok c)
  end.

(** What the collector meets at a turn: a message, whether a checkpoint is due, and
    whether the stop flag is up after the commit. *)
Record Arrival := mkArrival { msg : result BlockOutcome Error; due : bool; stopping : bool }.

(** A stop: the frontier is recorded as far as it got. *)
Definition stop_here (start_u32 : N) (c : Collector) : scan ScanOutcome :=
  sbind (match recv_tip c with
         | Some tip => record_scan_frontier start_u32 tip (seen c)
         | None => sret tt
         end)
    (λ _ st, let st := save_state st in Ret (st, Ok (interrupted st))).

Definition block_of `{SpLib} (m : BlockOutcome) :
    result (N * BlockHash * gmap OutPoint OwnedOutput) Error :=
  match m with
  | NoMatch height hash => Ok (height, hash, ∅)
  | Matched height hash tweaks =>
      try! outs := derive_owned height tweaks in Ok (height, hash, outs)
  end.

(** The loop over the arrivals; [last_stop]: the stop flag once they have ended. *)
Fixpoint collect `{SpLib} (start_u32 end_u32 : N) (last_stop : bool) (l : list Arrival)
    (c : Collector) : scan ScanOutcome := λ st,
  match l with
  | a :: l =>
      match (try! m := msg a in block_of m) with
      | Err e => Ret (st, Err e)
      | Ok (height, hash, outs) =>
          sbind (commit_block start_u32 end_u32 height hash outs (due a) c)
            (λ c, if stopping a then stop_here start_u32 c
                  else collect start_u32 end_u32 last_stop l c) st
      end
  | [] =>
      if negb (bool_decide (recv_tip c = Some end_u32)) then
        if last_stop then stop_here start_u32 c st else Ret (st, Err (MissingBlockHash end_u32))
      else
        sbind (record_scan_frontier start_u32 end_u32 (seen c))
          (λ _ st, Ret (save_state (record_receive_progress end_u32 end_u32 st), Ok Completed)) st
  end.
Definition process_blocks `{SpLib} (start_u32 end_u32 : N) (last_stop : bool) (l : list Arrival) :
    scan ScanOutcome := λ st,
  let! d := sub32 end_u32 start_u32 in
  let len := N.to_nat (d + 1) in
  collect start_u32 end_u32 last_stop l
    (mkCollector (replicate len false) (replicate len None) None (start_u32 - 1) false) st.
End scan.

(** ** Lemmas: loops over distinct keys *)

Lemma foldl_partial_alter {K V A : Type} `{Countable K} (key : A → K)
    (f : A → option V → option V) (l : list A) (m : gmap K V) :
  NoDup (key <$> l) →
  (∀ a, a ∈ l → foldl (λ m a, partial_alter (f a) (key a) m) m l !! key a = f a (m !! key a)) ∧
  (∀ j, j ∉ key <$> l → foldl (λ m a, partial_alter (f a) (key a) m) m l !! j = m !! j).
Proof.
  revert m; induction l as [|b l IH]; intros m Hnd.
  { split; [|done]. intros a Ha. by apply elem_of_nil in Ha. }
  rewrite fmap_cons in Hnd. apply NoDup_cons in Hnd as [Hb Hnd]. cbn [foldl].
  destruct (IH (partial_alter (f b) (key b) m) Hnd) as [Hin Hout]. split.
  - intros a Ha. destruct (decide (key a ∈ key <$> l)) as [Hal|Hal].
    + apply list_elem_of_fmap in Hal as (a' & Hk & Ha').
      apply elem_of_cons in Ha as [->|Ha]; [by exfalso; apply Hb; rewrite Hk; apply list_elem_of_fmap; exists a'|].
      rewrite Hin by done. rewrite lookup_partial_alter_ne; [done|].
      intros Hkb. apply Hb. rewrite Hkb. by apply list_elem_of_fmap; exists a.
    + apply elem_of_cons in Ha as [->|Ha].
      * rewrite Hout by done. by rewrite lookup_partial_alter_eq.
      * exfalso. apply Hal, list_elem_of_fmap. by exists a.
  - intros j Hj. rewrite fmap_cons, not_elem_of_cons in Hj. destruct Hj as [Hne Hj].
    rewrite Hout by done. by rewrite lookup_partial_alter_ne.
Qed.

Section recording.
Context `{Build} `{StateCodec} {B : Type} `{PersistenceBackend B}.
Context {CS : Type} `{!Store CS OutPoint SpCoinEntry} `{!StoreLaws CS OutPoint SpCoinEntry}.
Context `{!StoreTotal CS OutPoint SpCoinEntry}.
Context {TS : Type} `{!Store TS Txid SpTxStore.SpTxEntry} `{!StoreLaws TS Txid SpTxStore.SpTxEntry}.
Context `{!StoreTotal TS Txid SpTxStore.SpTxEntry}.
Context `{HeaderLib} {SH : Type} `{!Store SH N raw_header}.
Abbreviation Stores := (ScanStores (B:=B) (CS:=CS) (TS:=TS) (SH:=SH)).
Implicit Types st : Stores.

Definition coins st : gmap OutPoint SpCoinEntry := SpCoins.view (coin_store st).
Definition txs st : gmap Txid SpTxStore.SpTxEntry := SpTxs.view (tx_store st).

Lemma block_time_frame h st :
  coin_store (block_time h st).1 = coin_store st ∧ tx_store (block_time h st).1 = tx_store st ∧
  scan_state (block_time h st).1 = scan_state st.
Proof. unfold block_time. by destruct (header_store st). Qed.
Lemma resolve_times_frame l st acc :
  let st' := (foldl resolve_time (st, acc) l).1 in
  coin_store st' = coin_store st ∧ tx_store st' = tx_store st ∧ scan_state st' = scan_state st ∧
  ((foldl resolve_time (st, acc) l).2).*1 = acc.*1 ++ l.
Proof.
  revert st acc; induction l as [|t l IH]; intros st acc; cbn [foldl]; [by rewrite app_nil_r|].
  change (resolve_time (st, acc) t) with
    ((block_time t.2 st).1, acc ++ [(t, (block_time t.2 st).2)]).
  destruct (block_time_frame t.2 st) as (Hc & Ht & Hs).
  destruct (IH (block_time t.2 st).1 (acc ++ [(t, (block_time t.2 st).2)])) as (-> & -> & -> & ->).
  split_and!; [done..|]. by rewrite fmap_app, <-app_assoc.
Qed.

(** *** The outputs of a block *)

Lemma record_outputs_loop l st by_tx :
  let r := foldl record_output (st, by_tx) l in
  coins r.1 = foldl (λ m o, partial_alter (λ e, Some (new o.1 (keep_spend e o.2))) o.1 m) (coins st) l ∧
  tx_store r.1 = tx_store st ∧ scan_state r.1 = scan_state st ∧
  r.2 = foldl (λ m o, match blockheight o.2 with
                      | Some h => insert_new (op_txid o.1) h m | None => m end) by_tx l.
Proof.
  revert st by_tx; induction l as [|o l IH]; intros st by_tx; [done|]. cbn [foldl].
  match goal with |- context [record_output (st, by_tx) o] =>
    let x := eval cbn [record_output] in (record_output (st, by_tx) o) in
    change (record_output (st, by_tx) o) with x;
    match x with (?s', ?b') => destruct (IH s' b') as (-> & -> & -> & ->) end end.
  split_and!; [|done..]. f_equal. unfold coins. cbn [coin_store notify set_coin_store].
  rewrite SpCoins.insert_view, SpCoins.get_view. apply map_eq. intros j.
  destruct (decide (j = o.1)) as [->|].
  - by rewrite lookup_insert_eq, lookup_partial_alter_eq.
  - by rewrite lookup_insert_ne, lookup_partial_alter_ne.
Qed.

(** A recorded output is there, with the spend it had; nothing else changes. *)
Lemma record_outputs_coins outs st op :
  coins (record_outputs outs st) !! op =
    match outs !! op with
    | Some o => Some (new op (keep_spend (coins st !! op) o))
    | None => coins st !! op
    end.
Proof.
  unfold record_outputs.
  destruct (record_outputs_loop (bt_items outs) st ∅) as (Hc & Ht & Hs & Hb).
  destruct (foldl record_output (st, ∅) (bt_items outs)) as [st1 by_tx]. cbn [fst snd] in *.
  set (st2 := set_coin_store _ st1).
  destruct (resolve_times_frame (bt_items by_tx) st2 []) as (Hc' & _).
  destruct (foldl resolve_time (st2, []) (bt_items by_tx)) as [st3 times]. cbn [fst] in Hc'.
  unfold coins. cbn [set_tx_store coin_store]. rewrite Hc'. unfold st2. cbn [set_coin_store coin_store].
  rewrite SpCoins.persist_view. change (SpCoins.view (coin_store st1)) with (coins st1). rewrite Hc.
  destruct (foldl_partial_alter fst (λ o e, Some (new o.1 (keep_spend e o.2))) (bt_items outs)
              (coins st)) as [Hin Hout]; [apply NoDup_bt_keys|].
  destruct (outs !! op) as [o|] eqn:Ho.
  - apply elem_of_bt_items in Ho. apply (Hin _ Ho).
  - apply Hout. intros (o & -> & Hin')%list_elem_of_fmap. destruct o as [op o].
    apply elem_of_bt_items in Hin'. simpl in Ho. congruence.
Qed.
Lemma record_outputs_state outs st : scan_state (record_outputs outs st) = scan_state st.
Proof.
  unfold record_outputs.
  destruct (record_outputs_loop (bt_items outs) st ∅) as (_ & _ & Hs & _).
  destruct (foldl record_output (st, ∅) (bt_items outs)) as [st1 by_tx]. cbn [fst snd] in *.
  destruct (resolve_times_frame (bt_items by_tx)
    (set_coin_store (SpCoinStore.persist (coin_store st1)) st1) []) as (_ & _ & Hs' & _).
  destruct (foldl resolve_time _ _) as [st3 times]. cbn [fst] in Hs'.
  cbn [set_tx_store scan_state]. by rewrite Hs'.
Qed.

(** *** The spends of a block *)

Lemma record_inputs_loop hash l st acc :
  let r := foldl (record_input hash) (st, acc) l in
  coins r.1 = foldl (λ m o, partial_alter
    (fmap (λ e, set_status (confirmed_status hash (status e)) e)) o m) (coins st) l ∧
  tx_store r.1 = tx_store st ∧ scan_state r.1 = scan_state st.
Proof.
  revert st acc; induction l as [|o l IH]; intros st acc; [done|]. cbn [foldl].
  match goal with |- context [record_input hash (st, acc) o] =>
    let x := eval cbn [record_input] in (record_input hash (st, acc) o) in
    change (record_input hash (st, acc) o) with x;
    match x with (?s', ?b') => destruct (IH s' b') as (-> & -> & ->) end end.
  split_and!; [|done..]. f_equal. unfold coins. cbn [coin_store notify set_coin_store].
  by rewrite SpCoins.confirm_spend_view.
Qed.
Lemma record_inputs_coins hash h ins st op :
  coins (record_inputs hash h ins st) !! op =
    if decide (op ∈ ins)
    then (λ e, set_status (confirmed_status hash (status e)) e) <$> coins st !! op
    else coins st !! op.
Proof.
  unfold record_inputs.
  destruct (record_inputs_loop hash (elements ins) st []) as (Hc & _ & _).
  destruct (foldl (record_input hash) (st, []) (elements ins)) as [st1 conf]. cbn [fst] in Hc.
  transitivity (coins st1 !! op).
  - unfold coins. case_bool_decide; cbn [set_coin_store coin_store].
    + by rewrite SpCoins.persist_view.
    + destruct (block_time_frame h (set_coin_store (SpCoinStore.persist (coin_store st1)) st1))
        as (Hc' & _). destruct (block_time h _) as [st2 ts]. cbn [fst] in Hc'.
      cbn [set_tx_store coin_store]. rewrite Hc'. cbn. by rewrite SpCoins.persist_view.
  - rewrite Hc. destruct (foldl_partial_alter id (λ _, fmap (λ e,
      set_status (confirmed_status hash (status e)) e)) (elements ins) (coins st)) as [Hin Hout].
    { rewrite list_fmap_id. apply NoDup_elements. }
    destruct (decide (op ∈ ins)) as [Hop|Hop].
    + apply (Hin op). by apply elem_of_elements.
    + apply (Hout op). rewrite list_fmap_id. by rewrite elem_of_elements.
Qed.
Lemma record_inputs_state hash h ins st : scan_state (record_inputs hash h ins st) = scan_state st.
Proof.
  unfold record_inputs.
  destruct (record_inputs_loop hash (elements ins) st []) as (_ & _ & Hs).
  destruct (foldl (record_input hash) (st, []) (elements ins)) as [st1 conf]. cbn [fst] in Hs.
  case_bool_decide; [done|].
  destruct (block_time_frame h (set_coin_store (SpCoinStore.persist (coin_store st1)) st1))
    as (_ & _ & Hs'). destruct (block_time h _) as [st2 ts]. cbn [fst] in Hs'.
  cbn [set_tx_store scan_state]. by rewrite Hs'.
Qed.

(** *** Transactions stay under their keys *)

Lemma confirm_tx_keyed t (s : TS) :
  SpTxs.keyed (SpTxs.view s) → SpTxs.keyed (SpTxs.view (confirm_tx t s)).
Proof.
  destruct t as [[txid h] time]. intros Hk. unfold confirm_tx.
  match goal with |- SpTxs.keyed (SpTxs.view (match _ with Some _ => _ | None => ?s1 end)) =>
    assert (Hk1 : SpTxs.keyed (SpTxs.view s1)) end.
  { destruct (SpTxStore.get s txid).
    - rewrite SpTxs.update_height_view. by apply SpTxs.keyed_alter.
    - rewrite SpTxs.tx_insert_view. by apply SpTxs.keyed_insert. }
  destruct time; [|done]. rewrite SpTxs.update_timestamp_view. by apply SpTxs.keyed_alter.
Qed.
Lemma record_outputs_keyed outs st :
  SpTxs.keyed (txs st) → SpTxs.keyed (txs (record_outputs outs st)).
Proof.
  intros Hk. unfold record_outputs.
  destruct (record_outputs_loop (bt_items outs) st ∅) as (_ & Ht & _).
  destruct (foldl record_output (st, ∅) (bt_items outs)) as [st1 by_tx]. cbn [fst snd] in *.
  destruct (resolve_times_frame (bt_items by_tx)
    (set_coin_store (SpCoinStore.persist (coin_store st1)) st1) []) as (_ & Ht' & _).
  destruct (foldl resolve_time _ _) as [st3 times]. cbn [fst] in Ht'.
  unfold txs. cbn [set_tx_store tx_store]. rewrite SpTxs.tx_persist_view, Ht'.
  cbn [set_coin_store tx_store]. rewrite Ht.
  apply (foldl_invariant (λ s, SpTxs.keyed (SpTxs.view s))); [|done].
  intros s t _. apply confirm_tx_keyed.
Qed.
Lemma record_inputs_keyed hash h ins st :
  SpTxs.keyed (txs st) → SpTxs.keyed (txs (record_inputs hash h ins st)).
Proof.
  intros Hk. unfold record_inputs.
  destruct (record_inputs_loop hash (elements ins) st []) as (_ & Ht & _).
  destruct (foldl (record_input hash) (st, []) (elements ins)) as [st1 conf]. cbn [fst] in Ht.
  case_bool_decide; [unfold txs; cbn; by rewrite Ht|].
  destruct (block_time_frame h (set_coin_store (SpCoinStore.persist (coin_store st1)) st1))
    as (_ & Ht' & _). destruct (block_time h _) as [st2 ts]. cbn [fst] in Ht'.
  unfold txs. cbn [set_tx_store tx_store]. rewrite SpTxs.tx_persist_view, Ht'.
  cbn [set_coin_store tx_store]. rewrite Ht.
  apply (foldl_invariant (λ s, SpTxs.keyed (SpTxs.view s))); [|done].
  intros s t _ Hs. destruct ts; rewrite ?SpTxs.update_timestamp_view, SpTxs.update_height_view;
    repeat apply SpTxs.keyed_alter; done.
Qed.

(** *** Rolling back *)

Lemma roll_back_coins f R st : coins (roll_back f R st) = omap (SpCoins.undo f R) (coins st).
Proof.
  unfold coins, roll_back. cbn [set_scan_state set_tx_store set_coin_store coin_store].
  by rewrite SpCoins.persist_view, SpCoins.roll_back_view.
Qed.
Lemma roll_back_txs f R st :
  SpTxs.keyed (txs st) →
  txs (roll_back f R st) =
    omap (SpTxs.undo f (spending_txids (coin_store (roll_back f R st)))) (txs st).
Proof.
  intros Hk. unfold txs, roll_back. cbn [set_scan_state set_tx_store set_coin_store coin_store tx_store].
  by rewrite SpTxs.tx_persist_view, SpTxs.tx_roll_back_view.
Qed.
Lemma roll_back_state f R st :
  let s := scan_state (roll_back f R st) in
  last_scanned_height s = Some f ∧
  last_spend_height s = (λ h, N.min h f) <$> last_spend_height (scan_state st) ∧
  birthday_height s = birthday_height (scan_state st) ∧
  hashes s = filter (λ kv, kv.1 ≤ f) (hashes (scan_state st)).
Proof.
  unfold roll_back. cbn [set_scan_state scan_state].
  destruct (persist_state (SpState.roll_back f (scan_state st))) as (-> & -> & -> & ->).
  apply roll_back_spec.
Qed.

(** No transaction is left above the fork; one that spends a coin of ours stays,
    unconfirmed. *)
Lemma roll_back_no_tx_above f R st t e h :
  SpTxs.keyed (txs st) → txs (roll_back f R st) !! t = Some e → SpTxStore.height e = Some h → h ≤ f.
Proof.
  intros Hk. rewrite roll_back_txs, lookup_omap by done.
  destruct (txs st !! t) as [e0|]; [|done]. cbn. unfold SpTxs.undo, SpTxStore.below.
  destruct (SpTxStore.height e0) as [h0|] eqn:Hh; [destruct (N.leb_spec h0 f)|].
  - intros [= <-] Hh'. simplify_eq. lia.
  - case_bool_decide; [done|]. by intros [= <-].
  - intros [= <-] Hh'. congruence.
Qed.

(** What a scan records of the blocks it goes through. *)
Inductive Recorded :=
  | ROutputs (outs : gmap OutPoint OwnedOutput)
  | RInputs (hash : BlockHash) (height : N) (inputs : gset OutPoint).
Definition apply_recorded (st : Stores) (r : Recorded) : Stores :=
  match r with
  | ROutputs outs => record_outputs outs st
  | RInputs hash h ins => record_inputs hash h ins st
  end.

(** A record of a block above [f] whose hash is in [R], against the coins [C] a rollback
    leaves: outputs, and spends of coins that could still be spent. *)
Definition above_fork (f : N) (R : gset BlockHash) (C : gmap OutPoint SpCoinEntry) (r : Recorded) : Prop :=
  match r with
  | ROutputs outs => map_Forall (λ _ o, ∃ h, blockheight o = Some h ∧ f < h) outs
  | RInputs hash _ ins => hash ∈ R ∧ ∀ op e, op ∈ ins → C !! op = Some e → is_watchable e = true
  end.
(** The outputs recorded. *)
Definition creates (op : OutPoint) (r : Recorded) : bool :=
  match r with ROutputs outs => bool_decide (is_Some (outs !! op)) | RInputs _ _ _ => false end.
Definition created (rs : list Recorded) (op : OutPoint) : bool := existsb (creates op) rs.

Lemma undo_confirm f R hash e :
  hash ∈ R →
  (above f e = false → is_watchable e = true ∨ reorged_status R (status e) ≠ None) →
  SpCoins.undo f R (set_status (confirmed_status hash (status e)) e) = SpCoins.undo f R e.
Proof.
  intros Hh Hw. unfold SpCoins.undo.
  change (above f (set_status (confirmed_status hash (status e)) e)) with (above f e).
  destruct (above f e); [done|]. specialize (Hw eq_refl). f_equal.
  destruct e as [op [bh tw am sc lb st0]].
  unfold is_watchable, status, set_status, set_spend_status in *.
  cbn [output outpoint spend_status blockheight tweak amount oo_script oo_label] in *.
  destruct st0 as [|t [h|]|h]; cbn [confirmed_status reorged_status] in *.
  - by rewrite decide_True.
  - rewrite decide_True by done. destruct (decide (h ∈ R)); [done|naive_solver].
  - by rewrite decide_True.
  - rewrite decide_True by done. destruct (decide (h ∈ R)); [done|naive_solver].
Qed.

(** Whatever was recorded, a rollback ends at the coins it would have left, without the
    outputs that were recorded. *)
Lemma record_undone f R C r st :
  above_fork f R C r → (∀ op e, coins st !! op ≫= SpCoins.undo f R = Some e → C !! op = Some e) → SpTxs.keyed (txs st) →
  (∀ op, coins (apply_recorded st r) !! op ≫= SpCoins.undo f R =
     if creates op r then None else coins st !! op ≫= SpCoins.undo f R) ∧
  SpTxs.keyed (txs (apply_recorded st r)).
Proof.
  intros Hr HC Hk. split; [|destruct r; [by apply record_outputs_keyed|by apply record_inputs_keyed]].
  intros op. destruct r as [outs|hash h ins]; cbn [apply_recorded above_fork creates] in *.
  - rewrite record_outputs_coins. destruct (outs !! op) as [o|] eqn:Ho.
    2: { by rewrite bool_decide_eq_false_2 by (by intros []). }
    rewrite bool_decide_eq_true_2 by eauto. destruct (Hr _ _ Ho) as (h & Hh & Hlt). cbn. unfold SpCoins.undo.
    assert (Hab' : above f (new op (keep_spend (coins st !! op) o)) = true); [|by rewrite Hab'].
    unfold above, height. cbn [output]. unfold keep_spend.
    destruct (coins st !! op); [case_decide|]; cbn [set_spend_status blockheight];
      rewrite Hh; by apply N.ltb_lt.
  - destruct Hr as [HR Hw]. rewrite record_inputs_coins. case_decide as Hin; [|done].
    specialize (HC op). destruct (coins st !! op) as [e|] eqn:He; [|done]. cbn in HC |- *.
    apply undo_confirm; [done|]. intros Hna. unfold SpCoins.undo in HC.
    rewrite Hna in HC. destruct (reorged_status R (status e)) as [s'|]; [by right|].
    left. apply (Hw op); [done|]. by apply HC.
Qed.
Lemma records_undone f R C rs st :
  Forall (above_fork f R C) rs → (∀ op e, coins st !! op ≫= SpCoins.undo f R = Some e → C !! op = Some e) →
  SpTxs.keyed (txs st) →
  (∀ op, coins (foldl apply_recorded st rs) !! op ≫= SpCoins.undo f R =
     if created rs op then None else coins st !! op ≫= SpCoins.undo f R) ∧
  SpTxs.keyed (txs (foldl apply_recorded st rs)).
Proof.
  revert st; induction rs as [|r rs IH]; intros st Hab HC Hk; [done|].
  apply Forall_cons in Hab as [Hr Hab]. cbn [foldl]. destruct (record_undone f R C r st Hr HC Hk) as [Hu Hk'].
  destruct (IH (apply_recorded st r) Hab) as [Hu' Hk'']; [|done|].
  { intros op e. rewrite Hu. destruct (creates op r); [done|apply HC]. }
  split; [|done]. intros op. rewrite Hu', Hu. unfold created. cbn [existsb].
  destruct (creates op r); [by destruct (existsb _ _)|done].
Qed.

(** C28. What a rollback does to what was recorded of the blocks above the fork. Record
    outputs and spends of the reorged blocks, in any order, the spends of coins that a
    rollback leaves spendable; then roll back. A coin that was not recorded as an output
    is as a rollback without the records leaves it: a coin that was neither above the fork
    nor spent in a reorged block is untouched, those our own transactions spend included.
    An output that was recorded is gone, and so is a coin that was held before it was
    recorded, such as the unconfirmed change of our own transaction. No transaction is
    left confirmed above the fork, and the frontier is at the fork. *)
Theorem roll_back_undoes (f : N) (R : gset BlockHash) (rs : list Recorded) st
    (Hkeyed : SpTxs.keyed (txs st))
    (Habove : Forall (above_fork f R (coins (roll_back f R st))) rs) :
  let st' := roll_back f R (foldl apply_recorded st rs) in
  (∀ op, coins st' !! op = if created rs op then None else coins (roll_back f R st) !! op) ∧
  (∀ op e, coins st !! op = Some e → above f e = false → reorged_status R (status e) = None → created rs op = false →
     coins st' !! op = Some e) ∧
  (∀ t e h, txs st' !! t = Some e → SpTxStore.height e = Some h → h ≤ f) ∧
  last_scanned_height (scan_state st') = Some f.
Proof.
  intros st'. destruct (records_undone f R (coins (roll_back f R st)) rs st Habove) as [Hu Hk]; [|done|].
  { intros op e He. by rewrite roll_back_coins, lookup_omap. }
  assert (Hexact : ∀ op, coins st' !! op = if created rs op then None else coins (roll_back f R st) !! op).
  { intros op. unfold st'. rewrite !roll_back_coins, !lookup_omap. apply Hu. }
  split_and!; [done| | |].
  - intros op e He Ha Hs Hc. rewrite Hexact, Hc, roll_back_coins, lookup_omap, He. cbn. unfold SpCoins.undo. by rewrite Ha, Hs.
  - intros t e h. by apply roll_back_no_tx_above.
  - apply (roll_back_state f R (foldl apply_recorded st rs)).
Qed.

(** *** Reorganisations *)

Lemma find_fork_from_spec hash_at depth l r :
  find_fork_from hash_at depth l = Ok r →
  ∃ l1 h hash l2, l = l1 ++ (h, hash) :: l2 ∧ hash_at h = Ok hash ∧ h < 500000000 ∧
    Forall (λ kv, ∃ x, hash_at kv.1 = Ok x ∧ x ≠ kv.2) l1 ∧
    r = (if 0 <? depth + N.of_nat (length l1) then Some h else None).
Proof.
  revert depth; induction l as [|[h hash] l IH]; intros depth; cbn [find_fork_from]; [done|].
  intros (h' & Hh & (x & Hx & Hr)%rbind_Ok)%rbind_Ok. unfold from_consensus in Hh.
  destruct (N.ltb_spec h 500000000) as [Hlt|]; [|done]. injection Hh as <-.
  destruct (N.eqb_spec x hash) as [->|Hne].
  - injection Hr as <-. exists [], h, hash, l. split_and!; [done..|]. by rewrite N.add_0_r.
  - apply IH in Hr as (l1 & h1 & hash1 & l2 & -> & Hh1 & Hlt1 & Hf & ->).
    exists ((h, hash) :: l1), h1, hash1, l2. split_and!; [done..| |].
    + constructor; [|done]. by exists x.
    + replace (depth + 1 + N.of_nat (length l1)) with (depth + N.of_nat (length ((h, hash) :: l1)))
        by (simpl; lia). done.
Qed.

(** The fork is the highest kept height the chain still has; everything kept above
    it is off the chain. *)
Lemma find_fork_spec hash_at m r :
  find_fork hash_at m = Ok r →
  m = ∅ ∧ r = None ∨
  ∃ h hash, m !! h = Some hash ∧ hash_at h = Ok hash ∧ h < 500000000 ∧
    (∀ k x, m !! k = Some x → h < k → ∃ y, hash_at k = Ok y ∧ y ≠ x) ∧
    (r = None ∧ (∀ k, is_Some (m !! k) → k ≤ h) ∨ r = Some h ∧ ∃ k, is_Some (m !! k) ∧ h < k).
Proof.
  unfold find_fork. case_decide as Hm; [intros [= <-]; by left|]. intros Hf. right.
  apply find_fork_from_spec in Hf as (l1 & h & hash & l2 & Hl & Hh & Hlt & Hne & ->).
  assert (Hitems : bt_items m = rev l2 ++ (h, hash) :: rev l1).
  { rewrite <-(rev_involutive (bt_items m)), Hl, rev_app_distr. simpl. by rewrite <-app_assoc. }
  assert (Hmem : ∀ k x, m !! k = Some x → (k, x) ∈ rev l2 ∨ (k, x) = (h, hash) ∨ (k, x) ∈ l1).
  { intros k x Hk. apply elem_of_bt_items in Hk. rewrite Hitems in Hk.
    apply elem_of_app in Hk as [Hk|Hk]; [by left|]. apply elem_of_cons in Hk as [Hk|Hk]; [by right; left|].
    right; right. apply list_elem_of_In, in_rev, list_elem_of_In. done. }
  pose proof (bt_items_sorted m) as Hs. rewrite Hitems in Hs.
  assert (Hlow : ∀ k x, (k, x) ∈ rev l2 → k ≤ h).
  { intros k x Hk. clear -Hs Hk. induction (rev l2) as [|[k' x'] l IH]; [by apply elem_of_nil in Hk|].
    apply StronglySorted_inv in Hs as [Hs Hall]. apply elem_of_cons in Hk as [[= -> ->]|Hk]; [|by apply IH].
    rewrite Forall_app, Forall_cons in Hall. destruct Hall as (_ & Hkh & _). by apply N.leb_le. }
  assert (Hnd : NoDup (bt_items m).*1) by apply NoDup_bt_keys.
  assert (Hhigh : ∀ k x, (k, x) ∈ l1 → h < k).
  { intros k x Hk. assert (Hk' : (k, x) ∈ rev l1) by (by apply list_elem_of_In, in_rev; rewrite rev_involutive; apply list_elem_of_In).
    rewrite Hitems, fmap_app, fmap_cons in Hnd. apply NoDup_app in Hnd as (_ & _ & Hnd).
    apply NoDup_cons in Hnd as [Hni _]. assert (Hle : h ≤ k).
    { clear -Hs Hk'. induction (rev l2) as [|y l IH]; [|apply IH; by apply StronglySorted_inv in Hs as [Hs _]].
      apply StronglySorted_inv in Hs as [_ Hall]. rewrite Forall_forall in Hall.
      apply N.leb_le, (Hall _ Hk'). }
    destruct (decide (h = k)) as [->|]; [|lia]. exfalso. apply Hni.
    apply list_elem_of_fmap. by exists (k, x). }
  exists h, hash. split_and!; [|done|done| |].
  - apply elem_of_bt_items. rewrite Hitems. apply elem_of_app. right. left.
  - intros k x Hk Hhk. destruct (Hmem k x Hk) as [Hin|[[= -> ->]|Hin]].
    + apply Hlow in Hin. lia.
    + lia.
    + rewrite Forall_forall in Hne. apply (Hne _ Hin).
  - rewrite N.add_0_l. destruct l1 as [|[k x] l1'].
    + left. split; [done|]. intros k [x Hk].
      destruct (Hmem k x Hk) as [Hin|[[= -> ->]|Hin]]; [by apply Hlow in Hin|done|by apply elem_of_nil in Hin].
    + right. split; [by rewrite (proj2 (N.ltb_lt 0 _)) by (simpl; lia)|].
      exists k. split; [|apply (Hhigh k x); left]. exists x. apply elem_of_bt_items. rewrite Hitems.
      apply elem_of_app. right. right. apply list_elem_of_In. rewrite <-in_rev. by left.
Qed.

(** When the scan goes on after looking for a reorganisation, the highest block it
    keeps is on the chain. If nothing was rolled back the stores are as they were.
    Otherwise the fork is the highest kept height still on the chain; the coins are
    rolled back to it, against the hashes of all the kept blocks above, which are off
    the chain; both frontiers and the start are brought down to it; no transaction is
    left above it; and the consumer is told. *)
Theorem handle_reorg_sound hash_at start start' st st'
    (Hkeyed : SpTxs.keyed (txs st))
    (Hwindow : windowed (scan_state st))
    (Hrun : handle_reorg hash_at start st = (st', Ok start')) :
  windowed (scan_state st') ∧
  (∀ h hash, hashes (scan_state st') !! h = Some hash →
     (∀ k, is_Some (hashes (scan_state st') !! k) → k ≤ h) → hash_at h = Ok hash) ∧
  (st' = st ∧ start' = start ∨
   ∃ f R, is_Some (hashes (scan_state st) !! f) ∧
     (∀ k x, hashes (scan_state st) !! k = Some x → f < k → x ∈ R ∧ hash_at k ≠ Ok x) ∧
     coins st' = omap (SpCoins.undo f R) (coins st) ∧
     (∀ t e h, txs st' !! t = Some e → SpTxStore.height e = Some h → h ≤ f) ∧
     last_scanned_height (scan_state st') = Some f ∧
     (∀ h, last_spend_height (scan_state st') = Some h → h ≤ f) ∧
     start' = N.min start (f + 1) ∧ sent st' = sent st ++ [Notification.Reorg f]).
Proof.
  unfold handle_reorg in Hrun. destruct (find_fork _ _) as [o|] eqn:Hfork; [|done].
  apply find_fork_spec in Hfork as [[Hm ->]|(f & hash & Hf & Hat & _ & Habove & [[-> Htop]|[-> _]])].
  - injection Hrun as <- <-. split_and!; [done| |by left]. intros h hash Hh. by rewrite Hm in Hh.
  - injection Hrun as <- <-. split_and!; [done| |by left]. intros h hash' Hh Hmax.
    assert (h = f) as ->. { pose proof (Htop h ltac:(by eexists)). pose proof (Hmax f ltac:(by eexists)). lia. }
    congruence.
  - set (R := list_to_set _) in Hrun. destruct (from_consensus (f + 1)) as [x|] eqn:Hx; [|done].
    assert (x = f + 1) as ->. { unfold from_consensus in Hx. case_match; congruence. }
    injection Hrun as <- <-.
    destruct (roll_back_state f R st) as (Hl & Hsp & _ & Hh).
    cbn [notify scan_state sent]. change (coins (notify _ ?s)) with (coins s).
    change (txs (notify _ ?s)) with (txs s).
    split_and!.
    + intros k [y Hk]. rewrite Hh, map_lookup_filter_Some in Hk. destruct Hk as [Hk Hle].
      exists f. split_and!; [done|done|].
      destruct (Hwindow k ltac:(by eexists)) as (l & Hsl & _ & Hlt).
      destruct (Hwindow f ltac:(by eexists)) as (l' & Hsl' & Hle' & _). simplify_eq. lia.
    + intros k y Hk Hmax. assert (k = f) as ->.
      { rewrite Hh, map_lookup_filter_Some in Hk. destruct Hk as [_ Hkf]. cbn in Hkf.
        specialize (Hmax f). rewrite Hh in Hmax.
        assert (f ≤ k) by (apply Hmax; exists hash; by apply map_lookup_filter_Some). lia. }
      rewrite Hh, map_lookup_filter_Some in Hk. destruct Hk as [Hk _]. congruence.
    + right. exists f, R. split_and!; [by eexists| | | |done| |done|done].
      * intros k y Hk Hfk. split.
        -- unfold R. apply elem_of_list_to_set, list_elem_of_fmap. exists (k, y). split; [done|].
           apply elem_of_bt_range. split; [apply N.leb_le; lia|done].
        -- destruct (Habove k y Hk Hfk) as (z & -> & Hne). congruence.
      * apply roll_back_coins.
      * intros t e h. by apply roll_back_no_tx_above.
      * intros h. rewrite Hsp. destruct (last_spend_height (scan_state st)) as [y|]; cbn; [|discriminate].
        intros [= <-]. lia.
Qed.
End recording.

Lemma NoDup_nseq a n : NoDup (nseq a n).
Proof.
  revert a; induction n as [|n IH]; intros a; [constructor|]. cbn [nseq].
  constructor; [|apply IH]. rewrite elem_of_nseq. lia.
Qed.

Lemma submseteq_NoDup {A} (l k : list A) : l ⊆+ k → NoDup k → NoDup l.
Proof. intros [l' ->]%submseteq_Permutation Hk. by apply NoDup_app in Hk as [Hl _]. Qed.

(** ** The receive pass *)

Section receive.
Context `{Build} `{StateCodec} {B : Type} `{PersistenceBackend B}.
Context {CS : Type} `{!Store CS OutPoint SpCoinEntry} `{!StoreLaws CS OutPoint SpCoinEntry}.
Context `{!StoreTotal CS OutPoint SpCoinEntry}.
Context {TS : Type} `{!Store TS Txid SpTxStore.SpTxEntry}.
Context `{HeaderLib} {SH : Type} `{!Store SH N raw_header} `{SpLib}.
Abbreviation Stores := (ScanStores (B:=B) (CS:=CS) (TS:=TS) (SH:=SH)).
Implicit Types st : Stores.

(** The chain: what each block's hash is, and which outputs of it are ours. *)
Context (blk : N → BlockHash * gmap OutPoint OwnedOutput).

(** The hashes kept from [lo] on are those of the chain, without a gap. *)
Definition hashes_from (lo : N) (s : ScanState B) : Prop :=
  ∀ x h, last_scanned_height s = Some x → lo ≤ h → h ≤ x → x < h + REORG_DEPTH →
    hashes s !! h = Some (blk h).1.
Lemma hashes_from_weaken lo lo' s : lo ≤ lo' → hashes_from lo s → hashes_from lo' s.
Proof. intros Hlo Hf x h Hl Hh. apply Hf; [done|lia]. Qed.

(** The pass only touches the scan state while it moves the frontier. *)
Definition only_state st st' : Prop := st' = set_scan_state (scan_state st') st.

Lemma advance_good from h hash (s s' : ScanState B) :
  h < u32_max → hash = (blk h).1 → from ≤ h →
  (h = from ∨ ∃ x, last_scanned_height s = Some x ∧ h ≤ x + 1) →
  windowed s → hashes_from from s → advance_frontier h hash s = Ret s' →
  windowed s' ∧ hashes_from from s' ∧
  (∃ x, last_scanned_height s' = Some x ∧ h ≤ x) ∧
  (last_scanned_height s' = last_scanned_height s ∨ last_scanned_height s' = Some h) ∧
  last_spend_height s' = last_spend_height s.
Proof.
  intros Hh -> Hfrom Hcur Hw Hf Ha. split; [by eapply advance_frontier_windowed|].
  apply advance_frontier_spec in Ha; [|done].
  destruct (last_scanned_height s) as [x|] eqn:Hl; cbn [advances] in Ha.
  - destruct (N.ltb_spec x h) as [Hlt|Hge].
    + destruct Ha as (Hl' & Hm & Hsp & _). rewrite Hl'. split_and!; [|by exists h|by right|done].
      intros y k Hy Hk Hky Hyk. rewrite Hl' in Hy. injection Hy as <-. rewrite Hm.
      apply map_lookup_filter_Some. split; [|done].
      destruct (decide (k = h)) as [->|Hne]; [by rewrite lookup_insert_eq|].
      rewrite lookup_insert_ne by done. destruct Hcur as [->|(x' & [= <-] & Hx)]; [lia|].
      apply (Hf x); [done|done|lia|lia].
    + subst s'. split_and!; [done|by exists x|by left|done].
  - destruct Ha as (Hl' & Hm & Hsp & _). rewrite Hl'. split_and!; [|by exists h|by right|done].
    intros y k Hy Hk Hky Hyk. rewrite Hl' in Hy. injection Hy as <-. rewrite Hm.
    apply map_lookup_filter_Some. split; [|done].
    destruct Hcur as [->|(x' & Hx' & _)]; [|done].
    assert (k = from) as -> by lia. by rewrite lookup_insert_eq.
Qed.

Lemma advance_over_good seen start from cur n st :
  start ≤ from → from ≤ cur →
  (∀ h, cur ≤ h < cur + N.of_nat n → seen !! N.to_nat (h - start) = Some (Some (blk h).1)) →
  cur + N.of_nat n ≤ u32_max →
  (cur = from ∨ ∃ x, last_scanned_height (scan_state st) = Some x ∧ cur ≤ x + 1) →
  windowed (scan_state st) → hashes_from from (scan_state st) →
  ∃ st', advance_over seen start (nseq cur n) st = Ret (st', Ok tt) ∧ only_state st st' ∧
    windowed (scan_state st') ∧ hashes_from from (scan_state st') ∧
    (0 < N.of_nat n → ∃ x, last_scanned_height (scan_state st') = Some x ∧ cur + N.of_nat n ≤ x + 1) ∧
    (last_scanned_height (scan_state st') = last_scanned_height (scan_state st) ∨
     last_scanned_height (scan_state st') = Some (cur + N.of_nat n - 1)) ∧
    last_spend_height (scan_state st') = last_spend_height (scan_state st).
Proof.
  intros Hstart. revert cur st; induction n as [|n IH]; intros cur st Hfrom Hslots Hmax Hcur Hw Hf.
  { exists st. split; [done|]. unfold only_state. destruct st. split_and!; [done..|lia|by left|done]. }
  cbn [nseq advance_over].
  assert (Hsub : sub32 cur start = Ret (cur - start)) by (apply sub_w_ok; lia).
  rewrite Hsub. cbn [obind]. rewrite Hslots by lia. cbn [expect obind].
  destruct (advance_frontier_ret cur (blk cur).1 (scan_state st)) as [s1 Hs1]; [lia|].
  rewrite Hs1. cbn [obind].
  destruct (advance_good from cur _ _ _ ltac:(lia) eq_refl Hfrom Hcur Hw Hf Hs1)
    as (Hw1 & Hf1 & (x1 & Hx1 & Hcx1) & Hor1 & Hsp1).
  destruct (IH (cur + 1) (set_scan_state s1 st)) as (st' & Hrun & Hsame & Hw' & Hf' & Hx' & Hor' & Hsp');
    [lia|intros h Hh; apply Hslots; lia|lia|right; exists x1; split; [done|lia]|done|done|].
  exists st'. rewrite Hrun. split; [done|]. split_and!; [|done|done| | |].
  - unfold only_state in *. rewrite Hsame. by destruct st.
  - intros _. destruct n as [|n].
    + destruct Hor' as [Hor'|Hor'].
      * exists x1. rewrite Hor'. split; [done|lia].
      * exists cur. rewrite Hor'. split; [f_equal; lia|lia].
    + destruct Hx' as (x & Hx & Hle); [lia|]. exists x. split; [done|lia].
  - cbn [set_scan_state scan_state] in *. destruct Hor' as [Hor'|Hor'].
    + destruct n as [|n].
      * rewrite Hor'. destruct Hor1 as [->| ->]; [by left|right; f_equal; lia].
      * destruct Hx' as (x & Hx & Hle); [lia|]. rewrite Hor' in Hx |- *.
        destruct Hor1 as [Ho|Ho]; [by left|]. rewrite Ho in Hx. injection Hx as <-. lia.
    + right. rewrite Hor'. f_equal. lia.
  - by rewrite Hsp'.
Qed.

(** Recording the frontier at [tip], every block up to which is done. *)
Lemma record_frontier_good seen start tip st :
  start ≤ tip → tip < 500000000 →
  (∀ h, start ≤ h ≤ tip → seen !! N.to_nat (h - start) = Some (Some (blk h).1)) →
  (∀ x, last_scanned_height (scan_state st) = Some x → x ≤ tip) →
  windowed (scan_state st) → hashes_from start (scan_state st) →
  ∃ st', record_scan_frontier start tip seen st = Ret (st', Ok tt) ∧ only_state st st' ∧
    windowed (scan_state st') ∧ hashes_from start (scan_state st') ∧
    last_scanned_height (scan_state st') = Some tip ∧
    last_spend_height (scan_state st') = last_spend_height (scan_state st).
Proof.
  intros Hst Htip Hslots Hlast Hw Hf. unfold record_scan_frontier, sbind.
  set (from := N.max start (tip + 1 - REORG_DEPTH)).
  assert (Hfrom : start ≤ from ∧ from ≤ tip ∧ tip + 1 - 6 ≤ from) by (subst from; unfold REORG_DEPTH; lia).
  set (n := N.to_nat (tip + 1 - from)).
  assert (Hn : from + N.of_nat n = tip + 1) by (subst n; lia).
  destruct (advance_over_good seen start from from n st) as (st1 & -> & Hsame & Hw1 & Hf1 & Hx & Hor & Hsp);
    [lia|lia|intros h Hh; apply Hslots; lia|unfold u32_max; lia|by left|done| |].
  { by apply (hashes_from_weaken start); [lia|]. }
  unfold persist_scan_state.
  destruct (persist_state (scan_state st1)) as (P1 & P2 & P3 & P4).
  assert (Hl1 : last_scanned_height (scan_state st1) = Some tip).
  { destruct Hx as (x & Hx & Hle); [lia|]. destruct Hor as [Ho|Ho].
    - rewrite Hx. f_equal. rewrite Ho in Hx. apply Hlast in Hx. lia.
    - rewrite Ho. f_equal. lia. }
  eexists. split; [done|]. cbn [set_scan_state scan_state]. split_and!.
  - unfold only_state in *. cbn [scan_state]. rewrite Hsame. by destruct st.
  - by apply persist_windowed.
  - intros x h Hxl Hh Hhx Hlt. rewrite P4. rewrite P1, Hl1 in Hxl. injection Hxl as <-.
    destruct (decide (from ≤ h)) as [Hge|]; [by apply (Hf1 tip)|].
    unfold REORG_DEPTH in *. lia.
  - by rewrite P1.
  - by rewrite P2.
Qed.

(** *** The tip of the contiguous blocks *)

Lemma advance_tip_spec fuel done start e next tip :
  N.of_nat (length done) = e + 1 - start → start ≤ next → next ≤ e + 1 → e + 1 < next + N.of_nat fuel →
  ∃ n, advance_tip fuel done start e next tip = Ret (if decide (n = next) then tip else Some (n - 1)) ∧
    next ≤ n ≤ e + 1 ∧
    (∀ h, next ≤ h < n → done !! N.to_nat (h - start) = Some true) ∧
    (n ≤ e → done !! N.to_nat (n - start) = Some false).
Proof.
  intros Hlen. revert next tip; induction fuel as [|fuel IH]; intros next tip Hs Hne Hfuel; [lia|].
  cbn [advance_tip]. destruct (N.ltb_spec e next) as [Hlt|Hge].
  { exists next. rewrite decide_True by done. split_and!; [done|lia|lia|intros; lia|lia]. }
  destruct (lookup_lt_is_Some_2 done (N.to_nat (next - start))) as [d Hd]; [lia|].
  rewrite Hd. cbn [expect obind]. destruct d.
  - destruct (IH (next + 1) (Some next)) as (n & Hr & Hn & Hall & Hstop); [lia|lia|lia|].
    exists n. rewrite Hr. split_and!; [|lia|lia| |done].
    + f_equal. rewrite (decide_False (P:=n = next)) by lia.
      case_decide; [f_equal; lia|done].
    + intros h Hh. destruct (decide (h = next)) as [->|]; [done|]. apply Hall. lia.
  - exists next. rewrite decide_True by done. split_and!; [done|lia|lia|intros; lia|done].
Qed.

(** *** The collector *)

(** The arrivals a pass takes: up to the first at which the stop flag is up. *)
Fixpoint until_stop (l : list Arrival) : list Arrival :=
  match l with
  | [] => []
  | a :: l => a :: (if stopping a then [] else until_stop l)
  end.

Section collector.
Context (start e : N) (st0 : Stores).
Context (Hse : start ≤ e) (He : e < 500000000).
(** An output is created by one block. *)
Context (Hdisjoint : ∀ h h' op, is_Some ((blk h).2 !! op) → is_Some ((blk h').2 !! op) → h = h').

(** The coins once the blocks [D] are recorded. *)
Definition recorded (D : list N) (cs : gmap OutPoint SpCoinEntry) : Prop :=
  (∀ h op o, h ∈ D → (blk h).2 !! op = Some o →
     cs !! op = Some (new op (keep_spend (coins st0 !! op) o))) ∧
  (∀ op, (∀ h, h ∈ D → (blk h).2 !! op = None) → cs !! op = coins st0 !! op).

(** The collector after the blocks [D] came in, [n] being the first height above its
    tip. *)
Record collected (D : list N) (c : Collector) (st : Stores) (n : N) : Prop := {
  cl_done : N.of_nat (length (done_ c)) = e + 1 - start;
  cl_seen : length (seen c) = length (done_ c);
  cl_flags : ∀ h, start ≤ h ≤ e → done_ c !! N.to_nat (h - start) = Some (bool_decide (h ∈ D));
  cl_hashes : ∀ h, start ≤ h ≤ e → h ∈ D → seen c !! N.to_nat (h - start) = Some (Some (blk h).1);
  cl_next : start ≤ n ≤ e + 1;
  cl_tip : recv_tip c = if decide (n = start) then None else Some (n - 1);
  cl_prefix : ∀ h, start ≤ h < n → h ∈ D;
  cl_stop : n ≤ e → n ∉ D;
  cl_coins : recorded D (coins st);
  cl_window : windowed (scan_state st);
  cl_kept : hashes_from start (scan_state st);
  cl_last : ∀ x, last_scanned_height (scan_state st) = Some x → x < n;
  cl_first : n = start → last_scanned_height (scan_state st) = last_scanned_height (scan_state st0)
}.

Lemma save_state_frame st :
  coins (save_state st) = coins st ∧
  last_scanned_height (scan_state (save_state st)) = last_scanned_height (scan_state st) ∧
  hashes (scan_state (save_state st)) = hashes (scan_state st).
Proof.
  unfold save_state, coins. cbn [set_scan_state set_tx_store set_coin_store coin_store scan_state].
  destruct (persist_state (scan_state st)) as (-> & _ & _ & ->). split_and!; [|done..].
  by rewrite SpCoins.persist_view.
Qed.

Lemma recorded_outputs D h st :
  recorded D (coins st) → h ∉ D →
  recorded (h :: D) (coins (if bool_decide ((blk h).2 = ∅) then st else record_outputs (blk h).2 st)).
Proof.
  intros [Hin Hout] HhD.
  assert (Hfree : ∀ op, is_Some ((blk h).2 !! op) → coins st !! op = coins st0 !! op).
  { intros op Ho. apply Hout. intros h' Hh'. destruct ((blk h').2 !! op) eqn:Ho'; [|done].
    exfalso. apply HhD. by rewrite (Hdisjoint h h' op). }
  assert (Hget : ∀ op, coins (if bool_decide ((blk h).2 = ∅) then st else record_outputs (blk h).2 st) !! op =
    match (blk h).2 !! op with Some o => Some (new op (keep_spend (coins st0 !! op) o)) | None => coins st !! op end).
  { intros op. case_bool_decide as Hemp; [by rewrite Hemp|]. rewrite record_outputs_coins.
    destruct ((blk h).2 !! op) as [o|] eqn:Ho; [|done]. by rewrite Hfree. }
  split.
  - intros h' op o Hh' Ho. rewrite Hget. apply elem_of_cons in Hh' as [->|Hh']; [by rewrite Ho|].
    destruct ((blk h).2 !! op) as [o'|] eqn:Ho'.
    + assert (h = h') as -> by (by apply (Hdisjoint _ _ op)). done.
    + by apply (Hin h').
  - intros op Hno. rewrite Hget, (Hno h) by left. apply Hout. intros h' Hh'. apply Hno. by right.
Qed.

(** Marking a block that came in. *)
Lemma marked D c st n h :
  collected D c st n → start ≤ h ≤ e →
  let i := N.to_nat (h - start) in
  (∀ k, start ≤ k ≤ e →
     <[i := true]> (done_ c) !! N.to_nat (k - start) = Some (bool_decide (k ∈ h :: D))) ∧
  (∀ k, start ≤ k ≤ e → k ∈ h :: D →
     <[i := Some (blk h).1]> (seen c) !! N.to_nat (k - start) = Some (Some (blk k).1)) ∧
  is_Some (done_ c !! i) ∧ is_Some (seen c !! i).
Proof.
  intros Hc Hh i. pose proof (cl_flags _ _ _ _ Hc h Hh) as Hfl. fold i in Hfl.
  assert (is_Some (seen c !! i)) as [x Hx].
  { apply lookup_lt_is_Some_2. rewrite (cl_seen _ _ _ _ Hc). by eapply lookup_lt_Some. }
  split_and!; [| |by eexists..]; intros k Hk; destruct (decide (k = h)) as [->|Hne].
  - fold i. rewrite list_lookup_insert_eq; [|by eapply lookup_lt_Some].
    by rewrite bool_decide_eq_true_2 by left.
  - rewrite list_lookup_insert_ne by lia. rewrite (cl_flags _ _ _ _ Hc) by done. f_equal.
    apply bool_decide_ext. rewrite elem_of_cons. naive_solver.
  - intros _. fold i. rewrite list_lookup_insert_eq; [done|by eapply lookup_lt_Some].
  - intros HkD. rewrite list_lookup_insert_ne by lia. apply (cl_hashes _ _ _ _ Hc); [done|].
    apply elem_of_cons in HkD as [->|]; done.
Qed.

Lemma collected_step D c st n h due :
  collected D c st n → start ≤ h ≤ e → h ∉ D →
  ∃ c' st' n', commit_block start e h (blk h).1 (blk h).2 due c st = Ret (st', Ok c') ∧
    collected (h :: D) c' st' n'.
Proof.
  intros Hc Hh HhD. pose proof (cl_next _ _ _ _ Hc) as Hn. unfold commit_block.
  assert (Hsub : sub32 h start = Ret (h - start)) by (apply sub_w_ok; lia).
  rewrite Hsub. cbn [obind]. set (i := N.to_nat (h - start)).
  destruct (marked D c st n h Hc Hh) as (Hflags & Hslots & [d Hd] & [x Hx]). fold i in Hflags, Hslots, Hd, Hx.
  rewrite Hd, Hx. cbn [expect obind].
  set (done := <[i := true]> (done_ c)) in *. set (hs := <[i := Some (blk h).1]> (seen c)) in *.
  assert (Hlen : N.of_nat (length done) = e + 1 - start).
  { subst done. rewrite length_insert. apply (cl_done _ _ _ _ Hc). }
  assert (Hnext : match recv_tip c with Some t => t + 1 | None => start end = n).
  { rewrite (cl_tip _ _ _ _ Hc). destruct (decide (n = start)); simpl; lia. }
  rewrite Hnext.
  destruct (advance_tip_spec (S (length done)) done start e n (recv_tip c)) as (n' & Htip & Hn' & Hall & Hstop);
    [done|lia|lia|lia|]. rewrite Htip. cbn [obind].
  assert (Hprefix : ∀ k, start ≤ k < n' → k ∈ h :: D).
  { intros k Hk. destruct (decide (k < n)); [right; apply (cl_prefix _ _ _ _ Hc); lia|].
    specialize (Hall k ltac:(lia)). rewrite Hflags in Hall by lia.
    injection Hall as Hall. by apply bool_decide_eq_true in Hall. }
  assert (Htip' : (if decide (n' = n) then recv_tip c else Some (n' - 1)) =
                  (if decide (n' = start) then None else Some (n' - 1))).
  { rewrite (cl_tip _ _ _ _ Hc).
    destruct (decide (n' = n)), (decide (n' = start)), (decide (n = start)); subst; done || lia. }
  rewrite Htip'. set (tip := if decide (n' = start) then None else Some (n' - 1)).
  match goal with |- context [match ?p with (_, _) => _ end] => set (q := p) end.
  assert (Hq : coins q.1.1 = coins (if bool_decide ((blk h).2 = ∅) then st else record_outputs (blk h).2 st) ∧
               scan_state q.1.1 = scan_state st).
  { subst q. assert (Hs : scan_state (if bool_decide ((blk h).2 = ∅) then st
      else record_outputs (blk h).2 st) = scan_state st)
      by (destruct (bool_decide ((blk h).2 = ∅)); [done|apply record_outputs_state]).
    destruct tip; [|done]. by destruct (negb _ || _). }
  destruct q as [[st1 prog] notif]. cbn [fst] in Hq. destruct Hq as [Hq1 Hq2].
  pose proof (recorded_outputs D h st (cl_coins _ _ _ _ Hc) HhD) as Hrec. rewrite <-Hq1 in Hrec.
  set (c' := mkCollector done hs tip prog notif).
  assert (Hbase : ∀ st', recorded (h :: D) (coins st') → windowed (scan_state st') →
    hashes_from start (scan_state st') → (∀ x, last_scanned_height (scan_state st') = Some x → x < n') →
    (n' = start → last_scanned_height (scan_state st') = last_scanned_height (scan_state st)) →
    collected (h :: D) c' st' n').
  { intros st' R1 R2 R3 R4 R5. split; try done.
    - cbn. subst hs done. rewrite !length_insert. apply (cl_seen _ _ _ _ Hc).
    - lia.
    - intros Hle Hin. specialize (Hstop Hle). rewrite Hflags in Hstop by lia.
      injection Hstop as Hstop. by apply bool_decide_eq_false in Hstop.
    - intros Hns. rewrite R5 by done. apply (cl_first _ _ _ _ Hc). lia. }
  assert (Hplain : collected (h :: D) c' st1 n').
  { apply Hbase; rewrite ?Hq2; [done|apply (cl_window _ _ _ _ Hc)|apply (cl_kept _ _ _ _ Hc)| |done].
    intros y Hy. apply (cl_last _ _ _ _ Hc) in Hy. lia. }
  destruct due; [|by exists c', st1, n'].
  destruct tip as [t|] eqn:Ht; [|by exists c', st1, n'].
  assert (t = n' - 1 ∧ n' ≠ start) as [-> Hns].
  { subst tip. destruct (decide (n' = start)); [done|]. by injection Ht as <-. }
  unfold sbind.
  destruct (record_frontier_good hs start (n' - 1) st1) as (st2 & -> & Hsame & R2 & R3 & R4 & R5).
  - lia.
  - lia.
  - intros k Hk. apply Hslots; [lia|]. apply Hprefix. lia.
  - intros y Hy. rewrite Hq2 in Hy. apply (cl_last _ _ _ _ Hc) in Hy. lia.
  - rewrite Hq2. apply (cl_window _ _ _ _ Hc).
  - rewrite Hq2. apply (cl_kept _ _ _ _ Hc).
  - destruct (save_state_frame st2) as (S1 & S2 & S3).
    exists c', (save_state st2), n'. split; [done|]. apply Hbase.
    + rewrite S1. by rewrite Hsame.
    + intros k Hk. rewrite S2, S3 in *. by apply R2.
    + intros y k. rewrite S2, S3. apply R3.
    + intros y. rewrite S2, R4. intros [= <-]. lia.
    + intros Hn0. by destruct Hns.
Qed.

(** A message that brings the block at a height. *)
Definition brings (a : Arrival) (h : N) : Prop :=
  ∃ m, msg a = Ok m ∧ block_of m = Ok (h, (blk h).1, (blk h).2).

(** How a pass ends after the blocks [D], [n] being the first height above those that
    are contiguous. *)
Definition outcome_after (l : list Arrival) (last_stop : bool) (n : N) (st' : Stores) : result ScanOutcome Error :=
  if existsb stopping l then Ok (interrupted st')
  else if n =? e + 1 then Ok Completed
  else if last_stop then Ok (interrupted st') else Err (MissingBlockHash e).
Record ended (D : list N) (n : N) (st' : Stores) (r : result ScanOutcome Error) : Prop := {
  en_next : start ≤ n ≤ e + 1;
  en_prefix : ∀ h, start ≤ h < n → h ∈ D;
  en_stop : n ≤ e → n ∉ D;
  en_coins : recorded D (coins st');
  en_window : windowed (scan_state st');
  en_kept : hashes_from start (scan_state st');
  en_before : ∀ x, last_scanned_height (scan_state st') = Some x → x < n;
  en_frontier : is_Some (ok r) → last_scanned_height (scan_state st') =
    if decide (n = start) then last_scanned_height (scan_state st0) else Some (n - 1)
}.
Lemma collected_ended D c st n r : collected D c st n → ok r = None → ended D n st r.
Proof. intros [] Hr. split; try done. rewrite Hr. by intros []. Qed.

(** Recording the frontier of what came in. *)
Lemma frontier_ended D c st n : collected D c st n → n ≠ start →
  ∃ st', record_scan_frontier start (n - 1) (seen c) st = Ret (st', Ok tt) ∧ only_state st st' ∧
    windowed (scan_state st') ∧ hashes_from start (scan_state st') ∧ last_scanned_height (scan_state st') = Some (n - 1).
Proof.
  intros Hc Hn. pose proof (cl_next _ _ _ _ Hc).
  destruct (record_frontier_good (seen c) start (n - 1) st) as (st1 & Hr & Hsame & R2 & R3 & R4 & _); [lia|lia|..].
  + intros k Hk. apply (cl_hashes _ _ _ _ Hc); [lia|]. apply (cl_prefix _ _ _ _ Hc). lia.
  + intros x Hx. apply (cl_last _ _ _ _ Hc) in Hx. lia.
  + apply (cl_window _ _ _ _ Hc).
  + apply (cl_kept _ _ _ _ Hc).
  + by exists st1.
Qed.
Lemma ended_saved D c st n st1 r : collected D c st n → coins st1 = coins st → windowed (scan_state st1) →
  hashes_from start (scan_state st1) →
  last_scanned_height (scan_state st1) = (if decide (n = start) then last_scanned_height (scan_state st0) else Some (n - 1)) →
  ended D n (save_state st1) r.
Proof.
  intros Hc Hco Hw Hk Hl. destruct (save_state_frame st1) as (S1 & S2 & S3). destruct Hc. split; try done.
  - by rewrite S1, Hco.
  - intros k Hk'. rewrite S2, S3 in *. by apply Hw.
  - intros y k. rewrite S2, S3. apply Hk.
  - intros x. rewrite S2, Hl. case_decide as Hn; [|intros [= <-]; lia]. intros Hx. apply cl_last0.
    by rewrite cl_first0.
  - by rewrite S2.
Qed.
(** A stop records how far the contiguous blocks got. *)
Lemma stop_ended D c st n : collected D c st n →
  ∃ st', stop_here start c st = Ret (st', Ok (interrupted st')) ∧ ended D n st' (Ok (interrupted st')).
Proof.
  intros Hc. unfold stop_here, sbind. rewrite (cl_tip _ _ _ _ Hc). case_decide as Hn.
  - eexists. split; [reflexivity|]. eapply ended_saved; [done|done|apply Hc|apply Hc|].
    rewrite decide_True by done. by apply (cl_first _ _ _ _ Hc).
  - destruct (frontier_ended D c st n Hc Hn) as (st1 & -> & Hsame & R2 & R3 & R4).
    eexists. split; [reflexivity|]. eapply ended_saved; [done|by rewrite Hsame|done|done|]. by rewrite decide_False.
Qed.
Lemma collect_ends last_stop l hs D c st n :
  collected D c st n → Forall2 brings (until_stop l) hs → hs ++ D ⊆+ nseq start (N.to_nat (e + 1 - start)) →
  ∃ st' n', collect start e last_stop l c st = Ret (st', outcome_after l last_stop n' st') ∧
    ended (rev hs ++ D) n' st' (outcome_after l last_stop n' st').
Proof.
  revert hs D c st n. induction l as [|a l IH]; intros hs D c st n Hc Hl Hsub.
  - apply Forall2_nil_inv_l in Hl as ->. cbn [collect rev app]. unfold outcome_after. cbn [existsb].
    pose proof (cl_next _ _ _ _ Hc) as Hn. rewrite (cl_tip _ _ _ _ Hc).
    destruct (N.eqb_spec n (e + 1)) as [Hend|Hend].
    + rewrite decide_False, bool_decide_eq_true_2 by (f_equal; lia || lia). cbn [negb]. unfold sbind.
      destruct (frontier_ended D c st n Hc) as (st1 & Hr & Hsame & R2 & R3 & R4); [lia|].
      replace (n - 1) with e in Hr, R4 by lia. rewrite Hr.
      exists (save_state (record_receive_progress e e st1)), n. rewrite (proj2 (N.eqb_eq n (e + 1)) Hend). split; [done|].
      eapply ended_saved; [done| |done|done|].
      * change (coins (record_receive_progress e e st1)) with (coins st1). by rewrite Hsame.
      * rewrite decide_False by lia. cbn [record_receive_progress notify scan_state]. rewrite R4. f_equal. lia.
    + rewrite bool_decide_eq_false_2; [|case_decide; [done|intros [= ?]; lia]]. cbn [negb].
      destruct last_stop.
      * destruct (stop_ended D c st n Hc) as (st' & -> & He'). exists st', n.
        rewrite (proj2 (N.eqb_neq n (e + 1)) Hend). done.
      * exists st, n. rewrite (proj2 (N.eqb_neq n (e + 1)) Hend). split; [done|]. by eapply collected_ended.
  - cbn [until_stop] in Hl. apply Forall2_cons_inv_l in Hl as (h & hs' & (m & Hm & Hb) & Hl & ->).
    cbn [collect]. rewrite Hm. cbn [rbind]. rewrite Hb. cbn [app] in Hsub. unfold sbind.
    assert (Hnd : NoDup (h :: hs' ++ D)) by (apply (submseteq_NoDup _ _ Hsub), NoDup_nseq).
    apply NoDup_cons in Hnd as [Hni _]. rewrite not_elem_of_app in Hni.
    assert (Hh : start ≤ h ≤ e).
    { assert (Hin : h ∈ nseq start (N.to_nat (e + 1 - start))) by (eapply elem_of_submseteq; [|exact Hsub]; left).
      apply elem_of_nseq in Hin. lia. }
    destruct (collected_step D c st n h (due a) Hc Hh) as (c' & st' & n' & -> & Hc'); [naive_solver|].
    unfold outcome_after. cbn [existsb]. destruct (stopping a); cbn [orb].
    + apply Forall2_nil_inv_l in Hl as ->. cbn [rev app]. destruct (stop_ended _ _ _ _ Hc') as (st2 & -> & He').
      by exists st2, n'.
    + destruct (IH hs' (h :: D) c' st' n' Hc' Hl) as (st2 & n2 & Hr & He').
      { rewrite <-Permutation_middle. done. }
      exists st2, n2. split; [exact Hr|]. cbn [rev]. rewrite <-app_assoc. exact He'.
Qed.
End collector.


(** *** A pass whose first block never comes *)

Definition gap (c : Collector) : Prop := recv_tip c = None ∧ done_ c !! O = Some false.
Lemma commit_keeps_gap e h hash outs due c st st' c' :
  h ≠ 0 → gap c → commit_block 0 e h hash outs due c st = Ret (st', Ok c') → gap c'.
Proof.
  intros Hh [Htip Hd]. unfold commit_block, sub32, sub_w.
  rewrite (proj2 (N.leb_le 0 h)) by lia. cbn [obind]. rewrite N.sub_0_r, Htip.
  destruct (done_ c !! N.to_nat h); [|done]. destruct (seen c !! N.to_nat h); [|done]. cbn [expect obind].
  assert (Hi : <[N.to_nat h := true]> (done_ c) !! O = Some false) by (by rewrite list_lookup_insert_ne by lia).
  assert (Hlen : length (<[N.to_nat h := true]> (done_ c)) ≠ O) by (by destruct (<[N.to_nat h := true]> (done_ c))).
  cbn [advance_tip]. destruct (e <? 0); [|rewrite N.sub_diag; change (N.to_nat 0) with O; rewrite Hi];
    cbn [expect obind]; destruct due; intros [= _ <-]; by split.
Qed.
Lemma collect_gap e last_stop l c st st' :
  (∀ a m x, a ∈ l → msg a = Ok m → block_of m = Ok x → x.1.1 ≠ 0) → gap c →
  collect 0 e last_stop l c st ≠ Ret (st', Ok Completed).
Proof.
  revert c st; induction l as [|a l IH]; intros c st Hl Hg; cbn [collect].
  - destruct Hg as [-> _]. rewrite bool_decide_eq_false_2 by done. cbn [negb].
    destruct last_stop; [|done]. unfold stop_here, sbind, sret.
    destruct (recv_tip c); [|done]. by destruct (record_scan_frontier _ _ _ _) as [[? []]|].
  - destruct (msg a) as [m|] eqn:Hm; cbn [rbind]; [|done].
    destruct (block_of m) as [[[h hash] outs]|] eqn:Hb; [|done]. unfold sbind.
    destruct (commit_block _ _ _ _ _ _ _ _) as [[st1 [c'|]]|] eqn:Hc; [|done..].
    assert (Hg' : gap c').
    { eapply commit_keeps_gap; [|done|done]. by apply (Hl a m _ ltac:(left) Hm Hb). }
    destruct (stopping a).
    + unfold stop_here, sbind, sret. destruct Hg' as [-> _]. by intros [= _].
    + apply IH; [|done]. intros a' m' x Ha'. apply Hl. by right.
Qed.

(** A scan from height 0 cannot complete: no block is fetched at height 0, but the
    collector waits for one. Whatever the blocks asked for bring, the pass ends with an
    error or a stop, and never with its frontier recorded. *)
Theorem scan_from_genesis_fails e last_stop l st st'
    (Hfetched : ∀ a m x, a ∈ l → msg a = Ok m → block_of m = Ok x → x.1.1 ∈ fetch_heights 0 e) :
  process_blocks 0 e last_stop l st ≠ Ret (st', Ok Completed).
Proof.
  unfold process_blocks, sub32, sub_w. rewrite (proj2 (N.leb_le 0 e)) by lia. cbn [obind].
  apply collect_gap.
  - intros a m x Ha Hm Hb Hx. specialize (Hfetched a m x Ha Hm Hb).
    unfold fetch_heights in Hfetched. apply elem_of_nseq in Hfetched. lia.
  - split; [done|]. cbn [done_]. apply lookup_replicate_2. lia.
Qed.

(** *** An output that is not on the curve *)

Lemma rmap_err {A C} (f : A → result C Error) l a e : a ∈ l → f a = Err e → ∃ e', rmap f l = Err e'.
Proof.
  intros Ha He. induction l as [|b l IH]; [by apply not_elem_of_nil in Ha|]. cbn [rmap]. unfold rbind.
  apply elem_of_cons in Ha as [<-|Ha]; [rewrite He; eauto|]. destruct (f b); [|eauto].
  destruct (IH Ha) as [e' ->]. eauto.
Qed.
Lemma group_lookup us m t : foldl group m us !! t =
  match m !! t, List.filter (λ u, bool_decide (ud_txid u = t)) us with
  | None, [] => None
  | o, l => Some (default [] o ++ l)
  end.
Proof.
  revert m; induction us as [|u us IH]; intros m; cbn [foldl List.filter].
  { destruct (m !! t); cbn; [by rewrite app_nil_r|done]. }
  rewrite IH. unfold group. destruct (decide (ud_txid u = t)) as [<-|Hne].
  - rewrite lookup_insert_eq, bool_decide_eq_true_2 by done. destruct (m !! ud_txid u); cbn; by rewrite <-?app_assoc.
  - by rewrite lookup_insert_ne, bool_decide_eq_false_2 by done.
Qed.
(** Whatever transaction has such an output and one of the scripts asked for cannot be
    scanned. *)
Lemma off_curve_block height tweaks keys secrets us u v :
  rmap (λ t, ok_or (parse_pubkey t) Secp256k1) tweaks = Ok keys → script_to_secret_map keys = Ok secrets →
  utxos height = Ok us → u ∈ us → is_Some (secrets !! scriptpubkey u) →
  v ∈ us → ud_txid v = ud_txid u → spk_is_p2tr (scriptpubkey v) = true →
  xonly_from_slice (drop 2 (scriptpubkey v)) = None →
  ∃ e, derive_owned height tweaks = Err e.
Proof.
  intros Hk Hs Hus Hu Hsec Hv Htx Htr Hx. unfold derive_owned. rewrite Hk. cbn [rbind]. rewrite Hs. cbn [rbind].
  unfold scan_utxos. rewrite Hus. cbn [rbind].
  set (g := List.filter (λ w, bool_decide (ud_txid w = ud_txid u)) us).
  assert (Hin : ∀ w, w ∈ us → ud_txid w = ud_txid u → w ∈ g).
  { intros w Hw Hwt. apply list_elem_of_In, filter_In. split; [by apply list_elem_of_In|by apply bool_decide_eq_true]. }
  assert (Hg : g ∈ bt_values (foldl group ∅ us)).
  { apply elem_of_bt_values. exists (ud_txid u). rewrite group_lookup, lookup_empty. fold g. cbn.
    destruct g; [|done]. specialize (Hin u Hu eq_refl). by apply not_elem_of_nil in Hin. }
  assert (∃ e, scan_tx secrets g = Err e) as [e He].
  { unfold scan_tx. destruct (list_find _ g) as [[i w]|] eqn:Hf.
    - apply list_find_Some in Hf as (_ & [s Hw] & _). rewrite Hw.
      destruct (rmap_err output_key (List.filter (λ u, spk_is_p2tr (scriptpubkey u)) g) v Secp256k1) as [e ->];
        [|by unfold output_key; rewrite Hx|by eexists].
      apply list_elem_of_In, filter_In. split; [by apply list_elem_of_In, Hin|done].
    - exfalso. by apply list_find_None, Forall_forall with (x := u) in Hf; [|apply Hin]. }
  destruct (rmap_err (scan_tx secrets) (bt_values (foldl group ∅ us)) g e Hg He) as [e' ->]. by exists e'.
Qed.
Lemma collect_error start e last_stop l c st st' a m x : a ∈ l → msg a = Ok m → block_of m = Err x →
  collect start e last_stop l c st ≠ Ret (st', Ok Completed).
Proof.
  revert c st; induction l as [|b l IH]; intros c st Ha Hm Hx; [by apply not_elem_of_nil in Ha|]. cbn [collect].
  apply elem_of_cons in Ha as [<-|Ha].
  { rewrite Hm. cbn [rbind]. by rewrite Hx. }
  destruct (try! m := msg b in block_of m) as [[[h hash] outs]|]; [|done]. unfold sbind.
  destruct (commit_block _ _ _ _ _ _ _ _) as [[st1 [c'|]]|]; [|done..].
  destruct (stopping b); [|by apply IH]. unfold stop_here, sbind, sret.
  destruct (recv_tip c'); [|by intros [= _]]. by destruct (record_scan_frontier _ _ _ _) as [[? []]|].
Qed.

(** One transaction can stop a scan for ever. When the outputs of a transaction that
    pays us include a taproot output whose key is not on the curve, which consensus
    allows, no receive pass that meets its block completes, whatever the order of the
    blocks and however often it is tried. *)
Theorem off_curve_output_stops_scan start e last_stop l st st' height hash tweaks a keys secrets us u v :
  a ∈ l → msg a = Ok (Matched height hash tweaks) →
  rmap (λ t, ok_or (parse_pubkey t) Secp256k1) tweaks = Ok keys → script_to_secret_map keys = Ok secrets →
  utxos height = Ok us → u ∈ us → is_Some (secrets !! scriptpubkey u) →
  v ∈ us → ud_txid v = ud_txid u → spk_is_p2tr (scriptpubkey v) = true →
  xonly_from_slice (drop 2 (scriptpubkey v)) = None →
  process_blocks start e last_stop l st ≠ Ret (st', Ok Completed).
Proof.
  intros Ha Hm Hk Hs Hus Hu Hsec Hv Htx Htr Hx.
  destruct (off_curve_block height tweaks keys secrets us u v Hk Hs Hus Hu Hsec Hv Htx Htr Hx) as [err Herr].
  unfold process_blocks. destruct (sub32 e start) as [d|]; cbn [obind]; [|done].
  apply (collect_error _ _ _ _ _ _ _ a (Matched height hash tweaks) err Ha Hm). cbn [block_of]. by rewrite Herr.
Qed.
End receive.

(** *** Witnesses *)
Module Witness.
Import Persist.Witness SpState.Witness.
Import HeaderValidator.Sample.

(** A toy curve: the script of an output is its tweak, and is its own secret. *)
Definition burnt : list UtxoData := [mkUtxoData 11 0 700 [81; 32; 3] false; mkUtxoData 11 1 1 [81; 32; 0] false].
#[export] Instance toy : SpLib := {|
  PubKey := list N; XOnly := list N; Scalar := N;
  parse_pubkey := Some;
  xonly_from_slice := λ b, if bool_decide (b = [0]) then None else Some b;
  to_be_bytes := λ s, [s];
  spk_is_p2tr := λ s, bool_decide (head s = Some 81);
  script_to_secret_map := λ keys, Ok (list_to_map ((λ k, (k, k)) <$> keys));
  scan_transaction := λ secret keys,
    Ok [(None, list_to_map ((λ x, (x, 1)) <$> List.filter (λ x, bool_decide (x = drop 2 secret)) keys))];
  candidate_spks := Ok;
  match_any := λ _ keys filter, Ok (existsb (λ k, bool_decide (k = filter)) keys);
  utxos := λ h,
    if h =? 101 then Ok [mkUtxoData 7 0 5000 [81; 32; 5] false; mkUtxoData 7 1 900 [81; 32; 6] false;
                         mkUtxoData 8 0 10 [0] false]
    else if h =? 103 then Ok [mkUtxoData 9 1 600 [81; 32; 9] false]
    else if h =? 104 then Ok burnt else Ok []
|}.

Abbreviation Stores := (ScanStores (B:=Persist.Witness.mem) (CS:=RamStore unit OutPoint SpCoinEntry)
  (TS:=RamStore unit Txid SpTxStore.SpTxEntry) (SH:=RamStore unit N raw_header)).

Definition cs0 : RamStore unit OutPoint SpCoinEntry := SpCoinStore.new_store (λ _, "") (λ _, Ok []).
Definition ts0 : RamStore unit Txid SpTxStore.SpTxEntry := SpTxStore.new_store (λ _, "") (λ _, Ok []).
Definition stores (state : ScanState Persist.Witness.mem) : Stores :=
  mkScanStores cs0 ts0 state [] None.

(** A chain of hashes, and the outputs the blocks 101 and 103 pay us. *)
Definition hash_of (h : N) : BlockHash := 1000 + h.
Definition op7 : OutPoint := mkOutPoint 7 0.
Definition op9 : OutPoint := mkOutPoint 9 1.
Definition out7 : OwnedOutput := mkOwnedOutput (Some 101) [1] 5000 [81; 32; 5] None SpUnspent.
Definition out9 : OwnedOutput := mkOwnedOutput (Some 103) [1] 600 [81; 32; 9] None SpUnspent.
Definition blk (h : N) : BlockHash * gmap OutPoint OwnedOutput :=
  (hash_of h, if h =? 101 then {[op7 := out7]} else if h =? 103 then {[op9 := out9]} else ∅).
(** The filter of a block holds what its tweak pays, a block without one matches
    nothing. *)
Definition data (h : N) : BlockData :=
  if h =? 101 then mkBlockData h (hash_of h) [[81; 32; 5]] (hash_of h) [5]
  else if h =? 103 then mkBlockData h (hash_of h) [[81; 32; 9]] (hash_of h) [9]
  else if h =? 102 then mkBlockData h (hash_of h) [[81; 32; 4]] (hash_of h) [5]
  else mkBlockData h (hash_of h) [] (hash_of h) [].
Definition arrive (due stopping : bool) (h : N) : Arrival :=
  mkArrival (worker (Ok (data h))) due stopping.

Definition wst0 : Stores := stores (SpState.with_backend 100 ∅).

Lemma blk_disjoint h h' op : is_Some ((blk h).2 !! op) → is_Some ((blk h').2 !! op) → h = h'.
Proof.
  unfold blk. cbn [snd]. intros [x Hx] [y Hy]. revert Hx Hy.
  destruct (N.eqb_spec h 101), (N.eqb_spec h' 101), (N.eqb_spec h 103), (N.eqb_spec h' 103);
    subst; rewrite ?lookup_singleton_Some, ?lookup_empty; naive_solver.
Qed.
Lemma blk_delivered h due stop : h ∈ [100; 101; 102; 103] → brings blk (arrive due stop h) h.
Proof.
  intros Hh. unfold brings, arrive. cbn [msg].
  repeat (apply elem_of_cons in Hh as [->|Hh]; [eexists; split; vm_compute; reflexivity|]).
  by apply elem_of_nil in Hh.
Qed.

(** The transaction that pays us in block 104 also burns one satoshi. *)
Definition burning : Arrival := mkArrival (Ok (Matched 104 (hash_of 104) [[81; 32; 3]])) false false.
Definition tweak3 : PubKey := [81; 32; 3].
Definition secret3 : gmap script PubKey := {[[81; 32; 3] := tweak3]}.
Lemma off_curve_output_stops_scan_witness :
  ¬ ∃ st', process_blocks 104 104 false [burning] wst0 = Ret (st', Ok Completed).
Proof.
  intros [st' H]. revert H.
  apply (off_curve_output_stops_scan 104 104 false [burning] wst0 st' 104 (hash_of 104) [[81; 32; 3]] burning
    [tweak3] secret3 burnt
    (mkUtxoData 11 0 700 [81; 32; 3] false) (mkUtxoData 11 1 1 [81; 32; 0] false));
    first [reflexivity|left; reflexivity|right; left; reflexivity|by eexists|vm_compute; reflexivity].
Defined.

(** The blocks come in as 103, 100, 102 and 101, with a checkpoint at 102. *)
Definition run_all : outcome (Stores * result ScanOutcome Error) :=
  process_blocks 100 103 false
    [arrive false false 103; arrive false false 100; arrive true false 102; arrive false false 101] wst0.
(** A stop after 103 and 100 came in: what they pay is stored, the frontier is at 100. *)
Example stopped_pass :
  match process_blocks 100 103 false [arrive false false 103; arrive false true 100; arrive false false 101] wst0 with
  | Ret (st, r) =>
      r = Ok (Interrupted (Some 100) None) ∧ bt_items (coins st) = [(op9, new op9 out9)] ∧
      last_scanned_height (scan_state st) = Some 100
  | Panic => False
  end.
Proof. vm_compute. split_and!; reflexivity. Qed.

Lemma scan_from_genesis_fails_witness :
  process_blocks 0 102 true [arrive false false 101; arrive false false 102] wst0
    ≠ Ret (wst0, Ok Completed).
Proof.
  apply scan_from_genesis_fails. intros a m x Ha Hm Hb.
  apply elem_of_cons in Ha as [->|Ha]; [|apply list_elem_of_singleton in Ha as ->];
    cbn in Hm; injection Hm as <-; cbn in Hb; injection Hb as <-; apply (bool_decide_unpack _); by vm_compute.
Defined.

(** The same heights on another branch, which pays us nothing. *)
Definition other (h : N) : Arrival :=
  mkArrival (worker (Ok (mkBlockData h (2000 + h) [] (2000 + h) []))) false false.

(** A coin of a reorged block can stay for ever. Blocks are committed as they come
    in, and their outputs stored at once, while only the contiguous frontier has
    hashes to compare. Block 103 comes in first and the scan is stopped: its coin is
    stored and the frontier is not. The chain then replaces every block. The next scan
    sees no reorganisation, completes over the new blocks, and the coin that is on no
    block of the chain is still spendable. *)
Example early_coin_survives_reorg :
  match process_blocks 100 103 false [arrive false true 103] wst0 with
  | Ret (st1, Ok o) =>
      o = Interrupted None None ∧
      match handle_reorg (λ h, Ok (2000 + h)) 100 st1 with
      | (st2, Ok start) =>
          start = 100 ∧
          match process_blocks start 103 false (other <$> [100; 101; 102; 103]) st2 with
          | Ret (st3, Ok o) =>
              o = Completed ∧ bt_items (coins st3) = [(op9, new op9 out9)] ∧
              SpCoinStore.balance (coin_store st3) = Ret 600
          | _ => False
          end
      | _ => False
      end
  | _ => False
  end.
Proof. vm_compute. split_and!; reflexivity. Qed.

(** A reorganisation of the one block scanned is refused as deeper than five, and
    leaves the stores as they were, so the next scan is refused as well. *)
Example short_chain_reorg_refused :
  match process_blocks 100 100 false [arrive false false 100] wst0 with
  | Ret (st1, Ok Completed) =>
      bt_items (hashes (scan_state st1)) = [(100, 1100)] ∧
      (handle_reorg (λ h, Ok (2000 + h)) 101 st1).2 = Err (ReorgTooDeep 5)
  | _ => False
  end.
Proof. vm_compute. split; reflexivity. Qed.

(** What was recorded of block 103 is undone: a coin of ours stays spent by our own
    transaction; the output of the block is gone, and with it the unconfirmed change that
    was held before the block confirmed it. *)
Definition op1 : OutPoint := mkOutPoint 1 0.
Definition op33 : OutPoint := mkOutPoint 33 1.
Definition mine : OwnedOutput := mkOwnedOutput (Some 90) [2] 800 [81; 32; 1] None (SpSpent 33 None).
Definition change : OwnedOutput := mkOwnedOutput None [4] 150 [81; 32; 8] None SpUnspent.
Definition mined_change : OwnedOutput := mkOwnedOutput (Some 103) [4] 150 [81; 32; 8] None SpUnspent.
Definition wst1 : Stores :=
  set_coin_store (SpCoinStore.insert op33 change (SpCoinStore.insert op1 mine cs0))
    (set_scan_state (adv 102 1102 (SpState.with_backend 100 ∅)) wst0).
Definition recs : list Recorded := [ROutputs {[op9 := out9; op33 := mined_change]}; RInputs 1103 103 {[op1; op9]}].
Lemma roll_back_undoes_witness :
  bt_items (coins (foldl apply_recorded wst1 recs)) =
    [(op1, new op1 (set_spend_status (SpSpent 33 (Some 1103)) mine));
     (op9, new op9 (set_spend_status (SpMined 1103) out9)); (op33, new op33 mined_change)] ∧
  bt_items (coins wst1) = [(op1, new op1 mine); (op33, new op33 change)] ∧
  (let st' := roll_back 102 {[1103]} (foldl apply_recorded wst1 recs) in
   coins st' !! op1 = Some (new op1 mine) ∧ coins st' !! op9 = None ∧ coins st' !! op33 = None).
Proof.
  split; [vm_compute; reflexivity|]. split; [vm_compute; reflexivity|].
  destruct (roll_back_undoes 102 {[1103]} recs wst1) as (Hexact & Hkept & _).
  - intros t e Ht. vm_compute in Ht. done.
  - apply Forall_cons; split; [|apply Forall_cons; split; [split|by apply Forall_nil]].
    + intros op o Ho. apply lookup_insert_Some in Ho as [[<- <-]|[_ Ho]].
      * exists 103. split; [done|lia].
      * apply lookup_singleton_Some in Ho as [<- <-]. exists 103. split; [done|lia].
    + by apply elem_of_singleton.
    + intros op e Hin He. apply elem_of_union in Hin as [Hin|Hin]; apply elem_of_singleton in Hin as ->;
        vm_compute in He; [by injection He as <-|done].
  - cbv zeta. split_and!.
    + apply Hkept; vm_compute; reflexivity.
    + rewrite (Hexact op9). vm_compute. reflexivity.
    + rewrite (Hexact op33). vm_compute. reflexivity.
Defined.

(** Blocks 100 to 102 scanned, 102 replaced. *)
Definition wst2 : Stores :=
  match process_blocks 100 102 false (arrive false false <$> [101; 102; 100]) wst0 with
  | Ret (st, _) => st | Panic => wst0
  end.
Definition reorged_hash (h : N) : result BlockHash Error := Ok (if h =? 102 then 7 else hash_of h).
Lemma handle_reorg_sound_witness :
  ∃ st', handle_reorg reorged_hash 103 wst2 = (st', Ok 102) ∧
    windowed (scan_state st') ∧ last_scanned_height (scan_state st') = Some 101.
Proof.
  assert (Hr : (handle_reorg reorged_hash 103 wst2).2 = Ok 102) by (vm_compute; reflexivity).
  assert (Hl : last_scanned_height (scan_state (handle_reorg reorged_hash 103 wst2).1) = Some 101)
    by (vm_compute; reflexivity).
  destruct (handle_reorg reorged_hash 103 wst2) as [st' r] eqn:Hrun. cbn [fst snd] in Hr, Hl. subst r.
  exists st'. split; [done|]. split; [|done].
  refine (proj1 (handle_reorg_sound reorged_hash 103 102 wst2 st' _ _ Hrun)).
  - assert (Hk : bt_items (txs wst2) = [(7, SpTxStore.set_height (Some 101) (SpTxStore.new 7))])
      by (vm_compute; reflexivity).
    intros t e Ht. apply elem_of_bt_items in Ht. rewrite Hk in Ht.
    apply list_elem_of_singleton in Ht. by injection Ht as -> ->.
  - intros h Hh. exists 102. split; [vm_compute; reflexivity|].
    assert (Hk : bt_keys (hashes (scan_state wst2)) = [100; 101; 102]) by (vm_compute; reflexivity).
    apply elem_of_bt_keys in Hh. rewrite Hk in Hh. clear Hk. unfold REORG_DEPTH.
    repeat (apply elem_of_cons in Hh as [->|Hh]; [split; done|]).
    exfalso. exact (proj1 (elem_of_nil h) Hh).
Defined.
End Witness.
End SpScan.
