(* ===== verification/SpSweep.v ===== *)
(** * The spend pass of a silent-payment scan (sp/src/scan/mod.rs)

    Once the receive pass is through, the spent filters of the blocks are matched
    against the coins that can still be spent, in the order of the heights. A gap of
    heights below the lowest such coin is jumped. The sweep is written against the
    trait [SpendScanner]; [BlindbitSpendScanner] implements it with a pool of workers
    that fetch a window of filters ahead, whose answers come in any order. Waiting for
    an answer that cannot come any more is a result of its own, [Hangs]. *)
From stdpp Require Import base gmap list sets sorting strings.
From Stdlib Require Import Lia.
From S2P Require Import Prelude Bitcoin Persist HeaderBackend HeaderValidator HeaderStore.
From S2P Require Import Notification SpCoinStore SpTxStore SpState SpScan.

Module SpSweep.
Import Persist SpState SpCoinStore SpScan.
Import HeaderValidator(HeaderLib, raw_header).

(** ** The coins still watched *)

(** [struct WatchableSet]. *)
Record WatchableSet := mkWatchableSet {
  outpoints : gset OutPoint;
  height_of : gmap OutPoint N;
  by_height : gmap N nat
}.

Definition watch_one (w : WatchableSet) (c : OutPoint * N) : WatchableSet :=
  if decide (c.1 ∈ outpoints w) then w
  else
    mkWatchableSet ({[c.1]} ∪ outpoints w) (<[c.1 := c.2]> (height_of w))
      (<[c.2 := S (default 0%nat (by_height w !! c.2))]> (by_height w)).
Definition new (coins : list (OutPoint * N)) : WatchableSet :=
  foldl watch_one (mkWatchableSet ∅ ∅ ∅) coins.

Definition floor (w : WatchableSet) : option N := bt_first_key (by_height w).

Definition remove (w : WatchableSet) (o : OutPoint) : WatchableSet :=
  if decide (o ∈ outpoints w) then
    let outpoints := outpoints w ∖ {[o]} in
    match height_of w !! o with
    | None => mkWatchableSet outpoints (height_of w) (by_height w)
    | Some height =>
        let height_of := delete o (height_of w) in
        match by_height w !! height with
        | None => mkWatchableSet outpoints height_of (by_height w)
        | Some count =>
            let count := (count - 1)%nat in
            mkWatchableSet outpoints height_of
              (if decide (count = 0%nat) then delete height (by_height w)
               else <[height := count]> (by_height w))
        end
    end
  else w.

(** *** Its invariant *)

(** Every outpoint has a height, and each height counts its outpoints. *)
Record watch_ok (w : WatchableSet) : Prop := {
  wo_dom : dom (height_of w) = outpoints w;
  wo_count : ∀ h, by_height w !! h =
    let n := size (filter (λ kv : OutPoint * N, kv.2 = h) (height_of w)) in
    if decide (n = 0%nat) then None else Some n
}.

Lemma count_insert (m : gmap OutPoint N) o x h :
  m !! o = None →
  size (filter (λ kv : OutPoint * N, kv.2 = h) (<[o := x]> m)) =
    (if decide (x = h) then S else id) (size (filter (λ kv : OutPoint * N, kv.2 = h) m)).
Proof.
  intros Ho. case_decide as Hx.
  - rewrite map_filter_insert_True by done. rewrite map_size_insert_None; [done|].
    apply map_lookup_filter_None. by left.
  - rewrite map_filter_insert_False by done. by rewrite delete_id.
Qed.

Lemma new_ok l : watch_ok (new l).
Proof.
  unfold new. assert (H0 : watch_ok (mkWatchableSet ∅ ∅ ∅)).
  { split; cbn; [by rewrite dom_empty_L|]. intros h.
    by rewrite lookup_empty, map_filter_empty, map_size_empty. }
  revert H0. generalize (mkWatchableSet ∅ ∅ ∅) as w. induction l as [|[o x] l IH]; intros w Hw; [done|].
  cbn [foldl]. apply IH. unfold watch_one. cbn [fst snd]. destruct (decide (o ∈ outpoints w)) as [|Ho]; [done|].
  destruct Hw as [Hd Hc]. assert (Hn : height_of w !! o = None) by (apply not_elem_of_dom; by rewrite Hd).
  split; cbn [height_of outpoints by_height].
  - by rewrite dom_insert_L, Hd.
  - intros h. cbv zeta. rewrite count_insert by done. specialize (Hc h) as Hch. cbv zeta in Hch.
    destruct (decide (x = h)) as [->|Hne].
    + rewrite lookup_insert_eq, Hch. set (n := size _).
      rewrite (decide_False (P:=S n = 0%nat)) by lia. f_equal. f_equal.
      destruct (decide (n = 0%nat)); cbn; lia.
    + by rewrite lookup_insert_ne, Hch.
Qed.

Lemma new_outpoints l : outpoints (new l) = list_to_set l.*1.
Proof.
  unfold new. assert (Hgen : ∀ w, outpoints (foldl watch_one w l) = outpoints w ∪ list_to_set l.*1).
  { induction l as [|[o x] l IH]; intros w; cbn [foldl]; [simpl; set_solver|].
    rewrite IH. unfold watch_one. cbn [fst snd]. case_decide; simpl; set_solver. }
  rewrite Hgen. simpl. set_solver.
Qed.
Lemma new_height l o x : height_of (new l) !! o = Some x → (o, x) ∈ l.
Proof.
  unfold new. assert (Hgen : ∀ w, height_of (foldl watch_one w l) !! o = Some x →
    height_of w !! o = Some x ∨ (o, x) ∈ l).
  { induction l as [|[p y] l IH]; intros w; cbn [foldl]; [by left|]. intros [Hx|Hx]%IH.
    - revert Hx. unfold watch_one. cbn [fst snd]. case_decide; [by left|]. cbn [height_of].
      intros [[-> ->]|[_ Hx]]%lookup_insert_Some; [right; left|by left].
    - right. by right. }
  intros [Hx|Hx]%Hgen; [|done]. cbn in Hx. by rewrite lookup_empty in Hx.
Qed.

Lemma remove_ok w o : watch_ok w → watch_ok (remove w o).
Proof.
  intros [Hd Hc]. unfold remove. destruct (decide (o ∈ outpoints w)) as [Ho|]; [|done].
  assert (is_Some (height_of w !! o)) as [x Hx] by (apply elem_of_dom; by rewrite Hd).
  rewrite Hx.
  assert (Hcnt : ∀ h, size (filter (λ kv : OutPoint * N, kv.2 = h) (height_of w)) =
    (if decide (x = h) then S else id) (size (filter (λ kv : OutPoint * N, kv.2 = h) (delete o (height_of w))))).
  { intros h. rewrite <-(count_insert _ o) by apply lookup_delete_eq. by rewrite insert_delete_id. }
  pose proof (Hc x) as Hcx. cbv zeta in Hcx. rewrite Hcnt, (decide_True (P:=x = x)) in Hcx by done. cbn in Hcx.
  set (n := size _) in Hcx. rewrite (decide_False (P:=S n = 0%nat)) in Hcx by lia. rewrite Hcx.
  assert (Hdom : dom (delete o (height_of w)) = outpoints w ∖ {[o]}) by (by rewrite dom_delete_L, Hd).
  replace (S n - 1)%nat with n by lia. split; cbn [height_of outpoints by_height]; [done|].
  intros h. cbv zeta. destruct (decide (h = x)) as [->|Hne].
  - fold n. destruct (decide (n = 0%nat)); [apply lookup_delete_eq|apply lookup_insert_eq].
  - pose proof (Hc h) as Hch. cbv zeta in Hch. rewrite Hcnt, (decide_False (P:=x = h)) in Hch by done.
    cbn in Hch. rewrite <-Hch.
    destruct (decide (n = 0%nat)); [by rewrite lookup_delete_ne|by rewrite lookup_insert_ne].
Qed.

Lemma remove_outpoints w o : outpoints (remove w o) = outpoints w ∖ {[o]}.
Proof.
  unfold remove. destruct (decide (o ∈ outpoints w)) as [|Ho]; [|set_solver].
  by repeat case_match.
Qed.
Lemma remove_height w o p : watch_ok w →
  height_of (remove w o) !! p = if decide (p = o) then None else height_of w !! p.
Proof.
  intros [Hd _]. unfold remove. destruct (decide (o ∈ outpoints w)) as [Ho|Ho].
  - assert (is_Some (height_of w !! o)) as [x Hx] by (apply elem_of_dom; by rewrite Hd).
    rewrite Hx. assert (Hl : delete o (height_of w) !! p = if decide (p = o) then None else height_of w !! p).
    { case_decide; subst; [apply lookup_delete_eq|by rewrite lookup_delete_ne]. }
    by destruct (by_height w !! x).
  - case_decide; subst; [|done]. apply not_elem_of_dom. by rewrite Hd.
Qed.

(** The floor is the lowest height of a watched coin. *)
Lemma floor_None w : watch_ok w → floor w = None → outpoints w = ∅.
Proof.
  intros [Hd Hc] Hf. apply bt_first_key_None in Hf. rewrite <-Hd. apply dom_empty_iff_L.
  apply map_eq. intros o. rewrite lookup_empty. destruct (height_of w !! o) as [x|] eqn:Hx; [|done].
  specialize (Hc x). cbv zeta in Hc. rewrite Hf, lookup_empty in Hc. case_decide as Hn; [|done].
  apply map_size_empty_iff in Hn. assert (Hin : filter (λ kv : OutPoint * N, kv.2 = x) (height_of w) !! o = Some x)
    by (by apply map_lookup_filter_Some). by rewrite Hn in Hin.
Qed.
Lemma floor_le w o x f : watch_ok w → floor w = Some f → height_of w !! o = Some x → f ≤ x.
Proof.
  intros [Hd Hc] Hf Hx. apply N.leb_le. apply (bt_first_key_min _ _ x Hf).
  specialize (Hc x). cbv zeta in Hc. rewrite Hc, decide_False; [by eexists|]. intros Hn.
  apply map_size_empty_iff in Hn. assert (Hin : filter (λ kv : OutPoint * N, kv.2 = x) (height_of w) !! o = Some x)
    by (by apply map_lookup_filter_Some). by rewrite Hn in Hin.
Qed.

Lemma floor_height w f : watch_ok w → floor w = Some f → ∃ o, height_of w !! o = Some f.
Proof.
  intros [Hd Hc] Hf. apply bt_first_key_elem in Hf as [n Hn]. rewrite Hc in Hn. cbv zeta in Hn.
  case_decide as Hz; [done|]. destruct (map_choose (filter (λ kv : OutPoint * N, kv.2 = f) (height_of w)))
    as (o & x & Ho).
  - intros He. apply Hz. rewrite He. apply map_size_empty.
  - apply map_lookup_filter_Some in Ho as [Ho Hx]. cbn in Hx. subst x. by exists o.
Qed.

(** ** The sweep *)

(** [struct SpendsAt]. *)
Record SpendsAt := mkSpendsAt { sp_height : N; sp_hash : BlockHash; spent : gset OutPoint }.

(** A call that may wait for ever. *)
Inductive waits (A : Type) : Type := Got (a : A) | Hangs.
Arguments Got {A} a.
Arguments Hangs {A}.

(** [trait SpendScanner]. *)
Class SpendScanner (Sc : Type) := {
  next : gset OutPoint → Sc → waits (Sc * result SpendsAt Error);
  jump_to : N → Sc → Sc
}.

Definition SPEND_PROGRESS_INTERVAL : N := 1000.

Section sweep.
Context `{Build} `{StateCodec} {B : Type} `{PersistenceBackend B}.
Context {CS : Type} `{!Store CS OutPoint SpCoinEntry}.
Context {TS : Type} `{!Store TS Txid SpTxStore.SpTxEntry}.
Context `{HeaderLib} {SH : Type} `{!Store SH N raw_header}.
Context {Sc : Type} `{!SpendScanner Sc}.
Abbreviation Stores := (ScanStores (B:=B) (CS:=CS) (TS:=TS) (SH:=SH)).
Implicit Types st : Stores.

(** How a sweep ends. *)
Inductive Swept := Sweeps (st : Stores) (r : result ScanOutcome Error) | SweepPanics | SweepHangs | NoFuel.

Definition record_spend_progress (current e : N) (st : Stores) : Stores :=
  notify (Notification.ScanSpendProgress current e) st.
(** [record_spend_frontier] at a height to be checked, then [save_state]. *)
Definition frontier_at (h : N) (st : Stores) (k : Stores → Swept) : Swept :=
  match from_consensus h with
  | Err e => Sweeps st (Err e)
  | Ok h => k (save_state (record_spend_frontier h st))
  end.

(** The end of a turn: progress and a checkpoint, [due] or not; then the floor. [again]
    goes on with the loop. *)
Definition report (due : bool) (e height last_progress : N) (go : N → Stores → Swept) (st : Stores) : Swept :=
  let progress := SPEND_PROGRESS_INTERVAL <=? height - last_progress in
  let st := if progress then record_spend_progress height e st else st in
  let last_progress := if progress then height else last_progress in
  if due then frontier_at height st (go last_progress) else go last_progress st.
Definition skip_gap (e : N) (again : Sc → N → Stores → Swept) (scanner : Sc) (watch : WatchableSet)
    (cursor : N) (st : Stores) : Swept :=
  match floor watch with
  | None => frontier_at e st (λ st, Sweeps st (Ok Completed))
  | Some fl =>
      if cursor <? fl then frontier_at (fl - 1) st (again (jump_to fl scanner) fl)
      else again scanner cursor st
  end.

(** [turn k]: at the k-th turn, whether the stop flag is up and whether a checkpoint
    is due. *)
Fixpoint run_sweep (fuel : nat) (turn : nat → bool * bool) (e : N) (k : nat) (scanner : Sc)
    (watch : WatchableSet) (cursor last_progress : N) (st : Stores) : Swept :=
  match fuel with
  | O => NoFuel
  | S fuel =>
      if e <? cursor then frontier_at e st (λ st, Sweeps st (Ok Completed))
      else if (turn k).1 then
        match sub32 cursor 1 with
        | Panic => SweepPanics
        | Ret h => frontier_at h st (λ st, Sweeps st (Ok (interrupted st)))
        end
      else
        match next (outpoints watch) scanner with
        | Hangs => SweepHangs
        | Got (_, Err er) => Sweeps st (Err er)
        | Got (scanner, Ok (mkSpendsAt height blkhash spent)) =>
            let watch := foldl remove watch (elements spent) in
            let rest :=
              report (turn k).2 e height last_progress (λ last,
                skip_gap e (λ scanner cursor, run_sweep fuel turn e (S k) scanner watch cursor last)
                  scanner watch (height + 1)) in
            if bool_decide (spent = ∅) then rest st
            else
              match from_consensus height with
              | Err er => Sweeps st (Err er)
              | Ok h => rest (record_inputs blkhash h spent st)
              end
        end
  end.

(** [process_spends], [scanner] being made at the cursor and the end. *)
Definition process_spends (scanner : N → N → Sc) (turn : nat → bool * bool) (start e : N) (st : Stores) :
    Swept :=
  let resume := effective_spend_start st start in
  let watch := new (watchable resume (coin_store st)) in
  match floor watch with
  | None => frontier_at e st (λ st, Sweeps st (Ok Completed))
  | Some fl =>
      let cursor := N.max resume fl in
      if e <? cursor then frontier_at e st (λ st, Sweeps st (Ok Completed))
      else run_sweep (N.to_nat (e + 2 - cursor)) turn e 0 (scanner cursor e) watch cursor (cursor - 1) st
  end.

(** [process_scan]: [arrivals] are what the receive pass gets for its range. *)
Definition process_scan `{SpLib} (hash_at : N → result BlockHash Error)
    (arrivals : N → N → list Arrival) (last_stop : bool)
    (scanner : N → N → Sc) (turn : nat → bool * bool) (start e : N) (st : Stores) : Swept :=
  match handle_reorg hash_at start st with
  | (st, Err er) => Sweeps st (Err er)
  | (st, Ok start) =>
      let st :=
        match header_store st with
        | None => st
        | Some hs =>
            let r := SpTxStore.restamp_missing_timestamps hs (tx_store st) in
            set_header_store (Some r.1.2) (set_tx_store r.1.1 st)
        end in
      let st :=
        match spend_frontier st with
        | None => if 0 <? start then save_state (record_spend_frontier (start - 1) st) else st
        | Some _ => st
        end in
      let receive_has_work := start <=? e in
      let spend_has_work := effective_spend_start st start <=? e in
      if negb receive_has_work && negb spend_has_work then Sweeps st (Err (InvalidRange start e))
      else if receive_has_work then
        match process_blocks start e last_stop (arrivals start e) st with
        | Panic => SweepPanics
        | Ret (st, Err er) => Sweeps st (Err er)
        | Ret (st, Ok Completed) => process_spends scanner turn start e st
        | Ret (st, Ok o) => Sweeps st (Ok o)
        end
      else process_spends scanner turn start e st
  end.
End sweep.

(** ** The scanner over the block oracle *)

Record FilterData := mkFilterData { fd_hash : BlockHash; fd_data : list N }.

(** What the scanner calls: the hash of an outpoint in a block is the start of a
    sha256; the filter and the index of the spent outputs of a block. *)
Class SpendLib := {
  sha256 : list N → list N;
  hash_bytes : N → list N;
  spent_match_any : BlockHash → list (list N) → list N → result bool Error;
  spent_filter : N → result FilterData Error;
  spent_index : N → result (list (list N)) Error
}.

Section blindbit.
Context `{SpendLib}.

(** The bytes hashed for an outpoint, and the eight that are kept. *)
Definition input_hash (blkhash : BlockHash) (o : OutPoint) : list N :=
  take 8 (sha256 (hash_bytes (op_txid o) ++ u32_to_le_bytes (op_vout o) ++ hash_bytes blkhash)).
Definition input_hashes_for (blkhash : BlockHash) (owned : gset OutPoint) : gmap (list N) OutPoint :=
  foldl (λ m o, <[input_hash blkhash o := o]> m) ∅ (elements owned).
Definition check_block_inputs (filter : list N) (blkhash : BlockHash) (input_hashes : list (list N)) :
    result bool Error :=
  if negb (bool_decide (input_hashes = [])) then spent_match_any blkhash input_hashes filter else Ok false.
Definition match_inputs_for (height : N) (filter : FilterData) (owned : gset OutPoint) :
    result (gset OutPoint) Error :=
  let m := input_hashes_for (fd_hash filter) owned in
  try! matched := check_block_inputs (fd_data filter) (fd_hash filter) (map_to_list m).*1 in
  if (matched : bool) then
    try! index := spent_index height in Ok (list_to_set (omap (λ hex, m !! hex) index))
  else Ok ∅.

(** [struct BlindbitSpendScanner]: the tasks submitted and not done, the channel
    between the workers and the scanner, and how often it was read. *)
Record Blindbit := mkBlindbit {
  in_flight : list N;
  chan : list (N * result FilterData Error);
  abort : bool;
  cursor : N;
  next_to_fetch : N;
  end_ : N;
  window : N;
  buf : gmap N FilterData;
  reads : nat
}.

Definition refill (s : Blindbit) : Blindbit :=
  if abort s then s
  else
    let limit := N.min (sat_add u32_max (cursor s) (window s)) (sat_add u32_max (end_ s) 1) in
    mkBlindbit (in_flight s ++ nseq (next_to_fetch s) (N.to_nat (limit - next_to_fetch s))) (chan s)
      (abort s) (cursor s) (N.max (next_to_fetch s) limit) (end_ s) (window s) (buf s) (reads s).
Definition blindbit_new (window cursor e : N) : Blindbit :=
  refill (mkBlindbit [] [] false cursor cursor e window ∅ 0).

(** A worker is done with a task: it sends its filter, or the first failure; nothing
    once the pool is aborted. *)
Definition finish (h : N) (s : Blindbit) : Blindbit :=
  if abort s then s
  else
    let res := try! bh := from_consensus h in spent_filter bh in
    mkBlindbit (in_flight s) (chan s ++ [(h, res)])
      (match res with Ok _ => false | Err _ => true end)
      (cursor s) (next_to_fetch s) (end_ s) (window s) (buf s) (reads s).
Definition take_task (i : nat) (s : Blindbit) : Blindbit :=
  match in_flight s !! i with
  | None => s
  | Some h =>
      finish h (mkBlindbit (delete i (in_flight s)) (chan s) (abort s) (cursor s) (next_to_fetch s) (end_ s)
                  (window s) (buf s) (reads s))
  end.

(** [rx.recv()]: the workers finish the tasks [sched] picks, then those in front until
    there is a message. The scanner holds a sender, so it waits for ever when no
    worker will send. *)
Fixpoint await (n : nat) (s : Blindbit) : Blindbit :=
  match n with
  | O => s
  | S n => match chan s with [] => await n (take_task 0 s) | _ => s end
  end.
Definition recv (sched : nat → list nat) (s : Blindbit) :
    waits (Blindbit * (N * result FilterData Error)) :=
  let s := foldl (λ s i, take_task i s) s (sched (reads s)) in
  let s := await (length (in_flight s)) s in
  match chan s with
  | [] => Hangs
  | m :: l =>
      Got (mkBlindbit (in_flight s) l (abort s) (cursor s) (next_to_fetch s) (end_ s) (window s) (buf s)
             (S (reads s)), m)
  end.

Definition set_buf (b : gmap N FilterData) (s : Blindbit) : Blindbit :=
  mkBlindbit (in_flight s) (chan s) (abort s) (cursor s) (next_to_fetch s) (end_ s) (window s) b (reads s).
Definition set_cursor (c : N) (s : Blindbit) : Blindbit :=
  mkBlindbit (in_flight s) (chan s) (abort s) c (next_to_fetch s) (end_ s) (window s) (buf s) (reads s).

(** The loop of [next]; each turn reads one message. *)
Fixpoint wait_filter (fuel : nat) (sched : nat → list nat) (s : Blindbit) :
    waits (Blindbit * result FilterData Error) :=
  match fuel with
  | O => Hangs
  | S fuel =>
      match buf s !! cursor s with
      | Some f => Got (set_buf (delete (cursor s) (buf s)) s, Ok f)
      | None =>
          match recv sched s with
          | Hangs => Hangs
          | Got (s, (height, res)) =>
              if height <? cursor s then wait_filter fuel sched s
              else
                match res with
                | Err er => Got (s, Err er)
                | Ok f =>
                    if height =? cursor s then Got (s, Ok f)
                    else wait_filter fuel sched (set_buf (<[height := f]> (buf s)) s)
                end
          end
      end
  end.

Definition blindbit_next (sched : nat → list nat) (watch : gset OutPoint) (s : Blindbit) :
    waits (Blindbit * result SpendsAt Error) :=
  let s := refill s in
  match wait_filter (S (length (in_flight s) + length (chan s))) sched s with
  | Hangs => Hangs
  | Got (s, Err er) => Got (s, Err er)
  | Got (s, Ok filter) =>
      match (try! blkheight := from_consensus (cursor s) in match_inputs_for blkheight filter watch) with
      | Err er => Got (s, Err er)
      | Ok found =>
          let height := cursor s in
          Got (refill (set_cursor (height + 1) s), Ok (mkSpendsAt height (fd_hash filter) found))
      end
  end.
Definition blindbit_jump_to (to : N) (s : Blindbit) : Blindbit :=
  refill (mkBlindbit (in_flight s) (chan s) (abort s) to (N.max (next_to_fetch s) to) (end_ s) (window s)
            (filter (λ kv, to ≤ kv.1) (buf s)) (reads s)).
End blindbit.

(** ** The sweep finds every spend *)

(** What a scanner promises of a chain up to [e]: it goes through the blocks in order
    and finds in each the watched outpoints, of those in [U], that it spends. *)
Class ScannerLaws (Sc : Type) `{SpendScanner Sc} (U : gset OutPoint) (e : N)
    (hash_at : N → BlockHash) (spent_in : N → OutPoint → bool) := {
  scanner_at : Sc → N → Prop;
  next_spec sc c w : scanner_at sc c → c ≤ e → w ⊆ U →
    ∃ sc', next w sc = Got (sc', Ok (mkSpendsAt c (hash_at c) (filter (λ o, spent_in c o = true) w))) ∧
      scanner_at sc' (c + 1);
  jump_spec sc c to : scanner_at sc c → c ≤ to → scanner_at (jump_to to sc) to
}.

(** What it promises at the least: up to [e] it answers, a block or an error, for the
    heights in order, whatever is watched. *)
Class AnsweringScanner (Sc : Type) `{SpendScanner Sc} (e : N) := {
  answering_at : Sc → N → Prop;
  answers_spec sc c w : answering_at sc c → c ≤ e →
    ∃ sc' r, next w sc = Got (sc', r) ∧ ∀ s, r = Ok s → sp_height s = c ∧ answering_at sc' (c + 1);
  answers_jump sc c to : answering_at sc c → c ≤ to → answering_at (jump_to to sc) to
}.

Lemma remove_all w l :
  watch_ok w →
  watch_ok (foldl remove w l) ∧ outpoints (foldl remove w l) = outpoints w ∖ list_to_set l ∧
  ∀ o, height_of (foldl remove w l) !! o = if decide (o ∈ l) then None else height_of w !! o.
Proof.
  revert w; induction l as [|p l IH]; intros w Hw; cbn [foldl].
  { split_and!; [done| |].
    - simpl. set_solver.
    - intros o. rewrite decide_False; [done|]. apply not_elem_of_nil. }
  destruct (IH (remove w p) (remove_ok w p Hw)) as (Hok & Ho & Hh). split_and!; [done| |].
  - rewrite Ho, remove_outpoints. simpl. set_solver.
  - intros o. rewrite Hh, remove_height by done. repeat case_decide; set_solver.
Qed.

Section finds.
Context `{Build} `{StateCodec} {B : Type} `{PersistenceBackend B}.
Context {CS : Type} `{!Store CS OutPoint SpCoinEntry} `{!StoreLaws CS OutPoint SpCoinEntry}.
Context `{!StoreTotal CS OutPoint SpCoinEntry}.
Context {TS : Type} `{!Store TS Txid SpTxStore.SpTxEntry}.
Context `{HeaderLib} {SH : Type} `{!Store SH N raw_header}.
Context {Sc : Type} `{!SpendScanner Sc}.
Abbreviation Stores := (ScanStores (B:=B) (CS:=CS) (TS:=TS) (SH:=SH)).
Implicit Types st : Stores.
Context (U : gset OutPoint) (e : N) (hash_at : N → BlockHash) (spent_in : N → OutPoint → bool).
Context {Laws : ScannerLaws Sc U e hash_at spent_in}.
Context (He : e < 500000000).
(** An outpoint is spent once. *)
Context (Honce : ∀ h h' o, o ∈ U → spent_in h o = true → spent_in h' o = true → h = h').

Definition confirmed (h : N) (c : SpCoinEntry) : SpCoinEntry :=
  set_status (confirmed_status (hash_at h) (status c)) c.

(** The coins once the blocks from [c0] to below [c] are swept for [W]. *)
Definition swept_to (W : gset OutPoint) (c0 c : N) (cs0 cs : gmap OutPoint SpCoinEntry) : Prop :=
  (∀ o h, o ∈ W → c0 ≤ h < c → spent_in h o = true → cs !! o = confirmed h <$> cs0 !! o) ∧
  (∀ o, (∀ h, c0 ≤ h < c → o ∈ W → spent_in h o = false) → cs !! o = cs0 !! o).

Lemma swept_to_weaken W c0 c c' cs0 cs :
  W ⊆ U → swept_to W c0 c cs0 cs → c ≤ c' →
  (∀ o h, o ∈ W → c ≤ h < c' → spent_in h o = true → ∃ h', c0 ≤ h' < c ∧ spent_in h' o = true) →
  swept_to W c0 c' cs0 cs.
Proof.
  intros HWU [Hs Hn] Hle Hno. split.
  - intros o h Ho Hh Hsp. destruct (decide (h < c)); [apply (Hs o h); [done|lia|done]|].
    destruct (Hno o h Ho ltac:(lia) Hsp) as (h' & Hh' & Hsp').
    assert (h = h') as -> by (by apply (Honce h h' o); [apply HWU| |]). apply (Hs o h'); done.
  - intros o Ho. apply Hn. intros h Hh. apply Ho. lia.
Qed.

Lemma frontier_at_frame h st k :
  h < 500000000 →
  ∃ st', frontier_at h st k = k st' ∧ coins st' = coins st ∧
    ∃ x, last_spend_height (scan_state st') = Some x ∧ h ≤ x.
Proof.
  intros Hh. unfold frontier_at, from_consensus. rewrite (proj2 (N.ltb_lt _ _) Hh).
  eexists. split; [done|]. split.
  - by destruct (save_state_frame (record_spend_frontier h st)) as (-> & _).
  - unfold save_state, record_spend_frontier. cbn [set_scan_state set_tx_store set_coin_store scan_state].
    destruct (persist_state (SpState.persist (advance_spend_frontier h (scan_state st)))) as (_ & -> & _).
    destruct (persist_state (advance_spend_frontier h (scan_state st))) as (_ & -> & _).
    unfold advance_spend_frontier, advances.
    destruct (last_spend_height (scan_state st)) as [x|] eqn:Hx; [destruct (N.ltb_spec x h)|];
      cbn [set_spend last_spend_height]; [by exists h|exists x; split; [done|lia]|by exists h].
Qed.

(** One block. *)
Lemma sweep_block W c0 c w cs0 st :
  W ⊆ U → c0 ≤ c → w ⊆ W → (∀ o, o ∈ W → o ∉ w → ∃ h, c0 ≤ h < c ∧ spent_in h o = true) →
  swept_to W c0 c cs0 (coins st) →
  let found := filter (λ o, spent_in c o = true) w in
  swept_to W c0 (c + 1) cs0
    (coins (if bool_decide (found = ∅) then st else record_inputs (hash_at c) c found st)).
Proof.
  intros HWU Hc Hw Hgone [Hs Hn] found.
  assert (Hget : ∀ o, coins (if bool_decide (found = ∅) then st else record_inputs (hash_at c) c found st) !! o =
    if decide (o ∈ found) then confirmed c <$> coins st !! o else coins st !! o).
  { intros o. case_bool_decide as Hf; [|apply record_inputs_coins].
    rewrite decide_False; [done|]. rewrite Hf. set_solver. }
  assert (Hfound : ∀ o, o ∈ found ↔ spent_in c o = true ∧ o ∈ w) by (intros o; unfold found; by rewrite elem_of_filter).
  split.
  - intros o h Ho Hh Hsp. rewrite Hget. destruct (decide (h = c)) as [->|Hne].
    + assert (Hnot : ∀ h, c0 ≤ h < c → o ∈ W → spent_in h o = false).
      { intros h Hhc _. destruct (spent_in h o) eqn:Hsp'; [|done].
        assert (h = c) by (by apply (Honce _ _ o); [apply HWU| |]). lia. }
      rewrite decide_True; [by rewrite Hn|]. apply Hfound. split; [done|].
      destruct (decide (o ∈ w)) as [|Hnw]; [done|]. destruct (Hgone o Ho Hnw) as (h & Hhc & Hsp').
      by rewrite Hnot in Hsp'.
    + rewrite decide_False; [apply Hs; [done|lia|done]|]. rewrite Hfound. intros [Hsc _].
      apply Hne. by apply (Honce _ _ o); [apply HWU| |].
  - intros o Ho. rewrite Hget. rewrite decide_False.
    + apply Hn. intros h Hh. apply Ho. lia.
    + rewrite Hfound. intros [Hsc Hin]. rewrite (Ho c) in Hsc; [done|lia|by apply Hw].
Qed.

(** The watch set the sweep begins with: no watched coin is spent below its height. *)
Context (w0 : WatchableSet) (c0 : N) (cs0 : gmap OutPoint SpCoinEntry).
Context (Hok0 : watch_ok w0) (HU : outpoints w0 ⊆ U).
Context (Hheight : ∀ o x, height_of w0 !! o = Some x → x < 500000000).
Context (Hspent : ∀ o x h, height_of w0 !! o = Some x → spent_in h o = true → x ≤ h).

Record sweeping (c : N) (w : WatchableSet) (cs : gmap OutPoint SpCoinEntry) : Prop := {
  sg_from : c0 ≤ c;
  sg_ok : watch_ok w;
  sg_sub : outpoints w ⊆ outpoints w0;
  sg_height : ∀ o x, height_of w !! o = Some x → height_of w0 !! o = Some x;
  sg_gone : ∀ o, o ∈ outpoints w0 → o ∉ outpoints w → ∃ h, c0 ≤ h < c ∧ spent_in h o = true;
  sg_swept : swept_to (outpoints w0) c0 c cs0 cs
}.

Lemma sweeping_block c w st :
  sweeping c w (coins st) →
  let found := filter (λ o, spent_in c o = true) (outpoints w) in
  sweeping (c + 1) (foldl remove w (elements found))
    (coins (if bool_decide (found = ∅) then st else record_inputs (hash_at c) c found st)).
Proof.
  intros [Hc Hok Hsub Hh Hgone Hs] found.
  destruct (remove_all w (elements found) Hok) as (Hok' & Ho' & Hh').
  rewrite list_to_set_elements_L in Ho'. split; [lia|done| | | |].
  - rewrite Ho'. set_solver.
  - intros o x. rewrite Hh'. destruct (decide (o ∈ elements found)); [done|apply Hh].
  - intros o Ho. rewrite Ho', elem_of_difference. intros Hno.
    destruct (decide (o ∈ outpoints w)) as [Hin|Hin].
    + destruct (decide (o ∈ found)) as [Hf|Hf]; [|naive_solver].
      unfold found in Hf. rewrite elem_of_filter in Hf. exists c. split; [lia|apply Hf].
    + destruct (Hgone o Ho Hin) as (h & Hhc & Hsp). exists h. split; [lia|done].
  - by apply sweep_block.
Qed.

(** Nothing watched is below [c']: the blocks in between spend nothing of ours. *)
Lemma sweeping_jump c c' w cs :
  sweeping c w cs → c ≤ c' →
  (∀ o, o ∈ outpoints w → ∃ x, height_of w !! o = Some x ∧ c' ≤ x) →
  sweeping c' w cs.
Proof.
  intros [Hc Hok Hsub Hh Hgone Hs] Hle Hlow. split; [lia|done..| |].
  - intros o Ho Hno. destruct (Hgone o Ho Hno) as (h & Hhc & Hsp). exists h. split; [lia|done].
  - eapply swept_to_weaken; [done|done|done|]. intros o h Ho Hhc Hsp.
    destruct (decide (o ∈ outpoints w)) as [Hin|Hin]; [|by apply Hgone].
    destruct (Hlow o Hin) as (x & Hx & Hcx). apply Hh in Hx. pose proof (Hspent o x h Hx Hsp). lia.
Qed.

(** How a sweep without a stop ends. *)
Definition swept_all (s : Swept) : Prop :=
  ∃ st', s = Sweeps st' (Ok Completed) ∧ swept_to (outpoints w0) c0 (e + 1) cs0 (coins st') ∧
    ∃ x, last_spend_height (scan_state st') = Some x ∧ e ≤ x.

Lemma sweep_ends c w st :
  sweeping (N.min c (e + 1)) w (coins st) → e < c ∨ outpoints w = ∅ →
  swept_all (frontier_at e st (λ st, Sweeps st (Ok Completed))).
Proof.
  intros Hsw Hend.
  destruct (frontier_at_frame e st (λ st, Sweeps st (Ok Completed)) He) as (st' & -> & Hcoins & Hx).
  exists st'. split; [done|]. split; [|done]. rewrite Hcoins.
  assert (Hsw' : sweeping (e + 1) w (coins st)); [|by apply (sg_swept _ _ _ Hsw')].
  destruct Hend as [Hlt|Hemp]; [by rewrite N.min_r in Hsw by lia|].
  eapply sweeping_jump; [done|lia|]. intros o. rewrite Hemp. set_solver.
Qed.

Lemma report_ends due h last go st (P : gmap OutPoint SpCoinEntry → Prop) :
  h < 500000000 → P (coins st) → (∀ last st', P (coins st') → swept_all (go last st')) →
  swept_all (report due e h last go st).
Proof.
  intros Hh HP Hgo. unfold report.
  set (st1 := if SPEND_PROGRESS_INTERVAL <=? h - last then record_spend_progress h e st else st).
  assert (Hst1 : coins st1 = coins st) by (subst st1; by case_match).
  destruct due; [|apply Hgo; by rewrite Hst1].
  match goal with |- swept_all (frontier_at _ _ ?k) =>
    destruct (frontier_at_frame h st1 k Hh) as (st2 & -> & Hcoins & _) end.
  apply Hgo. by rewrite Hcoins, Hst1.
Qed.

Lemma skip_gap_ends again sc w c st :
  sweeping c w (coins st) → c ≤ e + 1 → scanner_at sc c →
  (∀ sc' c' st', c ≤ c' → sweeping (N.min c' (e + 1)) w (coins st') → scanner_at sc' c' →
     swept_all (again sc' c' st')) →
  swept_all (skip_gap e again sc w c st).
Proof.
  intros Hsw Hc Hat Hagain. unfold skip_gap. destruct (floor w) as [fl|] eqn:Hfl.
  - destruct (N.ltb_spec c fl) as [Hjump|Hno].
    + destruct (floor_height w fl (sg_ok _ _ _ Hsw) Hfl) as (o & Ho).
      pose proof (Hheight _ _ (sg_height _ _ _ Hsw _ _ Ho)) as Hbound.
      destruct (frontier_at_frame (fl - 1) st (again (jump_to fl sc) fl)) as (st3 & -> & Hcoins & _); [lia|].
      apply Hagain; [lia| |by apply (jump_spec sc c); [done|lia]].
      rewrite Hcoins. eapply sweeping_jump; [done|lia|]. intros o' Ho'.
      pose proof (sg_ok _ _ _ Hsw) as [Hdom _].
      assert (is_Some (height_of w !! o')) as [x Hx] by (apply elem_of_dom; by rewrite Hdom).
      exists x. split; [done|]. pose proof (floor_le w o' x fl (sg_ok _ _ _ Hsw) Hfl Hx). lia.
    + apply Hagain; [lia| |done]. by rewrite N.min_l by lia.
  - apply (sweep_ends c w); [by rewrite N.min_l by lia|right].
    apply floor_None; [apply (sg_ok _ _ _ Hsw)|done].
Qed.

(** The loop, without a stop: fuel for one turn per height is enough. *)
Lemma run_sweep_ends fuel turn k sc w c last st :
  (∀ k, (turn k).1 = false) →
  sweeping (N.min c (e + 1)) w (coins st) → scanner_at sc c → e + 1 - c < N.of_nat fuel →
  swept_all (run_sweep fuel turn e k sc w c last st).
Proof.
  intros Hturn. revert k sc w c last st.
  induction fuel as [|fuel IH]; intros k sc w c last st Hsw Hat Hfuel; [lia|].
  cbn [run_sweep]. destruct (N.ltb_spec e c) as [Hlt|Hge]; [apply (sweep_ends c w); [done|by left]|].
  rewrite Hturn. rewrite N.min_l in Hsw by lia.
  destruct (next_spec sc c (outpoints w) Hat Hge) as (sc' & Hnext & Hat').
  { etransitivity; [apply (sg_sub _ _ _ Hsw)|done]. }
  rewrite Hnext. cbv beta iota. set (found := filter _ (outpoints w)).
  pose proof (sweeping_block c w st Hsw) as Hnew. cbv zeta in Hnew |- *. fold found in Hnew.
  set (w' := foldl remove w (elements found)) in *.
  assert (Hrest : ∀ st', sweeping (c + 1) w' (coins st') →
    swept_all (report (turn k).2 e c last (λ last, skip_gap e (λ scanner cursor,
      run_sweep fuel turn e (S k) scanner w' cursor last) sc' w' (c + 1)) st')).
  { intros st' Hst'. apply (report_ends _ _ _ _ _ (sweeping (c + 1) w')); [lia|done|].
    intros last' st2 Hst2. apply skip_gap_ends; [done|lia|done|].
    intros sc2 c2 st3 Hc2 Hst3 Hat2. apply IH; [done|done|lia]. }
  destruct (bool_decide (found = ∅)); [by apply Hrest|].
  unfold from_consensus. rewrite (proj2 (N.ltb_lt c 500000000)) by lia. by apply Hrest.
Qed.
End finds.

Section pass.
Context `{Build} `{StateCodec} {B : Type} `{PersistenceBackend B}.
Context {CS : Type} `{!Store CS OutPoint SpCoinEntry} `{!StoreLaws CS OutPoint SpCoinEntry}.
Context `{!StoreTotal CS OutPoint SpCoinEntry}.
Context {TS : Type} `{!Store TS Txid SpTxStore.SpTxEntry}.
Context `{HeaderLib} {SH : Type} `{!Store SH N raw_header}.
Context {Sc : Type} `{!SpendScanner Sc}.
Abbreviation Stores := (ScanStores (B:=B) (CS:=CS) (TS:=TS) (SH:=SH)).
Implicit Types st : Stores.

(** The spend pass misses no spend, whatever gaps it jumps. Take a chain in which
    an outpoint is spent once, and not below the block that created it; for a coin
    that is not confirmed, not below the first block left to sweep. With a scanner
    that finds the watched outpoints a block spends, the pass ends; every coin that
    could still be spent and is spent in a block it had to sweep is confirmed as spent
    in that block, no other coin changes, and the spend frontier has reached the end. *)
Lemma process_spends_complete U e hash_at spent_in `{!ScannerLaws Sc U e hash_at spent_in}
    (scanner : N → N → Sc) turn start st
    (He : e < 500000000)
    (Honce : ∀ h h' o, o ∈ U → spent_in h o = true → spent_in h' o = true → h = h')
    (Hat : ∀ c, scanner_at (scanner c e) c)
    (Hturn : ∀ k, (turn k).1 = false)
    (Hcoins : ∀ o c, coins st !! o = Some c → is_watchable c = true → o ∈ U ∧
       let from := default (effective_spend_start st start) (height c) in
       from < 500000000 ∧ ∀ h, spent_in h o = true → from ≤ h) :
  let resume := effective_spend_start st start in
  ∃ st', process_spends scanner turn start e st = Sweeps st' (Ok Completed) ∧
    (∀ o c h, coins st !! o = Some c → is_watchable c = true → resume ≤ h ≤ e →
       spent_in h o = true → coins st' !! o = Some (confirmed hash_at h c)) ∧
    (∀ o, (∀ c h, coins st !! o = Some c → is_watchable c = true → resume ≤ h ≤ e →
       spent_in h o = false) → coins st' !! o = coins st !! o) ∧
    ∃ x, last_spend_height (scan_state st') = Some x ∧ e ≤ x.
Proof.
  intros resume. set (l := watchable resume (coin_store st)). set (w := new l).
  assert (Hl : ∀ o x, (o, x) ∈ l ↔ ∃ c, coins st !! o = Some c ∧ is_watchable c = true ∧
    x = default resume (height c)) by (intros o x; apply SpCoins.elem_of_watchable).
  assert (HW : ∀ o, o ∈ outpoints w ↔ ∃ c, coins st !! o = Some c ∧ is_watchable c = true).
  { intros o. unfold w. rewrite new_outpoints, elem_of_list_to_set, list_elem_of_fmap. split.
    - intros ([o' x] & -> & Hin). apply Hl in Hin as (c & Hc & Hw & _). by exists c.
    - intros (c & Hc & Hw). exists (o, default resume (height c)). split; [done|]. apply Hl. by exists c. }
  assert (Hh : ∀ o x, height_of w !! o = Some x → x < 500000000 ∧ ∀ h, spent_in h o = true → x ≤ h).
  { intros o x Hx. apply new_height, Hl in Hx as (c & Hc & Hw & ->). by apply (Hcoins o c Hc Hw). }
  set (c0 := N.min resume (e + 1)).
  assert (Hok : watch_ok w) by apply new_ok.
  assert (HU : outpoints w ⊆ U).
  { intros o Ho. apply HW in Ho as (c & Hc & Hw). by apply (Hcoins o c). }
  assert (Hstart : sweeping hash_at spent_in w c0 (coins st) c0 w (coins st)).
  { split; [lia|done|done|done|done|]. split; [lia|done]. }
  assert (Hends : swept_all e hash_at spent_in w c0 (coins st) (process_spends scanner turn start e st)).
  { unfold process_spends. fold resume. fold l. fold w.
    destruct (floor w) as [fl|] eqn:Hfl.
    - set (cursor := N.max resume fl).
      assert (Hsw : sweeping hash_at spent_in w c0 (coins st) (N.min cursor (e + 1)) w (coins st)).
      { destruct (N.le_gt_cases fl resume) as [Hle|Hgt]; [by unfold cursor; rewrite N.max_l|].
        apply (sweeping_jump U e _ _ He Honce w c0 _ HU (λ o x h Hx, proj2 (Hh o x Hx) h) c0); [done|lia|].
        intros o Ho. pose proof (wo_dom _ Hok) as Hdom.
        assert (is_Some (height_of w !! o)) as [x Hx] by (apply elem_of_dom; by rewrite Hdom).
        exists x. split; [done|]. pose proof (floor_le w o x fl Hok Hfl Hx). lia. }
      destruct (N.ltb_spec e cursor) as [Hlt|Hge].
      + apply (sweep_ends U e _ _ He Honce w c0 _ Hok HU (λ o x Hx, proj1 (Hh o x Hx))
                 (λ o x h Hx, proj2 (Hh o x Hx) h) cursor w); [done|by left].
      + apply (run_sweep_ends U e _ _ He Honce w c0 _ Hok HU (λ o x Hx, proj1 (Hh o x Hx))
                 (λ o x h Hx, proj2 (Hh o x Hx) h)); [done|done|apply Hat|lia].
    - apply (sweep_ends U e _ _ He Honce w c0 _ Hok HU (λ o x Hx, proj1 (Hh o x Hx))
               (λ o x h Hx, proj2 (Hh o x Hx) h) c0 w); [|right; by apply floor_None].
      by rewrite N.min_l by lia. }
  destruct Hends as (st' & Hrun & [Hs Hn] & Hx). exists st'. split_and!; [done| | |done].
  - intros o c h Hc Hw Hr Hsp. rewrite (Hs o h); [by rewrite Hc|apply HW; by exists c|lia|done].
  - intros o Ho. apply Hn. intros h Hr Hin. apply HW in Hin as (c & Hc & Hw). apply (Ho c h Hc Hw). lia.
Qed.
End pass.

(** ** The scanner of the block oracle keeps the promise *)

#[export] Instance blindbit_scanner `{SpendLib} (sched : nat → list nat) : SpendScanner Blindbit := {|
  next := blindbit_next sched;
  jump_to := blindbit_jump_to
|}.

(** What an honest oracle answers up to [e]: a filter of each block, which matches
    whatever the index of the block lists; and no two outpoints of ours have the same
    hash in a block. *)
Class OracleLaws `{SpendLib} (U : gset OutPoint) (e : N) (hash_at : N → BlockHash)
    (flt : N → FilterData) (idx : N → list (list N)) := {
  or_bound : e < 500000000;
  or_fetch h : h ≤ e → spent_filter h = Ok (flt h);
  or_hash h : h ≤ e → fd_hash (flt h) = hash_at h;
  or_index h : h ≤ e → spent_index h = Ok (idx h);
  or_match h keys : h ≤ e →
    ∃ b, spent_match_any (hash_at h) keys (fd_data (flt h)) = Ok b ∧
      ((∃ k, k ∈ keys ∧ k ∈ idx h) → b = true);
  or_inj h o o' : h ≤ e → o ∈ U → o' ∈ U →
    input_hash (hash_at h) o = input_hash (hash_at h) o' → o = o'
}.

Section oracle.
Context `{SpendLib} (sched : nat → list nat).
Context (U : gset OutPoint) (e : N) (hash_at : N → BlockHash) (flt : N → FilterData).
Context (idx : N → list (list N)) {Oracle : OracleLaws U e hash_at flt idx}.

(** A block spends the outpoints whose hashes its index lists. *)
Definition listed (h : N) (o : OutPoint) : bool := bool_decide (input_hash (hash_at h) o ∈ idx h).

Lemma input_hashes_lookup h w k o :
  h ≤ e → w ⊆ U →
  input_hashes_for (hash_at h) w !! k = Some o ↔ o ∈ w ∧ k = input_hash (hash_at h) o.
Proof.
  intros Hh Hw. unfold input_hashes_for.
  assert (Hgen : ∀ l (m : gmap (list N) OutPoint),
    (∀ o', o' ∈ l → o' ∈ U) →
    (∀ k' o', m !! k' = Some o' → o' ∈ U ∧ k' = input_hash (hash_at h) o') →
    foldl (λ m o, <[input_hash (hash_at h) o := o]> m) m l !! k = Some o ↔
      (o ∈ l ∧ k = input_hash (hash_at h) o) ∨ m !! k = Some o).
  { induction l as [|p l IH]; intros m Hl Hm; cbn [foldl].
    - split; [by right|]. intros [[Ho _]|Hk]; [by apply elem_of_nil in Ho|done].
    - rewrite IH.
      + rewrite lookup_insert_Some, elem_of_cons. split.
        * intros [[Ho Hk]|[[<- <-]|[Hne Hk]]]; [left; naive_solver|left; naive_solver|by right].
        * intros [[[->|Ho] ->]|Hk]; [right; by left|left; by split|].
          right. destruct (decide (input_hash (hash_at h) p = k)) as [Heq|]; [left|right; by split].
          split; [done|]. destruct (Hm _ _ Hk) as [HoU ->].
          by apply (or_inj h); [done|apply Hl; left|done|].
      + intros o' Ho'. apply Hl. by right.
      + intros k' o' Hk'. apply lookup_insert_Some in Hk' as [[<- <-]|[_ Hk']]; [|by apply Hm].
        split; [apply Hl; left|done]. }
  rewrite Hgen.
  - rewrite elem_of_elements, lookup_empty. naive_solver.
  - intros o' Ho'. apply Hw. by apply elem_of_elements.
  - intros k' o' Hk'. by rewrite lookup_empty in Hk'.
Qed.

Lemma match_inputs_listed h w :
  h ≤ e → w ⊆ U → match_inputs_for h (flt h) w = Ok (filter (λ o, listed h o = true) w).
Proof.
  intros Hh Hw. unfold match_inputs_for. rewrite or_hash by done.
  set (m := input_hashes_for (hash_at h) w).
  assert (Hm : ∀ k o, m !! k = Some o ↔ o ∈ w ∧ k = input_hash (hash_at h) o)
    by (intros k o; by apply input_hashes_lookup).
  assert (Hnone : ∀ keys, keys = (map_to_list m).*1 → (∀ k, k ∈ keys → k ∉ idx h) →
    (∅ : gset OutPoint) = filter (λ o, listed h o = true) w).
  { intros keys -> Hno. symmetry. apply set_eq. intros o. rewrite elem_of_filter. unfold listed.
    rewrite bool_decide_eq_true. split; [|set_solver]. intros [Hi Hin]. exfalso.
    apply (Hno (input_hash (hash_at h) o)); [|done]. apply list_elem_of_fmap.
    exists (input_hash (hash_at h) o, o). split; [done|]. apply elem_of_map_to_list. by apply Hm. }
  unfold check_block_inputs. case_bool_decide as Hk; cbn [negb].
  - cbn [rbind]. f_equal. apply (Hnone []); [done|]. intros k Hin. by apply elem_of_nil in Hin.
  - destruct (or_match h (map_to_list m).*1 Hh) as (b & -> & Hb). cbn [rbind]. destruct b.
    + rewrite or_index by done. cbn [rbind]. f_equal. apply set_eq. intros o.
      rewrite elem_of_list_to_set, list_elem_of_omap, elem_of_filter. unfold listed.
      rewrite bool_decide_eq_true. split.
      * intros (k & Hk' & [Hin ->]%Hm). done.
      * intros [Hi Hin]. exists (input_hash (hash_at h) o). split; [done|]. by apply Hm.
    + f_equal. eapply Hnone; [done|]. intros k Hin Hi.
      by specialize (Hb (ex_intro _ k (conj Hin Hi))).
Qed.

(** *** The window *)

(** The heights a worker or the channel still has. *)
Definition pending (s : Blindbit) : list N := in_flight s ++ (chan s).*1.

(** Nothing failed, every message is the filter of its height, and every height from
    [lo] to what was submitted is somewhere. *)
Record fetching (lo : N) (s : Blindbit) : Prop := {
  fe_abort : abort s = false;
  fe_end : end_ s = e;
  fe_window : 0 < window s;
  fe_tasks : ∀ h, h ∈ pending s → h ≤ e;
  fe_chan : ∀ h r, (h, r) ∈ chan s → r = Ok (flt h);
  fe_buf : ∀ h f, buf s !! h = Some f → f = flt h;
  fe_cover : ∀ h, lo ≤ h < next_to_fetch s → h ∈ pending s ∨ is_Some (buf s !! h)
}.
(** What the workers and the channel do not change. *)
Definition same_scan (s s' : Blindbit) : Prop :=
  cursor s' = cursor s ∧ next_to_fetch s' = next_to_fetch s ∧ end_ s' = end_ s ∧
  window s' = window s ∧ buf s' = buf s.

Lemma take_task_ok lo i s :
  fetching lo s →
  fetching lo (take_task i s) ∧ same_scan s (take_task i s) ∧ pending (take_task i s) ≡ₚ pending s ∧
  (chan s ≠ [] → chan (take_task i s) ≠ []) ∧
  (is_Some (in_flight s !! i) → chan (take_task i s) ≠ []).
Proof.
  intros Hs. unfold take_task. destruct (in_flight s !! i) as [h|] eqn:Hi.
  2: { split_and!; [done..|]. by intros []. }
  assert (Hhe : h ≤ e).
  { apply (fe_tasks _ _ Hs). unfold pending. apply elem_of_app. left. by eapply list_elem_of_lookup_2. }
  unfold finish. cbn [abort]. rewrite (fe_abort _ _ Hs). unfold from_consensus.
  rewrite (proj2 (N.ltb_lt h 500000000)) by (pose proof or_bound; lia). cbn [rbind].
  rewrite or_fetch by done.
  set (s' := mkBlindbit _ _ _ _ _ _ _ _ _).
  assert (Hp : pending s' ≡ₚ pending s).
  { unfold pending. subst s'. cbn [in_flight chan]. rewrite fmap_app. cbn.
    rewrite (delete_Permutation (in_flight s) i h Hi) at 2. simpl. rewrite app_assoc.
    rewrite (Permutation_app_comm (delete i (in_flight s) ++ (chan s).*1) [h]). done. }
  split; [split; [done|apply (fe_end _ _ Hs)|apply (fe_window _ _ Hs)| | |apply (fe_buf _ _ Hs)|]|].
  - intros k. rewrite Hp. apply (fe_tasks _ _ Hs).
  - intros k r Hk. apply elem_of_app in Hk as [Hk|Hk]; [by apply (fe_chan _ _ Hs)|].
    apply list_elem_of_singleton in Hk. by injection Hk as -> ->.
  - intros k Hk. rewrite Hp. by apply (fe_cover _ _ Hs).
  - split_and!; [done|done| |]; intros _; subst s'; cbn [chan]; by destruct (chan s).
Qed.

Lemma fold_tasks_ok lo l s :
  fetching lo s →
  fetching lo (foldl (λ s i, take_task i s) s l) ∧ same_scan s (foldl (λ s i, take_task i s) s l) ∧
  pending (foldl (λ s i, take_task i s) s l) ≡ₚ pending s.
Proof.
  revert s; induction l as [|i l IH]; intros s Hs; cbn [foldl]; [done|].
  destruct (take_task_ok lo i s Hs) as (H1 & (E1 & E2 & E3 & E4 & E5) & P1 & _).
  destruct (IH _ H1) as (H2 & (F1 & F2 & F3 & F4 & F5) & P2).
  split; [done|]. split; [|by rewrite P2]. unfold same_scan. split_and!; congruence.
Qed.

Lemma await_ok lo s :
  fetching lo s → pending s ≠ [] →
  let s' := await (length (in_flight s)) s in
  fetching lo s' ∧ same_scan s s' ∧ pending s' ≡ₚ pending s ∧ chan s' ≠ [].
Proof.
  intros Hs Hp. cbv zeta. destruct (in_flight s) as [|h l] eqn:Hf.
  - cbn [length await]. split_and!; [done..|]. unfold pending in Hp. rewrite Hf in Hp.
    intros Hc. by rewrite Hc in Hp.
  - cbn [length await]. destruct (chan s) as [|m c] eqn:Hc.
    + destruct (take_task_ok lo 0 s Hs) as (H1 & E1 & P1 & _ & Hne).
      rewrite Hf in Hne. specialize (Hne ltac:(by eexists)).
      assert (Hawait : ∀ n, await n (take_task 0 s) = take_task 0 s)
        by (intros [|n]; [done|]; cbn [await]; by destruct (chan (take_task 0 s))).
      by rewrite Hawait.
    + split_and!; [done..|]. by rewrite Hc.
Qed.

(** Reading the channel: one of the pending heights, with its filter. *)
Lemma recv_ok lo s :
  fetching lo s → pending s ≠ [] →
  ∃ s' h, recv sched s = Got (s', (h, Ok (flt h))) ∧ same_scan s s' ∧
    pending s ≡ₚ h :: pending s' ∧ abort s' = false ∧
    (∀ k r, (k, r) ∈ chan s' → r = Ok (flt k)).
Proof.
  intros Hs Hp. unfold recv.
  destruct (fold_tasks_ok lo (sched (reads s)) s Hs) as (H1 & (E1 & E2 & E3 & E4 & E5) & P1).
  set (s1 := foldl _ s _) in *.
  assert (Hp1 : pending s1 ≠ []).
  { intros Hz. rewrite Hz in P1. apply Permutation_nil in P1. done. }
  destruct (await_ok lo s1 H1 Hp1) as (H2 & (F1 & F2 & F3 & F4 & F5) & P2 & Hne).
  set (s2 := await _ s1) in *. destruct (chan s2) as [|[h r] l] eqn:Hc; [done|].
  assert (r = Ok (flt h)) as -> by (apply (fe_chan _ _ H2); rewrite Hc; left).
  eexists _, h. split; [done|]. cbn [abort chan]. split_and!.
  - unfold same_scan. cbn. split_and!; congruence.
  - rewrite <-P1, <-P2. unfold pending. rewrite Hc. cbn. by rewrite Permutation_middle.
  - apply (fe_abort _ _ H2).
  - intros k x Hk. apply (fe_chan _ _ H2). rewrite Hc. by right.
Qed.

(** After a message is read its height is the only one that may be missing. *)
Lemma recv_fetching lo lo' s s' h :
  fetching lo s → same_scan s s' → pending s ≡ₚ h :: pending s' → abort s' = false →
  (∀ k r, (k, r) ∈ chan s' → r = Ok (flt k)) → lo ≤ lo' →
  (lo' ≤ h → is_Some (buf s' !! h) ∨ h < lo') → fetching lo' s'.
Proof.
  intros Hs (E1 & E2 & E3 & E4 & E5) Hp Ha Hc Hlo Hh. split.
  - done.
  - rewrite E3. apply (fe_end _ _ Hs).
  - rewrite E4. apply (fe_window _ _ Hs).
  - intros k Hk. apply (fe_tasks _ _ Hs). rewrite Hp. by right.
  - done.
  - rewrite E5. apply (fe_buf _ _ Hs).
  - intros k Hk. rewrite E2 in Hk. destruct (fe_cover _ _ Hs k ltac:(lia)) as [Hin|Hb].
    + rewrite Hp in Hin. apply elem_of_cons in Hin as [->|Hin]; [|by left].
      destruct Hh as [Hb|]; [lia|by right|lia].
    + right. by rewrite E5.
Qed.
Lemma fetching_buf lo lo' b s :
  fetching lo s → (∀ h f, b !! h = Some f → f = flt h) →
  (∀ h, lo' ≤ h < next_to_fetch s → h ∈ pending s ∨ is_Some (b !! h)) → fetching lo' (set_buf b s).
Proof. intros [] Hb Hc. by split. Qed.

Lemma wait_filter_ok fuel s :
  fetching (cursor s) s → cursor s < next_to_fetch s → (length (pending s) < fuel)%nat →
  ∃ s', wait_filter fuel sched s = Got (s', Ok (flt (cursor s))) ∧
    fetching (cursor s + 1) s' ∧ cursor s' = cursor s.
Proof.
  revert s; induction fuel as [|fuel IH]; intros s Hs Hnext Hfuel; [lia|]. cbn [wait_filter].
  destruct (buf s !! cursor s) as [f|] eqn:Hb.
  { rewrite (fe_buf _ _ Hs _ _ Hb). eexists. split; [done|]. split; [|done].
    apply (fetching_buf (cursor s)); [done| |].
    - intros h f' Hh. apply lookup_delete_Some in Hh as [_ Hh]. by apply (fe_buf _ _ Hs).
    - intros h Hh. rewrite lookup_delete_ne by lia. apply (fe_cover _ _ Hs). lia. }
  assert (Hin : cursor s ∈ pending s).
  { destruct (fe_cover _ _ Hs (cursor s)) as [|[x Hx]]; [lia|done|congruence]. }
  assert (Hp : pending s ≠ []) by (intros Hz; rewrite Hz in Hin; by apply elem_of_nil in Hin).
  destruct (recv_ok (cursor s) s Hs Hp) as (s1 & h & -> & Hsame & Hperm & Ha & Hc).
  pose proof Hsame as (E1 & E2 & E3 & E4 & E5).
  assert (Hlen : (length (pending s1) < fuel)%nat) by (rewrite Hperm in Hfuel; simpl in Hfuel; lia).
  rewrite E1. destruct (N.ltb_spec h (cursor s)) as [Hlt|Hge].
  - rewrite <-E1. apply IH; [|by rewrite E1, E2|done].
    rewrite E1. by apply (recv_fetching (cursor s) _ s s1 h); [..|lia].
  - destruct (N.eqb_spec h (cursor s)) as [->|Hne].
    + exists s1. split; [done|]. split; [|done].
      by apply (recv_fetching (cursor s) _ s s1 (cursor s)); [..|lia|lia].
    + assert (Hs1 : fetching (cursor s) (set_buf (<[h := flt h]> (buf s1)) s1)).
      { assert (Hf : fetching (h + 1) s1) by (by apply (recv_fetching (cursor s) _ s s1 h); [..|lia|lia]).
        apply (fetching_buf (h + 1)); [done| |].
        - intros k f Hk. apply lookup_insert_Some in Hk as [[<- <-]|[_ Hk]]; [done|by apply (fe_buf _ _ Hf)].
        - intros k Hk. destruct (decide (k = h)) as [->|Hkh]; [right; rewrite lookup_insert_eq; by eexists|].
          rewrite lookup_insert_ne by done. rewrite E2 in Hk. rewrite E5.
          destruct (fe_cover _ _ Hs k) as [Hkin|Hkb]; [lia| |by right].
          rewrite Hperm in Hkin. apply elem_of_cons in Hkin as [|]; [done|by left]. }
      destruct (IH (set_buf (<[h := flt h]> (buf s1)) s1)) as (s2 & Hrun & H2 & E6).
      * cbn [set_buf cursor]. by rewrite E1.
      * cbn [set_buf cursor next_to_fetch]. by rewrite E1, E2.
      * done.
      * cbn [set_buf cursor] in Hrun, H2, E6. rewrite E1 in Hrun, H2, E6. by exists s2.
Qed.

(** Submitting the window keeps all that, and covers the cursor. *)
Lemma refill_ok s :
  fetching (cursor s) s →
  fetching (cursor s) (refill s) ∧ cursor (refill s) = cursor s ∧
  (cursor s ≤ e → cursor s < next_to_fetch (refill s)).
Proof.
  intros Hs. unfold refill. rewrite (fe_abort _ _ Hs), (fe_end _ _ Hs).
  assert (Hmax : u32_max = 4294967295) by reflexivity. unfold sat_add. rewrite Hmax.
  pose proof or_bound as Hb. pose proof (fe_window _ _ Hs) as Hw.
  set (limit := N.min _ _).
  assert (Hlim : limit ≤ e + 1 ∧ (cursor s ≤ e → cursor s < limit)) by (subst limit; lia).
  clearbody limit. split_and!; [|done|cbn [next_to_fetch]; lia].
  split; cbn [abort end_ window buf next_to_fetch].
  - done.
  - done.
  - done.
  - intros h Hh. unfold pending in Hh. cbn [in_flight chan] in Hh.
    rewrite !elem_of_app, elem_of_nseq in Hh.
    destruct Hh as [[Hh|Hh]|Hh]; [apply (fe_tasks _ _ Hs); unfold pending; rewrite elem_of_app; by left
      |lia|apply (fe_tasks _ _ Hs); unfold pending; rewrite elem_of_app; by right].
  - apply (fe_chan _ _ Hs).
  - apply (fe_buf _ _ Hs).
  - intros h Hh. unfold pending. cbn [in_flight chan]. rewrite !elem_of_app, elem_of_nseq.
    destruct (decide (h < next_to_fetch s)) as [Hlt|]; [|left; left; right; lia].
    destruct (fe_cover _ _ Hs h) as [Hin|]; [lia| |by right].
    unfold pending in Hin. rewrite elem_of_app in Hin. tauto.
Qed.

(** The pool scanner is an in-order scanner. Whatever order the workers finish in,
    [next] returns, with the spends of the block at the cursor among the watched
    outpoints, and moves the cursor by one; a jump moves it to its target. So the
    window of filters fetched ahead is invisible to the sweep. *)
Definition oracle_at (s : Blindbit) (c : N) : Prop := cursor s = c ∧ fetching c s.

Lemma blindbit_next_ok s c w :
  oracle_at s c → c ≤ e → w ⊆ U →
  ∃ s', blindbit_next sched w s =
      Got (s', Ok (mkSpendsAt c (hash_at c) (filter (λ o, listed c o = true) w))) ∧
    oracle_at s' (c + 1).
Proof.
  intros [Hcur Hs] Hc Hw. subst c. unfold blindbit_next.
  destruct (refill_ok s Hs) as (H1 & Hcur & Hnext). set (s1 := refill s) in *.
  rewrite <-Hcur in H1.
  destruct (wait_filter_ok (S (length (in_flight s1) + length (chan s1))) s1 H1) as (s2 & -> & H2 & E2).
  + rewrite Hcur. by apply Hnext.
  + unfold pending. rewrite length_app, length_fmap. lia.
  + rewrite E2, Hcur. unfold from_consensus. pose proof or_bound.
    rewrite (proj2 (N.ltb_lt (cursor s) 500000000)) by lia. cbn [rbind].
    rewrite match_inputs_listed by done. rewrite or_hash by done. eexists. split; [done|].
    rewrite Hcur in H2.
    assert (H3 : fetching (cursor s + 1) (set_cursor (cursor s + 1) s2)) by (by destruct H2; split).
    by destruct (refill_ok (set_cursor (cursor s + 1) s2) H3) as (H4 & E4 & _).
Qed.
Lemma blindbit_jump_ok s c to : oracle_at s c → c ≤ to → oracle_at (blindbit_jump_to to s) to.
Proof.
  intros [Hcur Hs] Hle. subst c. unfold blindbit_jump_to.
  match goal with |- oracle_at (refill ?x) _ => assert (Hx : fetching (cursor x) x) end.
  + destruct Hs as [F1 F2 F3 F4 F5 F6 F7].
    split; cbn [abort end_ window chan buf next_to_fetch cursor]; [done..| |].
    * intros h f Hf. apply map_lookup_filter_Some in Hf as [Hf _]. by apply F6.
    * intros h Hh. unfold pending. cbn [in_flight chan].
      destruct (F7 h) as [Hin|[f Hf]]; [lia|by left|right].
      exists f. apply map_lookup_filter_Some. split; [done|]. cbn. lia.
  + by destruct (refill_ok _ Hx) as (H4 & E4 & _).
Qed.
Lemma blindbit_answers s c w :
  oracle_at s c → c ≤ e →
  ∃ s' r, blindbit_next sched w s = Got (s', r) ∧ ∀ f, r = Ok f → sp_height f = c ∧ oracle_at s' (c + 1).
Proof.
  intros [Hcur Hs] Hc. subst c. unfold blindbit_next.
  destruct (refill_ok s Hs) as (H1 & Hcur & Hnext). set (s1 := refill s) in *.
  rewrite <-Hcur in H1.
  destruct (wait_filter_ok (S (length (in_flight s1) + length (chan s1))) s1 H1) as (s2 & -> & H2 & E2).
  + rewrite Hcur. by apply Hnext.
  + unfold pending. rewrite length_app, length_fmap. lia.
  + destruct (try! blkheight := from_consensus (cursor s2) in match_inputs_for blkheight (flt (cursor s1)) w) as [found|er].
    2: { eexists _, _. split; [reflexivity|]. done. }
    eexists _, _. split; [reflexivity|]. intros f [= <-]. cbn [sp_height]. rewrite E2, Hcur. split; [done|].
    rewrite Hcur in H2.
    assert (H3 : fetching (cursor s + 1) (set_cursor (cursor s + 1) s2)) by (by destruct H2; split).
    by destruct (refill_ok (set_cursor (cursor s + 1) s2) H3) as (H4 & E4 & _).
Qed.
Definition blindbit_answering : AnsweringScanner Blindbit (H:=blindbit_scanner sched) e :=
  Build_AnsweringScanner Blindbit (blindbit_scanner sched) e oracle_at blindbit_answers blindbit_jump_ok.
#[export] Instance blindbit_laws :
  ScannerLaws Blindbit (H:=blindbit_scanner sched) U e hash_at listed :=
  Build_ScannerLaws Blindbit (blindbit_scanner sched) U e hash_at listed oracle_at
    blindbit_next_ok blindbit_jump_ok.
End oracle.

Section oracle_pass.
Context `{Build} `{StateCodec} {B : Type} `{PersistenceBackend B}.
Context {CS : Type} `{!Store CS OutPoint SpCoinEntry} `{!StoreLaws CS OutPoint SpCoinEntry}.
Context `{!StoreTotal CS OutPoint SpCoinEntry}.
Context {TS : Type} `{!Store TS Txid SpTxStore.SpTxEntry}.
Context `{HeaderLib} {SH : Type} `{!Store SH N raw_header} `{SpendLib}.
Abbreviation Stores := (ScanStores (B:=B) (CS:=CS) (TS:=TS) (SH:=SH)).
Implicit Types st : Stores.

Lemma blindbit_new_at U e hash_at flt idx `{!OracleLaws U e hash_at flt idx} sched win c :
  0 < win →
  scanner_at (ScannerLaws:=blindbit_laws sched U e hash_at flt idx) (blindbit_new win c e) c.
Proof.
  intros Hw. cbn [scanner_at blindbit_laws]. unfold oracle_at, blindbit_new.
  assert (Hs : fetching e flt c (mkBlindbit [] [] false c c e win ∅ 0)).
  { split; cbn [abort end_ window chan buf next_to_fetch]; [done..| | | |].
    - intros h Hh. by apply elem_of_nil in Hh.
    - intros h r Hh. by apply elem_of_nil in Hh.
    - done.
    - lia. }
  destruct (refill_ok U e hash_at flt idx (mkBlindbit [] [] false c c e win ∅ 0) Hs) as (H4 & E4 & _).
  split; [apply E4|apply H4].
Qed.

(** C24. The spend pass against an honest oracle misses no spend. The filters are
    fetched by a pool that finishes them in any order, in a window ahead of the sweep;
    gaps with no watched coin are jumped. If an outpoint of the account is spent at
    most once, and not below the block that created it (not below the first unswept
    block, for a coin that is not confirmed), the pass ends: each coin that could
    still be spent, and that a block from the resume height to [e] spends, is confirmed
    as spent in that block; no other coin changes; the spend frontier has reached
    [e]. *)
Theorem spend_pass_complete U e hash_at flt idx `{!OracleLaws U e hash_at flt idx}
    (sched : nat → list nat) win turn start st
    (Hwindow : 0 < win)
    (Honce : ∀ h h' o, o ∈ U → listed hash_at idx h o = true → listed hash_at idx h' o = true → h = h')
    (Hturn : ∀ k, (turn k).1 = false)
    (Hcoins : ∀ o c, coins st !! o = Some c → is_watchable c = true → o ∈ U ∧
       let from := default (effective_spend_start st start) (height c) in
       from < 500000000 ∧ ∀ h, listed hash_at idx h o = true → from ≤ h) :
  let resume := effective_spend_start st start in
  ∃ st', process_spends (SpendScanner0:=blindbit_scanner sched) (blindbit_new win) turn start e st
           = Sweeps st' (Ok Completed) ∧
    (∀ o c h, coins st !! o = Some c → is_watchable c = true → resume ≤ h ≤ e →
       listed hash_at idx h o = true → coins st' !! o = Some (confirmed hash_at h c)) ∧
    (∀ o, (∀ c h, coins st !! o = Some c → is_watchable c = true → resume ≤ h ≤ e →
       listed hash_at idx h o = false) → coins st' !! o = coins st !! o) ∧
    ∃ x, last_spend_height (scan_state st') = Some x ∧ e ≤ x.
Proof.
  apply (process_spends_complete U e hash_at (listed hash_at idx)
           (ScannerLaws0:=blindbit_laws sched U e hash_at flt idx)); [apply or_bound|done| |done|done].
  intros c. by apply blindbit_new_at.
Qed.
End oracle_pass.

(** *** Witnesses *)
Module Witness.
Import Persist.Witness SpState.Witness SpScan.Witness.
Import HeaderValidator.Sample.

(** The hash of an input is its own bytes; block 105 spends [op7], block 230 [op1]. *)
Definition key (h : N) (o : OutPoint) : list N :=
  take 8 ([op_txid o] ++ u32_to_le_bytes (op_vout o) ++ [hash_of h]).
Definition idx (h : N) : list (list N) :=
  if h =? 105 then [[1; 2; 3]; key 105 op7] else if h =? 230 then [key 230 op1] else [].
Definition flt (h : N) : FilterData := mkFilterData (hash_of h) (concat (idx h)).
Definition oracle (fetch : N → result FilterData Error) : SpendLib := {|
  sha256 := λ b, b;
  hash_bytes := λ n, [n];
  spent_match_any := λ _ _ data, Ok (negb (bool_decide (data = [])));
  spent_filter := fetch;
  spent_index := λ h, Ok (idx h)
|}.
#[export] Instance honest : SpendLib := oracle (λ h, Ok (flt h)).

Definition ours : gset OutPoint := {[op1; op7]}.
#[export] Instance honest_laws : OracleLaws ours 240 hash_of flt idx.
Proof.
  split; [done|done|done|done| |].
  - intros h keys _. eexists. split; [done|]. intros (k & _ & Hk). unfold flt, idx in *.
    cbn [fd_data]. destruct (h =? 105); [done|]. destruct (h =? 230); [done|]. by apply elem_of_nil in Hk.
  - intros h o o' _ Ho Ho'. unfold ours in *. rewrite !elem_of_union, !elem_of_singleton in *.
    destruct Ho as [->| ->], Ho' as [->| ->]; done || (unfold input_hash; cbn; congruence).
Qed.

(** [op7] of block 101; [op1] of block 200, spent by an unconfirmed transaction of
    ours; [op9], spent in a block. *)
Definition coin7 : OwnedOutput := out7.
Definition coin1 : OwnedOutput := mkOwnedOutput (Some 200) [2] 800 [81; 32; 1] None (SpSpent 33 None).
Definition coin9 : OwnedOutput := mkOwnedOutput (Some 90) [3] 70 [81; 32; 9] None (SpMined 1095).
Definition sst0 : SpScan.Witness.Stores :=
  set_coin_store (SpCoinStore.insert op1 coin1 (SpCoinStore.insert op7 coin7 (SpCoinStore.insert op9 coin9 cs0)))
    wst0.
Definition sched (k : nat) : list nat := match k with 0%nat => [2; 0; 1]%nat | 5%nat => [3]%nat | _ => [] end.
Definition calm (k : nat) : bool * bool := (false, bool_decide (k = 2%nat)).

Lemma spend_pass_complete_witness :
  ∃ st', process_spends (SpendScanner0:=blindbit_scanner sched) (blindbit_new 8) calm 101 240 sst0
           = Sweeps st' (Ok Completed) ∧
    coins st' !! op7 = Some (SpCoinStore.new op7 (set_spend_status (SpMined 1105) coin7)) ∧
    coins st' !! op1 = Some (SpCoinStore.new op1 (set_spend_status (SpSpent 33 (Some 1230)) coin1)) ∧
    coins st' !! op9 = Some (SpCoinStore.new op9 coin9).
Proof.
  assert (Hitems : bt_items (coins sst0) = [(op1, SpCoinStore.new op1 coin1); (op7, SpCoinStore.new op7 coin7); (op9, SpCoinStore.new op9 coin9)])
    by (vm_compute; reflexivity).
  assert (Hget : ∀ o c, coins sst0 !! o = Some c ↔ (o, c) = (op1, SpCoinStore.new op1 coin1) ∨
    (o, c) = (op7, SpCoinStore.new op7 coin7) ∨ (o, c) = (op9, SpCoinStore.new op9 coin9)).
  { intros o c. rewrite <-elem_of_bt_items, Hitems, !elem_of_cons, elem_of_nil. tauto. }
  assert (Hlist : ∀ h o, listed hash_of idx h o = true → h = 105 ∧ o = op7 ∨ h = 230 ∧ o = op1 ∨ o ∉ ours).
  { intros h o. unfold listed. rewrite bool_decide_eq_true. intros Hin.
    destruct (decide (o ∈ ours)) as [Ho|]; [|by right; right]. unfold ours in Ho. unfold idx in Hin.
    rewrite elem_of_union, !elem_of_singleton in Ho.
    destruct (N.eqb_spec h 105) as [->|]; [|destruct (N.eqb_spec h 230) as [->|]]; destruct Ho as [->| ->];
      try (by apply elem_of_nil in Hin); [|by left|by right; left|]; vm_compute in Hin;
      repeat (apply elem_of_cons in Hin as [Hin|Hin]; [done|]); by apply elem_of_nil in Hin. }
  assert (Hres : effective_spend_start sst0 101 = 101) by (vm_compute; reflexivity).
  assert (Hl7 : listed hash_of idx 105 op7 = true) by (vm_compute; reflexivity).
  assert (Hl1 : listed hash_of idx 230 op1 = true) by (vm_compute; reflexivity).
  assert (Hin1 : op1 ∈ ours ∧ op7 ∈ ours) by (split; apply (bool_decide_unpack _); by vm_compute).
  destruct (spend_pass_complete ours 240 hash_of flt idx sched 8 calm 101 sst0) as (st' & Hrun & Hs & Hn & _).
  - done.
  - intros h h' o Ho H1 H2. apply Hlist in H1, H2. naive_solver.
  - done.
  - intros o c Hc Hw. apply Hget in Hc as [[= -> ->]|[[= -> ->]|[= -> ->]]]; [| |done];
      (split; [apply Hin1|]).
    + change (200 < 500000000 ∧ ∀ h, listed hash_of idx h op1 = true → 200 ≤ h). split; [done|].
      intros h [[_ [=]]|[[-> _]|Hno]]%Hlist; [done|]. by destruct Hno.
    + change (101 < 500000000 ∧ ∀ h, listed hash_of idx h op7 = true → 101 ≤ h). split; [done|].
      intros h [[-> _]|[[_ [=]]|Hno]]%Hlist; [done|]. by destruct Hno.
  - exists st'. split; [exact Hrun|]. split_and!.
    + rewrite (Hs op7 (SpCoinStore.new op7 coin7) 105);
        [reflexivity|apply Hget; tauto|reflexivity|rewrite Hres; by split|exact Hl7].
    + rewrite (Hs op1 (SpCoinStore.new op1 coin1) 230);
        [reflexivity|apply Hget; tauto|reflexivity|rewrite Hres; by split|exact Hl1].
    + rewrite (Hn op9); [apply Hget; tauto|]. intros c h Hc Hw. apply Hget in Hc.
      destruct Hc as [[= ? ->]|[[= ? ->]|[= ->]]]; done.
Defined.

(** A failed prefetch can hang the scan. The pass finds the spend of [op7] in block
    105 and jumps to 200, while filters from 106 on are still being fetched; one of
    these, which nobody needs any more, fails. The failure aborts the pool, and the
    scanner throws its message away as stale, so no filter of block 200 is ever sent:
    the pass waits for ever, and looks at the stop flag only between blocks. *)
Example stale_failure_hangs :
  process_spends (SpendScanner0:=@blindbit_scanner
      (oracle (λ h, if h =? 110 then Err Backend else Ok (flt h))) (λ _, []))
    (blindbit_new 8) (λ _, (false, false)) 101 240 sst0 = SweepHangs.
Proof. vm_compute. reflexivity. Qed.

(** A rescan that is stopped in its spend pass is not taken up again. The spend
    frontier only moves forward: an explicit start below it makes the pass begin
    there, but a stop leaves the frontier where it was, and the next scan resumes above
    it. A coin the rescan found in block 101 stays unspent, though block 105 spends
    it. *)
Definition swept149 : SpScan.Witness.Stores :=
  set_scan_state (advance_spend_frontier 149 (adv 149 1149 (SpState.with_backend 100 ∅))) sst0.
Example stopped_resweep_is_lost :
  match process_spends (SpendScanner0:=blindbit_scanner sched) (blindbit_new 8)
          (λ k, (bool_decide (k = 2%nat), false)) 101 149 swept149 with
  | Sweeps st1 (Ok o) =>
      o = Interrupted (Some 149) (Some 149) ∧
      match next_scan_start (scan_state st1) with
      | Ret start =>
          start = 150 ∧
          match process_spends (SpendScanner0:=blindbit_scanner sched) (blindbit_new 8) calm start 240 st1 with
          | Sweeps st2 (Ok o) => o = Completed ∧ coins st2 !! op7 = Some (SpCoinStore.new op7 coin7)
          | _ => False
          end
      | _ => False
      end
  | _ => False
  end.
Proof. vm_compute. split_and!; reflexivity. Qed.
End Witness.
End SpSweep.
