(* ===== verification/SpCurve.v ===== *)
(** * The elliptic curve of silent payments

    What the kit uses of the [secp256k1], [bitcoin_hashes], [hex] and [bimap] crates,
    as parameters with their documented behaviour. The curve is a cyclic group of
    prime order: [dl] is the discrete logarithm of a point, which nobody computes but
    every point has, so that two points are equal when their logarithms are. *)
From Stdlib Require Import Lia ZArith Znumtheory Morphisms Setoid.
From stdpp Require Import base countable strings gmap sets list.
From S2P Require Import Prelude.

Inductive Parity := Even | Odd.
#[export] Instance Parity_eqdec : EqDecision Parity.
Proof. solve_decision. Defined.

(** Keys, points and scalars; a [None] is an error of the crate. *)
Class Curve := {
  PublicKey : Type;
  SecretKey : Type;
  Scalar : Type;
  XOnlyPublicKey : Type;
  PublicKey_eqdec :: EqDecision PublicKey;
  PublicKey_countable :: Countable PublicKey;
  Scalar_eqdec :: EqDecision Scalar;
  Scalar_countable :: Countable Scalar;
  XOnlyPublicKey_eqdec :: EqDecision XOnlyPublicKey;
  XOnlyPublicKey_countable :: Countable XOnlyPublicKey;
  sk_from_slice : list N → option SecretKey;
  secret_bytes : SecretKey → list N;
  public_key : SecretKey → PublicKey;
  sk_negate : SecretKey → SecretKey;
  sk_add_tweak : SecretKey → Scalar → option SecretKey;
  sk_mul_tweak : SecretKey → Scalar → option SecretKey;
  scalar_of_sk : SecretKey → Scalar;              (* Scalar::from *)
  scalar_from_be_bytes : list N → option Scalar;
  to_be_bytes : Scalar → list N;
  pk_from_slice : list N → option PublicKey;
  pk_serialize : PublicKey → list N;
  combine : PublicKey → PublicKey → option PublicKey;
  combine_keys : list PublicKey → option PublicKey;
  pk_negate : PublicKey → PublicKey;
  add_exp_tweak : PublicKey → Scalar → option PublicKey;
  pk_mul_tweak : PublicKey → Scalar → option PublicKey;
  x_only_public_key : PublicKey → XOnlyPublicKey * Parity;
  from_x_only : XOnlyPublicKey → Parity → PublicKey; (* XOnlyPublicKey::public_key *)
  xonly_from_slice : list N → option XOnlyPublicKey;
  xonly_serialize : XOnlyPublicKey → list N;
  shared_secret_point : PublicKey → SecretKey → list N;
  (** A BIP340 hash under a tag. *)
  tagged_hash : string → list N → list N;
  hex_decode : string → option (list N)
}.

(** Congruence modulo the order of the group. *)
Definition cong (q a b : Z) : Prop := (q | a - b)%Z.

Class CurveLaws `{Curve} := {
  order : Z;
  order_pos : (2 < order)%Z;
  sk : SecretKey → Z;
  sc : Scalar → Z;
  dl : PublicKey → Z;
  sk_range k : (0 < sk k < order)%Z;
  sc_range t : (0 ≤ sc t < order)%Z;
  dl_range p : (0 < dl p < order)%Z;
  sc_inj t t' : sc t = sc t' → t = t';
  dl_inj p p' : dl p = dl p' → p = p';
  sk_of_scalar t :
    match sk_from_slice (to_be_bytes t) with Some k => sk k = sc t | None => sc t = 0%Z end;
  scalar_bytes t : scalar_from_be_bytes (to_be_bytes t) = Some t;
  sc_of_sk k : sc (scalar_of_sk k) = sk k;
  dl_public_key k : dl (public_key k) = sk k;
  sk_negate_law k : sk (sk_negate k) = (order - sk k)%Z;
  sk_add_law k t :
    match sk_add_tweak k t with
    | Some k' => cong order (sk k') (sk k + sc t)
    | None => cong order (sk k + sc t) 0
    end;
  sk_mul_law k t :
    match sk_mul_tweak k t with
    | Some k' => cong order (sk k') (sk k * sc t)
    | None => cong order (sk k * sc t) 0
    end;
  combine_law p p' :
    match combine p p' with
    | Some r => cong order (dl r) (dl p + dl p')
    | None => cong order (dl p + dl p') 0
    end;
  combine_keys_law l :
    match combine_keys l with
    | Some r => l ≠ [] ∧ cong order (dl r) (foldr Z.add 0%Z (dl <$> l))
    | None => l = [] ∨ cong order (foldr Z.add 0%Z (dl <$> l)) 0
    end;
  pk_negate_law p : dl (pk_negate p) = (order - dl p)%Z;
  add_exp_law p t :
    match add_exp_tweak p t with
    | Some r => cong order (dl r) (dl p + sc t)
    | None => cong order (dl p + sc t) 0
    end;
  pk_mul_law p t :
    match pk_mul_tweak p t with
    | Some r => cong order (dl r) (dl p * sc t)
    | None => cong order (dl p * sc t) 0
    end;
  x_only_point p : from_x_only (x_only_public_key p).1 (x_only_public_key p).2 = p;
  point_x_only x par : x_only_public_key (from_x_only x par) = (x, par);
  dl_opposite x : cong order (dl (from_x_only x Even) + dl (from_x_only x Odd)) 0;
  xonly_bytes x : length (xonly_serialize x) = 32%nat ∧ xonly_from_slice (xonly_serialize x) = Some x;
  pk_bytes p : length (pk_serialize p) = 33%nat ∧ pk_from_slice (pk_serialize p) = Some p;
  shared_secret_law p k :
    ∃ s, pk_from_slice (4 :: shared_secret_point p k) = Some s ∧ cong order (dl s) (dl p * sk k)
}.

(** ** Congruences *)

#[export] Instance cong_equiv q : Equivalence (cong q).
Proof.
  split; unfold cong.
  - intros a. exists 0%Z. lia.
  - intros a b [k Hk]. exists (-k)%Z. lia.
  - intros a b c [k Hk] [k' Hk']. exists (k + k')%Z. lia.
Qed.
#[export] Instance cong_add q : Proper (cong q ==> cong q ==> cong q) Z.add.
Proof. intros a a' [k Hk] b b' [k' Hk']. exists (k + k')%Z. lia. Qed.
#[export] Instance cong_opp q : Proper (cong q ==> cong q) Z.opp.
Proof. intros a a' [k Hk]. exists (-k)%Z. lia. Qed.
#[export] Instance cong_sub q : Proper (cong q ==> cong q ==> cong q) Z.sub.
Proof. intros a a' [k Hk] b b' [k' Hk']. exists (k - k')%Z. lia. Qed.
#[export] Instance cong_mul q : Proper (cong q ==> cong q ==> cong q) Z.mul.
Proof. intros a a' [k Hk] b b' [k' Hk']. exists (k * b + a' * k')%Z. nia. Qed.

Lemma cong_small q a b : (0 ≤ a < q)%Z → (0 ≤ b < q)%Z → cong q a b → a = b.
Proof. intros Ha Hb [k Hk]. assert (k = 0)%Z by nia. subst. lia. Qed.
Lemma cong_eq q a b : a = b → cong q a b.
Proof. by intros ->. Qed.
Lemma cong_nonzero q a : (0 < a < q)%Z → ¬ cong q a 0.
Proof. intros Ha Hc. apply cong_small in Hc; lia. Qed.
Lemma cong_order q a : cong q (q - a) (- a).
Proof. exists 1%Z. lia. Qed.
Lemma cong_of_sub q a b : cong q (a - b) 0 → cong q a b.
Proof. intros [k Hk]. exists k. lia. Qed.
Lemma cong_mod q a : q ≠ 0%Z → cong q (a mod q) a.
Proof. intros Hq. exists (- (a / q))%Z. pose proof (Z.div_mod a q Hq). lia. Qed.

(** Equal expressions are congruent. *)
Ltac cong_ring := apply cong_eq; ring.

(** ** Points *)

Section points.
Context `{CurveLaws}.

Lemma point_eq p p' : cong order (dl p) (dl p') → p = p'.
Proof.
  intros Hc. apply dl_inj. pose proof (dl_range p). pose proof (dl_range p').
  apply (cong_small order); [lia..|done].
Qed.
Lemma point_nonzero p : ¬ cong order (dl p) 0.
Proof. apply cong_nonzero, dl_range. Qed.
Lemma dl_negate p : cong order (dl (pk_negate p)) (- dl p).
Proof. rewrite pk_negate_law. apply cong_order. Qed.
Lemma sk_negate_cong k : cong order (sk (sk_negate k)) (- sk k).
Proof. rewrite sk_negate_law. apply cong_order. Qed.

(** Two points with the same x are equal or opposite. *)
Lemma same_x p p' : (x_only_public_key p).1 = (x_only_public_key p').1 →
  p = p' ∨ cong order (dl p + dl p') 0.
Proof.
  intros Hx. pose proof (x_only_point p) as Hp. pose proof (x_only_point p') as Hp'.
  pose proof (dl_opposite (x_only_public_key p).1) as Ho.
  destruct (x_only_public_key p).2, (x_only_public_key p').2; try (left; congruence); right.
  - rewrite <-Hp, <-Hp', <-Hx. done.
  - rewrite <-Hp, <-Hp', <-Hx, Z.add_comm. done.
Qed.
Lemma x_of_point p x par : p = from_x_only x par → (x_only_public_key p).1 = x.
Proof. intros ->. by rewrite point_x_only. Qed.
Lemma x_of_opposite p p' : cong order (dl p + dl p') 0 →
  (x_only_public_key p).1 = (x_only_public_key p').1.
Proof.
  intros Hc. pose proof (x_only_point p) as Hp. pose proof (dl_opposite (x_only_public_key p).1) as Ho.
  set (x := (x_only_public_key p).1) in *. symmetry.
  destruct (x_only_public_key p).2; [apply (x_of_point _ _ Odd)|apply (x_of_point _ _ Even)];
    apply point_eq; rewrite Hp in Ho; apply cong_of_sub.
  - transitivity (dl p + dl p' - (dl p + dl (from_x_only x Odd)))%Z; [cong_ring|]. by rewrite Hc, Ho.
  - transitivity (dl p + dl p' - (dl (from_x_only x Even) + dl p))%Z; [cong_ring|]. by rewrite Hc, Ho.
Qed.

Lemma combine_Some p p' r : combine p p' = Some r → cong order (dl r) (dl p + dl p').
Proof. intros Hr. pose proof (combine_law p p') as Hl. by rewrite Hr in Hl. Qed.
Lemma combine_None p p' : combine p p' = None ↔ cong order (dl p + dl p') 0.
Proof.
  pose proof (combine_law p p') as Hl. destruct (combine p p') as [r|]; split; intros Hc; try done.
  rewrite Hc in Hl. by apply point_nonzero in Hl.
Qed.
Lemma add_exp_Some p t r : add_exp_tweak p t = Some r → cong order (dl r) (dl p + sc t).
Proof. intros Hr. pose proof (add_exp_law p t) as Hl. by rewrite Hr in Hl. Qed.
Lemma sk_add_Some k t k' : sk_add_tweak k t = Some k' → cong order (sk k') (sk k + sc t).
Proof. intros Hr. pose proof (sk_add_law k t) as Hl. by rewrite Hr in Hl. Qed.
Lemma sk_add_None k t : sk_add_tweak k t = None ↔ cong order (sk k + sc t) 0.
Proof.
  pose proof (sk_add_law k t) as Hl. destruct (sk_add_tweak k t) as [k'|]; split; intros Hc; try done.
  rewrite Hc in Hl. exfalso. by apply (cong_nonzero order (sk k')); [apply sk_range|].
Qed.
Lemma sk_mul_Some k t k' : sk_mul_tweak k t = Some k' → cong order (sk k') (sk k * sc t).
Proof. intros Hr. pose proof (sk_mul_law k t) as Hl. by rewrite Hr in Hl. Qed.
Lemma pk_mul_None p t : pk_mul_tweak p t = None ↔ cong order (dl p * sc t) 0.
Proof.
  pose proof (pk_mul_law p t) as Hl. destruct (pk_mul_tweak p t) as [k'|]; split; intros Hc; try done.
  rewrite Hc in Hl. by apply point_nonzero in Hl.
Qed.
Lemma pk_mul_Some p t r : pk_mul_tweak p t = Some r → cong order (dl r) (dl p * sc t).
Proof. intros Hr. pose proof (pk_mul_law p t) as Hl. by rewrite Hr in Hl. Qed.
End points.

(** ** The [bimap] crate *)

(** A map both ways: an insertion drops the pairs that share its left or its right
    value, and says whether there were some. *)
Class BiMapLib (A B : Type) := {
  BiMap : Type;
  bm_new : BiMap;
  bm_insert : A → B → BiMap → BiMap * bool;
  bm_get_by_right : B → BiMap → option A;
  bm_iter : BiMap → list (A * B)
}.
Class BiMapLaws (A B : Type) `{BiMapLib A B} := {
  bm_iter_new a b : (a, b) ∉ bm_iter bm_new;
  bm_iter_insert a b m a' b' :
    (a', b') ∈ bm_iter (bm_insert a b m).1 ↔
    (a' = a ∧ b' = b) ∨ (a' ≠ a ∧ b' ≠ b ∧ (a', b') ∈ bm_iter m);
  bm_overwrite a b m :
    (bm_insert a b m).2 = true ↔ ∃ a' b', (a', b') ∈ bm_iter m ∧ (a' = a ∨ b' = b);
  bm_right a b m : bm_get_by_right b m = Some a ↔ (a, b) ∈ bm_iter m
}.

(** Lists of pairs are such maps. *)
Module BiList.
Section instance.
Context {A B : Type} `{EqDecision A} `{EqDecision B}.

Record bilist := mkBilist { pairs : list (A * B); rights_unique : NoDup pairs.*2 }.
Definition apart (a : A) (b : B) (p : A * B) : Prop := p.1 ≠ a ∧ p.2 ≠ b.
Lemma insert_unique a b (m : bilist) : NoDup ((a, b) :: filter (apart a b) (pairs m)).*2.
Proof.
  cbn. apply NoDup_cons. split.
  - intros ([a' b'] & -> & [[_ Hb] _]%list_elem_of_filter)%list_elem_of_fmap. by apply Hb.
  - eapply sublist_NoDup; [exact (rights_unique m)|]. apply fmap_sublist, sublist_filter.
Qed.
Definition by_right (b : B) (l : list (A * B)) : option A :=
  (λ p, p.2.1) <$> list_find (λ p, p.2 = b) l.
#[export] Instance lib : BiMapLib A B := {|
  BiMap := bilist;
  bm_new := mkBilist [] (NoDup_nil_2);
  bm_insert a b m :=
    (mkBilist ((a, b) :: filter (apart a b) (pairs m)) (insert_unique a b m),
     bool_decide (filter (apart a b) (pairs m) ≠ pairs m));
  bm_get_by_right b m := by_right b (pairs m);
  bm_iter := pairs
|}.

Lemma filter_apart a b (l : list (A * B)) :
  filter (apart a b) l ≠ l ↔ ∃ a' b', (a', b') ∈ l ∧ (a' = a ∨ b' = b).
Proof.
  induction l as [|[a' b'] l IH]; [set_solver|]. rewrite filter_cons. split.
  - destruct (decide (apart a b (a', b'))) as [Hap|Hap].
    + intros Hne. destruct (proj1 IH) as (a'' & b'' & Hin & Ho); [congruence|]. set_solver.
    + intros _. exists a', b'. split; [left|]. unfold apart in Hap. cbn in Hap.
      destruct (decide (a' = a)), (decide (b' = b)); tauto.
  - intros (a'' & b'' & Hin & Ho) Heq. destruct (decide (apart a b (a', b'))) as [Hap|Hap].
    + injection Heq as Heq. apply elem_of_cons in Hin as [[= -> ->]|Hin];
        [destruct Hap as [? ?]; cbn in *; tauto|]. by apply (proj2 IH); [eauto|].
    + pose proof (length_filter (apart a b) l) as Hl. rewrite Heq in Hl. cbn in Hl. lia.
Qed.
#[export] Instance laws : BiMapLaws A B.
Proof.
  split; cbn.
  - intros a b Hin. by apply not_elem_of_nil in Hin.
  - intros a b m a' b'. rewrite elem_of_cons, list_elem_of_filter. unfold apart. cbn. naive_solver.
  - intros a b m. rewrite bool_decide_eq_true. apply filter_apart.
  - intros a b [l Hl]. unfold by_right. cbn. rewrite fmap_Some. split.
    + intros ([i [a' b']] & (Hi & Hb & _)%list_find_Some & ->). cbn in *. subst.
      by eapply list_elem_of_lookup_2.
    + intros (i & Hi)%list_elem_of_lookup. exists (i, (a, b)). split; [|done].
      apply list_find_Some. split_and!; [done..|]. intros j [a' b'] Hj Hji. cbn. intros ->.
      assert (i = j); [|lia]. eapply NoDup_lookup; [exact Hl|..]; rewrite list_lookup_fmap;
        [by rewrite Hi|by rewrite Hj].
Qed.
End instance.
End BiList.

(** ** A small group: the integers below a prime *)

Module Toy.
(** A prime. *)
Definition q : Z := 10007.
Definition coprime (n : nat) : bool := (Z.gcd (Z.of_nat n) q =? 1)%Z.
Lemma forallb_below (f : nat → bool) m : forallb f (seq 1 m) = true →
  ∀ z, (1 ≤ z ≤ Z.of_nat m)%Z → f (Z.to_nat z) = true.
Proof. intros Hf z Hz. rewrite forallb_forall in Hf. apply Hf, in_seq. lia. Qed.
Lemma coprime_below : forallb coprime (seq 1 (Z.to_nat 10006)) = true.
Proof. vm_compute. reflexivity. Qed.
Lemma q_prime : prime q.
Proof.
  apply prime_intro; [done|]. intros n Hn.
  pose proof (forallb_below coprime _ coprime_below n) as Hc. unfold coprime in Hc.
  rewrite (Z2Nat.id n) in Hc by (clear -Hn; lia).
  assert (Z.gcd n q = 1)%Z as Hg by (apply Z.eqb_eq, Hc; unfold q in Hn; clear -Hn; lia).
  unfold rel_prime. rewrite <-Hg. apply Zgcd_is_gcd.
Qed.

(** What is not zero. *)
Definition in_range (v : Z) : bool := ((0 <? v) && (v <? q))%Z.
Record elt := mkElt { ev : Z; ev_ok : in_range ev = true }.
Lemma ev_range (e : elt) : (0 < ev e < q)%Z.
Proof. destruct e as [v Hv]. cbn. unfold in_range in Hv. lia. Qed.
Lemma ev_inj (e e' : elt) : ev e = ev e' → e = e'.
Proof.
  destruct e as [v Hv], e' as [v' Hv']. cbn. intros ->. f_equal. apply proof_irrel.
Qed.
Definition elt_of (v : Z) : option elt :=
  match decide (in_range (v mod q) = true) with left Hv => Some (mkElt (v mod q) Hv) | right _ => None end.
Lemma elt_of_spec v :
  match elt_of v with Some e => cong q (ev e) v | None => cong q v 0 end.
Proof.
  unfold elt_of. destruct (decide _) as [Hv|Hv]; [apply cong_mod; done|].
  pose proof (Z.mod_pos_bound v q ltac:(done)) as Hb. unfold in_range in Hv.
  assert (v mod q = 0)%Z as Hz by lia. transitivity (v mod q)%Z; [symmetry; by apply cong_mod|].
  by rewrite Hz.
Qed.
Lemma elt_of_ev (e : elt) : elt_of (ev e) = Some e.
Proof.
  pose proof (elt_of_spec (ev e)) as Hs. pose proof (ev_range e) as Hr. destruct (elt_of (ev e)) as [e'|].
  - f_equal. apply ev_inj. pose proof (ev_range e'). by apply (cong_small q); [lia..|].
  - by apply cong_nonzero in Hs.
Qed.
#[export] Instance elt_eqdec : EqDecision elt.
Proof.
  intros e e'. destruct (decide (ev e = ev e')) as [He|He]; [left; by apply ev_inj|right; congruence].
Defined.
#[export] Instance elt_countable : Countable elt := inj_countable ev elt_of elt_of_ev.

Lemma opposite_range (e : elt) : in_range (q - ev e) = true.
Proof. pose proof (ev_range e). unfold in_range. lia. Qed.
Definition opposite (e : elt) : elt := mkElt (q - ev e) (opposite_range e).

(** The x of a point is the smaller of the two opposite ones. *)
Definition lower (e : elt) : bool := (ev e <=? 5003)%Z.
Record xonly := mkXonly { x_even : elt; x_ok : lower x_even = true }.
Lemma x_even_inj (x x' : xonly) : x_even x = x_even x' → x = x'.
Proof.
  destruct x as [e He], x' as [e' He']. cbn. intros ->. f_equal. apply proof_irrel.
Qed.
Definition xonly_of (e : elt) : option xonly :=
  match decide (lower e = true) with left He => Some (mkXonly e He) | right _ => None end.
Lemma xonly_of_even (x : xonly) : xonly_of (x_even x) = Some x.
Proof.
  unfold xonly_of. destruct (decide _) as [He|He]; [f_equal; by apply x_even_inj|].
  destruct He. apply x_ok.
Qed.
#[export] Instance xonly_eqdec : EqDecision xonly.
Proof.
  intros x x'. destruct (decide (x_even x = x_even x')) as [He|He]; [left; by apply x_even_inj|right; congruence].
Defined.
#[export] Instance xonly_countable : Countable xonly := inj_countable x_even xonly_of xonly_of_even.
Lemma opposite_lower (e : elt) : lower e ≠ true → lower (opposite e) = true.
Proof. unfold lower. cbn. unfold q. lia. Qed.
Definition x_of (e : elt) : xonly * Parity :=
  match decide (lower e = true) with
  | left He => (mkXonly e He, Even)
  | right He => (mkXonly (opposite e) (opposite_lower e He), Odd)
  end.
Definition point_of (x : xonly) (p : Parity) : elt :=
  match p with Even => x_even x | Odd => opposite (x_even x) end.
Lemma opposite_twice e : opposite (opposite e) = e.
Proof. apply ev_inj. cbn. lia. Qed.

(** 32 bytes, of which the last two count. *)
Definition bytes_of (v : Z) : list N := replicate 30 0 ++ [Z.to_N (v / 256); Z.to_N (v mod 256)].
Definition value_of (b : list N) : option Z :=
  match drop 30 b with [h; l] => Some (Z.of_N h * 256 + Z.of_N l)%Z | _ => None end.
Lemma value_bytes v : (0 ≤ v)%Z → value_of (bytes_of v) = Some v.
Proof.
  intros Hv. unfold value_of, bytes_of. rewrite drop_app_length' by done. f_equal.
  pose proof (Z.mod_pos_bound v 256 ltac:(done)).
  pose proof (Z.div_pos v 256 Hv ltac:(done)). pose proof (Z.div_mod v 256 ltac:(done)). lia.
Qed.
Definition mix (acc : Z) (b : N) : Z := ((acc * 263 + Z.of_N b * 31 + 17) mod q)%Z.
Definition hash (tag : string) (b : list N) : list N :=
  bytes_of (foldl mix (Z.of_nat (String.length tag)) b).
Definition below_q (v : Z) : bool := ((0 <=? v) && (v <? q))%Z.
(** Scalars: zero is one. *)
Definition scalar := option elt.
Definition sv (t : scalar) : Z := match t with Some e => ev e | None => 0%Z end.
Definition scalar_of (v : Z) : option scalar := if below_q v then Some (elt_of v) else None.
Definition nonzero_of (v : Z) : option elt := if below_q v then elt_of v else None.
Definition slice (b : list N) : option elt := value_of b ≫= nonzero_of.

(** A point is a prefix byte, its value, and possibly as much again. *)
Definition point_slice (b : list N) : option elt :=
  match b with [] => None | _ :: b => slice (take 32 b) end.

#[export] Instance curve : Curve := {|
  PublicKey := elt; SecretKey := elt; Scalar := scalar; XOnlyPublicKey := xonly;
  sk_from_slice := slice;
  secret_bytes k := bytes_of (ev k);
  public_key k := k;
  sk_negate := opposite;
  sk_add_tweak k t := elt_of (ev k + sv t);
  sk_mul_tweak k t := elt_of (ev k * sv t);
  scalar_of_sk := Some;
  scalar_from_be_bytes b := match value_of b with Some v => scalar_of v | None => None end;
  to_be_bytes t := bytes_of (sv t);
  pk_from_slice := point_slice;
  pk_serialize p := 2 :: bytes_of (ev p);
  combine p p' := elt_of (ev p + ev p');
  combine_keys l := match l with [] => None | _ => elt_of (foldr Z.add 0%Z (ev <$> l)) end;
  pk_negate := opposite;
  add_exp_tweak p t := elt_of (ev p + sv t);
  pk_mul_tweak p t := elt_of (ev p * sv t);
  x_only_public_key := x_of;
  from_x_only := point_of;
  xonly_from_slice b := match slice b with Some e => xonly_of e | None => None end;
  xonly_serialize x := bytes_of (ev (x_even x));
  shared_secret_point p k := bytes_of ((ev p * ev k) mod q)%Z ++ replicate 32 0;
  tagged_hash := hash;
  hex_decode _ := Some (replicate 32 1)
|}.

Lemma nonzero_of_ev (e : elt) : nonzero_of (ev e) = Some e.
Proof.
  unfold nonzero_of. pose proof (ev_range e). replace (below_q (ev e)) with true by (unfold below_q; lia).
  apply elt_of_ev.
Qed.
Lemma sv_range t : (0 ≤ sv t < q)%Z.
Proof. destruct t as [e|]; cbn; [pose proof (ev_range e); lia|done]. Qed.
Lemma scalar_of_sv t : scalar_of (sv t) = Some t.
Proof.
  unfold scalar_of. pose proof (sv_range t). replace (below_q (sv t)) with true by (unfold below_q; lia).
  destruct t as [e|]; cbn [sv]; [by rewrite elt_of_ev|done].
Qed.
Lemma product_nonzero (a b : elt) : in_range ((ev a * ev b) mod q)%Z = true.
Proof.
  pose proof (Z.mod_pos_bound (ev a * ev b) q ltac:(done)) as Hb. unfold in_range.
  destruct (Z.eq_dec ((ev a * ev b) mod q)%Z 0%Z) as [Hz|Hz]; [|lia]. exfalso.
  apply Z.mod_divide in Hz; [|done]. pose proof (ev_range a). pose proof (ev_range b).
  destruct (prime_mult _ q_prime _ _ Hz) as [Hd|Hd]; apply Z.divide_pos_le in Hd; lia.
Qed.
Lemma cong_lower p : ev (point_of (x_of p).1 (x_of p).2) = ev p.
Proof.
  unfold x_of. destruct (decide _) as [He|He]; cbn [fst snd point_of x_even]; [done|].
  by rewrite opposite_twice.
Qed.

#[export] Instance laws : CurveLaws.
Proof.
  refine {| order := q; sk := ev; sc := sv; dl := ev; sk_range := ev_range; dl_range := ev_range;
            sc_range := sv_range; dl_inj := ev_inj; sc_of_sk _ := eq_refl; dl_public_key _ := eq_refl;
            sk_negate_law _ := eq_refl; pk_negate_law _ := eq_refl |}; cbn -[Z.div Z.modulo q].
  - done.
  - intros t t' Ht. assert (Some t = Some t') as [= ->]; [|done]. by rewrite <-!scalar_of_sv, Ht.
  - intros t. change (match slice (bytes_of (sv t)) with
      Some k => ev k = sv t | None => sv t = 0%Z end).
    pose proof (sv_range t). unfold slice. rewrite value_bytes by lia. cbn [mbind option_bind].
    destruct t as [e|]; cbn [sv]; [by rewrite nonzero_of_ev|]. by vm_compute.
  - intros t. change (match value_of (bytes_of (sv t)) with Some v => scalar_of v | None => None end = Some t).
    pose proof (sv_range t). rewrite value_bytes by lia. apply scalar_of_sv.
  - intros k t. exact (elt_of_spec (ev k + sv t)).
  - intros k t. exact (elt_of_spec (ev k * sv t)).
  - intros p p'. exact (elt_of_spec (ev p + ev p')).
  - intros [|p l]; [by left|]. pose proof (elt_of_spec (foldr Z.add 0%Z (ev <$> p :: l))) as Hs.
    destruct (elt_of _); [by split|by right].
  - intros p t. exact (elt_of_spec (ev p + sv t)).
  - intros p t. exact (elt_of_spec (ev p * sv t)).
  - intros p. apply ev_inj, cong_lower.
  - intros [e He] [|]; unfold x_of; cbn [point_of x_even].
    + destruct (decide _) as [He'|He']; [|done]. do 2 f_equal. apply proof_irrel.
    + destruct (decide _) as [He'|He'].
      * exfalso. unfold lower in *. cbn in He'. pose proof (ev_range e). unfold q in *. lia.
      * f_equal. apply x_even_inj. apply opposite_twice.
  - intros x. exists 1%Z. lia.
  - intros x. split; [done|]. change (match slice (bytes_of (ev (x_even x))) with Some e => xonly_of e | None => None end = Some x).
    pose proof (ev_range (x_even x)). unfold slice. rewrite value_bytes by lia. cbn [mbind option_bind].
    rewrite nonzero_of_ev. apply xonly_of_even.
  - intros p. split; [done|]. change (slice (take 32 (bytes_of (ev p))) = Some p).
    rewrite take_ge by done. pose proof (ev_range p). unfold slice. rewrite value_bytes by lia.
    apply nonzero_of_ev.
  - intros p k. pose proof (product_nonzero p k) as Hn. exists (mkElt _ Hn). split.
    + change (slice (take 32 (bytes_of ((ev p * ev k) mod q)%Z ++ replicate 32 0)) = Some (mkElt _ Hn)).
      rewrite take_app_length' by done. unfold slice.
      pose proof (Z.mod_pos_bound (ev p * ev k) q ltac:(done)). rewrite value_bytes by lia.
      exact (nonzero_of_ev (mkElt _ Hn)).
    + by apply cong_mod.
Qed.
End Toy.
