(* ===== verification/SpCommon.v ===== *)
(** * The common parts of silent payments (sp/src/core/utils, core/error.rs)

    The derivations a sender and a receiver share (common.rs), the hash over the inputs
    of a transaction (hash.rs), and silent-payment addresses. The text form of an
    address is that of the bech32 crate and is left out. *)
From Stdlib Require Import Lia ZArith.
From stdpp Require Import base countable strings gmap sets sorting list.
From S2P Require Import Prelude Bytes SpCurve.
From S2P Require Bitcoin.

Module SpCommon.

(** [core::error::Error]; the causes of other crates are dropped. *)
Inductive Error :=
  | UnsupportedVersion (version : N) | WrongAddressLength (len : N)
  | NoInputProvided | NoOutpointsProvided
  | InvalidTxidHex | TxidLength (len : N) | EmptyOutpoints
  | InvalidInput (msg : string) | InvalidLabel | LabelLength
  | InvalidAddress | WrongHrp (hrp : string) | InvalidNetwork (name : string)
  | Secp256k1Error | OutOfRangeError | IOError | MalformedTweak.

(** The [?] operator on an operation of the curve. *)
Definition secp {A} (o : option A) : result A Error := ok_or o Secp256k1Error.

Inductive Network := Mainnet | Testnet | Regtest.
#[export] Instance Network_eqdec : EqDecision Network.
Proof. solve_decision. Defined.
#[export] Instance Network_countable : Countable Network.
Proof.
  refine (inj_countable' (λ n, match n with Mainnet => 0%nat | Testnet => 1%nat | Regtest => 2%nat end)
            (λ i, match i with 0%nat => Mainnet | 1%nat => Testnet | _ => Regtest end) _).
  by intros [].
Defined.
(** [From<bitcoin::Network>]. *)
Definition of_bitcoin (n : Bitcoin.Network) : Network :=
  match n with
  | Bitcoin.Bitcoin => Mainnet
  | Bitcoin.Testnet | Bitcoin.Signet => Testnet
  | Bitcoin.Regtest => Regtest
  | _ => Testnet
  end.

(** [u32::to_be_bytes]. *)
Definition u32_to_be_bytes (x : N) : list N := rev (u32_to_le_bytes x).

Section common.
Context `{Curve}.

Definition calculate_t_n (ecdh_shared_secret : PublicKey) (k : N) : result SecretKey Error :=
  secp (sk_from_slice (tagged_hash "BIP0352/SharedSecret" (pk_serialize ecdh_shared_secret ++ u32_to_be_bytes k))).
Definition calculate_P_n (B_spend : PublicKey) (t_n : Scalar) : result PublicKey Error :=
  secp (add_exp_tweak B_spend t_n).

Record SilentPaymentAddress := mkAddress {
  version : N;
  scan_pubkey : PublicKey;
  m_pubkey : PublicKey;
  network : Network
}.
#[export] Instance SilentPaymentAddress_eqdec : EqDecision SilentPaymentAddress.
Proof. solve_decision. Defined.
#[export] Instance SilentPaymentAddress_countable : Countable SilentPaymentAddress.
Proof.
  refine (inj_countable' (λ a, (version a, scan_pubkey a, m_pubkey a, network a))
            (λ t, let '(v, s, m, n) := t in mkAddress v s m n) _).
  by intros [].
Defined.
(** [SilentPaymentAddress::new]. *)
Definition new_address (scan_pubkey m_pubkey : PublicKey) (network : Network) (version : N) :
    result SilentPaymentAddress Error :=
  if version =? 0 then Ok (mkAddress version scan_pubkey m_pubkey network)
  else Err (UnsupportedVersion version).

(** An outpoint as it is hashed: the bytes of the txid and of the index. *)
Definition outpoint_bytes (o : string * N) : result (list N) Error :=
  match hex_decode o.1 with
  | None => Err InvalidTxidHex
  | Some bytes =>
      if negb (len bytes =? 32) then Err (TxidLength (len bytes))
      else Ok (rev bytes ++ u32_to_le_bytes o.2)
  end.
Fixpoint outpoints_bytes (l : list (string * N)) : result (list (list N)) Error :=
  match l with
  | [] => Ok []
  | o :: l => try! b := outpoint_bytes o in try! bs := outpoints_bytes l in Ok (b :: bs)
  end.
(** [InputsHash::from_outpoint_and_A_sum], then [to_scalar], which may panic. *)
Definition inputs_hash (smallest : list N) (A_sum : PublicKey) : outcome Scalar :=
  expect (scalar_from_be_bytes (tagged_hash "BIP0352/Inputs" (smallest ++ pk_serialize A_sum))).
Definition calculate_input_hash (outpoints_data : list (string * N)) (A_sum : PublicKey) :
    outcome (result Scalar Error) :=
  if bool_decide (outpoints_data = []) then Ret (Err NoOutpointsProvided)
  else
    let? outpoints := Ret (outpoints_bytes outpoints_data) in
    match sort_by key_leb outpoints with
    | smallest :: _ => let! h := inputs_hash smallest A_sum in Ret (Ok h)
    | [] => Ret (Err EmptyOutpoints)
    end.
End common.

(** ** Lemmas *)

Section lemmas.
Context `{Curve}.

Lemma outpoints_bytes_perm l l' bs : l ≡ₚ l' → outpoints_bytes l = Ok bs →
  ∃ bs', outpoints_bytes l' = Ok bs' ∧ bs ≡ₚ bs'.
Proof.
  intros Hp. revert bs; induction Hp as [|x l l' Hp IH|x y l|l l' l'' Hp IH Hp' IH']; intros bs Hbs;
    cbn [outpoints_bytes] in *; unfold rbind in *.
  - eauto.
  - destruct (outpoint_bytes x) as [b|]; [|done]. destruct (outpoints_bytes l) as [bl|]; [|done].
    injection Hbs as <-. destruct (IH bl) as (bl' & -> & Hbl); [done|]. exists (b :: bl'). auto.
  - destruct (outpoint_bytes y) as [b|]; [|done]. destruct (outpoint_bytes x) as [b'|]; [|done].
    destruct (outpoints_bytes l) as [bl|]; [|done]. injection Hbs as <-. eexists. split; [done|]. constructor.
  - destruct (IH bs Hbs) as (bs' & Hbs' & Hp1). destruct (IH' bs' Hbs') as (bs'' & Hbs'' & Hp2).
    exists bs''. split; [done|]. by etransitivity.
Qed.

(** The hash does not depend on the order of the inputs. *)
Lemma input_hash_perm l l' A h : l ≡ₚ l' →
  calculate_input_hash l A = Ret (Ok h) → calculate_input_hash l' A = Ret (Ok h).
Proof.
  intros Hp. unfold calculate_input_hash. case_bool_decide as Hl; [done|].
  rewrite bool_decide_eq_false_2 by (intros ->; by apply Permutation_nil_r in Hp).
  destruct (outpoints_bytes l) as [bs|] eqn:Hbs; [|done].
  destruct (outpoints_bytes_perm _ _ _ Hp Hbs) as (bs' & -> & Hpb). cbn [qbind].
  assert (sort_by key_leb bs = sort_by key_leb bs') as ->; [|done].
  apply (StronglySorted_unique_strong (λ x y : list N, key_leb x y = true)).
  - intros x1 x2 _ _. apply key_leb_antisym.
  - apply sort_by_sorted; [apply key_leb_total|apply key_leb_trans].
  - apply sort_by_sorted; [apply key_leb_total|apply key_leb_trans].
  - rewrite !sort_by_perm. done.
Qed.
End lemmas.
End SpCommon.
