(* ===== verification/SpSending.v ===== *)
(** * Sending silent payments (sp/src/core/sending.rs)

    The secret a sender draws from its inputs, and the output keys it makes for a list
    of addresses: those with the same scan key share a secret and are numbered in
    order. *)
From Stdlib Require Import Lia ZArith.
From stdpp Require Import base countable strings gmap sets list.
From S2P Require Import Prelude SpCurve SpCommon.

Module SpSending.
Import SpCommon.

(** The recipients by scan key, with the secret shared with it; the keys of each
    address. *)
Abbreviation Groups := (gmap PublicKey (PublicKey * list SilentPaymentAddress)).
Abbreviation Keys := (gmap SilentPaymentAddress (list XOnlyPublicKey)).

Section sending.
Context `{Curve}.
Implicit Types addr : SilentPaymentAddress.

(** An input key as it counts: a taproot key is that of its even point. *)
Definition even_key (k : SecretKey * bool) : SecretKey :=
  let '(key, is_taproot) := k in
  if is_taproot && bool_decide ((x_only_public_key (public_key key)).2 = Odd) then sk_negate key else key.
Fixpoint add_all (acc : SecretKey) (tail : list SecretKey) : result SecretKey Error :=
  match tail with
  | [] => Ok acc
  | item :: tail => try! acc := secp (sk_add_tweak acc (scalar_of_sk item)) in add_all acc tail
  end.
Definition get_a_sum_secret_keys (input : list (SecretKey * bool)) : result SecretKey Error :=
  match even_key <$> input with
  | [] => Err NoInputProvided
  | head :: tail => add_all head tail
  end.

Definition calculate_partial_secret (input_keys : list (SecretKey * bool))
    (outpoints_data : list (string * N)) : outcome (result SecretKey Error) :=
  let? a_sum := Ret (get_a_sum_secret_keys input_keys) in
  let? input_hash := calculate_input_hash outpoints_data (public_key a_sum) in
  Ret (secp (sk_mul_tweak a_sum input_hash)).

Definition calculate_ecdh_shared_secret (B_scan : PublicKey) (partial_secret : SecretKey) :
    outcome PublicKey :=
  expect (pk_from_slice (4 :: shared_secret_point B_scan partial_secret)).

Definition add_recipient (partial_secret : SecretKey) (groups : Groups) addr : outcome Groups :=
  let B_scan := scan_pubkey addr in
  match groups !! B_scan with
  | Some (secret, payments) => Ret (<[B_scan := (secret, payments ++ [addr])]> groups)
  | None =>
      let! secret := calculate_ecdh_shared_secret B_scan partial_secret in
      Ret (<[B_scan := (secret, [addr])]> groups)
  end.

(** The key of the [n]-th output of a group. *)
Definition output_key (secret : PublicKey) (n : N) addr : result XOnlyPublicKey Error :=
  try! t_n := calculate_t_n secret (n mod 2 ^ 32) in
  try! reskey := secp (combine (public_key t_n) (m_pubkey addr)) in
  Ok (x_only_public_key reskey).1.
Fixpoint derive_group (secret : PublicKey) (n : N) (recipients : list SilentPaymentAddress)
    (result_ : Keys) : result Keys Error :=
  match recipients with
  | [] => Ok result_
  | addr :: recipients =>
      try! x := output_key secret n addr in
      derive_group secret (n + 1) recipients (<[addr := default [] (result_ !! addr) ++ [x]]> result_)
  end.
(** The groups are hashed in the code; their order does not matter. *)
Fixpoint derive_groups (groups : list (PublicKey * list SilentPaymentAddress)) (result_ : Keys) :
    result Keys Error :=
  match groups with
  | [] => Ok result_
  | (secret, recipients) :: groups =>
      try! r := derive_group secret 0 recipients result_ in derive_groups groups r
  end.
Definition generate_recipient_pubkeys (recipients : list SilentPaymentAddress)
    (partial_secret : SecretKey) : outcome (result Keys Error) :=
  let! groups := ofold (add_recipient partial_secret) ∅ recipients in
  Ret (derive_groups (map_to_list groups).*2 ∅).
End sending.

(** ** Lemmas: counting in lists *)

Section counting.
Context {A : Type} `{EqDecision A}.
Implicit Types l : list A.

(** How many of the first [j] satisfy a predicate. *)
Definition count_before (P : A → Prop) `{∀ x, Decision (P x)} l (j : nat) : nat :=
  length (filter P (take j l)).

Lemma filter_split (P : A → Prop) `{∀ x, Decision (P x)} l j :
  filter P l = filter P (take j l) ++ filter P (drop j l).
Proof. by rewrite <-filter_app, take_drop. Qed.
Lemma lookup_filter (P : A → Prop) `{∀ x, Decision (P x)} l j x : l !! j = Some x → P x →
  filter P l !! count_before P l j = Some x.
Proof.
  intros Hj Hx. rewrite (filter_split P l j). unfold count_before. rewrite lookup_app_r by lia.
  rewrite Nat.sub_diag, (drop_S _ _ _ Hj), filter_cons_True by done. done.
Qed.
Lemma take_filter (P : A → Prop) `{∀ x, Decision (P x)} l j :
  take (count_before P l j) (filter P l) = filter P (take j l).
Proof. rewrite (filter_split P l j). apply take_app_length. Qed.
Lemma count_before_filter (P Q : A → Prop) `{∀ x, Decision (P x)} `{∀ x, Decision (Q x)} l j :
  (∀ x, Q x → P x) → count_before Q (filter P l) (count_before P l j) = count_before Q l j.
Proof.
  intros Hqp. unfold count_before at 1. rewrite take_filter. unfold count_before. f_equal.
  rewrite list_filter_filter. apply list_filter_iff. naive_solver.
Qed.
Lemma count_before_S (P : A → Prop) `{∀ x, Decision (P x)} x l j :
  count_before P (x :: l) (S j) = ((if decide (P x) then 1 else 0) + count_before P l j)%nat.
Proof. unfold count_before. cbn [take]. rewrite filter_cons. by case_decide. Qed.
End counting.

(** ** What [generate_recipient_pubkeys] makes *)

Section spec.
Context `{Curve}.
Implicit Types addr : SilentPaymentAddress.
Implicit Types r : Keys.

Lemma derive_group_spec secret l : ∀ n r r', derive_group secret n l r = Ok r' →
  (∀ addr, addr ∉ l → r' !! addr = r !! addr) ∧
  (∀ addr, default [] (r !! addr) `prefix_of` default [] (r' !! addr)) ∧
  ∀ i addr, l !! i = Some addr → ∃ x, output_key secret (n + N.of_nat i) addr = Ok x ∧
    default [] (r' !! addr) !! (length (default [] (r !! addr)) + count_before (λ a, a = addr) l i)%nat = Some x.
Proof.
  induction l as [|a l IH]; intros n r r' Hd; cbn [derive_group] in Hd.
  { injection Hd as ->. split_and!; [done..|]. intros i addr Hi. by rewrite lookup_nil in Hi. }
  unfold rbind in Hd. destruct (output_key secret n a) as [x|] eqn:Hx; [|done].
  destruct (IH _ _ _ Hd) as (Hother & Hpre & Hnth). split_and!.
  - intros addr Hin. rewrite not_elem_of_cons in Hin. destruct Hin as [Hne Hin].
    rewrite Hother by done. by rewrite lookup_insert_ne.
  - intros addr. etransitivity; [|apply Hpre]. destruct (decide (addr = a)) as [->|Hne].
    + rewrite lookup_insert_eq. by apply prefix_app_r.
    + by rewrite lookup_insert_ne.
  - intros [|i] addr Hi; cbn in Hi.
    + injection Hi as <-. exists x. rewrite N.add_0_r. split; [done|].
      destruct (Hpre a) as [k Hk]. rewrite lookup_insert_eq in Hk. cbn in Hk. rewrite Hk.
      change (count_before (λ a', a' = a) (a :: l) 0) with 0%nat. rewrite Nat.add_0_r.
      rewrite <-app_assoc. rewrite lookup_app_r by lia. by rewrite Nat.sub_diag.
    + destruct (Hnth i addr Hi) as (y & Hy & Hl). exists y.
      split; [rewrite <-Hy; f_equal; lia|]. rewrite <-Hl. f_equal. rewrite count_before_S.
      destruct (decide (addr = a)) as [->|Hne].
      * rewrite lookup_insert_eq, decide_True by done. cbn. rewrite length_app. cbn. lia.
      * rewrite lookup_insert_ne, decide_False by done. done.
Qed.

(** Groups of distinct scan keys do not touch each other's addresses. *)
Lemma derive_groups_spec (l : list (PublicKey * (PublicKey * list SilentPaymentAddress))) : ∀ r r',
  NoDup l.*1 → (∀ B s as_, (B, (s, as_)) ∈ l → Forall (λ a, scan_pubkey a = B) as_) →
  (∀ a, is_Some (r !! a) → scan_pubkey a ∉ l.*1) →
  derive_groups l.*2 r = Ok r' →
  (∀ a, scan_pubkey a ∉ l.*1 → r' !! a = r !! a) ∧
  ∀ B s as_ i addr, (B, (s, as_)) ∈ l → as_ !! i = Some addr →
    ∃ x, output_key s (N.of_nat i) addr = Ok x ∧
      default [] (r' !! addr) !! count_before (λ a, a = addr) as_ i = Some x.
Proof.
  induction l as [|[B [s as_]] l IH]; intros r r' Hnd Hscan Hfresh Hd; cbn [derive_groups fmap list_fmap fst snd] in *.
  { injection Hd as ->. split; [done|]. set_solver. }
  unfold rbind in Hd. destruct (derive_group s 0 as_ r) as [r1|] eqn:Hg; [|done].
  apply NoDup_cons in Hnd as [HB Hnd]. destruct (derive_group_spec _ _ _ _ _ Hg) as (Hother & _ & Hnth).
  assert (Has : Forall (λ a, scan_pubkey a = B) as_) by (apply (Hscan B s as_); left).
  rewrite Forall_forall in Has.
  destruct (IH r1 r') as [Hrest Hgroups]; [done|set_solver|..|done|].
  { intros a [y Hy]. destruct (decide (a ∈ as_)) as [Hin|Hin]; [by rewrite (Has a Hin)|].
    rewrite Hother in Hy by done. assert (scan_pubkey a ∉ B :: l.*1) as Ha by (apply Hfresh; eauto).
    set_solver. }
  split.
  - intros a Ha. rewrite not_elem_of_cons in Ha. destruct Ha as [HaB Ha].
    rewrite Hrest by done. apply Hother. intros Hin. by apply HaB, Has.
  - intros B' s' as' i addr Hin Hi. apply elem_of_cons in Hin as [[= -> -> ->]|Hin];
      [|by apply (Hgroups B' s' as')].
    destruct (Hnth i addr Hi) as (x & Hx & Hl). exists x. split; [by rewrite <-Hx|].
    assert (Hsc : scan_pubkey addr = B) by (apply Has; by eapply list_elem_of_lookup_2).
    rewrite Hrest by (by rewrite Hsc). rewrite <-Hl. f_equal.
    destruct (r !! addr) as [y|] eqn:Hy; [|done]. exfalso.
    apply (Hfresh addr); [by rewrite Hy|]. rewrite Hsc. left.
Qed.

(** The groups are the recipients by scan key, in their order. *)
Lemma groups_spec ps recipients groups : ofold (add_recipient ps) ∅ recipients = Ret groups →
  ∀ B, match groups !! B with
       | Some (s, as_) => calculate_ecdh_shared_secret B ps = Ret s ∧
           as_ = filter (λ a, scan_pubkey a = B) recipients ∧ as_ ≠ []
       | None => filter (λ a, scan_pubkey a = B) recipients = []
       end.
Proof.
  intros Hf. assert (Hgen : ∀ (todo before : list SilentPaymentAddress) (g g' : Groups),
    ofold (add_recipient ps) g todo = Ret g' →
    (∀ B, match g !! B with
          | Some (s, as_) => calculate_ecdh_shared_secret B ps = Ret s ∧
              as_ = filter (λ a, scan_pubkey a = B) before ∧ as_ ≠ []
          | None => filter (λ a, scan_pubkey a = B) before = [] end) →
    ∀ B, match g' !! B with
          | Some (s, as_) => calculate_ecdh_shared_secret B ps = Ret s ∧
              as_ = filter (λ a, scan_pubkey a = B) (before ++ todo) ∧ as_ ≠ []
          | None => filter (λ a, scan_pubkey a = B) (before ++ todo) = [] end).
  { intros todo. induction todo as [|a todo IH]; intros before g g' Ho Hg; cbn [ofold] in Ho.
    { injection Ho as <-. by rewrite app_nil_r. }
    unfold obind in Ho. destruct (add_recipient ps g a) as [g1|] eqn:Ha; [|done].
    rewrite cons_middle, app_assoc. apply (IH _ g1); [done|]. intros B.
    rewrite filter_app. unfold add_recipient in Ha. pose proof (Hg (scan_pubkey a)) as Hga.
    destruct (decide (B = scan_pubkey a)) as [->|Hne].
    - rewrite filter_cons_True by done. destruct (g !! scan_pubkey a) as [[s as_]|] eqn:HB.
      + injection Ha as <-. rewrite lookup_insert_eq. destruct Hga as (Hs & -> & _).
        split_and!; [done..|]. by destruct (filter _ before).
      + unfold obind in Ha. destruct (calculate_ecdh_shared_secret _ ps) as [s|] eqn:Hs; [|done].
        injection Ha as <-. rewrite lookup_insert_eq. by rewrite Hga.
    - rewrite filter_cons_False by done. rewrite app_nil_r.
      assert (g1 !! B = g !! B) as ->; [|apply Hg].
      destruct (g !! scan_pubkey a) as [[s as_]|]; unfold obind in Ha;
        [|destruct (calculate_ecdh_shared_secret _ ps); [|done]]; injection Ha as <-;
        by rewrite lookup_insert_ne. }
  intros B. by apply (Hgen recipients [] ∅ groups).
Qed.

(** The [j]-th recipient gets the key numbered by the recipients before it with its
    scan key, in the place of its address's keys given by its occurrences before. *)
Lemma generate_pubkeys_spec recipients ps keys : generate_recipient_pubkeys recipients ps = Ret (Ok keys) →
  ∀ j addr, recipients !! j = Some addr →
  ∃ s x, calculate_ecdh_shared_secret (scan_pubkey addr) ps = Ret s ∧
    output_key s (N.of_nat (count_before (λ a, scan_pubkey a = scan_pubkey addr) recipients j)) addr = Ok x ∧
    default [] (keys !! addr) !! count_before (λ a, a = addr) recipients j = Some x.
Proof.
  unfold generate_recipient_pubkeys, obind. intros Hg j addr Hj.
  destruct (ofold (add_recipient ps) ∅ recipients) as [groups|] eqn:Ho; [|done].
  injection Hg as Hd. pose proof (groups_spec _ _ _ Ho) as Hspec.
  pose proof (Hspec (scan_pubkey addr)) as Ha.
  pose proof (lookup_filter (λ a, scan_pubkey a = scan_pubkey addr) _ _ _ Hj eq_refl) as Hk.
  destruct (groups !! scan_pubkey addr) as [[s as_]|] eqn:Hgr; [|by rewrite Ha in Hk].
  destruct Ha as (Hs & -> & _). apply (derive_groups_spec (map_to_list groups)) in Hd as [_ Hd].
  - destruct (Hd _ _ _ _ _ (proj2 (elem_of_map_to_list _ _ _) Hgr) Hk) as (x & Hx & Hl).
    exists s, x. split_and!; [done..|]. rewrite count_before_filter in Hl by congruence. done.
  - apply NoDup_fst_map_to_list.
  - intros B s' as' Hin%elem_of_map_to_list. specialize (Hspec B). rewrite Hin in Hspec.
    destruct Hspec as (_ & -> & _). apply Forall_forall. intros a [? ?]%list_elem_of_filter. done.
  - intros a Ha. rewrite lookup_empty in Ha. by destruct Ha.
Qed.
End spec.
End SpSending.
