(* ===== verification/SpReceiving.v ===== *)
(** * Receiving silent payments (sp/src/core/receiving.rs)

    The labels of a receiver, the scan of a transaction for its outputs, the scripts a
    filter is asked about, and the public keys of the inputs that count. *)
From Stdlib Require Import Lia ZArith.
From stdpp Require Import base countable strings gmap sets list.
From S2P Require Import Prelude Bytes SpCurve SpCommon.
From S2P Require Bitcoin.

Module SpReceiving.
Import SpCommon.

(** [struct Label]. *)
Record Label `{Curve} := mkLabel { label_scalar : Scalar }.
Arguments mkLabel {_} _.
Arguments label_scalar {_} _.
#[export] Instance Label_eqdec `{Curve} : EqDecision Label.
Proof. solve_decision. Defined.
#[export] Instance Label_countable `{Curve} : Countable Label.
Proof. refine (inj_countable' label_scalar mkLabel _). by intros []. Defined.

(** The outputs a scan finds, by label, with the tweak of each key. *)
Abbreviation Found := (gmap (option Label) (gmap XOnlyPublicKey Scalar)).

Section receiving.
Context `{Curve} `{BM : !BiMapLib Label PublicKey}.

(** [Label::new]; the hash may exceed the order of the curve. *)
Definition new_label (b_scan : SecretKey) (m : N) : outcome Label :=
  let! s := expect (scalar_from_be_bytes
    (tagged_hash "BIP0352/Label" (secret_bytes b_scan ++ u32_to_be_bytes m))) in
  Ret (mkLabel s).

Record Receiver := mkReceiver {
  r_version : N;
  r_scan_pubkey : PublicKey;
  spend_pubkey : PublicKey;
  change_label : Label;
  labels : BiMap (A:=Label) (B:=PublicKey);
  r_network : Network
}.
Definition set_labels (m : BiMap (A:=Label) (B:=PublicKey)) (r : Receiver) : Receiver :=
  mkReceiver (r_version r) (r_scan_pubkey r) (spend_pubkey r) (change_label r) m (r_network r).

(** The point of a label. *)
Definition label_key (label : Label) : result SecretKey Error := secp (sk_from_slice (to_be_bytes (label_scalar label))).
Definition add_label (label : Label) : eff Receiver Error bool := λ r,
  match (try! m := label_key label in
         let mG := public_key m in
         try! _ := secp (combine mG (spend_pubkey r)) in Ok mG) with
  | Err e => (r, Err e)
  | Ok mG =>
      let '(m, overwrote) := bm_insert label mG (labels r) in
      (set_labels m r, Ok (negb overwrote))
  end.
(** [Receiver::new]. *)
Definition new_receiver (version : N) (scan_pubkey spend_pubkey : PublicKey) (change_label : Label)
    (network : Network) : result Receiver Error :=
  if negb (version =? 0) then Err (UnsupportedVersion version)
  else
    let r := mkReceiver version scan_pubkey spend_pubkey change_label bm_new network in
    match add_label change_label r with
    | (r, Ok _) => Ok r
    | (_, Err e) => Err e
    end.

Definition get_silent_payment_address (m_pubkey : PublicKey) (r : Receiver) : outcome SilentPaymentAddress :=
  expect (ok (new_address (r_scan_pubkey r) m_pubkey (r_network r) 0)).
Definition get_change_address (r : Receiver) : outcome SilentPaymentAddress :=
  let! m := expect (ok (label_key (change_label r))) in
  let! B_m := expect (combine (public_key m) (spend_pubkey r)) in
  get_silent_payment_address B_m r.
Definition get_receiving_address (r : Receiver) : outcome SilentPaymentAddress :=
  get_silent_payment_address (spend_pubkey r) r.

(** *** Scanning *)

Definition found_insert (l : option Label) (x : XOnlyPublicKey) (t : Scalar) (found : Found) : Found :=
  <[l := <[x := t]> (default ∅ (found !! l))]> found.

(** The label of the first of the points that has one. *)
Fixpoint label_of (r : Receiver) (diffs : list PublicKey) : option Label :=
  match diffs with
  | [] => None
  | diff :: diffs =>
      match bm_get_by_right diff (labels r) with Some label => Some label | None => label_of r diffs end
  end.
(** The first output that is [P_n] and the point of a label. *)
Fixpoint check_outputs (r : Receiver) (t_n : SecretKey) (P_n : PublicKey) (ps : list XOnlyPublicKey) :
    result (option (XOnlyPublicKey * Label * Scalar)) Error :=
  match ps with
  | [] => Ok None
  | p :: ps =>
      try! even_diff := secp (combine (from_x_only p Even) (pk_negate P_n)) in
      try! odd_diff := secp (combine (from_x_only p Odd) (pk_negate P_n)) in
      match label_of r [even_diff; odd_diff] with
      | Some label =>
          try! t_n_label := secp (sk_add_tweak t_n (label_scalar label)) in
          Ok (Some (p, label, scalar_of_sk t_n_label))
      | None => check_outputs r t_n P_n ps
      end
  end.
(** One turn: what the [n]-th output is, if it is there. *)
Definition scan_turn (r : Receiver) (ecdh_shared_secret : PublicKey) (ps : list XOnlyPublicKey) (n : N) :
    result (option (option Label * XOnlyPublicKey * Scalar)) Error :=
  try! t_n := calculate_t_n ecdh_shared_secret n in
  try! P_n := calculate_P_n (spend_pubkey r) (scalar_of_sk t_n) in
  let P_n_xonly := (x_only_public_key P_n).1 in
  if bool_decide (P_n_xonly ∈ ps) then Ok (Some (None, P_n_xonly, scalar_of_sk t_n))
  else
    try! o := check_outputs r t_n P_n ps in
    Ok ((λ '(p, label, t), (Some label, p, t)) <$> o).
(** [while n_found == n]; [None]: the fuel ran out. Both counters are [u32] and at most
    the number of outputs found plus one. *)
Fixpoint scan_loop (fuel : nat) (r : Receiver) (ecdh_shared_secret : PublicKey)
    (ps : list XOnlyPublicKey) (n_found n : N) (found : Found) : option (result Found Error) :=
  match fuel with
  | O => None
  | S fuel =>
      if n_found =? n then
        match scan_turn r ecdh_shared_secret ps n with
        | Err e => Some (Err e)
        | Ok (Some (l, x, t)) =>
            scan_loop fuel r ecdh_shared_secret ps (n_found + 1) (n + 1) (found_insert l x t found)
        | Ok None => scan_loop fuel r ecdh_shared_secret ps n_found (n + 1) found
        end
      else Some (Ok found)
  end.
Definition scan_transaction (fuel : nat) (r : Receiver) (ecdh_shared_secret : PublicKey)
    (pubkeys_to_check : list XOnlyPublicKey) : option (result Found Error) :=
  scan_loop fuel r ecdh_shared_secret pubkeys_to_check 0 0 ∅.

(** *** The scripts of the first output *)

(** [OP_PUSHNUM_1 OP_PUSHBYTES_32], then the key. *)
Definition p2tr_spk (x : XOnlyPublicKey) : Bitcoin.script := [81; 32] ++ xonly_serialize x.
Definition spk_for (B : PublicKey) (t_0 : SecretKey) : result Bitcoin.script Error :=
  try! P_0 := calculate_P_n B (scalar_of_sk t_0) in Ok (p2tr_spk (x_only_public_key P_0).1).
Fixpoint label_spks (r : Receiver) (t_0 : SecretKey) (l : list (Label * PublicKey))
    (res : gmap (option Label) Bitcoin.script) : result (gmap (option Label) Bitcoin.script) Error :=
  match l with
  | [] => Ok res
  | (label, mG) :: l =>
      try! B_m := secp (combine mG (spend_pubkey r)) in
      try! spk := spk_for B_m t_0 in
      label_spks r t_0 l (<[Some label := spk]> res)
  end.
Definition get_spks_from_shared_secret (r : Receiver) (ecdh_shared_secret : PublicKey) :
    result (gmap (option Label) Bitcoin.script) Error :=
  try! t_0 := calculate_t_n ecdh_shared_secret 0 in
  try! spk := spk_for (spend_pubkey r) t_0 in
  label_spks r t_0 (bm_iter (labels r)) {[None := spk]}.

Fixpoint label_points (r : Receiver) (l : list (Label * PublicKey)) : result (list PublicKey) Error :=
  match l with
  | [] => Ok []
  | (_, mG) :: l =>
      try! p := secp (combine mG (spend_pubkey r)) in
      try! ps := label_points r l in Ok (p :: ps)
  end.
Definition candidate_spend_points (r : Receiver) : result (list PublicKey) Error :=
  try! ps := label_points r (bm_iter (labels r)) in Ok (spend_pubkey r :: ps).

(** *** The secret of a transaction *)

Definition calculate_tweak_data (input_pubkeys : list PublicKey) (outpoints : list (string * N)) :
    outcome (result PublicKey Error) :=
  let? input_sum := Ret (secp (combine_keys input_pubkeys)) in
  let? input_hash := calculate_input_hash outpoints input_sum in
  Ret (secp (pk_mul_tweak input_sum input_hash)).
Definition calculate_ecdh_shared_secret (tweak_data : PublicKey) (b_scan : SecretKey) : outcome PublicKey :=
  expect (pk_from_slice (4 :: shared_secret_point tweak_data b_scan)).
End receiving.

(** ** The keys of the inputs *)

(** [Script::is_p2pkh] and so on, and the hash of a public key. *)
Class ScriptLib := {
  is_p2pkh : Bitcoin.script → bool;
  is_p2sh : Bitcoin.script → bool;
  is_p2wpkh : Bitcoin.script → bool;
  is_p2tr : Bitcoin.script → bool;
  hash160 : list N → list N
}.
(** The templates. *)
Definition p2pkh (h : list N) : Bitcoin.script := [118; 169; 20] ++ h ++ [136; 172].
Definition p2sh (h : list N) : Bitcoin.script := [169; 20] ++ h ++ [135].
Definition p2wpkh (h : list N) : Bitcoin.script := [0; 20] ++ h.
Definition p2tr (x : list N) : Bitcoin.script := [81; 32] ++ x.
Class ScriptLaws `{ScriptLib} := {
  is_p2pkh_law spk : is_p2pkh spk = true ↔ ∃ h, length h = 20%nat ∧ spk = p2pkh h;
  is_p2sh_law spk : is_p2sh spk = true ↔ ∃ h, length h = 20%nat ∧ spk = p2sh h;
  is_p2wpkh_law spk : is_p2wpkh spk = true ↔ ∃ h, length h = 20%nat ∧ spk = p2wpkh h;
  is_p2tr_law spk : is_p2tr spk = true ↔ ∃ x, length x = 32%nat ∧ spk = p2tr x;
  hash160_length bytes : length (hash160 bytes) = 20%nat
}.

Definition NUMS_H : list N :=
  [0x50; 0x92; 0x9b; 0x74; 0xc1; 0xa0; 0x49; 0x54; 0xb7; 0x8b; 0x4b; 0x60; 0x35; 0xe9; 0x7a; 0x5e;
   0x07; 0x8a; 0x5a; 0x0f; 0x28; 0xec; 0x96; 0xd5; 0x47; 0xbf; 0xee; 0x9a; 0xce; 0x80; 0x3a; 0xc0].

Section eligible.
Context `{Build} `{Curve} `{ScriptLib}.

Definition compressed_pubkey (bytes key_hash : list N) : option PublicKey :=
  if negb (len bytes =? 33) || negb (bool_decide (hash160 bytes = key_hash)) then None
  else pk_from_slice bytes.
(** [slice::windows]. *)
Definition windows (n : nat) (l : list N) : list (list N) :=
  (λ i, take n (drop i l)) <$> seq 0 (length l + 1 - n).
Fixpoint find_map {A B} (f : A → option B) (l : list A) : option B :=
  match l with [] => None | a :: l => match f a with Some b => Some b | None => find_map f l end end.

Definition eligible_p2pkh (spk script_sig : list N) (witness : list (list N)) :
    outcome (result (option PublicKey) Error) :=
  if negb (bool_decide (witness = [])) || bool_decide (script_sig = []) then
    Ret (Err (InvalidInput "invalid P2PKH spend"))
  else
    let! h := slice 3 23 spk in
    Ret (Ok (find_map (λ bytes, compressed_pubkey bytes h) (rev (windows 33 script_sig)))).
Definition eligible_p2sh (spk script_sig : list N) (witness : list (list N)) :
    outcome (result (option PublicKey) Error) :=
  if negb (len script_sig =? 23) then Ret (Ok None)
  else
    let! first := expect (script_sig !! 0%nat) in
    if negb (first =? 22) then Ret (Ok None)
    else
      let redeem_script := from 1 script_sig in
      if negb (is_p2wpkh redeem_script) then Ret (Ok None)
      else
        let! h := slice 2 22 spk in
        if negb (bool_decide (hash160 redeem_script = h)) then Ret (Ok None)
        else
          match last witness with
          | None => Ret (Err (InvalidInput "invalid P2SH-P2WPKH spend"))
          | Some bytes =>
              let! h := slice 2 22 redeem_script in
              match compressed_pubkey bytes h with
              | Some p => Ret (Ok (Some p))
              | None => Ret (Err (InvalidInput "invalid P2SH-P2WPKH spend"))
              end
          end.
Definition eligible_p2wpkh (spk script_sig : list N) (witness : list (list N)) :
    outcome (result (option PublicKey) Error) :=
  if negb (bool_decide (script_sig = [])) then Ret (Err (InvalidInput "non-empty P2WPKH scriptSig"))
  else
    match last witness with
    | None => Ret (Err (InvalidInput "invalid P2WPKH spend"))
    | Some bytes =>
        let! h := slice 2 22 spk in
        match compressed_pubkey bytes h with
        | Some p => Ret (Ok (Some p))
        | None => Ret (Err (InvalidInput "invalid P2WPKH spend"))
        end
    end.
(** The internal key of a script path is looked up in the control block. *)
Definition eligible_p2tr (spk script_sig : list N) (witness : list (list N)) :
    outcome (result (option PublicKey) Error) :=
  if negb (bool_decide (script_sig = [])) then Ret (Err (InvalidInput "non-empty P2TR scriptSig"))
  else
    let has_annex := bool_decide (last witness ≫= head = Some 0x50) in
    let! stack_len := sub64 (len witness) (if has_annex then 1 else 0) in
    if stack_len =? 0 then Ret (Err (InvalidInput "empty P2TR witness"))
    else
      let key_out :=
        let! x := slice 2 34 spk in
        Ret (try! xonly := secp (xonly_from_slice x) in Ok (Some (from_x_only xonly Even))) in
      if 1 <? stack_len then
        let! block := expect (witness !! N.to_nat (stack_len - 1)) in
        match slice 1 33 block with
        | Panic => Ret (Err (InvalidInput "invalid P2TR control block"))
        | Ret internal_key => if bool_decide (internal_key = NUMS_H) then Ret (Ok None) else key_out
        end
      else key_out.
Definition eligible_input_pubkey (input : Bitcoin.TxIn) (prevout : Bitcoin.TxOut) :
    outcome (result (option PublicKey) Error) :=
  let spk := Bitcoin.script_pubkey prevout in
  let script_sig := Bitcoin.script_sig input in
  let witness := Bitcoin.witness input in
  if is_p2pkh spk then eligible_p2pkh spk script_sig witness
  else if is_p2sh spk then eligible_p2sh spk script_sig witness
  else if is_p2wpkh spk then eligible_p2wpkh spk script_sig witness
  else if is_p2tr spk then eligible_p2tr spk script_sig witness
  else Ret (Ok None).
End eligible.

(** ** Lemmas: labels *)

Section labels.
Context `{CurveLaws} `{BM : !BiMapLib Label PublicKey} `{!BiMapLaws Label PublicKey}.
Implicit Types r : Receiver.

(** What a label adds to the spend key. *)
Definition shift (l : option Label) : Z :=
  match l with Some label => sc (label_scalar label) | None => 0%Z end.
Definition registered r (l : option Label) : Prop :=
  match l with Some label => ∃ p, (label, p) ∈ bm_iter (labels r) | None => True end.

(** A receiver's labels come with their points, and their addresses exist; the change
    label is among them. *)
Record receiver_ok r : Prop := {
  ro_version : r_version r = 0;
  ro_point label p : (label, p) ∈ bm_iter (labels r) → dl p = sc (label_scalar label);
  ro_address label p : (label, p) ∈ bm_iter (labels r) → ¬ cong order (dl p + dl (spend_pubkey r)) 0;
  ro_change : registered r (Some (change_label r))
}.

Lemma label_key_spec label :
  match label_key label with
  | Ok m => dl (public_key m) = sc (label_scalar label)
  | Err _ => sc (label_scalar label) = 0%Z
  end.
Proof.
  unfold label_key. pose proof (sk_of_scalar (label_scalar label)) as Hs.
  destruct (sk_from_slice _) as [m|]; cbn; [by rewrite dl_public_key|done].
Qed.

(** Adding a label: the map gains it, or nothing changes. *)
Lemma add_label_spec label r r' res : add_label label r = (r', res) →
  match res with
  | Err _ => r' = r
  | Ok is_new => ∃ mG, r' = set_labels (bm_insert label mG (labels r)).1 r ∧
      dl mG = sc (label_scalar label) ∧ ¬ cong order (dl mG + dl (spend_pubkey r)) 0 ∧
      is_new = negb (bm_insert label mG (labels r)).2
  end.
Proof.
  unfold add_label, rbind. pose proof (label_key_spec label) as Hm.
  destruct (label_key label) as [m|]; [|by intros [= <- <-]].
  pose proof (combine_None (public_key m) (spend_pubkey r)) as Hc.
  destruct (combine (public_key m) (spend_pubkey r)) as [B|]; cbn; [|by intros [= <- <-]].
  destruct (bm_insert _ _ _) as [mp o] eqn:Hi. intros [= <- <-]. exists (public_key m).
  rewrite Hi. split_and!; [done..| |done]. by intros ?%Hc.
Qed.

Lemma add_label_ok label r : receiver_ok r → receiver_ok (add_label label r).1 ∧
  match (add_label label r).2 with
  | Err _ => (add_label label r).1 = r
  | Ok is_new => (∀ l, registered (add_label label r).1 l ↔ registered r l ∨ l = Some label) ∧
      (is_new = false ↔ registered r (Some label))
  end.
Proof.
  intros Hr. destruct (add_label label r) as [r' [is_new|e]] eqn:Ha; apply add_label_spec in Ha; cbn [fst snd].
  2: { by subst. }
  destruct Ha as (mG & -> & HmG & Hc & ->).
  assert (Hsame : ∀ l p, (l, p) ∈ bm_iter (labels r) → l = label ↔ p = mG).
  { intros l p Hin. apply (ro_point _ Hr) in Hin as Hp. split; intros ->.
    - apply dl_inj. by rewrite Hp, HmG.
    - destruct l as [t], label as [t']. f_equal. apply sc_inj. cbn in *. by rewrite <-Hp. }
  assert (Hreg : ∀ l p, (l, p) ∈ bm_iter (bm_insert label mG (labels r)).1 ↔
    (l, p) ∈ bm_iter (labels r) ∨ (l = label ∧ p = mG)).
  { intros l p. rewrite bm_iter_insert. destruct (decide (l = label)) as [->|Hne].
    - split; [naive_solver|]. intros [Hin|[_ ->]]; [|by left]. left. split; [done|]. by apply (Hsame label).
    - split; [naive_solver|]. intros [Hin|[? _]]; [|done]. right. split_and!; [done| |done].
      intros ->. by apply Hne, (Hsame l mG). }
  split.
  - split; cbn; [apply Hr|..].
    + intros l p [Hin|[-> ->]]%Hreg; [by apply (ro_point _ Hr)|done].
    + intros l p [Hin|[-> ->]]%Hreg; [by apply (ro_address _ Hr l)|done].
    + destruct (ro_change _ Hr) as [p Hp]. exists p. apply Hreg. by left.
  - split.
    + intros [l|]; cbn; [|split; [by left|done]]. setoid_rewrite Hreg. naive_solver.
    + rewrite negb_false_iff, bm_overwrite. cbn. split.
      * intros (l & p & Hin & [-> | ->]); [by eexists|]. exists mG. by rewrite <-(proj2 (Hsame l mG Hin) eq_refl).
      * intros [p Hin]. exists label, p. auto.
Qed.

Lemma new_receiver_ok version scan spend change network r :
  new_receiver version scan spend change network = Ok r →
  receiver_ok r ∧ (∀ l, registered r l ↔ l = None ∨ l = Some change) ∧
  r_scan_pubkey r = scan ∧ spend_pubkey r = spend ∧ r_network r = network.
Proof.
  unfold new_receiver. destruct (version =? 0) eqn:Hv; cbn [negb]; [|done]. apply N.eqb_eq in Hv as ->.
  destruct (add_label _ _) as [r' [b|e]] eqn:Ha; [|done]. intros [= ->].
  apply add_label_spec in Ha as (mG & -> & HmG & Hc & _). cbn in Hc.
  assert (Hreg : ∀ l p, (l, p) ∈ bm_iter (bm_insert change mG bm_new).1 ↔ l = change ∧ p = mG).
  { intros l p. rewrite bm_iter_insert. split; [|by left]. intros [?|(_ & _ & Hin)]; [done|].
    by apply bm_iter_new in Hin. }
  split_and!; [|..|done|done|done].
  - split; cbn; [done|..].
    + intros l p [-> ->]%Hreg. done.
    + intros l p [-> ->]%Hreg. done.
    + exists mG. by apply Hreg.
  - intros [l|]; cbn; [|naive_solver]. setoid_rewrite Hreg. naive_solver.
Qed.

(** Whom an address pays: the receiver, under a label. *)
Definition pays r (l : option Label) (a : SilentPaymentAddress) : Prop :=
  SpCommon.scan_pubkey a = r_scan_pubkey r ∧ registered r l ∧
  cong order (dl (m_pubkey a)) (dl (spend_pubkey r) + shift l).

Lemma receiving_address_pays r : ∃ a, get_receiving_address r = Ret a ∧ pays r None a.
Proof.
  eexists. split; [reflexivity|]. split_and!; [done..|]. cbn. by rewrite Z.add_0_r.
Qed.
Lemma change_address_pays r : receiver_ok r →
  ∃ a, get_change_address r = Ret a ∧ pays r (Some (change_label r)) a.
Proof.
  intros Hr. destruct (ro_change _ Hr) as [p Hin]. pose proof (ro_point _ Hr _ _ Hin) as Hp.
  unfold get_change_address. pose proof (label_key_spec (change_label r)) as Hm.
  destruct (label_key (change_label r)) as [m|]; cbn [ok expect obind].
  2: { exfalso. pose proof (dl_range p). lia. }
  destruct (combine (public_key m) (spend_pubkey r)) as [B|] eqn:HB; cbn [expect obind].
  - eexists. split; [reflexivity|]. split_and!; [done|by exists p|]. cbn. apply combine_Some in HB.
    by rewrite HB, Hm, Z.add_comm.
  - exfalso. apply combine_None in HB. apply (ro_address _ Hr _ _ Hin). by rewrite Hp, <-Hm.
Qed.
End labels.

(** ** Lemmas: what a scan finds *)

Section scan.
Context `{CurveLaws} `{BM : !BiMapLib Label PublicKey} `{!BiMapLaws Label PublicKey}.
Context (r : Receiver) (Hr : receiver_ok r) (S : PublicKey) (ps : list XOnlyPublicKey).

(** The key of an [n]-th output under a label, and the tweak that spends it. *)
Definition candidate (n : N) (l : option Label) (x : XOnlyPublicKey) (t : Scalar) : Prop :=
  ∃ t_n P, calculate_t_n S n = Ok t_n ∧ registered r l ∧
    (sc t ≠ 0%Z ∧ cong order (sc t) (sk t_n + shift l)) ∧
    cong order (dl P) (dl (spend_pubkey r) + sc t) ∧ x = (x_only_public_key P).1.

Lemma label_of_spec diffs label : label_of r diffs = Some label →
  ∃ p, p ∈ diffs ∧ (label, p) ∈ bm_iter (labels r).
Proof.
  induction diffs as [|d diffs IH]; cbn [label_of]; [done|].
  destruct (bm_get_by_right d (labels r)) as [l|] eqn:Hd.
  - intros [= ->]. exists d. split; [left|]. by apply bm_right.
  - intros Hl. destruct (IH Hl) as (p & Hp & Hin). exists p. split; [by right|done].
Qed.
Lemma label_of_None diffs : label_of r diffs = None →
  ∀ p label, p ∈ diffs → (label, p) ∉ bm_iter (labels r).
Proof.
  induction diffs as [|d diffs IH]; cbn [label_of]; [set_solver|].
  destruct (bm_get_by_right d (labels r)) as [l|] eqn:Hd; [done|].
  intros Hl p label [->|Hp]%elem_of_cons; [|by apply IH].
  intros Hin. apply bm_right in Hin. congruence.
Qed.

(** The difference of an output and [P_n], for either of its points. *)
Definition diff_of (P_n : PublicKey) (p : XOnlyPublicKey) (d : PublicKey) : Prop :=
  ∃ par, cong order (dl d) (dl (from_x_only p par) - dl P_n).

Lemma check_outputs_found t_n P_n l p label t : check_outputs r t_n P_n l = Ok (Some (p, label, t)) →
  p ∈ l ∧ (∃ d, diff_of P_n p d ∧ (label, d) ∈ bm_iter (labels r)) ∧
  sc t ≠ 0%Z ∧ cong order (sc t) (sk t_n + sc (label_scalar label)).
Proof.
  induction l as [|q l IH]; cbn [check_outputs]; [done|]. unfold rbind.
  destruct (combine (from_x_only q Even) _) as [d1|] eqn:H1; cbn [secp ok_or]; [|done].
  destruct (combine (from_x_only q Odd) _) as [d2|] eqn:H2; cbn [secp ok_or]; [|done].
  destruct (label_of r [d1; d2]) as [label'|] eqn:Hl.
  - destruct (sk_add_tweak t_n _) as [t'|] eqn:Ht; cbn [secp ok_or]; [|done]. intros [= -> -> <-].
    split; [left|]. split.
    + apply label_of_spec in Hl as (d & Hd & Hin). exists d. split; [|done].
      apply combine_Some in H1, H2. rewrite dl_negate in H1, H2.
      rewrite !elem_of_cons in Hd. destruct Hd as [-> | [-> | Hd]]; [by exists Even|by exists Odd|].
      by apply not_elem_of_nil in Hd.
    + rewrite sc_of_sk. split; [|by apply sk_add_Some]. pose proof (sk_range t'). lia.
  - intros Hc. destruct (IH Hc) as (Hp & Hrest). split; [by right|done].
Qed.

(** No other output is [P_n] and the point of a label. *)
Lemma check_outputs_none t_n P_n l : check_outputs r t_n P_n l = Ok None →
  ∀ p d label, p ∈ l → diff_of P_n p d → (label, d) ∉ bm_iter (labels r).
Proof.
  induction l as [|q l IH]; cbn [check_outputs]; [set_solver|]. unfold rbind.
  destruct (combine (from_x_only q Even) _) as [d1|] eqn:H1; cbn [secp ok_or]; [|done].
  destruct (combine (from_x_only q Odd) _) as [d2|] eqn:H2; cbn [secp ok_or]; [|done].
  destruct (label_of r [d1; d2]) as [label'|] eqn:Hl; [by destruct (sk_add_tweak _ _)|].
  intros Hc p d label [-> | Hp]%elem_of_cons; [|by apply IH].
  intros [par Hd]. apply (label_of_None _ Hl). apply combine_Some in H1, H2. rewrite dl_negate in H1, H2.
  rewrite !elem_of_cons. destruct par; [left|right; left]; apply point_eq.
  - by rewrite Hd, H1.
  - by rewrite Hd, H2.
Qed.

(** The derivation of a turn does not fail: what the hash gives is a key, and so are
    its sums. *)
Definition derivable (n : N) : Prop := ∃ t_n, calculate_t_n S n = Ok t_n ∧
  ¬ cong order (dl (spend_pubkey r) + sk t_n) 0 ∧
  ∀ label, registered r (Some label) → ¬ cong order (sk t_n + sc (label_scalar label)) 0.

Lemma check_outputs_ok t_n P_n l : (x_only_public_key P_n).1 ∉ l →
  (∀ label, registered r (Some label) → ¬ cong order (sk t_n + sc (label_scalar label)) 0) →
  ∃ o, check_outputs r t_n P_n l = Ok o.
Proof.
  intros Hx Hlab. induction l as [|q l IH]; cbn [check_outputs]; [eauto|]. unfold rbind.
  rewrite not_elem_of_cons in Hx. destruct Hx as [Hq Hx].
  assert (Hne : ∀ par, ∃ d, combine (from_x_only q par) (pk_negate P_n) = Some d).
  { intros par. destruct (combine _ _) as [d|] eqn:Hd; [eauto|]. exfalso. apply combine_None in Hd.
    rewrite dl_negate in Hd. apply Hq. apply (x_of_point _ _ par). apply point_eq.
    symmetry. by apply cong_of_sub. }
  destruct (Hne Even) as [d1 ->], (Hne Odd) as [d2 ->]. cbn [secp ok_or].
  destruct (label_of r [d1; d2]) as [label|] eqn:Hl; [|by apply IH].
  apply label_of_spec in Hl as (d & _ & Hin).
  destruct (sk_add_tweak t_n (label_scalar label)) as [t|] eqn:Ht; cbn [secp ok_or]; [eauto|].
  exfalso. apply sk_add_None in Ht. by apply (Hlab label); [exists d|].
Qed.

Lemma scan_turn_found n l x t : scan_turn r S ps n = Ok (Some (l, x, t)) → x ∈ ps ∧ candidate n l x t.
Proof.
  unfold scan_turn, rbind, calculate_P_n. destruct (calculate_t_n S n) as [t_n|] eqn:Htn; [|done].
  destruct (add_exp_tweak _ _) as [P|] eqn:HP; cbn [secp ok_or]; [|done]. apply add_exp_Some in HP.
  rewrite sc_of_sk in HP. case_bool_decide as Hx.
  - intros [= <- <- <-]. split; [done|]. exists t_n, P. split_and!; [done|done| | | |done].
    + rewrite sc_of_sk. pose proof (sk_range t_n). lia.
    + rewrite sc_of_sk. cbn [shift]. by rewrite Z.add_0_r.
    + by rewrite sc_of_sk.
  - destruct (check_outputs r t_n P ps) as [[[[p label] t']|]|] eqn:Hc; [|done..].
    intros [= <- <- <-]. apply check_outputs_found in Hc as (Hp & (d & [par Hd] & Hin) & Hnz & Ht).
    split; [done|]. exists t_n, (from_x_only p par). rewrite (ro_point _ Hr _ _ Hin) in Hd.
    split_and!; [done|by exists d|done|done| |by rewrite point_x_only].
    rewrite Ht. transitivity (sc (label_scalar label) + dl P)%Z; [rewrite Hd; cong_ring|].
    rewrite HP. cong_ring.
Qed.

Lemma scan_turn_none n : scan_turn r S ps n = Ok None → ∀ l x t, candidate n l x t → x ∉ ps.
Proof.
  unfold scan_turn, rbind, calculate_P_n. destruct (calculate_t_n S n) as [t_n|] eqn:Htn; [|done].
  destruct (add_exp_tweak _ _) as [P|] eqn:HP; cbn [secp ok_or]; [|done]. apply add_exp_Some in HP.
  rewrite sc_of_sk in HP. case_bool_decide as Hx; [done|].
  destruct (check_outputs r t_n P ps) as [[[[p label] t']|]|] eqn:Hc; [done| |done]. intros _ l x t.
  intros (t_n' & Q & Ht' & Hreg & [_ Ht] & HQ & ->) Hin.
  assert (t_n' = t_n) as -> by congruence. rewrite Ht in HQ. destruct l as [label|]; cbn [shift registered] in *.
  - destruct Hreg as [d Hd]. apply (check_outputs_none _ _ _ Hc _ d label Hin); [|done].
    exists (x_only_public_key Q).2. rewrite x_only_point, (ro_point _ Hr _ _ Hd), HQ, HP. cong_ring.
  - apply Hx. assert (Q = P) as <-; [|done]. apply point_eq. rewrite HQ, HP. cong_ring.
Qed.

Lemma scan_turn_ok n : derivable n → ∃ o, scan_turn r S ps n = Ok o.
Proof.
  intros (t_n & Htn & Hsum & Hlab). unfold scan_turn, rbind, calculate_P_n. rewrite Htn.
  destruct (add_exp_tweak _ _) as [P|] eqn:HP; cbn [secp ok_or].
  - case_bool_decide as Hx; [eauto|]. destruct (check_outputs_ok t_n P ps Hx Hlab) as [o ->]. eauto.
  - exfalso. pose proof (add_exp_law (spend_pubkey r) (scalar_of_sk t_n)) as Hl. rewrite HP, sc_of_sk in Hl.
    by apply Hsum.
Qed.

(** Two candidates of a turn under a label are the same. *)
Lemma candidate_unique n l x t x' t' : candidate n l x t → candidate n l x' t' → x = x' ∧ t = t'.
Proof.
  intros (t_n & P & Hn & _ & [_ Ht] & HP & ->) (t_n' & P' & Hn' & _ & [_ Ht'] & HP' & ->).
  assert (t_n' = t_n) as -> by congruence.
  assert (t = t') as <-.
  { apply sc_inj, (cong_small order); [apply sc_range..|]. by rewrite Ht, Ht'. }
  split; [|done]. do 2 f_equal. apply point_eq. by rewrite HP, HP'.
Qed.

(** *** The loop *)

Definition in_found (found : Found) (l : option Label) (x : XOnlyPublicKey) (t : Scalar) : Prop :=
  default ∅ (found !! l) !! x = Some t.
Lemma in_found_insert found l x t l' x' t' : in_found (found_insert l x t found) l' x' t' ↔
  (l' = l ∧ x' = x ∧ t' = t) ∨ ((l', x') ≠ (l, x) ∧ in_found found l' x' t').
Proof.
  unfold in_found, found_insert. destruct (decide (l' = l)) as [->|Hl].
  - rewrite lookup_insert_eq. cbn [default from_option id]. destruct (decide (x' = x)) as [->|Hx].
    + rewrite lookup_insert_eq. naive_solver.
    + rewrite lookup_insert_ne by done. naive_solver.
  - rewrite lookup_insert_ne by done. naive_solver.
Qed.
Lemma in_found_empty l x t : ¬ in_found ∅ l x t.
Proof. unfold in_found. by rewrite lookup_empty. Qed.

(** Whatever the outputs are, what is found is a candidate among them. *)
Lemma scan_loop_sound fuel : ∀ n_found n found res, scan_loop fuel r S ps n_found n found = Some (Ok res) →
  (∀ l x t, in_found found l x t → x ∈ ps ∧ ∃ n, candidate n l x t) →
  ∀ l x t, in_found res l x t → x ∈ ps ∧ ∃ n, candidate n l x t.
Proof.
  induction fuel as [|fuel IH]; intros n_found n found res; cbn [scan_loop]; [done|].
  destruct (n_found =? n); [|by intros [= ->]].
  destruct (scan_turn r S ps n) as [[[[l x] t]|]|] eqn:Ht; [| |done].
  - intros Hs Hf. apply (IH _ _ _ _ Hs). intros l' x' t' [(-> & -> & ->)|[_ Hin]]%in_found_insert.
    + apply scan_turn_found in Ht as [? ?]. eauto.
    + by apply Hf.
  - intros Hs Hf. by apply (IH _ _ _ _ Hs).
Qed.
Lemma scan_sound fuel res : scan_transaction fuel r S ps = Some (Ok res) →
  ∀ l x t, in_found res l x t → x ∈ ps ∧ ∃ n, candidate n l x t.
Proof.
  intros Hs. apply (scan_loop_sound _ _ _ _ _ Hs). intros l x t Hf. by apply in_found_empty in Hf.
Qed.

(** The tweak of what is found makes the spend key the key of the output. *)
Lemma candidate_spends n l x t b : candidate n l x t → public_key b = spend_pubkey r →
  ∃ k, sk_add_tweak b t = Some k ∧ (x_only_public_key (public_key k)).1 = x.
Proof.
  intros (t_n & P & _ & _ & _ & HP & ->) Hb. rewrite <-Hb, dl_public_key in HP.
  destruct (sk_add_tweak b t) as [k|] eqn:Hk.
  - exists k. split; [done|]. do 2 f_equal. apply point_eq. apply sk_add_Some in Hk.
    by rewrite dl_public_key, Hk, HP.
  - exfalso. apply sk_add_None in Hk. apply (point_nonzero P). by rewrite HP.
Qed.

(** *** Payments *)

(** The labels paid, in order, the first [k] of them: the outputs hold the key of each
    under its number, and no other candidate of the numbers up to the first unused
    one, which only an accidental collision of hashes would be. *)
Record paid (ls : list (option Label)) : Prop := {
  paid_out n l : ls !! n = Some l → ∃ x t, candidate (N.of_nat n) l x t ∧ x ∈ ps;
  paid_only n l x t : (n ≤ length ls)%nat → candidate (N.of_nat n) l x t → x ∈ ps → ls !! n = Some l;
  paid_derivable n : (n ≤ length ls)%nat → derivable (N.of_nat n)
}.

Lemma paid_turn ls n : paid ls → (n ≤ length ls)%nat →
  match ls !! n with
  | Some l => ∃ x t, candidate (N.of_nat n) l x t ∧ scan_turn r S ps (N.of_nat n) = Ok (Some (l, x, t))
  | None => scan_turn r S ps (N.of_nat n) = Ok None
  end.
Proof.
  intros Hp Hn. destruct (scan_turn_ok _ (paid_derivable _ Hp n Hn)) as [[[[l x] t]|] Ht].
  - pose proof (scan_turn_found _ _ _ _ Ht) as [Hx Hc].
    rewrite (paid_only _ Hp n l x t Hn Hc Hx). eauto.
  - destruct (ls !! n) as [l|] eqn:Hl; [|done]. destruct (paid_out _ Hp n l Hl) as (x & t & Hc & Hx).
    by destruct (scan_turn_none _ Ht _ _ _ Hc).
Qed.

(** The loop returns, with the payments and nothing else. *)
Lemma scan_paid ls fuel : paid ls → (length ls + 2 ≤ fuel)%nat →
  ∃ res, scan_transaction fuel r S ps = Some (Ok res) ∧
    ∀ l x, (∃ t, in_found res l x t) ↔
           ∃ n t, ls !! n = Some l ∧ candidate (N.of_nat n) l x t.
Proof.
  intros Hp Hfuel. assert (Hgen : ∀ j n found fuel, (j + n = length ls)%nat → (j + 2 ≤ fuel)%nat →
    (∀ l x, (∃ t, in_found found l x t) ↔
       ∃ i t, (i < n)%nat ∧ ls !! i = Some l ∧ candidate (N.of_nat i) l x t) →
    ∃ res, scan_loop fuel r S ps (N.of_nat n) (N.of_nat n) found = Some (Ok res) ∧
      ∀ l x, (∃ t, in_found res l x t) ↔
        ∃ i t, ls !! i = Some l ∧ candidate (N.of_nat i) l x t).
  { induction j as [|j IH]; intros n found [|fuel'] Hj Hf Hinv; try lia; cbn [scan_loop];
      rewrite N.eqb_refl; pose proof (paid_turn ls n Hp ltac:(lia)) as Ht.
    - rewrite lookup_ge_None_2 in Ht by lia. rewrite Ht. destruct fuel' as [|fuel']; [lia|].
      cbn [scan_loop]. replace (N.of_nat n =? N.of_nat n + 1) with false by (symmetry; apply N.eqb_neq; lia).
      exists found. split; [done|]. intros l x. rewrite Hinv. split; [naive_solver|].
      intros (i & t & Hi & Hc). exists i, t. split_and!; [|done..]. apply lookup_lt_Some in Hi. lia.
    - destruct (ls !! n) as [l|] eqn:Hl; [|apply lookup_ge_None in Hl; lia].
      destruct Ht as (x & t & Hc & ->). replace (N.of_nat n + 1) with (N.of_nat (Datatypes.S n)) by lia.
      apply IH; [lia..|]. intros l' x'. split.
      + intros [t' [(-> & -> & ->)|[_ Hin]]%in_found_insert].
        * exists n, t. split_and!; [lia|done..].
        * destruct (proj1 (Hinv l' x')) as (i & t'' & Hi & ? & ?); [by exists t'|].
          exists i, t''. split_and!; [lia|done..].
      + intros (i & t' & Hi & Hli & Hci). destruct (decide (i = n)) as [->|Hne].
        * assert (l' = l) as -> by congruence. destruct (candidate_unique _ _ _ _ _ _ Hc Hci) as [-> ->].
          exists t'. apply in_found_insert. auto.
        * destruct (proj2 (Hinv l' x')) as [t'' Hin].
          { exists i, t'. split_and!; [lia|done..]. }
          destruct (decide ((l', x') = (l, x))) as [[= -> ->]|Hd].
          -- exists t. apply in_found_insert. auto.
          -- exists t''. apply in_found_insert. auto. }
  apply (Hgen (length ls) 0%nat); [lia|done|].
  intros l x. split; [|naive_solver lia].
  intros [t Hf]. by apply in_found_empty in Hf.
Qed.

(** *** No accidental collision *)

(** What the hashes of the numbers up to the first unused one do not do: fail to be
    keys, or make the key of an output, or of another payment, by accident. *)
Record no_collision (ls : list (option Label)) : Prop := {
  nc_only n l x t : (n ≤ length ls)%nat → candidate (N.of_nat n) l x t → x ∈ ps → ls !! n = Some l;
  nc_distinct n n' l l' x t t' : ls !! n = Some l → ls !! n' = Some l' →
    candidate (N.of_nat n) l x t → candidate (N.of_nat n') l' x t' → n = n';
  nc_derivable n : (n ≤ length ls)%nat → derivable (N.of_nat n)
}.

(** The same, computed: there are finitely many labels. *)
Definition all_labels : list (option Label) := None :: (Some <$> (bm_iter (labels r)).*1).
Definition label_tweak (t_n : SecretKey) (l : option Label) : option Scalar :=
  match l with Some label => scalar_of_sk <$> sk_add_tweak t_n (label_scalar label) | None => Some (scalar_of_sk t_n) end.
Definition candidate_key (n : nat) (l : option Label) : option XOnlyPublicKey :=
  t_n ← ok (calculate_t_n S (N.of_nat n));
  t ← label_tweak t_n l;
  P ← add_exp_tweak (spend_pubkey r) t;
  Some (x_only_public_key P).1.
Definition candidate_check (ls : list (option Label)) (n : nat) (l : option Label) : bool :=
  match candidate_key n l with
  | Some x => bool_decide (x ∈ ps → ls !! n = Some l)
  | None => true
  end.
Definition derivable_check (n : nat) : bool :=
  match ok (calculate_t_n S (N.of_nat n)) with
  | Some t_n =>
      bool_decide (is_Some (add_exp_tweak (spend_pubkey r) (scalar_of_sk t_n))) &&
      forallb (λ l, bool_decide (is_Some (label_tweak t_n l))) all_labels
  | None => false
  end.
Definition no_collision_check (ls : list (option Label)) : bool :=
  forallb (λ n, forallb (candidate_check ls n) all_labels && derivable_check n) (seq 0 (length ls + 1)) &&
  bool_decide (NoDup (imap candidate_key ls)).

Lemma registered_labels l : registered r l ↔ l ∈ all_labels.
Proof.
  unfold all_labels. destruct l as [label|]; cbn [registered]; [|set_solver].
  rewrite elem_of_cons, list_elem_of_fmap. split.
  - intros [p Hp]. right. exists label. split; [done|]. apply list_elem_of_fmap. by exists (label, p).
  - intros [?|(label' & [= <-] & ([l p] & -> & Hin)%list_elem_of_fmap)]; [done|]. by exists p.
Qed.
Lemma candidate_computed n l x t : candidate (N.of_nat n) l x t → candidate_key n l = Some x ∧ l ∈ all_labels.
Proof.
  intros (t_n & P & Htn & Hreg & [Hnz Ht] & HP & ->). split; [|by apply registered_labels].
  unfold candidate_key. rewrite Htn. cbn [ok mbind option_bind].
  assert (label_tweak t_n l = Some t) as ->.
  { destruct l as [label|]; cbn [label_tweak shift] in *.
    - destruct (sk_add_tweak t_n (label_scalar label)) as [k|] eqn:Hk; cbn.
      + f_equal. apply sc_inj, (cong_small order); [apply sc_range..|]. rewrite sc_of_sk, Ht.
        by apply sk_add_Some in Hk.
      + exfalso. apply sk_add_None in Hk. rewrite <-Ht in Hk. apply (cong_nonzero order (sc t)); [|done].
        pose proof (sc_range t). lia.
    - f_equal. apply sc_inj, (cong_small order); [apply sc_range..|]. rewrite sc_of_sk, Ht. cong_ring. }
  cbn. destruct (add_exp_tweak (spend_pubkey r) t) as [P'|] eqn:HP'; cbn.
  - do 3 f_equal. apply point_eq. apply add_exp_Some in HP'. by rewrite HP', HP.
  - exfalso. pose proof (add_exp_law (spend_pubkey r) t) as Hl. rewrite HP' in Hl. rewrite <-HP in Hl.
    by apply point_nonzero in Hl.
Qed.
Lemma no_collision_checked ls : no_collision_check ls = true → no_collision ls.
Proof.
  unfold no_collision_check. intros [Hall Hnd%bool_decide_eq_true]%andb_true_iff.
  rewrite forallb_forall in Hall. assert (Hn : ∀ n, (n ≤ length ls)%nat →
    forallb (candidate_check ls n) all_labels = true ∧ derivable_check n = true).
  { intros n Hn. apply andb_true_iff, Hall, in_seq. lia. }
  split.
  - intros n l x t Hle Hc Hx. apply candidate_computed in Hc as [Hk Hl]. destruct (Hn n Hle) as [Hf _].
    rewrite forallb_forall in Hf. specialize (Hf l (proj1 (list_elem_of_In _ _) Hl)).
    unfold candidate_check in Hf. rewrite Hk in Hf. apply bool_decide_eq_true in Hf. by apply Hf.
  - intros n n' l l' x t t' Hl Hl' [Hk _]%candidate_computed [Hk' _]%candidate_computed.
    eapply (NoDup_lookup (imap candidate_key ls)); [done|..]; rewrite list_lookup_imap.
    + by rewrite Hl.
    + rewrite Hl'. cbn. congruence.
  - intros n Hle. destruct (Hn n Hle) as [_ Hd]. unfold derivable_check in Hd.
    destruct (calculate_t_n S (N.of_nat n)) as [t_n|] eqn:Htn; cbn [ok] in Hd; [|done].
    apply andb_true_iff in Hd as [HP%bool_decide_eq_true Hlab]. exists t_n. split; [done|]. split.
    + pose proof (add_exp_law (spend_pubkey r) (scalar_of_sk t_n)) as Hl. rewrite sc_of_sk in Hl.
      destruct HP as [P HP]. rewrite HP in Hl. rewrite <-Hl. apply point_nonzero.
    + intros label Hreg Hc. apply registered_labels in Hreg. rewrite forallb_forall in Hlab.
      specialize (Hlab _ (proj1 (list_elem_of_In _ _) Hreg)). apply bool_decide_eq_true in Hlab.
      cbn [label_tweak] in Hlab. apply sk_add_None in Hc. rewrite Hc in Hlab. by destruct Hlab.
Qed.
End scan.

(** ** Which key an input counts with *)

Section inputs.
Context `{Build} `{CurveLaws} `{ScriptLaws}.

(** The point of an input key: a taproot output only shows its x. *)
Definition input_point (k : SecretKey * bool) : PublicKey :=
  if k.2 then from_x_only (x_only_public_key (public_key k.1)).1 Even else public_key k.1.

(** How the owner of a key spends an output to it: the taproot signature of a key path
    does not start with the byte of an annex. *)
Inductive spends (k : SecretKey) : bool → Bitcoin.TxIn → Bitcoin.TxOut → Prop :=
  | Spends_p2pkh op sequence pre value :
      spends k false (Bitcoin.mkTxIn op (pre ++ pk_serialize (public_key k)) sequence [])
        (Bitcoin.mkTxOut value (p2pkh (hash160 (pk_serialize (public_key k)))))
  | Spends_p2sh op sequence sigs value :
      spends k false
        (Bitcoin.mkTxIn op (22 :: p2wpkh (hash160 (pk_serialize (public_key k)))) sequence
           (sigs ++ [pk_serialize (public_key k)]))
        (Bitcoin.mkTxOut value (p2sh (hash160 (p2wpkh (hash160 (pk_serialize (public_key k)))))))
  | Spends_p2wpkh op sequence sigs value :
      spends k false (Bitcoin.mkTxIn op [] sequence (sigs ++ [pk_serialize (public_key k)]))
        (Bitcoin.mkTxOut value (p2wpkh (hash160 (pk_serialize (public_key k)))))
  | Spends_p2tr op sequence sig value : head sig ≠ Some 0x50 →
      spends k true (Bitcoin.mkTxIn op [] sequence [sig])
        (Bitcoin.mkTxOut value (p2tr (xonly_serialize (x_only_public_key (public_key k)).1))).

(** The templates are apart. *)
Lemma not_p2pkh spk : head spk ≠ Some 118 → is_p2pkh spk = false.
Proof. intros Hh. apply not_true_iff_false. by intros (h & _ & ->)%is_p2pkh_law. Qed.
Lemma not_p2sh spk : head spk ≠ Some 169 → is_p2sh spk = false.
Proof. intros Hh. apply not_true_iff_false. by intros (h & _ & ->)%is_p2sh_law. Qed.
Lemma not_p2wpkh spk : head spk ≠ Some 0 → is_p2wpkh spk = false.
Proof. intros Hh. apply not_true_iff_false. by intros (h & _ & ->)%is_p2wpkh_law. Qed.

Lemma len_32 {A} (l : list A) n : length l = n → len l = N.of_nat n.
Proof. by intros <-. Qed.
Lemma slice_p2pkh h : length h = 20%nat → slice 3 23 (p2pkh h) = Ret h.
Proof. intros Hh. apply slice_app; [done|]. rewrite (len_32 h 20) by done. done. Qed.
Lemma slice_p2sh h : length h = 20%nat → slice 2 22 (p2sh h) = Ret h.
Proof. intros Hh. apply slice_app; [done|]. rewrite (len_32 h 20) by done. done. Qed.
Lemma slice_p2wpkh h : length h = 20%nat → slice 2 22 (p2wpkh h) = Ret h.
Proof.
  intros Hh. unfold p2wpkh. rewrite <-(app_nil_r h) at 1. apply slice_app; [done|].
  rewrite (len_32 h 20) by done. done.
Qed.
Lemma slice_p2tr x : length x = 32%nat → slice 2 34 (p2tr x) = Ret x.
Proof.
  intros Hh. unfold p2tr. rewrite <-(app_nil_r x) at 1. apply slice_app; [done|].
  rewrite (len_32 x 32) by done. done.
Qed.

Lemma find_map_Some {A B} (f : A → option B) l b : find_map f l = Some b → ∃ a, a ∈ l ∧ f a = Some b.
Proof.
  induction l as [|a l IH]; cbn [find_map]; [done|]. destruct (f a) as [b'|] eqn:Ha.
  - intros [= ->]. exists a. split; [left|done].
  - intros Hb. destruct (IH Hb) as (a' & ? & ?). exists a'. split; [by right|done].
Qed.
Lemma last_window pre l n : length l = n → ∃ rest, rev (windows n (pre ++ l)) = l :: rest.
Proof.
  intros <-. unfold windows. rewrite length_app.
  replace (length pre + length l + 1 - length l)%nat with (length pre + 1)%nat by lia.
  rewrite seq_app, fmap_app, rev_app_distr. cbn. rewrite drop_app_length, take_ge by done. eauto.
Qed.
Lemma compressed_own p h : hash160 (pk_serialize p) = h → compressed_pubkey (pk_serialize p) h = Some p.
Proof.
  intros <-. unfold compressed_pubkey. destruct (pk_bytes p) as [Hl Hp].
  rewrite (len_32 _ 33) by done. rewrite bool_decide_true by done. done.
Qed.
Lemma compressed_Some bytes h p : compressed_pubkey bytes h = Some p →
  hash160 bytes = h ∧ length bytes = 33%nat ∧ pk_from_slice bytes = Some p.
Proof.
  unfold compressed_pubkey. destruct (len bytes =? 33) eqn:Hl; [|done].
  case_bool_decide; cbn [negb orb]; [|done]. intros Hp. split_and!; [done| |done].
  apply N.eqb_eq in Hl. unfold len in Hl. lia.
Qed.

(** What an output commits to, and what a spend shows for it. *)
Definition committed (input : Bitcoin.TxIn) (prevout : Bitcoin.TxOut) (p : PublicKey) : Prop :=
  let spk := Bitcoin.script_pubkey prevout in
  let w := Bitcoin.witness input in
  (∃ x xonly, spk = p2tr x ∧ xonly_from_slice x = Some xonly ∧ p = from_x_only xonly Even) ∨
  (∃ bytes, pk_from_slice bytes = Some p ∧
    (spk = p2pkh (hash160 bytes) ∨
     last w = Some bytes ∧
       (spk = p2wpkh (hash160 bytes) ∨ spk = p2sh (hash160 (p2wpkh (hash160 bytes)))))).

(** A result without a key. *)
Ltac no_key := eexists; split; [reflexivity|]; intros ? [=].

Lemma eligible_p2pkh_spec h script_sig w : length h = 20%nat →
  ∃ res, eligible_p2pkh (p2pkh h) script_sig w = Ret res ∧
    ∀ p, res = Ok (Some p) → ∃ bytes, hash160 bytes = h ∧ pk_from_slice bytes = Some p.
Proof.
  intros Hh. unfold eligible_p2pkh, obind. destruct (_ || _); [no_key|]. rewrite slice_p2pkh by done.
  eexists. split; [done|]. intros p [= (bytes & _ & Hb)%find_map_Some].
  apply compressed_Some in Hb as (? & _ & ?). eauto.
Qed.
Lemma eligible_p2wpkh_spec h script_sig w : length h = 20%nat →
  ∃ res, eligible_p2wpkh (p2wpkh h) script_sig w = Ret res ∧
    ∀ p, res = Ok (Some p) → ∃ bytes, last w = Some bytes ∧ hash160 bytes = h ∧ pk_from_slice bytes = Some p.
Proof.
  intros Hh. unfold eligible_p2wpkh, obind. destruct (negb _); [no_key|]. destruct (last w) as [bytes|]; [|no_key].
  rewrite slice_p2wpkh by done. destruct (compressed_pubkey bytes h) as [q|] eqn:Hq; [|no_key].
  eexists. split; [done|]. intros p [= ->]. apply compressed_Some in Hq as (? & _ & ?). eauto.
Qed.
Lemma eligible_p2sh_spec h script_sig w : length h = 20%nat →
  ∃ res, eligible_p2sh (p2sh h) script_sig w = Ret res ∧
    ∀ p, res = Ok (Some p) → ∃ bytes, last w = Some bytes ∧
      h = hash160 (p2wpkh (hash160 bytes)) ∧ pk_from_slice bytes = Some p.
Proof.
  intros Hh. unfold eligible_p2sh, obind. destruct (len script_sig =? 23) eqn:Hlen; cbn [negb]; [|no_key].
  destruct script_sig as [|b redeem]; [done|]. cbn [lookup list_lookup expect].
  destruct (b =? 22); cbn [negb]; [|no_key]. change (from 1 (b :: redeem)) with redeem.
  destruct (is_p2wpkh redeem) eqn:Hre; cbn [negb]; [|no_key].
  apply is_p2wpkh_law in Hre as (h' & Hh' & ->). rewrite slice_p2sh by done.
  case_bool_decide as Hhash; cbn [negb]; [|no_key].
  destruct (last w) as [bytes|]; [|no_key]. rewrite slice_p2wpkh by done.
  destruct (compressed_pubkey bytes h') as [q|] eqn:Hq; [|no_key].
  eexists. split; [done|]. intros p [= ->]. apply compressed_Some in Hq as (<- & _ & ?). eauto.
Qed.
Lemma eligible_p2tr_spec x script_sig w : length x = 32%nat →
  ∃ res, eligible_p2tr (p2tr x) script_sig w = Ret res ∧
    ∀ p, res = Ok (Some p) → ∃ xonly, xonly_from_slice x = Some xonly ∧ p = from_x_only xonly Even.
Proof.
  intros Hx. unfold eligible_p2tr. destruct (negb _); [no_key|].
  set (key_out := let! x := slice 2 34 (p2tr x) in _).
  assert (Hout : ∃ res, key_out = Ret res ∧
    ∀ p, res = Ok (Some p) → ∃ xonly, xonly_from_slice x = Some xonly ∧ p = from_x_only xonly Even).
  { unfold key_out, obind. rewrite slice_p2tr by done. eexists. split; [done|]. intros p Hp.
    destruct (xonly_from_slice x) as [xonly|]; [|done]. injection Hp as <-. eauto. }
  cbv zeta. unfold sub64, sub_w, obind. set (k := if bool_decide _ then 1 else 0).
  assert (Hk : k ≤ len w).
  { unfold k. destruct (bool_decide _) eqn:Hb; [|apply N.le_0_l]. apply bool_decide_eq_true in Hb.
    destruct w; [done|]. rewrite len_cons. lia. }
  rewrite (proj2 (N.leb_le _ _)) by done. cbn [expect].
  destruct (len w - k =? 0) eqn:Hz; [no_key|]. destruct (1 <? len w - k) eqn:Hone; [|done].
  destruct (w !! N.to_nat (len w - k - 1)) as [block|] eqn:Hb; cbn [expect].
  - destruct (slice 1 33 block) as [internal_key|]; [|no_key]. case_bool_decide; [no_key|done].
  - exfalso. apply lookup_ge_None in Hb. apply N.ltb_lt in Hone. unfold len in *. lia.
Qed.

(** The extraction never panics, and what it gives is committed to by the output. *)
Lemma eligible_returns input prevout : ∃ res, eligible_input_pubkey input prevout = Ret res ∧
  ∀ p, res = Ok (Some p) → committed input prevout p.
Proof.
  unfold eligible_input_pubkey, committed. destruct prevout as [value spk]. cbn [Bitcoin.script_pubkey].
  destruct (is_p2pkh spk) eqn:E1.
  { apply is_p2pkh_law in E1 as (h & Hh & ->).
    destruct (eligible_p2pkh_spec h (Bitcoin.script_sig input) (Bitcoin.witness input) Hh) as (res & -> & Hres).
    eexists. split; [done|]. intros p (bytes & <- & ?)%Hres. eauto. }
  destruct (is_p2sh spk) eqn:E2.
  { apply is_p2sh_law in E2 as (h & Hh & ->).
    destruct (eligible_p2sh_spec h (Bitcoin.script_sig input) (Bitcoin.witness input) Hh) as (res & -> & Hres).
    eexists. split; [done|]. intros p (bytes & Hl & -> & ?)%Hres. right. exists bytes. eauto. }
  destruct (is_p2wpkh spk) eqn:E3.
  { apply is_p2wpkh_law in E3 as (h & Hh & ->).
    destruct (eligible_p2wpkh_spec h (Bitcoin.script_sig input) (Bitcoin.witness input) Hh) as (res & -> & Hres).
    eexists. split; [done|]. intros p (bytes & Hl & <- & ?)%Hres. right. exists bytes. eauto. }
  destruct (is_p2tr spk) eqn:E4; [|no_key].
  apply is_p2tr_law in E4 as (x & Hx & ->).
  destruct (eligible_p2tr_spec x (Bitcoin.script_sig input) (Bitcoin.witness input) Hx) as (res & -> & Hres).
  eexists. split; [done|]. intros p (xonly & ? & ->)%Hres. eauto 6.
Qed.

(** The key of whoever spends an output is the one that counts. *)
Lemma eligible_own k taproot input prevout : spends k taproot input prevout →
  eligible_input_pubkey input prevout = Ret (Ok (Some (input_point (k, taproot)))).
Proof.
  pose proof hash160_length as Hhash. intros Hs. unfold eligible_input_pubkey.
  destruct Hs as [op sq pre v|op sq sigs v|op sq sigs v|op sq sig v Hsig];
    cbn [Bitcoin.script_pubkey Bitcoin.script_sig Bitcoin.witness input_point snd fst].
  - rewrite (proj2 (is_p2pkh_law _)) by eauto. unfold eligible_p2pkh, obind.
    rewrite bool_decide_true by done. destruct (pk_bytes (public_key k)) as [Hl _].
    rewrite bool_decide_false by (destruct pre; [by destruct (pk_serialize _)|done]). cbn [negb orb].
    rewrite slice_p2pkh by done. destruct (last_window pre _ _ Hl) as [rest ->]. cbn [find_map].
    by rewrite compressed_own.
  - rewrite not_p2pkh by done. rewrite (proj2 (is_p2sh_law _)) by eauto. unfold eligible_p2sh, obind.
    set (h := hash160 (pk_serialize (public_key k))).
    assert (length h = 20%nat) as Hh by apply Hhash.
    rewrite (len_32 _ 23) by (cbn; by rewrite Hh). cbn [N.eqb Pos.eqb negb N.of_nat Pos.of_succ_nat Pos.succ].
    cbn [lookup list_lookup expect]. change (22 =? 22) with true. cbn [negb].
    change (from 1 (22 :: p2wpkh h)) with (p2wpkh h). rewrite (proj2 (is_p2wpkh_law _)) by eauto. cbn [negb].
    rewrite slice_p2sh by done. rewrite bool_decide_true by done. cbn [negb]. rewrite last_snoc.
    rewrite slice_p2wpkh by done. by rewrite compressed_own.
  - rewrite not_p2pkh, not_p2sh by done. rewrite (proj2 (is_p2wpkh_law _)) by eauto.
    unfold eligible_p2wpkh, obind. rewrite bool_decide_true by done. cbn [negb]. rewrite last_snoc.
    rewrite slice_p2wpkh by done. by rewrite compressed_own.
  - rewrite not_p2pkh, not_p2sh, not_p2wpkh by done. destruct (xonly_bytes (x_only_public_key (public_key k)).1) as [Hl Hx].
    rewrite (proj2 (is_p2tr_law _)) by eauto. unfold eligible_p2tr. rewrite bool_decide_true by done. cbn [negb].
    cbn [last mbind option_bind]. rewrite bool_decide_false by done.
    assert (sub64 (len [sig]) 0 = Ret 1) as -> by done. cbv zeta. cbn [obind].
    change (1 =? 0) with false. change (1 <? 1) with false. cbv iota.
    rewrite slice_p2tr by done. cbn [obind]. by rewrite Hx.
Qed.

(** For every input and every output it spends, well formed or not, the extraction
    of its key returns: a key it gives is one the output commits to and, outside
    taproot, the spend shows; and the key of an owner that spends any of the four
    standard outputs is found. *)
Theorem eligible_key_sound input prevout :
  ∃ res, eligible_input_pubkey input prevout = Ret res ∧
    (∀ p, res = Ok (Some p) → committed input prevout p) ∧
    (∀ k taproot, spends k taproot input prevout → res = Ok (Some (input_point (k, taproot)))).
Proof.
  destruct (eligible_returns input prevout) as (res & Hres & Hp). exists res. split_and!; [done..|].
  intros k taproot Hs. pose proof (eligible_own _ _ _ _ Hs) as Ho. congruence.
Qed.

(** A signature that starts with the byte of an annex is taken for one. *)
Lemma annex_signature op sq sig x value : head sig = Some 0x50 → length x = 32%nat →
  eligible_input_pubkey (Bitcoin.mkTxIn op [] sq [sig]) (Bitcoin.mkTxOut value (p2tr x)) =
    Ret (Err (InvalidInput "empty P2TR witness")).
Proof.
  intros Hsig Hx. unfold eligible_input_pubkey. cbn [Bitcoin.script_pubkey Bitcoin.script_sig Bitcoin.witness].
  rewrite not_p2pkh, not_p2sh, not_p2wpkh by done. rewrite (proj2 (is_p2tr_law _)) by eauto.
  unfold eligible_p2tr. rewrite bool_decide_true by done. cbn [negb last mbind option_bind].
  by rewrite bool_decide_true.
Qed.
End inputs.

(** ** Scripts recognised by their template *)

Module Templates.
Definition matches (n : nat) (pre post spk : list N) : bool :=
  let h := take n (drop (length pre) spk) in
  bool_decide (length h = n) && bool_decide (spk = pre ++ h ++ post).
Lemma matches_spec n pre post spk : matches n pre post spk = true ↔ ∃ h, length h = n ∧ spk = pre ++ h ++ post.
Proof.
  unfold matches. rewrite andb_true_iff, !bool_decide_eq_true. split; [by eauto|].
  intros (h & <- & ->). rewrite drop_app_length, take_app_length. done.
Qed.
#[export] Instance lib : ScriptLib := {|
  is_p2pkh := matches 20 [118; 169; 20] [136; 172];
  is_p2sh := matches 20 [169; 20] [135];
  is_p2wpkh := matches 20 [0; 20] [];
  is_p2tr := matches 32 [81; 32] [];
  hash160 bytes := drop 12 (Toy.hash "hash160" bytes)
|}.
#[export] Instance laws : ScriptLaws.
Proof.
  split; intros spk; cbn [is_p2pkh is_p2sh is_p2wpkh is_p2tr hash160 lib]; rewrite ?matches_spec; try done;
    unfold p2wpkh, p2tr; by setoid_rewrite app_nil_r.
Qed.
End Templates.

(** The owner of a witness output spends it. *)
Module Witness.
Import Templates.
#[local] Existing Instances Toy.curve Toy.laws Bitcoin.Sample.sample_build.
Definition key : SecretKey := Toy.mkElt 5 eq_refl.
Definition keyhash : list N := hash160 (pk_serialize (public_key key)).
Definition spend : Bitcoin.TxIn :=
  Bitcoin.mkTxIn (Bitcoin.mkOutPoint 1 0) [] 0 ([[48; 1]] ++ [pk_serialize (public_key key)]).
Definition spent : Bitcoin.TxOut := Bitcoin.mkTxOut 700 (p2wpkh keyhash).
Lemma owner_spends : spends key false spend spent.
Proof. apply (Spends_p2wpkh key). Qed.
Lemma eligible_key_sound_witness : eligible_input_pubkey spend spent = Ret (Ok (Some (input_point (key, false)))).
Proof.
  destruct (eligible_key_sound spend spent) as (res & Hres & _ & Hown).
  rewrite Hres, (Hown key false owner_spends). reflexivity.
Defined.
End Witness.
End SpReceiving.
