(* ===== verification/SpPayment.v ===== *)
(** * Paying silent payments (sp/src/account/recipient.rs, sp/src/receiver/mod.rs)

    The key material of an account, the outputs of a transaction that pay silent
    payments, the scripts derived for all of them at once, and the keys the inputs of a
    transaction are counted with. The output providers implement the interface of
    [Recipient]; the derivation is the provider the transaction engine calls. *)
From Stdlib Require Import Lia ZArith.
From stdpp Require Import base countable strings gmap sets list.
From S2P Require Import Prelude Bytes Bitcoin Coin Recipient Transaction TxBuilder.
From S2P Require Import SpCurve SpCommon SpSending SpReceiving.

Module SpPayment.
Import Recipient SpCommon SpSending.

Abbreviation TxError := Recipient.Error.
Abbreviation Coin := Coin.Coin.
Abbreviation BtcNetwork := Bitcoin.Network.

(** The keys of the transaction engine and those of the curve are of the same types in
    the code. *)
Class SameKeys `{L : Bitcoin.TxLib} `{Cv : Curve} := {
  to_point : Bitcoin.PublicKey → PublicKey;
  of_point : PublicKey → Bitcoin.PublicKey;
  to_secret : Bitcoin.SecretKey → SecretKey;
  of_secret : SecretKey → Bitcoin.SecretKey
}.
Class SameKeysLaws `{SameKeys} := {
  to_of_point p : to_point (of_point p) = p;
  to_of_secret k : to_secret (of_secret k) = k
}.

(** ** The key material of an account *)

Section receiver.
Context `{Curve} `{BM : !BiMapLib SpReceiving.Label PublicKey}.

(** [receiver::error::Error], the part met here. *)
Inductive ReceiverError :=
  | MissingSecretKey | UnknownAddressType | SpNetworkMismatch (address account : Network)
  | SilentPayments (e : Error) | EAddress.

Inductive SpendKey := Secret (k : SecretKey) | Public (p : PublicKey).
(** [TryInto<SecretKey>] and [From<&SpendKey> for PublicKey]. *)
Definition try_into (k : SpendKey) : result SecretKey ReceiverError :=
  match k with Secret k => Ok k | Public _ => Err MissingSecretKey end.
Definition spend_point (k : SpendKey) : PublicKey :=
  match k with Secret k => public_key k | Public p => p end.

Record SpReceiver := mkSpReceiver {
  scan_sk : SecretKey;
  spend_key : SpendKey;
  receiver : SpReceiving.Receiver;
  sr_network : BtcNetwork
}.
Definition new_inner (scan_sk : SecretKey) (spend_key : SpendKey) (network : BtcNetwork) :
    outcome (result SpReceiver ReceiverError) :=
  let! change_label := SpReceiving.new_label scan_sk 0 in
  Ret (try! receiver := rmap_err SilentPayments
         (SpReceiving.new_receiver 0 (public_key scan_sk) (spend_point spend_key) change_label (of_bitcoin network)) in
       Ok (mkSpReceiver scan_sk spend_key receiver network)).
Definition get_receiving_address (r : SpReceiver) : outcome SilentPaymentAddress :=
  SpReceiving.get_receiving_address (receiver r).
Definition get_scan_key (r : SpReceiver) : SecretKey := scan_sk r.
Definition try_get_secret_spend_key (r : SpReceiver) : result SecretKey ReceiverError :=
  match spend_key r with Public _ => Err MissingSecretKey | Secret sk => Ok sk end.
End receiver.

(** ** The outputs *)

Definition TR_OUTPUT_WEIGHT : N := 172.

(** The parsers of the text a user gives, and the script of an [OP_RETURN], which does
    not exist for 4 GB of data. *)
Class PaymentLib `{L : Bitcoin.TxLib} `{Cv : Curve} := {
  sp_from_str : string → option SilentPaymentAddress;
  UncheckedAddress : Type;
  address_from_str : string → option UncheckedAddress;
  require_network : UncheckedAddress → BtcNetwork → option Bitcoin.Address;
  from_hex : string → option (list N);
  op_return_script : list N → option Bitcoin.script
}.

Section outputs.
Context `{SameKeys} `{!PaymentLib} `{Build}.

Inductive RecipientAddress :=
  | LegacyAddress (a : Bitcoin.Address)
  | SpAddress (a : SilentPaymentAddress)
  | Data (data : list N).
(** [RecipientAddress::parse]. *)
Definition parse (value : string) (network : BtcNetwork) : result RecipientAddress ReceiverError :=
  match sp_from_str value with
  | Some sp_address =>
      let network := of_bitcoin network in
      if negb (bool_decide (SpCommon.network sp_address = network)) then
        Err (SpNetworkMismatch (SpCommon.network sp_address) network)
      else Ok (SpAddress sp_address)
  | None =>
      match address_from_str value with
      | Some legacy_address => try! a := ok_or (require_network legacy_address network) EAddress in Ok (LegacyAddress a)
      | None => match from_hex value with Some data => Ok (Data data) | None => Err UnknownAddressType end
      end
  end.

(** The script of an output that was not derived with the others: that of a first
    output. *)
Definition fallback_script (addr : SilentPaymentAddress) (ctx : FinalizationContext) : outcome Bitcoin.script :=
  let! partial_secret := expect (partial_secret ctx) in
  let! r := generate_recipient_pubkeys [addr] (to_secret partial_secret) in
  let! pubkeys := expect (ok r) in
  let! output_pubkeys := expect (pubkeys !! addr) in
  let! pubkey := expect (output_pubkeys !! 0%nat) in
  Ret (SpReceiving.p2tr_spk pubkey).

Record SpRecipient := mkSpRecipient {
  address : SilentPaymentAddress;
  r_amount : Amount;
  label : option N;
  r_network : BtcNetwork;
  precomputed_script : option Bitcoin.script
}.
(** [SpRecipient::new]. *)
Definition new_recipient (address : SilentPaymentAddress) (amount : N) (network : BtcNetwork) : SpRecipient :=
  mkSpRecipient address (Value amount) None network None.
Definition with_label (address : SilentPaymentAddress) (amount label : N) (network : BtcNetwork) : SpRecipient :=
  mkSpRecipient address (Value amount) (Some label) network None.
Definition recipient_script (r : SpRecipient) (ctx : FinalizationContext) : outcome Bitcoin.script :=
  match precomputed_script r with Some script => Ret script | None => fallback_script (address r) ctx end.
#[export] Instance SpRecipient_provider : RecipientProvider SpRecipient := {|
  output_weight := λ _, Ret TR_OUTPUT_WEIGHT;
  create_script := λ r ctx, let! s := recipient_script r ctx in Ret (r, s);
  set_precomputed_script := λ r s, mkSpRecipient (address r) (r_amount r) (label r) (r_network r) (Some s);
  psbt_output_info := λ r,
    Ret (InfoSilentPayment (of_point (scan_pubkey (address r))) (of_point (m_pubkey (address r))) (label r));
  is_silent_payment := λ _, true;
  is_change := λ _, false;
  amount := r_amount;
  set_amount := λ r a, mkSpRecipient (address r) a (label r) (r_network r) (precomputed_script r);
  to_psbt_output := λ _, Ok psbt_output_default;
  rp_network := r_network
|}.

Record SpRecipientAddress := mkSpRecipientAddress {
  inner : RecipientAddress;
  ra_amount : Amount;
  ra_network : BtcNetwork;
  ra_precomputed_script : option Bitcoin.script
}.
(** [SpRecipientAddress::new]. *)
Definition new_recipient_address (addr : RecipientAddress) (amount : N) (network : BtcNetwork) : SpRecipientAddress :=
  mkSpRecipientAddress addr (Value amount) network None.
Definition from_sp (addr : SilentPaymentAddress) (amount : N) (network : BtcNetwork) : SpRecipientAddress :=
  mkSpRecipientAddress (SpAddress addr) (Value amount) network None.
(** The weight of an [OP_RETURN] counts one byte for the push. *)
Definition data_weight (data : list N) : N := (8 + 1 + (1 + 1 + N.min (len data) 80)) * 4.
Definition address_weight (r : SpRecipientAddress) : N :=
  match inner r with
  | SpAddress _ => TR_OUTPUT_WEIGHT
  | LegacyAddress addr => txout_weight (mkTxOut MAX_MONEY (address_script addr))
  | Data data => data_weight data
  end.
Definition address_output_script (r : SpRecipientAddress) (ctx : FinalizationContext) : outcome Bitcoin.script :=
  match inner r with
  | SpAddress sp =>
      match ra_precomputed_script r with Some script => Ret script | None => fallback_script sp ctx end
  | LegacyAddress addr => Ret (address_script addr)
  | Data data => expect (op_return_script data)
  end.
Definition address_info (r : SpRecipientAddress) : PsbtOutputInfo :=
  match inner r with
  | SpAddress sp => InfoSilentPayment (of_point (scan_pubkey sp)) (of_point (m_pubkey sp)) None
  | _ => InfoNone
  end.
Definition pays_sp (r : SpRecipientAddress) : bool :=
  match inner r with SpAddress _ => true | _ => false end.
#[export] Instance SpRecipientAddress_provider : RecipientProvider SpRecipientAddress := {|
  output_weight := λ r, Ret (address_weight r);
  create_script := λ r ctx, let! s := address_output_script r ctx in Ret (r, s);
  set_precomputed_script := λ r s, mkSpRecipientAddress (inner r) (ra_amount r) (ra_network r) (Some s);
  psbt_output_info := λ r, Ret (address_info r);
  is_silent_payment := pays_sp;
  is_change := λ _, false;
  amount := ra_amount;
  set_amount := λ r a, mkSpRecipientAddress (inner r) a (ra_network r) (ra_precomputed_script r);
  to_psbt_output := λ _, Ok psbt_output_default;
  rp_network := ra_network
|}.

(** The change of a silent-payment wallet. *)
Record SpChangeRecipientProvider := mkSpChange { wrapped : SpRecipient }.
(** [SpChangeRecipientProvider::new]. *)
Definition new_change (address : SilentPaymentAddress) (network : BtcNetwork) : SpChangeRecipientProvider :=
  mkSpChange (new_recipient address 0 network).
#[export] Instance SpChange_provider : RecipientProvider SpChangeRecipientProvider := {|
  output_weight := λ r, output_weight (wrapped r);
  create_script := λ r ctx, let! (w, s) := create_script (wrapped r) ctx in Ret (mkSpChange w, s);
  set_precomputed_script := λ r s, mkSpChange (set_precomputed_script (wrapped r) s);
  psbt_output_info := λ r, psbt_output_info (wrapped r);
  is_silent_payment := λ _, true;
  is_change := λ _, true;
  amount := λ r, amount (wrapped r);
  set_amount := λ r a, mkSpChange (set_amount (wrapped r) a);
  to_psbt_output := λ _, Ok psbt_output_default;
  rp_network := λ r, rp_network (wrapped r)
|}.
End outputs.

(** ** The scripts of the outputs of a transaction *)

Section batch.
Context `{SameKeys} {R : Type} `{!RecipientProvider R}.
Implicit Types outs : list R.

(** The silent-payment outputs, by index, with their addresses rebuilt. *)
Fixpoint collect_sp (i : nat) outs : outcome (list (nat * SilentPaymentAddress)) :=
  match outs with
  | [] => Ret []
  | output :: outs =>
      if negb (is_silent_payment output) then collect_sp (S i) outs
      else
        let! info := psbt_output_info output in
        match info with
        | InfoSilentPayment scan_pubkey spend_pubkey _ =>
            let! addr := expect (ok (new_address (to_point scan_pubkey) (to_point spend_pubkey)
                                       (of_bitcoin (rp_network output)) 0)) in
            let! l := collect_sp (S i) outs in Ret ((i, addr) :: l)
        | _ => collect_sp (S i) outs
        end
  end.
(** Each output takes the next key of its address. *)
Fixpoint assign (pubkey_map : Keys) (counters : gmap SilentPaymentAddress nat)
    (l : list (nat * SilentPaymentAddress)) outs : outcome (list R) :=
  match l with
  | [] => Ret outs
  | (i, addr) :: l =>
      let! pubkeys := expect (pubkey_map !! addr) in
      let k := default 0%nat (counters !! addr) in
      let! pubkey := expect (pubkeys !! k) in
      let! output := expect (outs !! i) in
      assign pubkey_map (<[addr := S k]> counters) l
        (<[i := set_precomputed_script output (SpReceiving.p2tr_spk pubkey)]> outs)
  end.
Definition batch_derive_sp_scripts outs (partial_secret : SecretKey) : outcome (list R) :=
  let! l := collect_sp 0 outs in
  if bool_decide (l = []) then Ret outs
  else
    let! r := generate_recipient_pubkeys l.*2 partial_secret in
    let! pubkey_map := expect (ok r) in
    assign pubkey_map ∅ l outs.
End batch.

(** ** The keys of the inputs *)

(** What miniscript says of a descriptor at an index, and BIP32 of a master key. *)
Inductive DescriptorShape (Key Tr : Type) :=
  | Pkh (k : Key) | Wpkh (k : Key) | ShWpkh (k : Key) | ShOther | DTr (tr : Tr) | DOther.
Arguments Pkh {_ _}. Arguments Wpkh {_ _}. Arguments ShWpkh {_ _}.
Arguments ShOther {_ _}. Arguments DTr {_ _}. Arguments DOther {_ _}.
Class KeyLib `{L : Bitcoin.TxLib} `{Cv : Curve} := {
  DefiniteKey : Type;
  TrDescriptor : Type;
  Fingerprint : Type;
  Xpriv : Type;
  Path : Type;
  Fingerprint_eqdec :: EqDecision Fingerprint;
  Fingerprint_countable :: Countable Fingerprint;
  shape : Bitcoin.DefiniteDescriptor → DescriptorShape DefiniteKey TrDescriptor;
  definite_script : Bitcoin.DefiniteDescriptor → Bitcoin.script;
  to_public_key : DefiniteKey → PublicKey * bool;         (* the key, and if it is compressed *)
  master_fingerprint : DefiniteKey → Fingerprint;
  full_derivation_path : DefiniteKey → option Path;
  derive_priv : Xpriv → Path → option SecretKey;
  internal_key : TrDescriptor → DefiniteKey;
  tap_tweak : SecretKey → TrDescriptor → SecretKey;       (* Keypair::tap_tweak with the merkle root *)
  tr_output_key : TrDescriptor → XOnlyPublicKey;
  txid_to_string : Bitcoin.Txid → string
}.

Section inputs.
Context `{KeyLib} `{Build}.
Abbreviation Xprivs := (gmap Fingerprint Xpriv).

Definition held_secret (key : DefiniteKey) (xprivs : Xprivs) : result SecretKey TxError :=
  try! xpriv := ok_or (xprivs !! master_fingerprint key) SpPartialSecret in
  try! path := ok_or (full_derivation_path key) SpPartialSecret in
  ok_or (derive_priv xpriv path) SpPartialSecret.
Definition single_key_input_key (key : DefiniteKey) (xprivs : Xprivs) :
    result (option (SecretKey * bool)) TxError :=
  let '(pubkey, compressed) := to_public_key key in
  if negb compressed then Ok None
  else
    try! secret := held_secret key xprivs in
    if negb (bool_decide (public_key secret = pubkey)) then Err SpPartialSecret
    else Ok (Some (secret, false)).
Definition taproot_input_key (tr : TrDescriptor) (xprivs : Xprivs) :
    result (option (SecretKey * bool)) TxError :=
  let key := internal_key tr in
  if bool_decide (xonly_serialize (x_only_public_key (to_public_key key).1).1 = SpReceiving.NUMS_H) then Ok None
  else
    try! secret := held_secret key xprivs in
    let tweaked := tap_tweak secret tr in
    if negb (bool_decide ((x_only_public_key (public_key tweaked)).1 = tr_output_key tr)) then Err SpPartialSecret
    else Ok (Some (tweaked, true)).
Definition sp_input_key (b_spend : SecretKey) (tweak : list N) : result (SecretKey * bool) TxError :=
  try! tweak := ok_or (sk_from_slice tweak) SpPartialSecret in
  try! key := ok_or (sk_add_tweak b_spend (scalar_of_sk tweak)) SpPartialSecret in
  Ok (key, true).
Definition bip352_input_key (coin : Coin) (b_spend : SecretKey) (xprivs : Xprivs) :
    result (option (SecretKey * bool)) TxError :=
  match Coin.spend_info coin with
  | Coin.Sp _ tweak => try! k := sp_input_key b_spend tweak in Ok (Some k)
  | Coin.Bip32 (keychain, index) descriptor =>
      try! d := rmap_err ECoin (Coin.derive_descriptor descriptor keychain index) in
      if negb (bool_decide (definite_script d = script_pubkey (Coin.txout coin))) then Err SpPartialSecret
      else
        match shape d with
        | Pkh key | Wpkh key | ShWpkh key => single_key_input_key key xprivs
        | ShOther => Ok None
        | DTr tr => taproot_input_key tr xprivs
        | DOther => Ok None
        end
  end.

(** The outpoint as it is hashed. *)
Definition outpoint_data (o : OutPoint) : string * N := (txid_to_string (op_txid o), op_vout o).
(** The loop over the inputs. *)
Fixpoint input_keys (inputs : list Coin) (b_spend : SecretKey) (xprivs : Xprivs) :
    result (list (SecretKey * bool)) TxError :=
  match inputs with
  | [] => Ok []
  | coin :: inputs =>
      try! key := bip352_input_key coin b_spend xprivs in
      try! keys := input_keys inputs b_spend xprivs in
      Ok (match key with Some key => key :: keys | None => keys end)
  end.
Definition partial_secret (inputs : list Coin) (b_spend : SecretKey) (xprivs : Xprivs) :
    outcome (result SecretKey TxError) :=
  let? keys := Ret (input_keys inputs b_spend xprivs) in
  let! r := calculate_partial_secret keys ((λ c, outpoint_data (Coin.outpoint c)) <$> inputs) in
  Ret (rmap_err (λ _, SpPartialSecret) r).

(** [struct SpSecretProvider], and what it provides to the engine. *)
Record SpSecretProvider `{BM : !BiMapLib SpReceiving.Label PublicKey} := mkSecretProvider {
  client : SpReceiver;
  xprivs : Xprivs
}.
Definition provider_partial_secret `{BM : !BiMapLib SpReceiving.Label PublicKey} (p : SpSecretProvider)
    (inputs : list Coin) : outcome (result SecretKey TxError) :=
  let? b_spend := Ret (rmap_err (λ _, SpPartialSecret) (try_get_secret_spend_key (client p))) in
  partial_secret inputs b_spend (xprivs p).
Definition secret_provider `{BM : !BiMapLib SpReceiving.Label PublicKey} `{!SameKeys} {R} `{!RecipientProvider R}
    (p : SpSecretProvider) : Transaction.SpProvider (R:=R) :=
  Transaction.mkSpProvider
    (λ inputs, let! r := provider_partial_secret p inputs in
               Ret (try! k := r in Ok (of_secret k)))
    (λ outputs k, batch_derive_sp_scripts outputs (to_secret k)).
End inputs.
(** ** The outputs keep what the engine relies on *)

(** What the derivation relies on: an output that pays silently says so, takes a
    script, and is otherwise unchanged. *)
Class SpOutputLaws `{L : Bitcoin.TxLib} (R : Type) `{!RecipientProvider R} := {
  sp_info (r : R) : is_silent_payment r = true → ∃ B m l, psbt_output_info r = Ret (InfoSilentPayment B m l);
  precomputed_script_made (r : R) s ctx : is_silent_payment r = true →
    ∃ r', create_script (set_precomputed_script r s) ctx = Ret (r', s);
  precomputed_keeps (r : R) s : amount (set_precomputed_script r s) = amount r;
  silent_script_keeps (r : R) s : is_silent_payment (set_precomputed_script r s) = is_silent_payment r
}.

Section laws.
Context `{SameKeys} `{!PaymentLib} `{Build}.

#[export] Instance SpRecipient_laws : RecipientLaws SpRecipient.
Proof. split; [done..|]. intros r r' ctx s. cbn. destruct (recipient_script r ctx); cbn; [naive_solver|done]. Qed.
#[export] Instance SpRecipient_output : SpOutputLaws SpRecipient.
Proof. split; cbn; eauto. Qed.
#[export] Instance SpRecipientAddress_laws : RecipientLaws SpRecipientAddress.
Proof. split; [done..|]. intros r r' ctx s. cbn. destruct (address_output_script r ctx); cbn; [naive_solver|done]. Qed.
#[export] Instance SpRecipientAddress_output : SpOutputLaws SpRecipientAddress.
Proof.
  split; try done.
  - intros [[a|a|d] am n pre]; cbn; [done|eauto|done].
  - intros [[a|a|d] am n pre] s ctx; cbn; [done|eauto|done].
Qed.
#[export] Instance SpChange_laws : RecipientLaws SpChangeRecipientProvider.
Proof. split; [done..|]. intros r r' ctx s. cbn. destruct (recipient_script (wrapped r) ctx); cbn; [naive_solver|done]. Qed.
#[export] Instance SpChange_output : SpOutputLaws SpChangeRecipientProvider.
Proof. split; cbn; eauto. Qed.
#[export] Instance Recipient_output : SpOutputLaws Recipient.
Proof. by split. Qed.
#[export] Instance ChangeRecipientProvider_output {T} `{!ChangeTip T} : SpOutputLaws (ChangeRecipientProvider T).
Proof. by split. Qed.
#[export] Instance dyn_output {A B} `{!RecipientProvider A, !RecipientProvider B} `{!SpOutputLaws A, !SpOutputLaws B} :
  SpOutputLaws (A + B).
Proof.
  split.
  - intros [r|r]; exact (sp_info r).
  - intros [r|r] s ctx Hr; destruct (precomputed_script_made r s ctx Hr) as [r' Hm]; cbn; rewrite Hm; cbn; eauto.
  - intros [r|r] s; exact (precomputed_keeps r s).
  - intros [r|r] s; exact (silent_script_keeps r s).
Qed.
End laws.

(** ** What the derivation makes *)

Section batch_lemmas.
Context `{SameKeys} `{!SameKeysLaws} {R : Type} `{!RecipientProvider R} `{!SpOutputLaws R}.
Implicit Types outs : list R.

(** The address an output pays. *)
Definition sp_address (r : R) : option SilentPaymentAddress :=
  if is_silent_payment r then
    match psbt_output_info r with
    | Ret (InfoSilentPayment B m _) => Some (mkAddress 0 (to_point B) (to_point m) (of_bitcoin (rp_network r)))
    | _ => None
    end
  else None.
Fixpoint indexed (i : nat) outs : list (nat * SilentPaymentAddress) :=
  match outs with
  | [] => []
  | r :: outs => match sp_address r with Some a => (i, a) :: indexed (S i) outs | None => indexed (S i) outs end
  end.

Lemma sp_address_silent (r : R) a : sp_address r = Some a → is_silent_payment r = true.
Proof. unfold sp_address. by destruct (is_silent_payment r). Qed.
Lemma collect_indexed i outs : collect_sp i outs = Ret (indexed i outs).
Proof.
  revert i; induction outs as [|r outs IH]; intros i; cbn [collect_sp indexed]; [done|].
  unfold sp_address. destruct (is_silent_payment r) eqn:Hr; cbn [negb]; [|apply IH].
  destruct (sp_info r Hr) as (B & m & l & ->). cbn. by rewrite IH.
Qed.
Lemma indexed_addresses i outs : (indexed i outs).*2 = omap sp_address outs.
Proof.
  revert i; induction outs as [|r outs IH]; intros i; cbn; [done|]. destruct (sp_address r); cbn; by rewrite IH.
Qed.
Lemma indexed_above i outs j a : (j, a) ∈ indexed i outs → (i ≤ j)%nat.
Proof.
  revert i; induction outs as [|r outs IH]; intros i; cbn; [set_solver|].
  destruct (sp_address r); [intros [[= -> ->]|Hin]%elem_of_cons; [done|]|intros Hin]; apply IH in Hin; lia.
Qed.
Lemma indexed_unique i outs : NoDup (indexed i outs).*1.
Proof.
  revert i; induction outs as [|r outs IH]; intros i; cbn; [constructor|].
  destruct (sp_address r); [|apply IH]. cbn. constructor; [|apply IH].
  intros ([j a] & -> & Hin)%list_elem_of_fmap. apply indexed_above in Hin. cbn in Hin. lia.
Qed.
Lemma indexed_none i outs j : outs !! j ≫= sp_address = None → (i + j)%nat ∉ (indexed i outs).*1.
Proof.
  revert i j; induction outs as [|r outs IH]; intros i j; cbn; [set_solver|].
  destruct j as [|j]; cbn.
  - intros ->. intros ([j a] & Hj & Hin)%list_elem_of_fmap. apply indexed_above in Hin. cbn in *. lia.
  - intros Hj. specialize (IH (S i) j Hj). rewrite Nat.add_succ_comm in IH.
    destruct (sp_address r); [|done]. cbn. rewrite not_elem_of_cons. split; [lia|done].
Qed.
Lemma indexed_lookup i outs j r a : outs !! j = Some r → sp_address r = Some a →
  indexed i outs !! length (omap sp_address (take j outs)) = Some ((i + j)%nat, a).
Proof.
  revert i j; induction outs as [|r' outs IH]; intros i j; [done|]. destruct j as [|j]; cbn.
  - intros [= ->] ->. cbn. by rewrite Nat.add_0_r.
  - intros Hj Ha. pose proof (IH (S i) j Hj Ha) as Hl. rewrite Nat.add_succ_comm in Hl.
    destruct (sp_address r'); done.
Qed.
Lemma take_omap j outs : take (length (omap sp_address (take j outs))) (omap sp_address outs) = omap sp_address (take j outs).
Proof.
  rewrite <-(take_drop j outs) at 2. rewrite omap_app. apply take_app_length.
Qed.

Lemma assign_spec (keys : Keys) l : ∀ counters outs outs', assign keys counters l outs = Ret outs' → NoDup l.*1 →
  length outs' = length outs ∧ (∀ j, j ∉ l.*1 → outs' !! j = outs !! j) ∧
  ∀ p j a, l !! p = Some (j, a) → ∃ o pubkeys x, outs !! j = Some o ∧ keys !! a = Some pubkeys ∧
    pubkeys !! (default 0 (counters !! a) + count_before (λ a', a' = a) l.*2 p)%nat = Some x ∧
    outs' !! j = Some (set_precomputed_script o (SpReceiving.p2tr_spk x)).
Proof.
  induction l as [|[i addr] l IH]; intros counters outs outs'; cbn [assign]; unfold obind.
  { intros [= <-] _. split_and!; [done..|]. intros p j a Hp. by rewrite lookup_nil in Hp. }
  destruct (keys !! addr) as [pubkeys|] eqn:Hk; cbn [expect]; [|done].
  destruct (pubkeys !! _) as [x|] eqn:Hx; cbn [expect]; [|done].
  destruct (outs !! i) as [o|] eqn:Ho; cbn [expect]; [|done].
  intros Hass Hnd. cbn in Hnd. apply NoDup_cons in Hnd as [Hi Hnd].
  destruct (IH _ _ _ Hass Hnd) as (Hlen & Hother & Hl). rewrite length_insert in Hlen. split_and!; [done|..].
  - cbn. intros j [Hne Hj]%not_elem_of_cons. rewrite Hother by done. by rewrite list_lookup_insert_ne.
  - intros [|p] j a Hp; cbn in Hp.
    + injection Hp as -> ->. exists o, pubkeys, x. split_and!; [done..| |].
      * by rewrite Nat.add_0_r.
      * rewrite Hother by done. apply list_lookup_insert_eq. by eapply lookup_lt_Some.
    + destruct (Hl p j a Hp) as (o' & pubkeys' & x' & Ho' & Hk' & Hx' & Hout).
      assert (j ≠ i) as Hji.
      { intros ->. apply Hi. apply list_elem_of_fmap. exists (i, a). split; [done|]. by eapply list_elem_of_lookup_2. }
      rewrite list_lookup_insert_ne in Ho' by done. exists o', pubkeys', x'. split_and!; [done..| |done].
      rewrite <-Hx'. f_equal. cbn [fmap list_fmap snd]. rewrite count_before_S.
      destruct (decide (a = addr)) as [->|Hne].
      * rewrite lookup_insert_eq, decide_True by done. cbn. lia.
      * rewrite lookup_insert_ne, decide_False by done. done.
Qed.

(** The number of an output among those with its scan key. *)
Definition number outs (j : nat) (a : SilentPaymentAddress) : nat :=
  length (filter (λ a', scan_pubkey a' = scan_pubkey a) (omap sp_address (take j outs))).

Lemma batch_spec outs ps outs' : batch_derive_sp_scripts outs ps = Ret outs' →
  length outs' = length outs ∧
  ∀ j o, outs !! j = Some o →
    match sp_address o with
    | None => outs' !! j = Some o
    | Some a => ∃ s x, calculate_ecdh_shared_secret (scan_pubkey a) ps = Ret s ∧
        output_key s (N.of_nat (number outs j a)) a = Ok x ∧
        outs' !! j = Some (set_precomputed_script o (SpReceiving.p2tr_spk x))
    end.
Proof.
  unfold batch_derive_sp_scripts. rewrite collect_indexed. cbn [obind].
  case_bool_decide as Hnil.
  { intros [= <-]. split; [done|]. intros j o Ho. destruct (sp_address o) as [a|] eqn:Ha; [|done].
    pose proof (indexed_lookup 0 _ _ _ _ Ho Ha) as Hl. by rewrite Hnil in Hl. }
  unfold obind. destruct (generate_recipient_pubkeys _ ps) as [[keys|e]|] eqn:Hg; cbn [ok expect]; [|done..].
  intros Hass. destruct (assign_spec _ _ _ _ _ Hass (indexed_unique 0 outs)) as (Hlen & Hother & Hl).
  split; [done|]. intros j o Ho. destruct (sp_address o) as [a|] eqn:Ha.
  - pose proof (indexed_lookup 0 _ _ _ _ Ho Ha) as Hp. cbn [Nat.add] in Hp.
    destruct (Hl _ _ _ Hp) as (o' & pubkeys & x & Ho' & Hk & Hx & Hout).
    assert (o' = o) as -> by congruence. rewrite lookup_empty in Hx. cbn [default from_option Nat.add] in Hx.
    assert (Hp2 : (indexed 0 outs).*2 !! length (omap sp_address (take j outs)) = Some a)
      by (by rewrite list_lookup_fmap, Hp).
    destruct (generate_pubkeys_spec _ _ _ Hg _ _ Hp2) as (s & y & Hs & Hy & Hyl).
    rewrite indexed_addresses in Hx, Hy, Hyl. rewrite Hk in Hyl. cbn [default from_option id] in Hyl.
    assert (y = x) as -> by congruence. exists s, x. split_and!; [done| |done].
    rewrite <-Hy. unfold number, count_before. by rewrite take_omap.
  - rewrite Hother; [done|]. apply (indexed_none 0). by rewrite Ho.
Qed.

(** The amounts are kept: the derivation is a provider the builder accepts. *)
Lemma batch_keeps_amounts outs ps outs' : batch_derive_sp_scripts outs ps = Ret outs' → amount <$> outs' = amount <$> outs.
Proof.
  intros [Hlen Hb]%batch_spec. apply list_eq_same_length with (length outs); [by rewrite !length_fmap, ?Hlen..|].
  intros j a a' _. rewrite !list_lookup_fmap. intros (o' & Ho' & ->)%fmap_Some (o & Ho & ->)%fmap_Some.
  specialize (Hb j o Ho). destruct (sp_address o) as [ad|]; [|congruence].
  destruct Hb as (s & x & _ & _ & Hb). assert (o' = set_precomputed_script o (SpReceiving.p2tr_spk x)) as -> by congruence.
  apply precomputed_keeps.
Qed.

(** The derivation is a provider the engine accepts. *)
Lemma secret_provider_keeps `{KL : !KeyLib} `{BM : !BiMapLib SpReceiving.Label PublicKey} (p : SpSecretProvider) :
  Transaction.sp_keeps_amounts (secret_provider (R:=R) p).
Proof. intros outs k outs'. apply batch_keeps_amounts. Qed.

(** *** The outputs of a transaction the engine finalizes *)

Lemma sp_outputs_silent outs j o a : outs !! j = Some o → sp_address o = Some a → existsb is_silent_payment outs = true.
Proof.
  intros Ho Ha. apply existsb_exists. exists o. split; [|by apply (sp_address_silent _ a)].
  apply list_elem_of_In. by eapply list_elem_of_lookup_2.
Qed.
Lemma finalize_pays `{KL : !KeyLib} `{BM : !BiMapLib SpReceiving.Label PublicKey} `{Build}
    (p : SpSecretProvider) sc so t change shuffle network pct amt skip outs0 ins outs psbt :
  Transaction.prepare_outputs t change = Ok outs0 →
  Transaction.shuffle_maybe sc so t shuffle outs0 = (ins, outs) →
  Transaction.finalize sc so t change shuffle (Some (secret_provider p)) network pct amt skip = Ret (Ok psbt) →
  Bitcoin.input (unsigned_tx psbt) = Coin.coin_to_txin <$> ins ∧
  (existsb is_silent_payment outs = true → ∃ k, provider_partial_secret p ins = Ret (Ok k) ∧
    ∀ j o a, outs !! j = Some o → sp_address o = Some a →
      ∃ s x, calculate_ecdh_shared_secret (scan_pubkey a) k = Ret s ∧
        output_key s (N.of_nat (number outs j a)) a = Ok x ∧
        Bitcoin.output (unsigned_tx psbt) !! j =
          Some (mkTxOut (Transaction.output_bitcoin_amount o) (SpReceiving.p2tr_spk x))).
Proof.
  intros Hprep Hsh. unfold Transaction.finalize. intros Hf. apply qbind_Ok in Hf as (outs1 & Hp & Hf).
  assert (outs1 = outs0) as -> by congruence. rewrite Hsh in Hf.
  apply qbind_Ok in Hf as ([] & _ & Hf). apply qbind_Ok in Hf as (secret & Hs & Hf).
  apply obind_Ret in Hf as (outs' & Hd & Hf). unfold Transaction.build_psbt in Hf.
  apply obind_Ret in Hf as (made & Hmade%omapM_Ret & Hf).
  destruct (Transaction.psbt_input_maps ins) as [pins|] eqn:Hpi; [|done].
  apply qbind_Ok in Hf as (pouts & _ & [= <-]). cbn [unsigned_tx Bitcoin.input Bitcoin.output].
  split; [done|]. intros Hsilent. unfold Transaction.compute_sp_partial_secret in Hs. rewrite Hsilent in Hs.
  cbn [negb] in Hs. apply obind_Ret in Hs as (res & Hk & Hs). destruct res as [k'|]; [|done].
  injection Hs as <-. cbn in Hk. apply obind_Ret in Hk as (r & Hk & Hr). injection Hr as Hr.
  apply rbind_Ok in Hr as (k & -> & [= <-]). exists k. split; [done|]. intros j o a Ho Ha.
  cbn in Hd. rewrite to_of_secret in Hd. apply batch_spec in Hd as [_ Hd]. specialize (Hd j o Ho).
  rewrite Ha in Hd. destruct Hd as (s & x & Hsec & Hx & Hout). exists s, x. split_and!; [done..|].
  destruct (Forall2_lookup_l _ _ _ _ _ Hmade Hout) as ([r s'] & Hm & Hcr). cbv beta zeta in Hcr.
  destruct (precomputed_script_made o (SpReceiving.p2tr_spk x)
    (mkCtx ins (Some (of_secret k)) network) (sp_address_silent _ _ Ha)) as [r' Hmk].
  rewrite Hmk in Hcr. cbn [obind] in Hcr. injection Hcr as <- <-. rewrite list_lookup_fmap, Hm. cbn.
  unfold Transaction.output_bitcoin_amount. by rewrite precomputed_keeps.
Qed.
End batch_lemmas.

(** ** The secret both sides share *)

Section secret.
Context `{CurveLaws}.

Lemma input_point_key k : cong order (dl (SpReceiving.input_point k)) (sk (even_key k)).
Proof.
  destruct k as [key []]; unfold SpReceiving.input_point, even_key; cbn [fst snd andb].
  - pose proof (x_only_point (public_key key)) as Hx. pose proof (dl_opposite (x_only_public_key (public_key key)).1) as Ho.
    destruct (x_only_public_key (public_key key)).2 eqn:Hp; rewrite Hx in *.
    + rewrite bool_decide_false by done. by rewrite dl_public_key.
    + rewrite bool_decide_true by done. rewrite sk_negate_cong, <-dl_public_key. apply cong_of_sub.
      rewrite <-Ho. cong_ring.
  - by rewrite dl_public_key.
Qed.
Lemma add_all_spec l : ∀ acc r, add_all acc l = Ok r → cong order (sk r) (sk acc + foldr Z.add 0%Z (sk <$> l)).
Proof.
  induction l as [|k l IH]; intros acc r; cbn [add_all]; [intros [= ->]; cbn; cong_ring|].
  intros (acc' & Hacc & Hr)%rbind_Ok. destruct (sk_add_tweak acc _) as [a|] eqn:Ha; [|done]. injection Hacc as ->.
  apply sk_add_Some in Ha. rewrite sc_of_sk in Ha. rewrite (IH _ _ Hr), Ha. cbn. cong_ring.
Qed.
(** The sum of the keys is the secret of the sum of the points. *)
Lemma a_sum_points keys a : get_a_sum_secret_keys keys = Ok a →
  combine_keys (SpReceiving.input_point <$> keys) = Some (public_key a).
Proof.
  intros Ha. assert (Hsum : cong order (sk a) (foldr Z.add 0%Z (dl <$> (SpReceiving.input_point <$> keys))) ∧ keys ≠ []).
  { unfold get_a_sum_secret_keys in Ha. destruct keys as [|k keys]; [done|]. split; [|done].
    cbn in Ha. apply add_all_spec in Ha. rewrite Ha. clear Ha a. cbn. rewrite input_point_key.
    assert (cong order (foldr Z.add 0 (sk <$> (even_key <$> keys)))
                       (foldr Z.add 0 (dl <$> (SpReceiving.input_point <$> keys))))%Z as ->; [|done].
    induction keys as [|k' keys IH]; [done|]. cbn. by rewrite IH, input_point_key. }
  destruct Hsum as [Hsum Hne]. pose proof (combine_keys_law (SpReceiving.input_point <$> keys)) as Hl.
  destruct (combine_keys _) as [A|].
  - f_equal. apply point_eq. destruct Hl as [_ Hl]. by rewrite Hl, dl_public_key, Hsum.
  - exfalso. destruct Hl as [Hl|Hl]; [by destruct keys|]. rewrite <-Hsum in Hl.
    by apply (cong_nonzero order (sk a)); [apply sk_range|].
Qed.

(** A receiver that sees the points of the inputs shares the secret of whoever has
    their keys. *)
Lemma same_secret keys outpoints ps b : calculate_partial_secret keys outpoints = Ret (Ok ps) →
  ∃ T S, SpReceiving.calculate_tweak_data (SpReceiving.input_point <$> keys) outpoints = Ret (Ok T) ∧
    SpReceiving.calculate_ecdh_shared_secret T b = Ret S ∧
    calculate_ecdh_shared_secret (public_key b) ps = Ret S.
Proof.
  unfold calculate_partial_secret, SpReceiving.calculate_tweak_data. intros Hps.
  apply qbind_Ok in Hps as (a & Ha & Hps). injection Ha as Ha. apply qbind_Ok in Hps as (h & Hh & Hps).
  injection Hps as Hps. destruct (sk_mul_tweak a h) as [ps'|] eqn:Hm; [|done]. injection Hps as ->.
  apply sk_mul_Some in Hm. rewrite (a_sum_points _ _ Ha). cbn [secp ok_or qbind]. rewrite Hh. cbn [qbind].
  destruct (pk_mul_tweak (public_key a) h) as [T|] eqn:HT.
  - exists T. unfold SpReceiving.calculate_ecdh_shared_secret, calculate_ecdh_shared_secret.
    apply pk_mul_Some in HT. rewrite dl_public_key in HT.
    destruct (shared_secret_law T b) as (S & -> & HS). destruct (shared_secret_law (public_key b) ps) as (S' & -> & HS').
    exists S. split_and!; [done..|]. cbn. f_equal. apply point_eq.
    rewrite HS', HS, HT, Hm, dl_public_key. cong_ring.
  - exfalso. apply pk_mul_None in HT. rewrite dl_public_key, <-Hm in HT.
    by apply (cong_nonzero order (sk ps)); [apply sk_range|].
Qed.

(** The key a sender makes is the receiver's candidate under the label its address
    stands for. *)
Lemma output_key_candidate `{BM : !BiMapLib SpReceiving.Label PublicKey} (r : SpReceiving.Receiver) S n l a x :
  SpReceiving.pays r l a → (N.of_nat n < 2 ^ 32)%N → SpReceiving.derivable r S (N.of_nat n) →
  output_key S (N.of_nat n) a = Ok x → ∃ t, SpReceiving.candidate r S (N.of_nat n) l x t.
Proof.
  intros (_ & Hreg & Ha) Hn (t_n & Htn & _ & Hlab). unfold output_key. rewrite N.mod_small by done. rewrite Htn.
  cbn [rbind]. intros (P & HP & [= <-])%rbind_Ok. destruct (combine (public_key t_n) (m_pubkey a)) as [P'|] eqn:HP'; [|done].
  injection HP as ->. apply combine_Some in HP'. rewrite dl_public_key, Ha in HP'.
  destruct l as [label|]; cbn [SpReceiving.shift] in *.
  - pose proof (Hlab label Hreg) as Hne. destruct (sk_add_tweak t_n (SpReceiving.label_scalar label)) as [t|] eqn:Ht.
    + apply sk_add_Some in Ht. exists (scalar_of_sk t), t_n, P. rewrite sc_of_sk. split_and!; [done..| | | |done].
      * pose proof (sk_range t). lia.
      * done.
      * rewrite HP', Ht. cong_ring.
    + exfalso. by apply Hne, sk_add_None.
  - exists (scalar_of_sk t_n), t_n, P. rewrite sc_of_sk. split_and!; [done..| | | |done].
    + pose proof (sk_range t_n). lia.
    + cbn. cong_ring.
    + rewrite HP'. cong_ring.
Qed.
End secret.

(** ** Accounts *)

Section accounts.
Context `{CurveLaws} `{BM : !BiMapLib SpReceiving.Label PublicKey} `{!BiMapLaws SpReceiving.Label PublicKey}.

(** The receiver is that of the keys. *)
Record account_ok (r : SpReceiver) : Prop := {
  ao_receiver : SpReceiving.receiver_ok (receiver r);
  ao_scan : public_key (scan_sk r) = SpReceiving.r_scan_pubkey (receiver r);
  ao_spend : spend_point (spend_key r) = SpReceiving.spend_pubkey (receiver r)
}.
(** A label added to the receiver of an account. *)
Definition account_label (r : SpReceiver) (l : SpReceiving.Label) : SpReceiver :=
  mkSpReceiver (scan_sk r) (spend_key r) (SpReceiving.add_label l (receiver r)).1 (sr_network r).
Definition labelled (r : SpReceiver) (l : option SpReceiving.Label) : Prop :=
  SpReceiving.registered (receiver r) l.

Lemma add_label_fields l (r : SpReceiving.Receiver) : let r' := (SpReceiving.add_label l r).1 in
  SpReceiving.r_scan_pubkey r' = SpReceiving.r_scan_pubkey r ∧ SpReceiving.spend_pubkey r' = SpReceiving.spend_pubkey r ∧
  SpReceiving.change_label r' = SpReceiving.change_label r.
Proof.
  unfold SpReceiving.add_label. destruct (try! m := _ in _) as [mG|]; [|done]. by destruct (bm_insert _ _ _).
Qed.
Lemma account_label_ok r l : account_ok r → account_ok (account_label r l).
Proof.
  intros [Hr Hscan Hspend]. destruct (add_label_fields l (receiver r)) as (H1' & H2' & _).
  split; cbn; [by apply SpReceiving.add_label_ok|by rewrite H1'|by rewrite H2'].
Qed.
Lemma new_inner_ok scan_sk spend_key network r : new_inner scan_sk spend_key network = Ret (Ok r) → account_ok r.
Proof.
  unfold new_inner. intros (label & _ & Hn)%obind_Ret. injection Hn as (rec & Hrec & [= <-])%rbind_Ok.
  destruct (SpReceiving.new_receiver _ _ _ _ _) as [rec'|] eqn:Hnew; [|done]. injection Hrec as ->.
  apply SpReceiving.new_receiver_ok in Hnew as (Hok & _ & Hs & Hsp & _). by split.
Qed.

Lemma account_labels_ok ls r : account_ok r → account_ok (foldl account_label r ls).
Proof. revert r; induction ls as [|l ls IH]; intros r Hr; [done|]. cbn. by apply IH, account_label_ok. Qed.
Lemma account_label_labelled r l l' : account_ok r →
  (labelled (account_label r l) l' → labelled r l' ∨ l' = Some l) ∧ (labelled r l' → labelled (account_label r l) l').
Proof.
  intros Hr. pose proof (SpReceiving.add_label_ok l (receiver r) (ao_receiver _ Hr)) as [_ Hl].
  unfold labelled, account_label. cbn [receiver]. destruct (SpReceiving.add_label l (receiver r)) as [r' [b|e]]; cbn [fst snd] in *.
  - destruct Hl as [Hl _]. rewrite Hl. tauto.
  - subst r'. tauto.
Qed.
Lemma account_labels_labelled ls r l : account_ok r →
  (labelled (foldl account_label r ls) l → labelled r l ∨ ∃ l', l = Some l' ∧ l' ∈ ls) ∧
  (labelled r l → labelled (foldl account_label r ls) l).
Proof.
  revert r; induction ls as [|l' ls IH]; intros r Hr; cbn [foldl]; [by auto|].
  destruct (IH (account_label r l')) as [IH1 IH2]; [by apply account_label_ok|].
  destruct (account_label_labelled r l' l Hr) as [Hl1 Hl2]. split; [|auto].
  intros [Hl|(l0 & -> & Hin)]%IH1; [|right; exists l0; split; [done|by right]].
  apply Hl1 in Hl as [Hl| ->]; [by left|]. right. exists l'. split; [done|left].
Qed.

(** C30. An account made of a scan key and a spend key, whatever labels are then added
    to it (those that fail included), is well formed: its receiver has the points of its
    keys, each label it holds stands for its point and an address that exists, the
    change label and every label held before is kept and nothing else is there but the
    labels added; its receiving and change addresses exist and pay it. *)
Theorem account_well_formed scan_sk spend_key network r ls : new_inner scan_sk spend_key network = Ret (Ok r) →
  let r' := foldl account_label r ls in
  account_ok r' ∧
  (∀ l, labelled r' l → labelled r l ∨ ∃ l', l = Some l' ∧ l' ∈ ls) ∧
  (∀ l, labelled r l → labelled r' l) ∧
  (∃ a, get_receiving_address r' = Ret a ∧ SpReceiving.pays (receiver r') None a) ∧
  (∃ a, SpReceiving.get_change_address (receiver r') = Ret a ∧
     SpReceiving.pays (receiver r') (Some (SpReceiving.change_label (receiver r'))) a).
Proof.
  intros Hnew%new_inner_ok r'. pose proof (account_labels_ok ls r Hnew) as Hr'.
  pose proof (λ l, account_labels_labelled ls r l Hnew) as Hl. split_and!.
  - done.
  - intros l. apply Hl.
  - intros l. apply Hl.
  - apply SpReceiving.receiving_address_pays.
  - apply SpReceiving.change_address_pays, Hr'.
Qed.
End accounts.

(** ** Which key an input counts with *)

Section input_lemmas.
Context `{CurveLaws} `{L : Bitcoin.TxLib} `{KL : !KeyLib} `{Build}.

Lemma input_keys_spec ins b xprivs keys : input_keys ins b xprivs = Ok keys →
  ∃ kos, Forall2 (λ c ko, bip352_input_key c b xprivs = Ok ko) ins kos ∧ keys = omap id kos.
Proof.
  revert keys; induction ins as [|c ins IH]; intros keys; cbn [input_keys].
  - intros [= <-]. by exists [].
  - intros (ko & Hko & (keys' & Hk & [= <-])%rbind_Ok)%rbind_Ok. destruct (IH _ Hk) as (kos & Hf & ->).
    exists (ko :: kos). split; [by constructor|]. by destruct ko.
Qed.
(** The tweak of a coin makes a key that is the sum. *)
Lemma sp_input_key_scalar b t k : sk_add_tweak b t = Some k → sc t ≠ 0%Z →
  ∃ k', sp_input_key b (to_be_bytes t) = Ok (k', true) ∧ public_key k' = public_key k.
Proof.
  intros Hk Hnz. unfold sp_input_key. pose proof (sk_of_scalar t) as Ht.
  destruct (sk_from_slice (to_be_bytes t)) as [t'|]; [|done]. cbn.
  apply sk_add_Some in Hk. destruct (sk_add_tweak b (scalar_of_sk t')) as [k'|] eqn:Hk'.
  - exists k'. split; [done|]. apply sk_add_Some in Hk'. rewrite sc_of_sk, Ht in Hk'.
    apply point_eq. by rewrite !dl_public_key, Hk, Hk'.
  - exfalso. apply sk_add_None in Hk'. rewrite sc_of_sk, Ht, <-Hk in Hk'.
    by apply (cong_nonzero order (sk k)); [apply sk_range|].
Qed.
End input_lemmas.

(** *** The scripts of descriptors *)

(** The script of a descriptor of one key, and of a taproot one. *)
Class KeyLaws `{L : Bitcoin.TxLib} `{Cv : Curve} `{KL : !KeyLib} `{SL : !SpReceiving.ScriptLib} := {
  pkh_script d k p : shape d = Pkh k → to_public_key k = (p, true) →
    definite_script d = SpReceiving.p2pkh (SpReceiving.hash160 (pk_serialize p));
  wpkh_script d k p : shape d = Wpkh k → to_public_key k = (p, true) →
    definite_script d = SpReceiving.p2wpkh (SpReceiving.hash160 (pk_serialize p));
  sh_wpkh_script d k p : shape d = ShWpkh k → to_public_key k = (p, true) →
    definite_script d = SpReceiving.p2sh (SpReceiving.hash160
      (SpReceiving.p2wpkh (SpReceiving.hash160 (pk_serialize p))));
  tr_script d tr : shape d = DTr tr → definite_script d = SpReceiving.p2tr (xonly_serialize (tr_output_key tr))
}.

Section controls.
Context `{L : Bitcoin.TxLib} `{Cv : Curve} `{KL : !KeyLib} `{SL : !SpReceiving.ScriptLib} `{!KeyLaws} `{Build}.

(** The scripts a key spends. *)
Inductive controls (k : SecretKey) : bool → Bitcoin.script → Prop :=
  | Controls_pkh : controls k false (SpReceiving.p2pkh (SpReceiving.hash160 (pk_serialize (public_key k))))
  | Controls_wpkh : controls k false (SpReceiving.p2wpkh (SpReceiving.hash160 (pk_serialize (public_key k))))
  | Controls_sh_wpkh : controls k false (SpReceiving.p2sh (SpReceiving.hash160
      (SpReceiving.p2wpkh (SpReceiving.hash160 (pk_serialize (public_key k))))))
  | Controls_tr : controls k true (SpReceiving.p2tr (xonly_serialize (x_only_public_key (public_key k)).1)).

Lemma single_key_input_key_spec key xprivs k : single_key_input_key key xprivs = Ok (Some k) →
  k.2 = false ∧ to_public_key key = (public_key k.1, true).
Proof.
  unfold single_key_input_key. destruct (to_public_key key) as [pubkey []]; cbn [negb]; [|done].
  intros (secret & _ & Hs)%rbind_Ok. case_bool_decide as Hp; cbn [negb] in Hs; [|done]. injection Hs as <-. by subst.
Qed.
Lemma taproot_input_key_spec tr xprivs k : taproot_input_key tr xprivs = Ok (Some k) →
  k.2 = true ∧ (x_only_public_key (public_key k.1)).1 = tr_output_key tr.
Proof.
  unfold taproot_input_key. case_bool_decide; [done|]. intros (secret & _ & Hs)%rbind_Ok.
  case_bool_decide as Hp; cbn [negb] in Hs; [|done]. by injection Hs as <-.
Qed.
(** The key a descriptor coin counts with is the one that spends its script. *)
Lemma bip32_key_controls coin b xprivs k origin d : Coin.spend_info coin = Coin.Bip32 origin d →
  bip352_input_key coin b xprivs = Ok (Some k) → controls k.1 k.2 (script_pubkey (Coin.txout coin)).
Proof.
  unfold bip352_input_key. intros ->. destruct origin as [kc i]. intros (def & _ & Hk)%rbind_Ok.
  case_bool_decide as Hscript; cbn [negb] in Hk; [|done]. rewrite <-Hscript. destruct k as [k tap]; cbn [fst snd].
  destruct (shape def) as [key|key|key| |tr|] eqn:Hshape; [| | |done| |done].
  - apply single_key_input_key_spec in Hk as [[= ->] Hp]. rewrite (pkh_script _ _ _ Hshape Hp). constructor.
  - apply single_key_input_key_spec in Hk as [[= ->] Hp]. rewrite (wpkh_script _ _ _ Hshape Hp). constructor.
  - apply single_key_input_key_spec in Hk as [[= ->] Hp]. rewrite (sh_wpkh_script _ _ _ Hshape Hp). constructor.
  - apply taproot_input_key_spec in Hk as [[= ->] Hp]. cbn [fst] in Hp. rewrite (tr_script _ _ Hshape), <-Hp. constructor.
Qed.

(** The outputs BIP352 leaves out of the sum. *)
Definition not_counted (d : Bitcoin.DefiniteDescriptor) : Prop :=
  match shape d with
  | Pkh key | Wpkh key | ShWpkh key => (to_public_key key).2 = false
  | DTr tr => xonly_serialize (x_only_public_key (to_public_key (internal_key tr)).1).1 = SpReceiving.NUMS_H
  | ShOther | DOther => True
  end.

Lemma single_key_none key xprivs : single_key_input_key key xprivs = Ok None → (to_public_key key).2 = false.
Proof.
  unfold single_key_input_key. destruct (to_public_key key) as [pubkey []]; cbn [negb]; [|done].
  intros (secret & _ & Hs)%rbind_Ok. by case_bool_decide.
Qed.
Lemma taproot_none tr xprivs : taproot_input_key tr xprivs = Ok None →
  xonly_serialize (x_only_public_key (to_public_key (internal_key tr)).1).1 = SpReceiving.NUMS_H.
Proof.
  unfold taproot_input_key. case_bool_decide; [done|]. intros (secret & _ & Hs)%rbind_Ok. by case_bool_decide.
Qed.

(** C23. When the keys of the inputs are summed, each coin either counts with the key
    that spends its very script (a silent-payment coin with the spend key plus its
    tweak), or is of a kind BIP352 leaves out: no input that counts is skipped for want
    of its key. *)
Theorem input_keys_complete ins b xprivs keys : input_keys ins b xprivs = Ok keys →
  ∃ kos, keys = omap id kos ∧
  Forall2 (λ coin ko,
    match ko, Coin.spend_info coin with
    | Some k, Coin.Bip32 _ _ => controls k.1 k.2 (script_pubkey (Coin.txout coin))
    | Some k, Coin.Sp _ tweak => k.2 = true ∧
        ∃ t, sk_from_slice tweak = Some t ∧ sk_add_tweak b (scalar_of_sk t) = Some k.1
    | None, Coin.Bip32 (kc, i) descriptor =>
        ∃ d, Coin.derive_descriptor descriptor kc i = Ok d ∧
          definite_script d = script_pubkey (Coin.txout coin) ∧ not_counted d
    | None, Coin.Sp _ _ => False
    end) ins kos.
Proof.
  intros (kos & Hk & ->)%input_keys_spec. exists kos. split; [done|]. eapply Forall2_impl; [exact Hk|].
  intros coin [k|] Hc; destruct (Coin.spend_info coin) as [[kc i] descriptor|path tweak] eqn:Hi.
  - by apply (bip32_key_controls coin b xprivs k (kc, i) descriptor).
  - unfold bip352_input_key in Hc. rewrite Hi in Hc. apply rbind_Ok in Hc as (k' & Hs & [= ->]).
    unfold sp_input_key in Hs. apply rbind_Ok in Hs as (t & Ht & (k' & Hk' & [= <-])%rbind_Ok). cbn.
    destruct (sk_from_slice tweak); [|done]. injection Ht as ->. split; [done|]. exists t. split; [done|].
    destruct (sk_add_tweak b _); [|done]. by injection Hk' as ->.
  - unfold bip352_input_key in Hc. rewrite Hi in Hc. apply rbind_Ok in Hc as (d & Hd & Hc). exists d.
    destruct (Coin.derive_descriptor descriptor kc i) as [d'|]; [|done]. injection Hd as ->. split; [done|].
    case_bool_decide as Hscript; cbn [negb] in Hc; [|done]. split; [done|]. unfold not_counted.
    destruct (shape d); try done; first [by apply single_key_none in Hc|by apply taproot_none in Hc].
  - unfold bip352_input_key in Hc. rewrite Hi in Hc. by apply rbind_Ok in Hc as (k' & _ & [=]).
Qed.
End controls.

(** ** The parameters instantiated *)

(** Keys are numbers below the prime of the toy curve; a descriptor at an index is its
    number and its index, held by the master key of that number. *)
Module Sample.
Import SpReceiving.Templates.
#[local] Existing Instances SpReceiving.Label_eqdec SpReceiving.Label_countable.
#[local] Existing Instances Bitcoin.Sample.sample_lib Bitcoin.Sample.sample_build Toy.curve Toy.laws BiList.lib BiList.laws.

Definition one : Toy.elt := Toy.mkElt 1 eq_refl.
Definition small (n : N) : Toy.elt := default one (Toy.elt_of (Z.of_N n)).
#[export] Instance same_keys : SameKeys := {|
  to_point := small;
  of_point p := Z.to_N (Toy.ev p);
  to_secret := small;
  of_secret k := Z.to_N (Toy.ev k)
|}.
Lemma small_ev e : small (Z.to_N (Toy.ev e)) = e.
Proof. unfold small. pose proof (Toy.ev_range e). rewrite Z2N.id by lia. by rewrite Toy.elt_of_ev. Qed.
#[export] Instance same_keys_laws : SameKeysLaws.
Proof. split; apply small_ev. Qed.

#[export] Instance payment_lib : PaymentLib := {|
  sp_from_str _ := None;
  UncheckedAddress := list N;
  address_from_str _ := None;
  require_network a _ := Some a;
  from_hex s := Some [N.of_nat (String.length s)];
  op_return_script data :=
    if len data <? 76 then Some ([106; len data] ++ data) else Some ([106; 76; len data] ++ data)
|}.

Definition key_at (master index : N) : Toy.elt := small (master * 100 + index + 5).
Definition tweaked (k : Toy.elt) : Toy.elt := default k (Toy.elt_of (Toy.ev k + 7)).
Definition out_key (d : N * N) : Toy.xonly := (Toy.x_of (tweaked (key_at d.1 d.2))).1.
Definition sample_shape (d : N * N) : DescriptorShape (N * N) (N * N) := if d.1 =? 2 then DTr d else Wpkh d.
#[export] Instance key_lib : KeyLib := {|
  DefiniteKey := N * N; TrDescriptor := N * N; Fingerprint := N; Xpriv := N; Path := N;
  shape := sample_shape;
  definite_script d :=
    match sample_shape d with
    | DTr _ => SpReceiving.p2tr (xonly_serialize (out_key d))
    | _ => SpReceiving.p2wpkh (SpReceiving.hash160 (pk_serialize (Curve:=Toy.curve) (key_at d.1 d.2)))
    end;
  to_public_key d := (key_at d.1 d.2, true);
  master_fingerprint d := d.1;
  full_derivation_path d := Some d.2;
  derive_priv x i := Some (key_at x i);
  internal_key d := d;
  tap_tweak k _ := tweaked k;
  tr_output_key := out_key;
  txid_to_string _ := "txid"%string
|}.
#[export] Instance key_laws : KeyLaws.
Proof.
  split; cbn; unfold sample_shape.
  - intros d k p. by destruct (d.1 =? 2).
  - intros d k p. destruct (d.1 =? 2); [done|]. intros [= ->] [= ->]. done.
  - intros d k p. by destruct (d.1 =? 2).
  - intros d tr. destruct (d.1 =? 2); [|done]. by intros [= ->].
Qed.

(** An account, and coins of it: a witness output, a taproot one, and a silent payment. *)
Definition scan_key : SecretKey := small 12.
Definition spend_secret : SecretKey := small 34.
Definition spend : SpendKey := Secret spend_secret.
Definition account : option SpReceiver :=
  match new_inner scan_key spend Bitcoin.Regtest with Ret (Ok r) => Some r | _ => None end.
Definition made : bool := match account with Some _ => true | None => false end.
Definition nine : Scalar := Some (small 9).
Definition zero : Scalar := None.
Definition extra : list SpReceiving.Label := [SpReceiving.mkLabel nine; SpReceiving.mkLabel zero].
Definition coin_of (s : Bitcoin.script) (vout : N) (info : Coin.CoinSpendInfo) : Coin :=
  Coin.mkCoin (mkTxOut 5000 s) (mkOutPoint 7 vout) (Some 1) 0 Coin.Confirmed None 66 info.
Definition wpkh_coin : Coin := coin_of (definite_script (4, 3)) 0 (Coin.Bip32 (Coin.Receive, 3) 2).
Definition tr_coin : Coin := coin_of (definite_script (2, 5)) 1 (Coin.Bip32 (Coin.Receive, 5) 1).
Definition sp_coin : Coin := coin_of [] 2 (Coin.Sp [] (to_be_bytes (Some (small 77)))).
Definition held : gmap Fingerprint Xpriv := {[(2 : Fingerprint) := (2 : Xpriv); (4 : Fingerprint) := (4 : Xpriv)]}.

Lemma account_well_formed_witness : ∃ r, new_inner scan_key spend Bitcoin.Regtest = Ret (Ok r) ∧
  let r' := foldl account_label r extra in
  account_ok r' ∧ labelled r' (Some (SpReceiving.change_label (receiver r))).
Proof.
  assert (made = true) as Ha by (vm_compute; reflexivity). unfold made, account in Ha.
  destruct (new_inner scan_key spend Bitcoin.Regtest) as [[r|]|] eqn:Hn; [|done..]. exists r. split; [done|].
  destruct (account_well_formed scan_key spend Bitcoin.Regtest r
    extra Hn) as (Hok & _ & Hkeep & _).
  split; [exact Hok|]. apply Hkeep. apply new_inner_ok in Hn. apply (SpReceiving.ro_change _ (ao_receiver _ Hn)).
Defined.

Lemma input_keys_complete_witness : ∃ keys, input_keys [wpkh_coin; tr_coin; sp_coin] spend_secret held = Ok keys ∧
  length keys = 3%nat ∧ ∃ kos, keys = omap id kos.
Proof.
  assert (match input_keys [wpkh_coin; tr_coin; sp_coin] spend_secret held with
          | Ok keys => (length keys =? 3)%nat | Err _ => false end = true) as Hl by (vm_compute; reflexivity).
  destruct (input_keys [wpkh_coin; tr_coin; sp_coin] spend_secret held) as [keys|] eqn:Hk; [|done].
  exists keys. split; [done|]. split.
  - by apply Nat.eqb_eq.
  - destruct (input_keys_complete _ _ _ _ Hk) as (kos & He & _). by exists kos.
Defined.
End Sample.
End SpPayment.
