(* ===== verification/HotSigner.v ===== *)
(** * The signers of a wallet (sign/src/hot_signer.rs, sign/src/signing_manager.rs, keys/src/derivator.rs)

    A hot signer holds a master key and the descriptors it signs for: it goes over the
    inputs of a PSBT, derives the key of each from the derivations the PSBT gives, checks
    that the output spent is an address of the descriptor, and adds its signatures. The
    manager holds the signers and keeps them in a store. The fields of [psbt::Input], the
    digests and the signatures are those of the crates. *)
From Stdlib Require Import Lia Ascii.
From stdpp Require Import base countable strings gmap sets list.
From S2P Require Import Prelude Bitcoin Coin Persist Derivator.
From S2P Require Import SpCurve SpCommon SpReceiving SpPayment.

(** The taproot signatures of the crates: the digest an input signs over, all its
    transaction's prevouts included, and Schnorr signatures. *)
Class SignLib `{L : Bitcoin.TxLib} `{Cv : Curve} := {
  Signature : Type;
  key_spend_sighash : Transaction → nat → list TxOut → option (list N);
  sign_schnorr : list N → SecretKey → list N → Signature;
  verify_schnorr : Signature → list N → XOnlyPublicKey → bool;
  set_tap_key_sig : option Signature → Bitcoin.PsbtInputRest → Bitcoin.PsbtInputRest;
  tap_key_sig : Bitcoin.PsbtInputRest → option Signature
}.
Class SignLaws `{L : Bitcoin.TxLib} `{Cv : Curve} `{!SignLib} := {
  sign_verifies msg k aux : verify_schnorr (sign_schnorr msg k aux) msg (x_only_public_key (public_key k)).1 = true;
  tap_key_sig_set sig r : tap_key_sig (set_tap_key_sig sig r) = sig;
  sighash_exists tx i prevouts : length prevouts = length (input tx) → (i < length (input tx))%nat →
    is_Some (key_spend_sighash tx i prevouts)
}.

Module HotSigner.
Import SpPayment(KeyLib, Fingerprint, Xpriv, Path, derive_priv).
Import Persist(Store, StoreLaws, StoreTotal, st_view, st_view_foldl, st_iter_total, st_insert_total, st_iter_spec, st_insert_spec, st_flush_spec, st_flush).
#[local] Existing Instances SpPayment.Fingerprint_eqdec SpPayment.Fingerprint_countable.
Abbreviation BtcNetwork := Bitcoin.Network.
Abbreviation SpkDerivator := Derivator.SpkDerivator.

(** [sign::error::Error]; the cause of [Bip39] is dropped. *)
Inductive Error :=
  | SighashFail | InvalidSignature | InputNotOwned | XPrivFromSeed | MissingWitnessUtxo | SpkNotMatch
  | DerivationPath | Bip39 | UnregisteredDescriptor | DescriptorNetwork | EDerivator | InputIndex
  | NotSegwit | NotTapKey | NotTapTree | InternalKeyNotMatch | InsanePrevouts | SigningInfo
  | InsaneTaptreeInfo | SpSigning.

(** What is read of the keys of a descriptor. *)
Inductive SignerKey (Fg : Type) :=
  | KSingle
  | KXPub (key_network : Derivator.NetworkKind) (origin : option Fg)
  | KMultiXPub (key_network : Derivator.NetworkKind) (origin : option Fg).
Arguments KSingle {_}. Arguments KXPub {_}. Arguments KMultiXPub {_}.
Inductive DeviceKind := BitBox02 | Coldcard | Specter | SpecterSimulator | Ledger | LedgerSimulator | Jade.
Inductive SignerKind := Hot | ExternalKind (k : DeviceKind).

(** What the signer reads and writes of [psbt::Input], and what it calls of bip39,
    bip32, miniscript and secp256k1. [sighash_ecdsa] tells a digest and whether it
    covers everything; an ECDSA signature is made with extra nonce data. *)
Class SignerLib `{L : Bitcoin.TxLib} `{Cv : Curve} `{KL : !KeyLib} `{SG : !SignLib} := {
  Mnemonic : Type;
  mnemonic_from_str : string → option Mnemonic;
  mnemonic_to_string : Mnemonic → string;
  master_from_mnemonic : BtcNetwork → Mnemonic → option Xpriv;
  fingerprint_of : Xpriv → Fingerprint;
  path_indexes : Path → list N;                         (* to_u32_vec *)
  Descriptor_countable :: @Countable Descriptor Bitcoin.Descriptor_eqdec;
  Descriptor_ord :: KeyOrd Descriptor;
  Fingerprint_ord :: KeyOrd Fingerprint;
  PublicKey_ord :: KeyOrd PublicKey;
  XOnly_ord :: KeyOrd XOnlyPublicKey;
  descriptor_to_string : Descriptor → string;
  descriptor_from_str : string → option Descriptor;
  signer_keys : Descriptor → list (SignerKey Fingerprint); (* for_any_key *)
  LeafHash : Type;
  EcdsaSignature : Type;
  bip32_derivation : PsbtInputRest → gmap PublicKey (Fingerprint * Path);
  tap_internal_key : PsbtInputRest → option XOnlyPublicKey;
  tap_key_origins : PsbtInputRest → gmap XOnlyPublicKey (list LeafHash * (Fingerprint * Path));
  tweak_keypair : SecretKey → PsbtInputRest → SecretKey; (* tap_tweak with tap_merkle_root *)
  partial_sigs : PsbtInputRest → gmap PublicKey EcdsaSignature;
  insert_partial_sig : PublicKey → EcdsaSignature → PsbtInputRest → PsbtInputRest;
  insert_tap_script_sig : XOnlyPublicKey → LeafHash → Signature → PsbtInputRest → PsbtInputRest;
  sighash_ecdsa : Transaction → nat → PsbtInput → option (list N * bool);
  script_spend_sighash : Transaction → nat → list TxOut → LeafHash → option (list N);
  sign_ecdsa : list N → SecretKey → N → EcdsaSignature;
  der_length : EcdsaSignature → N;
  verify_ecdsa : list N → EcdsaSignature → PublicKey → bool;
  sign_schnorr_no_aux_rand : list N → SecretKey → Signature
}.

Section signer.
Context `{L : Bitcoin.TxLib} `{Cv : Curve} `{KL : !KeyLib} `{SG : !SignLib} `{SL : !SignerLib}.
Context `{DL : !Derivator.DescriptorLib} `{Build}.

(** [struct KeyDerivator]. *)
Record KeyDerivator := mkKeyDerivator {
  kd_fingerprint : Fingerprint;
  kd_master_xpriv : Xpriv;
  kd_mnemonic : option Mnemonic
}.
Definition new_from_xpriv (x : Xpriv) : KeyDerivator := mkKeyDerivator (fingerprint_of x) x None.
Definition new_from_mnemonic (network : BtcNetwork) (m : Mnemonic) : option KeyDerivator :=
  (λ x, mkKeyDerivator (fingerprint_of x) x (Some m)) <$> master_from_mnemonic network m.
(** [secret_key_at], which expects the derivation to exist, and [public_key_at]. *)
Definition secret_key_at (d : KeyDerivator) (path : Path) : outcome SecretKey :=
  expect (derive_priv (kd_master_xpriv d) path).
Definition public_key_at (d : KeyDerivator) (path : Path) : outcome PublicKey :=
  let! k := secret_key_at d path in Ret (public_key k).

(** [struct HotSigner]; whether it has a channel to report on. *)
Record HotSigner := mkHotSigner {
  derivator : KeyDerivator;
  descriptors : gset Descriptor;
  network : BtcNetwork;
  connected : bool
}.
Definition fingerprint (s : HotSigner) : Fingerprint := kd_fingerprint (derivator s).
Definition set_descriptors (ds : gset Descriptor) (s : HotSigner) : HotSigner :=
  mkHotSigner (derivator s) ds (network s) (connected s).
Definition signer_from_xpriv (network : BtcNetwork) (x : Xpriv) : HotSigner :=
  mkHotSigner (new_from_xpriv x) ∅ network false.
Definition new_from_mnemonics (network : BtcNetwork) (mnemonic : string) : result HotSigner Error :=
  try! d := ok_or (mnemonic_from_str mnemonic ≫= new_from_mnemonic network) EDerivator in
  Ok (mkHotSigner d ∅ network false).
Definition inner_register_descriptor (d : Descriptor) (s : HotSigner) : HotSigner :=
  set_descriptors ({[d]} ∪ descriptors s) s.
(** The descriptors in the order of their set. *)
Definition descriptor_list (s : HotSigner) : list Descriptor := sort_by key_leb (elements (descriptors s)).

(** [account_path]: the keychain and the index a derivation ends with. *)
Definition account_path (path : Path) : result (bool * N) Error :=
  let v := path_indexes path in
  match drop (length v - 2) v with
  | [c; index] => if c =? 0 then Ok (false, index) else if c =? 1 then Ok (true, index) else Err DerivationPath
  | _ => Err DerivationPath
  end.

(** *** Calls that edit a PSBT

    They may panic or fail, what was edited before stays; searching a nonce runs on
    fuel. *)
Definition sign_m (A : Type) : Type := Psbt → option (outcome (Psbt * result A Error)).
Definition mret {A} (a : A) : sign_m A := λ p, Some (Ret (p, Ok a)).
Definition mres {A} (r : result A Error) : sign_m A := λ p, Some (Ret (p, r)).
Definition mout {A} (o : outcome A) : sign_m A := λ p,
  match o with Ret a => Some (Ret (p, Ok a)) | Panic => Some Panic end.
Definition mbind {A C} (c : sign_m A) (k : A → sign_m C) : sign_m C := λ p,
  match c p with
  | Some (Ret (p, Ok a)) => k a p
  | Some (Ret (p, Err e)) => Some (Ret (p, Err e))
  | Some Panic => Some Panic
  | None => None
  end.
#[local] Notation "'let*' x := c 'in' k" := (mbind c (λ x, k)) (at level 10, x pattern, c at level 100, k at level 200).
Definition mread {A} (f : Psbt → A) : sign_m A := λ p, Some (Ret (p, Ok (f p))).
Definition edit_input (i : nat) (f : PsbtInputRest → PsbtInputRest) (p : Psbt) : Psbt :=
  mkPsbt _ (unsigned_tx p) (psbt_version p)
    (alter (λ m, mkPsbtInput _ (witness_utxo m) (f (pi_rest m))) i (psbt_inputs p)) (psbt_outputs p).
Definition medit (i : nat) (f : PsbtInputRest → PsbtInputRest) : sign_m unit := λ p, Some (Ret (edit_input i f p, Ok tt)).

Definition input_at (i : nat) : sign_m PsbtInput :=
  let* m := mread (λ p, psbt_inputs p !! i) in mres (ok_or m InputIndex).
Definition has_witness_utxo (i : nat) : sign_m TxOut :=
  let* m := input_at i in mres (ok_or (witness_utxo m) MissingWitnessUtxo).

Definition expected_spk (d : SpkDerivator) (ap : bool * N) : outcome script :=
  if ap.1 then Derivator.change_spk_at d ap.2 else Derivator.receive_spk_at d ap.2.
(** The output spent is the address of the descriptor at the end of the path. *)
Definition check_spk (d : SpkDerivator) (wit : TxOut) (path : Path) : sign_m unit :=
  let* ap := mres (account_path path) in
  let* spk := mout (expected_spk d ap) in
  mres (if bool_decide (script_pubkey wit = spk) then Ok tt else Err SpkNotMatch).

Definition segwit_hash (i : nat) : sign_m (list N) :=
  let* m := input_at i in
  if bool_decide (bip32_derivation (pi_rest m) = ∅) then mres (Err NotSegwit)
  else
    let* tx := mread unsigned_tx in
    let* (hash, all) := mres (ok_or (sighash_ecdsa tx i m) SighashFail) in
    mres (if (all : bool) then Ok hash else Err SighashFail).
(** Nonces are tried until the signature has its full length. *)
Fixpoint grind (fuel : nat) (hash : list N) (k : SecretKey) (counter : N) : option EcdsaSignature :=
  match fuel with
  | O => None
  | S fuel =>
      let sig := sign_ecdsa hash k counter in
      if der_length sig =? 70 then Some sig else grind fuel hash k ((counter + 1) mod 2 ^ 32)
  end.
Fixpoint inner_sign_input_segwit (fuel : nat) (s : HotSigner) (hash : list N) (i : nat) (deriv : list Path)
    (d : SpkDerivator) : sign_m unit :=
  match deriv with
  | [] => mret tt
  | path :: deriv =>
      let* signing_key := mout (secret_key_at (derivator s) path) in
      let* pubkey := mout (public_key_at (derivator s) path) in
      let* m := input_at i in
      match bip32_derivation (pi_rest m) !! pubkey with
      | None => inner_sign_input_segwit fuel s hash i deriv d
      | Some _ =>
          let* wit := mres (ok_or (witness_utxo m) MissingWitnessUtxo) in
          let* _ := check_spk d wit path in
          let* signature := (λ p, match grind fuel hash signing_key 0 with
                                  | Some sig => Some (Ret (p, Ok sig)) | None => None end) in
          let* _ := mres (if verify_ecdsa hash signature pubkey then Ok tt else Err InvalidSignature) in
          let* _ := medit i (insert_partial_sig pubkey signature) in
          inner_sign_input_segwit fuel s hash i deriv d
      end
  end.
Definition own_paths (s : HotSigner) (m : PsbtInput) : list Path :=
  omap (λ v, if bool_decide (v.1 = fingerprint s) then Some v.2 else None) (bt_values (bip32_derivation (pi_rest m))).
Definition sign_input_segwit (fuel : nat) (s : HotSigner) (i : nat) (d : SpkDerivator) : sign_m unit :=
  let* _ := has_witness_utxo i in
  let* sighash := segwit_hash i in
  let* m := input_at i in
  inner_sign_input_segwit fuel s sighash i (own_paths s m) d.

Definition prevouts (p : Psbt) : list TxOut := omap witness_utxo (psbt_inputs p).
Definition sign_input_tapkey (s : HotSigner) (i : nat) (d : SpkDerivator) : sign_m unit :=
  let* wit := has_witness_utxo i in
  let* outs := mread prevouts in
  let* m := input_at i in
  match tap_internal_key (pi_rest m) with
  | None => mres (Err NotTapKey)
  | Some int_key =>
      match tap_key_origins (pi_rest m) !! int_key with
      | None => mres (Err NotTapKey)
      | Some (_, (fg, der_path)) =>
          if negb (bool_decide (fg = fingerprint s)) then mret tt
          else
            let* _ := check_spk d wit der_path in
            let* sk := mout (secret_key_at (derivator s) der_path) in
            if negb (bool_decide ((x_only_public_key (public_key sk)).1 = int_key)) then mres (Err InternalKeyNotMatch)
            else
              let keypair := tweak_keypair sk (pi_rest m) in
              let* tx := mread unsigned_tx in
              let* sighash := mres (ok_or (key_spend_sighash tx i outs) InsanePrevouts) in
              medit i (set_tap_key_sig (Some (sign_schnorr_no_aux_rand sighash keypair)))
      end
  end.
Fixpoint sign_leaves (i : nat) (outs : list TxOut) (pubkey : XOnlyPublicKey) (sk : outcome SecretKey) (l : list LeafHash) :
    sign_m unit :=
  match l with
  | [] => mret tt
  | leaf_hash :: l =>
      let* sk' := mout sk in
      let* tx := mread unsigned_tx in
      let* sighash := mres (ok_or (script_spend_sighash tx i outs leaf_hash) InsaneTaptreeInfo) in
      let* _ := medit i (insert_tap_script_sig pubkey leaf_hash (sign_schnorr_no_aux_rand sighash sk')) in
      sign_leaves i outs pubkey sk l
  end.
Fixpoint sign_origins (s : HotSigner) (i : nat) (outs : list TxOut)
    (l : list (XOnlyPublicKey * (list LeafHash * (Fingerprint * Path)))) : sign_m unit :=
  match l with
  | [] => mret tt
  | (pubkey, (leaf_hashes, (fg, der_path))) :: l =>
      if negb (bool_decide (fg = fingerprint s)) then sign_origins s i outs l
      else
        let* _ := sign_leaves i outs pubkey (secret_key_at (derivator s) der_path) leaf_hashes in
        sign_origins s i outs l
  end.
Definition sign_input_taptree (s : HotSigner) (i : nat) : sign_m unit :=
  let* _ := has_witness_utxo i in
  let* outs := mread prevouts in
  let* m := input_at i in
  sign_origins s i outs (bt_items (tap_key_origins (pi_rest m))).

(** An input whose output is not the descriptor's is passed over. *)
Definition attempt (c : sign_m unit) : sign_m bool := λ p,
  match c p with
  | Some (Ret (p, Ok _)) => Some (Ret (p, Ok true))
  | Some (Ret (p, Err SpkNotMatch)) => Some (Ret (p, Ok false))
  | Some (Ret (p, Err e)) => Some (Ret (p, Err e))
  | Some Panic => Some Panic
  | None => None
  end.
Definition sign_input (fuel : nat) (s : HotSigner) (d : SpkDerivator) (i : nat) : sign_m bool :=
  let* inputs := mread psbt_inputs in
  let* m := mout (expect (inputs !! i)) in
  match negb (bool_decide (bip32_derivation (pi_rest m) = ∅)), tap_internal_key (pi_rest m),
        negb (bool_decide (tap_key_origins (pi_rest m) = ∅)) with
  | true, None, false => attempt (sign_input_segwit fuel s i d)
  | false, None, true => attempt (sign_input_taptree s i)
  | false, Some _, true => attempt (let* _ := sign_input_tapkey s i d in sign_input_taptree s i)
  | false, None, false => mret false
  | _, _, _ => mout Panic
  end.
Fixpoint sign_inputs (fuel : nat) (s : HotSigner) (d : SpkDerivator) (l : list nat) (signed_any : bool) : sign_m bool :=
  match l with
  | [] => mret signed_any
  | i :: l => let* b := sign_input fuel s d i in sign_inputs fuel s d l (signed_any || b)
  end.
Definition inner_sign (fuel : nat) (s : HotSigner) (d : Descriptor) : sign_m unit :=
  let* derivator := mout (let! r := Derivator.new d (network s) in expect (ok r)) in
  let* n := mread (λ p, length (psbt_inputs p)) in
  let* signed_any := sign_inputs fuel s derivator (seq 0 n) false in
  mres (if signed_any then Ok tt else Err SigningInfo).
(** [sign]: what fails for a descriptor is logged. *)
Fixpoint sign_for (fuel : nat) (s : HotSigner) (l : list Descriptor) (p : Psbt) : option (outcome Psbt) :=
  match l with
  | [] => Some (Ret p)
  | d :: l =>
      match inner_sign fuel s d p with
      | Some (Ret (p, _)) => sign_for fuel s l p
      | Some Panic => Some Panic
      | None => None
      end
  end.
Definition sign (fuel : nat) (s : HotSigner) (p : Psbt) : option (outcome Psbt) :=
  sign_for fuel s (descriptor_list s) p.

(** A silent-payment input, by the tweak of its coin. *)
Definition sign_sp_input (s : HotSigner) (i : nat) (derivation : Path) (tweak aux_rand : list N) : sign_m unit :=
  let* b_spend := mout (secret_key_at (derivator s) derivation) in
  let* inputs := mread psbt_inputs in
  let* outs := mres (ok_or (mapM witness_utxo inputs) SpSigning) in
  let* tx := mread unsigned_tx in
  let* msg := mres (ok_or (key_spend_sighash tx i outs) SpSigning) in
  let* tweak := mres (ok_or (sk_from_slice tweak) SpSigning) in
  let* sk := mres (ok_or (sk_add_tweak b_spend (scalar_of_sk tweak)) SpSigning) in
  let* _ := mout (expect (inputs !! i)) in
  medit i (set_tap_key_sig (Some (sign_schnorr msg sk aux_rand))).

(** *** The signer as a [Signer] *)

(** The error of the manager; notifications without the values of the crates they carry
    (the JSON of a signer, an extended key). *)
Inductive ManagerError := ParsePsbt | Hw (message : string).
Inductive SignerNotif :=
  | Info (fg : Fingerprint)
  | Xpub (fg : Fingerprint) (path : Path)
  | NDescriptor (fg : Fingerprint) (key : Derivator.MultiXKey)
  | DescriptorRegistered (fg : Fingerprint) (d : Descriptor) (registered : bool)
  | Signed (fg : Fingerprint) (p : Psbt)
  | NError (fg : Fingerprint) (e : Error)
  | Manager (e : ManagerError)
  | DeviceUpdate.
(** What a signer sends, when it has a channel. *)
Definition send (s : HotSigner) (n : SignerNotif) : list SignerNotif := if connected s then [n] else [].
Definition info (s : HotSigner) : list SignerNotif := send s (Info (fingerprint s)).
Definition init (s : HotSigner) : HotSigner * list SignerNotif :=
  let s := mkHotSigner (derivator s) (descriptors s) (network s) true in (s, info s).
Definition get_xpub (s : HotSigner) (path : Path) : outcome (list SignerNotif) :=
  let! _ := secret_key_at (derivator s) path in Ret (send s (Xpub (fingerprint s) path)).
Definition is_descriptor_registered (s : HotSigner) (d : Descriptor) : list SignerNotif :=
  send s (DescriptorRegistered (fingerprint s) d (bool_decide (d ∈ descriptors s))).
Definition foreign_key (network : BtcNetwork) (k : SignerKey Fingerprint) : bool :=
  match k with
  | KSingle => true
  | KXPub key_network _ | KMultiXPub key_network _ =>
      match network, key_network with
      | Bitcoin.Bitcoin, Derivator.Main => false
      | Bitcoin.Bitcoin, Derivator.Test => true
      | _, Derivator.Main => true
      | _, Derivator.Test => false
      end
  end.
Definition foreign_network (network : BtcNetwork) (d : Descriptor) : bool := existsb (foreign_key network) (signer_keys d).
Definition register_descriptor (d : Descriptor) (s : HotSigner) : HotSigner * list SignerNotif :=
  if foreign_network (network s) d then (s, send s (NError (fingerprint s) DescriptorNetwork))
  else (set_descriptors ({[d]} ∪ descriptors s) s, send s (DescriptorRegistered (fingerprint s) d true)).
Definition sign_with_descriptor (fuel : nat) (s : HotSigner) (p : Psbt) (d : Descriptor) :
    option (outcome (list SignerNotif)) :=
  if bool_decide (d ∈ descriptors s) then
    match inner_sign fuel s d p with
    | Some (Ret (_, Err e)) => Some (Ret (send s (NError (fingerprint s) e)))
    | Some (Ret (p, Ok _)) => Some (Ret (send s (Signed (fingerprint s) p)))
    | Some Panic => Some Panic
    | None => None
    end
  else Some (Ret (send s (NError (fingerprint s) UnregisteredDescriptor))).

(** *** Signers as they are stored *)

Record JsonSigner := mkJsonSigner {
  js_mnemonic : Mnemonic;
  js_descriptors : gset string;
  js_network : BtcNetwork
}.
Definition to_json (s : HotSigner) : option JsonSigner :=
  (λ m, mkJsonSigner m (set_map descriptor_to_string (descriptors s)) (network s)) <$> kd_mnemonic (derivator s).
Definition from_json (j : JsonSigner) : outcome HotSigner :=
  let! s := expect (ok (new_from_mnemonics (js_network j) (mnemonic_to_string (js_mnemonic j)))) in
  Ret (set_descriptors (list_to_set (omap descriptor_from_str (elements (js_descriptors j)))) s).

(** An external signer: what the manager keeps of it, and the calls it makes of it,
    which a thread answers on the channel. *)
Record ExternalSigner := mkExternal {
  ext_kind : SignerKind;
  ext_id : string;
  ext_descriptors : gset Descriptor
}.
Inductive SignerCall := RegisterDescriptor (d : Descriptor) | SignWithDescriptor (p : Psbt) (d : Descriptor).

(** [struct SigningManager], with what was sent on its channel and the calls made of
    external signers. *)
Context {S : Type} `{!Store S Fingerprint JsonSigner}.
Record SigningManager := mkManager {
  bip32_signers : gmap Fingerprint HotSigner;
  signers : gmap Fingerprint ExternalSigner;
  store : S;
  sent : list SignerNotif;
  calls : list (Fingerprint * SignerCall)
}.
Definition set_hot (sg : gmap Fingerprint HotSigner) (st : S) (m : SigningManager) : SigningManager :=
  mkManager sg (signers m) st (sent m) (calls m).
Definition set_external (ext : gmap Fingerprint ExternalSigner) (m : SigningManager) : SigningManager :=
  mkManager (bip32_signers m) ext (store m) (sent m) (calls m).
Definition push (n : list SignerNotif) (m : SigningManager) : SigningManager :=
  mkManager (bip32_signers m) (signers m) (store m) (sent m ++ n) (calls m).
Definition call (fg : Fingerprint) (c : SignerCall) (m : SigningManager) : SigningManager :=
  mkManager (bip32_signers m) (signers m) (store m) (sent m) (calls m ++ [(fg, c)]).
Fixpoint hydrate (l : list (Fingerprint * JsonSigner)) (m : SigningManager) : outcome SigningManager :=
  match l with
  | [] => Ret m
  | (fg, json) :: l =>
      let! signer := from_json json in
      let '(signer, n) := init signer in
      hydrate l (push n (set_hot (<[fg := signer]> (bip32_signers m)) (store m) m))
  end.
Definition empty_manager (st : S) : SigningManager := mkManager ∅ ∅ st [] [].
Definition from_store (st : S) : outcome SigningManager :=
  match Persist.st_iter st with
  | Ok l => hydrate l (empty_manager st)
  | Err _ => Ret (empty_manager st)
  end.
Definition store_signer (s : HotSigner) (st : S) : S :=
  match to_json s with Some json => (Persist.st_insert (fingerprint s) json st).1 | None => st end.
Definition add_bip32_signer (s : HotSigner) (m : SigningManager) : SigningManager :=
  let '(s, n) := init s in
  push n (set_hot (<[fingerprint s := s]> (bip32_signers m)) (store_signer s (store m)) m).
Definition new_bip32_signer_from_mnemonic (network : BtcNetwork) (mnemonic : string) (m : SigningManager) :
    outcome SigningManager :=
  let! s := expect (ok (new_from_mnemonics network mnemonic)) in Ret (add_bip32_signer s m).
Definition has_bip32_signer (fg : Fingerprint) (m : SigningManager) : bool :=
  match bip32_signers m !! fg with Some _ => true | None => false end.
Definition register_bip32_descriptor (d : Descriptor) (m : SigningManager) : SigningManager :=
  let signers := inner_register_descriptor d <$> bip32_signers m in
  set_hot signers (foldl (λ st s, store_signer s st) (store m) (bt_values signers)) m.
Definition persist (m : SigningManager) : SigningManager :=
  set_hot (bip32_signers m) (Persist.st_flush (store m)).1 m.
Fixpoint sign_by (fuel : nat) (l : list HotSigner) (p : Psbt) : option (outcome Psbt) :=
  match l with
  | [] => Some (Ret p)
  | s :: l =>
      match sign fuel s p with
      | Some (Ret p) => sign_by fuel l p
      | r => r
      end
  end.
Definition sign_psbt (fuel : nat) (m : SigningManager) (p : Psbt) : option (outcome Psbt) :=
  sign_by fuel (bt_values (bip32_signers m)) p.
Definition master_xprivs (m : SigningManager) : gmap Fingerprint Xpriv :=
  (λ s, kd_master_xpriv (derivator s)) <$> bip32_signers m.
(** [SigningManager::sign]: the text of a PSBT is parsed first. *)
Definition sign_text (fuel : nat) (default_fingerprint : Fingerprint) (text : option Psbt) (m : SigningManager) :
    option (outcome SigningManager) :=
  match text with
  | None => Some (Ret (push [Manager ParsePsbt] m))
  | Some p =>
      match sign_psbt fuel m p with
      | Some (Ret p) => Some (Ret (push [Signed (default default_fingerprint (bt_first_key (bip32_signers m))) p] m))
      | Some Panic => Some Panic
      | None => None
      end
  end.

(** *** External signers *)

Definition psbt_fingerprints (p : Psbt) : gset Fingerprint :=
  list_to_set (flat_map (λ m, (bt_values (bip32_derivation (pi_rest m))).*1 ++
                              ((λ v, v.2.1) <$> bt_values (tap_key_origins (pi_rest m)))) (psbt_inputs p)).
Definition key_of (fg : Fingerprint) (k : SignerKey Fingerprint) : bool :=
  match k with
  | KXPub _ origin | KMultiXPub _ origin => bool_decide (origin = Some fg)
  | KSingle => false
  end.
Definition psbt_matching_descriptor (p : Psbt) (fg : Fingerprint) (ds : gset Descriptor) : option Descriptor :=
  if bool_decide (fg ∈ psbt_fingerprints p) then
    find (λ d, existsb (key_of fg) (signer_keys d)) (sort_by key_leb (elements ds))
  else None.
(** [sign_with]: a hot signer signs at once, an external one is called. *)
Definition sign_with (fuel : nat) (fg : Fingerprint) (id : option string) (p : Psbt) (m : SigningManager) :
    option (outcome (Psbt * SigningManager)) :=
  match bip32_signers m !! fg with
  | Some s =>
      match sign fuel s p with
      | Some (Ret p) => Some (Ret (p, m))
      | Some Panic => Some Panic
      | None => None
      end
  | None =>
      Some (Ret (p,
        match signers m !! fg with
        | Some ext =>
            if match id with Some req_id => negb (bool_decide (ext_id ext = req_id)) | None => false end then m
            else match psbt_matching_descriptor p fg (ext_descriptors ext) with
                 | Some d => call fg (SignWithDescriptor p d) m
                 | None => m
                 end
        | None => m
        end))
  end.
Definition list_signers (m : SigningManager) : list (Fingerprint * SignerKind) :=
  ((λ fg, (fg, Hot)) <$> bt_keys (bip32_signers m)) ++ ((λ e, (e.1, ext_kind e.2)) <$> bt_items (signers m)).
(** The devices the service lists, if it runs: those that can be used with their
    fingerprint. A signer that is made reports itself. *)
Definition add_hw_signer (devices : option (gmap string (option (Fingerprint * DeviceKind)))) (id : string)
    (m : SigningManager) : SigningManager * option Fingerprint :=
  match devices ≫= (.!! id) with
  | Some (Some (fg, kind)) =>
      (push [Info fg] (set_external (<[fg := mkExternal (ExternalKind kind) id ∅]> (signers m)) m), Some fg)
  | _ => (m, None)
  end.
Definition remove_hw_signer (fg : Fingerprint) (m : SigningManager) : SigningManager :=
  set_external (delete fg (signers m)) m.
Definition register_hw_descriptor (fg : Fingerprint) (d : Descriptor) (m : SigningManager) : SigningManager :=
  match signers m !! fg with
  | Some ext =>
      call fg (RegisterDescriptor d)
        (set_external (<[fg := mkExternal (ext_kind ext) (ext_id ext) ({[d]} ∪ ext_descriptors ext)]> (signers m)) m)
  | None => m
  end.
(** [SigningDeviceMsg], and what the manager makes of it. *)
Inductive SigningDeviceMsg :=
  | DError (message : string)
  | DUpdate
  | DXPub (fg : Fingerprint) (path : Path)
  | DTransactionSigned (fg : Fingerprint) (p : Psbt)
  | DOther.
Definition convert_hw_message (m : SigningDeviceMsg) : option SignerNotif :=
  match m with
  | DUpdate => Some DeviceUpdate
  | DTransactionSigned fg p => Some (Signed fg p)
  | DXPub fg path => Some (Xpub fg path)
  | DError message => Some (Manager (Hw message))
  | DOther => None
  end.
End signer.

(** Documented behaviour of the crates: a signature in its place changes nothing else the
    signer looks at, and what is signed verifies. *)
Class SignerLaws `{SL : SignerLib} `{!SignLaws} := {
  kept_fields r r' : (∃ pk sig, r' = insert_partial_sig pk sig r) ∨ (∃ sig, r' = set_tap_key_sig sig r) ∨
      (∃ x leaf sig, r' = insert_tap_script_sig x leaf sig r) →
    bip32_derivation r' = bip32_derivation r ∧ tap_internal_key r' = tap_internal_key r ∧
    tap_key_origins r' = tap_key_origins r ∧ (∀ k, tweak_keypair k r' = tweak_keypair k r) ∧
    ∀ tx i w, sighash_ecdsa tx i (mkPsbtInput _ w r') = sighash_ecdsa tx i (mkPsbtInput _ w r);
  partial_sigs_insert pk sig r : partial_sigs (insert_partial_sig pk sig r) = <[pk := sig]> (partial_sigs r);
  partial_sigs_key sig r : partial_sigs (set_tap_key_sig sig r) = partial_sigs r;
  partial_sigs_leaf x leaf sig r : partial_sigs (insert_tap_script_sig x leaf sig r) = partial_sigs r;
  tap_key_sig_partial pk sig r : tap_key_sig (insert_partial_sig pk sig r) = tap_key_sig r;
  tap_key_sig_leaf x leaf sig r : tap_key_sig (insert_tap_script_sig x leaf sig r) = tap_key_sig r;
  ecdsa_verifies hash k nonce : verify_ecdsa hash (sign_ecdsa hash k nonce) (public_key k) = true;
  no_aux_verifies msg k : verify_schnorr (sign_schnorr_no_aux_rand msg k) msg (x_only_public_key (public_key k)).1 = true;
  tweak_x_only k k' r : (x_only_public_key (public_key k)).1 = (x_only_public_key (public_key k')).1 →
    (x_only_public_key (public_key (tweak_keypair k r))).1 = (x_only_public_key (public_key (tweak_keypair k' r))).1;
  descriptor_from_to d : descriptor_from_str (descriptor_to_string d) = Some d;
  mnemonic_from_to m : mnemonic_from_str (mnemonic_to_string m) = Some m;
  default_empty : bip32_derivation Bitcoin.psbt_input_rest_default = ∅ ∧
    tap_internal_key Bitcoin.psbt_input_rest_default = None ∧ tap_key_origins Bitcoin.psbt_input_rest_default = ∅
}.

(** ** What a signer adds *)

Section sound.
Context `{L : Bitcoin.TxLib} `{Cv : Curve} `{KL : !KeyLib} `{SG : !SignLib} `{SL : !SignerLib} `{SGL : !SignLaws} `{SLL : !SignerLaws}.
Context `{DL : !Derivator.DescriptorLib} `{Build}.
Implicit Types (s : HotSigner) (p : Psbt) (m : PsbtInput).
#[local] Notation "'let*' x := c 'in' k" := (mbind c (λ x, k)) (at level 10, x pattern, c at level 100, k at level 200).

(** The output is an address of the descriptor, at the keychain and the index its path
    ends with. *)
Definition owns s (d : Descriptor) (path : Path) (wit : TxOut) : Prop :=
  ∃ der ap, Derivator.new d (network s) = Ret (Ok der) ∧ account_path path = Ok ap ∧
    expected_spk der ap = Ret (script_pubkey wit).
Definition held s (path : Path) (k : SecretKey) : Prop := derive_priv (kd_master_xpriv (derivator s)) path = Some k.

(** One signature more on input [i] of [tx], the outputs spent being [outs]. *)
Inductive adds s (tx : Transaction) (outs : list TxOut) (i : nat) (w : option TxOut) (r : PsbtInputRest) : PsbtInputRest → Prop :=
  | adds_ecdsa d path k origin hash sig wit : d ∈ descriptors s → held s path k →
      bip32_derivation r !! public_key k = Some origin → w = Some wit → owns s d path wit →
      sighash_ecdsa tx i (mkPsbtInput _ w r) = Some (hash, true) → verify_ecdsa hash sig (public_key k) = true →
      adds s tx outs i w r (insert_partial_sig (public_key k) sig r)
  | adds_key d path k x leaves msg sig wit : d ∈ descriptors s → held s path k →
      (x_only_public_key (public_key k)).1 = x → tap_internal_key r = Some x →
      tap_key_origins r !! x = Some (leaves, (fingerprint s, path)) → w = Some wit → owns s d path wit →
      key_spend_sighash tx i outs = Some msg →
      verify_schnorr sig msg (x_only_public_key (public_key (tweak_keypair k r))).1 = true →
      adds s tx outs i w r (set_tap_key_sig (Some sig) r)
  | adds_leaf x leaves path leaf k msg : tap_key_origins r !! x = Some (leaves, (fingerprint s, path)) →
      leaf ∈ leaves → held s path k → script_spend_sighash tx i outs leaf = Some msg →
      adds s tx outs i w r (insert_tap_script_sig x leaf (sign_schnorr_no_aux_rand msg k) r).
Lemma adds_kept s tx outs i w r r' : adds s tx outs i w r r' →
  bip32_derivation r' = bip32_derivation r ∧ tap_internal_key r' = tap_internal_key r ∧
  tap_key_origins r' = tap_key_origins r ∧ (∀ k, tweak_keypair k r' = tweak_keypair k r) ∧
  ∀ tx i w, sighash_ecdsa tx i (mkPsbtInput _ w r') = sighash_ecdsa tx i (mkPsbtInput _ w r).
Proof. intros []; apply kept_fields; eauto 6. Qed.
Lemma adds_rtc_kept s tx outs i w r r' : rtc (adds s tx outs i w) r r' →
  bip32_derivation r' = bip32_derivation r ∧ tap_internal_key r' = tap_internal_key r ∧
  tap_key_origins r' = tap_key_origins r ∧ (∀ k, tweak_keypair k r' = tweak_keypair k r) ∧
  ∀ tx i w, sighash_ecdsa tx i (mkPsbtInput _ w r') = sighash_ecdsa tx i (mkPsbtInput _ w r).
Proof.
  induction 1 as [|r1 r2 r3 (Hb & Ht & Ho & Hk & Hs)%adds_kept _ (Hb' & Ht' & Ho' & Hk' & Hs')]; [done|].
  split_and!; [congruence..| |]; intros *; [by rewrite Hk'|by rewrite Hs'].
Qed.

(** Only signatures change between two PSBTs. *)
Definition grows s p p' : Prop :=
  unsigned_tx p' = unsigned_tx p ∧ psbt_version p' = psbt_version p ∧ psbt_outputs p' = psbt_outputs p ∧
  Forall2 (λ m m', witness_utxo m' = witness_utxo m) (psbt_inputs p) (psbt_inputs p') ∧
  ∀ i m m', psbt_inputs p !! i = Some m → psbt_inputs p' !! i = Some m' →
    rtc (adds s (unsigned_tx p) (prevouts p) i (witness_utxo m)) (pi_rest m) (pi_rest m').
Lemma same_prevouts p p' : Forall2 (λ m m', witness_utxo m' = witness_utxo m) (psbt_inputs p) (psbt_inputs p') →
  prevouts p' = prevouts p.
Proof. unfold prevouts. induction 1 as [|m m' l l' Hm _ IH]; [done|]. cbn. rewrite Hm. by destruct (witness_utxo m); rewrite IH. Qed.
Lemma utxos_trans (l1 l2 l3 : list PsbtInput) : Forall2 (λ m m', witness_utxo m' = witness_utxo m) l1 l2 →
  Forall2 (λ m m', witness_utxo m' = witness_utxo m) l2 l3 → Forall2 (λ m m', witness_utxo m' = witness_utxo m) l1 l3.
Proof.
  intros H1. revert l3. induction H1 as [|m m' l l' Hm _ IH]; intros l3 H2; inversion H2; constructor; [congruence|auto].
Qed.
#[local] Instance grows_preorder s : PreOrder (grows s).
Proof.
  split.
  - intros p. split_and!; [done..| |].
    + induction (psbt_inputs p); by constructor.
    + intros i m m' Hm Hm'. assert (m' = m) as -> by congruence. reflexivity.
  - intros p1 p2 p3 (Ht & Hv & Ho & Hw & Ha) (Ht' & Hv' & Ho' & Hw' & Ha'). split_and!; [congruence..| |].
    + by eapply utxos_trans.
    + intros i m m' Hm Hm'. destruct (Forall2_lookup_l _ _ _ _ _ Hw Hm) as (m2 & Hm2 & Hwit).
      etrans; [by apply Ha|]. rewrite <-Hwit, <-Ht, <-(same_prevouts _ _ Hw). by apply Ha'.
Qed.

(** A call that only adds signatures. *)
Definition only_adds {A} s (c : sign_m A) : Prop := ∀ p p' r, c p = Some (Ret (p', r)) → grows s p p'.
Lemma adds_bind {A C} s (c : sign_m A) (k : A → sign_m C) : only_adds s c → (∀ a, only_adds s (k a)) → only_adds s (mbind c k).
Proof.
  intros Hc Hk p p' r. unfold mbind. destruct (c p) as [[[p1 [a|e]]|]|] eqn:He; [| |done..].
  - intros Hr. etrans; [by eapply Hc|by eapply Hk].
  - intros [= <- _]. by eapply Hc.
Qed.
Lemma adds_ret {A} s (a : A) : only_adds s (mret a).
Proof. by intros p p' r [= <- _]. Qed.
Lemma adds_res {A} s (a : result A Error) : only_adds s (mres a).
Proof. by intros p p' r [= <- _]. Qed.
Lemma adds_out {A} s (a : outcome A) : only_adds s (mout a).
Proof. intros p p' r. unfold mout. destruct a; [by intros [= <- _]|done]. Qed.
Lemma adds_read {A} s (f : Psbt → A) : only_adds s (mread f).
Proof. by intros p p' r [= <- _]. Qed.
Lemma grows_edit s p i m f : psbt_inputs p !! i = Some m →
  adds s (unsigned_tx p) (prevouts p) i (witness_utxo m) (pi_rest m) (f (pi_rest m)) → grows s p (edit_input i f p).
Proof.
  intros Hm Ha. unfold edit_input. split_and!; [done..| |].
  - cbn. apply Forall2_same_length_lookup_2; [by rewrite length_alter|]. intros j m1 m2 H1 H2. 
    destruct (decide (i = j)) as [->|Hne].
    + rewrite list_lookup_alter_eq, Hm in H2. injection H2 as <-. cbn. congruence.
    + rewrite list_lookup_alter_ne in H2 by done. congruence.
  - cbn. intros j m1 m2 H1 H2. destruct (decide (i = j)) as [->|Hne].
    + rewrite list_lookup_alter_eq, Hm in H2. injection H2 as <-. assert (m1 = m) as -> by congruence. by apply rtc_once.
    + rewrite list_lookup_alter_ne in H2 by done. assert (m2 = m1) as -> by congruence. reflexivity.
Qed.

Lemma adds_input s i : only_adds s (input_at i).
Proof. apply adds_bind; [apply adds_read|]. intros. apply adds_res. Qed.
Lemma adds_witness s i : only_adds s (has_witness_utxo i).
Proof. apply adds_bind; [apply adds_input|]. intros. apply adds_res. Qed.
(** Reading and checking edit nothing. *)
Lemma input_at_inv i p p' m : input_at i p = Some (Ret (p', Ok m)) → p' = p ∧ psbt_inputs p !! i = Some m.
Proof.
  unfold input_at, mbind, mread, mres. destruct (psbt_inputs p !! i) as [m'|]; cbn; [|done]. by intros [= <- <-].
Qed.
Lemma witness_inv i p p' wit : has_witness_utxo i p = Some (Ret (p', Ok wit)) →
  p' = p ∧ ∃ m, psbt_inputs p !! i = Some m ∧ witness_utxo m = Some wit.
Proof.
  unfold has_witness_utxo, mbind. destruct (input_at i p) as [[[p1 [m|e]]|]|] eqn:Hi; [|done..].
  apply input_at_inv in Hi as [-> Hm]. unfold mres. destruct (witness_utxo m) eqn:Hw; cbn; [|done]. intros [= <- <-]. eauto.
Qed.
Lemma check_spk_inv s d der wit path p p' : Derivator.new d (network s) = Ret (Ok der) →
  check_spk der wit path p = Some (Ret (p', Ok tt)) → p' = p ∧ owns s d path wit.
Proof.
  intros Hnew. unfold check_spk, mbind, mres, mout. destruct (account_path path) as [ap|] eqn:Hap; [|done].
  destruct (expected_spk der ap) as [spk|] eqn:Hspk; [|done]. case_bool_decide as Hs; [|done].
  intros [= <-]. split; [done|]. exists der, ap. by rewrite Hs.
Qed.
Lemma check_spk_adds s der wit path : only_adds s (check_spk der wit path).
Proof. repeat (apply adds_bind; [apply adds_res || apply adds_out|intros]). apply adds_res. Qed.

Definition hash_at p i (hash : list N) : Prop :=
  ∃ m, psbt_inputs p !! i = Some m ∧ sighash_ecdsa (unsigned_tx p) i m = Some (hash, true).
Lemma grows_input s p p' i m : grows s p p' → psbt_inputs p !! i = Some m →
  ∃ m', psbt_inputs p' !! i = Some m' ∧ witness_utxo m' = witness_utxo m ∧
    rtc (adds s (unsigned_tx p) (prevouts p) i (witness_utxo m)) (pi_rest m) (pi_rest m').
Proof.
  intros (_ & _ & _ & Hw & Ha) Hm. destruct (Forall2_lookup_l _ _ _ _ _ Hw Hm) as (m' & Hm' & Hwit).
  exists m'. split; [done|]. split; [done|]. by apply Ha.
Qed.
Lemma grows_hash s p p' i hash : grows s p p' → hash_at p i hash → hash_at p' i hash.
Proof.
  intros Hg (m & Hm & Hh). destruct (grows_input _ _ _ _ _ Hg Hm) as (m' & Hm' & Hw & Ha). exists m'. split; [done|].
  destruct Hg as (-> & _). destruct m as [w r], m' as [w' r']. cbn in *. subst w'.
  apply adds_rtc_kept in Ha as (_ & _ & _ & _ & Hs). by rewrite Hs.
Qed.
Lemma segwit_hash_inv i p p' hash : segwit_hash i p = Some (Ret (p', Ok hash)) → p' = p ∧ hash_at p i hash.
Proof.
  unfold segwit_hash, mbind. destruct (input_at i p) as [[[p1 [m|e]]|]|] eqn:Hi; [|done..].
  apply input_at_inv in Hi as [-> Hm]. case_bool_decide; [done|]. unfold mread, mres, mbind.
  destruct (sighash_ecdsa (unsigned_tx p) i m) as [[h []]|] eqn:Hs; cbn; [|done..]. intros [= <- <-].
  split; [done|]. by exists m.
Qed.
Lemma segwit_hash_adds s i : only_adds s (segwit_hash i).
Proof.
  apply adds_bind; [apply adds_input|]. intros m. case_bool_decide; [apply adds_res|].
  apply adds_bind; [apply adds_read|]. intros tx. apply adds_bind; [apply adds_res|]. intros []. apply adds_res.
Qed.

Lemma segwit_paths_adds fuel s hash i d der deriv p p' r : d ∈ descriptors s → Derivator.new d (network s) = Ret (Ok der) →
  hash_at p i hash → inner_sign_input_segwit fuel s hash i deriv der p = Some (Ret (p', r)) → grows s p p'.
Proof.
  intros Hd Hnew. revert p. induction deriv as [|path deriv IH]; intros p Hh; cbn [inner_sign_input_segwit]; [by intros [= <- _]|].
  unfold public_key_at, secret_key_at, mbind, mout. destruct (derive_priv _ path) as [k|] eqn:Hk; cbn [expect obind]; [|done].
  destruct (input_at i p) as [[[p1 [m|e]]|]|] eqn:Hi; [|by injection 1 as <- _; apply (adds_input s i) in Hi|done..].
  apply input_at_inv in Hi as [-> Hm]. destruct (bip32_derivation (pi_rest m) !! public_key k) as [origin|] eqn:Hpk; [|by apply IH].
  unfold mres. destruct (witness_utxo m) as [wit|] eqn:Hw; cbn [ok_or]; [|by intros [= <- _]].
  destruct (check_spk der wit path p) as [[[p1 [[]|e]]|]|] eqn:Hc; [|by injection 1 as <- _; eapply check_spk_adds|done..].
  apply (check_spk_inv s d) in Hc as [-> Hown]; [|done]. destruct (grind _ _ _ _) as [sig|]; [|done].
  destruct (verify_ecdsa hash sig (public_key k)) eqn:Hv; [|by intros [= <- _]]. unfold medit.
  intros Hr. assert (grows s p (edit_input i (insert_partial_sig (public_key k) sig) p)) as Hg.
  { apply (grows_edit s p i m); [done|]. destruct Hh as (m2 & Hm2 & Hh). assert (m2 = m) as -> by congruence.
    eapply (adds_ecdsa _ _ _ _ _ _ d path k origin hash sig wit); try done. by destruct m. }
  etrans; [exact Hg|]. eapply IH; [|exact Hr]. by eapply grows_hash.
Qed.
Lemma segwit_adds fuel s i d der : d ∈ descriptors s → Derivator.new d (network s) = Ret (Ok der) →
  only_adds s (sign_input_segwit fuel s i der).
Proof.
  intros Hd Hnew p p' r. unfold sign_input_segwit, mbind.
  destruct (has_witness_utxo i p) as [[[p1 [wit|e]]|]|] eqn:Hw; [|by injection 1 as <- _; eapply adds_witness|done..].
  apply witness_inv in Hw as [-> _].
  destruct (segwit_hash i p) as [[[p1 [hash|e]]|]|] eqn:Hh; [|by injection 1 as <- _; eapply segwit_hash_adds|done..].
  apply segwit_hash_inv in Hh as [-> Hh].
  destruct (input_at i p) as [[[p1 [m|e]]|]|] eqn:Hi; [|by injection 1 as <- _; eapply adds_input|done..].
  apply input_at_inv in Hi as [-> Hm]. by eapply segwit_paths_adds.
Qed.

Lemma tapkey_adds s i d der : d ∈ descriptors s → Derivator.new d (network s) = Ret (Ok der) →
  only_adds s (sign_input_tapkey s i der).
Proof.
  intros Hd Hnew p p' r. unfold sign_input_tapkey, mbind, mread, mres, mout.
  destruct (has_witness_utxo i p) as [[[p1 [wit|e]]|]|] eqn:Hw; [|by injection 1 as <- _; eapply adds_witness|done..].
  apply witness_inv in Hw as (-> & m & Hm & Hw).
  destruct (input_at i p) as [[[p1 [m'|e]]|]|] eqn:Hi; [|by injection 1 as <- _; eapply adds_input|done..].
  apply input_at_inv in Hi as [-> Hm']. assert (m' = m) as -> by congruence.
  destruct (tap_internal_key (pi_rest m)) as [x|] eqn:Hx; [|by intros [= <- _]].
  destruct (tap_key_origins (pi_rest m) !! x) as [[leaves [fg path]]|] eqn:Ho; [|by intros [= <- _]].
  case_bool_decide as Hfg; cbn [negb]; [|by intros [= <- _]]. subst fg.
  destruct (check_spk der wit path p) as [[[p1 [[]|e]]|]|] eqn:Hc; [|by injection 1 as <- _; eapply check_spk_adds|done..].
  apply (check_spk_inv s d) in Hc as [-> Hown]; [|done]. unfold secret_key_at.
  destruct (derive_priv _ path) as [k|] eqn:Hk; cbn [expect]; [|done]. case_bool_decide as Hkx; cbn [negb]; [|by intros [= <- _]].
  destruct (key_spend_sighash _ i _) as [msg|] eqn:Hs; cbn [ok_or]; [|by intros [= <- _]]. intros [= <- _].
  apply (grows_edit s p i m); [done|]. by eapply adds_key; [..|apply no_aux_verifies].
Qed.
Lemma leaves_adds s i outs x sk path l l' p p' r :
  sk = secret_key_at (derivator s) path → outs = prevouts p →
  (∃ m, psbt_inputs p !! i = Some m ∧ tap_key_origins (pi_rest m) !! x = Some (l', (fingerprint s, path))) → l ⊆ l' →
  sign_leaves i outs x sk l p = Some (Ret (p', r)) → grows s p p'.
Proof.
  intros -> . revert p. induction l as [|leaf l IH]; intros p Houts Hm Hl; cbn [sign_leaves]; [by intros [= <- _]|].
  destruct Hm as (m & Hm & Ho). unfold mbind, mout, mread, mres, medit, secret_key_at at 1.
  destruct (derive_priv _ path) as [k|] eqn:Hk; cbn [expect]; [|done].
  destruct (script_spend_sighash _ i outs leaf) as [msg|] eqn:Hs; cbn [ok_or]; [|by intros [= <- _]]. intros Hr.
  assert (grows s p (edit_input i (insert_tap_script_sig x leaf (sign_schnorr_no_aux_rand msg k)) p)) as Hg.
  { apply (grows_edit s p i m); [done|]. subst outs. eapply (adds_leaf _ _ _ _ _ _ x l' path); [done|apply Hl; left|done|done]. }
  etrans; [exact Hg|]. eapply IH; [| | |exact Hr].
  - rewrite Houts. symmetry. apply same_prevouts. apply Hg.
  - destruct (grows_input _ _ _ _ _ Hg Hm) as (m' & Hm' & _ & Ha). exists m'. split; [done|].
    apply adds_rtc_kept in Ha as (_ & _ & -> & _). done.
  - intros y Hy. apply Hl. by right.
Qed.
Lemma origins_adds s i l p p' r :
  (∃ m, psbt_inputs p !! i = Some m ∧ ∀ x o, (x, o) ∈ l → tap_key_origins (pi_rest m) !! x = Some o) →
  sign_origins s i (prevouts p) l p = Some (Ret (p', r)) → grows s p p'.
Proof.
  intros Hm. remember (prevouts p) as outs eqn:Houts. revert p Houts Hm.
  induction l as [|[x [leaves [fg path]]] l IH]; intros p Houts (m & Hm & Hl); cbn [sign_origins]; [by intros [= <- _]|].
  case_bool_decide as Hfg; cbn [negb].
  2: { apply IH; [done|]. exists m. split; [done|]. intros y o Hy. apply Hl. by right. }
  subst fg. unfold mbind. destruct (sign_leaves i outs x (secret_key_at (derivator s) path) leaves p) as [[[p1 [[]|e]]|]|] eqn:Hs;
    [| |done..].
  - assert (grows s p p1) as Hg.
    { eapply leaves_adds; [done|exact Houts| |reflexivity|exact Hs]. exists m. split; [done|]. apply Hl. left. }
    intros Hr. etrans; [exact Hg|]. eapply IH; [| |exact Hr].
    + rewrite Houts. symmetry. apply same_prevouts, Hg.
    + destruct (grows_input _ _ _ _ _ Hg Hm) as (m' & Hm' & _ & Ha). exists m'. split; [done|].
      apply adds_rtc_kept in Ha as (_ & _ & -> & _). intros y o Hy. apply Hl. by right.
  - intros [= <- _]. eapply leaves_adds; [done|exact Houts| |reflexivity|exact Hs]. exists m. split; [done|]. apply Hl. left.
Qed.
Lemma taptree_adds s i : only_adds s (sign_input_taptree s i).
Proof.
  intros p p' r. unfold sign_input_taptree, mbind, mread.
  destruct (has_witness_utxo i p) as [[[p1 [wit|e]]|]|] eqn:Hw; [|by injection 1 as <- _; eapply adds_witness|done..].
  apply witness_inv in Hw as (-> & _).
  destruct (input_at i p) as [[[p1 [m|e]]|]|] eqn:Hi; [|by injection 1 as <- _; eapply adds_input|done..].
  apply input_at_inv in Hi as [-> Hm]. apply origins_adds. exists m. split; [done|]. intros x o Hx.
  by apply elem_of_bt_items in Hx.
Qed.
Lemma attempt_adds s c : only_adds s c → only_adds s (attempt c).
Proof.
  intros Hc p p' r. unfold attempt. destruct (c p) as [[[p1 [[]|e]]|]|] eqn:He; [|destruct e|done..]; intros [= <- _]; by eapply Hc.
Qed.
Lemma inputs_add fuel s d der l any : d ∈ descriptors s → Derivator.new d (network s) = Ret (Ok der) →
  only_adds s (sign_inputs fuel s der l any).
Proof.
  intros Hd Hnew. revert any. induction l as [|i l IH]; intros any; cbn [sign_inputs]; [apply adds_ret|].
  apply adds_bind; [|intros; apply IH]. unfold sign_input. apply adds_bind; [apply adds_read|]. intros ms.
  apply adds_bind; [apply adds_out|]. intros m. case_bool_decide; case_bool_decide; destruct (tap_internal_key _); cbn [negb];
    first [apply adds_out|apply adds_ret|apply attempt_adds].
  - apply adds_bind; [by eapply tapkey_adds|]. intros. apply taptree_adds.
  - apply taptree_adds.
  - by eapply segwit_adds.
Qed.
Lemma inner_sign_adds fuel s d : d ∈ descriptors s → only_adds s (inner_sign fuel s d).
Proof.
  intros Hd p p' r. unfold inner_sign. unfold mbind at 1, mout. destruct (Derivator.new d (network s)) as [[der|e]|] eqn:Hn;
    cbn [obind expect ok]; [|done..]. apply (adds_bind (A:=nat)); [apply adds_read|]. intros n.
  apply adds_bind; [by eapply inputs_add|]. intros. apply adds_res.
Qed.
Lemma sign_for_adds fuel s l p p' : Forall (λ d, d ∈ descriptors s) l → sign_for fuel s l p = Some (Ret p') → grows s p p'.
Proof.
  intros Hl. revert p. induction Hl as [|d l Hd _ IH]; intros p; cbn [sign_for]; [by intros [= <-]|].
  destruct (inner_sign fuel s d p) as [[[p1 r]|]|] eqn:Hi; [|done..]. intros Hr. etrans; [by eapply inner_sign_adds|by apply IH].
Qed.

Lemma sign_adds fuel s p p' : sign fuel s p = Some (Ret p') → grows s p p'.
Proof.
  apply sign_for_adds. apply Forall_forall. intros d Hd. unfold descriptor_list in Hd. rewrite sort_by_perm in Hd.
  by apply elem_of_elements in Hd.
Qed.

(** What the signers in [P] add one after the other, and nothing else. *)
Definition adds_any (P : HotSigner → Prop) (tx : Transaction) (outs : list TxOut) (i : nat) (w : option TxOut)
    (r r' : PsbtInputRest) : Prop := ∃ s, P s ∧ adds s tx outs i w r r'.
Definition grows_by (P : HotSigner → Prop) p p' : Prop :=
  unsigned_tx p' = unsigned_tx p ∧ psbt_version p' = psbt_version p ∧ psbt_outputs p' = psbt_outputs p ∧
  Forall2 (λ m m', witness_utxo m' = witness_utxo m) (psbt_inputs p) (psbt_inputs p') ∧
  ∀ i m m', psbt_inputs p !! i = Some m → psbt_inputs p' !! i = Some m' →
    rtc (adds_any P (unsigned_tx p) (prevouts p) i (witness_utxo m)) (pi_rest m) (pi_rest m').
Lemma grows_by_one (P : HotSigner → Prop) s p p' : P s → grows s p p' → grows_by P p p'.
Proof.
  intros Hs (Ht & Hv & Ho & Hw & Ha). split_and!; [done..|]. intros i m m' Hm Hm'.
  apply (rtc_subrel (adds s (unsigned_tx p) (prevouts p) i (witness_utxo m))); [|by apply Ha]. intros r r' Hr. by exists s.
Qed.
Lemma grows_by_trans (P : HotSigner → Prop) p1 p2 p3 : grows_by P p1 p2 → grows_by P p2 p3 → grows_by P p1 p3.
Proof.
  intros (Ht & Hv & Ho & Hw & Ha) (Ht' & Hv' & Ho' & Hw' & Ha'). split_and!; [congruence..| |].
  - by eapply utxos_trans.
  - intros i m m' Hm Hm'. destruct (Forall2_lookup_l _ _ _ _ _ Hw Hm) as (m2 & Hm2 & Hwit).
    etrans; [by apply Ha|]. rewrite <-Hwit, <-Ht, <-(same_prevouts _ _ Hw). by apply Ha'.
Qed.
Lemma sign_by_adds fuel (P : HotSigner → Prop) l p p' : Forall P l → sign_by fuel l p = Some (Ret p') → grows_by P p p'.
Proof.
  intros Hl. revert p. induction Hl as [|s l Hs _ IH]; intros p; cbn [sign_by].
  { intros [= <-]. split_and!; [done..|by induction (psbt_inputs p); constructor|].
    intros i m m' Hm Hm'. assert (m' = m) as -> by congruence. reflexivity. }
  destruct (sign fuel s p) as [[p1|]|] eqn:Hr; [|done..]. intros Hl'.
  apply (grows_by_trans P p p1); [|by apply IH]. apply (grows_by_one P s); [done|by eapply sign_adds].
Qed.

(** C8. A signer only adds signatures of its own. What signing changes in a PSBT are
    signatures: an ECDSA signature that verifies over the digest of its input, or a
    taproot one that verifies under the tweaked internal key, each made with a key the
    signer derives at the path the PSBT gives, for an output that is an address of one of
    its descriptors, or one for a leaf the PSBT lists under a key of the signer. *)
Theorem signs_only_its_own fuel s p p' : sign fuel s p = Some (Ret p') → grows s p p'.
Proof. apply sign_adds. Qed.
End sound.

(** *** Inputs that stop a signer *)

Section stops.
Context `{L : Bitcoin.TxLib} `{Cv : Curve} `{KL : !KeyLib} `{SG : !SignLib} `{SL : !SignerLib} `{DL : !Derivator.DescriptorLib} `{Build}.
Implicit Types (s : HotSigner) (p : Psbt) (m : PsbtInput).

(** A PSBT whose input has an internal key and no origin of a key, or derivations of both
    kinds, makes the signer panic. *)
Lemma mixed_input_panics fuel s der p i m : psbt_inputs p !! i = Some m → is_Some (tap_internal_key (pi_rest m)) →
  tap_key_origins (pi_rest m) = ∅ ∨ bip32_derivation (pi_rest m) ≠ ∅ → sign_input fuel s der i p = Some Panic.
Proof.
  intros Hm [x Hx] Hcase. unfold sign_input, mbind, mread, mout. rewrite Hm. cbn [expect].
  cbv beta iota. rewrite Hx. case_bool_decide as Hb; case_bool_decide as Ho; cbn [negb]; try reflexivity. by destruct Hcase.
Qed.
(** An input whose internal key has no origin, as a key nobody holds, ends the signing of
    the descriptor: neither its script path nor the inputs after it are signed. *)
Lemma unowned_internal_key_stops fuel s der p i m x l any : psbt_inputs p !! i = Some m → is_Some (witness_utxo m) →
  bip32_derivation (pi_rest m) = ∅ → tap_internal_key (pi_rest m) = Some x → tap_key_origins (pi_rest m) ≠ ∅ →
  tap_key_origins (pi_rest m) !! x = None → sign_inputs fuel s der (i :: l) any p = Some (Ret (p, Err NotTapKey)).
Proof.
  intros Hm [wit Hw] Hb Hx Hne Ho. cbn [sign_inputs]. unfold sign_input, mbind, mread, mout. rewrite Hm. cbn [expect].
  rewrite Hb, Hx, (bool_decide_eq_false_2 _ Hne), bool_decide_eq_true_2 by done. cbn [negb].
  unfold attempt, sign_input_tapkey, has_witness_utxo, input_at, mbind, mread, mres. rewrite Hm. cbn [ok_or]. rewrite Hw.
  cbn. rewrite Hm. cbn. by rewrite Hx, Ho.
Qed.
End stops.

(** ** What a signer signs *)

Section complete.
Context `{L : Bitcoin.TxLib} `{Cv : Curve} `{KL : !KeyLib} `{SG : !SignLib} `{SL : !SignerLib} `{SGL : !SignLaws} `{SLL : !SignerLaws}.
Context `{DL : !Derivator.DescriptorLib} `{Build}.
Implicit Types (s : HotSigner) (p : Psbt) (m : PsbtInput).
#[local] Existing Instance grows_preorder.

(** Every descriptor of the signer derives addresses, and so does the path: its key, its
    keychain and index, and their output under each descriptor. *)
Definition usable s : Prop := ∀ d, d ∈ descriptors s → ∃ der, Derivator.new d (network s) = Ret (Ok der).
Definition derivable s (path : Path) : Prop := ∃ k ap, held s path k ∧ account_path path = Ok ap ∧
  ∀ d der, d ∈ descriptors s → Derivator.new d (network s) = Ret (Ok der) → ∃ spk, expected_spk der ap = Ret spk.
(** An input the signer can look at: it has no derivations, or those of a single key. *)
Inductive regular s (tx : Transaction) (outs : list TxOut) (i : nat) m : Prop :=
  | regular_other : bip32_derivation (pi_rest m) = ∅ → tap_internal_key (pi_rest m) = None →
      tap_key_origins (pi_rest m) = ∅ → regular s tx outs i m
  | regular_segwit hash wit : bip32_derivation (pi_rest m) ≠ ∅ → tap_internal_key (pi_rest m) = None →
      tap_key_origins (pi_rest m) = ∅ → witness_utxo m = Some wit →
      sighash_ecdsa tx i m = Some (hash, true) → (∀ path, path ∈ own_paths s m → derivable s path) →
      regular s tx outs i m
  | regular_taproot x leaves fg path wit msg : bip32_derivation (pi_rest m) = ∅ → tap_internal_key (pi_rest m) = Some x →
      tap_key_origins (pi_rest m) !! x = Some (leaves, (fg, path)) → witness_utxo m = Some wit →
      key_spend_sighash tx i outs = Some msg →
      (fg = fingerprint s → derivable s path ∧ ∀ k, held s path k → (x_only_public_key (public_key k)).1 = x) →
      (∀ y leaves path, tap_key_origins (pi_rest m) !! y = Some (leaves, (fingerprint s, path)) → leaves = []) →
      regular s tx outs i m.
Lemma regular_kept s tx outs i m m' : witness_utxo m' = witness_utxo m →
  bip32_derivation (pi_rest m') = bip32_derivation (pi_rest m) → tap_internal_key (pi_rest m') = tap_internal_key (pi_rest m) →
  tap_key_origins (pi_rest m') = tap_key_origins (pi_rest m) → sighash_ecdsa tx i m' = sighash_ecdsa tx i m →
  regular s tx outs i m → regular s tx outs i m'.
Proof.
  intros Hw Hb Ht Ho Hs []; [eapply regular_other|eapply regular_segwit|eapply regular_taproot]; rewrite ?Hw, ?Hb, ?Ht, ?Ho, ?Hs; try done.
  intros path'. unfold own_paths. rewrite Hb. eauto.
Qed.
Definition all_regular s p : Prop := ∀ i m, psbt_inputs p !! i = Some m → regular s (unsigned_tx p) (prevouts p) i m.

(** The signatures of an input. *)
Definition segwit_signed (tx : Transaction) (i : nat) m (pk : PublicKey) : Prop :=
  ∃ hash sig, sighash_ecdsa tx i m = Some (hash, true) ∧ partial_sigs (pi_rest m) !! pk = Some sig ∧
    verify_ecdsa hash sig pk = true.
Definition key_signed (tx : Transaction) (outs : list TxOut) (i : nat) m (k : SecretKey) : Prop :=
  ∃ msg sig, key_spend_sighash tx i outs = Some msg ∧ tap_key_sig (pi_rest m) = Some sig ∧
    verify_schnorr sig msg (x_only_public_key (public_key (tweak_keypair k (pi_rest m)))).1 = true.

(** What other signers add takes nothing away. *)
Lemma input_kept s p p' i m m' : grows s p p' → psbt_inputs p !! i = Some m → psbt_inputs p' !! i = Some m' →
  witness_utxo m' = witness_utxo m ∧ bip32_derivation (pi_rest m') = bip32_derivation (pi_rest m) ∧
  tap_internal_key (pi_rest m') = tap_internal_key (pi_rest m) ∧ tap_key_origins (pi_rest m') = tap_key_origins (pi_rest m) ∧
  (∀ k, tweak_keypair k (pi_rest m') = tweak_keypair k (pi_rest m)) ∧
  ∀ tx j, sighash_ecdsa tx j m' = sighash_ecdsa tx j m.
Proof.
  intros Hg Hm Hm'. destruct (grows_input _ _ _ _ _ Hg Hm) as (m2 & Hm2 & Hw & Ha). assert (m2 = m') as -> by congruence.
  destruct (adds_rtc_kept _ _ _ _ _ _ _ Ha) as (Hb & Ht & Ho & Hk & Hs). destruct m as [w r], m' as [w' r']. cbn in *. subst w'.
  by split_and!.
Qed.
Lemma all_regular_kept s s' p p' : grows s p p' → all_regular s' p → all_regular s' p'.
Proof.
  intros Hg Hr i m' Hm'. destruct Hg as (Ht & Hv & Ho & Hw & Ha).
  destruct (Forall2_lookup_r _ _ _ _ _ Hw Hm') as (m & Hm & _). rewrite Ht, (same_prevouts _ _ Hw).
  destruct (input_kept s p p' i m m' ltac:(done) Hm Hm') as (Hwi & Hb & Hti & Hor & _ & Hs).
  apply (regular_kept s' _ _ i m); [done..|]. by apply Hr.
Qed.
Lemma segwit_signed_kept s p p' i m m' pk : grows s p p' → psbt_inputs p !! i = Some m → psbt_inputs p' !! i = Some m' →
  segwit_signed (unsigned_tx p) i m pk → segwit_signed (unsigned_tx p') i m' pk.
Proof.
  intros Hg Hm Hm' (hash & sig & Hh & Hp & Hv). destruct (grows_input _ _ _ _ _ Hg Hm) as (m2 & Hm2 & Hw & Ha).
  assert (m2 = m') as -> by congruence. destruct Hg as (-> & _). unfold segwit_signed.
  destruct m as [w r], m' as [w' r']. cbn in *. subst w'. clear Hm Hm' Hm2.
  revert sig Hh Hp Hv. induction Ha as [r|r1 r2 r3 Hadd _ IH]; intros sig Hh Hp Hv; [eauto|].
  destruct (adds_kept _ _ _ _ _ _ _ Hadd) as (_ & _ & _ & _ & Hs). specialize (Hs (unsigned_tx p) i w).
  assert (∃ sig', partial_sigs r2 !! pk = Some sig' ∧ verify_ecdsa hash sig' pk = true) as (sig' & Hp' & Hv').
  { destruct Hadd as [d path k origin hash' sig' wit _ _ _ _ _ Hh' Hv'|d path k x lv msg sig' wit|x lv path leaf k msg].
    - rewrite partial_sigs_insert. destruct (decide (pk = public_key k)) as [->|Hne].
      + exists sig'. rewrite lookup_insert_eq. split; [done|]. congruence.
      + exists sig. by rewrite lookup_insert_ne.
    - exists sig. by rewrite partial_sigs_key.
    - exists sig. by rewrite partial_sigs_leaf. }
  eapply IH; [|exact Hp'|exact Hv']. by rewrite Hs.
Qed.
Lemma key_signed_kept s p p' i m m' k x : grows s p p' → psbt_inputs p !! i = Some m → psbt_inputs p' !! i = Some m' →
  tap_internal_key (pi_rest m) = Some x → (x_only_public_key (public_key k)).1 = x →
  key_signed (unsigned_tx p) (prevouts p) i m k → key_signed (unsigned_tx p') (prevouts p') i m' k.
Proof.
  intros Hg Hm Hm' Hx Hk (msg & sig & Hmsg & Hp & Hv). destruct (grows_input _ _ _ _ _ Hg Hm) as (m2 & Hm2 & Hw & Ha).
  assert (m2 = m') as -> by congruence. destruct Hg as (-> & _ & _ & Hwi & _). rewrite (same_prevouts _ _ Hwi). unfold key_signed.
  destruct m as [w r], m' as [w' r']. cbn in *. subst w'. clear Hm Hm' Hm2.
  revert sig Hx Hp Hv. induction Ha as [r|r1 r2 r3 Hadd _ IH]; intros sig Hx Hp Hv; [eauto|].
  destruct (adds_kept _ _ _ _ _ _ _ Hadd) as (_ & Hint & _ & Htw & _).
  assert (∃ sig', tap_key_sig r2 = Some sig' ∧ verify_schnorr sig' msg (x_only_public_key (public_key (tweak_keypair k r1))).1 = true)
    as (sig' & Hp' & Hv').
  { destruct Hadd as [d path k' origin hash' sig' wit|d path k' x' lv msg' sig' wit _ _ Hk' Hx' _ _ _ Hmsg' Hv'|x' lv path leaf k' msg'].
    - exists sig. by rewrite tap_key_sig_partial.
    - exists sig'. rewrite tap_key_sig_set. split; [done|]. assert (msg' = msg) as -> by congruence.
      rewrite (tweak_x_only k k') by congruence. done.
    - exists sig. by rewrite tap_key_sig_leaf. }
  apply (IH sig'); [by rewrite Hint|done|by rewrite Htw].
Qed.

(** The search for a nonce ends. *)
Context (fuel : nat) (Hgrind : ∀ hash k, is_Some (grind fuel hash k 0)).
Lemma grind_verifies n hash k c sig : grind n hash k c = Some sig → verify_ecdsa hash sig (public_key k) = true.
Proof.
  revert c; induction n as [|n IH]; intros c; cbn [grind]; [done|].
  destruct (_ =? _); [|by apply IH]. intros [= <-]. apply ecdsa_verifies.
Qed.
Lemma input_at_run i p m : psbt_inputs p !! i = Some m → input_at i p = Some (Ret (p, Ok m)).
Proof. intros Hm. unfold input_at, mbind, mread, mres. by rewrite Hm. Qed.
Lemma witness_run i p m wit : psbt_inputs p !! i = Some m → witness_utxo m = Some wit →
  has_witness_utxo i p = Some (Ret (p, Ok wit)).
Proof. intros Hm Hw. unfold has_witness_utxo, mbind. rewrite (input_at_run _ _ _ Hm). unfold mres. by rewrite Hw. Qed.
Lemma check_spk_run s d der wit path p : d ∈ descriptors s → Derivator.new d (network s) = Ret (Ok der) → derivable s path →
  check_spk der wit path p = Some (Ret (p, Ok tt)) ∨ check_spk der wit path p = Some (Ret (p, Err SpkNotMatch)).
Proof.
  intros Hd Hn (k & ap & _ & Hap & Hspk). destruct (Hspk d der Hd Hn) as [spk Hs]. unfold check_spk, mbind, mres, mout.
  rewrite Hap, Hs. case_bool_decide; [by left|by right].
Qed.
Lemma check_spk_owned s d der wit path p : Derivator.new d (network s) = Ret (Ok der) → owns s d path wit →
  check_spk der wit path p = Some (Ret (p, Ok tt)).
Proof.
  intros Hn (der' & ap & Hn' & Hap & Hs). assert (der' = der) as -> by congruence. unfold check_spk, mbind, mres, mout.
  rewrite Hap, Hs. by rewrite bool_decide_eq_true_2.
Qed.
(** The outcome of a step that may pass the input over. *)
Definition passes (c : sign_m unit) p : Prop := ∃ p' r, c p = Some (Ret (p', r)) ∧ (r = Ok tt ∨ r = Err SpkNotMatch).

Lemma segwit_paths_run s hash i d der deriv p m wit : d ∈ descriptors s → Derivator.new d (network s) = Ret (Ok der) →
  psbt_inputs p !! i = Some m → witness_utxo m = Some wit → hash_at p i hash → Forall (derivable s) deriv →
  passes (inner_sign_input_segwit fuel s hash i deriv der) p.
Proof.
  intros Hd Hn Hm Hw Hh Hf. revert p m Hm Hw Hh. induction Hf as [|path deriv Hpath _ IH]; intros p m Hm Hw Hh; unfold passes;
    cbn [inner_sign_input_segwit]; [eexists _, _; split; [done|by left]|].
  destruct Hpath as (k & ap & Hk & Hap & Hspk) eqn:Hder. clear Hder.
  unfold public_key_at, secret_key_at, mbind, mout. rewrite Hk. cbn [expect obind]. rewrite (input_at_run _ _ _ Hm).
  destruct (bip32_derivation (pi_rest m) !! public_key k) as [origin|] eqn:Hpk; [|by eapply IH].
  unfold mres. rewrite Hw. cbn [ok_or].
  destruct (check_spk_run s d der wit path p Hd Hn) as [Hc|Hc]; [by exists k, ap| |]; rewrite Hc; [|eexists _, _; split; [done|by right]].
  destruct (Hgrind hash k) as [sig Hsig]. rewrite Hsig, (grind_verifies _ _ _ _ _ Hsig). unfold medit.
  assert (grows s p (edit_input i (insert_partial_sig (public_key k) sig) p)) as Hg.
  { apply (grows_edit s p i m); [done|]. destruct Hh as (m2 & Hm2 & Hh). assert (m2 = m) as -> by congruence.
    apply (check_spk_inv s d) in Hc as [_ Hown]; [|done].
    eapply (adds_ecdsa _ _ _ _ _ _ d path k origin hash sig wit); try done; [by destruct m|by eapply grind_verifies]. }
  destruct (grows_input _ _ _ _ _ Hg Hm) as (m' & Hm' & Hw' & _). eapply (IH _ m'); [done|congruence|by eapply grows_hash].
Qed.
Lemma segwit_single_run s hash i d der path k p m wit : d ∈ descriptors s → Derivator.new d (network s) = Ret (Ok der) →
  psbt_inputs p !! i = Some m → witness_utxo m = Some wit → sighash_ecdsa (unsigned_tx p) i m = Some (hash, true) →
  held s path k → is_Some (bip32_derivation (pi_rest m) !! public_key k) → owns s d path wit →
  ∃ p' m', inner_sign_input_segwit fuel s hash i [path] der p = Some (Ret (p', Ok tt)) ∧
    psbt_inputs p' !! i = Some m' ∧ segwit_signed (unsigned_tx p') i m' (public_key k).
Proof.
  intros Hd Hn Hm Hw Hh Hk [origin Hpk] Hown. cbn [inner_sign_input_segwit].
  unfold public_key_at, secret_key_at, mbind, mout. rewrite Hk. cbn [expect obind]. rewrite (input_at_run _ _ _ Hm), Hpk.
  unfold mres. rewrite Hw. cbn [ok_or]. rewrite (check_spk_owned s d der wit path p Hn Hown).
  destruct (Hgrind hash k) as [sig Hsig]. rewrite Hsig, (grind_verifies _ _ _ _ _ Hsig). unfold medit, mret.
  eexists _, _. split; [done|]. cbn [edit_input psbt_inputs unsigned_tx]. rewrite list_lookup_alter_eq, Hm. split; [done|].
  exists hash, sig. cbn [pi_rest witness_utxo]. split; [|split].
  - destruct (kept_fields (pi_rest m) (insert_partial_sig (public_key k) sig (pi_rest m))) as (_ & _ & _ & _ & Hs); [eauto|].
    rewrite Hs. by destruct m.
  - rewrite partial_sigs_insert. by rewrite lookup_insert_eq.
  - by eapply grind_verifies.
Qed.
Lemma origins_run s i outs l p : (∀ x leaves path, (x, (leaves, (fingerprint s, path))) ∈ l → leaves = []) →
  sign_origins s i outs l p = Some (Ret (p, Ok tt)).
Proof.
  induction l as [|[x [leaves [fg path]]] l IH]; intros Hl; cbn [sign_origins]; [done|].
  case_bool_decide as Hfg; cbn [negb]; [|apply IH; intros; eapply Hl; by right]. subst fg.
  rewrite (Hl x leaves path) by left. apply IH. intros. eapply Hl. by right.
Qed.
Lemma taptree_run s i p m wit : psbt_inputs p !! i = Some m → witness_utxo m = Some wit →
  (∀ y leaves path, tap_key_origins (pi_rest m) !! y = Some (leaves, (fingerprint s, path)) → leaves = []) →
  sign_input_taptree s i p = Some (Ret (p, Ok tt)).
Proof.
  intros Hm Hw Hl. unfold sign_input_taptree, mbind, mread. rewrite (witness_run _ _ _ _ Hm Hw), (input_at_run _ _ _ Hm).
  apply origins_run. intros x leaves path Hx%elem_of_bt_items. by eapply Hl.
Qed.

(** One input, one descriptor. *)
Definition signed_if_own s d i m p' : Prop := ∀ m' wit, psbt_inputs p' !! i = Some m' → witness_utxo m = Some wit →
  (∀ path k, own_paths s m = [path] → held s path k → is_Some (bip32_derivation (pi_rest m) !! public_key k) →
     owns s d path wit → segwit_signed (unsigned_tx p') i m' (public_key k)) ∧
  (∀ x leaves path k, tap_internal_key (pi_rest m) = Some x →
     tap_key_origins (pi_rest m) !! x = Some (leaves, (fingerprint s, path)) → held s path k →
     (x_only_public_key (public_key k)).1 = x → owns s d path wit →
     key_signed (unsigned_tx p') (prevouts p') i m' k).
Lemma sign_input_run s d der i p m : d ∈ descriptors s → Derivator.new d (network s) = Ret (Ok der) →
  psbt_inputs p !! i = Some m → regular s (unsigned_tx p) (prevouts p) i m →
  ∃ p' b, sign_input fuel s der i p = Some (Ret (p', Ok b)) ∧ signed_if_own s d i m p'.
Proof.
  intros Hd Hn Hm Hreg. unfold sign_input. unfold mbind at 1, mread. unfold mbind at 1, mout. rewrite Hm. cbn [expect].
  destruct Hreg as [Hb Ht Ho|hash wit Hb Ht Ho Hw Hh Hpaths|x leaves fg path wit msg Hb Ht Ho Hw Hmsg Hder Hleaves].
  - rewrite Hb, Ht, Ho, !bool_decide_eq_true_2 by done. eexists _, _. split; [done|]. intros m' wit Hm' Hw. split.
    + intros path k Hp. unfold own_paths in Hp. rewrite Hb in Hp. by vm_compute in Hp.
    + intros x leaves path k Hx. congruence.
  - rewrite Ht, Ho, (bool_decide_eq_false_2 _ Hb), bool_decide_eq_true_2 by done. cbn [negb].
    unfold attempt, sign_input_segwit, mbind. rewrite (witness_run _ _ _ _ Hm Hw).
    assert (segwit_hash i p = Some (Ret (p, Ok hash))) as ->.
    { unfold segwit_hash, mbind. rewrite (input_at_run _ _ _ Hm), (bool_decide_eq_false_2 _ Hb). unfold mread, mres. by rewrite Hh. }
    rewrite (input_at_run _ _ _ Hm).
    destruct (segwit_paths_run s hash i d der (own_paths s m) p m wit) as (p' & r & Hr & Hres); [done..|by exists m| |].
    { by apply Forall_forall. }
    rewrite Hr. assert (signed_if_own s d i m p') as Hsig.
    { intros m' wit' Hm' Hw'. assert (wit' = wit) as -> by congruence. split; [|intros y lv path k Hy; congruence].
      intros path k Hp Hk Hpk Hown. rewrite Hp in Hr.
      destruct (segwit_single_run s hash i d der path k p m wit) as (p2 & m2 & Hr2 & Hm2 & Hs); [done..|].
      assert (p2 = p') as -> by congruence. by assert (m2 = m') as -> by congruence. }
    destruct Hres as [-> | ->]; eexists _, _; (split; [reflexivity|exact Hsig]).
  - assert (tap_key_origins (pi_rest m) ≠ ∅) as Hne by (intros He; by rewrite He, lookup_empty in Ho).
    rewrite Hb, Ht, (bool_decide_eq_false_2 _ Hne), bool_decide_eq_true_2 by done. cbn [negb].
    unfold attempt. unfold mbind at 1. unfold sign_input_tapkey. unfold mbind. rewrite (witness_run _ _ _ _ Hm Hw). unfold mread.
    rewrite (input_at_run _ _ _ Hm), Ht, Ho.
    assert (∀ p', signed_if_own s d i m p' ↔ ∀ m', psbt_inputs p' !! i = Some m' →
      ∀ k, fg = fingerprint s → held s path k → owns s d path wit → key_signed (unsigned_tx p') (prevouts p') i m' k) as Hiff.
    { intros p'. split.
      - intros Hs m' Hm' k -> Hk Hown. destruct (Hs m' wit Hm' Hw) as [_ Hs']. eapply Hs'; [done..| |done]. by apply Hder.
      - intros Hs m' wit' Hm' Hw'. split.
        + intros path' k Hp. unfold own_paths in Hp. rewrite Hb in Hp. by vm_compute in Hp.
        + intros x' lv path' k Hx' Ho' Hk _ Hown. assert (x' = x) as -> by congruence. rewrite Ho in Ho'. injection Ho' as <- Hfg <-.
          assert (wit' = wit) as -> by congruence. by apply Hs. }
    case_bool_decide as Hfg; cbn [negb].
    2: { unfold mret. rewrite (taptree_run s i p m wit) by done. eexists _, _. split; [done|]. apply Hiff. by intros. }
    destruct (Hder Hfg) as [Hderiv Hkx]. destruct (check_spk_run s d der wit path p Hd Hn Hderiv) as [Hc|Hc]; rewrite Hc.
    2: { eexists _, _. split; [done|]. apply Hiff. intros m' Hm' k _ _ Hown.
         by rewrite (check_spk_owned s d der wit path p Hn Hown) in Hc. }
    destruct Hderiv as (k & ap & Hk & _). unfold mout, secret_key_at. rewrite Hk. cbn [expect].
    rewrite (bool_decide_eq_true_2 _ (Hkx k Hk)). cbn [negb]. unfold mres. rewrite Hmsg. cbn [ok_or]. unfold medit.
    set (p1 := edit_input i _ p). destruct (lookup_lt_is_Some_2 (psbt_inputs p1) i) as [m1 Hm1].
    { unfold p1. cbn. rewrite length_alter. by eapply lookup_lt_Some. }
    assert (m1 = mkPsbtInput _ (witness_utxo m) (set_tap_key_sig (Some (sign_schnorr_no_aux_rand msg (tweak_keypair k (pi_rest m)))) (pi_rest m))) as ->.
    { unfold p1 in Hm1. cbn in Hm1. rewrite list_lookup_alter_eq, Hm in Hm1. by injection Hm1 as <-. }
    destruct (kept_fields (pi_rest m) (set_tap_key_sig (Some (sign_schnorr_no_aux_rand msg (tweak_keypair k (pi_rest m)))) (pi_rest m)))
      as (_ & _ & Hor & Htw & _); [eauto|].
    rewrite (taptree_run s i p1 _ wit Hm1 Hw) by (cbn [pi_rest]; rewrite Hor; done).
    eexists _, _. split; [done|]. apply Hiff. intros m' Hm' k' _ Hk' _. unfold held in *. assert (k' = k) as -> by congruence.
    assert (m' = mkPsbtInput _ (witness_utxo m) (set_tap_key_sig (Some (sign_schnorr_no_aux_rand msg (tweak_keypair k (pi_rest m)))) (pi_rest m))) as -> by congruence.
    exists msg, (sign_schnorr_no_aux_rand msg (tweak_keypair k (pi_rest m))). cbn [pi_rest]. rewrite tap_key_sig_set, Htw.
    split; [|split; [done|apply no_aux_verifies]]. rewrite <-Hmsg. unfold p1. cbn [unsigned_tx edit_input]. f_equal.
    apply same_prevouts. cbn. apply Forall2_same_length_lookup_2; [by rewrite length_alter|]. intros j m1 m2 H1' H2'.
    destruct (decide (i = j)) as [->|Hne']; [rewrite list_lookup_alter_eq in H2'|rewrite list_lookup_alter_ne in H2' by done]; rewrite H1' in H2';
      cbn in H2'; by injection H2' as <-.
Qed.

(** *** The loops *)

(** Input [i] still has the internal key of [m]. *)
Definition tracked (i : nat) m p : Prop :=
  ∃ m', psbt_inputs p !! i = Some m' ∧ tap_internal_key (pi_rest m') = tap_internal_key (pi_rest m).
Lemma tracked_grows s i m p p' : psbt_inputs p !! i = Some m → grows s p p' → tracked i m p'.
Proof.
  intros Hm Hg. destruct (grows_input _ _ _ _ _ Hg Hm) as (m' & Hm' & _). exists m'. split; [done|].
  by destruct (input_kept _ _ _ _ _ _ Hg Hm Hm') as (_ & _ & Hti & _).
Qed.
Lemma signed_later s s' d i m p p' : tracked i m p → grows s' p p' →
  tracked i m p' ∧ (signed_if_own s d i m p → signed_if_own s d i m p').
Proof.
  intros (m1 & Hm1 & Ht) Hg. split.
  { destruct (tracked_grows _ _ _ _ _ Hm1 Hg) as (m2 & Hm2 & Ht2). exists m2. by rewrite Ht2. }
  intros Hs m2 wit Hm2 Hw. destruct (Hs m1 wit Hm1 Hw) as [Hseg Hkey]. split.
  - intros path k Hp Hk Hpk Hown. by eapply segwit_signed_kept; [exact Hg|exact Hm1|exact Hm2|eapply Hseg].
  - intros x lv path k Hx Ho Hk Hkx Hown. eapply key_signed_kept; [exact Hg|exact Hm1|exact Hm2|by rewrite Ht|exact Hkx|by eapply Hkey].
Qed.
Lemma signed_earlier s s' d i m m1 p p1 p2 : psbt_inputs p !! i = Some m → psbt_inputs p1 !! i = Some m1 → grows s' p p1 →
  signed_if_own s d i m1 p2 → signed_if_own s d i m p2.
Proof.
  intros Hm Hm1 Hg Hs m2 wit Hm2 Hw. destruct (input_kept _ _ _ _ _ _ Hg Hm Hm1) as (Hwi & Hb & Ht & Ho & _).
  specialize (Hs m2 wit Hm2). rewrite Hwi in Hs. specialize (Hs Hw). unfold own_paths in *. by rewrite Hb, Ht, Ho in Hs.
Qed.
Lemma sign_inputs_run s d der l p any : d ∈ descriptors s → Derivator.new d (network s) = Ret (Ok der) → all_regular s p →
  (∀ i, i ∈ l → is_Some (psbt_inputs p !! i)) →
  ∃ p' b, sign_inputs fuel s der l any p = Some (Ret (p', Ok b)) ∧
    ∀ i m, i ∈ l → psbt_inputs p !! i = Some m → signed_if_own s d i m p'.
Proof.
  intros Hd Hn. revert p any. induction l as [|j l IH]; intros p any Hreg Hl; cbn [sign_inputs].
  { exists p, any. split; [done|]. by intros i m Hi%not_elem_of_nil. }
  destruct (Hl j) as [mj Hj]; [left|]. destruct (sign_input_run s d der j p mj Hd Hn Hj (Hreg _ _ Hj)) as (p1 & b & Hr & Hs).
  assert (grows s p p1) as Hg.
  { apply (inputs_add fuel s d der [j] any Hd Hn p p1 (Ok (any || b))). cbn [sign_inputs]. unfold mbind. by rewrite Hr. }
  destruct (IH p1 (any || b)) as (p' & b' & Hr' & Hs').
  { by eapply all_regular_kept. }
  { intros i Hi. destruct (Hl i) as [mi Hmi]; [by right|]. destruct (grows_input _ _ _ _ _ Hg Hmi) as (m' & -> & _). eauto. }
  exists p', b'. unfold mbind. rewrite Hr. split; [done|].
  assert (grows s p1 p') as Hg' by (by eapply (inputs_add fuel s d der l (any || b))).
  intros i m Hi Hm. destruct (grows_input _ _ _ _ _ Hg Hm) as (m1 & Hm1 & _).
  destruct (decide (i ∈ l)) as [Hin|Hnin].
  - eapply (signed_earlier s s d i m m1 p p1 p'); [done..|]. by apply Hs'.
  - apply elem_of_cons in Hi as [->|Hi]; [|done]. assert (mj = m) as -> by congruence.
    apply (signed_later s s d j m p1 p'); [by eapply tracked_grows|done|done].
Qed.
Lemma inner_sign_run s d p : d ∈ descriptors s → usable s → all_regular s p →
  ∃ p' r, inner_sign fuel s d p = Some (Ret (p', r)) ∧ ∀ i m, psbt_inputs p !! i = Some m → signed_if_own s d i m p'.
Proof.
  intros Hd Hu Hreg. destruct (Hu d Hd) as [der Hn]. unfold inner_sign, mbind, mout, mread. rewrite Hn. cbn [obind expect ok].
  destruct (sign_inputs_run s d der (seq 0 (length (psbt_inputs p))) p false Hd Hn Hreg) as (p' & b & Hr & Hs).
  { intros i Hi%elem_of_seq. apply lookup_lt_is_Some_2. lia. }
  rewrite Hr. eexists _, _. split; [done|]. intros i m Hm. apply Hs; [|done]. apply elem_of_seq. apply lookup_lt_Some in Hm. lia.
Qed.
Lemma sign_for_run s l p : Forall (λ d, d ∈ descriptors s) l → usable s → all_regular s p →
  ∃ p', sign_for fuel s l p = Some (Ret p') ∧ ∀ d i m, d ∈ l → psbt_inputs p !! i = Some m → signed_if_own s d i m p'.
Proof.
  intros Hl Hu. revert p. induction Hl as [|d l Hd Hl IH]; intros p Hreg; cbn [sign_for].
  { exists p. split; [done|]. by intros d i m Hd%not_elem_of_nil. }
  destruct (inner_sign_run s d p Hd Hu Hreg) as (p1 & r & Hr & Hs). rewrite Hr.
  assert (grows s p p1) as Hg by (by eapply inner_sign_adds).
  destruct (IH p1) as (p' & Hr' & Hs'); [by eapply all_regular_kept|]. exists p'. split; [done|].
  assert (grows s p1 p') as Hg' by (by eapply sign_for_adds).
  intros d' i m Hd' Hm. destruct (grows_input _ _ _ _ _ Hg Hm) as (m1 & Hm1 & _).
  destruct (decide (d' ∈ l)) as [Hin|Hnin].
  - eapply (signed_earlier s s d' i m m1 p p1 p'); [done..|]. by apply Hs'.
  - apply elem_of_cons in Hd' as [->|]; [|done]. apply (signed_later s s d i m p1 p'); [by eapply tracked_grows|done|by apply Hs].
Qed.
Lemma descriptor_list_elem s d : d ∈ descriptor_list s ↔ d ∈ descriptors s.
Proof. unfold descriptor_list. rewrite sort_by_perm. apply elem_of_elements. Qed.
Lemma sign_run s p : usable s → all_regular s p →
  ∃ p', sign fuel s p = Some (Ret p') ∧ grows s p p' ∧
    ∀ d i m, d ∈ descriptors s → psbt_inputs p !! i = Some m → signed_if_own s d i m p'.
Proof.
  intros Hu Hreg.
  assert (Forall (λ d, d ∈ descriptors s) (descriptor_list s)) as Hl by (apply Forall_forall; intros d; apply descriptor_list_elem).
  destruct (sign_for_run s (descriptor_list s) p Hl Hu Hreg) as (p' & Hr & Hs). exists p'. split; [done|].
  split; [by eapply sign_for_adds|]. intros d i m Hd. apply Hs. by apply descriptor_list_elem.
Qed.
Lemma sign_by_kept s d i m l p p' : sign_by fuel l p = Some (Ret p') → tracked i m p →
  signed_if_own s d i m p → signed_if_own s d i m p'.
Proof.
  revert p. induction l as [|s' l IH]; intros p; cbn [sign_by]; [by intros [= <-]|].
  destruct (sign fuel s' p) as [[p1|]|] eqn:Hr; [|done..]. intros Hl Ht Hs.
  assert (grows s' p p1) as Hg.
  { eapply sign_for_adds; [|exact Hr]. apply Forall_forall. intros d'. apply descriptor_list_elem. }
  destruct (signed_later s s' d i m p p1 Ht Hg) as [Ht' Hs']. by eapply (IH p1); [..|apply Hs'].
Qed.
(** An input without keys is left as it is. *)
Definition no_keys m : Prop :=
  bip32_derivation (pi_rest m) = ∅ ∧ tap_internal_key (pi_rest m) = None ∧ tap_key_origins (pi_rest m) = ∅.
Lemma no_keys_regular s tx outs i m : no_keys m → regular s tx outs i m.
Proof. intros (Hb & Ht & Ho). by apply regular_other. Qed.
Lemma no_keys_kept s p p' i m : grows s p p' → psbt_inputs p !! i = Some m → no_keys m → psbt_inputs p' !! i = Some m.
Proof.
  intros Hg Hm (Hb & Ht & Ho). destruct (grows_input _ _ _ _ _ Hg Hm) as (m' & Hm' & Hw & Ha). rewrite Hm'. f_equal.
  destruct m as [w r], m' as [w' r']. cbn in *. subst w'. f_equal.
  inversion Ha as [|r1 r2 r3 Hadd _]; subst; [done|]. exfalso. destruct Hadd; rewrite ?Hb, ?Ho in *; try congruence.
  - rewrite lookup_empty in *. congruence.
  - rewrite lookup_empty in *. congruence.
Qed.
Lemma sign_by_untouched l p p' i m : sign_by fuel l p = Some (Ret p') → psbt_inputs p !! i = Some m → no_keys m →
  psbt_inputs p' !! i = Some m.
Proof.
  revert p. induction l as [|s l IH]; intros p; cbn [sign_by]; [by intros [= <-]|].
  destruct (sign fuel s p) as [[p1|]|] eqn:Hr; [|done..]. intros Hl Hm Hn. eapply IH; [exact Hl| |done].
  eapply no_keys_kept; [|exact Hm|done]. eapply sign_for_adds; [|exact Hr]. apply Forall_forall. intros d.
  apply descriptor_list_elem.
Qed.
Lemma sign_by_run l p : Forall (λ s, usable s ∧ all_regular s p) l →
  ∃ p', sign_by fuel l p = Some (Ret p') ∧ unsigned_tx p' = unsigned_tx p ∧
    Forall2 (λ m m', witness_utxo m' = witness_utxo m) (psbt_inputs p) (psbt_inputs p') ∧
    ∀ s d i m, s ∈ l → d ∈ descriptors s → psbt_inputs p !! i = Some m → signed_if_own s d i m p'.
Proof.
  revert p. induction l as [|s l IH]; intros p Hl; cbn [sign_by].
  { exists p. split_and!; [done..|by induction (psbt_inputs p); constructor|]. by intros s d i m Hs%not_elem_of_nil. }
  apply Forall_cons in Hl as [[Hu Hreg] Hl]. destruct (sign_run s p Hu Hreg) as (p1 & Hr & Hg & Hs). rewrite Hr.
  destruct (IH p1) as (p' & Hr' & Ht' & Hw' & Hs').
  { eapply Forall_impl; [exact Hl|]. intros s' [Hu' Hreg']. split; [done|]. by eapply all_regular_kept. }
  exists p'. split; [done|]. split; [rewrite Ht'; apply Hg|]. split; [eapply utxos_trans; [apply Hg|exact Hw']|].
  intros s' d i m Hin Hd Hm. destruct (grows_input _ _ _ _ _ Hg Hm) as (m1 & Hm1 & _).
  apply elem_of_cons in Hin as [->|Hin].
  - eapply sign_by_kept; [exact Hr'|by eapply tracked_grows|by apply Hs].
  - eapply (signed_earlier s' s d i m m1 p p1 p'); [done..|]. by apply Hs'.
Qed.

(** A manager goes over its signers in the order of their fingerprints. *)
Lemma sign_psbt_run {S} `{!Store S Fingerprint JsonSigner} (mgr : SigningManager (S:=S)) p :
  (∀ fg s, bip32_signers mgr !! fg = Some s → usable s ∧ all_regular s p) →
  ∃ p', sign_psbt fuel mgr p = Some (Ret p') ∧ unsigned_tx p' = unsigned_tx p ∧
    Forall2 (λ m m', witness_utxo m' = witness_utxo m) (psbt_inputs p) (psbt_inputs p') ∧
    grows_by (λ s, ∃ fg, bip32_signers mgr !! fg = Some s) p p' ∧
    (∀ i m, psbt_inputs p !! i = Some m → no_keys m → psbt_inputs p' !! i = Some m) ∧
    ∀ fg s d i m, bip32_signers mgr !! fg = Some s → d ∈ descriptors s → psbt_inputs p !! i = Some m →
      signed_if_own s d i m p'.
Proof.
  intros Hall. destruct (sign_by_run (bt_values (bip32_signers mgr)) p) as (p' & Hr & Ht & Hw & Hs).
  { apply Forall_forall. intros s [fg Hs]%elem_of_bt_values. by eapply Hall. }
  exists p'. split; [exact Hr|]. split; [done|]. split; [done|]. split; [|split].
  - eapply sign_by_adds; [|exact Hr]. apply Forall_forall. intros s. by rewrite elem_of_bt_values.
  - intros i m Hm Hn. by eapply sign_by_untouched.
  - intros fg s d i m Hfg Hd Hm. apply (Hs s d i m); [apply elem_of_bt_values; by exists fg|done|done].
Qed.

(** C7. A manager signs every input its signers own. When each signer can derive for its
    descriptors and look at every input, signing a PSBT with the manager ends, keeps the
    transaction and the outputs spent, and leaves on every input that spends an address of
    a registered descriptor, at the path the PSBT gives, a signature that verifies under
    the key derived there: the ECDSA one over the digest of a segwit input, the key-spend
    one under the tweaked internal key of a taproot input. What other signers add after
    it takes nothing away. *)
Theorem own_inputs_signed {S} `{!Store S Fingerprint JsonSigner} (mgr : SigningManager (S:=S)) p :
  (∀ fg s, bip32_signers mgr !! fg = Some s → usable s ∧ all_regular s p) →
  ∃ p', sign_psbt fuel mgr p = Some (Ret p') ∧ unsigned_tx p' = unsigned_tx p ∧
    Forall2 (λ m m', witness_utxo m' = witness_utxo m) (psbt_inputs p) (psbt_inputs p') ∧
    ∀ fg s d i m, bip32_signers mgr !! fg = Some s → d ∈ descriptors s → psbt_inputs p !! i = Some m →
      signed_if_own s d i m p'.
Proof. intros (p' & Hr & Ht & Hw & _ & _ & Hs)%sign_psbt_run. by exists p'. Qed.
End complete.

(** ** Signers across a restart *)

Section restart.
Context `{L : Bitcoin.TxLib} `{Cv : Curve} `{KL : !KeyLib} `{SG : !SignLib} `{SL : !SignerLib} `{SGL : !SignLaws} `{SLL : !SignerLaws}.
Context {S : Type} `{!Store S Fingerprint JsonSigner} `{!StoreLaws S Fingerprint JsonSigner} `{!StoreTotal S Fingerprint JsonSigner}.
Abbreviation SManager := (SigningManager (S:=S)).
Implicit Types (s : HotSigner) (m : SManager).

(** What a client of the manager does with its signers. *)
Inductive op :=
  | OpMnemonic (network : BtcNetwork) (mnemonic : string)
  | OpRegister (d : Descriptor)
  | OpPersist.
Definition do_op (o : op) (m : SManager) : outcome SManager :=
  match o with
  | OpMnemonic network mnemonic => new_bip32_signer_from_mnemonic network mnemonic m
  | OpRegister d => Ret (register_bip32_descriptor d m)
  | OpPersist => Ret (persist m)
  end.
Fixpoint manage (l : list op) (m : SManager) : outcome SManager :=
  match l with [] => Ret m | o :: l => let! m := do_op o m in manage l m end.

(** A signer a row of the store stands for. *)
Definition stored s : Prop :=
  connected s = true ∧ ∃ mn, new_from_mnemonic (network s) mn = Some (derivator s).
Definition in_store m : Prop :=
  (∀ fg s, bip32_signers m !! fg = Some s → fingerprint s = fg ∧ stored s) ∧
  st_view (store m) = omap to_json (bip32_signers m).

Lemma new_from_mnemonic_keeps network mn d : new_from_mnemonic network mn = Some d → kd_mnemonic d = Some mn.
Proof. unfold new_from_mnemonic. destruct (master_from_mnemonic _ _); [|done]. by intros [= <-]. Qed.
Lemma stored_json s : stored s → ∃ j, to_json s = Some j ∧ ∃ s0, from_json j = Ret s0 ∧ (init s0).1 = s.
Proof.
  destruct s as [d ds net c]. intros [Hc [mn Hn]]. cbn in Hc, Hn. subst c. unfold to_json. cbn.
  rewrite (new_from_mnemonic_keeps _ _ _ Hn). eexists. split; [done|].
  unfold from_json, new_from_mnemonics. cbn. rewrite mnemonic_from_to. cbn. rewrite Hn. cbn. eexists. split; [done|].
  cbn. f_equal. apply set_eq. intros x. rewrite elem_of_list_to_set, list_elem_of_omap. split.
  - intros (str & (y & -> & Hy)%elem_of_elements%elem_of_map & Hx). rewrite descriptor_from_to in Hx. by injection Hx as <-.
  - intros Hx. exists (descriptor_to_string x). rewrite descriptor_from_to. split; [|done].
    apply elem_of_elements, elem_of_map. eauto.
Qed.
(** Writing a signer. *)
Definition write (v : gmap Fingerprint JsonSigner) s : gmap Fingerprint JsonSigner :=
  match to_json s with Some j => <[fingerprint s := j]> v | None => v end.
Lemma store_signer_view s st : st_view (store_signer s st) = write (st_view st) s.
Proof.
  unfold store_signer, write. destruct (to_json s) as [j|]; [|done].
  destruct (st_insert_total st (fingerprint s) j) as (st' & o & Hi). rewrite Hi. cbn. by apply st_insert_spec in Hi.
Qed.
Lemma write_lookup (sg : gmap Fingerprint HotSigner) l v fg : (∀ s, s ∈ l → sg !! fingerprint s = Some s ∧ is_Some (to_json s)) →
  foldl write v l !! fg = if decide (fg ∈ fingerprint <$> l) then sg !! fg ≫= to_json else v !! fg.
Proof.
  revert v. induction l as [|s l IH]; intros v Hl; cbn [foldl fmap list_fmap].
  { rewrite decide_False by apply not_elem_of_nil. done. }
  rewrite IH by (intros s' Hs'; apply Hl; by right). destruct (Hl s) as [Hs [j Hj]]; [left|].
  destruct (decide (fg ∈ fingerprint <$> l)) as [Hin|Hnin].
  - rewrite decide_True by (by right). done.
  - unfold write. rewrite Hj. destruct (decide (fg = fingerprint s)) as [->|Hne].
    + rewrite lookup_insert_eq, decide_True by left. by rewrite Hs.
    + rewrite lookup_insert_ne, decide_False by (try intros [?|?]%elem_of_cons; congruence). done.
Qed.
Lemma hydrate_run (sg : gmap Fingerprint HotSigner) l m : (∀ fg j, (fg, j) ∈ l → ∃ s, from_json j = Ret s ∧ sg !! fg = Some (init s).1) →
  ∃ m', hydrate l m = Ret m' ∧ store m' = store m ∧
    ∀ fg, bip32_signers m' !! fg = if decide (fg ∈ l.*1) then sg !! fg else bip32_signers m !! fg.
Proof.
  revert m. induction l as [|[fg j] l IH]; intros m Hl; cbn [hydrate].
  { exists m. split; [done|]. split; [done|]. intros fg. rewrite decide_False by apply not_elem_of_nil. done. }
  destruct (Hl fg j) as (s & Hs & Hfg); [left|]. rewrite Hs. cbn [obind]. destruct (init s) as [s' n] eqn:Hi. cbn in Hfg.
  destruct (IH (push n (set_hot (<[fg := s']> (bip32_signers m)) (store m) m))) as (m' & Hm' & Hst & Hsg).
  { intros fg' j' Hj'. apply Hl. by right. }
  exists m'. split; [done|]. split; [done|]. intros fg'. rewrite Hsg. cbn [fmap list_fmap fst bip32_signers push set_hot].
  destruct (decide (fg' ∈ l.*1)) as [Hin|Hnin].
  - rewrite decide_True by (by right). done.
  - destruct (decide (fg' = fg)) as [->|Hne].
    + rewrite lookup_insert_eq, decide_True by left. done.
    + rewrite lookup_insert_ne, decide_False by (try intros [?|?]%elem_of_cons; congruence). done.
Qed.

Lemma add_in_store s m : stored (init s).1 → in_store m → in_store (add_bip32_signer s m).
Proof.
  intros Hs [Hm Hv]. unfold add_bip32_signer. destruct (init s) as [s' n]. cbn in Hs. split; cbn.
  - intros fg s2. destruct (decide (fg = fingerprint s')) as [->|Hne].
    + rewrite lookup_insert_eq. by intros [= <-].
    + rewrite lookup_insert_ne by done. apply Hm.
  - rewrite store_signer_view, Hv. unfold write. destruct (stored_json s' Hs) as (j & Hj & _). rewrite Hj.
    by rewrite omap_insert_Some with (y := j).
Qed.
Lemma register_in_store d m : in_store m → in_store (register_bip32_descriptor d m).
Proof.
  intros [Hm Hv]. set (sg := inner_register_descriptor d <$> bip32_signers m).
  assert (∀ fg s, sg !! fg = Some s → fingerprint s = fg ∧ stored s) as Hsg.
  { intros fg s (s0 & <- & Hs0)%lookup_fmap_Some. by apply Hm in Hs0. }
  split; [exact Hsg|]. cbn. rewrite (st_view_foldl _ write) by (intros; apply store_signer_view). apply map_eq. intros fg.
  rewrite (write_lookup sg), Hv, !lookup_omap.
  - fold sg. destruct (decide _) as [Hin|Hnin]; [done|]. destruct (sg !! fg) as [s|] eqn:Hs.
    + destruct Hnin. apply list_elem_of_fmap. exists s. destruct (Hsg _ _ Hs) as [<- _]. split; [done|].
      apply elem_of_bt_values. eauto.
    + unfold sg in Hs. rewrite lookup_fmap in Hs. by destruct (bip32_signers m !! fg).
  - intros s [fg' Hs]%elem_of_bt_values. destruct (Hsg _ _ Hs) as [Hfg Hst]. rewrite Hfg. split; [done|].
    destruct (stored_json s Hst) as (j & -> & _). eauto.
Qed.
Lemma do_op_in_store o m m' : do_op o m = Ret m' → in_store m → in_store m'.
Proof.
  destruct o as [net mn|d|]; cbn.
  - unfold new_bip32_signer_from_mnemonic, new_from_mnemonics.
    destruct (mnemonic_from_str mn ≫= new_from_mnemonic net) as [d|] eqn:Hd; [|done].
    cbn [ok_or rbind ok expect obind]. intros [= <-] Hm. apply add_in_store; [|done]. split; [done|]. destruct (mnemonic_from_str mn) as [mn'|]; [|done]. by exists mn'.
  - intros [= <-]. apply register_in_store.
  - intros [= <-] [Hm Hv]. split; [done|]. cbn. destruct (st_flush (store m)) as [st' r] eqn:Hf. cbn.
    by rewrite (st_flush_spec _ _ _ Hf).
Qed.
Lemma manage_in_store l m m' : manage l m = Ret m' → in_store m → in_store m'.
Proof.
  revert m. induction l as [|o l IH]; intros m; cbn [manage]; [by intros [= <-]|].
  intros (m1 & Ho & Hl)%obind_Ret Hm. eapply IH; [exact Hl|]. by eapply do_op_in_store.
Qed.

(** Signers survive a restart. Whatever signers a manager over an empty store was
    given, the descriptors it registered with them and the flushes of its store, a manager
    opened over that store again has the same signers: their keys, networks and
    descriptors. *)
Theorem signers_survive l st m m' : st_view st = ∅ → from_store st = Ret m → manage l m = Ret m' →
  ∃ m'', from_store (store m') = Ret m'' ∧ bip32_signers m'' = bip32_signers m'.
Proof.
  intros Hst Hfrom Hl. assert (in_store m) as Hm.
  { unfold from_store in Hfrom. destruct (st_iter_total st) as [rows Hi]. rewrite Hi, (st_iter_spec _ _ Hi), Hst in Hfrom.
    injection Hfrom as <-. by split. }
  destruct (manage_in_store _ _ _ Hl Hm) as [Hsg Hv]. unfold from_store. destruct (st_iter_total (store m')) as [rows Hi].
  rewrite Hi. apply st_iter_spec in Hi. subst rows.
  destruct (hydrate_run (bip32_signers m') (bt_items (st_view (store m'))) (empty_manager (store m'))) as (m'' & Hr & _ & Hlook).
  { intros fg j Hj%elem_of_bt_items. rewrite Hv in Hj. apply lookup_omap_Some in Hj as (s & Hj & Hs).
    destruct (Hsg _ _ Hs) as [_ Hst']. destruct (stored_json s Hst') as (j' & Hj' & s0 & Hs0 & Hinit). exists s0.
    by rewrite Hinit, Hs, <-Hs0; split; [congruence|]. }
  exists m''. split; [done|]. apply map_eq. intros fg. rewrite Hlook. case_decide as Hin; [done|]. cbn. symmetry.
  destruct (bip32_signers m' !! fg) as [s|] eqn:Hs; [|done]. destruct Hin. apply elem_of_bt_keys. rewrite Hv, lookup_omap, Hs.
  destruct (Hsg _ _ Hs) as [_ Hst']. destruct (stored_json s Hst') as (j & Hj & _). cbn. by rewrite Hj.
Qed.
End restart.

(** ** Witnesses *)

Module Witness.
Import SpPayment.Sample Persist.Persist.
#[local] Existing Instances Bitcoin.Sample.sample_lib Bitcoin.Sample.sample_build Toy.curve Toy.laws.
#[local] Existing Instances Derivator.Witness.sample_descriptors Toy.elt_eqdec Toy.elt_countable Toy.xonly_eqdec Toy.xonly_countable.
#[export] Instance elt_KeyOrd : KeyOrd Toy.elt := λ a b, (Toy.ev a <=? Toy.ev b)%Z.
#[export] Instance xonly_KeyOrd : KeyOrd Toy.xonly := λ a b, key_leb (Toy.x_even a) (Toy.x_even b).

(** A decidable fact, computed. *)
Ltac by_decision := apply (bool_decide_eq_true_1 _); vm_compute; reflexivity.

(** The fields of an input, kept as a number; signatures hold what they sign. One is the
    map an output of a descriptor of key 4 gives. *)
Definition schnorr : Type := list N * Toy.xonly.
Record fields := mkFields {
  f_derivation : gmap Toy.elt (N * N);
  f_internal : option Toy.xonly;
  f_origins : gmap Toy.xonly (list N * (N * N));
  f_partial : gmap Toy.elt (list N * Toy.elt * N);
  f_key_sig : option schnorr;
  f_leaf_sigs : gmap (Toy.xonly * N) schnorr
}.
Definition tuple (f : fields) := (f_derivation f, f_internal f, f_origins f, f_partial f, f_key_sig f, f_leaf_sigs f).
Definition blank : fields := mkFields ∅ None ∅ ∅ None ∅.
Definition pack (f : fields) : N := N.succ (Npos (encode (tuple f))).
Definition unpack (r : N) : fields :=
  if r =? 1 then mkFields {[key_at 4 3 := (4, 3)]} None ∅ ∅ None ∅
  else match N.pred r with
       | Npos p => match decode p with Some (d, i, o, ps, k, l) => mkFields d i o ps k l | None => blank end
       | N0 => blank
       end.
Lemma unpack_pack f : unpack (pack f) = f.
Proof.
  destruct f. unfold unpack, pack. rewrite N.pred_succ, decode_encode.
  by replace (N.succ _ =? 1) with false by (symmetry; apply N.eqb_neq; lia).
Qed.

#[export] Instance sign_lib : SignLib := {|
  Signature := schnorr;
  key_spend_sighash tx i prevouts :=
    if (i <? length (input tx))%nat then Some [N.of_nat i; lock_time tx; sumN (txout_value <$> prevouts)] else None;
  sign_schnorr msg k _ := (msg, (x_only_public_key (public_key k)).1);
  verify_schnorr sig msg x := bool_decide (sig = (msg, x));
  set_tap_key_sig sig r :=
    let f := unpack r in pack (mkFields (f_derivation f) (f_internal f) (f_origins f) (f_partial f) sig (f_leaf_sigs f));
  tap_key_sig r := f_key_sig (unpack r)
|}.
#[export] Instance sign_laws : SignLaws.
Proof.
  split.
  - intros msg k aux. by apply bool_decide_eq_true_2.
  - intros sig r. unfold tap_key_sig, set_tap_key_sig, sign_lib. by rewrite unpack_pack.
  - intros t i prevouts _ Hi%Nat.ltb_lt. unfold key_spend_sighash, sign_lib. rewrite Hi. eauto.
Qed.

(** Numbers as texts. *)
Fixpoint digits (p : positive) : string :=
  match p with
  | xH => EmptyString
  | xO p => String "0"%char (digits p)
  | xI p => String "1"%char (digits p)
  end.
Fixpoint read (s : string) : positive :=
  match s with
  | EmptyString => xH
  | String c s => if bool_decide (c = "0"%char) then xO (read s) else xI (read s)
  end.
Lemma read_digits p : read (digits p) = p.
Proof. induction p as [p IH|p IH|]; cbn [digits read]; [..|done]; by rewrite IH. Qed.
Definition text (n : N) : string := digits (N.succ_pos n).
Definition number (s : string) : option N := Some (N.pred (Npos (read s))).
Lemma number_text n : number (text n) = Some n.
Proof. unfold number, text. rewrite read_digits, N.succ_pos_spec. f_equal. lia. Qed.

(** The tweak of a key is that of the even one of its x. *)
Definition even (k : Toy.elt) : Toy.elt := Toy.x_even (Toy.x_of k).1.
#[export] Instance signer_lib : SignerLib := {|
  Mnemonic := N;
  mnemonic_from_str := number;
  mnemonic_to_string := text;
  master_from_mnemonic _ m := Some m;
  fingerprint_of x := x;
  path_indexes p := [84; p / 10; p mod 10];
  descriptor_to_string := text;
  descriptor_from_str := number;
  signer_keys _ := [KMultiXPub Derivator.Test (Some 4)];
  LeafHash := N;
  EcdsaSignature := list N * Toy.elt * N;
  bip32_derivation r := f_derivation (unpack r);
  tap_internal_key r := f_internal (unpack r);
  tap_key_origins r := f_origins (unpack r);
  tweak_keypair k _ := tweaked (even k);
  partial_sigs r := f_partial (unpack r);
  insert_partial_sig pk sig r := let f := unpack r in
    pack (mkFields (f_derivation f) (f_internal f) (f_origins f) (<[pk := sig]> (f_partial f)) (f_key_sig f) (f_leaf_sigs f));
  insert_tap_script_sig x leaf sig r := let f := unpack r in
    pack (mkFields (f_derivation f) (f_internal f) (f_origins f) (f_partial f) (f_key_sig f) (<[(x, leaf) := sig]> (f_leaf_sigs f)));
  sighash_ecdsa tx i m := (λ o, ([N.of_nat i; lock_time tx; txout_value o], true)) <$> witness_utxo m;
  script_spend_sighash tx i prevouts leaf := Some [N.of_nat i; leaf];
  sign_ecdsa hash k nonce := (hash, public_key k, nonce);
  der_length sig := 68 + sig.2;
  verify_ecdsa hash sig pk := bool_decide (sig.1 = (hash, pk));
  sign_schnorr_no_aux_rand msg k := (msg, (x_only_public_key (public_key k)).1)
|}.
#[export] Instance signer_laws : SignerLaws.
Proof.
  split.
  - intros r r' [(pk & sig & ->)|[(sig & ->)|(x & leaf & sig & ->)]];
      unfold bip32_derivation, tap_internal_key, tap_key_origins, insert_partial_sig, set_tap_key_sig, insert_tap_script_sig,
        signer_lib, sign_lib; rewrite unpack_pack; repeat split.
  - intros. unfold partial_sigs, insert_partial_sig, signer_lib. by rewrite unpack_pack.
  - intros. unfold partial_sigs, set_tap_key_sig, signer_lib, sign_lib. by rewrite unpack_pack.
  - intros. unfold partial_sigs, insert_tap_script_sig, signer_lib. by rewrite unpack_pack.
  - intros. unfold tap_key_sig, insert_partial_sig, signer_lib, sign_lib. by rewrite unpack_pack.
  - intros. unfold tap_key_sig, insert_tap_script_sig, signer_lib, sign_lib. by rewrite unpack_pack.
  - intros. by apply bool_decide_eq_true_2.
  - intros. by apply bool_decide_eq_true_2.
  - intros k k' r Hx.  change ((Toy.x_of k).1 = (Toy.x_of k').1) in Hx. change (tweak_keypair k r) with (tweaked (even k)).
    change (tweak_keypair k' r) with (tweaked (even k')). unfold even. by rewrite Hx.
  - exact number_text.
  - exact number_text.
  - repeat split.
Qed.
Lemma nonce_found hash k : is_Some (grind 3 hash k 0).
Proof. eexists. reflexivity. Qed.

(** A signer of one descriptor; a segwit input and a taproot one of its addresses, and a
    segwit input of another signer. *)
Definition signer : HotSigner :=
  mkHotSigner (mkKeyDerivator 4 4 (Some 4)) {[3]} Bitcoin.Regtest true.
Definition in0 : PsbtInput := mkPsbtInput _ (Some (mkTxOut 900 [6; 5]))
  (pack (mkFields {[key_at 4 5 := (4, 5)]} None ∅ ∅ None ∅)).
Definition x12 : Toy.xonly := (Toy.x_of (key_at 4 12)).1.
Definition in1 : PsbtInput := mkPsbtInput _ (Some (mkTxOut 800 [7; 2]))
  (pack (mkFields ∅ (Some x12) {[x12 := ([], (4, 12))]} ∅ None ∅)).
Definition in2 : PsbtInput := mkPsbtInput _ (Some (mkTxOut 700 [1]))
  (pack (mkFields {[key_at 9 5 := (9, 5)]} None ∅ ∅ None ∅)).
Definition tx : Transaction := mkTransaction 2 0
  [mkTxIn (mkOutPoint 7 0) [] 0 []; mkTxIn (mkOutPoint 7 1) [] 0 []; mkTxIn (mkOutPoint 8 1) [] 0 []] [mkTxOut 2000 [5]].
Definition unsigned : Psbt := mkPsbt _ tx 0 [in0; in1; in2] [].
Definition run : option (outcome Psbt) := sign 3 signer unsigned.
Definition signed : Psbt := match run with Some (Ret p) => p | _ => unsigned end.
Lemma run_signed : run = Some (Ret signed).
Proof.
  assert (match run with Some (Ret _) => true | _ => false end = true) as Hr by (vm_compute; reflexivity).
  unfold signed. destruct run as [[p|]|]; [reflexivity|discriminate Hr..].
Qed.
Definition ecdsa_of (p : Psbt) (i : nat) (pk : Toy.elt) : bool :=
  match psbt_inputs p !! i with Some m => bool_decide (is_Some (partial_sigs (pi_rest m) !! pk)) | None => false end.
Lemma signed_segwit : ecdsa_of signed 0 (key_at 4 5) = true.
Proof. vm_compute. reflexivity. Qed.
Lemma signs_only_its_own_witness : ecdsa_of signed 0 (key_at 4 5) = true ∧ unsigned_tx signed = tx.
Proof.
  split; [exact signed_segwit|]. destruct (signs_only_its_own 3 signer unsigned signed) as (Ht & _).
  - exact run_signed.
  - exact Ht.
Defined.

Abbreviation Rows := (RamStore unit N JsonSigner).
Definition rows : Rows := ram_empty tt "signers" text (λ _, Ok []).
Definition manager : SigningManager (S:=Rows) := mkManager {[4 := signer]} ∅ rows [] [].
Definition der : SpkDerivator := Derivator.mkSpkDerivator 3 6 7 Bitcoin.Regtest.
Lemma der_made : Derivator.new (3 : Descriptor) Bitcoin.Regtest = Ret (Ok der).
Proof. reflexivity. Qed.
Lemma der_only d : d ∈ descriptors signer → d = 3.
Proof. apply elem_of_singleton. Qed.
Lemma signer_usable : usable signer.
Proof. intros d ->%der_only. exists der. exact der_made. Qed.
Lemma all_derive path ap : account_path path = Ok ap → derivable signer path.
Proof.
  intros Hap. exists (key_at 4 path), ap. split; [reflexivity|]. split; [exact Hap|]. intros d der' ->%der_only Hn.
  change (network signer) with Bitcoin.Regtest in Hn. rewrite der_made in Hn. injection Hn as <-. destruct ap as [[] i]; eexists; reflexivity.
Qed.
Lemma derives_5 : account_path (5 : Path) = Ok (false, 5).
Proof. reflexivity. Qed.
Lemma derives_12 : account_path (12 : Path) = Ok (true, 2).
Proof. reflexivity. Qed.
Lemma own_5 : own_paths signer in0 = [5].
Proof. by_decision. Qed.
Lemma own_none : own_paths signer in2 = [].
Proof. by_decision. Qed.
Lemma origin_12 y leaves path : tap_key_origins (pi_rest in1) !! y = Some (leaves, (fingerprint signer, path)) → leaves = [].
Proof.
  unfold tap_key_origins, signer_lib. cbn [pi_rest in1]. rewrite unpack_pack. cbn [f_origins].
  intros [_ He]%lookup_singleton_Some. by injection He.
Qed.
Lemma unsigned_regular : all_regular signer unsigned.
Proof.
  intros i m Hm. destruct i as [|[|[|i]]]; [injection Hm as <-..|discriminate Hm].
  - apply (regular_segwit _ _ _ _ _ [0; 0; 900] (mkTxOut 900 [6; 5])); try reflexivity; try by_decision.
    intros path. rewrite own_5. intros ->%list_elem_of_singleton. by eapply all_derive, derives_5.
  - apply (regular_taproot signer _ _ _ _ x12 [] 4 12 (mkTxOut 800 [7; 2]) [1; 0; 2400]); try by_decision.
    + intros _. split; [by eapply all_derive, derives_12|]. intros k [= <-]. reflexivity.
    + exact origin_12.
  - apply (regular_segwit _ _ _ _ _ [2; 0; 700] (mkTxOut 700 [1])); try reflexivity; try by_decision.
    intros path. rewrite own_none. by intros ?%not_elem_of_nil.
Qed.
Lemma owned_5 : owns signer 3 5 (mkTxOut 900 [6; 5]).
Proof. exists der, (false, 5). split; [exact der_made|]. split; reflexivity. Qed.
Lemma listed_5 : is_Some (bip32_derivation (pi_rest in0) !! public_key (key_at 4 5)).
Proof. by_decision. Qed.
Lemma owned_12 : owns signer 3 12 (mkTxOut 800 [7; 2]).
Proof. exists der, (true, 2). split; [exact der_made|]. split; reflexivity. Qed.
Lemma internal_12 : tap_internal_key (pi_rest in1) = Some x12 ∧ tap_key_origins (pi_rest in1) !! x12 = Some ([], (fingerprint signer, 12)).
Proof. split; by_decision. Qed.
Lemma holder fg s : bip32_signers manager !! fg = Some s → s = signer.
Proof. intros Hs. cbn in Hs. by apply lookup_singleton_Some in Hs as [_ <-]. Qed.
Lemma own_inputs_signed_witness : ∃ p', sign_psbt 3 manager unsigned = Some (Ret p') ∧
  (∃ m0, psbt_inputs p' !! 0%nat = Some m0 ∧ segwit_signed (unsigned_tx p') 0 m0 (public_key (key_at 4 5))) ∧
  ∃ m1, psbt_inputs p' !! 1%nat = Some m1 ∧ key_signed (unsigned_tx p') (prevouts p') 1 m1 (key_at 4 12).
Proof.
  destruct (own_inputs_signed 3 nonce_found manager unsigned) as (p' & Hr & _ & Hw & Hs).
  - intros fg s ->%holder. split; [exact signer_usable|exact unsigned_regular].
  - exists p'. split; [exact Hr|]. split.
    + destruct (Forall2_lookup_l _ _ _ 0%nat in0 Hw eq_refl) as (m0 & Hm0 & _). exists m0. split; [exact Hm0|].
      destruct (Hs 4 signer 3 0%nat in0 (lookup_singleton_eq _ _) (proj2 (elem_of_singleton _ _) eq_refl) eq_refl m0 _ Hm0 eq_refl) as [Hseg _].
      exact (Hseg 5 (key_at 4 5) own_5 eq_refl listed_5 owned_5).
    + destruct (Forall2_lookup_l _ _ _ 1%nat in1 Hw eq_refl) as (m1 & Hm1 & _). exists m1. split; [exact Hm1|].
      destruct (Hs 4 signer 3 1%nat in1 (lookup_singleton_eq _ _) (proj2 (elem_of_singleton _ _) eq_refl) eq_refl m1 _ Hm1 eq_refl) as [_ Hkey].
      destruct internal_12 as [Hi Ho]. exact (Hkey x12 [] 12 (key_at 4 12) Hi Ho eq_refl eq_refl owned_12).
Defined.

(** Two signers are made, one descriptor is registered between. *)
Definition use : list op := [OpMnemonic Bitcoin.Regtest (text 4); OpRegister 3; OpMnemonic Bitcoin.Signet (text 6); OpPersist].
Definition opened : SigningManager (S:=Rows) := empty_manager rows.
Definition used : SigningManager (S:=Rows) := match manage use opened with Ret m => m | Panic => opened end.
Lemma use_runs : manage use opened = Ret used.
Proof.
  assert (match manage use opened with Ret _ => true | Panic => false end = true) as Hr by (vm_compute; reflexivity).
  unfold used. destruct (manage use opened); [reflexivity|discriminate Hr].
Qed.
Lemma used_kept : descriptors <$> bip32_signers used !! 4 = Some {[3]} ∧ network <$> bip32_signers used !! 6 = Some Bitcoin.Signet.
Proof. split; by_decision. Qed.
Lemma signers_survive_witness : ∃ m, from_store (store used) = Ret m ∧ descriptors <$> bip32_signers m !! 4 = Some {[3]} ∧
  network <$> bip32_signers m !! 6 = Some Bitcoin.Signet.
Proof.
  destruct (signers_survive use rows opened used) as (m & Hm & Hs).
  - reflexivity.
  - reflexivity.
  - exact use_runs.
  - exists m. rewrite Hs. split; [exact Hm|exact used_kept].
Defined.
End Witness.
End HotSigner.
