(* ===== verification/SpAccount.v ===== *)
(** * The outputs an account knows at once (sp/src/account/mod.rs)

    A transaction the account broadcasts is recorded before any block holds it: its
    inputs are resolved in the stores of the account and of its sub-accounts, its
    outputs are scanned for those that pay the account, and the stores are updated. The
    rest of the module wires threads and configuration. *)
From Stdlib Require Import Lia ZArith.
From stdpp Require Import base countable strings gmap sets list.
From S2P Require Import Prelude Bytes Bitcoin Coin Persist Notification.
From S2P Require AddressStore CoinStore.
From S2P Require Import Recipient Transaction.
From S2P Require Import SpCurve SpCommon SpSending SpReceiving SpPayment SpCoinStore SpTxStore.

Module SpAccount.
Import Recipient(RecipientProvider) SpPayment.
#[local] Existing Instances SpReceiving.Label_eqdec SpReceiving.Label_countable.
Import Persist(Store, StoreLaws, StoreTotal, st_view).

(** [enum AccountError]; causes kept as text are dropped. *)
Inductive AccountError :=
  | MissingKeys | MissingBlindbitUrl | InvalidMnemonic | SubAccountMnemonic | ScanSkHex | InvalidScanSk
  | SpendKeyHex | InvalidSpendKey | SpendKeyLength | MissingSpendKey | ESpReceiver | EScan | ENetwork
  | NoKeys | ScannerAlreadyRunning | Finalize | Signing | AuxRand | Sighash | Tweak | NoElectrumEndpoint
  | Broadcast | Open | HeaderStart | EPersist | ScanRuntimeConfig
  | MissingInputCoin (o : OutPoint) | InputNotOwned (o : OutPoint) | MissingPrevout (o : OutPoint)
  | HeaderScannerMismatch | SilentPayment (e : SpCommon.Error).

(** ** The outputs of a transaction that are ours *)

(** The keys found, each with its label and tweak. *)
Abbreviation OwnedKeys := (gmap XOnlyPublicKey (option SpReceiving.Label * Scalar)).

Section owned.
Context `{L : Bitcoin.TxLib} `{Cv : Curve} `{KL : !KeyLib} `{SL : !SpReceiving.ScriptLib} `{Build}.
Context `{BM : !BiMapLib SpReceiving.Label PublicKey}.

(** A taproot script has 34 bytes. *)
Definition p2tr_output_key (s : script) : option XOnlyPublicKey :=
  if SpReceiving.is_p2tr s then xonly_from_slice (upto 32 (from 2 s)) else None.

Fixpoint eligible_pubkeys (l : list (TxIn * TxOut)) : outcome (result (list PublicKey) AccountError) :=
  match l with
  | [] => Ret (Ok [])
  | (input, prevout) :: l =>
      let! p := SpReceiving.eligible_input_pubkey input prevout in
      let? p := Ret (rmap_err SilentPayment p) in
      let? ps := eligible_pubkeys l in
      Ret (Ok (match p with Some p => p :: ps | None => ps end))
  end.
(** The secret shared with the inputs, unless none counts. *)
Definition shared_secret (sp_receiver : SpReceiver) (tx : Transaction) (prevouts : list TxOut) :
    outcome (result (option PublicKey) AccountError) :=
  let? input_pubkeys := eligible_pubkeys (zip (input tx) prevouts) in
  if bool_decide (input_pubkeys = []) then Ret (Ok None)
  else
    let outpoints := (λ i, outpoint_data (previous_output i)) <$> input tx in
    let! tweak := SpReceiving.calculate_tweak_data input_pubkeys outpoints in
    let? tweak := Ret (rmap_err SilentPayment tweak) in
    let! s := SpReceiving.calculate_ecdh_shared_secret tweak (get_scan_key sp_receiver) in
    Ret (Ok (Some s)).

Definition add_outputs (keys : OwnedKeys) (l : option SpReceiving.Label * gmap XOnlyPublicKey Scalar) : OwnedKeys :=
  foldl (λ keys o, <[o.1 := (l.1, o.2)]> keys) keys (map_to_list l.2).
Definition owned_keys (owned : SpReceiving.Found) : OwnedKeys := foldl add_outputs ∅ (map_to_list owned).

Definition stored_label (l : SpReceiving.Label) : Label := mkLabel (to_be_bytes (SpReceiving.label_scalar l)).
Definition owned_output (keys : OwnedKeys) (o : TxOut) : option OwnedOutput :=
  match p2tr_output_key (script_pubkey o) with
  | None => None
  | Some x =>
      match keys !! x with
      | None => None
      | Some (label, tweak) =>
          Some (mkOwnedOutput None (to_be_bytes tweak) (txout_value o) (script_pubkey o)
                  (stored_label <$> label) SpUnspent)
      end
  end.
Fixpoint owned_from (keys : OwnedKeys) (txid : Txid) (vout : N) (outs : list TxOut) : gmap OutPoint OwnedOutput :=
  match outs with
  | [] => ∅
  | o :: outs =>
      match owned_output keys o with
      | Some owned => <[mkOutPoint txid vout := owned]> (owned_from keys txid (vout + 1) outs)
      | None => owned_from keys txid (vout + 1) outs
      end
  end.
(** [None]: the fuel of the scan ran out. *)
Definition sp_owned_outputs (fuel : nat) (sp_receiver : SpReceiver) (tx : Transaction) (prevouts : list TxOut) :
    option (outcome (result (gmap OutPoint OwnedOutput) AccountError)) :=
  let outputs := omap (λ o, p2tr_output_key (script_pubkey o)) (output tx) in
  if bool_decide (outputs = []) then Some (Ret (Ok ∅))
  else
    match shared_secret sp_receiver tx prevouts with
    | Panic => Some Panic
    | Ret (Err e) => Some (Ret (Err e))
    | Ret (Ok None) => Some (Ret (Ok ∅))
    | Ret (Ok (Some secret)) =>
        match SpReceiving.scan_transaction fuel (receiver sp_receiver) secret outputs with
        | None => None
        | Some (Err e) => Some (Ret (Err (SilentPayment e)))
        | Some (Ok owned) => Some (Ret (Ok (owned_from (owned_keys owned) (compute_txid tx) 0 (output tx))))
        end
    end.
End owned.

(** ** Recording a spend *)

(** [SpendRecorder] (electrum/src/coin_store.rs): what a sub-account answers. *)
Class SpendRecorder `{L : Bitcoin.TxLib} (W : Type) := {
  get_coin : W → OutPoint → option Coin;
  address_scripts : W → list script;
  record_unconfirmed_spend : Transaction → W → outcome W
}.

Section spend.
Context `{L : Bitcoin.TxLib} `{Cv : Curve} `{KL : !KeyLib} `{SL : !SpReceiving.ScriptLib} `{Build}.
Context `{BM : !BiMapLib SpReceiving.Label PublicKey}.
Context {S : Type} `{!Store S OutPoint SpCoinStore.SpCoinEntry}.
Context {T : Type} `{!Store T Txid SpTxStore.SpTxEntry}.
Context {W : Type} `{!SpendRecorder W}.

Record SpendAnalysis := mkAnalysis {
  sp_inputs : list OutPoint;
  sub_accounts : gset nat;
  sp_outputs : gmap OutPoint OwnedOutput
}.
Definition sp_change (a : SpendAnalysis) : outcome N := sum64 (SpCoinStore.amount <$> bt_values (sp_outputs a)).

(** The sub-accounts, by index, whose scripts contain [s]. *)
Definition owners (subs : list W) (s : script) : list nat :=
  omap (λ '(i, sub), if decide (s ∈ address_scripts sub) then Some i else None) (imap pair subs).
Fixpoint find_coin (subs : list W) (o : OutPoint) : option Coin :=
  match subs with
  | [] => None
  | sub :: subs => match get_coin sub o with Some c => Some c | None => find_coin subs o end
  end.
(** The loop over the inputs. *)
Fixpoint resolve_inputs (coins : S) (subs : list W) (inputs : list TxIn) :
    result (list OutPoint * gset nat * list TxOut) AccountError :=
  match inputs with
  | [] => Ok ([], ∅, [])
  | input :: inputs =>
      let outpoint := previous_output input in
      match SpCoinStore.get coins outpoint with
      | Some coin =>
          let o := SpCoinStore.output coin in
          try! (sp, subs, prevouts) := resolve_inputs coins subs inputs in
          Ok (outpoint :: sp, subs, mkTxOut (SpCoinStore.amount o) (oo_script o) :: prevouts)
      | None =>
          try! coin := ok_or (find_coin subs outpoint) (MissingInputCoin outpoint) in
          let own := owners subs (script_pubkey (Coin.txout coin)) in
          if bool_decide (own = []) then Err (InputNotOwned outpoint)
          else
            try! (sp, subs, prevouts) := resolve_inputs coins subs inputs in
            Ok (sp, list_to_set own ∪ subs, Coin.txout coin :: prevouts)
      end
  end.
Definition analyze_unconfirmed_spend (fuel : nat) (sp_receiver : SpReceiver) (coins : S) (subs : list W)
    (tx : Transaction) : option (outcome (result SpendAnalysis AccountError)) :=
  match resolve_inputs coins subs (input tx) with
  | Err e => Some (Ret (Err e))
  | Ok (sp_inputs, owned_subs, prevouts) =>
      let owned_subs :=
        foldl (λ acc o, acc ∪ list_to_set (owners subs (script_pubkey o))) owned_subs (output tx) in
      (λ r, let? sp_outputs := r in Ret (Ok (mkAnalysis sp_inputs owned_subs sp_outputs))) <$>
        sp_owned_outputs fuel sp_receiver tx prevouts
  end.

(** The stores, and the events sent. *)
Record Stores := mkStores {
  coin_store : S;
  tx_store : T;
  recorders : list W;
  sent : list Notification.SpNotification
}.
Definition spend_input (txid : Txid) (st : S * list Notification.SpNotification) (o : OutPoint) :
    S * list Notification.SpNotification :=
  (SpCoinStore.mark_spent o txid st.1, st.2 ++ [Notification.OutputSpent o]).
(** A scan that already found an output holds the confirmed entry. *)
Definition add_output (st : S * list Notification.SpNotification) (c : OutPoint * OwnedOutput) :
    S * list Notification.SpNotification :=
  match SpCoinStore.get st.1 c.1 with
  | Some _ => st
  | None => (SpCoinStore.insert c.1 c.2 st.1, st.2 ++ [Notification.NewOutput c.1])
  end.
Definition record_coins (txid : Txid) (a : SpendAnalysis) (st : S * list Notification.SpNotification) :
    S * list Notification.SpNotification :=
  if bool_decide (sp_inputs a = []) && bool_decide (sp_outputs a = ∅) then st
  else
    let st := foldl (spend_input txid) st (sp_inputs a) in
    let st := foldl add_output st (bt_items (sp_outputs a)) in
    (SpCoinStore.persist st.1, st.2).
Definition record_tx (tx : Transaction) (txid : Txid) (has_sp_inputs : bool) (sp_change : N) (txs : T) : T :=
  if negb (has_sp_inputs || (0 <? sp_change)) then txs
  else
    let entry := default (SpTxStore.with_tx txid tx) (SpTxStore.get txs txid) in
    let body := match SpTxStore.tx entry with Some body => Some body | None => Some tx end in
    let entry := SpTxStore.mkSpTxEntry (SpTxStore.txid entry) body (SpTxStore.fee entry) (SpTxStore.height entry)
                   (SpTxStore.timestamp entry) (SpTxStore.label entry) sp_change in
    SpTxStore.persist (SpTxStore.insert entry txs).
Definition record_sub (tx : Transaction) (subs : list W) (index : nat) : outcome (list W) :=
  let! sub := expect (subs !! index) in
  let! sub := record_unconfirmed_spend tx sub in
  Ret (<[index := sub]> subs).
Definition apply_unconfirmed_spend (tx : Transaction) (a : SpendAnalysis) (st : Stores) : outcome (Stores * Txid) :=
  let txid := compute_txid tx in
  let has_sp_inputs := negb (bool_decide (sp_inputs a = [])) in
  let! change := sp_change a in
  let '(coins, sent) := record_coins txid a (coin_store st, sent st) in
  let txs := record_tx tx txid has_sp_inputs change (tx_store st) in
  let! subs := ofold (record_sub tx) (recorders st) (elements (sub_accounts a)) in
  Ret (mkStores coins txs subs sent, txid).

(** [BroadcastWorker::run]: the network between the analysis and the update. *)
Definition run_inner (fuel : nat) (sp_receiver : SpReceiver) (broadcast : Transaction → result unit AccountError)
    (tx : Transaction) (st : Stores) : option (outcome (result (Stores * Txid) AccountError)) :=
  (λ r, let? analysis := r in
        let? _ := Ret (broadcast tx) in
        let! r := apply_unconfirmed_spend tx analysis st in Ret (Ok r)) <$>
    analyze_unconfirmed_spend fuel sp_receiver (coin_store st) (recorders st) tx.
Definition run (fuel : nat) (sp_receiver : SpReceiver)
    (broadcast : Transaction → result unit AccountError) (tx : Transaction) (st : Stores) :
    option (outcome Stores) :=
  (λ r, let! r := r in
        Ret (match r with
             | Ok (st, txid) => mkStores (coin_store st) (tx_store st) (recorders st)
                                  (sent st ++ [Notification.Broadcasted txid])
             | Err e => mkStores (coin_store st) (tx_store st) (recorders st)
                          (sent st ++ [Notification.FailBroadcast])
             end)) <$>
    run_inner fuel sp_receiver broadcast tx st.
(** [Account::record_unconfirmed_spend]. *)
Definition record_spend (fuel : nat) (sp_receiver : SpReceiver) (tx : Transaction) (st : Stores) :
    option (outcome (result (Stores * Txid) AccountError)) :=
  (λ r, let? analysis := r in
        let! r := apply_unconfirmed_spend tx analysis st in Ret (Ok r)) <$>
    analyze_unconfirmed_spend fuel sp_receiver (coin_store st) (recorders st) tx.
End spend.
(** ** Lemmas: the outputs found *)

Section owned_lemmas.
Context `{L : Bitcoin.TxLib} `{CurveLaws} `{KL : !KeyLib} `{SL : !SpReceiving.ScriptLib} `{!SpReceiving.ScriptLaws}.
Context `{Build} `{BM : !BiMapLib SpReceiving.Label PublicKey} `{!BiMapLaws SpReceiving.Label PublicKey}.
Implicit Types keys : OwnedKeys.

Lemma p2tr_output_key_spk x : p2tr_output_key (SpReceiving.p2tr_spk x) = Some x.
Proof.
  destruct (xonly_bytes x) as [Hlen Hx]. unfold p2tr_output_key.
  rewrite (proj2 (SpReceiving.is_p2tr_law _)) by eauto. unfold SpReceiving.p2tr_spk, from, upto.
  rewrite drop_app_length' by done. by rewrite take_ge by (rewrite Hlen; done).
Qed.

Lemma foldl_insert {A} (f : A → option SpReceiving.Label * Scalar) (l : list (XOnlyPublicKey * A)) keys x :
  NoDup l.*1 → foldl (λ keys o, <[o.1 := f o.2]> keys) keys l !! x =
    match (list_to_map l : gmap XOnlyPublicKey A) !! x with Some a => Some (f a) | None => keys !! x end.
Proof.
  revert keys; induction l as [|[y a] l IH]; intros keys Hnd; cbn [foldl list_to_map foldr fst snd]; [done|].
  cbn in Hnd. apply NoDup_cons in Hnd as [Hy Hnd]. rewrite IH by done. destruct (decide (x = y)) as [->|Hne].
  - rewrite lookup_insert_eq. rewrite not_elem_of_list_to_map_1 by done. by rewrite lookup_insert_eq.
  - cbn. by rewrite !lookup_insert_ne.
Qed.
Lemma add_outputs_lookup keys l x : add_outputs keys l !! x =
  match l.2 !! x with Some t => Some (l.1, t) | None => keys !! x end.
Proof.
  unfold add_outputs. rewrite (foldl_insert (λ t, (l.1, t))) by apply NoDup_fst_map_to_list.
  by rewrite list_to_map_to_list.
Qed.
Lemma foldl_outputs_Some (ls : list (option SpReceiving.Label * gmap XOnlyPublicKey Scalar)) keys x v :
  foldl add_outputs keys ls !! x = Some v →
  keys !! x = Some v ∨ ∃ m, (v.1, m) ∈ ls ∧ m !! x = Some v.2.
Proof.
  revert keys; induction ls as [|[l m] ls IH]; intros keys; cbn [foldl]; [by left|].
  intros [Hk|(m' & Hin & Hm)]%IH.
  - rewrite add_outputs_lookup in Hk. cbn in Hk. destruct (m !! x) as [t|] eqn:Hm; [|by left].
    injection Hk as <-. right. exists m. split; [left|done].
  - right. exists m'. split; [by right|done].
Qed.
Lemma foldl_outputs_is_Some (ls : list (option SpReceiving.Label * gmap XOnlyPublicKey Scalar)) keys x :
  is_Some (keys !! x) ∨ (∃ l m, (l, m) ∈ ls ∧ is_Some (m !! x)) → is_Some (foldl add_outputs keys ls !! x).
Proof.
  revert keys; induction ls as [|[l m] ls IH]; intros keys; cbn [foldl]; [set_solver|].
  intros Hx. apply IH. rewrite add_outputs_lookup. cbn. destruct Hx as [Hx|(l' & m' & Hin & Hx)].
  - left. destruct (m !! x); [eauto|done].
  - apply elem_of_cons in Hin as [[= -> ->]|Hin]; [|by eauto]. left. by destruct Hx as [t ->].
Qed.

(** A key is owned when it was found, with what it was found with. *)
Lemma owned_keys_found (found : SpReceiving.Found) x l t :
  owned_keys found !! x = Some (l, t) → SpReceiving.in_found found l x t.
Proof.
  intros [Hk|(m & Hin & Hm)]%foldl_outputs_Some; [by rewrite lookup_empty in Hk|].
  apply elem_of_map_to_list in Hin. cbn in *. unfold SpReceiving.in_found. by rewrite Hin.
Qed.
Lemma found_owned_keys (found : SpReceiving.Found) x l t :
  SpReceiving.in_found found l x t → is_Some (owned_keys found !! x).
Proof.
  unfold SpReceiving.in_found. intros Hf. apply foldl_outputs_is_Some. right.
  destruct (found !! l) as [m|] eqn:Hm; cbn in Hf; [|done]. exists l, m.
  split; [by apply elem_of_map_to_list|by eexists].
Qed.

Lemma owned_from_lookup keys txid outs : ∀ v op,
  owned_from keys txid v outs !! op =
    if decide (op_txid op = txid ∧ v ≤ op_vout op) then outs !! N.to_nat (op_vout op - v) ≫= owned_output keys else None.
Proof.
  induction outs as [|o outs IH]; intros v [t n]; cbn [owned_from op_txid op_vout].
  { rewrite lookup_empty, lookup_nil. by case_decide. }
  assert (Hrest : owned_from keys txid (v + 1) outs !! mkOutPoint t n =
    if decide (t = txid ∧ v + 1 ≤ n) then outs !! N.to_nat (n - (v + 1)) ≫= owned_output keys else None) by apply IH.
  destruct (decide (t = txid ∧ v ≤ n)) as [[-> Hv]|Hv].
  - destruct (decide (n = v)) as [->|Hne].
    + rewrite N.sub_diag. assert ((o :: outs) !! N.to_nat 0 ≫= owned_output keys = owned_output keys o) as -> by done.
      rewrite decide_False in Hrest by lia.
      destruct (owned_output keys o); [by rewrite lookup_insert_eq|exact Hrest].
    + rewrite decide_True in Hrest by (split; [done|lia]).
      assert (N.to_nat (n - v) = S (N.to_nat (n - (v + 1)))) as -> by lia. cbn [lookup list_lookup].
      destruct (owned_output keys o); [|done]. rewrite lookup_insert_ne by congruence. done.
  - rewrite decide_False in Hrest by (intros [? ?]; apply Hv; split; [done|lia]).
    destruct (owned_output keys o); [|done]. rewrite lookup_insert_ne; [done|]. intros [= <- <-]. apply Hv. done.
Qed.

(** Whatever is recorded as ours can be spent: the tweak makes the spend key the key
    of the output. *)
Definition tweak_spends (b : SecretKey) (o : OwnedOutput) : Prop :=
  ∃ k, sp_input_key b (tweak o) = Ok (k, true) ∧
    p2tr_output_key (oo_script o) = Some (x_only_public_key (public_key k)).1.

Lemma candidate_tweak_spends r S n l x t b o : SpReceiving.candidate r S n l x t →
  public_key b = SpReceiving.spend_pubkey r → tweak o = to_be_bytes t → p2tr_output_key (oo_script o) = Some x →
  tweak_spends b o.
Proof.
  intros Hc Hb Ht Hx. destruct (SpReceiving.candidate_spends r S n l x t b Hc Hb) as (k & Hk & Hkx).
  destruct Hc as (_ & _ & _ & _ & [Hnz _] & _). destruct (sp_input_key_scalar b t k Hk Hnz) as (k' & Hk' & Hp).
  exists k'. rewrite Ht. split; [done|]. by rewrite Hp, Hkx.
Qed.

Lemma owned_sound fuel r tx prevouts owned : SpReceiving.receiver_ok (receiver r) →
  sp_owned_outputs fuel r tx prevouts = Some (Ret (Ok owned)) →
  ∀ op o, owned !! op = Some o →
    op_txid op = compute_txid tx ∧
    (∃ out, output tx !! N.to_nat (op_vout op) = Some out ∧
      oo_script o = script_pubkey out ∧ SpCoinStore.amount o = txout_value out) ∧
    blockheight o = None ∧ spend_status o = SpUnspent ∧
    ∀ b, public_key b = SpReceiving.spend_pubkey (receiver r) → tweak_spends b o.
Proof.
  intros Hr Ho op o Hop. unfold sp_owned_outputs in Ho. case_bool_decide.
  { injection Ho as <-. by rewrite lookup_empty in Hop. }
  destruct (shared_secret r tx prevouts) as [[[S|]|]|]; [|injection Ho as <-; by rewrite lookup_empty in Hop|done..].
  destruct (SpReceiving.scan_transaction _ _ S _) as [[found|]|] eqn:Hs; [|done..]. injection Ho as <-.
  rewrite owned_from_lookup in Hop. case_decide as Ht; [|done]. destruct Ht as [Ht _]. rewrite N.sub_0_r in Hop.
  destruct (output tx !! _) as [out|] eqn:Hout; [|done]. cbn in Hop. unfold owned_output in Hop.
  destruct (p2tr_output_key (script_pubkey out)) as [x|] eqn:Hx; [|done].
  destruct (owned_keys found !! x) as [[l t]|] eqn:Hk; [|done]. injection Hop as <-.
  split; [done|]. split; [by exists out|]. split_and!; [done..|]. intros b Hb.
  apply owned_keys_found in Hk. destruct (SpReceiving.scan_sound _ Hr _ _ _ _ Hs _ _ _ Hk) as [_ [n Hc]].
  by apply (candidate_tweak_spends (receiver r) S n l x t).
Qed.

(** *** A payment is found *)

(** How the owner of a coin spends it: with the key the sender counted, or in a way no
    key is counted for. *)
Definition signed_for (b : SecretKey) (xprivs : gmap Fingerprint Xpriv) (c : Coin) (i : TxIn) : Prop :=
  previous_output i = Coin.outpoint c ∧
  match bip352_input_key c b xprivs with
  | Ok (Some k) => SpReceiving.spends k.1 k.2 i (Coin.txout c)
  | Ok None => SpReceiving.eligible_input_pubkey i (Coin.txout c) = Ret (Ok None)
  | Err _ => False
  end.
Lemma eligible_signed b xprivs ins inputs (keys : list (SecretKey * bool)) : Forall2 (signed_for b xprivs) ins inputs →
  input_keys ins b xprivs = Ok keys →
  eligible_pubkeys (zip inputs (Coin.txout <$> ins)) = Ret (Ok (SpReceiving.input_point <$> keys)).
Proof.
  intros Hs. revert keys; induction Hs as [|c i ins inputs [_ Hi] _ IH]; intros keys; cbn [input_keys].
  { by intros [= <-]. }
  intros (ko & Hko & (keys' & Hk & [= <-])%rbind_Ok)%rbind_Ok. rewrite Hko in Hi.
  assert (zip (i :: inputs) (Coin.txout <$> c :: ins) = (i, Coin.txout c) :: zip inputs (Coin.txout <$> ins)) as -> by done.
  cbn [eligible_pubkeys]. specialize (IH _ Hk). destruct ko as [k|].
  - rewrite (SpReceiving.eligible_own _ _ _ _ Hi). cbn. rewrite IH. cbn. by destruct k.
  - rewrite Hi. cbn. rewrite IH. done.
Qed.
Lemma signed_outpoints b xprivs ins inputs : Forall2 (signed_for b xprivs) ins inputs →
  (λ i, outpoint_data (previous_output i)) <$> inputs = (λ c, outpoint_data (Coin.outpoint c)) <$> ins.
Proof. induction 1 as [|c i ins inputs [Hp _] _ IH]; [done|]. cbn. by rewrite Hp, IH. Qed.

(** The secret the receiver computes is the sender's. *)
Lemma secret_shared b xprivs ins tx k r : partial_secret ins b xprivs = Ret (Ok k) →
  Forall2 (signed_for b xprivs) ins (input tx) → public_key (scan_sk r) = SpReceiving.r_scan_pubkey (receiver r) →
  ∃ S, SpSending.calculate_ecdh_shared_secret (SpReceiving.r_scan_pubkey (receiver r)) k = Ret S ∧
    shared_secret r tx (Coin.txout <$> ins) = Ret (Ok (Some S)).
Proof.
  intros Hk Hs Hscan. unfold partial_secret in Hk. apply qbind_Ok in Hk as (keys & [= Hkeys] & Hk).
  apply obind_Ret in Hk as (res & Hres & Hk). destruct res as [k'|]; [|done]. injection Hk as ->.
  destruct (same_secret keys _ k (scan_sk r) Hres) as (T & S & HT & HS & HS').
  exists S. rewrite <-Hscan. split; [done|]. unfold shared_secret. rewrite (eligible_signed _ _ _ _ _ Hs Hkeys).
  cbn [qbind]. rewrite bool_decide_false.
  - rewrite (signed_outpoints _ _ _ _ Hs), HT. cbn. unfold get_scan_key. by rewrite HS.
  - intros Hnil. apply fmap_nil_inv in Hnil as ->. done.
Qed.

(** The positions of the elements a filter keeps. *)
Lemma omap_position {A B} (f : A → option B) (P : B → Prop) `{∀ x, Decision (P x)} (l : list A) n b :
  filter P (omap f l) !! n = Some b →
  ∃ j a, l !! j = Some a ∧ f a = Some b ∧ P b ∧ n = length (filter P (omap f (take j l))).
Proof.
  revert n; induction l as [|a l IH]; intros n; cbn; [done|]. destruct (f a) as [b'|] eqn:Ha.
  - rewrite filter_cons. case_decide as Hb.
    + destruct n as [|n]; cbn; [intros [= ->]; exists 0%nat, a; by split_and!|]. intros Hn.
      destruct (IH n Hn) as (j & a' & Hj & Hf & HP & ->). exists (S j), a'. split_and!; [done..|].
      cbn. by rewrite Ha, filter_cons_True.
    + intros Hn. destruct (IH n Hn) as (j & a' & Hj & Hf & HP & ->). exists (S j), a'. split_and!; [done..|].
      cbn. by rewrite Ha, filter_cons_False.
  - intros Hn. destruct (IH n Hn) as (j & a' & Hj & Hf & HP & ->). exists (S j), a'. split_and!; [done..|].
    cbn. by rewrite Ha.
Qed.
Lemma position_omap {A B} (f : A → option B) (P : B → Prop) `{∀ x, Decision (P x)} (l : list A) j a b :
  l !! j = Some a → f a = Some b → P b →
  filter P (omap f l) !! length (filter P (omap f (take j l))) = Some b.
Proof.
  revert j; induction l as [|a' l IH]; intros [|j]; cbn; [done..|intros [= ->] Ha Hb|intros Hj Ha Hb].
  - rewrite Ha. by rewrite filter_cons_True.
  - specialize (IH j Hj Ha Hb). destruct (f a') as [b'|]; [|done]. rewrite !filter_cons. by case_decide.
Qed.

Section payment.
Context {R : Type} `{!SameKeys} `{!SameKeysLaws} `{!RecipientProvider R} `{!SpOutputLaws R}.
Context (r : SpReceiver) (Hr : SpReceiving.receiver_ok (receiver r)).
Context (lab : SpCommon.SilentPaymentAddress → option SpReceiving.Label) (outs : list R).
Let ours (a : SpCommon.SilentPaymentAddress) : Prop := SpCommon.scan_pubkey a = SpReceiving.r_scan_pubkey (receiver r).
(** The labels of the outputs that pay us, in order. *)
Definition paid_labels : list (option SpReceiving.Label) :=
  lab <$> filter (λ a, SpCommon.scan_pubkey a = SpReceiving.r_scan_pubkey (receiver r)) (omap sp_address outs).

Context (tx : Transaction) (S : PublicKey).
Definition output_keys : list XOnlyPublicKey := omap (λ o, p2tr_output_key (script_pubkey o)) (output tx).
Hypothesis (Hlab : ∀ a, a ∈ omap sp_address outs → ours a → SpReceiving.pays (receiver r) (lab a) a).
Hypothesis (Hnum : N.of_nat (length paid_labels) < 2 ^ 32).
Hypothesis (Hmade : ∀ j o a, outs !! j = Some o → sp_address o = Some a → ours a →
  ∃ x, SpSending.output_key S (N.of_nat (number outs j a)) a = Ok x ∧
    output tx !! j = Some (mkTxOut (Transaction.output_bitcoin_amount o) (SpReceiving.p2tr_spk x))).
Hypothesis (Hnc : SpReceiving.no_collision (receiver r) S output_keys paid_labels).

Lemma paid_label j o a : outs !! j = Some o → sp_address o = Some a → ours a →
  paid_labels !! number outs j a = Some (lab a).
Proof.
  intros Ho Ha Hours. unfold paid_labels, number. rewrite list_lookup_fmap. unfold ours in Hours. rewrite Hours.
  by rewrite (position_omap sp_address _ outs j o a).
Qed.
Lemma output_candidate j o a : outs !! j = Some o → sp_address o = Some a → ours a →
  ∃ x t, SpReceiving.candidate (receiver r) S (N.of_nat (number outs j a)) (lab a) x t ∧
    output tx !! j = Some (mkTxOut (Transaction.output_bitcoin_amount o) (SpReceiving.p2tr_spk x)) ∧ x ∈ output_keys.
Proof.
  intros Ho Ha Hours. destruct (Hmade j o a Ho Ha Hours) as (x & Hx & Hout).
  pose proof (paid_label j o a Ho Ha Hours) as Hl. apply lookup_lt_Some in Hl.
  destruct (output_key_candidate (receiver r) S (number outs j a) (lab a) a x) as [t Ht]; [| | |exact Hx|].
  - apply Hlab; [|done]. apply list_elem_of_omap. exists o. split; [by eapply list_elem_of_lookup_2|done].
  - lia.
  - apply (SpReceiving.nc_derivable _ _ _ _ Hnc). lia.
  - exists x, t. split_and!; [done..|]. apply list_elem_of_omap. eexists. split; [by eapply list_elem_of_lookup_2|].
    apply p2tr_output_key_spk.
Qed.
Lemma outputs_paid : SpReceiving.paid (receiver r) S output_keys paid_labels.
Proof.
  split.
  - intros n l Hn. unfold paid_labels in Hn. rewrite list_lookup_fmap in Hn. apply fmap_Some in Hn as (a & Hn & ->).
    destruct (omap_position _ _ _ _ _ Hn) as (j & o & Ho & Ha & Hours & ->).
    destruct (output_candidate j o a Ho Ha Hours) as (x & t & Hc & _ & Hx). exists x, t. split; [|done].
    unfold number in Hc. rewrite Hours in Hc. done.
  - intros n l x t Hn Hc Hx. by apply (SpReceiving.nc_only _ _ _ _ Hnc n l x t).
  - intros n Hn. by apply (SpReceiving.nc_derivable _ _ _ _ Hnc).
Qed.

(** The scan of such a transaction returns, and has every output that pays us, under
    its label, with its tweak. *)
Lemma payments_owned fuel prevouts : paid_labels ≠ [] → (length paid_labels + 2 ≤ fuel)%nat →
  shared_secret r tx prevouts = Ret (Ok (Some S)) →
  ∃ owned, sp_owned_outputs fuel r tx prevouts = Some (Ret (Ok owned)) ∧
    ∀ j o a, outs !! j = Some o → sp_address o = Some a → ours a →
      ∃ e, owned !! mkOutPoint (compute_txid tx) (N.of_nat j) = Some e ∧
        SpCoinStore.amount e = Transaction.output_bitcoin_amount o ∧ oo_label e = stored_label <$> lab a ∧
        ∀ b, public_key b = SpReceiving.spend_pubkey (receiver r) → tweak_spends b e.
Proof.
  intros Hne Hfuel Hsec. unfold sp_owned_outputs. fold output_keys. rewrite bool_decide_false.
  2: { assert (is_Some (paid_labels !! 0%nat)) as [l Hl].
       { apply lookup_lt_is_Some, Nat.neq_0_lt_0. by intros ?%length_zero_iff_nil. }
       destruct (SpReceiving.paid_out _ _ _ _ outputs_paid 0 l Hl) as (x & t & _ & Hx).
       intros Hnil. rewrite Hnil in Hx. by apply not_elem_of_nil in Hx. }
  rewrite Hsec. destruct (SpReceiving.scan_paid _ Hr S _ _ fuel outputs_paid Hfuel) as (found & Hs & Hfound).
  rewrite Hs. eexists. split; [done|]. intros j o a Ho Ha Hours.
  destruct (output_candidate j o a Ho Ha Hours) as (x & t & Hc & Hout & Hx).
  pose proof (paid_label j o a Ho Ha Hours) as Hl.
  destruct (proj2 (Hfound (lab a) x)) as [t0 Hin]; [by exists (number outs j a), t|].
  destruct (found_owned_keys _ _ _ _ Hin) as [[l' t'] Hk]. pose proof (owned_keys_found _ _ _ _ Hk) as Hin'.
  destruct (proj1 (Hfound l' x)) as (n' & t'' & Hn' & Hc'); [by exists t'|].
  assert (n' = number outs j a) as -> by (by apply (SpReceiving.nc_distinct _ _ _ _ Hnc) with (1 := Hn') (2 := Hl) (3 := Hc') (4 := Hc)).
  assert (l' = lab a) as -> by congruence.
  exists (mkOwnedOutput None (to_be_bytes t') (Transaction.output_bitcoin_amount o) (SpReceiving.p2tr_spk x)
            (stored_label <$> lab a) SpUnspent).
  split_and!; [|done..|].
  - rewrite owned_from_lookup. cbn [op_txid op_vout]. rewrite decide_True by (split; [done|lia]).
    rewrite N.sub_0_r, Nat2N.id, Hout. cbn [mbind option_bind]. unfold owned_output. cbn [script_pubkey txout_value].
    by rewrite p2tr_output_key_spk, Hk.
  - intros b Hb. destruct (SpReceiving.scan_sound _ Hr _ _ _ _ Hs _ _ _ Hin') as [_ [n Hcn]].
    apply (candidate_tweak_spends _ _ _ _ _ _ _ _ Hcn Hb); [done|]. apply p2tr_output_key_spk.
Qed.
End payment.

(** *** Properties *)

(** C2. A payment is received. Take a transaction the engine finalized with the secrets
    of a sender, signed by the owner of its coins. Every output that pays the address of
    an account, under any of its labels, several of them and mixed with others, is among
    the outputs the account finds in the transaction: with the amount asked for, under
    its label, and with a tweak that makes the account's spend key the key of the output.
    The scan of the transaction returns, within two turns more than there are payments.
    The hash must not collide by accident. *)
Theorem payment_received {R} `{!SameKeys} `{!SameKeysLaws} `{!RecipientProvider R} `{!SpOutputLaws R}
    (p : SpSecretProvider) (r : SpReceiver) (lab : SpCommon.SilentPaymentAddress → option SpReceiving.Label)
    sc so t change shuffle network pct amt skip (outs0 outs : list R) ins psbt tx b fuel :
  Transaction.prepare_outputs t change = Ok outs0 →
  Transaction.shuffle_maybe sc so t shuffle outs0 = (ins, outs) →
  Transaction.finalize sc so t change shuffle (Some (secret_provider p)) network pct amt skip = Ret (Ok psbt) →
  try_get_secret_spend_key (client p) = Ok b →
  Forall2 (signed_for b (xprivs p)) ins (input tx) → output tx = output (unsigned_tx psbt) →
  account_ok r →
  (∀ a, a ∈ omap sp_address outs → SpCommon.scan_pubkey a = SpReceiving.r_scan_pubkey (receiver r) →
    SpReceiving.pays (receiver r) (lab a) a) →
  paid_labels r lab outs ≠ [] → N.of_nat (length (paid_labels r lab outs)) < 2 ^ 32 →
  (∀ S, shared_secret r tx (Coin.txout <$> ins) = Ret (Ok (Some S)) →
    SpReceiving.no_collision (receiver r) S (output_keys tx) (paid_labels r lab outs)) →
  (length (paid_labels r lab outs) + 2 ≤ fuel)%nat →
  ∃ owned, sp_owned_outputs fuel r tx (Coin.txout <$> ins) = Some (Ret (Ok owned)) ∧
    ∀ j o a, outs !! j = Some o → sp_address o = Some a →
      SpCommon.scan_pubkey a = SpReceiving.r_scan_pubkey (receiver r) →
      ∃ e, owned !! mkOutPoint (compute_txid tx) (N.of_nat j) = Some e ∧
        SpCoinStore.amount e = Transaction.output_bitcoin_amount o ∧ oo_label e = stored_label <$> lab a ∧
        ∀ bs, public_key bs = spend_point (spend_key r) → tweak_spends bs e.
Proof.
  intros Hprep Hsh Hfin Hb Hsigned Hout [Hr Hscan Hspend] Hlab Hne Hnum Hnc Hfuel.
  destruct (finalize_pays p sc so t change shuffle network pct amt skip outs0 ins outs psbt Hprep Hsh Hfin)
    as [_ Hpays].
  destruct Hpays as (k & Hk & Hpays).
  { unfold paid_labels in Hne.
    destruct (filter (λ a, SpCommon.scan_pubkey a = SpReceiving.r_scan_pubkey (receiver r)) (omap sp_address outs))
      as [|a l] eqn:Hf; [done|].
    destruct (omap_position sp_address (λ a, SpCommon.scan_pubkey a = SpReceiving.r_scan_pubkey (receiver r)) outs 0 a)
      as (j & o & Ho & Ha & _); [by rewrite Hf|]. by apply (sp_outputs_silent outs j o a). }
  unfold provider_partial_secret in Hk. rewrite Hb in Hk. cbn [rmap_err qbind] in Hk.
  destruct (secret_shared b (xprivs p) ins tx k r Hk Hsigned Hscan) as (S & HS & Hsec).
  rewrite Hspend. apply (payments_owned r Hr lab outs tx S); [done|done| |by apply Hnc|done|done|done].
  intros j o a Ho Ha Hours. destruct (Hpays j o a Ho Ha) as (S' & x & HS' & Hx & Hxo).
  rewrite Hours, HS in HS'. injection HS' as <-. exists x. by rewrite Hout.
Qed.

(** C10. Nothing is taken for ours that we cannot spend. For any transaction, whoever
    made it, each output found is an output of that transaction, recorded unconfirmed and
    unspent with its amount and script, and its tweak makes the spend key the key of the
    script. *)
Theorem owned_outputs_spend fuel r tx prevouts owned : account_ok r →
  sp_owned_outputs fuel r tx prevouts = Some (Ret (Ok owned)) →
  ∀ op o, owned !! op = Some o →
    op_txid op = compute_txid tx ∧
    (∃ out, output tx !! N.to_nat (op_vout op) = Some out ∧
      oo_script o = script_pubkey out ∧ SpCoinStore.amount o = txout_value out) ∧
    blockheight o = None ∧ spend_status o = SpUnspent ∧
    ∀ b, public_key b = spend_point (spend_key r) → tweak_spends b o.
Proof. intros [Hr _ Hspend] Ho op o Hop. rewrite Hspend. by apply (owned_sound fuel r tx prevouts owned Hr Ho). Qed.
End owned_lemmas.

(** ** Lemmas: what is recorded *)

Section recorded.
Context `{L : Bitcoin.TxLib} `{CurveLaws} `{KL : !KeyLib} `{SL : !SpReceiving.ScriptLib} `{!SpReceiving.ScriptLaws}.
Context `{Build} `{BM : !BiMapLib SpReceiving.Label PublicKey} `{!BiMapLaws SpReceiving.Label PublicKey}.
Context {S : Type} `{!Store S OutPoint SpCoinStore.SpCoinEntry}.
Context `{!StoreLaws S OutPoint SpCoinStore.SpCoinEntry} `{!StoreTotal S OutPoint SpCoinStore.SpCoinEntry}.
Context {T : Type} `{!Store T Txid SpTxStore.SpTxEntry}.
Context {W : Type} `{!SpendRecorder W}.
Implicit Types st : Stores (S:=S) (T:=T) (W:=W).

(** The coins after a spend is recorded, from those before. *)
Definition coin_after (txid : Txid) (a : SpendAnalysis) (m : gmap OutPoint SpCoinStore.SpCoinEntry)
    (op : OutPoint) : option SpCoinStore.SpCoinEntry :=
  match m !! op with
  | Some e => Some (if decide (op ∈ sp_inputs a) then SpCoinStore.set_status (SpSpent txid None) e else e)
  | None => SpCoinStore.new op <$> sp_outputs a !! op
  end.

Lemma spend_inputs_view txid l : ∀ (c : S * list Notification.SpNotification) op,
  SpCoins.view (foldl (spend_input txid) c l).1 !! op =
    (λ e, if decide (op ∈ l) then SpCoinStore.set_status (SpSpent txid None) e else e) <$> SpCoins.view c.1 !! op.
Proof.
  induction l as [|o l IH]; intros c op; cbn [foldl].
  { destruct (SpCoins.view c.1 !! op); cbn; [|done]. by rewrite decide_False by apply not_elem_of_nil. }
  rewrite IH. unfold spend_input. cbn [fst]. rewrite SpCoins.mark_spent_view.
  destruct (decide (op = o)) as [->|Hne].
  - rewrite lookup_alter_eq. destruct (SpCoins.view c.1 !! o); cbn; [|done].
    rewrite (decide_True (P := o ∈ o :: l)) by left. by case_decide.
  - rewrite lookup_alter_ne by done. destruct (SpCoins.view c.1 !! op); cbn; [|done].
    destruct (decide (op ∈ l)) as [Hin|Hin].
    + by rewrite decide_True by by right.
    + rewrite decide_False; [done|]. by intros [->|?]%elem_of_cons.
Qed.
Lemma add_outputs_view l : ∀ (c : S * list Notification.SpNotification) op, NoDup l.*1 →
  SpCoins.view (foldl add_output c l).1 !! op =
    match SpCoins.view c.1 !! op with
    | Some e => Some e
    | None => SpCoinStore.new op <$> (list_to_map l : gmap OutPoint OwnedOutput) !! op
    end.
Proof.
  induction l as [|[o x] l IH]; intros c op Hnd; cbn [foldl list_to_map foldr fst snd].
  { rewrite lookup_empty. by destruct (SpCoins.view c.1 !! op). }
  cbn in Hnd. apply NoDup_cons in Hnd as [Ho Hnd]. rewrite IH by done. unfold add_output. cbn [fst snd].
  rewrite SpCoins.get_view. destruct (SpCoins.view c.1 !! o) as [e|] eqn:He; cbn [fst].
  - destruct (decide (op = o)) as [->|Hne]; [by rewrite He|]. by rewrite lookup_insert_ne.
  - rewrite SpCoins.insert_view. destruct (decide (op = o)) as [->|Hne].
    + rewrite !lookup_insert_eq, He. done.
    + by rewrite !lookup_insert_ne.
Qed.
Lemma record_coins_view txid a (c : S * list Notification.SpNotification) op :
  SpCoins.view (record_coins txid a c).1 !! op = coin_after txid a (SpCoins.view c.1) op.
Proof.
  unfold record_coins, coin_after. destruct (bool_decide (sp_inputs a = []) && bool_decide (sp_outputs a = ∅)) eqn:He.
  - apply andb_true_iff in He as [Hi%bool_decide_eq_true Ho%bool_decide_eq_true]. rewrite Hi, Ho.
    destruct (SpCoins.view c.1 !! op); [|by rewrite lookup_empty].
    rewrite decide_False by apply not_elem_of_nil. done.
  - cbn [fst]. rewrite SpCoins.persist_view, add_outputs_view by apply NoDup_bt_keys.
    rewrite spend_inputs_view, list_to_map_bt_items. by destruct (SpCoins.view c.1 !! op).
Qed.

(** The inputs that are ours, in order. *)
Lemma resolve_inputs_sp (c : S) subs l sp own prevouts : resolve_inputs c subs l = Ok (sp, own, prevouts) →
  sp = filter (λ o, is_Some (SpCoins.view c !! o)) (previous_output <$> l) ∧ length prevouts = length l.
Proof.
  revert sp own prevouts; induction l as [|i l IH]; intros sp own prevouts; cbn [resolve_inputs].
  { by intros [= <- <- <-]. }
  rewrite SpCoins.get_view. rewrite fmap_cons, filter_cons.
  destruct (SpCoins.view c !! previous_output i) as [e|] eqn:He.
  - intros ([[sp' own'] pv'] & Hr & [= <- <- <-])%rbind_Ok. destruct (IH _ _ _ Hr) as [-> Hl].
    rewrite decide_True by eauto. cbn. by rewrite Hl.
  - intros (coin & _ & Hr)%rbind_Ok. case_bool_decide; [done|].
    apply rbind_Ok in Hr as ([[sp' own'] pv'] & Hr & [= <- <- <-]). destruct (IH _ _ _ Hr) as [-> Hl].
    rewrite decide_False by (by intros [? ?]). cbn. by rewrite Hl.
Qed.

(** Every coin of a store can be spent by a key. *)
Definition coins_spendable (b : SecretKey) (c : S) : Prop :=
  ∀ op e, SpCoins.view c !! op = Some e → tweak_spends b (SpCoinStore.output e).

(** C15. Recording a transaction, when it returns, spends in the store exactly the
    account's coins among its inputs and adds exactly the outputs found in it that were
    not there yet, unspent; a coin a scan already confirmed is not overwritten, and
    whoever could spend every coin of the store with the spend key still can. *)
Theorem spend_recorded fuel r tx st st' txid : account_ok r →
  record_spend fuel r tx st = Some (Ret (Ok (st', txid))) →
  txid = compute_txid tx ∧
  (∃ sp_in sp_out, sp_in = filter (λ o, is_Some (SpCoins.view (coin_store st) !! o)) (previous_output <$> input tx) ∧
     (∃ prevouts, length prevouts = length (input tx) ∧
        sp_owned_outputs fuel r tx prevouts = Some (Ret (Ok sp_out))) ∧
     ∀ op, SpCoins.view (coin_store st') !! op =
       match SpCoins.view (coin_store st) !! op with
       | Some e => Some (if decide (op ∈ sp_in) then SpCoinStore.set_status (SpSpent txid None) e else e)
       | None => SpCoinStore.new op <$> sp_out !! op
       end) ∧
  (∀ b, public_key b = spend_point (spend_key r) → coins_spendable b (coin_store st) → coins_spendable b (coin_store st')).
Proof.
  intros [Hr _ Hspend]. unfold record_spend, analyze_unconfirmed_spend.
  destruct (resolve_inputs _ _ _) as [[[sp own] prevouts]|] eqn:Hres; [|done].
  destruct (sp_owned_outputs fuel r tx prevouts) as [[[owned|]|]|] eqn:Hown; [|done..].
  intros [= Hrec]. cbn [qbind] in Hrec. apply obind_Ret in Hrec as ([st1 t1] & Happ & [= -> ->]).
  unfold apply_unconfirmed_spend in Happ. apply obind_Ret in Happ as (ch & _ & Happ).
  destruct (record_coins _ _ _) as [c sent'] eqn:Hc. apply obind_Ret in Happ as (subs & _ & [= <- <-]).
  cbn [coin_store]. destruct (resolve_inputs_sp _ _ _ _ _ _ Hres) as [-> Hlen].
  assert (Hview : ∀ op, SpCoins.view c !! op = coin_after (compute_txid tx)
    (mkAnalysis (filter (λ o, is_Some (SpCoins.view (coin_store st) !! o)) (previous_output <$> input tx))
       (foldl (λ acc o, acc ∪ list_to_set (owners (recorders st) (script_pubkey o))) own (output tx)) owned)
    (SpCoins.view (coin_store st)) op).
  { intros op. replace c with (c, sent').1 by done. rewrite <-Hc. apply record_coins_view. }
  split; [done|]. split.
  - eexists _, owned. split; [done|]. split; [by exists prevouts|]. apply Hview.
  - intros b Hb Hcoins op e. rewrite Hview. unfold coin_after. cbn [sp_inputs sp_outputs].
    destruct (SpCoins.view (coin_store st) !! op) as [e0|] eqn:He0.
    + intros [= <-]. specialize (Hcoins op e0 He0). by case_decide.
    + intros (o & Ho & ->)%fmap_Some. rewrite Hspend in Hb. by apply (owned_sound fuel r tx prevouts owned Hr Hown op o Ho).
Qed.

(** *** A signature that looks like an annex *)

Lemma eligible_pubkeys_err l i p e : (i, p) ∈ l → SpReceiving.eligible_input_pubkey i p = Ret (Err e) →
  ∃ e', eligible_pubkeys l = Ret (Err e').
Proof.
  intros Hin He. induction l as [|[i' p'] l IH]; [by apply not_elem_of_nil in Hin|]. cbn [eligible_pubkeys].
  destruct (SpReceiving.eligible_returns i' p') as ([o|e'] & Hres & _); rewrite Hres; cbn; [|eauto].
  apply elem_of_cons in Hin as [[= <- <-]|Hin]; [congruence|]. destruct (IH Hin) as [e' ->]. cbn. eauto.
Qed.

(** A transaction cannot be broadcast when the signature of one of its taproot inputs
    happens to start with 0x50, as one in 256 does, and it has a taproot output: the
    only item of the witness is taken for an annex (BIP341 has one only next to another
    item), the analysis fails before the network is reached, and a failure is reported. *)
Theorem annex_blocks_broadcast fuel r broadcast tx st sp own prevouts j op sq sig value x :
  resolve_inputs (coin_store st) (recorders st) (input tx) = Ok (sp, own, prevouts) →
  input tx !! j = Some (mkTxIn op [] sq [sig]) → prevouts !! j = Some (mkTxOut value (SpReceiving.p2tr x)) →
  length x = 32%nat → length sig = 64%nat → head sig = Some 0x50 → output_keys tx ≠ [] →
  run fuel r broadcast tx st =
    Some (Ret (mkStores (coin_store st) (tx_store st) (recorders st) (sent st ++ [Notification.FailBroadcast]))).
Proof.
  intros Hres Hi Hp Hx _ Hsig Hout. unfold run, run_inner, analyze_unconfirmed_spend. rewrite Hres.
  unfold sp_owned_outputs. fold (output_keys tx). rewrite bool_decide_false by done. unfold shared_secret.
  destruct (eligible_pubkeys_err (zip (input tx) prevouts) (mkTxIn op [] sq [sig])
    (mkTxOut value (SpReceiving.p2tr x)) (SpCommon.InvalidInput "empty P2TR witness")) as [e He].
  { apply list_elem_of_lookup. exists j. rewrite lookup_zip_with, Hi. cbn. by rewrite Hp. }
  { by apply SpReceiving.annex_signature. }
  rewrite He. done.
Qed.
End recorded.

(** ** Witnesses *)

Module Witness.
Import SpPayment.Sample SpReceiving.Templates Persist.Persist.
#[local] Existing Instances Recipient.dyn_provider Recipient.dyn_laws.
#[local] Existing Instances SpCommon.SilentPaymentAddress_eqdec SpCommon.SilentPaymentAddress_countable.
#[local] Existing Instances Bitcoin.Sample.sample_lib Bitcoin.Sample.sample_build Toy.curve Toy.laws BiList.lib BiList.laws.

(** A decidable fact, computed. *)
Ltac by_decision := apply (bool_decide_eq_true_1 _); vm_compute; reflexivity.

(** A sender with two coins and the keys of both. *)
Abbreviation provider := (SpRecipientAddress + SpChangeRecipientProvider)%type.
Definition dummy : SpReceiver :=
  mkSpReceiver scan_key spend (SpReceiving.mkReceiver 0 scan_key scan_key (SpReceiving.mkLabel zero) bm_new SpCommon.Regtest)
    Bitcoin.Regtest.
Definition account_of (scan : SecretKey) (k : SpendKey) : SpReceiver :=
  match new_inner scan k Bitcoin.Regtest with Ret (Ok r) => r | _ => dummy end.
Definition sender : SpReceiver := account_of (small 20) (Secret (small 21)).
Definition secrets : SpSecretProvider := mkSecretProvider _ sender held.

(** The account paid: its address, and that of its change label. *)
Definition acct : SpReceiver := account_of scan_key spend.
Definition address_of (r : outcome SpCommon.SilentPaymentAddress) : SpCommon.SilentPaymentAddress :=
  match r with Ret a => a | Panic => SpCommon.mkAddress 1 one one SpCommon.Mainnet end.
Definition addr : SpCommon.SilentPaymentAddress := address_of (get_receiving_address acct).
Definition addr_change : SpCommon.SilentPaymentAddress := address_of (SpReceiving.get_change_address (receiver acct)).
Definition addr_sender : SpCommon.SilentPaymentAddress := address_of (SpReceiving.get_change_address (receiver sender)).
Definition lab (a : SpCommon.SilentPaymentAddress) : option SpReceiving.Label :=
  if decide (a = addr) then None else Some (SpReceiving.change_label (receiver acct)).

Definition pay (a : RecipientAddress) (v : N) : provider := inl (new_recipient_address a v Bitcoin.Regtest).
Definition template : Transaction.TxTemplate (R:=provider) :=
  Transaction.mkTemplate [wpkh_coin; tr_coin]
    [pay (SpAddress addr) 1000; pay (LegacyAddress [1; 2; 3]) 500; pay (SpAddress addr_change) 2000; pay (SpAddress addr) 3000]
    (Transaction.Sats 500) 300.
Definition change_out : provider := inr (Recipient.set_amount (new_change addr_sender Bitcoin.Regtest) (Recipient.Value 3000)).
Definition outs : list provider := Transaction.outputs template ++ [change_out].
Definition finalized : outcome (result Psbt Transaction.Error) :=
  Transaction.finalize (λ l, l) (λ l, l) template (Some change_out) false (Some (secret_provider secrets))
    Bitcoin.Regtest 10 2000000 false.
Definition empty : Psbt := mkPsbt _ (mkTransaction 2 0 [] []) 0 [] [].
Definition psbt : Psbt := match finalized with Ret (Ok p) => p | _ => empty end.

(** The coins spent. *)
Definition wpkh_key : SecretKey := key_at 4 3.
Definition tr_key : SecretKey := tweaked (key_at 2 5).
Definition tx : Transaction :=
  mkTransaction 2 0
    [mkTxIn (mkOutPoint 7 0) [] 0 ([[48; 1]] ++ [pk_serialize (public_key wpkh_key)]); mkTxIn (mkOutPoint 7 1) [] 0 [[1; 2; 3]]]
    (output (unsigned_tx psbt)).
Definition ins : list Coin := [wpkh_coin; tr_coin].
Definition spender : SecretKey := small 21.
Lemma inputs_signed : Forall2 (signed_for spender (xprivs secrets)) ins (input tx).
Proof.
  apply Forall2_cons. split; [|apply Forall2_cons; split; [|by apply Forall2_nil]]; (split; [reflexivity|]).
  - assert (bip352_input_key wpkh_coin spender (xprivs secrets) = Ok (Some (wpkh_key, false))) as ->
      by (vm_compute; reflexivity).
    apply (SpReceiving.Spends_p2wpkh wpkh_key).
  - assert (bip352_input_key tr_coin spender (xprivs secrets) = Ok (Some (tr_key, true))) as ->
      by (vm_compute; reflexivity).
    by apply (SpReceiving.Spends_p2tr tr_key).
Qed.

Definition shared : PublicKey :=
  match shared_secret acct tx (Coin.txout <$> ins) with Ret (Ok (Some s)) => s | _ => one end.
Lemma acct_made : new_inner scan_key spend Bitcoin.Regtest = Ret (Ok acct).
Proof.
  assert (made = true) as Hm by (vm_compute; reflexivity). unfold made, account in Hm. unfold acct, account_of.
  by destruct (new_inner scan_key spend Bitcoin.Regtest) as [[r|]|].
Qed.
Lemma acct_ok : account_ok acct.
Proof. apply (new_inner_ok _ _ _ _ acct_made). Qed.

Lemma shared_is s : shared_secret acct tx (Coin.txout <$> ins) = Ret (Ok (Some s)) → s = shared.
Proof. unfold shared. destruct (shared_secret acct tx (Coin.txout <$> ins)) as [[[x|]|]|]; congruence. Qed.
Lemma no_accident : SpReceiving.no_collision (receiver acct) shared (output_keys tx) (paid_labels acct lab outs).
Proof.
  apply SpReceiving.no_collision_checked; [exact (ao_receiver _ acct_ok)|]. vm_compute. reflexivity.
Qed.
Lemma finalized_psbt : finalized = Ret (Ok psbt).
Proof.
  assert (match finalized with Ret (Ok _) => true | _ => false end = true) as Hf by (vm_compute; reflexivity).
  unfold psbt. by destruct finalized as [[p|]|].
Qed.

Lemma prepared : Transaction.prepare_outputs template (Some change_out) = Ok outs.
Proof. reflexivity. Qed.
Lemma unshuffled : Transaction.shuffle_maybe (λ l, l) (λ l, l) template false outs = (ins, outs).
Proof. reflexivity. Qed.
Lemma sender_secret : try_get_secret_spend_key (client secrets) = Ok spender.
Proof. vm_compute. reflexivity. Qed.
Lemma tx_outputs : output tx = output (unsigned_tx psbt).
Proof. reflexivity. Qed.
Lemma addresses : omap sp_address outs = [addr; addr_change; addr; addr_sender].
Proof. by_decision. Qed.
Lemma label_change : lab addr_change = Some (SpReceiving.change_label (receiver acct)).
Proof. by_decision. Qed.
Lemma labels_pay a : a ∈ omap sp_address outs →
  SpCommon.scan_pubkey a = SpReceiving.r_scan_pubkey (receiver acct) → SpReceiving.pays (receiver acct) (lab a) a.
Proof.
  intros Ha Hscan. rewrite addresses in Ha. apply list_elem_of_In in Ha.
  destruct (SpReceiving.receiving_address_pays (receiver acct)) as (a1 & Ha1 & Hp1).
  destruct (SpReceiving.change_address_pays (receiver acct) (ao_receiver _ acct_ok)) as (a2 & Ha2 & Hp2).
  assert (addr = a1) as H1' by (unfold addr, get_receiving_address; by rewrite Ha1).
  assert (addr_change = a2) as H2' by (unfold addr_change; by rewrite Ha2). rewrite <-H1' in Hp1. rewrite <-H2' in Hp2.
  assert (lab addr = None) as Hl1 by by_decision.
  destruct Ha as [<-|[<-|[<-|[<-|[]]]]];
    [rewrite Hl1; exact Hp1|rewrite label_change; exact Hp2|rewrite Hl1; exact Hp1|].
  exfalso. revert Hscan. apply (bool_decide_eq_false_1 _). vm_compute. reflexivity.
Qed.
Lemma some_paid : paid_labels acct lab outs ≠ [].
Proof. by_decision. Qed.
Lemma few_paid : length (paid_labels acct lab outs) = 3%nat.
Proof. by_decision. Qed.
Lemma spend_secret_acct : public_key spend_secret = spend_point (spend_key acct).
Proof. by_decision. Qed.
Lemma third_out : outs !! 2%nat = Some (pay (SpAddress addr_change) 2000).
Proof. reflexivity. Qed.
Lemma third_address : sp_address (pay (SpAddress addr_change) 2000) = Some addr_change.
Proof. by_decision. Qed.
Lemma third_ours : SpCommon.scan_pubkey addr_change = SpReceiving.r_scan_pubkey (receiver acct).
Proof. by_decision. Qed.

(** Among four payments three are ours, one of them to the change label. *)
Lemma payment_received_witness :
  ∃ owned, sp_owned_outputs 5 acct tx (Coin.txout <$> ins) = Some (Ret (Ok owned)) ∧
    ∃ e, owned !! mkOutPoint (compute_txid tx) 2 = Some e ∧ SpCoinStore.amount e = 2000 ∧
      oo_label e = Some (stored_label (SpReceiving.change_label (receiver acct))) ∧ tweak_spends spend_secret e.
Proof.
  destruct (payment_received (R:=provider) secrets acct lab (λ l, l) (λ l, l) template (Some change_out) false
    Bitcoin.Regtest 10 2000000 false outs outs ins psbt tx spender 5) as (owned & Ho & Hfound).
  - exact prepared.
  - exact unshuffled.
  - exact finalized_psbt.
  - exact sender_secret.
  - exact inputs_signed.
  - exact tx_outputs.
  - exact acct_ok.
  - exact labels_pay.
  - exact some_paid.
  - rewrite few_paid. done.
  - intros s Hs. rewrite (shared_is s Hs). exact no_accident.
  - rewrite few_paid. done.
  - exists owned. split; [exact Ho|].
    destruct (Hfound 2%nat _ _ third_out third_address third_ours) as (e & He & Ham & Hlab & Hspend).
    exists e. split; [exact He|]. split; [exact Ham|]. rewrite Hlab, label_change.
    split; [reflexivity|]. exact (Hspend _ spend_secret_acct).
Defined.

Definition found : gmap OutPoint OwnedOutput :=
  match sp_owned_outputs 5 acct tx (Coin.txout <$> ins) with Some (Ret (Ok owned)) => owned | _ => ∅ end.
Lemma found_outputs : sp_owned_outputs 5 acct tx (Coin.txout <$> ins) = Some (Ret (Ok found)).
Proof.
  assert (match sp_owned_outputs 5 acct tx (Coin.txout <$> ins) with Some (Ret (Ok _)) => true | _ => false end = true)
    as Hf by (vm_compute; reflexivity).
  unfold found. by destruct (sp_owned_outputs 5 acct tx (Coin.txout <$> ins)) as [[[o|]|]|].
Qed.
Lemma found_three : size found = 3%nat.
Proof. by_decision. Qed.
Lemma owned_outputs_spend_witness :
  sp_owned_outputs 5 acct tx (Coin.txout <$> ins) = Some (Ret (Ok found)) ∧ size found = 3%nat ∧
  ∀ op o, found !! op = Some o → tweak_spends spend_secret o.
Proof.
  split; [exact found_outputs|]. split; [exact found_three|]. intros op o Ho.
  destruct (owned_outputs_spend 5 acct tx (Coin.txout <$> ins) found acct_ok found_outputs op o Ho) as (_ & _ & _ & _ & Hs).
  exact (Hs _ spend_secret_acct).
Defined.

(** A sub-account that holds coins. *)
#[local] Instance coins_recorder : SpendRecorder (list Coin) := {|
  get_coin l o := snd <$> list_find (λ c, Coin.outpoint c = o) l;
  address_scripts l := (λ c, script_pubkey (Coin.txout c)) <$> l;
  record_unconfirmed_spend _ l := Ret l
|}.
Definition coins0 : RamStore unit OutPoint SpCoinStore.SpCoinEntry := SpCoinStore.new_store (λ _, ""%string) (λ _, Ok []).
Definition txs0 : RamStore unit Txid SpTxStore.SpTxEntry := SpTxStore.new_store (λ _, ""%string) (λ _, Ok []).
Definition stores : Stores (S:=RamStore unit OutPoint SpCoinStore.SpCoinEntry)
    (T:=RamStore unit Txid SpTxStore.SpTxEntry) (W:=list Coin) :=
  mkStores coins0 txs0 [ins] [].

(** The payment recorded by the account itself, from the coins of its sub-account. *)
Lemma spend_recorded_witness : ∃ st', record_spend 5 acct tx stores = Some (Ret (Ok (st', compute_txid tx))) ∧
  coins_spendable spend_secret (coin_store st').
Proof.
  assert (match record_spend 5 acct tx stores with Some (Ret (Ok _)) => true | _ => false end = true)
    as Hf by (vm_compute; reflexivity).
  destruct (record_spend 5 acct tx stores) as [[[[st' txid]|]|]|] eqn:Hr; [|done..]. clear Hf.
  destruct (spend_recorded 5 acct tx stores st' txid acct_ok Hr) as (-> & _ & Hs). exists st'. split; [reflexivity|].
  apply (Hs _ spend_secret_acct). intros op e He.
  change (SpCoins.view (coin_store stores)) with (∅ : gmap OutPoint SpCoinStore.SpCoinEntry) in He.
  by rewrite lookup_empty in He.
Defined.

(** The same transaction but for its second signature. *)
Definition bad_sig : list N := 0x50 :: replicate 63 7.
Definition bad_tx : Transaction :=
  mkTransaction 2 0
    [mkTxIn (mkOutPoint 7 0) [] 0 ([[48; 1]] ++ [pk_serialize (public_key wpkh_key)]); mkTxIn (mkOutPoint 7 1) [] 0 [bad_sig]]
    (output (unsigned_tx psbt)).
Definition tr_x : list N := xonly_serialize (out_key (2, 5)).
Lemma annex_blocks_broadcast_witness : run 5 acct (λ _, Ok tt) bad_tx stores =
  Some (Ret (mkStores coins0 txs0 [ins] [Notification.FailBroadcast])).
Proof.
  destruct (resolve_inputs (coin_store stores) (recorders stores) (input bad_tx)) as [[[sp own] prevouts]|] eqn:Hr.
  2: { exfalso. vm_compute in Hr. discriminate. }
  assert (prevouts = Coin.txout <$> ins) as Hp.
  { vm_compute in Hr. injection Hr as _ _ <-. vm_compute. reflexivity. }
  apply (annex_blocks_broadcast 5 acct (λ _, Ok tt) bad_tx stores sp own prevouts 1 (mkOutPoint 7 1) 0 bad_sig 5000 tr_x Hr);
    [reflexivity|rewrite Hp; vm_compute; reflexivity|reflexivity..|].
  by_decision.
Defined.
End Witness.
End SpAccount.
