(* ===== verification/SpWallet.v ===== *)
(** * The wallet of a silent-payment account (sp/src/account/mod.rs, tx/src/template.rs)

    An account over its stores, its sub-accounts and their signers: what it owns, its
    payments, the transactions it is asked for and their signatures. A request is a
    record anyone may write; the builder, the engine and the recipients it is turned
    into are those of [TxBuilder], [Transaction] and [SpPayment]. *)
From Stdlib Require Import Lia ZArith SpecFloat.
From stdpp Require Import base countable strings gmap sets list.
From S2P Require Import Prelude Bytes Bitcoin Coin Persist HeaderValidator HeaderStore Notification.
From S2P Require Import TxStore Derivator AddressStore Claims CoinStore History.
From S2P Require Import CoinSelection Recipient Transaction TxBuilder.
From S2P Require Import SpCurve SpCommon SpReceiving SpPayment HotSigner SpCoinStore SpTxStore SpAccount.

Module SpWallet.
Import Recipient SpPayment SpAccount.
Import Persist(Store, StoreLaws, StoreTotal).
#[local] Existing Instances SpReceiving.Label_eqdec SpReceiving.Label_countable.

Abbreviation OwnCoin := SpCoinStore.SpCoinEntry.
Abbreviation Template := Transaction.TxTemplate.
Abbreviation BuildError := Transaction.Error.
Abbreviation TxContribution := History.TxContribution.

(** ** Floats

    A fee rate is an [f64]: IEEE 754 binary64. *)
Definition f64_one : spec_float := S754_finite false 4503599627370496 (-52).
Definition f64_thousand : spec_float := S754_finite false 8796093022208000 (-43).
(** [f64::max]: the other operand when one is not a number. *)
Definition f64_max (a b : spec_float) : spec_float :=
  match a, b with
  | S754_nan, _ => b
  | _, S754_nan => a
  | _, _ => match SFcompare a b with Some Lt => b | _ => a end
  end.
Definition f64_mul : spec_float → spec_float → spec_float := SFmul 53 1024.
(** [as u64]: truncates and saturates, and what is not a number is 0. *)
Definition f64_as_u64 (x : spec_float) : N :=
  match x with
  | S754_infinity false => u64_max
  | S754_finite false m e => N.min (Z.to_N (Z.shiftl (Zpos m) e)) u64_max
  | _ => 0
  end.

(** ** Requests *)

Record TxOutputSpec := mkOutputSpec {
  os_address : string;
  os_amount : N;
  os_label : option string;
  os_max : bool
}.
Record TxRequest := mkRequest {
  outputs : list TxOutputSpec;
  fee_rate : spec_float;
  fee : N;
  input_outpoints : list OutPoint;
  dust_threshold : option N
}.
Record TxSimulation := mkSimulation {
  sim_fee : N;
  weight : N;
  input_total : N;
  output_total : N;
  selected_outpoints : list OutPoint
}.
(** [enum TxRequestError]. *)
Inductive TxRequestError :=
  | InvalidAddress (address : string) (source : ReceiverError)
  | MultipleMaxOutputs
  | CoinNotFound (o : OutPoint)
  | CoinNotSpendable (o : OutPoint)
  | InsufficientFunds
  | Builder (e : BuildError).
Definition request_error (e : BuildError) : TxRequestError :=
  match e with Transaction.ECoinSelection => InsufficientFunds | other => Builder other end.

(** [max(1.0) * 1000.0], as an integer. *)
Definition feerate_msats_vb (request : TxRequest) : N :=
  f64_as_u64 (f64_mul (f64_max (fee_rate request) f64_one) f64_thousand).

(** [Amount]s are added with a check in every build; their sums are those of their
    integers. *)
Definition amount_add (a b : N) : outcome N := if a + b <? 2 ^ 64 then Ret (a + b) else Panic.

(** ** Sub-accounts *)

(** [ElectrumScanner], what the account asks of it: its coins, those it offers a builder,
    the totals of the spendable ones (count and value, confirmed and not), its balance
    and what it owns of each transaction. *)
Class Scanner `{L : Bitcoin.TxLib} (W : Type) := {
  scanner_kind : W → Notification.SubAccountKind;
  scanner_coins : W → gmap OutPoint Coin;
  scanner_source : W → outcome (list Coin);
  scanner_totals : W → outcome ((N * N) * (N * N));
  scanner_balance : W → outcome N;
  scanner_contributions : W → outcome (gmap Txid TxContribution)
}.
(** Coins are filed under their outpoints; one a builder is offered is one the scanner
    has, and is not spent. *)
Class ScannerLaws `{L : Bitcoin.TxLib} (W : Type) `{!Scanner W} := {
  scanner_ok : W → Prop;
  scanner_filed w o c : scanner_ok w → scanner_coins w !! o = Some c → Coin.outpoint c = o;
  scanner_source_coins w l c : scanner_ok w → scanner_source w = Ret l → c ∈ l →
    scanner_coins w !! Coin.outpoint c = Some c ∧ Coin.status c ≠ Coin.Spent
}.

(** The coin store of an Electrum scanner is such a sub-account, and records spends for
    its account. *)
Section coin_store_scanner.
Context `{Build} `{DL : Derivator.DescriptorLib} `{TC : !AddressStore.Tip.TipCodec}.
Context {A : Type} `{!Store A string bytes} {S : Type} `{!Store S Txid TxStore.TxEntry} {Lb : Type} `{!Store Lb TxStore.LabelKey string}.
Context (kind_of : Descriptor → Notification.SubAccountKind) (show_txid : Txid → string).
Abbreviation Sub := (CoinStore.CoinStore (A:=A) (S:=S) (L:=Lb)).
Implicit Types s : Sub.

Definition coin_store_scanner : Scanner Sub := {|
  scanner_kind s := kind_of (Derivator.descriptor (CoinStore.derivator s));
  scanner_coins s := CoinStore.coin <$> CoinStore.store s;
  scanner_source s := let! st := CoinStore.spendable_coins s in Ret (bt_values (CoinStore.state_coins st));
  scanner_totals s :=
    let! st := CoinStore.spendable_coins s in
    Ret ((N.of_nat (CoinStore.confirmed_coins st), CoinStore.confirmed_balance st),
         (N.of_nat (CoinStore.unconfirmed_coins st), CoinStore.unconfirmed_balance st));
  scanner_balance s := let! b := History.balance show_txid s in Ret b.1;
  scanner_contributions s := History.tx_contributions s
|}.
Definition coin_store_recorder : SpendRecorder Sub := {|
  SpAccount.get_coin s o := CoinStore.coin <$> CoinStore.store s !! o;
  address_scripts s := AddressStore.entry_script <$> AddressStore.entries (CoinStore.address_store s);
  SpAccount.record_unconfirmed_spend tx s := CoinStore.record_unconfirmed_tx tx s
|}.

Lemma inserted_coins (l : list CoinStore.CoinEntry) (m : gmap OutPoint Coin) o c :
  foldl (λ m e, <[Coin.outpoint (CoinStore.coin e) := CoinStore.coin e]> m) m l !! o = Some c →
  m !! o = Some c ∨ ∃ e, e ∈ l ∧ c = CoinStore.coin e.
Proof.
  revert m; induction l as [|e l IH]; intros m; cbn [foldl]; [by left|].
  intros [Hm|(e' & Hin & Hc)]%IH; [|right; exists e'; split; [by right|done]].
  destruct (decide (o = Coin.outpoint (CoinStore.coin e))) as [->|Hne].
  - rewrite lookup_insert_eq in Hm. injection Hm as <-. right. exists e. split; [left|done].
  - rewrite lookup_insert_ne in Hm by done. by left.
Qed.
#[local] Existing Instance coin_store_scanner.
Lemma coin_store_laws : ScannerLaws Sub.
Proof.
  refine (Build_ScannerLaws _ _ _ (λ s, ∀ o e, CoinStore.store s !! o = Some e → Coin.outpoint (CoinStore.coin e) = o) _ _).
  - intros s o c Hs. cbn. rewrite lookup_fmap. intros (e & He & ->)%fmap_Some. by apply Hs.
  - intros s l c Hs. cbn. unfold CoinStore.spendable_coins. intros (st & Hst & [= <-])%obind_Ret Hc.
    apply obind_Ret in Hst as (st' & _ & [= <-]). apply elem_of_bt_values in Hc as [o Hc]. cbn in Hc.
    apply inserted_coins in Hc as [Hc|(e & He & ->)]; [by rewrite lookup_empty in Hc|].
    rewrite sort_by_perm in He. apply list_elem_of_In, filter_In in He as [He Hsp].
    apply list_elem_of_In, elem_of_bt_values in He as [o' He]. rewrite lookup_fmap, (Hs _ _ He), He.
    split; [done|]. unfold CoinStore.is_spendable in Hsp. by destruct (Coin.status (CoinStore.coin e)).
Qed.
End coin_store_scanner.

(** ** The account *)

Section wallet.
Context `{L : Bitcoin.TxLib} `{Cv : Curve} `{KL : !KeyLib} `{SK : !SameKeys} `{PL : !PaymentLib} `{Build}.
Context `{BM : !BiMapLib SpReceiving.Label PublicKey}.
Context {S : Type} `{!Store S OutPoint OwnCoin}.
Context {T : Type} `{!Store T Txid SpTxStore.SpTxEntry}.
Context {Lb : Type} `{!Store Lb TxStore.LabelKey string}.
Context `{HeaderValidator.HeaderLib} {SH : Type} `{!Store SH N HeaderValidator.raw_header}.
Context `{SG : !SignLib} `{SR : !HotSigner.SignerLib} `{DL : !Derivator.DescriptorLib}.
Context {J : Type} `{!Store J Fingerprint HotSigner.JsonSigner}.
Context {W : Type} `{!Scanner W}.

(** [struct Account]; [mnemonic] is that of its configuration. *)
Record Account := mkAccount {
  sp_receiver : SpReceiver;
  coin_store : S;
  label_store : Lb;
  tx_store : T;
  header_store : option (HeaderStore.HeaderStore (S:=SH));
  network : BtcNetwork;
  sub_accounts : list W;
  signing_manager : HotSigner.SigningManager (S:=J);
  mnemonic : option string
}.
Definition set_label_store (l : Lb) (a : Account) : Account :=
  mkAccount (sp_receiver a) (coin_store a) l (tx_store a) (header_store a) (network a) (sub_accounts a)
    (signing_manager a) (mnemonic a).

Definition sp_address (a : Account) : outcome SpCommon.SilentPaymentAddress := get_receiving_address (sp_receiver a).
Definition coins (a : Account) : gmap OutPoint OwnCoin := SpCoinStore.coins (coin_store a).
Definition get_coin (a : Account) (o : OutPoint) : option OwnCoin := SpCoinStore.get (coin_store a) o.
Definition spendable_coins (a : Account) : outcome SpCoinStore.CoinState := SpCoinStore.spendable_coins (coin_store a).
Definition balance (a : Account) : outcome N :=
  let! s := spendable_coins a in Ret (SpCoinStore.confirmed_balance s).
Definition tx_history (a : Account) : list SpTxStore.SpTxEntry := SpTxStore.transactions (tx_store a).
Definition sp_master_xpriv (a : Account) : option (Fingerprint * Xpriv) :=
  match mnemonic a with
  | Some text =>
      m ← HotSigner.mnemonic_from_str text;
      x ← HotSigner.master_from_mnemonic (network a) m;
      Some (HotSigner.fingerprint_of x, x)
  | None => None
  end.
Definition master_xprivs (a : Account) : gmap Fingerprint Xpriv :=
  let xprivs := HotSigner.master_xprivs (signing_manager a) in
  match sp_master_xpriv a with Some (fg, xpriv) => <[fg := xpriv]> xprivs | None => xprivs end.
(** The signer of a sub-account: one that is there keeps its descriptors. *)
Definition register_sub_signer (m : HotSigner.SigningManager (S:=J)) (network : BtcNetwork) (mnemonic : string)
    (d : Descriptor) : result (HotSigner.SigningManager (S:=J)) AccountError :=
  try! signer := rmap_err (λ _, SubAccountMnemonic) (HotSigner.new_from_mnemonics network mnemonic) in
  let m := if HotSigner.has_bip32_signer (HotSigner.fingerprint signer) m then m else HotSigner.add_bip32_signer signer m in
  Ok (HotSigner.register_bip32_descriptor d m).
Definition can_sign (a : Account) : bool :=
  match try_get_secret_spend_key (sp_receiver a) with Ok _ => true | Err _ => false end.

(** *** Labels *)

Definition label_value (label : string) : option string := if bool_decide (label = ""%string) then None else Some label.
Definition update_coin_label (o : OutPoint) (label : string) (a : Account) : Account :=
  set_label_store (TxStore.label_persist (TxStore.label_edit (TxStore.LOutPoint o) (label_value label) (label_store a))) a.
Definition update_tx_label (txid : Txid) (label : string) (a : Account) : Account :=
  set_label_store (TxStore.label_persist (TxStore.label_edit (TxStore.LTransaction txid) (label_value label) (label_store a))) a.
Definition get_coin_label (a : Account) (o : OutPoint) : option string := TxStore.label_outpoint (label_store a) o.

(** *** Payments *)

Abbreviation Contributions := (gmap Txid TxContribution).
Definition entry_or_default (m : Contributions) (txid : Txid) : TxContribution :=
  default History.contribution_default (m !! txid).
(** A coin is an output we own, and an input of the transaction it is spent in. *)
Definition receive_coin (e : OwnCoin) (c : TxContribution) : TxContribution :=
  History.mkContribution (History.owned_in c) (sat_add u64_max (History.owned_out c) (SpCoinStore.amount_sat e))
    ({[op_vout (SpCoinStore.outpoint e)]} ∪ History.owned_vouts c)
    (History.or_else (History.c_height c) (SpCoinStore.height e))
    (match SpCoinStore.height e with
     | Some _ => CoinStore.payment_status_merge (History.c_status c) CoinStore.PVerified
     | None => History.c_status c
     end)
    (History.c_timestamp c) (History.c_label c) (History.c_tx c).
Definition spend_coin (e : OwnCoin) (c : TxContribution) : TxContribution :=
  History.mkContribution (sat_add u64_max (History.owned_in c) (SpCoinStore.amount_sat e)) (History.owned_out c)
    (History.owned_vouts c) (History.c_height c) (History.c_status c) (History.c_timestamp c) (History.c_label c)
    (History.c_tx c).
Definition coin_contribution (m : Contributions) (e : OwnCoin) : Contributions :=
  let txid := op_txid (SpCoinStore.outpoint e) in
  let m := <[txid := receive_coin e (entry_or_default m txid)]> m in
  match SpCoinStore.status e with
  | SpSpent spent_in _ => <[spent_in := spend_coin e (entry_or_default m spent_in)]> m
  | _ => m
  end.
(** What the transaction store adds: the transaction, its height and time, and the
    change of a send no coin stands for yet. *)
Definition tx_contribution (hs : option (HeaderStore.HeaderStore (S:=SH))) (m : Contributions)
    (e : SpTxStore.SpTxEntry) : Contributions :=
  let c := entry_or_default m (SpTxStore.txid e) in
  let time :=
    History.or_else (SpTxStore.timestamp e)
      (match hs, SpTxStore.height e with Some hs, Some h => SpTxStore.header_time hs h | _, _ => None end) in
  <[SpTxStore.txid e := History.mkContribution (History.owned_in c)
      (if (0 <? SpTxStore.change e) && (History.owned_out c =? 0) then SpTxStore.change e else History.owned_out c)
      (History.owned_vouts c)
      (History.or_else (SpTxStore.height e) (History.c_height c))
      (match SpTxStore.height e with
       | Some _ => CoinStore.payment_status_merge (History.c_status c) CoinStore.PVerified
       | None => History.c_status c
       end)
      (History.or_else (History.c_timestamp c) time)
      (History.c_label c)
      (History.or_else (History.c_tx c) (SpTxStore.tx e))]> m.
Definition label_contribution (labels : Lb) (txid : Txid) (c : TxContribution) : TxContribution :=
  let label :=
    History.or_else (TxStore.label_transaction labels txid)
      (head (omap (λ vout, TxStore.label_outpoint labels (mkOutPoint txid vout))
        (sort_by key_leb (elements (History.owned_vouts c))))) in
  History.mkContribution (History.owned_in c) (History.owned_out c) (History.owned_vouts c) (History.c_height c)
    (History.c_status c) (History.c_timestamp c) (History.or_else (History.c_label c) label) (History.c_tx c).
Definition tx_contributions (a : Account) : Contributions :=
  let m := foldl coin_contribution ∅ (bt_values (coins a)) in
  let m := foldl (tx_contribution (header_store a)) m (SpTxStore.transactions (tx_store a)) in
  map_imap (λ txid c, Some (label_contribution (label_store a) txid c)) m.
Definition payment_history (a : Account) : outcome (list History.Payment) :=
  let! subs := omapM scanner_contributions (sub_accounts a) in
  Ret (History.aggregate_payments txid_to_string (tx_contributions a :: subs)).

(** *** Coins *)

Record UnifiedCoin := mkUnifiedCoin {
  uc_origin : Notification.CoinOrigin;
  uc_outpoint : OutPoint;
  uc_amount : N;
  uc_height : option N;
  uc_spendable : bool;
  uc_label : option string
}.
Definition unified_sp (a : Account) (c : OutPoint * OwnCoin) : UnifiedCoin :=
  mkUnifiedCoin Notification.Sp c.1 (SpCoinStore.amount_sat c.2) (SpCoinStore.height c.2)
    (SpCoinStore.is_spendable c.2) (get_coin_label a c.1).
(** Neither spent nor being spent. *)
Definition live (c : Coin) : bool := match Coin.status c with Coin.Spent | Coin.BeingSpend => false | _ => true end.
Definition unified_sub (a : Account) (index : nat) (sub : W) (c : OutPoint * Coin) : UnifiedCoin :=
  mkUnifiedCoin (Notification.SubAccount index (scanner_kind sub)) c.1 (txout_value (Coin.txout c.2))
    ((λ h, h mod 2 ^ 32) <$> Coin.height c.2) (live c.2) (get_coin_label a c.1).
Definition all_coins (a : Account) : gmap OutPoint UnifiedCoin :=
  let out := (λ c, (c.1, unified_sp a c)) <$> bt_items (coins a) in
  let subs := mjoin (imap (λ i sub, (λ c, (c.1, unified_sub a i sub c)) <$> bt_items (scanner_coins sub)) (sub_accounts a)) in
  foldl (λ m kv, <[kv.1 := kv.2]> m) ∅ (out ++ subs).

Record SpendableSummary := mkSummary {
  confirmed_count : N;
  confirmed_balance : N;
  unconfirmed_count : N;
  unconfirmed_balance : N
}.
Definition add_totals (s : SpendableSummary) (sub : W) : outcome SpendableSummary :=
  let! t := scanner_totals sub in
  let! cc := add64 (confirmed_count s) t.1.1 in
  let! cb := amount_add (confirmed_balance s) t.1.2 in
  let! uc := add64 (unconfirmed_count s) t.2.1 in
  let! ub := amount_add (unconfirmed_balance s) t.2.2 in
  Ret (mkSummary cc cb uc ub).
Definition all_spendable_coins (a : Account) : outcome SpendableSummary :=
  let! sp := spendable_coins a in
  ofold add_totals
    (mkSummary (N.of_nat (SpCoinStore.confirmed_coins sp)) (SpCoinStore.confirmed_balance sp)
       (N.of_nat (SpCoinStore.unconfirmed_coins sp)) (SpCoinStore.unconfirmed_balance sp)) (sub_accounts a).
Definition total_balance (a : Account) : outcome N :=
  let! sp := spendable_coins a in
  let! sp_balance := add64 (SpCoinStore.confirmed_balance sp) (SpCoinStore.unconfirmed_balance sp) in
  let! balances := omapM scanner_balance (sub_accounts a) in
  let! bip32_balance := sum64 balances in
  add64 sp_balance bip32_balance.

(** *** Transactions *)

Context (random_range : nat → nat → nat).
Abbreviation provider := (Recipient + (SpRecipientAddress + SpChangeRecipientProvider))%type.
Context (shuffle_coins : list Coin → list Coin) (shuffle_outputs : list provider → list provider).
(** The account keeps the default selector. *)
#[export] Instance no_selector : CoinSelection.CoinSelector Empty_set := λ s, match s with end.
(** The coins of a builder: those its source gives, which nothing changes while it is
    used. *)
#[export] Instance coin_list : Transaction.CoinSource (list Coin) := λ l, l.
Abbreviation AccountBuilder := (TxBuilder.TxBuilder (P:=SpRecipientAddress + SpChangeRecipientProvider) (S:=Empty_set) (Src:=list Coin)).

Definition tx_builder (a : Account) : outcome AccountBuilder :=
  let! change_addr := SpReceiving.get_change_address (receiver (sp_receiver a)) in
  let! bip32_sources := omapM scanner_source (sub_accounts a) in
  let! merged_source := SpCoinStore.merged_coins bip32_sources (coin_store a) in
  let b := TxBuilder.builder_new (inr (inr (new_change change_addr (network a)))) in
  Ret (TxBuilder.set_sp_provider (TxBuilder.set_coin_source b merged_source)
         (secret_provider (mkSecretProvider _ (sp_receiver a) (master_xprivs a)))).

(** The outputs: the recipients with an amount, and the address that takes the rest. *)
Fixpoint parse_outputs (net : BtcNetwork) (l : list TxOutputSpec) (max_addr : option RecipientAddress) :
    result (option RecipientAddress * list SpRecipientAddress) TxRequestError :=
  match l with
  | [] => Ok (max_addr, [])
  | output :: l =>
      try! addr := rmap_err (InvalidAddress (os_address output)) (parse (os_address output) net) in
      if os_max output then
        match max_addr with Some _ => Err MultipleMaxOutputs | None => parse_outputs net l (Some addr) end
      else
        try! (max_addr, recipients) := parse_outputs net l max_addr in
        Ok (max_addr, new_recipient_address addr (os_amount output) net :: recipients)
  end.
Definition max_recipient (addr : RecipientAddress) (net : BtcNetwork) : SpRecipientAddress :=
  Recipient.set_amount (new_recipient_address addr 0 net) (Max None).
Definition out_of (r : SpRecipientAddress) : provider := inr (inl r).

Definition sp_coin_entry_to_coin (outpoint : OutPoint) (entry : OwnCoin) : Coin :=
  Coin.mkCoin (mkTxOut (SpCoinStore.amount_sat entry) (oo_script (SpCoinStore.output entry))) outpoint
    (SpCoinStore.height entry) SpCoinStore.ENABLE_RBF_NO_LOCKTIME (SpCoinStore.coin_status entry) None
    Coin.TAPROOT_KEYSPEND_SATISFACTION_WU (Coin.Sp [] (tweak (SpCoinStore.output entry))).
(** A coin asked for by its outpoint. *)
Fixpoint sub_coin (subs : list W) (o : OutPoint) : result Coin TxRequestError :=
  match subs with
  | [] => Err (CoinNotFound o)
  | sub :: subs =>
      match scanner_coins sub !! o with
      | Some c => if live c then Ok c else Err (CoinNotSpendable o)
      | None => sub_coin subs o
      end
  end.
Definition requested_coin (a : Account) (o : OutPoint) : result Coin TxRequestError :=
  match coins a !! o with
  | Some entry => if SpCoinStore.is_spendable entry then Ok (sp_coin_entry_to_coin o entry) else Err (CoinNotSpendable o)
  | None => sub_coin (sub_accounts a) o
  end.
Fixpoint add_requested (a : Account) (l : list OutPoint) (b : AccountBuilder) : result AccountBuilder TxRequestError :=
  match l with
  | [] => Ok b
  | o :: l => try! c := requested_coin a o in add_requested a l (TxBuilder.add_input b c)
  end.

Definition tx_builder_from_request (a : Account) (request : TxRequest) : outcome (result AccountBuilder TxRequestError) :=
  let? (max_addr, recipients) := Ret (parse_outputs (network a) (outputs request) None) in
  let! b := tx_builder a in
  let b := if 0 <? fee request then TxBuilder.fee b (fee request) else TxBuilder.feerate b (feerate_msats_vb request) in
  let b := match dust_threshold request with Some sats => TxBuilder.set_dust_threshold b sats | None => b end in
  let b := foldl (λ b r, TxBuilder.add_output b (out_of r)) b recipients in
  let b := match max_addr with
           | Some addr => TxBuilder.add_output b (out_of (max_recipient addr (network a)))
           | None => b
           end in
  Ret (add_requested a (input_outpoints request) b).

Definition simulate (a : Account) (request : TxRequest) : outcome (result TxSimulation TxRequestError) :=
  let? b := tx_builder_from_request a request in
  let! res := TxBuilder.simulate random_range b in
  match Transaction.error res with
  | Some err => Ret (Err (request_error err))
  | None =>
      let t := Transaction.tx_template res in
      let! weight := Transaction.tx_estimated_weight t in
      let! input_total := sum64 ((λ c, txout_value (Coin.txout c)) <$> Transaction.inputs t) in
      let fee := default 0 (Transaction.res_fees res) in
      Ret (Ok (mkSimulation fee weight input_total (input_total - fee) (Coin.outpoint <$> Transaction.inputs t)))
  end.
Definition prepare (a : Account) (request : TxRequest) : outcome (result Psbt TxRequestError) :=
  let? b := tx_builder_from_request a request in
  let! r := TxBuilder.generate random_range shuffle_coins shuffle_outputs b in
  Ret (rmap_err request_error r).

(** *** Signatures *)

(** The inputs that spend a coin of the store, by index. *)
Definition sp_inputs (a : Account) (psbt : Psbt) : list (nat * OwnCoin) :=
  omap (λ '(i, input), (λ e, (i, e)) <$> SpCoinStore.get (coin_store a) (previous_output input))
    (imap pair (input (unsigned_tx psbt))).
(** The spent output of every input; an input map without one is an error. *)
Fixpoint prevouts_of (l : list (PsbtInput * TxIn)) : result (list TxOut) AccountError :=
  match l with
  | [] => Ok []
  | (i, txin) :: l =>
      try! o := ok_or (witness_utxo i) (MissingPrevout (previous_output txin)) in
      try! os := prevouts_of l in Ok (o :: os)
  end.
Definition all_prevouts (psbt : Psbt) : result (list TxOut) AccountError :=
  prevouts_of (zip (psbt_inputs psbt) (input (unsigned_tx psbt))).
Definition set_key_sig (sig : Signature) (i : nat) (psbt : Psbt) : outcome Psbt :=
  let! m := expect (psbt_inputs psbt !! i) in
  Ret (mkPsbt _ (unsigned_tx psbt) (psbt_version psbt)
         (<[i := mkPsbtInput _ (witness_utxo m) (set_tap_key_sig (Some sig) (pi_rest m))]> (psbt_inputs psbt))
         (psbt_outputs psbt)).
Fixpoint sign_each (b_spend : SecretKey) (aux_rand : list N) (prevouts : list TxOut) (l : list (nat * OwnCoin))
    (psbt : Psbt) : outcome (Psbt * result unit AccountError) :=
  match l with
  | [] => Ret (psbt, Ok tt)
  | (i, entry) :: l =>
      match (try! msg := ok_or (key_spend_sighash (unsigned_tx psbt) i prevouts) Sighash in
             try! tweak := ok_or (sk_from_slice (tweak (SpCoinStore.output entry))) Tweak in
             try! sk := ok_or (sk_add_tweak b_spend (scalar_of_sk tweak)) Tweak in
             Ok (sign_schnorr msg sk aux_rand)) with
      | Err e => Ret (psbt, Err e)
      | Ok sig => let! psbt := set_key_sig sig i psbt in sign_each b_spend aux_rand prevouts l psbt
      end
  end.
(** [rand] is what the system gives. *)
Definition sign_sp_inputs (rand : option (list N)) (a : Account) (psbt : Psbt) :
    outcome (Psbt * result unit AccountError) :=
  let l := sp_inputs a psbt in
  if bool_decide (l = []) then Ret (psbt, Ok tt)
  else
    match (try! b_spend := rmap_err (λ _, Signing) (try_get_secret_spend_key (sp_receiver a)) in
           try! prevouts := all_prevouts psbt in
           try! aux_rand := ok_or rand AuxRand in Ok (b_spend, prevouts, aux_rand)) with
    | Err e => Ret (psbt, Err e)
    | Ok (b_spend, prevouts, aux_rand) => sign_each b_spend aux_rand prevouts l psbt
    end.
Definition sign_psbt (fuel : nat) (rand : option (list N)) (a : Account) (psbt : Psbt) :
    option (outcome (Psbt * result unit AccountError)) :=
  match (if can_sign a then sign_sp_inputs rand a psbt else Ret (psbt, Ok tt)) with
  | Ret (psbt, Ok _) =>
      match HotSigner.sign_psbt fuel (signing_manager a) psbt with
      | Some (Ret psbt) => Some (Ret (psbt, Ok tt))
      | Some Panic => Some Panic
      | None => None
      end
  | Ret (psbt, Err e) => Some (Ret (psbt, Err e))
  | Panic => Some Panic
  end.
End wallet.

(** *** Sub-account signers *)

Section sub_signers.
Context `{L : Bitcoin.TxLib} `{Cv : Curve} `{KL : !KeyLib} `{SG : !SignLib} `{SR : !HotSigner.SignerLib} `{DL : !Derivator.DescriptorLib}.
Context {J : Type} `{!Store J Fingerprint HotSigner.JsonSigner}.
Implicit Types m : HotSigner.SigningManager (S:=J).

(** The signer of the mnemonic is there, every signer has the descriptor, and none loses
    its key or a descriptor it had. *)
Lemma register_sub_signer_keeps m net text d m' : register_sub_signer m net text d = Ok m' →
  (∃ s, HotSigner.new_from_mnemonics net text = Ok s ∧ is_Some (HotSigner.bip32_signers m' !! HotSigner.fingerprint s)) ∧
  (∀ fg s, HotSigner.bip32_signers m' !! fg = Some s → d ∈ HotSigner.descriptors s) ∧
  ∀ fg s, HotSigner.bip32_signers m !! fg = Some s → ∃ s', HotSigner.bip32_signers m' !! fg = Some s' ∧
    HotSigner.derivator s' = HotSigner.derivator s ∧ HotSigner.descriptors s ⊆ HotSigner.descriptors s'.
Proof.
  unfold register_sub_signer. destruct (HotSigner.new_from_mnemonics net text) as [s|]; [|done]. cbn. intros [= <-].
  match goal with |- context [HotSigner.register_bip32_descriptor d ?x] => set (m1 := x) end.
  assert (is_Some (HotSigner.bip32_signers m1 !! HotSigner.fingerprint s) ∧
    ∀ fg s0, HotSigner.bip32_signers m !! fg = Some s0 → HotSigner.bip32_signers m1 !! fg = Some s0) as [Hs Hkeep].
  { unfold m1, HotSigner.has_bip32_signer. destruct (HotSigner.bip32_signers m !! HotSigner.fingerprint s) as [s1|] eqn:H1; [split; eauto|].
    cbn. split; [rewrite lookup_insert_eq; eauto|]. intros fg s0 H0. rewrite lookup_insert_ne; [done|]. intros Heq.
    change (HotSigner.fingerprint s = fg) in Heq. congruence. }
  cbn. setoid_rewrite lookup_fmap. split; [|split].
  - exists s. destruct Hs as [s1 ->]. split; [done|]. eauto.
  - intros fg s' (s0 & _ & ->)%fmap_Some. cbn. set_solver.
  - intros fg s0 ->%Hkeep. eexists. split; [reflexivity|]. cbn. split; [done|set_solver].
Qed.
End sub_signers.

(** ** What the engine does with the template *)

Section engine.
Context `{L : Bitcoin.TxLib} `{Build} {R : Type} `{!RecipientProvider R} `{!RecipientLaws R}.

(** The default selector takes candidates only. *)
Lemma take_coins_from (m : gmap OutPoint Coin) ops l c : CoinSelection.take_coins m ops = Ret l → c ∈ l →
  ∃ op, m !! op = Some c.
Proof.
  revert m l; induction ops as [|op ops IH]; intros m l; cbn [CoinSelection.take_coins].
  - intros [= <-] []%not_elem_of_nil.
  - intros (c' & Hc'%expect_Ret & (rest & Hr & [= <-])%obind_Ret)%obind_Ret [->|Hc]%elem_of_cons; [by exists op|].
    destruct (IH _ _ Hr Hc) as [op' Hop]. exists op'. by apply lookup_delete_Some in Hop as [_ ?].
Qed.
Lemma candidates_from (l : list Coin) (m : gmap OutPoint Coin) op c :
  foldl (λ m c, <[Coin.outpoint c := c]> m) m l !! op = Some c → m !! op = Some c ∨ c ∈ l.
Proof.
  revert m; induction l as [|c' l IH]; intros m; cbn [foldl]; [by left|]. intros [Hm|Hl]%IH; [|right; by right].
  destruct (decide (op = Coin.outpoint c')) as [->|Hne].
  - rewrite lookup_insert_eq in Hm. injection Hm as <-. right. left.
  - rewrite lookup_insert_ne in Hm by done. by left.
Qed.
Lemma default_selects_from rr self candidates target feerate l c :
  CoinSelection.default_select_coins rr self candidates target feerate = Ret l → c ∈ l → c ∈ candidates.
Proof.
  unfold CoinSelection.default_select_coins. destruct (length candidates =? 0)%nat; [by intros [= <-] ?%not_elem_of_nil|].
  intros ([sel k] & _ & Hs)%obind_Ret Hc. destruct sel as [sel|]; [|injection Hs as <-; by apply not_elem_of_nil in Hc].
  destruct (take_coins_from _ _ _ _ Hs Hc) as [op [Hm|Hl]%candidates_from]; [by rewrite lookup_empty in Hm|done].
Qed.

Context {Sel : Type} `{!CoinSelection.CoinSelector Sel}.
Context (Hsel : ∀ (s : Sel) cands t f l c, CoinSelection.select_coins s cands t f = Ret l → c ∈ l → c ∈ cands).
Implicit Types (t : Transaction.TxTemplate (R:=R)) (cs : option (Sel * list Coin)).

(** The inputs it picks are those of the source. *)
Lemma picks_from_source t cr (sel : Sel) (src : list Coin) r : Transaction.process_transaction t cr (Some (sel, src)) = Ret r →
  Transaction.inputs t = [] → ∀ c, c ∈ Transaction.inputs (Transaction.tx_template r) → c ∈ src.
Proof.
  unfold Transaction.process_transaction. intros Hr Hnil c Hc.
  assert (∀ e, r = Transaction.with_error (Transaction.from_template t) e → c ∈ src) as Herr.
  { intros e ->. cbn in Hc. rewrite Hnil in Hc. by apply not_elem_of_nil in Hc. }
  destruct (Transaction.fees_is_null _); [injection Hr as <-; by eapply Herr|].
  apply obind_Ret in Hr as (sc & _ & Hr). destruct sc as [[total mx]|e]; [|injection Hr as <-; by eapply Herr].
  rewrite Hnil in Hr. cbn [length Nat.eqb] in Hr. apply obind_Ret in Hr as (pick & Hp & Hr).
  destruct pick as [pick|e]; [|injection Hr as <-; by eapply Herr].
  apply Transaction.process_with_inputs_keeps in Hr as (Hin & _ & _). rewrite Hin in Hc. cbn in Hc.
  unfold Transaction.select_inputs in Hp. apply qbind_Ok in Hp as (l & Hl & Hp).
  destruct (length l =? 0)%nat; [done|]. injection Hp as ->. destruct mx as [p|]; [by injection Hl as <-|].
  destruct (Transaction.tmpl_fees t); [done|]. apply obind_Ret in Hl as (w & _ & Hl).
  apply obind_Ret in Hl as (fee0 & _ & Hl). apply obind_Ret in Hl as (tg & _ & Hl).
  apply obind_Ret in Hl as (l' & Hl' & [= ->]). by apply (Hsel _ _ _ _ _ _ Hl').
Qed.

(** The outputs stay, but for the one that takes the rest. *)
Lemma engine_outputs t cr cs r : Transaction.process_transaction t cr cs = Ret r →
  Transaction.outputs (Transaction.tx_template r) = Transaction.outputs t ∨
  ∃ p o v, Transaction.outputs t !! p = Some o ∧ Transaction.is_max o = true ∧
    Transaction.outputs (Transaction.tx_template r) = <[p := Recipient.set_amount o (Max (Some v))]> (Transaction.outputs t).
Proof.
  unfold Transaction.process_transaction. destruct (Transaction.fees_is_null _); [by intros [= <-]; left|].
  intros (sc & Hsc & Hr)%obind_Ret. destruct sc as [[total mx]|e]; [|injection Hr as <-; by left].
  assert (∀ t' res, Transaction.outputs t' = Transaction.outputs t →
    Transaction.process_with_inputs t' cr total mx (Transaction.from_template t') = Ret res →
    Transaction.outputs (Transaction.tx_template res) = Transaction.outputs t ∨
    ∃ p o v, Transaction.outputs t !! p = Some o ∧ Transaction.is_max o = true ∧
      Transaction.outputs (Transaction.tx_template res) = <[p := Recipient.set_amount o (Max (Some v))]> (Transaction.outputs t))
    as Hgo.
  { intros t' res Ht Hres. apply Transaction.scan_outputs_max in Hsc as [Hm _].
    destruct mx as [p|]; [|left; by rewrite (proj2 (proj2 (Transaction.process_with_inputs_keeps _ _ _ _ _ Hres)))].
    cbn in Hm. rewrite Nat.sub_0_r in Hm. destruct Hm as (l & o & k & Houts & Hlen & Hmax & _).
    assert (Ho : Transaction.outputs t !! p = Some o) by (rewrite Houts, <-Hlen; by apply list_lookup_middle).
    clear Houts Hlen l k. unfold Transaction.process_with_inputs in Hres. inv_ret.
    match type of Hres with context [Transaction.fr_error ?f] => destruct (Transaction.fr_error f) end;
      [injection Hres as <-; by left|].
    apply obind_Ret in Hres as (chk & _ & Hres).
    match type of Hres with context [Transaction.fr_max ?f] =>
      destruct (Transaction.fr_max f) as [v|], (Transaction.fr_change f); try done end.
    apply obind_Ret in Hres as (o' & Ho'%expect_Ret & [= <-]). right. exists p, o, v.
    destruct chk as [|e]; [|destruct (Transaction.to_warning e)]; cbn in *; rewrite Ht in *; split_and!; congruence. }
  destruct (length (Transaction.inputs t) =? 0)%nat; [|by apply (Hgo t)].
  apply obind_Ret in Hr as ([sel|e] & _ & Hr); [|injection Hr as <-; by left].
  by apply (Hgo (Transaction.set_inputs t sel)).
Qed.
End engine.

(** *** What a finalized transaction holds *)

Section finalized.
Context `{SameKeys} `{!SameKeysLaws} {R : Type} `{!RecipientProvider R} `{!SpOutputLaws R}.
Context `{KL : !KeyLib} `{BM : !BiMapLib SpReceiving.Label PublicKey} `{Build}.

(** An output of the transaction is what its recipient asks for. *)
Definition made_of (o : R) (out : TxOut) : Prop :=
  txout_value out = Transaction.output_bitcoin_amount o ∧
  (is_silent_payment o = false → ∃ r ctx, create_script o ctx = Ret (r, script_pubkey out)).

Lemma derived_kept (p : SpSecretProvider) k outs outs' ctx (made : list (R * TxOut)) :
  batch_derive_sp_scripts outs k = Ret outs' →
  Forall2 (λ o m, (let! (r, s) := create_script o ctx in
                   Ret (r, mkTxOut (Transaction.output_bitcoin_amount o) s)) = Ret m) outs' made →
  Forall2 made_of outs made.*2.
Proof.
  intros [Hlen Hd]%batch_spec Hmade. pose proof (Forall2_length _ _ _ Hmade) as Hlen'.
  apply Forall2_same_length_lookup_2; [rewrite length_fmap; lia|]. intros j o out Ho Hout.
  rewrite list_lookup_fmap in Hout. apply fmap_Some in Hout as ([r out'] & Hm & ->).
  destruct (Forall2_lookup_r _ _ _ _ _ Hmade Hm) as (o' & Ho' & Hcr). cbv beta in Hcr.
  apply obind_Ret in Hcr as ([r' s] & Hcr & [= <- <-]). specialize (Hd j o Ho). cbn [snd].
  destruct (SpPayment.sp_address o) as [a|] eqn:Ha.
  - destruct Hd as (s0 & x & _ & _ & Hd). assert (o' = set_precomputed_script o (SpReceiving.p2tr_spk x)) as -> by congruence.
    split; [unfold Transaction.output_bitcoin_amount; cbn; by rewrite precomputed_keeps|].
    intros Hs. by rewrite (sp_address_silent _ _ Ha) in Hs.
  - assert (o' = o) as -> by congruence. split; [done|]. intros _. by exists r', ctx.
Qed.
Lemma plain_kept outs ctx (made : list (R * TxOut)) :
  Forall2 (λ o m, (let! (r, s) := create_script o ctx in
                   Ret (r, mkTxOut (Transaction.output_bitcoin_amount o) s)) = Ret m) outs made →
  Forall2 made_of outs made.*2.
Proof.
  induction 1 as [|o m outs made Hm _ IH]; [constructor|]. apply obind_Ret in Hm as ([r s] & Hc & [= <-]).
  constructor; [|done]. split; [done|]. intros _. by exists r, ctx.
Qed.
Lemma input_maps_of ins ms : Transaction.psbt_input_maps ins = Ok ms → Forall2 (λ c i, Coin.to_psbt_input c = Ok i) ins ms.
Proof.
  revert ms; induction ins as [|c ins IH]; intros ms; cbn [Transaction.psbt_input_maps]; [intros [= <-]; constructor|].
  destruct (Coin.to_psbt_input c) as [m|] eqn:Hm; [|done]. intros (ms' & Hms & [= <-])%rbind_Ok. constructor; auto.
Qed.
Lemma input_utxos ins ms : Forall2 (λ c i, Coin.to_psbt_input c = Ok i) ins ms →
  Forall2 (λ c i, witness_utxo i = Some (Coin.txout c)) ins ms.
Proof. intros Hf. eapply Forall2_impl; [exact Hf|]. intros c i. apply Coin.to_psbt_input_utxo. Qed.
Lemma finalize_makes (p : SpSecretProvider) sc so t change shuffle net pct amt outs0 ins outs psbt :
  Transaction.prepare_outputs t change = Ok outs0 → Transaction.shuffle_maybe sc so t shuffle outs0 = (ins, outs) →
  Transaction.finalize sc so t change shuffle (Some (secret_provider p)) net pct amt false = Ret (Ok psbt) →
  Bitcoin.input (unsigned_tx psbt) = Coin.coin_to_txin <$> ins ∧
  Forall2 (λ c i, Coin.to_psbt_input c = Ok i) ins (psbt_inputs psbt) ∧
  Forall2 made_of outs (output (unsigned_tx psbt)).
Proof.
  intros Hprep Hsh. unfold Transaction.finalize. intros Hf. apply qbind_Ok in Hf as (outs1 & Hp & Hf).
  assert (outs1 = outs0) as -> by congruence. rewrite Hsh in Hf.
  apply qbind_Ok in Hf as ([] & _ & Hf). apply qbind_Ok in Hf as (secret & _ & Hf).
  apply obind_Ret in Hf as (outs' & Hd & Hf). unfold Transaction.build_psbt in Hf.
  apply obind_Ret in Hf as (made & Hmade%omapM_Ret & Hf).
  destruct (Transaction.psbt_input_maps ins) as [pins|] eqn:Hpi; [|done].
  apply qbind_Ok in Hf as (pouts & _ & [= <-]). cbn [unsigned_tx psbt_inputs Bitcoin.input output].
  split_and!; [done|by apply input_maps_of|]. destruct secret as [k|].
  - by apply (derived_kept p _ _ _ _ _ Hd Hmade).
  - injection Hd as <-. by apply (plain_kept _ _ _ Hmade).
Qed.
End finalized.

(** ** The builder of a request *)

Section request_lemmas.
Context `{L : Bitcoin.TxLib} `{Cv : Curve} `{KL : !KeyLib} `{SK : !SameKeys} `{PL : !PaymentLib} `{Build}.
Context `{BM : !BiMapLib SpReceiving.Label PublicKey}.
Context {S : Type} `{!Store S OutPoint OwnCoin} `{!StoreLaws S OutPoint OwnCoin} `{!StoreTotal S OutPoint OwnCoin}.
Context {T : Type} `{!Store T Txid SpTxStore.SpTxEntry}.
Context {Lb : Type} `{!Store Lb TxStore.LabelKey string}.
Context `{HeaderValidator.HeaderLib} {SH : Type} `{!Store SH N HeaderValidator.raw_header}.
Context `{SG : !SignLib} `{SR : !HotSigner.SignerLib} `{DL : !Derivator.DescriptorLib}.
Context {J : Type} `{!Store J Fingerprint HotSigner.JsonSigner}.
Context {W : Type} `{!Scanner W}.
Abbreviation provider := (Recipient + (SpRecipientAddress + SpChangeRecipientProvider))%type.
Abbreviation AccountBuilder := (TxBuilder.TxBuilder (P:=SpRecipientAddress + SpChangeRecipientProvider) (S:=Empty_set) (Src:=list Coin)).
Implicit Types (a : Account (S:=S) (T:=T) (Lb:=Lb) (SH:=SH) (J:=J) (W:=W)) (b : AccountBuilder).

(** Inputs and outputs are all that adding them changes. *)
Lemma add_inputs_frame b cs : ∃ ins, foldl TxBuilder.add_input b cs = TxBuilder.replace_inputs b ins.
Proof.
  revert b; induction cs as [|c cs IH]; intros b; cbn [foldl].
  - exists (Transaction.inputs (TxBuilder.template b)). by destruct b as [? [] ? ? ? ? ?].
  - destruct (IH (TxBuilder.add_input b c)) as [ins ->]. exists ins. unfold TxBuilder.add_input. by case_bool_decide.
Qed.
Lemma add_outputs_frame b rs : foldl (λ b r, TxBuilder.add_output b (out_of r)) b rs =
  TxBuilder.replace_outputs b (Transaction.outputs (TxBuilder.template b) ++ (out_of <$> rs)).
Proof.
  revert b; induction rs as [|r rs IH]; intros b; cbn [foldl fmap list_fmap].
  - rewrite app_nil_r. by destruct b as [? [] ? ? ? ? ?].
  - rewrite IH. cbn. by rewrite <-app_assoc.
Qed.
Lemma add_requested_spec a l b b' : add_requested a l b = Ok b' →
  ∃ cs, Forall2 (λ o c, requested_coin a o = Ok c) l cs ∧ b' = foldl TxBuilder.add_input b cs.
Proof.
  revert b; induction l as [|o l IH]; intros b; cbn [add_requested].
  - intros [= <-]. by exists [].
  - intros (c & Hc & Hb)%rbind_Ok. destruct (IH _ Hb) as (cs & Hf & ->). exists (c :: cs).
    split; [by constructor|done].
Qed.
Lemma requested_outpoint `{!ScannerLaws W} a o c : Forall scanner_ok (sub_accounts a) → requested_coin a o = Ok c →
  Coin.outpoint c = o.
Proof.
  intros Hok Hc. unfold requested_coin in Hc. destruct (coins a !! o) as [e|].
  - destruct (SpCoinStore.is_spendable e); [|done]. by injection Hc as <-.
  - revert Hc. induction Hok as [|sub subs Hsub _ IH]; cbn [sub_coin]; [done|].
    destruct (scanner_coins sub !! o) as [c'|] eqn:Hs; [|done].
    destruct (live c'); [|done]. intros [= <-]. by apply (scanner_filed sub).
Qed.

(** The coins of the account that no transaction spends. *)
Definition own_unspent a (c : Coin) : Prop :=
  (∃ e, SpCoins.view (coin_store a) !! Coin.outpoint c = Some e ∧ SpCoinStore.status e = SpUnspent ∧
     c = sp_coin_entry_to_coin (Coin.outpoint c) e) ∨
  (∃ sub, sub ∈ sub_accounts a ∧ scanner_coins sub !! Coin.outpoint c = Some c ∧ Coin.status c ≠ Coin.Spent).

Lemma account_coins_view a : coins a = SpCoins.view (coin_store a).
Proof. apply SpCoins.coins_view. Qed.

(** What a builder is offered is unspent. *)
Lemma spendable_fold l st st' : ofold SpCoinStore.add_spendable st l = Ret st' → ∀ o e,
  SpCoinStore.cs_coins st' !! o = Some e →
  SpCoinStore.cs_coins st !! o = Some e ∨ ((o, e) ∈ l ∧ SpCoinStore.is_spendable e = true).
Proof.
  revert st; induction l as [|[o' e'] l IH]; intros st; cbn [ofold]; [intros [= <-]; by left|].
  intros (st1 & H1 & H2)%obind_Ret o e He. destruct (IH _ H2 o e He) as [H3|[H3 Hs]]; [|right; split; [by right|done]].
  unfold SpCoinStore.add_spendable in H1. cbn in H1.
  destruct (SpCoinStore.is_spendable e') eqn:Hs; cbn in H1; [|injection H1 as <-; by left].
  assert (SpCoinStore.cs_coins st1 = <[o' := e']> (SpCoinStore.cs_coins st)) as Heq.
  { destruct (SpCoinStore.is_confirmed e'); apply obind_Ret in H1 as (n & _ & [= <-]); done. }
  rewrite Heq in H3. destruct (decide (o = o')) as [->|Hne].
  - rewrite lookup_insert_eq in H3. injection H3 as <-. right. split; [left|done].
  - rewrite lookup_insert_ne in H3 by done. by left.
Qed.
Lemma source_unspent (s : S) l c : SpCoinStore.source_coins s = Ret l → c ∈ l →
  ∃ e, SpCoins.view s !! Coin.outpoint c = Some e ∧ SpCoinStore.status e = SpUnspent ∧
    c = sp_coin_entry_to_coin (Coin.outpoint c) e.
Proof.
  unfold SpCoinStore.source_coins, SpCoinStore.spendable_coins. rewrite SpCoins.iter_view.
  intros (st & Hst & [= <-])%obind_Ret ([o e] & -> & Hin)%list_elem_of_fmap.
  apply elem_of_bt_items in Hin. destruct (spendable_fold _ _ _ Hst o e Hin) as [Hn|[Hv Hs]].
  - cbn [SpCoinStore.cs_coins] in Hn; by rewrite lookup_empty in Hn.
  - apply elem_of_bt_items in Hv. exists e. split; [done|]. split; [|done].
    by apply bool_decide_eq_true_1 in Hs.
Qed.
Lemma foldl_app_elem (l : list Coin) ls c : c ∈ foldl app l ls → c ∈ l ∨ ∃ l', l' ∈ ls ∧ c ∈ l'.
Proof.
  revert l; induction ls as [|l' ls IH]; intros l; cbn [foldl]; [by left|]. intros [Hc|(l0 & Hin & Hc)]%IH.
  - apply elem_of_app in Hc as [Hc|Hc]; [by left|]. right. exists l'. split; [left|done].
  - right. exists l0. split; [by right|done].
Qed.
Lemma merged_unspent `{!ScannerLaws W} a bip32 l c : Forall scanner_ok (sub_accounts a) →
  omapM scanner_source (sub_accounts a) = Ret bip32 → SpCoinStore.merged_coins bip32 (coin_store a) = Ret l →
  c ∈ l → own_unspent a c.
Proof.
  intros Hok Hb%omapM_Ret (l0 & Hl0 & [= <-])%obind_Ret [Hc|(l' & Hin & Hc)]%foldl_app_elem.
  - left. by apply (source_unspent _ _ _ Hl0).
  - right. apply list_elem_of_lookup in Hin as [i Hi]. destruct (Forall2_lookup_r _ _ _ _ _ Hb Hi) as (sub & Hsub & Hs).
    apply list_elem_of_lookup_2 in Hsub as Hin. exists sub. split; [done|].
    rewrite Forall_forall in Hok. by apply (scanner_source_coins sub l' c (Hok sub Hin) Hs).
Qed.
Lemma requested_unspent `{!ScannerLaws W} a o c : Forall scanner_ok (sub_accounts a) → requested_coin a o = Ok c →
  own_unspent a c.
Proof.
  intros Hok Hc. pose proof (requested_outpoint _ _ _ Hok Hc) as Ho. unfold requested_coin in Hc. rewrite account_coins_view in Hc.
  destruct (SpCoins.view (coin_store a) !! o) as [e|] eqn:He.
  - destruct (SpCoinStore.is_spendable e) eqn:Hs; [|done]. injection Hc as <-. left. exists e. cbn.
    split; [done|]. split; [by apply bool_decide_eq_true_1 in Hs|done].
  - right. rewrite Ho. clear Hok. revert Hc. induction (sub_accounts a) as [|sub subs IH]; cbn [sub_coin]; [done|].
    intros Hc. destruct (scanner_coins sub !! o) as [c'|] eqn:Hs.
    + destruct (live c') eqn:Hl; [|done]. injection Hc as ->. exists sub. split; [left|]. split; [done|].
      intros Hst. unfold live in Hl. by rewrite Hst in Hl.
    + destruct (IH Hc) as (sub' & Hin & Hs'). exists sub'. split; [by right|done].
Qed.

(** The recipients of a request. *)
Definition recipient_of (net : BtcNetwork) (spec : TxOutputSpec) : option SpRecipientAddress :=
  if os_max spec then None
  else match parse (os_address spec) net with
       | Ok addr => Some (new_recipient_address addr (os_amount spec) net)
       | Err _ => None
       end.
Lemma parse_outputs_spec net l mx mx' rs : parse_outputs net l mx = Ok (mx', rs) → rs = omap (recipient_of net) l.
Proof.
  revert mx rs; induction l as [|spec l IH]; intros mx rs; cbn [parse_outputs]; [by intros [= _ <-]|].
  intros (addr & Ha & Hr)%rbind_Ok. unfold recipient_of at 1. cbn [omap list_omap].
  destruct (parse (os_address spec) net) as [addr'|]; [|done]. injection Ha as ->. destruct (os_max spec).
  - destruct mx; [done|]. by apply IH in Hr.
  - apply rbind_Ok in Hr as ([mx1 rs1] & Hr & [= -> <-]). by rewrite (IH _ _ Hr).
Qed.

Lemma request_builder a req b : tx_builder_from_request a req = Ret (Ok b) →
  ∃ mx bip32 src cs,
    parse_outputs (network a) (outputs req) None = Ok (mx, omap (recipient_of (network a)) (outputs req)) ∧
    omapM scanner_source (sub_accounts a) = Ret bip32 ∧ SpCoinStore.merged_coins bip32 (coin_store a) = Ret src ∧
    Forall2 (λ o c, requested_coin a o = Ok c) (input_outpoints req) cs ∧
    Transaction.outputs (TxBuilder.template b) =
      (out_of <$> omap (recipient_of (network a)) (outputs req)) ++
      (out_of <$> option_list ((λ addr, max_recipient addr (network a)) <$> mx)) ∧
    (∀ c, c ∈ Transaction.inputs (TxBuilder.template b) ↔ c ∈ cs) ∧
    TxBuilder.coin_source b = Some src ∧ TxBuilder.coin_selector b = inl CoinSelection.default_coin_selector ∧
    TxBuilder.sp_provider b = Some (secret_provider (mkSecretProvider _ (sp_receiver a) (master_xprivs a))).
Proof.
  unfold tx_builder_from_request. intros ([mx rs] & [= Hparse] & Hb)%qbind_Ok.
  apply obind_Ret in Hb as (b0 & Hb0 & Hb). injection Hb as Hb. unfold tx_builder in Hb0.
  apply obind_Ret in Hb0 as (addr & _ & Hb0). apply obind_Ret in Hb0 as (bip32 & Hbip & Hb0).
  apply obind_Ret in Hb0 as (src & Hsrc & [= Hb0]). apply add_requested_spec in Hb as (cs & Hcs & ->).
  exists mx, bip32, src, cs. assert (rs = omap (recipient_of (network a)) (outputs req)) as <- by (by eapply parse_outputs_spec).
  split; [done|]. split; [done|]. split; [done|]. split; [done|].
  rewrite TxBuilder.foldl_add_input_outputs, TxBuilder.foldl_add_input_sp.
  assert (∀ b1 : AccountBuilder, Transaction.outputs (TxBuilder.template b1) = [] → Transaction.inputs (TxBuilder.template b1) = [] →
    TxBuilder.coin_source b1 = Some src → TxBuilder.coin_selector b1 = inl CoinSelection.default_coin_selector →
    TxBuilder.sp_provider b1 = Some (secret_provider (mkSecretProvider _ (sp_receiver a) (master_xprivs a))) →
    let b2 := foldl (λ b r, TxBuilder.add_output b (out_of r)) b1 rs in
    let b3 := match mx with Some addr => TxBuilder.add_output b2 (out_of (max_recipient addr (network a))) | None => b2 end in
    Transaction.outputs (TxBuilder.template b3) =
      (out_of <$> rs) ++ (out_of <$> option_list ((λ addr, max_recipient addr (network a)) <$> mx)) ∧
    (∀ c, c ∈ Transaction.inputs (TxBuilder.template (foldl TxBuilder.add_input b3 cs)) ↔ c ∈ cs) ∧
    TxBuilder.coin_source (foldl TxBuilder.add_input b3 cs) = Some src ∧
    TxBuilder.coin_selector (foldl TxBuilder.add_input b3 cs) = inl CoinSelection.default_coin_selector ∧
    TxBuilder.sp_provider b3 = Some (secret_provider (mkSecretProvider _ (sp_receiver a) (master_xprivs a)))) as Hgo.
  { intros b1 Ho Hi Hs Hsel Hsp b2 b3. destruct (add_inputs_frame b3 cs) as [ins Hins].
    assert (b2 = TxBuilder.replace_outputs b1 (out_of <$> rs)) as Hb2 by (unfold b2; by rewrite add_outputs_frame, Ho).
    subst b3. rewrite Hb2 in *. split; [destruct mx; cbn; by rewrite ?app_nil_r|]. split.
    - intros c. rewrite TxBuilder.foldl_add_input_elem. destruct mx; cbn; rewrite Hi; set_solver.
    - rewrite Hins. by destruct mx. }
  apply Hgo; rewrite <-Hb0; destruct (dust_threshold req), (0 <? fee req); done.
Qed.

(** What the transaction owes an output of the request: the amount at the script of the
    address, or an [OP_RETURN]. *)
Definition plain_txout (o : provider) : option TxOut :=
  match o with
  | inr (inl r) =>
      match inner r with
      | LegacyAddress addr => Some (mkTxOut (Transaction.output_bitcoin_amount r) (address_script addr))
      | Data data => mkTxOut (Transaction.output_bitcoin_amount r) <$> op_return_script data
      | SpAddress _ => None
      end
  | _ => None
  end.
Definition requested_txout (net : BtcNetwork) (spec : TxOutputSpec) : option TxOut :=
  recipient_of net spec ≫= λ r, plain_txout (out_of r).

Lemma made_plain (outs : list provider) l : Forall2 made_of outs l → omap plain_txout outs `sublist_of` l.
Proof.
  induction 1 as [|o out outs l [Hv Hs] _ IH]; [done|]. cbn [omap list_omap].
  destruct (plain_txout o) as [x|] eqn:Hx; [|by apply sublist_cons]. assert (x = out) as ->; [|by apply sublist_skip].
  destruct o as [o|[o|o]]; [done| |done]. unfold plain_txout in Hx. cbn in Hv, Hs. unfold pays_sp in Hs.
  destruct out as [v s]; cbn in *. subst v. destruct (inner o) as [addr|sp|data] eqn:Hin; [| done|].
  - injection Hx as <-. destruct (Hs eq_refl) as (r & ctx & Hc). unfold address_output_script in Hc. rewrite Hin in Hc.
    cbn in Hc. by injection Hc as <- <-.
  - destruct (Hs eq_refl) as (r & ctx & Hc). unfold address_output_script in Hc. rewrite Hin in Hc.
    destruct (op_return_script data) as [s'|]; [|done]. cbn in Hc, Hx. injection Hc as _ <-. by injection Hx as <-.
Qed.
Lemma requested_plain net (l : list TxOutputSpec) : omap plain_txout (out_of <$> omap (recipient_of net) l) = omap (requested_txout net) l.
Proof.
  induction l as [|spec l IH]; [done|]. unfold requested_txout in *. cbn [omap list_omap].
  destruct (recipient_of net spec) as [r|]; cbn [mbind option_bind]; [|done]. cbn [fmap list_fmap omap list_omap].
  destruct (plain_txout (out_of r)); by rewrite IH.
Qed.
Lemma requested_amounts net (l : list TxOutputSpec) : Forall (λ spec, ∃ addr, parse (os_address spec) net = Ok addr) l →
  Transaction.output_bitcoin_amount <$> (out_of <$> omap (recipient_of net) l) =
  os_amount <$> filter (λ spec, os_max spec = false) l.
Proof.
  induction 1 as [|spec l (addr & Ha) _ IH]; [done|].
  change (omap (recipient_of net) (spec :: l)) with
    (match recipient_of net spec with Some r => r :: omap (recipient_of net) l | None => omap (recipient_of net) l end).
  unfold recipient_of at 1. rewrite Ha. destruct (os_max spec) eqn:Hm.
  - by rewrite filter_cons_False by congruence.
  - rewrite filter_cons_True by done. cbn. f_equal. exact IH.
Qed.
Lemma parsed net l mx r : parse_outputs net l mx = Ok r → Forall (λ spec, ∃ addr, parse (os_address spec) net = Ok addr) l.
Proof.
  revert mx r; induction l as [|spec l IH]; intros mx r; cbn [parse_outputs]; [by constructor|].
  intros (addr & Ha & Hr)%rbind_Ok. destruct (parse (os_address spec) net) as [addr'|] eqn:Hp; [|done]. constructor; [by exists addr'|].
  destruct (os_max spec); [destruct mx; [done|]; by eapply IH|]. apply rbind_Ok in Hr as ([m rs] & Hr & _). by eapply IH.
Qed.
Lemma engine_keeps_recipients (rs rest : list provider) (t t' : Template (R:=provider)) :
  Transaction.outputs t = rs ++ rest → Forall (λ o, Transaction.is_max o = false) rs →
  (Transaction.outputs t' = Transaction.outputs t ∨
   ∃ p o v, Transaction.outputs t !! p = Some o ∧ Transaction.is_max o = true ∧
     Transaction.outputs t' = <[p := Recipient.set_amount o (Max (Some v))]> (Transaction.outputs t)) →
  ∃ rest', Transaction.outputs t' = rs ++ rest'.
Proof.
  intros Ht Hrs [->|(p & o & v & Hp & Hmax & ->)]; [by exists rest|]. rewrite Ht in *.
  destruct (decide (p < length rs)%nat) as [Hlt|Hge].
  - exfalso. rewrite lookup_app_l in Hp by done. rewrite Forall_lookup in Hrs. specialize (Hrs p o Hp). congruence.
  - rewrite insert_app_r_alt by lia. eauto.
Qed.
Lemma witness_txouts (cs cs' : list Coin) ms :
  Forall2 (λ c i, witness_utxo i = Some (Coin.txout c)) cs ms →
  Forall2 (λ c i, witness_utxo i = Some (Coin.txout c)) cs' ms → Coin.value <$> cs = Coin.value <$> cs'.
Proof.
  intros Hf. revert cs'; induction Hf as [|c m cs ms Hc _ IH]; intros cs' Hf'; inversion Hf'; [done|]. subst.
  cbn. f_equal; [|by apply IH]. unfold Coin.value. congruence.
Qed.
End request_lemmas.

(** ** Requests are honoured *)

Section prepared.
Context `{L : Bitcoin.TxLib} `{Cv : Curve} `{KL : !KeyLib} `{SK : !SameKeys} `{!SameKeysLaws} `{PL : !PaymentLib} `{Build}.
Context `{BM : !BiMapLib SpReceiving.Label PublicKey}.
Context {S : Type} `{!Store S OutPoint OwnCoin} `{!StoreLaws S OutPoint OwnCoin} `{!StoreTotal S OutPoint OwnCoin}.
Context {T : Type} `{!Store T Txid SpTxStore.SpTxEntry}.
Context {Lb : Type} `{!Store Lb TxStore.LabelKey string}.
Context `{HeaderValidator.HeaderLib} {SH : Type} `{!Store SH N HeaderValidator.raw_header}.
Context `{SG : !SignLib} `{SR : !HotSigner.SignerLib} `{DL : !Derivator.DescriptorLib}.
Context {J : Type} `{!Store J Fingerprint HotSigner.JsonSigner}.
Context {W : Type} `{!Scanner W} `{!ScannerLaws W}.
Abbreviation provider := (Recipient + (SpRecipientAddress + SpChangeRecipientProvider))%type.
Context (rr : nat → nat → nat) (sc : list Coin → list Coin) (so : list provider → list provider).
Context (Hchecked : overflow_checks = true) (Hsc : ∀ l, sc l ≡ₚ l) (Hso : ∀ l, so l ≡ₚ l).
Implicit Types a : Account (S:=S) (T:=T) (Lb:=Lb) (SH:=SH) (J:=J) (W:=W).

(** The engine's result behind a prepared transaction. *)
Lemma prepare_inv a req psbt : prepare rr sc so a req = Ret (Ok psbt) →
  ∃ b r f ins outs, tx_builder_from_request a req = Ret (Ok b) ∧ TxBuilder.simulate rr b = Ret r ∧
    Transaction.error r = None ∧ Transaction.res_fees r = Some f ∧
    ins ≡ₚ Transaction.inputs (Transaction.tx_template r) ∧
    (∃ rest, outs ≡ₚ Transaction.outputs (Transaction.tx_template r) ++ rest) ∧
    input (unsigned_tx psbt) = Coin.coin_to_txin <$> ins ∧
    Forall2 (λ c i, Coin.to_psbt_input c = Ok i) ins (psbt_inputs psbt) ∧
    Forall2 made_of outs (output (unsigned_tx psbt)) ∧
    sumN (Coin.value <$> ins) = sumN (txout_value <$> output (unsigned_tx psbt)) + f.
Proof.
  unfold prepare. intros (b & Hb & Hp)%qbind_Ok. apply obind_Ret in Hp as (res & Hgen & [= Hres]).
  destruct res as [psbt'|]; [|done]. injection Hres as ->.
  destruct (request_builder _ _ _ Hb) as (mx & bip32 & src & cs & _ & _ & _ & _ & _ & _ & _ & _ & Hsp).
  destruct (TxBuilder.generate_Ok rr sc so Hsc Hso Hchecked b psbt) as (r & f & Hsim & Herr & Hf & Hgd); [|done|].
  { intros q Hq. rewrite Hsp in Hq. injection Hq as <-. apply secret_provider_keeps. }
  destruct Hgd as (ins' & outs' & _ & _ & (_ & _ & _ & Hw' & Hv' & _) & Hsum & _). rewrite <-Hv' in Hsum.
  unfold TxBuilder.generate in Hgen. apply obind_Ret in Hgen as (r' & Hr' & Hgen). unfold TxBuilder.simulate in Hsim.
  assert (r' = r) as -> by congruence. rewrite Herr in Hgen. clear Hr'. rewrite Hsp in Hgen.
  set (change := match Transaction.change r with Some _ => _ | None => _ end) in Hgen.
  destruct (Transaction.prepare_outputs (Transaction.tx_template r) change) as [outs0|] eqn:Hprep.
  2: { unfold Transaction.finalize in Hgen. by rewrite Hprep in Hgen. }
  destruct (Transaction.shuffle_maybe sc so (Transaction.tx_template r) true outs0) as [ins outs] eqn:Hsh.
  destruct (finalize_makes _ _ _ _ _ _ _ _ _ _ _ _ _ Hprep Hsh Hgen) as (Hin & Hw & Hmade).
  apply (Transaction.shuffle_maybe_perm _ _ Hsc Hso) in Hsh as [Hpi Hpo].
  apply Transaction.prepare_outputs_Ok in Hprep as [-> _]. exists b, r, f, ins, outs. split_and!; try done.
  - by exists (option_list change).
  - by rewrite (witness_txouts ins ins' _ (input_utxos _ _ Hw) Hw').
Qed.

(** The inputs are the coins asked for, or coins of the account. *)
Lemma builder_coins a req b : Forall scanner_ok (sub_accounts a) → tx_builder_from_request a req = Ret (Ok b) →
  ∀ r, TxBuilder.simulate rr b = Ret r →
  Forall (own_unspent a) (Transaction.inputs (Transaction.tx_template r)) ∧
  (input_outpoints req ≠ [] →
    ∀ o, o ∈ Coin.outpoint <$> Transaction.inputs (Transaction.tx_template r) ↔ o ∈ input_outpoints req).
Proof.
  intros Hok Hb r Hr.
  destruct (request_builder _ _ _ Hb) as (mx & bip32 & src & cs & _ & Hbip & Hsrc & Hcs & _ & Hin & Hsource & Hsel & _).
  destruct (Transaction.process_transaction_keeps _ _ _ _ Hr) as (_ & Hkeep & _).
  assert (Hfrom : ∀ c, c ∈ cs → own_unspent a c).
  { intros c [i Hi]%list_elem_of_lookup. destruct (Forall2_lookup_r _ _ _ _ _ Hcs Hi) as (o & _ & Hc).
    by apply (requested_unspent a o). }
  destruct (Transaction.inputs (TxBuilder.template b)) as [|c0 l] eqn:Hi.
  - assert (cs = []) as ->. { destruct cs as [|c cs]; [done|]. exfalso. apply (not_elem_of_nil c), Hin. left. }
    apply Forall2_nil_inv_r in Hcs as Hnil. split; [|done]. apply Forall_forall. intros c Hc.
    unfold TxBuilder.simulate, TxBuilder.selection in Hr. rewrite Hsource, Hsel in Hr.
    assert (c ∈ src) as Hcsrc; [|by apply (merged_unspent a bip32 src)].
    refine (picks_from_source _ _ _ _ _ _ Hr Hi c Hc).
    intros [s|[]] cands t fr l' c' Hl. by apply (default_selects_from rr s cands t fr).
  - rewrite Hkeep by done. split.
    + apply Forall_forall. intros c Hc. apply Hfrom. by apply Hin.
    + intros _ o. rewrite list_elem_of_fmap. split.
      * intros (c & -> & [i Hci]%Hin%list_elem_of_lookup). destruct (Forall2_lookup_r _ _ _ _ _ Hcs Hci) as (o & Ho & Hc).
        rewrite (requested_outpoint a o c Hok Hc). by eapply list_elem_of_lookup_2.
      * intros [i Ho]%list_elem_of_lookup. destruct (Forall2_lookup_l _ _ _ _ _ Hcs Ho) as (c & Hci & Hc). exists c.
        split; [by rewrite (requested_outpoint a o c Hok Hc)|]. apply Hin. by eapply list_elem_of_lookup_2.
Qed.

(** C5. A request is honoured. A transaction prepared for it, in a checked build, spends
    unspent coins of the account only, and exactly those asked for when some are; it pays
    every output of the request its amount, at the script of its address or as an
    [OP_RETURN] where it is not a silent payment; and it leaves the fee, and spends the
    coins, that a simulation of the same request announces. *)
Theorem request_prepared a req psbt : Forall scanner_ok (sub_accounts a) → prepare rr sc so a req = Ret (Ok psbt) →
  ∃ ins f, input (unsigned_tx psbt) = Coin.coin_to_txin <$> ins ∧
    Forall2 (λ c i, witness_utxo i = Some (Coin.txout c)) ins (psbt_inputs psbt) ∧
    Forall (own_unspent a) ins ∧
    (input_outpoints req ≠ [] → ∀ o, o ∈ Coin.outpoint <$> ins ↔ o ∈ input_outpoints req) ∧
    os_amount <$> filter (λ spec, os_max spec = false) (outputs req) ⊆+ txout_value <$> output (unsigned_tx psbt) ∧
    omap (requested_txout (network a)) (outputs req) ⊆+ output (unsigned_tx psbt) ∧
    sumN (Coin.value <$> ins) = sumN (txout_value <$> output (unsigned_tx psbt)) + f ∧
    ∀ sim, simulate rr a req = Ret (Ok sim) → sim_fee sim = f ∧ selected_outpoints sim ≡ₚ Coin.outpoint <$> ins.
Proof.
  intros Hok (b & r & f & ins & outs & Hb & Hr & Herr & Hf & Hins & [rest Houts] & Hin & Hw & Hmade & Hsum)%prepare_inv.
  destruct (builder_coins a req b Hok Hb r Hr) as [Hown Hasked]. exists ins, f.
  destruct (request_builder _ _ _ Hb) as (mx & _ & _ & cs & Hparse & _ & _ & _ & Ho & _).
  pose proof (engine_outputs _ _ _ _ Hr) as Hkept. edestruct engine_keeps_recipients as [rest' Hrest]; [exact Ho| |exact Hkept|].
  { apply Forall_fmap, Forall_forall. intros rc Hrc. apply list_elem_of_omap in Hrc as (spec & _ & Hspec).
    unfold recipient_of in Hspec. destruct (os_max spec), (parse (os_address spec) (network a)); try done. by injection Hspec as <-. }
  rewrite Hrest, <-app_assoc in Houts. split; [done|]. split; [by apply input_utxos|]. split; [by rewrite Hins|]. split.
  { intros Hne o. rewrite Hins. by apply Hasked. }
  split; [|split; [|split; [done|]]].
  - assert (txout_value <$> output (unsigned_tx psbt) = Transaction.output_bitcoin_amount <$> outs) as ->.
    { clear -Hmade. induction Hmade as [|o out outs l [Hv _] _ IH]; [done|]. cbn. by rewrite Hv, IH. }
    rewrite Houts, fmap_app, requested_amounts by (by eapply parsed). by apply submseteq_inserts_r.
  - etrans; [|apply sublist_submseteq, made_plain, Hmade]. rewrite Houts, omap_app, requested_plain.
    by apply submseteq_inserts_r.
  - intros sim. unfold simulate. rewrite Hb. cbn [qbind]. rewrite Hr. cbn [obind]. rewrite Herr.
    intros (w & _ & (total & _ & [= <-])%obind_Ret)%obind_Ret. cbn. rewrite Hf. split; [done|]. by rewrite Hins.
Qed.

End prepared.
(** ** Signatures *)

Section signing.
Context `{L : Bitcoin.TxLib} `{Cv : Curve} `{KL : !KeyLib} `{SK : !SameKeys} `{!SameKeysLaws} `{PL : !PaymentLib} `{Build}.
Context `{BM : !BiMapLib SpReceiving.Label PublicKey} `{SL : !SpReceiving.ScriptLib} `{SG : !SignLib} `{SGL : !SignLaws}.
Context `{SR : !HotSigner.SignerLib} `{SRL : !HotSigner.SignerLaws} `{DL : !Derivator.DescriptorLib}.
Context {J : Type} `{!Store J Fingerprint HotSigner.JsonSigner}.
Context {S : Type} `{!Store S OutPoint OwnCoin} `{!StoreLaws S OutPoint OwnCoin} `{!StoreTotal S OutPoint OwnCoin}.
Context {T : Type} `{!Store T Txid SpTxStore.SpTxEntry}.
Context {Lb : Type} `{!Store Lb TxStore.LabelKey string}.
Context `{HeaderValidator.HeaderLib} {SH : Type} `{!Store SH N HeaderValidator.raw_header}.
Context {W : Type} `{!Scanner W} `{!ScannerLaws W}.
Implicit Types (a : Account (S:=S) (T:=T) (Lb:=Lb) (SH:=SH) (J:=J) (W:=W)) (l : list (nat * OwnCoin)).

(** The input map [m] holds a signature of input [i] that the output of the coin takes. *)
Definition signed_by_output (tx : Transaction) (prevouts : list TxOut) (i : nat) (e : OwnCoin) (m : option PsbtInput) : Prop :=
  ∃ x msg m' sig, p2tr_output_key (oo_script (SpCoinStore.output e)) = Some x ∧
    key_spend_sighash tx i prevouts = Some msg ∧ m = Some m' ∧ tap_key_sig (pi_rest m') = Some sig ∧
    verify_schnorr sig msg x = true.

(** An input map that got a key-spend signature. *)
Definition gets_key_sig (m m' : option PsbtInput) : Prop :=
  ∃ i sig, m = Some i ∧ m' = Some (mkPsbtInput _ (witness_utxo i) (set_tap_key_sig (Some sig) (pi_rest i))).
Lemma tweak_key b e : tweak_spends b (SpCoinStore.output e) → ∃ t k,
  sk_from_slice (tweak (SpCoinStore.output e)) = Some t ∧ sk_add_tweak b (scalar_of_sk t) = Some k ∧
  p2tr_output_key (oo_script (SpCoinStore.output e)) = Some (x_only_public_key (public_key k)).1.
Proof.
  intros (k & Hk & Hx). unfold sp_input_key in Hk. apply rbind_Ok in Hk as (t & Ht & (k' & Hk & [= ->])%rbind_Ok).
  exists t, k. destruct (sk_from_slice _); [|done]. injection Ht as ->. destruct (sk_add_tweak b _); [|done].
  injection Hk as ->. done.
Qed.
(** What no signature touches. *)
Definition same_frame (psbt psbt' : Psbt) : Prop :=
  unsigned_tx psbt' = unsigned_tx psbt ∧ psbt_version psbt' = psbt_version psbt ∧ psbt_outputs psbt' = psbt_outputs psbt.
Lemma sign_each_spec b aux prevouts l psbt :
  NoDup l.*1 → length (psbt_inputs psbt) = length prevouts → length prevouts = length (input (unsigned_tx psbt)) →
  Forall (λ c, (c.1 < length prevouts)%nat ∧ tweak_spends b (SpCoinStore.output c.2)) l →
  ∃ psbt', sign_each b aux prevouts l psbt = Ret (psbt', Ok tt) ∧ same_frame psbt psbt' ∧
    length (psbt_inputs psbt') = length (psbt_inputs psbt) ∧
    (∀ i e, (i, e) ∈ l → signed_by_output (unsigned_tx psbt) prevouts i e (psbt_inputs psbt' !! i) ∧
       gets_key_sig (psbt_inputs psbt !! i) (psbt_inputs psbt' !! i)) ∧
    ∀ i, i ∉ l.*1 → psbt_inputs psbt' !! i = psbt_inputs psbt !! i.
Proof.
  revert psbt; induction l as [|[i e] l IH]; intros psbt Hnd Hlen Hlen' Hl; cbn [sign_each].
  { exists psbt. split_and!; [done..| |done]. by intros ? ? ?%not_elem_of_nil. }
  apply Forall_cons in Hl as [[Hi Htw] Hl]. cbn in Hi, Htw, Hnd. apply NoDup_cons in Hnd as [Hni Hnd].
  destruct (sighash_exists (unsigned_tx psbt) i prevouts Hlen' ltac:(lia)) as [msg Hmsg].
  destruct (tweak_key _ _ Htw) as (t & k & Ht & Hk & Hx). rewrite Hmsg, Ht. cbn [ok_or rbind]. rewrite Hk. cbn [ok_or rbind].
  unfold set_key_sig. destruct (lookup_lt_is_Some_2 (psbt_inputs psbt) i) as [m Hm]; [lia|]. rewrite Hm. cbn [expect obind].
  match goal with |- context [sign_each b aux prevouts l ?p] => set (psbt1 := p) end.
  assert (length (psbt_inputs psbt1) = length prevouts) as Hlen1
    by (unfold psbt1; cbn [psbt_inputs]; by rewrite length_insert).
  destruct (IH psbt1 Hnd Hlen1 Hlen' Hl) as (psbt' & Hs & Htx & Hln & Hsig & Hkeep). exists psbt'.
  unfold psbt1, same_frame in Htx, Hsig, Hkeep. cbn [psbt_inputs unsigned_tx psbt_version psbt_outputs] in Htx, Hsig, Hkeep. split_and!; [exact Hs|done|congruence| |].
  - intros i' e' [[= -> ->]|Hin]%elem_of_cons.
    2: { destruct (Hsig _ _ Hin) as [Hs' Hg]. split; [done|]. rewrite list_lookup_insert_ne in Hg; [done|].
         intros ->. apply Hni. by apply (list_elem_of_fmap_2 fst l (i', e')). }
    rewrite Hkeep, list_lookup_insert_eq by (done || lia). split; [|by exists m, (sign_schnorr msg k aux)].
    exists (x_only_public_key (public_key k)).1, msg, (mkPsbtInput _ (witness_utxo m) (set_tap_key_sig (Some (sign_schnorr msg k aux)) (pi_rest m))), (sign_schnorr msg k aux).
    split_and!; [done..| |apply sign_verifies]. cbn. apply tap_key_sig_set.
  - intros i' [Hne Hni']%not_elem_of_cons. rewrite Hkeep by done. by rewrite list_lookup_insert_ne.
Qed.
Lemma sp_inputs_elem a psbt i e : (i, e) ∈ sp_inputs a psbt ↔
  ∃ txin, input (unsigned_tx psbt) !! i = Some txin ∧ SpCoins.view (coin_store a) !! previous_output txin = Some e.
Proof.
  unfold sp_inputs. rewrite list_elem_of_omap. split.
  - intros ([i' txin] & Hin & He). apply fmap_Some in He as (e' & He & [= -> ->]). rewrite SpCoins.get_view in He.
    apply elem_of_lookup_imap in Hin as (j & y & [= -> ->] & Hj). by exists y.
  - intros (txin & Hi & He). exists (i, txin). split; [|by rewrite SpCoins.get_view, He].
    apply elem_of_lookup_imap. by exists i, txin.
Qed.
Lemma omap_index {X Y} (f : X → option Y) (k : nat) (xs : list X) :
  Forall (λ i, (k ≤ i)%nat) (omap (λ '(i, x), (λ y, (i, y)) <$> f x) (imap (λ n, pair (k + n)%nat) xs)).*1 ∧
  NoDup (omap (λ '(i, x), (λ y, (i, y)) <$> f x) (imap (λ n, pair (k + n)%nat) xs)).*1.
Proof.
  revert k; induction xs as [|x xs IH]; intros k; [split; constructor|]. rewrite imap_cons. cbn [omap list_omap].
  assert (imap ((λ n, pair (k + n)%nat) ∘ Datatypes.S) xs = imap (λ n, @pair nat X (Datatypes.S k + n)%nat) xs) as ->.
  { apply imap_ext. intros n y _. cbn. f_equal. lia. }
  destruct (IH (Datatypes.S k)) as [Hf Hnd].
  assert (Forall (λ i, (k ≤ i)%nat) (omap (λ '(i, x), (λ y, (i, y)) <$> f x) (imap (λ n, pair (Datatypes.S k + n)%nat) xs)).*1).
  { eapply Forall_impl; [exact Hf|]. cbn. lia. }
  destruct (f x) as [y|]; cbn; [|done]. split; constructor; [lia|done| |done].
  rewrite Forall_forall in Hf. intros Hin%Hf. lia.
Qed.

Lemma sp_inputs_NoDup a psbt : NoDup (sp_inputs a psbt).*1.
Proof. apply (omap_index (λ input, SpCoinStore.get (coin_store a) (previous_output input)) 0). Qed.
Lemma prevouts_known (ins : list Coin) (txins : list TxIn) (ms : list PsbtInput) :
  Forall2 (λ c i, witness_utxo i = Some (Coin.txout c)) ins ms → length txins = length ins →
  prevouts_of (zip ms txins) = Ok (Coin.txout <$> ins).
Proof.
  intros Hf. revert txins; induction Hf as [|c m ins ms Hc _ IH]; intros [|txin txins] Hlen; [done..|].
  cbn [zip zip_with prevouts_of]. rewrite Hc. cbn [ok_or rbind]. rewrite IH by (cbn in Hlen; lia). done.
Qed.

Abbreviation provider := (Recipient + (SpRecipientAddress + SpChangeRecipientProvider))%type.

(** The silent-payment inputs of a transaction. *)
Lemma sp_inputs_signed a psbt ins b aux : input (unsigned_tx psbt) = Coin.coin_to_txin <$> ins →
  Forall2 (λ c i, witness_utxo i = Some (Coin.txout c)) ins (psbt_inputs psbt) →
  try_get_secret_spend_key (sp_receiver a) = Ok b → coins_spendable b (coin_store a) →
  ∃ psbt', sign_sp_inputs (Some aux) a psbt = Ret (psbt', Ok tt) ∧ all_prevouts psbt = Ok (Coin.txout <$> ins) ∧
    same_frame psbt psbt' ∧ length (psbt_inputs psbt') = length (psbt_inputs psbt) ∧
    ∀ i txin, input (unsigned_tx psbt) !! i = Some txin →
      match SpCoins.view (coin_store a) !! previous_output txin with
      | Some e => signed_by_output (unsigned_tx psbt) (Coin.txout <$> ins) i e (psbt_inputs psbt' !! i) ∧
                  gets_key_sig (psbt_inputs psbt !! i) (psbt_inputs psbt' !! i)
      | None => psbt_inputs psbt' !! i = psbt_inputs psbt !! i
      end.
Proof.
  intros Hin Hw Hb Hspend.
  assert (length (input (unsigned_tx psbt)) = length ins) as Hlen by (by rewrite Hin, length_fmap).
  assert (all_prevouts psbt = Ok (Coin.txout <$> ins)) as Hpv by (by apply prevouts_known).
  pose proof (Forall2_length _ _ _ Hw) as Hlw.
  destruct (sign_each_spec b aux (Coin.txout <$> ins) (sp_inputs a psbt) psbt (sp_inputs_NoDup a psbt)) as (psbt' & Hs & Htx & Hln & Hsig & Hkeep).
  { by rewrite length_fmap. }
  { by rewrite length_fmap. }
  { apply Forall_forall. intros [i e] (txin & Hi & He)%sp_inputs_elem. cbn. rewrite length_fmap, <-Hlen.
    split; [by eapply lookup_lt_Some|by apply (Hspend _ _ He)]. }
  exists psbt'. split.
  - unfold sign_sp_inputs. case_bool_decide as Hnil.
    + rewrite Hnil in Hs. by cbn in Hs.
    + rewrite Hb, Hpv. exact Hs.
  - split; [done|]. split; [done|]. split; [done|]. intros i txin Hi.
    destruct (SpCoins.view (coin_store a) !! previous_output txin) as [e|] eqn:He.
    + apply Hsig, sp_inputs_elem. by exists txin.
    + apply Hkeep. intros ([i' e] & -> & (txin' & Hi' & He')%sp_inputs_elem)%list_elem_of_fmap. cbn in Hi. congruence.
Qed.

(** The input maps of silent-payment coins have no keys of a hot signer. *)
Definition own_coins_apart a : Prop := ∀ sub o c, sub ∈ sub_accounts a → scanner_coins sub !! o = Some c →
  SpCoins.view (coin_store a) !! o = None.
Lemma sp_map_no_keys a c e m : own_coins_apart a → own_unspent a c →
  SpCoins.view (coin_store a) !! Coin.outpoint c = Some e → Coin.to_psbt_input c = Ok m → HotSigner.no_keys m.
Proof.
  intros Hap [(e' & _ & _ & Hc)|(sub & Hsub & Hco & _)] He Hm; [|by rewrite (Hap _ _ _ Hsub Hco) in He].
  rewrite Hc in Hm. unfold Coin.to_psbt_input, sp_coin_entry_to_coin in Hm. cbn in Hm. injection Hm as <-. exact HotSigner.default_empty.
Qed.
Lemma key_sig_no_keys m m' i : gets_key_sig (Some m) m' → HotSigner.no_keys m → m' = Some i →
  HotSigner.no_keys i ∧ witness_utxo i = witness_utxo m.
Proof.
  intros (m0 & sig & [= <-] & ->) Hn [= <-]. split; [|done]. unfold HotSigner.no_keys. cbn [pi_rest].
  destruct (HotSigner.kept_fields (pi_rest m) (set_tap_key_sig (Some sig) (pi_rest m))) as (-> & -> & -> & _); [eauto|]. exact Hn.
Qed.

(** After the silent-payment inputs are signed, their maps still have no keys, and the
    others are as they were. *)
Lemma sp_signed_keeps a psbt psbt1 ins : own_coins_apart a → Forall (own_unspent a) ins →
  input (unsigned_tx psbt) = Coin.coin_to_txin <$> ins → Forall2 (λ c i, Coin.to_psbt_input c = Ok i) ins (psbt_inputs psbt) →
  length (psbt_inputs psbt1) = length (psbt_inputs psbt) →
  (∀ i txin, input (unsigned_tx psbt) !! i = Some txin →
     match SpCoins.view (coin_store a) !! previous_output txin with
     | Some _ => gets_key_sig (psbt_inputs psbt !! i) (psbt_inputs psbt1 !! i)
     | None => psbt_inputs psbt1 !! i = psbt_inputs psbt !! i
     end) →
  ∀ i m, psbt_inputs psbt !! i = Some m → ∃ txin m1, input (unsigned_tx psbt) !! i = Some txin ∧
    psbt_inputs psbt1 !! i = Some m1 ∧ witness_utxo m1 = witness_utxo m ∧
    match SpCoins.view (coin_store a) !! previous_output txin with Some _ => HotSigner.no_keys m1 | None => m1 = m end.
Proof.
  intros Hap Hown Hin Hmaps Hlen Hsig i m Hm. destruct (Forall2_lookup_r _ _ _ _ _ Hmaps Hm) as (c & Hc & Hcm).
  assert (input (unsigned_tx psbt) !! i = Some (Coin.coin_to_txin c)) as Hi by (by rewrite Hin, list_lookup_fmap, Hc).
  destruct (lookup_lt_is_Some_2 (psbt_inputs psbt1) i) as [m1 Hm1]; [rewrite Hlen; by eapply lookup_lt_Some|].
  exists (Coin.coin_to_txin c), m1. split; [done|]. split; [done|]. specialize (Hsig _ _ Hi).
  change (previous_output (Coin.coin_to_txin c)) with (Coin.outpoint c) in *.
  destruct (SpCoins.view (coin_store a) !! Coin.outpoint c) as [e|] eqn:He.
  - rewrite Hm in Hsig. rewrite Forall_forall in Hown.
    pose proof (sp_map_no_keys a c e m Hap (Hown _ (list_elem_of_lookup_2 _ _ _ Hc)) He Hcm) as Hn.
    destruct (key_sig_no_keys _ _ _ Hsig Hn Hm1) as [Hn1 Hw1]. by split.
  - rewrite Hm1, Hm in Hsig. by injection Hsig as ->.
Qed.

(** C6. What is prepared can be signed. When every coin of the store can be spent with
    the spend key, as the recording of outputs keeps it, and the hot signers can look at
    the inputs of the sub-accounts, signing a transaction prepared for a request succeeds:
    each silent-payment input gets a key-spend signature, over that transaction and all its
    prevouts, that verifies under the key of the output it spends; and each other input
    that spends an address of a hot signer gets one that verifies under the signer's key.
    Nothing else changes: the transaction, the version and the output maps are as they
    were, the map of a silent-payment input is the old one with that signature, and those
    of the other inputs only gain signatures the hot signers may add. *)
Theorem account_signs fuel (Hgrind : ∀ hash k, is_Some (HotSigner.grind fuel hash k 0)) rr sc so
    (Hchecked : overflow_checks = true) (Hsc : ∀ cs : list Coin, sc cs ≡ₚ cs)
    (Hso : ∀ outs : list provider, so outs ≡ₚ outs) a req psbt b aux :
  Forall scanner_ok (sub_accounts a) → own_coins_apart a →
  prepare rr sc so a req = Ret (Ok psbt) → try_get_secret_spend_key (sp_receiver a) = Ok b →
  coins_spendable b (coin_store a) →
  (∀ fg s, HotSigner.bip32_signers (signing_manager a) !! fg = Some s → HotSigner.usable s ∧
     ∀ i txin m, input (unsigned_tx psbt) !! i = Some txin → SpCoins.view (coin_store a) !! previous_output txin = None →
       psbt_inputs psbt !! i = Some m → HotSigner.regular s (unsigned_tx psbt) (HotSigner.prevouts psbt) i m) →
  ∃ psbt' prevouts, sign_psbt fuel (Some aux) a psbt = Some (Ret (psbt', Ok tt)) ∧ all_prevouts psbt = Ok prevouts ∧
    unsigned_tx psbt' = unsigned_tx psbt ∧ psbt_version psbt' = psbt_version psbt ∧ psbt_outputs psbt' = psbt_outputs psbt ∧
    Forall2 (λ m m', witness_utxo m' = witness_utxo m) (psbt_inputs psbt) (psbt_inputs psbt') ∧
    ∀ i txin, input (unsigned_tx psbt) !! i = Some txin →
      match SpCoins.view (coin_store a) !! previous_output txin with
      | Some e => signed_by_output (unsigned_tx psbt) prevouts i e (psbt_inputs psbt' !! i) ∧
          gets_key_sig (psbt_inputs psbt !! i) (psbt_inputs psbt' !! i)
      | None =>
          (∀ fg s d m, HotSigner.bip32_signers (signing_manager a) !! fg = Some s → d ∈ HotSigner.descriptors s →
            psbt_inputs psbt !! i = Some m → HotSigner.signed_if_own s d i m psbt') ∧
          ∀ m m', psbt_inputs psbt !! i = Some m → psbt_inputs psbt' !! i = Some m' →
            rtc (HotSigner.adds_any (λ s, ∃ fg, HotSigner.bip32_signers (signing_manager a) !! fg = Some s)
                   (unsigned_tx psbt) (HotSigner.prevouts psbt) i (witness_utxo m)) (pi_rest m) (pi_rest m')
      end.
Proof.
  intros Hok Hap Hp Hb Hspend Hhot.
  destruct (prepare_inv rr sc so Hchecked Hsc Hso a req psbt Hp) as (bd & r & f & ins & _ & Hbd & Hr & _ & _ & Hins & _ & Hin & Hmaps & _).
  destruct (builder_coins rr a req bd Hok Hbd r Hr) as [Hown _]. rewrite <-Hins in Hown.
  destruct (sp_inputs_signed a psbt ins b aux Hin (input_utxos _ _ Hmaps) Hb Hspend) as (psbt1 & Hs & Hpv & (Htx1 & Hv1 & Ho1) & Hlen1 & Hsig).
  assert (Hkeep := sp_signed_keeps a psbt psbt1 ins Hap Hown Hin Hmaps Hlen1).
  specialize (Hkeep ltac:(intros i txin Hi; specialize (Hsig _ _ Hi); destruct (SpCoins.view _ !! _); [apply Hsig|exact Hsig])).
  assert (Forall2 (λ m m', witness_utxo m' = witness_utxo m) (psbt_inputs psbt) (psbt_inputs psbt1)) as Hw1.
  { apply Forall2_same_length_lookup_2; [done|]. intros i m m1 Hm Hm1. destruct (Hkeep _ _ Hm) as (? & m2 & _ & Hm2 & Hw & _). congruence. }
  destruct (HotSigner.sign_psbt_run fuel Hgrind (signing_manager a) psbt1) as (psbt' & Hr' & Htx' & Hw' & (_ & Hv' & Ho' & _ & Hadds) & Hun & Hs').
  { intros fg s Hfg. destruct (Hhot _ _ Hfg) as [Hu Hreg]. split; [done|]. intros i m1 Hm1.
    destruct (Forall2_lookup_r _ _ _ _ _ Hw1 Hm1) as (m & Hm & _). destruct (Hkeep _ _ Hm) as (txin & m2 & Hi & Hm2 & _ & Hcase).
    assert (m2 = m1) as -> by congruence. destruct (SpCoins.view _ !! _) eqn:He; [by apply HotSigner.no_keys_regular|]. subst m1.
    rewrite Htx1, (HotSigner.same_prevouts _ _ Hw1). by eapply Hreg. }
  exists psbt', (Coin.txout <$> ins). split.
  { unfold sign_psbt, can_sign. by rewrite Hb, Hs, Hr'. }
  split; [done|]. do 3 (split; [congruence|]). split; [by eapply HotSigner.utxos_trans|]. intros i txin Hi. specialize (Hsig _ _ Hi).
  assert (is_Some (psbt_inputs psbt !! i)) as [m Hm].
  { apply lookup_lt_is_Some_2. rewrite <-(Forall2_length _ _ _ Hmaps), <-(length_fmap Coin.coin_to_txin), <-Hin. by eapply lookup_lt_Some. }
  destruct (Hkeep _ _ Hm) as (txin' & m1 & Hi' & Hm1 & _ & Hcase). assert (txin' = txin) as -> by congruence.
  destruct (SpCoins.view _ !! _) as [e|].
  - rewrite (Hun _ _ Hm1 Hcase), <-Hm1. apply Hsig.
  - subst m1. split.
    + intros fg s d m2 Hfg Hd Hm2. assert (m2 = m) as -> by congruence. by apply (Hs' fg s d i m).
    + intros m2 m' Hm2 Hm'. assert (m2 = m) as -> by congruence. rewrite <-Htx1, <-(HotSigner.same_prevouts _ _ Hw1). by apply Hadds.
Qed.
End signing.

(** ** Witnesses *)
Module Witness.
Import SpPayment.Sample SpReceiving.Templates SpAccount.Witness Persist.Persist.
#[local] Existing Instances Recipient.dyn_provider Recipient.dyn_laws.
#[local] Existing Instances SpCommon.SilentPaymentAddress_eqdec SpCommon.SilentPaymentAddress_countable.
#[local] Existing Instances SpReceiving.Label_eqdec SpReceiving.Label_countable.
#[local] Existing Instances Bitcoin.Sample.sample_lib Bitcoin.Sample.sample_build Toy.curve Toy.laws BiList.lib BiList.laws.
#[local] Existing Instances HotSigner.Witness.sign_lib HotSigner.Witness.sign_laws.
#[local] Existing Instances HotSigner.Witness.signer_lib HotSigner.Witness.signer_laws Derivator.Derivator.Witness.sample_descriptors.
#[local] Existing Instances HeaderValidator.Sample.sample_headers SpAccount.Witness.coins_recorder CoinStore.CoinStore.Witness.no_labels.

(** A sub-account that holds coins. *)
Definition filed (l : list Coin) : gmap OutPoint Coin := list_to_map ((λ c, (Coin.outpoint c, c)) <$> l).
#[export] Instance coins_scanner : Scanner (list Coin) := {|
  scanner_kind _ := Notification.Segwit;
  scanner_coins := filed;
  scanner_source l := Ret (filter (λ c, live c = true) (bt_values (filed l)));
  scanner_totals l := Ret ((N.of_nat (length l), sumN (Coin.value <$> l)), (0, 0));
  scanner_balance l := Ret (sumN (Coin.value <$> l));
  scanner_contributions _ := Ret ∅
|}.
Lemma filed_outpoint l o c : filed l !! o = Some c → Coin.outpoint c = o.
Proof.
  intros Hl%elem_of_list_to_map_2. apply list_elem_of_fmap in Hl as (c' & [= -> ->] & _). done.
Qed.
Lemma source_filed l src c : True → scanner_source l = Ret src → c ∈ src →
  filed l !! Coin.outpoint c = Some c ∧ Coin.status c ≠ Coin.Spent.
Proof.
  intros _ [= <-] [Hlive [o Ho]%elem_of_bt_values]%list_elem_of_filter.
  rewrite (filed_outpoint _ _ _ Ho). split; [done|]. intros Hst. unfold live in Hlive. by rewrite Hst in Hlive.
Qed.
#[export] Instance coins_scanner_laws : ScannerLaws (list Coin) :=
  Build_ScannerLaws _ _ _ (λ _, True) (λ l o c _, filed_outpoint l o c) source_filed.

(** The account paid, once it has recorded the payment, with a sub-account. *)
Definition received : RamStore unit OutPoint SpCoinStore.SpCoinEntry :=
  match record_spend 5 acct tx stores with Some (Ret (Ok (st, _))) => SpAccount.coin_store st | _ => coins0 end.
Definition hot : HotSigner.HotSigner :=
  HotSigner.mkHotSigner (HotSigner.mkKeyDerivator 4 4 (Some 4)) {[2]} Bitcoin.Regtest true.
Definition manager : HotSigner.SigningManager (S:=HotSigner.Witness.Rows) :=
  HotSigner.mkManager {[4 := hot]} ∅ HotSigner.Witness.rows [] [].
Definition wallet : Account (S:=RamStore unit OutPoint SpCoinStore.SpCoinEntry) (T:=RamStore unit Txid SpTxStore.SpTxEntry)
    (Lb:=unit) (SH:=RamStore unit N HeaderValidator.raw_header) (J:=HotSigner.Witness.Rows) (W:=list Coin) :=
  mkAccount acct received tt txs0 None Bitcoin.Regtest [[wpkh_coin]] manager None.
(** Two coins asked for, one of each kind, and an output of data. *)
Definition silent_coin : OutPoint := mkOutPoint (compute_txid tx) 2.
Definition asked : TxRequest :=
  mkRequest [mkOutputSpec "6869" 1500 None false] f64_one 500 [silent_coin; mkOutPoint 7 0] None.
Definition ready : outcome (result Psbt TxRequestError) := prepare (λ _ _, 0%nat) (λ l, l) (λ l, l) wallet asked.
Definition transfer : Psbt := match ready with Ret (Ok p) => p | _ => empty end.
Lemma ready_transfer : ready = Ret (Ok transfer).
Proof.
  assert (match ready with Ret (Ok _) => true | _ => false end = true) as Hf by (vm_compute; reflexivity).
  unfold transfer. by destruct ready as [[p|]|].
Qed.
Lemma silent_listed : silent_coin ∈ input_outpoints asked.
Proof. left. Qed.
Lemma data_owed : requested_txout (network wallet) (mkOutputSpec "6869" 1500 None false) = Some (mkTxOut 1500 [106; 1; 4]).
Proof. vm_compute. reflexivity. Qed.
Lemma scanners_ok : Forall scanner_ok (sub_accounts wallet).
Proof. apply Forall_cons. split; [exact I|by apply Forall_nil]. Qed.
Lemma request_prepared_witness : prepare (λ _ _, 0%nat) (λ l, l) (λ l, l) wallet asked = Ret (Ok transfer) ∧
  silent_coin ∈ previous_output <$> input (unsigned_tx transfer) ∧
  mkTxOut 1500 [106; 1; 4] ∈ output (unsigned_tx transfer).
Proof.
  split; [exact ready_transfer|].
  destruct (request_prepared (λ _ _, 0%nat) (λ l, l) (λ l, l) eq_refl (λ _, reflexivity _) (λ _, reflexivity _) wallet asked transfer)
    as (ins & f & Hin & _ & _ & Hasked & _ & Howed & _).
  - exact scanners_ok.
  - exact ready_transfer.
  - split.
    + rewrite Hin. pose proof (proj2 (Hasked ltac:(done) silent_coin) silent_listed) as Hs.
      apply list_elem_of_fmap in Hs as (c & -> & Hc).
      rewrite <-list_fmap_compose. apply (list_elem_of_fmap_2 (previous_output ∘ Coin.coin_to_txin) ins c Hc).
    + eapply elem_of_submseteq; [|exact Howed]. apply list_elem_of_omap. exists (mkOutputSpec "6869" 1500 None false).
      split; [left|exact data_owed].
Defined.

Lemma spender_secret : try_get_secret_spend_key (sp_receiver wallet) = Ok spend_secret.
Proof. vm_compute. reflexivity. Qed.
Definition spends (e : OwnCoin) : bool :=
  match sp_input_key spend_secret (tweak (SpCoinStore.output e)) with
  | Ok (k, even) => even && bool_decide (p2tr_output_key (oo_script (SpCoinStore.output e)) = Some (x_only_public_key (public_key k)).1)
  | Err _ => false
  end.
Lemma all_spend : forallb (λ c, spends c.2) (map_to_list (SpCoins.view received)) = true.
Proof. vm_compute. reflexivity. Qed.
Lemma received_spendable : coins_spendable spend_secret received.
Proof.
  intros op e He%elem_of_map_to_list%list_elem_of_In. pose proof (proj1 (forallb_forall _ _) all_spend _ He) as Hs.
  unfold spends in Hs. cbn [snd] in Hs. unfold tweak_spends.
  destruct (sp_input_key spend_secret (tweak (SpCoinStore.output e))) as [[k even]|]; [|done].
  apply andb_true_iff in Hs as [-> Hs%bool_decide_eq_true_1].
  exists k. split; [reflexivity|exact Hs].
Qed.
Lemma two_inputs : length (input (unsigned_tx transfer)) = 2%nat.
Proof. vm_compute. reflexivity. Qed.
Lemma only_signer fg s : HotSigner.bip32_signers (signing_manager wallet) !! fg = Some s → s = hot.
Proof. intros Hs. cbn in Hs. by apply lookup_singleton_Some in Hs as [_ <-]. Qed.
Lemma apart_computed : SpCoins.view received !! mkOutPoint 7 0 = None.
Proof. vm_compute. reflexivity. Qed.
Lemma coins_apart : own_coins_apart wallet.
Proof.
  intros sub o c ->%list_elem_of_singleton Hc%elem_of_list_to_map_2. apply list_elem_of_singleton in Hc. injection Hc as -> ->.
  exact apart_computed.
Qed.
Definition hot_der : HotSigner.SpkDerivator := Derivator.Derivator.mkSpkDerivator 2 4 5 Bitcoin.Regtest.
Lemma hot_der_made : Derivator.Derivator.new (2 : Descriptor) Bitcoin.Regtest = Ret (Ok hot_der).
Proof. reflexivity. Qed.
Lemma hot_only d : d ∈ HotSigner.descriptors hot → d = 2.
Proof. apply elem_of_singleton. Qed.
Lemma hot_usable : HotSigner.usable hot.
Proof. intros d ->%hot_only. exists hot_der. exact hot_der_made. Qed.
Lemma hot_derives : HotSigner.derivable hot 3.
Proof.
  exists (key_at 4 3), (false, 3). split; [reflexivity|]. split; [reflexivity|]. intros d der ->%hot_only Hn.
  change (HotSigner.network hot) with Bitcoin.Regtest in Hn. rewrite hot_der_made in Hn. injection Hn as <-. eexists. reflexivity.
Qed.
Definition wpkh_map : PsbtInput := mkPsbtInput _ (Some (Coin.txout wpkh_coin)) 1.
Lemma map_parts (o : option PsbtInput) m w (r : N) :
  (λ m : PsbtInput, (witness_utxo m, (pi_rest m : N))) <$> o = Some (w, r) → o = Some m → m = mkPsbtInput _ w r.
Proof. intros Hc ->. destruct m as [w' r']. by injection Hc as -> ->. Qed.
Lemma second_map m : psbt_inputs transfer !! 1%nat = Some m → m = wpkh_map.
Proof. apply map_parts. by_decision. Qed.
Lemma transfer_inputs : previous_output <$> input (unsigned_tx transfer) = [silent_coin; mkOutPoint 7 0].
Proof. by_decision. Qed.
Lemma silent_recorded : is_Some (SpCoins.view received !! silent_coin).
Proof. by_decision. Qed.
Lemma hot_reads : HotSigner.own_paths hot wpkh_map = [3].
Proof. by_decision. Qed.
Lemma second_regular tx outs : HotSigner.regular hot tx outs 1 wpkh_map.
Proof.
  apply (HotSigner.regular_segwit _ _ _ _ _ [1; lock_time tx; 5000] (Coin.txout wpkh_coin)); try reflexivity; try by_decision.
  intros path. rewrite hot_reads. intros ->%list_elem_of_singleton. exact hot_derives.
Qed.
Lemma hot_looks i txin m : input (unsigned_tx transfer) !! i = Some txin →
  SpCoins.view received !! previous_output txin = None → psbt_inputs transfer !! i = Some m →
  HotSigner.regular hot (unsigned_tx transfer) (HotSigner.prevouts transfer) i m.
Proof.
  intros Hi Hn Hm. assert ((previous_output <$> input (unsigned_tx transfer)) !! i = Some (previous_output txin)) as Hp
    by (by rewrite list_lookup_fmap, Hi).
  rewrite transfer_inputs in Hp. destruct i as [|[|i]]; [| |discriminate Hp].
  - injection Hp as Hp. rewrite <-Hp in Hn. destruct silent_recorded as [e He]. congruence.
  - rewrite (second_map m Hm). apply second_regular.
Qed.
Lemma account_signs_witness : ∃ psbt' prevouts, sign_psbt 3 (Some [1; 2]) wallet transfer = Some (Ret (psbt', Ok tt)) ∧
  all_prevouts transfer = Ok prevouts ∧ length (input (unsigned_tx psbt')) = 2%nat.
Proof.
  destruct (account_signs 3 HotSigner.Witness.nonce_found (λ _ _, 0%nat) (λ l, l) (λ l, l) eq_refl (λ _, reflexivity _)
    (λ _, reflexivity _) wallet asked transfer spend_secret [1; 2]) as (psbt' & prevouts & Hs & Hp & Htx & _).
  - exact scanners_ok.
  - exact coins_apart.
  - exact ready_transfer.
  - exact spender_secret.
  - exact received_spendable.
  - intros fg s ->%only_signer. split; [exact hot_usable|exact hot_looks].
  - exists psbt', prevouts. split; [exact Hs|]. split; [exact Hp|]. rewrite Htx. exact two_inputs.
Defined.
End Witness.
End SpWallet.
