(* ===== verification/SpControl.v ===== *)
(** * The scan threads of an account (sp/src/scan/mod.rs)

    A scan runs on a thread of its own: once to the tip, or again and again until it is
    stopped. The account keeps the handle of the thread and the flag that stops it.
    What a thread meets - the answers of the oracle, the stop flag at each turn, what a
    pass receives - comes in as a list of turns. *)
From stdpp Require Import base gmap list sets sorting strings.
From Stdlib Require Import Lia.
From S2P Require Import Prelude Bitcoin Persist HeaderBackend HeaderValidator HeaderStore.
From S2P Require Import Notification SpCoinStore SpTxStore SpState SpScan SpSweep.
From S2P Require SpAccount.

Module SpControl.
Import Persist SpState SpCoinStore SpScan SpSweep.
Import HeaderValidator(HeaderLib, raw_header).
Import SpAccount.SpAccount(AccountError, ScannerAlreadyRunning, ENetwork, EScan, EPersist).

(** [enum ScanMode]. *)
Inductive ScanMode := OneShot | Continuous.

Section control.
Context `{Build} `{StateCodec} {B : Type} `{PersistenceBackend B}.
Context {CS : Type} `{!Store CS OutPoint SpCoinEntry}.
Context {TS : Type} `{!Store TS Txid SpTxStore.SpTxEntry}.
Context `{HeaderLib} {SH : Type} `{!Store SH N raw_header}.
Context {Sc : Type} `{!SpendScanner Sc} `{SpLib}.
Abbreviation Stores := (ScanStores (B:=B) (CS:=CS) (TS:=TS) (SH:=SH)).
Implicit Types st : Stores.

(** What a pass meets: see [SpSweep.process_scan]. *)
Record Pass := mkPass {
  hash_at : N → result BlockHash Error;
  arrivals : N → N → list Arrival;
  last_stop : bool;
  scanner : N → N → Sc;
  turn : nat → bool * bool
}.
Definition scan_pass (p : Pass) (start e : N) (st : Stores) : Swept :=
  process_scan (hash_at p) (arrivals p) (last_stop p) (scanner p) (turn p) start e st.

(** How a thread is found: at its end, still watching, or in a call that does not
    return. *)
Inductive Run := Ended (st : Stores) | Watching (st : Stores) | RunPanics | RunHangs | RunNoFuel.
Definition after (s : Swept) (k : Stores → result ScanOutcome Error → Run) : Run :=
  match s with
  | Sweeps st r => k st r
  | SweepPanics => RunPanics
  | SweepHangs => RunHangs
  | NoFuel => RunNoFuel
  end.
(** Where the two passes would go on. *)
Definition resuming (st : Stores) (k : N → N → Run) : Run :=
  match next_scan_start (scan_state st), next_spend_start (scan_state st) with
  | Ret scan, Ret spend => k scan spend
  | _, _ => RunPanics
  end.
Definition caught_up (override : option N) (start_height spend_resume chain_height : N) : bool :=
  bool_decide (override = None) && (chain_height <? start_height) && (chain_height <? spend_resume).

(** The thread of [scan_oneshot]; [tip] is what the oracle answers. *)
Definition oneshot_thread (start : option N) (min_birthday : N) (tip : option N) (p : Pass) (st : Stores) : Run :=
  match tip with
  | None => Ended (notify Notification.FailStartScanning st)
  | Some chain_height =>
      resuming st (λ resume_start spend_resume,
        let start_height := N.max (default resume_start start) min_birthday in
        if caught_up start start_height spend_resume chain_height then Ended (notify Notification.ScanCompleted st)
        else
          match from_consensus start_height, from_consensus chain_height with
          | Ok start, Ok e =>
              let st := notify (Notification.ScanStarted (N.min start_height chain_height) chain_height) st in
              after (scan_pass p start e st) (λ st r,
                match r with
                | Ok outcome => Ended (notify (outcome_notification outcome) st)
                | Err _ => Ended (notify Notification.FailScan st)
                end)
          | _, _ => Ended (notify Notification.FailScan st)
          end)
  end.

(** A turn of the loop: the stop flag, the answer of the oracle, the pass. *)
Record Turn := mkTurn { stopping : bool; tip : option N; pass : Pass }.
Definition stopped (st : Stores) : Run := Ended (notify (outcome_notification (interrupted st)) st).

(** The thread of [start_continuous_scan]: its loop over the turns, with its local
    variables. *)
Fixpoint watch_loop (turns : list Turn) (last_notified_tip : option N) (waiting : bool) (first_start : option N)
    (st : Stores) : Run :=
  match turns with
  | [] => Watching st
  | t :: turns =>
      if stopping t then stopped st
      else
        match tip t with
        | None => stopped (notify Notification.FailStartScanning st)
        | Some chain_height =>
            resuming st (λ resume_start spend_resume,
              let start_height := default resume_start first_start in
              if caught_up first_start start_height spend_resume chain_height then
                watch_loop turns last_notified_tip true None
                  (if waiting then st else notify (Notification.WaitingForBlocks chain_height) st)
              else
                let st :=
                  match last_notified_tip with
                  | Some prev_tip =>
                      if prev_tip <? chain_height then notify (Notification.NewBlocksDetected prev_tip chain_height) st
                      else st
                  | None => st
                  end in
                match from_consensus start_height, from_consensus chain_height with
                | Ok start, Ok e =>
                    let st := notify (Notification.ScanStarted (N.min start_height chain_height) e) st in
                    after (scan_pass (pass t) start e st) (λ st r,
                      match r with
                      | Ok Completed =>
                          watch_loop turns (Some chain_height) false None (notify Notification.ScanCompleted st)
                      | Ok (Interrupted _ _) => stopped st
                      | Err _ => stopped (notify Notification.FailScan st)
                      end)
                | _, _ => watch_loop turns last_notified_tip false None st
                end)
        end
  end.
Definition continuous_thread (start : option N) (turns : list Turn) (st : Stores) : Run :=
  watch_loop turns None false start st.

(** *** The methods of the account *)

(** A thread that has not been joined yet. *)
Inductive Thread := Working (mode : ScanMode) (start : option N) | Finished.
Record Control := mkControl {
  stores : Stores;
  scanner_handle : option Thread;
  scanner_stop : bool;
  min_birthday_height : N
}.

Definition is_scanning (c : Control) : bool :=
  match scanner_handle c with Some (Working _ _) => true | _ => false end.
Definition scan_oneshot (start : option N) (c : Control) : Control * result unit AccountError :=
  if is_scanning c then (c, Err ScannerAlreadyRunning)
  else (mkControl (stores c) (Some (Working OneShot start)) false (min_birthday_height c), Ok tt).
Definition start_continuous_scan (start : option N) (c : Control) : Control * result unit AccountError :=
  match scanner_handle c with
  | Some _ => (c, Err ScannerAlreadyRunning)
  | None =>
      let first_start := (λ h, N.max h (min_birthday_height c)) <$> start in
      (mkControl (notify Notification.StartingScan (stores c)) (Some (Working Continuous first_start)) false
         (min_birthday_height c), Ok tt)
  end.
Definition start_scan (mode : ScanMode) (start : option N) (c : Control) : Control * result unit AccountError :=
  match mode with OneShot => scan_oneshot start c | Continuous => start_continuous_scan start c end.
(** [stop_scan] up to the join, and the join, which waits for the thread to end. *)
Definition request_stop (c : Control) : Control :=
  mkControl (notify Notification.StoppingScan (stores c)) (scanner_handle c) true (min_birthday_height c).
Definition join (c : Control) : option Control :=
  if is_scanning c then None else Some (mkControl (stores c) None (scanner_stop c) (min_birthday_height c)).
Definition clear_scan_state (c : Control) : Control * result unit AccountError :=
  if is_scanning c then (c, Err ScannerAlreadyRunning)
  else
    let '(state, r) := try_persist (clear_progress (scan_state (stores c))) in
    (mkControl (set_scan_state state (stores c)) (scanner_handle c) (scanner_stop c) (min_birthday_height c),
     Prelude.rmap_err (λ _, EPersist) r).

(** What a thread meets, whichever its mode. *)
Definition run_thread (mode : ScanMode) (start : option N) (min_birthday : N) (first : Turn) (turns : list Turn)
    (st : Stores) : Run :=
  match mode with
  | OneShot => oneshot_thread start min_birthday (tip first) (pass first) st
  | Continuous => continuous_thread start (first :: turns) st
  end.

(** [Account::scan_blocks], a scan on the caller's own thread. *)
Inductive Called := Returns (c : Control) (r : result unit AccountError) | CallPanics | CallHangs | CallNoFuel.
Definition with_stores (st : Stores) (c : Control) : Control :=
  mkControl st (scanner_handle c) (scanner_stop c) (min_birthday_height c).
Definition scan_blocks (tip : option N) (p : Pass) (start e : option N) (c : Control) : Called :=
  match start, e with
  | None, None => let '(c, r) := start_scan OneShot None c in Returns c r
  | _, _ =>
      let c := mkControl (stores c) (scanner_handle c) false (min_birthday_height c) in
      match next_scan_start (scan_state (stores c)), next_spend_start (scan_state (stores c)) with
      | Ret resume_start, Ret spend_resume =>
          let start_height := default resume_start start in
          match match e with Some h => Some h | None => tip end with
          | None => Returns c (Err ENetwork)
          | Some end_height =>
              if (end_height <? start_height) && (end_height <? spend_resume) then Returns c (Ok tt)
              else
                match from_consensus start_height, from_consensus end_height with
                | Ok start, Ok e =>
                    match scan_pass p start e (stores c) with
                    | Sweeps st (Ok outcome) => Returns (with_stores (notify (outcome_notification outcome) st) c) (Ok tt)
                    | Sweeps st (Err _) => Returns (with_stores st c) (Err EScan)
                    | SweepPanics => CallPanics
                    | SweepHangs => CallHangs
                    | NoFuel => CallNoFuel
                    end
                | _, _ => Returns c (Err EScan)
                end
          end
      | _, _ => CallPanics
      end
  end.
End control.

(** ** What a pass reports *)

Section reports.
Context `{Build} `{StateCodec} {B : Type} `{PersistenceBackend B}.
Context {CS : Type} `{!Store CS OutPoint SpCoinEntry}.
Context {TS : Type} `{!Store TS Txid SpTxStore.SpTxEntry}.
Context `{HeaderLib} {SH : Type} `{!Store SH N raw_header}.
Context {Sc : Type} `{!SpendScanner Sc} `{SpLib}.
Abbreviation Stores := (ScanStores (B:=B) (CS:=CS) (TS:=TS) (SH:=SH)).
Implicit Types st : Stores.

(** What happens in a pass, not how it began or ended. *)
Definition pass_note (n : Notification.SpNotification) : bool :=
  match n with
  | Notification.Reorg _ | Notification.NewOutput _ | Notification.OutputSpent _
  | Notification.ScanReceiveProgress _ _ | Notification.ScanSpendProgress _ _ => true
  | _ => false
  end.
Definition birthday st : N := birthday_height (scan_state st).
Definition reports st st' : Prop :=
  birthday st' = birthday st ∧ ∃ n, sent st' = sent st ++ n ∧ Forall (λ x, pass_note x = true) n.
#[local] Instance reports_preorder : PreOrder reports.
Proof.
  split.
  - intros st. split; [done|]. exists []. by rewrite app_nil_r.
  - intros st1 st2 st3 (Hb1 & n & Hs1 & Hn) (Hb2 & n' & Hs2 & Hn'). split; [congruence|]. exists (n ++ n').
    rewrite Hs2, Hs1, app_assoc. split; [done|]. by apply Forall_app.
Qed.
Lemma reports_same st st' : sent st' = sent st → birthday st' = birthday st → reports st st'.
Proof. intros Hs Hb. split; [done|]. exists []. by rewrite app_nil_r. Qed.
Lemma reports_note n st : pass_note n = true → reports st (notify n st).
Proof. intros Hn. split; [done|]. exists [n]. split; [done|]. by constructor. Qed.
Lemma reports_state st s : birthday_height s = birthday st → reports st (set_scan_state s st).
Proof. intros Hb. by apply reports_same. Qed.
Lemma reports_save st : reports st (save_state st).
Proof.
  apply reports_same; [done|]. unfold save_state, birthday. cbn [set_scan_state set_tx_store set_coin_store scan_state].
  by destruct (persist_state (scan_state st)) as (_ & _ & -> & _).
Qed.
#[local] Hint Resolve reports_same reports_note : core.

Lemma foldl_reports {A X} (f : Stores * A → X → Stores * A) l acc :
  (∀ acc x, reports acc.1 (f acc x).1) → reports acc.1 (foldl f acc l).1.
Proof.
  intros Hf. revert acc; induction l as [|x l IH]; intros acc; [done|]. cbn [foldl]. etrans; [apply Hf|apply IH].
Qed.
Lemma block_time_reports h st : reports st (block_time h st).1.
Proof. apply reports_same; unfold block_time; by destruct (header_store st). Qed.
Lemma record_outputs_reports outs st : reports st (record_outputs outs st).
Proof.
  unfold record_outputs.
  assert (reports st (foldl record_output (st, ∅) (bt_items outs)).1) as Hs1.
  { apply (foldl_reports record_output (bt_items outs) (st, ∅)). intros [st1 m] o. cbn. apply (reports_note _ (set_coin_store _ st1)). done. }
  destruct (foldl record_output (st, ∅) (bt_items outs)) as [st1 by_tx]. cbn [fst] in Hs1. etrans; [exact Hs1|].
  set (st2 := set_coin_store _ st1).
  assert (reports st2 (foldl resolve_time (st2, []) (bt_items by_tx)).1) as Hs2.
  { apply (foldl_reports resolve_time (bt_items by_tx) (st2, [])). intros [st3 l] o. apply block_time_reports. }
  destruct (foldl resolve_time (st2, []) (bt_items by_tx)) as [st3 times]. cbn [fst] in Hs2.
  etrans; [|etrans; [exact Hs2|by apply reports_same]]. by apply reports_same.
Qed.
Lemma record_inputs_reports hash h ins st : reports st (record_inputs hash h ins st).
Proof.
  unfold record_inputs.
  assert (reports st (foldl (record_input hash) (st, []) (elements ins)).1) as Hs1.
  { apply (foldl_reports (record_input hash) (elements ins) (st, [])). intros [st1 m] o. cbn. apply (reports_note _ (set_coin_store _ st1)). done. }
  destruct (foldl (record_input hash) (st, []) (elements ins)) as [st1 confirmed]. cbn [fst] in Hs1.
  etrans; [exact Hs1|]. set (st2 := set_coin_store _ st1).
  assert (reports st1 st2) as Hs2 by (by apply reports_same). case_bool_decide; [done|]. etrans; [exact Hs2|].
  pose proof (block_time_reports h st2) as Hb.
  destruct (block_time h st2) as [st3 ts]. cbn [fst] in Hb. etrans; [exact Hb|]. by apply reports_same.
Qed.

(** A call that only reports what happens in a pass. *)
Definition quiet {A} (c : SpScan.scan A) : Prop := ∀ st st' r, c st = Ret (st', r) → reports st st'.
Lemma quiet_bind {A C} (c : SpScan.scan A) (k : A → SpScan.scan C) : quiet c → (∀ a, quiet (k a)) → quiet (sbind c k).
Proof.
  intros Hc Hk st st' r. unfold sbind. destruct (c st) as [[st1 [a|e]]|] eqn:He; [| |done].
  - intros Hr. etrans; [by eapply Hc|by eapply Hk].
  - intros [= <- _]. by eapply Hc.
Qed.
Lemma quiet_ret {A} (a : A) : quiet (sret (B:=B) (CS:=CS) (TS:=TS) (SH:=SH) a).
Proof. by intros st st' r [= <- _]. Qed.
Lemma quiet_advance hashes start heights : quiet (advance_over (CS:=CS) (TS:=TS) (SH:=SH) hashes start heights).
Proof.
  induction heights as [|h heights IH]; intros st st' r; cbn [advance_over]; [by intros [= <- _]|].
  intros (i & _ & (slot & _ & Hr)%obind_Ret)%obind_Ret. destruct slot as [hash|]; [|by injection Hr as <- _].
  apply obind_Ret in Hr as (s & Hs & Hr). etrans; [|by eapply IH]. apply reports_state.
  revert Hs. unfold advance_frontier. destruct (advances _ _); [|by intros [= <-]].
  intros (n & _ & [= <-])%obind_Ret. done.
Qed.
Lemma quiet_frontier start t hashes : quiet (record_scan_frontier (CS:=CS) (TS:=TS) (SH:=SH) start t hashes).
Proof.
  apply quiet_bind; [apply quiet_advance|]. intros _ st st' r [= <- _]. apply reports_state.
  by destruct (persist_state (scan_state st)) as (_ & _ & -> & _).
Qed.
Lemma quiet_commit start e h hash outs due c : quiet (commit_block (CS:=CS) (TS:=TS) (SH:=SH) start e h hash outs due c).
Proof.
  intros st st' r. unfold commit_block. intros Hr. repeat apply obind_Ret in Hr as (? & _ & Hr).
  set (st1 := if bool_decide (outs = ∅) then st else record_outputs outs st) in Hr.
  assert (reports st st1) as Hs1 by (unfold st1; case_bool_decide; [done|apply record_outputs_reports]).
  etrans; [exact Hs1|]. clearbody st1.
  assert (∀ (st2 : Stores) (c' : Collector) b (t : option N), reports st1 st2 →
    match b, t with
    | true, Some t => sbind (record_scan_frontier start t (seen c')) (λ _ st, Ret (save_state st, Ok c')) st2
    | _, _ => Ret (st2, Ok c')
    end = Ret (st', r) → reports st1 st') as Hgo.
  { intros st2 c' b t Hs2' Hk. etrans; [exact Hs2'|]. destruct b, t; try by injection Hk as <- _.
    revert Hk. apply (quiet_bind _ _ (quiet_frontier _ _ _)). intros _ st3 st4 r4 [= <- _]. apply reports_save. }
  destruct x2 as [t|].
  - destruct (_ || _); (eapply (Hgo _ (mkCollector _ _ _ _ _) due (Some t)); [|exact Hr]); [by apply reports_note|done].
  - eapply (Hgo _ (mkCollector _ _ _ _ _) due None); [|exact Hr]. done.
Qed.
Lemma quiet_stop start c : quiet (stop_here (CS:=CS) (TS:=TS) (SH:=SH) start c).
Proof.
  apply quiet_bind; [|intros _ st st' r [= <- _]; apply reports_save].
  destruct (recv_tip c); [apply quiet_frontier|apply quiet_ret].
Qed.
Lemma quiet_collect start e ls l c : quiet (collect (CS:=CS) (TS:=TS) (SH:=SH) start e ls l c).
Proof.
  revert c; induction l as [|a l IH]; intros c st st' r; cbn [collect].
  - destruct (negb _); [destruct ls; [apply quiet_stop|by intros [= <- _]]|].
    apply (quiet_bind _ _ (quiet_frontier _ _ _)). intros _ st1 st2 r2 [= <- _].
    etrans; [|apply reports_save]. by apply reports_note.
  - destruct (rbind _ _) as [[[h hash] outs]|]; [|by intros [= <- _]].
    apply (quiet_bind _ _ (quiet_commit _ _ _ _ _ _ _)). intros c'. destruct (SpScan.stopping a); [apply quiet_stop|apply IH].
Qed.
Lemma quiet_blocks start e ls l : quiet (process_blocks (CS:=CS) (TS:=TS) (SH:=SH) start e ls l).
Proof. intros st st' r (d & _ & Hr)%obind_Ret. by eapply quiet_collect. Qed.

(** *** The spend pass

    What the sweep does to the stores keeps [P], and when it completes the spend
    frontier is at the end. *)
Section kept.
Context (P : Stores → Prop) (e : N).
Context (Hnote : ∀ n st, pass_note n = true → P st → P (notify n st)).
Context (Hsave : ∀ st, P st → P (save_state st)).
Context (Hfrontier : ∀ h st, h < 500000000 → P st → P (record_spend_frontier h st)).
Context (Hinputs : ∀ hash h ins st, P st → P (record_inputs hash h ins st)).

Definition spend_at (st : Stores) : Prop := ∃ x, last_spend_height (scan_state st) = Some x ∧ e ≤ x.
Definition kept (s : Swept) : Prop :=
  match s with Sweeps st r => P st ∧ (r = Ok Completed → spend_at st) | _ => True end.

Lemma frontier_kept h st k :
  P st → (∀ st', P st' → (h = e → spend_at st') → kept (k st')) → kept (frontier_at h st k).
Proof.
  intros HP Hk. unfold frontier_at, from_consensus. destruct (N.ltb_spec h 500000000); [|by split]. apply Hk.
  - by apply Hsave, Hfrontier.
  - intros ->. unfold spend_at, save_state, record_spend_frontier. cbn [set_scan_state set_tx_store set_coin_store scan_state].
    destruct (persist_state (SpState.persist (advance_spend_frontier e (scan_state st)))) as (_ & -> & _).
    destruct (persist_state (advance_spend_frontier e (scan_state st))) as (_ & -> & _).
    unfold advance_spend_frontier, advances.
    destruct (last_spend_height (scan_state st)) as [x|] eqn:Hx; [destruct (N.ltb_spec x e)|];
      cbn [set_spend last_spend_height]; [by exists e|exists x; split; [done|lia]|by exists e].
Qed.
Lemma completed_kept st : P st → kept (frontier_at e st (λ st, Sweeps st (Ok Completed))).
Proof. intros HP. apply frontier_kept; [done|]. intros st' HP' Hs. split; [done|]. auto. Qed.
Lemma report_kept due h last go st : P st → (∀ last st', P st' → kept (go last st')) → kept (report due e h last go st).
Proof.
  intros HP Hgo. unfold report.
  assert (P (if SPEND_PROGRESS_INTERVAL <=? h - last then record_spend_progress h e st else st)) as HP'
    by (destruct (_ <=? _); [by apply Hnote|done]).
  destruct due; [|by apply Hgo]. apply frontier_kept; [done|]. auto.
Qed.
Lemma run_sweep_kept fuel turns k sc w c last st : P st → kept (run_sweep fuel turns e k sc w c last st).
Proof.
  revert k sc w c last st. induction fuel as [|fuel IH]; intros k sc w c last st HP; cbn [run_sweep]; [done|].
  destruct (e <? c); [by apply completed_kept|]. destruct (turns k).1.
  { destruct (sub32 c 1); [|done]. apply frontier_kept; [done|]. intros st' HP' _. split; [done|]. unfold interrupted. done. }
  destruct (next (outpoints w) sc) as [[sc' [[h hash ins]|er]]|]; [|by split|done]. cbv zeta.
  set (w' := foldl remove w (elements ins)).
  assert (∀ st', P st' → kept (report (turns k).2 e h last (λ last, skip_gap e (λ scanner cursor,
    run_sweep fuel turns e (S k) scanner w' cursor last) sc' w' (h + 1)) st')) as Hrest.
  { intros st' HP'. apply report_kept; [done|]. intros last' st2 HP2. unfold skip_gap.
    destruct (floor w') as [fl|]; [|by apply completed_kept]. destruct (_ <? _); [|by apply IH].
    apply frontier_kept; [done|]. intros st3 HP3 _. by apply IH. }
  case_bool_decide; [by apply Hrest|]. destruct (from_consensus h); [|by split]. by apply Hrest, Hinputs.
Qed.
Lemma process_spends_kept (sc : N → N → Sc) turns start st : P st → kept (process_spends sc turns start e st).
Proof.
  intros HP. unfold process_spends. destruct (floor _); [|by apply completed_kept].
  destruct (_ <? _); [by apply completed_kept|by apply run_sweep_kept].
Qed.
End kept.

Lemma reports_frontier h st : reports st (record_spend_frontier h st).
Proof.
  apply reports_state. destruct (persist_state (advance_spend_frontier h (scan_state st))) as (_ & _ & -> & _).
  unfold advance_spend_frontier. by destruct (advances _ _).
Qed.
Definition swept_reports st (s : Swept) : Prop := match s with Sweeps st' _ => reports st st' | _ => True end.
Lemma spends_report (sc : N → N → Sc) turns start e st0 st : reports st0 st → swept_reports st0 (process_spends sc turns start e st).
Proof.
  intros Hs. pose proof (process_spends_kept (reports st0) e) as Hk. unfold swept_reports.
  specialize (Hk ltac:(intros n st1 Hn Hst; etrans; [exact Hst|by apply reports_note])
    ltac:(intros st1 Hst; etrans; [exact Hst|apply reports_save])
    ltac:(intros h st1 _ Hst; etrans; [exact Hst|apply reports_frontier])
    ltac:(intros hash h ins st1 Hst; etrans; [exact Hst|apply record_inputs_reports]) sc turns start st Hs).
  destruct (process_spends sc turns start e st); [by destruct Hk|done..].
Qed.
Lemma roll_back_birthday f R st : birthday (SpScan.roll_back f R st) = birthday st.
Proof.
  unfold birthday, SpScan.roll_back. cbn [set_scan_state scan_state].
  destruct (persist_state (SpState.roll_back f (scan_state st))) as (_ & _ & -> & _).
  by destruct (roll_back_spec f (scan_state st)) as (_ & _ & -> & _).
Qed.
Lemma handle_reorg_reports hash_at start st : reports st (handle_reorg hash_at start st).1.
Proof.
  unfold handle_reorg. destruct (find_fork hash_at _) as [[f|]|]; [|done..].
  assert (reports st (SpScan.roll_back f (list_to_set (bt_range (λ h, f + 1 <=? h) (hashes (scan_state st))).*2) st)) as Hr.
  { apply reports_same; [done|]. apply roll_back_birthday. }
  destruct (from_consensus (f + 1)); (etrans; [exact Hr|]); by apply reports_note.
Qed.
Lemma pass_reports (p : Pass) start e st : swept_reports st (scan_pass p start e st).
Proof.
  unfold scan_pass, process_scan. pose proof (handle_reorg_reports (hash_at p) start st) as Hr.
  destruct (handle_reorg (hash_at p) start st) as [st1 [start'|er]]; [|done]. cbn [fst] in Hr.
  set (st2 := match header_store st1 with None => st1 | Some _ => _ end).
  assert (reports st1 st2) as Hs2 by (apply reports_same; unfold st2; by destruct (header_store st1)).
  set (st3 := match spend_frontier st2 with None => _ | Some _ => st2 end).
  assert (reports st2 st3) as Hs3.
  { unfold st3; destruct (spend_frontier st2); [done|]. destruct (_ <? _); [|done].
    etrans; [apply reports_frontier|apply reports_save]. }
  assert (reports st st3) as Hst3 by (etrans; [exact Hr|]; by etrans).
  clearbody st3. clear st2 Hs2 Hs3. cbv zeta.
  destruct (negb _ && negb _); [done|]. destruct (start' <=? e); [|by apply spends_report].
  destruct (process_blocks start' e (last_stop p) (arrivals p start' e) st3) as [[st4 [[|a b]|er]]|] eqn:Hb; [| | |done].
  - apply spends_report. etrans; [exact Hst3|]. by eapply quiet_blocks.
  - cbn. etrans; [exact Hst3|]. by eapply quiet_blocks.
  - cbn. etrans; [exact Hst3|]. by eapply quiet_blocks.
Qed.

(** *** What a thread reports *)

(** The protocol a listener sees. A continuous thread announces each pass, and its
    last word is where it stopped; a one-shot thread ends with the end of its pass. *)
Inductive Phase := Idle | Scanning | Failed | Over.
Definition phase_step (mode : ScanMode) (p : Phase) (n : Notification.SpNotification) : option Phase :=
  match p, n with
  | Idle, Notification.ScanStarted _ _ => Some Scanning
  | Idle, (Notification.WaitingForBlocks _ | Notification.NewBlocksDetected _ _) =>
      match mode with Continuous => Some Idle | OneShot => None end
  | Idle, Notification.FailStartScanning => match mode with Continuous => Some Failed | OneShot => Some Over end
  | Idle, (Notification.ScanCompleted | Notification.FailScan) =>
      match mode with Continuous => None | OneShot => Some Over end
  | Scanning, Notification.ScanCompleted => match mode with Continuous => Some Idle | OneShot => Some Over end
  | Scanning, Notification.FailScan => match mode with Continuous => Some Failed | OneShot => Some Over end
  | Scanning, Notification.ScanStopped _ _ => Some Over
  | (Idle | Failed), Notification.ScanStopped _ _ => match mode with Continuous => Some Over | OneShot => None end
  | Scanning, n => if pass_note n then Some Scanning else None
  | _, _ => None
  end.
Definition phases (mode : ScanMode) (p : option Phase) (l : list Notification.SpNotification) : option Phase :=
  foldl (λ p n, p ≫= λ p, phase_step mode p n) p l.
Lemma phases_app mode p l l' : phases mode p (l ++ l') = phases mode (phases mode p l) l'.
Proof. apply foldl_app. Qed.
Lemma phases_pass mode l : Forall (λ x, pass_note x = true) l → phases mode (Some Scanning) l = Some Scanning.
Proof. induction 1 as [|n l Hn _ IH]; [done|]. cbn. by destruct n. Qed.

(** From [p] to [q] over what was sent between two states. *)
Definition talks mode (p q : Phase) st st' : Prop := ∃ n, sent st' = sent st ++ n ∧ phases mode (Some p) n = Some q.
Lemma talks_trans mode p q r st1 st2 st3 : talks mode p q st1 st2 → talks mode q r st2 st3 → talks mode p r st1 st3.
Proof.
  intros (n & Hs1 & Hn) (n' & Hs2 & Hn'). exists (n ++ n'). rewrite Hs2, Hs1, app_assoc. split; [done|].
  by rewrite phases_app, Hn.
Qed.
Lemma talks_note mode p q n st : phase_step mode p n = Some q → talks mode p q st (notify n st).
Proof. intros Hn. by exists [n]. Qed.
Lemma talks_none mode p st : talks mode p p st st.
Proof. exists []. by rewrite app_nil_r. Qed.
Lemma talks_pass mode (p : Pass) start e a b st st' r :
  scan_pass p start e (notify (Notification.ScanStarted a b) st) = Sweeps st' r → talks mode Idle Scanning st st'.
Proof.
  intros Hp. pose proof (pass_reports p start e (notify (Notification.ScanStarted a b) st)) as Hr. rewrite Hp in Hr.
  destruct Hr as (_ & n & Hs & Hn). exists (Notification.ScanStarted a b :: n).
  split; [rewrite Hs; cbn; by rewrite <-app_assoc|]. by apply phases_pass.
Qed.

Definition run_reports mode (turns : list (Turn (Sc:=Sc))) st (r : Run) : Prop :=
  match r with
  | Ended st' => talks mode Idle Over st st' ∧
      (mode = Continuous → last (sent st') = Some (outcome_notification (interrupted st')))
  | Watching st' => mode = Continuous ∧ Forall (λ t, stopping t = false ∧ is_Some (tip t)) turns ∧ talks mode Idle Idle st st'
  | _ => True
  end.
Lemma stopped_reports p turns st0 st : phase_step Continuous p (outcome_notification (interrupted st)) = Some Over →
  talks Continuous Idle p st0 st → run_reports Continuous turns st0 (stopped st).
Proof.
  intros Hp Ht. split; [eapply talks_trans; [exact Ht|by apply talks_note]|]. intros _. cbn. by rewrite last_snoc.
Qed.
Lemma more_turns t turns st0 st r : stopping t = false → is_Some (tip t) → talks Continuous Idle Idle st0 st →
  run_reports Continuous turns st r → run_reports Continuous (t :: turns) st0 r.
Proof.
  intros Hstop Htip Ht. destruct r; cbn; [| |done..].
  - intros [Hr Hl]. split; [by eapply talks_trans|done].
  - intros (_ & Hf & Hr). split; [done|]. split; [by constructor|by eapply talks_trans].
Qed.
Lemma watch_loop_reports turns l w fs st : run_reports Continuous turns st (watch_loop turns l w fs st).
Proof.
  revert l w fs st; induction turns as [|t turns IH]; intros l w fs st; cbn [watch_loop].
  { split; [done|]. split; [done|apply talks_none]. }
  destruct (stopping t) eqn:Hstop; [by apply (stopped_reports Idle); [|apply talks_none]|].
  destruct (tip t) as [chain|] eqn:Htip; [|by apply (stopped_reports Failed); [|apply talks_note]].
  assert (is_Some (tip t)) as Hsome by (rewrite Htip; eauto).
  unfold resuming. destruct (next_scan_start (scan_state st)) as [resume|] eqn:Hr; [|done].
  destruct (next_spend_start (scan_state st)) as [spend|] eqn:Hr'; [|done].
  destruct (caught_up _ _ _ _).
  { eapply more_turns; [done..| |apply IH]. destruct w; [apply talks_none|by apply talks_note]. }
  set (st1 := match l with Some prev => _ | None => st end).
  assert (talks Continuous Idle Idle st st1) as Ht.
  { unfold st1. destruct l; [destruct (_ <? _)|]; [by apply talks_note|apply talks_none..]. }
  clearbody st1. destruct (from_consensus _) as [s|]; [|by eapply more_turns; [| | |apply IH]].
  destruct (from_consensus chain) as [e|]; [|by eapply more_turns; [| | |apply IH]].
  cbv zeta. set (st2 := notify _ st1).
  destruct (scan_pass (pass t) s e st2) as [st3 r| | |] eqn:Hp; [|done..].
  apply talks_pass with (mode:=Continuous) in Hp. pose proof (talks_trans _ _ _ _ _ _ _ Ht Hp) as Hs. cbn [after].
  destruct r as [[|a b]|er].
  - eapply more_turns; [done..| |apply IH]. eapply talks_trans; [exact Hs|by apply talks_note].
  - by apply (stopped_reports Scanning).
  - apply (stopped_reports Failed); [done|]. eapply talks_trans; [exact Hs|by apply talks_note].
Qed.
Lemma oneshot_reports start mb t turns st : run_reports OneShot (t :: turns) st (oneshot_thread start mb (tip t) (pass t) st).
Proof.
  unfold oneshot_thread. destruct (tip t) as [chain|]; [|by split; [apply talks_note|]].
  unfold resuming. destruct (next_scan_start (scan_state st)) as [resume|] eqn:Hr; [|done].
  destruct (next_spend_start (scan_state st)) as [spend|] eqn:Hr'; [|done].
  destruct (caught_up _ _ _ _); [by split; [apply talks_note|]|].
  destruct (from_consensus _) as [s|]; [|by split; [apply talks_note|]].
  destruct (from_consensus chain) as [e|]; [|by split; [apply talks_note|]]. cbv zeta. set (st2 := notify _ st).
  destruct (scan_pass (pass t) s e st2) as [st3 r| | |] eqn:Hp; [|done..].
  apply talks_pass with (mode:=OneShot) in Hp. cbn [after].
  destruct r as [[|a b]|er]; (split; [|done]); (eapply talks_trans; [exact Hp|by apply talks_note]).
Qed.
End reports.

(** ** A completed pass *)

Section completed.
Context `{Build} `{StateCodec} {B : Type} `{PersistenceBackend B}.
Context {CS : Type} `{!Store CS OutPoint SpCoinEntry} `{!StoreLaws CS OutPoint SpCoinEntry}.
Context `{!StoreTotal CS OutPoint SpCoinEntry}.
Context {TS : Type} `{!Store TS Txid SpTxStore.SpTxEntry}.
Context `{HeaderLib} {SH : Type} `{!Store SH N raw_header}.
Context {Sc : Type} `{!SpendScanner Sc} `{SpLib}.
Abbreviation Stores := (ScanStores (B:=B) (CS:=CS) (TS:=TS) (SH:=SH)).
Implicit Types st : Stores.

(** Frontiers are block heights. *)
Definition bounded st : Prop :=
  ∀ h, last_scanned_height (scan_state st) = Some h ∨ last_spend_height (scan_state st) = Some h → h < 500000000.
Definition scanned_at (e : N) st : Prop := ∃ x, last_scanned_height (scan_state st) = Some x ∧ e ≤ x.

Lemma advance_over_at hashes start heights st st' :
  advance_over hashes start heights st = Ret (st', Ok tt) →
  last_spend_height (scan_state st') = last_spend_height (scan_state st) ∧
  (∀ h, h ∈ heights ∨ scanned_at h st → scanned_at h st') ∧
  (bounded st → Forall (λ h, h < 500000000) heights → bounded st').
Proof.
  revert st; induction heights as [|h heights IH]; intros st; cbn [advance_over].
  { intros [= <-]. split; [done|]. split; [|done]. intros h [Hh|Hh]; [by apply not_elem_of_nil in Hh|done]. }
  intros (i & _ & (slot & _ & Hr)%obind_Ret)%obind_Ret. destruct slot as [hash|]; [|done].
  apply obind_Ret in Hr as (s & Hs & Hr). destruct (IH _ Hr) as (Hsp & Hat & Hb). cbn [set_scan_state scan_state] in *.
  assert (last_spend_height s = last_spend_height (scan_state st) ∧
    ∃ x, last_scanned_height s = Some x ∧ h ≤ x ∧ (last_scanned_height (scan_state st) = Some x ∨
      x = h ∧ ∀ y, last_scanned_height (scan_state st) = Some y → y < h)) as (Hsp' & x & Hx & Hhx & Hold).
  { unfold advance_frontier, advances in Hs. destruct (last_scanned_height (scan_state st)) as [y|] eqn:Hy.
    - destruct (N.ltb_spec y h).
      + apply obind_Ret in Hs as (n & _ & [= <-]). split; [done|]. exists h. split; [done|]. split; [done|]. right.
        split; [done|]. by intros z [= <-].
      + injection Hs as <-. split; [done|]. exists y. split_and!; [done|done|by left].
    - apply obind_Ret in Hs as (n & _ & [= <-]). split; [done|]. exists h. split_and!; [done..|by right]. }
  split; [congruence|]. split.
  - intros h' [[->|Hh']%elem_of_cons|Hh']; [apply Hat; right; by exists x|apply Hat; by left|]. apply Hat. right.
    destruct Hh' as (y & Hy & Hle). exists x. split; [done|]. destruct Hold as [Ho|[-> Ho]]; [simplify_eq; lia|].
    specialize (Ho y Hy). lia.
  - intros Hbd [Hh Hhs]%Forall_cons. apply Hb; [|done]. intros h' [Hh'|Hh'].
    + cbn in Hh'. assert (h' = x) as -> by congruence. destruct Hold as [Ho|[-> _]]; [|done]. apply Hbd. by left.
    + apply Hbd. right. cbn in Hh'. congruence.
Qed.
Lemma save_state_frontiers st :
  last_scanned_height (scan_state (save_state st)) = last_scanned_height (scan_state st) ∧
  last_spend_height (scan_state (save_state st)) = last_spend_height (scan_state st).
Proof. unfold save_state. cbn [set_scan_state set_tx_store set_coin_store scan_state]. by destruct (persist_state (scan_state st)) as (-> & -> & _). Qed.
Lemma bounded_frontiers st st' : last_scanned_height (scan_state st') = last_scanned_height (scan_state st) →
  last_spend_height (scan_state st') = last_spend_height (scan_state st) → bounded st → bounded st'.
Proof. intros Hs Hs' Hb h. rewrite Hs, Hs'. apply Hb. Qed.
Lemma frontier_at_end start t hashes st st' : start ≤ t → t < 500000000 →
  record_scan_frontier start t hashes st = Ret (st', Ok tt) → bounded st → bounded st' ∧ scanned_at t st'.
Proof.
  intros Hst Ht. unfold record_scan_frontier, sbind. set (from := N.max start (t + 1 - REORG_DEPTH)).
  destruct (advance_over _ _ _ st) as [[st1 [[]|er]]|] eqn:Ha; [|done..]. intros [= <-] Hb.
  destruct (advance_over_at _ _ _ _ _ Ha) as (_ & Hat & Hbd). destruct (persist_state (scan_state st1)) as (P1 & P2 & _).
  assert (from ≤ t) by (unfold from, REORG_DEPTH; lia).
  split.
  - apply (bounded_frontiers st1); [done|done|]. apply Hbd; [done|]. apply Forall_forall.
    intros h (_ & Hh)%elem_of_nseq. lia.
  - unfold scanned_at. cbn [set_scan_state scan_state]. rewrite P1. apply Hat. left. apply elem_of_nseq. lia.
Qed.
Lemma advance_tip_le fuel done start e next tip t : advance_tip fuel done start e next tip = Ret (Some t) →
  tip = Some t ∨ t ≤ e ∧ next ≤ t.
Proof.
  revert next tip; induction fuel as [|fuel IH]; intros next tip; cbn [advance_tip]; [intros [= ->]; by left|].
  destruct (N.ltb_spec e next); [intros [= ->]; by left|]. intros (d & _ & Hr)%obind_Ret. destruct d; [|injection Hr as ->; by left].
  destruct (IH _ _ Hr) as [[= <-]|Ht]; right; lia.
Qed.
(** The tip of the collector is within the range. *)
Definition tip_within (start e : N) (c : Collector) : Prop := ∀ t, recv_tip c = Some t → start ≤ t ≤ e.
Lemma commit_within start e h hash outs due c st st' c' : e < 500000000 → tip_within start e c → bounded st →
  commit_block start e h hash outs due c st = Ret (st', Ok c') → tip_within start e c' ∧ bounded st'.
Proof.
  intros He Hc Hb. unfold commit_block. intros Hr. apply obind_Ret in Hr as (i & _ & Hr).
  apply obind_Ret in Hr as (d & _ & Hr). apply obind_Ret in Hr as (hs & _ & Hr). apply obind_Ret in Hr as (t & Ht & Hr).
  set (st1 := if bool_decide (outs = ∅) then st else record_outputs outs st) in Hr.
  assert (bounded st1) as Hb1.
  { unfold st1. case_bool_decide; [done|]. intros x. rewrite record_outputs_state. apply Hb. }
  clearbody st1. assert (∀ t', t = Some t' → start ≤ t' ≤ e) as Hrange.
  { intros t' ->. destruct (advance_tip_le _ _ _ _ _ _ _ Ht) as [Hold|[Hle Hnext]]; [by apply Hc|].
    destruct (recv_tip c) as [t0|] eqn:Htip; [|lia]. specialize (Hc t0 Htip). lia. }
  assert (∀ (st2 : Stores) (c2 : Collector) b, recv_tip c2 = t → bounded st2 →
    match b, t with
    | true, Some t => sbind (record_scan_frontier start t (seen c2)) (λ _ st, Ret (save_state st, Ok c2)) st2
    | _, _ => Ret (st2, Ok c2)
    end = Ret (st', Ok c') → tip_within start e c' ∧ bounded st') as Hgo.
  { intros st2 c2 b Hc2 Hb2 Hk. destruct b, t as [t|]; [|injection Hk as <- <-; split; [by unfold tip_within; rewrite Hc2|done]..].
    unfold sbind in Hk. destruct (record_scan_frontier start t (seen c2) st2) as [[st3 [[]|er]]|] eqn:Hf; [|done..].
    injection Hk as <- <-. destruct (Hrange t eq_refl). apply frontier_at_end in Hf as [Hb3 _]; [|lia..|done].
    split; [by unfold tip_within; rewrite Hc2|]. destruct (save_state_frontiers st3). by apply (bounded_frontiers st3). }
  destruct t as [t|].
  - destruct (_ || _); (eapply (Hgo _ (mkCollector _ _ _ _ _) due); [..|exact Hr]; done).
  - eapply (Hgo _ (mkCollector _ _ _ _ _) due); [..|exact Hr]; done.
Qed.
Lemma collect_completes start e ls l c st st' : start ≤ e → e < 500000000 → tip_within start e c → bounded st →
  collect start e ls l c st = Ret (st', Ok Completed) → bounded st' ∧ scanned_at e st'.
Proof.
  intros Hse He. revert c st; induction l as [|a l IH]; intros c st Hc Hb; cbn [collect].
  - assert (∀ c st, stop_here start c st ≠ Ret (st', Ok Completed)) as Hno.
    { intros c0 st0. unfold stop_here, sbind. by destruct (match recv_tip c0 with Some _ => _ | None => _ end) as [[? [?|?]]|]. }
    destruct (negb _); [destruct ls; [by intros Hs%Hno|done]|]. unfold sbind.
    destruct (record_scan_frontier start e (seen c) st) as [[st1 [[]|er]]|] eqn:Hf; [|done..]. intros [= <-].
    apply frontier_at_end in Hf as [Hb1 Hat]; [|done..]. set (st2 := record_receive_progress e e st1).
    destruct (save_state_frontiers st2) as [Hs Hs']. split; [by apply (bounded_frontiers st1)|].
    destruct Hat as (x & Hx & Hle). exists x. by rewrite Hs.
  - destruct (rbind _ _) as [[[h hash] outs]|]; [|done]. unfold sbind.
    destruct (commit_block start e h hash outs (due a) c st) as [[st1 [c1|er]]|] eqn:Hcm; [|done..].
    destruct (commit_within _ _ _ _ _ _ _ _ _ _ He Hc Hb Hcm) as [Hc1 Hb1].
    destruct (SpScan.stopping a); [|by apply IH].
    unfold stop_here, sbind. by destruct (match recv_tip c1 with Some _ => _ | None => _ end) as [[? [?|?]]|].
Qed.
Lemma spends_complete (sc : N → N → Sc) turns start e st st' :
  process_spends sc turns start e st = Sweeps st' (Ok Completed) → bounded st →
  bounded st' ∧ last_scanned_height (scan_state st') = last_scanned_height (scan_state st) ∧ spend_at e st'.
Proof.
  intros Hp Hb.
  assert (kept (λ st', bounded st' ∧ last_scanned_height (scan_state st') = last_scanned_height (scan_state st)) e
    (process_spends sc turns start e st)) as Hk.
  { apply process_spends_kept; [done|..|done].
    - intros st1 [Hb1 Hs1]. destruct (save_state_frontiers st1) as [Hs Hs']. rewrite Hs.
      split; [by apply (bounded_frontiers st1)|done].
    - intros h st1 Hh [Hb1 Hs1]. unfold record_spend_frontier.
      destruct (persist_state (advance_spend_frontier h (scan_state st1))) as (P1 & P2 & _). unfold bounded.
      cbn [set_scan_state scan_state]. rewrite P1, P2. unfold advance_spend_frontier.
      destruct (advances _ h); [|done]. cbn [set_spend last_scanned_height last_spend_height].
      split; [|done]. intros x [Hx|[= <-]]; [apply Hb1; by left|done].
    - intros hash h ins st1. unfold bounded. by rewrite record_inputs_state. }
  rewrite Hp in Hk. destruct Hk as ([Hb' Hs] & Hc). auto.
Qed.
Lemma reorg_start hash_at start e st st1 start' : start < 500000000 → bounded st →
  handle_reorg hash_at start st = (st1, Ok start') →
  start' < 500000000 ∧ (0 < start → 0 < start') ∧ bounded st1 ∧ (start ≤ e ∨ scanned_at e st → start' ≤ e ∨ scanned_at e st1).
Proof.
  intros Hst Hb. unfold handle_reorg. destruct (find_fork hash_at _) as [[f|]|]; [|by intros [= <- <-]|done].
  destruct (from_consensus (f + 1)) as [above|] eqn:Hf; [|done].
  unfold from_consensus in Hf. destruct (N.ltb_spec (f + 1) 500000000); [|done]. injection Hf as <-. intros [= <- <-].
  cbn [notify scan_state]. split; [lia|]. split; [lia|].
  set (st2 := SpScan.roll_back _ _ st).
  assert (last_scanned_height (scan_state st2) = Some f ∧
    (∀ x, last_spend_height (scan_state st2) = Some x → x < 500000000)) as [Hl Hs].
  { unfold st2, SpScan.roll_back. cbn [set_scan_state set_tx_store set_coin_store scan_state].
    destruct (persist_state (SpState.roll_back f (scan_state st))) as (P1 & P2 & _). rewrite P1, P2.
    destruct (roll_back_spec f (scan_state st)) as (R1 & R2 & _). split; [done|]. rewrite R2. intros x Hx.
    destruct (last_spend_height (scan_state st)) as [y|]; [|done]. injection Hx as <-. lia. }
  split.
  - unfold bounded. cbn [notify scan_state]. rewrite Hl. intros x [[= <-]|Hx]; [lia|by apply Hs].
  - intros _. destruct (N.le_gt_cases (f + 1) e); [left; lia|]. right. exists f. cbn [notify scan_state]. rewrite Hl. split; [done|lia].
Qed.
(** The spend frontier a pass begins with. *)
Lemma sweep_ready start st1 st2 : start < 500000000 → bounded st1 → scan_state st2 = scan_state st1 →
  let st3 :=
    match spend_frontier st2 with
    | None => if 0 <? start then save_state (record_spend_frontier (start - 1) st2) else st2
    | Some _ => st2
    end in
  bounded st3 ∧ last_scanned_height (scan_state st3) = last_scanned_height (scan_state st1).
Proof.
  intros Hst Hb1 Hs2 st3.
  assert (bounded st2) as Hb2 by (unfold bounded; by rewrite Hs2).
  unfold st3. unfold spend_frontier. destruct (last_spend_height (scan_state st2)) eqn:Hsp; [by rewrite Hs2|].
  destruct (N.ltb_spec 0 start); [|by rewrite Hs2].
  destruct (save_state_frontiers (record_spend_frontier (start - 1) st2)) as [S1 S2].
  unfold bounded. rewrite S1, S2. unfold record_spend_frontier. cbn [set_scan_state scan_state].
  destruct (persist_state (advance_spend_frontier (start - 1) (scan_state st2))) as (P1 & P2 & _). rewrite P1, P2.
  unfold advance_spend_frontier, advances. rewrite Hsp. cbn [set_spend last_scanned_height last_spend_height].
  rewrite Hs2. split; [|done]. intros x [Hx|[= <-]]; [apply Hb1; by left|lia].
Qed.
Lemma pass_completes (p : Pass) start e st st' : start < 500000000 → e < 500000000 → bounded st →
  scan_pass p start e st = Sweeps st' (Ok Completed) →
  bounded st' ∧ spend_at e st' ∧ (start ≤ e ∨ scanned_at e st → scanned_at e st').
Proof.
  intros Hst He Hb. unfold scan_pass, process_scan.
  destruct (handle_reorg (hash_at p) start st) as [st1 [start'|er]] eqn:Hr; [|done].
  destruct (reorg_start _ _ e _ _ _ Hst Hb Hr) as (Hst' & _ & Hb1 & Hse1). clear Hr Hb Hst.
  set (st2 := match header_store st1 with None => st1 | Some _ => _ end).
  assert (scan_state st2 = scan_state st1) as Hs2 by (unfold st2; by destruct (header_store st1)).
  set (st3 := match spend_frontier st2 with None => _ | Some _ => st2 end).
  assert (bounded st3 ∧ last_scanned_height (scan_state st3) = last_scanned_height (scan_state st1)) as [Hb3 Hs3]
    by (by apply sweep_ready).
  assert (start ≤ e ∨ scanned_at e st → start' ≤ e ∨ scanned_at e st3) as Hse3 by (unfold scanned_at; by rewrite Hs3).
  clearbody st3. clear st2 Hs2 Hs3 Hb1 Hse1. cbv zeta. destruct (negb _ && negb _); [done|].
  destruct (N.leb_spec start' e) as [Hle|Hlt].
  - destruct (process_blocks _ _ _ _ st3) as [[st4 [[|a b]|er]]|] eqn:Hbl; [|done..]. intros Hp.
    unfold process_blocks in Hbl. apply obind_Ret in Hbl as (d & _ & Hbl).
    apply collect_completes in Hbl as [Hb4 Hat4]; [|done..].
    destruct (spends_complete _ _ _ _ _ _ Hp Hb4) as (Hb' & Hs' & Hsp). split; [done|]. split; [done|]. intros _.
    unfold scanned_at. by rewrite Hs'.
  - intros Hp. destruct (spends_complete _ _ _ _ _ _ Hp Hb3) as (Hb' & Hs' & Hsp).
    split; [done|]. split; [done|]. intros Hse. destruct (Hse3 Hse) as [|Hat]; [lia|]. unfold scanned_at. by rewrite Hs'.
Qed.

(** A completed scan has nothing left to do. When a pass completes, its start being
    within the range or the range being scanned already, then at the same tip a one-shot
    scan reports that it is complete without a pass, and the loop of a continuous one
    waits for blocks, saying so once. *)
Theorem completed_pass_rests (p : Pass) start chain_height st st' :
  start < 500000000 → chain_height < 500000000 → bounded st → start ≤ chain_height ∨ scanned_at chain_height st →
  scan_pass p start chain_height st = Sweeps st' (Ok Completed) →
  ∀ st2, scan_state st2 = scan_state st' →
    (∀ min_birthday p', oneshot_thread None min_birthday (Some chain_height) p' st2 = Ended (notify Notification.ScanCompleted st2)) ∧
    (∀ t turns l waiting, stopping t = false → tip t = Some chain_height →
      watch_loop (t :: turns) l waiting None st2 =
      watch_loop turns l true None (if waiting then st2 else notify (Notification.WaitingForBlocks chain_height) st2)).
Proof.
  intros Hst Hc Hb Hse Hp st2 Hst2.
  destruct (pass_completes _ _ _ _ _ Hst Hc Hb Hp) as (Hb' & (y & Hy & Hcy) & Hat). destruct (Hat Hse) as (x & Hx & Hcx).
  assert (next_scan_start (scan_state st2) = Ret (x + 1) ∧ next_spend_start (scan_state st2) = Ret (y + 1)) as [Hn Hn'].
  { unfold next_scan_start, next_spend_start, next_start. rewrite Hst2, Hx, Hy.
    pose proof (Hb' x (or_introl Hx)). pose proof (Hb' y (or_intror Hy)).
    unfold add32. split; apply add_w_ok; lia. }
  split.
  - intros mb p'. unfold oneshot_thread, resuming. rewrite Hn, Hn'. unfold caught_up. cbn [default].
    rewrite bool_decide_eq_true_2 by done. do 2 rewrite (proj2 (N.ltb_lt _ _)) by lia. done.
  - intros t turns l w Hstop Ht. cbn [watch_loop]. rewrite Hstop, Ht. unfold resuming. rewrite Hn, Hn'. unfold caught_up.
    cbn [default]. rewrite bool_decide_eq_true_2 by done. do 2 rewrite (proj2 (N.ltb_lt _ _)) by lia. done.
Qed.

(** *** Every call of a pass returns *)

(** The collector has a slot for each height of the range. *)
Definition sized (start e : N) (c : Collector) : Prop :=
  N.of_nat (length (done_ c)) = e + 1 - start ∧ length (seen c) = length (done_ c) ∧ tip_within start e c.
Lemma advance_over_returns hashes start heights st :
  Forall (λ h, start ≤ h < u32_max ∧ (N.to_nat (h - start) < length hashes)%nat) heights →
  ∃ st' r, advance_over hashes start heights st = Ret (st', r).
Proof.
  intros Hf. revert st; induction Hf as [|h heights [Hh Hl] _ IH]; intros st; cbn [advance_over]; [eauto|].
  unfold sub32. rewrite sub_w_ok by lia. cbn [obind]. destruct (lookup_lt_is_Some_2 _ _ Hl) as [slot ->]. cbn [expect obind].
  destruct slot as [hash|]; [|eauto]. destruct (advance_frontier_ret h hash (scan_state st)) as [s ->]; [lia|]. apply IH.
Qed.
Lemma frontier_returns start e t hashes st : start ≤ t ≤ e → e < 500000000 → N.of_nat (length hashes) = e + 1 - start →
  ∃ st' r, record_scan_frontier start t hashes st = Ret (st', r).
Proof.
  intros Ht He Hl. unfold record_scan_frontier, sbind.
  destruct (advance_over_returns hashes start (nseq (N.max start (t + 1 - REORG_DEPTH))
    (N.to_nat (t + 1 - N.max start (t + 1 - REORG_DEPTH)))) st) as (st1 & [[]|er] & ->); [|by eexists _, _..].
  apply Forall_forall. intros h [Hlo Hh]%elem_of_nseq. unfold u32_max. lia.
Qed.
Lemma commit_returns start e h hash outs due c st : start ≤ h ≤ e → e < 500000000 → sized start e c →
  ∃ st' r, commit_block start e h hash outs due c st = Ret (st', r) ∧ ∀ c', r = Ok c' → sized start e c'.
Proof.
  intros Hh He (Hd & Hs & Ht). unfold commit_block, sub32. rewrite sub_w_ok by lia. cbn [obind].
  destruct (lookup_lt_is_Some_2 (done_ c) (N.to_nat (h - start))) as [d ->]; [lia|]. cbn [expect obind].
  destruct (lookup_lt_is_Some_2 (seen c) (N.to_nat (h - start))) as [x ->]; [lia|]. cbn [expect obind].
  set (dn := <[_ := true]> (done_ c)). set (hs := <[_ := Some hash]> (seen c)).
  assert (N.of_nat (length dn) = e + 1 - start ∧ length hs = length dn) as [Hdn Hhs]
    by (unfold dn, hs; by rewrite !length_insert).
  set (next := match recv_tip c with Some t => t + 1 | None => start end).
  assert (start ≤ next ≤ e + 1) as Hnext.
  { unfold next. destruct (recv_tip c) as [t|] eqn:E; [|lia]. specialize (Ht t E). lia. }
  destruct (advance_tip_spec (Datatypes.S (length dn)) dn start e next (recv_tip c)) as (n & -> & Hn & _); [done|lia..|]. cbn [obind].
  set (tip := if decide (n = next) then recv_tip c else Some (n - 1)).
  assert (∀ t, tip = Some t → start ≤ t ≤ e) as Htip.
  { unfold tip. case_decide; [apply Ht|]. intros t [= <-]. lia. }
  match goal with |- context [match ?p with (_, _) => _ end] => destruct p as [[st1 prog] notif] end.
  assert (sized start e (mkCollector dn hs tip prog notif)) as Hc' by done. clearbody tip.
  destruct due, tip as [t|]; [|by eexists _, _; split; [done|intros c' [= <-]]..]. unfold sbind.
  destruct (frontier_returns start e t hs st1) as (st2 & [[]|er] & ->); [by apply Htip|done|congruence|by eexists _, _; split; [done|intros c' [= <-]]..].
Qed.
Lemma stop_returns start e c st : sized start e c → e < 500000000 → ∃ st' r, stop_here start c st = Ret (st', r).
Proof.
  intros (Hd & Hs & Ht) He. unfold stop_here, sbind. destruct (recv_tip c) as [t|] eqn:E; [|by eexists _, _].
  destruct (frontier_returns start e t (seen c) st) as (st1 & [[]|er] & ->); [by apply Ht|done|congruence|by eexists _, _..].
Qed.
(** A message of the pass's own range. *)
Definition in_range (start e : N) (a : Arrival) : Prop :=
  ∀ m x, msg a = Ok m → block_of m = Ok x → start ≤ x.1.1 ≤ e.
Lemma collect_returns start e ls l c st : start ≤ e → e < 500000000 → Forall (in_range start e) l → sized start e c →
  ∃ st' r, collect start e ls l c st = Ret (st', r).
Proof.
  intros Hse He Hl. revert c st; induction Hl as [|a l Ha _ IH]; intros c st Hc; cbn [collect].
  - destruct (negb _); [destruct ls; [by eapply stop_returns|eauto]|]. unfold sbind.
    destruct (frontier_returns start e e (seen c) st) as (st1 & [[]|er] & ->); [lia|done|destruct Hc as (? & ? & _); congruence|by eexists _, _..].
  - destruct (msg a) as [m|er] eqn:Hm; cbn [rbind]; [|eauto]. destruct (block_of m) as [[[h hash] outs]|er] eqn:Hb; [|eauto].
    destruct (commit_returns start e h hash outs (due a) c st (Ha _ _ Hm Hb) He Hc) as (st1 & [c1|er] & Hr & Hc1);
      unfold sbind; rewrite Hr; [|eauto].
    destruct (SpScan.stopping a); [by eapply stop_returns, He; apply Hc1|by apply IH, Hc1].
Qed.
Lemma blocks_return start e ls l st : start ≤ e → e < 500000000 → Forall (in_range start e) l →
  ∃ st' r, process_blocks start e ls l st = Ret (st', r).
Proof.
  intros Hse He Hl. unfold process_blocks, sub32. rewrite sub_w_ok by lia. cbn [obind]. apply collect_returns; [done..|].
  split; [|split]; cbn [done_ seen]; [rewrite length_replicate; lia|by rewrite !length_replicate|done].
Qed.

Definition returns (s : Swept) : Prop := ∃ st r, s = Sweeps st r.
Lemma frontier_at_returns h st k : (∀ st', returns (k st')) → returns (frontier_at h st k).
Proof. intros Hk. unfold frontier_at. destruct (from_consensus h); [apply Hk|by eexists _, _]. Qed.
Lemma sweep_returns e `{A : !AnsweringScanner Sc e} fuel turns k sc w c last st :
  0 < c → answering_at sc c → e + 1 - c < N.of_nat fuel → returns (run_sweep fuel turns e k sc w c last st).
Proof.
  assert (∀ st, returns (frontier_at e st (λ st, Sweeps st (Ok Completed)))) as Hend
    by (intros st'; apply frontier_at_returns; intros; by eexists _, _).
  revert k sc w c last st. induction fuel as [|fuel IH]; intros k sc w c last st Hc Hat Hf; [lia|]. cbn [run_sweep].
  destruct (N.ltb_spec e c); [done|]. destruct (turns k).1.
  { unfold sub32. rewrite sub_w_ok by lia. apply frontier_at_returns. intros; by eexists _, _. }
  destruct (answers_spec sc c (outpoints w) Hat) as (sc' & r & -> & Hr); [done|].
  destruct r as [[h hash ins]|er]; [|by eexists _, _]. destruct (Hr _ eq_refl) as [Hh Hat']. cbn [sp_height] in Hh. subst h. cbv zeta.
  set (w' := foldl remove w (elements ins)).
  assert (∀ st', returns (report (turns k).2 e c last (λ last, skip_gap e (λ scanner cursor,
    run_sweep fuel turns e (Datatypes.S k) scanner w' cursor last) sc' w' (c + 1)) st')) as Hrest.
  { intros st'. unfold report.
    assert (∀ last st, returns (skip_gap e (λ scanner cursor,
      run_sweep fuel turns e (Datatypes.S k) scanner w' cursor last) sc' w' (c + 1) st)) as Hskip.
    { intros last' st2. unfold skip_gap. destruct (floor w') as [fl|]; [|done].
      destruct (N.ltb_spec (c + 1) fl); [|apply IH; [lia|done|lia]]. apply frontier_at_returns. intros st3.
      apply IH; [lia| |lia]. apply (answers_jump sc' (c + 1)); [done|lia]. }
    destruct (turns k).2; [by apply frontier_at_returns|apply Hskip]. }
  case_bool_decide; [apply Hrest|]. destruct (from_consensus c); [apply Hrest|by eexists _, _].
Qed.
Lemma spends_return e `{A : !AnsweringScanner Sc e} (sc : N → N → Sc) turns start st : 0 < start →
  (∀ c, answering_at (sc c e) c) → returns (process_spends sc turns start e st).
Proof.
  intros Hst Hat. unfold process_spends.
  assert (∀ st, returns (frontier_at e st (λ st, Sweeps st (Ok Completed)))) as Hend
    by (intros st'; apply frontier_at_returns; intros; by eexists _, _).
  assert (0 < effective_spend_start st start) as Hres.
  { unfold effective_spend_start. destruct (spend_frontier st) as [f|]; [|done]. destruct (N.leb_spec start f); lia. }
  destruct (floor _) as [fl|]; [|done]. destruct (N.ltb_spec e (N.max (effective_spend_start st start) fl)); [done|].
  apply (sweep_returns e); [lia|apply Hat|lia].
Qed.

(** What a pass meets is in order: every message is one of a height of its range, and its
    scanner answers. *)
Definition answered (p : Pass) : Prop :=
  (∀ start e a, start ≤ e → a ∈ arrivals p start e → in_range start e a) ∧
  ∀ e, e < 500000000 → ∃ A : AnsweringScanner Sc e, ∀ c, answering_at (scanner p c e) c.
Lemma pass_returns (p : Pass) start e st : answered p → 0 < start → start < 500000000 → e < 500000000 → bounded st →
  returns (scan_pass p start e st).
Proof.
  intros [Hl Hsc] Hpos Hst He Hb. destruct (Hsc e He) as [A Hat]. unfold scan_pass, process_scan.
  destruct (handle_reorg (hash_at p) start st) as [st1 [start'|er]] eqn:Hr; [|by eexists _, _].
  destruct (reorg_start _ _ e _ _ _ Hst Hb Hr) as (Hst' & Hpos' & _). specialize (Hpos' Hpos). cbv zeta.
  destruct (negb _ && negb _); [by eexists _, _|].
  destruct (N.leb_spec start' e); [|by apply (spends_return e)].
  match goal with |- context [process_blocks ?a ?b ?c ?d ?f] => destruct (blocks_return a b c d f) as (st4 & res & ->) end;
    [done..|by apply Forall_forall; intros a; apply Hl|].
  destruct res as [[|x y]|er]; [by apply (spends_return e)|by eexists _, _..].
Qed.

(** *** The threads end *)

Lemma bounded_notify n st : bounded st → bounded (notify n st).
Proof. done. Qed.
Lemma resuming_bounded st k : bounded st → 0 < birthday st → ∃ scan spend, 0 < scan ∧ resuming st k = k scan spend.
Proof.
  intros Hb Hbirth. unfold resuming, next_scan_start, next_spend_start, next_start, add32.
  destruct (last_scanned_height (scan_state st)) as [x|] eqn:Hx.
  - pose proof (Hb x (or_introl Hx)). rewrite (add_w_ok _ x) by lia.
    destruct (last_spend_height (scan_state st)) as [y|] eqn:Hy; [|exists (x + 1), (birthday st); split; [lia|done]].
    pose proof (Hb y (or_intror Hy)). rewrite add_w_ok by lia. exists (x + 1), (y + 1). split; [lia|done].
  - destruct (last_spend_height (scan_state st)) as [y|] eqn:Hy; [|by exists (birthday st), (birthday st)].
    pose proof (Hb y (or_intror Hy)). rewrite add_w_ok by lia. by exists (birthday st), (y + 1).
Qed.
Lemma from_consensus_inv h h' : from_consensus h = Ok h' → h' = h ∧ h < 500000000.
Proof. unfold from_consensus. destruct (N.ltb_spec h 500000000); [|done]. by intros [= ->]. Qed.
Lemma pass_birthday (p : Pass) start e st st' r : scan_pass p start e st = Sweeps st' r → birthday st' = birthday st.
Proof. intros Hp. pose proof (pass_reports p start e st) as Hr. rewrite Hp in Hr. apply Hr. Qed.

(** The end of a thread, or of what it met. *)
Definition comes_back (r : Run (B:=B) (CS:=CS) (TS:=TS) (SH:=SH)) : Prop := match r with Ended _ | Watching _ => True | _ => False end.
Lemma watch_loop_returns turns l w fs st : Forall (λ t, answered (pass t)) turns → bounded st → 0 < birthday st →
  (∀ h, fs = Some h → 0 < h) → comes_back (watch_loop turns l w fs st).
Proof.
  intros Hf. revert l w fs st; induction Hf as [|t turns Ht _ IH]; intros l w fs st Hb Hbirth Hfs; cbn [watch_loop]; [done|].
  destruct (stopping t); [done|]. destruct (tip t) as [chain|]; [|done].
  match goal with |- context [resuming st ?k] => destruct (resuming_bounded st k Hb Hbirth) as (scan & spend & Hscan & ->) end.
  destruct (caught_up _ _ _ _); [apply IH; [by destruct w..|done]|].
  set (st1 := match l with Some prev => _ | None => st end).
  assert (bounded st1 ∧ birthday st1 = birthday st) as [Hb1 Hbirth1] by (unfold st1; destruct l; [by destruct (_ <? _)|done]).
  clearbody st1. assert (0 < default scan fs) as Hpos by (destruct fs; [by apply Hfs|done]).
  destruct (from_consensus (default scan fs)) as [s|] eqn:Hs; [|by apply IH; [|rewrite Hbirth1|]].
  destruct (from_consensus chain) as [e|] eqn:He; [|by apply IH; [|rewrite Hbirth1|]]. cbv zeta.
  apply from_consensus_inv in Hs as [-> Hs], He as [-> He].
  destruct (pass_returns (pass t) (default scan fs) chain (notify (Notification.ScanStarted (N.min (default scan fs) chain) chain) st1) Ht)
    as (st3 & res & Hp); [done..|]. rewrite Hp. cbn [after]. destruct res as [[|x y]|er]; [|done..].
  pose proof (pass_birthday _ _ _ _ _ _ Hp) as Hbirth3. change (birthday (notify _ st1)) with (birthday st1) in Hbirth3.
  apply pass_completes in Hp as [Hb3 _]; [|done..]. apply IH; [done| |done].
  change (birthday (notify _ st3)) with (birthday st3). by rewrite Hbirth3, Hbirth1.
Qed.
Lemma oneshot_returns start mb t st : answered (pass t) → bounded st → 0 < birthday st → (∀ h, start = Some h → 0 < h) →
  ∃ st', oneshot_thread start mb (tip t) (pass t) st = Ended st'.
Proof.
  intros Ht Hb Hbirth Hfs. unfold oneshot_thread. destruct (tip t) as [chain|]; [|eauto].
  match goal with |- context [resuming st ?k] => destruct (resuming_bounded st k Hb Hbirth) as (scan & spend & Hscan & ->) end.
  destruct (caught_up _ _ _ _); [eauto|].
  assert (0 < N.max (default scan start) mb) as Hpos by (destruct start as [h|]; [specialize (Hfs h eq_refl)|]; cbn; lia).
  destruct (from_consensus (N.max _ mb)) as [s|] eqn:Hs; [|eauto]. destruct (from_consensus chain) as [e|] eqn:He; [|eauto]. cbv zeta.
  apply from_consensus_inv in Hs as [-> Hs], He as [-> He].
  match goal with |- context [scan_pass (pass t) ?a ?b ?c] =>
    destruct (pass_returns (pass t) a b c Ht) as (st3 & res & ->); [done..|] end.
  cbn [after]. destruct res as [[|x y]|er]; eauto.
Qed.

(** C29. A scan thread returns, and a listener is told the whole story. Whatever it meets,
    a one-shot thread that ends has sent exactly one of a failed start, a completed,
    stopped or failed scan, after the reports of its pass; a continuous thread announces
    each of its passes, reports each completed one, and ends with where it stopped, the
    frontiers being those of the store; it goes on only while the stop flag is down and
    the oracle answers. And a thread comes back, the one-shot one to its end, when the
    messages of its passes are of heights of their ranges, their scanners answer for the
    heights in order, the frontiers it starts from are heights of blocks, and neither the
    birthday nor the start asked for is 0. *)
Theorem scan_thread_reports mode start min_birthday (first : Turn (Sc:=Sc)) turns st :
  match run_thread mode start min_birthday first turns st with
  | Ended st' => talks mode Idle Over st st' ∧
      (mode = Continuous → last (sent st') = Some (outcome_notification (interrupted st')))
  | Watching st' => mode = Continuous ∧ Forall (λ t, stopping t = false ∧ is_Some (tip t)) (first :: turns) ∧
      talks mode Idle Idle st st'
  | RunPanics | RunHangs | RunNoFuel => True
  end ∧
  (Forall (λ t, answered (pass t)) (first :: turns) → bounded st → 0 < birthday st → (∀ h, start = Some h → 0 < h) →
   ∃ st', run_thread mode start min_birthday first turns st = Ended st' ∨
     mode = Continuous ∧ run_thread mode start min_birthday first turns st = Watching st').
Proof.
  split; [destruct mode; [apply (oneshot_reports start min_birthday first turns)|apply watch_loop_reports]|].
  intros Ht Hb Hbirth Hs. destruct mode; cbn [run_thread].
  - apply Forall_cons in Ht as [Ht _]. destruct (oneshot_returns start min_birthday first st Ht Hb Hbirth Hs) as [st' ->]. eauto.
  - pose proof (watch_loop_returns (first :: turns) None false start st Ht Hb Hbirth Hs) as Hr. unfold continuous_thread.
    destruct (watch_loop (first :: turns) None false start st); [eauto..|done|done|done].
Qed.
End completed.

(** ** Witnesses *)
Module Witness.
Import Persist.Witness SpState.Witness SpScan.Witness SpSweep.Witness.
Import HeaderValidator.Sample.
#[local] Existing Instance SpSweep.Witness.honest.
#[local] Instance sweep_scanner : SpendScanner Blindbit := blindbit_scanner sched.

(** The blocks 100 to 103, which pay us twice; the same chain afterwards. *)
Definition whole : Pass :=
  mkPass (λ h, Ok (hash_of h))
    (λ _ _, [arrive false false 103; arrive false false 100; arrive true false 102; arrive false false 101]) false
    (blindbit_new 8) calm.
Definition scanned : SpScan.Witness.Stores := match scan_pass whole 100 103 wst0 with Sweeps st _ => st | _ => wst0 end.
Lemma whole_completes : scan_pass whole 100 103 wst0 = Sweeps scanned (Ok Completed).
Proof.
  assert (match scan_pass whole 100 103 wst0 with Sweeps _ (Ok Completed) => true | _ => false end = true) as Hc
    by (vm_compute; reflexivity).
  unfold scanned. destruct (scan_pass whole 100 103 wst0) as [st [[|]|]| | |]; done.
Qed.
Lemma completed_pass_rests_witness :
  scan_pass whole 100 103 wst0 = Sweeps scanned (Ok Completed) ∧
  oneshot_thread None 1 (Some 103) whole scanned = Ended (notify Notification.ScanCompleted scanned).
Proof.
  split; [exact whole_completes|].
  destruct (completed_pass_rests whole 100 103 wst0 scanned) with (st2 := scanned) as [Hone _];
    [done|done| |by left|exact whole_completes|done|].
  - intros h [[=]|[=]].
  - exact (Hone 1 whole).
Defined.

(** The same chain, whatever range is asked for. *)
Definition asked : Pass :=
  mkPass (λ h, Ok (hash_of h))
    (λ start e, arrive false false <$> List.filter (λ h, (start <=? h) && (h <=? e)) [103; 100; 102; 101]) false
    (blindbit_new 8) calm.
Lemma oracle_answers e : e < 500000000 → OracleLaws ∅ e hash_of flt idx.
Proof.
  intros He. split; [done|done|done|done| |].
  - intros h keys _. eexists. split; [done|]. intros (k & _ & Hk). unfold flt, idx in *.
    cbn [fd_data]. destruct (h =? 105); [done|]. destruct (h =? 230); [done|]. by apply elem_of_nil in Hk.
  - intros h o o' _ Ho. by apply elem_of_empty in Ho.
Qed.
Lemma asked_answered : answered asked.
Proof.
  split.
  - intros start e a _ (h & -> & Hh)%list_elem_of_fmap m x Hm Hx.
    apply list_elem_of_In, filter_In in Hh as [Hh [H1%N.leb_le H2%N.leb_le]%andb_true_iff].
    cbn [In] in Hh. destruct Hh as [<-|[<-|[<-|[<-|[]]]]];
      vm_compute in Hm; injection Hm as <-; vm_compute in Hx; injection Hx as <-; split; [exact H1|exact H2|exact H1|exact H2|exact H1|exact H2|exact H1|exact H2].
  - intros e He. pose proof (oracle_answers e He) as O.
    exists (blindbit_answering sched ∅ e hash_of flt idx). intros c.
    by apply (blindbit_new_at ∅ e hash_of flt idx sched 8 c).
Qed.
Lemma asked_turns n : Forall (λ t, answered (pass t)) (replicate n (mkTurn false (Some 103) asked)).
Proof. apply Forall_replicate, asked_answered. Qed.
Lemma scan_thread_reports_witness :
  (∃ st', run_thread OneShot None 1 (mkTurn false (Some 103) asked) [] wst0 = Ended st' ∧
    last (sent st') = Some Notification.ScanCompleted) ∧
  ∃ st', run_thread Continuous None 1 (mkTurn false (Some 103) asked) [mkTurn false (Some 103) asked] wst0 = Watching st'.
Proof.
  split.
  - destruct (proj2 (scan_thread_reports OneShot None 1 (mkTurn false (Some 103) asked) [] wst0)) as [st' [Hr|[[=] _]]];
      [exact (asked_turns 1)|by intros h [[=]|[=]]|done|done|].
    exists st'. split; [exact Hr|].
    assert (match run_thread OneShot None 1 (mkTurn false (Some 103) asked) [] wst0 with Ended st => last (sent st) | _ => None end =
      Some Notification.ScanCompleted) as Hl by (vm_compute; reflexivity).
    rewrite Hr in Hl. exact Hl.
  - destruct (proj2 (scan_thread_reports Continuous None 1 (mkTurn false (Some 103) asked) [mkTurn false (Some 103) asked] wst0))
      as [st' [Hr|[_ Hr]]];
      [exact (asked_turns 2)|by intros h [[=]|[=]]|done|done| |by exists st'].
    assert (match run_thread Continuous None 1 (mkTurn false (Some 103) asked) [mkTurn false (Some 103) asked] wst0 with
      Ended _ => true | _ => false end = false) as Hl by (vm_compute; reflexivity).
    rewrite Hr in Hl. discriminate Hl.
Defined.

(** A continuous scan of that chain, waiting at its tip, then stopped. *)
Example watched_then_stopped :
  match continuous_thread None
          [mkTurn false (Some 103) whole; mkTurn false (Some 103) whole; mkTurn false (Some 103) whole;
           mkTurn true None whole] wst0 with
  | Ended st => sent st =
      [Notification.ScanStarted 100 103; Notification.NewOutput op9; Notification.ScanReceiveProgress 100 103;
       Notification.NewOutput op7; Notification.ScanReceiveProgress 103 103; Notification.ScanCompleted;
       Notification.WaitingForBlocks 103; Notification.ScanStopped (Some 103) (Some 103)]
  | _ => False
  end.
Proof. vm_compute. reflexivity. Qed.
End Witness.
End SpControl.
